(* ===== verification/_CoqProject ===== *)
-Q . S2P
Prelude.v
Wire.v
ObjectIdentity.v
ObjectRegistry.v
SharedRing.v
RingSpsc.v
Descriptors.v
WrPosting.v
CompletionQueue.v
LocalTransport.v
Worker.v
WorkerStream.v
WorkerRespond.v
WorkerRequest.v
WorkerRound.v
DataPath.v
Delivery.v
CopyHost.v
CopyCore.v
CopyTable.v
GpuBackend.v
GpuLink.v
CudaApi.v
VisibilityGate.v
WarpQueue.v
WarpHost.v
WarpPipeline.v
WarpOrder.v
WarpFifo.v
WarpProgress.v
WarpRuntime.v
GpuDataPath.v
CopySetup.v
PartitionQueue.v
ShardedQueue.v
AtomicQueue.v
SeqRing.v
WarpSpecialized.v
SpecializedFifo.v
PayloadBuffer.v
Protocol.v
Adapter.v
QueueDescriptors.v
IpcSession.v
Control.v
DeviceContext.v
PdMrCq.v
Qp.v
ControlSpec.v
ControlRefine.v
ControlPlane.v
ControlRings.v
ControlStatus.v
ControlInts.v
CudaIpcMemory.v
ClientControl.v
ClientRuntime.v
ClientHandles.v
ClientCalls.v
ClientDaemon.v
Daemon.v
