(* ===== verification/Prelude.v ===== *)
(** * A verification of UGDR

    UGDR emulates RDMA verbs between processes of one host.  An application links the
    client library (src/api, include/ugdr/api.hpp); a daemon owns all objects and moves
    the data.  The two talk over a local socket for control and over shared-memory
    rings for data.

    ** The program and the files of this library

    The paths below are those of the repository.

    - Machine integers, results, errno values, shared tactics and list lemmas: this
      file.  Unsigned integers are [Z] with the wrap-around of their width written out
      ([u8] to [u64]); fallible functions return [result].
    - src/control/object_identity: ObjectIdentity.v.  src/control/object_registry.hpp:
      ObjectRegistry.v, a [GenerationRegistry] with its slots and free list, refined to
      a finite map from identities to owner and record.
    - src/queue/shared_ring: SharedRing.v (the object, its creation and mapping, the
      four operations) and RingSpsc.v (producer and consumer processes interleaved,
      with possibly stale loads of the other side's position).
    - src/queue/descriptors.hpp: Descriptors.v, the bytes of the entries in a slot.
      src/api/wr_posting.cpp: WrPosting.v.  src/queue/completion_queue.cpp and
      [ugdr_poll_cq] of src/api/api.cpp: CompletionQueue.v.
    - src/worker/local_transport and copy_backend.hpp: LocalTransport.v; the backend is
      the class [CopyBackend].  src/worker/worker: Worker.v, with the key lookups of
      the daemon as the class [KeyResolver].  The properties of the worker are in
      WorkerStream.v (the datagrams of a write), WorkerRespond.v (the responder),
      WorkerRequest.v (the requester), WorkerRound.v (its rounds end), DataPath.v (a
      requester and a responder over one transport, their steps interleaved) and Delivery.v
      (the two taking turns, until a write is with the backend).
    - Byte order and the readers and writers of scalars: Wire.v.  src/ipc: Protocol.v
      (messages and descriptors over a sequenced-packet socket, with the descriptor tables of
      the two processes; the class [DescriptorAllocation] is the kernel's choice of new
      numbers) and IpcSession.v (server and client); the server runs any instance of the class [IpcHandler].
    - src/control/ipc_adapter: Adapter.v.  src/control/queue_descriptor.hpp:
      QueueDescriptors.v.  src/control/control: Control.v, which makes any instance of
      the class [ControlService] an [IpcHandler].
    - src/control/device_context, pd_mr_cq and qp: DeviceContext.v, PdMrCq.v and Qp.v.
      The three services, which inherit from one another in the code, contain one
      another here; [QpService] is an instance of [ControlService].  CUDA memory
      sharing (src/gpu/cuda_ipc_memory.hpp) is the class [CudaIpcMemoryBackend]; the
      answers of the system calls behind ring creation are in the record [Kernel].
      The implementation of that class over CUDA, and the client's export of memory, are
      CudaIpcMemory.v; CUDA itself is a class, its result codes are CudaApi.v.  The class
      [CudaSharing] says which device has an allocation, what a handle stands for and in which
      device's address space opening it maps the allocation.
    - The contract of the control service is ControlSpec.v: tables of live objects,
      what each request does to them as a transition relation, and an integrity
      invariant.  ControlRefine.v shows that every handler refines it, ControlPlane.v,
      ControlStatus.v and ControlInts.v state the properties, and ControlPlane.v shows
      that the service keeps the laws of [KeyResolver] that the worker's theorems assume.
      ControlRings.v accounts for the ring mappings the services hold.
    - src/gpu/persistent_copy_backend: CopyHost.v (the host's table of tasks, its batch and
      its local completions), CopyTable.v (the invariant of that table) and GpuBackend.v
      (the backend, an instance of [CopyBackend] that keeps the laws the worker needs).
      The device runtime, the visibility gate and the clock are classes;
      src/gpu/gpudirect_visibility, an instance of the second, is VisibilityGate.v.  The copy of one
      task by a warp (src/gpu/persistent_copy.cu, from [copy_cg_16] to [access_counts]) is
      CopyCore.v: the accesses of each lane, and the lanes interleaved.  The queue the
      backend's runtime owns ([WarpSpecializedQueue]) is WarpQueue.v, and the kernel it
      launches ([warp_specialized_pipeline_kernel]) WarpPipeline.v: the steps of the lanes of
      its warps, interleaved with the host's calls.  WarpHost.v has the invariant of the
      host's end, WarpOrder.v that of the kernel's rings and barriers, WarpFifo.v the order of
      completions, WarpProgress.v that the kernel never blocks for ever.
    - Backend and kernel together: GpuLink.v states against the interface [CopyingRuntime]
      (a runtime that completes only what it copied) what a copy reported as done means;
      WarpRuntime.v is [CudaPersistentCopyRuntime] with the pipeline kernel under it, and
      shows that it is such a runtime.  GpuDataPath.v puts the two workers of DataPath.v on
      top of that backend.
    - The other queues and kernels of src/gpu/persistent_copy.cu: PartitionQueue.v
      ([StaticPartitionSpscQueue]), ShardedQueue.v ([DynamicShardedSpscQueue]), AtomicQueue.v
      ([DirectAtomicQueue]) and WarpSpecialized.v ([warp_specialized_kernel], with its
      invariant in SpecializedFifo.v and the rings with sequence numbers in SeqRing.v), each
      with its allocation, its kernel and the host's calls in any interleaving.
    - Configurations, the sizes and the layout of mapped memory, its owners and the life cycle
      of a run (same file): CopySetup.v.  [PersistentCopyPayloadBuffer]: PayloadBuffer.v, over
      the class [Driver] of what copies between host and device do.
    - The client: ControlClient and the client functions of src/control are ClientControl.v,
      over the class [IpcPeer] of what is at the other end of the socket; [ClientRuntime] of
      src/api/api.cpp is ClientRuntime.v.  ClientHandles.v and ClientCalls.v prove the client
      against the interface [ControlPeer] (an answered call is the daemon's answer);
      ClientDaemon.v puts IpcSession.v, Control.v and Qp.v together as a daemon, shows that
      it is such a peer, and states the properties of client and daemon together.  What the
      system answers to the calls of both on the socket is the list [socket_answers].
    - The programs (apps): Daemon.v.  The server loop runs over a list of rounds: what the
      poll reports, the new connections, the packets and hang-ups, and the signals.

    ** What the theorems show

    - Rings: every interleaving of producer and consumer refines a bounded queue; no
      slot is written while it can be read; a reservation is never refused while there
      is room; the mapping has room for every slot; a created ring can be mapped, and
      a failed creation leaves no descriptor or mapping behind.
    - Registry: the registry refines a map, and a handle whose object was erased never
      resolves again, however the slots are reused.
    - Work and completion queues: posting a chain posts the longest prefix that is valid
      and fits, and reports the rest; completions come out of a queue as they went in.
    - Workers: the datagrams of a write cover the scatter list exactly and in order; the
      responder takes each of them, and the copies it hands to a backend with room put each
      byte where it belongs ([write_delivered]); the responder's
      tables keep their invariant, it answers each request after all of its copies, in
      order of arrival; each accepted work request is in flight or completed, once; the
      rounds of requester and responder terminate.
    - The path of a write: in every interleaving of requester and responder, and with any
      backend, a work request reported as completed with success had all of its bytes copied
      to the range its remote key grants; with the GPU backend, by tasks the kernel copied.
    - Messages: what is sent is what is received, with descriptors for the same open files;
      of a packet with bytes every descriptor is handed on or closed; a call returns the
      answer of the handler, with its files; every session
      the server opened is live or was disconnected, once; decoders accept only what
      encoders produce.
    - Control plane: refinement of the contract, integrity in every reachable state,
      isolation of sessions, the effect of a disconnection, the state machine of queue
      pairs, exact key lookups, exact worker views and the exact answers to requests that
      destroy objects.
    - GPU copies: the backend completes every copy it takes exactly once, whatever the
      device does; when the queue of the device fails for good, popping brings all copies back
      as failed; only the device makes a copy succeed.  The accesses of a warp are aligned, stay inside the
      ranges and copy each byte once, and in every interleaving the warp's copy ends and
      equals [memcpy].  In every interleaving of the pipeline kernel the host gets the
      completions in the order of its tasks, each after its copy; the kernel completes
      every task, and leaves once it was asked to stop.  With the backend on top of it, a
      copy reported as done is one the kernel made for that very request, and the kernel
      copies nothing but requests the backend took.
    - The other kernels: in every interleaving the partitioned and the first specialised
      kernel complete tasks in the order of submission, the sharded one in that order in each
      lane, each task copied once and before its completion is polled; the partitioned and
      the sharded kernel can always go on until the next completion is there.  The kernel
      with atomic claims does so for hosts that do not reuse a slot before the queue is
      drained.  What is prepared, copied and verified in the payload buffers is found intact;
      mapped memory is freed once; the life cycle counts what was accepted and completed.
    - Client and daemon together: in every state an application's calls can lead to, with
      connections, packets and replies that may fail, a live handle of the current connection names an object of the daemon that belongs to the
      client's session; a handle of an earlier connection is refused without a request.
    - The daemon as a program: while it serves, every object belongs to a session with a live
      connection, and the rings it has mapped are exactly those of its objects; when it ends,
      no session, object or mapping is left.
    - Shared memory: the allocation the client library exports is the one the daemon maps, in
      the address space of the device that has it, and the region lies inside; the daemon's calls leave the selected device as it was; the gate
      lets tasks pass only when writes are visible to the device.

    Eight theorems record defects found on the way (the index of a ring of more than
    2^31 slots, the slot stride of very long scatter lists, a responder that stops on an
    unexpected payload, a GPU backend that stops because one slow copy still holds its
    slot, a daemon that takes the size of an allocation from the client, descriptors that stay
    open when they come with an empty packet, a task slot that is
    overwritten between claim and read, [claimed_task_lost], and a copy warp that leaves with
    a task unclaimed, [stop_strands_task]); one shows that deregistration never answers
    EBUSY.  The theorems on writes assume that clients declare their allocations truly
    ([declared_truly] in ControlPlane.v), as the library does.

    ** Bounds and fuel

    The loops of the code are structural recursions over lists or [while_true] with
    fuel.  For posting and for a round of either worker there are theorems that a fuel
    larger than the amount of work at hand suffices, so the loops terminate; nothing is
    claimed about runs that run out of fuel.  DataPath.v and GpuDataPath.v consider runs of
    fewer than 2^32 - 1 writes and 2^64 - 1 copies, after which identities repeat.  Rings
    are considered up to the capacity 2^31, above which the first of the defects applies
    ([cap_ok]).

    ** What is not modelled

    The benchmarks and the tests are not modelled; the CUDA runtime and driver are
    parameters.  The kernels are modelled with sequentially consistent memory
    and positions that do not wrap at 2^64, and a task slot is read in one step; the
    resources a kernel uses (registers, shared memory) and plain accessors are left out.
    Failures of memory allocation (C++ exceptions) are not modelled, so the entry points of
    the client library (src/api/api.cpp, [ugdr_get_device_list] to [ugdr_post_recv]), which
    only turn exceptions into errors, are the methods of [ClientRuntime].  Mutexes and threads
    are not modelled: the daemon handles one request at a time, and calls of the client
    library exclude each other.  A packet of the socket is transferred whole or not at all, as
    for sequenced packets.  The daemon of ClientDaemon.v takes a packet of the client
    and answers it before the client goes on, as its poll loop does for a client that waits. *)

From stdpp Require Export prelude gmap.
From coqutil Require Export Byte Word.LittleEndianList.

#[global] Open Scope Z_scope.
#[global] Arguments le_split : simpl never.
#[global] Arguments le_combine : simpl never.

(** * Machine integers

    Unsigned C++ integers are [Z] values; the wrap-around of each width is
    written out by one of these functions. *)

Definition u8 (x : Z) : Z := x `mod` 256.
Definition u16 (x : Z) : Z := x `mod` 65536.
Definition u32 (x : Z) : Z := x `mod` 4294967296.
Definition u64 (x : Z) : Z := x `mod` 18446744073709551616.

Definition U8_MAX : Z := 255.
Definition U16_MAX : Z := 65535.
Definition U32_MAX : Z := 4294967295.
Definition U64_MAX : Z := 18446744073709551615.
(** [std::numeric_limits<off_t>::max()] and [INT32_MAX]. *)
Definition I64_MAX : Z := 9223372036854775807.
Definition I32_MAX : Z := 2147483647.

Definition is_u8 (x : Z) : Prop := 0 <= x < 256.
Definition is_u16 (x : Z) : Prop := 0 <= x < 65536.
Definition is_u32 (x : Z) : Prop := 0 <= x < 4294967296.
Definition is_u64 (x : Z) : Prop := 0 <= x < 18446744073709551616.

#[export] Instance is_u8_dec x : Decision (is_u8 x).
Proof. unfold is_u8. apply _. Defined.
#[export] Instance is_u16_dec x : Decision (is_u16 x).
Proof. unfold is_u16. apply _. Defined.
#[export] Instance is_u32_dec x : Decision (is_u32 x).
Proof. unfold is_u32. apply _. Defined.
#[export] Instance is_u64_dec x : Decision (is_u64 x).
Proof. unfold is_u64. apply _. Defined.

(** A cast of an unsigned 32-bit value to [int32_t]. *)
Definition to_i32 (x : Z) : Z := if decide (x <= I32_MAX) then x else x - 4294967296.

#[export] Instance byte_eq_dec : EqDecision byte := Byte.byte_eq_dec.

(** * errno values (Linux) *)

Definition ENOENT : Z := 2.
Definition EINTR : Z := 4.
Definition EIO : Z := 5.
Definition EBADF : Z := 9.
Definition EAGAIN : Z := 11.
Definition ENOMEM : Z := 12.
Definition EACCES : Z := 13.
Definition EBUSY : Z := 16.
Definition ENODEV : Z := 19.
Definition EINVAL : Z := 22.
Definition ENOSPC : Z := 28.
Definition ENAMETOOLONG : Z := 36.
Definition EPROTO : Z := 71.
Definition EOVERFLOW : Z := 75.
Definition EMSGSIZE : Z := 90.
Definition EPROTONOSUPPORT : Z := 93.
Definition EOPNOTSUPP : Z := 95.
Definition EADDRINUSE : Z := 98.
Definition ECONNRESET : Z := 104.
Definition EISCONN : Z := 106.
Definition ENOTCONN : Z := 107.
Definition EALREADY : Z := 114.

(** * Fallible code

    A C++ function [int f(..., T *out)] that returns 0 and writes [*out], or
    returns an error code and leaves [*out] alone, returns [result T]. *)

Inductive result (A : Type) : Type :=
| Ok (a : A)
| Err (e : Z).
Arguments Ok {A} a.
Arguments Err {A} e.

#[export] Instance result_ret : MRet result := λ A a, Ok a.
#[export] Instance result_bind : MBind result := λ A B f m,
  match m with Ok a => f a | Err e => Err e end.

#[export] Instance result_fmap : FMap result := λ A B f m,
  match m with Ok a => Ok (f a) | Err e => Err e end.

Declare Scope ugdr_scope.
Delimit Scope ugdr_scope with ugdr.
#[global] Open Scope ugdr_scope.

(** The status a [result] stands for. *)
Definition status_of {A} (r : result A) : Z :=
  match r with Ok _ => 0 | Err e => e end.

Lemma Ok_inj {A} (a b : A) : Ok a = Ok b → a = b.
Proof. by intros [= ->]. Qed.
Lemma Ok_pair_inj {A B} (a a' : A) (b b' : B) : Ok (a, b) = Ok (a', b') → a = a' ∧ b = b'.
Proof. by intros [= -> ->]. Qed.

(** * Tactics *)

(** Splits the boolean connectives of a hypothesis or goal into propositions. *)
Ltac bool_hyps :=
  repeat match goal with
  | H : andb _ _ = true |- _ => apply andb_true_iff in H; destruct H
  | H : orb _ _ = false |- _ => apply orb_false_iff in H; destruct H
  | H : negb _ = true |- _ => apply negb_true_iff in H
  | H : negb _ = false |- _ => apply negb_false_iff in H
  | H : bool_decide _ = true |- _ => apply bool_decide_eq_true in H
  | H : bool_decide _ = false |- _ => apply bool_decide_eq_false in H
  | H : (_ =? _)%Z = true |- _ => apply Z.eqb_eq in H
  | H : (_ =? _)%Z = false |- _ => apply Z.eqb_neq in H
  | H : (_ <? _)%Z = true |- _ => apply Z.ltb_lt in H
  | H : (_ <? _)%Z = false |- _ => apply Z.ltb_ge in H
  | H : (_ <=? _)%Z = true |- _ => apply Z.leb_le in H
  | H : (_ <=? _)%Z = false |- _ => apply Z.leb_gt in H
  | H : (_ =? _)%nat = true |- _ => apply Nat.eqb_eq in H
  | H : (_ =? _)%nat = false |- _ => apply Nat.eqb_neq in H
  | H : (_ <? _)%nat = true |- _ => apply Nat.ltb_lt in H
  | H : (_ <? _)%nat = false |- _ => apply Nat.ltb_ge in H
  | H : (_ <=? _)%nat = true |- _ => apply Nat.leb_le in H
  | H : (_ <=? _)%nat = false |- _ => apply Nat.leb_gt in H
  end.

(** Unfolds the width functions and limits, then decides linear arithmetic
    with division and modulo by constants. *)
Ltac widths :=
  unfold is_u8, is_u16, is_u32, is_u64, U8_MAX, U16_MAX, U32_MAX, U64_MAX,
    I64_MAX, I32_MAX in *.
Ltac ulia := widths; lia.
Ltac zmod := widths; unfold u8, u16, u32, u64 in *; Z.to_euclidean_division_equations; lia.

(** Case analysis on every [if] and [match] scrutinee of the goal. *)
Ltac cases := repeat (case_match || case_decide); simplify_eq.

(** * Lemmas on machine integers *)

Create HintDb ugdr.
Create Rewrite HintDb ugdr.

Lemma u32_small x : is_u32 x → u32 x = x.
Proof. intros. apply Z.mod_small. ulia. Qed.
Lemma u64_small x : is_u64 x → u64 x = x.
Proof. intros. apply Z.mod_small. ulia. Qed.
Lemma u32_range x : is_u32 (u32 x).
Proof. apply Z.mod_pos_bound. lia. Qed.
Lemma u64_range x : is_u64 (u64 x).
Proof. apply Z.mod_pos_bound. lia. Qed.
Lemma u8_range x : is_u8 (u8 x).
Proof. apply Z.mod_pos_bound. lia. Qed.
Lemma u16_range x : is_u16 (u16 x).
Proof. apply Z.mod_pos_bound. lia. Qed.
#[export] Hint Resolve u8_range u16_range u32_range u64_range : ugdr.

(** Subtraction of two wrapped counters is the wrapped difference; it is exact
    when the true difference fits the width. *)
Lemma u64_sub_wrapped a b : 0 <= a - b <= U64_MAX → u64 (u64 a - u64 b) = a - b.
Proof.
  intros H. unfold u64. rewrite <- Zminus_mod. apply Z.mod_small. ulia.
Qed.

Lemma u64_add_wrapped a b : u64 (u64 a + b) = u64 (a + b).
Proof. unfold u64. by rewrite Zplus_mod_idemp_l. Qed.

Lemma u64_inj_near a b : - U64_MAX <= a - b <= U64_MAX → u64 a = u64 b → a = b.
Proof. intros. zmod. Qed.

(** Fields at disjoint bit positions: [lor] is addition. *)
Lemma lor_add_low a b n : 0 <= n → 0 <= b < 2 ^ n → Z.lor (a * 2 ^ n) b = a * 2 ^ n + b.
Proof.
  intros Hn Hb. pose proof (Z.add_lor_land (a * 2 ^ n) b) as Hs.
  enough (Z.land (a * 2 ^ n) b = 0) by lia.
  apply Z.bits_inj'. intros i Hi. rewrite Z.land_spec, Z.bits_0.
  destruct (decide (i < n)).
  - by rewrite Z.mul_pow2_bits_low.
  - enough (Z.testbit b i = false) as -> by apply andb_false_r.
    apply Z.testbit_false; [lia|]. rewrite Z.div_small; [done|].
    pose proof (Z.pow_le_mono_r 2 n i). lia.
Qed.

(** Powers of two as masks. *)
Lemma pow2_of_land n : 0 < n → Z.land n (n - 1) = 0 → n = 2 ^ Z.log2 n.
Proof.
  intros Hn Hl. pose proof (Z.log2_spec n Hn) as [Hlo Hhi].
  destruct (decide (n = 2 ^ Z.log2 n)) as [|Hne]; [done|exfalso].
  pose proof (Z.log2_nonneg n) as H0. pose proof (Z.pow_pos_nonneg 2 (Z.log2 n)).
  assert (Z.log2 (n - 1) = Z.log2 n) as El by (apply Z.log2_unique; lia).
  pose proof (f_equal (λ z, Z.testbit z (Z.log2 n)) Hl) as Hb. cbn beta in Hb.
  rewrite Z.land_spec, Z.bits_0, Z.bit_log2 in Hb by done.
  rewrite <- El, Z.bit_log2 in Hb by lia. done.
Qed.
Lemma pow2_nat (k : nat) (z : Z) : Z.of_nat k = 2 ^ z → 0 <= z → ∃ j, k = (2 ^ j)%nat.
Proof. intros H Hz. exists (Z.to_nat z). apply Nat2Z.inj. rewrite H, Nat2Z.inj_pow, Z2Nat.id by done. done. Qed.

Lemma land_pow2 a k : 0 <= k → Z.land a (2 ^ k - 1) = a mod 2 ^ k.
Proof. intros. rewrite <- Z.land_ones, Z.ones_equiv by done. done. Qed.

(** * Lemmas on lists *)

Lemma Zlength_nonneg {A} (l : list A) : 0 <= Z.of_nat (length l).
Proof. lia. Qed.

Lemma drop_app_eq {A} n (l k : list A) : length l = n → drop n (l ++ k) = k.
Proof. intros <-. apply drop_app_length. Qed.

Lemma take_app_eq {A} n (l k : list A) : length l = n → take n (l ++ k) = l.
Proof. intros <-. apply take_app_length. Qed.

Lemma fmap_Some_omap {A B} (f : A → option B) (l : list A) :
  Forall (λ x, is_Some (f x)) l → Some <$> omap f l = f <$> l.
Proof.
  induction 1 as [|x l [y Hy] Hl IH]; [done|]. csimpl. rewrite Hy. csimpl. by rewrite IH.
Qed.

Lemma length_omap_Forall {A B} (f : A → option B) (l : list A) :
  Forall (λ x, is_Some (f x)) l → length (omap f l) = length l.
Proof. intros H. by rewrite <- (length_fmap Some), fmap_Some_omap, length_fmap. Qed.

Lemma length_omap_le {A B} (f : A → option B) (l : list A) : (length (omap f l) <= length l)%nat.
Proof. induction l as [|x l IH]; [done|]. csimpl. destruct (f x); csimpl; lia. Qed.

Lemma take_seqZ m n k : 0 <= k <= n → take (Z.to_nat k) (seqZ m n) = seqZ m k.
Proof.
  intros Hk. replace n with (k + (n - k)) by lia. rewrite seqZ_app by lia.
  apply take_app_eq. rewrite length_seqZ. lia.
Qed.
