(* ===== verification/Wire.v ===== *)
(** Scalars on the wire: the byte-order helpers and the [append]/[read]
    helpers that every codec of the control plane repeats
    (src/ipc/protocol.cpp, src/control/ipc_adapter.cpp,
    src/control/device_context.cpp, src/control/pd_mr_cq.cpp,
    src/control/qp.cpp, src/control/queue_descriptor.hpp).

    The host is little-endian, as the [__ORDER_LITTLE_ENDIAN__] branch of the
    source: [memcpy] of a [w]-byte scalar is [le_split w]. *)

From S2P Require Import Prelude.

Module Wire.

(** * Byte order *)

(** The byte swap of a [w]-byte scalar. *)
Definition bswap (w : nat) (x : Z) : Z := le_combine (reverse (le_split w x)).

(** [htons]/[ntohs] and [htonl]/[ntohl] of a little-endian host. *)
Definition htons (x : Z) : Z := bswap 2 x.
Definition htonl (x : Z) : Z := bswap 4 x.
Definition ntohs (x : Z) : Z := htons x.
Definition ntohl (x : Z) : Z := htonl x.

(** The 64-bit conversion is composed of two 32-bit ones. *)
Definition host_to_network64 (value : Z) : Z :=
  Z.lor (Z.shiftl (htonl (u32 value)) 32) (htonl (u32 (Z.shiftr value 32))).

Definition network_to_host64 (value : Z) : Z := host_to_network64 value.

(** * Writing and reading scalars *)

(** [append(&bytes, value)]: the object representation of a [w]-byte scalar. *)
Definition append (w : nat) (value : Z) (bytes : list byte) : list byte :=
  bytes ++ le_split w value.

(** [read(bytes, &offset, &value)] for a [w]-byte scalar: the value and the
    advanced offset, or [None] when the bytes left are fewer than [w]. *)
Definition read (bytes : list byte) (offset : nat) (w : nat) : option (Z * nat) :=
  if (length bytes <? offset)%nat || (length bytes - offset <? w)%nat then None
  else Some (le_combine (take w (drop offset bytes)), (offset + w)%nat).

(** * Facts on byte order *)

Lemma length_reverse_le_split w x : length (reverse (le_split w x)) = w.
Proof. by rewrite length_reverse, length_le_split. Qed.

Lemma le_split_bswap w x : le_split w (bswap w x) = reverse (le_split w x).
Proof. apply split_le_combine', length_reverse_le_split. Qed.

Lemma bswap_bswap w x : bswap w (bswap w x) = x `mod` 2 ^ (Z.of_nat w * 8).
Proof.
  unfold bswap at 1. rewrite le_split_bswap, reverse_involutive.
  apply le_combine_split.
Qed.

Lemma bswap_bound w x : 0 <= bswap w x < 2 ^ (8 * Z.of_nat w).
Proof.
  unfold bswap. pose proof (le_combine_bound (reverse (le_split w x))) as H.
  by rewrite length_reverse_le_split in H.
Qed.

Lemma ntohs_htons x : is_u16 x → ntohs (htons x) = x.
Proof. intros. unfold ntohs, htons. rewrite bswap_bswap. by apply Z.mod_small. Qed.

Lemma ntohl_htonl x : is_u32 x → ntohl (htonl x) = x.
Proof. intros. unfold ntohl, htonl. rewrite bswap_bswap. by apply Z.mod_small. Qed.

Lemma htons_u16 x : is_u16 (htons x).
Proof. exact (bswap_bound 2 x). Qed.

Lemma htonl_u32 x : is_u32 (htonl x).
Proof. exact (bswap_bound 4 x). Qed.

Lemma le_split_app w v x :
  le_split (w + v) x = le_split w x ++ le_split v (Z.shiftr x (8 * Z.of_nat w)).
Proof.
  rewrite <- (take_drop w (le_split (w + v) x)). f_equal.
  - apply le_combine_inj.
    + rewrite length_take, !length_le_split. lia.
    + change (@take byte) with (@List.firstn byte).
      rewrite le_combine_firstn, !le_combine_split.
      rewrite (Z.mul_comm 8). apply Z.mod_mod_divide.
      exists (2 ^ (Z.of_nat v * 8)). rewrite <- Z.pow_add_r by lia. f_equal. lia.
  - apply skipn_le_split'.
Qed.

Lemma le_split_u32 x : le_split 4 (u32 x) = le_split 4 x.
Proof. symmetry. apply le_split_mod. Qed.

(** The composed 64-bit conversion reverses the eight bytes. *)
Lemma le_split_host_to_network64 x :
  le_split 8 (host_to_network64 x) = reverse (le_split 8 x).
Proof.
  change 8%nat with (4 + 4)%nat. rewrite !le_split_app, reverse_app.
  unfold host_to_network64. change (8 * Z.of_nat 4) with 32. f_equal.
  - rewrite <- le_split_bswap. apply le_combine_inj; [by rewrite !length_le_split|].
    rewrite !le_combine_split. change (2 ^ (Z.of_nat 4 * 8)) with (2 ^ 32).
    rewrite <- !Z.land_ones by lia. rewrite Z.land_lor_distr_l.
    rewrite (Z.land_ones (Z.shiftl _ _)) by lia.
    rewrite Z.shiftl_mul_pow2, Z.mod_mul, Z.lor_0_l by lia.
    unfold htonl, bswap. by rewrite le_split_u32.
  - rewrite Z.shiftr_lor, Z.shiftr_shiftl_l, Z.shiftl_0_r by lia.
    rewrite (Z.shiftr_div_pow2 (htonl _)) by lia.
    rewrite Z.div_small by apply htonl_u32. rewrite Z.lor_0_r.
    rewrite <- (le_split_u32 x). apply le_split_bswap.
Qed.

Lemma host_to_network64_u64 x : is_u64 (host_to_network64 x).
Proof.
  pose proof (htonl_u32 (u32 x)). pose proof (htonl_u32 (u32 (Z.shiftr x 32))).
  unfold host_to_network64.
  rewrite Z.shiftl_mul_pow2, lor_add_low by ulia. ulia.
Qed.

Lemma network_to_host64_host_to_network64 x :
  is_u64 x → network_to_host64 (host_to_network64 x) = x.
Proof.
  intros Hx. unfold network_to_host64.
  assert (le_split 8 (host_to_network64 (host_to_network64 x)) = le_split 8 x) as E.
  { by rewrite !le_split_host_to_network64, reverse_involutive. }
  apply (f_equal le_combine) in E. rewrite !le_combine_split in E.
  rewrite !Z.mod_small in E; [done|exact Hx|apply host_to_network64_u64].
Qed.

(** * Reading back what was written *)

(** [cursor bytes offset rest]: a reader at [offset] has [rest] left to read. *)
Definition cursor (bytes : list byte) (offset : nat) (rest : list byte) : Prop :=
  (offset <= length bytes)%nat ∧ drop offset bytes = rest.

Lemma cursor_start bytes : cursor bytes 0 bytes.
Proof. split; [lia|done]. Qed.

Lemma cursor_length bytes offset rest :
  cursor bytes offset rest → length bytes = (offset + length rest)%nat.
Proof. intros [? <-]. rewrite length_drop. lia. Qed.

Lemma cursor_skip bytes offset l rest n :
  cursor bytes offset (l ++ rest) → length l = n → cursor bytes (offset + n) rest.
Proof.
  intros Hc <-. pose proof (cursor_length _ _ _ Hc) as Hl. destruct Hc as [? Hd].
  rewrite length_app in Hl. split; [lia|].
  by rewrite <- drop_drop, Hd, drop_app_length.
Qed.

(** A scalar that was appended is read back, reduced to its width. *)
Lemma read_cursor bytes offset w x rest :
  cursor bytes offset (le_split w x ++ rest) →
  read bytes offset w = Some (x `mod` 2 ^ (Z.of_nat w * 8), (offset + w)%nat) ∧
  cursor bytes (offset + w) rest.
Proof.
  intros Hc. pose proof (cursor_length _ _ _ Hc) as Hl.
  rewrite length_app, length_le_split in Hl. split.
  - unfold read. rewrite (proj2 (Nat.ltb_ge _ _)), (proj2 (Nat.ltb_ge _ _)) by lia. simpl.
    destruct Hc as [_ ->]. rewrite take_app_eq by apply length_le_split.
    by rewrite le_combine_split.
  - eapply cursor_skip; [done|apply length_le_split].
Qed.

Lemma read_cursor8 bytes offset x rest : is_u8 x →
  cursor bytes offset (le_split 1 x ++ rest) →
  read bytes offset 1 = Some (x, (offset + 1)%nat) ∧ cursor bytes (offset + 1) rest.
Proof. intros Hx [-> ?]%read_cursor. by rewrite Z.mod_small. Qed.
Lemma read_cursor16 bytes offset x rest : is_u16 x →
  cursor bytes offset (le_split 2 x ++ rest) →
  read bytes offset 2 = Some (x, (offset + 2)%nat) ∧ cursor bytes (offset + 2) rest.
Proof. intros Hx [-> ?]%read_cursor. by rewrite Z.mod_small. Qed.
Lemma read_cursor32 bytes offset x rest : is_u32 x →
  cursor bytes offset (le_split 4 x ++ rest) →
  read bytes offset 4 = Some (x, (offset + 4)%nat) ∧ cursor bytes (offset + 4) rest.
Proof. intros Hx [-> ?]%read_cursor. by rewrite Z.mod_small. Qed.
Lemma read_cursor64 bytes offset x rest : is_u64 x →
  cursor bytes offset (le_split 8 x ++ rest) →
  read bytes offset 8 = Some (x, (offset + 8)%nat) ∧ cursor bytes (offset + 8) rest.
Proof. intros Hx [-> ?]%read_cursor. by rewrite Z.mod_small. Qed.

(** A successful read stays inside the buffer: no byte beyond it is touched. *)
Lemma read_in_bounds bytes offset w v offset' :
  read bytes offset w = Some (v, offset') →
  offset' = (offset + w)%nat ∧ (offset' <= length bytes)%nat ∧
  0 <= v < 2 ^ (8 * Z.of_nat w).
Proof.
  unfold read. destruct (_ || _) eqn:E; [done|]. intros; simplify_eq. bool_hyps.
  split_and!; [done|lia|..];
    pose proof (le_combine_bound (take w (drop offset bytes))) as Hb;
    rewrite length_take, length_drop in Hb; [lia|].
  rewrite Nat.min_l in Hb by lia. tauto.
Qed.

Lemma read_some bytes offset w :
  (offset + w <= length bytes)%nat → ∃ v, read bytes offset w = Some (v, (offset + w)%nat).
Proof.
  intros. unfold read. rewrite (proj2 (Nat.ltb_ge _ _)), (proj2 (Nat.ltb_ge _ _)) by lia.
  eauto.
Qed.

(** What a successful read says about the bytes: they start with the scalar. *)
Lemma read_inv bytes offset rest w v offset' :
  cursor bytes offset rest → read bytes offset w = Some (v, offset') →
  ∃ rest', rest = le_split w v ++ rest' ∧ cursor bytes offset' rest' ∧
    offset' = (offset + w)%nat ∧ 0 <= v < 2 ^ (8 * Z.of_nat w).
Proof.
  intros Hc Hr. destruct (read_in_bounds _ _ _ _ _ Hr) as (-> & Hle & Hv).
  pose proof (cursor_length _ _ _ Hc) as Hl. exists (drop w rest).
  assert (length (take w rest) = w) as Ht by (rewrite length_take; lia).
  unfold read in Hr. destruct (_ || _); [done|]. destruct Hc as [Ho Hd]. rewrite Hd in Hr.
  injection Hr as <-. split; [|split; [split; [lia|]|by split]].
  - rewrite split_le_combine' by done. by rewrite take_drop.
  - by rewrite <- drop_drop, Hd.
Qed.

Lemma htonl_ntohl x : is_u32 x → htonl (ntohl x) = x.
Proof. intros. unfold ntohl, htonl. rewrite bswap_bswap. by apply Z.mod_small. Qed.
Lemma htons_ntohs x : is_u16 x → htons (ntohs x) = x.
Proof. intros. unfold ntohs, htons. rewrite bswap_bswap. by apply Z.mod_small. Qed.
Lemma host_to_network64_network_to_host64 x :
  is_u64 x → host_to_network64 (network_to_host64 x) = x.
Proof. apply network_to_host64_host_to_network64. Qed.

End Wire.

#[export] Hint Resolve Wire.htons_u16 Wire.htonl_u32 Wire.host_to_network64_u64 : ugdr.
#[export] Hint Rewrite Wire.ntohs_htons Wire.ntohl_htonl
  Wire.network_to_host64_host_to_network64 using (first [done | ulia]) : ugdr.

(** The width side conditions of [read_scalars]. *)
Ltac width_side :=
  first [ assumption | apply Wire.htons_u16 | apply Wire.htonl_u32 | apply Wire.host_to_network64_u64
        | apply u32_range | apply u64_range | ulia ].

(** Runs the reads of a decoder over bytes whose contents are known: each
    [read] of the goal is replaced by the scalar at the cursor. *)
Ltac read_scalars :=
  repeat match goal with
  | H : Wire.cursor ?b ?o (le_split ?w ?x ++ ?r) |- context [Wire.read ?b ?o ?w] =>
      let E := fresh in let H' := fresh in
      pose proof H as H';
      (let l := lazymatch w with
                | 1%nat => uconstr:(Wire.read_cursor8) | 2%nat => uconstr:(Wire.read_cursor16)
                | 4%nat => uconstr:(Wire.read_cursor32) | 8%nat => uconstr:(Wire.read_cursor64) end in
       apply l in H' as [E H']; [|width_side]);
      rewrite E; clear E H; cbn [Nat.add] in H'; cbn [mbind option_bind Nat.add]
  end.

(** Inverts the reads of a decoder that succeeded, naming the bytes they read. *)
Ltac invert_reads :=
  repeat match goal with
  | H : Wire.cursor ?b ?o ?r, R : context [Wire.read ?b ?o ?w] |- _ =>
      let E := fresh "E" in
      destruct (Wire.read b o w) as [[? ?]|] eqn:E; cbn [mbind option_bind] in R; [|discriminate R];
      let c := fresh in
      destruct (Wire.read_inv _ _ _ _ _ _ H E) as (? & -> & c & -> & ?); clear E H;
      cbn [Nat.add] in c, R
  end.
