(* ===== verification/ObjectIdentity.v ===== *)
(** Object identities (src/control/object_identity.hpp, object_identity.cpp):
    a 64-bit handle packs an object type (8 bits), a generation (32 bits) and a
    slot (24 bits). *)

From S2P Require Import Prelude.

Module ObjectIdentity.

(** * Data *)

Inductive ObjectType : Set := invalid | context | pd | mr | cq | qp | other_type (code : Z).

(** The value [static_cast<uint8_t>] of an object type.  [other_type] stands
    for the values a cast from an integer can produce outside the enumerators. *)
Definition type_code (t : ObjectType) : Z :=
  match t with
  | invalid => 0 | context => 1 | pd => 2 | mr => 3 | cq => 4 | qp => 5
  | other_type c => c
  end.

(** [static_cast<ObjectType>(value)]: the enumeration's underlying type is
    [uint8_t]. *)
Definition type_of_code (c : Z) : ObjectType :=
  let c := u8 c in
  if decide (c = 0) then invalid else if decide (c = 1) then context
  else if decide (c = 2) then pd else if decide (c = 3) then mr
  else if decide (c = 4) then cq else if decide (c = 5) then qp
  else other_type c.

#[export] Instance ObjectType_eq_dec : EqDecision ObjectType.
Proof. solve_decision. Defined.

Record ObjectIdentityParts := mkParts {
  type : ObjectType;
  generation : Z;
  slot : Z;
}.

Definition kMaxObjectSlot : Z := 16777215.
Definition kTypeShift : Z := 56.
Definition kGenerationShift : Z := 24.

(** * Operations *)

Definition encode_object_identity (parts : ObjectIdentityParts) : option Z :=
  if bool_decide (type parts = invalid) || (generation parts =? 0)
     || (kMaxObjectSlot <? slot parts)
  then None
  else Some (Z.lor (Z.lor (u64 (Z.shiftl (type_code (type parts)) kTypeShift))
                          (u64 (Z.shiftl (generation parts) kGenerationShift)))
                   (slot parts)).

Definition decode_object_identity (identity : Z) : option ObjectIdentityParts :=
  if identity =? 0 then None
  else
    let parts := mkParts (type_of_code (Z.shiftr identity kTypeShift))
                         (u32 (Z.shiftr identity kGenerationShift))
                         (u32 (Z.land identity kMaxObjectSlot)) in
    if bool_decide (type parts = invalid) || (generation parts =? 0) then None
    else Some parts.

(** * Properties *)

(** One of the five object types the registries use. *)
Definition named_type (t : ObjectType) : Prop :=
  t = context ∨ t = pd ∨ t = mr ∨ t = cq ∨ t = qp.

#[export] Instance named_type_dec t : Decision (named_type t).
Proof. unfold named_type. apply _. Defined.

(** The parts a registry encodes: a named type, a 32-bit generation that is not
    zero, and a 24-bit slot. *)
Definition valid_parts (parts : ObjectIdentityParts) : Prop :=
  named_type (type parts) ∧ 0 < generation parts <= U32_MAX ∧
  0 <= slot parts <= kMaxObjectSlot.

Lemma named_type_code t : named_type t → 1 <= type_code t <= 5 ∧ type_of_code (type_code t) = t.
Proof. by intros [->|[->|[->|[->| ->]]]]. Qed.

Lemma type_code_of_code_range c : 0 <= type_code (type_of_code c) < 256.
Proof. pose proof (u8_range c). unfold type_of_code. repeat case_decide; simpl; ulia. Qed.

(** The three fields occupy disjoint bits, so packing is addition. *)
Lemma encode_arith parts :
  valid_parts parts →
  encode_object_identity parts =
    Some (type_code (type parts) * 2 ^ 56 + generation parts * 2 ^ 24 + slot parts).
Proof.
  intros (Ht & Hg & Hs). destruct (named_type_code _ Ht) as [Hc _].
  unfold encode_object_identity, kMaxObjectSlot, kTypeShift, kGenerationShift in *.
  rewrite bool_decide_eq_false_2 by (intros E; rewrite E in Hc; simpl in Hc; lia).
  rewrite (proj2 (Z.eqb_neq _ _)), (proj2 (Z.ltb_ge _ _)) by lia. simpl. f_equal.
  rewrite !Z.shiftl_mul_pow2, !u64_small by ulia.
  rewrite lor_add_low by ulia.
  replace (type_code (type parts) * 2 ^ 56 + generation parts * 2 ^ 24)
    with ((type_code (type parts) * 2 ^ 32 + generation parts) * 2 ^ 24) by lia.
  rewrite lor_add_low by lia. lia.
Qed.

Lemma decode_arith c g s :
  0 < c < 256 → 0 < g <= U32_MAX → 0 <= s <= kMaxObjectSlot →
  decode_object_identity (c * 2 ^ 56 + g * 2 ^ 24 + s) = Some (mkParts (type_of_code c) g s).
Proof.
  intros Hc Hg Hs. unfold decode_object_identity, kTypeShift, kGenerationShift.
  unfold kMaxObjectSlot in *. change (Z.land ?x 16777215) with (Z.land x (Z.ones 24)).
  rewrite !Z.shiftr_div_pow2, Z.land_ones by lia. widths.
  replace ((c * 2 ^ 56 + g * 2 ^ 24 + s) / 2 ^ 56) with c by zmod.
  replace (u32 ((c * 2 ^ 56 + g * 2 ^ 24 + s) / 2 ^ 24)) with g by zmod.
  replace (u32 ((c * 2 ^ 56 + g * 2 ^ 24 + s) `mod` 2 ^ 24)) with s by zmod.
  rewrite (proj2 (Z.eqb_neq _ _)) by lia. simpl.
  rewrite (proj2 (Z.eqb_neq g 0)), orb_false_r by lia.
  rewrite bool_decide_eq_false_2; [done|].
  unfold type_of_code. replace (u8 c) with c by zmod. repeat case_decide; (lia || done).
Qed.

(** Encoding any valid parts succeeds with a non-zero 64-bit identity, and
    decoding it gives the same parts back. *)
Theorem decode_encode_identity parts :
  valid_parts parts →
  ∃ identity, encode_object_identity parts = Some identity ∧
    0 < identity <= U64_MAX ∧ decode_object_identity identity = Some parts.
Proof.
  intros Hv. rewrite (encode_arith _ Hv). destruct Hv as (Ht & Hg & Hs).
  destruct (named_type_code _ Ht) as [Hc Hr].
  eexists. split; [done|]. unfold kMaxObjectSlot in *. split; [ulia|].
  rewrite decode_arith by (unfold kMaxObjectSlot; lia). rewrite Hr. by destruct parts.
Qed.

Lemma decode_encode_identity_witness :
  ∃ identity, encode_object_identity (mkParts mr 7 4096) = Some identity ∧
    0 < identity <= U64_MAX ∧ decode_object_identity identity = Some (mkParts mr 7 4096).
Proof.
  apply decode_encode_identity. unfold valid_parts, named_type. split_and!; by vm_compute; auto.
Defined.

Lemma decode_fields identity parts :
  decode_object_identity identity = Some parts →
  0 < generation parts <= U32_MAX ∧ 0 <= slot parts.
Proof.
  unfold decode_object_identity. destruct (identity =? 0); [done|]. cbv zeta.
  destruct (_ || _) eqn:E; [done|]. intros [= <-]. cbn [generation slot type] in *.
  apply orb_false_iff in E as [_ E]. apply Z.eqb_neq in E.
  pose proof (u32_range (identity ≫ kGenerationShift)).
  pose proof (u32_range (Z.land identity kMaxObjectSlot)). ulia.
Qed.

(** What decodes is re-encoded to itself: no two identities name the same parts. *)
Lemma encode_decode identity parts :
  is_u64 identity → decode_object_identity identity = Some parts →
  named_type (type parts) → encode_object_identity parts = Some identity.
Proof.
  intros Hu Hd Hn. unfold decode_object_identity, kTypeShift, kGenerationShift in Hd.
  unfold kMaxObjectSlot in Hd. change 16777215 with (Z.ones 24) in Hd.
  rewrite !Z.shiftr_div_pow2, Z.land_ones in Hd by lia.
  destruct (identity =? 0); [done|]. cbv zeta in Hd. destruct (_ || _) eqn:E; [done|].
  simplify_eq. simpl in *. bool_hyps.
  assert (type_code (type_of_code (identity / 2 ^ 56)) = identity / 2 ^ 56) as Hc.
  { unfold type_of_code. replace (u8 (identity / 2 ^ 56)) with (identity / 2 ^ 56) by zmod.
    repeat case_decide; simpl; lia. }
  rewrite encode_arith; simpl.
  - rewrite Hc. f_equal. zmod.
  - pose proof (u32_range (identity / 2 ^ 24)). unfold valid_parts, kMaxObjectSlot.
    split_and!; simpl; [done|zmod..].
Qed.

Lemma decode_injective i1 i2 parts :
  is_u64 i1 → is_u64 i2 → named_type (type parts) →
  decode_object_identity i1 = Some parts → decode_object_identity i2 = Some parts → i1 = i2.
Proof.
  intros ??? H1 H2. apply encode_decode in H1; [|done..]. apply encode_decode in H2; [|done..].
  congruence.
Qed.

End ObjectIdentity.
