(* ===== verification/ObjectRegistry.v ===== *)
(** The generation registry (src/control/object_registry.hpp): a slot table
    whose handles carry a generation, so that a handle to an erased object never
    resolves again.  [GenerationRegistry<Record, Type>] is a Section over the
    record type and the object type; [view] is its abstract contents. *)

From S2P Require Import Prelude ObjectIdentity.
Import ObjectIdentity.

Module Registry.

(** * State *)

Section Registry.
Context {R : Type} (Type_ : ObjectType).

Record Slot := mkSlot {
  slot_generation : Z;
  slot_owner_session : Z;
  slot_value : option R;
  slot_retired : bool;
}.

(** [free_slots_] lists the free slots, the back of the vector first. *)
Record GenerationRegistry := mkRegistry {
  initial_generation_ : Z;
  slots_ : list Slot;
  free_slots_ : list nat;
  live_count_ : Z;
}.

(** * Operations *)

Definition new_registry (initial_generation : Z) : GenerationRegistry :=
  mkRegistry (if decide (initial_generation = 0) then 1 else initial_generation) [] [] 0.

(** The part of [insert] after the slot index is chosen: the slot is filled and
    its identity encoded; a slot whose identity cannot be encoded is retired. *)
Definition fill_slot (r : GenerationRegistry) (slot_index : nat) (owner_session : Z) (record : R)
  : GenerationRegistry * option Z :=
  match slots_ r !! slot_index with
  | None => (r, None) (* out of range: excluded by [reg_inv] *)
  | Some slot =>
      match encode_object_identity
              (mkParts Type_ (slot_generation slot) (Z.of_nat slot_index)) with
      | None =>
          (mkRegistry (initial_generation_ r)
             (<[slot_index := mkSlot (slot_generation slot) 0 None true]> (slots_ r))
             (free_slots_ r) (live_count_ r), None)
      | Some object_identity =>
          (mkRegistry (initial_generation_ r)
             (<[slot_index := mkSlot (slot_generation slot) owner_session (Some record)
                                (slot_retired slot)]> (slots_ r))
             (free_slots_ r) (live_count_ r + 1), Some object_identity)
      end
  end.

Definition insert (r : GenerationRegistry) (owner_session : Z) (record : R)
  : GenerationRegistry * option Z :=
  match free_slots_ r with
  | slot_index :: rest =>
      fill_slot (mkRegistry (initial_generation_ r) (slots_ r) rest (live_count_ r))
        slot_index owner_session record
  | [] =>
      if kMaxObjectSlot <? Z.of_nat (length (slots_ r)) then (r, None)
      else fill_slot (mkRegistry (initial_generation_ r)
                        (slots_ r ++ [mkSlot (initial_generation_ r) 0 None false])
                        [] (live_count_ r))
             (length (slots_ r)) owner_session record
  end.

(** The slot a handle names, when its type and slot number fit this registry. *)
Definition named_slot (r : GenerationRegistry) (identity : Z) : option (nat * Slot * Z) :=
  match decode_object_identity identity with
  | Some parts =>
      if bool_decide (type parts = Type_) then
        match slots_ r !! Z.to_nat (slot parts) with
        | Some s => Some (Z.to_nat (slot parts), s, generation parts)
        | None => None
        end
      else None
  | None => None
  end.

Definition resolve (r : GenerationRegistry) (owner_session identity : Z) : option R :=
  match named_slot r identity with
  | Some (_, s, g) =>
      if slot_retired s || negb (slot_owner_session s =? owner_session)
         || negb (slot_generation s =? g)
      then None else slot_value s
  | None => None
  end.

Definition resolve_any (r : GenerationRegistry) (identity : Z) : option R :=
  match named_slot r identity with
  | Some (_, s, g) =>
      if slot_retired s || negb (slot_generation s =? g) then None else slot_value s
  | None => None
  end.

(** A write through the pointer that [resolve] or [resolve_any] returned. *)
Definition modify (r : GenerationRegistry) (identity : Z) (f : R → R) : GenerationRegistry :=
  match named_slot r identity with
  | Some (i, s, g) =>
      if slot_retired s || negb (slot_generation s =? g) then r
      else mkRegistry (initial_generation_ r)
             (<[i := mkSlot (slot_generation s) (slot_owner_session s) (f <$> slot_value s)
                       (slot_retired s)]> (slots_ r))
             (free_slots_ r) (live_count_ r)
  | None => r
  end.

Definition release (r : GenerationRegistry) (index : nat) : GenerationRegistry :=
  match slots_ r !! index with
  | None => r (* out of range: excluded by the callers *)
  | Some s =>
      if slot_generation s =? U32_MAX then
        mkRegistry (initial_generation_ r)
          (<[index := mkSlot (slot_generation s) 0 None true]> (slots_ r))
          (free_slots_ r) (live_count_ r - 1)
      else
        mkRegistry (initial_generation_ r)
          (<[index := mkSlot (slot_generation s + 1) 0 None (slot_retired s)]> (slots_ r))
          (index :: free_slots_ r) (live_count_ r - 1)
  end.

Definition erase (r : GenerationRegistry) (owner_session identity : Z)
  : GenerationRegistry * Z :=
  match decode_object_identity identity, resolve r owner_session identity with
  | Some parts, Some _ => (release r (Z.to_nat (slot parts)), 0)
  | _, _ => (r, EINVAL)
  end.

(** One iteration of the loop of [erase_session]. *)
Definition erase_session_at (owner_session : Z) (acc : GenerationRegistry * Z) (index : nat)
  : GenerationRegistry * Z :=
  match slots_ (fst acc) !! index with
  | Some s =>
      if bool_decide (is_Some (slot_value s)) && (slot_owner_session s =? owner_session)
      then (release (fst acc) index, snd acc + 1) else acc
  | None => acc
  end.

Definition erase_session (r : GenerationRegistry) (owner_session : Z) : GenerationRegistry * Z :=
  foldl (erase_session_at owner_session) (r, 0) (seq 0 (length (slots_ r))).

(** The arguments [for_each_session] passes to its visitor, in order. *)
Definition for_each_session (r : GenerationRegistry) (owner_session : Z) : list (Z * R) :=
  omap (λ '(i, s),
    if negb (slot_retired s) && (slot_owner_session s =? owner_session) then
      match slot_value s, encode_object_identity (mkParts Type_ (slot_generation s) (Z.of_nat i)) with
      | Some v, Some object_identity => Some (object_identity, v)
      | _, _ => None
      end
    else None) (imap pair (slots_ r)).

Definition registry_size (r : GenerationRegistry) : Z := live_count_ r.

(** * Abstract contents

    A registry is abstractly a finite map from the identities of the live
    objects to their owner session and record. *)

Definition live_entry (i : nat) (s : Slot) : option (Z * (Z * R)) :=
  match slot_value s, slot_retired s,
        encode_object_identity (mkParts Type_ (slot_generation s) (Z.of_nat i)) with
  | Some v, false, Some object_identity => Some (object_identity, (slot_owner_session s, v))
  | _, _, _ => None
  end.

Definition live_entries (r : GenerationRegistry) : list (Z * (Z * R)) :=
  omap (λ '(i, s), live_entry i s) (imap pair (slots_ r)).

Definition view (r : GenerationRegistry) : gmap Z (Z * R) := list_to_map (live_entries r).

(** * Invariant *)

Definition slot_ok (s : Slot) : Prop :=
  0 < slot_generation s <= U32_MAX ∧ (slot_retired s = true → slot_value s = None).

Definition slot_free (s : Slot) : Prop := slot_value s = None ∧ slot_retired s = false.

Definition count_live (l : list Slot) : Z :=
  Z.of_nat (length (omap slot_value l)).

Record reg_inv (r : GenerationRegistry) : Prop := {
  inv_initial : 0 < initial_generation_ r <= U32_MAX;
  inv_length : Z.of_nat (length (slots_ r)) <= kMaxObjectSlot + 1;
  inv_slots : ∀ i s, slots_ r !! i = Some s → slot_ok s;
  inv_nodup : NoDup (free_slots_ r);
  inv_free : ∀ i, i ∈ free_slots_ r ↔ ∃ s, slots_ r !! i = Some s ∧ slot_free s;
  inv_live : live_count_ r = count_live (slots_ r);
}.

(** * Lemmas *)

Hypothesis Type_named : named_type Type_.

(** An identity of this registry: the parts it encodes. *)
Definition encodes (i : nat) (g : Z) (object_identity : Z) : Prop :=
  encode_object_identity (mkParts Type_ g (Z.of_nat i)) = Some object_identity.

Lemma encodes_decode i g oid :
  0 < g <= U32_MAX → Z.of_nat i <= kMaxObjectSlot → encodes i g oid →
  decode_object_identity oid = Some (mkParts Type_ g (Z.of_nat i)).
Proof.
  intros Hg Hi He. destruct (decode_encode_identity (mkParts Type_ g (Z.of_nat i)))
    as (oid' & He' & _ & Hd); [split; simpl; [done|ulia]|].
  unfold encodes in He. congruence.
Qed.

Lemma encodes_total i g :
  0 < g <= U32_MAX → Z.of_nat i <= kMaxObjectSlot →
  ∃ oid, encodes i g oid ∧ 0 < oid <= U64_MAX.
Proof.
  intros Hg Hi. destruct (decode_encode_identity (mkParts Type_ g (Z.of_nat i)))
    as (oid' & He' & Hr & _); [split; simpl; [done|ulia]|]. eauto.
Qed.

Lemma slot_index_bound r i s :
  reg_inv r → slots_ r !! i = Some s → Z.of_nat i <= kMaxObjectSlot.
Proof. intros Hr Hs%lookup_lt_Some. pose proof (inv_length _ Hr). lia. Qed.

Lemma elem_of_live_entries r oid o v :
  (oid, (o, v)) ∈ live_entries r ↔
  ∃ i s, slots_ r !! i = Some s ∧ slot_retired s = false ∧ slot_value s = Some v ∧
         slot_owner_session s = o ∧ encodes i (slot_generation s) oid.
Proof.
  unfold live_entries. rewrite list_elem_of_omap. split.
  - intros ([i s] & Hin & He). apply list_elem_of_lookup in Hin as [j Hj].
    rewrite list_lookup_imap in Hj. destruct (slots_ r !! j) eqn:E; simplify_eq/=.
    unfold live_entry in He. cases. exists i, s. by split_and!.
  - intros (i & s & Hs & Hr & Hv & Ho & He). exists (i, s). split.
    + apply list_elem_of_lookup. exists i. by rewrite list_lookup_imap, Hs.
    + unfold live_entry. unfold encodes in He. by rewrite Hr, Hv, He, Ho.
Qed.

Lemma imap_offset_cons {A} k (s : A) l :
  imap (λ i s, ((k + i)%nat, s)) (s :: l) = (k, s) :: imap (λ i s, ((S k + i)%nat, s)) l.
Proof. rewrite imap_cons, Nat.add_0_r. f_equal. apply imap_ext. intros; simpl. f_equal. lia. Qed.

Lemma live_entries_nodup r : reg_inv r → NoDup (live_entries r).*1.
Proof.
  intros Hr. unfold live_entries.
  assert (∀ k l, (∀ i s, l !! i = Some s → slot_ok s ∧ Z.of_nat (k + i) <= kMaxObjectSlot) →
    NoDup (omap (λ '(i, s), live_entry i s) (imap (λ i s, ((k + i)%nat, s)) l)).*1 ∧
    ∀ oid e, (oid, e) ∈ omap (λ '(i, s), live_entry i s) (imap (λ i s, ((k + i)%nat, s)) l) →
      ∃ j g, (k <= j)%nat ∧ Z.of_nat j <= kMaxObjectSlot ∧ 0 < g <= U32_MAX ∧ encodes j g oid) as H.
  { intros k l. revert k. induction l as [|s l IH]; intros k Hl.
    { split; [constructor|]. intros ?? []%not_elem_of_nil. }
    destruct (IH (S k)) as [IHn IHe].
    { intros i s' Hi. destruct (Hl (S i) s' Hi). split; [done|]. by rewrite Nat.add_succ_comm. }
    destruct (Hl 0%nat s eq_refl) as [[Hg _] Hk]. rewrite Nat.add_0_r in Hk.
    rewrite imap_offset_cons.
    simpl. destruct (live_entry k s) as [[oid [o v]]|] eqn:E.
    2: { split; [done|]. intros ?? (j & g & ? & ?)%IHe. exists j, g. split; [lia|done]. }
    assert (encodes k (slot_generation s) oid) as Hoid.
    { unfold live_entry in E. cases. done. }
    split; simpl.
    - apply NoDup_cons. split; [|done]. intros Hin.
      apply list_elem_of_fmap in Hin as ([oid' e] & -> & Hin).
      apply IHe in Hin as (j & g & Hj & Hj' & Hg' & Hoid').
      simpl in Hoid. apply encodes_decode in Hoid; [|done..]. apply encodes_decode in Hoid'; [|done..].
      assert (Z.of_nat k = Z.of_nat j) by congruence. lia.
    - intros oid' e [?|Hin]%elem_of_cons; simplify_eq.
      + exists k, (slot_generation s). done.
      + apply IHe in Hin as (j & g & ? & ?). exists j, g. split; [lia|done]. }
  destruct (H 0%nat (slots_ r)) as [Hn _].
  { intros i s Hs. split; [by eapply inv_slots|by eapply slot_index_bound]. }
  done.
Qed.

(** [view] holds exactly the live slots, under the identity each encodes. *)
Lemma view_lookup r oid o v :
  reg_inv r →
  view r !! oid = Some (o, v) ↔
  ∃ i s, slots_ r !! i = Some s ∧ slot_retired s = false ∧ slot_value s = Some v ∧
         slot_owner_session s = o ∧ encodes i (slot_generation s) oid.
Proof.
  intros Hr. unfold view. rewrite <- elem_of_list_to_map, elem_of_live_entries; [done|].
  by apply live_entries_nodup.
Qed.

Lemma named_slot_encodes r oid i s g :
  reg_inv r → slots_ r !! i = Some s → 0 < g <= U32_MAX → encodes i g oid →
  named_slot r oid = Some (i, s, g).
Proof.
  intros Hr Hs Hg He. unfold named_slot.
  rewrite (encodes_decode i g oid); [|done|by eapply slot_index_bound|done].
  simpl. by rewrite bool_decide_eq_true_2, Nat2Z.id, Hs.
Qed.

Lemma named_slot_inv r oid i s g :
  is_u64 oid → named_slot r oid = Some (i, s, g) →
  slots_ r !! i = Some s ∧ 0 < g <= U32_MAX ∧ encodes i g oid.
Proof.
  unfold named_slot. intros Hu H. destruct (decode_object_identity oid) as [p|] eqn:Hd; [|done].
  case_bool_decide as Ht; [|done]. destruct (slots_ r !! _) eqn:Hs; simplify_eq.
  assert (encode_object_identity p = Some oid) as He.
  { eapply encode_decode; [done..|]. by rewrite Ht. }
  destruct (decode_fields _ _ Hd).
  split_and!; [done|lia|lia|]. unfold encodes. rewrite Z2Nat.id by lia. rewrite <- He.
  rewrite <- Ht. by destruct p.
Qed.

(** * The operations on the abstract contents *)

Lemma resolve_any_view r oid :
  reg_inv r → is_u64 oid → resolve_any r oid = snd <$> view r !! oid.
Proof.
  intros Hr Hu. unfold resolve_any. apply option_eq. intros v. split.
  - destruct (named_slot r oid) as [[[i s] g]|] eqn:Hn; [|done].
    apply named_slot_inv in Hn as (Hs & Hg & He); [|done].
    destruct (_ || _) eqn:E; [done|]. bool_hyps. intros Hv. subst g.
    assert (view r !! oid = Some (slot_owner_session s, v)) as ->
      by (apply view_lookup; [done|]; exists i, s; by split_and!).
    done.
  - intros ([o v'] & Ho & ->)%fmap_Some. simpl.
    apply view_lookup in Ho as (i & s & Hs & Hre & Hv & Hos & He); [|done].
    pose proof (inv_slots _ Hr _ _ Hs) as [Hg _].
    rewrite (named_slot_encodes _ _ _ _ _ Hr Hs Hg He), Hre, Z.eqb_refl. done.
Qed.

Lemma resolve_view r owner oid :
  reg_inv r → is_u64 oid →
  resolve r owner oid =
    match view r !! oid with
    | Some (o, v) => if o =? owner then Some v else None
    | None => None
    end.
Proof.
  intros Hr Hu. pose proof (resolve_any_view r oid Hr Hu) as Ha.
  unfold resolve, resolve_any in *. destruct (named_slot r oid) as [[[i s] g]|] eqn:Hn.
  2: { destruct (view r !! oid) as [[o v]|]; [done|]. done. }
  apply named_slot_inv in Hn as (Hs & Hg & He); [|done].
  destruct (slot_retired s) eqn:Hre; simpl in *.
  { by destruct (view r !! oid) as [[o v]|]. }
  destruct (slot_generation s =? g) eqn:Eg; simpl in *; rewrite ?orb_true_r, ?orb_false_r.
  2: { by destruct (view r !! oid) as [[o v]|]. }
  bool_hyps. subst g. destruct (slot_value s) as [w|] eqn:Hv; simpl in *.
  2: { destruct (view r !! oid) as [[o v]|]; [done|]. by case_match. }
  assert (view r !! oid = Some (slot_owner_session s, w)) as ->
      by (apply view_lookup; [done|]; exists i, s; by split_and!).
  by destruct (_ =? _).
Qed.

(** ** Updates of one slot *)

Lemma view_insert_slot r r' i s' v oid :
  reg_inv r → reg_inv r' → slots_ r' = <[i := s']> (slots_ r) → (i < length (slots_ r))%nat →
  slot_value s' = Some v → slot_retired s' = false → encodes i (slot_generation s') oid →
  (∀ s, slots_ r !! i = Some s → slot_generation s = slot_generation s') →
  view r' = <[oid := (slot_owner_session s', v)]> (view r).
Proof.
  intros Hr Hr' Heq Hi Hv Hre He Hsame. apply map_eq. intros k. apply option_eq. intros [o w].
  rewrite view_lookup, lookup_insert, Heq by done. case_decide as Hk.
  - subst k. split.
    + intros (j & s & Hs & ? & ? & ? & He'). assert (j = i) as ->.
      { rewrite <- Heq in Hs. pose proof (inv_slots _ Hr' _ _ Hs) as [? _].
        assert (slots_ r' !! i = Some s') as Hsi by (rewrite Heq; by apply list_lookup_insert_eq).
        pose proof (inv_slots _ Hr' _ _ Hsi) as [? _].
        apply encodes_decode in He; [|done|by eapply slot_index_bound].
        apply encodes_decode in He'; [|done|by eapply slot_index_bound].
        assert (Z.of_nat i = Z.of_nat j) by congruence. lia. }
      rewrite list_lookup_insert_eq in Hs by done. simplify_eq. congruence.
    + intros [= <- <-]. exists i, s'. rewrite list_lookup_insert_eq by done. by split_and!.
  - rewrite view_lookup by done. split.
    + intros (j & s & Hs & ? & ? & ? & He'). destruct (decide (j = i)) as [->|].
      * rewrite list_lookup_insert_eq in Hs by done. simplify_eq.
        unfold encodes in *. congruence.
      * rewrite list_lookup_insert_ne in Hs by done. exists j, s. by split_and!.
    + intros (j & s & Hs & ? & ? & ? & He'). exists j, s. destruct (decide (j = i)) as [->|].
      * rewrite (Hsame _ Hs) in He'. unfold encodes in *. congruence.
      * rewrite list_lookup_insert_ne by done. by split_and!.
Qed.

Lemma view_delete_slot r r' i s s' oid :
  reg_inv r → reg_inv r' → slots_ r' = <[i := s']> (slots_ r) → slots_ r !! i = Some s →
  slot_value s' = None → encodes i (slot_generation s) oid →
  view r' = delete oid (view r).
Proof.
  intros Hr Hr' Heq Hs Hv He. apply map_eq. intros k. apply option_eq. intros [o w].
  pose proof (lookup_lt_Some _ _ _ Hs) as Hi.
  rewrite view_lookup, lookup_delete, Heq by done. case_decide as Hk.
  - subst k. split; [|done]. intros (j & t & Ht & ? & Hvt & ? & He').
    destruct (decide (j = i)) as [->|].
    { rewrite list_lookup_insert_eq in Ht by done. congruence. }
    rewrite list_lookup_insert_ne in Ht by done.
    pose proof (inv_slots _ Hr _ _ Hs) as [? _]. pose proof (inv_slots _ Hr _ _ Ht) as [? _].
    apply encodes_decode in He; [|done|by eapply (slot_index_bound r)].
    apply encodes_decode in He'; [|done|by eapply (slot_index_bound r)].
    assert (Z.of_nat i = Z.of_nat j) by congruence. lia.
  - rewrite view_lookup by done. split; intros (j & t & Ht & ? & Hvt & ? & He'); exists j, t.
    + destruct (decide (j = i)) as [->|].
      { rewrite list_lookup_insert_eq in Ht by done. congruence. }
      rewrite list_lookup_insert_ne in Ht by done. by split_and!.
    + destruct (decide (j = i)) as [->|].
      { simplify_eq. unfold encodes in *. congruence. }
      rewrite list_lookup_insert_ne by done. by split_and!.
Qed.

Lemma view_append_free r r' s' :
  reg_inv r → reg_inv r' → slots_ r' = slots_ r ++ [s'] → slot_value s' = None →
  view r' = view r.
Proof.
  intros Hr Hr' Heq Hv. apply map_eq. intros k. apply option_eq. intros [o w].
  rewrite !view_lookup by done. rewrite Heq.
  split; intros (j & t & Ht & ? & Hvt & ? & He'); exists j, t.
  - apply lookup_app_Some in Ht as [Ht|[? Ht]]; [by split_and!|].
    apply list_lookup_singleton_Some in Ht as [_ <-]. congruence.
  - rewrite lookup_app_l by (by eapply lookup_lt_Some). by split_and!.
Qed.

Lemma count_live_insert l i s s' :
  l !! i = Some s →
  count_live (<[i := s']> l) =
    count_live l - (if slot_value s is Some _ then 1 else 0)
    + (if slot_value s' is Some _ then 1 else 0).
Proof.
  intros Hi. pose proof (lookup_lt_Some _ _ _ Hi).
  rewrite insert_take_drop by done. unfold count_live.
  rewrite <- (take_drop_middle l i s Hi) at 3.
  rewrite !omap_app, !length_app. simpl.
  destruct (slot_value s), (slot_value s'); simpl; lia.
Qed.

(** ** Every operation preserves the invariant and updates the contents *)

(** Filling the slot on top of the free list. *)
Lemma insert_top r i rest owner v :
  reg_inv r → free_slots_ r = i :: rest →
  ∃ r' oid, insert r owner v = (r', Some oid) ∧ reg_inv r' ∧ 0 < oid <= U64_MAX ∧
    view r !! oid = None ∧ view r' = <[oid := (owner, v)]> (view r).
Proof.
  intros Hr Hf. assert (i ∈ free_slots_ r) as Hin by (rewrite Hf; constructor).
  pose proof (proj1 (inv_free _ Hr i) Hin) as (s & Hs & Hv & Hre).
  pose proof (inv_slots _ Hr _ _ Hs) as [Hg _].
  pose proof (lookup_lt_Some _ _ _ Hs) as Hi.
  destruct (encodes_total i (slot_generation s)) as (oid & He & Hoid);
    [done|by eapply slot_index_bound|].
  pose proof (inv_nodup _ Hr) as Hnd. rewrite Hf in Hnd. apply NoDup_cons in Hnd as [Hni Hnd].
  unfold insert. rewrite Hf. unfold fill_slot. simpl. rewrite Hs.
  pose proof He as He0. unfold encodes in He0. rewrite He0. eexists _, oid. split; [done|].
  match goal with |- reg_inv ?x ∧ _ => assert (reg_inv x) as Hr' end.
  { constructor; simpl.
    - apply Hr.
    - rewrite length_insert. apply Hr.
    - intros j t Ht. destruct (decide (j = i)) as [->|].
      + rewrite list_lookup_insert_eq in Ht by done. simplify_eq. split; [done|]. simpl. congruence.
      + rewrite list_lookup_insert_ne in Ht by done. by eapply inv_slots.
    - done.
    - intros j. destruct (decide (j = i)) as [->|].
      + split; [done|]. intros (t & Ht & Hfr). rewrite list_lookup_insert_eq in Ht by done.
        simplify_eq. by destruct Hfr.
      + rewrite list_lookup_insert_ne by done. rewrite <- (inv_free _ Hr j), Hf.
        rewrite elem_of_cons. split; [by right|by intros [?|?]].
    - rewrite (count_live_insert _ _ _ _ Hs), Hv. simpl. rewrite (inv_live _ Hr). lia. }
  split; [done|]. split; [done|]. split.
  - apply eq_None_not_Some. intros [[o w] Hlk].
    apply view_lookup in Hlk as (j & t & Ht & ? & Hvt & ? & He'); [|done].
    pose proof (inv_slots _ Hr _ _ Ht) as [? _].
    apply encodes_decode in He'; [|done|by eapply (slot_index_bound r)].
    apply encodes_decode in He; [|done|by eapply (slot_index_bound r)].
    assert (Z.of_nat i = Z.of_nat j) as ?%Nat2Z.inj by congruence. subst. congruence.
  - refine (view_insert_slot r _ i _ v oid Hr Hr' eq_refl Hi eq_refl Hre He _).
    simpl. congruence.
Qed.

Lemma insert_append r :
  reg_inv r → free_slots_ r = [] → Z.of_nat (length (slots_ r)) <= kMaxObjectSlot →
  ∃ r1, reg_inv r1 ∧ free_slots_ r1 = [length (slots_ r)] ∧ view r1 = view r ∧
    ∀ owner v, insert r owner v = insert r1 owner v.
Proof.
  intros Hr Hf Hlen.
  set (s0 := mkSlot (initial_generation_ r) 0 None false).
  set (r1 := mkRegistry (initial_generation_ r) (slots_ r ++ [s0]) [length (slots_ r)]
               (live_count_ r)).
  assert (reg_inv r1) as Hr1.
  { constructor; simpl.
    - apply Hr.
    - rewrite length_app. simpl. lia.
    - intros j t Ht. apply lookup_app_Some in Ht as [Ht|[? Ht]]; [by eapply inv_slots|].
      apply list_lookup_singleton_Some in Ht as [_ <-]. split; [apply Hr|done].
    - apply NoDup_singleton.
    - intros j. rewrite list_elem_of_singleton. split.
      + intros ->. exists s0. by rewrite lookup_app_r, Nat.sub_diag by lia.
      + intros (t & Ht & Hfr). apply lookup_app_Some in Ht as [Ht|[? Ht]].
        * assert (j ∈ free_slots_ r) as Hj by (apply inv_free; eauto). rewrite Hf in Hj. by apply elem_of_nil in Hj.
        * apply list_lookup_singleton_Some in Ht as [Hj _]. lia.
    - unfold count_live. rewrite omap_app. simpl. rewrite app_nil_r. apply Hr. }
  exists r1. split_and!; [done|done|by apply (view_append_free r r1 s0)|].
  intros owner v. unfold insert. rewrite Hf. simpl.
  rewrite (proj2 (Z.ltb_ge _ _)) by lia. done.
Qed.

Lemma insert_spec r owner v :
  reg_inv r →
  (insert r owner v = (r, None) ∧ Z.of_nat (length (slots_ r)) = kMaxObjectSlot + 1 ∧
     free_slots_ r = []) ∨
  ∃ r' oid, insert r owner v = (r', Some oid) ∧ reg_inv r' ∧ 0 < oid <= U64_MAX ∧
    view r !! oid = None ∧ view r' = <[oid := (owner, v)]> (view r).
Proof.
  intros Hr. destruct (free_slots_ r) as [|i rest] eqn:Hf.
  - destruct (decide (Z.of_nat (length (slots_ r)) <= kMaxObjectSlot)) as [Hlen|Hlen].
    + right. destruct (insert_append r Hr Hf Hlen) as (r1 & Hr1 & Hf1 & Hv1 & Heq).
      rewrite Heq, <- Hv1. by eapply insert_top.
    + left. pose proof (inv_length _ Hr). unfold insert. rewrite Hf, (proj2 (Z.ltb_lt _ _)) by lia.
      split_and!; [done|lia|done].
  - right. by eapply insert_top.
Qed.

(** A stored identity belongs to exactly one live slot. *)
Lemma view_slot r oid o v :
  reg_inv r → view r !! oid = Some (o, v) →
  ∃ i s, slots_ r !! i = Some s ∧ slot_retired s = false ∧ slot_value s = Some v ∧
    slot_owner_session s = o ∧ encodes i (slot_generation s) oid ∧
    decode_object_identity oid = Some (mkParts Type_ (slot_generation s) (Z.of_nat i)).
Proof.
  intros Hr Hlk. apply view_lookup in Hlk as (i & s & Hs & Hre & Hv & Ho & He); [|done].
  exists i, s. split_and!; try done. apply encodes_decode; [|by eapply slot_index_bound|done].
  by eapply inv_slots.
Qed.

Lemma release_spec r i s v :
  reg_inv r → slots_ r !! i = Some s → slot_value s = Some v →
  reg_inv (release r i) ∧
  ∀ oid, encodes i (slot_generation s) oid → view (release r i) = delete oid (view r).
Proof.
  intros Hr Hs Hv. pose proof (inv_slots _ Hr _ _ Hs) as [Hg Hret].
  assert (slot_retired s = false) as Hre by (destruct (slot_retired s); [rewrite Hret in Hv|]; done).
  pose proof (lookup_lt_Some _ _ _ Hs) as Hi.
  assert (i ∉ free_slots_ r) as Hni.
  { rewrite (inv_free _ Hr). intros (t & Ht & Hf & _). congruence. }
  assert (reg_inv (release r i)) as Hr'.
  { unfold release. rewrite Hs. destruct (_ =? _) eqn:Eg; bool_hyps.
    - constructor; simpl.
      + apply Hr. + rewrite length_insert; apply Hr.
      + intros j t Ht. destruct (decide (j = i)) as [->|].
        * rewrite list_lookup_insert_eq in Ht by done. by simplify_eq.
        * rewrite list_lookup_insert_ne in Ht by done. by eapply inv_slots.
      + apply Hr.
      + intros j. rewrite (inv_free _ Hr). destruct (decide (j = i)) as [->|].
        * rewrite list_lookup_insert_eq by done.
          split; intros (t & Ht & Hf1 & Hf2); simplify_eq; congruence.
        * by rewrite list_lookup_insert_ne.
      + rewrite (count_live_insert _ _ _ _ Hs), Hv. simpl. rewrite (inv_live _ Hr). lia.
    - constructor; simpl.
      + apply Hr. + rewrite length_insert; apply Hr.
      + intros j t Ht. destruct (decide (j = i)) as [->|].
        * rewrite list_lookup_insert_eq in Ht by done. simplify_eq. split; simpl; [ulia|done].
        * rewrite list_lookup_insert_ne in Ht by done. by eapply inv_slots.
      + apply NoDup_cons. split; [done|apply Hr].
      + intros j. rewrite elem_of_cons. destruct (decide (j = i)) as [->|].
        * rewrite list_lookup_insert_eq by done. split; [|by left].
          intros _. eexists. split; [done|]. by split.
        * rewrite list_lookup_insert_ne by done. rewrite <- (inv_free _ Hr).
          split; [by intros [?|?]|by right].
      + rewrite (count_live_insert _ _ _ _ Hs), Hv. simpl. rewrite (inv_live _ Hr). lia. }
  split; [done|]. intros oid He.
  assert (∃ s', slots_ (release r i) = <[i := s']> (slots_ r) ∧ slot_value s' = None)
    as (s' & Heq & Hv').
  { unfold release. rewrite Hs. destruct (_ =? _); eexists; by split. }
  by eapply view_delete_slot.
Qed.

Lemma erase_spec r owner oid v :
  reg_inv r → view r !! oid = Some (owner, v) → is_u64 oid →
  ∃ r', erase r owner oid = (r', 0) ∧ reg_inv r' ∧ view r' = delete oid (view r).
Proof.
  intros Hr Hlk Hu. pose proof (resolve_view r owner oid Hr Hu) as Hres.
  rewrite Hlk, Z.eqb_refl in Hres.
  destruct (view_slot _ _ _ _ Hr Hlk) as (i & s & Hs & Hre & Hv & Ho & He & Hd).
  unfold erase. rewrite Hd, Hres. simpl. rewrite Nat2Z.id.
  destruct (release_spec r i s v Hr Hs Hv) as [Hr' Hview]. eexists. split_and!; eauto.
Qed.

Lemma erase_missing r owner oid :
  resolve r owner oid = None → erase r owner oid = (r, EINVAL).
Proof. intros H. unfold erase. rewrite H. by case_match. Qed.

Lemma modify_spec r oid f :
  reg_inv r → is_u64 oid →
  reg_inv (modify r oid f) ∧ view (modify r oid f) = alter (prod_map id f) oid (view r).
Proof.
  intros Hr Hu. pose proof (resolve_any_view r oid Hr Hu) as Ha.
  assert (resolve_any r oid = None → view r = alter (prod_map id f) oid (view r)) as Hid.
  { rewrite Ha. intros Hn%fmap_None. symmetry. apply alter_id'. by rewrite Hn. }
  unfold modify, resolve_any in *. destruct (named_slot r oid) as [[[i s] g]|] eqn:Hn; [|auto].
  destruct (_ || _) eqn:E; [auto|]. bool_hyps. subst g.
  apply named_slot_inv in Hn as (Hs & Hg & He); [|done].
  pose proof (lookup_lt_Some _ _ _ Hs) as Hi.
  destruct (slot_value s) as [v|] eqn:Hv.
  2: { replace (<[i := _]> (slots_ r)) with (slots_ r); [destruct r; auto|].
       symmetry. apply list_insert_id. rewrite Hs. destruct s; simpl in *; congruence. }
  match goal with |- reg_inv ?x ∧ _ => assert (reg_inv x) as Hr' end.
  { constructor; simpl.
    - apply Hr. - rewrite length_insert; apply Hr.
    - intros j t Ht. destruct (decide (j = i)) as [->|].
      + rewrite list_lookup_insert_eq in Ht by done. simplify_eq. split; simpl; [done|congruence].
      + rewrite list_lookup_insert_ne in Ht by done. by eapply inv_slots.
    - apply Hr.
    - intros j. rewrite (inv_free _ Hr). destruct (decide (j = i)) as [->|].
      + rewrite list_lookup_insert_eq by done.
        split; intros (t & Ht & Hf1 & Hf2); simplify_eq; congruence.
      + by rewrite list_lookup_insert_ne.
    - rewrite (count_live_insert _ _ _ _ Hs), Hv. simpl. rewrite (inv_live _ Hr). lia. }
  split; [done|]. erewrite (view_insert_slot r _ i); [|done|done|simpl;done|done|simpl;done|done|done|].
  2: { simpl. congruence. }
  simpl. assert (view r !! oid = Some (slot_owner_session s, v)) as Hlk.
  { apply view_lookup; [done|]. exists i, s. by split_and!. }
  apply map_eq. intros k. rewrite lookup_insert. case_decide as Hk; [subst k|].
  - by rewrite lookup_alter_eq, Hlk.
  - by rewrite lookup_alter_ne.
Qed.

(** The loop of [erase_session] empties the owner's live slots among the visited
    indices and leaves every other slot as it was. *)
Lemma erase_session_fold owner (L : list nat) (r : GenerationRegistry) c :
  reg_inv r →
  let res := foldl (erase_session_at owner) (r, c) L in
  reg_inv res.1 ∧ length (slots_ res.1) = length (slots_ r) ∧
  live_count_ res.1 + res.2 = live_count_ r + c ∧
  (∀ i s' v, slots_ res.1 !! i = Some s' → slot_value s' = Some v →
     slots_ r !! i = Some s' ∧ (i ∈ L → slot_owner_session s' ≠ owner)) ∧
  (∀ i s, slots_ r !! i = Some s → slot_owner_session s ≠ owner ∨ slot_value s = None →
     slots_ res.1 !! i = Some s).
Proof.
  revert r c. induction L as [|k L IH]; intros r c Hr; simpl.
  { split_and!; [done..| |done]. intros i s' v Hs' Hv. split; [done|]. by intros ?%elem_of_nil. }
  set (acc := erase_session_at owner (r, c) k).
  assert (∃ r1 c1, acc = (r1, c1) ∧ reg_inv r1 ∧ length (slots_ r1) = length (slots_ r) ∧
    live_count_ r1 + c1 = live_count_ r + c ∧
    (∀ i s' v, slots_ r1 !! i = Some s' → slot_value s' = Some v →
       slots_ r !! i = Some s' ∧ (i = k → slot_owner_session s' ≠ owner)) ∧
    (∀ i s, slots_ r !! i = Some s → slot_owner_session s ≠ owner ∨ slot_value s = None →
       slots_ r1 !! i = Some s)) as (r1 & c1 & -> & Hr1 & Hl1 & Hc1 & Hold & Hkeep).
  { unfold acc, erase_session_at. simpl. destruct (slots_ r !! k) as [s|] eqn:Hs.
    2: { exists r, c. split_and!; try done. intros i s' v Hs' Hv. split; [done|]. intros ->. congruence. }
    destruct (_ && _) eqn:E.
    2: { exists r, c. split_and!; try done. intros i s' v Hs' Hv. split; [done|]. intros -> Ho.
         simplify_eq. rewrite Hv in E. by rewrite Z.eqb_refl, bool_decide_eq_true_2 in E by eauto. }
    bool_hyps. destruct (slot_value s) as [w|] eqn:Hw; [|by destruct H as [? [=]]].
    destruct (release_spec r k s w Hr Hs Hw) as [Hr' _].
    assert (∃ s', slots_ (release r k) = <[k := s']> (slots_ r) ∧ slot_value s' = None ∧
              live_count_ (release r k) = live_count_ r - 1) as (s' & Heq & Hv' & Hlc).
    { unfold release. rewrite Hs. destruct (_ =? _); eexists; by split_and!. }
    pose proof (lookup_lt_Some _ _ _ Hs) as Hk.
    exists (release r k), (c + 1). split_and!; [done|done|by rewrite Heq, length_insert|lia|..].
    - rewrite Heq. intros i t v Ht Hv. destruct (decide (i = k)) as [->|].
      + rewrite list_lookup_insert_eq in Ht by done. congruence.
      + rewrite list_lookup_insert_ne in Ht by done. done.
    - rewrite Heq. intros i t Ht Ho. destruct (decide (i = k)) as [->|].
      + simplify_eq. destruct Ho; congruence.
      + by rewrite list_lookup_insert_ne. }
  destruct (IH r1 c1 Hr1) as (Hr2 & Hl2 & Hc2 & Hold2 & Hkeep2). split_and!; [done|lia|lia|..].
  - intros i s' v Hs' Hv. destruct (Hold2 _ _ _ Hs' Hv) as [Hs1 Ho1].
    destruct (Hold _ _ _ Hs1 Hv) as [Hs0 Ho0]. split; [done|].
    intros [->|Hin]%elem_of_cons; auto.
  - intros i s Hs Ho. eauto.
Qed.

Lemma erase_session_spec r owner :
  reg_inv r →
  reg_inv (erase_session r owner).1 ∧
  view (erase_session r owner).1 = filter (λ e, e.2.1 ≠ owner) (view r) ∧
  live_count_ (erase_session r owner).1 = live_count_ r - (erase_session r owner).2.
Proof.
  intros Hr. destruct (erase_session_fold owner (seq 0 (length (slots_ r))) r 0 Hr)
    as (Hr' & Hlen & Hc & Hold & Hkeep).
  fold (erase_session r owner) in *. split_and!; [done| |lia].
  apply map_eq. intros oid. apply option_eq. intros [o v].
  rewrite map_lookup_filter_Some, !view_lookup by done. simpl. split.
  - intros (i & s & Hs & Hre & Hv & Ho & He). destruct (Hold _ _ _ Hs Hv) as [Hs0 Hne].
    split; [exists i, s; by split_and!|]. subst o. apply Hne.
    apply elem_of_seq. apply lookup_lt_Some in Hs. lia.
  - intros [(i & s & Hs & Hre & Hv & Ho & He) Hne]. exists i, s. split_and!; try done.
    apply Hkeep; [done|]. left. by subst.
Qed.

(** [for_each_session] visits exactly the session's live objects. *)
Lemma for_each_session_spec r owner oid v :
  reg_inv r → (oid, v) ∈ for_each_session r owner ↔ view r !! oid = Some (owner, v).
Proof.
  intros Hr. unfold for_each_session. rewrite list_elem_of_omap, view_lookup by done. split.
  - intros ([i s] & Hin & He). apply list_elem_of_lookup in Hin as [j Hj].
    rewrite list_lookup_imap in Hj. destruct (slots_ r !! j) eqn:E; simplify_eq/=.
    destruct (_ && _) eqn:Eb; [|done]. bool_hyps. cases. exists i, s. by split_and!.
  - intros (i & s & Hs & Hre & Hv & Ho & He). exists (i, s). split.
    + apply list_elem_of_lookup. exists i. by rewrite list_lookup_imap, Hs.
    + unfold encodes in He. by rewrite Hre, Ho, Z.eqb_refl, Hv, He.
Qed.


(** ** Generations only grow *)

(** A slot's generation never decreases, a retired slot stays retired, and a
    slot that lost its value moved to a later generation or was retired. *)
Definition slot_le (s s' : Slot) : Prop :=
  slot_generation s <= slot_generation s' ∧
  (slot_retired s = true → slot_retired s' = true) ∧
  (is_Some (slot_value s) → slot_value s' = None →
     slot_generation s < slot_generation s' ∨ slot_retired s' = true).

#[local] Instance slot_le_preorder : PreOrder slot_le.
Proof.
  split.
  - intros s. split_and!; [lia|done|]. by intros [v ->].
  - intros s1 s2 s3 (? & ? & H1) (? & ? & H2). split_and!; [lia|auto|].
    intros Hs1 Hn. destruct (slot_value s2) eqn:E; [destruct H2; [eauto|done|left; lia|by right]|].
    destruct (H1 Hs1 eq_refl); [left; lia|right; auto].
Qed.

Definition slots_grow (r r' : GenerationRegistry) : Prop :=
  ∀ i s, slots_ r !! i = Some s → ∃ s', slots_ r' !! i = Some s' ∧ slot_le s s'.

Lemma slots_grow_refl r : slots_grow r r.
Proof. intros i s Hs. exists s. by split. Qed.

Lemma slots_grow_trans r1 r2 r3 : slots_grow r1 r2 → slots_grow r2 r3 → slots_grow r1 r3.
Proof.
  intros H12 H23 i s Hs. destruct (H12 i s Hs) as (s2 & Hs2 & ?).
  destruct (H23 i s2 Hs2) as (s3 & Hs3 & ?). exists s3. split; [done|by etrans].
Qed.

Lemma slots_grow_insert r r' i t s :
  slots_ r' = <[i := t]> (slots_ r) → slots_ r !! i = Some s → slot_le s t → slots_grow r r'.
Proof.
  intros Heq Hs Hle j u Hu. rewrite Heq. destruct (decide (j = i)) as [->|].
  - exists t. rewrite list_lookup_insert_eq by (by eapply lookup_lt_Some). by simplify_eq.
  - exists u. by rewrite list_lookup_insert_ne.
Qed.

Lemma fill_slot_grow r i owner v : slots_grow r (fill_slot r i owner v).1.
Proof.
  unfold fill_slot. destruct (slots_ r !! i) as [s|] eqn:Hs; [|apply slots_grow_refl].
  case_match; simpl;
    (eapply slots_grow_insert; [simpl; reflexivity|exact Hs|]; split_and!; simpl; auto; lia || done).
Qed.

Lemma insert_grow r owner v : slots_grow r (insert r owner v).1.
Proof.
  unfold insert. destruct (free_slots_ r).
  - destruct (_ <? _); [apply slots_grow_refl|]. eapply slots_grow_trans; [|apply fill_slot_grow].
    intros i s Hs. exists s. simpl. by rewrite lookup_app_l by (by eapply lookup_lt_Some).
  - eapply slots_grow_trans; [|apply fill_slot_grow]. intros i s Hs. by exists s.
Qed.

Lemma release_grow r i : slots_grow r (release r i).
Proof.
  unfold release. destruct (slots_ r !! i) as [s|] eqn:Hs; [|apply slots_grow_refl].
  destruct (_ =? _); (eapply slots_grow_insert; [simpl; reflexivity|exact Hs|]);
    split_and!; simpl; auto; lia.
Qed.

Lemma erase_grow r owner oid : slots_grow r (erase r owner oid).1.
Proof. unfold erase. repeat case_match; simpl; auto using slots_grow_refl, release_grow. Qed.

Lemma modify_grow r oid f : slots_grow r (modify r oid f).
Proof.
  unfold modify. destruct (named_slot r oid) as [[[i s] g]|] eqn:Hn; [|apply slots_grow_refl].
  destruct (_ || _); [apply slots_grow_refl|].
  assert (slots_ r !! i = Some s) as Hs by (unfold named_slot in Hn; by repeat case_match; simplify_eq).
  eapply slots_grow_insert; [simpl; reflexivity|exact Hs|].
  split_and!; simpl; [lia|done|]. intros [v ->]. done.
Qed.

Lemma erase_session_grow r owner : slots_grow r (erase_session r owner).1.
Proof.
  unfold erase_session. generalize (seq 0 (length (slots_ r))) as L, 0 as c. intros L.
  revert r. induction L as [|k L IH]; intros r c; [apply slots_grow_refl|]. simpl.
  unfold erase_session_at at 2. simpl.
  assert (∀ r1 c1, slots_grow r r1 → slots_grow r (foldl (erase_session_at owner) (r1, c1) L).1) as H.
  { intros r1 c1 Hg. eapply slots_grow_trans; [exact Hg|apply IH]. }
  repeat case_match; apply H; auto using slots_grow_refl, release_grow.
Qed.

(** A handle is stale when its slot has moved past the handle's generation or is
    retired for good. *)
Definition stale (r : GenerationRegistry) (oid : Z) : Prop :=
  ∃ i g s, decode_object_identity oid = Some (mkParts Type_ g (Z.of_nat i)) ∧
    slots_ r !! i = Some s ∧ (g < slot_generation s ∨ slot_retired s = true).

Lemma stale_grow r r' oid : slots_grow r r' → stale r oid → stale r' oid.
Proof.
  intros Hg (i & g & s & Hd & Hs & Hc). destruct (Hg i s Hs) as (s' & Hs' & ? & Hr & _).
  exists i, g, s'. split_and!; [done..|]. destruct Hc as [?|?]; [left; lia|right; auto].
Qed.

Lemma stale_not_live r oid : reg_inv r → stale r oid → view r !! oid = None.
Proof.
  intros Hr (i & g & s & Hd & Hs & Hc). apply eq_None_not_Some. intros [[o v] Hlk].
  destruct (view_slot _ _ _ _ Hr Hlk) as (j & t & Ht & Hre & _ & _ & _ & Hd').
  rewrite Hd in Hd'. simplify_eq. destruct Hc; [lia|congruence].
Qed.

(** Whatever leaves the abstract contents becomes stale. *)
Lemma erased_stale r r' oid :
  reg_inv r → reg_inv r' → slots_grow r r' →
  is_Some (view r !! oid) → view r' !! oid = None → stale r' oid.
Proof.
  intros Hr Hr' Hg [[o v] Hlk] Hnone.
  destruct (view_slot _ _ _ _ Hr Hlk) as (i & s & Hs & Hre & Hv & Ho & He & Hd).
  destruct (Hg i s Hs) as (s' & Hs' & Hge & _ & Hgone).
  exists i, (slot_generation s), s'. split_and!; [done..|].
  destruct (slot_retired s') eqn:Hre'; [by right|left].
  destruct (slot_value s') as [w|] eqn:Hv'.
  - destruct (decide (slot_generation s = slot_generation s')) as [Heq|]; [exfalso|lia].
    assert (view r' !! oid = Some (slot_owner_session s', w)); [|congruence].
    apply view_lookup; [done|]. exists i, s'. rewrite <- Heq. by split_and!.
  - destruct Hgone; [eauto|done|done|congruence].
Qed.

(** * Refinement: the registry is a table of handles that are never reused *)

Inductive op :=
| Insert (owner : Z) (record : R)
| Erase (owner oid : Z)
| EraseSession (owner : Z)
| Modify (oid : Z) (f : R → R).

(** What an operation returns: the identity of [insert], the status of
    [erase], the count of [erase_session]. *)
Definition exec (r : GenerationRegistry) (o : op) : GenerationRegistry * option Z :=
  match o with
  | Insert owner record => insert r owner record
  | Erase owner oid => let '(r', e) := erase r owner oid in (r', Some e)
  | EraseSession owner => let '(r', n) := erase_session r owner in (r', Some n)
  | Modify oid f => (modify r oid f, Some 0)
  end.

(** The handles a client passes are 64-bit values. *)
Definition op_ok (o : op) : Prop :=
  match o with Erase _ oid | Modify oid _ => is_u64 oid | _ => True end.

(** The specification state: the live objects and every identity ever issued. *)
Record table := mkTable { live : gmap Z (Z * R); issued : gset Z }.

Inductive spec_step : table → op → option Z → table → Prop :=
| spec_insert m used owner v oid :
    oid ∉ used → 0 < oid <= U64_MAX →
    spec_step (mkTable m used) (Insert owner v) (Some oid)
      (mkTable (<[oid := (owner, v)]> m) ({[oid]} ∪ used))
| spec_insert_full m used owner v :
    spec_step (mkTable m used) (Insert owner v) None (mkTable m used)
| spec_erase m used owner oid v :
    m !! oid = Some (owner, v) →
    spec_step (mkTable m used) (Erase owner oid) (Some 0) (mkTable (delete oid m) used)
| spec_erase_missing m used owner oid :
    (∀ v, m !! oid ≠ Some (owner, v)) →
    spec_step (mkTable m used) (Erase owner oid) (Some EINVAL) (mkTable m used)
| spec_erase_session m used owner n :
    n = Z.of_nat (size m) - Z.of_nat (size (filter (λ e, e.2.1 ≠ owner) m)) →
    spec_step (mkTable m used) (EraseSession owner) (Some n)
      (mkTable (filter (λ e, e.2.1 ≠ owner) m) used)
| spec_modify m used oid f :
    spec_step (mkTable m used) (Modify oid f) (Some 0)
      (mkTable (alter (prod_map id f) oid m) used).

(** The live count is the number of live objects. *)
Lemma view_size r : reg_inv r → Z.of_nat (size (view r)) = live_count_ r.
Proof.
  intros Hr. rewrite (inv_live _ Hr). unfold count_live, view. f_equal.
  rewrite map_size_list_to_map by (by apply live_entries_nodup). unfold live_entries.
  assert (∀ k l, (∀ i s, l !! i = Some s → slot_ok s ∧ Z.of_nat (k + i) <= kMaxObjectSlot) →
    length (omap (λ '(i, s), live_entry i s) (imap (λ i s, ((k + i)%nat, s)) l)) =
    length (omap slot_value l)) as H.
  { intros k l. revert k. induction l as [|s l IH]; intros k Hl; [done|].
    rewrite imap_offset_cons.
    specialize (IH (S k)). simpl. destruct (Hl 0%nat s eq_refl) as [[Hg Hret] Hk].
    rewrite Nat.add_0_r in Hk. destruct (encodes_total k (slot_generation s) Hg Hk) as (oid & He & _).
    unfold live_entry. unfold encodes in He. rewrite He.
    assert (length (omap (λ '(i, s), live_entry i s) (imap (λ i s, ((S k + i)%nat, s)) l)) =
            length (omap slot_value l)) as IH'.
    { apply IH. intros i s' Hi. destruct (Hl (S i) s' Hi). split; [done|]. by rewrite Nat.add_succ_comm. }
    destruct (slot_value s) eqn:Hv; [|done].
    destruct (slot_retired s); [by discriminate Hret|]. simpl. f_equal. exact IH'. }
  apply (H 0%nat (slots_ r)).
  intros i s Hs. split; [by eapply inv_slots|by eapply slot_index_bound].
Qed.

(** The relation between a registry and the specification state: same contents,
    and every issued identity is live or stale. *)
Definition refines (r : GenerationRegistry) (t : table) : Prop :=
  reg_inv r ∧ view r = live t ∧
  ∀ oid, oid ∈ issued t → is_Some (live t !! oid) ∨ stale r oid.

Lemma refines_shrink r r' m m' used :
  refines r (mkTable m used) → reg_inv r' → slots_grow r r' → view r' = m' →
  refines r' (mkTable m' used).
Proof.
  intros (Hr & Hv & Hi) Hr' Hg Hv'. split_and!; [done..|]. simpl in *. intros oid Hin.
  destruct (m' !! oid) eqn:E; [eauto|right]. subst.
  destruct (Hi oid Hin) as [Hs|Hs]; [by eapply (erased_stale r r')|by eapply (stale_grow r r')].
Qed.

(** One operation of the registry is one step of the specification. *)
Lemma exec_refines r t o :
  refines r t → op_ok o →
  ∃ t', spec_step t o (exec r o).2 t' ∧ refines (exec r o).1 t'.
Proof.
  intros Href Ho. pose proof Href as (Hr & Hv & Hi). destruct t as [m used]. simpl in *.
  destruct o as [owner v|owner oid|owner|oid f]; simpl in *.
  - destruct (insert_spec r owner v Hr) as [(-> & _)|(r' & oid & Heq & Hr' & Hoid & Hnone & Hview)].
    { eexists. split; [constructor|done]. }
    pose proof (insert_grow r owner v) as Hg. rewrite Heq in *. simpl in *.
    eexists. split; [constructor|]; [|done|].
    { intros [[e He]|Hs]%Hi; [congruence|].
      apply (stale_grow _ _ _ Hg), stale_not_live in Hs; [|done].
      rewrite Hview, lookup_insert_eq in Hs. done. }
    split_and!; [done|by rewrite Hview, Hv|]. simpl. intros k [->%elem_of_singleton|Hk]%elem_of_union.
    { rewrite lookup_insert_eq. eauto. }
    destruct (Hi k Hk) as [Hs|Hs]; [left|right; by eapply stale_grow].
    rewrite lookup_insert. case_decide; eauto.
  - pose proof (resolve_view r owner oid Hr Ho) as Hres. rewrite Hv in Hres.
    destruct (resolve r owner oid) as [v|] eqn:Hrv.
    + assert (m !! oid = Some (owner, v)) as Hlk.
      { destruct (m !! oid) as [[o w]|]; [|done]. destruct (o =? owner) eqn:E; bool_hyps; congruence. }
      destruct (erase_spec r owner oid v Hr ltac:(by rewrite Hv) Ho) as (r' & Heq & Hr' & Hview).
      pose proof (erase_grow r owner oid) as Hg. rewrite Heq in *. simpl in *.
      eexists. split; [by econstructor|]. eapply refines_shrink; [done..|]. by rewrite Hview, Hv.
    + rewrite erase_missing by done. eexists. split; [|done]. constructor. intros v Hlk.
      by rewrite Hlk, Z.eqb_refl in Hres.
  - destruct (erase_session_spec r owner Hr) as (Hr' & Hview & Hc).
    pose proof (erase_session_grow r owner) as Hg.
    pose proof (view_size _ Hr) as Hs. pose proof (view_size _ Hr') as Hs'.
    destruct (erase_session r owner) as [r' n]. simpl in *. rewrite Hv in *.
    eexists. split; [constructor; rewrite <- Hview; lia|]. by eapply refines_shrink.
  - destruct (modify_spec r oid f Hr Ho) as [Hr' Hview].
    eexists. split; [constructor|]. eapply refines_shrink; [done..|apply modify_grow|].
    by rewrite Hview, Hv.
Qed.

Lemma exec_grow r o : slots_grow r (exec r o).1.
Proof.
  destruct o as [owner v|owner oid|owner|oid f]; simpl.
  - apply insert_grow.
  - pose proof (erase_grow r owner oid). by destruct (erase r owner oid).
  - pose proof (erase_session_grow r owner). by destruct (erase_session r owner).
  - apply modify_grow.
Qed.

(** A run of operations, with the value each returned. *)
Fixpoint run (r : GenerationRegistry) (ops : list op) : GenerationRegistry * list (option Z) :=
  match ops with
  | [] => (r, [])
  | o :: ops => let '(r1, a) := exec r o in let '(r2, l) := run r1 ops in (r2, a :: l)
  end.

Inductive spec_run : table → list op → list (option Z) → table → Prop :=
| spec_run_nil t : spec_run t [] [] t
| spec_run_cons t1 o a t2 ops l t3 :
    spec_step t1 o a t2 → spec_run t2 ops l t3 → spec_run t1 (o :: ops) (a :: l) t3.

Lemma run_refines ops r t :
  refines r t → Forall op_ok ops →
  ∃ t', spec_run t ops (run r ops).2 t' ∧ refines (run r ops).1 t'.
Proof.
  revert r t. induction ops as [|o ops IH]; intros r t Hr Hok; simpl.
  { exists t. split; [constructor|done]. }
  apply Forall_cons in Hok as [Ho Hok]. destruct (exec_refines r t o Hr Ho) as (t1 & Hs & Hr1).
  destruct (exec r o) as [r1 a]. simpl in *. destruct (IH r1 t1 Hr1 Hok) as (t2 & Hs2 & Hr2).
  destruct (run r1 ops) as [r2 l]. simpl in *. exists t2. split; [by econstructor|done].
Qed.

Lemma new_registry_refines g : 0 <= g <= U32_MAX → refines (new_registry g) (mkTable ∅ ∅).
Proof.
  intros Hg. split_and!; [|done|set_solver].
  constructor; simpl; [case_decide; ulia|by vm_compute|done|constructor| |done].
  intros i. split; [by intros ?%elem_of_nil|]. by intros (s & Hs & _).
Qed.


(** (C24) The registry refines a table of handles that are never reused: any run
    of [insert], [erase], [erase_session] and record updates from an empty
    registry returns what the specification allows, and the final contents are
    the specification's.  In the specification an inserted object's identity was
    never issued before. *)
Theorem registry_refines_table g ops :
  0 <= g <= U32_MAX → Forall op_ok ops →
  ∃ t, spec_run (mkTable ∅ ∅) ops (run (new_registry g) ops).2 t ∧
    refines (run (new_registry g) ops).1 t.
Proof. intros Hg Hok. apply run_refines; [by apply new_registry_refines|done]. Qed.

(** Use after free is impossible: once [erase] succeeded, the handle
    resolves for no session, whatever operations follow, even when its slot is
    reused. *)
Theorem erased_handle_never_resolves r owner oid ops :
  reg_inv r → is_u64 oid → (erase r owner oid).2 = 0 → Forall op_ok ops →
  ∀ session, resolve (run (erase r owner oid).1 ops).1 session oid = None ∧
    resolve_any (run (erase r owner oid).1 ops).1 oid = None.
Proof.
  intros Hr Hu He Hok session.
  assert (∃ r1, erase r owner oid = (r1, 0) ∧ refines r1 (mkTable (view r1) ∅) ∧ stale r1 oid)
    as (r1 & -> & Href & Hst).
  { pose proof (resolve_view r owner oid Hr Hu) as Hres.
    destruct (resolve r owner oid) eqn:E; [|by rewrite erase_missing in He].
    destruct (view r !! oid) as [[o w]|] eqn:Hlk; [|done].
    destruct (o =? owner) eqn:Eo; [|done]. bool_hyps. subst.
    destruct (erase_spec r owner oid w Hr Hlk Hu) as (r1 & Heq & Hr1 & Hv1).
    pose proof (erase_grow r owner oid) as Hg. rewrite Heq in Hg. exists r1.
    split_and!; [done|split_and!; [done|done|set_solver]|].
    eapply (erased_stale r); [done..|eauto|]. by rewrite Hv1, lookup_delete_eq. }
  simpl. assert (reg_inv (run r1 ops).1 ∧ stale (run r1 ops).1 oid) as [Hr2 Hs2].
  { clear He. revert r1 Href Hst. induction ops as [|o ops IH]; intros r1 Href Hst; [by destruct Href|].
    apply Forall_cons in Hok as [Ho Hok]. simpl.
    destruct (exec_refines r1 _ o Href Ho) as (t & _ & Href1).
    pose proof (exec_grow r1 o) as Hg. destruct (exec r1 o) as [r2 a]. simpl in *.
    destruct (run r2 ops) as [r3 l] eqn:Er. specialize (IH Hok r2). rewrite Er in IH. apply IH.
    - destruct Href1 as (? & ? & _). split_and!; [done|done|set_solver].
    - by eapply stale_grow. }
  rewrite resolve_view, resolve_any_view by done.
  by rewrite (stale_not_live _ _ Hr2 Hs2).
Qed.

End Registry.

Arguments Slot R : clear implicits.
Arguments GenerationRegistry R : clear implicits.
Arguments op R : clear implicits.
Arguments table R : clear implicits.

(** ** Witnesses *)

Definition sample_ops : list (op Z) :=
  [Insert 1 100; Insert 2 200; Erase 1 144115188092633088; Insert 1 300; EraseSession 2].

Lemma registry_refines_table_witness :
  ∃ t, spec_run (mkTable ∅ ∅) sample_ops (run pd (new_registry 1) sample_ops).2 t ∧
    refines pd (run pd (new_registry 1) sample_ops).1 t.
Proof.
  apply (registry_refines_table pd ltac:(by right; left) 1 sample_ops); [by vm_compute|].
  repeat constructor; by vm_compute.
Defined.

Lemma erased_handle_never_resolves_witness :
  let r := (run pd (new_registry 1) [Insert 1 100; Insert 2 (200 : Z)]).1 in
  (erase pd r 1 144115188092633088).2 = 0 ∧
  resolve pd (run pd (erase pd r 1 144115188092633088).1 [Insert 1 300]).1 1 144115188092633088 = None.
Proof.
  split; [by vm_compute|].
  refine (proj1 (erased_handle_never_resolves pd ltac:(by right; left)
            (run pd (new_registry 1) [Insert 1 100; Insert 2 (200 : Z)]).1 1 144115188092633088
            [Insert 1 300] _ _ _ _ 1)).
  - destruct (run_refines pd ltac:(by right; left) [Insert 1 100; Insert 2 (200 : Z)] (new_registry 1)
      (mkTable ∅ ∅)) as (t & _ & H & _); [apply new_registry_refines; (by vm_compute) || (by right; left)| |exact H].
    repeat constructor.
  - by vm_compute.
  - by vm_compute.
  - repeat constructor.
Defined.
End Registry.
