(* ===== verification/SharedRing.v ===== *)
(** The shared single-producer single-consumer ring (src/queue/shared_ring.hpp,
    shared_ring.cpp).

    A [SharedRing] object is a process-local view of a shared mapping; the mapping
    itself is a [Region]: the header with its two positions, and the slots.  Each
    atomic load of a position is an argument of the operation that performs it
    ([RingLoads]), so that the interleaving of the two processes can choose the
    value it observes. *)

From S2P Require Import Prelude.

Module Ring.

(** * Data *)

Inductive QueueKind : Set := send | receive | completion.
#[export] Instance QueueKind_eq_dec : EqDecision QueueKind.
Proof. solve_decision. Defined.

Definition kind_code (k : QueueKind) : Z :=
  match k with send => 1 | receive => 2 | completion => 3 end.

Record QueueDescriptor := mkDescriptor {
  kind : QueueKind;
  capacity : Z;
  slot_stride : Z;
}.
#[export] Instance QueueDescriptor_eq_dec : EqDecision QueueDescriptor.
Proof. solve_decision. Defined.

Definition kSharedRingMagic : Z := 0x55475251.
Definition kSharedRingVersion : Z := 1.
Definition kSharedRingCacheLine : Z := 64.
(** [sizeof(SharedRingHeader)]: three cache lines. *)
Definition header_size : Z := 192.

Record SharedRingMetadata := mkMetadata {
  magic : Z; version : Z; md_kind : Z; header_bytes : Z; reserved0 : Z;
  mapping_bytes : Z; md_capacity : Z; md_slot_stride : Z; md_reserved : list Z;
}.

Record SharedRingPosition := mkPosition { value : Z; pos_reserved : list Z }.

Record SharedRingHeader := mkHeader {
  metadata : SharedRingMetadata;
  tail : SharedRingPosition;
  head : SharedRingPosition;
}.

(** A span of slots: the index of its first slot ([None] for a null pointer) and
    its length.  [slot_at] gives the byte address of a slot. *)
Record SlotSpan := mkSpan { data : option Z; span_count : Z }.
Record SlotBatch := mkBatch { first : SlotSpan; second : SlotSpan; count : Z }.

Record ProducerState := mkProducer {
  local_tail : Z; cached_head : Z; producer_index : Z; reserved : Z; producer_initialized : bool;
}.
Record ConsumerState := mkConsumer {
  local_head : Z; cached_tail : Z; consumer_index : Z; peeked : Z; consumer_initialized : bool;
}.

(** [mapping_] says whether the object holds a mapping ([mapping_ != nullptr]). *)
Record SharedRing := mkRing {
  mapping_ : bool;
  mapping_size_ : Z;
  descriptor_ : Z;
  queue_descriptor_ : QueueDescriptor;
  producer_ : ProducerState;
  consumer_ : ConsumerState;
}.

Definition no_producer : ProducerState := mkProducer 0 0 0 0 false.
Definition no_consumer : ConsumerState := mkConsumer 0 0 0 0 false.
Definition no_ring : SharedRing :=
  mkRing false 0 (-1) (mkDescriptor send 0 0) no_producer no_consumer.

Definition with_producer (r : SharedRing) (p : ProducerState) : SharedRing :=
  mkRing (mapping_ r) (mapping_size_ r) (descriptor_ r) (queue_descriptor_ r) p (consumer_ r).
Definition with_consumer (r : SharedRing) (c : ConsumerState) : SharedRing :=
  mkRing (mapping_ r) (mapping_size_ r) (descriptor_ r) (queue_descriptor_ r) (producer_ r) c.

(** The values the atomic loads of one operation observe: the relaxed load of the
    caller's own position and the acquire load of the other position at
    initialisation, and the acquire load of the other position at refresh. *)
Record RingLoads := mkLoads { own_position : Z; other_position : Z; refreshed_position : Z }.

(** * Operations *)

Definition valid_descriptor (d : QueueDescriptor) : bool :=
  (kind_code send <=? kind_code (kind d)) && (kind_code (kind d) <=? kind_code completion)
  && negb (capacity d =? 0) && negb (slot_stride d =? 0)
  && (slot_stride d `mod` kSharedRingCacheLine =? 0).

Definition reserved_is_zero (h : SharedRingHeader) : bool :=
  (reserved0 (metadata h) =? 0) && forallb (λ v, v =? 0) (md_reserved (metadata h))
  && forallb (λ v, v =? 0) (pos_reserved (tail h)) && forallb (λ v, v =? 0) (pos_reserved (head h)).

Definition valid (r : SharedRing) : bool := mapping_ r.

(** The byte offset of a slot from the start of the mapping. *)
Definition slot_at (r : SharedRing) (index : Z) : Z :=
  u64 (header_size + u64 (index * slot_stride (queue_descriptor_ r))).

Definition producer_reserve (r : SharedRing) (ld : RingLoads) (max_count : Z)
  : SharedRing * result SlotBatch :=
  let cap := capacity (queue_descriptor_ r) in
  if negb (valid r) || (max_count =? 0) || negb (reserved (producer_ r) =? 0)
  then (r, Err EINVAL)
  else
    let p := producer_ r in
    let p := if producer_initialized p then p
             else mkProducer (own_position ld) (other_position ld)
                    (u32 (own_position ld `mod` cap)) (reserved p) true in
    let used := u64 (local_tail p - cached_head p) in
    if cap <? used then (with_producer r p, Err EPROTO)
    else
      let available := u64 (cap - used) in
      let refresh := available <? max_count in
      let p := if refresh
               then mkProducer (local_tail p) (refreshed_position ld) (producer_index p)
                      (reserved p) (producer_initialized p)
               else p in
      let used := if refresh then u64 (local_tail p - cached_head p) else used in
      if refresh && (cap <? used) then (with_producer r p, Err EPROTO)
      else
        let available := if refresh then u64 (cap - used) else available in
        if available =? 0 then (with_producer r p, Err EAGAIN)
        else
          let n := u32 (Z.min max_count available) in
          let start := producer_index p in
          let first_count := Z.min n (u32 (cap - start)) in
          let batch := mkBatch (mkSpan (Some start) first_count)
                         (mkSpan (if first_count =? n then None else Some 0) (u32 (n - first_count)))
                         n in
          (with_producer r (mkProducer (local_tail p) (cached_head p) (producer_index p) n
                              (producer_initialized p)), Ok batch).

(** [producer_publish(count)]: the new object, the value stored to the shared
    tail (when one is), and the status. *)
Definition producer_publish (r : SharedRing) (n : Z) : SharedRing * option Z * Z :=
  let p := producer_ r in
  let cap := capacity (queue_descriptor_ r) in
  if negb (valid r) || (reserved p =? 0) || (reserved p <? n) then (r, None, EINVAL)
  else if n =? 0 then
    (with_producer r (mkProducer (local_tail p) (cached_head p) (producer_index p) 0
                        (producer_initialized p)), None, 0)
  else
    let tail' := u64 (local_tail p + n) in
    let index := u32 (producer_index p + n) in
    let index := if cap <=? index then u32 (index - cap) else index in
    (with_producer r (mkProducer tail' (cached_head p) index 0 (producer_initialized p)),
     Some tail', 0).

Definition consumer_peek (r : SharedRing) (ld : RingLoads) (max_count : Z)
  : SharedRing * result SlotBatch :=
  let cap := capacity (queue_descriptor_ r) in
  if negb (valid r) || (max_count =? 0) || negb (peeked (consumer_ r) =? 0)
  then (r, Err EINVAL)
  else
    let c := consumer_ r in
    let c := if consumer_initialized c then c
             else mkConsumer (own_position ld) (other_position ld)
                    (u32 (own_position ld `mod` cap)) (peeked c) true in
    let available := u64 (cached_tail c - local_head c) in
    if cap <? available then (with_consumer r c, Err EPROTO)
    else
      let refresh := available <? max_count in
      let c := if refresh
               then mkConsumer (local_head c) (refreshed_position ld) (consumer_index c)
                      (peeked c) (consumer_initialized c)
               else c in
      let available := if refresh then u64 (cached_tail c - local_head c) else available in
      if refresh && (cap <? available) then (with_consumer r c, Err EPROTO)
      else if available =? 0 then (with_consumer r c, Err EAGAIN)
      else
        let n := u32 (Z.min max_count available) in
        let start := consumer_index c in
        let first_count := Z.min n (u32 (cap - start)) in
        let batch := mkBatch (mkSpan (Some start) first_count)
                       (mkSpan (if first_count =? n then None else Some 0) (u32 (n - first_count)))
                       n in
        (with_consumer r (mkConsumer (local_head c) (cached_tail c) (consumer_index c) n
                            (consumer_initialized c)), Ok batch).

(** [consumer_release(count)]: as [producer_publish], for the shared head. *)
Definition consumer_release (r : SharedRing) (n : Z) : SharedRing * option Z * Z :=
  let c := consumer_ r in
  let cap := capacity (queue_descriptor_ r) in
  if negb (valid r) || (peeked c =? 0) || (peeked c <? n) then (r, None, EINVAL)
  else if n =? 0 then
    (with_consumer r (mkConsumer (local_head c) (cached_tail c) (consumer_index c) 0
                        (consumer_initialized c)), None, 0)
  else
    let head' := u64 (local_head c + n) in
    let index := u32 (consumer_index c + n) in
    let index := if cap <=? index then u32 (index - cap) else index in
    (with_consumer r (mkConsumer head' (cached_tail c) index 0 (consumer_initialized c)),
     Some head', 0).

(** The single-slot overloads: the slot pointer is the first span's. *)
Definition producer_reserve_slot (r : SharedRing) (ld : RingLoads)
  : SharedRing * result (option Z) :=
  let '(r', b) := producer_reserve r ld 1 in (r', (λ b, data (first b)) <$> b).
Definition producer_publish_slot (r : SharedRing) : SharedRing * option Z * Z :=
  producer_publish r 1.
Definition consumer_peek_slot (r : SharedRing) (ld : RingLoads) : SharedRing * result (option Z) :=
  let '(r', b) := consumer_peek r ld 1 in (r', (λ b, data (first b)) <$> b).
Definition consumer_release_slot (r : SharedRing) : SharedRing * option Z * Z :=
  consumer_release r 1.

(** ** Creating and mapping *)

Definition shared_ring_mapping_size (d : QueueDescriptor) (page_size : Z) : result Z :=
  if (page_size =? 0) || negb (valid_descriptor d) then Err EINVAL
  else if ((U64_MAX - header_size) / slot_stride d) <? capacity d then Err EOVERFLOW
  else
    let raw := u64 (header_size + u64 (capacity d * slot_stride d)) in
    let remainder := raw `mod` page_size in
    if negb (remainder =? 0) && (u64 (U64_MAX - u64 (page_size - remainder)) <? raw)
    then Err EOVERFLOW
    else Ok (if remainder =? 0 then raw else u64 (raw + page_size - remainder)).

(** What the system calls of [create_shared_ring] and [map_shared_ring] return:
    a status of 0 or an errno, a descriptor, or a size. *)
Record RingSystem := mkSystem {
  sys_page_size : result Z;   (* sysconf(_SC_PAGESIZE) *)
  sys_memfd : result Z;       (* memfd_create *)
  sys_ftruncate : Z;
  sys_mmap : Z;
  sys_add_seals : Z;
  sys_fstat : result Z;       (* st_size *)
}.

(** The kernel resources of the process that ring creation can leak. *)
Record RingResources := mkResources { open_fds : gset Z; live_mappings : Z }.

Definition close_fd (os : RingResources) (fd : Z) : RingResources :=
  mkResources (open_fds os ∖ {[fd]}) (live_mappings os).
Definition add_mapping (os : RingResources) (n : Z) : RingResources :=
  mkResources (open_fds os) (live_mappings os + n).

(** The header that [create_shared_ring] writes over the zeroed mapping. *)
Definition created_header (d : QueueDescriptor) (mapping_size : Z) : SharedRingHeader :=
  mkHeader (mkMetadata kSharedRingMagic kSharedRingVersion (kind_code (kind d)) header_size 0
              mapping_size (capacity d) (slot_stride d) (replicate 4 0))
    (mkPosition 0 (replicate 7 0)) (mkPosition 0 (replicate 7 0)).

Definition create_shared_ring (sys : RingSystem) (os : RingResources) (d : QueueDescriptor)
    (ring : SharedRing) : RingResources * result (SharedRing * SharedRingHeader) :=
  if valid ring then (os, Err EINVAL)
  else
    match page_size ← sys_page_size sys; shared_ring_mapping_size d page_size with
    | Err e => (os, Err e)
    | Ok mapping_size =>
        if I64_MAX <? mapping_size then (os, Err EOVERFLOW)
        else match sys_memfd sys with
        | Err e => (os, Err e)
        | Ok fd =>
            let os := mkResources (open_fds os ∪ {[fd]}) (live_mappings os) in
            if negb (sys_ftruncate sys =? 0) then (close_fd os fd, Err (sys_ftruncate sys))
            else if negb (sys_mmap sys =? 0) then (close_fd os fd, Err (sys_mmap sys))
            else
              let os := add_mapping os 1 in
              if negb (sys_add_seals sys =? 0)
              then (close_fd (add_mapping os (-1)) fd, Err (sys_add_seals sys))
              else (os, Ok (mkRing true mapping_size fd d no_producer no_consumer,
                            created_header d mapping_size))
        end
    end.

(** The checks of [map_shared_ring] on the header of a mapping of [size] bytes. *)
Definition validate_header (sys : RingSystem) (h : SharedRingHeader) (size : Z)
    (expected : QueueDescriptor) : Z :=
  let m := metadata h in
  let header_status :=
    if (magic m =? kSharedRingMagic) && negb (version m =? kSharedRingVersion)
    then EPROTONOSUPPORT
    else if negb (magic m =? kSharedRingMagic) || negb (md_kind m =? kind_code (kind expected))
            || negb (header_bytes m =? header_size) || negb (mapping_bytes m =? size)
            || negb (md_capacity m =? capacity expected)
            || negb (md_slot_stride m =? slot_stride expected) || negb (reserved_is_zero h)
    then EPROTO else 0 in
  if negb (header_status =? 0) then header_status
  else match page_size ← sys_page_size sys; shared_ring_mapping_size expected page_size with
       | Err e => e
       | Ok expected_size => if expected_size =? size then 0 else EPROTO
       end.

Definition map_shared_ring (sys : RingSystem) (os : RingResources) (fd : Z) (h : SharedRingHeader)
    (expected : QueueDescriptor) (ring : SharedRing) : RingResources * result SharedRing :=
  if (fd <? 0) || valid ring || negb (valid_descriptor expected) then (os, Err EINVAL)
  else match sys_fstat sys with
  | Err e => (os, Err e)
  | Ok st_size =>
      if (st_size <? header_size) || (U64_MAX <? st_size) then (os, Err EPROTO)
      else if negb (sys_mmap sys =? 0) then (os, Err (sys_mmap sys))
      else
        let os := add_mapping os 1 in
        let validation := validate_header sys h st_size expected in
        if negb (validation =? 0) then (add_mapping os (-1), Err validation)
        else (os, Ok (mkRing true st_size (-1) expected no_producer no_consumer))
  end.

(** [reset()] and the move assignment [*this = std::move(other)]. *)
Definition reset (os : RingResources) (r : SharedRing) : RingResources * SharedRing :=
  let os := if mapping_ r then add_mapping os (-1) else os in
  let os := if 0 <=? descriptor_ r then close_fd os (descriptor_ r) else os in
  (os, no_ring).

Definition move_assign (os : RingResources) (r other : SharedRing)
  : RingResources * SharedRing * SharedRing :=
  let '(os, _) := reset os r in
  (os, other, mkRing false 0 (-1) (queue_descriptor_ other) no_producer no_consumer).

Definition duplicate_fd (dup : result Z) (r : SharedRing) : result Z :=
  if descriptor_ r <? 0 then Err EINVAL else dup.

(** * Lemmas *)

Definition descriptor_ok (d : QueueDescriptor) : Prop := is_u32 (capacity d) ∧ is_u32 (slot_stride d).

Lemma valid_descriptor_spec d :
  valid_descriptor d = true ↔ capacity d ≠ 0 ∧ slot_stride d ≠ 0 ∧ slot_stride d `mod` 64 = 0.
Proof.
  unfold valid_descriptor, kSharedRingCacheLine. split.
  - intros H. bool_hyps. done.
  - intros (Hc & Hs & Hm). destruct (kind d); simpl;
      rewrite (proj2 (Z.eqb_neq _ _) Hc), (proj2 (Z.eqb_neq _ _) Hs), Hm; done.
Qed.

(** The size before rounding cannot overflow 64 bits. *)
Lemma raw_size_bound d :
  descriptor_ok d → 0 <= capacity d * slot_stride d <= 18446744065119617025.
Proof. intros [??]. widths. nia. Qed.

Lemma capacity_check_passes d :
  descriptor_ok d → slot_stride d ≠ 0 →
  ((U64_MAX - header_size) / slot_stride d <? capacity d) = false.
Proof.
  intros [Hc Hs] Hne. apply Z.ltb_ge. apply Z.div_le_lower_bound; [ulia|].
  pose proof (raw_size_bound d (conj Hc Hs)). unfold U64_MAX, header_size. lia.
Qed.

Lemma raw_size_exact d :
  descriptor_ok d →
  u64 (header_size + u64 (capacity d * slot_stride d)) = header_size + capacity d * slot_stride d.
Proof.
  intros Hd. pose proof (raw_size_bound d Hd). unfold header_size.
  rewrite (u64_small (capacity d * _)), u64_small; ulia.
Qed.

(** Rounding up to whole pages. *)
Definition round_up (raw page : Z) : Z :=
  if raw `mod` page =? 0 then raw else raw + page - raw `mod` page.

Lemma round_up_spec raw page :
  0 < page → 0 <= raw → round_up raw page `mod` page = 0 ∧ raw <= round_up raw page < raw + page.
Proof.
  intros Hp Hr. unfold round_up. pose proof (Z.mod_pos_bound raw page Hp).
  destruct (_ =? 0) eqn:E; bool_hyps; [lia|]. split; [|lia].
  rewrite (Z.div_mod raw page) at 1 by lia.
  replace (page * (raw / page) + raw `mod` page + page - raw `mod` page)
    with ((raw / page + 1) * page) by lia.
  apply Z_mod_mult.
Qed.

Lemma mapping_size_spec d page :
  descriptor_ok d → 0 < page <= U32_MAX →
  shared_ring_mapping_size d page =
    if valid_descriptor d then Ok (round_up (header_size + capacity d * slot_stride d) page)
    else Err EINVAL.
Proof.
  intros Hd Hp. unfold shared_ring_mapping_size.
  rewrite (proj2 (Z.eqb_neq page 0)) by lia. simpl.
  destruct (valid_descriptor d) eqn:Hv; [simpl|done].
  apply valid_descriptor_spec in Hv as (_ & Hs & _).
  rewrite capacity_check_passes, raw_size_exact by done.
  pose proof (raw_size_bound d Hd). set (raw := header_size + _) in *.
  assert (0 <= raw <= 18446744065119617217) by (unfold raw, header_size; lia).
  pose proof (Z.mod_pos_bound raw page). unfold round_up.
  destruct (raw `mod` page =? 0) eqn:E; simpl; [done|]. bool_hyps.
  rewrite (u64_small (page - _)), (u64_small (U64_MAX - _)), (u64_small (raw + _ - _)) by ulia.
  rewrite (proj2 (Z.ltb_ge _ _)) by ulia. done.
Qed.

Lemma add_mapping_undo os : add_mapping (add_mapping os 1) (-1) = os.
Proof. destruct os. unfold add_mapping. simpl. f_equal. lia. Qed.

Lemma open_close_undo fds n fd :
  fd ∉ fds → close_fd (mkResources (fds ∪ {[fd]}) n) fd = mkResources fds n.
Proof. intros. unfold close_fd. simpl. f_equal. set_solver. Qed.

(** The header written by creation is accepted for exactly its descriptor. *)
Lemma validate_created sys d expected page n :
  sys_page_size sys = Ok page → shared_ring_mapping_size d page = Ok n →
  validate_header sys (created_header d n) n expected = if decide (expected = d) then 0 else EPROTO.
Proof.
  intros Hp Hs. unfold validate_header, created_header. simpl. rewrite Hp. simpl.
  rewrite !Z.eqb_refl. simpl. case_decide as Heq.
  - subst. by rewrite !Z.eqb_refl, Hs, Z.eqb_refl.
  - destruct d as [k c st], expected as [k' c' st']; simpl in *.
    destruct (decide (c = c')) as [->|Hc];
      [|apply Z.eqb_neq in Hc; rewrite Hc; simpl; by rewrite ?orb_true_r].
    destruct (decide (st = st')) as [->|Hst];
      [|apply Z.eqb_neq in Hst; rewrite Hst; simpl; by rewrite ?orb_true_r].
    destruct k, k'; done.
Qed.

(** * Properties *)

(** (C39) The mapping is large enough and page aligned: for every 32-bit
    descriptor and page size the computation never overflows; it succeeds exactly
    for the valid descriptors, with the least multiple of the page size that holds
    the header and all slots, and every slot of a ring with that descriptor lies
    between the header and the end of the mapping. *)
Theorem mapping_size_sound d page :
  descriptor_ok d → 0 < page <= U32_MAX →
  if valid_descriptor d then
    ∃ n, shared_ring_mapping_size d page = Ok n ∧ is_u64 n ∧ n `mod` page = 0 ∧
      header_size + capacity d * slot_stride d <= n < header_size + capacity d * slot_stride d + page ∧
      ∀ r i, queue_descriptor_ r = d → 0 <= i < capacity d →
        header_size <= slot_at r i ∧ slot_at r i + slot_stride d <= n ∧
        ∀ j, i < j < capacity d → slot_at r i + slot_stride d <= slot_at r j
  else shared_ring_mapping_size d page = Err EINVAL.
Proof.
  intros Hd Hp. rewrite mapping_size_spec by done. destruct (valid_descriptor d); [|done].
  pose proof (raw_size_bound d Hd) as Hraw. set (raw := header_size + _) in *.
  destruct (round_up_spec raw page) as [Hm Hb]; [lia|unfold raw, header_size; lia|].
  eexists. split; [done|]. split; [unfold raw, header_size in *; ulia|]. split; [done|].
  split; [done|]. intros r i <- Hi. destruct Hd as [Hc Hs].
  assert (∀ k, 0 <= k < capacity (queue_descriptor_ r) →
    slot_at r k = header_size + k * slot_stride (queue_descriptor_ r) ∧
    (k + 1) * slot_stride (queue_descriptor_ r)
      <= capacity (queue_descriptor_ r) * slot_stride (queue_descriptor_ r)) as Hslot.
  { intros k Hk. assert (0 <= k * slot_stride (queue_descriptor_ r) ∧
      (k + 1) * slot_stride (queue_descriptor_ r)
        <= capacity (queue_descriptor_ r) * slot_stride (queue_descriptor_ r)) by (widths; nia).
    split; [|lia]. unfold slot_at, header_size in *.
    rewrite (u64_small (k * _)), u64_small by ulia. done. }
  destruct (Hslot i Hi) as [-> Hend]. unfold raw, header_size in *.
  split; [widths; nia|]. split; [lia|]. intros j Hj. destruct (Hslot j) as [-> _]; [lia|].
  widths. nia.
Qed.

(** A ring created by one process can be mapped by another that expects the
    same descriptor, with the same size and fresh local state; any other valid
    descriptor is refused with [EPROTO] and the temporary mapping is undone. *)
Theorem create_then_map sys sys' os os' os2 fd d ring ring' header other expected page :
  create_shared_ring sys os d ring = (os', Ok (ring', header)) →
  sys_page_size sys = Ok page → sys_page_size sys' = Ok page →
  sys_fstat sys' = Ok (mapping_size_ ring') → sys_mmap sys' = 0 →
  descriptor_ok d → 0 < page <= U32_MAX →
  0 <= fd → valid other = false → valid_descriptor expected = true →
  map_shared_ring sys' os2 fd header expected other =
    if decide (expected = d)
    then (add_mapping os2 1, Ok (mkRing true (mapping_size_ ring') (-1) d no_producer no_consumer))
    else (os2, Err EPROTO).
Proof.
  intros Hcr Hp Hp' Hst Hmm Hd Hpage Hfd Hoth Hexp. unfold create_shared_ring in Hcr. rewrite Hp in Hcr.
  simpl in Hcr. destruct (valid ring); [done|].
  destruct (shared_ring_mapping_size d page) as [n|] eqn:Hn; [|done].
  destruct (I64_MAX <? n) eqn:Hmax; [done|]. destruct (sys_memfd sys); [|done]. bool_hyps.
  destruct (negb (sys_ftruncate sys =? 0)); [done|]. destruct (negb (sys_mmap sys =? 0)); [done|].
  destruct (negb (sys_add_seals sys =? 0)); [done|]. simplify_eq. simpl in *.
  assert (header_size <= n) as Hsz.
  { rewrite mapping_size_spec in Hn by done. destruct (valid_descriptor d); [|done]. simplify_eq.
    pose proof (raw_size_bound d Hd).
    destruct (round_up_spec (header_size + capacity d * slot_stride d) page);
      unfold header_size in *; lia. }
  unfold map_shared_ring. rewrite Hst, Hmm, Hoth, Hexp. simpl.
  rewrite (proj2 (Z.ltb_ge fd 0)), (proj2 (Z.ltb_ge n header_size)), (proj2 (Z.ltb_ge U64_MAX n)) by ulia.
  simpl. rewrite (validate_created sys' d expected page n) by done.
  case_decide; subst; simpl; [done|]. by rewrite add_mapping_undo.
Qed.

(** Creation is all or nothing: a failure at any system call leaves the open
    descriptors and mappings as they were, and resetting a created ring gives back
    exactly what creation took. *)
Theorem create_releases_resources sys os d ring :
  (∀ fd, sys_memfd sys = Ok fd → 0 <= fd ∧ fd ∉ open_fds os) →
  match create_shared_ring sys os d ring with
  | (os', Err _) => os' = os
  | (os', Ok (ring', _)) =>
      os' = add_mapping (mkResources (open_fds os ∪ {[descriptor_ ring']}) (live_mappings os)) 1 ∧
      valid ring' = true ∧ reset os' ring' = (os, no_ring)
  end.
Proof.
  intros Hfd. unfold create_shared_ring. destruct (valid ring); [done|].
  destruct (page_size ← _; _) as [n|]; [|done]. destruct (I64_MAX <? n); [done|].
  destruct (sys_memfd sys) as [fd|]; [|done]. destruct (Hfd fd eq_refl) as [Hnn Hnew].
  destruct os as [fds maps]. simpl in *.
  destruct (negb (sys_ftruncate sys =? 0)); [by apply open_close_undo|].
  destruct (negb (sys_mmap sys =? 0)); [by apply open_close_undo|].
  destruct (negb (sys_add_seals sys =? 0)).
  { rewrite add_mapping_undo. by apply open_close_undo. }
  split; [done|]. split; [done|]. unfold reset. simpl.
  rewrite (proj2 (Z.leb_le 0 fd)) by lia. rewrite add_mapping_undo. by rewrite open_close_undo.
Qed.

Definition demo_descriptor : QueueDescriptor := mkDescriptor send 100 128.
Definition demo_system : RingSystem := mkSystem (Ok 4096) (Ok 5) 0 0 0 (Ok 16384).
Definition demo_resources : RingResources := mkResources ∅ 0.

Lemma mapping_size_sound_witness :
  ∃ n, shared_ring_mapping_size demo_descriptor 4096 = Ok n ∧ 192 + 100 * 128 <= n.
Proof.
  destruct (mapping_size_sound demo_descriptor 4096) as (n & H & _ & _ & Hb & _);
    [by vm_compute|by vm_compute|]. exists n. split; [exact H|]. apply Hb.
Defined.

Lemma create_then_map_witness :
  map_shared_ring demo_system demo_resources 7 (created_header demo_descriptor 16384)
    demo_descriptor no_ring
  = (add_mapping demo_resources 1,
     Ok (mkRing true 16384 (-1) demo_descriptor no_producer no_consumer)).
Proof.
  apply (create_then_map demo_system demo_system demo_resources
    (create_shared_ring demo_system demo_resources demo_descriptor no_ring).1 demo_resources 7
    demo_descriptor no_ring (mkRing true 16384 5 demo_descriptor no_producer no_consumer)
    (created_header demo_descriptor 16384) no_ring demo_descriptor 4096); by vm_compute.
Defined.

Lemma create_releases_resources_witness :
  (create_shared_ring (mkSystem (Ok 4096) (Ok 5) 0 0 EINVAL (Ok 0)) demo_resources demo_descriptor
     no_ring).1 = demo_resources.
Proof.
  pose proof (create_releases_resources (mkSystem (Ok 4096) (Ok 5) 0 0 EINVAL (Ok 0)) demo_resources
    demo_descriptor no_ring) as H.
  apply H. intros fd [= <-]. split; [lia|apply not_elem_of_empty].
Defined.

(** ** Capacities beyond the bound *)

(** For capacities above 2^31, which [valid_descriptor] accepts, the 32-bit
    addition [local_index += count] can overflow before the conditional
    subtraction: publishing three slots at index 2^32 - 2 of a ring of 2^32 - 1
    slots leaves the index at 1 instead of 2. *)
Theorem publish_index_overflow :
  let d := mkDescriptor send 4294967295 64 in
  let r := mkRing true 274877906944 3 d
             (mkProducer 4294967294 4294967294 4294967294 3 true) no_consumer in
  valid_descriptor d = true ∧
  (producer_publish r 3).2 = 0 ∧
  local_tail (producer_ (producer_publish r 3).1.1) = 4294967297 ∧
  producer_index (producer_ (producer_publish r 3).1.1) = 1 ∧
  4294967297 `mod` 4294967295 = 2.
Proof. by vm_compute. Qed.

End Ring.
