(* ===== verification/RingSpsc.v ===== *)
(** One producer and one consumer on a shared ring, interleaved step by step.

    The model of memory is per-location coherence: a load of the other side's
    position returns the current value or any older one, but never one older than
    the reader has already observed.  The properties hold for every interleaving
    and however long the ring runs: the 64-bit positions may wrap. *)

From S2P Require Import Prelude SharedRing.
Import Ring.

Module Spsc.

(** * Slots of a batch *)

(** The slot indices of a batch, in order. *)
Definition span_slots (sp : SlotSpan) : list Z :=
  match data sp with Some start => seqZ start (span_count sp) | None => [] end.
Definition batch_slots (b : SlotBatch) : list Z := span_slots (first b) ++ span_slots (second b).

(** The batch of [n] slots from position [start] of a ring of [cap] slots. *)
Definition batch_at (cap start n : Z) : SlotBatch :=
  let first_count := Z.min n (cap - start) in
  mkBatch (mkSpan (Some start) first_count)
    (mkSpan (if first_count =? n then None else Some 0) (n - first_count)) n.

(** The slots a producer has reserved and a consumer has peeked. *)
Definition reserved_slots (r : SharedRing) : list Z :=
  batch_slots (batch_at (capacity (queue_descriptor_ r)) (producer_index (producer_ r))
                 (reserved (producer_ r))).
Definition peeked_slots (r : SharedRing) : list Z :=
  batch_slots (batch_at (capacity (queue_descriptor_ r)) (consumer_index (consumer_ r))
                 (peeked (consumer_ r))).

(** The slots of a batch are consecutive positions modulo the capacity. *)
Lemma batch_slots_mod cap pos n :
  0 < cap → 0 <= n <= cap →
  batch_slots (batch_at cap (pos `mod` cap) n) = (λ k, k `mod` cap) <$> seqZ pos n.
Proof.
  intros Hc Hn. pose proof (Z.mod_pos_bound pos cap Hc) as Hm.
  assert (∀ k, (pos `mod` cap + k) `mod` cap = (pos + k) `mod` cap) as Hshift.
  { intros k. by rewrite Zplus_mod_idemp_l. }
  assert (∀ m, 0 <= m <= cap - pos `mod` cap →
    seqZ (pos `mod` cap) m = (λ k, k `mod` cap) <$> seqZ pos m) as Hlow.
  { intros m Hm'. apply list_eq. intros i. rewrite list_lookup_fmap.
    destruct (decide (Z.of_nat i < m)).
    - rewrite !lookup_seqZ_lt by lia. simpl. f_equal.
      rewrite <- Hshift. rewrite (Z.mod_small (_ + _)); lia.
    - rewrite !lookup_seqZ_ge by lia. done. }
  unfold batch_slots, batch_at, span_slots. simpl.
  destruct (Z.min n (cap - pos `mod` cap) =? n) eqn:E; bool_hyps; simpl.
  - rewrite app_nil_r, E. apply Hlow. lia.
  - rewrite Z.min_r by lia. rewrite Hlow by lia.
    set (f := cap - pos `mod` cap) in *.
    replace (seqZ pos n) with (seqZ pos f ++ seqZ (pos + f) (n - f)).
    2: { rewrite <- seqZ_app by lia. f_equal. lia. }
    rewrite fmap_app. f_equal. apply list_eq. intros i. rewrite list_lookup_fmap.
    destruct (decide (Z.of_nat i < n - f)).
    + rewrite !lookup_seqZ_lt by lia. simpl. f_equal.
      rewrite <- Z.add_assoc, <- Hshift. 
      replace (pos `mod` cap + (f + Z.of_nat i)) with (Z.of_nat i + 1 * cap) by lia.
      rewrite Z.mod_add by lia. symmetry. apply Z.mod_small. lia.
    + rewrite !lookup_seqZ_ge by lia. done.
Qed.

(** * The producer's and the consumer's operations, on unbounded positions *)

(** The producer's object when [published] slots were published and the consumer
    was last seen at [seen]. *)
Record producer_at (cap : Z) (r : SharedRing) (published seen n : Z) : Prop := {
  pa_valid : valid r = true;
  pa_cap : capacity (queue_descriptor_ r) = cap;
  pa_reserved : reserved (producer_ r) = n;
  pa_bounds : 0 <= n ∧ 0 <= seen <= published ∧ published + n <= seen + cap;
  pa_init : if producer_initialized (producer_ r)
            then local_tail (producer_ r) = u64 published ∧
                 cached_head (producer_ r) = u64 seen ∧
                 producer_index (producer_ r) = published `mod` cap
            else published = 0 ∧ n = 0 ∧ producer_ r = no_producer;
}.

Record consumer_at (cap : Z) (r : SharedRing) (released seen n : Z) : Prop := {
  ca_valid : valid r = true;
  ca_cap : capacity (queue_descriptor_ r) = cap;
  ca_peeked : peeked (consumer_ r) = n;
  ca_bounds : 0 <= n ∧ 0 <= released ∧ released + n <= seen ∧ seen <= released + cap;
  ca_init : if consumer_initialized (consumer_ r)
            then local_head (consumer_ r) = u64 released ∧
                 cached_tail (consumer_ r) = u64 seen ∧
                 consumer_index (consumer_ r) = released `mod` cap
            else released = 0 ∧ seen = 0 ∧ consumer_ r = no_consumer;
}.

(** The capacities for which [local_index + count] cannot overflow 32 bits; see
    [publish_index_overflow] for larger ones. *)
Definition cap_ok (cap : Z) : Prop := 0 < cap <= 2147483648.

(** The guard of [producer_reserve]. *)
Lemma reserve_rejected r ld max :
  valid r = true → max = 0 ∨ reserved (producer_ r) ≠ 0 →
  producer_reserve r ld max = (r, Err EINVAL).
Proof.
  intros Hv H. unfold producer_reserve. rewrite Hv. simpl.
  destruct H as [->|H]; [done|]. rewrite (proj2 (Z.eqb_neq _ _) H). simpl.
  by rewrite orb_true_r.
Qed.

(** What [producer_reserve] returns: the free slots as last observed, at least
    one and at most [max]; the observation is refreshed when it is too small. *)
Lemma reserve_spec cap r published seen h0 h1 max :
  cap_ok cap → producer_at cap r published seen 0 → seen <= h0 <= h1 → h1 <= published →
  0 < max <= U32_MAX →
  ∃ seen' r', seen <= seen' <= h1 ∧
    cached_head (producer_ r') = u64 seen' ∧ (seen' = seen ∨ seen' = h0 ∨ seen' = h1) ∧
    (cap - (published - seen') < max → seen' = h1) ∧
    let avail := cap - (published - seen') in
    producer_at cap r' published seen' (Z.min max avail) ∧ consumer_ r' = consumer_ r ∧
    queue_descriptor_ r' = queue_descriptor_ r ∧
    producer_reserve r (mkLoads (u64 published) (u64 h0) (u64 h1)) max =
      (r', if avail =? 0 then Err EAGAIN
           else Ok (batch_at cap (published `mod` cap) (Z.min max avail))).
Proof.
  intros Hcap [Hv Hc Hr (Hn & Hs & Hb) Hi] Hh Hh1 Hmax. unfold cap_ok in Hcap.
  set (p1 := if producer_initialized (producer_ r) then producer_ r
             else mkProducer (u64 published) (u64 h0) (u32 (u64 published `mod` cap)) 0 true).
  assert (∃ seen0, seen <= seen0 <= h0 ∧ (seen0 = seen ∨ seen0 = h0) ∧
    p1 = mkProducer (u64 published) (u64 seen0) (published `mod` cap) 0 true)
    as (seen0 & Hs0 & Hor & Hp1).
  { unfold p1. destruct (producer_ r) as [lt ch pi re []]; simpl in *.
    - destruct Hi as (-> & -> & ->). subst re. exists seen. split_and!; [lia|lia|by left|done].
    - destruct Hi as (-> & _ & [= -> -> -> ->]). exists h0. split_and!; [lia|lia|by right|].
      by assert (h0 = 0) as -> by lia. }
  pose proof (Z.mod_pos_bound published cap ltac:(lia)) as Hm.
  unfold producer_reserve. rewrite Hv, Hc, Hr. simpl. rewrite (proj2 (Z.eqb_neq max 0)) by lia. simpl.
  fold p1. rewrite Hp1. simpl.
  rewrite u64_sub_wrapped by ulia. rewrite (proj2 (Z.ltb_ge cap _)) by lia.
  rewrite (u64_small (cap - (published - seen0))) by ulia.
  (* the observation after a possible refresh *)
  set (seen' := if cap - (published - seen0) <? max then h1 else seen0).
  exists seen', (with_producer r (mkProducer (u64 published) (u64 seen') (published `mod` cap)
                   (Z.min max (cap - (published - seen'))) true)).
  assert (seen0 <= seen' <= h1) as Hs' by (unfold seen'; destruct (_ <? _) eqn:E; bool_hyps; lia).
  split; [lia|]. split; [done|].
  split; [unfold seen'; destruct (_ <? _); tauto|].
  split; [unfold seen'; destruct (_ <? _) eqn:E; bool_hyps; lia|].
  cbv zeta. split; [by constructor; simpl; [..|lia|]|]. split; [done|]. split; [done|].
  unfold seen'. destruct (cap - (published - seen0) <? max) eqn:E; simpl.
  - rewrite u64_sub_wrapped by ulia. rewrite (proj2 (Z.ltb_ge cap _)) by lia. simpl.
    rewrite (u64_small (cap - (published - h1))) by ulia.
    rewrite (u32_small (Z.min _ _)), (u32_small (cap - _ `mod` _)) by ulia.
    destruct (_ =? 0) eqn:E0; bool_hyps; [rewrite E0, Z.min_r by lia; done|].
    unfold batch_at. rewrite u32_small by ulia. done.
  - bool_hyps. rewrite (u32_small (Z.min _ _)), (u32_small (cap - _ `mod` _)) by ulia.
    rewrite (proj2 (Z.eqb_neq (cap - _) 0)) by lia.
    unfold batch_at. rewrite u32_small by ulia. done.
Qed.

Lemma publish_rejected r c :
  valid r = true → reserved (producer_ r) = 0 ∨ reserved (producer_ r) < c →
  producer_publish r c = (r, None, EINVAL).
Proof.
  intros Hv H. unfold producer_publish. rewrite Hv. simpl.
  destruct H as [->|H]; [done|]. rewrite (proj2 (Z.ltb_lt _ _) H). by rewrite orb_true_r.
Qed.

(** Advancing an index by at most the capacity: one conditional subtraction is
    the remainder. *)
Lemma advance_index cap pos c :
  cap_ok cap → 0 <= c <= cap →
  (if cap <=? u32 (pos `mod` cap + c) then u32 (u32 (pos `mod` cap + c) - cap)
   else u32 (pos `mod` cap + c)) = (pos + c) `mod` cap.
Proof.
  intros Hcap Hc. unfold cap_ok in Hcap.
  pose proof (Z.mod_pos_bound pos cap ltac:(lia)) as Hm.
  rewrite (u32_small (_ + _)) by ulia. rewrite <- (Zplus_mod_idemp_l pos).
  destruct (_ <=? _) eqn:E; bool_hyps.
  - rewrite u32_small by ulia. apply Z.mod_unique with 1; lia.
  - apply Z.mod_unique with 0; lia.
Qed.

Lemma publish_spec cap r published seen n c :
  cap_ok cap → producer_at cap r published seen n → 0 < n → 0 <= c <= n →
  ∃ r', producer_publish r c = (r', if c =? 0 then None else Some (u64 (published + c)), 0) ∧
    producer_at cap r' (published + c) seen 0 ∧ consumer_ r' = consumer_ r ∧
    queue_descriptor_ r' = queue_descriptor_ r.
Proof.
  intros Hcap [Hv Hc Hr (Hn & Hs & Hb) Hi] Hn0 Hcn. unfold producer_publish.
  rewrite Hv, Hr, Hc. rewrite (proj2 (Z.eqb_neq n 0)), (proj2 (Z.ltb_ge n c)) by lia. simpl.
  destruct (producer_ r) as [lt ch pi re ini]; simpl in *. destruct ini; [|lia].
  destruct Hi as (-> & -> & ->). subst re. destruct (c =? 0) eqn:E0; bool_hyps.
  - subst c. eexists. split; [done|]. rewrite Z.add_0_r. split_and!; [|done|done].
    constructor; simpl; [done|done|done|lia|by split_and!].
  - eexists. split; [by rewrite u64_add_wrapped|]. split_and!; [|done|done].
    constructor; simpl; [done|done|done|lia|]. split_and!; [done|done|].
    apply advance_index; [done|]. unfold cap_ok in Hcap. lia.
Qed.

(** ** The consumer's side *)

Lemma peek_rejected r ld max :
  valid r = true → max = 0 ∨ peeked (consumer_ r) ≠ 0 →
  consumer_peek r ld max = (r, Err EINVAL).
Proof.
  intros Hv H. unfold consumer_peek. rewrite Hv. simpl.
  destruct H as [->|H]; [done|]. rewrite (proj2 (Z.eqb_neq _ _) H). simpl.
  by rewrite orb_true_r.
Qed.

(** What [consumer_peek] returns: the published slots as last observed, oldest
    first, at least one and at most [max]. *)
Lemma peek_spec cap r released seen t0 t1 max :
  cap_ok cap → consumer_at cap r released seen 0 → seen <= t0 <= t1 → t1 <= released + cap →
  0 < max <= U32_MAX →
  ∃ seen' r', seen <= seen' <= t1 ∧
    cached_tail (consumer_ r') = u64 seen' ∧ (seen' = seen ∨ seen' = t0 ∨ seen' = t1) ∧
    (seen' - released < max → seen' = t1) ∧
    let avail := seen' - released in
    consumer_at cap r' released seen' (Z.min max avail) ∧ producer_ r' = producer_ r ∧
    queue_descriptor_ r' = queue_descriptor_ r ∧
    consumer_peek r (mkLoads (u64 released) (u64 t0) (u64 t1)) max =
      (r', if avail =? 0 then Err EAGAIN
           else Ok (batch_at cap (released `mod` cap) (Z.min max avail))).
Proof.
  intros Hcap [Hv Hc Hr (Hn & Hs & Hb & Hb') Hi] Ht Ht1 Hmax. unfold cap_ok in Hcap.
  set (c1 := if consumer_initialized (consumer_ r) then consumer_ r
             else mkConsumer (u64 released) (u64 t0) (u32 (u64 released `mod` cap)) 0 true).
  assert (∃ seen0, seen <= seen0 <= t0 ∧ (seen0 = seen ∨ seen0 = t0) ∧
    c1 = mkConsumer (u64 released) (u64 seen0) (released `mod` cap) 0 true)
    as (seen0 & Hs0 & Hor & Hc1).
  { unfold c1. destruct (consumer_ r) as [lh ct ci pe []]; simpl in *.
    - destruct Hi as (-> & -> & ->). subst pe. exists seen. split_and!; [lia|lia|by left|done].
    - destruct Hi as (-> & -> & [= -> -> -> ->]). exists t0. split_and!; [lia|lia|by right|done]. }
  pose proof (Z.mod_pos_bound released cap ltac:(lia)) as Hm.
  unfold consumer_peek. rewrite Hv, Hc, Hr. simpl. rewrite (proj2 (Z.eqb_neq max 0)) by lia. simpl.
  fold c1. rewrite Hc1. simpl.
  rewrite u64_sub_wrapped by ulia. rewrite (proj2 (Z.ltb_ge cap _)) by lia.
  set (seen' := if seen0 - released <? max then t1 else seen0).
  exists seen', (with_consumer r (mkConsumer (u64 released) (u64 seen') (released `mod` cap)
                   (Z.min max (seen' - released)) true)).
  assert (seen0 <= seen' <= t1) as Hs' by (unfold seen'; destruct (_ <? _) eqn:E; bool_hyps; lia).
  split; [lia|]. split; [done|].
  split; [unfold seen'; destruct (_ <? _); tauto|].
  split; [unfold seen'; destruct (_ <? _) eqn:E; bool_hyps; lia|].
  cbv zeta. split; [by constructor; simpl; [..|lia|]|]. split; [done|]. split; [done|].
  unfold seen'. destruct (seen0 - released <? max) eqn:E; simpl.
  - rewrite u64_sub_wrapped by ulia. rewrite (proj2 (Z.ltb_ge cap _)) by lia. simpl.
    rewrite (u32_small (Z.min _ _)), (u32_small (cap - _ `mod` _)) by ulia.
    destruct (_ =? 0) eqn:E0; bool_hyps; [rewrite E0, Z.min_r by lia; done|].
    unfold batch_at. rewrite u32_small by ulia. done.
  - bool_hyps. rewrite (u32_small (Z.min _ _)), (u32_small (cap - _ `mod` _)) by ulia.
    rewrite (proj2 (Z.eqb_neq (seen0 - _) 0)) by lia.
    unfold batch_at. rewrite u32_small by ulia. done.
Qed.

Lemma release_rejected r c :
  valid r = true → peeked (consumer_ r) = 0 ∨ peeked (consumer_ r) < c →
  consumer_release r c = (r, None, EINVAL).
Proof.
  intros Hv H. unfold consumer_release. rewrite Hv. simpl.
  destruct H as [->|H]; [done|]. rewrite (proj2 (Z.ltb_lt _ _) H). by rewrite orb_true_r.
Qed.

Lemma consumer_release_spec cap r released seen n c :
  cap_ok cap → consumer_at cap r released seen n → 0 < n → 0 <= c <= n →
  ∃ r', consumer_release r c = (r', if c =? 0 then None else Some (u64 (released + c)), 0) ∧
    consumer_at cap r' (released + c) seen 0 ∧ producer_ r' = producer_ r ∧
    queue_descriptor_ r' = queue_descriptor_ r.
Proof.
  intros Hcap [Hv Hc Hr (Hn & Hs & Hb & Hb') Hi] Hn0 Hcn. unfold consumer_release.
  rewrite Hv, Hr, Hc. rewrite (proj2 (Z.eqb_neq n 0)), (proj2 (Z.ltb_ge n c)) by lia. simpl.
  destruct (consumer_ r) as [lh ct ci pe ini]; simpl in *. destruct ini; [|lia].
  destruct Hi as (-> & -> & ->). subst pe. destruct (c =? 0) eqn:E0; bool_hyps.
  - subst c. eexists. split; [done|]. rewrite Z.add_0_r. split_and!; [|done|done].
    constructor; simpl; [done|done|done|lia|by split_and!].
  - eexists. split; [by rewrite u64_add_wrapped|]. split_and!; [|done|done].
    constructor; simpl; [done|done|done|lia|]. split_and!; [done|done|].
    apply advance_index; [done|]. unfold cap_ok in Hcap. lia.
Qed.

(** * The interleaved system *)

Section System.
Context {A : Type}.

(** [mem_tail], [mem_head] and [mem_slots] are the shared mapping; [producer] and
    [consumer] the two processes' objects.  The other fields are history: how many
    slots were published and released, what each side last observed, and every
    value ever published. *)
Record system := mkSystem {
  producer : SharedRing;
  consumer : SharedRing;
  mem_tail : Z;
  mem_head : Z;
  mem_slots : list A;
  published : Z;
  released : Z;
  seen_head : Z;
  seen_tail : Z;
  log : list A;
}.

(** The position a side holds in its cache after an operation that may have
    loaded [h0] and then [h1]. *)
Definition observe (old h0 h1 cached : Z) : Z :=
  if decide (cached = u64 h1) then h1 else if decide (cached = u64 h0) then h0 else old.

Definition slot_get (slots : list A) (j : Z) : option A := slots !! Z.to_nat j.

(** The values in the first [n] reserved slots. *)
Definition reserved_values (s : system) (n : Z) : list A :=
  omap (slot_get (mem_slots s)) (take (Z.to_nat n) (reserved_slots (producer s))).

Inductive event :=
| EReserve (max : Z) (outcome : result SlotBatch)
| EWrite (slot : Z) (v : A)
| EPublish (n status : Z)
| EPeek (max : Z) (outcome : result SlotBatch)
| ERelease (n status : Z).

Inductive step : system → event → system → Prop :=
| step_reserve s max h0 h1 r' outcome :
    is_u32 max → seen_head s <= h0 <= h1 → h1 <= released s →
    producer_reserve (producer s) (mkLoads (mem_tail s) (u64 h0) (u64 h1)) max = (r', outcome) →
    step s (EReserve max outcome)
      (mkSystem r' (consumer s) (mem_tail s) (mem_head s) (mem_slots s) (published s) (released s)
         (observe (seen_head s) h0 h1 (cached_head (producer_ r'))) (seen_tail s) (log s))
| step_write s j v :
    j ∈ reserved_slots (producer s) →
    step s (EWrite j v)
      (mkSystem (producer s) (consumer s) (mem_tail s) (mem_head s)
         (<[Z.to_nat j := v]> (mem_slots s)) (published s) (released s)
         (seen_head s) (seen_tail s) (log s))
| step_publish s n r' store status :
    is_u32 n → producer_publish (producer s) n = (r', store, status) →
    step s (EPublish n status)
      (mkSystem r' (consumer s) (default (mem_tail s) store) (mem_head s) (mem_slots s)
         (published s + if status =? 0 then n else 0) (released s) (seen_head s) (seen_tail s)
         (log s ++ if status =? 0 then reserved_values s n else []))
| step_peek s max t0 t1 r' outcome :
    is_u32 max → seen_tail s <= t0 <= t1 → t1 <= published s →
    consumer_peek (consumer s) (mkLoads (mem_head s) (u64 t0) (u64 t1)) max = (r', outcome) →
    step s (EPeek max outcome)
      (mkSystem (producer s) r' (mem_tail s) (mem_head s) (mem_slots s) (published s) (released s)
         (seen_head s) (observe (seen_tail s) t0 t1 (cached_tail (consumer_ r'))) (log s))
| step_release s n r' store status :
    is_u32 n → consumer_release (consumer s) n = (r', store, status) →
    step s (ERelease n status)
      (mkSystem (producer s) r' (mem_tail s) (default (mem_head s) store) (mem_slots s) (published s)
         (released s + if status =? 0 then n else 0) (seen_head s) (seen_tail s) (log s)).

(** The system right after the ring was created and mapped by both sides. *)
Definition initial (rp rc : SharedRing) (slots : list A) : system :=
  mkSystem rp rc 0 0 slots 0 0 0 0 [].

(** The objects [create_shared_ring] and [map_shared_ring] return. *)
Definition fresh_ring (cap : Z) (r : SharedRing) : Prop :=
  valid r = true ∧ capacity (queue_descriptor_ r) = cap ∧
  producer_ r = no_producer ∧ consumer_ r = no_consumer.

Inductive reachable (cap : Z) : system → Prop :=
| reach_init rp rc slots :
    fresh_ring cap rp → fresh_ring cap rc → Z.of_nat (length slots) = cap →
    reachable cap (initial rp rc slots)
| reach_step s e s' : reachable cap s → step s e s' → reachable cap s'.

(** * The invariant *)

Record spsc_inv (cap : Z) (s : system) : Prop := {
  si_producer : producer_at cap (producer s) (published s) (seen_head s) (reserved (producer_ (producer s)));
  si_consumer : consumer_at cap (consumer s) (released s) (seen_tail s) (peeked (consumer_ (consumer s)));
  si_order : seen_head s <= released s ∧ seen_tail s <= published s;
  si_tail : mem_tail s = u64 (published s);
  si_head : mem_head s = u64 (released s);
  si_log : Z.of_nat (length (log s)) = published s;
  si_length : Z.of_nat (length (mem_slots s)) = cap;
  si_slots : ∀ k, released s <= k < published s →
    slot_get (mem_slots s) (k `mod` cap) = log s !! Z.to_nat k;
}.

Lemma observe_eq old h0 h1 cached x :
  - U64_MAX <= x - h0 <= U64_MAX → - U64_MAX <= x - h1 <= U64_MAX →
  cached = u64 x → x = old ∨ x = h0 ∨ x = h1 → observe old h0 h1 cached = x.
Proof.
  intros H0 H1 -> Hx. unfold observe. case_decide as E1; [apply u64_inj_near in E1; lia|].
  case_decide as E0; [apply u64_inj_near in E0; lia|].
  destruct Hx as [?|[?|?]]; subst; done.
Qed.

(** Slots at different positions less than the capacity apart are different. *)
Lemma mod_neq cap a b : 0 < cap → 0 < b - a < cap → a `mod` cap ≠ b `mod` cap.
Proof.
  intros Hc Hab E. pose proof (Z.div_mod a cap ltac:(lia)) as Ha.
  pose proof (Z.div_mod b cap ltac:(lia)) as Hb. rewrite E in Ha.
  set (qa := a / cap) in *. set (qb := b / cap) in *. set (m := b `mod` cap) in *.
  assert (qb = qa ∨ qb <= qa - 1 ∨ qa + 1 <= qb) as [->|[?|?]] by lia; nia.
Qed.

Lemma reserved_slots_mod cap s :
  cap_ok cap → spsc_inv cap s →
  reserved_slots (producer s) =
    (λ k, k `mod` cap) <$> seqZ (published s) (reserved (producer_ (producer s))).
Proof.
  intros Hcap Hi. destruct (si_producer _ _ Hi) as [_ Hc _ Hb Hini].
  unfold reserved_slots. rewrite Hc. pose proof (si_order _ _ Hi). unfold cap_ok in Hcap.
  assert (producer_index (producer_ (producer s)) = published s `mod` cap) as ->.
  { destruct (producer_initialized _); [tauto|]. destruct Hini as (-> & _ & ->). done. }
  apply batch_slots_mod; lia.
Qed.

Lemma peeked_slots_mod cap s :
  cap_ok cap → spsc_inv cap s →
  peeked_slots (consumer s) =
    (λ k, k `mod` cap) <$> seqZ (released s) (peeked (consumer_ (consumer s))).
Proof.
  intros Hcap Hi. destruct (si_consumer _ _ Hi) as [_ Hc _ Hb Hini].
  unfold peeked_slots. rewrite Hc. unfold cap_ok in Hcap.
  assert (consumer_index (consumer_ (consumer s)) = released s `mod` cap) as ->.
  { destruct (consumer_initialized _); [tauto|]. destruct Hini as (-> & _ & ->). done. }
  apply batch_slots_mod; lia.
Qed.

(** A reserved slot is inside the ring and is not one that still has to be read. *)
Lemma reserved_slot_free cap s j :
  cap_ok cap → spsc_inv cap s → j ∈ reserved_slots (producer s) →
  0 <= j < cap ∧ ∀ k, released s <= k < published s → j ≠ k `mod` cap.
Proof.
  intros Hcap Hi Hj. rewrite (reserved_slots_mod cap) in Hj by done. unfold cap_ok in Hcap.
  apply list_elem_of_fmap in Hj as (q & -> & Hq). apply elem_of_seqZ in Hq.
  pose proof (Z.mod_pos_bound q cap ltac:(lia)). split; [lia|]. intros k Hk.
  destruct (si_producer _ _ Hi) as [_ _ _ Hb _]. pose proof (si_order _ _ Hi).
  apply not_eq_sym, mod_neq; lia.
Qed.

Lemma slot_get_in_range (slots : list A) j :
  0 <= j < Z.of_nat (length slots) → is_Some (slot_get slots j).
Proof. intros Hj. apply lookup_lt_is_Some. lia. Qed.

(** What a publication of [n] slots appends to the log. *)
Lemma reserved_values_spec cap s n :
  cap_ok cap → spsc_inv cap s → 0 <= n <= reserved (producer_ (producer s)) →
  Z.of_nat (length (reserved_values s n)) = n ∧
  ∀ k, published s <= k < published s + n →
    slot_get (mem_slots s) (k `mod` cap) = reserved_values s n !! Z.to_nat (k - published s).
Proof.
  intros Hcap Hi Hn. unfold reserved_values. rewrite (reserved_slots_mod cap) by done.
  rewrite <- fmap_take, take_seqZ by lia.
  assert (Forall (λ j, is_Some (slot_get (mem_slots s) j))
            ((λ k, k `mod` cap) <$> seqZ (published s) n)) as Hall.
  { apply Forall_forall. intros j (q & -> & _)%list_elem_of_fmap. apply slot_get_in_range.
    rewrite (si_length _ _ Hi). unfold cap_ok in Hcap. apply Z.mod_pos_bound. lia. }
  rewrite length_omap_Forall, length_fmap, length_seqZ by done. split; [lia|].
  intros k Hk. apply fmap_Some_omap in Hall.
  apply (f_equal (λ l, l !! Z.to_nat (k - published s))) in Hall.
  rewrite !list_lookup_fmap, lookup_seqZ_lt in Hall by lia. simpl in Hall.
  replace (published s + Z.of_nat (Z.to_nat (k - published s))) with k in Hall by lia.
  destruct (omap _ _ !! _); simpl in Hall; congruence.
Qed.

(** ** Every step preserves the invariant *)

Lemma producer_cached cap r pub seen n :
  producer_at cap r pub seen n → cached_head (producer_ r) = u64 seen.
Proof.
  intros [_ _ _ Hb Hi]. destruct (producer_initialized _); [tauto|].
  destruct Hi as (-> & _ & ->). by assert (seen = 0) as -> by lia.
Qed.

Lemma consumer_cached cap r rel seen n :
  consumer_at cap r rel seen n → cached_tail (consumer_ r) = u64 seen.
Proof.
  intros [_ _ _ Hb Hi]. destruct (consumer_initialized _); [tauto|].
  by destruct Hi as (_ & -> & ->).
Qed.

Lemma reserve_preserves cap s max h0 h1 r' outcome :
  cap_ok cap → spsc_inv cap s → is_u32 max → seen_head s <= h0 <= h1 → h1 <= released s →
  producer_reserve (producer s) (mkLoads (mem_tail s) (u64 h0) (u64 h1)) max = (r', outcome) →
  let seen' := observe (seen_head s) h0 h1 (cached_head (producer_ r')) in
  seen' <= released s ∧ producer_at cap r' (published s) seen' (reserved (producer_ r')) ∧
  outcome ≠ Err EPROTO ∧
  (∀ b, outcome = Ok b → batch_slots b = reserved_slots r' ∧ 0 < count b <= max).
Proof.
  intros Hcap Hi Hmax Hh Hh1 Heq seen'. pose proof (si_producer _ _ Hi) as Hp.
  pose proof (si_consumer _ _ Hi) as [_ _ _ Hcb _]. pose proof (si_order _ _ Hi) as Ho.
  pose proof (pa_bounds _ _ _ _ _ Hp) as Hb. rewrite (si_tail _ _ Hi) in Heq.
  unfold seen'. clear seen'. pose proof Hcap as Hcap'. unfold cap_ok in Hcap'.
  destruct (decide (max = 0 ∨ reserved (producer_ (producer s)) ≠ 0)) as [Hrej|Hacc].
  - rewrite reserve_rejected in Heq by (try apply Hp; done). simplify_eq.
    rewrite (observe_eq _ _ _ _ (seen_head s)); [|ulia|ulia|by eapply producer_cached|by left].
    split_and!; [lia|done|done|done].
  - assert (reserved (producer_ (producer s)) = 0) as H0 by lia. rewrite H0 in Hp.
    destruct (reserve_spec cap _ _ _ h0 h1 max Hcap Hp Hh ltac:(lia) ltac:(ulia))
      as (seen' & r1 & Hs' & Hch & Hor & _ & Hp' & _ & _ & Heq').
    rewrite Heq' in Heq. injection Heq as <- <-.
    rewrite (observe_eq _ _ _ _ seen'); [|ulia|ulia|done|done].
    pose proof (pa_reserved _ _ _ _ _ Hp') as Hres. rewrite Hres.
    split_and!; [lia|done|by destruct (_ =? 0)|]. intros b Hb'.
    destruct (_ =? 0) eqn:E; simplify_eq. bool_hyps. pose proof (pa_bounds _ _ _ _ _ Hp') as Hb2.
    split; [|simpl; ulia]. unfold reserved_slots. rewrite Hres.
    destruct Hp' as [_ -> _ _ Hini]. destruct (producer_initialized _); [|lia].
    by destruct Hini as (_ & _ & ->).
Qed.

Lemma peek_preserves cap s max t0 t1 r' outcome :
  cap_ok cap → spsc_inv cap s → is_u32 max → seen_tail s <= t0 <= t1 → t1 <= published s →
  consumer_peek (consumer s) (mkLoads (mem_head s) (u64 t0) (u64 t1)) max = (r', outcome) →
  let seen' := observe (seen_tail s) t0 t1 (cached_tail (consumer_ r')) in
  seen' <= published s ∧ consumer_at cap r' (released s) seen' (peeked (consumer_ r')) ∧
  outcome ≠ Err EPROTO ∧
  (∀ b, outcome = Ok b → batch_slots b = peeked_slots r' ∧ 0 < count b <= max ∧
     count b = peeked (consumer_ r')).
Proof.
  intros Hcap Hi Hmax Hh Hh1 Heq seen'. pose proof (si_consumer _ _ Hi) as Hp.
  pose proof (si_producer _ _ Hi) as [_ _ _ Hpb _]. pose proof (si_order _ _ Hi) as Ho.
  pose proof (ca_bounds _ _ _ _ _ Hp) as Hb. rewrite (si_head _ _ Hi) in Heq.
  unfold seen'. clear seen'. pose proof Hcap as Hcap'. unfold cap_ok in Hcap'.
  destruct (decide (max = 0 ∨ peeked (consumer_ (consumer s)) ≠ 0)) as [Hrej|Hacc].
  - rewrite peek_rejected in Heq by (try apply Hp; done). simplify_eq.
    rewrite (observe_eq _ _ _ _ (seen_tail s)); [|ulia|ulia|by eapply consumer_cached|by left].
    split_and!; [lia|done|done|done].
  - assert (peeked (consumer_ (consumer s)) = 0) as H0 by lia. rewrite H0 in Hp.
    destruct (peek_spec cap _ _ _ t0 t1 max Hcap Hp Hh ltac:(lia) ltac:(ulia))
      as (seen' & r1 & Hs' & Hch & Hor & _ & Hp' & _ & _ & Heq').
    rewrite Heq' in Heq. injection Heq as <- <-.
    rewrite (observe_eq _ _ _ _ seen'); [|ulia|ulia|done|done].
    pose proof (ca_peeked _ _ _ _ _ Hp') as Hres. rewrite Hres.
    split_and!; [lia|done|by destruct (_ =? 0)|]. intros b Hb'.
    destruct (_ =? 0) eqn:E; simplify_eq. bool_hyps. pose proof (ca_bounds _ _ _ _ _ Hp') as Hb2.
    split; [|simpl; ulia]. unfold peeked_slots. rewrite Hres.
    destruct Hp' as [_ -> _ _ Hini]. destruct (consumer_initialized _); [|lia].
    by destruct Hini as (_ & _ & ->).
Qed.

(** Publishing and releasing are refused, or move the position. *)
Lemma publish_cases cap s n r' store status :
  cap_ok cap → spsc_inv cap s → is_u32 n → producer_publish (producer s) n = (r', store, status) →
  (r' = producer s ∧ store = None ∧ status = EINVAL) ∨
  (status = 0 ∧ 0 <= n <= reserved (producer_ (producer s)) ∧
   store = (if n =? 0 then None else Some (u64 (published s + n))) ∧
   producer_at cap r' (published s + n) (seen_head s) 0).
Proof.
  intros Hcap Hi Hn Heq. pose proof (si_producer _ _ Hi) as Hp. pose proof (pa_bounds _ _ _ _ _ Hp) as Hpb.
  destruct (decide (reserved (producer_ (producer s)) = 0 ∨ reserved (producer_ (producer s)) < n)) as [Hrej|Hacc].
  { rewrite publish_rejected in Heq by (try apply Hp; done). simplify_eq. by left. }
  destruct (publish_spec cap _ _ _ _ n Hcap Hp ltac:(lia) ltac:(ulia)) as (r1 & Heq1 & Hp1 & _ & _).
  rewrite Heq1 in Heq. injection Heq as <- <- <-. right. split_and!; done || ulia.
Qed.

Lemma release_cases cap s n r' store status :
  cap_ok cap → spsc_inv cap s → is_u32 n → consumer_release (consumer s) n = (r', store, status) →
  (r' = consumer s ∧ store = None ∧ status = EINVAL) ∨
  (status = 0 ∧ 0 <= n <= peeked (consumer_ (consumer s)) ∧
   store = (if n =? 0 then None else Some (u64 (released s + n))) ∧
   consumer_at cap r' (released s + n) (seen_tail s) 0).
Proof.
  intros Hcap Hi Hn Heq. pose proof (si_consumer _ _ Hi) as Hc. pose proof (ca_bounds _ _ _ _ _ Hc) as Hcb.
  destruct (decide (peeked (consumer_ (consumer s)) = 0 ∨ peeked (consumer_ (consumer s)) < n)) as [Hrej|Hacc].
  { rewrite release_rejected in Heq by (try apply Hc; done). simplify_eq. by left. }
  destruct (consumer_release_spec cap _ _ _ _ n Hcap Hc ltac:(lia) ltac:(ulia)) as (r1 & Heq1 & Hc1 & _ & _).
  rewrite Heq1 in Heq. injection Heq as <- <- <-. right. split_and!; done || ulia.
Qed.

Lemma step_preserves cap s e s' :
  cap_ok cap → spsc_inv cap s → step s e s' → spsc_inv cap s'.
Proof.
  intros Hcap Hi Hstep. pose proof (si_producer _ _ Hi) as Hp. pose proof (si_consumer _ _ Hi) as Hc.
  pose proof (si_order _ _ Hi) as Ho. pose proof (pa_bounds _ _ _ _ _ Hp) as Hpb.
  pose proof (ca_bounds _ _ _ _ _ Hc) as Hcb.
  destruct Hstep as [s max h0 h1 r' outcome Hmax Hh Hh1 Heq|s j v Hj|s n r' store status Hn Heq
                    |s max t0 t1 r' outcome Hmax Ht Ht1 Heq|s n r' store status Hn Heq].
  - destruct (reserve_preserves _ _ _ _ _ _ _ Hcap Hi Hmax Hh Hh1 Heq) as (? & ? & _).
    destruct Hi. constructor; simpl; try done. lia.
  - destruct (reserved_slot_free _ _ _ Hcap Hi Hj) as [Hr Hne].
    destruct Hi as [? ? ? ? ? ? Hlen Hsl]. constructor; simpl; try done.
    + by rewrite length_insert.
    + intros k Hk. rewrite <- Hsl by done. unfold slot_get. apply list_lookup_insert_ne.
      specialize (Hne k Hk). unfold cap_ok in Hcap. pose proof (Z.mod_pos_bound k cap ltac:(lia)). lia.
  - destruct (publish_cases _ _ _ _ _ _ Hcap Hi Hn Heq) as [(-> & -> & ->)|(-> & Hle & -> & Hp1)]; simpl.
    { rewrite app_nil_r, Z.add_0_r. by destruct Hi. }
    destruct (reserved_values_spec cap s n Hcap Hi ltac:(lia)) as [Hlen Hval].
    pose proof (pa_reserved _ _ _ _ _ Hp1) as Hr1. destruct Hi as [? ? ? Htail ? Hlog Hl Hsl].
    constructor; simpl; try done.
    + by rewrite Hr1.
    + lia.
    + destruct (n =? 0) eqn:E; bool_hyps; simpl; [subst; by rewrite Z.add_0_r|done].
    + rewrite length_app. lia.
    + intros k Hk. destruct (decide (k < published s)).
      * rewrite lookup_app_l by lia. apply Hsl. lia.
      * rewrite lookup_app_r by lia. rewrite Hval by lia. f_equal. lia.
  - destruct (peek_preserves _ _ _ _ _ _ _ Hcap Hi Hmax Ht Ht1 Heq) as (? & ? & _).
    destruct Hi. constructor; simpl; try done. lia.
  - destruct (release_cases _ _ _ _ _ _ Hcap Hi Hn Heq) as [(-> & -> & ->)|(-> & Hle & -> & Hc1)]; simpl.
    { rewrite Z.add_0_r. by destruct Hi. }
    pose proof (ca_peeked _ _ _ _ _ Hc1) as Hr1. destruct Hi as [? ? ? ? Hhead Hlog Hl Hsl].
    constructor; simpl; try done.
    + by rewrite Hr1.
    + lia.
    + destruct (n =? 0) eqn:E; bool_hyps; simpl; [subst; by rewrite Z.add_0_r|done].
    + intros k Hk. apply Hsl. lia.
Qed.

Lemma initial_inv cap rp rc slots :
  cap_ok cap → fresh_ring cap rp → fresh_ring cap rc → Z.of_nat (length slots) = cap →
  spsc_inv cap (initial rp rc slots).
Proof.
  intros Hcap (Hv1 & Hc1 & Hp1 & _) (Hv2 & Hc2 & _ & Hq2) Hl. unfold cap_ok in Hcap.
  constructor; simpl; try done; try lia.
  - constructor; rewrite ?Hp1; simpl; try done. lia.
  - constructor; rewrite ?Hq2; simpl; try done. lia.
Qed.

(** The values published and not yet released, oldest first. *)
Definition pending (s : system) : list A := drop (Z.to_nat (released s)) (log s).

Lemma reachable_inv cap s : cap_ok cap → reachable cap s → spsc_inv cap s.
Proof.
  intros Hcap. induction 1 as [rp rc slots|s e s' _ IH Hs]; [by apply initial_inv|].
  by eapply step_preserves.
Qed.

Lemma pending_length cap s :
  spsc_inv cap s → Z.of_nat (length (pending s)) = published s - released s ∧
  0 <= released s <= published s ∧ published s - released s <= cap.
Proof.
  intros Hi. destruct (si_producer _ _ Hi) as [_ _ _ Hpb _].
  destruct (si_consumer _ _ Hi) as [_ _ _ Hcb _]. pose proof (si_order _ _ Hi).
  pose proof (si_log _ _ Hi). unfold pending. rewrite length_drop. lia.
Qed.

(** Reading the slots at the next [n] unread positions gives the oldest [n]
    pending values. *)
Lemma read_pending cap s n :
  cap_ok cap → spsc_inv cap s → 0 <= n <= published s - released s →
  slot_get (mem_slots s) <$> ((λ k, k `mod` cap) <$> seqZ (released s) n) =
  Some <$> take (Z.to_nat n) (pending s).
Proof.
  intros Hcap Hi Hn. destruct (pending_length cap s Hi) as (Hl & Hr & _).
  apply list_eq. intros i. rewrite !list_lookup_fmap.
  destruct (decide (Z.of_nat i < n)) as [Hlt|Hge].
  - rewrite lookup_seqZ_lt by done. simpl. rewrite (si_slots _ _ Hi) by lia.
    rewrite lookup_take_lt by lia. unfold pending. rewrite lookup_drop.
    replace (Z.to_nat (released s) + i)%nat with (Z.to_nat (released s + Z.of_nat i)) by lia.
    destruct (log s !! _) eqn:E; [done|]. apply lookup_ge_None in E.
    pose proof (si_log _ _ Hi). lia.
  - rewrite lookup_seqZ_ge by lia. simpl. rewrite lookup_take_ge by lia. done.
Qed.

(** * The abstract queue *)

(** A bounded first-in first-out queue: what each event may do to its contents
    and what it may report. *)
Inductive queue_step (cap : Z) : list A → event → list A → Prop :=
| qs_reserve q max b :
    0 < count b <= max → Z.of_nat (length q) + count b <= cap →
    queue_step cap q (EReserve max (Ok b)) q
| qs_reserve_fail q max e : e = EAGAIN ∨ e = EINVAL → queue_step cap q (EReserve max (Err e)) q
| qs_write q j v : queue_step cap q (EWrite j v) q
| qs_publish q n vs :
    Z.of_nat (length vs) = n → Z.of_nat (length (q ++ vs)) <= cap →
    queue_step cap q (EPublish n 0) (q ++ vs)
| qs_publish_fail q n : queue_step cap q (EPublish n EINVAL) q
| qs_peek q max b :
    0 < count b <= max → count b <= Z.of_nat (length q) →
    queue_step cap q (EPeek max (Ok b)) q
| qs_peek_fail q max e : e = EAGAIN ∨ e = EINVAL → queue_step cap q (EPeek max (Err e)) q
| qs_release q n :
    0 <= n <= Z.of_nat (length q) →
    queue_step cap q (ERelease n 0) (drop (Z.to_nat n) q)
| qs_release_fail q n : queue_step cap q (ERelease n EINVAL) q.

Lemma reserve_outcome cap s max h0 h1 r' outcome :
  cap_ok cap → spsc_inv cap s → is_u32 max → seen_head s <= h0 <= h1 → h1 <= released s →
  producer_reserve (producer s) (mkLoads (mem_tail s) (u64 h0) (u64 h1)) max = (r', outcome) →
  (∃ b, outcome = Ok b ∧ 0 < count b <= max ∧ published s + count b <= released s + cap) ∨
  outcome = Err EAGAIN ∨ outcome = Err EINVAL.
Proof.
  intros Hcap Hi Hmax Hh Hh1 Heq. pose proof (si_producer _ _ Hi) as Hp. pose proof Hcap as Hc.
  unfold cap_ok in Hc. pose proof (si_order _ _ Hi) as Ho.
  pose proof (si_consumer _ _ Hi) as [_ _ _ Hcb _].
  destruct (decide (max = 0 ∨ reserved (producer_ (producer s)) ≠ 0)) as [Hrej|Hacc].
  { rewrite reserve_rejected in Heq by (try apply Hp; done). simplify_eq. by right; right. }
  assert (reserved (producer_ (producer s)) = 0) as H0 by lia. rewrite H0 in Hp.
  rewrite (si_tail _ _ Hi) in Heq.
  destruct (reserve_spec cap _ _ _ h0 h1 max Hcap Hp Hh ltac:(lia) ltac:(ulia))
    as (seen' & r1 & Hs' & _ & _ & _ & Hp' & _ & _ & Heq').
  rewrite Heq' in Heq. injection Heq as <- <-. pose proof (pa_bounds _ _ _ _ _ Hp').
  destruct (_ =? 0) eqn:E; bool_hyps; [by right; left|left].
  eexists. split; [done|]. simpl. ulia.
Qed.

Lemma peek_error cap s max t0 t1 r' e :
  cap_ok cap → spsc_inv cap s → is_u32 max → seen_tail s <= t0 <= t1 → t1 <= published s →
  consumer_peek (consumer s) (mkLoads (mem_head s) (u64 t0) (u64 t1)) max = (r', Err e) →
  e = EAGAIN ∨ e = EINVAL.
Proof.
  intros Hcap Hi Hmax Ht Ht1 Heq. pose proof (si_consumer _ _ Hi) as Hc.
  destruct (decide (max = 0 ∨ peeked (consumer_ (consumer s)) ≠ 0)) as [Hrej|Hacc].
  { rewrite peek_rejected in Heq by (try apply Hc; done). simplify_eq. by right. }
  assert (peeked (consumer_ (consumer s)) = 0) as H0 by lia. rewrite H0 in Hc.
  rewrite (si_head _ _ Hi) in Heq. pose proof (si_producer _ _ Hi) as [_ _ _ Hpb _].
  pose proof (si_order _ _ Hi).
  destruct (peek_spec cap _ _ _ t0 t1 max Hcap Hc Ht ltac:(lia) ltac:(ulia))
    as (seen' & r1 & _ & _ & _ & _ & _ & _ & _ & Heq').
  rewrite Heq' in Heq. simplify_eq. destruct (_ =? 0); [|done]. simplify_eq. by left.
Qed.

Lemma step_refines cap s e s' :
  cap_ok cap → spsc_inv cap s → step s e s' → queue_step cap (pending s) e (pending s').
Proof.
  intros Hcap Hi Hstep. pose proof (step_preserves _ _ _ _ Hcap Hi Hstep) as Hi'.
  pose proof (pending_length _ _ Hi) as (Hl & Hrange & Hle).
  pose proof (pending_length _ _ Hi') as (Hl' & _ & Hle').
  pose proof (si_producer _ _ Hi) as Hp. pose proof (si_consumer _ _ Hi) as Hc.
  pose proof (pa_bounds _ _ _ _ _ Hp) as Hpb. pose proof (ca_bounds _ _ _ _ _ Hc) as Hcb.
  pose proof (si_log _ _ Hi) as Hlog.
  destruct Hstep as [s max h0 h1 r' outcome Hmax Hh Hh1 Heq|s j v Hj|s n r' store status Hn Heq
                    |s max t0 t1 r' outcome Hmax Ht Ht1 Heq|s n r' store status Hn Heq].
  - match goal with |- queue_step _ ?q _ ?q' => change q' with q end.
    destruct (reserve_outcome _ _ _ _ _ _ _ Hcap Hi Hmax Hh Hh1 Heq) as [(b & -> & ? & ?)|[->| ->]];
      constructor; auto; lia.
  - match goal with |- queue_step _ ?q _ ?q' => change q' with q end. constructor.
  - destruct (publish_cases _ _ _ _ _ _ Hcap Hi Hn Heq) as [(-> & -> & ->)|(-> & Hn' & -> & _)].
    { match goal with |- queue_step _ ?q _ ?q' =>
        assert (q' = q) as -> by (unfold pending; simpl; by rewrite app_nil_r) end. constructor. }
    destruct (reserved_values_spec cap s n Hcap Hi ltac:(lia)) as [Hlen _].
    match goal with |- queue_step _ ?q _ ?q' => assert (q' = q ++ reserved_values s n) as Hq end.
    { unfold pending. simpl. rewrite drop_app_le by lia. done. }
    rewrite Hq in *. constructor; [done|]. simpl in *. lia.
  - match goal with |- queue_step _ ?q _ ?q' => change q' with q end.
    destruct (peek_preserves _ _ _ _ _ _ _ Hcap Hi Hmax Ht Ht1 Heq) as (Hs' & Hca & Hne & Hok).
    pose proof (ca_bounds _ _ _ _ _ Hca) as Hcb'. destruct outcome as [b|e].
    + destruct (Hok b eq_refl) as (_ & ? & ?). constructor; lia.
    + constructor. exact (peek_error cap s max t0 t1 r' e Hcap Hi Hmax Ht Ht1 Heq).
  - destruct (release_cases _ _ _ _ _ _ Hcap Hi Hn Heq) as [(-> & -> & ->)|(-> & Hn' & -> & _)].
    { match goal with |- queue_step _ ?q _ ?q' =>
        assert (q' = q) as -> by (unfold pending; simpl; by rewrite Z.add_0_r) end. constructor. }
    pose proof (si_order _ _ Hi).
    match goal with |- queue_step _ ?q _ ?q' => assert (q' = drop (Z.to_nat n) q) as -> end.
    { unfold pending. simpl. rewrite drop_drop. f_equal. lia. }
    constructor. lia.
Qed.

(** * Properties *)

(** In every interleaving of one producer and one consumer, for positions
    that may wrap around 64 bits any number of times, the ring invariant holds:
    the cached positions are wrapped true positions, the indices are the
    positions modulo the capacity, reservations fit the free space, and every
    unread slot still holds the value published there. *)
Theorem spsc_invariant cap s : cap_ok cap → reachable cap s → spsc_inv cap s.
Proof. apply reachable_inv. Qed.

(** (C1) The shared ring refines a bounded first-in first-out queue: every step
    of the two processes is a step of the queue, none reports a protocol error,
    and what a peek returns are the oldest values published and not released, in
    order. *)
Theorem spsc_refines_fifo cap s e s' :
  cap_ok cap → reachable cap s → step s e s' →
  queue_step cap (pending s) e (pending s') ∧
  (∀ max b, e = EPeek max (Ok b) →
     slot_get (mem_slots s') <$> batch_slots b = Some <$> take (Z.to_nat (count b)) (pending s)).
Proof.
  intros Hcap Hr Hstep. pose proof (reachable_inv _ _ Hcap Hr) as Hi.
  split; [by apply step_refines|]. intros max b ->.
  pose proof (step_preserves _ _ _ _ Hcap Hi Hstep) as Hi'.
  inversion Hstep as [| | |? ? t0 t1 r' ? Hmax Ht Ht1 Heq|]; subst.
  destruct (peek_preserves _ _ _ _ _ _ _ Hcap Hi Hmax Ht Ht1 Heq) as (Hs' & Hca & _ & Hok).
  destruct (Hok b eq_refl) as (Hb & _ & Hc). rewrite Hb, Hc.
  pose proof (peeked_slots_mod cap _ Hcap Hi') as Hps. simpl in Hps |- *. rewrite Hps.
  pose proof (ca_bounds _ _ _ _ _ Hca).
  by rewrite (read_pending cap s) by (done || lia).
Qed.

(** Mutual exclusion on slots: a slot the producer may write is inside the
    ring, is not one the consumer is reading, and holds no unread value. *)
Theorem spsc_exclusion cap s j :
  cap_ok cap → reachable cap s → j ∈ reserved_slots (producer s) →
  0 <= j < cap ∧ j ∉ peeked_slots (consumer s) ∧
  ∀ k, released s <= k < published s → j ≠ k `mod` cap.
Proof.
  intros Hcap Hr Hj. pose proof (reachable_inv _ _ Hcap Hr) as Hi.
  destruct (reserved_slot_free _ _ _ Hcap Hi Hj) as [Hb Hne]. split_and!; [lia|lia| |done].
  rewrite (peeked_slots_mod cap) by done. intros (k & -> & Hk%elem_of_seqZ)%list_elem_of_fmap.
  apply (Hne k); [|done]. pose proof (ca_bounds _ _ _ _ _ (si_consumer _ _ Hi)).
  pose proof (si_order _ _ Hi). lia.
Qed.

(** No spurious failure: when the loads see the current position, an idle
    producer is refused only if the ring is full, and is otherwise granted what it
    asked for or all the free space. *)
Theorem reserve_progress cap s max r' outcome :
  cap_ok cap → reachable cap s → 0 < max <= U32_MAX → reserved (producer_ (producer s)) = 0 →
  producer_reserve (producer s) (mkLoads (mem_tail s) (mem_head s) (mem_head s)) max = (r', outcome) →
  (outcome = Err EAGAIN ∧ Z.of_nat (length (pending s)) = cap) ∨
  ∃ b, outcome = Ok b ∧
    (count b = max ∨ count b < max ∧ count b = cap - Z.of_nat (length (pending s))).
Proof.
  intros Hcap Hr Hmax H0 Heq. pose proof (reachable_inv _ _ Hcap Hr) as Hi.
  pose proof (pending_length _ _ Hi) as (Hl & Hrange & Hle). rewrite Hl.
  pose proof (si_producer _ _ Hi) as Hp. rewrite H0 in Hp. pose proof (si_order _ _ Hi).
  rewrite (si_tail _ _ Hi), (si_head _ _ Hi) in Heq.
  destruct (reserve_spec cap _ _ _ (released s) (released s) max Hcap Hp ltac:(lia) ltac:(lia) Hmax)
    as (seen' & r1 & Hs' & _ & _ & Hfresh & Hp' & _ & _ & Heq').
  rewrite Heq' in Heq. injection Heq as _ <-. pose proof (pa_bounds _ _ _ _ _ Hp').
  destruct (_ =? 0) eqn:E; bool_hyps; [left; split; [done|lia]|right].
  eexists. split; [done|]. simpl. lia.
Qed.

End System.
Arguments system A : clear implicits.
Arguments event A : clear implicits.

(** ** The slots of consecutive positions *)

Lemma mod_positions_nodup cap pos n :
  0 < cap → n <= cap → NoDup ((λ k, k `mod` cap) <$> seqZ pos n).
Proof.
  intros Hc Hn. apply NoDup_fmap_2_strong; [|apply NoDup_seqZ].
  intros x y Hx%elem_of_seqZ Hy%elem_of_seqZ E.
  destruct (decide (x < y)); [by destruct (mod_neq cap x y); lia|].
  destruct (decide (y < x)); [by destruct (mod_neq cap y x); lia|lia].
Qed.

Lemma positions_in_range cap pos n {A} (slots : list A) :
  0 < cap → Z.of_nat (length slots) = cap →
  Forall (λ j, 0 <= j < Z.of_nat (length slots)) ((λ k, k `mod` cap) <$> seqZ pos n).
Proof.
  intros Hc Hl. apply Forall_forall. intros j (q & -> & _)%list_elem_of_fmap. rewrite Hl.
  by apply Z.mod_pos_bound.
Qed.

(** A slot among the first [k] of a batch is the slot of one of its positions. *)
Lemma position_inv cap pos n k j :
  j ∈ take k ((λ q, q `mod` cap) <$> seqZ pos n) → ∃ q, pos <= q < pos + n ∧ j = q `mod` cap.
Proof.
  intros (i & Hl & _)%elem_of_take. apply list_elem_of_lookup_2 in Hl.
  apply list_elem_of_fmap in Hl as (q & -> & Hq%elem_of_seqZ). by exists q.
Qed.

(** ** Witnesses *)

Definition demo_ring : SharedRing :=
  mkRing true 4096 3 (mkDescriptor completion 4 64) no_producer no_consumer.
Definition demo_start : system Z := initial demo_ring demo_ring [0; 0; 0; 0].

(** The producer reserves two slots, writes one and publishes it. *)
Definition demo_reserved : system Z :=
  mkSystem (producer_reserve demo_ring (mkLoads 0 0 0) 2).1 demo_ring 0 0 [0; 0; 0; 0] 0 0 0 0 [].
Definition demo_published : system Z :=
  mkSystem (producer_publish (producer demo_reserved) 1).1.1 demo_ring 1 0 [7; 0; 0; 0] 1 0 0 0 [7].

Lemma demo_start_reachable : reachable 4 demo_start.
Proof. by apply reach_init. Qed.

Lemma demo_reserved_reachable : reachable 4 demo_reserved.
Proof.
  eapply reach_step; [apply demo_start_reachable|].
  refine (step_reserve demo_start 2 0 0 _ _ _ _ _ eq_refl); by vm_compute.
Qed.

Lemma demo_published_reachable : reachable 4 demo_published.
Proof.
  eapply reach_step; [eapply reach_step; [apply demo_reserved_reachable|]|].
  - refine (step_write demo_reserved 0 7 _). vm_compute. left.
  - refine (step_publish _ 1 _ (Some 1) 0 _ _); by vm_compute.
Qed.

Lemma spsc_invariant_witness : spsc_inv 4 demo_published.
Proof. apply spsc_invariant; [by vm_compute|apply demo_published_reachable]. Defined.

Lemma spsc_refines_fifo_witness :
  pending demo_published = [7] ∧
  slot_get [7; 0; 0; 0] <$> batch_slots (batch_at 4 0 1) = Some <$> take 1 [7].
Proof.
  split; [by vm_compute|].
  assert (step demo_published (EPeek 3 (Ok (batch_at 4 0 1)))
    (mkSystem (producer demo_published) (consumer_peek demo_ring (mkLoads 0 1 1) 3).1 1 0 [7; 0; 0; 0]
       1 0 0 1 [7])) as Hs.
  { refine (step_peek demo_published 3 1 1 _ _ _ _ _ eq_refl); by vm_compute. }
  exact (proj2 (spsc_refines_fifo 4 demo_published _ _ ltac:(by vm_compute)
                  demo_published_reachable Hs) 3 (batch_at 4 0 1) eq_refl).
Defined.

Lemma spsc_exclusion_witness : 1 ∉ peeked_slots (consumer demo_reserved).
Proof.
  apply (spsc_exclusion 4 demo_reserved 1); [by vm_compute|apply demo_reserved_reachable|].
  vm_compute. right. left.
Defined.

Lemma reserve_progress_witness :
  ∃ b, (producer_reserve (producer demo_published) (mkLoads 1 0 0) 9).2 = Ok b ∧
    (count b = 9 ∨ count b < 9 ∧ count b = 3).
Proof.
  destruct (reserve_progress 4 demo_published 9
      (producer_reserve (producer demo_published) (mkLoads 1 0 0) 9).1
      (producer_reserve (producer demo_published) (mkLoads 1 0 0) 9).2) as [[H _]|H];
    [by vm_compute|apply demo_published_reachable|by vm_compute|by vm_compute|by vm_compute| |exact H].
  by vm_compute in H.
Defined.

End Spsc.
