(* ===== verification/Descriptors.v ===== *)
(** The entries of the shared queues (src/queue/descriptors.hpp): send and receive
    work requests with their scatter/gather lists, completions, and the slot
    strides derived from them.

    A slot is a list of bytes.  [store] is an assignment to an object of the slot,
    [load] a read of a scalar member; the structs have no padding. *)

From S2P Require Import Prelude.

Module Descriptors.

Record SharedSge := mkSge { sge_address : Z; sge_length : Z; sge_lkey : Z }.

Record SendWqeHeader := mkSendHeader {
  send_wr_id : Z; remote_address : Z; rkey : Z; send_opcode : Z; send_flags : Z;
  immediate_data : Z; send_sge_count : Z; send_reserved : Z;
}.

Record ReceiveWqeHeader := mkReceiveHeader {
  receive_wr_id : Z; receive_sge_count : Z; receive_reserved : Z;
}.

Record CompletionEntry := mkCompletion {
  cqe_wr_id : Z; cqe_status : Z; cqe_opcode : Z; cqe_byte_length : Z;
  cqe_immediate_data : Z; cqe_qp_num : Z; cqe_flags : Z;
}.

#[export] Instance SharedSge_eq_dec : EqDecision SharedSge.
Proof. solve_decision. Defined.
#[export] Instance SendWqeHeader_eq_dec : EqDecision SendWqeHeader.
Proof. solve_decision. Defined.
#[export] Instance ReceiveWqeHeader_eq_dec : EqDecision ReceiveWqeHeader.
Proof. solve_decision. Defined.
#[export] Instance CompletionEntry_eq_dec : EqDecision CompletionEntry.
Proof. solve_decision. Defined.

(** [sizeof] of the structs. *)
Definition sge_size : Z := 16.
Definition send_header_size : Z := 40.
Definition receive_header_size : Z := 16.
Definition completion_size : Z := 32.

Definition kSlotAlignment : Z := 64.

(** [~(kSlotAlignment - 1U)] has the 32-bit unsigned type of [kSlotAlignment]. *)
Definition alignment_mask : Z := U32_MAX - (kSlotAlignment - 1).

Definition aligned_slot_stride (header_size max_sge : Z) : result Z :=
  if (U64_MAX - header_size) / sge_size <? max_sge then Err EOVERFLOW
  else
    let raw := u64 (header_size + u64 (max_sge * sge_size)) in
    if U64_MAX - (kSlotAlignment - 1) <? raw then Err EOVERFLOW
    else
      let aligned := Z.land (u64 (raw + kSlotAlignment - 1)) alignment_mask in
      if U32_MAX <? aligned then Err EOVERFLOW else Ok (u32 aligned).

Definition send_slot_stride (max_sge : Z) : result Z :=
  aligned_slot_stride send_header_size max_sge.
Definition receive_slot_stride (max_sge : Z) : result Z :=
  aligned_slot_stride receive_header_size max_sge.
Definition completion_slot_stride : Z := kSlotAlignment.

(** * Layout *)

Definition sge_bytes (s : SharedSge) : list byte :=
  le_split 8 (sge_address s) ++ le_split 4 (sge_length s) ++ le_split 4 (sge_lkey s).

Definition send_header_bytes (h : SendWqeHeader) : list byte :=
  le_split 8 (send_wr_id h) ++ le_split 8 (remote_address h) ++ le_split 4 (rkey h) ++
  le_split 4 (send_opcode h) ++ le_split 4 (send_flags h) ++ le_split 4 (immediate_data h) ++
  le_split 4 (send_sge_count h) ++ le_split 4 (send_reserved h).

Definition receive_header_bytes (h : ReceiveWqeHeader) : list byte :=
  le_split 8 (receive_wr_id h) ++ le_split 4 (receive_sge_count h) ++
  le_split 4 (receive_reserved h).

Definition completion_bytes (e : CompletionEntry) : list byte :=
  le_split 8 (cqe_wr_id e) ++ le_split 4 (cqe_status e) ++ le_split 4 (cqe_opcode e) ++
  le_split 4 (cqe_byte_length e) ++ le_split 4 (cqe_immediate_data e) ++
  le_split 4 (cqe_qp_num e) ++ le_split 4 (cqe_flags e).

(** Writing an object at the start of a slot keeps the bytes after it. *)
Definition store (slot object : list byte) : list byte := object ++ drop (length object) slot.

Definition load (slot : list byte) (offset w : nat) : Z := le_combine (take w (drop offset slot)).

Definition load_sge (slot : list byte) (offset : nat) : SharedSge :=
  mkSge (load slot offset 8) (load slot (offset + 8) 4) (load slot (offset + 12) 4).

Definition load_sges (slot : list byte) (offset : nat) (count : nat) : list SharedSge :=
  (λ i, load_sge slot (offset + 16 * i)) <$> seq 0 count.

Definition load_send_header (slot : list byte) : SendWqeHeader :=
  mkSendHeader (load slot 0 8) (load slot 8 8) (load slot 16 4) (load slot 20 4) (load slot 24 4)
    (load slot 28 4) (load slot 32 4) (load slot 36 4).

Definition load_receive_header (slot : list byte) : ReceiveWqeHeader :=
  mkReceiveHeader (load slot 0 8) (load slot 8 4) (load slot 12 4).

Definition load_completion (slot : list byte) : CompletionEntry :=
  mkCompletion (load slot 0 8) (load slot 8 4) (load slot 12 4) (load slot 16 4) (load slot 20 4)
    (load slot 24 4) (load slot 28 4).

(** * Widths *)

Definition sge_ok (s : SharedSge) : Prop :=
  is_u64 (sge_address s) ∧ is_u32 (sge_length s) ∧ is_u32 (sge_lkey s).
Definition send_header_ok (h : SendWqeHeader) : Prop :=
  is_u64 (send_wr_id h) ∧ is_u64 (remote_address h) ∧ is_u32 (rkey h) ∧ is_u32 (send_opcode h) ∧
  is_u32 (send_flags h) ∧ is_u32 (immediate_data h) ∧ is_u32 (send_sge_count h) ∧
  is_u32 (send_reserved h).
Definition receive_header_ok (h : ReceiveWqeHeader) : Prop :=
  is_u64 (receive_wr_id h) ∧ is_u32 (receive_sge_count h) ∧ is_u32 (receive_reserved h).
Definition completion_ok (e : CompletionEntry) : Prop :=
  is_u64 (cqe_wr_id e) ∧ is_u32 (cqe_status e) ∧ is_u32 (cqe_opcode e) ∧
  is_u32 (cqe_byte_length e) ∧ is_u32 (cqe_immediate_data e) ∧ is_u32 (cqe_qp_num e) ∧
  is_u32 (cqe_flags e).

(** * Lemmas on layout *)

Lemma length_store slot object :
  (length object <= length slot)%nat → length (store slot object) = length slot.
Proof. intros. unfold store. rewrite length_app, length_drop. lia. Qed.

(** Reading the scalar at the front of the bytes left. *)
Lemma load_here slot offset w x rest :
  drop offset slot = le_split w x ++ rest → 0 <= x < 2 ^ (Z.of_nat w * 8) →
  load slot offset w = x ∧ drop (offset + w) slot = rest.
Proof.
  intros Hd Hx. unfold load. rewrite Hd, take_app_eq by apply length_le_split. split.
  - by rewrite le_combine_split, Z.mod_small.
  - rewrite <- drop_drop, Hd. apply drop_app_eq, length_le_split.
Qed.

Ltac load_next H :=
  let E := fresh in
  apply load_here in H as [E H]; [cbn [Nat.add] in H; try rewrite E; clear E|done].

Lemma length_sge_bytes s : length (sge_bytes s) = 16%nat.
Proof. unfold sge_bytes. by rewrite !length_app, !length_le_split. Qed.
Lemma length_send_header h : length (send_header_bytes h) = 40%nat.
Proof. unfold send_header_bytes. by rewrite !length_app, !length_le_split. Qed.
Lemma length_receive_header h : length (receive_header_bytes h) = 16%nat.
Proof. unfold receive_header_bytes. by rewrite !length_app, !length_le_split. Qed.
Lemma length_completion e : length (completion_bytes e) = 32%nat.
Proof. unfold completion_bytes. by rewrite !length_app, !length_le_split. Qed.

Lemma load_send_header_bytes h rest :
  send_header_ok h → load_send_header (send_header_bytes h ++ rest) = h.
Proof.
  intros (?&?&?&?&?&?&?&?). set (slot := send_header_bytes h ++ rest).
  assert (drop 0 slot = slot) as H' by done. unfold slot at 2, send_header_bytes in H'.
  rewrite <- !app_assoc in H'. clearbody slot. unfold load_send_header.
  do 8 load_next H'. by destruct h.
Qed.

Lemma load_receive_header_bytes h rest :
  receive_header_ok h → load_receive_header (receive_header_bytes h ++ rest) = h.
Proof.
  intros (?&?&?). set (slot := receive_header_bytes h ++ rest).
  assert (drop 0 slot = slot) as H' by done. unfold slot at 2, receive_header_bytes in H'.
  rewrite <- !app_assoc in H'. clearbody slot. unfold load_receive_header.
  do 3 load_next H'. by destruct h.
Qed.

Lemma load_completion_bytes e rest :
  completion_ok e → load_completion (completion_bytes e ++ rest) = e.
Proof.
  intros (?&?&?&?&?&?&?). set (slot := completion_bytes e ++ rest).
  assert (drop 0 slot = slot) as H' by done. unfold slot at 2, completion_bytes in H'.
  rewrite <- !app_assoc in H'. clearbody slot. unfold load_completion.
  do 7 load_next H'. by destruct e.
Qed.

Lemma load_sge_here slot offset s rest :
  sge_ok s → drop offset slot = sge_bytes s ++ rest →
  load_sge slot offset = s ∧ drop (offset + 16) slot = rest.
Proof.
  intros (?&?&?) H'. unfold sge_bytes in H'. rewrite <- !app_assoc in H'. unfold load_sge.
  apply load_here in H' as [-> H']; [|done]. apply load_here in H' as [-> H']; [|done].
  rewrite <- Nat.add_assoc in H'. change (8 + 4)%nat with 12%nat in H'.
  apply load_here in H' as [-> H']; [|done].
  rewrite <- Nat.add_assoc in H'. by destruct s.
Qed.

Lemma load_sges_bytes sges slot offset rest :
  Forall sge_ok sges → drop offset slot = concat (sge_bytes <$> sges) ++ rest →
  load_sges slot offset (length sges) = sges.
Proof.
  intros Hs. revert offset. induction Hs as [|s sges Hs Hss IH]; intros offset Hd; [done|].
  cbn [fmap list_fmap concat] in Hd. rewrite <- app_assoc in Hd.
  apply load_sge_here in Hd as [He Hd]; [|done]. specialize (IH _ Hd).
  unfold load_sges. cbn [length]. rewrite <- cons_seq. cbn [fmap list_fmap].
  rewrite Nat.mul_0_r, Nat.add_0_r, He. f_equal. rewrite <- IH at 2. unfold load_sges.
  rewrite <- fmap_S_seq, <- list_fmap_compose. apply list_fmap_ext. intros i x _. simpl.
  f_equal. lia.
Qed.

Lemma length_sges sges : length (concat (sge_bytes <$> sges)) = (16 * length sges)%nat.
Proof.
  induction sges as [|s sges IH]; [done|]. cbn [fmap list_fmap concat length].
  rewrite length_app, IH, length_sge_bytes. lia.
Qed.

(** * Strides *)

(** Masking clears the low six bits, and bits 32 and above. *)
Lemma land_mask x : Z.land x alignment_mask = 64 * (u32 x / 64).
Proof.
  change alignment_mask with (Z.ldiff (Z.ones 32) (Z.ones 6)).
  rewrite Z.ldiff_land, Z.land_assoc, <- Z.ldiff_land, Z.land_ones by lia.
  rewrite Z.ldiff_ones_r, Z.shiftl_mul_pow2, Z.shiftr_div_pow2 by lia.
  unfold u32. change (2 ^ 6) with 64. change (2 ^ 32) with 4294967296. lia.
Qed.

Lemma stride_value header max_sge :
  0 <= header <= 64 → is_u32 max_sge →
  aligned_slot_stride header max_sge = Ok (64 * (u32 (header + max_sge * 16 + 63) / 64)).
Proof.
  intros Hh Hm. unfold aligned_slot_stride, sge_size, kSlotAlignment.
  rewrite (proj2 (Z.ltb_ge _ _)) by (apply Z.div_le_lower_bound; ulia).
  rewrite (u64_small (max_sge * 16)), (u64_small (header + _)) by ulia.
  rewrite (proj2 (Z.ltb_ge _ _)) by ulia. rewrite u64_small by ulia. rewrite land_mask.
  replace (header + max_sge * 16 + 64 - 1) with (header + max_sge * 16 + 63) by lia.
  pose proof (u32_range (header + max_sge * 16 + 63)).
  assert (64 * (u32 (header + max_sge * 16 + 63) / 64) <= u32 (header + max_sge * 16 + 63))
    by (apply Z.mul_div_le; lia).
  assert (0 <= u32 (header + max_sge * 16 + 63) / 64) by (apply Z.div_pos; ulia).
  rewrite (proj2 (Z.ltb_ge _ _)) by ulia. rewrite u32_small by ulia. done.
Qed.

(** * Properties *)

(** For every list length up to [(2^32 - 104) / 16] a slot stride is a positive
    multiple of the cache line that holds the header and [max_sge] entries, with
    less than one line to spare; so it is a stride the ring accepts. *)
Theorem slot_stride_sound header max_sge :
  header = send_header_size ∨ header = receive_header_size →
  0 <= max_sge <= 268435449 →
  ∃ stride, aligned_slot_stride header max_sge = Ok stride ∧ is_u32 stride ∧
    stride `mod` 64 = 0 ∧ 0 < stride ∧
    header + max_sge * sge_size <= stride < header + max_sge * sge_size + kSlotAlignment.
Proof.
  intros Hh Hm. unfold send_header_size, receive_header_size, sge_size, kSlotAlignment in *.
  rewrite stride_value by ulia. rewrite u32_small by ulia. eexists. split; [done|].
  set (x := header + max_sge * 16 + 63).
  pose proof (Z.div_mod x 64 ltac:(lia)). pose proof (Z.mod_pos_bound x 64 ltac:(lia)).
  split; [ulia|]. split; [rewrite Z.mul_comm; apply Z_mod_mult|]. unfold x in *. lia.
Qed.

(** Above that bound the overflow check never fires: the 32-bit mask clears the
    high half of the 64-bit sum, so the function reports success with a stride too
    small for one entry. *)
Theorem slot_stride_truncated :
  send_slot_stride 268435456 = Ok 64 ∧ send_slot_stride U32_MAX = Ok 64 ∧
  send_header_size + 268435456 * sge_size > U32_MAX.
Proof. by vm_compute. Qed.

Lemma slot_stride_sound_witness :
  ∃ stride, send_slot_stride 4 = Ok stride ∧ 40 + 4 * 16 <= stride.
Proof.
  destruct (slot_stride_sound send_header_size 4) as (s & H & _ & _ & _ & Hb & _);
    [by left|lia|]. exists s. split; [exact H|exact Hb].
Defined.

End Descriptors.
