(* ===== verification/WrPosting.v ===== *)
(** Posting work requests (src/api/wr_posting.cpp): validation, encoding into ring
    slots, and the batch loop over a chain of requests.

    The linked chain [wr -> next] is the list of its requests; [*bad_wr] is the rest
    of the chain from the request that was not posted.  The values that the position
    loads of an iteration observe are an argument, indexed by how many requests the
    call has accepted before it. *)

From S2P Require Import Prelude SharedRing RingSpsc Descriptors.
Import Ring Spsc Descriptors.

Module WrPosting.

(** * The API's work requests (include/ugdr/api.hpp) *)

Definition UGDR_WR_RDMA_WRITE : Z := 0.
Definition UGDR_WR_RDMA_WRITE_WITH_IMM : Z := 1.
Definition UGDR_SEND_SIGNALED : Z := 2.

(** [ugdr_sge]; a null [sg_list] is [None]. *)
Record ugdr_sge := mkApiSge { addr : Z; length_ : Z; lkey : Z }.

Record ugdr_send_wr := mkSendWr {
  wr_id : Z; sg_list : option (list ugdr_sge); num_sge : Z; opcode : Z; wr_send_flags : Z;
  imm_data : Z; remote_addr : Z; wr_rkey : Z;
}.

Record ugdr_recv_wr := mkRecvWr {
  recv_wr_id : Z; recv_sg_list : option (list ugdr_sge); recv_num_sge : Z;
}.

(** * Validation *)

Definition valid_sge_list (num_sge : Z) (sg_list : option (list ugdr_sge)) (max_sge : Z) : bool :=
  (0 <=? num_sge) && (u32 num_sge <=? max_sge) &&
  ((num_sge =? 0) || match sg_list with Some _ => true | None => false end).

(** [wr.send_flags & ~UGDR_SEND_SIGNALED] on 32-bit flags. *)
Definition unknown_flags (flags : Z) : Z := Z.land flags (U32_MAX - UGDR_SEND_SIGNALED).

Definition valid_send_wr (wr : ugdr_send_wr) (max_sge : Z) : bool :=
  ((opcode wr =? UGDR_WR_RDMA_WRITE) || (opcode wr =? UGDR_WR_RDMA_WRITE_WITH_IMM))
  && (unknown_flags (wr_send_flags wr) =? 0) && valid_sge_list (num_sge wr) (sg_list wr) max_sge.

Definition valid_receive_wr (wr : ugdr_recv_wr) (max_sge : Z) : bool :=
  valid_sge_list (recv_num_sge wr) (recv_sg_list wr) max_sge.

(** * Encoding *)

(** [sg_list[0 .. num_sge)] as shared entries. *)
Definition shared_sges (num_sge : Z) (sg_list : option (list ugdr_sge)) : list SharedSge :=
  (λ s, mkSge (addr s) (length_ s) (lkey s)) <$> take (Z.to_nat num_sge) (default [] sg_list).

Definition send_header (wr : ugdr_send_wr) : SendWqeHeader :=
  mkSendHeader (wr_id wr) (remote_addr wr) (wr_rkey wr) (u32 (opcode wr)) (wr_send_flags wr)
    (if opcode wr =? UGDR_WR_RDMA_WRITE_WITH_IMM then imm_data wr else 0) (u32 (num_sge wr)) 0.

Definition encode_send (slot : list byte) (wr : ugdr_send_wr) : list byte :=
  store slot (send_header_bytes (send_header wr) ++
              concat (sge_bytes <$> shared_sges (num_sge wr) (sg_list wr))).

Definition receive_header (wr : ugdr_recv_wr) : ReceiveWqeHeader :=
  mkReceiveHeader (recv_wr_id wr) (u32 (recv_num_sge wr)) 0.

Definition encode_receive (slot : list byte) (wr : ugdr_recv_wr) : list byte :=
  store slot (receive_header_bytes (receive_header wr) ++
              concat (sge_bytes <$> shared_sges (recv_num_sge wr) (recv_sg_list wr))).

(** * The posting loop *)

Section PostChain.
Context {Wr : Type} (validator : Wr → Z → bool) (encoder : list byte → Wr → list byte).

(** [fill_span] on the slots from [start]: the slots, the requests left, the
    updated count, and whether every request met was valid. *)
Fixpoint fill_span (max_sge : Z) (slots : list (list byte)) (start : Z) (n : nat) (current : list Wr)
    (accepted : Z) : list (list byte) * list Wr * Z * bool :=
  match n, current with
  | S n, wr :: next =>
      if negb (validator wr max_sge) then (slots, current, accepted, false)
      else
        let slot := default [] (slot_get slots start) in
        fill_span max_sge (<[Z.to_nat start := encoder slot wr]> slots) (start + 1) n next
          (u32 (accepted + 1))
  | _, _ => (slots, current, accepted, true)
  end.

Definition fill_batch (max_sge : Z) (slots : list (list byte)) (sp : SlotSpan) (current : list Wr)
    (accepted : Z) : list (list byte) * list Wr * Z * bool :=
  match data sp with
  | Some start => fill_span max_sge slots start (Z.to_nat (span_count sp)) current accepted
  | None => (slots, current, accepted, true)
  end.

Record Posted := mkPosted {
  posted_ring : SharedRing;
  posted_slots : list (list byte);
  posted_stores : list Z;   (* the values stored to the shared tail *)
  posted_status : Z;
  bad_wr : option (list Wr);
}.

(** The loop; an iteration accepts at least one request or returns, so fuel of one
    more than the length of the chain is enough. *)
Fixpoint post_loop (fuel : nat) (loads : nat → RingLoads) (max_sge : Z) (ring : SharedRing)
    (slots : list (list byte)) (stores : list Z) (done_ : nat) (current : list Wr) : option Posted :=
  match current, fuel with
  | [], _ => Some (mkPosted ring slots stores 0 None)
  | _, O => None
  | _, S fuel =>
      match producer_reserve ring (loads done_) (capacity (queue_descriptor_ ring)) with
      | (ring, Err reserve_status) =>
          Some (mkPosted ring slots stores
                  (if reserve_status =? EAGAIN then ENOMEM else reserve_status) (Some current))
      | (ring, Ok batch) =>
          let '(slots, current1, accepted, first_valid) := fill_batch max_sge slots (first batch) current 0 in
          let '(slots, current2, accepted, second_valid) :=
            if first_valid then fill_batch max_sge slots (second batch) current1 accepted
            else (slots, current1, accepted, false) in
          let '(ring, stored, publish_status) := producer_publish ring accepted in
          let stores := stores ++ option_list stored in
          if negb (publish_status =? 0)
          then Some (mkPosted ring slots stores publish_status (Some current2))
          else if negb first_valid || negb second_valid
          then Some (mkPosted ring slots stores EINVAL (Some current2))
          else post_loop fuel loads max_sge ring slots stores (done_ + Z.to_nat accepted) current2
      end
  end.

Definition post_chain (loads : nat → RingLoads) (max_sge : Z) (ring : SharedRing)
    (slots : list (list byte)) (chain : list Wr) : option Posted :=
  if decide (chain = []) then Some (mkPosted ring slots [] EINVAL None)
  else if negb (valid ring) then Some (mkPosted ring slots [] EINVAL None)
  else post_loop (S (length chain)) loads max_sge ring slots [] 0 chain.

End PostChain.
Arguments Posted Wr : clear implicits.

Definition post_send_chain (loads : nat → RingLoads) (ring : SharedRing) (slots : list (list byte))
    (max_sge : Z) (chain : list ugdr_send_wr) : option (Posted ugdr_send_wr) :=
  if negb (bool_decide (kind (queue_descriptor_ ring) = send))
  then Some (mkPosted ring slots [] EINVAL None)
  else post_chain valid_send_wr encode_send loads max_sge ring slots chain.

Definition post_receive_chain (loads : nat → RingLoads) (ring : SharedRing)
    (slots : list (list byte)) (max_sge : Z) (chain : list ugdr_recv_wr)
  : option (Posted ugdr_recv_wr) :=
  if negb (bool_decide (kind (queue_descriptor_ ring) = receive))
  then Some (mkPosted ring slots [] EINVAL None)
  else post_chain valid_receive_wr encode_receive loads max_sge ring slots chain.

(** * Lemmas *)

Section PostSpec.
Context {Wr : Type} (validator : Wr → Z → bool) (encoder : list byte → Wr → list byte).
Context (max_sge : Z).

(** Filling a list of slots, whatever spans they come from. *)
Fixpoint fill_list (slots : list (list byte)) (js : list Z) (current : list Wr)
  : list (list byte) * list Wr * nat * bool :=
  match js, current with
  | j :: js, wr :: next =>
      if negb (validator wr max_sge) then (slots, current, O, false)
      else
        let slot := default [] (slot_get slots j) in
        let '(slots, current, k, ok) :=
          fill_list (<[Z.to_nat j := encoder slot wr]> slots) js next in
        (slots, current, S k, ok)
  | _, _ => (slots, current, O, true)
  end.

Lemma fill_span_list n slots start current acc :
  0 <= acc → acc + Z.of_nat n <= U32_MAX →
  fill_span validator encoder max_sge slots start n current acc =
  let '(slots, current, k, ok) := fill_list slots (seqZ start (Z.of_nat n)) current in
  (slots, current, acc + Z.of_nat k, ok).
Proof.
  revert slots start current acc. induction n as [|n IH]; intros slots start current acc H0 Hacc.
  - simpl. rewrite Z.add_0_r. by destruct current.
  - rewrite seqZ_cons by lia. replace (Z.pred (Z.of_nat (S n))) with (Z.of_nat n) by lia.
    replace (Z.succ start) with (start + 1) by lia.
    destruct current as [|wr next]; cbn [fill_span fill_list]; [by rewrite Z.add_0_r|].
    destruct (negb _); [by rewrite Z.add_0_r|]. rewrite u32_small by ulia.
    rewrite IH by lia. destruct (fill_list _ _ _) as [[[??]k]?]. do 2 f_equal. lia.
Qed.

Lemma fill_list_app js js' slots current :
  fill_list slots (js ++ js') current =
  let '(slots1, current1, k, ok) := fill_list slots js current in
  if ok then
    let '(slots2, current2, k2, ok2) := fill_list slots1 js' current1 in
    (slots2, current2, (k + k2)%nat, ok2)
  else (slots1, current1, k, false).
Proof.
  revert slots current. induction js as [|j js IH]; intros slots current; simpl.
  - by destruct (fill_list slots js' current) as [[[??]?]?].
  - destruct current as [|wr next]; [by destruct js'|]. destruct (negb _); [done|].
    rewrite IH. destruct (fill_list _ js next) as [[[??]?][]]; [|done].
    by destruct (fill_list _ js' _) as [[[??]?]?].
Qed.

Lemma fill_list_spec js slots current slots' current' k ok :
  fill_list slots js current = (slots', current', k, ok) →
  (k <= length js)%nat ∧ (k <= length current)%nat ∧ current' = drop k current ∧
  Forall (λ wr, validator wr max_sge = true) (take k current) ∧
  (if ok then k = length js ∨ k = length current
   else (k < length js)%nat ∧ ∃ wr, current !! k = Some wr ∧ validator wr max_sge = false) ∧
  length slots' = length slots.
Proof.
  revert slots current k. induction js as [|j js IH]; intros slots current k; simpl.
  { intros. simplify_eq. split_and!; first [done|lia|by left]. }
  destruct current as [|wr next]; [intros; simplify_eq; split_and!; first [done|lia|by right]|].
  destruct (negb _) eqn:Hv; bool_hyps.
  { intros. simplify_eq. split_and!; first [done|lia|by eexists]. }
  destruct (fill_list _ js next) as [[[s1 c1] k1] ok1] eqn:E. intros. simplify_eq.
  apply IH in E as (? & ? & ? & ? & Hok & Hl). rewrite length_insert in Hl. simpl.
  split_and!; [lia|lia|done|by constructor| |done].
  destruct ok; [lia|]. destruct Hok as [? Hex]. split; [lia|done].
Qed.

(** Slots outside those filled are kept; those filled hold their request. *)
Lemma fill_list_slots js slots current slots' current' k ok :
  fill_list slots js current = (slots', current', k, ok) →
  Forall (λ j, 0 <= j < Z.of_nat (length slots)) js → NoDup js →
  (∀ j, 0 <= j → j ∉ take k js → slot_get slots' j = slot_get slots j) ∧
  (∀ i j wr, (i < k)%nat → js !! i = Some j → current !! i = Some wr →
     ∃ old, slot_get slots' j = Some (encoder old wr)).
Proof.
  revert slots current k. induction js as [|j js IH]; intros slots current k Hf Hr Hnd.
  { simpl in Hf. simplify_eq. split; [done|]. intros ? ? ? ?. lia. }
  simpl in Hf. destruct current as [|wr next]; [simplify_eq; split; [done|]; intros ???; lia|].
  destruct (negb _); [simplify_eq; split; [done|]; intros ???; lia|].
  destruct (fill_list _ js next) as [[[s1 c1] k1] ok1] eqn:E. simplify_eq.
  inversion Hr as [|?? Hj Hr']; subst. inversion Hnd as [|?? Hnin Hnd']; subst.
  apply IH in E as [Hkeep Hfill]; [|by rewrite length_insert|done]. split.
  - intros j' Hj' Hn. cbn [take] in Hn. apply not_elem_of_cons in Hn as [Hne Hn].
    rewrite Hkeep by done. unfold slot_get. apply list_lookup_insert_ne. lia.
  - intros [|i] j' wr' Hi Hlj Hlw; simpl in Hlj, Hlw; simplify_eq.
    + rewrite Hkeep by (lia || (intros Hin; apply Hnin; by apply elem_of_take in Hin as (?&?%list_elem_of_lookup_2&?))).
      eexists. unfold slot_get. apply list_lookup_insert_eq. lia.
    + apply (Hfill i); [lia|done|done].
Qed.

(** The batch of the first iteration is filled as one list of slots. *)
Lemma fill_batch_list cap pos n slots current :
  cap_ok cap → 0 < n <= cap →
  let b := batch_at cap (pos `mod` cap) n in
  (let '(slots1, current1, accepted, first_valid) :=
     fill_batch validator encoder max_sge slots (first b) current 0 in
   let '(slots2, current2, accepted, second_valid) :=
     if first_valid then fill_batch validator encoder max_sge slots1 (second b) current1 accepted
     else (slots1, current1, accepted, false) in
   (slots2, current2, accepted, negb first_valid || negb second_valid)) =
  let '(slots', current', k, ok) :=
    fill_list slots ((λ k, k `mod` cap) <$> seqZ pos n) current in
  (slots', current', Z.of_nat k, negb ok).
Proof.
  intros Hcap Hn b. unfold cap_ok in Hcap.
  rewrite <- batch_slots_mod by lia. fold b. unfold batch_slots. rewrite fill_list_app.
  pose proof (Z.mod_pos_bound pos cap ltac:(lia)) as Hm.
  set (f := Z.min n (cap - pos `mod` cap)).
  unfold fill_batch, span_slots. cbn [b batch_at first data span_count]. fold f.
  rewrite fill_span_list by (unfold f; ulia). rewrite Z2Nat.id by (unfold f; lia).
  destruct (fill_list slots (seqZ (pos `mod` cap) f) current) as [[[s1 c1] k1] ok1] eqn:E1.
  apply fill_list_spec in E1 as (Hk1 & _). rewrite length_seqZ in Hk1.
  destruct ok1; [|done]. cbn [b batch_at second data span_count]. fold f.
  destruct (f =? n) eqn:Ef; bool_hyps.
  - destruct c1; simpl; by rewrite ?Nat.add_0_r.
  - rewrite fill_span_list by (unfold f in *; ulia). rewrite Z2Nat.id by (unfold f; lia).
    destruct (fill_list s1 _ c1) as [[[s2 c2] k2] ok2]. rewrite Nat2Z.inj_add. by destruct ok2.
Qed.

(** What a call of the loop achieves from published position [pub]. *)
Definition posts (cap pub seen : Z) (slots : list (list byte)) (head : nat → Z) (chain : list Wr)
    (p : Posted Wr) : Prop :=
  ∃ (k : nat) seen',
    (k <= length chain)%nat ∧ seen <= seen' ∧
    producer_at cap (posted_ring p) (pub + Z.of_nat k) seen' 0 ∧
    length (posted_slots p) = length slots ∧
    Forall (λ wr, validator wr max_sge = true) (take k chain) ∧
    (∀ i wr, (i < k)%nat → chain !! i = Some wr → seen' <= pub + Z.of_nat i →
       ∃ old, slot_get (posted_slots p) ((pub + Z.of_nat i) `mod` cap) = Some (encoder old wr)) ∧
    (∀ q, seen' <= q < pub → slot_get (posted_slots p) (q `mod` cap) = slot_get slots (q `mod` cap)) ∧
    (posted_status p = 0 ∧ k = length chain ∧ bad_wr p = None ∨
     bad_wr p = Some (drop k chain) ∧
     (posted_status p = EINVAL ∧ (∃ wr, chain !! k = Some wr ∧ validator wr max_sge = false) ∨
      posted_status p = ENOMEM ∧ (k < length chain)%nat ∧ pub + Z.of_nat k - head k = cap)).

(** One iteration of the loop, in terms of [fill_list]. *)
Lemma post_loop_step fuel loads ring slots stores d current :
  current ≠ [] →
  post_loop validator encoder (S fuel) loads max_sge ring slots stores d current =
  match producer_reserve ring (loads d) (capacity (queue_descriptor_ ring)) with
  | (ring, Err e) =>
      Some (mkPosted ring slots stores (if e =? EAGAIN then ENOMEM else e) (Some current))
  | (ring, Ok batch) =>
      let '(slots, current2, accepted, invalid) :=
        (let '(slots1, current1, accepted, first_valid) :=
           fill_batch validator encoder max_sge slots (first batch) current 0 in
         let '(slots2, current2, accepted, second_valid) :=
           if first_valid
           then fill_batch validator encoder max_sge slots1 (second batch) current1 accepted
           else (slots1, current1, accepted, false) in
         (slots2, current2, accepted, negb first_valid || negb second_valid)) in
      let '(ring, stored, publish_status) := producer_publish ring accepted in
      let stores := stores ++ option_list stored in
      if negb (publish_status =? 0)
      then Some (mkPosted ring slots stores publish_status (Some current2))
      else if invalid then Some (mkPosted ring slots stores EINVAL (Some current2))
      else post_loop validator encoder fuel loads max_sge ring slots stores (d + Z.to_nat accepted)
             current2
  end.
Proof.
  intros Hne. destruct current as [|wr next]; [done|]. cbn [post_loop].
  destruct (producer_reserve _ _ _) as [ring1 [batch|e]]; [|done].
  destruct (fill_batch _ _ _ slots (first batch) _ _) as [[[s1 c1] a1] []]; [|done].
  destruct (fill_batch _ _ _ s1 (second batch) _ _) as [[[s2 c2] a2] []]; done.
Qed.

(** Filling the [n] slots from position [pub] on: the slots of entries not yet consumed,
    from [seen] on, are kept, and the requests accepted are in the slots after them. *)
Lemma fill_ahead cap pub seen n slots current slots1 current1 k ok :
  cap_ok cap → 0 < n → pub + n <= seen + cap → seen <= pub → Z.of_nat (length slots) = cap →
  fill_list slots ((λ q, q `mod` cap) <$> seqZ pub n) current = (slots1, current1, k, ok) →
  (∀ q, seen <= q < pub → slot_get slots1 (q `mod` cap) = slot_get slots (q `mod` cap)) ∧
  (∀ i wr, (i < k)%nat → current !! i = Some wr →
     ∃ old, slot_get slots1 ((pub + Z.of_nat i) `mod` cap) = Some (encoder old wr)).
Proof.
  intros Hcap Hn Hroom Hsp Hlen Hfill. unfold cap_ok in Hcap.
  pose proof (fill_list_spec _ _ _ _ _ _ _ Hfill) as (Hkn & _). rewrite length_fmap, length_seqZ in Hkn.
  apply fill_list_slots in Hfill as [Hkeep Hput];
    [|apply positions_in_range; lia|apply mod_positions_nodup; lia].
  split.
  - intros q Hq. apply Hkeep; [apply Z.mod_pos_bound; lia|].
    intros (q' & Hq' & E)%position_inv. apply (mod_neq cap q q'); [lia|lia|done].
  - intros i wr Hi Hw. apply (Hput i); [done| |done].
    rewrite list_lookup_fmap, lookup_seqZ_lt by lia. done.
Qed.

(** The two ways the loop stops without taking another request: nothing is left, or the
    ring is full and the first request left is reported. *)
Lemma posts_done cap pub seen slots head ring stores :
  producer_at cap ring pub seen 0 → posts cap pub seen slots head [] (mkPosted ring slots stores 0 None).
Proof.
  intros Hp. exists O, seen. simpl. rewrite Z.add_0_r. split_and!; first [done|lia|by left|intros; lia].
Qed.

Lemma posts_full cap pub seen seen' slots head ring stores chain :
  chain ≠ [] → seen <= seen' → producer_at cap ring pub seen' 0 → pub - head O = cap →
  posts cap pub seen slots head chain (mkPosted ring slots stores ENOMEM (Some chain)).
Proof.
  intros Hne Hs Hp Hfull. exists O, seen'. rewrite Z.add_0_r. simpl.
  assert (0 < length chain)%nat by (destruct chain; simpl; [done|lia]).
  split_and!; try first [done|lia|intros; lia].
  right. split; [done|]. right. split_and!; [done|done|lia].
Qed.

(** A first iteration that accepts [k] requests, followed by the rest of the loop. *)
Lemma posts_extend cap pub seen seen' slots slots1 head (k : nat) current p :
  (k <= length current)%nat → seen <= seen' → length slots1 = length slots →
  Forall (λ wr, validator wr max_sge = true) (take k current) →
  (∀ q, seen' <= q < pub → slot_get slots1 (q `mod` cap) = slot_get slots (q `mod` cap)) →
  (∀ i wr, (i < k)%nat → current !! i = Some wr →
    ∃ old, slot_get slots1 ((pub + Z.of_nat i) `mod` cap) = Some (encoder old wr)) →
  posts cap (pub + Z.of_nat k) seen' slots1 (λ i, head (k + i)%nat) (drop k current) p →
  posts cap pub seen slots head current p.
Proof.
  intros Hkc Hse Hl1 Hval Hold Hnew (k2 & seen2 & Hk2 & Hse2 & Hp3 & Hl3 & Hv3 & Hput3 & Hkeep3 & Hst).
  exists (k + k2)%nat, seen2. rewrite length_drop in Hk2, Hst.
  replace (pub + Z.of_nat (k + k2)) with (pub + Z.of_nat k + Z.of_nat k2) by lia.
  split; [lia|]. split; [lia|]. split; [done|]. split; [congruence|].
  split; [rewrite <- take_take_drop; by apply Forall_app|]. split; [|split].
  - intros i wr Hi Hw Hsi. destruct (decide (i < k)%nat) as [Hik|Hik].
    { rewrite Hkeep3 by lia. by apply Hnew. }
    destruct (Hput3 (i - k)%nat wr) as [old Hold3]; [lia| |lia|].
    { rewrite lookup_drop. by replace (k + (i - k))%nat with i by lia. }
    exists old. rewrite <- Hold3. do 2 f_equal. lia.
  - intros q Hq. rewrite Hkeep3 by lia. apply Hold. lia.
  - rewrite drop_drop in Hst. destruct Hst as [(? & ? & ?)|[? Hst]]; [left|right].
    { split_and!; [done|lia|done]. }
    split; [done|]. destruct Hst as [[? (wr & Hw & ?)]|(? & ? & Hfull)]; [left|right].
    { rewrite lookup_drop in Hw. split; [done|]. by exists wr. }
    split_and!; [done|lia|lia].
Qed.

Section Loop.
Context (cap tail : Z) (head : nat → Z).
Hypothesis Hcap : cap_ok cap.
Hypothesis head_mono : ∀ i j, (i <= j)%nat → head i <= head j.
Hypothesis head_bound : ∀ i, head i <= tail + Z.of_nat i.

(** The loads of each iteration: the producer's own tail, and the consumer's head. *)
Definition loads_at (i : nat) : RingLoads :=
  mkLoads (u64 (tail + Z.of_nat i)) (u64 (head i)) (u64 (head i)).

Lemma post_loop_spec fuel d ring slots stores current seen :
  (length current < fuel)%nat → producer_at cap ring (tail + Z.of_nat d) seen 0 →
  seen <= head d → Z.of_nat (length slots) = cap →
  ∃ p, post_loop validator encoder fuel loads_at max_sge ring slots stores d current = Some p ∧
    posts cap (tail + Z.of_nat d) seen slots (λ i, head (d + i)) current p.
Proof.
  revert d ring slots stores current seen.
  induction fuel as [|fuel IH]; intros d ring slots stores current seen Hfuel Hp Hseen Hlen; [lia|].
  destruct (decide (current = [])) as [->|Hne].
  { eexists. split; [by destruct fuel|]. by apply posts_done. }
  rewrite post_loop_step by done. set (pub := tail + Z.of_nat d) in *.
  pose proof (pa_cap _ _ _ _ _ Hp) as Hc. rewrite Hc. unfold loads_at at 1. fold pub.
  destruct (reserve_spec cap ring pub seen (head d) (head d) cap Hcap Hp) as
    (seen' & ring' & Hs' & _ & _ & Hfresh & Hp' & Hcons & Hqd & Heq);
    [lia|pose proof (head_bound d); unfold pub; lia|unfold cap_ok in Hcap; ulia|].
  cbv zeta in Hp', Heq. rewrite Heq. clear Heq.
  set (avail := cap - (pub - seen')) in *. pose proof (pa_bounds _ _ _ _ _ Hp') as (Hn & Hb & Hbnd).
  destruct (avail =? 0) eqn:Hav; bool_hyps.
  { eexists. split; [done|]. unfold cap_ok in Hcap. rewrite Z.min_r, Hav in Hp' by lia.
    assert (seen' = head d) as E by (apply Hfresh; lia).
    apply (posts_full _ _ _ seen'); [done|lia|done|]. rewrite Nat.add_0_r. lia. }
  set (n := Z.min cap avail) in *.
  assert (0 < n <= cap) as Hn' by (unfold cap_ok in Hcap; lia).
  rewrite (fill_batch_list cap pub n) by done.
  destruct (fill_list slots _ current) as [[[slots1 current1] k] ok] eqn:Hfill.
  pose proof (fill_list_spec _ _ _ _ _ _ _ Hfill) as (Hkn & Hkc & -> & Hval & Hok & Hl1).
  rewrite length_fmap, length_seqZ in Hkn, Hok.
  destruct (fill_ahead cap pub seen' n _ _ _ _ _ _ Hcap ltac:(lia) ltac:(lia) ltac:(lia) Hlen Hfill)
    as [Hold Hnew].
  destruct (publish_spec cap ring' pub seen' n (Z.of_nat k) Hcap Hp' ltac:(lia) ltac:(lia))
    as (ring2 & Heq2 & Hp2 & _ & _).
  rewrite Heq2. cbn [negb Z.eqb].
  destruct ok; cbn [negb].
  - (* every request met was valid: the loop goes on *)
    assert (0 < k)%nat as Hk0 by (destruct Hok as [?|?]; [lia|destruct current; simpl in *; [done|lia]]).
    rewrite Nat2Z.id. destruct (IH (d + k)%nat ring2 slots1 (stores ++ option_list (if Z.of_nat k =? 0 then None else Some (u64 (pub + Z.of_nat k)))) (drop k current) seen')
      as (p & -> & Hposts).
    + rewrite length_drop. lia.
    + by replace (tail + Z.of_nat (d + k)) with (pub + Z.of_nat k) by (unfold pub; lia).
    + etrans; [apply Hs'|apply head_mono; lia].
    + by rewrite Hl1.
    + exists p. split; [done|].
      replace (tail + Z.of_nat (d + k)) with (pub + Z.of_nat k) in Hposts by (unfold pub; lia).
      apply (posts_extend _ _ _ seen' _ slots1 _ k); try done; [lia|].
      destruct Hposts as (k2 & seen2 & Hrest). exists k2, seen2. by rewrite !Nat.add_assoc.
  - (* the first invalid request ends the call *)
    destruct Hok as [Hkn2 (wr & Hw & Hbad)]. eexists. split; [done|]. exists k, seen'. simpl.
    split; [done|]. split; [lia|]. split; [done|]. split; [done|]. split; [done|].
    split; [intros; by apply Hnew|]. split; [done|]. right. split; [done|]. left. split; [done|].
    by exists wr.
Qed.

End Loop.

End PostSpec.

(** Fields that fit their C types, and a scatter list as long as it says. *)
Definition api_sge_ok (s : ugdr_sge) : Prop := is_u64 (addr s) ∧ is_u32 (length_ s) ∧ is_u32 (lkey s).

Record send_wr_ok (wr : ugdr_send_wr) : Prop := {
  sw_id : is_u64 (wr_id wr);
  sw_flags : is_u32 (wr_send_flags wr);
  sw_imm : is_u32 (imm_data wr);
  sw_remote : is_u64 (remote_addr wr) ∧ is_u32 (wr_rkey wr);
  sw_sges : Forall api_sge_ok (default [] (sg_list wr));
  sw_count : num_sge wr <= Z.of_nat (length (default [] (sg_list wr))) ∧ num_sge wr <= I32_MAX;
}.

Record recv_wr_ok (wr : ugdr_recv_wr) : Prop := {
  rw_id : is_u64 (recv_wr_id wr);
  rw_sges : Forall api_sge_ok (default [] (recv_sg_list wr));
  rw_count : recv_num_sge wr <= Z.of_nat (length (default [] (recv_sg_list wr))) ∧
             recv_num_sge wr <= I32_MAX;
}.

Lemma shared_sges_ok n l :
  0 <= n <= Z.of_nat (length (default [] l)) → Forall api_sge_ok (default [] l) →
  Forall sge_ok (shared_sges n l) ∧ Z.of_nat (length (shared_sges n l)) = n.
Proof.
  intros Hn Hl. unfold shared_sges. split.
  - apply Forall_fmap, Forall_take. by eapply Forall_impl.
  - rewrite length_fmap, length_take. lia.
Qed.

Lemma valid_sge_list_bounds n l max :
  n <= I32_MAX → valid_sge_list n l max = true → 0 <= n <= max ∧ u32 n = n.
Proof.
  intros Hmax H. unfold valid_sge_list in H. bool_hyps. rewrite u32_small in * by ulia. done.
Qed.

(** * Properties *)

(** (C28) Posting a chain: whatever the consumer does meanwhile, the call returns
    (the fuel is enough), accepts a prefix of the chain in order, publishes exactly
    that prefix, leaves every unread slot intact and each accepted request encoded
    in its slot until the consumer has passed it.  Status 0 means the whole chain;
    otherwise [*bad_wr] is the first request not accepted, with [EINVAL] exactly
    because it is invalid or [ENOMEM] because the queue was full. *)
Theorem post_chain_correct {Wr} (validator : Wr → Z → bool) (encoder : list byte → Wr → list byte)
    max_sge cap ring slots tail seen head chain :
  cap_ok cap → producer_at cap ring tail seen 0 → Z.of_nat (length slots) = cap → chain ≠ [] →
  (∀ i j, (i <= j)%nat → head i <= head j) → (∀ i, head i <= tail + Z.of_nat i) → seen <= head O →
  ∃ p, post_chain validator encoder (loads_at tail head) max_sge ring slots chain = Some p ∧
    posts validator encoder max_sge cap tail seen slots head chain p.
Proof.
  intros Hcap Hp Hlen Hne Hmono Hbound Hseen. unfold post_chain. rewrite decide_False by done.
  rewrite (pa_valid _ _ _ _ _ Hp). cbn [negb].
  destruct (post_loop_spec validator encoder max_sge cap tail head Hcap Hmono Hbound
    (S (length chain)) 0 ring slots [] chain seen) as (p & Heq & Hposts);
    [lia|by rewrite Z.add_0_r|done|done|].
  exists p. split; [done|]. by rewrite Z.add_0_r in Hposts.
Qed.

(** A valid send request fits the slot of a queue built for [max_sge] entries,
    and the worker reads back from it the header and scatter list that were posted. *)
Theorem send_wqe_roundtrip wr max_sge stride slot :
  send_wr_ok wr → valid_send_wr wr max_sge = true → 0 <= max_sge <= 268435449 →
  send_slot_stride max_sge = Ok stride → Z.of_nat (length slot) = stride →
  length (encode_send slot wr) = length slot ∧
  load_send_header (encode_send slot wr) = send_header wr ∧
  load_sges (encode_send slot wr) 40 (Z.to_nat (send_sge_count (send_header wr))) =
    shared_sges (num_sge wr) (sg_list wr).
Proof.
  intros [] Hv Hmax Hst Hlen. unfold valid_send_wr in Hv. bool_hyps.
  destruct (valid_sge_list_bounds (num_sge wr) (sg_list wr) max_sge ltac:(lia) ltac:(eassumption)) as [Hn Hu].
  destruct (shared_sges_ok (num_sge wr) (sg_list wr)) as [Hok Hcnt]; [lia|done|].
  assert (40 + max_sge * 16 <= stride) as Hfit.
  { unfold send_slot_stride in Hst. rewrite stride_value in Hst by (unfold send_header_size; ulia).
    injection Hst as <-. rewrite u32_small by (unfold send_header_size; ulia).
    unfold send_header_size. set (x := 40 + max_sge * 16 + 63).
    pose proof (Z.div_mod x 64 ltac:(lia)). pose proof (Z.mod_pos_bound x 64 ltac:(lia)). lia. }
  assert (send_header_ok (send_header wr)) as Hho.
  { destruct sw_remote0. unfold send_header_ok, send_header. cbn. 
    assert (is_u32 (if opcode wr =? UGDR_WR_RDMA_WRITE_WITH_IMM then imm_data wr else 0))
      by (by case_match). split_and!; first [done|apply u32_range]. }
  unfold encode_send. split; [|split].
  - apply length_store. rewrite length_app, length_send_header, length_sges. lia.
  - unfold store. rewrite <- app_assoc. by apply load_send_header_bytes.
  - cbn [send_header send_sge_count]. rewrite Hu.
    replace (Z.to_nat (num_sge wr)) with (length (shared_sges (num_sge wr) (sg_list wr))) by lia.
    eapply load_sges_bytes; [done|]. unfold store. rewrite <- app_assoc.
    apply drop_app_eq, length_send_header.
Qed.

(** The same for receive requests. *)
Theorem receive_wqe_roundtrip wr max_sge stride slot :
  recv_wr_ok wr → valid_receive_wr wr max_sge = true → 0 <= max_sge <= 268435449 →
  receive_slot_stride max_sge = Ok stride → Z.of_nat (length slot) = stride →
  length (encode_receive slot wr) = length slot ∧
  load_receive_header (encode_receive slot wr) = receive_header wr ∧
  load_sges (encode_receive slot wr) 16 (Z.to_nat (receive_sge_count (receive_header wr))) =
    shared_sges (recv_num_sge wr) (recv_sg_list wr).
Proof.
  intros [] Hv Hmax Hst Hlen. unfold valid_receive_wr in Hv.
  destruct (valid_sge_list_bounds (recv_num_sge wr) (recv_sg_list wr) max_sge ltac:(lia) ltac:(eassumption)) as [Hn Hu].
  destruct (shared_sges_ok (recv_num_sge wr) (recv_sg_list wr)) as [Hok Hcnt]; [lia|done|].
  assert (16 + max_sge * 16 <= stride) as Hfit.
  { unfold receive_slot_stride in Hst. rewrite stride_value in Hst by (unfold receive_header_size; ulia).
    injection Hst as <-. rewrite u32_small by (unfold receive_header_size; ulia).
    unfold receive_header_size. set (x := 16 + max_sge * 16 + 63).
    pose proof (Z.div_mod x 64 ltac:(lia)). pose proof (Z.mod_pos_bound x 64 ltac:(lia)). lia. }
  assert (receive_header_ok (receive_header wr)) as Hho.
  { unfold receive_header_ok, receive_header. cbn. split_and!; first [done|apply u32_range]. }
  unfold encode_receive. split; [|split].
  - apply length_store. rewrite length_app, length_receive_header, length_sges. lia.
  - unfold store. rewrite <- app_assoc. by apply load_receive_header_bytes.
  - cbn [receive_header receive_sge_count]. rewrite Hu.
    replace (Z.to_nat (recv_num_sge wr))
      with (length (shared_sges (recv_num_sge wr) (recv_sg_list wr))) by lia.
    eapply load_sges_bytes; [done|]. unfold store. rewrite <- app_assoc.
    apply drop_app_eq, length_receive_header.
Qed.

(** ** Witnesses *)

Definition demo_send_ring : SharedRing :=
  mkRing true 4096 3 (mkDescriptor send 2 64) no_producer no_consumer.
Definition demo_wr (id flags : Z) : ugdr_send_wr :=
  mkSendWr id (Some [mkApiSge 4096 8 1]) 1 UGDR_WR_RDMA_WRITE flags 0 8192 7.
Definition demo_slots : list (list byte) := replicate 2 (replicate 64 Byte.x00).

Lemma post_chain_correct_witness :
  ∃ p, post_send_chain (loads_at 0 (λ _, 0)) demo_send_ring demo_slots 1
         [demo_wr 1 0; demo_wr 2 2; demo_wr 3 0] = Some p ∧
    posted_status p = ENOMEM ∧ bad_wr p = Some [demo_wr 3 0].
Proof.
  destruct (post_chain_correct valid_send_wr encode_send 1 2 demo_send_ring demo_slots 0 0 (λ _, 0)
    [demo_wr 1 0; demo_wr 2 2; demo_wr 3 0]) as (p & Hp & _);
    [by vm_compute|by split; vm_compute|done|done|done|intros i; lia|done|].
  - exists p. vm_compute in Hp. injection Hp as <-. by vm_compute.
Defined.

Lemma send_wqe_roundtrip_witness :
  load_send_header (encode_send (replicate 64 Byte.x00) (demo_wr 5 2)) = send_header (demo_wr 5 2).
Proof.
  apply (send_wqe_roundtrip (demo_wr 5 2) 1 64 (replicate 64 Byte.x00));
    [|by vm_compute|by vm_compute|by vm_compute|by vm_compute].
  split; [by vm_compute|by vm_compute|by vm_compute|by vm_compute| |by vm_compute].
  repeat constructor; by vm_compute.
Defined.

Lemma receive_wqe_roundtrip_witness :
  load_receive_header (encode_receive (replicate 64 Byte.x00) (mkRecvWr 9 None 0))
  = receive_header (mkRecvWr 9 None 0).
Proof.
  apply (receive_wqe_roundtrip (mkRecvWr 9 None 0) 1 64 (replicate 64 Byte.x00));
    [|by vm_compute|by vm_compute|by vm_compute|by vm_compute].
  split; [by vm_compute|constructor|by vm_compute].
Defined.

End WrPosting.
