(* ===== verification/CompletionQueue.v ===== *)
(** Completion queues: the worker's [produce_completions]
    (src/queue/completion_queue.cpp) and the application's [poll_cq]
    (src/api/api.cpp), two processes on the ring of one shared [Region]. *)

From S2P Require Import Prelude SharedRing RingSpsc Descriptors.
Import Ring Spsc Descriptors.

Module CompletionQueue.

(** * A ring object on its shared region *)

Record Region := mkRegion { shared_tail : Z; shared_head : Z; slots : list (list byte) }.

Definition with_slots (g : Region) (l : list (list byte)) : Region :=
  mkRegion (shared_tail g) (shared_head g) l.

(** The ring operations on the positions the region holds at the call. *)
Definition region_reserve (r : SharedRing) (g : Region) (n : Z) : SharedRing * result SlotBatch :=
  producer_reserve r (mkLoads (shared_tail g) (shared_head g) (shared_head g)) n.
Definition region_publish (r : SharedRing) (g : Region) (n : Z) : SharedRing * Region * Z :=
  let '(r, stored, status) := producer_publish r n in
  (r, mkRegion (default (shared_tail g) stored) (shared_head g) (slots g), status).
Definition region_peek (r : SharedRing) (g : Region) (n : Z) : SharedRing * result SlotBatch :=
  consumer_peek r (mkLoads (shared_head g) (shared_tail g) (shared_tail g)) n.
Definition region_release (r : SharedRing) (g : Region) (n : Z) : SharedRing * Region * Z :=
  let '(r, stored, status) := consumer_release r n in
  (r, mkRegion (shared_tail g) (default (shared_head g) stored) (slots g), status).

(** * The producer *)

(** [memcpy] of a completion into a slot. *)
Definition write_completion (g : Region) (j : Z) (e : CompletionEntry) : Region :=
  with_slots g (<[Z.to_nat j := store (default [] (slot_get (slots g) j)) (completion_bytes e)]> (slots g)).

(** [copy_entries]: the entries from [*offset] on, into [n] slots from [start]. *)
Fixpoint copy_slots (g : Region) (start : Z) (n : nat) (entries : list CompletionEntry)
  : Region * list CompletionEntry :=
  match n, entries with
  | S n, e :: entries => copy_slots (write_completion g start e) (start + 1) n entries
  | _, _ => (g, entries)
  end.

Definition copy_entries (g : Region) (sp : SlotSpan) (entries : list CompletionEntry)
  : Region * list CompletionEntry :=
  match data sp with
  | Some start => copy_slots g start (Z.to_nat (span_count sp)) entries
  | None => (g, entries)
  end.

(** [entries] is the array; its length is [num_entries]. *)
Definition produce_completions (r : SharedRing) (g : Region) (entries : list CompletionEntry)
  : SharedRing * Region * Z :=
  if Z.of_nat (length entries) =? 0 then (r, g, 0)
  else if negb (valid r) || negb (bool_decide (kind (queue_descriptor_ r) = completion))
          || negb (slot_stride (queue_descriptor_ r) =? completion_slot_stride)
  then (r, g, - EINVAL)
  else match region_reserve r g (u32 (Z.of_nat (length entries))) with
  | (r, Err e) => if e =? EAGAIN then (r, g, 0) else (r, g, - e)
  | (r, Ok batch) =>
      let '(g, rest) := copy_entries g (first batch) entries in
      let '(g, _) := copy_entries g (second batch) rest in
      let '(r, g, publish_status) := region_publish r g (count batch) in
      (r, g, if publish_status =? 0 then count batch else - publish_status)
  end.

(** * The consumer *)

(** [ugdr_wc]; the members not listed are zero. *)
Record ugdr_wc := mkWc {
  wc_wr_id : Z; wc_status : Z; wc_opcode : Z; wc_byte_len : Z; wc_imm_data : Z; wc_qp_num : Z;
  wc_flags : Z;
}.

Definition wc_of_entry (e : CompletionEntry) : ugdr_wc :=
  mkWc (cqe_wr_id e) (cqe_status e) (cqe_opcode e) (cqe_byte_length e) (cqe_immediate_data e)
    (cqe_qp_num e) (cqe_flags e).

Definition copy_span (g : Region) (sp : SlotSpan) : list ugdr_wc :=
  (λ j, wc_of_entry (load_completion (default [] (slot_get (slots g) j)))) <$> span_slots sp.

(** [poll_cq] on a live completion queue: the new state, the completions written to
    [wc], and the return value. *)
Definition poll_cq (live : bool) (r : SharedRing) (g : Region) (num_entries : Z)
  : SharedRing * Region * list ugdr_wc * Z :=
  if num_entries <? 0 then (r, g, [], - EINVAL)
  else if negb live then (r, g, [], - EINVAL)
  else if num_entries =? 0 then (r, g, [], 0)
  else match region_peek r g (u32 num_entries) with
  | (r, Err e) => if e =? EAGAIN then (r, g, [], 0) else (r, g, [], - e)
  | (r, Ok batch) =>
      let wcs := copy_span g (first batch) ++ copy_span g (second batch) in
      let '(r, g, release_status) := region_release r g (count batch) in
      (r, g, wcs, if release_status =? 0 then count batch else - release_status)
  end.

(** * The queue the two processes implement *)

(** Producer object [rp], consumer object [rc] and region [g] hold the completions
    [q], oldest first, at positions [rel] to [pub]. *)
(** The slots from position [rel] on hold the entries [q]. *)
Definition stored (cap rel : Z) (g : Region) (q : list CompletionEntry) : Prop :=
  ∀ i e, q !! i = Some e →
    ∃ slot, slot_get (slots g) ((rel + Z.of_nat i) `mod` cap) = Some slot ∧ load_completion slot = e.

Record cq_at (cap : Z) (rp rc : SharedRing) (g : Region) (pub rel : Z) (q : list CompletionEntry)
  : Prop := {
  cq_producer : ∃ seen, seen <= rel ∧ producer_at cap rp pub seen 0;
  cq_consumer : ∃ seen, seen <= pub ∧ consumer_at cap rc rel seen 0;
  cq_kind : queue_descriptor_ rp = mkDescriptor completion cap completion_slot_stride;
  cq_tail : shared_tail g = u64 pub;
  cq_head : shared_head g = u64 rel;
  cq_slots : Z.of_nat (length (slots g)) = cap;
  cq_length : pub - rel = Z.of_nat (length q);
  cq_range : 0 <= rel <= pub ∧ pub <= rel + cap;
  cq_entries : stored cap rel g q;
}.

Definition cq_holds (cap : Z) (rp rc : SharedRing) (g : Region) (q : list CompletionEntry) : Prop :=
  ∃ pub rel, cq_at cap rp rc g pub rel q.

(** ** Filling slots *)

Fixpoint write_list (g : Region) (js : list Z) (entries : list CompletionEntry)
  : Region * list CompletionEntry :=
  match js, entries with
  | j :: js, e :: entries => write_list (write_completion g j e) js entries
  | _, _ => (g, entries)
  end.

Lemma copy_slots_list n g start entries :
  copy_slots g start n entries = write_list g (seqZ start (Z.of_nat n)) entries.
Proof.
  revert g start entries. induction n as [|n IH]; intros g start entries; [by destruct entries|].
  rewrite seqZ_cons by lia. replace (Z.pred (Z.of_nat (S n))) with (Z.of_nat n) by lia.
  destruct entries as [|e entries]; [done|]. simpl. rewrite IH. do 2 f_equal; lia.
Qed.

Lemma write_list_app js js' g entries :
  write_list g (js ++ js') entries =
  let '(g, rest) := write_list g js entries in write_list g js' rest.
Proof.
  revert g entries. induction js as [|j js IH]; intros g entries; [done|].
  destruct entries as [|e entries]; simpl; [by destruct js'|apply IH].
Qed.

Lemma copy_batch_list cap pos n g entries :
  0 < cap → 0 <= n <= cap →
  (let '(g1, rest) := copy_entries g (first (batch_at cap (pos `mod` cap) n)) entries in
   copy_entries g1 (second (batch_at cap (pos `mod` cap) n)) rest) =
  write_list g ((λ k, k `mod` cap) <$> seqZ pos n) entries.
Proof.
  intros Hc Hn. rewrite <- batch_slots_mod by lia. unfold batch_slots. rewrite write_list_app.
  pose proof (Z.mod_pos_bound pos cap Hc). unfold copy_entries, span_slots, batch_at.
  cbn [first second data span_count]. rewrite copy_slots_list, Z2Nat.id by lia.
  destruct (write_list g _ entries) as [g1 rest].
  destruct (_ =? n) eqn:E; cbn [data]; [by destruct rest|]. by rewrite copy_slots_list, Z2Nat.id by lia.
Qed.

Lemma write_list_spec js g entries g' rest :
  write_list g js entries = (g', rest) →
  Forall (λ j, 0 <= j < Z.of_nat (length (slots g))) js → NoDup js → Forall completion_ok entries →
  shared_tail g' = shared_tail g ∧ shared_head g' = shared_head g ∧
  length (slots g') = length (slots g) ∧
  (∀ j, 0 <= j → j ∉ js → slot_get (slots g') j = slot_get (slots g) j) ∧
  (∀ i j e, js !! i = Some j → entries !! i = Some e →
     ∃ slot, slot_get (slots g') j = Some slot ∧ load_completion slot = e).
Proof.
  revert g entries. induction js as [|j js IH]; intros g entries Hw Hr Hnd Hok; simpl in Hw.
  { simplify_eq. split_and!; done. }
  destruct entries as [|e entries]; simplify_eq. { split_and!; done. }
  inversion Hr as [|?? Hj Hr']; subst. inversion Hnd as [|?? Hnin Hnd']; subst.
  inversion Hok as [|?? He Hok']; subst.
  assert (length (slots (write_completion g j e)) = length (slots g)) as Hl.
  { unfold write_completion. cbn [slots with_slots]. apply length_insert. }
  apply IH in Hw as (? & ? & Hlen & Hkeep & Hput); [|by rewrite Hl|done|done].
  split; [done|]. split; [done|]. split; [congruence|]. split.
  - intros j' Hj' [Hne Hn]%not_elem_of_cons. rewrite Hkeep by done.
    unfold write_completion, slot_get. apply list_lookup_insert_ne. lia.
  - intros [|i] j' e' Hlj Hle; simpl in Hlj, Hle; simplify_eq; [|by eapply Hput].
    rewrite Hkeep by (done || lia). eexists. split.
    + unfold write_completion, slot_get. apply list_lookup_insert_eq. lia.
    + unfold store. by apply load_completion_bytes.
Qed.

(** ** Entries in the slots *)

Definition positions (cap start n : Z) : list Z := (λ p, p `mod` cap) <$> seqZ start n.

(** Filling the slots after those of [q] appends. *)
Lemma stored_append cap rel g g' q entries k :
  0 < cap → Z.of_nat (length q) + k <= cap → stored cap rel g q →
  (∀ j, 0 <= j → j ∉ positions cap (rel + Z.of_nat (length q)) k → slot_get (slots g') j = slot_get (slots g) j) →
  (∀ i j e, positions cap (rel + Z.of_nat (length q)) k !! i = Some j → entries !! i = Some e →
     ∃ slot, slot_get (slots g') j = Some slot ∧ load_completion slot = e) →
  stored cap rel g' (q ++ take (Z.to_nat k) entries).
Proof.
  intros Hcap Hk Hent Hkeep Hput i e He. apply lookup_app_Some in He as [He|[Hi He]].
  - destruct (Hent i e He) as (slot & Hslot & Hload). exists slot. split; [|done].
    apply lookup_lt_Some in He. rewrite Hkeep; [done|apply Z.mod_pos_bound; lia|].
    intros (q' & E & Hq'%elem_of_seqZ)%list_elem_of_fmap.
    apply (mod_neq cap (rel + Z.of_nat i) q'); [lia|lia|done].
  - apply lookup_take_Some in He as [He Hi2].
    apply (Hput (i - length q)%nat); [|done].
    unfold positions. rewrite list_lookup_fmap, lookup_seqZ_lt by lia. simpl. do 2 f_equal. lia.
Qed.

(** Reading the slots gives the entries. *)
Lemma stored_read cap rel g q k :
  0 <= k <= Z.of_nat (length q) → stored cap rel g q →
  (λ j, wc_of_entry (load_completion (default [] (slot_get (slots g) j)))) <$> positions cap rel k =
  wc_of_entry <$> take (Z.to_nat k) q.
Proof.
  intros Hk Hent. unfold positions. rewrite <- list_fmap_compose.
  apply list_eq. intros i. rewrite !list_lookup_fmap. destruct (decide (Z.of_nat i < k)) as [Hi|Hi].
  - rewrite lookup_seqZ_lt, lookup_take_lt by lia. simpl.
    destruct (lookup_lt_is_Some_2 q i) as [e He]; [lia|]. rewrite He.
    destruct (Hent i e He) as (slot & -> & Hload). simpl. by rewrite Hload.
  - rewrite lookup_seqZ_ge by lia. simpl. rewrite (lookup_ge_None_2 (take _ q)); [done|].
    rewrite length_take. lia.
Qed.

Lemma stored_drop cap rel g q k :
  0 <= k → stored cap rel g q → stored cap (rel + k) g (drop (Z.to_nat k) q).
Proof.
  intros Hk Hent i e He. rewrite lookup_drop in He. destruct (Hent _ _ He) as (slot & Hs1 & Hs2).
  exists slot. split; [|done]. rewrite <- Hs1. do 2 f_equal. lia.
Qed.

Lemma take_min {A} (l : list A) n :
  take (Z.to_nat (Z.min n (Z.of_nat (length l)))) l = take (Z.to_nat n) l.
Proof.
  destruct (decide (n <= Z.of_nat (length l))); [by rewrite Z.min_l|].
  rewrite !take_ge by lia. done.
Qed.
Lemma drop_min {A} (l : list A) n :
  drop (Z.to_nat (Z.min n (Z.of_nat (length l)))) l = drop (Z.to_nat n) l.
Proof.
  destruct (decide (n <= Z.of_nat (length l))); [by rewrite Z.min_l|].
  rewrite !drop_ge by lia. done.
Qed.

(** * Properties *)

(** Producing completions appends to the queue: as many entries as fit are
    appended in order and their number returned, none when the queue is full; the
    entries already queued are untouched. *)
Theorem produce_completions_fifo cap rp rc g q entries rp' g' n :
  cap_ok cap → cq_holds cap rp rc g q → Forall completion_ok entries →
  Z.of_nat (length entries) <= I32_MAX →
  produce_completions rp g entries = (rp', g', n) →
  n = Z.min (Z.of_nat (length entries)) (cap - Z.of_nat (length q)) ∧
  cq_holds cap rp' rc g' (q ++ take (Z.to_nat n) entries).
Proof.
  intros Hcap (pub & rel & [(seen & Hsr & Hp) Hcons Hkind Htail Hhead Hsl Hlen Hrange Hent]) Hok Hmax Heq.
  pose proof Hcap as Hcap'. unfold cap_ok in Hcap'. unfold produce_completions in Heq.
  destruct (_ =? 0) eqn:E0; bool_hyps.
  { injection Heq as <- <- <-. destruct entries; [|done]. simpl. split; [lia|]. rewrite app_nil_r.
    exists pub, rel. split; eauto. }
  rewrite (pa_valid _ _ _ _ _ Hp), Hkind in Heq. cbn in Heq.
  unfold region_reserve in Heq. rewrite Htail, Hhead, u32_small in Heq by ulia.
  destruct (reserve_spec cap rp pub seen rel rel (Z.of_nat (length entries)) Hcap Hp) as
    (seen' & r1 & Hs' & _ & _ & Hfresh & Hp1 & _ & Hqd & Hres); [lia|lia|ulia|].
  cbv zeta in Hp1, Hres. rewrite Hres in Heq. clear Hres.
  pose proof (pa_bounds _ _ _ _ _ Hp1) as Hb1.
  destruct (cap - (pub - seen') =? 0) eqn:Eav; bool_hyps.
  { cbn in Heq. injection Heq as <- <- <-. rewrite Eav, Z.min_r in Hp1 by lia.
    assert (seen' = rel) by (apply Hfresh; lia). split; [lia|]. simpl. rewrite app_nil_r.
    exists pub, rel. split; try done; [by exists seen'; split; [lia|]|congruence]. }
  set (k := Z.min (Z.of_nat (length entries)) (cap - (pub - seen'))) in *.
  assert (k = Z.min (Z.of_nat (length entries)) (cap - Z.of_nat (length q))) as Hk.
  { unfold k. destruct (decide (cap - (pub - seen') < Z.of_nat (length entries))) as [Hlt|Hge].
    - specialize (Hfresh Hlt). lia.
    - lia. }
  cbn [count batch_at] in Heq.
  pose proof (copy_batch_list cap pub k g entries ltac:(lia) ltac:(lia)) as Hcopy.
  destruct (copy_entries g _ entries) as [g1 rest]. destruct (copy_entries g1 _ rest) as [g2 rest2].
  symmetry in Hcopy. apply write_list_spec in Hcopy as (Ht2 & Hh2 & Hl2 & Hkeep & Hput);
    [|apply positions_in_range; lia|apply mod_positions_nodup; lia|done].
  unfold region_publish in Heq.
  destruct (publish_spec cap r1 pub seen' k k Hcap Hp1 ltac:(lia) ltac:(lia)) as (r2 & Hpub & Hp2 & _ & Hqd2).
  rewrite Hpub in Heq. rewrite (proj2 (Z.eqb_neq k 0)) in Heq by lia. cbn in Heq. injection Heq as <- <- <-.
  split; [done|]. exists (pub + k), rel. destruct Hcons as (seen_c & Hsc & Hc).
  assert (length (take (Z.to_nat k) entries) = Z.to_nat k) as Hlt by (rewrite length_take; lia).
  split; cbn [shared_tail shared_head slots]; try done.
  - exists seen'. split; [lia|done].
  - exists seen_c. split; [lia|done].
  - congruence.
  - congruence.
  - congruence.
  - rewrite length_app, Hlt. lia.
  - lia.
  - replace (pub) with (rel + Z.of_nat (length q)) in Hkeep, Hput by lia.
    by apply (stored_append cap rel g); [lia|lia|..].
Qed.

(** (C29) Polling removes from the queue: the application gets the oldest
    [num_entries] completions, or all there are, in order and with every field as
    the worker wrote it, and they leave the queue. *)
Theorem poll_cq_fifo cap rp rc g q num rc' g' wcs n :
  cap_ok cap → cq_holds cap rp rc g q → 0 <= num <= I32_MAX →
  poll_cq true rc g num = (rc', g', wcs, n) →
  n = Z.min num (Z.of_nat (length q)) ∧ wcs = wc_of_entry <$> take (Z.to_nat num) q ∧
  cq_holds cap rp rc' g' (drop (Z.to_nat num) q).
Proof.
  intros Hcap (pub & rel & [Hprod (seen & Hsp & Hc) Hkind Htail Hhead Hsl Hlen Hrange Hent]) Hnum Heq.
  pose proof Hcap as Hcap'. unfold cap_ok in Hcap'. unfold poll_cq in Heq.
  rewrite (proj2 (Z.ltb_ge num 0)) in Heq by lia. cbn [negb] in Heq.
  destruct (num =? 0) eqn:E0; bool_hyps.
  { injection Heq as <- <- <- <-. subst num. simpl. split; [lia|]. split; [done|]. rewrite drop_0.
    exists pub, rel. split; eauto. }
  unfold region_peek in Heq. rewrite Htail, Hhead, u32_small in Heq by ulia.
  destruct (peek_spec cap rc rel seen pub pub num Hcap Hc) as
    (seen' & r1 & Hs' & _ & _ & Hfresh & Hc1 & _ & _ & Hpk); [lia|lia|ulia|].
  cbv zeta in Hc1, Hpk. rewrite Hpk in Heq. clear Hpk. pose proof (ca_bounds _ _ _ _ _ Hc1) as Hb1.
  destruct (seen' - rel =? 0) eqn:Eav; bool_hyps.
  { cbn in Heq. injection Heq as <- <- <- <-. rewrite Eav, Z.min_r in Hc1 by lia.
    assert (seen' = pub) by (apply Hfresh; lia). destruct q; [|simpl in Hlen; lia].
    rewrite take_nil, drop_nil. split; [simpl; lia|]. split; [done|].
    exists pub, rel. split; try done. by exists seen'; split; [lia|]. }
  set (k := Z.min num (seen' - rel)) in *.
  assert (k = Z.min num (Z.of_nat (length q))) as Hk.
  { unfold k. destruct (decide (seen' - rel < num)) as [Hlt|Hge]; [specialize (Hfresh Hlt)|]; lia. }
  cbn [count batch_at] in Heq. unfold region_release in Heq.
  destruct (consumer_release_spec cap r1 rel seen' k k Hcap Hc1 ltac:(lia) ltac:(lia))
    as (r2 & Hrel & Hc2 & _ & _).
  rewrite Hrel, (proj2 (Z.eqb_neq k 0)) in Heq by lia. cbn [Z.eqb] in Heq. injection Heq as <- <- <- <-.
  split; [done|]. split.
  - unfold copy_span. rewrite <- fmap_app.
    pose proof (batch_slots_mod cap rel k ltac:(lia) ltac:(lia)) as Hbs.
    unfold batch_slots, batch_at in Hbs. cbn [first second] in Hbs |- *. rewrite Hbs.
    rewrite <- (take_min q num), <- Hk. apply (stored_read cap rel); [lia|done].
  - exists pub, (rel + k). destruct Hprod as (seen_p & Hsp' & Hp).
    rewrite <- (drop_min q num), <- Hk.
    split; cbn [shared_tail shared_head slots]; try done.
    + exists seen_p. split; [lia|done].
    + exists seen'. split; [lia|done].
    + rewrite length_drop. lia.
    + lia.
    + by apply stored_drop; [lia|].
Qed.

(** ** Witnesses *)

Definition demo_ring_p : SharedRing :=
  mkRing true 4096 3 (mkDescriptor completion 2 64) no_producer no_consumer.
Definition demo_region : Region := mkRegion 0 0 (replicate 2 (replicate 64 Byte.x00)).
Definition demo_entry (id : Z) : CompletionEntry := mkCompletion id 0 1 0 0 17 0.

Lemma demo_cq_empty : cq_holds 2 demo_ring_p demo_ring_p demo_region [].
Proof.
  exists 0, 0. split; try done.
  - exists 0. by split; [lia|split].
  - exists 0. by split; [lia|split].
Qed.

Lemma produce_completions_fifo_witness :
  (produce_completions demo_ring_p demo_region (demo_entry <$> [1; 2; 3])).2 = Z.min 3 (2 - 0).
Proof.
  destruct (produce_completions demo_ring_p demo_region (demo_entry <$> [1; 2; 3])) as [[r g] n] eqn:E.
  assert (Forall completion_ok (demo_entry <$> [1; 2; 3])) as Hok
    by (repeat constructor; by vm_compute).
  exact (proj1 (produce_completions_fifo 2 demo_ring_p demo_ring_p demo_region []
    (demo_entry <$> [1; 2; 3]) r g n ltac:(by vm_compute) demo_cq_empty Hok ltac:(by vm_compute) E)).
Defined.

(** Two completions are produced, one is polled, and a third goes into the freed slot: the
    ring of two slots holds the second completion in its last slot and the third in its first. *)
Definition demo_produced := produce_completions demo_ring_p demo_region (demo_entry <$> [1; 2]).
Definition demo_polled := poll_cq true demo_ring_p demo_produced.1.2 1.
Definition demo_wrapped := produce_completions demo_produced.1.1 demo_polled.1.1.2 (demo_entry <$> [3]).

Lemma demo_entries_ok ids : Forall (λ i, is_u64 i) ids → Forall completion_ok (demo_entry <$> ids).
Proof. intros H. apply Forall_fmap. eapply Forall_impl; [done|]. intros i Hi. by split. Qed.

(** A poll of up to five completions returns the two in the ring, across its end, oldest
    first, and leaves the queue empty. *)
Lemma poll_cq_fifo_witness :
  ∃ rc g, poll_cq true demo_polled.1.1.1 demo_wrapped.1.2 5 = (rc, g, wc_of_entry <$> (demo_entry <$> [2; 3]), 2) ∧
    cq_holds 2 demo_wrapped.1.1 rc g [].
Proof.
  assert (cap_ok 2) as Hcap by by vm_compute.
  assert (cq_holds 2 demo_produced.1.1 demo_ring_p demo_produced.1.2 (demo_entry <$> [1; 2])) as H1.
  { destruct demo_produced as [[rp g] n] eqn:E.
    destruct (produce_completions_fifo 2 demo_ring_p demo_ring_p demo_region [] (demo_entry <$> [1; 2]) rp g n
      Hcap demo_cq_empty ltac:(apply demo_entries_ok; by repeat constructor) ltac:(by vm_compute) E) as [-> Hq].
    exact Hq. }
  assert (cq_holds 2 demo_produced.1.1 demo_polled.1.1.1 demo_polled.1.1.2 [demo_entry 2]) as H2.
  { destruct demo_polled as [[[rc g] w] n] eqn:E.
    apply (poll_cq_fifo 2 demo_produced.1.1 demo_ring_p demo_produced.1.2 _ 1 rc g w n Hcap H1 ltac:(by vm_compute) E). }
  assert (cq_holds 2 demo_wrapped.1.1 demo_polled.1.1.1 demo_wrapped.1.2 (demo_entry <$> [2; 3])) as H3.
  { destruct demo_wrapped as [[rp g] n] eqn:E.
    destruct (produce_completions_fifo 2 _ _ _ _ (demo_entry <$> [3]) rp g n
      Hcap H2 ltac:(apply demo_entries_ok; by repeat constructor) ltac:(by vm_compute) E) as [-> Hq].
    exact Hq. }
  revert H3. generalize demo_polled.1.1.1 demo_wrapped.1.1 demo_wrapped.1.2.
  intros rc0 rp g0 H3. destruct (poll_cq true rc0 g0 5) as [[[rc g] w] n] eqn:E.
  destruct (poll_cq_fifo 2 _ _ _ _ 5 rc g w n Hcap H3 ltac:(by vm_compute) E) as (-> & -> & Hq).
  exists rc, g. by split.
Defined.

End CompletionQueue.
