(* ===== verification/LocalTransport.v ===== *)
(** Datagrams and the bounded in-process transport (src/worker/local_transport.hpp,
    local_transport.cpp), and the interface of copy backends
    (src/worker/copy_backend.hpp). *)

From S2P Require Import Prelude.

Module Transport.

Inductive DatagramOpcode : Set := rdma_write | rdma_write_with_immediate.
#[export] Instance DatagramOpcode_eq_dec : EqDecision DatagramOpcode.
Proof. solve_decision. Defined.

Inductive DatagramResult : Set :=
| success | rnr | remote_invalid_request | remote_access_error | remote_operation_error
| backend_error.
#[export] Instance DatagramResult_eq_dec : EqDecision DatagramResult.
Proof. solve_decision. Defined.

Record RequestDatagram := mkRequestDatagram {
  parent_request_id : Z; source_qp_num : Z; target_qp_num : Z; opcode : DatagramOpcode;
  remote_address : Z; rkey : Z; immediate_data : Z; parent_total_length : Z; payload_offset : Z;
  source_daemon_address : Z; payload_length : Z; payload_index : Z; payload_count : Z;
}.
#[export] Instance RequestDatagram_eq_dec : EqDecision RequestDatagram.
Proof. solve_decision. Defined.

Record ResponseDatagram := mkResponseDatagram {
  response_parent : Z; response_result : DatagramResult; rnr_delay : Z;
}.
#[export] Instance ResponseDatagram_eq_dec : EqDecision ResponseDatagram.
Proof. solve_decision. Defined.

Record LocalTransport := mkTransport {
  request_capacity_ : Z;
  response_capacity_ : Z;
  requests_ : list RequestDatagram;
  responses_ : list ResponseDatagram;
}.

(** A queue is the list of its elements, front first. *)
Definition try_push {A} (queue : list A) (cap : Z) (value : A) : list A * bool :=
  if cap <=? Z.of_nat (length queue) then (queue, false) else (queue ++ [value], true).

Definition try_pop {A} (queue : list A) : list A * option A :=
  match queue with [] => ([], None) | value :: rest => (rest, Some value) end.

Definition new_transport (request_capacity response_capacity : Z) : LocalTransport :=
  mkTransport request_capacity response_capacity [] [].

Definition try_push_request (t : LocalTransport) (r : RequestDatagram) : LocalTransport * bool :=
  let '(q, ok) := try_push (requests_ t) (request_capacity_ t) r in
  (mkTransport (request_capacity_ t) (response_capacity_ t) q (responses_ t), ok).

Definition try_pop_request (t : LocalTransport) : LocalTransport * option RequestDatagram :=
  let '(q, r) := try_pop (requests_ t) in
  (mkTransport (request_capacity_ t) (response_capacity_ t) q (responses_ t), r).

Definition try_push_response (t : LocalTransport) (r : ResponseDatagram) : LocalTransport * bool :=
  let '(q, ok) := try_push (responses_ t) (response_capacity_ t) r in
  (mkTransport (request_capacity_ t) (response_capacity_ t) (requests_ t) q, ok).

Definition try_pop_response (t : LocalTransport) : LocalTransport * option ResponseDatagram :=
  let '(q, r) := try_pop (responses_ t) in
  (mkTransport (request_capacity_ t) (response_capacity_ t) (requests_ t) q, r).

(** * Copy backends *)

Record BackendRequest := mkBackendRequest {
  br_parent : Z; br_total_length : Z; br_offset : Z; br_source : Z; br_target : Z; br_length : Z;
  br_index : Z; br_count : Z;
}.
Record BackendCompletion := mkBackendCompletion {
  bc_parent : Z; bc_index : Z; bc_result : DatagramResult;
}.

(** The virtual methods of [CopyBackend], on the backend's state. *)
Class CopyBackend (B : Type) := {
  try_submit : B → BackendRequest → B * bool;
  try_submit_batch : B → list BackendRequest → B * nat;
  flush_submissions : B → B * bool;
  try_pop_completion : B → B * option BackendCompletion;
  try_pop_completion_batch : B → nat → B * list BackendCompletion;
}.

(** The default implementations of the batch methods. *)
Section Defaults.
Context {B : Type} (submit : B → BackendRequest → B * bool) (pop : B → B * option BackendCompletion).

Fixpoint default_submit_batch (b : B) (requests : list BackendRequest) : B * nat :=
  match requests with
  | [] => (b, O)
  | r :: requests =>
      match submit b r with
      | (b, true) => let '(b, n) := default_submit_batch b requests in (b, S n)
      | (b, false) => (b, O)
      end
  end.

Fixpoint default_pop_batch (b : B) (completion_capacity : nat) : B * list BackendCompletion :=
  match completion_capacity with
  | O => (b, [])
  | S n =>
      match pop b with
      | (b, Some c) => let '(b, l) := default_pop_batch b n in (b, c :: l)
      | (b, None) => (b, [])
      end
  end.
End Defaults.

(** What the worker relies on: a batch accepts at most what it is given, and yields
    at most what fits. *)
Class CopyBackendLaws (B : Type) `{CopyBackend B} := {
  submit_batch_bound : ∀ b l, ((try_submit_batch b l).2 <= length l)%nat;
  pop_batch_bound : ∀ b n, (length (try_pop_completion_batch b n).2 <= n)%nat;
}.

Lemma default_submit_bound {B} (submit : B → BackendRequest → B * bool) b l :
  ((default_submit_batch submit b l).2 <= length l)%nat.
Proof.
  revert b. induction l as [|r l IH]; intros b; simpl; [lia|].
  destruct (submit b r) as [b' []]; simpl; [|lia]. specialize (IH b').
  destruct (default_submit_batch submit b' l). simpl in *. lia.
Qed.

Lemma default_pop_bound {B} (pop : B → B * option BackendCompletion) b n :
  (length (default_pop_batch pop b n).2 <= n)%nat.
Proof.
  revert b. induction n as [|n IH]; intros b; simpl; [lia|].
  destruct (pop b) as [b' [c|]]; simpl; [|lia]. specialize (IH b').
  destruct (default_pop_batch pop b' n). simpl in *. lia.
Qed.

(** Instances for a backend that implements only the two primitive methods. *)
Definition simple_backend {B} (submit : B → BackendRequest → B * bool)
    (pop : B → B * option BackendCompletion) : CopyBackend B := {|
  try_submit := submit;
  try_submit_batch := default_submit_batch submit;
  flush_submissions b := (b, true);
  try_pop_completion := pop;
  try_pop_completion_batch := default_pop_batch pop;
|}.

Lemma simple_backend_laws {B} submit pop :
  @CopyBackendLaws B (simple_backend submit pop).
Proof. split; intros; [apply default_submit_bound|apply default_pop_bound]. Qed.

(** * Lemmas *)

Lemma try_push_spec {A} (q : list A) cap v q' ok :
  try_push q cap v = (q', ok) →
  q' = (if ok then q ++ [v] else q) ∧ (ok = true ↔ Z.of_nat (length q) < cap).
Proof.
  unfold try_push. destruct (_ <=? _) eqn:E; intros [= <- <-]; bool_hyps; (split; [done|]).
  - split; [done|lia].
  - split; [lia|done].
Qed.

End Transport.
