(* ===== verification/Worker.v ===== *)
(** The loop worker (src/worker/worker.hpp, worker.cpp): the requester cuts posted
    writes into payload datagrams, the responder validates them, hands copies to the
    backend and answers each write once, in order.

    Rings live in a store indexed by the ring objects of [WorkerQpView], since the
    send and receive completion queues of a queue pair may be the same object.  The
    key lookups of [QpService] are the class [KeyResolver]; the backend is the class
    [CopyBackend]. *)

From S2P Require Import Prelude SharedRing RingSpsc Descriptors CompletionQueue LocalTransport.
Import Ring Spsc CompletionQueue Transport.

(** [QpService::resolve_lkey] and [resolve_rkey]: session, protection domain, key,
    address and length to a daemon address. *)
Class KeyResolver := {
  resolve_lkey : Z → Z → Z → Z → Z → result Z;
  resolve_rkey : Z → Z → Z → Z → Z → result Z;
}.

Module Worker.

(** * Constants of the API (include/ugdr/api.hpp) *)

Definition UGDR_WR_RDMA_WRITE : Z := 0.
Definition UGDR_WR_RDMA_WRITE_WITH_IMM : Z := 1.
Definition UGDR_SEND_SIGNALED : Z := 2.
Definition UGDR_WC_SUCCESS : Z := 0.
Definition UGDR_WC_LOC_LEN_ERR : Z := 1.
Definition UGDR_WC_LOC_QP_OP_ERR : Z := 2.
Definition UGDR_WC_LOC_PROT_ERR : Z := 4.
Definition UGDR_WC_REM_INV_REQ_ERR : Z := 9.
Definition UGDR_WC_REM_ACCESS_ERR : Z := 10.
Definition UGDR_WC_REM_OP_ERR : Z := 11.
Definition UGDR_WC_RNR_RETRY_EXC_ERR : Z := 13.
Definition UGDR_WC_GENERAL_ERR : Z := 21.
Definition UGDR_WC_RDMA_WRITE : Z := 1.
Definition UGDR_WC_RECV_RDMA_WITH_IMM : Z := 129.
Definition UGDR_WC_WITH_IMM : Z := 2.

(** * State *)

Definition kDefaultPayloadBytes : Z := 8192.
Definition kBackendBatchCapacity : nat := 64.

(** [control::WorkerQpView]; the four ring pointers are keys of the ring store. *)
Record WorkerQpView := mkView {
  session_id : Z; pd_identity : Z; qp_num : Z; peer_qp_num : Z; max_send_sge : Z; max_recv_sge : Z;
  sq_sig_all : Z;
  send_queue : Z; receive_queue : Z; send_cq : Z; receive_cq : Z;
}.

Record ParentCompletionEvent := mkParentCompletion {
  pce_parent : Z; pce_wr_id : Z; pce_bytes : Z; pce_count : Z; pce_result : DatagramResult;
}.

Inductive LoopWorkerRole := requester | responder.

Record SourceSegment := mkSegment { daemon_address : Z; segment_length : Z }.

Record RequesterInflight := mkRequester {
  rq_wr_id : Z; rq_signaled : bool; rq_logical_bytes : Z; rq_payload_count : Z;
}.

Record PendingSend := mkPendingSend {
  ps_parent : Z; ps_wr_id : Z; ps_signaled : bool; ps_opcode : DatagramOpcode; ps_source_qp : Z;
  ps_target_qp : Z; ps_remote_address : Z; ps_rkey : Z; ps_immediate : Z; ps_total_length : Z;
  ps_payload_count : Z; ps_segments : list SourceSegment;
  ps_segment_index : Z; ps_segment_offset : Z; ps_payload_offset : Z; ps_payload_index : Z;
  ps_zero_sent : bool;
}.

Record ResponderInflight := mkResponder {
  rp_source_qp : Z; rp_target_qp : Z; rp_opcode : DatagramOpcode; rp_remote_address : Z; rp_rkey : Z;
  rp_immediate : Z; rp_total_length : Z; rp_target_address : Z; rp_next_offset : Z;
  rp_next_index : Z; rp_payload_count : Z; rp_terminal_count : Z; rp_terminal : list bool;
  rp_results : list DatagramResult; rp_error : DatagramResult; rp_has_receive : bool;
  rp_receive_consumed : bool; rp_receive_wr_id : Z; rp_byte_length : Z;
}.

Record LoopWorker := mkWorker {
  qp_num_ : Z; role_ : LoopWorkerRole; payload_bytes_ : Z; observer_ : bool; next_sequence_ : Z;
  requester_inflight_ : gmap Z RequesterInflight;
  responder_inflight_ : gmap Z ResponderInflight;
  responder_order_ : list Z;
  pending_send_ : option PendingSend;
  pending_request_ : option RequestDatagram;
  pending_response_ : option ResponseDatagram;
  pending_backend_ : list BackendRequest;   (* the first [count] entries of the array *)
}.

(** ** Assignments to members *)

Definition with_sequence (w : LoopWorker) (n : Z) : LoopWorker :=
  mkWorker (qp_num_ w) (role_ w) (payload_bytes_ w) (observer_ w) n (requester_inflight_ w)
    (responder_inflight_ w) (responder_order_ w) (pending_send_ w) (pending_request_ w)
    (pending_response_ w) (pending_backend_ w).
Definition with_requesters (w : LoopWorker) (m : gmap Z RequesterInflight) : LoopWorker :=
  mkWorker (qp_num_ w) (role_ w) (payload_bytes_ w) (observer_ w) (next_sequence_ w) m
    (responder_inflight_ w) (responder_order_ w) (pending_send_ w) (pending_request_ w)
    (pending_response_ w) (pending_backend_ w).
Definition with_responders (w : LoopWorker) (m : gmap Z ResponderInflight) : LoopWorker :=
  mkWorker (qp_num_ w) (role_ w) (payload_bytes_ w) (observer_ w) (next_sequence_ w)
    (requester_inflight_ w) m (responder_order_ w) (pending_send_ w) (pending_request_ w)
    (pending_response_ w) (pending_backend_ w).
Definition with_order (w : LoopWorker) (l : list Z) : LoopWorker :=
  mkWorker (qp_num_ w) (role_ w) (payload_bytes_ w) (observer_ w) (next_sequence_ w)
    (requester_inflight_ w) (responder_inflight_ w) l (pending_send_ w) (pending_request_ w)
    (pending_response_ w) (pending_backend_ w).
Definition with_pending_send (w : LoopWorker) (p : option PendingSend) : LoopWorker :=
  mkWorker (qp_num_ w) (role_ w) (payload_bytes_ w) (observer_ w) (next_sequence_ w)
    (requester_inflight_ w) (responder_inflight_ w) (responder_order_ w) p (pending_request_ w)
    (pending_response_ w) (pending_backend_ w).
Definition with_pending_request (w : LoopWorker) (p : option RequestDatagram) : LoopWorker :=
  mkWorker (qp_num_ w) (role_ w) (payload_bytes_ w) (observer_ w) (next_sequence_ w)
    (requester_inflight_ w) (responder_inflight_ w) (responder_order_ w) (pending_send_ w) p
    (pending_response_ w) (pending_backend_ w).
Definition with_pending_response (w : LoopWorker) (p : option ResponseDatagram) : LoopWorker :=
  mkWorker (qp_num_ w) (role_ w) (payload_bytes_ w) (observer_ w) (next_sequence_ w)
    (requester_inflight_ w) (responder_inflight_ w) (responder_order_ w) (pending_send_ w)
    (pending_request_ w) p (pending_backend_ w).
Definition with_pending_backend (w : LoopWorker) (l : list BackendRequest) : LoopWorker :=
  mkWorker (qp_num_ w) (role_ w) (payload_bytes_ w) (observer_ w) (next_sequence_ w)
    (requester_inflight_ w) (responder_inflight_ w) (responder_order_ w) (pending_send_ w)
    (pending_request_ w) (pending_response_ w) l.

(** The constructor. *)
Definition new_worker (qp : Z) (role : LoopWorkerRole) (payload_bytes : Z) (observer : bool)
  : LoopWorker :=
  mkWorker qp role
    (if payload_bytes =? 0 then kDefaultPayloadBytes else Z.min payload_bytes U32_MAX)
    observer 1 ∅ ∅ [] None None None [].

(** * Rings *)

Record Cell := mkCell { cell_ring : SharedRing; cell_region : Region }.
Definition empty_cell : Cell := mkCell no_ring (mkRegion 0 0 []).
Definition Rings := gmap Z Cell.

Definition ring_at (rings : Rings) (id : Z) : Cell := default empty_cell (rings !! id).

(** [view.queue->consumer_peek(&slot)]: the slot's bytes. *)
Definition peek_slot (rings : Rings) (id : Z) : Rings * result (list byte) :=
  let c := ring_at rings id in
  match region_peek (cell_ring c) (cell_region c) 1 with
  | (r, Ok batch) =>
      (<[id := mkCell r (cell_region c)]> rings,
       Ok (default [] (j ← data (first batch); slot_get (slots (cell_region c)) j)))
  | (r, Err e) => (<[id := mkCell r (cell_region c)]> rings, Err e)
  end.

Definition release_slots (rings : Rings) (id n : Z) : Rings * Z :=
  let c := ring_at rings id in
  let '(r, g, status) := region_release (cell_ring c) (cell_region c) n in
  (<[id := mkCell r g]> rings, status).

(** [view.cq->producer_reserve(&slot)]: the reserved slot's index. *)
Definition reserve_slot (rings : Rings) (id : Z) : Rings * result Z :=
  let c := ring_at rings id in
  let '(r, b) := region_reserve (cell_ring c) (cell_region c) 1 in
  (<[id := mkCell r (cell_region c)]> rings, (λ b, default 0 (data (first b))) <$> b).

Definition publish_slots (rings : Rings) (id n : Z) : Rings * Z :=
  let c := ring_at rings id in
  let '(r, g, status) := region_publish (cell_ring c) (cell_region c) n in
  (<[id := mkCell r g]> rings, status).

Definition write_slot (rings : Rings) (id j : Z) (e : Descriptors.CompletionEntry) : Rings :=
  let c := ring_at rings id in
  <[id := mkCell (cell_ring c) (write_completion (cell_region c) j e)]> rings.

Definition produce (rings : Rings) (id : Z) (entries : list Descriptors.CompletionEntry)
  : Rings * Z :=
  let c := ring_at rings id in
  let '(r, g, n) := produce_completions (cell_ring c) (cell_region c) entries in
  (<[id := mkCell r g]> rings, n).

(** * Completions *)

Definition completion_status (r : DatagramResult) : Z :=
  match r with
  | success => UGDR_WC_SUCCESS
  | rnr => UGDR_WC_RNR_RETRY_EXC_ERR
  | remote_invalid_request => UGDR_WC_REM_INV_REQ_ERR
  | remote_access_error => UGDR_WC_REM_ACCESS_ERR
  | remote_operation_error => UGDR_WC_REM_OP_ERR
  | backend_error => UGDR_WC_GENERAL_ERR
  end.

Definition send_completion (wr_id qp : Z) (r : DatagramResult) : Descriptors.CompletionEntry :=
  Descriptors.mkCompletion wr_id (completion_status r) UGDR_WC_RDMA_WRITE 0 0 qp 0.

Definition receive_completion (p : ResponderInflight) (qp : Z) : Descriptors.CompletionEntry :=
  Descriptors.mkCompletion (rp_receive_wr_id p) UGDR_WC_SUCCESS UGDR_WC_RECV_RDMA_WITH_IMM
    (rp_byte_length p) (rp_immediate p) qp UGDR_WC_WITH_IMM.

(** * The responder *)

Definition with_error (p : ResponderInflight) (e : DatagramResult) : ResponderInflight :=
  mkResponder (rp_source_qp p) (rp_target_qp p) (rp_opcode p) (rp_remote_address p) (rp_rkey p)
    (rp_immediate p) (rp_total_length p) (rp_target_address p) (rp_next_offset p) (rp_next_index p)
    (rp_payload_count p) (rp_terminal_count p) (rp_terminal p) (rp_results p) e (rp_has_receive p)
    (rp_receive_consumed p) (rp_receive_wr_id p) (rp_byte_length p).
Definition with_terminal (p : ResponderInflight) (i : nat) (r : DatagramResult) : ResponderInflight :=
  mkResponder (rp_source_qp p) (rp_target_qp p) (rp_opcode p) (rp_remote_address p) (rp_rkey p)
    (rp_immediate p) (rp_total_length p) (rp_target_address p) (rp_next_offset p) (rp_next_index p)
    (rp_payload_count p) (u32 (rp_terminal_count p + 1)) (<[i := true]> (rp_terminal p))
    (<[i := r]> (rp_results p)) (rp_error p) (rp_has_receive p) (rp_receive_consumed p)
    (rp_receive_wr_id p) (rp_byte_length p).
Definition with_consumed (p : ResponderInflight) : ResponderInflight :=
  mkResponder (rp_source_qp p) (rp_target_qp p) (rp_opcode p) (rp_remote_address p) (rp_rkey p)
    (rp_immediate p) (rp_total_length p) (rp_target_address p) (rp_next_offset p) (rp_next_index p)
    (rp_payload_count p) (rp_terminal_count p) (rp_terminal p) (rp_results p) (rp_error p)
    (rp_has_receive p) true (rp_receive_wr_id p) (rp_byte_length p).
Definition with_next (p : ResponderInflight) (offset index : Z) : ResponderInflight :=
  mkResponder (rp_source_qp p) (rp_target_qp p) (rp_opcode p) (rp_remote_address p) (rp_rkey p)
    (rp_immediate p) (rp_total_length p) (rp_target_address p) offset index
    (rp_payload_count p) (rp_terminal_count p) (rp_terminal p) (rp_results p) (rp_error p)
    (rp_has_receive p) (rp_receive_consumed p) (rp_receive_wr_id p) (rp_byte_length p).

(** The body of the loop over backend completions. *)
Definition apply_completion (m : gmap Z ResponderInflight) (c : BackendCompletion)
  : gmap Z ResponderInflight :=
  match m !! bc_parent c with
  | None => m
  | Some parent =>
      let i := Z.to_nat (bc_index c) in
      if (rp_payload_count parent <=? bc_index c) || default false (rp_terminal parent !! i)
      then <[bc_parent c := with_error parent backend_error]> m
      else <[bc_parent c := with_terminal parent i (bc_result c)]> m
  end.

Section Backend.
Context {B : Type} `{CopyBackend B}.

Definition try_backend_completions (w : LoopWorker) (b : B) : LoopWorker * B * bool :=
  let '(b, completions) := try_pop_completion_batch b kBackendBatchCapacity in
  if decide (completions = []) then (w, b, false)
  else (with_responders w (foldl apply_completion (responder_inflight_ w) completions), b, true).

Definition try_flush_backend_requests (w : LoopWorker) (b : B) : LoopWorker * B * bool :=
  if decide (pending_backend_ w = []) then (w, b, false)
  else
    let '(b, accepted) := try_submit_batch b (pending_backend_ w) in
    if (accepted =? 0)%nat || (length (pending_backend_ w) <? accepted)%nat then (w, b, false)
    else
      let w := with_pending_backend w (drop accepted (pending_backend_ w)) in
      let '(b, _) := flush_submissions b in
      (w, b, true).

End Backend.

(** The result of a finished parent: its error, or its first failed payload. *)
Definition parent_result (p : ResponderInflight) : DatagramResult :=
  if decide (rp_error p = success)
  then default success (hd_error (filter (λ r, r ≠ success) (rp_results p)))
  else rp_error p.

Definition try_parent_response (w : LoopWorker) (t : LocalTransport) (rings : Rings)
    (view : WorkerQpView) : LoopWorker * LocalTransport * Rings * bool :=
  match responder_order_ w with
  | [] => (w, t, rings, false)
  | id :: order =>
      match responder_inflight_ w !! id with
      | None => (with_order w order, t, rings, true)
      | Some parent =>
          if negb (rp_next_index parent =? rp_payload_count parent)
             || negb (rp_terminal_count parent =? rp_payload_count parent)
          then (w, t, rings, false)
          else
            let result := parent_result parent in
            let produce_receive := bool_decide (result = success) && rp_has_receive parent in
            let '(rings, reserved) :=
              if produce_receive then reserve_slot rings (receive_cq view) else (rings, Ok 0) in
            match reserved with
            | Err _ => (w, t, rings, false)
            | Ok slot =>
                match try_push_response t (mkResponseDatagram id result 0) with
                | (t, false) =>
                    (w, t, if produce_receive then (publish_slots rings (receive_cq view) 0).1 else rings,
                     false)
                | (t, true) =>
                    let '(rings, status) :=
                      if produce_receive
                      then publish_slots
                             (write_slot rings (receive_cq view) slot
                                (receive_completion parent (qp_num view)))
                             (receive_cq view) 1
                      else (rings, 0) in
                    if negb (status =? 0) then (w, t, rings, false)
                    else (with_order (with_responders w (delete id (responder_inflight_ w))) order,
                          t, rings, true)
                end
            end
      end
  end.

Section Requests.
Context `{KeyResolver}.

(** Answering the pending request with an error; [loaded] when there is no room. *)
Definition reject_request (w : LoopWorker) (t : LocalTransport) (rings : Rings) (id : Z)
    (result : DatagramResult) (loaded : bool) : LoopWorker * LocalTransport * Rings * bool :=
  match try_push_response t (mkResponseDatagram id result 0) with
  | (t, false) => (w, t, rings, loaded)
  | (t, true) => (with_pending_request w None, t, rings, true)
  end.

Definition valid_first (r : RequestDatagram) : bool :=
  (payload_index r =? 0) && (payload_offset r =? 0) &&
  ((payload_count r =? 0) && (parent_total_length r =? 0) && (payload_length r =? 0) ||
   negb (payload_count r =? 0) && negb (parent_total_length r =? 0) && negb (payload_length r =? 0) &&
   (payload_length r <=? parent_total_length r) && (payload_count r <=? parent_total_length r)).

Definition new_parent (r : RequestDatagram) (target : Z) (recv : option Z) : ResponderInflight :=
  mkResponder (source_qp_num r) (target_qp_num r) (opcode r) (remote_address r) (rkey r)
    (immediate_data r) (parent_total_length r) target 0 0 (payload_count r) 0
    (replicate (Z.to_nat (payload_count r)) false)
    (replicate (Z.to_nat (payload_count r)) success) success
    (match recv with Some _ => true | None => false end) false (default 0 recv)
    (u32 (parent_total_length r)).

Definition valid_payload (p : ResponderInflight) (r : RequestDatagram) : bool :=
  let zero_parent := rp_payload_count p =? 0 in
  (source_qp_num r =? rp_source_qp p) && (target_qp_num r =? rp_target_qp p) &&
  bool_decide (opcode r = rp_opcode p) && (remote_address r =? rp_remote_address p) &&
  (rkey r =? rp_rkey p) && (immediate_data r =? rp_immediate p) &&
  (parent_total_length r =? rp_total_length p) && (payload_count r =? rp_payload_count p) &&
  (zero_parent && (payload_index r =? 0) && (payload_offset r =? 0) && (payload_length r =? 0) ||
   negb zero_parent && (payload_index r =? rp_next_index p) &&
   (payload_index r <? rp_payload_count p) && (payload_offset r =? rp_next_offset p) &&
   negb (payload_length r =? 0) && (payload_offset r <=? rp_total_length p) &&
   (payload_length r <=? u64 (rp_total_length p - payload_offset r))).

Definition backend_request (r : RequestDatagram) (p : ResponderInflight) : BackendRequest :=
  mkBackendRequest (parent_request_id r) (parent_total_length r) (payload_offset r)
    (source_daemon_address r) (u64 (rp_target_address p + payload_offset r)) (payload_length r)
    (payload_index r) (payload_count r).

(** The part of [try_request] from [ResponderInflight &parent = inflight->second]. *)
Definition accept_payload (w : LoopWorker) (t : LocalTransport) (rings : Rings) (view : WorkerQpView)
    (r : RequestDatagram) (p : ResponderInflight) (loaded : bool)
  : LoopWorker * LocalTransport * Rings * bool :=
  let id := parent_request_id r in
  let set w p := with_responders w (<[id := p]> (responder_inflight_ w)) in
  if negb (valid_payload p r) then (set w (with_error p remote_invalid_request), t, rings, loaded)
  else
    let release := rp_has_receive p && negb (rp_receive_consumed p) in
    if rp_payload_count p =? 0 then
      let '(rings, status) := if release then release_slots rings (receive_queue view) 1 else (rings, 0) in
      if negb (status =? 0) then (w, t, rings, false)
      else (with_pending_request (if release then set w (with_consumed p) else w) None, t, rings, true)
    else if (length (pending_backend_ w) =? kBackendBatchCapacity)%nat then (w, t, rings, loaded)
    else
      let '(rings, status) := if release then release_slots rings (receive_queue view) 1 else (rings, 0) in
      if negb (status =? 0) then (w, t, rings, loaded)
      else
        let w := with_pending_backend w (pending_backend_ w ++ [backend_request r p]) in
        let p := if release then with_consumed p else p in
        let p := with_next p (u64 (rp_next_offset p + payload_length r)) (u32 (rp_next_index p + 1)) in
        let p := if (rp_next_index p =? rp_payload_count p)
                    && negb (rp_next_offset p =? rp_total_length p)
                 then with_error p remote_invalid_request else p in
        (with_pending_request (set w p) None, t, rings, true).

(** Handling the request that is pending. *)
Definition handle_request (w : LoopWorker) (t : LocalTransport) (rings : Rings) (view : WorkerQpView)
    (r : RequestDatagram) (loaded : bool) : LoopWorker * LocalTransport * Rings * bool :=
  let id := parent_request_id r in
  if negb (target_qp_num r =? qp_num view) || (U32_MAX <? parent_total_length r)
  then reject_request w t rings id remote_invalid_request loaded
  else match responder_inflight_ w !! id with
  | Some p => accept_payload w t rings view r p loaded
  | None =>
      if negb (valid_first r) then reject_request w t rings id remote_invalid_request loaded
      else match resolve_rkey (session_id view) (pd_identity view) (rkey r) (remote_address r)
                   (parent_total_length r) with
      | Err _ => reject_request w t rings id remote_access_error loaded
      | Ok target =>
          let '(rings, recv) :=
            if decide (opcode r = rdma_write_with_immediate)
            then let '(rings, s) := peek_slot rings (receive_queue view) in
                 (rings, (λ s, Some (Descriptors.receive_wr_id (Descriptors.load_receive_header s))) <$> s)
            else (rings, Ok None) in
          match recv with
          | Err _ => (w, t, rings, loaded)
          | Ok recv =>
              let p := new_parent r target recv in
              let w := with_order (with_responders w (<[id := p]> (responder_inflight_ w)))
                         (responder_order_ w ++ [id]) in
              accept_payload w t rings view r p loaded
          end
      end
  end.

Definition try_request (w : LoopWorker) (t : LocalTransport) (rings : Rings) (view : WorkerQpView)
  : LoopWorker * LocalTransport * Rings * bool :=
  match pending_request_ w with
  | Some r => handle_request w t rings view r false
  | None =>
      match try_pop_request t with
      | (t, None) => (w, t, rings, false)
      | (t, Some r) => handle_request (with_pending_request w (Some r)) t rings view r true
      end
  end.

End Requests.

(** * The requester *)

Definition handle_response (w : LoopWorker) (rings : Rings) (view : WorkerQpView)
    (response : ResponseDatagram) (loaded : bool)
  : LoopWorker * Rings * list ParentCompletionEvent * bool :=
  let id := response_parent response in
  match requester_inflight_ w !! id with
  | None => (with_pending_response w None, rings, [], true)
  | Some inflight =>
      let needs_completion :=
        negb (bool_decide (response_result response = success)) || rq_signaled inflight in
      let '(rings, produced) :=
        if needs_completion
        then produce rings (send_cq view)
               [send_completion (rq_wr_id inflight) (qp_num view) (response_result response)]
        else (rings, 1) in
      if negb (produced =? 1) then (w, rings, [], loaded)
      else
        (with_pending_response (with_requesters w (delete id (requester_inflight_ w))) None, rings,
         if observer_ w
         then [mkParentCompletion id (rq_wr_id inflight) (rq_logical_bytes inflight)
                 (rq_payload_count inflight) (response_result response)]
         else [], true)
  end.

Definition try_response (w : LoopWorker) (t : LocalTransport) (rings : Rings) (view : WorkerQpView)
  : LoopWorker * LocalTransport * Rings * list ParentCompletionEvent * bool :=
  match pending_response_ w with
  | Some r => let '(w, rings, ev, b) := handle_response w rings view r false in (w, t, rings, ev, b)
  | None =>
      match try_pop_response t with
      | (t, None) => (w, t, rings, [], false)
      | (t, Some r) =>
          let '(w, rings, ev, b) :=
            handle_response (with_pending_response w (Some r)) rings view r true in
          (w, t, rings, ev, b)
      end
  end.

Definition next_request_id (w : LoopWorker) : Z :=
  Z.lor (Z.shiftl (qp_num_ w) 32) (next_sequence_ w).

Definition complete_send_error (rings : Rings) (view : WorkerQpView)
    (s : Descriptors.SendWqeHeader) (status : Z) : Rings * bool :=
  let entry := Descriptors.mkCompletion (Descriptors.send_wr_id s) status UGDR_WC_RDMA_WRITE 0 0
                 (qp_num view) 0 in
  let '(rings, n) := produce rings (send_cq view) [entry] in
  if negb (n =? 1) then ((release_slots rings (send_queue view) 0).1, false)
  else let '(rings, status) := release_slots rings (send_queue view) 1 in (rings, status =? 0).

Section Sends.
Context `{KeyResolver}.

(** The loop over the scatter list: total length, segments and payload count so
    far; an error status ends it. *)
Fixpoint scan_sges (view : WorkerQpView) (payload_bytes : Z) (sges : list Descriptors.SharedSge)
    (total : Z) (segments : list SourceSegment) (count : Z)
  : Z * list SourceSegment * Z + Z :=
  match sges with
  | [] => inl (total, segments, count)
  | s :: sges =>
      if U32_MAX - Descriptors.sge_length s <? total then inr UGDR_WC_LOC_LEN_ERR
      else match resolve_lkey (session_id view) (pd_identity view) (Descriptors.sge_lkey s)
                   (Descriptors.sge_address s) (Descriptors.sge_length s) with
      | Err _ => inr UGDR_WC_LOC_PROT_ERR
      | Ok address =>
          let total := u64 (total + Descriptors.sge_length s) in
          if Descriptors.sge_length s =? 0 then scan_sges view payload_bytes sges total segments count
          else scan_sges view payload_bytes sges total
                 (segments ++ [mkSegment address (Descriptors.sge_length s)])
                 (u64 (count + u64 (Descriptors.sge_length s + payload_bytes - 1) / payload_bytes))
      end
  end.

(** Taking a work request off the send queue: the new parent, or what the call
    returns when there is none or it is in error. *)
Definition load_send (w : LoopWorker) (rings : Rings) (view : WorkerQpView)
  : Rings * (LoopWorker * PendingSend + bool) :=
  match peek_slot rings (send_queue view) with
  | (rings, Err _) => (rings, inr false)
  | (rings, Ok slot) =>
      let s := Descriptors.load_send_header slot in
      let fail status := let '(rings, b) := complete_send_error rings view s status in (rings, inr b) in
      if max_send_sge view <? Descriptors.send_sge_count s then fail UGDR_WC_LOC_LEN_ERR
      else if negb (Descriptors.send_opcode s =? UGDR_WR_RDMA_WRITE)
              && negb (Descriptors.send_opcode s =? UGDR_WR_RDMA_WRITE_WITH_IMM)
      then fail UGDR_WC_LOC_QP_OP_ERR
      else
        let sges := Descriptors.load_sges slot 40 (Z.to_nat (Descriptors.send_sge_count s)) in
        match scan_sges view (payload_bytes_ w) sges 0 [] 0 with
        | inr status => fail status
        | inl (total, segments, count) =>
            if U32_MAX <? count then fail UGDR_WC_LOC_LEN_ERR
            else
              let id := next_request_id w in
              let signaled := negb (sq_sig_all view =? 0)
                              || negb (Z.land (Descriptors.send_flags s) UGDR_SEND_SIGNALED =? 0) in
              let p := mkPendingSend id (Descriptors.send_wr_id s) signaled
                         (if Descriptors.send_opcode s =? UGDR_WR_RDMA_WRITE then rdma_write
                          else rdma_write_with_immediate)
                         (qp_num view) (peer_qp_num view) (Descriptors.remote_address s)
                         (Descriptors.rkey s) (Descriptors.immediate_data s) total (u32 count) segments
                         0 0 0 0 false in
              match requester_inflight_ w !! id with
              | Some _ => (rings, inr false)
              | None =>
                  let w := with_requesters w
                             (<[id := mkRequester (ps_wr_id p) signaled total (u32 count)]>
                                (requester_inflight_ w)) in
                  (rings, inl (with_pending_send w (Some p), p))
              end
        end
  end.

(** The datagram for the parent's current position. *)
Definition next_datagram (payload_bytes : Z) (p : PendingSend) : RequestDatagram :=
  let seg := default (mkSegment 0 0) (ps_segments p !! Z.to_nat (ps_segment_index p)) in
  let d := mkRequestDatagram (ps_parent p) (ps_source_qp p) (ps_target_qp p) (ps_opcode p)
             (ps_remote_address p) (ps_rkey p) (ps_immediate p) (ps_total_length p) in
  if ps_total_length p =? 0 then d 0 0 0 0 (ps_payload_count p)
  else d (ps_payload_offset p) (u64 (daemon_address seg + ps_segment_offset p))
         (Z.min (u32 (segment_length seg - ps_segment_offset p)) payload_bytes) (ps_payload_index p)
         (ps_payload_count p).

(** The parent after its current datagram was pushed. *)
Definition advance_send (p : PendingSend) (pushed : Z) : PendingSend :=
  let mk := mkPendingSend (ps_parent p) (ps_wr_id p) (ps_signaled p) (ps_opcode p) (ps_source_qp p)
              (ps_target_qp p) (ps_remote_address p) (ps_rkey p) (ps_immediate p) (ps_total_length p)
              (ps_payload_count p) (ps_segments p) in
  if ps_total_length p =? 0
  then mk (ps_segment_index p) (ps_segment_offset p) (ps_payload_offset p) (ps_payload_index p) true
  else
    let seg := default (mkSegment 0 0) (ps_segments p !! Z.to_nat (ps_segment_index p)) in
    let offset := u32 (ps_segment_offset p + pushed) in
    let payload_offset := u64 (ps_payload_offset p + pushed) in
    let index := u32 (ps_payload_index p + 1) in
    if offset =? segment_length seg
    then mk (ps_segment_index p + 1) 0 payload_offset index (ps_zero_sent p)
    else mk (ps_segment_index p) offset payload_offset index (ps_zero_sent p).

Definition send_finished (p : PendingSend) : bool :=
  if ps_total_length p =? 0 then ps_zero_sent p else ps_payload_index p =? ps_payload_count p.

(** Pushing the next datagram of the pending send. *)
Definition push_payload (w : LoopWorker) (t : LocalTransport) (rings : Rings) (view : WorkerQpView)
    (p : PendingSend) : LoopWorker * LocalTransport * Rings * bool :=
  if (ps_total_length p =? 0) && ps_zero_sent p then (w, t, rings, false)
  else
    let request := next_datagram (payload_bytes_ w) p in
    match try_push_request t request with
    | (t, false) => (w, t, rings, false)
    | (t, true) =>
        let p := advance_send p (payload_length request) in
        let w := with_pending_send w (Some p) in
        if negb (send_finished p) then (w, t, rings, true)
        else
          let '(rings, status) := release_slots rings (send_queue view) 1 in
          if negb (status =? 0) then (w, t, rings, false)
          else
            let next := u32 (next_sequence_ w + 1) in
            (with_sequence (with_pending_send w None) (if next =? 0 then 1 else next), t, rings, true)
    end.

Definition try_send (w : LoopWorker) (t : LocalTransport) (rings : Rings) (view : WorkerQpView)
  : LoopWorker * LocalTransport * Rings * bool :=
  match pending_send_ w with
  | Some p => push_payload w t rings view p
  | None =>
      match load_send w rings view with
      | (rings, inr b) => (w, t, rings, b)
      | (rings, inl (w, p)) => push_payload w t rings view p
      end
  end.

End Sends.

(** * One round *)

(** [while (f()) progressed = true;] with fuel: [None] when it runs out. *)
Fixpoint while_true {A} (f : A → A * bool) (fuel : nat) (s : A) : option (A * bool) :=
  match fuel with
  | O => None
  | S fuel =>
      match f s with
      | (s, false) => Some (s, false)
      | (s, true) => '(s, _) ← while_true f fuel s; Some (s, true)
      end
  end.

Section Progress.
Context {B : Type} `{CopyBackend B} `{KeyResolver}.

Record World := mkWorld {
  worker : LoopWorker; transport : LocalTransport; rings : Rings; backend : B;
  observed : list ParentCompletionEvent;
}.

Definition step_backend (s : World) : World * bool :=
  let '(w, b, r) := try_backend_completions (worker s) (backend s) in
  (mkWorld w (transport s) (rings s) b (observed s), r).
Definition step_flush (s : World) : World * bool :=
  let '(w, b, r) := try_flush_backend_requests (worker s) (backend s) in
  (mkWorld w (transport s) (rings s) b (observed s), r).
Definition step_parent (view : WorkerQpView) (s : World) : World * bool :=
  let '(w, t, g, r) := try_parent_response (worker s) (transport s) (rings s) view in
  (mkWorld w t g (backend s) (observed s), r).
Definition step_request (view : WorkerQpView) (s : World) : World * bool :=
  let '(w, t, g, r) := try_request (worker s) (transport s) (rings s) view in
  (mkWorld w t g (backend s) (observed s), r).
Definition step_response (view : WorkerQpView) (s : World) : World * bool :=
  let '(w, t, g, ev, r) := try_response (worker s) (transport s) (rings s) view in
  (mkWorld w t g (backend s) (observed s ++ ev), r).
Definition step_send (view : WorkerQpView) (s : World) : World * bool :=
  let '(w, t, g, r) := try_send (worker s) (transport s) (rings s) view in
  (mkWorld w t g (backend s) (observed s), r).

(** [progress_once], with the view [worker_qp_view] returns. *)
Definition progress_once (fuel : nat) (view : result WorkerQpView) (s : World)
  : option (World * bool) :=
  match view with
  | Err _ => Some (s, false)
  | Ok view =>
      match role_ (worker s) with
      | responder =>
          '(s, p1) ← while_true step_backend fuel s;
          '(s, p2) ← while_true (step_parent view) fuel s;
          let '(s, p3) := step_flush s in
          '(s, p4) ← (if decide (pending_backend_ (worker s) = []) then
                        '(s, p4) ← while_true (step_request view) fuel s;
                        let '(s, p5) := step_flush s in
                        Some (s, p4 || p5)
                      else Some (s, false));
          '(s, p6) ← while_true step_backend fuel s;
          '(s, p7) ← while_true (step_parent view) fuel s;
          Some (s, p1 || p2 || p3 || p4 || p6 || p7)
      | requester =>
          '(s, p1) ← while_true (step_response view) fuel s;
          '(s, p2) ← while_true (step_send view) fuel s;
          Some (s, p1 || p2)
      end
  end.

End Progress.
Arguments World B : clear implicits.

End Worker.
