(* ===== verification/WorkerStream.v ===== *)
(** The stream of payload datagrams between the two workers of a connection
    (src/worker/worker.cpp, [try_send] and [try_request]): the requester cuts a
    write into datagrams that cover it exactly, and the responder accepts such a
    stream and hands the backend the matching copies. *)

From S2P Require Import Prelude SharedRing RingSpsc Descriptors CompletionQueue LocalTransport.
From S2P Require Import Worker.
Import Ring Spsc CompletionQueue Transport Worker.

(** What the worker relies on from the control plane: a resolved range does not wrap
    around the address space. *)
Class KeyResolverLaws `{KeyResolver} := {
  lkey_range : ∀ session pd key address len a, 0 <= len →
    resolve_lkey session pd key address len = Ok a → 0 <= a ∧ a + len <= U64_MAX;
  rkey_range : ∀ session pd key address len a, 0 <= len →
    resolve_rkey session pd key address len = Ok a → 0 <= a ∧ a + len <= U64_MAX;
}.

Module Stream.

Lemma ring_at_insert (rings : Rings) id c : ring_at (<[id := c]> rings) id = c.
Proof. unfold ring_at, Rings in *. by rewrite lookup_insert_eq. Qed.

(** * The requester's side *)

(** Pushing [n] datagrams, whatever the transport does in between. *)
Fixpoint emit (payload_bytes : Z) (n : nat) (p : PendingSend) : list RequestDatagram * PendingSend :=
  match n with
  | O => ([], p)
  | S n =>
      let d := next_datagram payload_bytes p in
      let '(ds, p) := emit payload_bytes n (advance_send p (payload_length d)) in
      (d :: ds, p)
  end.

(** The source addresses of the bytes of segments and of a datagram, in order. *)
Definition segment_bytes (l : list SourceSegment) : list Z :=
  concat ((λ s, seqZ (daemon_address s) (segment_length s)) <$> l).
Definition source_bytes (d : RequestDatagram) : list Z :=
  seqZ (source_daemon_address d) (payload_length d).

(** Datagrams numbered from [index] and placed from [offset] on without gaps. *)
Fixpoint numbered (payload_bytes index offset : Z) (ds : list RequestDatagram) : Prop :=
  match ds with
  | [] => True
  | d :: ds =>
      payload_index d = index ∧ payload_offset d = offset ∧
      0 < payload_length d <= payload_bytes ∧
      numbered payload_bytes (index + 1) (offset + payload_length d) ds
  end.

(** The fields that every datagram of a parent repeats. *)
Definition carries (p : PendingSend) (d : RequestDatagram) : Prop :=
  parent_request_id d = ps_parent p ∧ source_qp_num d = ps_source_qp p ∧
  target_qp_num d = ps_target_qp p ∧ opcode d = ps_opcode p ∧
  remote_address d = ps_remote_address p ∧ rkey d = ps_rkey p ∧
  immediate_data d = ps_immediate p ∧ parent_total_length d = ps_total_length p ∧
  payload_count d = ps_payload_count p.

Definition cdiv (a b : Z) : Z := (a + b - 1) / b.

Definition total_length (l : list SourceSegment) : Z := foldr (λ s acc, segment_length s + acc) 0 l.
Definition total_payloads (payload_bytes : Z) (l : list SourceSegment) : Z :=
  foldr (λ s acc, cdiv (segment_length s) payload_bytes + acc) 0 l.

Definition segment_ok (s : SourceSegment) : Prop :=
  0 < segment_length s ∧ 0 <= daemon_address s ∧ daemon_address s + segment_length s <= U64_MAX.

(** A parent whose totals match its segments. *)
Record send_ok (payload_bytes : Z) (p : PendingSend) : Prop := {
  so_bytes : 0 < payload_bytes <= U32_MAX;
  so_segments : Forall segment_ok (ps_segments p);
  so_total : ps_total_length p = total_length (ps_segments p) ∧ ps_total_length p <= U32_MAX;
  so_count : ps_payload_count p = total_payloads payload_bytes (ps_segments p) ∧
             ps_payload_count p <= U32_MAX;
}.

(** The parent stands in segment [seg], [q] payloads into it. *)
Record at_pos (payload_bytes : Z) (p : PendingSend) (before : list SourceSegment) (q : Z)
    (seg : SourceSegment) (after : list SourceSegment) : Prop := {
  ap_segments : ps_segments p = before ++ seg :: after;
  ap_index : ps_segment_index p = Z.of_nat (length before);
  ap_offset : ps_segment_offset p = q * payload_bytes;
  ap_q : 0 <= q ∧ q * payload_bytes < segment_length seg;
  ap_payload_index : ps_payload_index p = total_payloads payload_bytes before + q;
  ap_payload_offset : ps_payload_offset p = total_length before + q * payload_bytes;
}.

(** ** Arithmetic of the cut *)

Lemma cdiv_spec a b : 0 < b → 0 <= a → a <= cdiv a b * b < a + b.
Proof.
  intros Hb Ha. unfold cdiv. pose proof (Z.div_mod (a + b - 1) b ltac:(lia)).
  pose proof (Z.mod_pos_bound (a + b - 1) b Hb). lia.
Qed.

Lemma cdiv_last b len q : 0 < b → 0 <= q → q * b < len → len <= (q + 1) * b → cdiv len b = q + 1.
Proof. intros Hb Hq Hlt Hle. pose proof (cdiv_spec len b Hb ltac:(lia)). nia. Qed.

Lemma cdiv_more b len q : 0 < b → 0 <= q → (q + 1) * b < len → q + 1 < cdiv len b.
Proof. intros Hb Hq Hlt. pose proof (cdiv_spec len b Hb ltac:(nia)). nia. Qed.

Lemma total_length_app a b : total_length (a ++ b) = total_length a + total_length b.
Proof. induction a as [|s a IH]; simpl; [done|]. rewrite IH. lia. Qed.
Lemma total_payloads_app n a b : total_payloads n (a ++ b) = total_payloads n a + total_payloads n b.
Proof. induction a as [|s a IH]; simpl; [done|]. rewrite IH. lia. Qed.

Lemma totals_nonneg n l :
  0 < n → Forall segment_ok l → 0 <= total_length l ∧ 0 <= total_payloads n l.
Proof.
  intros Hn. induction 1 as [|s l [Hs _] Hl IH]; simpl; [lia|].
  pose proof (cdiv_spec (segment_length s) n Hn ltac:(lia)). nia.
Qed.

(** ** One step *)

Lemma at_pos_datagram pb p before q seg after :
  send_ok pb p → at_pos pb p before q seg after →
  let d := next_datagram pb p in
  let l := Z.min (segment_length seg - q * pb) pb in
  carries p d ∧ payload_index d = ps_payload_index p ∧ payload_offset d = ps_payload_offset p ∧
  payload_length d = l ∧ 0 < l <= pb ∧ source_daemon_address d = daemon_address seg + q * pb.
Proof.
  intros [Hpb Hsegs [Htot Hmax] _] [Hs Hi Ho Hq _ _] d l. rewrite Hs in Hsegs, Htot.
  pose proof (proj1 (Forall_app _ _ _) Hsegs) as [Hb Hsa]. inversion Hsa as [|? ? Hseg Ha]; subst.
  rewrite total_length_app in Htot. simpl in Htot.
  pose proof (totals_nonneg pb _ ltac:(lia) Hb). pose proof (totals_nonneg pb _ ltac:(lia) Ha).
  destruct Hseg as (Hlen & Ha0 & Hamax).
  assert (ps_segments p !! Z.to_nat (ps_segment_index p) = Some seg) as Hl.
  { rewrite Hs, Hi, Nat2Z.id, lookup_app_r, Nat.sub_diag by lia. done. }
  unfold d, next_datagram. rewrite (proj2 (Z.eqb_neq (ps_total_length p) 0)) by lia.
  rewrite Hl. cbn. rewrite Ho, u32_small, u64_small by ulia.
  split_and!; try done; unfold l; lia.
Qed.

(** After the push the parent stands at the next payload, or has sent them all. *)
Lemma at_pos_advance pb p before q seg after :
  send_ok pb p → at_pos pb p before q seg after →
  let l := Z.min (segment_length seg - q * pb) pb in
  let p' := advance_send p l in
  send_ok pb p' ∧ ps_segments p' = ps_segments p ∧ (∀ d, carries p' d ↔ carries p d) ∧
  ps_payload_index p' = ps_payload_index p + 1 ∧ ps_payload_offset p' = ps_payload_offset p + l ∧
  if decide (q * pb + l = segment_length seg) then
    match after with
    | [] => send_finished p' = true
    | seg' :: after' => at_pos pb p' (before ++ [seg]) 0 seg' after' ∧ send_finished p' = false
    end
  else at_pos pb p' before (q + 1) seg after ∧ send_finished p' = false.
Proof.
  intros Hok [Hs Hi Ho Hq Hpi Hpo] l p'. pose proof Hok as [Hpb Hsegs [Htot Hmax] [Hcnt Hcmax]].
  pose proof Hsegs as Hsegs'. rewrite Hs in Hsegs', Htot, Hcnt.
  pose proof (proj1 (Forall_app _ _ _) Hsegs') as [Hb Hsa]. inversion Hsa as [|? ? Hseg Ha]; subst.
  rewrite total_length_app in Htot. rewrite total_payloads_app in Hcnt. simpl in Htot, Hcnt.
  pose proof (totals_nonneg pb _ ltac:(lia) Hb). pose proof (totals_nonneg pb _ ltac:(lia) Ha).
  destruct Hseg as (Hlen & Ha0 & Hamax).
  assert (ps_segments p !! Z.to_nat (ps_segment_index p) = Some seg) as Hl.
  { rewrite Hs, Hi, Nat2Z.id, lookup_app_r, Nat.sub_diag by lia. done. }
  assert (0 < l <= pb ∧ q * pb + l <= segment_length seg) as Hll by (unfold l; lia).
  assert (q < cdiv (segment_length seg) pb) as Hqc.
  { pose proof (cdiv_spec (segment_length seg) pb ltac:(lia) ltac:(lia)). nia. }
  unfold p', advance_send, send_finished. rewrite (proj2 (Z.eqb_neq (ps_total_length p) 0)) by lia.
  rewrite Hl, Ho, Hpi, Hpo. cbn [default from_option id].
  rewrite (u32_small (q * pb + l)), (u64_small (_ + l)), (u32_small (_ + 1)) by ulia.
  destruct (decide (q * pb + l = segment_length seg)) as [Hend|Hmid].
  - rewrite (proj2 (Z.eqb_eq _ _) Hend). cbn.
    assert (cdiv (segment_length seg) pb = q + 1) as Hc by (apply cdiv_last; lia).
    split; [by destruct Hok; split|]. do 4 (split; [done|]).
    rewrite (proj2 (Z.eqb_neq (ps_total_length p) 0)) by lia.
    destruct after as [|seg' after']; [apply Z.eqb_eq; simpl in Hcnt; lia|].
    inversion Ha as [|? ? [Hlen' _] Ha']; subst. simpl in *.
    pose proof (totals_nonneg pb _ ltac:(lia) Ha').
    pose proof (cdiv_spec (segment_length seg') pb ltac:(lia) ltac:(lia)).
    split; [|apply Z.eqb_neq; nia].
    split; cbn; rewrite ?length_app, ?total_length_app, ?total_payloads_app; simpl; try lia.
    by rewrite Hs, <- app_assoc.
  - rewrite (proj2 (Z.eqb_neq _ _) Hmid). cbn.
    assert (l = pb) as Hlp by lia.
    assert (q + 1 < cdiv (segment_length seg) pb) as Hc by (apply cdiv_more; lia).
    split; [by destruct Hok; split|]. do 4 (split; [done|]).
    rewrite (proj2 (Z.eqb_neq (ps_total_length p) 0)) by lia.
    split; [|apply Z.eqb_neq; lia]. split; cbn; try done; lia.
Qed.

Lemma emit_S pb n p :
  emit pb (S n) p =
  (next_datagram pb p :: (emit pb n (advance_send p (payload_length (next_datagram pb p)))).1,
   (emit pb n (advance_send p (payload_length (next_datagram pb p)))).2).
Proof. cbn [emit]. by destruct (emit pb n _). Qed.

Lemma segment_bytes_cons s l :
  segment_bytes (s :: l) = seqZ (daemon_address s) (segment_length s) ++ segment_bytes l.
Proof. done. Qed.

(** After one datagram the stream stands further on in its segment, at the head of the
    next one, or at its end; the bytes still to send are those it had less the datagram's. *)
Lemma at_pos_next pb n p before q seg after :
  let l := Z.min (segment_length seg - q * pb) pb in
  send_ok pb p → at_pos pb p before q seg after →
  Z.of_nat (S n) = cdiv (segment_length seg) pb - q + total_payloads pb after →
  (∃ before' q' seg' after',
     at_pos pb (advance_send p l) before' q' seg' after' ∧ send_finished (advance_send p l) = false ∧
     Z.of_nat n = cdiv (segment_length seg') pb - q' + total_payloads pb after' ∧
     seqZ (daemon_address seg + q * pb) (segment_length seg - q * pb) ++ segment_bytes after =
     seqZ (daemon_address seg + q * pb) l ++
     seqZ (daemon_address seg' + q' * pb) (segment_length seg' - q' * pb) ++ segment_bytes after') ∨
  (n = O ∧ send_finished (advance_send p l) = true ∧ after = [] ∧ l = segment_length seg - q * pb).
Proof.
  intros l Hok Hat Hn.
  pose proof (at_pos_datagram _ _ _ _ _ _ Hok Hat) as (_ & _ & _ & Hdl & Hl & _).
  pose proof (at_pos_advance _ _ _ _ _ _ Hok Hat) as (_ & _ & _ & _ & _ & Hnext).
  destruct (ap_q _ _ _ _ _ _ Hat) as [Hq Hlt]. pose proof (so_bytes _ _ Hok) as Hpb.
  rewrite ?Hdl in Hnext. fold l in Hdl, Hl, Hnext. case_decide as Hend.
  - assert (cdiv (segment_length seg) pb = q + 1) as Hc by (apply cdiv_last; lia).
    destruct after as [|seg' after']; [right|left].
    { simpl in Hn. split_and!; [lia|done|done|lia]. }
    destruct Hnext as [Hat' Hnf]. exists (before ++ [seg]), 0, seg', after'.
    split; [done|]. split; [done|]. simpl in Hn. split; [lia|].
    rewrite segment_bytes_cons, Z.mul_0_l, Z.add_0_r, Z.sub_0_r. do 2 f_equal. lia.
  - left. destruct Hnext as [Hat' Hnf]. exists before, (q + 1), seg, after.
    split; [done|]. split; [done|]. split; [lia|]. rewrite app_assoc. f_equal.
    replace (segment_length seg - q * pb) with (l + (segment_length seg - (q + 1) * pb)) by lia.
    rewrite seqZ_app by lia. do 2 f_equal. lia.
Qed.

Lemma emit_spec pb n p before q seg after :
  send_ok pb p → at_pos pb p before q seg after →
  Z.of_nat n = cdiv (segment_length seg) pb - q + total_payloads pb after →
  length (emit pb n p).1 = n ∧ send_finished (emit pb n p).2 = true ∧
  numbered pb (ps_payload_index p) (ps_payload_offset p) (emit pb n p).1 ∧
  Forall (carries p) (emit pb n p).1 ∧
  concat (source_bytes <$> (emit pb n p).1) =
    seqZ (daemon_address seg + q * pb) (segment_length seg - q * pb) ++ segment_bytes after ∧
  (∀ m, (0 < m < n)%nat → send_finished (emit pb m p).2 = false).
Proof.
  revert p before q seg after. induction n as [|n IH]; intros p before q seg after Hok Hat Hn.
  { pose proof (so_bytes _ _ Hok). destruct (ap_q _ _ _ _ _ _ Hat) as [Hq Hlt].
    pose proof (so_segments _ _ Hok) as Hsegs. rewrite (ap_segments _ _ _ _ _ _ Hat) in Hsegs.
    apply Forall_app in Hsegs as [_ Hsa]. inversion Hsa as [|? ? _ Ha]; subst.
    pose proof (totals_nonneg pb _ ltac:(lia) Ha).
    pose proof (cdiv_spec (segment_length seg) pb ltac:(lia) ltac:(lia)). nia. }
  pose proof (at_pos_datagram _ _ _ _ _ _ Hok Hat) as (Hcar & Hdi & Hdo & Hdl & Hl & Hsrc).
  pose proof (at_pos_advance _ _ _ _ _ _ Hok Hat) as (Hok' & Hsegs' & Hcar' & Hpi & Hpo & Hnext).
  destruct (ap_q _ _ _ _ _ _ Hat) as [Hq Hlt]. pose proof (so_bytes _ _ Hok) as Hpb.
  rewrite !emit_S, Hdl. cbn [fst snd length numbered fmap list_fmap concat]. rewrite ?Hdl.
  set (l := Z.min (segment_length seg - q * pb) pb) in *.
  set (p1 := advance_send p l) in *. rewrite Hdi, Hdo.
  assert (source_bytes (next_datagram pb p) = seqZ (daemon_address seg + q * pb) l) as Hsb.
  { unfold source_bytes. by rewrite Hsrc, Hdl. }
  rewrite Hsb.
  destruct (at_pos_next _ _ _ _ _ _ _ Hok Hat Hn) as
    [(before' & q' & seg' & after' & Hat' & Hnf & Hn' & Hbytes)|(-> & Hfin & -> & Hle)].
  - destruct (IH _ _ _ _ _ Hok' Hat' Hn') as (Hlen & Hfin & Hnum & Hall & Hcat & Hpart).
    rewrite Hlen, Hcat, Hbytes. rewrite Hpi, Hpo in Hnum.
    split; [done|]. split; [done|]. split; [do 2 (split; [done|]); by split|].
    split; [|split; [done|]].
    + constructor; [done|]. eapply Forall_impl; [done|]. intros d. apply Hcar'.
    + intros [|[|m]] Hm; [lia| |].
      * rewrite emit_S, Hdl. fold p1. done.
      * rewrite emit_S, Hdl. fold p1. cbn [snd]. apply Hpart. lia.
  - simpl. rewrite app_nil_r. split; [done|]. split; [done|].
    split; [do 2 (split; [done|]); by split|]. split; [by constructor|]. split; [|lia].
    change l with (Z.min (segment_length seg - q * pb) pb). by rewrite Hle, app_nil_r.
Qed.

(** ** From the scatter list *)

Lemma cdiv_le a b : 0 < b → 0 < a → 0 < cdiv a b <= a.
Proof. intros Hb Ha. pose proof (cdiv_spec a b Hb ltac:(lia)). nia. Qed.

Lemma payloads_le_length n l :
  0 < n → Forall segment_ok l → total_payloads n l <= total_length l.
Proof.
  intros Hn. induction 1 as [|s l [Hs _] Hl IH]; simpl; [lia|].
  pose proof (cdiv_le (segment_length s) n Hn Hs). lia.
Qed.

Section Gather.
Context `{KeyResolver} `{!KeyResolverLaws}.

(** The daemon addresses of the bytes a scatter list names, in order. *)
Definition gather (view : WorkerQpView) (sges : list Descriptors.SharedSge) : list Z :=
  concat ((λ s, match resolve_lkey (session_id view) (pd_identity view) (Descriptors.sge_lkey s)
                        (Descriptors.sge_address s) (Descriptors.sge_length s) with
                | Ok a => seqZ a (Descriptors.sge_length s)
                | Err _ => []
                end) <$> sges).

Lemma scan_sges_spec view pb sges total segs count total' segs' count' :
  0 < pb <= U32_MAX → Forall (λ s, is_u32 (Descriptors.sge_length s)) sges →
  Forall segment_ok segs → total = total_length segs → total <= U32_MAX →
  count = total_payloads pb segs →
  scan_sges view pb sges total segs count = inl (total', segs', count') →
  Forall segment_ok segs' ∧ total' = total_length segs' ∧ total' <= U32_MAX ∧
  count' = total_payloads pb segs' ∧ segment_bytes segs' = segment_bytes segs ++ gather view sges.
Proof.
  intros Hpb. revert total segs count. induction sges as [|s sges IH];
    intros total segs count Hu Hsegs Ht Hmax Hc Hscan.
  { simpl in Hscan. simplify_eq. unfold gather. simpl. by rewrite app_nil_r. }
  inversion Hu as [|? ? Hs Hu']; subst. cbn [scan_sges] in Hscan.
  destruct (_ <? _) eqn:Hov; [done|]. bool_hyps.
  destruct (resolve_lkey _ _ _ _ _) as [a|] eqn:Hr; [|done].
  apply lkey_range in Hr as Ha; [|ulia]. pose proof (totals_nonneg pb _ ltac:(lia) Hsegs) as [Ht0 Hc0].
  pose proof (payloads_le_length pb _ ltac:(lia) Hsegs).
  rewrite (u64_small (_ + Descriptors.sge_length s)) in Hscan by ulia.
  unfold gather. cbn [fmap list_fmap concat]. rewrite Hr. fold (gather view sges).
  destruct (_ =? 0) eqn:E0; bool_hyps.
  - apply IH in Hscan as (? & ? & ? & ? & Hb); [|done|done|lia|lia|done].
    rewrite E0. by split_and!.
  - set (seg := mkSegment a (Descriptors.sge_length s)) in *.
    assert (segment_ok seg) as Hseg by (unfold segment_ok, seg; simpl; ulia).
    pose proof (cdiv_le (Descriptors.sge_length s) pb ltac:(lia) ltac:(ulia)) as Hcd.
    rewrite (u64_small (_ + pb - 1)) in Hscan by ulia. fold (cdiv (Descriptors.sge_length s) pb) in Hscan.
    rewrite u64_small in Hscan by ulia.
    apply IH in Hscan as (? & ? & ? & ? & Hb); [|done|by apply Forall_app_2; [|constructor]
      |rewrite total_length_app; simpl; lia|lia|rewrite total_payloads_app; simpl; lia].
    split_and!; try done. rewrite Hb. unfold segment_bytes. rewrite fmap_app, concat_app. simpl.
    by rewrite app_nil_r, <- app_assoc.
Qed.

Lemma load_bound slot offset w : 0 <= Descriptors.load slot offset w < 2 ^ (8 * Z.of_nat w).
Proof.
  unfold Descriptors.load. pose proof (le_combine_bound (take w (drop offset slot))) as Hb.
  rewrite length_take in Hb. split; [lia|]. eapply Z.lt_le_trans; [apply Hb|].
  apply Z.pow_le_mono_r; lia.
Qed.

Lemma load_sges_u32 slot offset n :
  Forall (λ s, is_u32 (Descriptors.sge_length s)) (Descriptors.load_sges slot offset n).
Proof.
  apply Forall_forall. intros s (i & -> & _)%list_elem_of_fmap. cbn. apply (load_bound _ _ 4).
Qed.

(** What [load_send] takes off the queue. *)
Lemma load_send_ok w rings view rings' w' p :
  0 < payload_bytes_ w <= U32_MAX → load_send w rings view = (rings', inl (w', p)) →
  ∃ slot, (peek_slot rings (send_queue view)).2 = Ok slot ∧
    send_ok (payload_bytes_ w) p ∧
    segment_bytes (ps_segments p) =
      gather view (Descriptors.load_sges slot 40
                     (Z.to_nat (Descriptors.send_sge_count (Descriptors.load_send_header slot)))) ∧
    ps_segment_index p = 0 ∧ ps_segment_offset p = 0 ∧ ps_payload_offset p = 0 ∧
    ps_payload_index p = 0.
Proof.
  intros Hpb. unfold load_send. destruct (peek_slot rings (send_queue view)) as [r1 [slot|e]]; [|done].
  intros Hl. exists slot. split; [done|].
  assert (∀ st, (let '(rings, b) := complete_send_error r1 view (Descriptors.load_send_header slot) st
    in (rings, inr b)) ≠ (rings', inl (w', p))) as Hfail.
  { intros st. clear Hl. by destruct (complete_send_error _ _ _ st). }
  destruct (max_send_sge view <? _); [by apply Hfail in Hl|].
  destruct (_ && _); [by apply Hfail in Hl|].
  destruct (scan_sges _ _ _ _ _ _) as [[[total segs] cnt]|st] eqn:Hscan; [|by apply Hfail in Hl].
  destruct (U32_MAX <? cnt) eqn:Hcnt; [by apply Hfail in Hl|]. bool_hyps.
  destruct (requester_inflight_ w !! next_request_id w); [done|].
  apply scan_sges_spec in Hscan as (Hsegs & -> & Hmax & -> & Hb);
    [|done|apply load_sges_u32|done|done|done|done].
  injection Hl as <- <- <-. split; [|done]. pose proof (totals_nonneg _ _ ltac:(apply Hpb) Hsegs).
  split; cbn; [done|done|by split|]. rewrite u32_small by ulia. done.
Qed.

(** ** The whole stream of a work request *)

Lemma at_pos_start pb p :
  send_ok pb p → ps_total_length p ≠ 0 → ps_segment_index p = 0 → ps_segment_offset p = 0 →
  ps_payload_offset p = 0 → ps_payload_index p = 0 →
  ∃ seg after, ps_segments p = seg :: after ∧ at_pos pb p [] 0 seg after.
Proof.
  intros Hok Ht Hi Ho Hpo Hpi. destruct (ps_segments p) as [|seg after] eqn:Hs.
  { destruct (so_total _ _ Hok) as [Htot _]. by rewrite Hs in Htot. }
  exists seg, after. split; [done|]. pose proof (so_segments _ _ Hok) as Hsegs. rewrite Hs in Hsegs.
  inversion Hsegs as [|? ? [Hlen _] _]; subst.
  split; rewrite ?Hpi, ?Hpo, ?Ho; simpl; first [done|lia].
Qed.

Lemma stream_of_send pb p :
  send_ok pb p → ps_total_length p ≠ 0 → ps_segment_index p = 0 → ps_segment_offset p = 0 →
  ps_payload_offset p = 0 → ps_payload_index p = 0 →
  let n := Z.to_nat (ps_payload_count p) in
  let ds := (emit pb n p).1 in
  (0 < n)%nat ∧ length ds = n ∧ numbered pb 0 0 ds ∧ Forall (carries p) ds ∧
  concat (source_bytes <$> ds) = segment_bytes (ps_segments p) ∧
  (∀ m, (m <= n)%nat → send_finished (emit pb m p).2 = true ↔ m = n).
Proof.
  intros Hok Ht Hi Ho Hpo Hpi n ds.
  destruct (at_pos_start pb p Hok Ht Hi Ho Hpo Hpi) as (seg & after & Hs & Hat).
  pose proof (so_count _ _ Hok) as [Hcnt Hcm]. rewrite Hs in Hcnt. simpl in Hcnt.
  pose proof (so_segments _ _ Hok) as Hsegs. rewrite Hs in Hsegs.
  inversion Hsegs as [|? ? [Hlen _] Ha]; subst. pose proof (so_bytes _ _ Hok).
  pose proof (totals_nonneg pb _ ltac:(lia) Ha).
  pose proof (cdiv_le (segment_length seg) pb ltac:(lia) ltac:(lia)).
  destruct (emit_spec pb n p [] 0 seg after Hok Hat) as (Hl & Hfin & Hnum & Hall & Hcat & Hpart);
    [unfold n; lia|].
  rewrite Hpi, Hpo in Hnum. split; [unfold n; lia|]. split; [done|]. split; [done|]. split; [done|].
  split.
  { unfold ds. rewrite Hcat, Hs, segment_bytes_cons, Z.mul_0_l, Z.add_0_r, Z.sub_0_r. done. }
  intros m Hm. destruct (decide (m = n)) as [->|Hne]; [done|]. split; [|done]. intros Hf.
  destruct m as [|m]; [|by rewrite Hpart in Hf by lia].
  simpl in Hf. unfold send_finished in Hf. rewrite (proj2 (Z.eqb_neq _ 0)), Hpi in Hf by done.
  bool_hyps. unfold n in *. lia.
Qed.

(** The requester cuts a work request into payloads exactly: pushing the
    parent's datagrams one after another yields [payload_count] of them and then
    the parent is finished, not before; they are numbered from 0, placed without
    gaps from offset 0, none empty or larger than the payload size, all with the
    request's addressing, and their source bytes are, in order, the bytes the
    scatter list names. *)
Theorem send_stream_exact w rings view rings' w' p :
  0 < payload_bytes_ w <= U32_MAX → load_send w rings view = (rings', inl (w', p)) →
  ps_total_length p ≠ 0 →
  let n := Z.to_nat (ps_payload_count p) in
  let ds := (emit (payload_bytes_ w) n p).1 in
  length ds = n ∧ numbered (payload_bytes_ w) 0 0 ds ∧ Forall (carries p) ds ∧
  (∀ m, (m <= n)%nat → send_finished (emit (payload_bytes_ w) m p).2 = true ↔ m = n) ∧
  ∃ slot, (peek_slot rings (send_queue view)).2 = Ok slot ∧
    concat (source_bytes <$> ds) =
      gather view (Descriptors.load_sges slot 40
                     (Z.to_nat (Descriptors.send_sge_count (Descriptors.load_send_header slot)))).
Proof.
  intros Hpb Hl Ht n ds. apply load_send_ok in Hl as (slot & Hp & Hok & Hb & Hi & Ho & Hpo & Hpi); [|done].
  destruct (stream_of_send _ p Hok Ht Hi Ho Hpo Hpi) as (_ & Hlen & Hnum & Hall & Hcat & Hfin).
  split; [done|]. split; [done|]. split; [done|]. split; [done|]. exists slot. split; [done|].
  unfold ds, n. by rewrite Hcat, Hb.
Qed.

End Gather.

(** * The responder's side *)

Lemma length_segment_bytes l :
  Forall segment_ok l → Z.of_nat (length (segment_bytes l)) = total_length l.
Proof.
  induction 1 as [|s l [Hs _] Hl IH]; [done|]. rewrite segment_bytes_cons, length_app, length_seqZ.
  simpl. lia.
Qed.

(** The bytes still to come. *)
Definition bytes_left (ds : list RequestDatagram) : Z := foldr (λ d acc, payload_length d + acc) 0 ds.

Definition matches (p : ResponderInflight) (d : RequestDatagram) : Prop :=
  source_qp_num d = rp_source_qp p ∧ target_qp_num d = rp_target_qp p ∧ opcode d = rp_opcode p ∧
  remote_address d = rp_remote_address p ∧ rkey d = rp_rkey p ∧ immediate_data d = rp_immediate p ∧
  parent_total_length d = rp_total_length p ∧ payload_count d = rp_payload_count p.

(** The parent has accepted everything before [ds] and expects exactly [ds]. *)
Record receiving (payload_bytes : Z) (p : ResponderInflight) (ds : list RequestDatagram) : Prop := {
  rc_matches : Forall (matches p) ds;
  rc_numbered : numbered payload_bytes (rp_next_index p) (rp_next_offset p) ds;
  rc_count : rp_next_index p + Z.of_nat (length ds) = rp_payload_count p;
  rc_total : rp_next_offset p + bytes_left ds = rp_total_length p;
  rc_range : 0 <= rp_next_index p ∧ 0 <= rp_next_offset p ∧
             rp_payload_count p <= U32_MAX ∧ rp_total_length p <= U32_MAX;
}.

Lemma numbered_bytes pb i o ds : numbered pb i o ds → 0 <= bytes_left ds.
Proof.
  revert i o. induction ds as [|d ds IH]; intros i o; simpl; [lia|].
  intros (_ & _ & Hl & Hn). specialize (IH _ _ Hn). lia.
Qed.

Lemma length_stream_bytes pb i o ds :
  numbered pb i o ds → Z.of_nat (length (concat (source_bytes <$> ds))) = bytes_left ds.
Proof.
  revert i o. induction ds as [|d ds IH]; intros i o; [done|].
  intros (_ & _ & Hl & Hn). cbn [fmap list_fmap concat bytes_left foldr]. fold (bytes_left ds).
  rewrite length_app, Nat2Z.inj_add, (IH _ _ Hn). unfold source_bytes. rewrite length_seqZ. lia.
Qed.

Lemma receiving_valid pb p d ds :
  receiving pb p (d :: ds) → rp_payload_count p ≠ 0 ∧ valid_payload p d = true.
Proof.
  intros [Hm Hn Hc Ht Hr]. inversion Hm as [|? ? (?&?&?&?&?&?&?&?) _]; subst.
  simpl in Hn, Hc, Ht. destruct Hn as (Hi & Ho & Hl & Hn). apply numbered_bytes in Hn.
  split; [lia|]. unfold valid_payload. rewrite (proj2 (Z.eqb_neq (rp_payload_count p) 0)) by lia.
  rewrite u64_small by ulia. rewrite bool_decide_true by done. cbn [negb andb orb].
  rewrite !andb_true_iff, negb_true_iff, !Z.eqb_eq, Z.ltb_lt, !Z.leb_le, Z.eqb_neq. lia.
Qed.

(** ** The parent the first datagram creates *)

Lemma receiving_start pb p d ds target recv :
  numbered pb 0 0 (d :: ds) → Forall (carries p) (d :: ds) →
  ps_payload_count p = Z.of_nat (length (d :: ds)) →
  ps_total_length p = bytes_left (d :: ds) → ps_total_length p <= U32_MAX →
  ps_payload_count p <= ps_total_length p →
  valid_first d = true ∧ receiving pb (new_parent d target recv) (d :: ds).
Proof.
  intros Hn Hcar Hcnt Htot Hmax Hle.
  pose proof (proj1 (Forall_cons _ _ _) Hcar) as [(?&?&?&?&?&?&?&Hdt&Hdc) _].
  destruct Hn as (Hi & Ho & Hl & Hn). pose proof (numbered_bytes _ _ _ _ Hn). split.
  - unfold valid_first. rewrite Hdt, Hdc, Hi, Ho. simpl in Htot, Hcnt.
    rewrite (proj2 (Z.eqb_neq (ps_payload_count p) 0)), (proj2 (Z.eqb_neq (ps_total_length p) 0)),
      (proj2 (Z.eqb_neq (payload_length d) 0)), (proj2 (Z.leb_le (payload_length d) _)),
      (proj2 (Z.leb_le (ps_payload_count p) _)) by lia. done.
  - split; cbn [new_parent rp_next_index rp_next_offset rp_payload_count rp_total_length].
    + eapply Forall_impl; [exact Hcar|]. intros d' (?&?&?&?&?&?&?&?&?). unfold matches. cbn.
      split_and!; congruence.
    + simpl. done.
    + lia.
    + lia.
    + simpl in *. lia.
Qed.

(** The parent after one more payload of the stream. *)
Definition next_parent (p : ResponderInflight) (d : RequestDatagram) : ResponderInflight :=
  let p := if rp_has_receive p && negb (rp_receive_consumed p) then with_consumed p else p in
  with_next p (rp_next_offset p + payload_length d) (rp_next_index p + 1).

Lemma next_parent_receiving pb p d ds :
  receiving pb p (d :: ds) → receiving pb (next_parent p d) ds.
Proof.
  intros [Hm Hn Hc Ht Hr]. inversion Hm as [|? ? _ Hm']; subst.
  simpl in Hn, Hc, Ht. destruct Hn as (Hi & Ho & Hl & Hn).
  pose proof (numbered_bytes _ _ _ _ Hn).
  unfold next_parent. destruct (_ && _); split; cbn; try done; lia.
Qed.

(** * Properties *)

(** The responder accepts the stream payload by payload: while it expects the
    datagrams [d :: ds] and its batch has room, [d] is accepted, exactly one copy is
    queued for the backend (of [d]'s bytes, to the parent's target plus [d]'s
    offset), the receive request of a write with immediate is consumed with the
    first payload, and it then expects [ds]; after the last payload the parent is
    complete. *)
Theorem responder_accepts_payload pb w t rings view d ds p loaded :
  receiving pb p (d :: ds) → (length (pending_backend_ w) < kBackendBatchCapacity)%nat →
  (rp_has_receive p && negb (rp_receive_consumed p) = true →
     (release_slots rings (receive_queue view) 1).2 = 0) →
  let p' := next_parent p d in
  ∃ w' rings', accept_payload w t rings view d p loaded = (w', t, rings', true) ∧
    responder_inflight_ w' = <[parent_request_id d := p']> (responder_inflight_ w) ∧
    pending_backend_ w' = pending_backend_ w ++ [backend_request d p] ∧
    pending_request_ w' = None ∧ responder_order_ w' = responder_order_ w ∧ receiving pb p' ds ∧
    (ds = [] → rp_next_index p' = rp_payload_count p' ∧ rp_next_offset p' = rp_total_length p').
Proof.
  intros Hrc Hroom Hrel p'. destruct (receiving_valid _ _ _ _ Hrc) as [Hne Hv].
  pose proof (next_parent_receiving _ _ _ _ Hrc) as Hrc'. fold p' in Hrc'.
  assert (rp_next_index p' = u32 (rp_next_index p + 1) ∧
          rp_next_offset p' = u64 (rp_next_offset p + payload_length d)) as [Hi Ho].
  { destruct Hrc as [_ Hn Hc Ht Hr]. simpl in Hn, Hc, Ht. destruct Hn as (_ & _ & Hl & Hn).
    apply numbered_bytes in Hn. rewrite u32_small, u64_small by ulia.
    unfold p', next_parent. by destruct (_ && _). }
  assert (∀ q, q = with_next (if rp_has_receive p && negb (rp_receive_consumed p) then with_consumed p
                              else p) (u64 (rp_next_offset p + payload_length d))
                 (u32 (rp_next_index p + 1)) →
    (if (rp_next_index q =? rp_payload_count q) && negb (rp_next_offset q =? rp_total_length q)
     then with_error q remote_invalid_request else q) = p') as Hq.
  { intros q ->. rewrite <- Hi, <- Ho.
    assert (with_next (if rp_has_receive p && negb (rp_receive_consumed p) then with_consumed p else p)
              (rp_next_offset p') (rp_next_index p') = p') as ->
      by (unfold p', next_parent; by destruct (_ && _)).
    destruct (_ =? _) eqn:E; [|done]. bool_hyps. destruct Hrc' as [_ _ Hc Ht _].
    assert (ds = []) as -> by (apply nil_length_inv; lia). change (bytes_left []) with 0 in Ht.
    rewrite (proj2 (Z.eqb_eq _ _)) by lia. done. }
  unfold accept_payload. rewrite Hv, (proj2 (Z.eqb_neq _ _) Hne).
  rewrite (proj2 (Nat.eqb_neq (length (pending_backend_ w)) _)) by lia. cbn [negb].
  destruct (if rp_has_receive p && negb (rp_receive_consumed p)
            then release_slots rings (receive_queue view) 1 else (rings, 0)) as [rings' st] eqn:Hst.
  assert (st = 0) as ->.
  { destruct (rp_has_receive p && negb (rp_receive_consumed p)); [|by injection Hst].
    specialize (Hrel eq_refl). by rewrite Hst in Hrel. }
  cbn [negb Z.eqb]. eexists _, rings'. split; [reflexivity|]. cbn. split.
  { f_equal. rewrite <- (Hq _ eq_refl). by destruct (_ && _). }
  do 3 (split; [done|]). split; [done|]. intros ->. destruct Hrc' as [_ _ Hc Ht _].
  simpl in Hc, Ht. lia.
Qed.

(** ** End to end *)

(** The copies queued for a stream, as pairs of source and target byte. *)
Definition copied_bytes (l : list BackendRequest) : list (Z * Z) :=
  concat ((λ b, zip (seqZ (br_source b) (br_length b)) (seqZ (br_target b) (br_length b))) <$> l).

Lemma zip_app_eq {A C} (a a' : list A) (b b' : list C) :
  length a = length b → zip (a ++ a') (b ++ b') = zip a b ++ zip a' b'.
Proof.
  revert b. induction a as [|x a IH]; intros [|y b] Hl; simplify_eq/=; [done|]. by rewrite IH.
Qed.

Lemma copied_bytes_stream pb p i o ds :
  numbered pb i o ds → 0 <= o → 0 <= rp_target_address p →
  rp_target_address p + o + bytes_left ds <= U64_MAX →
  copied_bytes ((λ d, backend_request d p) <$> ds) =
  zip (concat (source_bytes <$> ds)) (seqZ (rp_target_address p + o) (bytes_left ds)).
Proof.
  revert i o. induction ds as [|d ds IH]; intros i o Hn Ho Ht Hmax; [done|].
  simpl in Hn, Hmax. destruct Hn as (_ & Hdo & Hl & Hn). pose proof (numbered_bytes _ _ _ _ Hn).
  unfold copied_bytes. cbn [fmap list_fmap concat bytes_left foldr]. fold (bytes_left ds).
  rewrite seqZ_app by lia. rewrite zip_app_eq by (unfold source_bytes; by rewrite !length_seqZ).
  f_equal; [cbn; by rewrite Hdo, u64_small by ulia|].
  rewrite <- Z.add_assoc. eapply IH; [done|lia|lia|lia].
Qed.

(** ** Witnesses *)

(** A resolver that maps every range that does not wrap to itself. *)
#[local] Instance identity_resolver : KeyResolver := {
  resolve_lkey session pd key address len :=
    if decide (0 <= address ∧ address + len <= U64_MAX) then Ok address else Err EINVAL;
  resolve_rkey session pd key address len :=
    if decide (0 <= address ∧ address + len <= U64_MAX) then Ok address else Err EINVAL;
}.
#[local] Instance identity_resolver_laws : KeyResolverLaws.
Proof. split; intros ?????? _; cbn; case_decide; intros; by simplify_eq. Defined.

(** A write of two segments, of 5 and 2 bytes, to address 4096. *)
Definition demo_slot : list byte :=
  Descriptors.send_header_bytes (Descriptors.mkSendHeader 7 4096 9 0 2 0 2 0) ++
  Descriptors.sge_bytes (Descriptors.mkSge 100 5 1) ++
  Descriptors.sge_bytes (Descriptors.mkSge 200 2 1).
Definition demo_send_cell : Cell :=
  mkCell (mkRing true 4096 3 (mkDescriptor send 2 128) no_producer no_consumer)
    (mkRegion 1 0 [demo_slot; demo_slot]).
Definition demo_rings : Rings := {[ 1 := demo_send_cell ]}.
Definition demo_view : WorkerQpView := mkView 1 2 10 11 4 4 0 1 2 3 4.
Definition demo_worker : LoopWorker := new_worker 10 requester 4 false.
Definition demo_parent : PendingSend :=
  mkPendingSend 42949672961 7 true rdma_write 10 11 4096 9 0 7 3
    [mkSegment 100 5; mkSegment 200 2] 0 0 0 0 false.
Definition demo_loaded : Rings * (LoopWorker * PendingSend + bool) :=
  load_send demo_worker demo_rings demo_view.

Lemma send_stream_exact_witness :
  concat (source_bytes <$> (emit 4 3 demo_parent).1) = [100; 101; 102; 103; 104; 200; 201].
Proof.
  destruct demo_loaded as [r [[w' p]|b]] eqn:E; vm_compute in E; [|discriminate E].
  destruct (send_stream_exact demo_worker demo_rings demo_view r w' p)
    as (_ & _ & _ & _ & slot & Hp & Hb); [by vm_compute|exact E| |].
  - injection E as _ _ <-. done.
  - injection E as _ _ <-. vm_compute in Hp. injection Hp as <-. exact Hb.
Defined.

Definition demo_datagrams : list RequestDatagram := (emit 4 3 demo_parent).1.
Definition demo_first : RequestDatagram :=
  mkRequestDatagram 42949672961 10 11 rdma_write 4096 9 0 7 0 100 4 0 3.

Lemma demo_receiving : receiving 4 (new_parent demo_first 4096 None) (demo_first :: drop 1 demo_datagrams).
Proof.
  split; [|by vm_compute|by vm_compute|by vm_compute|by vm_compute].
  vm_compute drop. repeat constructor.
Qed.

Lemma responder_accepts_payload_witness :
  ∃ w' rings', accept_payload demo_worker (new_transport 4 4) ∅ demo_view demo_first
      (new_parent demo_first 4096 None) true = (w', new_transport 4 4, rings', true) ∧
    pending_backend_ w' = [mkBackendRequest 42949672961 7 0 100 4096 4 0 3].
Proof.
  destruct (responder_accepts_payload 4 demo_worker (new_transport 4 4) ∅ demo_view demo_first
    (drop 1 demo_datagrams) (new_parent demo_first 4096 None) true demo_receiving)
    as (w' & r' & Ha & _ & Hb & _); [simpl; unfold kBackendBatchCapacity; lia|done|].
  exists w', r'. split; [exact Ha|exact Hb].
Defined.

End Stream.
