(* ===== verification/WorkerRespond.v ===== *)
(** The responder's bookkeeping and the answers of both workers
    (src/worker/worker.cpp): the invariant of the tables, one response per parent in
    arrival order, one completion per response, and termination of a round. *)

From S2P Require Import Prelude SharedRing RingSpsc Descriptors CompletionQueue LocalTransport.
From S2P Require Import Worker.
Import Ring Spsc CompletionQueue Transport Worker.

Module Respond.

(** * The invariant of the responder *)

Definition count_true (l : list bool) : Z := Z.of_nat (length (filter (λ b, b = true) l)).

(** The vectors of a parent have one entry per payload, and the counters agree
    with them. *)
Record parent_inv (p : ResponderInflight) : Prop := {
  pi_count : is_u32 (rp_payload_count p);
  pi_terminal : Z.of_nat (length (rp_terminal p)) = rp_payload_count p;
  pi_results : Z.of_nat (length (rp_results p)) = rp_payload_count p;
  pi_terminal_count : rp_terminal_count p = count_true (rp_terminal p);
  pi_next : 0 <= rp_next_index p <= rp_payload_count p;
}.

(** The order queue holds exactly the parents in flight, each once. *)
Record resp_inv (w : LoopWorker) : Prop := {
  ri_nodup : NoDup (responder_order_ w);
  ri_dom : ∀ id, id ∈ responder_order_ w ↔ is_Some (responder_inflight_ w !! id);
  ri_parents : map_Forall (λ _ p, parent_inv p) (responder_inflight_ w);
  ri_batch : (length (pending_backend_ w) <= kBackendBatchCapacity)%nat;
  ri_request : ∀ r, pending_request_ w = Some r → is_u32 (payload_count r);
}.

Lemma count_true_insert l i :
  l !! i = Some false → count_true (<[i:=true]> l) = count_true l + 1.
Proof.
  intros Hl. unfold count_true. rewrite <- (take_drop_middle l i false Hl) at 2.
  rewrite insert_take_drop by (by eapply lookup_lt_Some).
  rewrite !filter_app, !filter_cons. simpl. rewrite !length_app. simpl. lia.
Qed.

Lemma count_true_bound l : 0 <= count_true l <= Z.of_nat (length l).
Proof. unfold count_true. pose proof (length_filter (λ b, b = true) l). lia. Qed.

Lemma count_true_all l : count_true l = Z.of_nat (length l) → Forall (λ b, b = true) l.
Proof.
  unfold count_true. induction l as [|[] l IH]; intros H; [constructor| |].
  - rewrite filter_cons_True in H by done. simpl in H. constructor; [done|]. apply IH. lia.
  - rewrite filter_cons_False in H by done. pose proof (length_filter (λ b, b = true) l).
    simpl in H. lia.
Qed.

Lemma count_true_replicate n : count_true (replicate n false) = 0.
Proof. unfold count_true. induction n; [done|]. simpl. by rewrite filter_cons_False. Qed.

Lemma parent_inv_error p e : parent_inv p → parent_inv (with_error p e).
Proof. by intros []; split. Qed.
Lemma parent_inv_consumed p : parent_inv p → parent_inv (with_consumed p).
Proof. by intros []; split. Qed.
#[local] Hint Resolve parent_inv_error parent_inv_consumed : ugdr.

Lemma parent_inv_terminal p i r :
  parent_inv p → 0 <= i < rp_payload_count p → default false (rp_terminal p !! Z.to_nat i) = false →
  parent_inv (with_terminal p (Z.to_nat i) r).
Proof.
  intros [Hc Ht Hr Htc Hn] Hi Hf.
  destruct (lookup_lt_is_Some_2 (rp_terminal p) (Z.to_nat i)) as [b Hb]; [lia|].
  rewrite Hb in Hf. simpl in Hf. subst b.
  split; cbn; rewrite ?length_insert; try done. rewrite Htc, count_true_insert by done.
  pose proof (count_true_bound (<[Z.to_nat i := true]> (rp_terminal p))) as Hbd.
  rewrite count_true_insert, length_insert in Hbd by done. apply u32_small. ulia.
Qed.

Lemma parent_inv_new r target recv : is_u32 (payload_count r) → parent_inv (new_parent r target recv).
Proof.
  intros Hc. split; cbn; rewrite ?length_replicate, ?count_true_replicate; try done; ulia.
Qed.

(** Changing one parent keeps the tables consistent. *)
Lemma resp_inv_set w id p p' :
  resp_inv w → responder_inflight_ w !! id = Some p → parent_inv p' →
  resp_inv (with_responders w (<[id := p']> (responder_inflight_ w))).
Proof.
  intros [Hn Hd Hp Hb Hq] Hl Hp'. split; cbn; try done.
  - intros id'. rewrite Hd. destruct (decide (id' = id)) as [->|Hne].
    + rewrite lookup_insert_eq, Hl. by split; eauto.
    + by rewrite lookup_insert_ne.
  - by apply map_Forall_insert_2.
Qed.

Lemma resp_inv_request w r :
  resp_inv w → (∀ r', r = Some r' → is_u32 (payload_count r')) → resp_inv (with_pending_request w r).
Proof. intros [] Hr. by split. Qed.

Lemma apply_completion_inv w cs :
  resp_inv w → Forall (λ c, 0 <= bc_index c) cs →
  resp_inv (with_responders w (foldl apply_completion (responder_inflight_ w) cs)).
Proof.
  intros Hw Hcs. revert w Hw. induction Hcs as [|c cs Hc Hcs IH]; intros w Hw; [by destruct Hw; split|].
  cbn [foldl].
  assert (resp_inv (with_responders w (apply_completion (responder_inflight_ w) c))) as Hw'.
  { unfold apply_completion. destruct (responder_inflight_ w !! bc_parent c) as [p|] eqn:Hl;
      [|by destruct Hw; split].
    pose proof (ri_parents _ Hw _ _ Hl) as Hp.
    destruct (_ || _) eqn:E; (eapply resp_inv_set; [done|done|]); [auto with ugdr|].
    apply orb_false_iff in E as [E1 E2]. bool_hyps. apply parent_inv_terminal; [done|lia|done]. }
  specialize (IH _ Hw'). exact IH.
Qed.

(** ** Every operation preserves it *)

Section Backend.
Context {B : Type} `{CopyBackend B}.

Lemma try_backend_completions_inv w (b : B) w' b' r :
  resp_inv w → Forall (λ c, 0 <= bc_index c) (try_pop_completion_batch b kBackendBatchCapacity).2 →
  try_backend_completions w b = (w', b', r) → resp_inv w'.
Proof.
  intros Hw Hf. unfold try_backend_completions.
  destruct (try_pop_completion_batch b _) as [b1 cs]. case_decide; intros [= <- <- <-]; [done|].
  by apply apply_completion_inv.
Qed.

Lemma try_flush_inv w (b : B) w' b' r :
  resp_inv w → try_flush_backend_requests w b = (w', b', r) → resp_inv w'.
Proof.
  intros Hw. unfold try_flush_backend_requests. case_decide; [by intros [= <- <- <-]|].
  destruct (try_submit_batch b _) as [b1 n]. destruct (_ || _); [by intros [= <- <- <-]|].
  destruct (flush_submissions b1) as [b2 ?]. intros [= <- <- <-]. destruct Hw. split; cbn; try done.
  rewrite length_drop. lia.
Qed.
End Backend.

Lemma resp_inv_pop w id order :
  resp_inv w → responder_order_ w = id :: order →
  resp_inv (with_order (with_responders w (delete id (responder_inflight_ w))) order).
Proof.
  intros [Hn Hd Hp Hb Hq] Ho. rewrite Ho in Hn, Hd. inversion Hn as [|? ? Hnin Hn']; subst.
  split; cbn; try done.
  - intros id'. destruct (decide (id' = id)) as [->|Hne].
    + rewrite lookup_delete_eq. split; [done|]. by intros [? ?].
    + rewrite lookup_delete_ne, <- Hd, elem_of_cons by done. tauto.
  - by apply map_Forall_delete.
Qed.

Lemma try_parent_response_inv w t rings view w' t' rings' b :
  resp_inv w → try_parent_response w t rings view = (w', t', rings', b) → resp_inv w'.
Proof.
  intros Hw. unfold try_parent_response. destruct (responder_order_ w) as [|id order] eqn:Ho;
    [by intros [= <- <- <- <-]|].
  destruct (responder_inflight_ w !! id) as [p|] eqn:Hl.
  2:{ exfalso. pose proof (proj1 (ri_dom _ Hw id)) as Hd. rewrite Ho, Hl in Hd.
      destruct Hd as [? ?]; [by left|done]. }
  destruct (_ || _); [by intros [= <- <- <- <-]|].
  destruct (if bool_decide _ && _ then _ else _) as [r1 [slot|e]]; [|by intros [= <- <- <- <-]].
  destruct (try_push_response t _) as [t1 []]; [|by intros [= <- <- <- <-]].
  destruct (if bool_decide _ && _ then _ else _) as [r2 st].
  destruct (negb (st =? 0)); intros [= <- <- <- <-]; [done|]. by apply resp_inv_pop.
Qed.

Lemma valid_payload_index p r :
  valid_payload p r = true → rp_payload_count p ≠ 0 → rp_next_index p < rp_payload_count p.
Proof.
  intros Hv Hne. unfold valid_payload in Hv. rewrite (proj2 (Z.eqb_neq _ _) Hne) in Hv.
  apply andb_true_iff in Hv as [_ Hv]. cbn [negb andb orb] in Hv. bool_hyps. lia.
Qed.

Lemma parent_inv_next p o :
  parent_inv p → rp_next_index p < rp_payload_count p →
  parent_inv (with_next p o (u32 (rp_next_index p + 1))).
Proof. intros [] Hlt. split; cbn; try done. rewrite u32_small by ulia. lia. Qed.

Lemma resp_inv_batch w b :
  resp_inv w → (length (pending_backend_ w) < kBackendBatchCapacity)%nat →
  resp_inv (with_pending_backend w (pending_backend_ w ++ [b])).
Proof. intros [] Hlt. split; cbn; try done. rewrite length_app. simpl. lia. Qed.

Lemma resp_inv_new w r target recv :
  resp_inv w → is_u32 (payload_count r) → responder_inflight_ w !! parent_request_id r = None →
  resp_inv (with_order (with_responders w
              (<[parent_request_id r := new_parent r target recv]> (responder_inflight_ w)))
              (responder_order_ w ++ [parent_request_id r])).
Proof.
  intros [Hn Hd Hp Hb Hq] Hr Hl. split; cbn; try done.
  - apply NoDup_app. split; [done|]. split; [|apply NoDup_singleton].
    intros id Hin ->%list_elem_of_singleton. apply Hd in Hin as [? ?]. congruence.
  - intros id. rewrite elem_of_app, list_elem_of_singleton, Hd.
    destruct (decide (id = parent_request_id r)) as [->|Hne].
    + rewrite lookup_insert_eq. split; [eauto|by right].
    + rewrite lookup_insert_ne by done. tauto.
  - apply map_Forall_insert_2; [by apply parent_inv_new|done].
Qed.

Lemma accept_payload_inv w t rings view r p loaded w' t' rings' b :
  resp_inv w → responder_inflight_ w !! parent_request_id r = Some p →
  accept_payload w t rings view r p loaded = (w', t', rings', b) → resp_inv w'.
Proof.
  intros Hw Hl. pose proof (ri_parents _ Hw _ _ Hl) as Hp. unfold accept_payload.
  destruct (negb (valid_payload p r)) eqn:Hv.
  { intros [= <- <- <- <-]. eapply resp_inv_set; eauto with ugdr. }
  bool_hyps. destruct (rp_payload_count p =? 0) eqn:Hz.
  - destruct (if _ && _ then _ else _) as [r1 st]. destruct (negb (st =? 0)); [by intros [= <- <- <- <-]|].
    intros [= <- <- <- <-]. apply resp_inv_request; [|done]. destruct (_ && _); [|done].
    eapply resp_inv_set; eauto with ugdr.
  - destruct (_ =? kBackendBatchCapacity)%nat eqn:Hfull; [by intros [= <- <- <- <-]|].
    destruct (if _ && _ then _ else _) as [r1 st]. destruct (negb (st =? 0)); [by intros [= <- <- <- <-]|].
    intros [= <- <- <- <-]. apply resp_inv_request; [|done]. bool_hyps.
    apply (resp_inv_set (with_pending_backend w (pending_backend_ w ++ [backend_request r p]))
             (parent_request_id r) p); [apply resp_inv_batch; [done|]|done|].
    { pose proof (ri_batch _ Hw). lia. }
    assert (∀ q, parent_inv q → rp_next_index q = rp_next_index p →
      rp_payload_count q = rp_payload_count p → parent_inv (with_next q
        (u64 (rp_next_offset q + payload_length r)) (u32 (rp_next_index q + 1)))) as Hnext.
    { intros q Hq Hi Hc. apply parent_inv_next; [done|]. rewrite Hi, Hc.
      by eapply valid_payload_index. }
    destruct (rp_has_receive p && negb (rp_receive_consumed p)); destruct (_ && _);
      try apply parent_inv_error; apply Hnext; auto with ugdr.
Qed.

Section Requests.
Context `{KeyResolver}.

Lemma handle_request_inv w t rings view r loaded w' t' rings' b :
  resp_inv w → is_u32 (payload_count r) →
  handle_request w t rings view r loaded = (w', t', rings', b) → resp_inv w'.
Proof.
  intros Hw Hr.
  assert (∀ res, reject_request w t rings (parent_request_id r) res loaded = (w', t', rings', b) →
    resp_inv w') as Hrej.
  { intros res. unfold reject_request. destruct (try_push_response t _) as [t1 []];
      intros [= <- <- <- <-]; [by apply resp_inv_request|done]. }
  unfold handle_request. destruct (_ || _); [apply Hrej|].
  destruct (responder_inflight_ w !! parent_request_id r) as [p|] eqn:Hl;
    [by apply accept_payload_inv|].
  destruct (negb (valid_first r)); [apply Hrej|].
  destruct (resolve_rkey _ _ _ _ _) as [target|]; [|apply Hrej].
  destruct (if decide _ then _ else _) as [r1 [recv|]]; [|by intros [= <- <- <- <-]].
  apply accept_payload_inv; [by apply resp_inv_new|by cbn; rewrite lookup_insert_eq].
Qed.

Lemma try_request_inv w t rings view w' t' rings' b :
  resp_inv w → Forall (λ r, is_u32 (payload_count r)) (requests_ t) →
  try_request w t rings view = (w', t', rings', b) → resp_inv w'.
Proof.
  intros Hw Hf. unfold try_request. destruct (pending_request_ w) as [r|] eqn:Hp.
  { apply handle_request_inv; [done|]. by eapply (ri_request _ Hw). }
  unfold try_pop_request. destruct (requests_ t) as [|r rest]; cbn [try_pop]; [by intros [= <- <- <- <-]|].
  inversion Hf; subst. apply handle_request_inv; [|done]. apply resp_inv_request; [done|].
  by intros r' [= <-].
Qed.

End Requests.

(** * Properties *)

Section Reachable.
Context {B : Type} `{CopyBackend B} `{KeyResolver}.

(** One operation of the responder of a QP, with any transport, rings and backend
    around it.  The members of a datagram and of a completion have their C++ widths. *)
Inductive responder_step (qp : Z) : LoopWorker → LoopWorker → Prop :=
| did_completions w (b : B) w' b' r :
    Forall (λ c, 0 <= bc_index c) (try_pop_completion_batch b kBackendBatchCapacity).2 →
    try_backend_completions w b = (w', b', r) → responder_step qp w w'
| did_flush w (b : B) w' b' r :
    try_flush_backend_requests w b = (w', b', r) → responder_step qp w w'
| did_response w t rings view w' t' rings' r :
    try_parent_response w t rings view = (w', t', rings', r) → responder_step qp w w'
| did_request w t rings view w' t' rings' r :
    qp_num view = qp → Forall (λ d, is_u32 (payload_count d)) (requests_ t) →
    try_request w t rings view = (w', t', rings', r) → responder_step qp w w'.

Lemma responder_step_inv qp w w' : responder_step qp w w' → resp_inv w → resp_inv w'.
Proof.
  intros [] Hw; [by eapply try_backend_completions_inv|by eapply try_flush_inv
    |by eapply try_parent_response_inv|by eapply try_request_inv].
Qed.

Lemma responder_steps_inv qp w w' : rtc (responder_step qp) w w' → resp_inv w → resp_inv w'.
Proof. induction 1; eauto using responder_step_inv. Qed.

Lemma new_worker_inv qp payload_bytes observer :
  resp_inv (new_worker qp responder payload_bytes observer).
Proof.
  split; cbn; [constructor| |apply map_Forall_empty|lia|done].
  intros id. rewrite lookup_empty. split; [by intros ?%not_elem_of_nil|by intros [? ?]].
Qed.

(** (C26) In every state a responder can reach, the order queue lists exactly the
    parents in flight, each once; every parent has one flag and one result per
    payload, its terminal count is the number of flags set and its next index does
    not pass the payload count, so the indexed accesses stay in bounds; and the
    backend batch never exceeds its array. *)
Theorem responder_invariant qp payload_bytes observer w :
  rtc (responder_step qp) (new_worker qp responder payload_bytes observer) w → resp_inv w.
Proof.
  intros Hr. exact (responder_steps_inv qp _ w Hr (new_worker_inv _ _ _)).
Qed.

(** A later payload of a parent in flight that is not the one expected. *)
Definition wedged (qp : Z) (r : RequestDatagram) (w : LoopWorker) : Prop :=
  pending_request_ w = Some r ∧ target_qp_num r = qp ∧ parent_total_length r <= U32_MAX ∧
  ∃ p, responder_inflight_ w !! parent_request_id r = Some p ∧ valid_payload p r = false ∧
       rp_next_index p ≠ rp_payload_count p.

Lemma apply_completion_parent m c id p :
  m !! id = Some p → ∃ p', apply_completion m c !! id = Some p' ∧
    (∀ r, valid_payload p' r = valid_payload p r) ∧
    rp_next_index p' = rp_next_index p ∧ rp_payload_count p' = rp_payload_count p.
Proof.
  intros Hl. unfold apply_completion. destruct (m !! bc_parent c) as [q|] eqn:Hq; [|by exists p].
  destruct (decide (bc_parent c = id)) as [Heq|Hne].
  - subst id. assert (q = p) as -> by congruence. destruct (_ || _); rewrite lookup_insert_eq; by eexists.
  - destruct (_ || _); rewrite lookup_insert_ne by done; by exists p.
Qed.

Lemma apply_completions_parent cs m id p :
  m !! id = Some p → ∃ p', foldl apply_completion m cs !! id = Some p' ∧
    (∀ r, valid_payload p' r = valid_payload p r) ∧
    rp_next_index p' = rp_next_index p ∧ rp_payload_count p' = rp_payload_count p.
Proof.
  revert m p. induction cs as [|c cs IH]; intros m p Hl; [by exists p|]. cbn [foldl].
  destruct (apply_completion_parent m c id p Hl) as (p1 & Hl1 & Hv1 & Hn1 & Hc1).
  destruct (IH _ _ Hl1) as (p2 & Hl2 & Hv2 & Hn2 & Hc2). exists p2. split; [done|].
  split; [intros r; by rewrite Hv2|]. split; congruence.
Qed.

Lemma wedged_response qp r w t rings view w' t' rings' b :
  wedged qp r w → try_parent_response w t rings view = (w', t', rings', b) → wedged qp r w'.
Proof.
  intros (Hp & Ht & Hl & p & Hlk & Hv & Hn). unfold try_parent_response.
  assert (wedged qp r w) as Hw by (split_and!; eauto).
  destruct (responder_order_ w) as [|id order]; [by intros [= <- <- <- <-]|].
  destruct (responder_inflight_ w !! id) as [q|] eqn:Hq; [|intros [= <- <- <- <-]; split_and!; eauto].
  destruct (_ || _) eqn:E; [by intros [= <- <- <- <-]|]. bool_hyps.
  assert (parent_request_id r ≠ id) as Hne by (intros <-; rewrite Hlk in Hq; injection Hq as <-; by apply Hn).
  destruct (if bool_decide _ && _ then _ else _) as [r1 [slot|e]]; [|by intros [= <- <- <- <-]].
  destruct (try_push_response t _) as [t1 []]; [|by intros [= <- <- <- <-]].
  destruct (if bool_decide _ && _ then _ else _) as [r2 st].
  destruct (negb (st =? 0)); intros [= <- <- <- <-]; [done|].
  split_and!; try done. exists p. cbn. by rewrite lookup_delete_ne.
Qed.

Lemma wedged_request qp r w t rings view w' t' rings' b :
  wedged qp r w → qp_num view = qp → try_request w t rings view = (w', t', rings', b) →
  wedged qp r w' ∧ t' = t ∧ b = false.
Proof.
  intros (Hp & Ht & Hl & p & Hlk & Hv & Hn) Hqp. unfold try_request, handle_request, accept_payload.
  rewrite Hp, Ht, Hqp, Z.eqb_refl, (proj2 (Z.ltb_ge _ _) Hl), Hlk, Hv. cbn [negb orb].
  intros [= <- <- <- <-]. split; [|done]. split_and!; try done.
  exists (with_error p remote_invalid_request). cbn. by rewrite lookup_insert_eq.
Qed.

(** A later payload that is not the one expected stops the responder for good:
    [try_request] notes the error in the parent but keeps the datagram pending, and the
    parent is never complete, so from then on whatever the responder does, that
    datagram is still the pending one, no other datagram is taken from the transport
    and the requester is not answered. *)
Theorem invalid_payload_wedges qp r w w' :
  wedged qp r w → rtc (responder_step qp) w w' →
  pending_request_ w' = Some r ∧ is_Some (responder_inflight_ w' !! parent_request_id r) ∧
  ∀ t rings view, qp_num view = qp →
    (try_request w' t rings view).1.1.2 = t ∧ (try_request w' t rings view).2 = false.
Proof.
  intros Hw Hr. assert (wedged qp r w') as Hw'.
  { induction Hr as [|? ? ? Hs Hr IH]; [done|]. apply IH. clear IH Hr.
    destruct Hs as [w b w1 b' o _ Hs|w b w1 b' o Hs|w t g v w1 t' g' o Hs|w t g v w1 t' g' o Hv _ Hs];
      [| |by eapply wedged_response|by eapply wedged_request].
    - destruct Hw as (Hp & Ht & Hl & p & Hlk & Hv & Hn). unfold try_backend_completions in Hs.
      destruct (try_pop_completion_batch _ _) as [b1 cs]. case_decide; injection Hs as <- _ _;
        [split_and!; eauto|]. split_and!; try done.
      destruct (apply_completions_parent cs _ _ _ Hlk) as (p' & Hp' & Hv' & Hn' & Hc').
      exists p'. cbn. rewrite Hv', Hn', Hc'. by split_and!.
    - unfold try_flush_backend_requests in Hs. case_decide; [by injection Hs as <- _ _|].
      destruct (try_submit_batch _ _) as [b1 n]. destruct (_ || _); [by injection Hs as <- _ _|].
      destruct (flush_submissions b1) as [b2 ?]. by injection Hs as <- _ _. }
  split; [apply Hw'|]. split; [destruct Hw' as (_ & _ & _ & p & -> & _); eauto|].
  intros t g view Hv. destruct (try_request w' t g view) as [[[w1 t1] g1] b1] eqn:E.
  by apply (wedged_request qp r) in E as (_ & -> & ->).
Qed.

End Reachable.

Lemma parent_result_success p :
  parent_result p = success ↔ rp_error p = success ∧ Forall (λ r, r = success) (rp_results p).
Proof.
  unfold parent_result. case_decide as He; [|by split; [|intros [? _]]].
  transitivity (Forall (λ r, r = success) (rp_results p)); [|by split; [split|intros [_ ?]]].
  induction (rp_results p) as [|r l IH]; [done|]. destruct (decide (r = success)) as [->|Hr].
  - rewrite filter_cons_False by (intros Hn; by apply Hn). rewrite IH, Forall_cons. by split; [|intros [_ ?]].
  - rewrite filter_cons_True by done. simpl. rewrite Forall_cons. by split; [|intros [? _]].
Qed.

(** The responder answers a parent once, in order of arrival, and only when it
    is complete: a step that succeeds answers the parent at the front of the order
    queue, all of whose payloads have arrived and are terminal; the answer is
    success exactly if no error was noted and every payload succeeded; the parent
    leaves the tables, so it is not answered again. *)
Theorem parent_response_sound w t rings view w' t' rings' :
  resp_inv w → try_parent_response w t rings view = (w', t', rings', true) →
  ∃ id order p, responder_order_ w = id :: order ∧ responder_inflight_ w !! id = Some p ∧
    rp_next_index p = rp_payload_count p ∧ Forall (λ b, b = true) (rp_terminal p) ∧
    responses_ t' = responses_ t ++ [mkResponseDatagram id (parent_result p) 0] ∧
    requests_ t' = requests_ t ∧
    (parent_result p = success ↔ rp_error p = success ∧ Forall (λ r, r = success) (rp_results p)) ∧
    responder_order_ w' = order ∧ (id ∉ order) ∧
    responder_inflight_ w' = delete id (responder_inflight_ w).
Proof.
  intros Hw. unfold try_parent_response. destruct (responder_order_ w) as [|id order] eqn:Ho; [done|].
  destruct (responder_inflight_ w !! id) as [p|] eqn:Hl.
  2:{ exfalso. pose proof (proj1 (ri_dom _ Hw id)) as Hd. rewrite Ho, Hl in Hd.
      destruct Hd as [? ?]; [by left|done]. }
  destruct (_ || _) eqn:Hdone; [done|]. bool_hyps.
  destruct (if bool_decide _ && _ then _ else _) as [r1 [slot|e]]; [|done].
  destruct (try_push_response t _) as [t1 []] eqn:Hpush; [|done].
  destruct (if bool_decide _ && _ then _ else _) as [r2 st].
  destruct (negb (st =? 0)); [done|]. intros [= <- <- <-].
  pose proof (ri_parents _ Hw _ _ Hl) as [_ Ht _ Htc _].
  unfold try_push_response in Hpush. destruct (try_push _ _ _) as [q ok] eqn:Hq.
  apply try_push_spec in Hq as [-> _]. injection Hpush as <- ->.
  exists id, order, p. split; [done|]. split; [done|]. split; [done|].
  split; [apply count_true_all; congruence|]. split; [done|]. split; [done|].
  split; [apply parent_result_success|]. split; [done|]. split; [|done].
  pose proof (ri_nodup _ Hw) as Hn. rewrite Ho in Hn. by inversion Hn.
Qed.

(** The requester completes a work request once: a response for a request in
    flight removes it, with exactly one completion entry produced when the request
    is signaled or failed and none otherwise, and one event for the observer; when
    the completion queue has no room nothing is consumed and the response stays
    pending; a response for no request in flight is dropped. *)
Theorem response_completes_once w rings view r loaded w' rings' ev b :
  handle_response w rings view r loaded = (w', rings', ev, b) →
  match requester_inflight_ w !! response_parent r with
  | None => w' = with_pending_response w None ∧ rings' = rings ∧ ev = [] ∧ b = true
  | Some q =>
      let entry := send_completion (rq_wr_id q) (qp_num view) (response_result r) in
      let needed := negb (bool_decide (response_result r = success)) || rq_signaled q in
      (rings' = if needed then (produce rings (send_cq view) [entry]).1 else rings) ∧
      if needed && negb ((produce rings (send_cq view) [entry]).2 =? 1)
      then w' = w ∧ ev = [] ∧ b = loaded
      else requester_inflight_ w' = delete (response_parent r) (requester_inflight_ w) ∧
           pending_response_ w' = None ∧ b = true ∧
           ev = (if observer_ w
                 then [mkParentCompletion (response_parent r) (rq_wr_id q) (rq_logical_bytes q)
                         (rq_payload_count q) (response_result r)] else [])
  end.
Proof.
  unfold handle_response. destruct (requester_inflight_ w !! response_parent r) as [q|];
    [|by intros [= <- <- <- <-]].
  cbv zeta. destruct (negb _ || rq_signaled q); cbn [andb].
  - destruct (produce rings (send_cq view) _) as [r1 n]. cbn [fst snd].
    destruct (negb (n =? 1)); intros [= <- <- <- <-]; by split_and!.
  - intros [= <- <- <- <-]. by split_and!.
Qed.

(** ** Termination *)

(** A loop whose successful iterations decrease a measure ends within that fuel. *)
Lemma while_true_terminates {A} (f : A → A * bool) (m : A → nat) (P : A → Prop) fuel s :
  (∀ s s', P s → f s = (s', true) → P s' ∧ (m s' < m s)%nat) →
  P s → (m s < fuel)%nat →
  ∃ s0 s' b, while_true f fuel s = Some (s', b) ∧ P s0 ∧ (m s0 <= m s)%nat ∧ f s0 = (s', false).
Proof.
  intros Hf. revert s. induction fuel as [|fuel IH]; intros s Hs Hm; [lia|]. cbn [while_true].
  destruct (f s) as [s1 []] eqn:E; [|by exists s, s1, false; split_and!].
  destruct (Hf _ _ Hs E) as (Hs1 & Hlt).
  destruct (IH s1 Hs1) as (s0 & s2 & b & -> & Hs0 & Hle2 & Hend); [lia|].
  cbn. exists s0, s2, true. split_and!; try done. lia.
Qed.

(** How much a backend can still yield, and that submissions add at most one
    completion each. *)
Class CopyBackendDrains (B : Type) `{CopyBackend B} := {
  drain : B → nat;
  drain_pop : ∀ b n,
    (drain (try_pop_completion_batch b n).1 + length (try_pop_completion_batch b n).2 <= drain b)%nat;
  drain_submit : ∀ b l,
    (drain (try_submit_batch b l).1 <= drain b + (try_submit_batch b l).2)%nat ∧
    ((try_submit_batch b l).2 <= length l)%nat;
  drain_flush : ∀ b, (drain (flush_submissions b).1 <= drain b)%nat;
}.

Section Terminates.
Context {B : Type} `{CopyBackend B} `{!CopyBackendDrains B} `{KeyResolver}.

Definition request_work (s : World B) : nat :=
  2 * length (requests_ (transport s)) +
  match pending_request_ (worker s) with Some _ => 1 | None => 0 end.

(** What bounds the loops of a responder's round. *)
Definition round_work (s : World B) : nat :=
  drain (backend s) + length (responder_order_ (worker s)) + length (pending_backend_ (worker s)) +
  request_work s + kBackendBatchCapacity + kBackendBatchCapacity.

Lemma step_backend_work (s s' : World B) b :
  step_backend s = (s', b) →
  ((drain (backend s') <= drain (backend s))%nat ∧
   (b = true → (drain (backend s') < drain (backend s))%nat)) ∧
  responder_order_ (worker s') = responder_order_ (worker s) ∧
  pending_backend_ (worker s') = pending_backend_ (worker s) ∧ request_work s' = request_work s ∧
  role_ (worker s') = role_ (worker s).
Proof.
  unfold step_backend, try_backend_completions.
  pose proof (drain_pop (backend s) kBackendBatchCapacity) as Hd.
  destruct (try_pop_completion_batch (backend s) kBackendBatchCapacity) as [b1 cs]. cbn in Hd.
  case_decide as Hn; intros [= <- <-]; cbn; (split; [|done]).
  - split; [lia|done].
  - destruct cs; [done|]. cbn in Hd. split; lia.
Qed.

Lemma step_parent_work view (s s' : World B) b :
  step_parent view s = (s', b) →
  (length (responder_order_ (worker s')) <= length (responder_order_ (worker s)))%nat ∧
  (b = true → (length (responder_order_ (worker s')) < length (responder_order_ (worker s)))%nat) ∧
  backend s' = backend s ∧ pending_backend_ (worker s') = pending_backend_ (worker s) ∧
  request_work s' = request_work s.
Proof.
  unfold step_parent, try_parent_response, request_work.
  destruct (responder_order_ (worker s)) as [|id order] eqn:Ho;
    [intros [= <- <-]; cbn; rewrite Ho; simpl; by split_and!|].
  destruct (responder_inflight_ _ !! id) as [p|]; [|intros [= <- <-]; cbn; split_and!; done || lia].
  destruct (_ || _); [intros [= <- <-]; cbn; rewrite Ho; by split_and!|].
  destruct (if bool_decide _ && _ then _ else _) as [r1 [slot|e]];
    [|intros [= <- <-]; cbn; rewrite Ho; by split_and!].
  destruct (try_push_response (transport s) _) as [t1 ok] eqn:Hp.
  assert (requests_ t1 = requests_ (transport s)) as Hrq.
  { unfold try_push_response in Hp. destruct (try_push _ _ _). by injection Hp as <- _. }
  destruct ok; [|intros [= <- <-]; cbn; rewrite Ho, Hrq; by split_and!].
  destruct (if bool_decide _ && _ then _ else _) as [r2 st].
  destruct (negb (st =? 0)); intros [= <- <-]; cbn; rewrite ?Ho, Hrq; split_and!; done || (simpl; lia).
Qed.

Lemma accept_payload_work w t rings view r p loaded w' t' rings' b :
  accept_payload w t rings view r p loaded = (w', t', rings', b) → pending_request_ w = Some r →
  (length (pending_backend_ w) <= kBackendBatchCapacity)%nat →
  t' = t ∧ (length (responder_order_ w') = length (responder_order_ w)) ∧
  (length (pending_backend_ w') <= kBackendBatchCapacity)%nat ∧
  (pending_request_ w' = Some r ∧ (b = true → loaded = true) ∨ pending_request_ w' = None).
Proof.
  intros Ha Hp Hb. unfold accept_payload in Ha. destruct (negb (valid_payload p r)).
  { injection Ha as <- <- <- <-. cbn. split_and!; try done. by left. }
  destruct (rp_payload_count p =? 0).
  - destruct (if _ && _ then _ else _) as [r1 st]. destruct (negb (st =? 0)); injection Ha as <- <- <- <-.
    + split_and!; try done. by left.
    + cbn. destruct (_ && _); cbn; split_and!; try done; by right.
  - destruct (_ =? kBackendBatchCapacity)%nat eqn:Hf; [injection Ha as <- <- <- <-; split_and!; try done; by left|].
    destruct (if _ && _ then _ else _) as [r1 st].
    destruct (negb (st =? 0)); injection Ha as <- <- <- <-; [split_and!; try done; by left|].
    bool_hyps. cbn.
    rewrite length_app. split_and!; [done|done|simpl; lia|by right].
Qed.

Lemma handle_request_work w t rings view r loaded w' t' rings' b :
  handle_request w t rings view r loaded = (w', t', rings', b) → pending_request_ w = Some r →
  (length (pending_backend_ w) <= kBackendBatchCapacity)%nat →
  requests_ t' = requests_ t ∧
  (length (responder_order_ w') <= S (length (responder_order_ w)))%nat ∧
  (length (pending_backend_ w') <= kBackendBatchCapacity)%nat ∧
  (pending_request_ w' = Some r ∧ (b = true → loaded = true) ∨ pending_request_ w' = None).
Proof.
  intros Hh Hp Hb.
  assert (∀ res, reject_request w t rings (parent_request_id r) res loaded = (w', t', rings', b) →
    requests_ t' = requests_ t ∧ (length (responder_order_ w') <= S (length (responder_order_ w)))%nat ∧
    (length (pending_backend_ w') <= kBackendBatchCapacity)%nat ∧
    (pending_request_ w' = Some r ∧ (b = true → loaded = true) ∨ pending_request_ w' = None)) as Hrej.
  { intros res. unfold reject_request, try_push_response. destruct (try_push _ _ _) as [q []];
      intros [= <- <- <- <-]; cbn; split_and!; try done; try lia; [by right|by left]. }
  unfold handle_request in Hh. destruct (_ || _); [by apply Hrej in Hh|].
  destruct (responder_inflight_ w !! parent_request_id r) as [p|].
  { apply accept_payload_work in Hh as (-> & -> & ? & ?); [|done|done]. split_and!; try done. lia. }
  destruct (negb (valid_first r)); [by apply Hrej in Hh|].
  destruct (resolve_rkey _ _ _ _ _) as [target|]; [|by apply Hrej in Hh].
  destruct (if decide _ then _ else _) as [r1 [recv|]].
  - apply accept_payload_work in Hh as (-> & Ho & ? & ?); [|done|done]. cbn in Ho.
    rewrite length_app in Ho. simpl in Ho. split_and!; try done. lia.
  - injection Hh as <- <- <- <-. split_and!; try done; [lia|by left].
Qed.

Lemma step_request_work view (s s' : World B) b :
  step_request view s = (s', b) →
  (length (pending_backend_ (worker s)) <= kBackendBatchCapacity)%nat →
  (length (pending_backend_ (worker s')) <= kBackendBatchCapacity)%nat ∧ backend s' = backend s ∧
  (request_work s' <= request_work s)%nat ∧ (b = true → (request_work s' < request_work s)%nat) ∧
  (length (responder_order_ (worker s')) <= S (length (responder_order_ (worker s))))%nat.
Proof.
  intros Hs Hb. unfold step_request, try_request in Hs. unfold request_work.
  destruct (pending_request_ (worker s)) as [r|] eqn:Hp.
  - destruct (handle_request _ _ _ _ _ _) as [[[w1 t1] g1] r1] eqn:Hh. injection Hs as <- <-.
    apply handle_request_work in Hh as (Hq & Ho & Hb' & Hpend); [|done|done]. cbn. rewrite Hq.
    split; [done|]. split; [done|].
    destruct Hpend as [[-> Hl]| ->]; [|split_and!; lia].
    destruct r1; [by specialize (Hl eq_refl)|]. split_and!; done || lia.
  - unfold try_pop_request in Hs.
    destruct (requests_ (transport s)) as [|r rest] eqn:Hrq; cbn [try_pop] in Hs.
    { injection Hs as <- <-. cbn. rewrite Hp. by split_and!; try lia. }
    destruct (handle_request _ _ _ _ _ _) as [[[w1 t1] g1] r1] eqn:Hh. injection Hs as <- <-.
    apply handle_request_work in Hh as (Hq & Ho & Hb' & Hpend); [|done|done]. cbn in *. rewrite Hq.
    destruct Hpend as [[-> _]| ->]; split_and!; done || lia.
Qed.

Lemma step_flush_work (s s' : World B) b :
  step_flush s = (s', b) →
  (drain (backend s') + length (pending_backend_ (worker s'))
     <= drain (backend s) + length (pending_backend_ (worker s)))%nat ∧
  (length (pending_backend_ (worker s')) <= length (pending_backend_ (worker s)))%nat ∧
  responder_order_ (worker s') = responder_order_ (worker s) ∧ request_work s' = request_work s.
Proof.
  unfold step_flush, try_flush_backend_requests, request_work.
  pose proof (drain_submit (backend s) (pending_backend_ (worker s))) as Hd.
  case_decide as Hn; [intros [= <- <-]; by split_and!|].
  destruct (try_submit_batch (backend s) (pending_backend_ (worker s))) as [b1 n]. cbn in Hd.
  destruct (_ || _) eqn:Hr.
  - apply orb_true_iff in Hr as [->%Nat.eqb_eq|?%Nat.ltb_lt]; intros [= <- <-]; cbn; split_and!;
      done || lia.
  - pose proof (drain_flush b1). destruct (flush_submissions b1) as [b2 ?]. intros [= <- <-]. cbn in *.
    rewrite length_drop. split_and!; done || lia.
Qed.

(** The loops of a round. *)
Lemma backend_loop fuel (s : World B) :
  (drain (backend s) < fuel)%nat →
  ∃ s' b, while_true step_backend fuel s = Some (s', b) ∧
    (drain (backend s') <= drain (backend s))%nat ∧
    responder_order_ (worker s') = responder_order_ (worker s) ∧
    pending_backend_ (worker s') = pending_backend_ (worker s) ∧ request_work s' = request_work s.
Proof.
  intros Hf. set (P := λ s', responder_order_ (worker s') = responder_order_ (worker s) ∧
    pending_backend_ (worker s') = pending_backend_ (worker s) ∧ request_work s' = request_work s).
  destruct (while_true_terminates step_backend (λ s, drain (backend s)) P fuel s)
    as (s0 & s' & b & Hw & (Ho & Hp & Hr) & Hm & Hend); [|by split_and!|done|].
  { intros s1 s2 (Ho & Hp & Hr) ([_ Hlt] & Ho' & Hp' & Hr' & _)%step_backend_work.
    split; [|by apply Hlt]. unfold P. rewrite Ho', Hp', Hr'. by split_and!. }
  apply step_backend_work in Hend as ([Hle _] & Ho' & Hp' & Hr' & _).
  exists s', b. rewrite Ho', Hp', Hr'. split_and!; try done. lia.
Qed.

Lemma parent_loop fuel view (s : World B) :
  (length (responder_order_ (worker s)) < fuel)%nat →
  ∃ s' b, while_true (step_parent view) fuel s = Some (s', b) ∧
    (length (responder_order_ (worker s')) <= length (responder_order_ (worker s)))%nat ∧
    backend s' = backend s ∧ pending_backend_ (worker s') = pending_backend_ (worker s) ∧
    request_work s' = request_work s.
Proof.
  intros Hf. set (P := λ s', backend s' = backend s ∧
    pending_backend_ (worker s') = pending_backend_ (worker s) ∧ request_work s' = request_work s).
  destruct (while_true_terminates (step_parent view) (λ s, length (responder_order_ (worker s))) P fuel s)
    as (s0 & s' & b & Hw & (Ho & Hp & Hr) & Hm & Hend); [|by split_and!|done|].
  { intros s1 s2 (Ho & Hp & Hr) (_ & Hlt & Ho' & Hp' & Hr')%step_parent_work.
    split; [|by apply Hlt]. unfold P. rewrite Ho', Hp', Hr'. by split_and!. }
  apply step_parent_work in Hend as (Hle & _ & Ho' & Hp' & Hr').
  exists s', b. rewrite Ho', Hp', Hr'. split_and!; try done. lia.
Qed.

Lemma request_loop fuel view (s : World B) :
  (request_work s < fuel)%nat →
  (length (pending_backend_ (worker s)) <= kBackendBatchCapacity)%nat →
  ∃ s' b, while_true (step_request view) fuel s = Some (s', b) ∧ backend s' = backend s ∧
    (length (pending_backend_ (worker s')) <= kBackendBatchCapacity)%nat ∧
    (length (responder_order_ (worker s'))
       <= S (length (responder_order_ (worker s)) + request_work s))%nat.
Proof.
  intros Hf Hb. set (P := λ s', backend s' = backend s ∧
    (length (pending_backend_ (worker s')) <= kBackendBatchCapacity)%nat ∧
    (length (responder_order_ (worker s')) + request_work s'
       <= length (responder_order_ (worker s)) + request_work s)%nat).
  destruct (while_true_terminates (step_request view) request_work P fuel s)
    as (s0 & s' & b & Hw & (Hbk & Hp & Hr) & Hm & Hend); [|by split_and!|done|].
  { intros s1 s2 (Hbk & Hp & Hr) Hst. apply step_request_work in Hst as (Hp' & Hb' & _ & Hlt & Ho'); [|done].
    specialize (Hlt eq_refl). split; [|done]. unfold P. rewrite Hb'. split_and!; try done. lia. }
  apply step_request_work in Hend as (Hp' & Hb' & _ & _ & Ho'); [|done].
  exists s', b. rewrite Hb'. split_and!; try done. lia.
Qed.

(** (C37) A responder's round ends: with more fuel than the work at hand (what the
    backend can still yield, the datagrams queued, the parents in flight and two
    batches), every loop of [progress_once] terminates and the round returns. *)
Theorem responder_round_terminates fuel view (s : World B) :
  role_ (worker s) = responder → (length (pending_backend_ (worker s)) <= kBackendBatchCapacity)%nat →
  (round_work s < fuel)%nat → is_Some (progress_once fuel (Ok view) s).
Proof.
  intros Hrole Hb Hfuel. unfold round_work in Hfuel. assert (1 <= kBackendBatchCapacity)%nat as Hk by (unfold kBackendBatchCapacity; lia). unfold progress_once. rewrite Hrole.
  destruct (backend_loop fuel s) as (s1 & p1 & -> & Hd1 & Ho1 & Hb1 & Hr1); [lia|]. cbn [mbind option_bind].
  apply (f_equal length) in Ho1, Hb1.
  destruct (parent_loop fuel view s1) as (s2 & p2 & -> & Ho2 & Hk2 & Hb2 & Hr2); [lia|].
  cbn [mbind option_bind]. destruct (step_flush s2) as [s3 p3] eqn:E3.
  apply step_flush_work in E3 as (Hd3 & Hb3 & Ho3 & Hr3).
  apply (f_equal length) in Hb2, Ho3. apply (f_equal drain) in Hk2.
  assert (∃ s4 p4, (if decide (pending_backend_ (worker s3) = []) then
      '(s, p4) ← while_true (step_request view) fuel s3;
      let '(s, p5) := step_flush s in Some (s, p4 || p5)
    else Some (s3, false)) = Some (s4, p4) ∧
    (drain (backend s4) <= drain (backend s3) + kBackendBatchCapacity)%nat ∧
    (length (responder_order_ (worker s4)) <= S (length (responder_order_ (worker s2)) + request_work s))%nat)
    as (s4 & p4 & -> & Hd4 & Ho4).
  { case_decide as Hn.
    - destruct (request_loop fuel view s3) as (s4 & p4 & -> & Hk4 & Hb4 & Ho4); [lia|lia|].
      cbn [mbind option_bind]. destruct (step_flush s4) as [s5 p5] eqn:E5.
      apply step_flush_work in E5 as (Hd5 & Hb5 & Ho5 & Hr5). rewrite Hk4 in Hd5.
      exists s5, (p4 || p5). split; [done|]. rewrite Ho5. split; lia.
    - exists s3, false. split; [done|]. split; lia. }
  cbn [mbind option_bind].
  destruct (backend_loop fuel s4) as (s5 & p6 & -> & Hd5 & Ho5 & _); [lia|]. cbn [mbind option_bind].
  destruct (parent_loop fuel view s5) as (s6 & p7 & -> & _); [rewrite Ho5; lia|]. cbn. eauto.
Qed.

End Terminates.

(** ** Witnesses *)

(** A resolver that grants every range, and a backend that copies at once. *)
#[local] Instance open_resolver : KeyResolver := {
  resolve_lkey session pd key address len := Ok address;
  resolve_rkey session pd key address len := Ok address;
}.
Definition eager_submit (b : list BackendCompletion) (r : BackendRequest) :=
  (b ++ [mkBackendCompletion (br_parent r) (br_index r) success], true).
Definition eager_pop (b : list BackendCompletion) :=
  match b with [] => ([], None) | c :: b => (b, Some c) end.
#[local] Instance eager_backend : CopyBackend (list BackendCompletion) :=
  simple_backend eager_submit eager_pop.

Lemma eager_submit_drains b l :
  (length (default_submit_batch eager_submit b l).1
     <= length b + (default_submit_batch eager_submit b l).2)%nat.
Proof.
  revert b. induction l as [|r l IH]; intros b; simpl; [lia|].
  match goal with |- context [default_submit_batch _ ?b' l] => specialize (IH b') end.
  destruct (default_submit_batch _ _ l). rewrite length_app in IH. simpl in *. lia.
Qed.

Lemma eager_pop_drains n b :
  (length (default_pop_batch eager_pop b n).1 + length (default_pop_batch eager_pop b n).2
     <= length b)%nat.
Proof.
  revert b. induction n as [|n IH]; intros [|c b]; simpl; try lia. specialize (IH b).
  destruct (default_pop_batch eager_pop b n). simpl in *. lia.
Qed.

#[local] Instance eager_drains : CopyBackendDrains (list BackendCompletion) := {|
  drain := length;
  drain_pop b n := eager_pop_drains n b;
  drain_submit b l := conj (eager_submit_drains b l) (default_submit_bound eager_submit b l);
  drain_flush b := Nat.le_refl (length b);
|}.

(** A write of 7 bytes in two payloads, and a second payload with a wrong index. *)
Definition demo_payload0 : RequestDatagram :=
  mkRequestDatagram 42949672961 10 11 rdma_write 4096 9 0 7 0 100 4 0 2.
Definition demo_payload1 : RequestDatagram :=
  mkRequestDatagram 42949672961 10 11 rdma_write 4096 9 0 7 4 104 3 1 2.
Definition demo_misnumbered : RequestDatagram :=
  mkRequestDatagram 42949672961 10 11 rdma_write 4096 9 0 7 4 104 3 5 2.
Definition demo_target : WorkerQpView := mkView 1 2 11 10 4 4 0 1 2 3 4.
Definition demo_responder : LoopWorker := new_worker 11 responder 4 false.
Definition demo_queue (l : list RequestDatagram) : LocalTransport := mkTransport 4 4 l [].
Definition after_request (w : LoopWorker) (r : RequestDatagram) : LoopWorker :=
  (try_request w (demo_queue [r]) ∅ demo_target).1.1.1.

Lemma demo_request_step w r :
  is_u32 (payload_count r) → responder_step (B := list BackendCompletion) 11 w (after_request w r).
Proof.
  intros Hr. unfold after_request.
  destruct (try_request w (demo_queue [r]) ∅ demo_target) as [[[w' t'] g'] b] eqn:E.
  apply (did_request 11 w (demo_queue [r]) ∅ demo_target w' t' g' b); [done| |exact E]. by apply Forall_singleton.
Qed.

Lemma demo_completion_step w (b : list BackendCompletion) :
  Forall (λ c, 0 <= bc_index c) (try_pop_completion_batch b kBackendBatchCapacity).2 →
  responder_step (B := list BackendCompletion) 11 w (try_backend_completions w b).1.1.
Proof.
  intros Hb. destruct (try_backend_completions w b) as [[w' b'] r] eqn:E. by eapply did_completions.
Qed.

Definition demo_received : LoopWorker := after_request (after_request demo_responder demo_payload0) demo_payload1.
Definition demo_copies : list BackendCompletion :=
  [mkBackendCompletion 42949672961 0 success; mkBackendCompletion 42949672961 1 success].
Definition demo_copied : LoopWorker := (try_backend_completions demo_received demo_copies).1.1.

Lemma demo_reachable : rtc (responder_step (B := list BackendCompletion) 11) demo_responder demo_copied.
Proof.
  eapply rtc_l; [by apply (demo_request_step _ demo_payload0)|].
  eapply rtc_l; [by apply (demo_request_step _ demo_payload1)|].
  apply rtc_once, demo_completion_step. vm_compute. repeat constructor; done.
Qed.

Lemma responder_invariant_witness : responder_order_ demo_copied = [42949672961] ∧ resp_inv demo_copied.
Proof.
  split; [by vm_compute|]. exact (responder_invariant 11 4 false demo_copied demo_reachable).
Defined.

Lemma demo_copied_inv : resp_inv demo_copied.
Proof. exact (responder_steps_inv 11 _ _ demo_reachable (new_worker_inv _ _ _)). Qed.

Lemma parent_response_sound_witness :
  ∃ w' t' g', try_parent_response demo_copied (demo_queue []) ∅ demo_target = (w', t', g', true) ∧
    responses_ t' = [mkResponseDatagram 42949672961 success 0] ∧ responder_order_ w' = [].
Proof.
  destruct (try_parent_response demo_copied (demo_queue []) ∅ demo_target) as [[[w' t'] g'] b] eqn:E.
  assert (b = true) as -> by (apply (f_equal snd) in E; vm_compute in E; congruence).
  exists w', t', g'. split; [done|].
  destruct (parent_response_sound _ _ _ _ _ _ _ demo_copied_inv E)
    as (id & order & p & Ho & Hl & _ & _ & Hresp & _ & _ & Ho' & _).
  vm_compute in Ho. injection Ho as <- <-. vm_compute in Hl. injection Hl as <-.
  split; [exact Hresp|exact Ho'].
Defined.

Definition demo_waiting : LoopWorker :=
  with_requesters (new_worker 10 requester 4 false) {[ 5 := mkRequester 77 false 7 2 ]}.

Lemma response_completes_once_witness :
  ∃ w', handle_response demo_waiting ∅ demo_target (mkResponseDatagram 5 success 0) true
        = (w', ∅, [], true) ∧ requester_inflight_ w' = ∅.
Proof.
  destruct (handle_response demo_waiting ∅ demo_target (mkResponseDatagram 5 success 0) true)
    as [[[w' g'] ev] b] eqn:E.
  destruct (response_completes_once _ _ _ _ _ _ _ _ _ E) as [Hg (Hq & _ & Hb & Hev)].
  exists w'. rewrite Hg, Hb, Hev. split; [done|exact Hq].
Defined.

Lemma invalid_payload_wedges_witness :
  let w := after_request (after_request demo_responder demo_payload0) demo_misnumbered in
  wedged 11 demo_misnumbered w ∧
  pending_request_ (try_backend_completions w demo_copies).1.1 = Some demo_misnumbered.
Proof.
  cbv zeta. set (w := after_request _ _).
  assert (wedged 11 demo_misnumbered w) as Hw.
  { split_and!; [by vm_compute|done|by vm_compute|].
    eexists. split; [by vm_compute|]. split; [by vm_compute|]. by vm_compute. }
  split; [exact Hw|].
  refine (proj1 (invalid_payload_wedges 11 demo_misnumbered w _ Hw _)).
  apply rtc_once, demo_completion_step. repeat constructor; done.
Defined.

Lemma responder_round_terminates_witness :
  is_Some (progress_once 200 (Ok demo_target)
    (mkWorld demo_responder (demo_queue [demo_payload0; demo_payload1]) ∅ ([] : list BackendCompletion) [])).
Proof. apply (responder_round_terminates 200 demo_target); [done|simpl; lia|by vm_compute; lia]. Defined.

End Respond.
