(* ===== verification/WorkerRequest.v ===== *)
(** The requester's bookkeeping over a whole run (src/worker/worker.cpp): every work
    request it accepts is in flight or has completed, once. *)

From S2P Require Import Prelude SharedRing Descriptors CompletionQueue LocalTransport Worker.
From S2P Require Import WorkerStream.
Import Ring CompletionQueue Transport Worker Stream.

Module Request.

(** What identifies a work request: its parent identity, the identity the client gave
    it, its length and its number of payloads. *)
Definition ticket : Type := Z * Z * Z * Z.

Definition ticket_of (e : Z * RequesterInflight) : ticket :=
  (e.1, rq_wr_id e.2, rq_logical_bytes e.2, rq_payload_count e.2).
Definition ticket_done (e : ParentCompletionEvent) : ticket :=
  (pce_parent e, pce_wr_id e, pce_bytes e, pce_count e).

Definition in_flight (w : LoopWorker) : list ticket := ticket_of <$> map_to_list (requester_inflight_ w).

Section Run.
Context `{KeyResolver}.

(** The work request that [try_send] takes off the send queue, if it takes one. *)
Definition accepted (w : LoopWorker) (rings : Rings) (view : WorkerQpView) : list ticket :=
  match pending_send_ w with
  | Some _ => []
  | None =>
      match (load_send w rings view).2 with
      | inl (_, p) => [(ps_parent p, ps_wr_id p, ps_total_length p, ps_payload_count p)]
      | inr _ => []
      end
  end.

(** A run of the requester's two operations in any order, with whatever is in the
    transport and in the rings each time: the work requests it accepted and the events
    its observer got. *)
Inductive requester_run : list ticket → list ParentCompletionEvent → LoopWorker → LoopWorker → Prop :=
| run_nil w : requester_run [] [] w w
| run_send acc evs w w1 w2 t rings view t' rings' b :
    try_send w t rings view = (w1, t', rings', b) → requester_run acc evs w1 w2 →
    requester_run (accepted w rings view ++ acc) evs w w2
| run_response acc evs w w1 w2 t rings view t' rings' ev b :
    try_response w t rings view = (w1, t', rings', ev, b) → requester_run acc evs w1 w2 →
    requester_run acc (ev ++ evs) w w2.

Lemma push_payload_requesters w t rings view p w' t' rings' b :
  push_payload w t rings view p = (w', t', rings', b) →
  requester_inflight_ w' = requester_inflight_ w ∧ observer_ w' = observer_ w.
Proof. unfold push_payload. intros Hp. repeat case_match; simplify_eq; done. Qed.

Lemma load_send_requesters w rings view rings' w' p :
  load_send w rings view = (rings', inl (w', p)) →
  ∃ signaled, requester_inflight_ w !! ps_parent p = None ∧ observer_ w' = observer_ w ∧
    requester_inflight_ w' =
      <[ps_parent p := mkRequester (ps_wr_id p) signaled (ps_total_length p) (ps_payload_count p)]>
        (requester_inflight_ w).
Proof.
  unfold load_send. intros Hl. repeat case_match; simplify_eq; by eexists.
Qed.

Lemma in_flight_insert w w' id q :
  requester_inflight_ w !! id = None → requester_inflight_ w' = <[id := q]> (requester_inflight_ w) →
  in_flight w' ≡ₚ ticket_of (id, q) :: in_flight w.
Proof.
  intros Hn He. unfold in_flight. rewrite He, map_to_list_insert by done. done.
Qed.

Lemma in_flight_delete w w' id q :
  requester_inflight_ w !! id = Some q → requester_inflight_ w' = delete id (requester_inflight_ w) →
  in_flight w ≡ₚ ticket_of (id, q) :: in_flight w'.
Proof.
  intros Hs He. apply in_flight_insert; [rewrite He; apply lookup_delete_eq|].
  by rewrite He, insert_delete_id.
Qed.

Lemma send_step w t rings view w' t' rings' b :
  try_send w t rings view = (w', t', rings', b) →
  in_flight w' ≡ₚ accepted w rings view ++ in_flight w ∧ observer_ w' = observer_ w.
Proof.
  unfold try_send, accepted. destruct (pending_send_ w) as [p|].
  - intros [Hr Ho]%push_payload_requesters. unfold in_flight. by rewrite Hr.
  - destruct (load_send w rings view) as [rings1 [[w1 p]|b1]] eqn:Hl; cbn [snd].
    + intros [Hr Ho]%push_payload_requesters.
      apply load_send_requesters in Hl as (sg & Hn & Ho1 & Hi).
      split; [|congruence]. rewrite <- Hr in Hi. exact (in_flight_insert _ _ _ _ Hn Hi).
    + by intros [= <- _ _ _].
Qed.

Lemma handle_response_step w rings view r loaded w' rings' ev b :
  handle_response w rings view r loaded = (w', rings', ev, b) → observer_ w = true →
  in_flight w ≡ₚ (ticket_done <$> ev) ++ in_flight w' ∧ observer_ w' = true.
Proof.
  unfold handle_response. intros Hh Ho. destruct (requester_inflight_ w !! response_parent r) as [q|] eqn:Hq;
    [|by simplify_eq].
  cbv zeta in Hh. match type of Hh with (let '(_, _) := ?x in _) = _ => destruct x as [g n] end.
  destruct (negb _); [by simplify_eq|].
  injection Hh as <- _ <- _. rewrite Ho. cbn [fmap list_fmap app]. split; [|done].
  by apply (in_flight_delete _ _ _ q Hq).
Qed.

Lemma response_step w t rings view w' t' rings' ev b :
  try_response w t rings view = (w', t', rings', ev, b) → observer_ w = true →
  in_flight w ≡ₚ (ticket_done <$> ev) ++ in_flight w' ∧ observer_ w' = true.
Proof.
  unfold try_response. intros Ht Ho. destruct (pending_response_ w) as [r|].
  - destruct (handle_response _ _ _ _ _) as [[[w1 g1] ev1] b1] eqn:Hh. simplify_eq.
    by eapply handle_response_step.
  - destruct (try_pop_response t) as [t1 [r|]]; [|by simplify_eq].
    destruct (handle_response _ _ _ _ _) as [[[w1 g1] ev1] b1] eqn:Hh. simplify_eq.
    exact (handle_response_step _ _ _ _ _ _ _ _ _ Hh Ho).
Qed.

Lemma run_balance acc evs w w' :
  requester_run acc evs w w' → observer_ w = true →
  acc ++ in_flight w ≡ₚ (ticket_done <$> evs) ++ in_flight w'.
Proof.
  induction 1 as [w|acc evs w w1 w2 t g v t' g' b Hs _ IH|acc evs w w1 w2 t g v t' g' ev b Hs _ IH];
    intros Ho; [done| |].
  - destruct (send_step _ _ _ _ _ _ _ _ Hs) as [Hf Ho1]. rewrite <- IH by congruence. rewrite Hf.
    rewrite <- app_assoc, !(Permutation_app_swap_app (accepted _ _ _)). done.
  - destruct (response_step _ _ _ _ _ _ _ _ _ Hs Ho) as [Hf Ho1].
    rewrite fmap_app, <- app_assoc, <- (IH Ho1), Hf.
    by rewrite (Permutation_app_swap_app acc).
Qed.

(** (C32) Every work request completes at most once and none is lost: over any run of
    the requester from its start, whatever responses arrive, in whatever order and
    however often repeated, the work requests it accepted are exactly those its
    observer saw completed, each in one event with its own identity, length and
    payload count, together with those still in flight. *)
Theorem work_requests_complete_once acc evs qp payload_bytes w :
  requester_run acc evs (new_worker qp requester payload_bytes true) w →
  acc ≡ₚ (ticket_done <$> evs) ++ in_flight w ∧ NoDup ((λ e, e.1.1.1) <$> in_flight w).
Proof.
  intros Hr. split.
  - apply run_balance in Hr; [|done]. by rewrite app_nil_r in Hr.
  - unfold in_flight. rewrite <- list_fmap_compose. apply NoDup_fst_map_to_list.
Qed.

End Run.

(** ** A run with a repeated response *)

#[local] Existing Instance identity_resolver.

Definition demo_cq_cell : Cell :=
  mkCell (mkRing true 4096 4 (mkDescriptor completion 2 64) no_producer no_consumer)
    (mkRegion 0 0 [replicate 64 Byte.x00; replicate 64 Byte.x00]).
Definition demo_both : Rings := <[3 := demo_cq_cell]> demo_rings.
Definition demo_observed : LoopWorker := new_worker 10 requester 4 true.
Definition demo_answers : LocalTransport :=
  mkTransport 8 8 [] [mkResponseDatagram 42949672961 success 0].

Definition after_send : LoopWorker := (try_send demo_observed demo_answers demo_both demo_view).1.1.1.
Definition after_response (w : LoopWorker) : LoopWorker * list ParentCompletionEvent :=
  let '(w, _, _, ev, _) := try_response w demo_answers demo_both demo_view in (w, ev).

Lemma response_run w acc evs w' :
  requester_run acc evs (after_response w).1 w' → requester_run acc ((after_response w).2 ++ evs) w w'.
Proof.
  unfold after_response.
  destruct (try_response w demo_answers demo_both demo_view) as [[[[w1 t1] g1] ev] b] eqn:E.
  by apply run_response with (1 := E).
Qed.

Definition demo_end : LoopWorker := (after_response (after_response after_send).1).1.

Lemma demo_run_ok :
  requester_run [(42949672961, 7, 7, 3)] [mkParentCompletion 42949672961 7 7 3 success]
    demo_observed demo_end.
Proof.
  assert (requester_run [] [mkParentCompletion 42949672961 7 7 3 success] after_send demo_end) as Hr.
  { assert ([mkParentCompletion 42949672961 7 7 3 success] =
      (after_response after_send).2 ++ (after_response (after_response after_send).1).2 ++ []) as ->
      by by vm_compute.
    apply response_run, response_run, run_nil. }
  destruct (try_send demo_observed demo_answers demo_both demo_view) as [[[w1 t1] g1] b] eqn:E.
  assert (w1 = after_send) as -> by (unfold after_send; by rewrite E).
  assert ([(42949672961, 7, 7, 3)] = accepted demo_observed demo_both demo_view ++ []) as ->
    by by vm_compute.
  exact (run_send _ _ _ _ _ _ _ _ _ _ _ E Hr).
Qed.

Lemma work_requests_complete_once_witness :
  [(42949672961, 7, 7, 3)] ≡ₚ
  (ticket_done <$> [mkParentCompletion 42949672961 7 7 3 success]) ++ in_flight demo_end.
Proof. exact (proj1 (work_requests_complete_once _ _ 10 4 demo_end demo_run_ok)). Defined.

End Request.
