(* ===== verification/WorkerRound.v ===== *)
(** A requester's round ends (src/worker/worker.cpp, [progress_once]): the loop over the
    responses is bounded by the responses at hand, and the loop over the send queue by the
    room in the transport and the entries the consumer can still find in the queue. *)

From S2P Require Import Prelude SharedRing Descriptors CompletionQueue LocalTransport Worker.
From S2P Require Import WorkerStream WorkerRespond.
Import Ring CompletionQueue Transport Worker Stream Respond.

Module Round.

(** * The consumer of a ring *)

Definition unread (c : Cell) : Z :=
  u64 (cached_tail (consumer_ (cell_ring c)) - local_head (consumer_ (cell_ring c))).

(** A consumer knows of the slots it peeks at. *)
Definition consumer_ok (c : Cell) : Prop :=
  peeked (consumer_ (cell_ring c)) ≠ 0 →
  consumer_initialized (consumer_ (cell_ring c)) = true ∧ peeked (consumer_ (cell_ring c)) <= unread c.

(** How many slots the consumer can still release before it must look at a tail that
    moved: those it knows of, and a queue's worth when its tail is not the shared one. *)
Definition slots_left (c : Cell) : nat :=
  let cap := Z.to_nat (capacity (queue_descriptor_ (cell_ring c))) in
  if consumer_initialized (consumer_ (cell_ring c)) then
    Z.to_nat (unread c) +
    (if cached_tail (consumer_ (cell_ring c)) =? shared_tail (cell_region c) then 0 else S cap)
  else cap.

Lemma peek_consumer (r : SharedRing) (g : Region) r' res :
  region_peek r g 1 = (r', res) → consumer_ok (mkCell r g) →
  consumer_ok (mkCell r' g) ∧
  ((∃ batch, res = Ok batch) → (slots_left (mkCell r' g) <= slots_left (mkCell r g))%nat).
Proof.
  unfold region_peek, consumer_peek. destruct (_ || _ || _) eqn:E.
  { intros [= <- <-] Hc. split; [done|lia]. }
  bool_hyps. cbv zeta.
  set (c := if consumer_initialized (consumer_ r) then _ else _). intros Hr _.
  assert (consumer_initialized c = true ∧ peeked c = 0) as [Hi Hp].
  { unfold c. destruct (consumer_initialized (consumer_ r)) eqn:?; done. }
  assert (∀ t, Z.to_nat (capacity (queue_descriptor_ r)) = t → u64 (cached_tail c - local_head c) <= capacity (queue_descriptor_ r) →
    (Z.to_nat (u64 (cached_tail c - local_head c))%Z +
     (if (cached_tail c =? shared_tail g)%Z then 0 else S t) <= slots_left (mkCell r g))%nat) as Hc.
  { intros t <- Hav. unfold slots_left, unread, c in *. cbn [cell_ring cell_region] in *.
    destruct (consumer_initialized (consumer_ r)) eqn:Ei; [done|]. cbn in *. rewrite Z.eqb_refl. lia. }
  specialize (Hc _ eq_refl). clearbody c. set (L := slots_left (mkCell r g)) in *. clearbody L.
  assert (∀ k res', r' = with_consumer r k → res = Err res' → peeked k = 0 →
    consumer_ok (mkCell r' g) ∧
    ((∃ batch, res = Ok batch) → (slots_left (mkCell r' g) <= L)%nat)) as Herr.
  { intros k res' -> -> Hk. split; [intros Hn; by cbn in Hn|by intros [? ?]]. }
  assert (∀ x, 0 <= u64 x) as Hnn by (intros x; apply Z.mod_pos_bound; lia).
  destruct (_ <? u64 _) eqn:Eav; bool_hyps.
  { injection Hr as <- <-. by eapply Herr. }
  specialize (Hc Eav). destruct (u64 (cached_tail c - local_head c) <? 1) eqn:Ef; bool_hyps; cbn [andb] in Hr.
  - cbn [cached_tail local_head] in Hr. destruct (_ <? u64 _) eqn:Eav'; bool_hyps.
    { injection Hr as <- <-. by eapply Herr. }
    destruct (_ =? 0) eqn:Ez; bool_hyps; [injection Hr as <- <-; by eapply Herr|].
    injection Hr as <- <-. unfold consumer_ok, slots_left, unread. cbn in *. rewrite Hi, Z.eqb_refl.
    pose proof (Hnn (cached_tail c - local_head c)). pose proof (Hnn (shared_tail g - local_head c)).
    rewrite Z.min_l, u32_small by (ulia || lia). split; [by split; lia || done|]. intros _.
    destruct (cached_tail c =? shared_tail g) eqn:Et; bool_hyps; [rewrite Et in *; lia|lia].
  - destruct (_ =? 0) eqn:Ez; bool_hyps; [lia|].
    injection Hr as <- <-. unfold consumer_ok, slots_left, unread. cbn in *. rewrite Hi.
    rewrite Z.min_l, u32_small by (ulia || lia). split; [by split; lia || done|done].
Qed.

Lemma peek_slot_left rings id rings' res :
  peek_slot rings id = (rings', res) → consumer_ok (ring_at rings id) →
  consumer_ok (ring_at rings' id) ∧
  ((∃ slot, res = Ok slot) → (slots_left (ring_at rings' id) <= slots_left (ring_at rings id))%nat).
Proof.
  unfold peek_slot. destruct (region_peek _ _ _) as [r b] eqn:E.
  intros Hp Hc. destruct (ring_at rings id) as [r0 g] eqn:Hat. cbn [cell_ring cell_region] in *.
  destruct (peek_consumer r0 g r b E Hc) as [Hok Hle].
  destruct b as [batch|e]; injection Hp as <- <-; rewrite ring_at_insert; (split; [done|]).
  - intros _. apply Hle. by exists batch.
  - by intros [? ?].
Qed.

Lemma release_slots_left rings id n rings' status :
  release_slots rings id n = (rings', status) → consumer_ok (ring_at rings id) →
  consumer_ok (ring_at rings' id) ∧
  (n = 1 → status = 0 → (slots_left (ring_at rings' id) < slots_left (ring_at rings id))%nat).
Proof.
  unfold release_slots, region_release, consumer_release. destruct (ring_at rings id) as [r g] eqn:Hat.
  cbn [cell_ring cell_region]. destruct (_ || _ || _) eqn:E.
  { intros [= <- <-] Hc. rewrite ring_at_insert. by split. }
  bool_hyps. destruct (n =? 0) eqn:En; bool_hyps; intros [= <- <-] Hc; rewrite ring_at_insert; cbn.
  { by split; [intros ?|intros ->]. }
  split; [by intros ?|]. intros -> _. destruct (Hc ltac:(done)) as [Hi Hu]. unfold slots_left, unread in *. cbn in *.
  rewrite Hi. set (x := cached_tail (consumer_ r)) in *. set (y := local_head (consumer_ r)) in *.
  assert (u64 (x - u64 (y + 1)) = u64 (x - y) - 1) as ->; [|lia].
  unfold u64 in *. rewrite Zminus_mod_idemp_r. replace (x - (y + 1)) with (x - y - 1) by lia.
  rewrite <- Zminus_mod_idemp_l. apply Z.mod_small. pose proof (Z.mod_pos_bound (x - y) 18446744073709551616 ltac:(lia)). lia.
Qed.

Lemma produce_elsewhere rings id entries id' :
  id ≠ id' → ring_at (produce rings id entries).1 id' = ring_at rings id'.
Proof.
  intros Hn. unfold produce. destruct (produce_completions _ _ _) as [[r g] n]. cbn.
  unfold ring_at, Rings in *. by rewrite lookup_insert_ne.
Qed.

(** * The loops of a round *)

Section Loops.
Context {B : Type} `{CopyBackend B} `{KeyResolver}.
Implicit Types (w : LoopWorker) (s : World B).

Definition response_work s : nat :=
  2 * length (responses_ (transport s)) +
  match pending_response_ (worker s) with Some _ => 1 | None => 0 end.

(** The room in the transport and what is left in the send queue. *)
Definition room (t : LocalTransport) : nat := Z.to_nat (request_capacity_ t) - length (requests_ t).
Definition send_work (view : WorkerQpView) s : nat :=
  room (transport s) + slots_left (ring_at (rings s) (send_queue view)).

Context (view : WorkerQpView) (Hqueues : send_cq view ≠ send_queue view).
Notation queue_of g := (ring_at g (send_queue view)).

(** ** Responses *)

Lemma handle_response_work w g r loaded w' g' ev b :
  handle_response w g view r loaded = (w', g', ev, b) → pending_response_ w = Some r →
  queue_of g' = queue_of g ∧ role_ w' = role_ w ∧
  (pending_response_ w' = Some r ∧ b = loaded ∨ pending_response_ w' = None).
Proof.
  unfold handle_response. intros Hh Hp. destruct (requester_inflight_ w !! response_parent r) as [q|];
    [|injection Hh as <- <- _ _; split_and!; [done|done|by right]].
  cbv zeta in Hh. set (e := [send_completion _ _ _]) in Hh.
  destruct (negb _ || rq_signaled q); [|injection Hh as <- <- _ _; split_and!; [done|done|by right]].
  pose proof (produce_elsewhere g (send_cq view) e _ Hqueues) as Hg. destruct (produce g _ e) as [g1 n]. cbn in Hg.
  destruct (negb (n =? 1)); injection Hh as <- <- _ <-; (split_and!; [done|done|]); [by left|by right].
Qed.

Lemma step_response_work s s' b :
  step_response view s = (s', b) →
  queue_of (rings s') = queue_of (rings s) ∧ requests_ (transport s') = requests_ (transport s) ∧
  request_capacity_ (transport s') = request_capacity_ (transport s) ∧ role_ (worker s') = role_ (worker s) ∧
  (b = true → (response_work s' < response_work s)%nat).
Proof.
  unfold step_response, try_response, response_work. intros Hs.
  destruct (pending_response_ (worker s)) as [r|] eqn:Hp.
  - destruct (handle_response _ _ _ _ _) as [[[w1 g1] ev1] b1] eqn:Hh. injection Hs as <- <-.
    apply handle_response_work in Hh as (Hg & Hr & Hpend); [|done]. cbn. split_and!; try done. intros ->.
    destruct Hpend as [[_ ?]|E]; [done|rewrite E; lia].
  - unfold try_pop_response in Hs. destruct (responses_ (transport s)) as [|r rest] eqn:Hq; cbn [try_pop] in Hs.
    { by injection Hs as <- <-. }
    destruct (handle_response _ _ _ _ _) as [[[w1 g1] ev1] b1] eqn:Hh. injection Hs as <- <-.
    apply handle_response_work in Hh as (Hg & Hr & Hpend); [|done]. cbn in *. split_and!; try done. intros ->.
    destruct Hpend as [[E _]|E]; rewrite E; lia.
Qed.

(** ** Sends *)

(** A queue that is no longer than it was. *)
Definition shorter (strict : bool) (g g' : Rings) : Prop :=
  consumer_ok (queue_of g') ∧
  (if strict then slots_left (queue_of g') < slots_left (queue_of g)
   else slots_left (queue_of g') <= slots_left (queue_of g))%nat.

Lemma complete_error_work g h status g' b :
  complete_send_error g view h status = (g', b) → consumer_ok (queue_of g) →
  consumer_ok (queue_of g') ∧ (b = true → shorter true g g').
Proof.
  unfold complete_send_error. intros He Hc. cbv zeta in He. set (e := [_]) in He.
  pose proof (produce_elsewhere g (send_cq view) e _ Hqueues) as Hg. destruct (produce g _ e) as [g1 n].
  cbn in Hg. rewrite <- Hg in Hc. unfold shorter. rewrite <- Hg. destruct (negb (n =? 1)).
  - destruct (release_slots g1 (send_queue view) 0) as [g2 st] eqn:Er. injection He as <- <-.
    destruct (release_slots_left _ _ _ _ _ Er Hc) as [? _]. done.
  - destruct (release_slots g1 (send_queue view) 1) as [g2 st] eqn:Er. injection He as <- <-.
    destruct (release_slots_left _ _ _ _ _ Er Hc) as [? Hlt]. split; [done|]. intros ?%Z.eqb_eq. by split; [|apply Hlt].
Qed.

Lemma load_send_work w g g' res :
  load_send w g view = (g', res) → consumer_ok (queue_of g) →
  consumer_ok (queue_of g') ∧ (res = inr true → shorter true g g') ∧
  (∀ w' p, res = inl (w', p) → shorter false g g' ∧ role_ w' = role_ w).
Proof.
  unfold load_send. destruct (peek_slot g (send_queue view)) as [g1 slot] eqn:Ep. intros Hl Hc.
  destruct (peek_slot_left _ _ _ _ Ep Hc) as [Hc1 Hle].
  destruct slot as [slot|e]; [|injection Hl as <- <-; by split_and!].
  specialize (Hle ltac:(by exists slot)). cbv zeta in Hl.
  assert (∀ status, (let '(x, b) := complete_send_error g1 view (Descriptors.load_send_header slot) status in
                     (x, inr b)) = (g', res) →
    consumer_ok (queue_of g') ∧ (res = inr true → shorter true g g') ∧
    (∀ w' p, res = inl (w', p) → shorter false g g' ∧ role_ w' = role_ w)) as Hfail.
  { clear Hl. intros status Hf. destruct (complete_send_error _ _ _ status) as [g2 b] eqn:Ee. injection Hf as <- <-.
    destruct (complete_error_work _ _ _ _ _ Ee Hc1) as [Hc2 Hs]. split_and!; [done| |done].
    intros Eb. injection Eb as ->. destruct (Hs eq_refl) as [? ?]. by split; [|lia]. }
  destruct (_ <? _); [by eapply Hfail|]. destruct (_ && _); [by eapply Hfail|].
  destruct (scan_sges _ _ _ _ _ _) as [[[total segments] count]|status]; [|by eapply Hfail].
  destruct (_ <? count); [by eapply Hfail|].
  destruct (requester_inflight_ w !! next_request_id w); injection Hl as <- <-.
  - by split_and!.
  - split_and!; [done|done|]. intros w' p [= <- _]. by split; [split|].
Qed.

Lemma push_payload_work w t g p w' t' g' b :
  push_payload w t g view p = (w', t', g', b) → consumer_ok (queue_of g) →
  consumer_ok (queue_of g') ∧ role_ w' = role_ w ∧ (b = true → shorter false g g' ∧ (room t' < room t)%nat).
Proof.
  unfold push_payload. intros Hp Hc. destruct (_ && _); [injection Hp as <- <- <- <-; by split_and!|].
  destruct (try_push_request t _) as [t1 ok] eqn:Et.
  assert (ok = true → (room t1 < room t)%nat) as Hroom.
  { intros ->. unfold try_push_request, try_push in Et. destruct (_ <=? _) eqn:E; [done|]. injection Et as <-.
    bool_hyps. unfold room. cbn. rewrite length_app. cbn. lia. }
  destruct ok; [|injection Hp as <- <- <- <-; by split_and!]. specialize (Hroom eq_refl).
  destruct (negb (send_finished _)).
  { injection Hp as <- <- <- <-. split_and!; [done|done|]. intros _. split; [by split|done]. }
  destruct (release_slots g (send_queue view) 1) as [g1 st] eqn:Er.
  destruct (release_slots_left _ _ _ _ _ Er Hc) as [Hc1 Hlt].
  destruct (negb (st =? 0)) eqn:Es; injection Hp as <- <- <- <-; (split_and!; [done|done|]); [done|]. intros _.
  bool_hyps. specialize (Hlt eq_refl Es). split; [|done]. split; [done|lia].
Qed.

Lemma step_send_work s s' b :
  step_send view s = (s', b) → consumer_ok (queue_of (rings s)) →
  consumer_ok (queue_of (rings s')) ∧ role_ (worker s') = role_ (worker s) ∧
  (b = true → (send_work view s' < send_work view s)%nat).
Proof.
  unfold step_send, try_send, send_work. intros Hs Hc.
  destruct (pending_send_ (worker s)) as [p|].
  - destruct (push_payload _ _ _ _ _) as [[[w1 t1] g1] b1] eqn:Ep. injection Hs as <- <-.
    destruct (push_payload_work _ _ _ _ _ _ _ _ Ep Hc) as (Hc1 & Hr & Hb). cbn. split_and!; [done|done|].
    intros ->. destruct (Hb eq_refl) as [[_ ?] ?]. lia.
  - destruct (load_send _ _ _) as [g1 res] eqn:El.
    destruct (load_send_work _ _ _ _ El Hc) as (Hc1 & Herr & Hok). destruct res as [[w1 p]|b1].
    + destruct (Hok w1 p eq_refl) as [[_ Hle] Hr1].
      destruct (push_payload _ _ _ _ _) as [[[w2 t2] g2] b2] eqn:Ep. injection Hs as <- <-.
      destruct (push_payload_work _ _ _ _ _ _ _ _ Ep Hc1) as (Hc2 & Hr & Hb). cbn. split_and!; [done|congruence|].
      intros ->. destruct (Hb eq_refl) as [[_ ?] ?]. lia.
    + injection Hs as <- <-. cbn. split_and!; [done|done|]. intros ->. destruct (Herr eq_refl) as [_ ?]. lia.
Qed.

(** (C38) A requester's round ends: with more fuel than the responses at hand, the room in
    the transport and what is left in the send queue, both loops of [progress_once]
    terminate and the round returns, with the send queue's consumer in order for the next
    one. *)
Theorem requester_round_terminates fuel s :
  role_ (worker s) = requester → consumer_ok (queue_of (rings s)) →
  (response_work s + send_work view s < fuel)%nat →
  ∃ s' progressed, progress_once fuel (Ok view) s = Some (s', progressed) ∧ consumer_ok (queue_of (rings s')).
Proof.
  intros Hrole Hc Hfuel. unfold progress_once. rewrite Hrole.
  set (P := λ s', queue_of (rings s') = queue_of (rings s) ∧ room (transport s') = room (transport s)).
  destruct (while_true_terminates (step_response view) response_work P fuel s)
    as (s0 & s1 & p1 & -> & (Hg & Ht) & _ & Hend); [|done|lia|].
  { intros s1 s2 (Hg & Ht) (Hg' & Hq' & Hcap & _ & Hlt)%step_response_work. split; [|by apply Hlt].
    unfold P, room in *. rewrite Hg', Hq', Hcap. done. }
  cbn [mbind option_bind]. apply step_response_work in Hend as (Hg' & Hq' & Hcap & _).
  assert (send_work view s1 = send_work view s) as Hw.
  { unfold send_work, room in *. rewrite Hg', Hg, Hq', Hcap, Ht. done. }
  destruct (while_true_terminates (step_send view) (send_work view) (λ s, consumer_ok (queue_of (rings s))) fuel s1)
    as (s2 & s3 & p2 & -> & Hc2 & _ & Hend2); [|by rewrite Hg', Hg|lia|].
  { intros s2 s3 Hc2 Hst. apply step_send_work in Hst as (Hc3 & _ & Hlt); [|done]. by split; [|apply Hlt]. }
  cbn [mbind option_bind]. apply step_send_work in Hend2 as (Hc3 & _); [|done]. by exists s3, (p1 || p2).
Qed.
End Loops.

(** ** Witness: a write is sent and a repeated response is ignored *)

#[local] Existing Instance identity_resolver.
#[local] Existing Instance eager_backend.

Definition busy : World (list BackendCompletion) :=
  mkWorld (new_worker 10 requester 4 true) (mkTransport 8 8 [] [mkResponseDatagram 5 success 0]) demo_rings [] [].

Lemma requester_round_terminates_witness :
  (response_work busy + send_work demo_view busy = 12)%nat ∧
  ∃ s' progressed, progress_once 13 (Ok demo_view) busy = Some (s', progressed) ∧
    consumer_ok (ring_at (rings s') (send_queue demo_view)).
Proof.
  split; [by vm_compute|]. apply requester_round_terminates.
  - by vm_compute.
  - reflexivity.
  - intros Hn. by vm_compute in Hn.
  - by vm_compute; lia.
Defined.

End Round.
