(* ===== verification/DataPath.v ===== *)
(** The whole path of a write between two workers (src/worker/worker.cpp): the
    requester of one queue pair and the responder of its peer run concurrently over one
    transport, with a copy backend behind the responder.  Both workers take their steps
    in any order; the shared memory of the rings and the key lookups may be different at
    every step.  A write whose completion reports success was copied, byte by byte, to
    where the remote key said. *)

From S2P Require Import Prelude SharedRing RingSpsc Descriptors CompletionQueue LocalTransport.
From S2P Require Import Worker WorkerStream WorkerRespond WorkerRequest.
Import Ring Spsc CompletionQueue Transport Worker Stream Respond.

Module DataPath.

(** * The system *)

(** A work request the requester took off its send queue: the parent as it was then, and
    the daemon addresses of the bytes its scatter list names. *)
Record Write := mkWrite { parent : PendingSend; bytes : list Z }.

(** A remote range a key lookup granted, and the daemon address it starts at. *)
Record Grant := mkGrant { g_rkey : Z; g_address : Z; g_length : Z; g_target : Z }.

(** The two workers, the transport, the backend and the requester's end of the send
    queue; then what has happened so far: the writes taken, the lookups granted, the
    copies queued for the backend, the completions it gave and the events the
    requester's observer got. *)
Record Path (B : Type) := mkPath {
  rq : LoopWorker; rs : LoopWorker; tr : LocalTransport; be : B; sq : SharedRing;
  writes : list Write; grants : list Grant; queued : list BackendRequest;
  popped : list BackendCompletion; events : list ParentCompletionEvent;
}.
Arguments mkPath {B}. Arguments rq {B}. Arguments rs {B}. Arguments tr {B}. Arguments be {B}.
Arguments sq {B}. Arguments writes {B}. Arguments grants {B}. Arguments queued {B}.
Arguments popped {B}. Arguments events {B}.

Section Taken.
Context `{KeyResolver}.

(** The write that [try_send] takes off the send queue, if it takes one. *)
Definition taken (w : LoopWorker) (rings : Rings) (view : WorkerQpView) : list Write :=
  match pending_send_ w, (load_send w rings view).2, (peek_slot rings (send_queue view)).2 with
  | None, inl (_, p), Ok slot =>
      [mkWrite p (gather view (Descriptors.load_sges slot 40
         (Z.to_nat (Descriptors.send_sge_count (Descriptors.load_send_header slot)))))]
  | _, _, _ => []
  end.

(** What the key lookup answers for the datagram [try_request] handles. *)
Definition granted (w : LoopWorker) (t : LocalTransport) (view : WorkerQpView) : list Grant :=
  match option_list (pending_request_ w) ++ requests_ t with
  | [] => []
  | d :: _ =>
      match resolve_rkey (session_id view) (pd_identity view) (rkey d) (remote_address d)
              (parent_total_length d) with
      | Ok a => [mkGrant (rkey d) (remote_address d) (parent_total_length d) a]
      | Err _ => []
      end
  end.
End Taken.

Section System.
Context {B : Type} `{CopyBackend B} (qs : Z).
Implicit Types s : Path B.

(** The requester's ring object for the send queue is private to the daemon, so a step
    finds it as the previous one left it; everything else about rings is arbitrary, and
    so are the lookups, within their laws. *)
Inductive step : Path B → Path B → Prop :=
| did_send s K rings view rq' tr' rings' b :
    @KeyResolverLaws K → cell_ring (ring_at rings (send_queue view)) = sq s →
    try_send (rq s) (tr s) rings view = (rq', tr', rings', b) →
    step s (mkPath rq' (rs s) tr' (be s) (cell_ring (ring_at rings' (send_queue view)))
              (writes s ++ taken (rq s) rings view) (grants s) (queued s) (popped s) (events s))
| did_answer s rings view rq' tr' rings' ev b :
    try_response (rq s) (tr s) rings view = (rq', tr', rings', ev, b) →
    step s (mkPath rq' (rs s) tr' (be s) (sq s) (writes s) (grants s) (queued s) (popped s)
              (events s ++ ev))
| did_receive s K rings view rs' tr' rings' b :
    @KeyResolverLaws K → qp_num view = qs →
    try_request (rs s) (tr s) rings view = (rs', tr', rings', b) →
    step s (mkPath (rq s) rs' tr' (be s) (sq s) (writes s) (grants s ++ granted (rs s) (tr s) view)
              (queued s ++ drop (length (pending_backend_ (rs s))) (pending_backend_ rs')) (popped s)
              (events s))
| did_pop s rs' be' b :
    Forall (λ c, 0 <= bc_index c) (try_pop_completion_batch (be s) kBackendBatchCapacity).2 →
    try_backend_completions (rs s) (be s) = (rs', be', b) →
    step s (mkPath (rq s) rs' (tr s) be' (sq s) (writes s) (grants s) (queued s)
              (popped s ++ (try_pop_completion_batch (be s) kBackendBatchCapacity).2) (events s))
| did_submit s rs' be' b :
    try_flush_backend_requests (rs s) (be s) = (rs', be', b) →
    step s (mkPath (rq s) rs' (tr s) be' (sq s) (writes s) (grants s) (queued s) (popped s) (events s))
| did_respond s rings view rs' tr' rings' b :
    try_parent_response (rs s) (tr s) rings view = (rs', tr', rings', b) →
    step s (mkPath (rq s) rs' tr' (be s) (sq s) (writes s) (grants s) (queued s) (popped s) (events s)).

Definition start (qq payload_bytes request_capacity response_capacity : Z) (b : B) (r : SharedRing)
  : Path B :=
  mkPath (new_worker qq requester payload_bytes true) (new_worker qs responder payload_bytes false)
    (new_transport request_capacity response_capacity) b r [] [] [] [] [].
End System.

(** * The stream of a write *)

(** How many datagrams of a parent were not pushed yet, and which. *)
Definition to_send (p : PendingSend) : nat :=
  if ps_total_length p =? 0 then (if ps_zero_sent p then 0 else 1)
  else Z.to_nat (ps_payload_count p - ps_payload_index p).
Definition unsent (pb : Z) (p : PendingSend) : list RequestDatagram := (emit pb (to_send p) p).1.

(** A parent that has datagrams to push. *)
Definition unfinished (p : PendingSend) : Prop :=
  if ps_total_length p =? 0 then ps_zero_sent p = false
  else 0 <= ps_payload_index p < ps_payload_count p ∧ ps_payload_count p <= U32_MAX.

(** The parent of a write that was just taken. *)
Record write_ok (pb : Z) (w : Write) : Prop := {
  wo_send : send_ok pb (parent w);
  wo_start : ps_segment_index (parent w) = 0 ∧ ps_segment_offset (parent w) = 0 ∧
             ps_payload_offset (parent w) = 0 ∧ ps_payload_index (parent w) = 0 ∧
             ps_zero_sent (parent w) = false;
  wo_bytes : segment_bytes (ps_segments (parent w)) = bytes w;
}.

Definition stream (pb : Z) (w : Write) : list RequestDatagram := unsent pb (parent w).

Lemma advance_fields p n :
  ps_total_length (advance_send p n) = ps_total_length p ∧
  ps_payload_count (advance_send p n) = ps_payload_count p ∧
  (if ps_total_length p =? 0 then ps_zero_sent (advance_send p n) = true
   else ps_payload_index (advance_send p n) = u32 (ps_payload_index p + 1)).
Proof.
  unfold advance_send. destruct (ps_total_length p =? 0); [done|].
  by destruct (_ =? segment_length _).
Qed.

Lemma advance_unsent pb p :
  unfinished p →
  let p' := advance_send p (payload_length (next_datagram pb p)) in
  unsent pb p = next_datagram pb p :: unsent pb p' ∧
  if send_finished p' then unsent pb p' = [] else unfinished p'.
Proof.
  intros Hu p'. destruct (advance_fields p (payload_length (next_datagram pb p))) as (Ht & Hc & Hi).
  fold p' in Ht, Hc, Hi. unfold unsent, send_finished, unfinished in *.
  assert (to_send p = S (to_send p')) as Hn.
  { unfold to_send. rewrite Ht, Hc. destruct (ps_total_length p =? 0); [by rewrite Hi, Hu|].
    rewrite Hi, u32_small by ulia. lia. }
  rewrite Hn, emit_S. fold p'. split; [done|]. unfold to_send. rewrite Ht, Hc.
  destruct (ps_total_length p =? 0); [by rewrite Hi|]. rewrite u32_small in Hi by ulia.
  destruct (_ =? _) eqn:E; bool_hyps; [by rewrite E, Z.sub_diag|lia].
Qed.

Lemma carries_advance p n d : carries (advance_send p n) d ↔ carries p d.
Proof. unfold advance_send, carries. by repeat case_match. Qed.

(** The copy of a datagram to a range that starts at [target]. *)
Definition copy_to (target : Z) (d : RequestDatagram) : BackendRequest :=
  mkBackendRequest (parent_request_id d) (parent_total_length d) (payload_offset d)
    (source_daemon_address d) (u64 (target + payload_offset d)) (payload_length d)
    (payload_index d) (payload_count d).

Lemma backend_request_copy d p : backend_request d p = copy_to (rp_target_address p) d.
Proof. done. Qed.

Section Writes.
Context (pb : Z).

(** A write without bytes is one empty datagram. *)
Lemma stream_empty w :
  write_ok pb w → ps_total_length (parent w) = 0 →
  ∃ d, stream pb w = [d] ∧ carries (parent w) d ∧ payload_index d = 0 ∧ payload_offset d = 0 ∧
    payload_length d = 0 ∧ ps_payload_count (parent w) = 0 ∧ bytes w = [].
Proof.
  intros [Hs (_ & _ & _ & _ & Hz) Hb] Ht. destruct Hs as [Hpb Hsegs [Htot _] [Hcnt _]].
  assert (ps_segments (parent w) = []) as Hnil.
  { destruct (ps_segments (parent w)) as [|s l]; [done|]. inversion Hsegs as [|? ? [Hl _] Hl']; subst.
    pose proof (totals_nonneg pb l ltac:(lia) Hl'). simpl in Htot. lia. }
  rewrite Hnil in Hcnt, Hb. unfold stream, unsent, to_send, next_datagram. rewrite Ht, Hz. cbn [Z.eqb].
  rewrite emit_S. cbn [fst emit]. eexists. split; [done|]. unfold next_datagram, carries. rewrite Ht.
  by split_and!.
Qed.

Lemma stream_payloads w :
  write_ok pb w → ps_total_length (parent w) ≠ 0 →
  numbered pb 0 0 (stream pb w) ∧ Forall (carries (parent w)) (stream pb w) ∧
  Z.of_nat (length (stream pb w)) = ps_payload_count (parent w) ∧ stream pb w ≠ [] ∧
  bytes_left (stream pb w) = ps_total_length (parent w) ∧
  concat (source_bytes <$> stream pb w) = bytes w.
Proof.
  intros [Hs (Hi & Ho & Hpo & Hpi & _) Hb] Ht.
  destruct (stream_of_send pb _ Hs Ht Hi Ho Hpo Hpi) as (Hpos & Hlen & Hnum & Hall & Hcat & _).
  assert (stream pb w = (emit pb (Z.to_nat (ps_payload_count (parent w))) (parent w)).1) as Es.
  { unfold stream, unsent, to_send. by rewrite (proj2 (Z.eqb_neq _ 0) Ht), Hpi, Z.sub_0_r. }
  rewrite <- Es in *. rewrite Hb in Hcat. split_and!; [done|done|lia| | |done].
  - intros En. rewrite En in Hlen. simpl in Hlen. lia.
  - rewrite <- (length_stream_bytes _ _ _ _ Hnum), Hcat, <- Hb.
    rewrite (proj1 (so_total _ _ Hs)). apply length_segment_bytes, (so_segments _ _ Hs).
Qed.

(** Facts that do not depend on whether there are bytes. *)
Lemma stream_carries w : write_ok pb w → Forall (carries (parent w)) (stream pb w) ∧ stream pb w ≠ [].
Proof.
  intros Hw. destruct (decide (ps_total_length (parent w) = 0)) as [Ht|Ht].
  - destruct (stream_empty w Hw Ht) as (d & -> & Hd & _). split; [by constructor|done].
  - by destruct (stream_payloads w Hw Ht) as (_ & ? & _ & ? & _).
Qed.

Lemma write_count w : write_ok pb w → is_u32 (ps_payload_count (parent w)) ∧ 0 <= ps_total_length (parent w) <= U32_MAX.
Proof.
  intros [[Hpb Hsegs [Ht Hm] [Hc Hcm]] _ _]. pose proof (totals_nonneg pb _ ltac:(lia) Hsegs).
  split; [ulia|lia].
Qed.

Lemma length_write w : write_ok pb w → Z.of_nat (length (bytes w)) = ps_total_length (parent w).
Proof.
  intros [Hs _ <-]. rewrite (proj1 (so_total _ _ Hs)). apply length_segment_bytes, (so_segments _ _ Hs).
Qed.

(** The copies of a write to a range take its bytes there in order. *)
Lemma stream_copied w target :
  write_ok pb w → 0 <= target → target + ps_total_length (parent w) <= U64_MAX →
  copied_bytes (copy_to target <$> stream pb w) =
  zip (bytes w) (seqZ target (ps_total_length (parent w))).
Proof.
  intros Hw H0 Hm. destruct (decide (ps_total_length (parent w) = 0)) as [Ht|Ht].
  - destruct (stream_empty w Hw Ht) as (d & -> & _ & _ & _ & Hl & _ & ->).
    unfold copied_bytes. cbn. by rewrite Hl.
  - destruct (stream_payloads w Hw Ht) as (Hn & _ & _ & Hne & Hbl & Hcat).
    destruct (stream pb w) as [|d ds] eqn:Es; [done|].
    pose proof (copied_bytes_stream pb (new_parent d target None) 0 0 (d :: ds) Hn) as Hc.
    cbn [new_parent rp_target_address] in Hc. rewrite Hbl, Hcat, Z.add_0_r in Hc. apply Hc; lia.
Qed.

(** What follows a first part of a stream has other numbers. *)
Lemma numbered_index i o ds d : numbered pb i o ds → d ∈ ds → i <= payload_index d < i + Z.of_nat (length ds).
Proof.
  revert i o. induction ds as [|x ds IH]; intros i o; [by intros _ ?%elem_of_nil|].
  intros (Hi & _ & _ & Hn) [->|Hd]%elem_of_cons; cbn [length]; [lia|]. specialize (IH _ _ Hn Hd). lia.
Qed.

Lemma numbered_app i o a b :
  numbered pb i o (a ++ b) → numbered pb i o a ∧ numbered pb (i + Z.of_nat (length a)) (o + bytes_left a) b.
Proof.
  revert i o. induction a as [|x a IH]; intros i o; cbn [app numbered length bytes_left foldr].
  - intros Hn. by rewrite !Z.add_0_r.
  - fold (bytes_left a). intros (? & ? & ? & Hn). destruct (IH _ _ Hn) as [Ha Hb]. split; [done|].
    replace (i + Z.of_nat (S (length a))) with (i + 1 + Z.of_nat (length a)) by lia.
    by rewrite Z.add_assoc.
Qed.
End Writes.

(** * The rings *)

(** A consumer that has peeked at a slot can release it. *)
Definition holds_slot (r : SharedRing) : Prop := valid r = true ∧ 1 <= peeked (consumer_ r).

Lemma consumer_peek_holds r ld r' batch : consumer_peek r ld 1 = (r', Ok batch) → holds_slot r'.
Proof.
  unfold consumer_peek. destruct (_ || _ || _) eqn:E; [done|]. bool_hyps. cbv zeta.
  destruct (_ <? _) eqn:?; [done|]. destruct (_ && _); [done|]. destruct (_ =? 0) eqn:E0; [done|].
  intros [= <- _]. bool_hyps. split; [done|]. cbn [consumer_ with_consumer peeked]. revert E0.
  match goal with |- ?x ≠ 0 → 1 <= u32 (Z.min 1 ?y) => change y with x; set (n := x) end. intros E0.
  assert (0 <= n). { unfold n. destruct (_ <? 1); apply Z.mod_pos_bound; lia. }
  rewrite u32_small by ulia. lia.
Qed.

Lemma peek_slot_holds rings id rings' slot :
  peek_slot rings id = (rings', Ok slot) → holds_slot (cell_ring (ring_at rings' id)).
Proof.
  unfold peek_slot, region_peek. destruct (consumer_peek _ _ _) as [r [batch|e]] eqn:E; [|done].
  intros [= <- _]. rewrite ring_at_insert. by eapply consumer_peek_holds.
Qed.

Lemma release_held rings id : holds_slot (cell_ring (ring_at rings id)) → (release_slots rings id 1).2 = 0.
Proof.
  intros [Hv Hp]. unfold release_slots, region_release, consumer_release. rewrite Hv.
  rewrite (proj2 (Z.eqb_neq (peeked _) 0)), (proj2 (Z.ltb_ge (peeked _) 1)) by lia. done.
Qed.

(** * The invariant *)

Section Invariant.
Context {B : Type} `{CopyBackend B} (qq qs pb : Z).
Implicit Types (s : Path B) (w : Write) (p : ResponderInflight).

(** The identity of the [n]-th write. *)
Definition write_id (n : nat) : Z := Z.lor (Z.shiftl qq 32) (Z.of_nat n).

Definition grant_of w (target : Z) : Grant :=
  mkGrant (ps_rkey (parent w)) (ps_remote_address (parent w)) (ps_total_length (parent w)) target.

(** The copies of a write. *)
Definition copies w (target : Z) : list BackendRequest :=
  if ps_total_length (parent w) =? 0 then [] else copy_to target <$> stream pb w.

(** The write with this identity was copied, as far as the backend says. *)
Definition done s (id : Z) : Prop :=
  ∃ w target, w ∈ writes s ∧ ps_parent (parent w) = id ∧ grant_of w target ∈ grants s ∧
    copies w target ⊆ queued s ∧
    ∀ k, 0 <= k < ps_payload_count (parent w) → mkBackendCompletion id k success ∈ popped s.

(** The responder has accepted a write except for the datagrams [rest]. *)
Record incoming s w p (rest : list RequestDatagram) : Prop := {
  in_target : ps_target_qp (parent w) = qs;
  in_grant : grant_of w (rp_target_address p) ∈ grants s;
  in_count : rp_payload_count p = ps_payload_count (parent w);
  in_rest : if ps_total_length (parent w) =? 0 then rest = [] else receiving pb p rest;
  in_copies : ps_total_length (parent w) ≠ 0 →
    ∃ pre, stream pb w = pre ++ rest ∧ copy_to (rp_target_address p) <$> pre ⊆ queued s;
  in_popped : ∀ i, rp_terminal p !! i = Some true → ∃ r, rp_results p !! i = Some r ∧
    mkBackendCompletion (ps_parent (parent w)) (Z.of_nat i) r ∈ popped s;
  in_index : ∀ c, c ∈ queued s → br_parent c = ps_parent (parent w) → br_index c < rp_next_index p;
}.

(** The datagrams the responder has yet to handle. *)
Definition ahead s : list RequestDatagram :=
  option_list (pending_request_ (rs s)) ++ requests_ (tr s) ++
  match pending_send_ (rq s) with Some x => unsent pb x | None => [] end.

(** The responder has begun with the writes [old] and of the last of them expects [ds]. *)
Record reception s (old : list Write) (ds : list RequestDatagram) : Prop := {
  rc_inflight : ∀ id p, responder_inflight_ (rs s) !! id = Some p → ∃ i w, old !! i = Some w ∧
    ps_parent (parent w) = id ∧ incoming s w p (if decide (S i = length old) then ds else []);
  rc_current : ds = [] ∨ ∃ w pre, last old = Some w ∧ stream pb w = pre ++ ds ∧
    (is_Some (responder_inflight_ (rs s) !! ps_parent (parent w)) ∨ pre ≠ []);
  rc_copies : ∀ c, c ∈ queued s → ∃ w, w ∈ old ∧ br_parent c = ps_parent (parent w);
}.

(** What identifies a copy. *)
Definition copy_key (c : BackendRequest) : Z * Z := (br_parent c, br_index c).

Definition completed s (id wr_id len : Z) : Prop :=
  ∃ w, w ∈ writes s ∧ ps_parent (parent w) = id ∧ ps_wr_id (parent w) = wr_id ∧
    ps_total_length (parent w) = len.

Record inv s : Prop := {
  v_requester : payload_bytes_ (rq s) = pb ∧ qp_num_ (rq s) = qq;
  v_writes : Forall (write_ok pb) (writes s);
  v_ids : ∀ i w, writes s !! i = Some w → ps_parent (parent w) = write_id (S i);
  v_sequence : next_sequence_ (rq s) =
    Z.of_nat (length (writes s)) + match pending_send_ (rq s) with Some _ => 0 | None => 1 end;
  v_pending : ∀ x, pending_send_ (rq s) = Some x → unfinished x ∧ holds_slot (sq s);
  v_table : ∀ id q, requester_inflight_ (rq s) !! id = Some q →
    completed s id (rq_wr_id q) (rq_logical_bytes q);
  v_grants : Forall (λ g, 0 <= g_length g → 0 <= g_target g ∧ g_target g + g_length g <= U64_MAX) (grants s);
  v_responder : resp_inv (rs s);
  v_stream : ∃ old new ds, writes s = old ++ new ∧ ahead s = ds ++ concat (stream pb <$> new) ∧
    reception s old ds;
  v_queued : pending_backend_ (rs s) ⊆ queued s ∧ NoDup (copy_key <$> queued s);
  v_responses : ∀ r, r ∈ option_list (pending_response_ (rq s)) ++ responses_ (tr s) →
    response_result r = success → done s (response_parent r);
  v_events : ∀ e, e ∈ events s → pce_result e = success →
    completed s (pce_parent e) (pce_wr_id e) (pce_bytes e) ∧ done s (pce_parent e);
}.

(** ** Histories only grow *)

Definition grows s s' : Prop :=
  writes s ⊆ writes s' ∧ grants s ⊆ grants s' ∧ queued s ⊆ queued s' ∧ popped s ⊆ popped s'.

Lemma done_grows s s' id : grows s s' → done s id → done s' id.
Proof.
  intros (G1 & G2 & G3 & G4) (w & t & Hw & Hid & Hg & Hc & Hk). exists w, t.
  split_and!; [by apply G1|done|by apply G2|by etrans|]. intros k Hk'. by apply G4, Hk.
Qed.

Lemma completed_grows s s' id x n : grows s s' → completed s id x n → completed s' id x n.
Proof. intros (G1 & _) (w & Hw & ?). exists w. split; [by apply G1|done]. Qed.

(** A write in flight stays as it is when nothing of it is queued. *)
Lemma incoming_grows s s' w p rest :
  grows s s' → (∀ c, c ∈ queued s' → br_parent c = ps_parent (parent w) → c ∈ queued s) →
  incoming s w p rest → incoming s' w p rest.
Proof.
  intros (_ & G2 & G3 & G4) Hq [H1 H2 H3 H4 H5 H6 H7]. split; [done|by apply G2|done|done| | |].
  - intros Ht. destruct (H5 Ht) as (pre & Hpre & Hsub). exists pre. split; [done|by etrans].
  - intros i Hi. destruct (H6 i Hi) as (r & Hr & Hin). exists r. split; [done|by apply G4].
  - intros c Hc Hp. apply H7; [by apply Hq|done].
Qed.

Lemma reception_grows s s' old ds :
  grows s s' → queued s' = queued s → responder_inflight_ (rs s') = responder_inflight_ (rs s) →
  reception s old ds → reception s' old ds.
Proof.
  intros G Hq Hi [R1 R2 R3]. split; rewrite ?Hi, ?Hq; [|done|done].
  intros id p Hp. destruct (R1 id p Hp) as (i & w & Ho & Hid & Hin). exists i, w.
  split; [done|]. split; [done|]. apply (incoming_grows s s'); [done| |done]. intros c. by rewrite Hq.
Qed.

Lemma write_id_inj n m : Z.of_nat n <= U32_MAX → Z.of_nat m <= U32_MAX → write_id n = write_id m → n = m.
Proof.
  intros Hn Hm E. unfold write_id in E.
  assert (∀ k : nat, Z.of_nat k <= U32_MAX →
    Z.land (Z.lor (Z.shiftl qq 32) (Z.of_nat k)) (Z.ones 32) = Z.of_nat k) as Hl.
  { intros k Hk. rewrite Z.land_lor_distr_l, !Z.land_ones by lia.
    rewrite Z.shiftl_mul_pow2, Z.mod_mul, Z.lor_0_l by lia. apply Z.mod_small. ulia. }
  pose proof (f_equal (λ z, Z.land z (Z.ones 32)) E) as E'. cbn beta in E'. rewrite !Hl in E' by done. lia.
Qed.

(** Writes are told apart by their identities. *)
Lemma same_write s i j w w' :
  inv s → Z.of_nat (length (writes s)) < U32_MAX → writes s !! i = Some w → writes s !! j = Some w' →
  ps_parent (parent w) = ps_parent (parent w') → i = j ∧ w = w'.
Proof.
  intros I Hb Hi Hj E. pose proof (lookup_lt_Some _ _ _ Hi). pose proof (lookup_lt_Some _ _ _ Hj).
  rewrite (v_ids s I i w Hi), (v_ids s I j w' Hj) in E. apply write_id_inj in E; [|lia..].
  injection E as ->. by simplify_eq.
Qed.

(** ** The requester *)

Lemma load_send_taken `{KeyResolver} `{!KeyResolverLaws} (k : LoopWorker) rings view rings' k' x :
  0 < payload_bytes_ k <= U32_MAX → pending_send_ k = None →
  load_send k rings view = (rings', inl (k', x)) →
  ∃ b sg, taken k rings view = [mkWrite x b] ∧ write_ok (payload_bytes_ k) (mkWrite x b) ∧
    ps_parent x = next_request_id k ∧ holds_slot (cell_ring (ring_at rings' (send_queue view))) ∧
    k' = with_pending_send (with_requesters k
           (<[ps_parent x := mkRequester (ps_wr_id x) sg (ps_total_length x) (ps_payload_count x)]>
              (requester_inflight_ k))) (Some x).
Proof.
  intros Hpb Hn Hl. destruct (load_send_ok k rings view rings' k' x Hpb Hl)
    as (slot & Hp & Hok & Hb & Hi & Ho & Hpo & Hpi).
  assert (taken k rings view = [mkWrite x (segment_bytes (ps_segments x))]) as Ht.
  { unfold taken. rewrite Hn, Hl, Hp. cbn [snd]. by rewrite Hb. }
  unfold load_send in Hl. destruct (peek_slot rings (send_queue view)) as [r1 [slot'|e]] eqn:Hpk; [|done].
  apply peek_slot_holds in Hpk. repeat case_match; simplify_eq.
  all: eexists _, _; split_and!; [exact Ht| |done|done|done].
  all: split; [done|by split_and!|done].
Qed.

Lemma unsent_unfinished b x : write_ok pb (mkWrite x b) → unfinished x.
Proof.
  intros Hw. destruct (wo_start _ _ Hw) as (_ & _ & _ & Hpi & Hz). cbn in Hpi, Hz. unfold unfinished.
  destruct (ps_total_length x =? 0) eqn:E; [done|]. bool_hyps. rewrite Hpi.
  destruct (stream_payloads pb _ Hw E) as (_ & _ & Hl & Hne & _). destruct (write_count pb _ Hw) as [Hu _].
  cbn [parent] in *. destruct (stream pb _); [done|]. simpl in Hl. ulia.
Qed.

(** Taking a work request off the send queue. *)
Lemma load_inv `{KeyResolver} `{!KeyResolverLaws} s rings view rings' k' x :
  0 < pb <= U32_MAX → inv s → pending_send_ (rq s) = None →
  load_send (rq s) rings view = (rings', inl (k', x)) →
  inv (mkPath k' (rs s) (tr s) (be s) (cell_ring (ring_at rings' (send_queue view)))
         (writes s ++ taken (rq s) rings view) (grants s) (queued s) (popped s) (events s)) ∧
  pending_send_ k' = Some x.
Proof.
  intros Hpb I Hn Hl. pose proof I as [[Hp Hq] V2 V3 V4 V5 V6 V7 V8 V9 V10 V11 V12].
  rewrite Hn in V4. rewrite <- Hp in Hpb.
  destruct (load_send_taken _ _ _ _ _ _ Hpb Hn Hl) as (b & sg & -> & Hok & Hid & Hh & ->).
  rewrite Hp in Hok. split; [|done].
  set (s' := mkPath _ _ _ _ _ _ _ _ _ _).
  assert (grows s s') as G by (split_and!; cbn; set_solver).
  split; cbn [s' rq rs tr be sq writes grants queued popped events payload_bytes_ qp_num_ with_pending_send
              with_requesters pending_send_ next_sequence_ requester_inflight_ pending_response_].
  - done.
  - apply Forall_app. split; [done|]. by constructor.
  - intros i w [Hi|[Hi Hw]]%lookup_app_Some; [by apply V3|].
    apply list_lookup_singleton_Some in Hw as [Hz <-]. cbn [parent].
    rewrite Hid. unfold next_request_id, write_id. rewrite Hq, V4.
    replace i with (length (writes s)) by lia. f_equal. lia.
  - rewrite V4, length_app. cbn. lia.
  - intros y [= <-]. split; [by eapply unsent_unfinished|done].
  - intros id q. destruct (decide (id = ps_parent x)) as [->|Hne].
    + rewrite lookup_insert_eq. intros [= <-]. exists (mkWrite x b). split; [cbn; set_solver|done].
    + rewrite lookup_insert_ne by done. intros Hid'. by apply (completed_grows s s'), V6.
  - done.
  - done.
  - destruct V9 as (old & new & ds & Hw & Ha & R). exists old, (new ++ [mkWrite x b]), ds.
    split_and!; [by rewrite Hw, app_assoc| |by apply (reception_grows s)].
    unfold ahead in *. cbn. rewrite Hn, app_nil_r in Ha.
    rewrite app_assoc, Ha, fmap_app, concat_app, app_assoc. cbn. by rewrite app_nil_r.
  - done.
  - intros r Hr Hs. by apply (done_grows s s'), V11.
  - intros e He Hs. destruct (V12 e He Hs) as [Hc Hd].
    split; [by apply (completed_grows s s')|by apply (done_grows s s')].
Qed.

(** A step that only pushes datagrams. *)
Lemma sending_inv s k t r :
  let s' := mkPath k (rs s) t (be s) r (writes s) (grants s) (queued s) (popped s) (events s) in
  inv s → payload_bytes_ k = payload_bytes_ (rq s) → qp_num_ k = qp_num_ (rq s) →
  requester_inflight_ k = requester_inflight_ (rq s) → pending_response_ k = pending_response_ (rq s) →
  responses_ t = responses_ (tr s) → ahead s' = ahead s →
  next_sequence_ k = Z.of_nat (length (writes s)) + match pending_send_ k with Some _ => 0 | None => 1 end →
  (∀ x, pending_send_ k = Some x → unfinished x ∧ holds_slot r) → inv s'.
Proof.
  intros s' [V1 V2 V3 V4 V5 V6 V7 V8 V9 V10 V11 V12] E1 E2 E3 E4 E5 E6 E7 E8.
  split; cbn; rewrite ?E1, ?E2, ?E3, ?E4, ?E5; try done.
  destruct V9 as (old & new & ds & Hw & Ha & R). exists old, new, ds.
  split_and!; [done|by rewrite E6|]. by apply (reception_grows s).
Qed.

Lemma push_inv s rings view x rq' tr' rings' b :
  inv s → Z.of_nat (length (writes s)) < U32_MAX → pending_send_ (rq s) = Some x →
  cell_ring (ring_at rings (send_queue view)) = sq s →
  push_payload (rq s) (tr s) rings view x = (rq', tr', rings', b) →
  inv (mkPath rq' (rs s) tr' (be s) (cell_ring (ring_at rings' (send_queue view)))
         (writes s) (grants s) (queued s) (popped s) (events s)).
Proof.
  intros I Hb Hx Hr. destruct (v_pending s I x Hx) as [Hu Hh].
  pose proof (v_sequence s I) as Hq. rewrite Hx in Hq. destruct (v_requester s I) as [Hp _].
  pose proof (advance_unsent pb x Hu) as Ha. unfold push_payload. rewrite Hp.
  destruct ((_ =? 0) && _) eqn:E0.
  { intros [= <- <- <- <-]. apply sending_inv; try done; [by rewrite Hx|]. intros y Hy. rewrite Hr. by apply I. }
  clear E0. unfold try_push_request. destruct (try_push _ _ _) as [q ok] eqn:E.
  apply try_push_spec in E as [-> _]. destruct ok.
  2:{ intros [= <- <- <- <-]. apply sending_inv; try done; [by rewrite Hx|]. intros y Hy. rewrite Hr. by apply I. }
  destruct Ha as [Ha Hf]. set (x' := advance_send x _) in *.
  destruct (send_finished x') eqn:Ef; cbn [negb].
  - pose proof (release_held rings (send_queue view) ltac:(by rewrite Hr)) as Hrel.
    destruct (release_slots rings (send_queue view) 1) as [rings1 st]. cbn in Hrel. subst st.
    cbn [negb Z.eqb]. intros [= <- <- <- <-]. apply sending_inv; try done; cbn [next_sequence_ with_sequence pending_send_ with_pending_send].
    + unfold ahead. cbn. by rewrite Hx, Ha, Hf, app_nil_r.
    + rewrite u32_small by ulia. rewrite (proj2 (Z.eqb_neq _ 0)) by lia. lia.
  - intros [= <- <- <- <-]. apply sending_inv; try done; cbn [next_sequence_ pending_send_ with_pending_send].
    + unfold ahead. cbn. by rewrite Hx, Ha, <- (assoc_L (++) (requests_ (tr s))).
    + intros y [= <-]. by rewrite Hr.
Qed.

Lemma send_inv s K rings view rq' tr' rings' b :
  @KeyResolverLaws K → 0 < pb <= U32_MAX → inv s →
  Z.of_nat (length (writes s ++ taken (rq s) rings view)) < U32_MAX →
  cell_ring (ring_at rings (send_queue view)) = sq s →
  try_send (rq s) (tr s) rings view = (rq', tr', rings', b) →
  inv (mkPath rq' (rs s) tr' (be s) (cell_ring (ring_at rings' (send_queue view)))
         (writes s ++ taken (rq s) rings view) (grants s) (queued s) (popped s) (events s)).
Proof.
  intros HK Hpb I Hlen Hr. unfold try_send. destruct (pending_send_ (rq s)) as [x|] eqn:Hx.
  - intros Ht. assert (taken (rq s) rings view = []) as En by (unfold taken; by rewrite Hx).
    rewrite En, app_nil_r in *. by eapply push_inv.
  - destruct (load_send (rq s) rings view) as [rings1 [[k x]|b1]] eqn:Hl.
    + intros Ht. destruct (load_inv s rings view rings1 k x Hpb I Hx Hl) as [I1 Hx1].
      exact (push_inv _ _ _ _ _ _ _ _ I1 Hlen Hx1 eq_refl Ht).
    + intros [= <- <- <- <-].
      assert (taken (rq s) rings view = []) as En by (unfold taken; by rewrite Hx, Hl).
      rewrite En, app_nil_r. apply sending_inv; try done; [apply I|by rewrite Hx].
Qed.

(** The requester takes an answer. *)
Lemma answering_inv s k t ev :
  let s' := mkPath k (rs s) t (be s) (sq s) (writes s) (grants s) (queued s) (popped s) (events s ++ ev) in
  inv s → payload_bytes_ k = payload_bytes_ (rq s) → qp_num_ k = qp_num_ (rq s) →
  next_sequence_ k = next_sequence_ (rq s) → pending_send_ k = pending_send_ (rq s) →
  requester_inflight_ k ⊆ requester_inflight_ (rq s) → requests_ t = requests_ (tr s) →
  option_list (pending_response_ k) ++ responses_ t ⊆
    option_list (pending_response_ (rq s)) ++ responses_ (tr s) →
  (∀ e, e ∈ ev → pce_result e = success →
     completed s (pce_parent e) (pce_wr_id e) (pce_bytes e) ∧ done s (pce_parent e)) →
  inv s'.
Proof.
  intros s' [V1 V2 V3 V4 V5 V6 V7 V8 V9 V10 V11 V12] E1 E2 E3 E4 E5 E6 E7 E8.
  split; cbn; rewrite ?E1, ?E2, ?E3, ?E4; try done.
  - intros id q Hq. by apply V6, (lookup_weaken _ _ _ _ Hq).
  - destruct V9 as (old & new & ds & Hw & Ha & R). exists old, new, ds.
    split_and!; [done| |by apply (reception_grows s)]. unfold ahead in *. cbn. by rewrite E4, E6.
  - intros r Hr. by apply V11, E7.
  - intros e [He|He]%elem_of_app Hs; [by apply V12|by apply E8].
Qed.

Lemma handle_response_inv s rings view r loaded rq' rings' ev b :
  inv s → pending_response_ (rq s) = Some r →
  handle_response (rq s) rings view r loaded = (rq', rings', ev, b) →
  inv (mkPath rq' (rs s) (tr s) (be s) (sq s) (writes s) (grants s) (queued s) (popped s) (events s ++ ev)).
Proof.
  intros I Hr. unfold handle_response. destruct (requester_inflight_ (rq s) !! _) as [q|] eqn:Hq.
  - match goal with |- (let '(_, _) := ?x in _) = _ → _ => destruct x as [g n] end.
    destruct (negb (n =? 1)); intros [= <- _ <- _].
    { apply answering_inv; [done..|by intros ? ?%elem_of_nil]. }
    apply answering_inv; try done; cbn [requester_inflight_ with_requesters with_pending_response].
    + apply delete_subseteq.
    + cbn. set_solver.
    + intros e He Hs. destruct (observer_ (rq s)); [|by apply elem_of_nil in He].
      apply list_elem_of_singleton in He as ->. cbn in *. split; [by apply I|].
      apply (v_responses s I); [|done]. rewrite Hr. by left.
  - intros [= <- _ <- _]. apply answering_inv; try done; [cbn; set_solver|by intros ? ?%elem_of_nil].
Qed.

Lemma answer_inv s rings view rq' tr' rings' ev b :
  inv s → try_response (rq s) (tr s) rings view = (rq', tr', rings', ev, b) →
  inv (mkPath rq' (rs s) tr' (be s) (sq s) (writes s) (grants s) (queued s) (popped s) (events s ++ ev)).
Proof.
  intros I. unfold try_response. destruct (pending_response_ (rq s)) as [r|] eqn:Hr.
  - destruct (handle_response _ _ _ _ _) as [[[k g] e] c] eqn:Hh. intros [= <- <- _ <- _].
    by eapply handle_response_inv.
  - unfold try_pop_response. destruct (responses_ (tr s)) as [|r l] eqn:Hl; cbn [try_pop].
    + intros [= <- <- _ <- _]. apply answering_inv; try done; [cbn; set_solver|by intros ? ?%elem_of_nil].
    + destruct (handle_response _ _ _ _ _) as [[[k g] e] c] eqn:Hh. intros [= <- <- _ <- _].
      assert (inv (mkPath (with_pending_response (rq s) (Some r)) (rs s)
        (mkTransport (request_capacity_ (tr s)) (response_capacity_ (tr s)) (requests_ (tr s)) l)
        (be s) (sq s) (writes s) (grants s) (queued s) (popped s) (events s ++ []))) as I1.
      { apply answering_inv; try done; [|by intros ? ?%elem_of_nil]. cbn. by rewrite Hl, Hr. }
      rewrite app_nil_r in I1. exact (handle_response_inv _ _ _ _ _ _ _ _ _ I1 eq_refl Hh).
Qed.

(** ** The responder *)

Lemma responding_inv s k t b gs cs ps :
  let s' := mkPath (rq s) k t b (sq s) (writes s) (grants s ++ gs) (queued s ++ cs) (popped s ++ ps)
              (events s) in
  inv s → resp_inv k →
  Forall (λ g, 0 <= g_length g → 0 <= g_target g ∧ g_target g + g_length g <= U64_MAX) gs →
  pending_backend_ k ⊆ queued s' → NoDup (copy_key <$> queued s') →
  (∃ old new ds, writes s = old ++ new ∧ ahead s' = ds ++ concat (stream pb <$> new) ∧
     reception s' old ds) →
  (∀ r, r ∈ responses_ t → r ∈ responses_ (tr s) ∨ (response_result r = success → done s' (response_parent r))) →
  inv s' ∧ grows s s'.
Proof.
  intros s' [V1 V2 V3 V4 V5 V6 V7 V8 V9 V10 V11 V12] E1 E2 E3 E4 E5 E6.
  assert (grows s s') as G by (split_and!; cbn; set_solver). split; [|done].
  split; cbn [s' rq rs tr be sq writes grants queued popped events]; try done.
  - by apply Forall_app.
  - intros r [Hr|Hr]%elem_of_app Hs.
    + apply (done_grows s s'); [done|]. apply V11; [|done]. apply elem_of_app. by left.
    + destruct (E6 r Hr) as [Hr'|Hd]; [|by apply Hd].
      apply (done_grows s s'); [done|]. apply V11; [|done]. apply elem_of_app. by right.
  - intros e He Hs. destruct (V12 e He Hs). split; [done|by apply (done_grows s s')].
Qed.

Lemma path_submit_inv s rs' be' b :
  inv s → try_flush_backend_requests (rs s) (be s) = (rs', be', b) →
  inv (mkPath (rq s) rs' (tr s) be' (sq s) (writes s) (grants s) (queued s) (popped s) (events s)).
Proof.
  intros I Ht. pose proof (try_flush_inv _ _ _ _ _ (v_responder s I) Ht) as Hr.
  assert (responder_inflight_ rs' = responder_inflight_ (rs s) ∧
    pending_request_ rs' = pending_request_ (rs s) ∧ pending_backend_ rs' ⊆ pending_backend_ (rs s)) as (E1 & E2 & E3).
  { unfold try_flush_backend_requests in Ht. repeat case_match; simplify_eq/=; try done.
    split_and!; [done|done|]. intros c (? & Hc)%list_elem_of_lookup. rewrite lookup_drop in Hc.
    by eapply list_elem_of_lookup_2. }
  destruct (v_queued s I) as [Hq Hn].
  pose proof (responding_inv s rs' (tr s) be' [] [] []) as R. rewrite !app_nil_r in R.
  apply R; [done|done|done|cbn; by etrans|done| |by left].
  destruct (v_stream s I) as (old & new & ds & Hw & Ha & Hrec). exists old, new, ds.
  split; [done|]. split; [unfold ahead in *; cbn; by rewrite E2|]. by apply (reception_grows s).
Qed.

(** A completion of the backend. *)
Lemma receiving_same p p' rest :
  receiving pb p rest → rp_source_qp p' = rp_source_qp p → rp_target_qp p' = rp_target_qp p →
  rp_opcode p' = rp_opcode p → rp_remote_address p' = rp_remote_address p → rp_rkey p' = rp_rkey p →
  rp_immediate p' = rp_immediate p → rp_total_length p' = rp_total_length p →
  rp_payload_count p' = rp_payload_count p → rp_next_index p' = rp_next_index p →
  rp_next_offset p' = rp_next_offset p → receiving pb p' rest.
Proof.
  intros [H1 H2 H3 H4 H5] E1 E2 E3 E4 E5 E6 E7 E8 E9 E10.
  split; rewrite ?E7, ?E8, ?E9, ?E10; try done. eapply Forall_impl; [exact H1|].
  intros d. unfold matches. by rewrite E1, E2, E3, E4, E5, E6, E7, E8.
Qed.

Lemma incoming_error s w p rest e : incoming s w p rest → incoming s w (with_error p e) rest.
Proof.
  intros [H1 H2 H3 H4 H5 H6 H7]. split; try done. destruct (_ =? 0); [done|]. by eapply receiving_same.
Qed.

Lemma incoming_consumed s w p rest : incoming s w p rest → incoming s w (with_consumed p) rest.
Proof.
  intros [H1 H2 H3 H4 H5 H6 H7]. split; try done. destruct (_ =? 0); [done|]. by eapply receiving_same.
Qed.

Lemma incoming_terminal s w p rest c :
  incoming s w p rest → parent_inv p → bc_parent c = ps_parent (parent w) →
  0 <= bc_index c < rp_payload_count p → c ∈ popped s →
  incoming s w (with_terminal p (Z.to_nat (bc_index c)) (bc_result c)) rest.
Proof.
  intros [H1 H2 H3 H4 H5 H6 H7] Hp Hc Hi Hin. split; try done.
  - destruct (_ =? 0); [done|]. by eapply receiving_same.
  - cbn. intros i. destruct (decide (i = Z.to_nat (bc_index c))) as [->|Hne].
    + intros _. exists (bc_result c). pose proof (pi_results p Hp). split.
      * apply list_lookup_insert_eq. lia.
      * rewrite <- Hc, Z2Nat.id by lia. by destruct c.
    + rewrite !list_lookup_insert_ne by done. apply H6.
Qed.

Lemma completion_inv s be' c :
  inv s → 0 <= bc_index c →
  inv (mkPath (rq s) (with_responders (rs s) (apply_completion (responder_inflight_ (rs s)) c)) (tr s) be'
         (sq s) (writes s) (grants s) (queued s) (popped s ++ [c]) (events s)).
Proof.
  intros I Hc. pose proof (apply_completion_inv _ [c] (v_responder s I) ltac:(by constructor)) as Hr.
  cbn [foldl] in Hr. destruct (v_queued s I) as [Hq Hn].
  pose proof (responding_inv s (with_responders (rs s) (apply_completion (responder_inflight_ (rs s)) c))
    (tr s) be' [] [] [c]) as R. rewrite !app_nil_r in R. apply R; [done..| |by left]. clear R.
  set (s' := mkPath _ _ _ _ _ _ _ _ _ _).
  destruct (v_stream s I) as (old & new & ds & Hw & Ha & [R1 R2 R3]). exists old, new, ds.
  split_and!; [done|done|]. split; [|destruct R2 as [->|(w & pre & Hl & Hs & Hc')]; [by left|]|done].
  - intros id p Hp. cbn in Hp. unfold apply_completion in Hp.
    assert (∀ w q r, incoming s w q r → incoming s' w q r) as Hg.
    { intros w q r. apply incoming_grows; [|done]. split_and!; cbn; set_solver. }
    destruct (responder_inflight_ (rs s) !! bc_parent c) as [q|] eqn:Hq'.
    2:{ destruct (R1 id p Hp) as (i & w & Ho & Hid & Hin). exists i, w. eauto. }
    destruct (decide (id = bc_parent c)) as [->|Hne].
    2:{ assert (responder_inflight_ (rs s) !! id = Some p) as Hp'
          by (destruct (_ || _); by rewrite lookup_insert_ne in Hp).
        destruct (R1 id p Hp') as (i & w & Ho & Hid & Hin). exists i, w. eauto. }
    destruct (R1 _ q Hq') as (i & w & Ho & Hid & Hin). exists i, w. split; [done|]. split; [done|].
    destruct (_ || _) eqn:E; rewrite lookup_insert_eq in Hp; injection Hp as <-.
    + by apply incoming_error, Hg.
    + bool_hyps. apply incoming_terminal; [by apply Hg|by apply (ri_parents _ (v_responder s I) _ _ Hq')|done|lia|].
      cbn. set_solver.
  - right. exists w, pre. split; [done|]. split; [done|]. destruct Hc' as [[q Hq']|?]; [left|by right].
    destruct (apply_completion_parent _ c _ _ Hq') as (q' & Hq'' & _). cbn. eauto.
Qed.

Lemma with_responders_id k : with_responders k (responder_inflight_ k) = k.
Proof. by destruct k. Qed.

(** The backend itself does not matter. *)
Lemma backend_inv s be' :
  inv s → inv (mkPath (rq s) (rs s) (tr s) be' (sq s) (writes s) (grants s) (queued s) (popped s) (events s)).
Proof.
  intros I. pose proof (responding_inv s (rs s) (tr s) be' [] [] []) as R. rewrite !app_nil_r in R.
  apply R; [done|apply I|done|apply I|apply I| |by left].
  destruct (v_stream s I) as (old & new & ds & Hw & Ha & Hrec). exists old, new, ds.
  split_and!; [done|done|]. by apply (reception_grows s).
Qed.

Lemma completions_inv s be' cs :
  inv s → Forall (λ c, 0 <= bc_index c) cs →
  inv (mkPath (rq s) (with_responders (rs s) (foldl apply_completion (responder_inflight_ (rs s)) cs)) (tr s)
         be' (sq s) (writes s) (grants s) (queued s) (popped s ++ cs) (events s)).
Proof.
  intros I Hcs. revert s I. induction Hcs as [|c cs Hc Hcs IH]; intros s I.
  - cbn [foldl]. rewrite app_nil_r, with_responders_id. by apply backend_inv.
  - pose proof (IH _ (completion_inv s be' c I Hc)) as I'. cbn in I'. rewrite <- app_assoc in I'. exact I'.
Qed.

Lemma pop_inv s rs' be' b :
  inv s → Forall (λ c, 0 <= bc_index c) (try_pop_completion_batch (be s) kBackendBatchCapacity).2 →
  try_backend_completions (rs s) (be s) = (rs', be', b) →
  inv (mkPath (rq s) rs' (tr s) be' (sq s) (writes s) (grants s) (queued s)
         (popped s ++ (try_pop_completion_batch (be s) kBackendBatchCapacity).2) (events s)).
Proof.
  intros I. unfold try_backend_completions. destruct (try_pop_completion_batch (be s) _) as [b1 cs].
  intros Hcs. cbn [snd] in *. case_decide as Hn; intros [= <- <- _]; [|by apply completions_inv].
  subst cs. rewrite app_nil_r. by apply backend_inv.
Qed.

(** ** Answers *)

(** A parent all of whose payloads succeeded. *)
Lemma finished_done s w p rest :
  w ∈ writes s → incoming s w p rest → parent_inv p → rp_next_index p = rp_payload_count p →
  rp_terminal_count p = rp_payload_count p → rest = [] ∧
  (parent_result p = success → done s (ps_parent (parent w))).
Proof.
  intros Hw [H1 H2 H3 H4 H5 H6 H7] Hp Hn Ht.
  assert (rest = []) as ->.
  { destruct (_ =? 0); [done|]. destruct H4 as [_ _ Hc _ _]. apply nil_length_inv. lia. }
  split; [done|]. intros [_ Hs]%parent_result_success. exists w, (rp_target_address p).
  split_and!; [done|done|done| |].
  - unfold copies. destruct (_ =? 0) eqn:E; [apply list_subseteq_nil|]. bool_hyps.
    destruct (H5 E) as (pre & -> & Hc). by rewrite app_nil_r.
  - intros k Hk. destruct Hp as [Hc Hlt Hlr Hcnt _].
    pose proof (count_true_all (rp_terminal p) ltac:(lia)) as Hall.
    destruct (lookup_lt_is_Some_2 (rp_terminal p) (Z.to_nat k)) as [x Hx]; [lia|].
    rewrite (proj1 (Forall_lookup _ _) Hall _ _ Hx) in Hx. destruct (H6 _ Hx) as (r & Hr & Hin).
    rewrite (proj1 (Forall_lookup _ _) Hs _ _ Hr) in Hin. by rewrite Z2Nat.id in Hin by lia.
Qed.

(** What an attempt to answer does to the responder: nothing, or it answers the parent at
    the front, which then leaves the tables (or, if its receive completion could not be
    published, stays). *)
Lemma parent_response_cases k t rings view k' t' rings' b :
  resp_inv k → try_parent_response k t rings view = (k', t', rings', b) →
  requests_ t' = requests_ t ∧ pending_request_ k' = pending_request_ k ∧
  pending_backend_ k' = pending_backend_ k ∧
  ((responder_inflight_ k' = responder_inflight_ k ∧ responses_ t' = responses_ t) ∨
   ∃ id p, responder_inflight_ k !! id = Some p ∧ rp_next_index p = rp_payload_count p ∧
     rp_terminal_count p = rp_payload_count p ∧
     responses_ t' = responses_ t ++ [mkResponseDatagram id (parent_result p) 0] ∧
     (responder_inflight_ k' = responder_inflight_ k ∨
      responder_inflight_ k' = delete id (responder_inflight_ k))).
Proof.
  intros Hk. unfold try_parent_response. destruct (responder_order_ k) as [|id order] eqn:Ho;
    [intros [= <- <- _ _]; by auto 6|].
  destruct (responder_inflight_ k !! id) as [p|] eqn:Hl; [|intros [= <- <- _ _]; by auto 6].
  destruct (_ || _) eqn:E; [intros [= <- <- _ _]; by auto 6|]. bool_hyps.
  destruct (if bool_decide _ && _ then _ else _) as [r1 [slot|e]]; [|intros [= <- <- _ _]; by auto 6].
  unfold try_push_response. destruct (try_push _ _ _) as [q ok] eqn:Hq. apply try_push_spec in Hq as [-> _].
  destruct ok; [|intros [= <- <- _ _]; by auto 6].
  destruct (if bool_decide _ && _ then _ else _) as [r2 st].
  destruct (negb (st =? 0)); intros [= <- <- _ _]; (do 3 (split; [done|]); right; exists id, p; split_and!; auto).
Qed.

Lemma respond_inv s rings view rs' tr' rings' b :
  inv s → Z.of_nat (length (writes s)) < U32_MAX →
  try_parent_response (rs s) (tr s) rings view = (rs', tr', rings', b) →
  inv (mkPath (rq s) rs' tr' (be s) (sq s) (writes s) (grants s) (queued s) (popped s) (events s)).
Proof.
  intros I Hb Ht. pose proof (try_parent_response_inv _ _ _ _ _ _ _ _ (v_responder s I) Ht) as Hr.
  apply parent_response_cases in Ht as (E1 & E2 & E3 & Hcases); [|apply I].
  destruct (v_stream s I) as (old & new & ds & Hw & Ha & Hrec).
  pose proof (responding_inv s rs' tr' (be s) [] [] []) as R. rewrite !app_nil_r in R.
  set (s' := mkPath _ _ _ _ _ _ _ _ _ _) in *.
  assert (ahead s' = ahead s) as Ea by (unfold ahead; cbn; by rewrite E1, E2).
  assert (∀ i, responder_inflight_ rs' = i → i = responder_inflight_ (rs s) → reception s' old ds) as Hsame.
  { intros i Hi Hi'. apply (reception_grows s); [done|done|cbn; congruence|done]. }
  destruct Hcases as [[E4 E5]|(id & p & Hp & Hn & Htc & E5 & E4)].
  { apply R; [done|done|done|rewrite E3; apply I|apply I| |rewrite E5; by left].
    exists old, new, ds. rewrite Ea. split_and!; [done|done|]. by eapply Hsame. }
  destruct Hrec as [R1 R2 R3]. destruct (R1 id p Hp) as (i & w & Ho & Hid & Hin).
  assert (writes s !! i = Some w) as Hi by (rewrite Hw; by apply lookup_app_l_Some).
  destruct (finished_done s w p _ ltac:(by eapply list_elem_of_lookup_2) Hin (ri_parents _ (v_responder s I) _ _ Hp) Hn Htc)
    as [Hrest Hd].
  apply R; [done|done|done|rewrite E3; apply I|apply I| |].
  2:{ rewrite E5. intros r [?|Hr'%list_elem_of_singleton]%elem_of_app; [by left|subst r; right]. cbn. rewrite <- Hid.
      intros Hs. by apply (done_grows s), Hd. }
  exists old, new, ds. rewrite Ea. split_and!; [done|done|]. destruct E4 as [E4|E4]; [by eapply Hsame|].
  split; [|destruct R2 as [->|(w' & pre & Hl & Hs & Hc)]; [by left|right]|done].
  - intros id' p' Hp'. cbn in Hp'. rewrite E4 in Hp'. apply lookup_delete_Some in Hp' as [_ Hp'].
    destruct (R1 id' p' Hp') as (j & w' & ? & ? & Hin'). exists j, w'. split_and!; [done|done|].
    by apply (incoming_grows s).
  - exists w', pre. split; [done|]. split; [done|]. destruct Hc as [Hc|Hc]; [|by right].
    cbn. rewrite E4. rewrite last_lookup in Hl. destruct (decide (ps_parent (parent w') = id)) as [Hid'|Hne].
    + destruct (same_write s i (pred (length old)) w w' I Hb Hi) as [Hj _];
        [rewrite Hw; by apply lookup_app_l_Some|congruence|].
      pose proof (lookup_lt_Some _ _ _ Hl). rewrite decide_True in Hrest by lia. subst ds.
      right. intros ->. by apply (proj2 (stream_carries pb w' ltac:(eapply Forall_lookup_1; [apply I|rewrite Hw; by apply lookup_app_l_Some]))).
    + left. by rewrite lookup_delete_ne by done.
Qed.

(** ** Requests *)

(** A step of the responder that changes neither its tables nor the transport. *)
Lemma grant_inv s gs :
  inv s → Forall (λ g, 0 <= g_length g → 0 <= g_target g ∧ g_target g + g_length g <= U64_MAX) gs →
  inv (mkPath (rq s) (rs s) (tr s) (be s) (sq s) (writes s) (grants s ++ gs) (queued s) (popped s) (events s)).
Proof.
  intros I Hg. pose proof (responding_inv s (rs s) (tr s) (be s) gs [] []) as R. rewrite !app_nil_r in R.
  apply R; [done|apply I|done|apply I|apply I| |by left].
  destruct (v_stream s I) as (old & new & ds & Hw & Ha & Hrec). exists old, new, ds.
  split_and!; [done|done|]. apply (reception_grows s); [|done..]. split_and!; cbn; set_solver.
Qed.

(** Where the responder is when it handles [d]: in write [w], of which [pre] came before. *)
Record handling s (old new : list Write) w (pre : list RequestDatagram) (d : RequestDatagram)
    (ds : list RequestDatagram) : Prop := {
  hd_writes : writes s = old ++ new;
  hd_last : last old = Some w;
  hd_stream : stream pb w = pre ++ d :: ds;
  hd_ahead : ahead s = d :: ds ++ concat (stream pb <$> new);
  hd_inflight : ∀ id p, responder_inflight_ (rs s) !! id = Some p → ∃ i w', old !! i = Some w' ∧
    ps_parent (parent w') = id ∧ incoming s w' p (if decide (S i = length old) then d :: ds else []);
  hd_fresh : responder_inflight_ (rs s) !! ps_parent (parent w) = None → pre = [] →
    ∀ c, c ∈ queued s → br_parent c ≠ ps_parent (parent w);
  hd_copies : ∀ c, c ∈ queued s → ∃ w', w' ∈ old ∧ br_parent c = ps_parent (parent w');
}.

Lemma ahead_handling s d l :
  inv s → Z.of_nat (length (writes s)) < U32_MAX → ahead s = d :: l →
  ∃ old new w pre ds, handling s old new w pre d ds.
Proof.
  intros I Hb Hd. destruct (v_stream s I) as (old & new & ds & Hw & Ha & [R1 R2 R3]).
  destruct ds as [|d' ds].
  - destruct new as [|w new]; [by rewrite Hd in Ha|]. cbn in Ha.
    assert (writes s !! length old = Some w) as Hlw by (rewrite Hw, lookup_app_r, Nat.sub_diag by lia; done).
    pose proof (Forall_lookup_1 _ _ _ _ (v_writes s I) Hlw) as Hok.
    destruct (stream_carries pb w Hok) as [_ Hne]. destruct (stream pb w) as [|d' ds] eqn:Es; [done|].
    rewrite Hd in Ha. cbn in Ha. injection Ha as <- Ha.
    assert (∀ w', w' ∈ old → ps_parent (parent w') ≠ ps_parent (parent w)) as Hdiff.
    { intros w' (i & Hi)%list_elem_of_lookup E. pose proof (lookup_lt_Some _ _ _ Hi).
      destruct (same_write s i (length old) w' w I Hb) as [Hj _]; [rewrite Hw; by apply lookup_app_l_Some|done|done|lia]. }
    exists (old ++ [w]), new, w, [], ds. split; [by rewrite Hw, <- app_assoc|by rewrite last_snoc|done|by rewrite Hd, Ha| | |].
    + intros id p Hp. destruct (R1 id p Hp) as (i & w' & Hi & Hid & Hin). exists i, w'.
      pose proof (lookup_lt_Some _ _ _ Hi). rewrite length_app. cbn [length].
      rewrite (decide_False (P := S i = (length old + 1)%nat)) by lia. split; [by apply lookup_app_l_Some|]. split; [done|].
      by destruct (decide (S i = length old)).
    + intros _ _ c Hc E. destruct (R3 c Hc) as (w' & Hw' & E'). apply (Hdiff w' Hw'). congruence.
    + intros c Hc. destruct (R3 c Hc) as (w' & Hw' & E'). exists w'. split; [set_solver|done].
  - destruct R2 as [?|(w & pre & Hl & Hs & Hc)]; [done|]. rewrite Hd in Ha. injection Ha as <- Ha.
    exists old, new, w, pre, ds. split; [done..|by rewrite Hd, Ha|done| |done].
    intros Hn -> c. destruct Hc as [[p Hp]|?]; [congruence|done].
Qed.

Section Handling.
Context s old new w pre d ds (I : inv s) (Hb : Z.of_nat (length (writes s)) < U32_MAX)
  (D : handling s old new w pre d ds).

Lemma handling_write : write_ok pb w ∧ w ∈ old ∧ w ∈ writes s ∧ old !! pred (length old) = Some w.
Proof.
  destruct D as [Hw Hl _ _ _ _ _]. rewrite last_lookup in Hl.
  assert (writes s !! pred (length old) = Some w) as Hlw by (rewrite Hw; by apply lookup_app_l_Some).
  pose proof (Forall_lookup_1 _ _ _ _ (v_writes s I) Hlw).
  split_and!; [done|by eapply list_elem_of_lookup_2|by eapply list_elem_of_lookup_2|done].
Qed.

Lemma handling_carries : carries (parent w) d ∧ parent_request_id d = ps_parent (parent w) ∧
  is_u32 (payload_count d) ∧ 0 <= parent_total_length d <= U32_MAX.
Proof.
  destruct handling_write as (Hok & _). destruct (stream_carries pb w Hok) as [Hc _].
  rewrite (hd_stream _ _ _ _ _ _ _ D) in Hc. apply Forall_app in Hc as [_ Hc].
  apply Forall_cons in Hc as [Hc _]. pose proof (write_count pb w Hok) as [Hu Ht].
  split; [done|]. destruct Hc as (E1 & _ & _ & _ & _ & _ & _ & E2 & E3). by rewrite E1, E2, E3.
Qed.

(** What is in flight for [w], and that nothing else stands at [d]. *)
Lemma handling_inflight p :
  responder_inflight_ (rs s) !! ps_parent (parent w) = Some p → incoming s w p (d :: ds).
Proof.
  intros Hp. destruct handling_write as (_ & _ & _ & Hl). pose proof D as [Hw _ _ _ Hi _ _].
  destruct (Hi _ p Hp) as (i & w' & Hi' & E & Hin).
  destruct (same_write s i (pred (length old)) w' w I Hb) as [-> ->];
    [rewrite Hw; by apply lookup_app_l_Some..|done|].
  pose proof (lookup_lt_Some _ _ _ Hl). by rewrite decide_True in Hin by lia.
Qed.

Lemma handling_others id p rest :
  responder_inflight_ (rs s) !! id = Some p → id ≠ ps_parent (parent w) →
  ∃ i w', old !! i = Some w' ∧ ps_parent (parent w') = id ∧
    incoming s w' p (if decide (S i = length old) then rest else []).
Proof.
  intros Hp Hne. destruct (hd_inflight _ _ _ _ _ _ _ D _ p Hp) as (i & w' & Hi & E & Hin).
  destruct handling_write as (_ & _ & _ & Hl). exists i, w'. split; [done|]. split; [done|].
  destruct (decide (S i = length old)) as [Hlast|]; [|done]. exfalso. apply Hne.
  replace (pred (length old)) with i in Hl by lia. congruence.
Qed.

(** The datagram is refused. *)
Lemma reject_inv rings res loaded rs' tr' rings' b :
  pending_request_ (rs s) = Some d → res ≠ success →
  responder_inflight_ (rs s) !! ps_parent (parent w) = None →
  reject_request (rs s) (tr s) rings (parent_request_id d) res loaded = (rs', tr', rings', b) →
  inv (mkPath (rq s) rs' tr' (be s) (sq s) (writes s) (grants s) (queued s) (popped s) (events s)) ∧
  pending_backend_ rs' = pending_backend_ (rs s).
Proof.
  intros Hp Hres Hn. unfold reject_request, try_push_response.
  destruct (try_push _ _ _) as [q ok] eqn:E. apply try_push_spec in E as [-> _].
  destruct ok; intros [= <- <- _ _]; (split; [|done]); [|by destruct s as [? ? []]; apply backend_inv].
  set (k := with_pending_request _ None). set (t := mkTransport _ _ _ _).
  pose proof (responding_inv s k t (be s) [] [] []) as R. rewrite !app_nil_r in R.
  apply R; [done|by apply resp_inv_request; [apply I|]|done|apply I|apply I| |].
  - exists old, new, ds. split; [apply D|]. split.
    + pose proof (hd_ahead _ _ _ _ _ _ _ D) as Ha. unfold ahead in *. rewrite Hp in Ha. cbn in *.
      by injection Ha as ->.
    + split; cbn [rs responder_inflight_ k with_pending_request queued].
      * intros id p Hid. destruct (handling_others id p ds Hid) as (i & w' & ? & ? & Hin); [congruence|].
        exists i, w'. split_and!; [done|done|]. by apply (incoming_grows s).
      * right. exists w, (pre ++ [d]). split; [apply D|]. split; [by rewrite (hd_stream _ _ _ _ _ _ _ D), <- app_assoc|].
        right. by destruct pre.
      * apply D.
  - cbn. intros r [?|Hr%list_elem_of_singleton]%elem_of_app; [by left|subst r; by right].
Qed.

(** The datagram is the one its parent expects. *)
Lemma accept_cases k t rings view p loaded k' t' rings' b :
  receiving pb p (d :: ds) → (length (pending_backend_ k) <= kBackendBatchCapacity)%nat →
  accept_payload k t rings view d p loaded = (k', t', rings', b) →
  t' = t ∧ (k' = k ∨
    responder_inflight_ k' = <[parent_request_id d := next_parent p d]> (responder_inflight_ k) ∧
    pending_backend_ k' = pending_backend_ k ++ [copy_to (rp_target_address p) d] ∧
    pending_request_ k' = None).
Proof.
  intros Hr Hroom Ha. destruct (receiving_valid _ _ _ _ Hr) as [Hne Hv].
  destruct (decide (length (pending_backend_ k) = kBackendBatchCapacity)) as [Hfull|Hfree].
  { unfold accept_payload in Ha. rewrite Hv, (proj2 (Z.eqb_neq _ _) Hne), (proj2 (Nat.eqb_eq _ _) Hfull) in Ha.
    injection Ha as <- <- _ _. by auto. }
  destruct (decide (rp_has_receive p && negb (rp_receive_consumed p) = true ∧
    (release_slots rings (receive_queue view) 1).2 ≠ 0)) as [[Hrel Hst]|Hok].
  { unfold accept_payload in Ha.
    rewrite Hv, (proj2 (Z.eqb_neq _ _) Hne), (proj2 (Nat.eqb_neq _ _) Hfree), Hrel in Ha.
    destruct (release_slots rings (receive_queue view) 1) as [r1 st]. cbn [snd] in Hst.
    rewrite (proj2 (Z.eqb_neq st 0) Hst) in Ha. injection Ha as <- <- _ _. by auto. }
  destruct (responder_accepts_payload pb k t rings view d ds p loaded Hr) as (k1 & r1 & E & E1 & E2 & E3 & _);
    [lia|intros Hrel; destruct (decide ((release_slots rings (receive_queue view) 1).2 = 0)); tauto|].
  rewrite E in Ha. injection Ha as <- <- _ _. by auto.
Qed.

Lemma next_incoming s' p :
  incoming s w p (d :: ds) → ps_total_length (parent w) ≠ 0 → grants s' = grants s → popped s' = popped s →
  queued s' = queued s ++ [copy_to (rp_target_address p) d] → incoming s' w (next_parent p d) ds.
Proof.
  intros [H1 H2 H3 H4 H5 H6 H7] Ht Eg Ep Eq. rewrite (proj2 (Z.eqb_neq _ 0) Ht) in H4.
  assert (payload_index d = rp_next_index p) as Hi by apply (rc_numbered _ _ _ H4).
  split; rewrite ?Eg, ?Ep, ?Eq.
  - done.
  - unfold next_parent. by destruct (_ && _).
  - unfold next_parent. by destruct (_ && _).
  - rewrite (proj2 (Z.eqb_neq _ 0) Ht). by apply next_parent_receiving.
  - intros _. destruct (H5 Ht) as (pre' & Hpre & Hc). exists (pre' ++ [d]).
    split; [by rewrite Hpre, <- app_assoc|]. rewrite fmap_app. unfold next_parent.
    destruct (_ && _); cbn; set_solver.
  - unfold next_parent. by destruct (_ && _).
  - assert (rp_next_index (next_parent p d) = rp_next_index p + 1) as -> by (unfold next_parent; by destruct (_ && _)).
    intros c [Hc|Hc%list_elem_of_singleton]%elem_of_app Hp; [specialize (H7 c Hc Hp); lia|].
    subst c. cbn. lia.
Qed.

Lemma accept_inv rings view p loaded rs' tr' rings' b :
  pending_request_ (rs s) = Some d → responder_inflight_ (rs s) !! ps_parent (parent w) = Some p →
  accept_payload (rs s) (tr s) rings view d p loaded = (rs', tr', rings', b) →
  inv (mkPath (rq s) rs' tr' (be s) (sq s) (writes s) (grants s)
         (queued s ++ drop (length (pending_backend_ (rs s))) (pending_backend_ rs')) (popped s) (events s)).
Proof.
  intros Hpd Hp Ha. pose proof (handling_inflight p Hp) as Hin. destruct handling_carries as (_ & Hid & _ & _).
  assert (ps_total_length (parent w) ≠ 0) as Ht.
  { intros Ht. pose proof (in_rest _ _ _ _ Hin) as Hr. by rewrite Ht in Hr. }
  pose proof (in_rest _ _ _ _ Hin) as Hr. rewrite (proj2 (Z.eqb_neq _ 0) Ht) in Hr.
  pose proof (accept_payload_inv _ _ _ _ _ _ _ _ _ _ _ (v_responder s I) ltac:(by rewrite Hid) Ha) as Hrs.
  apply (accept_cases _ _ _ _ _ _ _ _ _ _ Hr) in Ha as [-> [->|(E1 & E2 & E3)]]; [| |apply (ri_batch _ (v_responder s I))].
  { rewrite drop_all, app_nil_r. by apply backend_inv. }
  rewrite E2, drop_app_length. rewrite Hid in E1.
  set (c := copy_to (rp_target_address p) d) in *.
  assert (payload_index d = rp_next_index p) as Hi by apply (rc_numbered _ _ _ Hr).
  pose proof (responding_inv s rs' (tr s) (be s) [] [c] []) as R. rewrite !app_nil_r in R.
  apply R; [done|done|done|..|by left].
  - cbn. rewrite E2. pose proof (proj1 (v_queued s I)). set_solver.
  - cbn. rewrite fmap_app, NoDup_app. split_and!; [apply I| |apply NoDup_singleton].
    intros key (c' & -> & Hc')%list_elem_of_fmap [= Ep Ei]%list_elem_of_singleton.
    pose proof (in_index _ _ _ _ Hin c' Hc' ltac:(congruence)). lia.
  - exists old, new, ds. split; [apply D|]. split.
    { pose proof (hd_ahead _ _ _ _ _ _ _ D) as Hah. unfold ahead in *. rewrite Hpd in Hah. cbn in *.
      rewrite E3. by injection Hah as ->. }
    destruct handling_write as (_ & Hw & _ & Hl). split; cbn [rs responder_inflight_ queued].
    + rewrite E1. intros id q Hq. destruct (decide (id = ps_parent (parent w))) as [->|Hne].
      * rewrite lookup_insert_eq in Hq. injection Hq as <-. exists (pred (length old)), w.
        split_and!; [done|done|]. pose proof (lookup_lt_Some _ _ _ Hl). rewrite decide_True by lia.
        by apply next_incoming.
      * rewrite lookup_insert_ne in Hq by done. destruct (handling_others id q ds Hq Hne) as (i & w' & ? & E & Hin').
        exists i, w'. split_and!; [done|done|]. apply (incoming_grows s); [split_and!; cbn; set_solver| |done].
        cbn. intros c' [?|Hc'%list_elem_of_singleton]%elem_of_app; [done|]. subst c'. cbn. intros. congruence.
    + right. exists w, (pre ++ [d]). split; [apply D|]. split; [by rewrite (hd_stream _ _ _ _ _ _ _ D), <- app_assoc|].
      right. by destruct pre.
    + intros c' [?|Hc'%list_elem_of_singleton]%elem_of_app; [by apply D|]. subst c'. exists w. split; [done|]. by cbn.
Qed.

(** The datagram begins its write. *)
Lemma first_of_write : valid_first d = true → pre = [].
Proof.
  intros Hv. unfold valid_first in Hv. bool_hyps. destruct handling_write as (Hok & _).
  pose proof (hd_stream _ _ _ _ _ _ _ D) as Hs. destruct (decide (ps_total_length (parent w) = 0)) as [Ht|Ht].
  - destruct (stream_empty pb w Hok Ht) as (x & Ex & _). rewrite Ex in Hs. destruct pre as [|y [|z l]]; by simplify_eq/=.
  - destruct (stream_payloads pb w Hok Ht) as (Hn & _). rewrite Hs in Hn. apply numbered_app in Hn as [_ [Hi _]].
    apply nil_length_inv. lia.
Qed.

Definition started (target : Z) (recv : option Z) : LoopWorker :=
  with_order (with_responders (rs s)
    (<[parent_request_id d := new_parent d target recv]> (responder_inflight_ (rs s))))
    (responder_order_ (rs s) ++ [parent_request_id d]).
Definition start_path (target : Z) (recv : option Z) : Path B :=
  mkPath (rq s) (started target recv) (tr s) (be s) (sq s) (writes s) (grants s) (queued s) (popped s) (events s).

Section Starting.
Context target (recv : option Z) (Hn : responder_inflight_ (rs s) !! ps_parent (parent w) = None)
  (Hv : valid_first d = true) (Hq : target_qp_num d = qs) (Hg : grant_of w target ∈ grants s).

Lemma start_facts k' s' p rest :
  responder_inflight_ k' = <[ps_parent (parent w) := p]> (responder_inflight_ (rs s)) →
  grants s' = grants s → queued s' = queued s → popped s' = popped s →
  incoming s' w p rest →
  (∀ id q, responder_inflight_ k' !! id = Some q → ∃ i w', old !! i = Some w' ∧
    ps_parent (parent w') = id ∧ incoming s' w' q (if decide (S i = length old) then rest else [])).
Proof.
  intros E1 E3 E4 E5 Hin id q Hid. rewrite E1 in Hid.
  destruct (decide (id = ps_parent (parent w))) as [->|Hne].
  - rewrite lookup_insert_eq in Hid. injection Hid as <-. destruct handling_write as (_ & _ & _ & Hl).
    exists (pred (length old)), w. pose proof (lookup_lt_Some _ _ _ Hl). by rewrite decide_True by lia.
  - rewrite lookup_insert_ne in Hid by done. destruct (handling_others id q rest Hid Hne) as (i & w' & ? & ? & [H1 H2 H3 H4 H5 H6 H7]).
    exists i, w'. split_and!; [done|done|]. split; rewrite ?E3, ?E4, ?E5; done.
Qed.

(** The new parent, whose write is still to come but for its first datagram. *)
Lemma start_incoming s' rest :
  grants s' = grants s → queued s' = queued s → popped s' = popped s →
  rest = (if ps_total_length (parent w) =? 0 then [] else d :: ds) →
  incoming s' w (new_parent d target recv) rest.
Proof.
  intros E1 E2 E3 ->. destruct handling_write as (Hok & _). destruct handling_carries as ((_&_&Et&_&_&_&_&Etl&Ec) & _ & _ & _).
  pose proof (hd_stream _ _ _ _ _ _ _ D) as Hs. rewrite (first_of_write Hv) in Hs. cbn in Hs.
  split; cbn [new_parent rp_target_address rp_payload_count rp_terminal rp_next_index]; rewrite ?E1, ?E2, ?E3; try done.
  - congruence.
  - destruct (_ =? 0) eqn:E; [done|]. bool_hyps. destruct (stream_payloads pb w Hok E) as (N1 & N2 & N3 & _ & N5 & _).
    rewrite Hs in *. destruct (write_count pb w Hok) as [_ Hm].
    apply (receiving_start pb (parent w)); [done|done|done|done|lia|].
    pose proof (payloads_le_length pb _ ltac:(apply (wo_send _ _ Hok)) (so_segments _ _ (wo_send _ _ Hok))).
    destruct (wo_send _ _ Hok) as [_ _ [? _] [? _]]. lia.
  - intros Ht. rewrite (proj2 (Z.eqb_neq _ 0) Ht). exists []. split; [done|]. apply list_subseteq_nil.
  - intros i Hi. apply lookup_replicate in Hi as [? _]. done.
  - intros c Hc E. by destruct (hd_fresh _ _ _ _ _ _ _ D Hn (first_of_write Hv) c Hc).
Qed.

Lemma start_inv :
  pending_request_ (rs s) = Some d → ps_total_length (parent w) ≠ 0 →
  inv (start_path target recv) ∧ handling (start_path target recv) old new w pre d ds.
Proof.
  intros Hp Ht. destruct handling_carries as (_ & Hid & Hu & _).
  assert (handling (start_path target recv) old new w pre d ds) as Hh.
  { pose proof D as [D1 D2 D3 D4 D5 D6 D7]. split; [done|done|done|done| | |done].
    - apply (start_facts (started target recv) _ (new_parent d target recv)); [cbn; by rewrite Hid|done..|]. apply start_incoming; [done..|].
      by rewrite (proj2 (Z.eqb_neq _ 0) Ht).
    - cbn. rewrite Hid, lookup_insert_eq. done. }
  split; [|done]. pose proof (responding_inv s (started target recv) (tr s) (be s) [] [] []) as R.
  rewrite !app_nil_r in R. apply R; [done|apply resp_inv_new; [apply I|done|by rewrite Hid]|done|apply I|apply I| |by left].
  exists old, new, (d :: ds). split; [apply D|]. split; [apply D|]. split; [apply Hh| |apply D].
  right. exists w, pre. split; [apply D|]. split; [apply D|]. left. cbn. rewrite Hid, lookup_insert_eq. eauto.
Qed.

(** A write without bytes is received in one go. *)
Lemma empty_inv rings view loaded rs' tr' rings' b :
  pending_request_ (rs s) = Some d → ps_total_length (parent w) = 0 →
  (recv ≠ None → (release_slots rings (receive_queue view) 1).2 = 0) →
  accept_payload (started target recv) (tr s) rings view d (new_parent d target recv) loaded = (rs', tr', rings', b) →
  inv (mkPath (rq s) rs' tr' (be s) (sq s) (writes s) (grants s) (queued s) (popped s) (events s)) ∧
  pending_backend_ rs' = pending_backend_ (rs s).
Proof.
  intros Hp Ht Hrel Ha. destruct handling_carries as ((_&_&_&_&_&_&_&Etl&Ec) & Hid & Hu & _).
  destruct handling_write as (Hok & _). destruct (stream_empty pb w Hok Ht) as (x & Ex & _ & Xi & Xo & Xl & Xc & _).
  pose proof (hd_stream _ _ _ _ _ _ _ D) as Hs. rewrite (first_of_write Hv), Ex in Hs. injection Hs as Exd Hds.
  rewrite Exd in Xi, Xo, Xl. clear x Ex Exd.
  pose proof (resp_inv_new (rs s) d target recv (v_responder s I) Hu ltac:(by rewrite Hid)) as Hr0. fold (started target recv) in Hr0.
  pose proof (accept_payload_inv _ _ _ _ _ _ _ _ _ _ _ Hr0 ltac:(cbn; by rewrite lookup_insert_eq) Ha) as Hr.
  assert (∃ p', (p' = new_parent d target recv ∨ p' = with_consumed (new_parent d target recv)) ∧ tr' = tr s ∧
    responder_inflight_ rs' = <[ps_parent (parent w) := p']> (responder_inflight_ (rs s)) ∧
    pending_request_ rs' = None ∧ pending_backend_ rs' = pending_backend_ (rs s)) as (p' & Hp' & -> & E1 & E2 & E3).
  { unfold accept_payload in Ha. assert (valid_payload (new_parent d target recv) d = true) as Hval.
    { unfold valid_payload. cbn. rewrite !Z.eqb_refl, bool_decide_true by done. by rewrite Ec, Xc, Xi, Xo, Xl. }
    rewrite Hval in Ha. cbn [new_parent rp_payload_count rp_has_receive rp_receive_consumed negb] in Ha.
    rewrite Ec, Xc in Ha. cbn [Z.eqb] in Ha. destruct recv as [r|]; cbn [andb] in Ha.
    - specialize (Hrel ltac:(done)). destruct (release_slots rings (receive_queue view) 1) as [r1 st]. cbn in Hrel. subst st.
      cbn [negb Z.eqb] in Ha. injection Ha as <- <- _ _. eexists. split; [by right|]. split; [done|]. split; [|done].
      cbn. by rewrite insert_insert_eq, Hid.
    - injection Ha as <- <- _ _. eexists. split; [by left|]. split; [done|]. split; [|done]. cbn. by rewrite Hid. }
  split; [|done]. set (s' := mkPath _ _ _ _ _ _ _ _ _ _).
  pose proof (responding_inv s rs' (tr s) (be s) [] [] []) as R. rewrite !app_nil_r in R.
  apply R; [done|done|done|rewrite E3; apply I|apply I| |by left]. fold s'. exists old, new, [].
  split; [apply D|]. split.
  { pose proof (hd_ahead _ _ _ _ _ _ _ D) as Hah. unfold ahead in *. rewrite Hp in Hah. cbn in *.
    rewrite E2, <- Hds in *. by injection Hah as ->. }
  split; [|by left|apply D]. cbn [rs s']. eapply start_facts; [exact E1|done..|].
  destruct Hp' as [->| ->]; [|apply incoming_consumed]; (apply start_incoming; [done..|by rewrite Ht]).
Qed.
End Starting.
End Handling.

Lemma unqueued s (x y : LoopWorker) (t : LocalTransport) :
  inv (mkPath (rq s) y t (be s) (sq s) (writes s) (grants s) (queued s) (popped s) (events s)) ∧
  pending_backend_ y = pending_backend_ x →
  inv (mkPath (rq s) y t (be s) (sq s) (writes s) (grants s)
         (queued s ++ drop (length (pending_backend_ x)) (pending_backend_ y)) (popped s) (events s)).
Proof. intros [Hi ->]. by rewrite drop_all, app_nil_r. Qed.

Lemma handle_inv `{KeyResolver} s rings view d loaded rs' tr' rings' b :
  inv s → Z.of_nat (length (writes s)) < U32_MAX → qp_num view = qs → pending_request_ (rs s) = Some d →
  granted (rs s) (tr s) view ⊆ grants s →
  handle_request (rs s) (tr s) rings view d loaded = (rs', tr', rings', b) →
  inv (mkPath (rq s) rs' tr' (be s) (sq s) (writes s) (grants s)
         (queued s ++ drop (length (pending_backend_ (rs s))) (pending_backend_ rs')) (popped s) (events s)).
Proof.
  intros I Hb Hv Hp Hg. destruct (ahead_handling s d _ I Hb ltac:(unfold ahead; by rewrite Hp))
    as (old & new & w & pre & ds & D).
  destruct (handling_carries _ _ _ _ _ _ _ I D) as ((_&_&Et&_&Era&Erk&_&Etl&_) & Hid & _ & Hmax).
  assert (∀ res, res ≠ success → responder_inflight_ (rs s) !! ps_parent (parent w) = None →
    reject_request (rs s) (tr s) rings (parent_request_id d) res loaded = (rs', tr', rings', b) →
    inv (mkPath (rq s) rs' tr' (be s) (sq s) (writes s) (grants s)
      (queued s ++ drop (length (pending_backend_ (rs s))) (pending_backend_ rs')) (popped s) (events s))) as Hrej.
  { intros res Hres Hn Hr. apply unqueued. by eapply (reject_inv s old new w pre d ds I Hb D). }
  unfold handle_request. destruct (negb _ || _) eqn:E.
  { apply Hrej; [done|].
    destruct (responder_inflight_ (rs s) !! ps_parent (parent w)) as [p|] eqn:Hi; [|done]. exfalso.
    pose proof (in_target _ _ _ _ (handling_inflight _ _ _ _ _ _ _ I Hb D p Hi)) as Hq.
    rewrite Et, Hq, Hv, Z.eqb_refl in E. cbn in E. bool_hyps. lia. }
  bool_hyps. rewrite Hid. destruct (responder_inflight_ (rs s) !! ps_parent (parent w)) as [p|] eqn:Hi.
  { by apply (accept_inv s old new w pre d ds I Hb D). }
  rewrite <- Hid. destruct (negb (valid_first d)) eqn:Hvf.
  { by apply Hrej. }
  bool_hyps. unfold granted in Hg. rewrite Hp in Hg. cbn in Hg.
  destruct (resolve_rkey _ _ _ _ _) as [target|] eqn:Hrk; rewrite ?Hrk in Hg.
  2:{ by apply Hrej. }
  assert (grant_of w target ∈ grants s) as Hgr.
  { apply Hg. unfold grant_of. rewrite <- Erk, <- Era, <- Etl. by left. }
  destruct (if decide _ then _ else _) as [r1 [recv|]] eqn:Hrecv.
  2:{ intros [= <- <- _ _]. apply unqueued. split; [by apply backend_inv|done]. }
  assert (target_qp_num d = qs) as Hq by congruence.
  fold (started s d target recv). intros Ha.
  destruct (decide (ps_total_length (parent w) = 0)) as [Ht|Ht].
  - apply unqueued. eapply (empty_inv s old new w pre d ds I D target recv Hi Hvf Hq Hgr); [done|done| |exact Ha].
    intros Hsome. apply release_held. case_decide; [|by simplify_eq].
    destruct (peek_slot rings (receive_queue view)) as [r2 [slot|]] eqn:Hpk; [|done].
    injection Hrecv as <- _. by eapply peek_slot_holds.
  - destruct (start_inv s old new w pre d ds I D target recv Hi Hvf Hq Hgr Hp Ht) as [I1 D1].
    eapply (accept_inv _ old new w pre d ds I1 Hb D1); [exact Hp|cbn; by rewrite Hid, lookup_insert_eq|exact Ha].
Qed.

Lemma granted_ok `{KeyResolver} `{!KeyResolverLaws} k t view :
  Forall (λ g, 0 <= g_length g → 0 <= g_target g ∧ g_target g + g_length g <= U64_MAX) (granted k t view).
Proof.
  unfold granted. destruct (_ ++ _) as [|d l]; [constructor|].
  destruct (resolve_rkey _ _ _ _ _) as [a|] eqn:E; constructor; [|constructor]. cbn. intros Hl. by eapply rkey_range.
Qed.

Lemma receive_inv s K rings view rs' tr' rings' b :
  @KeyResolverLaws K → inv s → Z.of_nat (length (writes s)) < U32_MAX → qp_num view = qs →
  try_request (rs s) (tr s) rings view = (rs', tr', rings', b) →
  inv (mkPath (rq s) rs' tr' (be s) (sq s) (writes s) (grants s ++ granted (rs s) (tr s) view)
         (queued s ++ drop (length (pending_backend_ (rs s))) (pending_backend_ rs')) (popped s) (events s)).
Proof.
  intros HK I Hb Hq Ht. pose proof (grant_inv s _ I (granted_ok (rs s) (tr s) view)) as I1.
  unfold try_request in Ht. destruct (pending_request_ (rs s)) as [d|] eqn:Hp.
  { eapply (handle_inv _ _ _ _ _ _ _ _ _ I1); [done|done|done| |exact Ht]. cbn. set_solver. }
  unfold try_pop_request in Ht. destruct (requests_ (tr s)) as [|d l] eqn:Hl; cbn [try_pop] in Ht.
  { injection Ht as <- <- _ _. rewrite drop_all, app_nil_r. destruct (tr s) as [c1 c2 q r] eqn:Et. cbn in *. subst q. exact I1. }
  set (k := with_pending_request (rs s) (Some d)) in *. set (t := mkTransport _ _ l _) in *.
  set (s1 := mkPath _ _ _ _ _ _ _ _ _ _) in I1.
  destruct (ahead_handling s1 d (l ++ match pending_send_ (rq s) with Some x => unsent pb x | None => [] end) I1 Hb)
    as (old & new & w & pre & ds & D); [unfold ahead; cbn; by rewrite Hp, Hl|].
  destruct (handling_carries _ _ _ _ _ _ _ I1 D) as (_ & _ & Hu & _).
  pose proof (responding_inv s1 k t (be s) [] [] []) as R. rewrite !app_nil_r in R.
  destruct R as [I2 _]; [done|by apply resp_inv_request; [apply I|intros ? [= <-]]|done|apply I|apply I| |by left|].
  { destruct (v_stream s1 I1) as (o & n & x & Hw & Ha & Hrec). exists o, n, x. split; [done|]. split.
    - rewrite <- Ha. unfold ahead. cbn. by rewrite Hp, Hl.
    - by apply (reception_grows s1). }
  eapply (handle_inv _ _ _ _ _ _ _ _ _ I2); [done|done|done| |exact Ht].
  assert (granted k t view = granted (rs s) (tr s) view) as Eg by (unfold granted; by rewrite Hp, Hl).
  cbn [rs tr grants s1]. rewrite Eg. set_solver.
Qed.

(** ** Runs *)

Lemma path_step_inv s s' :
  0 < pb <= U32_MAX → step qs s s' → inv s → Z.of_nat (length (writes s')) < U32_MAX → inv s'.
Proof.
  intros Hpb [] I Hb; cbn in Hb.
  - by eapply send_inv.
  - by eapply answer_inv.
  - by eapply receive_inv.
  - by eapply pop_inv.
  - by eapply path_submit_inv.
  - by eapply respond_inv.
Qed.

Lemma steps_writes s s' : rtc (step qs) s s' → (length (writes s) <= length (writes s'))%nat.
Proof.
  induction 1 as [|s1 s2 s3 H12 _ IH]; [done|]. etrans; [|exact IH].
  destruct H12; cbn; rewrite ?length_app; lia.
Qed.

Lemma steps_inv s s' :
  0 < pb <= U32_MAX → rtc (step qs) s s' → inv s → Z.of_nat (length (writes s')) < U32_MAX → inv s'.
Proof.
  intros Hpb. induction 1 as [|s1 s2 s3 H12 H23 IH]; [done|]. intros I Hb. apply IH; [|done].
  eapply path_step_inv; [done|done|done|]. apply steps_writes in H23. lia.
Qed.

Lemma start_path_inv payload_bytes c1 c2 b r :
  pb = payload_bytes_ (new_worker qq requester payload_bytes true) →
  inv (start qs qq payload_bytes c1 c2 b r).
Proof.
  intros ->. split; cbn; try done; try (by intros ? ?%elem_of_nil).
  - apply new_worker_inv.
  - exists [], [], []. split_and!; [done|done|]. split; [done|by left|by intros ? ?%elem_of_nil].
  - split; [done|constructor].
Qed.

(** ** Completed writes *)

(** The copies of a write, each identified among all that were queued, and reported as
    done. *)
Definition copied_to s w (target : Z) : Prop :=
  ∃ copies, copied_bytes copies = zip (bytes w) (seqZ target (Z.of_nat (length (bytes w)))) ∧
    ∀ c, c ∈ copies → c ∈ queued s ∧
      mkBackendCompletion (br_parent c) (br_index c) success ∈ popped s ∧
      ∀ c', c' ∈ queued s → copy_key c' = copy_key c → c' = c.

Lemma copies_unique s c c' :
  inv s → c ∈ queued s → c' ∈ queued s → copy_key c' = copy_key c → c' = c.
Proof.
  intros I (i & Hi)%list_elem_of_lookup (j & Hj)%list_elem_of_lookup Ek.
  destruct (v_queued s I) as [_ Hnd]. rewrite NoDup_alt in Hnd. assert (j = i) as ->; [|congruence].
  eapply Hnd; rewrite list_lookup_fmap; [by rewrite Hj|by rewrite Hi, Ek].
Qed.

Lemma event_copied s e :
  inv s → Z.of_nat (length (writes s)) < U32_MAX → e ∈ events s → pce_result e = success →
  ∃ w target, w ∈ writes s ∧ ps_parent (parent w) = pce_parent e ∧ ps_wr_id (parent w) = pce_wr_id e ∧
    Z.of_nat (length (bytes w)) = pce_bytes e ∧ grant_of w target ∈ grants s ∧ copied_to s w target.
Proof.
  intros I Hb He Hs.
  destruct (v_events s I e He Hs) as [(w & Hw & Hid & Hwr & Hlen) (w' & target & Hw' & Hid' & Hg & Hc & Hk)].
  assert (w' = w) as ->.
  { apply list_elem_of_lookup in Hw as [i Hi]. apply list_elem_of_lookup in Hw' as [j Hj].
    by destruct (same_write s j i w' w I Hb Hj Hi) as [_ ->]; [congruence|]. }
  pose proof (proj1 (Forall_forall _ _) (v_writes s I) w Hw) as Hok.
  destruct (proj1 (Forall_forall _ _) (v_grants s I) _ Hg) as [Ht0 Htm]; [by apply (write_count pb)|].
  cbn in Ht0, Htm. exists w, target. rewrite (length_write pb w Hok). split_and!; [done..|].
  exists (copies w target). rewrite (length_write pb w Hok). split.
  - rewrite <- (stream_copied pb w target Hok Ht0 Htm). unfold copies.
    destruct (_ =? 0) eqn:E; [|done]. bool_hyps. destruct (stream_empty pb w Hok E) as (d & -> & _ & _ & _ & Hl & _).
    unfold copied_bytes. cbn. by rewrite Hl.
  - intros c Hcc. pose proof (Hc _ Hcc) as Hq. split; [done|]. split; [|intros; by eapply copies_unique].
    unfold copies in Hcc. destruct (_ =? 0) eqn:E; [by apply elem_of_nil in Hcc|]. bool_hyps.
    apply list_elem_of_fmap in Hcc as (d & -> & Hd). destruct (stream_payloads pb w Hok E) as (Hn & Hcar & Hcnt & _).
    destruct (proj1 (Forall_forall _ _) Hcar d Hd) as (Ep & _). cbn. rewrite Ep, Hid. apply Hk.
    pose proof (numbered_index pb _ _ _ _ Hn Hd). lia.
Qed.
End Invariant.

Lemma default_payload qq payload_bytes :
  0 <= payload_bytes → 0 < payload_bytes_ (new_worker qq requester payload_bytes true) <= U32_MAX.
Proof.
  intros Hp. cbn. unfold kDefaultPayloadBytes. destruct (_ =? 0) eqn:E; [by vm_compute|]. bool_hyps. ulia.
Qed.

(** The invariant of everything the two workers can reach. *)
Lemma path_reachable_inv {B} `{CopyBackend B} qq qs payload_bytes c1 c2 (b : B) r s :
  0 <= payload_bytes → rtc (step qs) (start qs qq payload_bytes c1 c2 b r) s →
  Z.of_nat (length (writes s)) < U32_MAX →
  inv qq qs (payload_bytes_ (new_worker qq requester payload_bytes true)) s.
Proof.
  intros Hp Hr Hb. eapply (steps_inv qq qs _ _ s); [by apply default_payload|exact Hr|by apply start_path_inv|done].
Qed.

(** * Properties *)

(** (C4) A completed write was copied, end to end: whatever the two workers do and in whatever
    order, when the requester reports a work request as completed with success, it took
    that request off its send queue, a key lookup granted its remote range, and copies
    that take the bytes of its scatter list, in order, to that range, each byte once,
    were all queued for the backend and reported as done by it; no two copies ever queued
    can be confused.  The bound on the number of writes keeps their identities, which
    wrap at 32 bits, apart. *)
Theorem completed_write_copied {B} `{CopyBackend B} qq qs payload_bytes c1 c2 (b : B) r s e :
  0 <= payload_bytes → rtc (step qs) (start qs qq payload_bytes c1 c2 b r) s →
  Z.of_nat (length (writes s)) < U32_MAX → e ∈ events s → pce_result e = success →
  ∃ w target, w ∈ writes s ∧ ps_parent (parent w) = pce_parent e ∧ ps_wr_id (parent w) = pce_wr_id e ∧
    Z.of_nat (length (bytes w)) = pce_bytes e ∧ grant_of w target ∈ grants s ∧ copied_to s w target.
Proof.
  intros Hp Hr Hb He Hs. eapply event_copied; [by eapply path_reachable_inv|done..].
Qed.

(** ** Witness: a write of seven bytes *)

#[local] Existing Instance identity_resolver.
#[local] Existing Instance identity_resolver_laws.
Section Play.
Context {B : Type} `{CopyBackend B}.
Implicit Types s : Path B.

Definition demo_ring_store s : Rings := <[1 := mkCell (sq s) (cell_region demo_send_cell)]> demo_rings.
Definition demo_peer : WorkerQpView := mkView 1 2 11 10 4 4 0 1 2 3 4.

Definition play_send s : Path B :=
  let '(k, t, g, _) := try_send (rq s) (tr s) (demo_ring_store s) demo_view in
  mkPath k (rs s) t (be s) (cell_ring (ring_at g 1)) (writes s ++ taken (rq s) (demo_ring_store s) demo_view)
    (grants s) (queued s) (popped s) (events s).
Definition play_receive s : Path B :=
  let '(k, t, _, _) := try_request (rs s) (tr s) ∅ demo_peer in
  mkPath (rq s) k t (be s) (sq s) (writes s) (grants s ++ granted (rs s) (tr s) demo_peer)
    (queued s ++ drop (length (pending_backend_ (rs s))) (pending_backend_ k)) (popped s) (events s).
Definition play_submit s : Path B :=
  let '(k, b, _) := try_flush_backend_requests (rs s) (be s) in
  mkPath (rq s) k (tr s) b (sq s) (writes s) (grants s) (queued s) (popped s) (events s).
Definition play_pop s : Path B :=
  let '(k, b, _) := try_backend_completions (rs s) (be s) in
  mkPath (rq s) k (tr s) b (sq s) (writes s) (grants s) (queued s)
    (popped s ++ (try_pop_completion_batch (be s) kBackendBatchCapacity).2) (events s).
Definition play_respond s : Path B :=
  let '(k, t, _, _) := try_parent_response (rs s) (tr s) ∅ demo_peer in
  mkPath (rq s) k t (be s) (sq s) (writes s) (grants s) (queued s) (popped s) (events s).
Definition play_answer s : Path B :=
  let '(k, t, _, ev, _) := try_response (rq s) (tr s) Request.demo_both demo_view in
  mkPath k (rs s) t (be s) (sq s) (writes s) (grants s) (queued s) (popped s) (events s ++ ev).

Lemma play_send_step s : step 11 s (play_send s).
Proof.
  unfold play_send. destruct (try_send _ _ _ _) as [[[k t] g] b] eqn:E.
  eapply (did_send 11 s _ (demo_ring_store s) demo_view); [apply _| |exact E].
  unfold demo_ring_store. by rewrite ring_at_insert.
Qed.
Lemma play_receive_step s : step 11 s (play_receive s).
Proof.
  unfold play_receive. destruct (try_request _ _ _ _) as [[[k t] g] b] eqn:E.
  eapply (did_receive 11 s _ ∅ demo_peer); [apply _|done|exact E].
Qed.
Lemma play_submit_step s : step 11 s (play_submit s).
Proof. unfold play_submit. destruct (try_flush_backend_requests _ _) as [[k b] x] eqn:E. by eapply did_submit. Qed.
Lemma play_pop_step s :
  Forall (λ c, 0 <= bc_index c) (try_pop_completion_batch (be s) kBackendBatchCapacity).2 → step 11 s (play_pop s).
Proof. intros Hf. unfold play_pop. destruct (try_backend_completions _ _) as [[k b] x] eqn:E. by eapply did_pop. Qed.
Lemma play_respond_step s : step 11 s (play_respond s).
Proof. unfold play_respond. destruct (try_parent_response _ _ _ _) as [[[k t] g] b] eqn:E. by eapply did_respond. Qed.
Lemma play_answer_step s : step 11 s (play_answer s).
Proof. unfold play_answer. destruct (try_response _ _ _ _) as [[[[k t] g] ev] b] eqn:E. by eapply did_answer. Qed.
End Play.

#[local] Existing Instance eager_backend.
Notation demo := (Path (list BackendCompletion)).
Definition demo_start : demo := start 11 10 4 8 8 [] (cell_ring demo_send_cell).
Definition demo_submitted : demo :=
  play_submit (play_receive (play_receive (play_receive (play_send (play_send (play_send demo_start)))))).
Definition demo_end : demo := play_answer (play_respond (play_pop demo_submitted)).

Lemma demo_run : rtc (step 11) demo_start demo_end.
Proof.
  unfold demo_end, demo_submitted. do 3 (eapply rtc_l; [apply play_send_step|]).
  do 3 (eapply rtc_l; [apply play_receive_step|]). eapply rtc_l; [apply play_submit_step|].
  eapply rtc_l; [apply play_pop_step; vm_compute; repeat constructor; discriminate|].
  eapply rtc_l; [apply play_respond_step|]. eapply rtc_l; [apply play_answer_step|]. done.
Qed.

Lemma completed_write_copied_witness :
  events demo_end = [mkParentCompletion 42949672961 7 7 3 success] ∧
  ∃ w target, w ∈ writes demo_end ∧ ps_wr_id (parent w) = 7 ∧ grant_of w target ∈ grants demo_end ∧
    copied_to demo_end w target.
Proof.
  assert (events demo_end = [mkParentCompletion 42949672961 7 7 3 success]) as He by by vm_compute.
  split; [exact He|].
  destruct (completed_write_copied 10 11 4 8 8 [] (cell_ring demo_send_cell) demo_end
    (mkParentCompletion 42949672961 7 7 3 success)) as (w & target & Hw & _ & Hi & _ & Hg & Hc).
  - by vm_compute.
  - exact demo_run.
  - by vm_compute.
  - rewrite He. left.
  - reflexivity.
  - exists w, target. split; [exact Hw|]. split; [exact Hi|]. split; [exact Hg|exact Hc].
Defined.
End DataPath.
