(* ===== verification/Delivery.v ===== *)
(** A write gets through (src/worker/worker.cpp).  DataPath.v shows what a completion says,
    for every interleaving; here the two workers take turns, with nothing in their way, and
    the responder takes every datagram of a granted write and hands the copies of all its
    bytes to the backend. *)

From S2P Require Import Prelude SharedRing RingSpsc Descriptors CompletionQueue LocalTransport.
From S2P Require Import Worker WorkerStream WorkerRespond WorkerRequest DataPath.
Import Ring Spsc CompletionQueue Transport Worker Stream Respond DataPath.

Module Delivery.

(** * Taking turns *)

(** The requester and the responder with their rings, the transport and the backend, and the
    copies handed to the backend so far. *)
Record WorkerPair (B : Type) := mkWorkerPair {
  l_rq : LoopWorker; l_rs : LoopWorker; l_tr : LocalTransport; l_be : B;
  l_rings : Rings; l_peer : Rings; l_handed : list BackendRequest;
}.
Arguments mkWorkerPair {B}. Arguments l_rq {B}. Arguments l_rs {B}. Arguments l_tr {B}. Arguments l_be {B}.
Arguments l_rings {B}. Arguments l_peer {B}. Arguments l_handed {B}.

(** Backends that take what they are given while they have room. *)
Class RoomyBackend (B : Type) `{CopyBackend B} := {
  room : B → nat;
  room_submit : ∀ b l, (length l <= room b)%nat →
    (try_submit_batch b l).2 = length l ∧ room (try_submit_batch b l).1 = (room b - length l)%nat;
  room_flush : ∀ b, room (flush_submissions b).1 = room b;
}.

Section Turns.
Context {B : Type} `{RoomyBackend B} `{KeyResolver} (vq vr : WorkerQpView).

(** The requester pushes a datagram, the responder handles it and hands over its copies. *)
Definition turn (s : WorkerPair B) : WorkerPair B :=
  let '(rq, t, rings, _) := try_send (l_rq s) (l_tr s) (l_rings s) vq in
  let '(rs, t, peer, _) := try_request (l_rs s) t (l_peer s) vr in
  let '(rs', b, _) := try_flush_backend_requests rs (l_be s) in
  mkWorkerPair rq rs' t b rings peer
    (l_handed s ++ take (length (pending_backend_ rs) - length (pending_backend_ rs')) (pending_backend_ rs)).

Fixpoint turns (n : nat) (s : WorkerPair B) : WorkerPair B :=
  match n with O => s | S n => turns n (turn s) end.

(** ** The requester's half *)

(** What is still to be pushed. *)
Definition sending (pb : Z) (w : LoopWorker) (rest : list RequestDatagram) : Prop :=
  rest = [] ∨ ∃ p, pending_send_ w = Some p ∧ payload_bytes_ w = pb ∧ unfinished p ∧ unsent pb p = rest.

Definition idle (t : LocalTransport) : Prop := requests_ t = [] ∧ 1 <= request_capacity_ t.
Definition carrying (t : LocalTransport) (d : RequestDatagram) : LocalTransport :=
  mkTransport (request_capacity_ t) (response_capacity_ t) [d] (responses_ t).

Lemma push_turn pb w t rings p :
  payload_bytes_ w = pb → unfinished p → idle t →
  ∃ w' rings' b rest, push_payload w t rings vq p = (w', carrying t (next_datagram pb p), rings', b) ∧
    unsent pb p = next_datagram pb p :: rest ∧ sending pb w' rest.
Proof.
  intros Hpb Hu [Ht Hc]. destruct (advance_unsent pb p Hu) as [Hun Hfin]. unfold push_payload.
  assert ((ps_total_length p =? 0) && ps_zero_sent p = false) as ->.
  { unfold unfinished in Hu. destruct (ps_total_length p =? 0); [by rewrite Hu|done]. }
  unfold try_push_request, try_push. rewrite Hpb, Ht, (proj2 (Z.leb_gt _ _)) by (simpl; lia). cbn [app].
  set (p' := advance_send p (payload_length (next_datagram pb p))) in *.
  destruct (send_finished p') eqn:Ef; cbn [negb].
  - destruct (release_slots _ _ _) as [rings' st]. rewrite Hfin in Hun.
    destruct (negb (st =? 0)); eexists _, _, _, _; (split; [reflexivity|]); (split; [exact Hun|by left]).
  - eexists _, _, _, _. split; [reflexivity|]. split; [exact Hun|]. right. by exists p'.
Qed.

(** ** The responder's half *)

(** The responder has taken everything of the write before [rest]. *)
Record taking (pb : Z) (x : PendingSend) (target : Z) (order : list Z) (w : LoopWorker)
    (rest : list RequestDatagram) : Prop := {
  tk_request : pending_request_ w = None;
  tk_backend : pending_backend_ w = [];
  tk_order : responder_order_ w = order ++ [ps_parent x];
  tk_parent : ∃ q, responder_inflight_ w !! ps_parent x = Some q ∧ receiving pb q rest ∧
    rp_target_address q = target ∧ rp_error q = success ∧ rp_has_receive q && negb (rp_receive_consumed q) = false ∧
    rp_payload_count q = ps_payload_count x ∧ rp_total_length q = ps_total_length x;
}.

(** Handing over the one copy that is pending, or nothing. *)
Lemma flush_turn w (b : B) l :
  pending_backend_ w = l → (length l <= 1)%nat → (length l <= room b)%nat →
  ∃ b' x, try_flush_backend_requests w b = (with_pending_backend w [], b', x) ∧
    (room b - length l <= room b')%nat.
Proof.
  intros Hl H1' Hr. unfold try_flush_backend_requests. rewrite Hl. case_decide as Hn.
  - subst l. exists b, false. split; [|simpl; lia]. do 2 f_equal. destruct w. cbn in *. by subst.
  - destruct (room_submit b l Hr) as [Hn' Hr']. destruct (try_submit_batch b l) as [b1 n]. cbn [fst snd] in *. subst n.
    rewrite (proj2 (Nat.eqb_neq _ _)), Nat.ltb_irrefl by (destruct l; simpl; [done|lia]). cbn [orb].
    rewrite drop_all. pose proof (room_flush b1) as Hf. destruct (flush_submissions b1) as [b2 y].
    eexists _, _. split; [reflexivity|]. cbn in Hf. lia.
Qed.

(** Handling a datagram of a write the responder knows. *)
Lemma take_known pb x target order w t peer d ds :
  taking pb x target order w (d :: ds) → carries x d → ps_total_length x <= U32_MAX → qp_num vr = ps_target_qp x →
  ∃ w' peer', try_request w (carrying t d) peer vr =
      (w', mkTransport (request_capacity_ t) (response_capacity_ t) [] (responses_ t), peer', true) ∧
    pending_backend_ w' = [copy_to target d] ∧ taking pb x target order (with_pending_backend w' []) ds.
Proof.
  intros [Hreq Hbe Hord (q & Hq & Hrc & Htg & Herr & Hrecv & Hcnt & Htot)] (Hid & _ & Htq & _ & _ & _ & _ & Hdt & _) Hmax Hv.
  unfold try_request, try_pop_request. rewrite Hreq. cbn [carrying requests_ try_pop].
  set (w0 := with_pending_request w (Some d)). set (t0 := mkTransport _ _ _ _).
  unfold handle_request. rewrite Htq, Hv, Z.eqb_refl, Hdt, (proj2 (Z.ltb_ge U32_MAX _)), Hid by done. cbn [negb orb].
  change (responder_inflight_ w0) with (responder_inflight_ w). rewrite Hq.
  destruct (responder_accepts_payload pb w0 t0 peer vr d ds q true Hrc) as (w1 & peer1 & E & E1 & E2 & E3 & E4 & E5 & _).
  { change (pending_backend_ w0) with (pending_backend_ w). rewrite Hbe. simpl. unfold kBackendBatchCapacity. lia. }
  { by rewrite Hrecv. }
  exists w1, peer1. split; [exact E|]. change (pending_backend_ w0) with (pending_backend_ w) in E2. rewrite Hbe in E2.
  split; [by rewrite E2, backend_request_copy, Htg|]. split; cbn; [done|done|by rewrite E4|].
  exists (next_parent q d). rewrite E1, Hid, lookup_insert_eq. split; [done|]. split; [done|].
  unfold next_parent. rewrite Hrecv. by split_and!.
Qed.

(** The turns of a write that is under way. *)
Lemma turns_known pb x target order rest :
  Forall (carries x) rest → ps_total_length x <= U32_MAX → qp_num vr = ps_target_qp x →
  ∀ s, sending pb (l_rq s) rest → taking pb x target order (l_rs s) rest → idle (l_tr s) →
  (length rest <= room (l_be s))%nat →
  let s' := turns (length rest) s in
  l_handed s' = l_handed s ++ (copy_to target <$> rest) ∧ taking pb x target order (l_rs s') [] ∧ idle (l_tr s').
Proof.
  intros Hcar Hmax Hv. induction Hcar as [|d ds Hd _ IH]; intros s Hs Ht Hi Hr.
  { cbn [turns fmap list_fmap length]. by rewrite app_nil_r. }
  destruct Hs as [?|(p & Hp & Hpb & Hu & Hun)]; [done|].
  destruct (push_turn pb (l_rq s) (l_tr s) (l_rings s) p Hpb Hu Hi) as (rq' & rings' & b & rest & E1 & E2 & Hs').
  rewrite Hun in E2. injection E2 as -> <-.
  destruct (take_known pb x target order (l_rs s) (l_tr s) (l_peer s) _ ds Ht Hd Hmax Hv) as (rs' & peer' & E3 & Hbe & Ht').
  destruct (flush_turn rs' (l_be s) _ Hbe) as (be' & y & E4 & Hr'); [simpl; lia|simpl in *; lia|].
  set (s1 := mkWorkerPair rq' (with_pending_backend rs' [])
    (mkTransport (request_capacity_ (l_tr s)) (response_capacity_ (l_tr s)) [] (responses_ (l_tr s))) be' rings' peer'
    (l_handed s ++ [copy_to target (next_datagram pb p)])).
  assert (turn s = s1) as Hturn.
  { unfold turn, try_send. rewrite Hp, E1, E3, E4. cbn [with_pending_backend pending_backend_ length].
    rewrite Hbe. done. }
  cbn [turns length]. rewrite Hturn.
  destruct (IH s1 Hs' Ht') as (H1' & H2' & H3'); [split; [done|apply Hi]|simpl in *; lia|].
  split; [|done]. rewrite H1'. cbn [l_handed s1 fmap list_fmap]. by rewrite <- app_assoc.
Qed.

(** The receive request an immediate needs is there. *)
Definition receive_ready (op : DatagramOpcode) (peer : Rings) : Prop :=
  op = rdma_write_with_immediate → ∃ slot, (peek_slot peer (receive_queue vr)).2 = Ok slot.

(** The lookup of the receive request by [handle_request], and its release. *)
Lemma receive_found op peer :
  receive_ready op peer →
  ∃ peer1 recv,
    (if decide (op = rdma_write_with_immediate)
     then let '(rings, s) := peek_slot peer (receive_queue vr) in
          (rings, (λ s, Some (Descriptors.receive_wr_id (Descriptors.load_receive_header s))) <$> s)
     else (peer, Ok None)) = (peer1, Ok recv) ∧
    (is_Some recv → (release_slots peer1 (receive_queue vr) 1).2 = 0).
Proof.
  intros Hr. case_decide as Ho; [|by eexists _, None; split; [done|intros [? [=]]]].
  destruct (Hr Ho) as [slot Hs]. destruct (peek_slot peer _) as [peer1 o] eqn:E. cbn in Hs. subst o.
  eexists _, _. split; [reflexivity|]. intros _. apply release_held. by eapply peek_slot_holds.
Qed.

(** A responder that does not know the write yet. *)
Record unaware (x : PendingSend) (w : LoopWorker) : Prop := {
  un_request : pending_request_ w = None;
  un_backend : pending_backend_ w = [];
  un_parent : responder_inflight_ w !! ps_parent x = None;
}.

(** The first datagram of a write creates a parent that expects the write's whole stream. *)
Lemma first_datagram pb wr d ds target recv :
  write_ok pb wr → stream pb wr = d :: ds →
  valid_first d = true ∧
  if ps_total_length (parent wr) =? 0
  then ds = [] ∧ payload_count d = 0 ∧ parent_total_length d = 0 ∧ valid_payload (new_parent d target recv) d = true
  else receiving pb (new_parent d target recv) (d :: ds).
Proof.
  intros Hw Hs. destruct (ps_total_length (parent wr) =? 0) eqn:E0; bool_hyps.
  - destruct (stream_empty pb wr Hw E0) as (d' & Es & Hc & Hi & Ho & Hl & Hcnt & _).
    rewrite Hs in Es. injection Es as <- ->.
    destruct Hc as (_ & _ & _ & _ & _ & _ & _ & Hdt & Hdc). rewrite E0 in Hdt. rewrite Hcnt in Hdc.
    split; [unfold valid_first; by rewrite Hi, Ho, Hl, Hdt, Hdc|]. split_and!; [done..|].
    unfold valid_payload. cbn. by rewrite Hdc, Hi, Ho, Hl, !Z.eqb_refl, bool_decide_true by done.
  - destruct (stream_payloads pb wr Hw E0) as (Hn & Hcar & Hlen & _ & Hbl & _). rewrite Hs in *.
    pose proof (wo_send _ _ Hw) as Hok. destruct (write_count pb wr Hw) as [_ Hmax].
    pose proof (payloads_le_length pb _ ltac:(apply (so_bytes _ _ Hok)) (so_segments _ _ Hok)) as Hle.
    rewrite <- (proj1 (so_count _ _ Hok)), <- (proj1 (so_total _ _ Hok)) in Hle.
    apply (receiving_start pb (parent wr)); [done|done|done|done|lia|done].
Qed.

Lemma take_first pb w wr t peer target d ds :
  write_ok pb wr → stream pb wr = d :: ds → unaware (parent wr) w →
  qp_num vr = ps_target_qp (parent wr) → receive_ready (ps_opcode (parent wr)) peer →
  resolve_rkey (session_id vr) (pd_identity vr) (ps_rkey (parent wr)) (ps_remote_address (parent wr))
    (ps_total_length (parent wr)) = Ok target →
  ∃ w' peer', try_request w (carrying t d) peer vr =
      (w', mkTransport (request_capacity_ t) (response_capacity_ t) [] (responses_ t), peer', true) ∧
    pending_backend_ w' = (if ps_total_length (parent wr) =? 0 then [] else [copy_to target d]) ∧
    taking pb (parent wr) target (responder_order_ w) (with_pending_backend w' []) ds.
Proof.
  intros Hw Hs [Hreq Hbe Hnone] Hv Hready Hres. destruct (stream_carries pb wr Hw) as [Hcar _]. rewrite Hs in Hcar.
  pose proof (proj1 (Forall_cons _ _ _) Hcar) as [(Hid & _ & Htq & Hop & Hra & Hrk & _ & Hdt & Hdc) _].
  destruct (write_count pb wr Hw) as [Hcu Hmax].
  destruct (receive_found (ps_opcode (parent wr)) peer Hready) as (peer1 & recv & Hrecv & Hrel).
  destruct (first_datagram pb wr d ds target recv Hw Hs) as [Hvf Hfirst].
  unfold try_request, try_pop_request. rewrite Hreq. cbn [carrying requests_ try_pop].
  set (t0 := mkTransport _ _ _ _). unfold handle_request. cbn [with_pending_request responder_inflight_].
  rewrite Htq, Hv, Z.eqb_refl, Hdt, (proj2 (Z.ltb_ge U32_MAX _)), Hid, Hnone, Hvf, Hrk, Hra, Hres, Hop, Hrecv by lia.
  cbn [negb orb]. set (q := new_parent d target recv) in *. set (w1 := with_order _ _).
  destruct (ps_total_length (parent wr) =? 0) eqn:E0; bool_hyps.
  - destruct Hfirst as (-> & Hc0 & Ht0 & Hvp). unfold accept_payload. rewrite Hvp. cbn [negb].
    change (rp_payload_count q) with (payload_count d). rewrite Hc0. cbn [Z.eqb].
    assert (∀ q', receiving pb q' [] ↔
      rp_next_index q' = rp_payload_count q' ∧ rp_next_offset q' = rp_total_length q' ∧
      0 <= rp_next_index q' ∧ 0 <= rp_next_offset q' ∧ rp_payload_count q' <= U32_MAX ∧ rp_total_length q' <= U32_MAX)
      as Hend.
    { intros q'. split; [intros [_ _ Hc Ht Hr]; simpl in Hc, Ht; lia|].
      intros ?. split; [done|done|simpl; lia|simpl; lia|lia]. }
    destruct recv as [r|]; cbn [q new_parent rp_has_receive rp_receive_consumed andb negb].
    + specialize (Hrel ltac:(done)). destruct (release_slots peer1 _ 1) as [peer2 st]. cbn in Hrel. subst st.
      cbn [negb Z.eqb]. eexists _, peer2. split; [reflexivity|]. split; [exact Hbe|].
      split; cbn; [done|done|by rewrite ?Hid|]. exists (with_consumed q). rewrite ?Hid, lookup_insert_eq.
      split; [done|]. split; [apply Hend; cbn; rewrite ?Hc0, ?Ht0; split_and!; done|]. cbn. split_and!; congruence.
    + cbn [negb Z.eqb]. eexists _, peer1. split; [reflexivity|]. split; [exact Hbe|].
      split; cbn; [done|done|by rewrite ?Hid|]. exists q. rewrite ?Hid, lookup_insert_eq.
      split; [done|]. split; [apply Hend; cbn; rewrite ?Hc0, ?Ht0; split_and!; done|]. cbn. split_and!; congruence.
  - destruct (responder_accepts_payload pb w1 t0 peer1 vr d ds q true Hfirst) as (w2 & peer2 & E & E1 & E2 & E3 & E4 & E5 & _).
    { cbn. rewrite Hbe. simpl. unfold kBackendBatchCapacity. lia. }
    { destruct recv; cbn; [intros _; by apply Hrel|done]. }
    exists w2, peer2. split; [exact E|]. cbn in E2. rewrite Hbe in E2. split; [exact E2|].
    split; cbn; [done|done|rewrite E4; cbn; by rewrite ?Hid|].
    exists (next_parent q d). rewrite E1, ?Hid, lookup_insert_eq. split; [done|]. split; [done|].
    unfold next_parent. destruct recv; cbn; split_and!; congruence.
Qed.

(** ** The whole write *)

Lemma stream_length pb wr d ds :
  write_ok pb wr → stream pb wr = d :: ds →
  if ps_total_length (parent wr) =? 0 then ps_payload_count (parent wr) = 0 ∧ ds = []
  else ps_payload_count (parent wr) = Z.of_nat (length (d :: ds)).
Proof.
  intros Hw Hs. destruct (_ =? 0) eqn:E0; bool_hyps.
  - destruct (stream_empty pb wr Hw E0) as (d' & Es & _ & _ & _ & _ & Hc & _). rewrite Hs in Es. by injection Es as _ ->.
  - destruct (stream_payloads pb wr Hw E0) as (_ & _ & Hc & _). by rewrite Hs in Hc.
Qed.

(** (C8) A write gets through: for a work request the requester takes off its send queue,
    whose remote range is granted and, if it has an immediate, finds a receive request, let
    the workers take as many turns as it has datagrams (one, if it has no bytes), over an
    empty transport and with a backend that has room.  Then the responder has taken every
    datagram: the copies it handed to the backend take the bytes the scatter list names, in
    order, to the consecutive bytes from the granted address on, each once; none is pending;
    and the parent has everything it waits for, without an error, and its place in the order
    of responses. *)
Theorem write_delivered `{!KeyResolverLaws} w rings rings' w' p rs t be peer target :
  0 < payload_bytes_ w <= U32_MAX → pending_send_ w = None → load_send w rings vq = (rings', inl (w', p)) →
  unaware p rs → idle t → (Z.to_nat (ps_payload_count p) <= room be)%nat →
  qp_num vr = ps_target_qp p → receive_ready (ps_opcode p) peer →
  resolve_rkey (session_id vr) (pd_identity vr) (ps_rkey p) (ps_remote_address p) (ps_total_length p) = Ok target →
  let s := turns (Z.to_nat (Z.max 1 (ps_payload_count p))) (mkWorkerPair w rs t be rings peer []) in
  (∃ slot, (peek_slot rings (send_queue vq)).2 = Ok slot ∧
    copied_bytes (l_handed s) =
    zip (gather vq (Descriptors.load_sges slot 40
           (Z.to_nat (Descriptors.send_sge_count (Descriptors.load_send_header slot)))))
        (seqZ target (ps_total_length p))) ∧
  Z.of_nat (length (l_handed s)) = ps_payload_count p ∧
  requests_ (l_tr s) = [] ∧ pending_backend_ (l_rs s) = [] ∧
  responder_order_ (l_rs s) = responder_order_ rs ++ [ps_parent p] ∧
  ∃ q, responder_inflight_ (l_rs s) !! ps_parent p = Some q ∧ rp_error q = success ∧
    rp_next_index q = ps_payload_count p ∧ rp_next_offset q = ps_total_length p.
Proof.
  intros Hpb Hnone Hl Hun Hi Hroom Hv Hready Hres s.
  destruct (load_send_ok w rings vq rings' w' p Hpb Hl) as (slot & Hslot & _ & Hgather & _).
  destruct (load_send_taken w rings vq rings' w' p Hpb Hnone Hl) as (b & sg & Htk & Hw & _ & _ & Hw').
  set (pb := payload_bytes_ w) in *. set (wr := mkWrite p b) in *.
  assert (b = segment_bytes (ps_segments p)) as Hb by (symmetry; apply (wo_bytes _ _ Hw)).
  destruct (write_count pb wr Hw) as [Hcu Hmax]. cbn [parent wr] in Hcu, Hmax.
  pose proof (unsent_unfinished pb b p Hw) as Hu.
  destruct (push_turn pb w' t rings' p ltac:(by subst w') Hu Hi) as (rq1 & rings1 & x & ds & E1 & Hstream & Hsend).
  set (d := next_datagram pb p) in *. change (stream pb wr = d :: ds) in Hstream.
  destruct (take_first pb rs wr t peer target d ds Hw Hstream Hun Hv Hready Hres) as (rs1 & peer1 & E2 & Hbe & Htake).
  pose proof (stream_length pb wr d ds Hw Hstream) as Hcnt. cbn [parent wr] in Hcnt.
  set (l := if ps_total_length p =? 0 then [] else [copy_to target d]) in *.
  assert (length l <= 1 ∧ length l + length ds <= room be)%nat as [Hl1 Hl2].
  { unfold l. destruct (_ =? 0); simpl in *; [destruct Hcnt as [_ ->]; simpl; lia|lia]. }
  destruct (flush_turn rs1 be l Hbe ltac:(lia) ltac:(lia)) as (be1 & y & E3 & Hr1).
  set (s1 := mkWorkerPair rq1 (with_pending_backend rs1 [])
    (mkTransport (request_capacity_ t) (response_capacity_ t) [] (responses_ t)) be1 rings1 peer1 l).
  assert (turn (mkWorkerPair w rs t be rings peer []) = s1) as Hturn.
  { unfold turn, try_send. cbn [l_rq l_rs l_tr l_be l_rings l_peer l_handed]. rewrite Hnone, Hl, E1, E2, E3.
    cbn [with_pending_backend pending_backend_ length app]. rewrite Hbe, Nat.sub_0_r, firstn_all. done. }
  assert (Z.to_nat (Z.max 1 (ps_payload_count p)) = S (length ds)) as HN.
  { destruct (_ =? 0); [destruct Hcnt as [-> ->]; done|simpl in Hcnt; lia]. }
  destruct (stream_carries pb wr Hw) as [Hcar _].
  rewrite Hstream in Hcar. apply Forall_cons in Hcar as [_ Hcar].
  unfold s. rewrite HN. cbn [turns]. rewrite Hturn.
  destruct (turns_known pb p target (responder_order_ rs) ds Hcar ltac:(lia) Hv s1 Hsend Htake) as (Hh & Hend & Hi1);
    [split; [done|apply Hi]|cbn; lia|].
  set (s2 := turns (length ds) s1) in *. destruct Hend as [_ Hp2 Hord (q & Hq & Hrc & _ & Herr & _ & Hqc & Hqt)].
  cbn [l_handed s1] in Hh. destruct Hrc as [_ _ Hci Hto _]. cbn in Hci, Hto.
  split; [exists slot; split; [done|]|].
  - rewrite <- Hgather, <- Hb, Hh. apply rkey_range in Hres; [|lia]. unfold l.
    destruct (ps_total_length p =? 0) eqn:E0; bool_hyps.
    + destruct Hcnt as [_ ->]. rewrite E0. by destruct b.
    + pose proof (stream_copied pb wr target Hw) as Hc. rewrite Hstream in Hc. apply Hc; cbn; lia.
  - split; [|split; [apply Hi1|]; split; [done|]; split; [done|]].
    + rewrite Hh, length_app, length_fmap. unfold l.
      destruct (_ =? 0); [destruct Hcnt as [-> ->]; done|simpl in *; lia].
    + exists q. split_and!; [done|done|lia|lia].
Qed.

End Turns.

(** * A run *)

#[local] Existing Instance identity_resolver.
#[local] Existing Instance identity_resolver_laws.

(** A backend that keeps the copies it is given, at most 16. *)
#[local] Instance keeping_backend : CopyBackend (list BackendRequest) := {|
  try_submit b r := if (length b <? 16)%nat then (b ++ [r], true) else (b, false);
  try_submit_batch b l := let n := Nat.min (length l) (16 - length b) in (b ++ take n l, n);
  flush_submissions b := (b, true);
  try_pop_completion b := (b, None);
  try_pop_completion_batch b _ := (b, []);
|}.
#[local] Program Instance keeping_room : RoomyBackend (list BackendRequest) := {| room b := (16 - length b)%nat |}.
Next Obligation. intros b l Hl. cbn -[Nat.min Nat.sub] in *. rewrite Nat.min_l by lia. split; [done|]. rewrite firstn_all, length_app. lia. Qed.
Next Obligation. done. Qed.

Definition demo_pair : WorkerPair (list BackendRequest) :=
  mkWorkerPair demo_worker (new_worker 11 responder 4 false) (new_transport 2 2) [] demo_rings ∅ [].

(** Two segments of 5 and 2 bytes go to 4096 in three datagrams of at most 4 bytes. *)
Lemma write_delivered_witness :
  let s := turns demo_view demo_peer 3 demo_pair in
  length (l_be s) = 3%nat ∧
  copied_bytes (l_handed s) = zip [100; 101; 102; 103; 104; 200; 201] (seqZ 4096 7) ∧
  ∃ q, responder_inflight_ (l_rs s) !! 42949672961 = Some q ∧ rp_error q = success ∧ rp_next_index q = 3.
Proof.
  split; [by vm_compute|].
  destruct demo_loaded as [r [[w' p]|b]] eqn:E; vm_compute in E; [|discriminate E].
  destruct (write_delivered demo_view demo_peer demo_worker demo_rings r w' p
    (new_worker 11 responder 4 false) (new_transport 2 2) ([] : list BackendRequest) ∅ 4096)
    as ((slot & Hs & Hc) & _ & _ & _ & _ & q & Hq & He & Hn & _);
    [by vm_compute|done|exact E|injection E as _ _ <-..|].
  - by split.
  - by split.
  - cbn. lia.
  - done.
  - by intros [=].
  - by vm_compute.
  - injection E as _ _ <-. vm_compute in Hs. injection Hs as <-. split; [exact Hc|]. exists q. split; [exact Hq|]. split; [exact He|exact Hn].
Defined.

End Delivery.
