(* ===== verification/CopyHost.v ===== *)
(** The host side of the GPU copy backend (src/gpu/persistent_copy_backend.hpp,
    persistent_copy_backend.cu, class [PersistentCudaCopyHost]): a table of task
    contexts, the batch of tasks not yet published, and the queue of tasks that are to
    complete with a local error.

    The device queue, the visibility gate and, later, the runtime are classes, as the
    virtual interfaces of the code.  [std::size_t] counters are [nat], 64-bit counters
    are [Z] with their wrap-around. *)

From S2P Require Import Prelude LocalTransport.
Import Transport.

(** * Interfaces *)

Module Copy.

(** src/gpu/persistent_copy.hpp. *)
Definition kPersistentCopyMaxPayloadBytes : Z := 8192.
Definition kPersistentCopyMaxStageBufferBytes : Z := 4294967296.

Inductive CopyTaskResult : Set := task_success | invalid_task | copy_failed.
#[export] Instance CopyTaskResult_eq_dec : EqDecision CopyTaskResult.
Proof. solve_decision. Defined.

Record CopyTask := mkTask {
  task_id : Z; target_address : Z; task_length : Z; relative_offset : Z;
}.
Definition no_task : CopyTask := mkTask 0 0 0 0.
Record CopyCompletion := mkCopyCompletion { completed_id : Z; completed_result : CopyTaskResult }.

End Copy.
Import Copy.

(** [PersistentCopyQueue]: the status and what is written to the output parameter, the
    number of tasks taken or a completion. *)
Class PersistentCopyQueue (Q : Type) := {
  queue_submit : Q → list CopyTask → Q * Z * nat;
  queue_poll : Q → Q * Z * CopyCompletion;
}.

(** [GpuDirectVisibilityGate]. *)
Class GpuDirectVisibilityGate (V : Type) := {
  gate_initialize : V → Z → V * Z;
  gate_flush : V → V * Z;
  gate_reset : V → V * Z;
}.

Module CopyHost.

(** * Data *)

Definition kHostBatch : nat := 64.

Record Config := mkConfig {
  device_ordinal : Z; stage_buffer_base : Z; stage_buffer_bytes : Z;
  queue_capacity : nat; host_batch : nat; max_batch_delay : Z;
}.
Definition no_config : Config := mkConfig 0 0 0 1024 kHostBatch 0.

Inductive SlotState : Set := free | pending | submitted | local_error.
#[export] Instance SlotState_eq_dec : EqDecision SlotState.
Proof. solve_decision. Defined.

Inductive HostPublishFailure : Set := no_failure | visibility | queue_failure.
#[export] Instance HostPublishFailure_eq_dec : EqDecision HostPublishFailure.
Proof. solve_decision. Defined.

Record TaskContextSlot := mkContext {
  slot_task : Z; slot_parent : Z; slot_index : Z; slot_state : SlotState; slot_result : DatagramResult;
}.
Definition free_slot : TaskContextSlot := mkContext 0 0 0 free success.

(** The batch of tasks not yet published: the array, how many of its entries are in
    use, when the first was added, and whether publishing it is blocked or its flush
    was done. *)
Record Batch := mkBatch {
  tasks : list CopyTask; count : nat; first_nanoseconds : Z; blocked : bool; flushed : bool;
}.
Definition no_batch : Batch := mkBatch (replicate kHostBatch no_task) 0 0 false false.

(** The ring of task identities that complete locally. *)
Record LocalRing := mkLocal { ids : list Z; head : Z; tail : Z }.

Record Host := mkHost {
  config_ : Config;
  contexts_ : option (list TaskContextSlot);   (* null until initialized *)
  batch_ : Batch;
  local_ : LocalRing;
  mask_ : Z;
  outstanding_ : nat;
  next_task_ : Z;
  failure_ : HostPublishFailure;
}.
Definition new_host : Host :=
  mkHost no_config None no_batch (mkLocal [] 0 0) 0 0 1 no_failure.

Definition initialized (h : Host) : bool := bool_decide (is_Some (contexts_ h)).
Definition slots_of (h : Host) : list TaskContextSlot := default [] (contexts_ h).

(** ** Assignments *)

Definition with_slots (h : Host) (l : list TaskContextSlot) : Host :=
  mkHost (config_ h) (Some l) (batch_ h) (local_ h) (mask_ h) (outstanding_ h) (next_task_ h) (failure_ h).
Definition with_batch (h : Host) (b : Batch) : Host :=
  mkHost (config_ h) (contexts_ h) b (local_ h) (mask_ h) (outstanding_ h) (next_task_ h) (failure_ h).
Definition with_local (h : Host) (l : LocalRing) : Host :=
  mkHost (config_ h) (contexts_ h) (batch_ h) l (mask_ h) (outstanding_ h) (next_task_ h) (failure_ h).
Definition with_outstanding (h : Host) (n : nat) : Host :=
  mkHost (config_ h) (contexts_ h) (batch_ h) (local_ h) (mask_ h) n (next_task_ h) (failure_ h).
Definition with_next (h : Host) (n : Z) : Host :=
  mkHost (config_ h) (contexts_ h) (batch_ h) (local_ h) (mask_ h) (outstanding_ h) n (failure_ h).
Definition with_failure (h : Host) (f : HostPublishFailure) : Host :=
  mkHost (config_ h) (contexts_ h) (batch_ h) (local_ h) (mask_ h) (outstanding_ h) (next_task_ h) f.

(** [contexts_[id & capacity_mask_]]. *)
Definition slot_of (mask id : Z) : nat := Z.to_nat (Z.land id mask).
Definition context_at (mask : Z) (slots : list TaskContextSlot) (id : Z) : TaskContextSlot :=
  default free_slot (slots !! slot_of mask id).
Definition set_context (mask : Z) (slots : list TaskContextSlot) (id : Z) (c : TaskContextSlot)
  : list TaskContextSlot := <[slot_of mask id := c]> slots.

Definition with_state (c : TaskContextSlot) (st : SlotState) : TaskContextSlot :=
  mkContext (slot_task c) (slot_parent c) (slot_index c) st (slot_result c).
Definition failed_context (c : TaskContextSlot) (r : DatagramResult) : TaskContextSlot :=
  mkContext (slot_task c) (slot_parent c) (slot_index c) local_error r.

(** [local_completion_task_ids_[tail & mask] = id; ++tail]. *)
Definition push_local (mask : Z) (l : LocalRing) (id : Z) : LocalRing :=
  mkLocal (<[slot_of mask (tail l) := id]> (ids l)) (head l) (u64 (tail l + 1)).

(** * Configuration and tasks *)

Definition is_power_of_two (n : nat) : bool :=
  negb (n =? 0)%nat && (Z.land (Z.of_nat n) (Z.of_nat n - 1) =? 0).

Definition validate_config (c : Config) : Z :=
  if (stage_buffer_base c =? 0) || (stage_buffer_bytes c =? 0)
     || (kPersistentCopyMaxStageBufferBytes <? stage_buffer_bytes c)
     || (U64_MAX - stage_buffer_bytes c <? stage_buffer_base c)
  then EINVAL
  else if negb (is_power_of_two (queue_capacity c)) || (queue_capacity c <? kHostBatch)%nat
          || negb (host_batch c =? kHostBatch)%nat || (max_batch_delay c =? 0)
  then EINVAL else 0.

Definition make_copy_task (c : Config) (r : BackendRequest) (id : Z) : result CopyTask :=
  if (br_source r <? stage_buffer_base c) || (br_target r =? 0) || (br_length r =? 0)
     || (kPersistentCopyMaxPayloadBytes <? br_length r)
  then Err EINVAL
  else
    let offset := br_source r - stage_buffer_base c in
    if (stage_buffer_bytes c <=? offset) || (stage_buffer_bytes c - offset <? br_length r)
       || (U64_MAX - br_length r <? br_target r) || (U32_MAX <? offset)
    then Err EINVAL
    else Ok (mkTask id (br_target r) (br_length r) (u32 offset)).

(** [initialize], with the pointers it checks not null and the memory it asks for
    granted. *)
Definition initialize (h : Host) (c : Config) : Host * Z :=
  if initialized h || negb (validate_config c =? 0)
     || (U64_MAX / 32 <? Z.of_nat (queue_capacity c))
  then (h, EINVAL)
  else (mkHost c (Some (replicate (queue_capacity c) free_slot)) (batch_ h)
          (mkLocal (replicate (queue_capacity c) 0) (head (local_ h)) (tail (local_ h)))
          (Z.of_nat (queue_capacity c) - 1) (outstanding_ h) (next_task_ h) (failure_ h), 0).

(** * Publishing *)

(** The loop of [publish_pending]: whether all tasks were found pending. *)
Fixpoint mark_submitted (mask : Z) (slots : list TaskContextSlot) (published : list CopyTask)
  : list TaskContextSlot * bool :=
  match published with
  | [] => (slots, true)
  | t :: published =>
      let c := context_at mask slots (task_id t) in
      if negb (bool_decide (slot_state c = pending)) || negb (slot_task c =? task_id t)
      then (slots, false)
      else mark_submitted mask (set_context mask slots (task_id t) (with_state c submitted)) published
  end.

Section Publish.
Context {Q V : Type} `{PersistentCopyQueue Q} `{GpuDirectVisibilityGate V}.

Record HostWorld := mkHostWorld { host : Host; queue : Q; gate : V }.
Definition with_host (s : HostWorld) (h : Host) : HostWorld := mkHostWorld h (queue s) (gate s).

(** The part of [publish_pending] after the flush. *)
Definition submit_pending (s : HostWorld) : HostWorld * Z :=
  let h := host s in
  let b := batch_ h in
  let '(q, status, n) := queue_submit (queue s) (take (count b) (tasks b)) in
  let s := mkHostWorld h q (gate s) in
  let fail h e := (with_host s (with_failure h queue_failure), e) in
  if status =? EAGAIN
  then (with_host s (with_batch h (mkBatch (tasks b) (count b) (first_nanoseconds b) true (flushed b))), 0)
  else if negb (status =? 0) then fail h status
  else if (n =? 0)%nat || (count b <? n)%nat then fail h EPROTO
  else
    let '(slots, ok) := mark_submitted (mask_ h) (slots_of h) (take n (tasks b)) in
    let h := with_slots h slots in
    if negb ok then fail h EPROTO
    else
      let rest := (count b - n)%nat in
      (* [memmove] of the rest to the front of the array *)
      let moved := take rest (drop n (tasks b)) ++ drop rest (tasks b) in
      (with_host s (with_batch h
         (if (rest =? 0)%nat then mkBatch (tasks b) 0 0 false false
          else mkBatch moved rest (first_nanoseconds b) true (flushed b))), 0).

Definition publish_pending (s : HostWorld) : HostWorld * Z :=
  let h := with_failure (host s) no_failure in
  let b := batch_ h in
  if flushed b then submit_pending (with_host s h)
  else
    let '(v, status) := gate_flush (gate s) in
    let s := mkHostWorld h (queue s) v in
    if negb (status =? 0)
    then (with_host s (with_failure
            (with_batch h (mkBatch (tasks b) (count b) (first_nanoseconds b) true (flushed b))) visibility),
          status)
    else submit_pending (with_host s
           (with_batch h (mkBatch (tasks b) (count b) (first_nanoseconds b) (blocked b) true))).

Definition progress_host_batch (s : HostWorld) (now : Z) : HostWorld * Z :=
  if negb (initialized (host s)) then (s, EINVAL)
  else
    let b := batch_ (host s) in
    if (count b =? 0)%nat then (s, 0)
    else if negb (blocked b) && (first_nanoseconds b <=? now)
            && (now - first_nanoseconds b <? max_batch_delay (config_ (host s)))
    then (s, 0)
    else publish_pending s.

Definition publish_pending_now (s : HostWorld) : HostWorld * Z :=
  if negb (initialized (host s)) then (s, EINVAL)
  else if (count (batch_ (host s)) =? 0)%nat then (s, 0) else publish_pending s.

(** * Submitting *)

(** The new state, the returned status and [*accepted]. *)
Definition host_submit (s : HostWorld) (r : BackendRequest) (now : Z) : HostWorld * Z * bool :=
  let h := host s in
  if negb (initialized h) then (s, EINVAL, false)
  else
    let b := batch_ h in
    if (queue_capacity (config_ h) <=? outstanding_ h)%nat || blocked b && negb (count b =? 0)%nat
    then (s, 0, false)
    else
      let id := next_task_ h in
      if negb (bool_decide (slot_state (context_at (mask_ h) (slots_of h) id) = free))
      then (s, EPROTO, false)
      else match make_copy_task (config_ h) r id with
      | Err e => (s, e, false)
      | Ok task =>
          let slots := set_context (mask_ h) (slots_of h) id
                         (mkContext id (br_parent r) (br_index r) pending success) in
          let b := if (count b =? 0)%nat
                   then mkBatch (tasks b) (count b) now (blocked b) false else b in
          let b := mkBatch (<[count b := task]> (tasks b)) (S (count b)) (first_nanoseconds b)
                     (blocked b) (flushed b) in
          let h := with_next (with_outstanding (with_batch (with_slots h slots) b) (S (outstanding_ h)))
                     (u64 (id + 1)) in
          let s := with_host s h in
          if (count b =? host_batch (config_ h))%nat
          then let '(s, status) := publish_pending s in (s, status, true)
          else (s, 0, true)
      end.

(** [try_complete_locally]. *)
Definition complete_locally (h : Host) (r : BackendRequest) (res : DatagramResult) : Host * Z * bool :=
  if negb (initialized h) then (h, EINVAL, false)
  else if (queue_capacity (config_ h) <=? outstanding_ h)%nat then (h, 0, false)
  else
    let id := next_task_ h in
    if negb (bool_decide (slot_state (context_at (mask_ h) (slots_of h) id) = free))
    then (with_failure h queue_failure, EPROTO, false)
    else
      let slots := set_context (mask_ h) (slots_of h) id
                     (mkContext id (br_parent r) (br_index r) local_error res) in
      (with_next (with_outstanding (with_local (with_slots h slots)
         (push_local (mask_ h) (local_ h) id)) (S (outstanding_ h))) (u64 (id + 1)), 0, true).

(** * Completions *)

Definition free_context (h : Host) (id : Z) : Host :=
  with_outstanding (with_slots h (set_context (mask_ h) (slots_of h) id free_slot)) (pred (outstanding_ h)).

Definition host_pop (s : HostWorld) (now : Z) : HostWorld * Z * option BackendCompletion :=
  if negb (initialized (host s)) then (s, EINVAL, None)
  else
    let '(s, status) := progress_host_batch s now in
    if negb (status =? 0) then (s, status, None)
    else
      let h := host s in
      let l := local_ h in
      let fail s e := (with_host s (with_failure (host s) queue_failure), e, None) in
      if head l <? tail l
      then
        let id := default 0 (ids l !! slot_of (mask_ h) (head l)) in
        let c := context_at (mask_ h) (slots_of h) id in
        if negb (bool_decide (slot_state c = local_error)) || negb (slot_task c =? id)
           || (outstanding_ h =? 0)%nat
        then fail s EPROTO
        else (with_host s (with_local (free_context h id) (mkLocal (ids l) (u64 (head l + 1)) (tail l))), 0,
              Some (mkBackendCompletion (slot_parent c) (slot_index c) (slot_result c)))
      else
        let '(q, status, cc) := queue_poll (queue s) in
        let s := mkHostWorld h q (gate s) in
        if status =? EAGAIN then (s, 0, None)
        else if negb (status =? 0) then fail s status
        else
          let c := context_at (mask_ h) (slots_of h) (completed_id cc) in
          if negb (bool_decide (slot_state c = submitted)) || negb (slot_task c =? completed_id cc)
             || (outstanding_ h =? 0)%nat
          then fail s EPROTO
          else (with_host s (free_context h (completed_id cc)), 0,
                Some (mkBackendCompletion (slot_parent c) (slot_index c)
                  (if decide (completed_result cc = task_success) then success else backend_error))).

End Publish.
Arguments HostWorld : clear implicits.

(** * Failing tasks *)

(** The loop of [fail_pending]. *)
Fixpoint fail_tasks (mask : Z) (slots : list TaskContextSlot) (l : LocalRing) (failed : list CopyTask)
    (res : DatagramResult) : list TaskContextSlot * LocalRing * bool :=
  match failed with
  | [] => (slots, l, true)
  | t :: failed =>
      let c := context_at mask slots (task_id t) in
      if negb (bool_decide (slot_state c = pending)) || negb (slot_task c =? task_id t)
      then (slots, l, false)
      else fail_tasks mask (set_context mask slots (task_id t) (failed_context c res))
             (push_local mask l (task_id t)) failed res
  end.

Definition fail_pending (h : Host) (res : DatagramResult) : Host * Z :=
  if negb (initialized h) then (h, EINVAL)
  else
    let b := batch_ h in
    let '(slots, l, ok) := fail_tasks (mask_ h) (slots_of h) (local_ h) (take (count b) (tasks b)) res in
    let h := with_local (with_slots h slots) l in
    if negb ok then (with_failure h queue_failure, EPROTO)
    else (with_failure (with_batch h (mkBatch (tasks b) 0 0 false false)) no_failure, 0).

(** The loop of [fail_all] over the slots. *)
Fixpoint fail_submitted (mask : Z) (slots : list TaskContextSlot) (l : LocalRing) (res : DatagramResult)
  : list TaskContextSlot * LocalRing :=
  match slots with
  | [] => ([], l)
  | c :: slots =>
      if decide (slot_state c = submitted)
      then let '(slots, l) := fail_submitted mask slots (push_local mask l (slot_task c)) res in
           (failed_context c res :: slots, l)
      else let '(slots, l) := fail_submitted mask slots l res in (c :: slots, l)
  end.

Definition fail_all (h : Host) (res : DatagramResult) : Host * Z :=
  let '(h, status) := fail_pending h res in
  if negb (status =? 0) then (h, status)
  else
    let '(slots, l) := fail_submitted (mask_ h) (slots_of h) (local_ h) res in
    (with_failure (with_local (with_slots h slots) l) no_failure, 0).

(** * Resetting *)

Definition host_reset (h : Host) : Host * Z :=
  if negb (initialized h) then (h, 0)
  else if negb (outstanding_ h =? 0)%nat || negb (count (batch_ h) =? 0)%nat
          || negb (head (local_ h) =? tail (local_ h))
  then (h, EBUSY) else (new_host, 0).

Definition outstanding_tasks (h : Host) : nat := outstanding_ h.
Definition pending_tasks (h : Host) : nat := count (batch_ h).
Definition local_completions (h : Host) : Z := u64 (tail (local_ h) - head (local_ h)).

End CopyHost.
