(* ===== verification/CopyCore.v ===== *)
(** The copy of one task by a warp (src/gpu/persistent_copy.cu, [copy_cg_warp] and what
    it calls): 32 lanes share the bytes of a task, in accesses as wide as the addresses
    allow.

    A lane is the list of the accesses it makes, each a load followed by a store; the
    lanes of a warp are interleaved step by step in any order.  Whatever the order, the
    memory after the last step is the memory after [memcpy].  A 32-bit count is [Z] with
    its wrap-around; memory maps an address to a byte. *)

From S2P Require Import Prelude LocalTransport CopyHost.
Import Transport Copy.

Module CopyCore.

(** * Accesses *)

(** A load from [source] and a store to [target] of [width] bytes. *)
Record Access := mkAccess { source : Z; target : Z; width : Z }.

(** [copy_cg_narrow], which falls back to one byte. *)
Definition copy_cg_narrow (s t w : Z) : Access :=
  mkAccess s t (if w =? 8 then 8 else if w =? 4 then 4 else if w =? 2 then 2 else 1).
Definition copy_cg_16 (s t : Z) : Access := mkAccess s t 16.

(** The loop over [width = 8, 4, 2, 1]. *)
Definition largest_safe_narrow_width (s t remaining : Z) : Z :=
  let combined := Z.lor s t in
  default 1 (list_find (λ w, w <= remaining ∧ Z.land combined (w - 1) = 0) [8; 4; 2; 1] ≫= λ x, Some x.2).

Fixpoint copy_cg_narrow_serial (fuel : nat) (s t bytes : Z) : list Access :=
  match fuel with
  | O => []
  | S fuel =>
      if bytes =? 0 then []
      else
        let w := largest_safe_narrow_width s t bytes in
        copy_cg_narrow s t w :: copy_cg_narrow_serial fuel (s + w) (t + w) (bytes - w)
  end.

Definition common_bulk_width (s t : Z) : Z :=
  let different_bits := Z.lxor s t in
  if Z.land different_bits 15 =? 0 then 16
  else if Z.land different_bits 7 =? 0 then 8
  else if Z.land different_bits 3 =? 0 then 4
  else if Z.land different_bits 1 =? 0 then 2
  else 1.

(** The units a lane copies: [for (unit = lane; unit < unit_count; unit += 32)]. *)
Fixpoint units (fuel : nat) (unit unit_count : Z) : list Z :=
  match fuel with
  | O => []
  | S fuel => if unit <? unit_count then unit :: units fuel (u32 (unit + 32)) unit_count else []
  end.
Definition lane_units (lane unit_count : Z) : list Z := units (Z.to_nat unit_count) lane unit_count.

Definition copy_cg_narrow_bulk_warp (w s t unit_count lane : Z) : list Access :=
  (λ unit, copy_cg_narrow (s + u32 (unit * w)) (t + u32 (unit * w)) w) <$> lane_units lane unit_count.
Definition copy_cg_16_bulk (s t unit_count lane : Z) : list Access :=
  (λ unit, copy_cg_16 (s + u32 (unit * 16)) (t + u32 (unit * 16))) <$> lane_units lane unit_count.

Definition copy_cg_16_warp_aligned (lane s t length : Z) : list Access :=
  copy_cg_16_bulk s t (length / 16) lane.

(** The bytes before the first unit. *)
Definition prefix_bytes (s w length : Z) : Z :=
  let misalignment := Z.land s (w - 1) in
  let prefix := u32 (Z.land (w - misalignment) (w - 1)) in
  if length <? prefix then length else prefix.

Definition copy_cg_warp_generic (lane s t length : Z) : list Access :=
  let w := common_bulk_width s t in
  let prefix := prefix_bytes s w length in
  let head := if (lane =? 0) && negb (prefix =? 0)
              then copy_cg_narrow_serial (Z.to_nat prefix) s t prefix else [] in
  let s := s + prefix in
  let t := t + prefix in
  let remaining := length - prefix in
  let unit_count := remaining / w in
  let body := if w =? 16 then copy_cg_16_bulk s t unit_count lane
              else copy_cg_narrow_bulk_warp w s t unit_count lane in
  let body_bytes := u32 (unit_count * w) in
  let tail_bytes := remaining - body_bytes in
  let tail := if (lane =? 0) && negb (tail_bytes =? 0)
              then copy_cg_narrow_serial (Z.to_nat tail_bytes) (s + body_bytes) (t + body_bytes) tail_bytes
              else [] in
  head ++ body ++ tail.

Definition copy_cg_warp (lane s t length : Z) : list Access :=
  let combined := Z.lor (Z.lor s t) length in
  if Z.land combined 15 =? 0 then copy_cg_16_warp_aligned lane s t length
  else copy_cg_warp_generic lane s t length.

(** What [copy_cg_warp_counted] reports. *)
Record CopyAccessCounts := mkCounts { copied_bytes : Z; vector_128_bytes : Z; narrow_bytes : Z }.

Definition access_counts (s t length : Z) : CopyAccessCounts :=
  let w := common_bulk_width s t in
  let prefix := prefix_bytes s w length in
  let vector_bytes := if w =? 16 then (length - prefix) / 16 * 16 else 0 in
  mkCounts length vector_bytes (length - vector_bytes).

(** * Interleaving *)

Definition Memory := Z → Z.
Definition load (m : Memory) (a n : Z) : list Z := m <$> seqZ a n.
Definition store (m : Memory) (a : Z) (bytes : list Z) : Memory :=
  λ x, if decide (a <= x < a + Z.of_nat (length bytes)) then bytes !!! Z.to_nat (x - a) else m x.

(** A lane with the accesses it has still to make, and what its current access loaded. *)
Record Lane := mkLane { todo : list Access; loaded : option (list Z) }.

Inductive warp_step : Memory * list Lane → Memory * list Lane → Prop :=
| lane_loads m lanes i a rest :
    lanes !! i = Some (mkLane (a :: rest) None) →
    warp_step (m, lanes) (m, <[i := mkLane (a :: rest) (Some (load m (source a) (width a)))]> lanes)
| lane_stores m lanes i a rest bytes :
    lanes !! i = Some (mkLane (a :: rest) (Some bytes)) →
    warp_step (m, lanes) (store m (target a) bytes, <[i := mkLane rest None]> lanes).

Definition kWarpLanes : Z := 32.
Definition warp (s t length : Z) : list Lane :=
  (λ lane, mkLane (copy_cg_warp lane s t length) None) <$> seqZ 0 kWarpLanes.
Definition finished (lanes : list Lane) : Prop := Forall (λ l, todo l = []) lanes.

Definition memcpy (m : Memory) (t s n : Z) : Memory :=
  λ x, if decide (t <= x < t + n) then m (s + (x - t)) else m x.

(** * Widths *)

Definition is_width (w : Z) : Prop := w = 1 ∨ w = 2 ∨ w = 4 ∨ w = 8 ∨ w = 16.

Lemma width_land w x : is_width w → Z.land x (w - 1) = x mod w.
Proof.
  intros Hw. unfold is_width in Hw. assert (∃ k, 0 <= k ∧ w = 2 ^ k) as (k & Hk & ->); [|by apply land_pow2].
  destruct Hw as [->|[->|[->|[->| ->]]]]; [exists 0|exists 1|exists 2|exists 3|exists 4]; by split.
Qed.

Lemma width_pos w : is_width w → 1 <= w <= 16.
Proof. unfold is_width. lia. Qed.

Lemma largest_safe_narrow_width_spec s t n :
  1 <= n →
  let w := largest_safe_narrow_width s t n in
  is_width w ∧ w <= 8 ∧ w <= n ∧ s mod w = 0 ∧ t mod w = 0.
Proof.
  intros Hn. cbn zeta. unfold largest_safe_narrow_width.
  destruct (list_find _ _) as [[i w]|] eqn:E.
  - apply list_find_Some in E as (Hi & [Hr Hl] & _). cbn.
    assert (w ∈ [8; 4; 2; 1]) as Hw by by eapply list_elem_of_lookup_2.
    assert (is_width w) as Hw' by (unfold is_width; set_unfold in Hw; lia).
    rewrite Z.land_lor_distr_l in Hl. apply Z.lor_eq_0_iff in Hl as [H1 H2].
    rewrite width_land in H1, H2 by done. split_and!; try done. set_unfold. lia.
  - exfalso. apply list_find_None in E. rewrite Forall_forall in E.
    apply (E 1); [set_solver|]. split; [done|]. by rewrite Z.sub_diag, Z.land_0_r.
Qed.

Lemma land_lxor_distr a b c : Z.land (Z.lxor a b) c = Z.lxor (Z.land a c) (Z.land b c).
Proof.
  apply Z.bits_inj'. intros n Hn. rewrite Z.land_spec, !Z.lxor_spec, !Z.land_spec.
  by destruct (Z.testbit a n), (Z.testbit b n), (Z.testbit c n).
Qed.

Lemma common_bulk_width_spec s t :
  is_width (common_bulk_width s t) ∧ s mod common_bulk_width s t = t mod common_bulk_width s t.
Proof.
  assert (∀ w, is_width w → Z.land (Z.lxor s t) (w - 1) = 0 → is_width w ∧ s mod w = t mod w) as Hgen.
  { intros w Hw Hl. split; [done|]. rewrite <- !(width_land w) by done.
    rewrite land_lxor_distr in Hl. by apply Z.lxor_eq. }
  unfold common_bulk_width.
  destruct (Z.land _ 15 =? 0) eqn:E15; bool_hyps; [apply Hgen; [unfold is_width; lia|done]|].
  destruct (Z.land _ 7 =? 0) eqn:E7; bool_hyps; [apply Hgen; [unfold is_width; lia|done]|].
  destruct (Z.land _ 3 =? 0) eqn:E3; bool_hyps; [apply Hgen; [unfold is_width; lia|done]|].
  destruct (Z.land _ 1 =? 0) eqn:E1; bool_hyps; apply Hgen; try (unfold is_width; lia); [done|].
  apply Z.land_0_r.
Qed.

Lemma prefix_bytes_spec s w n :
  is_width w → 0 <= n →
  0 <= prefix_bytes s w n <= n ∧ (prefix_bytes s w n = n ∨ (s + prefix_bytes s w n) mod w = 0).
Proof.
  intros Hw Hn. pose proof (width_pos w Hw) as Hp. unfold prefix_bytes. rewrite !width_land by done.
  pose proof (Z.mod_pos_bound (w - s mod w) w ltac:(lia)).
  rewrite u32_small by ulia. destruct (_ <? _) eqn:E; bool_hyps; split; try lia. right.
  rewrite Zplus_mod_idemp_r. replace (s + (w - s mod w)) with ((s - s mod w) + 1 * w) by lia.
  rewrite Z.mod_add, Zminus_mod_idemp_r, Z.sub_diag by lia. by apply Z.mod_0_l; lia.
Qed.

(** * The accesses of a warp *)

(** An access of a copy of [n] bytes from [s] to [t]: inside both ranges, at the same
    offset, naturally aligned. *)
Record access_ok (s t n : Z) (a : Access) : Prop := {
  ok_offset : source a - s = target a - t;
  ok_range : 0 <= target a - t ∧ target a - t + width a <= n;
  ok_width : is_width (width a);
  ok_source : source a mod width a = 0;
  ok_target : target a mod width a = 0;
}.

(** The offsets an access copies. *)
Definition cover (t : Z) (a : Access) : list Z := seqZ (target a - t) (width a).

Lemma copy_cg_narrow_width s t w : is_width w → w <= 8 → copy_cg_narrow s t w = mkAccess s t w.
Proof.
  unfold is_width, copy_cg_narrow. intros Hw Hle. f_equal.
  destruct (w =? 8) eqn:E8, (w =? 4) eqn:E4, (w =? 2) eqn:E2; bool_hyps; lia.
Qed.

Lemma serial_accesses s0 t0 n fuel s t bytes :
  s - s0 = t - t0 → 0 <= t - t0 → t - t0 + bytes <= n → 0 <= bytes <= Z.of_nat fuel →
  Forall (access_ok s0 t0 n) (copy_cg_narrow_serial fuel s t bytes) ∧
  copy_cg_narrow_serial fuel s t bytes ≫= cover t0 = seqZ (t - t0) bytes.
Proof.
  revert s t bytes. induction fuel as [|fuel IH]; intros s t bytes Ho H0 Hn Hb; cbn [copy_cg_narrow_serial].
  { split; [done|]. by replace bytes with 0 by lia. }
  destruct (bytes =? 0) eqn:E; bool_hyps; [split; [done|]; by subst|].
  pose proof (largest_safe_narrow_width_spec s t bytes ltac:(lia)) as (Hw & H8 & Hle & Hs & Ht).
  set (w := largest_safe_narrow_width s t bytes) in *. pose proof (width_pos w Hw).
  rewrite copy_cg_narrow_width by done.
  destruct (IH (s + w) (t + w) (bytes - w)) as [IH1 IH2]; [lia..|]. split.
  - constructor; [|done]. split; cbn [source target width]; [lia|lia|done|done|done].
  - rewrite bind_cons, IH2. unfold cover. cbn [target width].
    replace (t + w - t0) with (t - t0 + w) by lia. rewrite <- seqZ_app by lia. f_equal. lia.
Qed.

Lemma serial_narrow fuel s t bytes :
  0 <= bytes → Forall (λ a, width a <= 8) (copy_cg_narrow_serial fuel s t bytes).
Proof.
  revert s t bytes. induction fuel as [|fuel IH]; intros s t bytes Hb; cbn [copy_cg_narrow_serial]; [done|].
  destruct (bytes =? 0) eqn:E; bool_hyps; [done|].
  pose proof (largest_safe_narrow_width_spec s t bytes ltac:(lia)) as (Hw & H8 & Hle & _).
  constructor; [by rewrite copy_cg_narrow_width|]. apply IH. lia.
Qed.

(** The units of the lanes are the units, each once. *)
Lemma elem_of_units fuel u0 n u :
  0 <= u0 → n + 32 <= U32_MAX → n <= u0 + Z.of_nat fuel →
  u ∈ units fuel u0 n ↔ u0 <= u < n ∧ u mod 32 = u0 mod 32.
Proof.
  revert u0. induction fuel as [|fuel IH]; intros u0 H0 Hn Hf; cbn [units].
  { rewrite elem_of_nil. lia. }
  destruct (u0 <? n) eqn:E; bool_hyps; [|rewrite elem_of_nil; lia].
  rewrite u32_small by ulia. rewrite elem_of_cons, IH by lia.
  split.
  - intros [->|[Hu Hm]]; [lia|]. split; [lia|]. rewrite Hm. Z.to_euclidean_division_equations. lia.
  - intros [Hu Hm]. destruct (decide (u = u0)); [by left|right].
    Z.to_euclidean_division_equations. lia.
Qed.

Lemma NoDup_units fuel u0 n : 0 <= u0 → n + 32 <= U32_MAX → NoDup (units fuel u0 n).
Proof.
  assert (∀ fuel u0 u, 0 <= u0 → n + 32 <= U32_MAX → u ∈ units fuel u0 n → u0 <= u) as Hle.
  { clear. intros fuel. induction fuel as [|fuel IH]; intros u0 u H0 Hn; cbn [units];
      [by rewrite elem_of_nil|].
    destruct (u0 <? n) eqn:E; bool_hyps; [|by rewrite elem_of_nil].
    rewrite u32_small by ulia. rewrite elem_of_cons. intros [->|Hu]; [lia|].
    apply IH in Hu; lia. }
  revert u0. induction fuel as [|fuel IH]; intros u0 H0 Hn; cbn [units]; [constructor|].
  destruct (u0 <? n) eqn:E; bool_hyps; [|constructor]. rewrite u32_small by ulia.
  constructor; [|apply IH; lia]. intros Hu. apply Hle in Hu; lia.
Qed.

Lemma lane_units_partition n :
  0 <= n → n + 32 <= U32_MAX → (seqZ 0 32 ≫= λ lane, lane_units lane n) ≡ₚ seqZ 0 n.
Proof.
  intros H0 Hn. unfold lane_units.
  assert (∀ lane u, 0 <= lane < 32 → u ∈ units (Z.to_nat n) lane n ↔ 0 <= u < n ∧ u mod 32 = lane) as Hel.
  { intros lane u Hl. rewrite elem_of_units by lia. rewrite (Z.mod_small lane) by lia.
    split; [lia|]. intros [Hu Hm]. split; [|done]. split; [|lia].
    Z.to_euclidean_division_equations. lia. }
  apply NoDup_Permutation.
  - apply NoDup_bind.
    + intros x1 x2 y Hx1 Hx2 Hy1 Hy2. apply elem_of_seqZ in Hx1, Hx2.
      apply Hel in Hy1 as [_ <-]; [|lia]. by apply Hel in Hy2 as [_ <-]; [|lia].
    + intros x Hx%elem_of_seqZ. apply NoDup_units; lia.
    + apply NoDup_seqZ.
  - apply NoDup_seqZ.
  - intros u. rewrite list_elem_of_bind, elem_of_seqZ. split.
    + intros (lane & Hu & Hl%elem_of_seqZ). apply Hel in Hu; lia.
    + intros Hu. exists (u mod 32). pose proof (Z.mod_pos_bound u 32).
      rewrite elem_of_seqZ. split; [apply Hel; lia|lia].
Qed.

(** The bulk of a copy: [n] units of width [w]. *)
Definition bulk (w s t n lane : Z) : list Access :=
  (λ unit, mkAccess (s + unit * w) (t + unit * w) w) <$> lane_units lane n.

Lemma elem_of_lane_units lane n u :
  0 <= lane < 32 → 0 <= n → n + 32 <= U32_MAX → u ∈ lane_units lane n → 0 <= u < n.
Proof. intros Hl H0 Hn Hu. unfold lane_units in Hu. apply elem_of_units in Hu; lia. Qed.

Lemma bulk_accesses s0 t0 len w s t n lane :
  is_width w → s - s0 = t - t0 → 0 <= t - t0 → t - t0 + n * w <= len →
  0 <= n → n + 32 <= U32_MAX → 0 <= lane < 32 → s mod w = 0 → t mod w = 0 →
  Forall (access_ok s0 t0 len) (bulk w s t n lane).
Proof.
  intros Hw Ho H0 Hlen Hn Hn32 Hl Hs Ht. unfold bulk. apply Forall_fmap, Forall_forall. intros u Hu.
  apply elem_of_lane_units in Hu; [|done..]. pose proof (width_pos w Hw).
  split; cbn [source target width]; [lia|nia|done|by rewrite Z.mod_add by lia..].
Qed.

Lemma bulk_cover t0 w s t n :
  1 <= w → 0 <= n → n + 32 <= U32_MAX →
  (seqZ 0 32 ≫= λ lane, bulk w s t n lane ≫= cover t0) ≡ₚ seqZ (t - t0) (n * w).
Proof.
  intros Hw Hn Hn32.
  assert ((seqZ 0 32 ≫= λ lane, bulk w s t n lane ≫= cover t0) =
          ((seqZ 0 32 ≫= λ lane, lane_units lane n) ≫= λ u, seqZ (t - t0 + u * w) w)) as ->.
  { induction (seqZ 0 32) as [|lane lanes IH]; [done|]. rewrite !bind_cons, bind_app, IH. f_equal.
    clear IH. unfold bulk, cover. induction (lane_units lane n) as [|u l IH]; [done|].
    rewrite fmap_cons, !bind_cons, IH. f_equal. cbn. f_equal. lia. }
  rewrite lane_units_partition by done. rewrite <- (Z2Nat.id n) by done.
  generalize (Z.to_nat n). clear -Hw. intros n. induction n as [|n IH]; [done|].
  rewrite Nat2Z.inj_succ, <- Z.add_1_r, seqZ_app, bind_app, IH by lia. rewrite Z.mul_add_distr_r, seqZ_app by nia.
  f_equiv. change (seqZ (0 + Z.of_nat n) 1) with [0 + Z.of_nat n]. rewrite bind_cons. cbn [mbind list_bind].
  rewrite app_nil_r. by rewrite !Z.mul_1_l, !Z.add_0_l.
Qed.

Lemma narrow_bulk w s t n lane :
  is_width w → w <= 8 → 0 <= n → n * 16 <= kPersistentCopyMaxPayloadBytes * 16 → 0 <= lane < 32 →
  copy_cg_narrow_bulk_warp w s t n lane = bulk w s t n lane.
Proof.
  intros Hw H8 Hn Hm Hl. unfold copy_cg_narrow_bulk_warp, bulk. apply list_fmap_ext. intros i u Hu.
  apply list_elem_of_lookup_2, elem_of_lane_units in Hu; [|done|done|unfold kPersistentCopyMaxPayloadBytes in *; ulia].
  pose proof (width_pos w Hw). unfold kPersistentCopyMaxPayloadBytes in *.
  rewrite copy_cg_narrow_width, u32_small by (done || (widths; nia)). done.
Qed.

Lemma wide_bulk s t n lane :
  0 <= n → n * 16 <= kPersistentCopyMaxPayloadBytes * 16 → 0 <= lane < 32 →
  copy_cg_16_bulk s t n lane = bulk 16 s t n lane.
Proof.
  intros Hn Hm Hl. unfold copy_cg_16_bulk, bulk. apply list_fmap_ext. intros i u Hu.
  apply list_elem_of_lookup_2, elem_of_lane_units in Hu; [|done|done|unfold kPersistentCopyMaxPayloadBytes in *; ulia].
  unfold kPersistentCopyMaxPayloadBytes in *. rewrite u32_small by (widths; nia). done.
Qed.

(** A warp's copy: lane 0 copies [head] and [tail] one after another, all lanes share
    [n] units of width [w] between them. *)
Record warp_shape (s t len : Z) (head tail : list Access) (p w n : Z) : Prop := {
  ws_lane : ∀ lane, 0 <= lane < 32 →
    copy_cg_warp lane s t len =
    (if lane =? 0 then head else []) ++ bulk w (s + p) (t + p) n lane ++ (if lane =? 0 then tail else []);
  ws_head : Forall (access_ok s t len) head ∧ head ≫= cover t = seqZ 0 p;
  ws_tail : Forall (access_ok s t len) tail ∧ tail ≫= cover t = seqZ (p + n * w) (len - (p + n * w));
  ws_width : is_width w;
  ws_bounds : 0 <= p ∧ 0 <= n ∧ p + n * w <= len;
  ws_aligned : n = 0 ∨ (s + p) mod w = 0 ∧ (t + p) mod w = 0;
  ws_narrow : Forall (λ a, width a <= 8) (head ++ tail);
  ws_values : w = common_bulk_width s t ∧ p = prefix_bytes s w len ∧ n = (len - p) / w;
}.

(** Addresses and length that are multiples of the widest access. *)
Lemma aligned_shape s t len :
  0 <= len <= kPersistentCopyMaxPayloadBytes → Z.land (Z.lor (Z.lor s t) len) 15 = 0 →
  warp_shape s t len [] [] 0 16 (len / 16).
Proof.
  unfold kPersistentCopyMaxPayloadBytes. intros Hlen Ea.
  rewrite !Z.land_lor_distr_l in Ea. apply Z.lor_eq_0_iff in Ea as [[Es Et]%Z.lor_eq_0_iff El].
  change 15 with (16 - 1) in *. rewrite width_land in Es, Et, El by (unfold is_width; lia).
  pose proof (Z.div_mod len 16 ltac:(lia)).
  split.
  - intros lane Hl. unfold copy_cg_warp. rewrite !Z.land_lor_distr_l. change 15 with (16 - 1).
    rewrite !width_land by (unfold is_width; lia). rewrite Es, Et, El. cbn [Z.lor Z.eqb].
    unfold copy_cg_16_warp_aligned. rewrite wide_bulk, !Z.add_0_r by (unfold kPersistentCopyMaxPayloadBytes; lia).
    destruct (lane =? 0); by rewrite app_nil_r.
  - done.
  - split; [done|]. by replace (len - _) with 0 by lia.
  - unfold is_width. lia.
  - lia.
  - right. by rewrite !Z.add_0_r.
  - done.
  - assert (common_bulk_width s t = 16) as ->.
    { unfold common_bulk_width. change 15 with (16 - 1). rewrite land_lxor_distr.
      by rewrite !width_land, Es, Et by (unfold is_width; lia). }
    assert (prefix_bytes s 16 len = 0) as E0; [|rewrite E0; split_and!; [done|done|f_equal; lia]].
    unfold prefix_bytes. rewrite !width_land, Es by (unfold is_width; lia). change (u32 ((16 - 0) mod 16)) with 0. by rewrite (proj2 (Z.ltb_ge _ _)) by lia.
Qed.

Lemma generic_shape s t len :
  0 <= len <= kPersistentCopyMaxPayloadBytes → Z.land (Z.lor (Z.lor s t) len) 15 ≠ 0 →
  ∃ head tail p w n, warp_shape s t len head tail p w n.
Proof.
  unfold kPersistentCopyMaxPayloadBytes. intros Hlen Ea%Z.eqb_neq.
  destruct (common_bulk_width_spec s t) as [Hw Hst]. set (w := common_bulk_width s t) in *.
  destruct (prefix_bytes_spec s w len Hw ltac:(lia)) as [Hp Hal]. set (p := prefix_bytes s w len) in *.
  pose proof (width_pos w Hw) as Hwp. set (n := (len - p) / w).
  pose proof (Z.div_mod (len - p) w ltac:(lia)) as Hdm. fold n in Hdm.
  pose proof (Z.mod_pos_bound (len - p) w ltac:(lia)) as Hmb.
  assert (0 <= n) as Hn0 by (apply Z.div_pos; lia). assert (n <= len) as Hnl by nia.
  set (body := n * w). assert (0 <= body <= len - p) as Hb by (unfold body; lia).
  exists (if negb (p =? 0) then copy_cg_narrow_serial (Z.to_nat p) s t p else []).
  exists (if negb (len - p - body =? 0)
          then copy_cg_narrow_serial (Z.to_nat (len - p - body)) (s + p + body) (t + p + body) (len - p - body) else []).
  exists p, w, n. split; [|..|done|unfold body in *; lia| | |done].
  - intros lane Hl. unfold copy_cg_warp. rewrite Ea. unfold copy_cg_warp_generic. fold w. fold p. fold n.
    rewrite (u32_small (n * w)) by (fold body; ulia). fold body. f_equal; [by destruct (lane =? 0)|].
    f_equal; [|by destruct (lane =? 0)].
    destruct (w =? 16) eqn:E16; bool_hyps.
    + rewrite E16. apply wide_bulk; unfold kPersistentCopyMaxPayloadBytes; lia.
    + apply narrow_bulk; unfold is_width, kPersistentCopyMaxPayloadBytes in *; lia.
  - destruct (p =? 0) eqn:Ep; cbn [negb]; bool_hyps; [split; [done|by rewrite Ep]|].
    pose proof (serial_accesses s t len (Z.to_nat p) s t p). rewrite !Z.sub_diag in *. apply H; lia.
  - fold body. destruct (len - p - body =? 0) eqn:Ep; cbn [negb]; bool_hyps.
    { split; [done|]. by replace (len - (p + body)) with 0 by lia. }
    destruct (serial_accesses s t len (Z.to_nat (len - p - body)) (s + p + body) (t + p + body) (len - p - body))
      as [S1 S2]; [lia..|]. split; [done|]. rewrite S2. f_equal; lia.
  - destruct (decide (n = 0)) as [|Hn]; [by left|right]. destruct Hal as [Hpl|Hal].
    { rewrite Hpl in Hdm. rewrite Z.sub_diag, Z.mod_0_l in Hdm by lia. nia. }
    split; [done|]. rewrite <- Zplus_mod_idemp_l, <- Hst, Zplus_mod_idemp_l. done.
  - apply Forall_app. split; case_match; (apply serial_narrow || constructor); lia.
Qed.

Lemma copy_cg_warp_shape s t len :
  0 <= len <= kPersistentCopyMaxPayloadBytes → ∃ head tail p w n, warp_shape s t len head tail p w n.
Proof.
  intros Hlen. destruct (decide (Z.land (Z.lor (Z.lor s t) len) 15 = 0)) as [Ea|Ea]; [|by apply generic_shape].
  eexists _, _, _, _, _. by apply aligned_shape.
Qed.

Section Shape.
Context {s t len : Z} {head tail : list Access} {p w n : Z} (W : warp_shape s t len head tail p w n).
Context (Hlen : 0 <= len <= kPersistentCopyMaxPayloadBytes).

Lemma shape_units : n + 32 <= U32_MAX.
Proof.
  pose proof (ws_bounds _ _ _ _ _ _ _ _ W). pose proof (width_pos _ (ws_width _ _ _ _ _ _ _ _ W)).
  unfold kPersistentCopyMaxPayloadBytes in *. widths. nia.
Qed.

Lemma shape_accesses lane : 0 <= lane < 32 → Forall (access_ok s t len) (copy_cg_warp lane s t len).
Proof.
  intros Hl. pose proof shape_units. destruct W. rewrite ws_lane0 by done. apply Forall_app. split.
  { destruct (lane =? 0); [apply ws_head0|done]. }
  apply Forall_app. split; [|destruct (lane =? 0); [apply ws_tail0|done]].
  destruct ws_aligned0 as [->|[Hs Ht]]; [by unfold bulk, lane_units|].
  apply bulk_accesses; try done; lia.
Qed.

Lemma shape_cover : (seqZ 0 32 ≫= λ lane, copy_cg_warp lane s t len ≫= cover t) ≡ₚ seqZ 0 len.
Proof.
  pose proof shape_units. pose proof (width_pos _ (ws_width _ _ _ _ _ _ _ _ W)). destruct W.
  set (first (l : list Access) := λ lane : Z, (if lane =? 0 then l else []) ≫= cover t).
  assert (∀ l, (seqZ 0 32 ≫= first l) = l ≫= cover t) as Hfirst.
  { intros l. change (seqZ 0 32) with (0 :: seqZ 1 31). rewrite bind_cons.
    assert (seqZ 1 31 ≫= first l = []) as ->; [|by rewrite app_nil_r]. reflexivity. }
  assert ((seqZ 0 32 ≫= λ lane, copy_cg_warp lane s t len ≫= cover t)
    ≡ₚ (seqZ 0 32 ≫= first head) ++ (seqZ 0 32 ≫= λ lane, bulk w (s + p) (t + p) n lane ≫= cover t)
       ++ (seqZ 0 32 ≫= first tail)) as ->.
  { assert (Forall (λ lane, 0 <= lane < 32) (seqZ 0 32)) as HF.
    { apply Forall_forall. intros x Hx%elem_of_seqZ. lia. }
    clear Hfirst. revert HF. generalize (seqZ 0 32). intros lanes HF.
    induction HF as [|lane lanes Hl HF IH]; [done|]. rewrite !bind_cons, IH.
    rewrite ws_lane0, !bind_app by done. unfold first. solve_Permutation. }
  rewrite !Hfirst, (proj2 ws_head0), (proj2 ws_tail0), bulk_cover by lia.
  replace (t + p - t) with (0 + p) by lia. rewrite (assoc_L (++)), <- seqZ_app by lia.
  rewrite <- (Z.add_0_l (p + n * w)) at 2. rewrite <- seqZ_app by lia.
  by replace (p + n * w + _) with len by lia.
Qed.
End Shape.

(** The offsets that 16-byte accesses copy. *)
Definition is_vector (a : Access) : Prop := width a = 16.
#[export] Instance is_vector_dec a : Decision (is_vector a).
Proof. unfold is_vector. apply _. Defined.

Lemma length_vector_split t (accesses : Z → list Access) lanes :
  length (lanes ≫= λ lane, accesses lane ≫= cover t) =
  (length (lanes ≫= λ lane, filter is_vector (accesses lane) ≫= cover t)
   + length (lanes ≫= λ lane, filter (λ a, ¬ is_vector a) (accesses lane) ≫= cover t))%nat.
Proof.
  induction lanes as [|lane lanes IH]; [done|]. rewrite !bind_cons, !length_app, IH.
  enough (length (accesses lane ≫= cover t) = length (filter is_vector (accesses lane) ≫= cover t)
    + length (filter (λ a, ¬ is_vector a) (accesses lane) ≫= cover t))%nat by lia.
  clear IH. induction (accesses lane) as [|a l IH]; [done|]. rewrite !filter_cons.
  destruct (decide (is_vector a)) as [Hv|Hv].
  - rewrite (decide_False (P := ¬ is_vector a)) by auto.
    rewrite !bind_cons, !length_app, IH. lia.
  - rewrite (decide_True (P := ¬ is_vector a)) by auto. rewrite !bind_cons, !length_app, IH. lia.
Qed.

Lemma narrow_no_vector l : Forall (λ a, width a <= 8) l → filter is_vector l = [].
Proof.
  induction 1 as [|a l Ha Hl IH]; [done|]. rewrite filter_cons_False; [done|]. unfold is_vector. lia.
Qed.

Lemma bulk_vector w s t n lane :
  filter is_vector (bulk w s t n lane) = if w =? 16 then bulk w s t n lane else [].
Proof.
  unfold bulk. induction (lane_units lane n) as [|u l IH]; [by destruct (w =? 16)|].
  rewrite fmap_cons, filter_cons, IH. unfold is_vector. cbn [width].
  destruct (w =? 16) eqn:E; bool_hyps; [by rewrite decide_True|by rewrite decide_False].
Qed.

Lemma shape_vector {s t len head tail p w n} :
  warp_shape s t len head tail p w n → 0 <= len <= kPersistentCopyMaxPayloadBytes →
  Z.of_nat (length (seqZ 0 32 ≫= λ lane, filter is_vector (copy_cg_warp lane s t len) ≫= cover t))
  = if w =? 16 then n * 16 else 0.
Proof.
  intros W Hlen. pose proof (shape_units W Hlen).
  assert ((seqZ 0 32 ≫= λ lane, filter is_vector (copy_cg_warp lane s t len) ≫= cover t)
    = seqZ 0 32 ≫= λ lane, (if w =? 16 then bulk w (s + p) (t + p) n lane else []) ≫= cover t) as ->.
  { assert (Forall (λ lane, 0 <= lane < 32) (seqZ 0 32)) as HF.
    { apply Forall_forall. intros x Hx%elem_of_seqZ. lia. }
    revert HF. generalize (seqZ 0 32). intros lanes HF.
    induction HF as [|lane lanes Hl HF IH]; [done|]. rewrite !bind_cons, IH. f_equal.
    pose proof (ws_narrow _ _ _ _ _ _ _ _ W) as [Hh Ht]%Forall_app.
    rewrite (ws_lane _ _ _ _ _ _ _ _ W), !filter_app, bulk_vector by done. f_equal.
    destruct (lane =? 0); rewrite ?(narrow_no_vector head), ?(narrow_no_vector tail) by done;
      by rewrite ?app_nil_r. }
  pose proof (ws_bounds _ _ _ _ _ _ _ _ W).
  destruct (w =? 16) eqn:Ew; bool_hyps.
  - subst w. rewrite bulk_cover by lia. rewrite length_seqZ. lia.
  - done.
Qed.

(** For a copy of at most the largest payload: each access of each lane lies inside both
    ranges, at the same offset in both, and is aligned to its width; the accesses of the
    lanes together copy each byte exactly once; and the counts the test kernel reports
    are the bytes copied by 16-byte accesses and by narrower ones. *)
Theorem warp_accesses_exact (s t len : Z) :
  0 <= len <= kPersistentCopyMaxPayloadBytes →
  (∀ lane, 0 <= lane < kWarpLanes → Forall (access_ok s t len) (copy_cg_warp lane s t len)) ∧
  (seqZ 0 kWarpLanes ≫= λ lane, copy_cg_warp lane s t len ≫= cover t) ≡ₚ seqZ 0 len ∧
  vector_128_bytes (access_counts s t len) =
    Z.of_nat (length (seqZ 0 kWarpLanes ≫= λ lane, filter is_vector (copy_cg_warp lane s t len) ≫= cover t)) ∧
  narrow_bytes (access_counts s t len) =
    Z.of_nat (length (seqZ 0 kWarpLanes ≫= λ lane,
      filter (λ a, ¬ is_vector a) (copy_cg_warp lane s t len) ≫= cover t)).
Proof.
  intros Hlen. destruct (copy_cg_warp_shape s t len Hlen) as (head & tail & p & w & n & W).
  unfold kWarpLanes. split_and!.
  - intros lane Hl. by apply (shape_accesses W Hlen).
  - exact (shape_cover W Hlen).
  - rewrite (shape_vector W Hlen). destruct (ws_values _ _ _ _ _ _ _ _ W) as (Ew & Ep & En).
    unfold access_counts. cbn [vector_128_bytes]. rewrite <- Ew, <- Ep.
    destruct (w =? 16) eqn:E16; bool_hyps; [|done]. by rewrite En, E16.
  - pose proof (shape_vector W Hlen) as Hv. pose proof (Permutation_length (shape_cover W Hlen)) as Hc.
    rewrite length_seqZ in Hc. rewrite (length_vector_split t (λ lane, copy_cg_warp lane s t len)) in Hc.
    destruct (ws_values _ _ _ _ _ _ _ _ W) as (Ew & Ep & En).
    unfold access_counts. cbn [narrow_bytes]. rewrite <- Ew, <- Ep.
    destruct (w =? 16) eqn:E16; bool_hyps; [|lia]. rewrite E16 in En. rewrite <- En. lia.
Qed.

(** * Every interleaving copies *)

Lemma load_lookup m a n i : 0 <= i < n → load m a n !!! Z.to_nat i = m (a + i).
Proof.
  intros Hi. unfold load. apply list_lookup_total_correct. rewrite list_lookup_fmap.
  rewrite lookup_seqZ_lt by lia. cbn. f_equal. f_equal. lia.
Qed.

Lemma length_load m a n : 0 <= n → Z.of_nat (length (load m a n)) = n.
Proof. intros Hn. unfold load. rewrite length_fmap, length_seqZ. lia. Qed.

Section Interleaving.
Context (m0 : Memory) (s t len : Z) (Hdisjoint : s + len <= t ∨ t + len <= s).

Definition lane_inv (l : Lane) : Prop :=
  Forall (access_ok s t len) (todo l) ∧
  match loaded l with
  | None => True
  | Some bytes => ∃ a rest, todo l = a :: rest ∧ bytes = load m0 (source a) (width a)
  end.

(** An offset is still to be copied by some lane. *)
Definition to_copy (lanes : list Lane) (o : Z) : Prop :=
  ∃ i l a, lanes !! i = Some l ∧ a ∈ todo l ∧ o ∈ cover t a.

Definition warp_inv (m : Memory) (lanes : list Lane) : Prop :=
  Forall lane_inv lanes ∧
  (∀ x, ¬ (t <= x < t + len) → m x = m0 x) ∧
  (∀ o, 0 <= o < len → to_copy lanes o ∨ m (t + o) = m0 (s + o)).

Lemma load_source m a :
  (∀ x, ¬ (t <= x < t + len) → m x = m0 x) → access_ok s t len a →
  load m (source a) (width a) = load m0 (source a) (width a).
Proof.
  intros Hm [Ho Hr _ _ _]. unfold load. apply list_fmap_ext. intros i x Hx.
  apply lookup_seqZ in Hx as [-> Hx]. apply Hm. lia.
Qed.

Lemma warp_inv_load m lanes i a rest :
  warp_inv m lanes → lanes !! i = Some (mkLane (a :: rest) None) →
  warp_inv m (<[i := mkLane (a :: rest) (Some (load m (source a) (width a)))]> lanes).
Proof.
  intros (Hl & Hm & Hc) Hi. pose proof (Forall_lookup_1 _ _ _ _ Hl Hi) as [Hok _]. cbn in Hok.
  pose proof (proj1 (Forall_cons_1 _ _ _ Hok)) as Ha. split_and!; [|done|].
  - apply Forall_insert; [done|]. split; [done|]. cbn. exists a, rest. split; [done|]. by apply load_source.
  - intros o Ho. destruct (Hc o Ho) as [(j & l & a' & Hj & Ha' & Hcov)|]; [left|by right].
    destruct (decide (j = i)) as [->|Hne].
    + exists i, (mkLane (a :: rest) (Some (load m (source a) (width a)))), a'.
      rewrite list_lookup_insert_eq by by eapply lookup_lt_Some. simplify_eq. done.
    + exists j, l, a'. by rewrite list_lookup_insert_ne.
Qed.

Lemma warp_inv_store m lanes i a rest bytes :
  warp_inv m lanes → lanes !! i = Some (mkLane (a :: rest) (Some bytes)) →
  warp_inv (store m (target a) bytes) (<[i := mkLane rest None]> lanes).
Proof.
  intros (Hl & Hm & Hc) Hi. pose proof (Forall_lookup_1 _ _ _ _ Hl Hi) as [Hok (a0 & r0 & E & ->)].
  cbn in Hok, E. injection E as <- <-. apply Forall_cons in Hok as [Ha Hrest].
  pose proof Ha as [Hoff Hr Hw _ _]. pose proof (width_pos _ Hw) as Hwp.
  pose proof (length_load m0 (source a) (width a) ltac:(lia)) as Hlen.
  assert (∀ x, store m (target a) (load m0 (source a) (width a)) x =
    if decide (target a <= x < target a + width a) then m0 (source a + (x - target a)) else m x) as Hst.
  { intros x. unfold store. rewrite Hlen. case_decide; [|done]. apply load_lookup. lia. }
  split_and!.
  - by apply Forall_insert.
  - intros x Hx. rewrite Hst, decide_False by lia. by apply Hm.
  - intros o Ho. rewrite Hst. case_decide as Hin.
    { right. f_equal. lia. }
    destruct (Hc o Ho) as [(j & l & a' & Hj & Ha' & Hcov)|]; [left|by right].
    destruct (decide (j = i)) as [->|Hne]; [|by exists j, l, a'; rewrite list_lookup_insert_ne].
    rewrite Hi in Hj. injection Hj as <-. cbn in Ha'. apply elem_of_cons in Ha' as [->|Ha'].
    { exfalso. unfold cover in Hcov. apply elem_of_seqZ in Hcov. lia. }
    exists i, (mkLane rest None), a'. by rewrite list_lookup_insert_eq by by eapply lookup_lt_Some.
Qed.

Lemma warp_inv_steps c c' : rtc warp_step c c' → warp_inv c.1 c.2 → warp_inv c'.1 c'.2.
Proof.
  induction 1 as [|c1 c2 c3 Hstep _ IH]; [done|]. intros Hi. apply IH.
  destruct Hstep; cbn in *; [by apply warp_inv_load|by apply warp_inv_store].
Qed.

End Interleaving.

Lemma warp_start_inv m s t len :
  0 <= len <= kPersistentCopyMaxPayloadBytes → warp_inv m s t len m (warp s t len).
Proof.
  intros Hlen. destruct (copy_cg_warp_shape s t len Hlen) as (head & tail & p & w & n & W).
  pose proof (shape_cover W Hlen) as Hcov. split_and!.
  - unfold warp. apply Forall_fmap, Forall_forall. intros lane Hl%elem_of_seqZ. split; [|done]. cbn.
    apply (shape_accesses W Hlen). unfold kWarpLanes in *. lia.
  - done.
  - intros o Ho. left. assert (o ∈ seqZ 0 len) as Hin by (apply elem_of_seqZ; lia).
    rewrite <- Hcov in Hin. apply list_elem_of_bind in Hin as (lane & Hin & Hl).
    apply list_elem_of_bind in Hin as (a & Ha1 & Ha2). apply list_elem_of_lookup in Hl as [i Hi].
    exists i, (mkLane (copy_cg_warp lane s t len) None), a. unfold warp, kWarpLanes. rewrite list_lookup_fmap, Hi. done.
Qed.

(** How many steps a warp has left. *)
Definition lane_steps (l : Lane) : nat :=
  match loaded l with None => 2 * length (todo l) | Some _ => 2 * length (todo l) - 1 end.
Definition steps_left (lanes : list Lane) : nat := sum_list_with lane_steps lanes.

Lemma sum_list_insert {A} (f : A → nat) (l : list A) i x y :
  l !! i = Some x → (sum_list_with f (<[i := y]> l) + f x = sum_list_with f l + f y)%nat.
Proof.
  revert i. induction l as [|z l IH]; intros [|i] Hi; [done|done|cbn in *; simplify_eq; lia|].
  specialize (IH i Hi). change (<[S i := y]> (z :: l)) with (z :: <[i := y]> l). cbn [sum_list_with]. lia.
Qed.

Lemma warp_step_decreases c c' : warp_step c c' → S (steps_left c'.2) = steps_left c.2.
Proof.
  destruct 1 as [m lanes i a rest Hi|m lanes i a rest bytes Hi]; cbn [snd]; unfold steps_left;
    match goal with |- context [<[i := ?y]> lanes] =>
      pose proof (sum_list_insert lane_steps lanes i _ y Hi) as E end; unfold lane_steps in E at 2 4; cbn in E; lia.
Qed.

Lemma warp_steps_count k c c' :
  nsteps warp_step k c c' → (k + steps_left c'.2 = steps_left c.2)%nat.
Proof.
  induction 1 as [|k c1 c2 c3 Hstep _ IH]; [done|]. apply warp_step_decreases in Hstep. lia.
Qed.

Lemma warp_progress m s t len m' lanes :
  warp_inv m s t len m' lanes → finished lanes ∨ ∃ c, warp_step (m', lanes) c.
Proof.
  intros (Hl & _). destruct (decide (finished lanes)) as [|Hn]; [by left|right].
  apply not_Forall_Exists in Hn; [|intros l; destruct (decide (todo l = [])); [by left|by right]].
  apply Exists_exists in Hn as (l & Hin & Hne).
  apply list_elem_of_lookup in Hin as [i Hi]. destruct l as [[|a rest] o]; [by destruct Hne|].
  destruct o as [bytes|]; eexists; [by eapply lane_stores|by eapply lane_loads].
Qed.

Lemma warp_copies (m : Memory) (s t len : Z) :
  0 <= len <= kPersistentCopyMaxPayloadBytes → s + len <= t ∨ t + len <= s →
  ∀ k c, nsteps warp_step k (m, warp s t len) c →
    (k <= steps_left (warp s t len))%nat ∧
    (finished c.2 ∨ ∃ c', warp_step c c') ∧
    (finished c.2 → ∀ x, c.1 x = memcpy m t s len x).
Proof.
  intros Hlen Hdis k c Hsteps.
  assert (rtc warp_step (m, warp s t len) c) as Hrtc by (apply rtc_nsteps; by eexists).
  pose proof (warp_inv_steps m s t len Hdis _ _ Hrtc (warp_start_inv m s t len Hlen)) as Hinv.
  destruct c as [m' lanes]. cbn [fst snd] in *. split_and!.
  - pose proof (warp_steps_count _ _ _ Hsteps). cbn [snd] in *. lia.
  - by eapply warp_progress.
  - intros Hfin x. destruct Hinv as (_ & Hm & Hc). unfold memcpy. case_decide as Hx; [|by apply Hm].
    destruct (Hc (x - t) ltac:(lia)) as [(i & l & a & Hi & Ha & _)|E].
    + pose proof (Forall_lookup_1 _ _ _ _ Hfin Hi) as E. cbn in E. rewrite E in Ha. by apply elem_of_nil in Ha.
    + by replace (t + (x - t)) with x in E by lia.
Qed.

(** Some interleaving finishes. *)
Lemma warp_finishes m s t len :
  0 <= len <= kPersistentCopyMaxPayloadBytes → s + len <= t ∨ t + len <= s →
  ∃ k c, nsteps warp_step k (m, warp s t len) c ∧ finished c.2.
Proof.
  intros Hlen Hdis. cut (∀ n c0, n = steps_left c0.2 → warp_inv m s t len c0.1 c0.2 →
    ∃ k c, nsteps warp_step k c0 c ∧ finished c.2).
  { intros Hc. by apply (Hc _ (m, warp s t len) eq_refl), warp_start_inv. }
  intros n. induction n as [|n IH]; intros [m1 lanes] En Hinv; cbn [fst snd] in Hinv.
  - destruct (warp_progress m s t len m1 lanes Hinv) as [|[c Hc]]; [by exists 0%nat, (m1, lanes); split; [constructor|]|].
    apply warp_step_decreases in Hc. cbn in *. lia.
  - destruct (warp_progress m s t len m1 lanes Hinv) as [|[c Hc]]; [by exists 0%nat, (m1, lanes); split; [constructor|]|].
    pose proof (warp_step_decreases _ _ Hc) as Hd. cbn in En, Hd.
    destruct (IH c) as (k & c' & Hk & Hf); [lia| |].
    { by apply (warp_inv_steps m s t len Hdis _ _ (rtc_once _ _ Hc)). }
    exists (S k), c'. split; [|done]. by eapply nsteps_l.
Qed.

(** (C9) A task the host makes from a request: its source lies inside the staging buffer and
    is the source of the request, and, when source and target do not overlap, every
    interleaving of the lanes of the warp that copies it ends within a bounded number
    of steps and leaves the memory as [memcpy] of the request does. *)
Theorem task_copied (m : Memory) c r id task :
  is_u32 (br_length r) → CopyHost.make_copy_task c r id = Ok task →
  br_source r + br_length r <= br_target r ∨ br_target r + br_length r <= br_source r →
  let s := CopyHost.stage_buffer_base c + relative_offset task in
  let start := warp s (target_address task) (task_length task) in
  s = br_source r ∧
  CopyHost.stage_buffer_base c <= s ∧
  s + task_length task <= CopyHost.stage_buffer_base c + CopyHost.stage_buffer_bytes c ∧
  ∀ k w, nsteps warp_step k (m, start) w →
    (k <= steps_left start)%nat ∧ (finished w.2 ∨ ∃ w', warp_step w w') ∧
    (finished w.2 → ∀ x, w.1 x = memcpy m (br_target r) (br_source r) (br_length r) x).
Proof.
  intros Hu Ht Hdis. unfold CopyHost.make_copy_task in Ht.
  do 2 match type of Ht with (if ?b then _ else _) = _ => destruct b eqn:?; [discriminate|] end.
  apply Ok_inj in Ht as <-. bool_hyps. cbn [relative_offset target_address task_length].
  rewrite u32_small by ulia.
  replace (CopyHost.stage_buffer_base c + _) with (br_source r) by lia. split_and!; [done|lia|lia|].
  intros k w Hw. eapply warp_copies; [ulia|done|done].
Qed.

(** ** Witnesses *)

Definition demo_memory : Memory := λ x, x mod 251.
Definition demo_copy_config : CopyHost.Config := CopyHost.mkConfig 0 4096 65536 64 CopyHost.kHostBatch 1000.
(** 37 bytes, from an address that is 3 modulo 16 to one that is 11 modulo 16. *)
Definition demo_request : BackendRequest := mkBackendRequest 7 37 0 4099 1048587 37 0 1.
Definition demo_copy_task : CopyTask := mkTask 1 1048587 37 3.

Lemma warp_accesses_exact_witness :
  (seqZ 0 kWarpLanes ≫= λ lane, copy_cg_warp lane 4099 1048587 37 ≫= cover 1048587) ≡ₚ seqZ 0 37 ∧
  width <$> (copy_cg_warp 0 4099 1048587 37) = [1; 4; 8] ∧
  vector_128_bytes (access_counts 4099 1048579 37) = 16.
Proof.
  split; [apply warp_accesses_exact; unfold kPersistentCopyMaxPayloadBytes; lia|]. by vm_compute.
Defined.

Lemma task_copied_witness :
  CopyHost.make_copy_task demo_copy_config demo_request 1 = Ok demo_copy_task ∧
  ∃ k w, nsteps warp_step k (demo_memory, warp 4099 1048587 37) w ∧ finished w.2 ∧
    w.1 1048590 = demo_memory 4102 ∧ w.1 1048624 = demo_memory 1048624.
Proof.
  assert (CopyHost.make_copy_task demo_copy_config demo_request 1 = Ok demo_copy_task) as E by reflexivity.
  split; [exact E|].
  destruct (warp_finishes demo_memory 4099 1048587 37) as (k & w & Hk & Hf);
    [unfold kPersistentCopyMaxPayloadBytes; lia|lia|].
  exists k, w. split; [exact Hk|]. split; [exact Hf|].
  assert (is_u32 (br_length demo_request)) as Hu by (unfold demo_request; cbn; ulia).
  pose proof (task_copied demo_memory demo_copy_config demo_request 1 demo_copy_task Hu E) as T.
  destruct T as (_ & _ & _ & T); [unfold demo_request; cbn; lia|].
  destruct (T k w Hk) as (_ & _ & Tm). rewrite !Tm by exact Hf. by split.
Defined.

End CopyCore.
