(* ===== verification/CopyTable.v ===== *)
(** The task table of the GPU copy backend's host side: which copies it holds, the
    invariant that ties the slots to the pending batch and to the ring of local
    completions, and that every operation of [PersistentCudaCopyHost] keeps it, whatever
    the device queue and the visibility gate answer. *)

From S2P Require Import Prelude LocalTransport CopyHost.
Import Transport Copy CopyHost.

Module CopyTable.

(** * Views of the table *)

(** The copies a slot holds, and the identities of the tasks in a given state. *)
Definition live_of (c : TaskContextSlot) : list (Z * Z) :=
  if decide (slot_state c = free) then [] else [(slot_parent c, slot_index c)].
Definition ids_in (st : SlotState) (c : TaskContextSlot) : list Z :=
  if decide (slot_state c = st) then [slot_task c] else [].

Definition live_copies (h : Host) : list (Z * Z) := slots_of h ≫= live_of.

(** The identities waiting in the local ring, oldest first. *)
Definition local_id (mask : Z) (l : LocalRing) (i : Z) : Z := default 0 (ids l !! slot_of mask i).
Definition window (mask : Z) (l : LocalRing) : list Z :=
  local_id mask l <$> seqZ (head l) (tail l - head l).

(** A task is in the slot its identity selects. *)
Definition home (mask : Z) (slots : list TaskContextSlot) : Prop :=
  ∀ p c, slots !! p = Some c → slot_state c ≠ free → slot_of mask (slot_task c) = p.

Lemma gather_insert {A} (f : TaskContextSlot → list A) slots p c :
  slots !! p = Some c →
  ∃ rest, slots ≫= f ≡ₚ f c ++ rest ∧ ∀ c', <[p := c']> slots ≫= f ≡ₚ f c' ++ rest.
Proof.
  intros Hp. exists ((take p slots ≫= f) ++ (drop (S p) slots ≫= f)).
  assert (p < length slots)%nat as Hlt by by eapply lookup_lt_Some.
  split; [rewrite <- (take_drop_middle slots p c Hp) at 1|intros c'; rewrite insert_take_drop by done];
    rewrite bind_app, bind_cons; solve_Permutation.
Qed.

(** The states partition the slots. *)
Lemma length_live slots :
  (length (slots ≫= live_of) = length (slots ≫= ids_in pending) + length (slots ≫= ids_in submitted)
     + length (slots ≫= ids_in local_error))%nat ∧
  (length (slots ≫= live_of) <= length slots)%nat.
Proof.
  induction slots as [|c slots [IH1 IH2]]; [done|]. rewrite !bind_cons, !length_app. cbn [length].
  assert (length (live_of c) = length (ids_in pending c) + length (ids_in submitted c)
            + length (ids_in local_error c) ∧ length (live_of c) <= 1)%nat; [|lia].
  unfold live_of, ids_in. destruct c as [? ? ? [] ?]; vm_compute; lia.
Qed.

(** A table of [2 ^ k] slots and a ring of as many identities. *)
Section Table.
Context (k : Z) (Hk : 0 <= k).
Notation cap := (2 ^ k).
Notation mask := (2 ^ k - 1).

Lemma slot_of_mod id : slot_of mask id = Z.to_nat (id mod cap).
Proof. unfold slot_of. by rewrite land_pow2. Qed.

Lemma slot_of_lt id : Z.of_nat (slot_of mask id) < cap.
Proof.
  rewrite slot_of_mod. pose proof (Z.mod_pos_bound id cap). pose proof (Z.pow_pos_nonneg 2 k). lia.
Qed.

(** Two counters at distance less than the capacity select different entries. *)
Lemma slot_of_inj a b : - cap < a - b < cap → slot_of mask a = slot_of mask b → a = b.
Proof.
  rewrite !slot_of_mod. intros Hd E. pose proof (Z.pow_pos_nonneg 2 k ltac:(lia) Hk).
  assert (a mod cap = b mod cap) as Em.
  { pose proof (Z.mod_pos_bound a cap). pose proof (Z.mod_pos_bound b cap). lia. }
  pose proof (Z.div_mod a cap) as Ha. pose proof (Z.div_mod b cap) as Hb.
  assert (a / cap = b / cap) by nia. nia.
Qed.

Section Slots.
Context (slots : list TaskContextSlot) (Hlen : Z.of_nat (length slots) = cap).

Lemma lookup_context id : slots !! slot_of mask id = Some (context_at mask slots id).
Proof.
  pose proof (slot_of_lt id). unfold context_at.
  destruct (lookup_lt_is_Some_2 slots (slot_of mask id)) as [c E]; [lia|]. by rewrite E.
Qed.

Lemma ids_in_context st id :
  home mask slots → st ≠ free → id ∈ slots ≫= ids_in st →
  slot_state (context_at mask slots id) = st ∧ slot_task (context_at mask slots id) = id.
Proof.
  intros Hh Hst (c & Hc & (p & Hp)%list_elem_of_lookup)%list_elem_of_bind.
  unfold ids_in in Hc. case_decide as E; [|by apply elem_of_nil in Hc].
  apply list_elem_of_singleton in Hc as ->. unfold context_at. rewrite (Hh p c); [|done|by rewrite E].
  by rewrite Hp.
Qed.

Lemma context_ids_in st id :
  slot_state (context_at mask slots id) = st → slot_task (context_at mask slots id) = id →
  id ∈ slots ≫= ids_in st.
Proof.
  intros Hst Hid. apply list_elem_of_bind. exists (context_at mask slots id).
  split; [unfold ids_in; rewrite decide_True, Hid by done; set_solver|].
  eapply list_elem_of_lookup_2, lookup_context.
Qed.

Lemma set_context_home id c :
  home mask slots → (slot_state c ≠ free → slot_task c = id) → home mask (set_context mask slots id c).
Proof.
  intros Hh Hc p c' Hp Hf. unfold set_context in Hp.
  destruct (decide (p = slot_of mask id)) as [->|Hne].
  - rewrite list_lookup_insert_eq in Hp by (pose proof (slot_of_lt id); lia).
    simplify_eq. by rewrite Hc.
  - rewrite list_lookup_insert_ne in Hp by done. by apply Hh.
Qed.

Lemma set_context_gather {A} (f : TaskContextSlot → list A) id :
  ∃ rest, slots ≫= f ≡ₚ f (context_at mask slots id) ++ rest ∧
          ∀ c, set_context mask slots id c ≫= f ≡ₚ f c ++ rest.
Proof. apply gather_insert, lookup_context. Qed.
End Slots.

(** ** The ring of local completions *)

Lemma window_push l id :
  Z.of_nat (length (ids l)) = cap → 0 <= head l <= tail l → tail l - head l < cap → tail l < U64_MAX →
  window mask (push_local mask l id) = window mask l ++ [id].
Proof.
  intros Hl Hht Hr Ht. unfold window, push_local. cbn [head tail ids].
  rewrite u64_small by ulia. replace (tail l + 1 - head l) with ((tail l - head l) + 1) by lia.
  rewrite seqZ_app, fmap_app by lia. f_equal.
  - apply list_fmap_ext. intros i x Hx. apply lookup_seqZ in Hx as [-> Hx].
    unfold local_id. cbn [ids]. rewrite list_lookup_insert_ne; [done|].
    intros E. apply slot_of_inj in E; lia.
  - replace (head l + (tail l - head l)) with (tail l) by lia. change (seqZ (tail l) 1) with [tail l].
    rewrite list_fmap_singleton. unfold local_id. cbn [ids].
    rewrite list_lookup_insert_eq; [done|]. pose proof (slot_of_lt (tail l)). lia.
Qed.

Lemma window_pop l :
  head l < tail l → 
  window mask l = local_id mask l (head l) :: window mask (mkLocal (ids l) (head l + 1) (tail l)).
Proof.
  intros Hht. unfold window. cbn [head tail ids]. rewrite seqZ_cons by lia. cbn. f_equal.
  f_equal. f_equal; lia.
Qed.

(** ** Changing the state of tasks *)

(** A task that completes locally completes with an error. *)
Definition local_failed (c : TaskContextSlot) : Prop :=
  slot_state c = local_error → slot_result c = backend_error.

Lemma ids_in_eq st c : slot_state c = st → ids_in st c = [slot_task c].
Proof. intros E. unfold ids_in. by rewrite decide_True. Qed.
Lemma ids_in_ne st c : slot_state c ≠ st → ids_in st c = [].
Proof. intros E. unfold ids_in. by rewrite decide_False. Qed.
Lemma live_of_eq c : slot_state c ≠ free → live_of c = [(slot_parent c, slot_index c)].
Proof. intros E. unfold live_of. by rewrite decide_False. Qed.

Lemma set_context_exchange {A} (f : TaskContextSlot → list A) slots id c :
  Z.of_nat (length slots) = cap →
  f (context_at mask slots id) ++ (set_context mask slots id c ≫= f) ≡ₚ f c ++ (slots ≫= f).
Proof.
  intros Hl. destruct (set_context_gather slots Hl f id) as (rest & -> & E). rewrite E.
  solve_Permutation.
Qed.

(** What changing the state of some tasks does to a table: the copies stay, the tasks
    [moved] go from one state to another. *)
Record retagged (from to : SlotState) (moved : list Z) (slots slots' : list TaskContextSlot) : Prop := {
  rt_length : length slots' = length slots;
  rt_home : home mask slots';
  rt_live : slots' ≫= live_of ≡ₚ slots ≫= live_of;
  rt_from : slots ≫= ids_in from ≡ₚ moved ++ (slots' ≫= ids_in from);
  rt_to : slots' ≫= ids_in to ≡ₚ moved ++ (slots ≫= ids_in to);
  rt_failed : Forall local_failed slots → Forall local_failed slots';
  rt_other : ∀ st, st ≠ from → st ≠ to → slots' ≫= ids_in st ≡ₚ slots ≫= ids_in st;
}.

Lemma retagged_nil from to slots : home mask slots → retagged from to [] slots slots.
Proof. by split. Qed.

Lemma retagged_cons from to id slots slots1 slots2 moved :
  retagged from to [id] slots slots1 → retagged from to moved slots1 slots2 →
  retagged from to (id :: moved) slots slots2.
Proof.
  intros [L1 H1 V1 F1 T1 E1 O1] [L2 H2 V2 F2 T2 E2 O2]. split.
  - by rewrite L2.
  - done.
  - by rewrite V2.
  - rewrite F1, F2. solve_Permutation.
  - rewrite T2, T1. solve_Permutation.
  - auto.
  - intros st Hf Ht. by rewrite O2, O1.
Qed.

Lemma retag_one slots from to id c :
  Z.of_nat (length slots) = cap → home mask slots → from ≠ free → to ≠ free → from ≠ to →
  id ∈ slots ≫= ids_in from → local_failed c →
  slot_task c = id → slot_state c = to → slot_parent c = slot_parent (context_at mask slots id) →
  slot_index c = slot_index (context_at mask slots id) →
  retagged from to [id] slots (set_context mask slots id c).
Proof.
  intros Hl Hh Hf Ht Hft Hid He Hc1 Hc2 Hc3 Hc4.
  destruct (ids_in_context slots from id Hh Hf Hid) as [Hs Hi].
  pose proof (λ A f, @set_context_exchange A f slots id c Hl) as Hx. split.
  - apply length_insert.
  - apply set_context_home; [done..|by intros].
  - specialize (Hx _ live_of). rewrite !live_of_eq, Hc3, Hc4 in Hx by congruence. by eapply Permutation_cons_inv.
  - specialize (Hx _ (ids_in from)). rewrite ids_in_eq, (ids_in_ne from c), Hi in Hx by congruence. by rewrite Hx.
  - specialize (Hx _ (ids_in to)). rewrite ids_in_ne, (ids_in_eq to c), Hc1 in Hx by congruence. done.
  - intros HF. by apply Forall_insert.
  - intros st H1 H2. specialize (Hx _ (ids_in st)). by rewrite !ids_in_ne in Hx by congruence.
Qed.

Lemma mark_submitted_spec published slots rest :
  Z.of_nat (length slots) = cap → home mask slots →
  slots ≫= ids_in pending ≡ₚ (task_id <$> published) ++ rest →
  ∃ slots', mark_submitted mask slots published = (slots', true) ∧
    retagged pending submitted (task_id <$> published) slots slots'.
Proof.
  revert slots. induction published as [|t published IH]; intros slots Hl Hh Hp; cbn [mark_submitted].
  { exists slots. split; [done|by apply retagged_nil]. }
  assert (task_id t ∈ slots ≫= ids_in pending) as Hin by (rewrite Hp; set_solver).
  destruct (ids_in_context slots pending _ Hh ltac:(done) Hin) as [Hs Hi].
  rewrite Hs, Hi, bool_decide_eq_true_2, Z.eqb_refl by done. cbn [negb orb].
  set (c := with_state _ _).
  assert (retagged pending submitted [task_id t] slots (set_context mask slots (task_id t) c)) as R.
  { by apply retag_one. }
  destruct (IH (set_context mask slots (task_id t) c)) as (slots' & E & R').
  - by rewrite (rt_length _ _ _ _ _ R).
  - apply (rt_home _ _ _ _ _ R).
  - pose proof (rt_from _ _ _ _ _ R) as F. rewrite Hp in F. symmetry. exact (Permutation_cons_inv F).
  - exists slots'. split; [done|]. by eapply retagged_cons.
Qed.

(** What failing tasks does to the ring. *)
Record pushed (moved : list Z) (l l' : LocalRing) : Prop := {
  ps_length : length (ids l') = length (ids l);
  ps_head : head l' = head l;
  ps_tail : tail l' = tail l + Z.of_nat (length moved);
  ps_window : window mask l' = window mask l ++ moved;
}.

Lemma pushed_nil l : pushed [] l l.
Proof. split; [done|done|cbn; lia|by rewrite app_nil_r]. Qed.

Lemma pushed_cons id moved l l' :
  Z.of_nat (length (ids l)) = cap → 0 <= head l <= tail l → tail l - head l < cap → tail l < U64_MAX →
  pushed moved (push_local mask l id) l' → pushed (id :: moved) l l'.
Proof.
  intros H1 H2 H3 H4 [Hl Hh Ht Hw]. rewrite window_push in Hw by done.
  unfold push_local in *. cbn [ids head tail] in *. rewrite u64_small in Ht by ulia.
  rewrite length_insert in Hl. split; [done..| |].
  - cbn [length]. lia.
  - by rewrite Hw, <- app_assoc.
Qed.

Lemma fail_tasks_spec failed slots l rest :
  Z.of_nat (length slots) = cap → home mask slots → Z.of_nat (length (ids l)) = cap →
  0 <= head l <= tail l → tail l - head l + Z.of_nat (length failed) <= cap →
  tail l + Z.of_nat (length failed) <= U64_MAX →
  slots ≫= ids_in pending ≡ₚ (task_id <$> failed) ++ rest →
  ∃ slots' l', fail_tasks mask slots l failed backend_error = (slots', l', true) ∧
    retagged pending local_error (task_id <$> failed) slots slots' ∧ pushed (task_id <$> failed) l l'.
Proof.
  revert slots l. induction failed as [|t failed IH]; intros slots l Hl Hh Hi Hht Hc Hb Hp;
    cbn [fail_tasks].
  { exists slots, l. split_and!; [done|by apply retagged_nil|apply pushed_nil]. }
  cbn [length] in *.
  assert (task_id t ∈ slots ≫= ids_in pending) as Hin by (rewrite Hp; set_solver).
  destruct (ids_in_context slots pending _ Hh ltac:(done) Hin) as [Hs Hid].
  rewrite Hs, Hid, bool_decide_eq_true_2, Z.eqb_refl by done. cbn [negb orb].
  set (c := failed_context _ _).
  assert (retagged pending local_error [task_id t] slots (set_context mask slots (task_id t) c)) as R.
  { by apply retag_one. }
  destruct (IH (set_context mask slots (task_id t) c) (push_local mask l (task_id t)))
    as (slots' & l' & E & R' & P').
  - by rewrite (rt_length _ _ _ _ _ R).
  - apply (rt_home _ _ _ _ _ R).
  - cbn [push_local ids]. by rewrite length_insert.
  - cbn [push_local head tail]. rewrite u64_small; ulia.
  - cbn [push_local head tail]. rewrite u64_small; ulia.
  - cbn [push_local tail]. rewrite u64_small; ulia.
  - pose proof (rt_from _ _ _ _ _ R) as F. rewrite Hp in F. symmetry. exact (Permutation_cons_inv F).
  - exists slots', l'. split_and!; [done|by eapply retagged_cons|apply pushed_cons; [done..|lia|ulia|done]].
Qed.

Definition fail_slot (c : TaskContextSlot) : TaskContextSlot :=
  if decide (slot_state c = submitted) then failed_context c backend_error else c.

Lemma fail_submitted_spec slots l :
  Z.of_nat (length (ids l)) = cap → 0 <= head l <= tail l →
  tail l - head l + Z.of_nat (length (slots ≫= ids_in submitted)) <= cap →
  tail l + Z.of_nat (length (slots ≫= ids_in submitted)) <= U64_MAX →
  ∃ l', fail_submitted mask slots l backend_error = (fail_slot <$> slots, l') ∧
    pushed (slots ≫= ids_in submitted) l l'.
Proof.
  revert l. induction slots as [|c slots IH]; intros l Hi Hht Hc Hb; cbn [fail_submitted].
  { exists l. split; [done|apply pushed_nil]. }
  rewrite bind_cons in *. rewrite fmap_cons. unfold fail_slot at 1.
  destruct (decide (slot_state c = submitted)) as [E|E].
  - rewrite ids_in_eq in * by done. cbn [app length] in *.
    destruct (IH (push_local mask l (slot_task c))) as (l' & -> & P).
    + cbn [push_local ids]. by rewrite length_insert.
    + cbn [push_local head tail]. rewrite u64_small; ulia.
    + cbn [push_local head tail]. rewrite u64_small; ulia.
    + cbn [push_local tail]. rewrite u64_small; ulia.
    + exists l'. split; [done|]. apply pushed_cons; [done..|lia|ulia|done].
  - rewrite ids_in_ne in * by done. cbn [app] in *. destruct (IH l) as (l' & -> & P); [done..|].
    by exists l'.
Qed.

Lemma fail_slot_retagged slots :
  home mask slots →
  retagged submitted local_error (slots ≫= ids_in submitted) slots (fail_slot <$> slots).
Proof.
  intros Hh.
  assert (∀ {A} (f g : TaskContextSlot → list A), (∀ c, f (fail_slot c) = g c) →
            (fail_slot <$> slots) ≫= f = slots ≫= g) as Hfmap.
  { intros A f g Hfg. clear Hh. induction slots as [|c l IH]; [done|].
    by rewrite fmap_cons, !bind_cons, Hfg, IH. }
  split.
  - apply length_fmap.
  - intros p c Hp Hf. rewrite list_lookup_fmap in Hp. destruct (slots !! p) as [c0|] eqn:E; [|done].
    injection Hp as <-. unfold fail_slot in *. case_decide as Es; apply (Hh p c0 E); [by rewrite Es|done].
  - rewrite (Hfmap _ _ live_of); [done|]. intros c. unfold fail_slot. case_decide as E; [|done].
    rewrite !live_of_eq; [done|by rewrite E|done].
  - rewrite (Hfmap _ _ (λ _, [])).
    + replace (slots ≫= (λ _, [])) with (@nil Z) by (clear; by induction slots). by rewrite app_nil_r.
    + intros c. unfold fail_slot. case_decide; [|by rewrite ids_in_ne]. by rewrite ids_in_ne.
  - rewrite (Hfmap _ _ (λ c, ids_in submitted c ++ ids_in local_error c)).
    + clear. induction slots as [|c l IH]; [done|]. rewrite !bind_cons, IH. solve_Permutation.
    + intros c. unfold fail_slot. case_decide as E.
      * rewrite ids_in_eq, ids_in_eq, ids_in_ne by (done || by rewrite E). done.
      * by rewrite (ids_in_ne submitted).
  - intros HF. apply Forall_fmap. eapply Forall_impl; [done|]. intros c Hc. cbn. unfold fail_slot.
    case_decide; [|done]. by intros _.
  - intros st H1 H2. rewrite (Hfmap _ _ (ids_in st)); [done|]. intros c. unfold fail_slot.
    case_decide as E; [|done]. rewrite !ids_in_ne; [done|congruence|]. cbn. congruence.
Qed.

(** A free slot takes a new task; a slot in use becomes free. *)
Record occupies (id : Z) (c : TaskContextSlot) (slots slots' : list TaskContextSlot) : Prop := {
  oc_length : length slots' = length slots;
  oc_home : home mask slots';
  oc_live : slots' ≫= live_of ≡ₚ (slot_parent c, slot_index c) :: (slots ≫= live_of);
  oc_in : slots' ≫= ids_in (slot_state c) ≡ₚ id :: (slots ≫= ids_in (slot_state c));
  oc_other : ∀ st, st ≠ free → st ≠ slot_state c → slots' ≫= ids_in st ≡ₚ slots ≫= ids_in st;
}.

Lemma set_context_occupies slots id c :
  Z.of_nat (length slots) = cap → home mask slots → slot_state (context_at mask slots id) = free →
  slot_task c = id → slot_state c ≠ free → occupies id c slots (set_context mask slots id c).
Proof.
  intros Hl Hh Hfree Hid Hs. pose proof (λ A f, @set_context_exchange A f slots id c Hl) as Hx. split.
  - apply length_insert.
  - by apply set_context_home.
  - specialize (Hx _ live_of). rewrite (live_of_eq c) in Hx by done. unfold live_of at 1 in Hx.
    by rewrite decide_True in Hx.
  - specialize (Hx _ (ids_in (slot_state c))).
    rewrite (ids_in_ne _ (context_at _ _ _)), (ids_in_eq _ c), Hid in Hx by congruence. done.
  - intros st H1 H2. specialize (Hx _ (ids_in st)). by rewrite !ids_in_ne in Hx by congruence.
Qed.

Lemma set_context_vacates slots id c :
  Z.of_nat (length slots) = cap → home mask slots → context_at mask slots id = c →
  slot_task c = id → slot_state c ≠ free → occupies id c (set_context mask slots id free_slot) slots.
Proof.
  intros Hl Hh <- Hid Hs. pose proof (λ A f, @set_context_exchange A f slots id free_slot Hl) as Hx. split.
  - symmetry. apply length_insert.
  - done.
  - specialize (Hx _ live_of). by rewrite live_of_eq in Hx.
  - specialize (Hx _ (ids_in (slot_state (context_at mask slots id)))).
    rewrite ids_in_eq, (ids_in_ne _ free_slot), Hid in Hx by (done || by apply not_eq_sym). done.
  - intros st H1 H2. specialize (Hx _ (ids_in st)).
    rewrite ids_in_ne, (ids_in_ne _ free_slot) in Hx by (by apply not_eq_sym). done.
Qed.

End Table.

(** * The invariant of the host *)

Lemma validate_config_sound c :
  validate_config c = 0 →
  0 <= Z.log2 (Z.of_nat (queue_capacity c)) ∧
  Z.of_nat (queue_capacity c) = 2 ^ Z.log2 (Z.of_nat (queue_capacity c)) ∧
  (kHostBatch <= queue_capacity c)%nat ∧ host_batch c = kHostBatch.
Proof.
  unfold validate_config, is_power_of_two.
  destruct (_ || _ || _ || _); [done|]. destruct (negb _ || _ || _ || _) eqn:E; [done|]. intros _.
  bool_hyps. split_and!; [apply Z.log2_nonneg| |done|done]. apply pow2_of_land; lia.
Qed.

(** The identities of the batch of tasks not yet published. *)
Definition batch_ids (b : Batch) : list Z := task_id <$> take (count b) (tasks b).

(** The tasks in the batch are the pending slots, the identities in the local ring are
    the slots to complete with an error, and the number of outstanding tasks is the
    number of slots in use. *)
Record table_inv (k : Z) (h : Host) (slots : list TaskContextSlot) : Prop := {
  ti_slots : contexts_ h = Some slots;
  ti_k : 0 <= k;
  ti_length : Z.of_nat (length slots) = 2 ^ k;
  ti_capacity : length slots = queue_capacity (config_ h);
  ti_mask : mask_ h = 2 ^ k - 1;
  ti_config : validate_config (config_ h) = 0;
  ti_home : home (2 ^ k - 1) slots;
  ti_pending : slots ≫= ids_in pending ≡ₚ batch_ids (batch_ h);
  ti_tasks : length (tasks (batch_ h)) = kHostBatch;
  ti_count : (count (batch_ h) <= kHostBatch)%nat;
  ti_ids : length (ids (local_ h)) = length slots;
  ti_counters : 0 <= head (local_ h) <= tail (local_ h);
  ti_local : slots ≫= ids_in local_error ≡ₚ window (2 ^ k - 1) (local_ h);
  ti_next : tail (local_ h) + Z.of_nat (length (slots ≫= ids_in pending))
              + Z.of_nat (length (slots ≫= ids_in submitted)) < next_task_ h;
  ti_next_bound : next_task_ h <= U64_MAX;
  ti_failed : Forall local_failed slots;
  ti_outstanding : outstanding_ h = length (slots ≫= live_of);
}.

(** A full batch is one whose publication is blocked: a further task never falls
    outside the array. *)
Definition has_room (h : Host) : Prop := count (batch_ h) = kHostBatch → blocked (batch_ h) = true.

Lemma table_slots k h slots : table_inv k h slots → slots_of h = slots ∧ initialized h = true.
Proof.
  intros I. unfold slots_of, initialized. rewrite (ti_slots _ _ _ I). split; [done|].
  by apply bool_decide_eq_true_2.
Qed.

Lemma table_counts k h slots :
  table_inv k h slots →
  Z.of_nat (length (batch_ids (batch_ h))) = Z.of_nat (count (batch_ h)) ∧
  length (slots ≫= ids_in pending) = count (batch_ h) ∧
  Z.of_nat (length (slots ≫= ids_in local_error)) = tail (local_ h) - head (local_ h) ∧
  Z.of_nat (count (batch_ h)) + Z.of_nat (length (slots ≫= ids_in submitted))
    + (tail (local_ h) - head (local_ h)) = Z.of_nat (outstanding_ h) ∧
  Z.of_nat (outstanding_ h) <= 2 ^ k.
Proof.
  intros I. pose proof (ti_counters _ _ _ I). destruct (length_live slots) as [Hlive Hle].
  assert (length (batch_ids (batch_ h)) = count (batch_ h)) as Hb.
  { unfold batch_ids. rewrite length_fmap, length_take, (ti_tasks _ _ _ I).
    pose proof (ti_count _ _ _ I). lia. }
  pose proof (Permutation_length (ti_pending _ _ _ I)) as Hp. rewrite Hb in Hp.
  pose proof (Permutation_length (ti_local _ _ _ I)) as Hl. unfold window in Hl.
  rewrite length_fmap, length_seqZ in Hl. pose proof (ti_outstanding _ _ _ I).
  pose proof (ti_length _ _ _ I). lia.
Qed.

Lemma initialize_inv c h' :
  initialize new_host c = (h', 0) →
  ∃ k slots, table_inv k h' slots ∧ has_room h' ∧ slots ≫= live_of = [] ∧ next_task_ h' = 1.
Proof.
  unfold initialize. destruct (_ || _ || _) eqn:E; [discriminate|]. intros [= <-]. bool_hyps.
  destruct (validate_config_sound c) as (Hk & Hp & Hb & _); [done|].
  set (n := queue_capacity c) in *.
  assert (∀ {A} (f : TaskContextSlot → list A), f free_slot = [] → replicate n free_slot ≫= f = []) as Hf.
  { intros A f Ef. clear -Ef. induction n as [|n IH]; [done|]. cbn [replicate]. by rewrite bind_cons, Ef. }
  assert (∀ {A} (a : A), Z.of_nat (length (replicate n a)) = 2 ^ Z.log2 (Z.of_nat n)) as Hl.
  { intros. by rewrite length_replicate. }
  exists (Z.log2 (Z.of_nat n)), (replicate n free_slot).
  split_and!; [|intros [=]|by apply Hf|done].
  split; cbn [config_ contexts_ batch_ local_ mask_ outstanding_ next_task_ new_host head tail ids]; try done.
  - by rewrite length_replicate.
  - fold n. lia.
  - intros p x Hx Hs. by apply lookup_replicate in Hx as [-> _].
  - rewrite (Hf _ (ids_in pending)); done.
  - vm_compute. lia.
  - rewrite !length_replicate. done.
  - by rewrite (Hf _ (ids_in local_error)).
  - by rewrite (Hf _ (ids_in pending)), (Hf _ (ids_in submitted)).
  - by apply Forall_replicate.
  - by rewrite (Hf _ live_of).
Qed.

Section Operations.
Context {Q V : Type} `{PersistentCopyQueue Q} `{GpuDirectVisibilityGate V}.
Implicit Types (s : HostWorld Q V) (h : Host).

(** What an operation that neither takes nor completes a copy does. *)
Record kept (k : Z) (h h' : Host) (slots : list TaskContextSlot) : Prop := {
  kp_slots : ∃ slots', table_inv k h' slots' ∧ slots' ≫= live_of ≡ₚ slots ≫= live_of;
  kp_next : next_task_ h' = next_task_ h;
  kp_config : config_ h' = config_ h;
}.

(** The invariant depends neither on the failure nor on the flags of the batch. *)
Lemma table_inv_flags k h h' slots :
  contexts_ h' = contexts_ h → config_ h' = config_ h → mask_ h' = mask_ h → local_ h' = local_ h →
  next_task_ h' = next_task_ h → outstanding_ h' = outstanding_ h →
  tasks (batch_ h') = tasks (batch_ h) → count (batch_ h') = count (batch_ h) →
  table_inv k h slots → table_inv k h' slots.
Proof.
  intros E1 E2 E3 E4 E5 E6 E7 E8 []. split; unfold batch_ids in *;
    rewrite ?E1, ?E2, ?E3, ?E4, ?E5, ?E6, ?E7, ?E8; done.
Qed.

Lemma kept_flags k h h' slots :
  contexts_ h' = contexts_ h → config_ h' = config_ h → mask_ h' = mask_ h → local_ h' = local_ h →
  next_task_ h' = next_task_ h → outstanding_ h' = outstanding_ h →
  tasks (batch_ h') = tasks (batch_ h) → count (batch_ h') = count (batch_ h) →
  table_inv k h slots → kept k h h' slots.
Proof.
  intros. split; [|done..]. exists slots. split; [|done]. by eapply (table_inv_flags _ h).
Qed.

(** The first tasks of the batch have been taken by the queue. *)
Lemma publish_prefix_inv k h slots slots' n b' :
  table_inv k h slots → (n <= count (batch_ h))%nat →
  retagged k pending submitted (task_id <$> take n (tasks (batch_ h))) slots slots' →
  length (tasks b') = kHostBatch → count b' = (count (batch_ h) - n)%nat →
  take (count b') (tasks b') = take (count b') (drop n (tasks (batch_ h))) →
  table_inv k (with_batch (with_slots h slots') b') slots'.
Proof.
  intros I Hn R Ht Hc Hm. pose proof (ti_next _ _ _ I) as Hnext.
  destruct (table_counts _ _ _ I) as (_ & Hcnt & _). pose proof (ti_count _ _ _ I).
  assert (slots' ≫= ids_in pending ≡ₚ batch_ids b') as Hp.
  { pose proof (rt_from _ _ _ _ _ _ R) as F. rewrite (ti_pending _ _ _ I) in F. unfold batch_ids in *.
    rewrite Hm, Hc. symmetry. eapply Permutation_app_inv_l. rewrite <- F, <- fmap_app.
    f_equiv. rewrite take_take_drop. by replace (n + (_ - n))%nat with (count (batch_ h)) by lia. }
  pose proof (Permutation_length (rt_from _ _ _ _ _ _ R)) as L1. rewrite length_app in L1.
  pose proof (Permutation_length (rt_to _ _ _ _ _ _ R)) as L2. rewrite length_app in L2.
  destruct I. split; cbn [with_batch with_slots contexts_ config_ mask_ local_ batch_ next_task_ outstanding_];
    try done.
  - by rewrite (rt_length _ _ _ _ _ _ R).
  - by rewrite (rt_length _ _ _ _ _ _ R).
  - apply (rt_home _ _ _ _ _ _ R).
  - lia.
  - by rewrite (rt_length _ _ _ _ _ _ R).
  - by rewrite (rt_other _ _ _ _ _ _ R).
  - lia.
  - by apply (rt_failed _ _ _ _ _ _ R).
  - by rewrite (rt_live _ _ _ _ _ _ R).
Qed.

(** ** Publishing *)

Record publishes (k : Z) (h h' : Host) (slots : list TaskContextSlot) (e : Z) : Prop := {
  pb_kept : kept k h h' slots;
  pb_room : e = 0 → has_room h';
  pb_failure : e = 0 ↔ failure_ h' = no_failure;
}.

Lemma submit_pending_inv k s s' slots e :
  table_inv k (host s) slots → failure_ (host s) = no_failure → (0 < count (batch_ (host s)))%nat →
  submit_pending s = (s', e) → publishes k (host s) (host s') slots e.
Proof.
  intros I Hf Hc. destruct (table_slots _ _ _ I) as [Hs _]. unfold submit_pending.
  destruct (queue_submit _ _) as [[q status] n].
  destruct (status =? EAGAIN) eqn:Ea.
  { intros [= <- <-]. by split; [apply kept_flags|..]. }
  destruct (negb (status =? 0)) eqn:Es.
  { intros [= <- <-]. bool_hyps. by split; [apply kept_flags|..]. }
  destruct ((n =? 0)%nat || (count (batch_ (host s)) <? n)%nat) eqn:En.
  { intros [= <- <-]. by split; [apply kept_flags|..]. }
  bool_hyps. rewrite Hs, (ti_mask _ _ _ I).
  destruct (mark_submitted_spec k (ti_k _ _ _ I) (take n (tasks (batch_ (host s)))) slots
    (task_id <$> take (count (batch_ (host s)) - n) (drop n (tasks (batch_ (host s))))))
    as (slots' & -> & R).
  { apply I. } { apply I. }
  { rewrite (ti_pending _ _ _ I). unfold batch_ids. rewrite <- fmap_app, take_take_drop.
    by replace (n + (_ - n))%nat with (count (batch_ (host s))) by lia. }
  cbn [negb]. intros [= <- <-]. pose proof (ti_tasks _ _ _ I). pose proof (ti_count _ _ _ I).
  split; [split; [|done..]| |done].
  - exists slots'. split; [|apply (rt_live _ _ _ _ _ _ R)].
    eapply publish_prefix_inv; [done|done|done|..]; cbn [with_host host with_batch batch_];
      destruct (_ - n =? 0)%nat eqn:Er; bool_hyps; cbn [tasks count]; rewrite ?length_app, ?length_take, ?length_drop; try lia.
    + done.
    + rewrite take_app_le; [|rewrite length_take, length_drop; lia]. rewrite take_take. f_equal. lia.
  - intros _. unfold has_room. cbn. destruct (_ - n =? 0)%nat; [intros [=]|done].
Qed.

Lemma publish_pending_inv k s s' slots e :
  table_inv k (host s) slots → (0 < count (batch_ (host s)))%nat →
  publish_pending s = (s', e) → publishes k (host s) (host s') slots e.
Proof.
  intros I Hc. unfold publish_pending.
  assert (∀ b, tasks b = tasks (batch_ (host s)) → count b = count (batch_ (host s)) →
    ∀ v, submit_pending (mkHostWorld (with_batch (with_failure (host s) no_failure) b) (queue s) v)
           = (s', e) → publishes k (host s) (host s') slots e) as Hsub.
  { intros b Eb1 Eb2 v E.
    eapply submit_pending_inv in E as [[]]; [|by apply (table_inv_flags k (host s))|done|cbn; lia]. by split. }
  destruct (flushed _) eqn:Efl.
  { intros E. by apply (Hsub (batch_ (host s)) eq_refl eq_refl (gate s)). }
  destruct (gate_flush (gate s)) as [v status]. destruct (negb (status =? 0)) eqn:Es.
  - intros [= <- <-]. bool_hyps. by split; [apply kept_flags|..].
  - intros E. by eapply Hsub in E.
Qed.

(** Publishing from [progress_host_batch] and [publish_pending_now]: when nothing is
    published, nothing changes. *)
Definition progresses (k : Z) (h h' : Host) (slots : list TaskContextSlot) (e : Z) : Prop :=
  h' = h ∧ e = 0 ∨ publishes k h h' slots e.

Lemma progress_host_batch_inv k s s' slots now e :
  table_inv k (host s) slots → progress_host_batch s now = (s', e) →
  progresses k (host s) (host s') slots e.
Proof.
  intros I. unfold progress_host_batch. rewrite (proj2 (table_slots _ _ _ I)). cbn [negb].
  destruct (count _ =? 0)%nat eqn:Ec; [intros [= <- <-]; by left|].
  destruct (negb _ && _ && _); [intros [= <- <-]; by left|].
  intros E. right. bool_hyps. eapply publish_pending_inv; [done|lia|done].
Qed.

Lemma publish_pending_now_inv k s s' slots e :
  table_inv k (host s) slots → publish_pending_now s = (s', e) →
  progresses k (host s) (host s') slots e.
Proof.
  intros I. unfold publish_pending_now. rewrite (proj2 (table_slots _ _ _ I)). cbn [negb].
  destruct (count _ =? 0)%nat eqn:Ec; [intros [= <- <-]; by left|].
  intros E. right. bool_hyps. eapply publish_pending_inv; [done|lia|done].
Qed.

(** ** Taking copies *)

Definition copy_of (r : BackendRequest) : Z * Z := (br_parent r, br_index r).

(** What taking a copy does. *)
Record takes (k : Z) (h h' : Host) (slots : list TaskContextSlot) (r : BackendRequest) : Prop := {
  tk_slots : ∃ slots', table_inv k h' slots' ∧ slots' ≫= live_of ≡ₚ copy_of r :: (slots ≫= live_of);
  tk_next : next_task_ h' = next_task_ h + 1;
  tk_config : config_ h' = config_ h;
}.

Lemma occupies_failed k id c slots slots' :
  slots' = set_context (2 ^ k - 1) slots id c → local_failed c → Forall local_failed slots →
  Forall local_failed slots'.
Proof. intros -> Hc Hs. by apply Forall_insert. Qed.

Lemma table_occupies k h slots id c :
  table_inv k h slots → slot_state (context_at (2 ^ k - 1) slots id) = free →
  slot_task c = id → slot_state c ≠ free →
  occupies k id c slots (set_context (2 ^ k - 1) slots id c).
Proof. intros I ?. apply set_context_occupies; [apply I..|done]. Qed.

Lemma add_pending_inv k h slots r b' task :
  table_inv k h slots → slot_state (context_at (2 ^ k - 1) slots (next_task_ h)) = free →
  next_task_ h < U64_MAX → (count (batch_ h) < kHostBatch)%nat → task_id task = next_task_ h →
  tasks b' = <[count (batch_ h) := task]> (tasks (batch_ h)) → count b' = S (count (batch_ h)) →
  takes k h (with_next (with_outstanding (with_batch (with_slots h
      (set_context (mask_ h) (slots_of h) (next_task_ h)
        (mkContext (next_task_ h) (br_parent r) (br_index r) pending success))) b')
      (S (outstanding_ h))) (u64 (next_task_ h + 1))) slots r.
Proof.
  intros I Hfree Hn Hc Ht Hb1 Hb2. destruct (table_slots _ _ _ I) as [Hs _].
  set (c := mkContext _ _ _ _ _).
  pose proof (table_occupies _ _ _ _ c I Hfree eq_refl ltac:(done)) as O.
  pose proof (occupies_failed k (next_task_ h) c slots _ eq_refl ltac:(done) (ti_failed _ _ _ I)) as Fl.
  destruct (table_counts _ _ _ I) as (_ & Hp & _).
  rewrite Hs, (ti_mask _ _ _ I). set (slots' := set_context _ _ _ _) in *.
  pose proof (Permutation_length (oc_in _ _ _ _ _ O)) as L1. cbn [length slot_state c] in L1.
  pose proof (Permutation_length (oc_other _ _ _ _ _ O submitted ltac:(done) ltac:(done))) as L2.
  pose proof (Permutation_length (oc_live _ _ _ _ _ O)) as L3. cbn [length] in L3.
  destruct I. rewrite u64_small by ulia. split; [exists slots'; split; [|apply (oc_live _ _ _ _ _ O)]|done..].
  split; cbn [with_next with_outstanding with_batch with_slots contexts_ config_ mask_ local_ batch_
              next_task_ outstanding_]; try done; rewrite ?(oc_length _ _ _ _ _ O); try done.
  - apply (oc_home _ _ _ _ _ O).
  - change pending with (slot_state c). rewrite (oc_in _ _ _ _ _ O). cbn [slot_state c].
    rewrite ti_pending0. unfold batch_ids. rewrite Hb1, Hb2.
    erewrite take_S_r by (apply list_lookup_insert_eq; lia).
    rewrite take_insert_ge by lia. rewrite fmap_app. cbn. rewrite Ht. apply Permutation_cons_append.
  - by rewrite Hb1, length_insert.
  - lia.
  - by rewrite (oc_other _ _ _ _ _ O).
  - lia.
  - ulia.
  - lia.
Qed.

Lemma make_copy_task_id c r id task : make_copy_task c r id = Ok task → task_id task = id.
Proof.
  unfold make_copy_task. destruct (_ || _ || _ || _); [done|].
  destruct (_ || _ || _ || _); [done|]. by intros [= <-].
Qed.

Lemma host_submit_inv k s s' slots r now e accepted :
  table_inv k (host s) slots → has_room (host s) →
  next_task_ (host s) < U64_MAX → host_submit s r now = (s', e, accepted) →
  if accepted then takes k (host s) (host s') slots r ∧ (e = 0 → has_room (host s'))
  else host s' = host s.
Proof.
  intros I Hroom Hn. destruct (table_slots _ _ _ I) as [Hs Hi]. unfold host_submit. rewrite Hi.
  cbn [negb]. destruct (_ || _) eqn:Eb; [by intros [= <- <- <-]|].
  destruct (negb (bool_decide _)) eqn:Efree; [by intros [= <- <- <-]|].
  destruct (make_copy_task _ _ _) as [task|e'] eqn:Et; [|by intros [= <- <- <-]].
  apply make_copy_task_id in Et. bool_hyps. rewrite Hs, (ti_mask _ _ _ I) in Efree.
  set (b1 := if (count (batch_ (host s)) =? 0)%nat then _ else _).
  assert (tasks b1 = tasks (batch_ (host s)) ∧ count b1 = count (batch_ (host s)) ∧
          blocked b1 = blocked (batch_ (host s))) as (Eb1 & Eb2 & Eb3) by (unfold b1; by case_match).
  assert (count (batch_ (host s)) < kHostBatch)%nat as Hlt.
  { pose proof (ti_count _ _ _ I).
    destruct (decide (count (batch_ (host s)) = kHostBatch)) as [E|]; [exfalso|lia].
    rewrite (Hroom E), E in *. done. }
  set (b2 := mkBatch _ _ _ _ _).
  pose proof (add_pending_inv k (host s) slots r b2 task I Efree Hn Hlt Et) as T.
  specialize (T ltac:(cbn; by rewrite Eb1, Eb2) ltac:(cbn; by rewrite Eb2)).
  match type of T with takes _ _ ?h _ _ => set (h1 := h) in * end.
  destruct (validate_config_sound _ (ti_config _ _ _ I)) as (_ & _ & _ & Hhb).
  change (config_ h1) with (config_ (host s)). rewrite Hhb.
  destruct (count b2 =? kHostBatch)%nat eqn:Efull.
  - destruct (publish_pending (with_host s h1)) as [s1 e1] eqn:Ep. intros [= <- <- <-].
    destruct (tk_slots _ _ _ _ _ T) as (slots1 & I1 & L1).
    destruct (publish_pending_inv k (with_host s h1) _ slots1 _ I1 ltac:(cbn; lia) Ep) as [[(slots2 & I2 & L2) K2 K3] Hr Hfl].
    split; [split|done].
    + exists slots2. split; [done|]. by rewrite L2.
    + rewrite K2. apply T.
    + rewrite K3. apply T.
  - intros [= <- <- <-]. bool_hyps. split; [done|by intros _ ?].
Qed.

Lemma complete_locally_inv k h h' slots r e accepted :
  table_inv k h slots → next_task_ h < U64_MAX → complete_locally h r backend_error = (h', e, accepted) →
  batch_ h' = batch_ h ∧ (e = 0 → failure_ h' = failure_ h) ∧
  if accepted then takes k h h' slots r ∧ e = 0
  else h' = (if e =? 0 then h else with_failure h queue_failure).
Proof.
  intros I Hn. destruct (table_slots _ _ _ I) as [Hs Hi]. unfold complete_locally. rewrite Hi. cbn [negb].
  destruct (_ <=? _)%nat eqn:Eo; [by intros [= <- <- <-]|].
  destruct (negb (bool_decide _)) eqn:Efree; [by intros [= <- <- <-]|].
  bool_hyps. rewrite Hs, (ti_mask _ _ _ I) in *. intros [= <- <- <-]. split; [done|split; [done|]].
  set (c := mkContext _ _ _ _ _) in *.
  pose proof (table_occupies _ _ _ _ c I Efree eq_refl ltac:(done)) as O.
  pose proof (occupies_failed k (next_task_ h) c slots _ eq_refl ltac:(done) (ti_failed _ _ _ I)) as Fl.
  destruct (table_counts _ _ _ I) as (_ & Hp & Hl & Hsum & Hcap).
  pose proof (ti_length _ _ _ I). pose proof (ti_capacity _ _ _ I). pose proof (ti_next _ _ _ I).
  pose proof (ti_ids _ _ _ I). pose proof (ti_counters _ _ _ I).
  set (slots' := set_context _ _ _ _) in *.
  pose proof (Permutation_length (oc_other _ _ _ _ _ O pending ltac:(done) ltac:(done))) as L1.
  pose proof (Permutation_length (oc_other _ _ _ _ _ O submitted ltac:(done) ltac:(done))) as L2.
  pose proof (Permutation_length (oc_live _ _ _ _ _ O)) as L3. cbn [length] in L3.
  pose proof (window_push k (ti_k _ _ _ I) (local_ h) (next_task_ h)) as W.
  destruct I. rewrite u64_small by ulia. split; [split; [exists slots'; split; [|apply (oc_live _ _ _ _ _ O)]|done..]|done].
  assert (is_u64 (tail (local_ h) + 1)) by ulia.
  split; cbn [with_next with_outstanding with_local with_slots contexts_ config_ mask_ local_ batch_
              next_task_ outstanding_ push_local ids head tail]; try done;
    rewrite ?(oc_length _ _ _ _ _ O), ?u64_small by done; try done; try lia.
  - apply (oc_home _ _ _ _ _ O).
  - by rewrite (oc_other _ _ _ _ _ O).
  - by rewrite length_insert.
  - rewrite W by ulia. change local_error with (slot_state c). rewrite (oc_in _ _ _ _ _ O).
    cbn [slot_state c]. rewrite ti_local0. apply Permutation_cons_append.
Qed.

(** ** Completions *)

Definition copy_done (c : BackendCompletion) : Z * Z := (bc_parent c, bc_index c).

(** What giving back a completion does. *)
Record gives (k : Z) (h h' : Host) (slots : list TaskContextSlot) (c : BackendCompletion) : Prop := {
  gv_slots : ∃ slots', table_inv k h' slots' ∧ slots ≫= live_of ≡ₚ copy_done c :: (slots' ≫= live_of);
  gv_next : next_task_ h' = next_task_ h;
  gv_config : config_ h' = config_ h;
}.

Lemma free_local_inv k h slots :
  table_inv k h slots → head (local_ h) < tail (local_ h) →
  let id := local_id (2 ^ k - 1) (local_ h) (head (local_ h)) in
  let c := context_at (2 ^ k - 1) slots id in
  slot_state c = local_error ∧ slot_task c = id ∧ outstanding_ h ≠ 0%nat ∧
  slot_result c = backend_error ∧
  gives k h (with_local (free_context h id)
    (mkLocal (ids (local_ h)) (u64 (head (local_ h) + 1)) (tail (local_ h)))) slots
    (mkBackendCompletion (slot_parent c) (slot_index c) (slot_result c)).
Proof.
  intros I Hht id c. pose proof (window_pop k (local_ h) Hht) as W. fold id in W.
  destruct (table_counts _ _ _ I) as (_ & Hp & Hl & Hsum & Hcap).
  destruct (ids_in_context k slots local_error id) as [Es Et]; [apply I|done|rewrite (ti_local _ _ _ I), W; set_solver|].
  fold c in Es, Et. pose proof (ti_next _ _ _ I). pose proof (ti_next_bound _ _ _ I). pose proof (ti_counters _ _ _ I).
  assert (slot_result c = backend_error) as Er.
  { pose proof (ti_failed _ _ _ I) as F. rewrite Forall_forall in F. apply F; [|done].
    eapply list_elem_of_lookup_2, (lookup_context k (ti_k _ _ _ I)), I. }
  split_and!; [done|done|lia|done|].
  pose proof (set_context_vacates k (ti_k _ _ _ I) slots id c (ti_length _ _ _ I) (ti_home _ _ _ I) eq_refl Et
    ltac:(by rewrite Es)) as O.
  destruct (table_slots _ _ _ I) as [Hs _].
  unfold free_context. rewrite Hs, (ti_mask _ _ _ I), u64_small by ulia.
  assert (home (2 ^ k - 1) (set_context (2 ^ k - 1) slots id free_slot)) as Hh.
  { apply set_context_home; [apply I..|done]. }
  assert (Forall local_failed (set_context (2 ^ k - 1) slots id free_slot)) as Fl.
  { by apply Forall_insert; [apply I|]. }
  set (slots' := set_context _ _ _ _) in *.
  pose proof (Permutation_length (oc_other _ _ _ _ _ O pending ltac:(done) ltac:(by rewrite Es))) as L1.
  pose proof (Permutation_length (oc_other _ _ _ _ _ O submitted ltac:(done) ltac:(by rewrite Es))) as L2.
  pose proof (Permutation_length (oc_live _ _ _ _ _ O)) as L3. cbn [length] in L3.
  pose proof (oc_length _ _ _ _ _ O).
  destruct I. split; [exists slots'; split; [|apply (oc_live _ _ _ _ _ O)]|done..].
  split; cbn [with_outstanding with_local with_slots contexts_ config_ mask_ local_ batch_
              next_task_ outstanding_ ids head tail]; try done; try lia.
  - by rewrite <- (oc_other _ _ _ _ _ O) by (done || by rewrite Es).
  - pose proof (oc_in _ _ _ _ _ O) as X. rewrite Es, ti_local0, W in X.
    symmetry. exact (Permutation_cons_inv X).
Qed.

Lemma free_submitted_inv k h slots cc res :
  table_inv k h slots →
  let c := context_at (2 ^ k - 1) slots (completed_id cc) in
  slot_state c = submitted → slot_task c = completed_id cc →
  gives k h (free_context h (completed_id cc)) slots (mkBackendCompletion (slot_parent c) (slot_index c) res).
Proof.
  intros I c Es Et. set (id := completed_id cc) in *.
  pose proof (set_context_vacates k (ti_k _ _ _ I) slots id c (ti_length _ _ _ I) (ti_home _ _ _ I) eq_refl Et
    ltac:(by rewrite Es)) as O.
  destruct (table_slots _ _ _ I) as [Hs _]. unfold free_context. rewrite Hs, (ti_mask _ _ _ I).
  assert (home (2 ^ k - 1) (set_context (2 ^ k - 1) slots id free_slot)) as Hh.
  { apply set_context_home; [apply I..|done]. }
  assert (Forall local_failed (set_context (2 ^ k - 1) slots id free_slot)) as Fl.
  { by apply Forall_insert; [apply I|]. }
  set (slots' := set_context _ _ _ _) in *.
  pose proof (Permutation_length (oc_other _ _ _ _ _ O pending ltac:(done) ltac:(by rewrite Es))) as L1.
  pose proof (Permutation_length (oc_in _ _ _ _ _ O)) as L2. rewrite Es in L2. cbn [length] in L2.
  pose proof (Permutation_length (oc_live _ _ _ _ _ O)) as L3. cbn [length] in L3.
  pose proof (oc_length _ _ _ _ _ O).
  destruct I. split; [exists slots'; split; [|apply (oc_live _ _ _ _ _ O)]|done..].
  split; cbn [with_outstanding with_slots contexts_ config_ mask_ local_ batch_
              next_task_ outstanding_]; try done; try lia.
  - by rewrite <- (oc_other _ _ _ _ _ O) by (done || by rewrite Es).
  - by rewrite <- (oc_other _ _ _ _ _ O) by (done || by rewrite Es).
Qed.

Lemma kept_gives k h h1 h' slots c :
  kept k h h1 slots → (∀ slots1, table_inv k h1 slots1 → gives k h1 h' slots1 c) → gives k h h' slots c.
Proof.
  intros [(slots1 & I1 & L1) N1 C1] G. destruct (G slots1 I1) as [(slots2 & I2 & L2) N2 C2].
  split; [|congruence..]. exists slots2. split; [done|]. by rewrite <- L1.
Qed.

Lemma kept_trans k h h1 h' slots :
  kept k h h1 slots → (∀ slots1, table_inv k h1 slots1 → kept k h1 h' slots1) → kept k h h' slots.
Proof.
  intros [(slots1 & I1 & L1) N1 C1] G. destruct (G slots1 I1) as [(slots2 & I2 & L2) N2 C2].
  split; [|congruence..]. exists slots2. split; [done|]. by rewrite L2.
Qed.

Lemma kept_refl k h slots : table_inv k h slots → kept k h h slots.
Proof. by apply kept_flags. Qed.

Lemma host_pop_inv k s s' slots now e o :
  table_inv k (host s) slots → has_room (host s) → host_pop s now = (s', e, o) →
  (e = 0 → has_room (host s')) ∧
  (count (batch_ (host s)) = 0%nat → batch_ (host s') = batch_ (host s)) ∧
  match o with
  | Some c => e = 0 ∧ gives k (host s) (host s') slots c
  | None => kept k (host s) (host s') slots
  end.
Proof.
  intros I Hroom. unfold host_pop. rewrite (proj2 (table_slots _ _ _ I)). cbn [negb].
  destruct (progress_host_batch s now) as [s1 e1] eqn:Ep.
  assert (kept k (host s) (host s1) slots ∧ (e1 = 0 → has_room (host s1))) as [K R].
  { apply (progress_host_batch_inv k s s1 slots now e1 I) in Ep as [[-> ->]|[]]; [|done].
    split; [by apply kept_refl|done]. }
  assert (count (batch_ (host s)) = 0%nat → host s1 = host s) as Hb.
  { intros E0. unfold progress_host_batch in Ep.
    rewrite (proj2 (table_slots _ _ _ I)), E0 in Ep. cbn in Ep. by injection Ep as <- _. }
  destruct (negb (e1 =? 0)) eqn:E1.
  { intros [= <- <- <-]. split_and!; [done|intros E0; by rewrite Hb|done]. }
  bool_hyps. subst e1. specialize (R eq_refl). clear Ep.
  assert (count (batch_ (host s)) = 0%nat → batch_ (host s1) = batch_ (host s)) as Hb1.
  { intros E0. by rewrite Hb. }
  destruct (kp_slots _ _ _ _ K) as (slots1 & I1 & L1).
  destruct (table_slots _ _ _ I1) as [Hs1 Hi1]. rewrite Hs1, (ti_mask _ _ _ I1).
  destruct (head _ <? tail _) eqn:Eht; bool_hyps.
  - destruct (free_local_inv k (host s1) slots1 I1 Eht) as (X1 & X2 & X3 & X4 & X5).
    fold (local_id (2 ^ k - 1) (local_ (host s1)) (head (local_ (host s1)))).
    rewrite X1, X2, bool_decide_eq_true_2, Z.eqb_refl, (proj2 (Nat.eqb_neq _ _) X3) by done.
    cbn [negb orb]. intros [= <- <- <-]. split_and!; [done|done|done|].
    eapply kept_gives; [done|]. intros slots2 I2.
    assert (slots2 = slots1) as -> by (destruct I1, I2; congruence). done.
  - destruct (queue_poll (queue s1)) as [[q status] cc].
    destruct (status =? EAGAIN); [by intros [= <- <- <-]|].
    destruct (negb (status =? 0)) eqn:Est; bool_hyps.
    { intros [= <- <- <-]. split_and!; [done|done|]. eapply kept_trans; [done|].
      intros. by apply kept_flags. }
    destruct (_ || _ || _) eqn:Ec.
    { intros [= <- <- <-]. split_and!; [done|done|]. eapply kept_trans; [done|].
      intros. by apply kept_flags. }
    bool_hyps. intros [= <- <- <-]. split_and!; [done|done|done|].
    eapply kept_gives; [done|]. intros slots2 I2.
    assert (slots2 = slots1) as -> by (destruct I1, I2; congruence). by apply free_submitted_inv.
Qed.

(** With nothing to publish, a task waiting in the local ring is given back. *)
Lemma host_pop_local k s slots now :
  table_inv k (host s) slots → count (batch_ (host s)) = 0%nat →
  head (local_ (host s)) < tail (local_ (host s)) →
  ∃ s' c, host_pop s now = (s', 0, Some c) ∧ bc_result c = backend_error ∧
    batch_ (host s') = batch_ (host s) ∧ head (local_ (host s')) = head (local_ (host s)) + 1 ∧
    tail (local_ (host s')) = tail (local_ (host s)).
Proof.
  intros I Hc Hlt. destruct (free_local_inv k _ _ I Hlt) as (X1 & X2 & X3 & X4 & X5).
  pose proof (ti_next _ _ _ I). pose proof (ti_next_bound _ _ _ I). pose proof (ti_counters _ _ _ I).
  destruct (table_slots _ _ _ I) as [Hs Hi].
  assert (progress_host_batch s now = (s, 0)) as Ep by (unfold progress_host_batch; by rewrite Hi, Hc).
  unfold host_pop. rewrite Hi, Ep. cbn [negb Z.eqb]. rewrite (proj2 (Z.ltb_lt _ _) Hlt), Hs, (ti_mask _ _ _ I).
  fold (local_id (2 ^ k - 1) (local_ (host s)) (head (local_ (host s)))).
  rewrite X1, X2, bool_decide_eq_true_2, Z.eqb_refl, (proj2 (Nat.eqb_neq _ _) X3) by done.
  cbn [negb orb Z.eqb]. eexists _, _. split_and!; [reflexivity|exact X4|done| |done].
  cbn. apply u64_small. ulia.
Qed.

(** A completion is a success only when the device completed the task with success. *)
Lemma host_pop_success k s s' slots now e c :
  table_inv k (host s) slots → host_pop s now = (s', e, Some c) → bc_result c = success →
  let s1 := (progress_host_batch s now).1 in
  ∃ q cc, queue_poll (queue s1) = (q, 0, cc) ∧ completed_result cc = task_success ∧
    let x := context_at (mask_ (host s1)) (slots_of (host s1)) (completed_id cc) in
    slot_state x = submitted ∧ slot_task x = completed_id cc ∧ copy_done c = (slot_parent x, slot_index x).
Proof.
  intros I. unfold host_pop. rewrite (proj2 (table_slots _ _ _ I)). cbn [negb].
  destruct (progress_host_batch s now) as [s1 e1] eqn:Ep. cbn zeta. cbn [fst].
  assert (∃ slots1, table_inv k (host s1) slots1) as (slots1 & I1).
  { apply (progress_host_batch_inv k s s1 slots now e1 I) in Ep as [[-> _]|[[(slots1 & ? & _) _ _] _ _]];
      [by exists slots|by exists slots1]. }
  destruct (negb (e1 =? 0)); [discriminate|].
  destruct (table_slots _ _ _ I1) as [Hs1 Hi1]. rewrite Hs1, (ti_mask _ _ _ I1).
  destruct (head _ <? tail _) eqn:Eht; bool_hyps.
  - destruct (free_local_inv k (host s1) slots1 I1 Eht) as (X1 & X2 & X3 & X4 & X5).
    fold (local_id (2 ^ k - 1) (local_ (host s1)) (head (local_ (host s1)))).
    rewrite X4. destruct (_ || _ || _); [discriminate|]. intros [= _ _ <-] E. discriminate E.
  - destruct (queue_poll (queue s1)) as [[q status] cc].
    destruct (status =? EAGAIN); [discriminate|]. destruct (negb (status =? 0)) eqn:Es; [discriminate|].
    destruct (_ || _ || _) eqn:Ec; [discriminate|]. bool_hyps. intros [= _ _ <-]. cbn.
    case_decide as Er; [|discriminate]. intros _. subst. exists q, cc. by split_and!.
Qed.

(** ** Failing tasks *)

(** Tasks moved to the local ring, and the batch emptied when they were its tasks. *)
Lemma fail_moved_inv k h h' slots slots' moved from :
  table_inv k h slots → retagged k from local_error moved slots slots' → pushed k moved (local_ h) (local_ h') →
  from = pending ∧ count (batch_ h') = 0%nat ∧ moved = batch_ids (batch_ h) ∨
    from = submitted ∧ count (batch_ h') = count (batch_ h) →
  contexts_ h' = Some slots' → config_ h' = config_ h → mask_ h' = mask_ h →
  next_task_ h' = next_task_ h → outstanding_ h' = outstanding_ h →
  tasks (batch_ h') = tasks (batch_ h) → kept k h h' slots.
Proof.
  intros I R P Hfrom E1 E2 E3 E5 E6 E7. pose proof (ti_next _ _ _ I). pose proof (ti_counters _ _ _ I).
  pose proof (ti_count _ _ _ I). pose proof (ps_head _ _ _ _ P). pose proof (ps_tail _ _ _ _ P).
  pose proof (Permutation_length (rt_from _ _ _ _ _ _ R)) as L1. rewrite length_app in L1.
  split; [|done..]. exists slots'. split; [|apply (rt_live _ _ _ _ _ _ R)].
  assert (slots' ≫= ids_in pending ≡ₚ batch_ids (batch_ h') ∧
    (length (slots' ≫= ids_in pending) + length (slots' ≫= ids_in submitted) + length moved
     = length (slots ≫= ids_in pending) + length (slots ≫= ids_in submitted))%nat) as [Hp Hl].
  { destruct Hfrom as [(-> & Hc & Hm)|(-> & Hc)].
    - pose proof (rt_from _ _ _ _ _ _ R) as F. rewrite (ti_pending _ _ _ I), Hm in F.
      rewrite <- (app_nil_r (batch_ids (batch_ h))) in F at 1. apply Permutation_app_inv_l in F.
      pose proof (rt_other _ _ _ _ _ _ R submitted ltac:(done) ltac:(done)) as L2%Permutation_length.
      rewrite <- F. unfold batch_ids at 1. rewrite Hc. split; [done|]. apply Permutation_length in F. lia.
    - pose proof (rt_other _ _ _ _ _ _ R pending ltac:(done) ltac:(done)) as F.
      unfold batch_ids. rewrite Hc, E7. rewrite F. split; [apply I|lia]. }
  destruct I. split; rewrite ?E1, ?E2, ?E3, ?E5, ?E6, ?E7, ?(rt_length _ _ _ _ _ _ R); try done.
  - apply (rt_home _ _ _ _ _ _ R).
  - destruct Hfrom as [(_ & -> & _)|(_ & ->)]; [lia|done].
  - by rewrite (ps_length _ _ _ _ P).
  - lia.
  - rewrite (rt_to _ _ _ _ _ _ R), (ps_window _ _ _ _ P), ti_local0. apply Permutation_app_comm.
  - lia.
  - by apply (rt_failed _ _ _ _ _ _ R).
  - by rewrite (rt_live _ _ _ _ _ _ R).
Qed.

Lemma fail_pending_inv k h slots :
  table_inv k h slots →
  ∃ h', fail_pending h backend_error = (h', 0) ∧ kept k h h' slots ∧ count (batch_ h') = 0%nat ∧
    failure_ h' = no_failure ∧ head (local_ h) + Z.of_nat (count (batch_ h)) <= tail (local_ h') ∧
    head (local_ h') = head (local_ h).
Proof.
  intros I. destruct (table_slots _ _ _ I) as [Hs Hi]. unfold fail_pending. rewrite Hi, Hs. cbn [negb].
  destruct (table_counts _ _ _ I) as (Hb & Hp & Hl & Hsum & Hcap). pose proof (ti_next _ _ _ I).
  pose proof (ti_length _ _ _ I). pose proof (ti_ids _ _ _ I). pose proof (ti_next_bound _ _ _ I).
  assert (Z.of_nat (length (take (count (batch_ h)) (tasks (batch_ h)))) = Z.of_nat (count (batch_ h))) as Hlt.
  { unfold batch_ids in Hb. by rewrite length_fmap in Hb. }
  destruct (fail_tasks_spec k (ti_k _ _ _ I) (take (count (batch_ h)) (tasks (batch_ h))) slots (local_ h) [])
    as (slots' & l' & E & R & P); [apply I|apply I|lia|apply I|lia|lia| |].
  { rewrite app_nil_r. apply I. }
  rewrite (ti_mask _ _ _ I), E. cbn [negb]. eexists. split_and!; [done| |done|done| |apply (ps_head _ _ _ _ P)].
  - eapply (fail_moved_inv k h _ slots slots'); [done|done|done|by left|done..].
  - pose proof (ps_tail _ _ _ _ P) as Ht. rewrite length_fmap in Ht. cbn. lia.
Qed.

Lemma fail_all_inv k h slots :
  table_inv k h slots →
  ∃ h', fail_all h backend_error = (h', 0) ∧ kept k h h' slots ∧ count (batch_ h') = 0%nat ∧
    failure_ h' = no_failure ∧ Z.of_nat (outstanding_ h') = tail (local_ h') - head (local_ h').
Proof.
  intros I. unfold fail_all. destruct (fail_pending_inv k h slots I) as (h1 & -> & K1 & C1 & F1 & _).
  cbn [negb Z.eqb]. destruct (kp_slots _ _ _ _ K1) as (slots1 & I1 & L1).
  destruct (table_slots _ _ _ I1) as [Hs Hi]. rewrite Hs, (ti_mask _ _ _ I1).
  destruct (table_counts _ _ _ I1) as (Hb & Hp & Hl & Hsum & Hcap). pose proof (ti_next _ _ _ I1).
  pose proof (ti_length _ _ _ I1). pose proof (ti_ids _ _ _ I1). pose proof (ti_next_bound _ _ _ I1).
  destruct (fail_submitted_spec k (ti_k _ _ _ I1) slots1 (local_ h1)) as (l' & E & P); [lia|apply I1|lia|lia|].
  pose proof (fail_slot_retagged k slots1 (ti_home _ _ _ I1)) as R. rewrite E.
  eexists. split_and!; [done| |done|done|].
  - eapply kept_trans; [done|]. intros slots2 I2.
    assert (slots2 = slots1) as -> by (destruct I1, I2; congruence).
    eapply (fail_moved_inv k h1 _ slots1); [done|done|done|by right|done..].
  - cbn [with_failure with_local with_slots outstanding_ local_].
    rewrite (ps_tail _ _ _ _ P), (ps_head _ _ _ _ P). lia.
Qed.
End Operations.

End CopyTable.
