(* ===== verification/GpuBackend.v ===== *)
(** The GPU copy backend (src/gpu/persistent_copy_backend.cu, class
    [PersistentCudaCopyBackend]): its life cycle and its handling of the errors of the
    host side, on any device runtime, visibility gate and clock.

    The backend is an instance of [CopyBackend] and of [CopyBackendDrains], so what is
    proved of the worker against these interfaces holds with it.  Over any run, each
    copy it took is either completed once or still outstanding, a completion is a
    success only when the device said so, and a failed device leaves no copy without
    its completion. *)

From S2P Require Import Prelude LocalTransport WorkerRespond CopyHost CopyTable.
Import Transport Copy CopyHost CopyTable Respond.

(** [PersistentCopyRuntime], a queue with a life cycle, and [PersistentCopyClock]. *)
Class PersistentCopyRuntime (R : Type) := {
  runtime_queue :: PersistentCopyQueue R;
  initialize_device : R → Z → R * Z;
  runtime_start : R → Config → R * Z;
  runtime_stop : R → R * Z;
  runtime_wait : R → R * Z;
  runtime_reset : R → R * Z;
}.

Class PersistentCopyClock (T : Type) := { now_nanoseconds : T → T * Z }.

Module GpuBackend.

(** * State *)

Inductive BackendState : Set := stopped | accepting | draining.
#[export] Instance BackendState_eq_dec : EqDecision BackendState.
Proof. solve_decision. Defined.

Section Operations.
Context {R V T : Type} `{PersistentCopyRuntime R} `{GpuDirectVisibilityGate V} `{PersistentCopyClock T}.

Record Backend := mkBackend {
  world : HostWorld R V;    (* [host_], the runtime and the visibility gate *)
  clock : T;
  active_ : Config;
  state_ : BackendState;
  last_error_ : Z;
  stop_requested_ : bool;
}.

Definition new_backend (r : R) (v : V) (t : T) : Backend :=
  mkBackend (mkHostWorld new_host r v) t no_config stopped 0 false.

(** ** Assignments *)

Definition with_world (b : Backend) (w : HostWorld R V) : Backend :=
  mkBackend w (clock b) (active_ b) (state_ b) (last_error_ b) (stop_requested_ b).
Definition with_clock (b : Backend) (t : T) : Backend :=
  mkBackend (world b) t (active_ b) (state_ b) (last_error_ b) (stop_requested_ b).
Definition with_backend_state (b : Backend) (st : BackendState) : Backend :=
  mkBackend (world b) (clock b) (active_ b) st (last_error_ b) (stop_requested_ b).
Definition with_error (b : Backend) (e : Z) : Backend :=
  mkBackend (world b) (clock b) (active_ b) (state_ b) e (stop_requested_ b).
Definition with_stop_requested (b : Backend) (r : bool) : Backend :=
  mkBackend (world b) (clock b) (active_ b) (state_ b) (last_error_ b) r.
(** [if (status != 0) last_error_ = status]. *)
Definition note_error (b : Backend) (e : Z) : Backend := if e =? 0 then b else with_error b e.

Definition backend_host (b : Backend) : Host := host (world b).
Definition with_backend_host (b : Backend) (h : Host) : Backend := with_world b (with_host (world b) h).

(** A call of a method of the runtime or of the gate. *)
Definition on_runtime (f : R → R * Z) (b : Backend) : Backend * Z :=
  let '(r, e) := f (queue (world b)) in
  (with_world b (mkHostWorld (host (world b)) r (gate (world b))), e).
Definition on_gate (f : V → V * Z) (b : Backend) : Backend * Z :=
  let '(v, e) := f (gate (world b)) in
  (with_world b (mkHostWorld (host (world b)) (queue (world b)) v), e).
Definition now (b : Backend) : Backend * Z :=
  let '(t, n) := now_nanoseconds (clock b) in (with_clock b t, n).

(** * Stopping the device *)

Definition progress_stop_request (b : Backend) : Backend * Z :=
  if negb (bool_decide (state_ b = draining)) || stop_requested_ b
     || negb (pending_tasks (backend_host b) =? 0)%nat
  then (b, 0)
  else
    let '(b, status) := on_runtime runtime_stop b in
    (if status =? 0 then with_stop_requested b true else b, status).

(** [progress_stop_request], its status kept as the last error. *)
Definition progress_stop (b : Backend) : Backend :=
  let '(b, status) := progress_stop_request b in note_error b status.

Definition handle_host_error (b : Backend) (status : Z) : Backend :=
  let b := with_error b status in
  if decide (failure_ (backend_host b) = visibility)
  then
    let '(h, e) := fail_pending (backend_host b) backend_error in
    let b := with_backend_host b h in
    if negb (e =? 0) then with_backend_state (with_error b e) draining else b
  else
    let '(h, e) := fail_all (backend_host b) backend_error in
    let b := note_error (with_backend_host b h) e in
    progress_stop (with_backend_state b draining).

(** * Life cycle *)

Definition start (b : Backend) (c : Config) : Backend * Z :=
  if negb (bool_decide (state_ b = stopped)) || negb (validate_config c =? 0) then (b, EINVAL)
  else
    let '(b, e) := on_runtime (λ r, initialize_device r (device_ordinal c)) b in
    if negb (e =? 0)
    then let '(b, _) := on_runtime runtime_reset b in (with_error b e, e)
    else
      let '(b, e) := on_gate (λ v, gate_initialize v (device_ordinal c)) b in
      if negb (e =? 0)
      then
        let '(b, _) := on_gate gate_reset b in
        let '(b, _) := on_runtime runtime_reset b in (with_error b e, e)
      else
        let '(h, e) := initialize (backend_host b) c in
        let b := with_backend_host b h in
        if negb (e =? 0)
        then
          let '(b, _) := on_gate gate_reset b in
          let '(b, _) := on_runtime runtime_reset b in (with_error b e, e)
        else
          let '(b, e) := on_runtime (λ r, runtime_start r c) b in
          if negb (e =? 0)
          then
            let b := with_backend_host b (host_reset (backend_host b)).1 in
            let '(b, _) := on_gate gate_reset b in
            let '(b, _) := on_runtime runtime_reset b in (with_error b e, e)
          else (mkBackend (world b) (clock b) c accepting 0 false, 0).

Definition request_stop (b : Backend) : Backend * Z :=
  if negb (bool_decide (state_ b = accepting)) then (b, EINVAL)
  else
    let b := with_backend_state b draining in
    let '(w, publish_status) := publish_pending_now (world b) in
    let b := with_world b w in
    let b := if negb (publish_status =? 0) then handle_host_error b publish_status else b in
    let '(b, stop_status) := progress_stop_request b in
    if negb (stop_status =? 0) then (with_error b stop_status, stop_status) else (b, publish_status).

Definition first_error (e1 e2 : Z) : Z := if e1 =? 0 then e2 else e1.

Definition wait (b : Backend) : Backend * Z :=
  if negb (bool_decide (state_ b = draining)) then (b, EINVAL)
  else
    let '(b, stop_status) := progress_stop_request b in
    if negb (stop_status =? 0) then (with_error b stop_status, stop_status)
    else if negb (stop_requested_ b) || negb (outstanding_tasks (backend_host b) =? 0)%nat
            || negb (pending_tasks (backend_host b) =? 0)%nat
    then (b, EAGAIN)
    else
      let '(b, e1) := on_runtime runtime_wait b in
      let '(b, e2) := on_runtime runtime_reset b in
      let '(h, e3) := host_reset (backend_host b) in
      let '(b, e4) := on_gate gate_reset (with_backend_host b h) in
      let status := first_error (first_error (first_error e1 e2) e3) e4 in
      (note_error (mkBackend (world b) (clock b) no_config stopped (last_error_ b) false) status, status).

(** [abort_and_reset], which the destructor runs. *)
Definition abort_and_reset (b : Backend) : Backend :=
  if decide (state_ b = stopped) then b
  else
    let b := with_backend_host b (fail_all (backend_host b) backend_error).1 in
    let b := if stop_requested_ b then b else (on_runtime runtime_stop b).1 in
    let b := (on_runtime runtime_wait b).1 in
    let b := (on_runtime runtime_reset b).1 in
    let b := (on_gate gate_reset b).1 in
    with_backend_state b stopped.

(** * Submitting *)

Definition submit_at_time (b : Backend) (n : Z) (r : BackendRequest) : Backend * bool :=
  let '(w, status, accepted) := host_submit (world b) r n in
  let b := with_world b w in
  if status =? 0 then (b, accepted)
  else if (status =? EINVAL) && negb accepted && bool_decide (failure_ (backend_host b) = no_failure)
  then
    let '(h, e, accepted) := complete_locally (backend_host b) r backend_error in
    let b := with_backend_host b h in
    (if negb (e =? 0) then handle_host_error b e else b, accepted)
  else (handle_host_error b status, accepted).

Definition backend_submit (b : Backend) (r : BackendRequest) : Backend * bool :=
  if negb (bool_decide (state_ b = accepting)) then (b, false)
  else let '(b, n) := now b in submit_at_time b n r.

Fixpoint submit_loop (b : Backend) (n : Z) (requests : list BackendRequest) : Backend * nat :=
  match requests with
  | [] => (b, O)
  | r :: requests =>
      match submit_at_time b n r with
      | (b, true) => let '(b, k) := submit_loop b n requests in (b, S k)
      | (b, false) => (b, O)
      end
  end.

Definition backend_submit_batch (b : Backend) (requests : list BackendRequest) : Backend * nat :=
  if negb (bool_decide (state_ b = accepting)) then (b, O)
  else let '(b, n) := now b in submit_loop b n requests.

Definition backend_flush (b : Backend) : Backend * bool :=
  if negb (bool_decide (state_ b = accepting)) then (b, false)
  else
    let '(w, status) := publish_pending_now (world b) in
    let b := with_world b w in
    if negb (status =? 0) then (handle_host_error b status, false) else (b, true).

(** * Completions *)

Definition pop_at_time (b : Backend) (n : Z) : Backend * option BackendCompletion :=
  let '(w, status, completed) := host_pop (world b) n in
  let b := with_world b w in
  let '(b, completed) :=
    if negb (status =? 0)
    then
      let b := handle_host_error b status in
      let '(w, status, completed) := host_pop (world b) n in
      let b := with_world b w in
      if negb (status =? 0) then (with_error b status, None) else (b, completed)
    else (b, completed) in
  (if decide (state_ b = draining) then progress_stop b else b, completed).

Definition backend_pop (b : Backend) : Backend * option BackendCompletion :=
  if decide (state_ b = stopped) then (b, None)
  else let '(b, n) := now b in pop_at_time b n.

Fixpoint pop_loop (b : Backend) (n : Z) (completion_capacity : nat) : Backend * list BackendCompletion :=
  match completion_capacity with
  | O => (b, [])
  | S completion_capacity =>
      match pop_at_time b n with
      | (b, Some c) => let '(b, l) := pop_loop b n completion_capacity in (b, c :: l)
      | (b, None) => (b, [])
      end
  end.

Definition backend_pop_batch (b : Backend) (completion_capacity : nat) : Backend * list BackendCompletion :=
  if decide (state_ b = stopped) then (b, [])
  else let '(b, n) := now b in pop_loop b n completion_capacity.

#[export] Instance gpu_backend : CopyBackend Backend := {|
  try_submit := backend_submit;
  try_submit_batch := backend_submit_batch;
  flush_submissions := backend_flush;
  try_pop_completion := backend_pop;
  try_pop_completion_batch := backend_pop_batch;
|}.

(** * The backend drains *)

(** The number of outstanding tasks, whatever the state of the backend. *)

Lemma mark_submitted_host_outstanding (w w' : HostWorld R V) e :
  submit_pending w = (w', e) → outstanding_ (host w') = outstanding_ (host w).
Proof.
  unfold submit_pending. destruct (queue_submit _ _) as [[q status] n].
  destruct (status =? EAGAIN); [by intros [= <- <-]|]. destruct (negb (status =? 0)); [by intros [= <- <-]|].
  destruct (_ || _); [by intros [= <- <-]|]. destruct (mark_submitted _ _ _) as [slots []];
    cbn [negb]; by intros [= <- <-].
Qed.

Lemma publish_pending_outstanding (w w' : HostWorld R V) e :
  publish_pending w = (w', e) → outstanding_ (host w') = outstanding_ (host w).
Proof.
  unfold publish_pending. destruct (flushed _).
  { by intros ->%mark_submitted_host_outstanding. }
  destruct (gate_flush (gate w)) as [v status]. destruct (negb (status =? 0)); [by intros [= <- <-]|].
  by intros ->%mark_submitted_host_outstanding.
Qed.

Lemma publish_now_outstanding (w w' : HostWorld R V) e :
  publish_pending_now w = (w', e) → outstanding_ (host w') = outstanding_ (host w).
Proof.
  unfold publish_pending_now. destruct (negb _); [by intros [= <- <-]|].
  destruct (_ =? _)%nat; [by intros [= <- <-]|]. apply publish_pending_outstanding.
Qed.

Lemma host_submit_outstanding (w w' : HostWorld R V) r n e accepted :
  host_submit w r n = (w', e, accepted) →
  outstanding_ (host w') = (outstanding_ (host w) + if accepted then 1 else 0)%nat.
Proof.
  unfold host_submit. destruct (negb (initialized _)); [intros [= <- <- <-]; lia|].
  destruct (_ || _); [intros [= <- <- <-]; lia|]. destruct (negb _); [intros [= <- <- <-]; lia|].
  destruct (make_copy_task _ _ _); [|intros [= <- <- <-]; lia].
  destruct (count _ =? _)%nat; [|intros [= <- <- <-]; cbn; lia].
  destruct (publish_pending _) as [w1 e1] eqn:E. intros [= <- <- <-].
  apply publish_pending_outstanding in E as ->. cbn. lia.
Qed.

Lemma complete_locally_outstanding h h' r res e accepted :
  complete_locally h r res = (h', e, accepted) →
  outstanding_ h' = (outstanding_ h + if accepted then 1 else 0)%nat.
Proof.
  unfold complete_locally. destruct (negb (initialized _)); [intros [= <- <- <-]; lia|].
  destruct (_ <=? _)%nat; [intros [= <- <- <-]; lia|].
  destruct (negb _); intros [= <- <- <-]; cbn; lia.
Qed.

Lemma host_pop_outstanding (w w' : HostWorld R V) n e o :
  host_pop w n = (w', e, o) →
  (outstanding_ (host w') + match o with Some _ => 1 | None => 0 end = outstanding_ (host w))%nat.
Proof.
  unfold host_pop. destruct (negb (initialized _)); [intros [= <- <- <-]; lia|].
  destruct (progress_host_batch w n) as [w1 e1] eqn:E.
  assert (outstanding_ (host w1) = outstanding_ (host w)) as <-.
  { unfold progress_host_batch in E. destruct (negb _) in E; [by injection E as <- _|].
    destruct (_ =? _)%nat in E; [by injection E as <- _|].
    destruct (_ && _ && _) in E; [by injection E as <- _|]. by eapply publish_pending_outstanding. }
  destruct (negb (e1 =? 0)); [intros [= <- <- <-]; lia|].
  destruct (_ <? _).
  { destruct (_ || _ || _) eqn:Eo; intros [= <- <- <-]; cbn; bool_hyps; lia. }
  destruct (queue_poll (queue w1)) as [[q status] cc].
  destruct (status =? EAGAIN); [intros [= <- <- <-]; cbn; lia|].
  destruct (negb (status =? 0)); [intros [= <- <- <-]; cbn; lia|].
  destruct (_ || _ || _) eqn:Eo; intros [= <- <- <-]; cbn; bool_hyps; lia.
Qed.

Lemma host_pop_status (w w' : HostWorld R V) n e c : host_pop w n = (w', e, Some c) → e = 0.
Proof.
  unfold host_pop. destruct (negb (initialized _)); [discriminate|].
  destruct (progress_host_batch w n) as [w1 e1]. destruct (negb (e1 =? 0)); [discriminate|].
  destruct (_ <? _); [destruct (_ || _ || _); [discriminate|by intros [= _ <- _]]|].
  destruct (queue_poll (queue w1)) as [[q status] cc].
  destruct (status =? EAGAIN); [discriminate|]. destruct (negb (status =? 0)); [discriminate|].
  destruct (_ || _ || _); [discriminate|by intros [= _ <- _]].
Qed.

Lemma fail_pending_outstanding h h' res e : fail_pending h res = (h', e) → outstanding_ h' = outstanding_ h.
Proof.
  unfold fail_pending. destruct (negb _); [by intros [= <- <-]|].
  destruct (fail_tasks _ _ _ _ _) as [[slots l] []]; cbn [negb]; by intros [= <- <-].
Qed.

Lemma fail_all_outstanding h h' res e : fail_all h res = (h', e) → outstanding_ h' = outstanding_ h.
Proof.
  unfold fail_all. destruct (fail_pending h res) as [h1 e1] eqn:E. apply fail_pending_outstanding in E as <-.
  destruct (negb _); [by intros [= <- <-]|]. destruct (fail_submitted _ _ _ _). by intros [= <- <-].
Qed.

Definition outstanding (b : Backend) : nat := outstanding_tasks (backend_host b).

Lemma on_runtime_host f b : backend_host (on_runtime f b).1 = backend_host b.
Proof. unfold on_runtime. by destruct (f _). Qed.
Lemma on_gate_host f b : backend_host (on_gate f b).1 = backend_host b.
Proof. unfold on_gate. by destruct (f _). Qed.

Lemma progress_stop_request_host b : backend_host (progress_stop_request b).1 = backend_host b.
Proof.
  unfold progress_stop_request. destruct (_ || _ || _); [done|].
  pose proof (on_runtime_host runtime_stop b). destruct (on_runtime _ b) as [b1 e]. by case_match.
Qed.
Lemma progress_stop_host b : backend_host (progress_stop b) = backend_host b.
Proof.
  unfold progress_stop. pose proof (progress_stop_request_host b) as E.
  destruct (progress_stop_request b). unfold note_error. by case_match.
Qed.

Lemma handle_host_error_outstanding b e : outstanding (handle_host_error b e) = outstanding b.
Proof.
  unfold handle_host_error, outstanding, outstanding_tasks. case_decide.
  - destruct (fail_pending _ _) as [h e'] eqn:E. apply fail_pending_outstanding in E. by case_match.
  - destruct (fail_all _ _) as [h e'] eqn:E. apply fail_all_outstanding in E.
    rewrite progress_stop_host. unfold note_error. by case_match.
Qed.

Lemma submit_at_time_outstanding b n r :
  outstanding (submit_at_time b n r).1 = (outstanding b + if (submit_at_time b n r).2 then 1 else 0)%nat.
Proof.
  unfold submit_at_time. destruct (host_submit _ _ _) as [[w status] accepted] eqn:E.
  apply host_submit_outstanding in E. destruct (status =? 0); [done|].
  destruct (_ && _ && _) eqn:Ea.
  - destruct (complete_locally _ _ _) as [[h e] acc] eqn:E2. apply complete_locally_outstanding in E2.
    bool_hyps. subst accepted. cbn [fst snd]. destruct (negb (e =? 0)); rewrite ?handle_host_error_outstanding;
      unfold outstanding, outstanding_tasks, backend_host in *; cbn in *; lia.
  - cbn [fst snd]. rewrite handle_host_error_outstanding. done.
Qed.

Lemma submit_loop_outstanding n l b :
  outstanding (submit_loop b n l).1 = (outstanding b + (submit_loop b n l).2)%nat ∧
  ((submit_loop b n l).2 <= length l)%nat.
Proof.
  revert b. induction l as [|r l IH]; intros b; cbn [submit_loop length]; [cbn; lia|].
  pose proof (submit_at_time_outstanding b n r) as E.
  destruct (submit_at_time b n r) as [b1 []]; cbn in E |- *; [|lia].
  specialize (IH b1). destruct (submit_loop b1 n l). cbn in *. lia.
Qed.

Lemma pop_at_time_outstanding b n :
  (outstanding (pop_at_time b n).1 + match (pop_at_time b n).2 with Some _ => 1 | None => 0 end
   = outstanding b)%nat.
Proof.
  unfold pop_at_time. destruct (host_pop _ _) as [[w status] o] eqn:E0.
  pose proof (host_pop_outstanding _ _ _ _ _ E0) as E. set (x := if negb (status =? 0) then _ else _).
  assert (outstanding x.1 + match x.2 with Some _ => 1 | None => 0 end = outstanding b)%nat as Hx.
  { unfold x. destruct (negb (status =? 0)) eqn:Es; [|done]. clear x.
    pose proof (handle_host_error_outstanding (with_world b w) status) as Hh.
    set (b1 := handle_host_error _ _) in *.
    destruct (host_pop (world b1) n) as [[w2 e2] o2] eqn:E2.
    assert (o2 = None ∨ e2 = 0) as Ho by (destruct o2; [right; by eapply host_pop_status|by left]).
    apply host_pop_outstanding in E2. unfold outstanding, outstanding_tasks, backend_host in *.
    assert (o = None ∨ status = 0) as Ho0 by (destruct o; [right; by eapply host_pop_status|by left]).
    bool_hyps. destruct (negb (e2 =? 0)) eqn:Ez; bool_hyps; destruct Ho as [->|], Ho0 as [->|]; cbn in *; lia. }
  destruct x as [b2 o2]. cbn in Hx |- *. rewrite <- Hx. f_equal.
  unfold outstanding. case_decide; [by rewrite progress_stop_host|done].
Qed.

Lemma pop_loop_outstanding n m b :
  (outstanding (pop_loop b n m).1 + length (pop_loop b n m).2 = outstanding b)%nat.
Proof.
  revert b. induction m as [|m IH]; intros b; cbn [pop_loop]; [cbn; lia|].
  pose proof (pop_at_time_outstanding b n) as E.
  destruct (pop_at_time b n) as [b1 [c|]]; cbn in E |- *; [|lia].
  specialize (IH b1). destruct (pop_loop b1 n m). cbn in *. lia.
Qed.

Lemma on_clock_host b : backend_host (now b).1 = backend_host b ∧ state_ (now b).1 = state_ b.
Proof. unfold now. by destruct (now_nanoseconds _). Qed.

Lemma on_clock_world b : world (now b).1 = world b.
Proof. unfold now. by destruct (now_nanoseconds _). Qed.

Lemma backend_submit_batch_outstanding b l :
  outstanding (backend_submit_batch b l).1 = (outstanding b + (backend_submit_batch b l).2)%nat ∧
  ((backend_submit_batch b l).2 <= length l)%nat.
Proof.
  unfold backend_submit_batch. destruct (negb _); [cbn; lia|].
  destruct (on_clock_host b) as [Hh _]. destruct (now b) as [b1 n]. cbn in Hh.
  unfold outstanding at 2. rewrite <- Hh. apply submit_loop_outstanding.
Qed.

Lemma backend_pop_batch_outstanding b n :
  (outstanding (backend_pop_batch b n).1 + length (backend_pop_batch b n).2 = outstanding b)%nat.
Proof.
  unfold backend_pop_batch. case_decide; [cbn; lia|].
  destruct (on_clock_host b) as [Hh _]. destruct (now b) as [b1 t]. cbn in Hh.
  unfold outstanding at 2. rewrite <- Hh. apply pop_loop_outstanding.
Qed.

Lemma backend_flush_outstanding b : outstanding (backend_flush b).1 = outstanding b.
Proof.
  unfold backend_flush. destruct (negb _); [done|].
  destruct (publish_pending_now _) as [w e] eqn:E. apply publish_now_outstanding in E.
  destruct (negb (e =? 0)); cbn [fst]; rewrite ?handle_host_error_outstanding; done.
Qed.

Lemma pop_loop_length n m b : (length (pop_loop b n m).2 <= m)%nat.
Proof.
  revert b. induction m as [|m IH]; intros b; cbn [pop_loop]; [cbn; lia|].
  destruct (pop_at_time b n) as [b1 [c|]]; cbn; [|lia].
  specialize (IH b1). destruct (pop_loop b1 n m). cbn in *. lia.
Qed.

#[export] Instance gpu_backend_laws : CopyBackendLaws Backend.
Proof.
  split; intros b l; cbn.
  - apply backend_submit_batch_outstanding.
  - unfold backend_pop_batch. case_decide; [cbn; lia|]. destruct (now b). apply pop_loop_length.
Qed.

#[export] Program Instance gpu_backend_drains : CopyBackendDrains Backend := {| drain := outstanding |}.
Next Obligation. intros b n. cbn. pose proof (backend_pop_batch_outstanding b n). lia. Qed.
Next Obligation. intros b l. cbn. pose proof (backend_submit_batch_outstanding b l). lia. Qed.
Next Obligation. intros b. cbn. by rewrite backend_flush_outstanding. Qed.

(** * Runs *)

(** A backend that runs has its table and its batch in order; a stopped one has a
    fresh host. *)
Definition active (k : Z) (b : Backend) (slots : list TaskContextSlot) : Prop :=
  state_ b ≠ stopped ∧ table_inv k (backend_host b) slots ∧ has_room (backend_host b).
Definition sound (b : Backend) : Prop :=
  state_ b = stopped ∧ backend_host b = new_host ∨ ∃ k slots, active k b slots.

Lemma table_live k h slots : table_inv k h slots → live_copies h = slots ≫= live_of.
Proof. intros I. unfold live_copies. by rewrite (proj1 (table_slots _ _ _ I)). Qed.

Lemma progress_stop_request_state b b' e :
  progress_stop_request b = (b', e) →
  backend_host b' = backend_host b ∧ state_ b' = state_ b ∧
  (stop_requested_ b' = true ∨ e ≠ 0 ∨ state_ b ≠ draining ∨ count (batch_ (backend_host b)) ≠ 0%nat).
Proof.
  intros E. pose proof (progress_stop_request_host b) as Hh. rewrite E in Hh. split; [done|].
  unfold progress_stop_request, on_runtime in E.
  destruct (negb _ || _ || _) eqn:Eg.
  - injection E as <- <-. split; [done|]. apply orb_true_iff in Eg as [[Eg|Eg]%orb_true_iff|Eg].
    + bool_hyps. tauto.
    + tauto.
    + unfold pending_tasks in Eg. bool_hyps. tauto.
  - destruct (runtime_stop _) as [r st]. destruct (st =? 0) eqn:Es; injection E as <- <-; bool_hyps; cbn; tauto.
Qed.

Lemma progress_stop_state b : state_ (progress_stop b) = state_ b.
Proof.
  unfold progress_stop. destruct (progress_stop_request b) as [b' e] eqn:E.
  apply progress_stop_request_state in E as (_ & <- & _). unfold note_error. by case_match.
Qed.

(** Handling an error empties the batch and keeps every copy. *)
Lemma handle_host_error_active k b e slots :
  state_ b ≠ stopped → table_inv k (backend_host b) slots →
  let b' := handle_host_error b e in
  kept k (backend_host b) (backend_host b') slots ∧ count (batch_ (backend_host b')) = 0%nat ∧
  state_ b' ≠ stopped ∧
  (failure_ (backend_host b) ≠ visibility → state_ b' = draining ∧
     Z.of_nat (outstanding b') = tail (local_ (backend_host b')) - head (local_ (backend_host b'))).
Proof.
  intros Hs I. unfold handle_host_error. cbn [with_error backend_host world]. fold (backend_host b).
  case_decide as Ef.
  - destruct (fail_pending_inv k _ slots I) as (h' & E & K & C & F & _).
    change (backend_host (with_error b e)) with (backend_host b). rewrite E. cbn. by split_and!.
  - destruct (fail_all_inv k _ slots I) as (h' & E & K & C & F & O).
    change (backend_host (with_error b e)) with (backend_host b). rewrite E.
    cbn [note_error Z.eqb]. cbv zeta. unfold outstanding. rewrite progress_stop_host, progress_stop_state.
    cbn. by split_and!.
Qed.

Lemma kept_copies k h h' slots :
  table_inv k h slots → kept k h h' slots → live_copies h' ≡ₚ live_copies h.
Proof.
  intros I [(slots' & I' & L) _ _]. by rewrite (table_live _ _ _ I), (table_live _ _ _ I').
Qed.

Lemma room_empty h : count (batch_ h) = 0%nat → has_room h.
Proof. intros E ?. by rewrite E in *. Qed.

(** From one running backend to another, [ins] taken and [outs] given back. *)
Record moves (k : Z) (b b' : Backend) (ins outs : list (Z * Z)) : Prop := {
  mv_active : ∃ slots', active k b' slots';
  mv_copies : ins ++ live_copies (backend_host b) ≡ₚ outs ++ live_copies (backend_host b');
  mv_next : next_task_ (backend_host b') = next_task_ (backend_host b) + Z.of_nat (length ins);
  mv_config : config_ (backend_host b') = config_ (backend_host b);
}.

Lemma moves_refl k b b' slots :
  active k b slots → backend_host b' = backend_host b → state_ b' ≠ stopped → moves k b b' [] [].
Proof.
  intros (Hs & I & Hr) E Hs'. split; rewrite ?E; [|done|cbn; lia|done].
  exists slots. unfold active. rewrite E. done.
Qed.

Lemma moves_trans k b b1 b' ins1 ins2 outs1 outs2 :
  moves k b b1 ins1 outs1 → moves k b1 b' ins2 outs2 → moves k b b' (ins1 ++ ins2) (outs1 ++ outs2).
Proof.
  intros [A1 C1 N1 F1] [A2 C2 N2 F2]. split; [done| |rewrite length_app; lia|congruence].
  rewrite <- (assoc_L (++) outs1), <- C2, (Permutation_app_comm ins1), <- (assoc_L (++) ins2), C1.
  solve_Permutation.
Qed.

Lemma moves_kept k b b' slots :
  table_inv k (backend_host b) slots → kept k (backend_host b) (backend_host b') slots →
  has_room (backend_host b') → state_ b' ≠ stopped → moves k b b' [] [].
Proof.
  intros I K Hr Hs. pose proof (kept_copies _ _ _ _ I K) as Hc.
  destruct K as [(slots' & I' & L) N C]. split; [by exists slots'|by rewrite Hc|cbn; lia|done].
Qed.

(** A host step followed by the handling of its error. *)
Lemma moves_handled k b b1 e slots1 ins outs :
  state_ b1 ≠ stopped → table_inv k (backend_host b1) slots1 →
  ins ++ live_copies (backend_host b) ≡ₚ outs ++ live_copies (backend_host b1) →
  next_task_ (backend_host b1) = next_task_ (backend_host b) + Z.of_nat (length ins) →
  config_ (backend_host b1) = config_ (backend_host b) →
  moves k b (handle_host_error b1 e) ins outs.
Proof.
  intros Hs I HC HN HF.
  destruct (handle_host_error_active k b1 e slots1 Hs I) as (K & C & Hs' & _).
  pose proof (moves_kept k b1 _ slots1 I K (room_empty _ C) Hs') as M.
  destruct M as [A M1 M2 M3]. cbn in M1, M2. split; [done|by rewrite <- M1|lia|congruence].
Qed.

Lemma takes_copies k h h' slots r :
  table_inv k h slots → takes k h h' slots r → copy_of r :: live_copies h ≡ₚ live_copies h'.
Proof.
  intros I [(slots' & I' & L) _ _]. by rewrite (table_live _ _ _ I), (table_live _ _ _ I'), L.
Qed.

Lemma gives_copies k h h' slots c :
  table_inv k h slots → gives k h h' slots c → live_copies h ≡ₚ copy_done c :: live_copies h'.
Proof.
  intros I [(slots' & I' & L) _ _]. by rewrite (table_live _ _ _ I), (table_live _ _ _ I'), L.
Qed.

Lemma submit_at_time_moves k b n r slots :
  active k b slots → next_task_ (backend_host b) < U64_MAX →
  moves k b (submit_at_time b n r).1 (if (submit_at_time b n r).2 then [copy_of r] else []) [].
Proof.
  intros (Hs & I & Hr) Hn. unfold submit_at_time.
  destruct (host_submit (world b) r n) as [[w status] accepted] eqn:E.
  pose proof (host_submit_inv k _ _ _ _ _ _ _ I Hr Hn E) as P.
  destruct accepted.
  - destruct P as [Tk Hroom]. pose proof (takes_copies _ _ _ _ _ I Tk) as HC.
    destruct Tk as [(slots' & I' & L) N C]. rewrite andb_false_r. cbn [andb].
    destruct (status =? 0) eqn:Es; cbn [fst snd].
    + bool_hyps. split; [exists slots'; unfold active; auto|done|done|done].
    + by eapply (moves_handled k b (with_world b w)).
  - destruct (status =? 0) eqn:Es; cbn [fst snd].
    { by eapply moves_refl. }
    change (backend_host (with_world b w)) with (host w). rewrite P.
    destruct (_ && _ && _) eqn:Ec.
    + destruct (complete_locally (host (world b)) r backend_error) as [[h e] accepted] eqn:El.
      destruct (complete_locally_inv k _ _ _ _ _ _ I Hn El) as (Hb & Hf & Hl).
      set (b1 := with_backend_host _ h). cbn [fst snd]. destruct accepted.
      * destruct Hl as [Tk ->]. pose proof (takes_copies _ _ _ _ _ I Tk) as HC.
        destruct Tk as [(slots' & I' & L) N C]. cbn [negb Z.eqb].
        assert (has_room h) by (unfold has_room; by rewrite Hb).
        split; [by exists slots'|done|done|done].
      * destruct (e =? 0) eqn:Ee; cbn [negb]; subst h.
        -- by eapply moves_refl.
        -- eapply (moves_handled k b b1 e slots); [done|by apply (table_inv_flags k (host (world b)))|done|cbn; lia|done].
    + assert (backend_host (with_world b w) = backend_host b) as Eh by exact P.
      eapply (moves_handled k b (with_world b w) status slots); rewrite ?Eh; [done|done|done|cbn; lia|done].
Qed.

Lemma submit_loop_moves k n l b slots :
  active k b slots → next_task_ (backend_host b) + Z.of_nat (length l) <= U64_MAX →
  moves k b (submit_loop b n l).1 (copy_of <$> take (submit_loop b n l).2 l) [].
Proof.
  revert b slots. induction l as [|r l IH]; intros b slots A Hn; cbn [submit_loop].
  { eapply moves_refl; [done|done|apply A]. }
  cbn [length] in Hn. pose proof (submit_at_time_moves k b n r slots A ltac:(lia)) as M.
  destruct (submit_at_time b n r) as [b1 []]; cbn [fst snd] in M |- *; [|done].
  destruct (mv_active _ _ _ _ _ M) as (slots1 & A1).
  specialize (IH b1 slots1 A1). rewrite (mv_next _ _ _ _ _ M) in IH.
  destruct (submit_loop b1 n l) as [b2 j]. cbn [fst snd length] in *.
  apply (moves_trans _ _ _ _ _ _ _ _ M), IH. lia.
Qed.

Lemma pop_at_time_moves k b n slots :
  active k b slots →
  moves k b (pop_at_time b n).1 [] (copy_done <$> option_list (pop_at_time b n).2).
Proof.
  intros (Hs & I & Hr). unfold pop_at_time.
  destruct (host_pop (world b) n) as [[w status] o] eqn:E.
  destruct (host_pop_inv k _ _ _ _ _ _ I Hr E) as (Hroom & _ & P).
  set (x := if negb (status =? 0) then _ else _).
  assert (moves k b x.1 [] (copy_done <$> option_list x.2)) as M.
  { unfold x. clear x. destruct o as [c|].
    - destruct P as [-> G]. cbn [negb Z.eqb]. pose proof (gives_copies _ _ _ _ _ I G) as HC.
      destruct G as [(slots' & I' & L) N C].
      split; [exists slots'; unfold active; auto|done|by rewrite Z.add_0_r|done].
    - destruct (status =? 0) eqn:Es; cbn [negb]; bool_hyps.
      { eapply moves_kept; [exact I|exact P|by apply Hroom|done]. }
      destruct (kp_slots _ _ _ _ P) as (slots1 & I1 & L1).
      destruct (handle_host_error_active k (with_world b w) status slots1 Hs I1) as (K & C & Hs' & _).
      set (b1 := handle_host_error _ _) in *.
      assert (moves k b b1 [] []) as M1.
      { eapply (moves_handled k b (with_world b w)); [done|done| |rewrite Z.add_0_r; apply (kp_next _ _ _ _ P)|].
        - cbn. symmetry. by eapply kept_copies.
        - apply (kp_config _ _ _ _ P). }
      destruct (kp_slots _ _ _ _ K) as (slots2 & I2 & L2).
      destruct (host_pop (world b1) n) as [[w2 e2] o2] eqn:E2.
      destruct (host_pop_inv k _ _ _ _ _ _ I2 (room_empty _ C) E2) as (_ & Hb2 & P2). specialize (Hb2 C).
      assert (has_room (host w2)) as Hr2 by (apply room_empty; rewrite Hb2; exact C).
      destruct o2 as [c|].
      + destruct P2 as [-> G]. cbn [negb Z.eqb]. pose proof (gives_copies _ _ _ _ _ I2 G) as HC.
        destruct G as [(slots' & I' & L) N Cf]. apply (moves_trans _ _ _ _ [] [] [] _ M1).
        split; [exists slots'; by split_and!|done|by rewrite Z.add_0_r|done].
      + apply (moves_trans _ _ _ _ [] [] [] _ M1). destruct (negb (e2 =? 0)); by eapply moves_kept. }
  destruct x as [b1 o1]. cbn [fst snd] in *. case_decide as Ed; [|done].
  destruct (mv_active _ _ _ _ _ M) as (slots1 & A1).
  rewrite <- (app_nil_r (copy_done <$> _)). eapply (moves_trans _ _ _ _ [] []); [done|].
  eapply moves_refl; [done|apply progress_stop_host|rewrite progress_stop_state; apply A1].
Qed.

Lemma pop_loop_moves k n m b slots :
  active k b slots → moves k b (pop_loop b n m).1 [] (copy_done <$> (pop_loop b n m).2).
Proof.
  revert b slots. induction m as [|m IH]; intros b slots A; cbn [pop_loop].
  { eapply moves_refl; [done|done|apply A]. }
  pose proof (pop_at_time_moves k b n slots A) as M.
  destruct (pop_at_time b n) as [b1 [c|]]; cbn [fst snd] in M |- *; [|done].
  destruct (mv_active _ _ _ _ _ M) as (slots1 & A1). specialize (IH b1 slots1 A1).
  destruct (pop_loop b1 n m) as [b2 l]. cbn [fst snd] in *. by apply (moves_trans _ _ _ _ [] [] _ _ M).
Qed.

Lemma progress_stop_request_moves k b slots :
  active k b slots → moves k b (progress_stop_request b).1 [] [].
Proof.
  intros A. destruct (progress_stop_request b) as [b' e] eqn:E.
  apply progress_stop_request_state in E as (Hh & Hs & _). eapply moves_refl; [done|done|]. cbn [fst].
  rewrite Hs. apply A.
Qed.

(** [publish_pending_now], its error handled. *)
Lemma publish_now_moves k b w e slots :
  active k b slots → publish_pending_now (world b) = (w, e) →
  moves k b (if negb (e =? 0) then handle_host_error (with_world b w) e else with_world b w) [] [].
Proof.
  intros (Hs & I & Hr) E. apply (publish_pending_now_inv k _ _ slots) in E as [[Eh ->]|[K Hroom _]]; [|..|done].
  - cbn [negb Z.eqb]. by apply (moves_refl k b _ slots).
  - destruct (e =? 0) eqn:Ee; cbn [negb]; bool_hyps.
    + eapply moves_kept; [exact I|exact K|by apply Hroom|done].
    + pose proof (kept_copies _ _ _ _ I K) as HC. destruct K as [(slots1 & I1 & L1) N C].
      eapply (moves_handled k b (with_world b w)); [done|exact I1|by symmetry|by rewrite Z.add_0_r|done].
Qed.

Lemma backend_flush_moves k b slots : active k b slots → moves k b (backend_flush b).1 [] [].
Proof.
  intros A. unfold backend_flush. destruct (negb _); [eapply moves_refl; [done|done|apply A]|].
  destruct (publish_pending_now _) as [w e] eqn:E. pose proof (publish_now_moves k b w e slots A E).
  by destruct (negb (e =? 0)).
Qed.

Lemma request_stop_moves k b slots : active k b slots → moves k b (request_stop b).1 [] [].
Proof.
  intros A. unfold request_stop. destruct (negb _); [eapply moves_refl; [done|done|apply A]|].
  set (b0 := with_backend_state b draining).
  assert (active k b0 slots) as A0 by (destruct A as (_ & ? & ?); by split_and!).
  assert (moves k b b0 [] []) as M0 by by eapply moves_refl.
  destruct (publish_pending_now (world b0)) as [w e] eqn:E.
  pose proof (publish_now_moves k b0 w e slots A0 E) as M1. set (b1 := if negb (e =? 0) then _ else _) in *.
  destruct (mv_active _ _ _ _ _ M1) as (slots1 & A1).
  pose proof (progress_stop_request_moves k b1 slots1 A1) as M2.
  destruct (progress_stop_request b1) as [b2 e2]. cbn [fst] in M2.
  destruct (mv_active _ _ _ _ _ M2) as (slots2 & A2).
  assert (moves k b b2 [] []) as M.
  { apply (moves_trans _ _ _ _ [] [] [] [] M0). by apply (moves_trans _ _ _ _ [] [] [] [] M1). }
  destruct (negb (e2 =? 0)); [|done]. destruct M as [A3 M3 M4 M5]. by split.
Qed.

(** Waiting either leaves the backend running or, when no copy is left, stops it. *)
Lemma wait_stops k b b' e slots :
  active k b slots → wait b = (b', e) →
  moves k b b' [] [] ∨
  state_ b' = stopped ∧ backend_host b' = new_host ∧ live_copies (backend_host b) = [].
Proof.
  intros A. unfold wait. destruct (negb (bool_decide _)).
  { intros [= <- <-]. left. eapply moves_refl; [done|done|apply A]. }
  pose proof (progress_stop_request_moves k b slots A) as M.
  pose proof (progress_stop_request_host b) as Hh.
  destruct (progress_stop_request b) as [b1 e1]. cbn [fst] in M, Hh.
  destruct (negb (e1 =? 0)).
  { intros [= <- <-]. left. destruct M as [A3 M3 M4 M5]. by split. }
  destruct (_ || _ || _) eqn:Eg; [intros [= <- <-]; by left|]. bool_hyps.
  destruct (on_runtime runtime_wait b1) as [b2 e2] eqn:E2.
  destruct (on_runtime runtime_reset b2) as [b3 e3] eqn:E3.
  pose proof (on_runtime_host runtime_wait b1) as Hq2. rewrite E2 in Hq2.
  pose proof (on_runtime_host runtime_reset b2) as Hq3. rewrite E3 in Hq3. cbn [fst] in Hq2, Hq3.
  destruct (mv_active _ _ _ _ _ M) as (slots1 & _ & I1 & _).
  destruct (table_counts _ _ _ I1) as (_ & _ & _ & Hsum & _). pose proof (ti_counters _ _ _ I1).
  assert (host_reset (backend_host b3) = (new_host, 0)) as ->.
  { rewrite Hq3, Hq2. unfold host_reset. rewrite (proj2 (table_slots _ _ _ I1)). cbn [negb].
    unfold outstanding_tasks, pending_tasks in *.
    rewrite !(proj2 (Nat.eqb_eq _ _)), (proj2 (Z.eqb_eq _ _)); [done|lia..]. }
  destruct (on_gate gate_reset (with_backend_host b3 new_host)) as [b4 e4] eqn:E4.
  pose proof (on_gate_host gate_reset (with_backend_host b3 new_host)) as Hq4. rewrite E4 in Hq4. cbn [fst] in Hq4.
  intros [= <- <-]. right. unfold note_error. rewrite <- Hh.
  assert (live_copies (backend_host b1) = []) as Hl.
  { rewrite (table_live _ _ _ I1). apply length_zero_iff_nil. rewrite <- (ti_outstanding _ _ _ I1). done. }
  case_match; by split_and!.
Qed.

(** Starting either leaves a stopped backend as it is, or starts it with no copy. *)
Lemma start_starts b c b' e :
  state_ b = stopped → backend_host b = new_host → start b c = (b', e) →
  state_ b' = stopped ∧ backend_host b' = new_host ∧ e ≠ 0 ∨
  state_ b' = accepting ∧ e = 0 ∧ next_task_ (backend_host b') = 1 ∧
    ∃ k slots, active k b' slots ∧ live_copies (backend_host b') = [].
Proof.
  intros Hs Hh. unfold start. rewrite Hs, bool_decide_eq_true_2 by done. cbn [negb orb].
  destruct (negb (validate_config c =? 0)); [intros [= <- <-]; by left|].
  unfold on_runtime, on_gate.
  destruct (initialize_device _ _) as [r1 e1]. destruct (negb (e1 =? 0)) eqn:G1.
  { destruct (runtime_reset _) as [r2 ?]. intros [= <- <-]. bool_hyps. left. by split_and!. }
  destruct (gate_initialize _ _) as [v1 e2]. destruct (negb (e2 =? 0)) eqn:G2.
  { destruct (gate_reset _) as [v2 ?]. destruct (runtime_reset _) as [r2 ?]. intros [= <- <-].
    bool_hyps. left. by split_and!. }
  match goal with |- context [initialize ?h c] => change h with (backend_host b) end. rewrite Hh.
  destruct (initialize new_host c) as [h e3] eqn:Ei. destruct (negb (e3 =? 0)) eqn:G3.
  { assert (h = new_host) as ->.
    { unfold initialize in Ei. destruct (_ || _ || _); [by injection Ei as <- _|].
      injection Ei as _ <-. discriminate G3. }
    destruct (gate_reset _) as [v2 ?]. destruct (runtime_reset _) as [r2 ?]. intros [= <- <-].
    bool_hyps. left. by split_and!. }
  bool_hyps. subst e3. destruct (initialize_inv c h Ei) as (k & slots & I & Hroom & Hl & Hn).
  destruct (runtime_start _ _) as [r3 e4]. destruct (negb (e4 =? 0)) eqn:G4.
  - match goal with |- context [host_reset ?x] => change x with h end.
    assert (host_reset h = (new_host, 0)) as ->.
    { unfold host_reset. rewrite (proj2 (table_slots _ _ _ I)). unfold initialize in Ei.
      destruct (_ || _ || _); [discriminate Ei|]. by injection Ei as <-. }
    destruct (gate_reset _) as [v2 ?]. destruct (runtime_reset _) as [r2 ?]. intros [= <- <-].
    bool_hyps. left. by split_and!.
  - intros [= <- <-]. right. split_and!; [done|done|exact Hn|]. exists k, slots. split; [by split_and!|].
    rewrite <- Hl. by apply (table_live k).
Qed.

(** ** Sequences of calls *)

Inductive Call :=
| call_start (c : Config)
| call_submit (l : list BackendRequest)
| call_flush
| call_pop (n : nat)
| call_stop
| call_wait.

(** A call, the copies it took and the completions it gave. *)
Definition gpu_call (b : Backend) (call : Call) : Backend * list (Z * Z) * list BackendCompletion :=
  match call with
  | call_start c => ((start b c).1, [], [])
  | call_submit l => let '(b, n) := try_submit_batch b l in (b, copy_of <$> take n l, [])
  | call_flush => ((flush_submissions b).1, [], [])
  | call_pop n => let '(b, l) := try_pop_completion_batch b n in (b, [], l)
  | call_stop => ((request_stop b).1, [], [])
  | call_wait => ((wait b).1, [], [])
  end.

Fixpoint gpu_run (b : Backend) (calls : list Call) : Backend * list (Z * Z) * list BackendCompletion :=
  match calls with
  | [] => (b, [], [])
  | call :: calls =>
      let '(b, ins, outs) := gpu_call b call in
      let '(b, ins', outs') := gpu_run b calls in (b, ins ++ ins', outs ++ outs')
  end.

(** How many copies the calls offer. *)
Definition offered (calls : list Call) : Z :=
  foldr (λ call n, match call with call_submit l => Z.of_nat (length l) + n | _ => n end) 0 calls.

Lemma offered_nonneg calls : 0 <= offered calls.
Proof. unfold offered. induction calls as [|[] calls IH]; cbn [foldr]; lia. Qed.

(** What a call does to a sound backend. *)
Definition conserves (b b' : Backend) (ins : list (Z * Z)) (outs : list BackendCompletion) : Prop :=
  sound b' ∧ ins ++ live_copies (backend_host b) ≡ₚ (copy_done <$> outs) ++ live_copies (backend_host b') ∧
  (next_task_ (backend_host b') <= next_task_ (backend_host b) + Z.of_nat (length ins)).

Lemma moves_conserves k b b' ins outs : moves k b b' ins (copy_done <$> outs) → conserves b b' ins outs.
Proof. intros [(slots & A) C N _]. split_and!; [right; by exists k, slots|done|lia]. Qed.

Lemma conserves_stopped b b' outs :
  state_ b = stopped → backend_host b = new_host → b' = b → outs = [] → conserves b b' [] outs.
Proof. intros Hs Hh -> ->. split_and!; [by left|done|cbn; lia]. Qed.

Lemma sound_next b : sound b → 1 <= next_task_ (backend_host b).
Proof.
  intros [[_ ->]|(k & slots & _ & I & _)]; [done|]. pose proof (ti_next _ _ _ I).
  pose proof (ti_counters _ _ _ I). lia.
Qed.

(** The batched calls of an active backend. *)
Lemma now_moves k b slots : active k b slots → active k (now b).1 slots ∧ moves k b (now b).1 [] [].
Proof.
  intros A. destruct (on_clock_host b) as [Hc1 Hc2].
  assert (active k (now b).1 slots) as A1 by (unfold active; by rewrite Hc1, Hc2).
  split; [done|]. eapply moves_refl; [done|done|apply A1].
Qed.

Lemma submit_batch_moves k b l slots :
  active k b slots → next_task_ (backend_host b) + Z.of_nat (length l) <= U64_MAX →
  moves k b (backend_submit_batch b l).1 (copy_of <$> take (backend_submit_batch b l).2 l) [].
Proof.
  intros A Hn. unfold backend_submit_batch. destruct (negb _); [eapply moves_refl; [done|done|apply A]|].
  destruct (now_moves k b slots A) as [A1 M0]. destruct (on_clock_host b) as [Hc1 _].
  destruct (now b) as [b1 t]. cbn [fst] in *. pose proof (submit_loop_moves k t l b1 slots A1) as M.
  rewrite Hc1 in M. specialize (M ltac:(lia)). destruct (submit_loop b1 t l) as [b2 j].
  by apply (moves_trans _ _ _ _ [] _ [] [] M0).
Qed.

Lemma pop_batch_moves k b n slots :
  active k b slots → moves k b (backend_pop_batch b n).1 [] (copy_done <$> (backend_pop_batch b n).2).
Proof.
  intros A. unfold backend_pop_batch. rewrite decide_False by apply A.
  destruct (now_moves k b slots A) as [A1 M0]. destruct (now b) as [b1 t]. cbn [fst] in *.
  pose proof (pop_loop_moves k t n b1 slots A1) as M. destruct (pop_loop b1 t n) as [b2 l].
  by apply (moves_trans _ _ _ _ [] [] [] _ M0).
Qed.

Lemma gpu_call_conserves b call :
  sound b → next_task_ (backend_host b) + offered [call] <= U64_MAX →
  let '(b', ins, outs) := gpu_call b call in conserves b b' ins outs ∧ Z.of_nat (length ins) <= offered [call].
Proof.
  intros Hs Hn. destruct call as [c|l| |n| |]; cbn [gpu_call offered foldr] in *; cbn [length].
  - split; [|done]. destruct (start b c) as [b' e] eqn:E. cbn [fst]. destruct Hs as [[Hs Hh]|(k & slots & A)].
    + destruct (start_starts b c b' e Hs Hh E) as [(H1' & H2' & _)|(H1' & _ & H3' & k & slots & A & L)].
      * split_and!; [by left|by rewrite Hh, H2'|rewrite Hh, H2'; cbn; lia].
      * split_and!; [right; by exists k, slots|by rewrite Hh, L|rewrite Hh, H3'; cbn; lia].
    + unfold start in E. rewrite bool_decide_eq_false_2 in E by apply A. injection E as <- _.
      eapply moves_conserves, moves_refl; [done|done|apply A].
  - pose proof (backend_submit_batch_outstanding b l) as [_ Hlen]. cbn.
    destruct Hs as [[Hs Hh]|(k & slots & A)].
    + unfold backend_submit_batch in *. rewrite bool_decide_eq_false_2 by (rewrite Hs; done).
      split; [by apply conserves_stopped|rewrite length_fmap, length_take; lia].
    + pose proof (submit_batch_moves k b l slots A ltac:(lia)) as M.
      destruct (backend_submit_batch b l) as [b2 j]. cbn [fst snd] in *.
      split; [by eapply moves_conserves|]. rewrite length_fmap, length_take. lia.
  - split; [|done]. destruct Hs as [[Hs Hh]|(k & slots & A)].
    + apply conserves_stopped; [done|done| |done]. cbn. unfold backend_flush.
      by rewrite bool_decide_eq_false_2 by (rewrite Hs; done).
    + by eapply moves_conserves, backend_flush_moves.
  - cbn. destruct Hs as [[Hs Hh]|(k & slots & A)].
    + unfold backend_pop_batch. rewrite decide_True by done. split; [by apply conserves_stopped|done].
    + pose proof (pop_batch_moves k b n slots A) as M. destruct (backend_pop_batch b n) as [b2 l].
      split; [by eapply moves_conserves|done].
  - split; [|done]. destruct Hs as [[Hs Hh]|(k & slots & A)].
    + apply conserves_stopped; [done|done| |done]. unfold request_stop.
      by rewrite bool_decide_eq_false_2 by (rewrite Hs; done).
    + by eapply moves_conserves, request_stop_moves.
  - split; [|done]. destruct Hs as [[Hs Hh]|(k & slots & A)].
    + apply conserves_stopped; [done|done| |done]. unfold wait.
      by rewrite bool_decide_eq_false_2 by (rewrite Hs; done).
    + pose proof (sound_next b ltac:(right; by exists k, slots)).
      destruct (wait b) as [b' e] eqn:E.
      destruct (wait_stops k b b' e slots A E) as [M|(H1' & H2' & H3')]; [by eapply moves_conserves|].
      split_and!; [by left|cbn; by rewrite H2', H3'|cbn [fst]; rewrite H2'; cbn; lia].
Qed.

Lemma gpu_run_conserves calls b :
  sound b → next_task_ (backend_host b) + offered calls <= U64_MAX →
  let '(b', ins, outs) := gpu_run b calls in conserves b b' ins outs.
Proof.
  revert b. induction calls as [|call calls IH]; intros b Hs Hn; cbn [gpu_run].
  { split_and!; [done|done|cbn; lia]. }
  assert (offered (call :: calls) = offered [call] + offered calls) as Eo by (unfold offered; destruct call; cbn [foldr]; lia).
  pose proof (offered_nonneg calls).
  pose proof (gpu_call_conserves b call Hs ltac:(lia)) as C1.
  destruct (gpu_call b call) as [[b1 ins1] outs1]. destruct C1 as ((S1 & P1 & N1) & L1).
  specialize (IH b1 S1 ltac:(lia)). destruct (gpu_run b1 calls) as [[b2 ins2] outs2].
  destruct IH as (S2' & P2 & N2). split_and!; [done| |rewrite length_app; lia].
  rewrite fmap_app, <- (assoc_L (++) (copy_done <$> outs1)), <- P2, (Permutation_app_comm ins1),
    <- (assoc_L (++) ins2), P1. solve_Permutation.
Qed.

Lemma sound_live b : sound b → length (live_copies (backend_host b)) = outstanding b ∧
  (state_ b = stopped → live_copies (backend_host b) = []) ∧
  (outstanding b <= queue_capacity (config_ (backend_host b)))%nat.
Proof.
  unfold outstanding, outstanding_tasks. intros [[Hs ->]|(k & slots & Hs & I & _)].
  { vm_compute. split_and!; [done|done|lia]. }
  rewrite (table_live _ _ _ I), (ti_outstanding _ _ _ I). split_and!; [done|done|].
  rewrite <- (ti_capacity _ _ _ I). apply length_live.
Qed.

(** (C14) Over any calls of a new backend, whatever the device runtime, the visibility gate
    and the clock answer: the copies taken are the copies completed, each once, and
    the copies still outstanding, of which there are as many as the backend counts
    and at most the configured capacity; a backend that has stopped has completed
    every copy it took. *)
Theorem gpu_copies_conserved (r : R) (v : V) (t : T) calls :
  offered calls < U64_MAX →
  let '(b, taken, given) := gpu_run (new_backend r v t) calls in
  taken ≡ₚ (copy_done <$> given) ++ live_copies (backend_host b) ∧
  length (live_copies (backend_host b)) = outstanding b ∧
  (outstanding b <= queue_capacity (config_ (backend_host b)))%nat ∧
  (state_ b = stopped → taken ≡ₚ copy_done <$> given).
Proof.
  intros Ho. pose proof (gpu_run_conserves calls (new_backend r v t) ltac:(by left) ltac:(cbn; lia)) as C.
  destruct (gpu_run _ calls) as [[b taken] given]. destruct C as (S' & P & _).
  destruct (sound_live b S') as (L1 & L2 & L3). cbn in P. rewrite app_nil_r in P.
  split_and!; [done|done|done|]. intros Hst. rewrite (L2 Hst), app_nil_r in P. done.
Qed.

(** ** After a failure of the device *)

Section Broken.
(** Devices whose queue has failed: to poll it is an error, from now on and whatever is
    called; what it answers to a submission is left open. *)
Context (broken : R → Prop).
Record broken_queue : Prop := {
  bq_poll : ∀ r, broken r → let '(r', e, _) := queue_poll r in e ≠ 0 ∧ e ≠ EAGAIN ∧ broken r';
  bq_submit : ∀ r l, broken r → broken (queue_submit r l).1.1;
  bq_stop : ∀ r, broken r → broken (runtime_stop r).1;
}.
Context (HB : broken_queue).

Lemma submit_pending_broken (w w' : HostWorld R V) e :
  broken (queue w) → submit_pending w = (w', e) →
  broken (queue w') ∧ (failure_ (host w') = visibility → failure_ (host w) = visibility).
Proof.
  intros Hw. unfold submit_pending.
  pose proof (bq_submit HB (queue w) (take (count (batch_ (host w))) (tasks (batch_ (host w)))) Hw) as Hq.
  destruct (queue_submit _ _) as [[q status] n]. cbn [fst] in Hq.
  destruct (status =? EAGAIN); [by intros [= <- <-]|]. destruct (negb (status =? 0)); [by intros [= <- <-]|].
  destruct (_ || _); [by intros [= <- <-]|]. destruct (mark_submitted _ _ _) as [slots []];
    cbn [negb]; by intros [= <- <-].
Qed.

(** An error of the visibility gate leaves the tasks to be published where they are. *)
Lemma progress_host_broken (w w' : HostWorld R V) n e :
  initialized (host w) = true → broken (queue w) → progress_host_batch w n = (w', e) →
  broken (queue w') ∧ (e ≠ 0 → failure_ (host w') = visibility → (0 < count (batch_ (host w')))%nat).
Proof.
  intros Hi Hw. unfold progress_host_batch. rewrite Hi. cbn [negb].
  destruct (_ =? _)%nat eqn:Ec; [by intros [= <- <-]|]. destruct (_ && _ && _); [by intros [= <- <-]|].
  bool_hyps. unfold publish_pending. destruct (flushed _).
  { intros [Hq Hf]%submit_pending_broken; [|done]. split; [done|]. intros _ E. by apply Hf in E. }
  destruct (gate_flush (gate w)) as [v status]. destruct (negb (status =? 0)).
  - intros [= <- <-]. split; [done|]. intros _ _. cbn. lia.
  - intros [Hq Hf]%submit_pending_broken; [|done]. split; [done|]. intros _ E. by apply Hf in E.
Qed.

Lemma host_pop_broken k (w w' : HostWorld R V) slots n e o :
  table_inv k (host w) slots → broken (queue w) → host_pop w n = (w', e, o) →
  broken (queue w') ∧
  match o with
  | Some c => e = 0 ∧ bc_result c = backend_error
  | None => e ≠ 0 ∧ (failure_ (host w') = visibility → (0 < count (batch_ (host w')))%nat)
  end.
Proof.
  intros I Hw. unfold host_pop. destruct (table_slots _ _ _ I) as [_ Hi]. rewrite Hi. cbn [negb].
  destruct (progress_host_batch w n) as [w1 e1] eqn:Ep.
  destruct (progress_host_broken w w1 n e1 Hi Hw Ep) as [Hq1 Hv].
  destruct (negb (e1 =? 0)) eqn:E1; bool_hyps; [intros [= <- <- <-]; by split_and!; [..|apply Hv]|].
  assert (∃ slots1, table_inv k (host w1) slots1) as (slots1 & I1).
  { apply (progress_host_batch_inv k w w1 slots n e1 I) in Ep as [[-> _]|[[(slots1 & ? & _) _ _] _ _]];
      [by exists slots|by exists slots1]. }
  destruct (head _ <? tail _) eqn:Eht; bool_hyps.
  - destruct (free_local_inv k (host w1) slots1 I1 Eht) as (_ & _ & _ & X4 & _). unfold local_id in X4.
    destruct (table_slots _ _ _ I1) as [Hs1 _]. rewrite <- Hs1, <- (ti_mask _ _ _ I1) in X4.
    destruct (_ || _ || _); intros [= <- <- <-]; [by split_and!|]. by split_and!.
  - pose proof (bq_poll HB (queue w1) Hq1) as Hpoll. destruct (queue_poll (queue w1)) as [[q status] cc].
    destruct Hpoll as (H1' & H2' & H3'). rewrite (proj2 (Z.eqb_neq status EAGAIN) H2'), (proj2 (Z.eqb_neq status 0) H1').
    cbn [negb]. intros [= <- <- <-]. by split_and!.
Qed.

Lemma progress_stop_broken b : broken (queue (world b)) → broken (queue (world (progress_stop b))).
Proof.
  intros Hb. unfold progress_stop, progress_stop_request. destruct (_ || _ || _); [done|]. unfold on_runtime.
  pose proof (bq_stop HB _ Hb) as Hq. destruct (runtime_stop _) as [r e]. cbn [fst] in Hq.
  unfold note_error. by destruct (e =? 0).
Qed.

(** Once the error is handled, a copy waits in the local ring, or none is outstanding and
    the backend drains. *)
Lemma handle_host_error_ring k b e slots :
  table_inv k (backend_host b) slots →
  (failure_ (backend_host b) = visibility → (0 < count (batch_ (backend_host b)))%nat) →
  let b' := handle_host_error b e in
  head (local_ (backend_host b')) < tail (local_ (backend_host b')) ∨
  outstanding b' = 0%nat ∧ state_ b' = draining.
Proof.
  intros I Hc. unfold handle_host_error. change (backend_host (with_error b e)) with (backend_host b).
  case_decide as Ef.
  - destruct (fail_pending_inv k _ slots I) as (h' & E & _ & _ & _ & Ht & Hh). rewrite E. cbn.
    left. specialize (Hc Ef). lia.
  - destruct (fail_all_inv k _ slots I) as (h' & E & K & _ & _ & O). rewrite E. cbn [note_error Z.eqb]. cbv zeta.
    unfold outstanding. rewrite progress_stop_host, progress_stop_state. cbn.
    destruct (kp_slots _ _ _ _ K) as (slots1 & I1 & _). pose proof (ti_counters _ _ _ I1).
    destruct (decide (outstanding_ h' = 0%nat)); [right; by split|left; lia].
Qed.

Lemma handle_host_error_broken b e : broken (queue (world b)) → broken (queue (world (handle_host_error b e))).
Proof.
  intros Hb. unfold handle_host_error. case_decide.
  - destruct (fail_pending _ _) as [h e1]. by destruct (negb _).
  - destruct (fail_all _ _) as [h e1]. apply progress_stop_broken. unfold note_error. by destruct (e1 =? 0).
Qed.

(** Popping from a backend on a broken queue gives an error for a copy, or shows that none
    is outstanding and has the backend drain. *)
Lemma broken_pop k b n slots :
  active k b slots → broken (queue (world b)) →
  let '(b', o) := pop_at_time b n in
  broken (queue (world b')) ∧
  match o with
  | Some c => bc_result c = backend_error
  | None => outstanding b = 0%nat ∧ state_ b' = draining
  end.
Proof.
  intros (Hs & I & Hr) Hb. unfold pop_at_time. destruct (host_pop (world b) n) as [[w status] o] eqn:E.
  destruct (host_pop_broken k _ _ _ _ _ _ I Hb E) as [Hq Ho].
  assert (∀ x, broken (queue (world x)) →
    broken (queue (world (if decide (state_ x = draining) then progress_stop x else x)))) as Hlast.
  { intros x Hx. case_decide; [by apply progress_stop_broken|done]. }
  destruct o as [c|].
  { destruct Ho as [-> Hc]. cbn [negb Z.eqb]. split; [by apply Hlast|done]. }
  destruct Ho as [He Hv]. rewrite (proj2 (Z.eqb_neq status 0) He). cbn [negb].
  destruct (host_pop_inv k _ _ _ _ _ _ I Hr E) as (_ & _ & P). destruct (kp_slots _ _ _ _ P) as (slots1 & I1 & _).
  destruct (handle_host_error_active k (with_world b w) status slots1 Hs I1) as (K & C & _).
  destruct (kp_slots _ _ _ _ K) as (slots2 & I2 & _).
  pose proof (handle_host_error_broken (with_world b w) status Hq) as Hq2.
  pose proof (handle_host_error_ring k (with_world b w) status slots1 I1 Hv) as Hring.
  pose proof (handle_host_error_outstanding (with_world b w) status) as Hout.
  pose proof (host_pop_outstanding _ _ _ _ _ E) as Hout0. cbv zeta in Hring.
  set (b2 := handle_host_error _ _) in *. destruct (host_pop (world b2) n) as [[w2 e2] o2] eqn:E2.
  destruct (host_pop_broken k _ _ _ _ _ _ I2 Hq2 E2) as [Hq3 Ho2]. destruct o2 as [c|].
  { destruct Ho2 as [-> Hc]. cbn [negb Z.eqb]. split; [by apply Hlast|done]. }
  destruct Hring as [Hlt|[Hz Hd]].
  { exfalso. destruct (host_pop_local k (world b2) slots2 n I2 C Hlt) as (s' & c & E3 & _).
    rewrite E3 in E2. discriminate E2. }
  rewrite (proj2 (Z.eqb_neq e2 0) (proj1 Ho2)). cbn [negb]. split; [by apply Hlast|]. split.
  - unfold outstanding, outstanding_tasks, backend_host in *. cbn [with_world world] in Hout. cbn in Hout0. lia.
  - rewrite decide_True by done. by rewrite progress_stop_state.
Qed.

Lemma broken_pop_loop k n m b slots :
  active k b slots → broken (queue (world b)) → (outstanding b <= m)%nat →
  let '(b', l) := pop_loop b n m in
  outstanding b' = 0%nat ∧ Forall (λ c, bc_result c = backend_error) l ∧
  ((outstanding b < m)%nat → state_ b' = draining).
Proof.
  revert b slots. induction m as [|m IH]; intros b slots A Hb Hm; cbn [pop_loop].
  { split_and!; [lia|done|lia]. }
  pose proof (broken_pop k b n slots A Hb) as Hp. pose proof (pop_at_time_outstanding b n) as Ho.
  pose proof (pop_at_time_moves k b n slots A) as M. destruct (pop_at_time b n) as [b1 [c|]]; cbn [fst snd] in *.
  - destruct Hp as [Hb1 Hc]. destruct (mv_active _ _ _ _ _ M) as [slots1 A1].
    specialize (IH b1 slots1 A1 Hb1 ltac:(lia)). destruct (pop_loop b1 n m) as [b2 l].
    destruct IH as (H1' & H2' & H3'). split_and!; [done|by constructor|intros; apply H3'; lia].
  - destruct Hp as (_ & Hz & Hd). split_and!; [lia|done|done].
Qed.

End Broken.

(** The calls that make the backend what it is now. *)
Definition reached (r : R) (v : V) (t : T) (b : Backend) : Prop :=
  ∃ calls, offered calls < U64_MAX ∧ (gpu_run (new_backend r v t) calls).1.1 = b.

Lemma reached_sound r v t b : reached r v t b → sound b.
Proof.
  intros (calls & Ho & <-).
  pose proof (gpu_run_conserves calls (new_backend r v t) ltac:(by left) ltac:(cbn; lia)) as C.
  destruct (gpu_run _ calls) as [[b taken] given]. apply C.
Qed.

(** (C15) When the queue of the device fails while the backend runs, in the middle of any
    calls, a caller that pops as many completions as copies are outstanding gets one for each
    of them, with an error: no copy is lost and none is reported as done.  With one more pop
    the backend has met the failure and takes no more copies.  This holds whatever the
    visibility gate answers. *)
Theorem device_failure_completes_all (broken : R → Prop) r v t b n :
  broken_queue broken → reached r v t b → state_ b ≠ stopped → broken (queue (world b)) →
  (outstanding b <= n)%nat →
  let '(b', l) := try_pop_completion_batch b n in
  copy_done <$> l ≡ₚ live_copies (backend_host b) ∧
  Forall (λ c, bc_result c = backend_error) l ∧ outstanding b' = 0%nat ∧
  ((outstanding b < n)%nat → state_ b' = draining ∧ ∀ req, try_submit b' req = (b', false)).
Proof.
  intros HB Hreach Hs Hb Hn. apply reached_sound in Hreach as [[? _]|(k & slots & A)]; [done|].
  cbn. unfold backend_pop_batch. rewrite decide_False by done.
  destruct (on_clock_host b) as [Hc1 Hc2]. pose proof (on_clock_world b) as Hw.
  destruct (now b) as [b1 now1]. cbn [fst] in Hc1, Hc2, Hw.
  assert (outstanding b1 = outstanding b) as Eo by (unfold outstanding; by rewrite Hc1).
  assert (active k b1 slots) as A1 by (unfold active in *; by rewrite Hc1, Hc2).
  pose proof (pop_loop_moves k now1 n b1 slots A1) as M.
  pose proof (broken_pop_loop broken HB k now1 n b1 slots A1 ltac:(by rewrite Hw) ltac:(lia)) as Hl.
  destruct (pop_loop b1 now1 n) as [b2 l]. cbn [fst snd] in M. destruct Hl as (Hz & Herr & Hd).
  destruct (mv_active _ _ _ _ _ M) as (slots2 & A2).
  destruct (sound_live b2 ltac:(right; by exists k, slots2)) as (L2 & _).
  rewrite Hz in L2. apply length_zero_iff_nil in L2.
  pose proof (mv_copies _ _ _ _ _ M) as P. rewrite L2, app_nil_r, Hc1 in P.
  split_and!; [by symmetry|done|done|]. intros Hlt. assert (state_ b2 = draining) as Hst by (apply Hd; lia).
  split; [done|]. intros req. unfold backend_submit. by rewrite bool_decide_eq_false_2 by (rewrite Hst; done).
Qed.

(** The device reports the success of the submitted task that holds a copy, when the
    host polls it after what it had to publish. *)
Definition device_success (w : HostWorld R V) (n : Z) (c : BackendCompletion) : Prop :=
  let w1 := (progress_host_batch w n).1 in
  ∃ q cc, queue_poll (queue w1) = (q, 0, cc) ∧ completed_result cc = task_success ∧
    let x := context_at (mask_ (host w1)) (slots_of (host w1)) (completed_id cc) in
    slot_state x = submitted ∧ slot_task x = completed_id cc ∧ copy_done c = (slot_parent x, slot_index x).

(** The host polled a second time, after its first error was handled. *)
Definition retried (b : Backend) (n : Z) : HostWorld R V :=
  let '(w, status, _) := host_pop (world b) n in world (handle_host_error (with_world b w) status).

(** A copy is reported as done only when the device completed its task with success:
    an error on the host's side is never reported as a success. *)
Theorem success_from_device r v t b b' c :
  reached r v t b → try_pop_completion b = (b', Some c) → bc_result c = success →
  let '(b1, n) := now b in device_success (world b1) n c ∨ device_success (retried b1 n) n c.
Proof.
  intros Hreach E Hc. apply reached_sound in Hreach as [[Hst _]|(k & slots & A)];
    cbn in E; unfold backend_pop in E.
  { by rewrite decide_True in E. }
  rewrite decide_False in E by apply A.
  destruct (on_clock_host b) as [Hc1 Hc2]. destruct (now b) as [b1 n]. cbn [fst] in Hc1, Hc2.
  assert (active k b1 slots) as (Hs & I & Hr) by (unfold active; by rewrite Hc1, Hc2).
  unfold pop_at_time in E. unfold retried. destruct (host_pop (world b1) n) as [[w status] o] eqn:Ep.
  destruct (negb (status =? 0)) eqn:Es.
  - destruct (host_pop_inv k _ _ _ _ _ _ I Hr Ep) as (_ & _ & P).
    destruct o as [c0|]; [destruct P as [-> _]; discriminate Es|].
    destruct (kp_slots _ _ _ _ P) as (slots1 & I1 & _).
    destruct (handle_host_error_active k (with_world b1 w) status slots1 Hs I1) as (K & _).
    destruct (kp_slots _ _ _ _ K) as (slots2 & I2 & _). set (b2 := handle_host_error _ _) in *.
    destruct (host_pop (world b2) n) as [[w2 e2] o2] eqn:E2.
    destruct (negb (e2 =? 0)); [discriminate E|]. injection E as _ ->. right.
    exact (host_pop_success k (world b2) w2 slots2 n e2 c I2 E2 Hc).
  - injection E as _ ->. left. exact (host_pop_success k (world b1) w slots n status c I Ep Hc).
Qed.

End Operations.
Arguments Backend : clear implicits.

(** * A device *)

Section Demo.

(** A device that completes the tasks it takes in order, or never. *)
Record DemoDevice := mkDevice { stuck : bool; taken : list CopyTask }.

#[local] Instance demo_queue : PersistentCopyQueue DemoDevice := {|
  queue_submit d l := (mkDevice (stuck d) (taken d ++ l), 0, length l);
  queue_poll d :=
    match stuck d, taken d with
    | false, t :: l => (mkDevice false l, 0, mkCopyCompletion (task_id t) task_success)
    | _, _ => (d, EAGAIN, mkCopyCompletion 0 task_success)
    end;
|}.
#[local] Instance demo_runtime : PersistentCopyRuntime DemoDevice := {|
  initialize_device d _ := (d, 0);
  runtime_start d _ := (d, 0);
  runtime_stop d := (d, 0);
  runtime_wait d := (d, 0);
  runtime_reset d := (mkDevice (stuck d) [], 0);
|}.
#[local] Instance demo_gate : GpuDirectVisibilityGate unit := {|
  gate_initialize v _ := (v, 0); gate_flush v := (v, 0); gate_reset v := (v, 0) |}.
#[local] Instance demo_clock : PersistentCopyClock Z := {| now_nanoseconds t := (t + 10, t) |}.

Definition demo_config : Config := mkConfig 0 4096 65536 64 kHostBatch 1000.
Definition demo_copy (i : Z) : BackendRequest := mkBackendRequest 7 4096 0 (4096 + i * 64) 1048576 64 i 2.
(** A copy whose source is outside the staging buffer. *)
Definition demo_outside (i : Z) : BackendRequest := mkBackendRequest 8 64 0 16 1048576 64 i 1.

Definition demo_calls : list Call :=
  [call_start demo_config; call_submit [demo_copy 0; demo_outside 0; demo_copy 1]; call_flush; call_pop 8;
   call_stop; call_wait].
Definition demo_backend (stuck : bool) : Backend DemoDevice unit Z := new_backend (mkDevice stuck []) tt 0.

Lemma gpu_copies_conserved_witness :
  offered demo_calls < U64_MAX ∧
  let '(b, taken, given) := gpu_run (demo_backend false) demo_calls in
  state_ b = stopped ∧ taken = [(7, 0); (8, 0); (7, 1)] ∧ taken ≡ₚ copy_done <$> given.
Proof.
  assert (offered demo_calls < U64_MAX) as Ho by done.
  pose proof (gpu_copies_conserved (mkDevice false []) tt 0 demo_calls Ho) as C. fold (demo_backend false) in C.
  assert (state_ (gpu_run (demo_backend false) demo_calls).1.1 = stopped ∧
          (gpu_run (demo_backend false) demo_calls).1.2 = [(7, 0); (8, 0); (7, 1)]) as [E1 E2].
  { clear C. split; reflexivity. }
  destruct (gpu_run (demo_backend false) demo_calls) as [[b taken] given]. cbn [fst snd] in *.
  split; [exact Ho|]. split; [exact E1|]. split; [exact E2|]. by apply C.
Defined.

Definition demo_prefix : list Call :=
  [call_start demo_config; call_submit [demo_copy 0; demo_copy 1]; call_flush].

Definition demo_running : Backend DemoDevice unit Z := (gpu_run (demo_backend false) demo_prefix).1.1.

Lemma success_from_device_witness :
  ∃ c, (try_pop_completion demo_running).2 = Some c ∧ copy_done c = (7, 0) ∧
    let '(b1, n) := now demo_running in device_success (world b1) n c ∨ device_success (retried b1 n) n c.
Proof.
  assert (reached (mkDevice false []) tt 0 demo_running) as Hr.
  { exists demo_prefix. split; [by vm_compute|]. unfold demo_running, demo_backend. reflexivity. }
  assert ((try_pop_completion demo_running).2 = Some (mkBackendCompletion 7 0 success)) as E
    by (vm_compute; reflexivity).
  exists (mkBackendCompletion 7 0 success). split; [exact E|]. split; [done|].
  destruct (try_pop_completion demo_running) as [b' o] eqn:Ep. cbn [snd] in E. subst o.
  exact (success_from_device _ _ _ demo_running b' _ Hr Ep eq_refl).
Defined.

(** While the first copy is still with the device, as many copies with a source outside
    the staging buffer come and go as the table has further slots; the next copy is
    refused as a protocol error although one task is outstanding of 64, and the backend
    stops accepting copies. *)
Definition demo_collision : Backend DemoDevice unit Z :=
  (gpu_run (demo_backend true)
     ([call_start demo_config; call_submit [demo_copy 0]; call_flush]
      ++ concat ((λ i, [call_submit [demo_outside (Z.of_nat i)]; call_pop 1]) <$> seq 0 63))).1.1.

Theorem slot_collision_stops_backend :
  state_ demo_collision = accepting ∧ outstanding demo_collision = 1%nat ∧
  queue_capacity (config_ (backend_host demo_collision)) = 64%nat ∧
  let '(b, accepted) := try_submit demo_collision (demo_copy 1) in
  accepted = false ∧ state_ b = draining ∧ last_error_ b = EPROTO.
Proof. vm_compute. by split_and!. Qed.

(** A device that completes as many tasks as it has polls left; then polling fails. *)
Record FaultyDevice := mkFaulty { polls_left : nat; faulty_taken : list CopyTask }.

#[local] Instance faulty_queue : PersistentCopyQueue FaultyDevice := {|
  queue_submit d l := (mkFaulty (polls_left d) (faulty_taken d ++ l), 0, length l);
  queue_poll d :=
    match polls_left d, faulty_taken d with
    | O, _ => (d, EIO, mkCopyCompletion 0 task_success)
    | S n, t :: l => (mkFaulty n l, 0, mkCopyCompletion (task_id t) task_success)
    | S n, [] => (d, EAGAIN, mkCopyCompletion 0 task_success)
    end;
|}.
#[local] Instance faulty_runtime : PersistentCopyRuntime FaultyDevice := {|
  initialize_device d _ := (d, 0);
  runtime_start d _ := (d, 0);
  runtime_stop d := (d, 0);
  runtime_wait d := (d, 0);
  runtime_reset d := (mkFaulty (polls_left d) [], 0);
|}.

Lemma faulty_broken : broken_queue (λ d : FaultyDevice, polls_left d = O).
Proof. split; [|done|done]. intros [n l]. cbn. by intros ->. Qed.

(** Three copies are with the device and one is not yet published when the device fails,
    after it completed the first. *)
Definition faulty_calls : list Call :=
  [call_start demo_config; call_submit [demo_copy 0; demo_copy 1; demo_copy 2]; call_flush; call_pop 1;
   call_submit [demo_copy 3]].
Definition faulty_backend : Backend FaultyDevice unit Z :=
  (gpu_run (new_backend (mkFaulty 1 []) tt 0) faulty_calls).1.1.

Lemma device_failure_completes_all_witness :
  outstanding faulty_backend = 3%nat ∧ state_ faulty_backend = accepting ∧
  (gpu_run (new_backend (mkFaulty 1 []) tt 0) faulty_calls).2 = [mkBackendCompletion 7 0 success] ∧
  let '(b, l) := try_pop_completion_batch faulty_backend 4 in
  copy_done <$> l ≡ₚ [(7, 1); (7, 2); (7, 3)] ∧ Forall (λ c, bc_result c = backend_error) l ∧
  outstanding b = 0%nat ∧ state_ b = draining.
Proof.
  split; [reflexivity|]. split; [reflexivity|]. split; [reflexivity|].
  assert (reached (mkFaulty 1 []) tt 0 faulty_backend) as Hr.
  { exists faulty_calls. split; [by vm_compute|]. unfold faulty_backend. reflexivity. }
  assert (state_ faulty_backend ≠ stopped) as H1 by (by vm_compute).
  assert (polls_left (queue (world faulty_backend)) = O) as H2 by reflexivity.
  assert (outstanding faulty_backend <= 4)%nat as H3 by (vm_compute; lia).
  pose proof (device_failure_completes_all _ _ _ _ faulty_backend 4 faulty_broken Hr H1 H2 H3) as C.
  assert (live_copies (backend_host faulty_backend) = [(7, 1); (7, 2); (7, 3)]) as El by reflexivity.
  assert (outstanding faulty_backend < 4)%nat as H4 by (vm_compute; lia).
  rewrite El in C. destruct (try_pop_completion_batch _ 4) as [b l]. destruct C as (C1 & C2 & C3 & C4).
  split; [exact C1|]. split; [exact C2|]. split; [exact C3|]. exact (proj1 (C4 H4)).
Defined.

End Demo.

End GpuBackend.
