(* ===== verification/GpuLink.v ===== *)
(** The GPU copy backend and the tasks of its device (src/gpu/persistent_copy_backend.cu,
    [PersistentCudaCopyBackend] over [PersistentCopyRuntime]).

    [CopyingRuntime] states what the device runtime promises the backend: it copies only
    tasks handed over since its last start, none of them twice, and completes a task with
    success only when it was copied.  Against this interface: a copy that the backend
    reports as done was copied by the device, from the source and to the target its
    request named, and the device copies nothing but the requests the backend took. *)

From S2P Require Import Prelude LocalTransport WorkerRespond CopyHost CopyTable GpuBackend.
Import Transport Copy CopyHost CopyTable Respond GpuBackend.

(** * The promise of the device runtime *)

Class CopyingRuntime (R : Type) `{PersistentCopyRuntime R} := {
  runtime_inv : R → Prop;
  handed : R → list CopyTask;       (* taken since the last start *)
  copied : R → list CopyTask;       (* copied by the device since the last start *)
  law_submit r l : runtime_inv r →
    let '(r', status, n) := queue_submit r l in
    runtime_inv r' ∧ copied r ⊆ copied r' ∧
    if status =? 0 then (0 < n <= length l)%nat ∧ handed r' = handed r ++ take n l
    else handed r' = handed r;
  law_poll r : runtime_inv r →
    let '(r', status, c) := queue_poll r in
    runtime_inv r' ∧ copied r ⊆ copied r' ∧ handed r' = handed r ∧
    (status = 0 → completed_result c = task_success →
       ∃ t, t ∈ copied r' ∧ task_id t = completed_id c);
  law_stop r : runtime_inv r →
    let r' := (runtime_stop r).1 in runtime_inv r' ∧ copied r ⊆ copied r' ∧ handed r' = handed r;
  law_initialize r device : runtime_inv r → runtime_inv (initialize_device r device).1;
  law_start r c : runtime_inv r →
    let '(r', status) := runtime_start r c in runtime_inv r' ∧ (status = 0 → handed r' = []);
  law_wait r : runtime_inv r → runtime_inv (runtime_wait r).1;
  law_reset r : runtime_inv r → runtime_inv (runtime_reset r).1;
  copied_handed r : runtime_inv r → copied r ⊆ handed r;
  copied_once r : runtime_inv r → NoDup (task_id <$> handed r) → NoDup (task_id <$> copied r);
}.

Module GpuLink.

(** * Entries of the table *)

(** The task and the copy a slot holds. *)
Definition keyed (c : TaskContextSlot) : list (Z * (Z * Z)) :=
  if decide (slot_state c = free) then [] else [(slot_task c, (slot_parent c, slot_index c))].
Definition entries (h : Host) : list (Z * (Z * Z)) := slots_of h ≫= keyed.
Definition batch_tasks (h : Host) : list CopyTask := take (count (batch_ h)) (tasks (batch_ h)).

Lemma keyed_in c : slot_state c ≠ free → (slot_task c, (slot_parent c, slot_index c)) ∈ keyed c.
Proof. intros E. unfold keyed. rewrite decide_False by done. set_solver. Qed.

(** Writing a slot: an entry is one of the new slot, or an old one. *)
Lemma set_context_keyed mask slots id c x :
  x ∈ set_context mask slots id c ≫= keyed → x ∈ keyed c ∨ x ∈ slots ≫= keyed.
Proof.
  unfold set_context. intros (y & Hx & (p & Hp)%list_elem_of_lookup)%list_elem_of_bind.
  apply list_lookup_insert_Some in Hp as [(_ & <- & _)|[_ Hp]]; [by left|right].
  apply list_elem_of_bind. exists y. split; [done|]. by eapply list_elem_of_lookup_2.
Qed.

(** A slot that keeps its task and its copy. *)
Lemma context_keyed mask slots id c :
  slot_state (context_at mask slots id) ≠ free → keyed c = keyed (context_at mask slots id) →
  set_context mask slots id c ≫= keyed ⊆ slots ≫= keyed.
Proof.
  intros Hs Hc x [Hx|?]%set_context_keyed; [|done]. rewrite Hc in Hx.
  apply list_elem_of_bind. exists (context_at mask slots id). split; [done|].
  unfold context_at in *. destruct (slots !! slot_of mask id) eqn:E; [|done]. by eapply list_elem_of_lookup_2.
Qed.

Lemma mark_submitted_keyed mask l slots : (mark_submitted mask slots l).1 ≫= keyed ⊆ slots ≫= keyed.
Proof.
  revert slots. induction l as [|t l IH]; intros slots; cbn [mark_submitted]; [done|].
  destruct (_ || _) eqn:E; [done|]. bool_hyps. etrans; [apply IH|]. apply context_keyed; [congruence|].
  unfold keyed. cbn. by rewrite !decide_False by (done || congruence).
Qed.

Lemma fail_tasks_keyed mask res l slots ring :
  (fail_tasks mask slots ring l res).1.1 ≫= keyed ⊆ slots ≫= keyed.
Proof.
  revert slots ring. induction l as [|t l IH]; intros slots ring; cbn [fail_tasks]; [done|].
  destruct (_ || _) eqn:E; [done|]. bool_hyps. etrans; [apply IH|]. apply context_keyed; [congruence|].
  unfold keyed. cbn. by rewrite !decide_False by (done || congruence).
Qed.

Lemma fail_submitted_keyed mask res slots ring :
  (fail_submitted mask slots ring res).1 ≫= keyed = slots ≫= keyed.
Proof.
  revert ring. induction slots as [|c slots IH]; intros ring; cbn [fail_submitted]; [done|]. case_decide as E.
  - specialize (IH (push_local mask ring (slot_task c))). destruct (fail_submitted _ _ _ _). cbn [fst] in *.
    rewrite !bind_cons, IH. f_equal. unfold keyed. cbn. by rewrite !decide_False by (done || congruence).
  - specialize (IH ring). destruct (fail_submitted _ _ _ _). cbn [fst] in *. by rewrite !bind_cons, IH.
Qed.

(** * Steps of the host *)

(** From one state to another, no slot gets another copy for a task it already had. *)
Record follows (h h' : Host) : Prop := {
  fw_config : config_ h' = config_ h;
  fw_next : next_task_ h <= next_task_ h';
  fw_entries : ∀ id copy, (id, copy) ∈ entries h' → id < next_task_ h → (id, copy) ∈ entries h;
}.

#[export] Instance follows_preorder : PreOrder follows.
Proof.
  split; [by split|]. intros h1 h2 h3 [C1 N1 E1] [C2 N2 E2].
  split; [congruence|lia|]. intros id copy Hi Hn. apply E1; [|done]. apply E2; [done|lia].
Qed.

Lemma follows_same h h' :
  config_ h' = config_ h → next_task_ h' = next_task_ h → contexts_ h' = contexts_ h → follows h h'.
Proof. intros H1 H2 H3. split; [done|lia|]. unfold entries, slots_of. by rewrite H3. Qed.

Lemma follows_slots h h' slots :
  config_ h' = config_ h → next_task_ h' = next_task_ h → contexts_ h' = Some slots →
  slots ≫= keyed ⊆ entries h → follows h h'.
Proof. intros H1 H2 H3 H4. split; [done|lia|]. intros id copy Hi _. apply H4. unfold entries, slots_of in Hi. by rewrite H3 in Hi. Qed.

(** The slot of the next task gets that task. *)
Lemma follows_fresh h h' c :
  config_ h' = config_ h → next_task_ h' = next_task_ h + 1 →
  contexts_ h' = Some (set_context (mask_ h) (slots_of h) (next_task_ h) c) → slot_task c = next_task_ h →
  follows h h'.
Proof.
  intros H1 H2 H3 H4. split; [done|lia|]. intros id copy Hi Hn. unfold entries, slots_of in Hi |- *.
  rewrite H3 in Hi. apply set_context_keyed in Hi as [Hi|?]; [|done]. unfold keyed in Hi. case_decide; [set_solver|].
  apply list_elem_of_singleton in Hi. simplify_eq. lia.
Qed.

Lemma fail_pending_follows h : follows h (fail_pending h backend_error).1.
Proof.
  unfold fail_pending. destruct (negb _); [done|].
  pose proof (fail_tasks_keyed (mask_ h) backend_error (take (count (batch_ h)) (tasks (batch_ h))) (slots_of h) (local_ h)) as F.
  destruct (fail_tasks _ _ _ _ _) as [[slots l] ok]. cbn [fst] in F.
  destruct (negb ok); by eapply follows_slots.
Qed.

Lemma fail_all_follows h : follows h (fail_all h backend_error).1.
Proof.
  unfold fail_all. pose proof (fail_pending_follows h) as F1. destruct (fail_pending h _) as [h1 e1]. cbn [fst] in F1.
  destruct (negb _); [done|]. etrans; [exact F1|].
  pose proof (fail_submitted_keyed (mask_ h1) backend_error (slots_of h1) (local_ h1)) as F2.
  destruct (fail_submitted _ _ _ _) as [slots l]. cbn [fst] in *. eapply follows_slots; [done..|]. by rewrite F2.
Qed.

Lemma free_context_follows h id l :
  follows h (with_local (free_context h id) l) ∧ follows h (free_context h id).
Proof.
  split; (eapply follows_slots; [done..|]); intros x [Hx|?]%set_context_keyed; [|done| |done];
    unfold keyed in Hx; rewrite decide_True in Hx by done; by apply elem_of_nil in Hx.
Qed.

(** * The link to the device *)

Section Link.
Context {R V T : Type} `{CopyingRuntime R} `{GpuDirectVisibilityGate V} `{PersistentCopyClock T}.
Implicit Types (w : HostWorld R V) (reqs : list BackendRequest).

(** A task was made from a request, and its slot holds that request's copy or another
    task. *)
Definition made reqs (h : Host) (t : CopyTask) : Prop :=
  task_id t < next_task_ h ∧
  ∃ r, r ∈ reqs ∧ make_copy_task (config_ h) r (task_id t) = Ok t ∧
    ∀ copy, (task_id t, copy) ∈ entries h → copy = copy_of r.

Lemma made_follows reqs h h' t : follows h h' → made reqs h t → made reqs h' t.
Proof.
  intros [C N E] (Hn & r & Hr & Hm & Hc). split; [lia|]. exists r. rewrite C. split_and!; [done..|].
  intros copy Hi. by apply Hc, E.
Qed.
Lemma made_mono reqs reqs' h t : reqs ⊆ reqs' → made reqs h t → made reqs' h t.
Proof. intros Hs (Hn & r & Hr & Hm & Hc). split; [done|]. exists r. by split_and!; [apply Hs|..]. Qed.

(** Each task handed over or to be published was made from a request, and has an identity
    of its own. *)
Record linked reqs w : Prop := {
  lk_runtime : runtime_inv (queue w);
  lk_made : ∀ t, t ∈ handed (queue w) ++ batch_tasks (host w) → made reqs (host w) t;
  lk_once : NoDup (task_id <$> handed (queue w) ++ batch_tasks (host w));
}.

Lemma linked_mono reqs reqs' w : reqs ⊆ reqs' → linked reqs w → linked reqs' w.
Proof. intros Hs [L1 L2 L3]. split; [done| |done]. intros t Ht. by eapply made_mono, L2. Qed.

Lemma linked_step reqs w w' :
  linked reqs w → runtime_inv (queue w') → follows (host w) (host w') →
  handed (queue w') ++ batch_tasks (host w') ⊆+ handed (queue w) ++ batch_tasks (host w) → linked reqs w'.
Proof.
  intros [L1 L2 L3] HR F S. split; [done| |].
  - intros t Ht. eapply made_follows, L2; [done|]. by eapply elem_of_submseteq.
  - apply (fmap_submseteq task_id), submseteq_Permutation in S as [k S]. rewrite S in L3. by apply NoDup_app in L3 as [? _].
Qed.

(** A task that was copied, made from the request of the copy. *)
Definition done_copy reqs w (c : Z * Z) : Prop :=
  ∃ r t, r ∈ reqs ∧ copy_of r = c ∧ make_copy_task (config_ (host w)) r (task_id t) = Ok t ∧ t ∈ copied (queue w).

(** From one state to another, nothing copied is forgotten. *)
Definition onward w w' : Prop :=
  config_ (host w') = config_ (host w) ∧ copied (queue w) ⊆ copied (queue w').
#[export] Instance onward_preorder : PreOrder onward.
Proof. split; [by split|]. intros w1 w2 w3 [C1 S1] [C2 S2]. split; [congruence|by etrans]. Qed.
Lemma done_copy_onward reqs w w' c : onward w w' → done_copy reqs w c → done_copy reqs w' c.
Proof. intros [C S] (r & t & H1' & H2' & H3' & H4'). exists r, t. rewrite C. by split_and!; [..|apply S]. Qed.

(** ** Publishing *)

Lemma batch_published {A} (l : list A) n c :
  (n <= c)%nat → (c <= length l)%nat →
  take n l ++ take (c - n) (take (c - n) (drop n l) ++ drop (c - n) l) = take c l.
Proof.
  intros Hn Hc. rewrite take_app_le by (rewrite length_take, length_drop; lia). rewrite take_take, Nat.min_id.
  rewrite take_take_drop. f_equal. lia.
Qed.

Lemma submit_pending_linked k reqs w w' slots e :
  table_inv k (host w) slots → linked reqs w → submit_pending w = (w', e) →
  linked reqs w' ∧ onward w w'.
Proof.
  intros I L. destruct (table_slots _ _ _ I) as [Hs _]. pose proof L as [LR LM LO]. unfold submit_pending.
  pose proof (law_submit (queue w) (take (count (batch_ (host w))) (tasks (batch_ (host w)))) LR) as Law.
  destruct (queue_submit _ _) as [[q status] n]. destruct Law as (HR & Hcp & Hq).
  assert (∀ h, contexts_ h = contexts_ (host w) → config_ h = config_ (host w) →
    next_task_ h = next_task_ (host w) → batch_tasks h = batch_tasks (host w) → status ≠ 0 →
    linked reqs (mkHostWorld h q (gate w)) ∧ onward w (mkHostWorld h q (gate w))) as Hsame.
  { intros h E1 E2 E3 E4 Es. rewrite (proj2 (Z.eqb_neq _ _) Es) in Hq. split; [|by split].
    eapply linked_step; [exact L|done|by apply follows_same|]. cbn [queue host]. by rewrite Hq, E4. }
  destruct (status =? EAGAIN) eqn:Ea.
  { intros [= <- <-]. bool_hyps. subst status. by apply Hsame. }
  destruct (status =? 0) eqn:Es; cbn [negb]; bool_hyps; [|intros [= <- <-]; by apply Hsame].
  pose proof (ti_tasks _ _ _ I) as Hl. pose proof (ti_count _ _ _ I) as Hc.
  rewrite length_take in Hq. destruct Hq as [Hn Hq].
  destruct ((n =? 0)%nat || (count (batch_ (host w)) <? n)%nat) eqn:En; bool_hyps.
  { exfalso. apply orb_true_iff in En as [En|En]; bool_hyps; lia. }
  rewrite Hs, (ti_mask _ _ _ I).
  destruct (mark_submitted_spec k (ti_k _ _ _ I) (take n (tasks (batch_ (host w)))) slots
    (task_id <$> take (count (batch_ (host w)) - n) (drop n (tasks (batch_ (host w)))))) as (slots' & E & _).
  { apply I. } { apply I. }
  { rewrite (ti_pending _ _ _ I). unfold batch_ids. rewrite <- fmap_app, take_take_drop.
    by replace (n + (_ - n))%nat with (count (batch_ (host w))) by lia. }
  pose proof (mark_submitted_keyed (2 ^ k - 1) (take n (tasks (batch_ (host w)))) slots) as K. rewrite E in K |- *.
  cbn [negb fst] in K |- *. intros [= <- <-]. split; [|by split].
  eapply linked_step; [exact L|done| |].
  - eapply follows_slots; [done..|]. unfold entries. by rewrite Hs.
  - cbn [with_host host queue]. rewrite Hq, take_take, Nat.min_l, <- (assoc_L (++)) by lia.
    apply Permutation_submseteq, Permutation_refl'. f_equal. unfold batch_tasks. cbn [with_batch batch_].
    destruct (_ - n =? 0)%nat eqn:Er; bool_hyps; cbn [tasks count].
    + rewrite take_0, app_nil_r. f_equal. lia.
    + apply batch_published; lia.
Qed.

Lemma linked_host reqs w h :
  config_ h = config_ (host w) → next_task_ h = next_task_ (host w) → contexts_ h = contexts_ (host w) →
  batch_tasks h = batch_tasks (host w) → linked reqs w → linked reqs (with_host w h) ∧ onward w (with_host w h).
Proof.
  intros E1 E2 E3 E4 L. split; [|by split]. eapply linked_step; [exact L|apply L|by apply follows_same|].
  cbn [with_host host queue]. by rewrite E4.
Qed.

(** A change of the gate alone. *)
Lemma linked_gate reqs w w' : queue w' = queue w → host w' = host w → linked reqs w → linked reqs w' ∧ onward w w'.
Proof. intros E1 E2 []. unfold onward. split; [split|]; rewrite ?E1, ?E2; done. Qed.

Lemma publish_pending_linked k reqs w w' slots e :
  table_inv k (host w) slots → linked reqs w → publish_pending w = (w', e) → linked reqs w' ∧ onward w w'.
Proof.
  intros I L. unfold publish_pending.
  assert (∀ b v, tasks b = tasks (batch_ (host w)) → count b = count (batch_ (host w)) → ∀ f,
    let w1 := mkHostWorld (with_batch (with_failure (host w) f) b) (queue w) v in
    linked reqs w1 ∧ onward w w1) as H1'.
  { intros b v E1 E2 f w1. destruct (linked_host reqs w (host w1)) as [L1 O1]; [done..| |done|].
    { unfold batch_tasks. cbn. by rewrite E1, E2. }
    destruct (linked_gate reqs (with_host w (host w1)) w1) as [L2 O2]; [done..|]. split; [done|by etrans]. }
  assert (∀ b v, tasks b = tasks (batch_ (host w)) → count b = count (batch_ (host w)) →
    submit_pending (mkHostWorld (with_batch (with_failure (host w) no_failure) b) (queue w) v) = (w', e) →
    linked reqs w' ∧ onward w w') as Hsub.
  { intros b v E1 E2 E. destruct (H1' b v E1 E2 no_failure) as [L1 O1].
    eapply (submit_pending_linked k) in E as [L2 O2]; [|by apply (table_inv_flags k (host w))|done].
    split; [done|by etrans]. }
  destruct (flushed _); [by apply (Hsub (batch_ (host w)) (gate w))|].
  destruct (gate_flush (gate w)) as [v status]. destruct (negb (status =? 0)).
  - intros [= <- <-]. exact (H1' (mkBatch _ _ _ _ _) v eq_refl eq_refl visibility).
  - by apply (Hsub (mkBatch _ _ _ _ _) v).
Qed.

Lemma progress_host_batch_linked k reqs w w' slots n e :
  table_inv k (host w) slots → linked reqs w → progress_host_batch w n = (w', e) →
  linked reqs w' ∧ onward w w'.
Proof.
  intros I L. unfold progress_host_batch. destruct (negb _); [by intros [= <- <-]|].
  destruct (_ =? _)%nat; [by intros [= <- <-]|]. destruct (_ && _ && _); [by intros [= <- <-]|].
  by apply (publish_pending_linked k _ _ _ slots).
Qed.

Lemma publish_now_linked k reqs w w' slots e :
  table_inv k (host w) slots → linked reqs w → publish_pending_now w = (w', e) →
  linked reqs w' ∧ onward w w'.
Proof.
  intros I L. unfold publish_pending_now. destruct (negb _); [by intros [= <- <-]|].
  destruct (_ =? _)%nat; [by intros [= <- <-]|]. by apply (publish_pending_linked k _ _ _ slots).
Qed.

(** ** Taking copies *)

(** No slot holds the next task: the slot it would be in is free. *)
Lemma next_not_held k h slots copy :
  table_inv k h slots → slot_state (context_at (2 ^ k - 1) slots (next_task_ h)) = free →
  (next_task_ h, copy) ∉ entries h.
Proof.
  intros I Hf Hi. unfold entries in Hi. rewrite (proj1 (table_slots _ _ _ I)) in Hi.
  apply list_elem_of_bind in Hi as (c & Hc & (p & Hp)%list_elem_of_lookup).
  unfold keyed in Hc. case_decide as Es; [set_solver|]. apply list_elem_of_singleton in Hc. injection Hc as En _.
  pose proof (ti_home _ _ _ I p c Hp Es) as Hh. unfold context_at in Hf. rewrite En, Hh, Hp in Hf. done.
Qed.

(** A task of the next identity joins the batch. *)
Lemma add_pending_linked k reqs w slots r task h' :
  table_inv k (host w) slots → slot_state (context_at (2 ^ k - 1) slots (next_task_ (host w))) = free →
  linked reqs w → r ∈ reqs → make_copy_task (config_ (host w)) r (next_task_ (host w)) = Ok task →
  config_ h' = config_ (host w) → next_task_ h' = next_task_ (host w) + 1 →
  contexts_ h' = Some (set_context (mask_ (host w)) (slots_of (host w)) (next_task_ (host w))
    (mkContext (next_task_ (host w)) (br_parent r) (br_index r) pending success)) →
  batch_tasks h' = batch_tasks (host w) ++ [task] → linked reqs (with_host w h').
Proof.
  intros I Hfree [LR LM LO] Hr Ht E1 E2 E3 E4. pose proof (make_copy_task_id _ _ _ _ Ht) as Hid.
  pose proof (follows_fresh (host w) h' _ E1 E2 E3 eq_refl) as F.
  split; cbn [with_host queue host]; rewrite ?E4, ?(assoc_L (++)); [done| |].
  - intros t [Ht'|Ht']%elem_of_app; [by eapply made_follows, LM|]. apply list_elem_of_singleton in Ht' as ->.
    split; [lia|]. exists r. rewrite E1, Hid. split_and!; [done..|]. intros copy Hc.
    unfold entries, slots_of in Hc. rewrite E3 in Hc. apply set_context_keyed in Hc as [Hc|Hc].
    + unfold keyed in Hc. case_decide; [set_solver|]. apply list_elem_of_singleton in Hc. by simplify_eq.
    + by apply (next_not_held k _ slots copy I Hfree) in Hc.
  - rewrite fmap_app. cbn. apply NoDup_app. split_and!; [done| |apply NoDup_singleton].
    intros i (t & -> & Hi)%list_elem_of_fmap Hx. apply list_elem_of_singleton in Hx.
    apply LM in Hi as [Hi _]. lia.
Qed.

Lemma host_submit_linked k reqs w w' slots r n e accepted :
  table_inv k (host w) slots → has_room (host w) → next_task_ (host w) < U64_MAX →
  linked reqs w → (accepted = true → r ∈ reqs) → host_submit w r n = (w', e, accepted) →
  linked reqs w' ∧ onward w w'.
Proof.
  intros I Hroom Hn L Hr. destruct (table_slots _ _ _ I) as [Hs Hi]. unfold host_submit. rewrite Hi.
  cbn [negb]. destruct (_ || _) eqn:Eb; [by intros [= <- <- <-]|].
  destruct (negb (bool_decide _)) eqn:Efree; [by intros [= <- <- <-]|].
  destruct (make_copy_task _ _ _) as [task|e'] eqn:Et; [|by intros [= <- <- <-]].
  bool_hyps. rewrite Hs, (ti_mask _ _ _ I) in Efree. pose proof (ti_tasks _ _ _ I) as Hlen.
  pose proof (ti_next _ _ _ I) as Hpos. pose proof (ti_counters _ _ _ I).
  set (b1 := if (count (batch_ (host w)) =? 0)%nat then _ else _).
  assert (tasks b1 = tasks (batch_ (host w)) ∧ count b1 = count (batch_ (host w)))
    as (Eb1 & Eb2) by (unfold b1; by case_match).
  assert (count (batch_ (host w)) < kHostBatch)%nat as Hlt.
  { pose proof (ti_count _ _ _ I).
    destruct (decide (count (batch_ (host w)) = kHostBatch)) as [E|]; [exfalso|lia].
    rewrite (Hroom E), E in *. done. }
  set (b2 := mkBatch _ _ _ _ _). set (h1 := with_next _ _).
  assert (r ∈ reqs → linked reqs (with_host w h1)) as L1.
  { intros Hin. apply (add_pending_linked k reqs w slots r task); try done.
    - cbn. apply u64_small. ulia.
    - unfold batch_tasks. cbn. rewrite Eb1, Eb2. erewrite take_S_r by (apply list_lookup_insert_eq; lia).
      by rewrite take_insert_ge by lia. }
  pose proof (add_pending_inv k (host w) slots r b2 task I Efree Hn Hlt (make_copy_task_id _ _ _ _ Et)
    ltac:(cbn; by rewrite Eb1, Eb2) ltac:(cbn; by rewrite Eb2)) as Tk.
  fold h1 in Tk. destruct (tk_slots _ _ _ _ _ Tk) as (slots1 & I1 & _).
  destruct (count b2 =? _)%nat; [|intros [= <- <- <-]; split; [by apply L1, Hr|by split]].
  destruct (publish_pending (with_host w h1)) as [w2 e2] eqn:Ep. intros [= <- <- <-].
  destruct (publish_pending_linked k reqs (with_host w h1) w2 slots1 e2 I1 (L1 (Hr eq_refl)) Ep) as [L2 O2].
  split; [done|]. etrans; [|exact O2]. by split.
Qed.

Lemma complete_locally_linked k reqs w h' slots r e accepted :
  table_inv k (host w) slots → next_task_ (host w) < U64_MAX → linked reqs w →
  complete_locally (host w) r backend_error = (h', e, accepted) →
  linked reqs (with_host w h') ∧ onward w (with_host w h').
Proof.
  intros I Hn L. unfold complete_locally. rewrite (proj2 (table_slots _ _ _ I)). cbn [negb].
  pose proof (ti_next _ _ _ I) as Hpos. pose proof (ti_counters _ _ _ I).
  destruct (_ <=? _)%nat; [intros [= <- <- <-]; by apply linked_host|].
  destruct (negb _); [intros [= <- <- <-]; by apply linked_host|]. intros [= <- <- <-]. split; [|by split].
  eapply linked_step; [exact L|apply L| |done].
  eapply follows_fresh; [done| |done|done]. cbn. apply u64_small. ulia.
Qed.

(** ** Completions *)

Lemma context_entry h id :
  let x := context_at (mask_ h) (slots_of h) id in
  slot_state x ≠ free → (slot_task x, (slot_parent x, slot_index x)) ∈ entries h.
Proof.
  intros x Hx. unfold entries. apply list_elem_of_bind. exists x. split; [by apply keyed_in|].
  unfold x, context_at in *. destruct (slots_of h !! _) eqn:E; [|done]. by eapply list_elem_of_lookup_2.
Qed.

(** A success the device reports is that of a task made from the request of the slot's
    copy. *)
Lemma polled_success reqs w q cc :
  linked reqs w → queue_poll (queue w) = (q, 0, cc) → completed_result cc = task_success →
  let x := context_at (mask_ (host w)) (slots_of (host w)) (completed_id cc) in
  slot_state x = submitted → slot_task x = completed_id cc →
  ∃ r t, r ∈ reqs ∧ copy_of r = (slot_parent x, slot_index x) ∧
    make_copy_task (config_ (host w)) r (task_id t) = Ok t ∧ t ∈ copied q.
Proof.
  intros [LR LM _] E Hr x Hs Ht. pose proof (law_poll (queue w) LR) as Law. rewrite E in Law.
  destruct Law as (HR & _ & Hh & Hc). destruct (Hc eq_refl Hr) as (t & Hin & Hid).
  destruct (LM t) as (_ & r & Hreq & Hmk & Hcopy).
  { apply elem_of_app. left. rewrite <- Hh. by apply copied_handed. }
  exists r, t. split_and!; [done| |done|done]. symmetry. apply Hcopy. rewrite Hid, <- Ht.
  apply context_entry. fold x. by rewrite Hs.
Qed.

Lemma host_pop_linked k reqs w w' slots n e o :
  table_inv k (host w) slots → linked reqs w → host_pop w n = (w', e, o) →
  linked reqs w' ∧ onward w w' ∧
  ∀ c, o = Some c → bc_result c = success → done_copy reqs w' (copy_done c).
Proof.
  intros I L. unfold host_pop. rewrite (proj2 (table_slots _ _ _ I)). cbn [negb].
  destruct (progress_host_batch w n) as [w1 e1] eqn:Ep.
  destruct (progress_host_batch_linked k reqs w w1 slots n e1 I L Ep) as [L1 O1].
  assert (∃ slots1, table_inv k (host w1) slots1) as (slots1 & I1).
  { apply (progress_host_batch_inv k w w1 slots n e1 I) in Ep as [[-> _]|[[(slots1 & ? & _) _ _] _ _]];
      [by exists slots|by exists slots1]. }
  clear Ep. destruct (negb (e1 =? 0)); [intros [= <- <- <-]; by split_and!|].
  destruct (head _ <? tail _) eqn:Eht; bool_hyps.
  - destruct (free_local_inv k (host w1) slots1 I1 Eht) as (_ & _ & _ & X4 & _).
    unfold local_id in X4. destruct (table_slots _ _ _ I1) as [Hs1 _]. rewrite <- Hs1, <- (ti_mask _ _ _ I1) in X4.
    set (id := default 0 _) in *. destruct (_ || _ || _).
    + intros [= <- <- <-]. destruct (linked_host reqs w1 (with_failure (host w1) queue_failure)) as [L2 O2]; [done..|].
      split_and!; [done|by etrans|done].
    + intros [= <- <- <-]. split_and!.
      * eapply linked_step; [exact L1|apply L1|apply free_context_follows|done].
      * etrans; [exact O1|by split].
      * intros c [= <-]. cbn. congruence.
  - pose proof (law_poll (queue w1) (lk_runtime _ _ L1)) as Law.
    pose proof (polled_success reqs w1) as PS.
    destruct (queue_poll (queue w1)) as [[q status] cc]. destruct Law as (HR & Hcp & Hh & _).
    assert (∀ h, follows (host w1) h → batch_tasks h = batch_tasks (host w1) →
      linked reqs (mkHostWorld h q (gate w1)) ∧ onward w (mkHostWorld h q (gate w1))) as Hstep.
    { intros h F E4. split.
      - eapply linked_step; [exact L1|done|done|]. cbn [queue host]. by rewrite Hh, E4.
      - etrans; [exact O1|]. split; [apply F|done]. }
    destruct (status =? EAGAIN).
    { intros [= <- <- <-]. destruct (Hstep (host w1)); [done..|]. by split_and!. }
    destruct (status =? 0) eqn:Es; cbn [negb]; bool_hyps.
    2: { intros [= <- <- <-]. destruct (Hstep (with_failure (host w1) queue_failure)); [by apply follows_same|done|].
         by split_and!. }
    destruct (_ || _ || _) eqn:Ec.
    { intros [= <- <- <-]. destruct (Hstep (with_failure (host w1) queue_failure)); [by apply follows_same|done|].
      by split_and!. }
    bool_hyps. intros [= <- <- <-]. subst status.
    destruct (Hstep (free_context (host w1) (completed_id cc)) (proj2 (free_context_follows _ _ (local_ (host w1)))) eq_refl) as [L2 O2].
    split_and!; [done|done|]. intros c [= <-]. cbn. case_decide as Er; [|done]. intros _.
    destruct (PS q cc L1 eq_refl Er) as (r & t & P1 & P2 & P3 & P4); [done|done|]. by exists r, t.
Qed.

(** ** The backend *)

Implicit Types b : Backend R V T.

Definition backend_linked reqs b : Prop :=
  runtime_inv (queue (world b)) ∧ (state_ b ≠ stopped → linked reqs (world b)).

Lemma backend_linked_running reqs b : linked reqs (world b) → backend_linked reqs b.
Proof. intros L. split; [apply L|done]. Qed.

(** The device is asked to stop. *)
Lemma progress_stop_request_linked reqs b :
  linked reqs (world b) →
  linked reqs (world (progress_stop_request b).1) ∧ onward (world b) (world (progress_stop_request b).1).
Proof.
  intros L. unfold progress_stop_request. destruct (_ || _ || _); [done|]. unfold on_runtime.
  pose proof (law_stop (queue (world b)) (lk_runtime _ _ L)) as Law.
  destruct (runtime_stop _) as [r e]. cbn zeta in Law. cbn [fst] in Law. destruct Law as (HR & Hcp & Hh).
  assert (linked reqs (mkHostWorld (host (world b)) r (gate (world b))) ∧
          onward (world b) (mkHostWorld (host (world b)) r (gate (world b)))); [|by destruct (e =? 0)].
  split; [|by split]. eapply linked_step; [exact L|done|done|]. cbn. by rewrite Hh.
Qed.

Lemma progress_stop_linked reqs b :
  linked reqs (world b) → linked reqs (world (progress_stop b)) ∧ onward (world b) (world (progress_stop b)).
Proof.
  intros L%progress_stop_request_linked. unfold progress_stop.
  destruct (progress_stop_request b) as [b1 e]. unfold note_error. by destruct (e =? 0).
Qed.

(** Tasks fail on the host's side. *)
Lemma linked_failed reqs b h :
  follows (backend_host b) h → batch_tasks h ⊆+ batch_tasks (backend_host b) → linked reqs (world b) →
  linked reqs (world (with_backend_host b h)) ∧ onward (world b) (world (with_backend_host b h)).
Proof.
  intros F S L. split; [|split; [apply F|done]]. eapply linked_step; [exact L|apply L|exact F|].
  by apply submseteq_app.
Qed.

Lemma handle_host_error_linked k reqs b e slots :
  table_inv k (backend_host b) slots → linked reqs (world b) →
  linked reqs (world (handle_host_error b e)) ∧ onward (world b) (world (handle_host_error b e)).
Proof.
  intros I L. unfold handle_host_error. cbv zeta. case_decide.
  - destruct (fail_pending_inv k _ slots I) as (h' & E & _ & C & _).
    pose proof (fail_pending_follows (backend_host b)) as F.
    change (backend_host (with_error b e)) with (backend_host b). rewrite E in F |- *. cbn [fst negb Z.eqb] in F |- *.
    apply (linked_failed reqs (with_error b e)); [done|unfold batch_tasks; rewrite C; apply submseteq_nil_l|done].
  - destruct (fail_all_inv k _ slots I) as (h' & E & _ & C & _).
    pose proof (fail_all_follows (backend_host b)) as F.
    change (backend_host (with_error b e)) with (backend_host b). rewrite E in F |- *. cbn [fst note_error Z.eqb] in F |- *.
    destruct (linked_failed reqs (with_error b e) h') as [L1 O1];
      [done|unfold batch_tasks; rewrite C; apply submseteq_nil_l|done|].
    destruct (progress_stop_linked reqs (with_backend_state (with_backend_host (with_error b e) h') draining) L1)
      as [L2 O2]. split; [done|]. by etrans.
Qed.

Lemma submit_at_time_linked k reqs b n r slots :
  active k b slots → next_task_ (backend_host b) < U64_MAX → linked reqs (world b) →
  ((submit_at_time b n r).2 = true → r ∈ reqs) →
  linked reqs (world (submit_at_time b n r).1) ∧ onward (world b) (world (submit_at_time b n r).1).
Proof.
  intros (Hs & I & Hr) Hn L. unfold submit_at_time.
  destruct (host_submit (world b) r n) as [[w status] accepted] eqn:E. intros Hin0.
  assert (accepted = true → r ∈ reqs) as Hin.
  { intros ->. apply Hin0. destruct (status =? 0); [done|]. by rewrite andb_false_r. }
  clear Hin0. destruct (host_submit_linked k reqs _ _ _ _ _ _ _ I Hr Hn L Hin E) as [L1 O1].
  pose proof (host_submit_inv k _ _ _ _ _ _ _ I Hr Hn E) as P.
  assert (∃ slots1, table_inv k (host w) slots1) as (slots1 & I1).
  { destruct accepted; [destruct P as [[(slots1 & ? & _) _ _] _]; by exists slots1|].
    rewrite P. by exists slots. }
  destruct (status =? 0); [done|]. destruct (_ && _ && _) eqn:Ec.
  - bool_hyps. subst accepted. change (backend_host (with_world b w)) with (host w).
    destruct (complete_locally (host w) r backend_error) as [[h e] accepted] eqn:El. cbn [fst].
    assert (next_task_ (host w) < U64_MAX) as Hn' by (rewrite P; exact Hn).
    destruct (complete_locally_linked k reqs w h slots1 r e accepted I1 Hn' L1 El) as [L2 O2].
    destruct (e =? 0) eqn:Ee; cbn [negb]; [by split; [|etrans]|]. bool_hyps.
    destruct (complete_locally_inv k _ _ _ _ _ _ I1 Hn' El) as (_ & _ & Hl).
    destruct accepted; [by destruct Hl as [_ ?]|].
    rewrite (proj2 (Z.eqb_neq _ _) ltac:(eassumption)) in Hl.
    match goal with |- context [handle_host_error ?x e] =>
      destruct (handle_host_error_linked k reqs x e slots1) as [L3 O3] end;
      [cbn; rewrite Hl; by apply (table_inv_flags k (host w))|done|].
    split; [done|]. etrans; [exact O1|]. by etrans.
  - cbn [fst]. destruct (handle_host_error_linked k reqs (with_world b w) status slots1 I1 L1) as [L2 O2].
    split; [done|by etrans].
Qed.

Lemma submit_loop_linked k reqs n l b slots :
  active k b slots → next_task_ (backend_host b) + Z.of_nat (length l) <= U64_MAX →
  take (submit_loop b n l).2 l ⊆ reqs → linked reqs (world b) →
  linked reqs (world (submit_loop b n l).1) ∧ onward (world b) (world (submit_loop b n l).1).
Proof.
  revert b slots. induction l as [|r l IH]; intros b slots A Hn Hin L; cbn [submit_loop] in *; [done|].
  cbn [length] in Hn. pose proof (submit_at_time_moves k b n r slots A ltac:(lia)) as M.
  pose proof (submit_at_time_linked k reqs b n r slots A ltac:(lia) L) as HL.
  destruct (submit_at_time b n r) as [b1 []]; cbn [fst snd] in *; [|by apply HL].
  destruct HL as [L1 O1]; [intros _; destruct (submit_loop b1 n l); set_solver|].
  destruct (mv_active _ _ _ _ _ M) as (slots1 & A1). pose proof (mv_next _ _ _ _ _ M) as N. cbn [length] in N.
  specialize (IH b1 slots1 A1 ltac:(lia)). destruct (submit_loop b1 n l). cbn [fst snd take] in *.
  specialize (IH ltac:(set_solver) L1).
  destruct IH as [L2 O2]. split; [done|by etrans].
Qed.

(** What a call that may give completions does. *)
Definition gives_done reqs b b' (outs : list BackendCompletion) : Prop :=
  linked reqs (world b') ∧ onward (world b) (world b') ∧
  ∀ c, c ∈ outs → bc_result c = success → done_copy reqs (world b') (copy_done c).

Lemma pop_at_time_linked k reqs b n slots :
  active k b slots → linked reqs (world b) →
  gives_done reqs b (pop_at_time b n).1 (option_list (pop_at_time b n).2).
Proof.
  intros (Hs & I & Hr) L. unfold pop_at_time.
  destruct (host_pop (world b) n) as [[w status] o] eqn:E.
  destruct (host_pop_linked k reqs _ _ _ _ _ _ I L E) as (L1 & O1 & D1).
  destruct (host_pop_inv k _ _ _ _ _ _ I Hr E) as (_ & _ & P).
  set (x := if negb (status =? 0) then _ else _).
  assert (gives_done reqs b x.1 (option_list x.2)) as G.
  { unfold x. clear x. destruct (negb (status =? 0)) eqn:Es.
    - destruct o as [c0|]; [destruct P as [-> _]; discriminate Es|].
      destruct (kp_slots _ _ _ _ P) as (slots1 & I1 & _).
      destruct (handle_host_error_linked k reqs (with_world b w) status slots1 I1 L1) as [L2 O2].
      destruct (handle_host_error_active k (with_world b w) status slots1 Hs I1) as (K & _).
      destruct (kp_slots _ _ _ _ K) as (slots2 & I2 & _). set (b2 := handle_host_error _ _) in *.
      destruct (host_pop (world b2) n) as [[w2 e2] o2] eqn:E2.
      destruct (host_pop_linked k reqs _ _ _ _ _ _ I2 L2 E2) as (L3 & O3 & D3).
      assert (onward (world b) w2) as O by (etrans; [exact O1|]; by etrans).
      destruct (negb (e2 =? 0)); cbn [fst snd option_list]; split_and!; try done; [set_solver|].
      destruct o2; cbn; intros c; [intros ->%list_elem_of_singleton; by apply D3|set_solver].
    - split_and!; [done|done|]. destruct o; cbn; intros c; [intros ->%list_elem_of_singleton; by apply D1|set_solver]. }
  destruct x as [b1 o1]. cbn [fst snd] in *. case_decide; [|done]. destruct G as (G1 & G2 & G3).
  destruct (progress_stop_linked reqs b1 G1) as [L2 O2]. split_and!; [done|by etrans|].
  intros c Hc Hr'. by eapply done_copy_onward, G3.
Qed.

Lemma pop_loop_linked k reqs n m b slots :
  active k b slots → linked reqs (world b) → gives_done reqs b (pop_loop b n m).1 (pop_loop b n m).2.
Proof.
  revert b slots. induction m as [|m IH]; intros b slots A L; cbn [pop_loop].
  { split_and!; [done|done|set_solver]. }
  pose proof (pop_at_time_moves k b n slots A) as M. pose proof (pop_at_time_linked k reqs b n slots A L) as G.
  destruct (pop_at_time b n) as [b1 [c|]]; cbn [fst snd option_list] in *; [|done].
  destruct (mv_active _ _ _ _ _ M) as (slots1 & A1). destruct G as (L1 & O1 & D1).
  specialize (IH b1 slots1 A1 L1). destruct (pop_loop b1 n m) as [b2 l]. cbn [fst snd] in *.
  destruct IH as (L2 & O2 & D2). split_and!; [done|by etrans|].
  intros c' [->|Hc]%elem_of_cons Hs; [|by apply D2]. eapply done_copy_onward; [exact O2|].
  apply D1; [set_solver|done].
Qed.

(** [publish_pending_now], its error handled. *)
Lemma publish_now_backend k reqs b w e slots :
  active k b slots → linked reqs (world b) → publish_pending_now (world b) = (w, e) →
  let b' := if negb (e =? 0) then handle_host_error (with_world b w) e else with_world b w in
  linked reqs (world b') ∧ onward (world b) (world b').
Proof.
  intros (Hs & I & Hr) L E. destruct (publish_now_linked k reqs _ _ _ _ I L E) as [L1 O1].
  destruct (negb (e =? 0)); [|done]. apply (publish_pending_now_inv k _ _ slots) in E; [|done].
  assert (∃ slots1, table_inv k (host w) slots1) as (slots1 & I1).
  { destruct E as [[Eh _]|[[(slots1 & I1 & _) _ _] _ _]]; [exists slots; by rewrite Eh|by exists slots1]. }
  destruct (handle_host_error_linked k reqs (with_world b w) e slots1 I1 L1) as [L2 O2]. split; [done|by etrans].
Qed.

Lemma request_stop_linked k reqs b slots :
  active k b slots → linked reqs (world b) → linked reqs (world (request_stop b).1).
Proof.
  intros A L. unfold request_stop. destruct (negb _); [done|].
  set (b0 := with_backend_state b draining).
  assert (active k b0 slots) as A0 by (destruct A as (_ & ? & ?); by split_and!).
  destruct (publish_pending_now (world b0)) as [w e] eqn:E.
  pose proof (publish_now_backend k reqs b0 w e slots A0 L E) as [L1 _]. set (b1 := if negb (e =? 0) then _ else _) in *.
  destruct (progress_stop_request_linked reqs b1 L1) as [L2 _].
  destruct (progress_stop_request b1) as [b2 e2]. by destruct (negb (e2 =? 0)).
Qed.

Lemma backend_flush_linked k reqs b slots :
  active k b slots → linked reqs (world b) →
  linked reqs (world (backend_flush b).1) ∧ onward (world b) (world (backend_flush b).1).
Proof.
  intros A L. unfold backend_flush. destruct (negb _); [done|].
  destruct (publish_pending_now _) as [w e] eqn:E. pose proof (publish_now_backend k reqs b w e slots A L E).
  by destruct (negb (e =? 0)).
Qed.

Lemma wait_linked reqs b :
  linked reqs (world b) → backend_linked reqs (wait b).1.
Proof.
  intros L. unfold wait. destruct (negb (bool_decide _)); [by apply backend_linked_running|].
  destruct (progress_stop_request_linked reqs b L) as [L1 _].
  destruct (progress_stop_request b) as [b1 e1]. cbn [fst] in L1.
  destruct (negb (e1 =? 0)); [by apply backend_linked_running|].
  destruct (_ || _ || _); [by apply backend_linked_running|]. unfold on_runtime, on_gate.
  pose proof (law_wait _ (lk_runtime _ _ L1)) as R1. destruct (runtime_wait _) as [r1 e2]. cbn [fst] in R1.
  cbn [with_world world queue]. pose proof (law_reset _ R1) as R2. destruct (runtime_reset r1) as [r2 e3]. cbn [fst] in R2.
  destruct (host_reset _) as [h e4]. destruct (gate_reset _) as [v e5]. cbn [fst]. unfold note_error.
  destruct (_ =? 0); split; done.
Qed.

(** A backend that has stopped, or is about to start. *)
Definition idle b : Prop := state_ b = stopped ∧ runtime_inv (queue (world b)).

Lemma idle_linked reqs b e : idle b → backend_linked reqs (with_error b e).
Proof. intros [Hs Hr]. by split. Qed.
Lemma on_runtime_idle (f : R → R * Z) b :
  (∀ r, runtime_inv r → runtime_inv (f r).1) → idle b → idle (on_runtime f b).1.
Proof. intros Hf [Hs Hr]. unfold on_runtime. specialize (Hf _ Hr). by destruct (f _). Qed.
Lemma on_gate_idle (f : V → V * Z) b : idle b → idle (on_gate f b).1.
Proof. unfold on_gate. by destruct (f _). Qed.

(** Undoing a start that failed. *)
Lemma undo_runtime_linked reqs b e :
  idle b → backend_linked reqs (let '(b, _) := on_runtime runtime_reset b in (with_error b e, e)).1.
Proof.
  intros Hi%(on_runtime_idle runtime_reset); [|intros; by apply law_reset].
  destruct (on_runtime _ b). by apply idle_linked.
Qed.
Lemma undo_start_linked reqs b e :
  idle b → backend_linked reqs
    (let '(b, _) := on_gate gate_reset b in let '(b, _) := on_runtime runtime_reset b in (with_error b e, e)).1.
Proof.
  intros Hi%(on_gate_idle gate_reset). destruct (on_gate _ b). by apply undo_runtime_linked.
Qed.

(** A started backend has nothing of an earlier run. *)
Lemma start_linked reqs b c : idle b → backend_host b = new_host → backend_linked reqs (start b c).1.
Proof.
  intros Hi Hh. unfold start. destruct (_ || _); [by destruct Hi|].
  pose proof (on_runtime_idle (λ r, initialize_device r (device_ordinal c)) b) as I1.
  pose proof (on_runtime_host (λ r, initialize_device r (device_ordinal c)) b) as H1'.
  destruct (on_runtime _ b) as [b1 e1]. cbn [fst] in *.
  specialize (I1 ltac:(intros; by apply law_initialize) Hi). destruct (negb (e1 =? 0)); [by apply undo_runtime_linked|].
  pose proof (on_gate_idle (λ v, gate_initialize v (device_ordinal c)) b1 I1) as I2.
  pose proof (on_gate_host (λ v, gate_initialize v (device_ordinal c)) b1) as H2'.
  destruct (on_gate _ b1) as [b2 e2]. cbn [fst] in *. destruct (negb (e2 =? 0)); [by apply undo_start_linked|].
  rewrite H2', H1', Hh. destruct (initialize new_host c) as [h e3] eqn:Ei.
  set (b3 := with_backend_host b2 h). assert (idle b3) as I3 by exact I2.
  destruct (negb (e3 =? 0)); [by apply undo_start_linked|].
  pose proof (law_start (queue (world b3)) c (proj2 I3)) as Law. unfold on_runtime at 1.
  destruct (runtime_start _ c) as [r4 e4]. destruct Law as [R4 Hstart].
  destruct (negb (e4 =? 0)) eqn:G4; [apply undo_start_linked; split; [apply I3|done]|]. bool_hyps.
  apply backend_linked_running. cbn [fst world with_world].
  assert (batch_tasks h = []) as Eb.
  { unfold initialize in Ei. destruct (_ || _ || _) in Ei; injection Ei as <- _; done. }
  split; cbn [queue host b3 with_backend_host with_world with_host world]; [done| |];
    rewrite Hstart, ?Eb by done; cbn; [set_solver|constructor].
Qed.

(** ** Runs *)

(** The requests a call has the backend take, and those of a sequence of calls. *)
Definition taken_by b (call : Call) : list BackendRequest :=
  match call with call_submit l => take (try_submit_batch b l).2 l | _ => [] end.
Fixpoint taken_requests b (calls : list Call) : list BackendRequest :=
  match calls with
  | [] => []
  | call :: calls => taken_by b call ++ taken_requests (gpu_call b call).1.1 calls
  end.

Lemma taken_copies calls : ∀ b, copy_of <$> taken_requests b calls = (gpu_run b calls).1.2.
Proof.
  induction calls as [|call calls IH]; intros b; [done|]. cbn [taken_requests gpu_run].
  rewrite fmap_app, IH.
  assert (copy_of <$> taken_by b call = (gpu_call b call).1.2) as ->.
  { destruct call; cbn [taken_by gpu_call]; try done; [by destruct (try_submit_batch b l)|].
    by destruct (try_pop_completion_batch b n). }
  destruct (gpu_call b call) as [[b1 ins] outs]. cbn [fst snd]. by destruct (gpu_run b1 calls) as [[b2 ins2] outs2].
Qed.

Lemma now_same b : world (now b).1 = world b ∧ state_ (now b).1 = state_ b.
Proof. unfold now. by destruct (now_nanoseconds _). Qed.
Lemma now_active k b slots : active k b slots → active k (now b).1 slots.
Proof. unfold active, backend_host. destruct (now_same b) as [-> ->]. done. Qed.

Lemma pop_batch_linked k reqs b n slots :
  active k b slots → linked reqs (world b) →
  gives_done reqs b (backend_pop_batch b n).1 (backend_pop_batch b n).2.
Proof.
  intros A L. unfold backend_pop_batch. rewrite decide_False by apply A.
  pose proof (now_active k b slots A) as A1. destruct (now_same b) as [E _]. rewrite <- E in L.
  destruct (now b) as [b1 t]. cbn [fst] in *. pose proof (pop_loop_linked k reqs t n b1 slots A1 L) as G.
  unfold gives_done in *. by rewrite <- E.
Qed.

Lemma submit_batch_linked k reqs b l slots :
  active k b slots → next_task_ (backend_host b) + Z.of_nat (length l) <= U64_MAX →
  take (backend_submit_batch b l).2 l ⊆ reqs → linked reqs (world b) →
  linked reqs (world (backend_submit_batch b l).1) ∧ onward (world b) (world (backend_submit_batch b l).1).
Proof.
  intros A Hn Hl L. unfold backend_submit_batch in *. destruct (negb _); [done|].
  pose proof (now_active k b slots A) as A1. destruct (now_same b) as [E _]. unfold backend_host in Hn. rewrite <- E in L, Hn |- *.
  destruct (now b) as [b1 t]. by apply (submit_loop_linked k reqs t l b1 slots).
Qed.

Lemma gpu_call_linked reqs b call :
  sound b → next_task_ (backend_host b) + offered [call] <= U64_MAX → taken_by b call ⊆ reqs →
  backend_linked reqs b → backend_linked reqs (gpu_call b call).1.1.
Proof.
  intros [[Hs Hh]|(k & slots & A)] Hn Hl [HR HL].
  - destruct call as [c|l| |n| |]; cbn [gpu_call].
    + by apply start_linked.
    + unfold try_submit_batch, gpu_backend, backend_submit_batch. rewrite Hs. by split.
    + unfold flush_submissions, gpu_backend, backend_flush. rewrite Hs. by split.
    + unfold try_pop_completion_batch, gpu_backend, backend_pop_batch. rewrite decide_True by done. by split.
    + unfold request_stop. rewrite Hs. by split.
    + unfold wait. rewrite Hs. by split.
  - specialize (HL (proj1 A)). destruct call as [c|l| |n| |]; cbn [gpu_call offered foldr taken_by] in *.
    + unfold start. rewrite bool_decide_eq_false_2 by apply A. by apply backend_linked_running.
    + pose proof (submit_batch_linked k reqs b l slots A ltac:(lia) Hl HL) as [L1 _].
      cbn. destruct (backend_submit_batch b l). by apply backend_linked_running.
    + by apply backend_linked_running, (backend_flush_linked k reqs b slots).
    + destruct (pop_batch_linked k reqs b n slots A HL) as [L1 _]. cbn. destruct (backend_pop_batch b n).
      by apply backend_linked_running.
    + by apply backend_linked_running, (request_stop_linked k reqs b slots).
    + by apply wait_linked.
Qed.

Lemma gpu_run_linked reqs calls : ∀ b,
  sound b → next_task_ (backend_host b) + offered calls <= U64_MAX → taken_requests b calls ⊆ reqs →
  backend_linked reqs b → backend_linked reqs (gpu_run b calls).1.1.
Proof.
  induction calls as [|call calls IH]; intros b Hs Hn Hq L; [done|]. cbn [gpu_run].
  assert (offered (call :: calls) = offered [call] + offered calls) as Eo
    by (unfold offered; destruct call; cbn [foldr]; lia).
  cbn [taken_requests] in Hq. pose proof (offered_nonneg calls).
  pose proof (gpu_call_linked reqs b call Hs ltac:(lia) ltac:(set_solver) L) as L1.
  pose proof (gpu_call_conserves b call Hs ltac:(lia)) as C1.
  destruct (gpu_call b call) as [[b1 ins1] outs1]. destruct C1 as ((S1 & _ & N1) & Hlen). cbn [fst] in L1, Hq.
  specialize (IH b1 S1 ltac:(lia) ltac:(set_solver) L1). by destruct (gpu_run b1 calls) as [[b2 ins2] outs2].
Qed.

Lemma run_linked (r : R) (v : V) (t : T) calls :
  runtime_inv r → offered calls < U64_MAX →
  let b := (gpu_run (new_backend r v t) calls).1.1 in
  sound b ∧ backend_linked (taken_requests (new_backend r v t) calls) b.
Proof.
  intros Hr Ho. split.
  - apply (reached_sound r v t). by exists calls.
  - apply gpu_run_linked; [by left|cbn; lia|done|]. split; [done|]. by intros [].
Qed.

(** What the task of a request reads and writes. *)
Lemma make_copy_task_exact c r id t :
  make_copy_task c r id = Ok t →
  target_address t = br_target r ∧ task_length t = br_length r ∧
  stage_buffer_base c + relative_offset t = br_source r ∧
  relative_offset t + task_length t <= stage_buffer_bytes c.
Proof.
  unfold make_copy_task. destruct (_ || _ || _ || _) eqn:E1; [done|].
  bool_hyps. destruct (_ || _ || _ || _) eqn:E2; [done|]. intros Et. injection Et as <-. bool_hyps. cbn [target_address task_length relative_offset].
  rewrite u32_small; [lia|ulia].
Qed.

(** Whatever was called before, a copy that the backend reports as done was copied by
    the device before the report: the device has copied a task from the source address of
    the copy's request to its target address, with its length. *)
Theorem success_means_copied (r : R) (v : V) (t : T) calls n :
  runtime_inv r → offered calls < U64_MAX →
  let b := (gpu_run (new_backend r v t) calls).1.1 in
  let '(b', l) := try_pop_completion_batch b n in
  ∀ c, c ∈ l → bc_result c = success →
  ∃ req task, req ∈ taken_requests (new_backend r v t) calls ∧ copy_of req = copy_done c ∧ task ∈ copied (queue (world b')) ∧
    target_address task = br_target req ∧ task_length task = br_length req ∧
    stage_buffer_base (config_ (backend_host b)) + relative_offset task = br_source req.
Proof.
  intros Hr Ho b. destruct (run_linked r v t calls Hr Ho) as [Hs [HR HL]]. fold b in Hs, HR, HL.
  cbn. destruct Hs as [[Hs _]|(k & slots & A)].
  { unfold backend_pop_batch. rewrite decide_True by done. set_solver. }
  destruct (pop_batch_linked k (taken_requests (new_backend r v t) calls) b n slots A (HL (proj1 A))) as (_ & [C _] & D).
  destruct (backend_pop_batch b n) as [b' l]. cbn [fst snd] in *. intros c Hc Hsucc.
  destruct (D c Hc Hsucc) as (req & task & H1' & H2' & H3' & H4'). rewrite C in H3'.
  apply make_copy_task_exact in H3' as (? & ? & ? & _). exists req, task. by split_and!.
Qed.

(** Since its last start, the device of a running backend has copied only tasks that
    were made from requests it took: each of them reads within the staging buffer, from the source address
    of a request, and writes to the target of that request, with its length; no task was
    copied twice. *)
Theorem device_copies_requested (r : R) (v : V) (t : T) calls :
  runtime_inv r → offered calls < U64_MAX →
  let b := (gpu_run (new_backend r v t) calls).1.1 in
  let cfg := config_ (backend_host b) in
  state_ b ≠ stopped →
  NoDup (task_id <$> copied (queue (world b))) ∧
  ∀ task, task ∈ copied (queue (world b)) →
  ∃ req, req ∈ taken_requests (new_backend r v t) calls ∧ target_address task = br_target req ∧ task_length task = br_length req ∧
    stage_buffer_base cfg + relative_offset task = br_source req ∧
    relative_offset task + task_length task <= stage_buffer_bytes cfg.
Proof.
  intros Hr Ho b cfg Hs. destruct (run_linked r v t calls Hr Ho) as [_ [HR HL]]. fold b in HR, HL.
  destruct (HL Hs) as [_ LM LO]. split.
  - apply copied_once; [done|]. rewrite fmap_app in LO. by apply NoDup_app in LO as [? _].
  - intros task Ht. destruct (LM task) as (_ & req & Hreq & Hmk & _).
    { apply elem_of_app. left. by apply copied_handed. }
    apply make_copy_task_exact in Hmk as (? & ? & ? & ?). exists req. by split_and!.
Qed.

End Link.
End GpuLink.
