(* ===== verification/CudaApi.v ===== *)
(** The result codes of the CUDA runtime and driver that the code of src/gpu tells apart;
    any other is the last one. *)

From S2P Require Import Prelude.

Module CudaApi.

Inductive cudaError_t : Set :=
| cudaSuccess | cudaErrorInvalidValue | cudaErrorInvalidDevice | cudaErrorInvalidResourceHandle
| cudaErrorMemoryAllocation | cudaErrorNoDevice | cudaErrorInsufficientDriver | cudaErrorNotSupported
| cudaErrorOther.
#[export] Instance cudaError_eq_dec : EqDecision cudaError_t.
Proof. solve_decision. Defined.

Inductive CUresult : Set :=
| CUDA_SUCCESS | CUDA_ERROR_INVALID_VALUE | CUDA_ERROR_INVALID_DEVICE | CUDA_ERROR_INVALID_HANDLE
| CUDA_ERROR_INVALID_CONTEXT | CUDA_ERROR_OUT_OF_MEMORY | CUDA_ERROR_NO_DEVICE | CUDA_ERROR_SYSTEM_DRIVER_MISMATCH
| CUDA_ERROR_NOT_SUPPORTED | CUDA_ERROR_OTHER.
#[export] Instance CUresult_eq_dec : EqDecision CUresult.
Proof. solve_decision. Defined.

End CudaApi.

