(* ===== verification/VisibilityGate.v ===== *)
(** The visibility of writes that other devices make to GPU memory
    (src/gpu/gpudirect_visibility.hpp, gpudirect_visibility.cu): what the device promises,
    and the gate the copy backend passes before it publishes tasks, an instance of the
    interface of CopyHost.v.  The driver's functions are the class [CudaFlush]. *)

From S2P Require Import Prelude CopyHost CudaApi.
Import CudaApi.

(** The three attributes that are queried. *)
Inductive FlushAttribute : Set := rdma_supported_attribute | flush_options_attribute | writes_ordering_attribute.

Class CudaFlush (C : Type) := {
  flush_cuInit : C → C * CUresult;
  flush_cuDeviceGet : C → Z → C * (CUresult * Z);
  cuDeviceGetAttribute : C → FlushAttribute → Z → C * (CUresult * Z);
  (* [cuFlushGPUDirectRDMAWrites] for the current context, to the owner *)
  cuFlushGPUDirectRDMAWrites : C → C * CUresult;
}.

Module VisibilityGate.

Definition driver_status (status : CUresult) : Z :=
  match status with
  | CUDA_SUCCESS => 0
  | CUDA_ERROR_INVALID_VALUE | CUDA_ERROR_INVALID_DEVICE | CUDA_ERROR_INVALID_CONTEXT => EINVAL
  | CUDA_ERROR_OUT_OF_MEMORY => ENOMEM
  | CUDA_ERROR_NO_DEVICE | CUDA_ERROR_SYSTEM_DRIVER_MISMATCH => ENODEV
  | CUDA_ERROR_NOT_SUPPORTED => EOPNOTSUPP
  | CUDA_ERROR_INVALID_HANDLE | CUDA_ERROR_OTHER => EIO
  end.

Inductive Ordering : Set := ordering_none | ordering_owner | ordering_all_devices.
Definition ordering_code (o : Ordering) : Z :=
  match o with ordering_none => 0 | ordering_owner => 100 | ordering_all_devices => 200 end.

Record Capabilities := mkCapabilities {
  gpudirect_rdma_supported : bool; host_flush_supported : bool; stream_memops_flush_supported : bool;
  writes_ordering : Ordering;
}.
Definition no_capabilities : Capabilities := mkCapabilities false false false ordering_none.

(** [CU_FLUSH_GPU_DIRECT_RDMA_WRITES_OPTION_HOST] and [..._MEMOPS]. *)
Definition kFlushOptionHost : Z := 1.
Definition kFlushOptionMemops : Z := 2.

Definition ordering_of (writes_ordering : Z) : option Ordering :=
  if writes_ordering =? 0 then Some ordering_none
  else if writes_ordering =? 100 then Some ordering_owner
  else if writes_ordering =? 200 then Some ordering_all_devices else None.

Section Gate.
Context {C : Type} `{CudaFlush C}.

Definition get_device_attribute (c : C) (device : Z) (a : FlushAttribute) : C * (Z * Z) :=
  let '(c, (r, value)) := cuDeviceGetAttribute c a device in (c, (driver_status r, value)).

Definition query_gpudirect_visibility_capabilities (c : C) (device_ordinal : Z) : C * result Capabilities :=
  if I32_MAX <? device_ordinal then (c, Err EINVAL)
  else
    let '(c, r) := flush_cuInit c in
    if negb (driver_status r =? 0) then (c, Err (driver_status r))
    else
      let '(c, (r, device)) := flush_cuDeviceGet c device_ordinal in
      if negb (driver_status r =? 0) then (c, Err (driver_status r))
      else
        let '(c, (status, rdma_supported)) := get_device_attribute c device rdma_supported_attribute in
        let '(c, (status, flush_options)) :=
          if status =? 0 then get_device_attribute c device flush_options_attribute else (c, (status, 0)) in
        let '(c, (status, ordering)) :=
          if status =? 0 then get_device_attribute c device writes_ordering_attribute else (c, (status, 0)) in
        if negb (status =? 0) then (c, Err status)
        else match ordering_of ordering with
        | None => (c, Err EIO)
        | Some o =>
            (c, Ok (mkCapabilities (negb (rdma_supported =? 0)) (negb (Z.land flush_options kFlushOptionHost =? 0))
                      (negb (Z.land flush_options kFlushOptionMemops =? 0)) o))
        end.

(** [CudaGpuDirectVisibilityGate]. *)
Record Gate := mkGate { capabilities_ : Capabilities; initialized_ : bool; flush_required_ : bool; driver_ : C }.
Definition new_gate (c : C) : Gate := mkGate no_capabilities false false c.
Definition with_driver (g : Gate) (c : C) : Gate := mkGate (capabilities_ g) (initialized_ g) (flush_required_ g) c.

Definition gate_init (g : Gate) (device_ordinal : Z) : Gate * Z :=
  if initialized_ g then (g, EINVAL)
  else
    let '(c, r) := query_gpudirect_visibility_capabilities (driver_ g) device_ordinal in
    match r with
    | Err e => (with_driver g c, e)
    | Ok caps =>
        if negb (gpudirect_rdma_supported caps) then (with_driver g c, EOPNOTSUPP)
        else
          let flush_required := ordering_code (writes_ordering caps) <? ordering_code ordering_owner in
          if flush_required && negb (host_flush_supported caps) then (with_driver g c, EOPNOTSUPP)
          else (mkGate caps true flush_required c, 0)
    end.

Definition flush_to_owner (g : Gate) : Gate * Z :=
  if negb (initialized_ g) then (g, EINVAL)
  else if negb (flush_required_ g) then (g, 0)
  else let '(c, r) := cuFlushGPUDirectRDMAWrites (driver_ g) in (with_driver g c, driver_status r).

Definition gate_clear (g : Gate) : Gate * Z := (mkGate no_capabilities false false (driver_ g), 0).

#[export] Instance cuda_gate : GpuDirectVisibilityGate Gate := {|
  gate_initialize := gate_init; gate_flush := flush_to_owner; gate_reset := gate_clear;
|}.

(** * What passing the gate means *)

(** An initialized gate knows what its device promises. *)
Definition gate_inv (g : Gate) : Prop :=
  initialized_ g = true →
  gpudirect_rdma_supported (capabilities_ g) = true ∧
  (flush_required_ g = false → writes_ordering (capabilities_ g) ≠ ordering_none) ∧
  (flush_required_ g = true → host_flush_supported (capabilities_ g) = true).

Inductive gate_call : Gate → Gate → Prop :=
| call_init g ord : gate_call g (gate_initialize g ord).1
| call_flush g : gate_call g (gate_flush g).1
| call_reset g : gate_call g (gate_reset g).1.

Lemma gate_call_inv g g' : gate_call g g' → gate_inv g → gate_inv g'.
Proof.
  intros [g1 ord|g1|g1] Hg; cbn.
  - unfold gate_init. destruct (initialized_ g1) eqn:Ei; [done|].
    destruct (query_gpudirect_visibility_capabilities _ _) as [c [caps|e]]; [|unfold gate_inv; cbn; by rewrite Ei].
    destruct (gpudirect_rdma_supported caps) eqn:Es; [|unfold gate_inv; cbn; by rewrite Ei].
    destruct (writes_ordering caps) eqn:Eo, (host_flush_supported caps) eqn:Eh; cbn;
      unfold gate_inv; cbn; rewrite ?Ei, ?Eo; done.
  - unfold flush_to_owner. destruct (negb (initialized_ g1)); [done|]. destruct (negb _); [done|].
    by destruct (cuFlushGPUDirectRDMAWrites _) as [c r].
  - unfold gate_inv. done.
Qed.

(** In every state of a gate, a flush answers 0 only if the device supports GPUDirect and
    either orders writes to its owner by itself or the driver has just flushed them. *)
Theorem flush_visible c g :
  rtc gate_call (new_gate c) g → (gate_flush g).2 = 0 →
  gpudirect_rdma_supported (capabilities_ g) = true ∧
  (writes_ordering (capabilities_ g) ≠ ordering_none ∨
   host_flush_supported (capabilities_ g) = true ∧ (cuFlushGPUDirectRDMAWrites (driver_ g)).2 = CUDA_SUCCESS).
Proof.
  intros Hr. assert (gate_inv g) as Hg.
  { cut (gate_inv (new_gate c)); [|done]. induction Hr as [|g0 g1 g2 H1 _ IH]; [done|].
    intros H0. apply IH. by eapply gate_call_inv. }
  cbn. unfold flush_to_owner. destruct (initialized_ g) eqn:Ei; [|done]. destruct (Hg Ei) as (Hs & Hf & Ht). cbn [negb].
  destruct (flush_required_ g); cbn [negb]; [|by intros _; split; [|left; apply Hf]].
  destruct (cuFlushGPUDirectRDMAWrites _) as [c' r]. cbn. intros Hd. split; [done|]. right. split; [by apply Ht|].
  by destruct r.
Qed.

End Gate.
Arguments Gate : clear implicits.

End VisibilityGate.
