(* ===== verification/WarpQueue.v ===== *)
(** The queue between host and device (src/gpu/persistent_copy.cu, [WarpSpecializedQueue]):
    its allocation, its life cycle and the host's end of the two rings in mapped memory,
    and the runtime that owns it (src/gpu/persistent_copy_backend.cu,
    [CudaPersistentCopyRuntime]).

    Positions count the tasks of one run; a run has fewer than 2^64 of them, so they are
    [nat].  Slot arrays are functions of the index.  Outcomes of CUDA calls are arguments,
    already translated by [cuda_status]. *)

From stdpp Require Import functions.
From S2P Require Import Prelude CopyHost.
Import Copy.

Module WarpQueue.

Definition kWarpSpecializedMetaBatch : nat := 32.

(** * Sizes *)

Definition sizeof_control : Z := 64.
Definition host_slot_bytes : Z := 32 + 16.
Definition pipeline_slot_bytes : Z := 48 + 32.

Definition is_power_of_two (value : Z) : bool := negb (value =? 0) && (Z.land value (u64 (value - 1)) =? 0).
Definition is_supported_shared_queue_depth (value : Z) : bool :=
  (value =? 2) || (value =? 4) || (value =? 8) || (value =? 16).
Definition is_supported_pipeline_copy_warps (value : Z) : bool :=
  (2 <=? value) && (value <=? 30) && ((value - 2) `mod` 4 =? 0).

(** The bytes of mapped memory and of shared memory, or refusal. *)
Definition warp_specialized_pipeline_allocation_size (capacity copy_warps shared_queue_depth : Z)
  : option (Z * Z) :=
  if negb (is_supported_pipeline_copy_warps copy_warps) then None
  else
    let required_queue_depth := (Z.of_nat kWarpSpecializedMetaBatch + copy_warps - 1) / copy_warps in
    if negb (is_power_of_two capacity) || (capacity <? Z.of_nat kWarpSpecializedMetaBatch)
       || negb (is_supported_shared_queue_depth shared_queue_depth) || (16 <? shared_queue_depth)
       || (shared_queue_depth <? required_queue_depth)
       || ((U64_MAX - sizeof_control) / host_slot_bytes <? capacity)
    then None
    else
      let slot_count := copy_warps * shared_queue_depth in
      if (U64_MAX - 64) / pipeline_slot_bytes <? slot_count then None
      else
        let host_bytes := u64 (sizeof_control + u64 (capacity * host_slot_bytes)) in
        let shared_bytes := u64 (slot_count * pipeline_slot_bytes) in
        if shared_bytes <=? 48 * 1024 then Some (host_bytes, shared_bytes) else None.

(** * The queue *)

(** [WarpSpecializedControl] and the two arrays of slots behind it. *)
Record Mapped := mkMapped {
  task_tail : nat;
  completion_tail : nat;
  stop_requested : bool;
  task_slots : nat → CopyTask;
  completion_slots : nat → CopyCompletion;
}.
Definition no_completion : CopyCompletion := mkCopyCompletion 0 task_success.
(** [memset(memory, 0, size)]. *)
Definition zeroed : Mapped := mkMapped 0 0 false (λ _, no_task) (λ _, no_completion).

Record Queue := mkQueue {
  has_memory : bool;
  capacity : nat;
  copy_warps : nat;
  shared_queue_depth : nat;
  queue_stage_base : Z;
  submit_tail : nat;
  completion_head : nat;
  cached_completion_tail : nat;
  running : bool;
  accepting : bool;
}.
Definition empty_queue : Queue := mkQueue false 0 0 0 0 0 0 0 false false.

Definition slot (capacity i : nat) : nat := Nat.land i (capacity - 1).

(** [allocate_pipeline]; [pinned] is the outcome of [MappedPinnedMemory::allocate]. *)
Definition allocate_pipeline (q : Queue) (cap warps depth : nat) (base pinned : Z) : Queue * Z :=
  if has_memory q || (base =? 0) then (q, EINVAL)
  else match warp_specialized_pipeline_allocation_size (Z.of_nat cap) (Z.of_nat warps) (Z.of_nat depth) with
  | None => (q, EINVAL)
  | Some _ =>
      if negb (pinned =? 0) then (q, pinned)
      else (mkQueue true cap warps depth base (submit_tail q) (completion_head q) (cached_completion_tail q)
              (running q) (accepting q), 0)
  end.

(** [start_pipeline]; [launched] and [launch_status] are the outcomes of the kernel launch.
    A launch that fails still leaves the positions reset. *)
Definition start_pipeline (q : Queue) (m : Mapped) (launched : bool) (launch_status : Z)
  : Queue * Mapped * Z :=
  if negb (has_memory q) || running q then (q, m, EINVAL)
  else
    let started b := mkQueue (has_memory q) (capacity q) (copy_warps q) (shared_queue_depth q)
                       (queue_stage_base q) 0 0 0 b b in
    if negb launched then (started false, zeroed, EINVAL)
    else (started (launch_status =? 0), zeroed, launch_status).

(** The loop that writes the task slots. *)
Fixpoint write_tasks (cap tail : nat) (tasks : list CopyTask) (slots : nat → CopyTask) : nat → CopyTask :=
  match tasks with
  | [] => slots
  | t :: tasks => write_tasks cap (S tail) tasks (<[slot cap tail := t]> slots)
  end.

Definition bad_task (t : CopyTask) : bool := (target_address t =? 0) || (task_length t =? 0).

(** The status and the number of tasks taken. *)
Definition try_submit_batch (q : Queue) (m : Mapped) (tasks : list CopyTask) : Queue * Mapped * Z * nat :=
  if negb (running q) || negb (accepting q) || (length tasks =? 0)%nat then (q, m, EINVAL, 0%nat)
  else
    let outstanding := (submit_tail q - completion_head q)%nat in
    if (capacity q <=? outstanding)%nat then (q, m, EAGAIN, 0%nat)
    else
      let available := (capacity q - outstanding)%nat in
      let count := Nat.min (length tasks) available in
      let taken := take count tasks in
      if existsb bad_task taken then (q, m, EINVAL, 0%nat)
      else
        let tail := (submit_tail q + count)%nat in
        (mkQueue (has_memory q) (capacity q) (copy_warps q) (shared_queue_depth q) (queue_stage_base q)
           tail (completion_head q) (cached_completion_tail q) (running q) (accepting q),
         mkMapped tail (completion_tail m) (stop_requested m)
           (write_tasks (capacity q) (submit_tail q) taken (task_slots m)) (completion_slots m),
         0, count).

(** The status and the completion. *)
Definition try_poll (q : Queue) (m : Mapped) : Queue * Z * CopyCompletion :=
  if negb (has_memory q) then (q, EINVAL, no_completion)
  else
    let head := completion_head q in
    let with_positions head cached :=
      mkQueue (has_memory q) (capacity q) (copy_warps q) (shared_queue_depth q) (queue_stage_base q)
        (submit_tail q) head cached (running q) (accepting q) in
    let cached := if (cached_completion_tail q <=? head)%nat then completion_tail m
                  else cached_completion_tail q in
    if (cached <=? head)%nat then (with_positions head cached, EAGAIN, no_completion)
    else (with_positions (S head) cached, 0, completion_slots m (slot (capacity q) head)).

Definition with_flags (q : Queue) (r a : bool) : Queue :=
  mkQueue (has_memory q) (capacity q) (copy_warps q) (shared_queue_depth q) (queue_stage_base q)
    (submit_tail q) (completion_head q) (cached_completion_tail q) r a.

Definition request_stop (q : Queue) (m : Mapped) : Queue * Mapped * Z :=
  if negb (running q) || negb (accepting q) then (q, m, EINVAL)
  else (with_flags q (running q) false,
        mkMapped (task_tail m) (completion_tail m) true (task_slots m) (completion_slots m), 0).

(** [wait]; [synchronized] is the outcome of [cudaDeviceSynchronize]. *)
Definition wait (q : Queue) (synchronized : Z) : Queue * Z :=
  if negb (running q) || accepting q then (q, EINVAL) else (with_flags q false (accepting q), synchronized).

(** [reset]; [unpinned] is the outcome of [MappedPinnedMemory::reset]. *)
Definition reset (q : Queue) (unpinned : Z) : Queue * Z :=
  if running q then (q, EBUSY) else (empty_queue, unpinned).

Definition drained (q : Queue) : bool := (submit_tail q =? completion_head q)%nat.

(** One task. *)
Definition try_submit (q : Queue) (m : Mapped) (t : CopyTask) : Queue * Mapped * Z :=
  let '(q, m, status, _) := try_submit_batch q m [t] in (q, m, status).
(** The destructor. *)
Definition destroy (q : Queue) (m : Mapped) (synchronized unpinned : Z) : Queue :=
  let q := if running q then (wait (request_stop q m).1.1 synchronized).1 else q in (reset q unpinned).1.

Lemma specialized_destroyed q m synchronized unpinned : destroy q m synchronized unpinned = empty_queue.
Proof.
  unfold destroy, reset. destruct (running q) eqn:E; [|by rewrite E]. unfold request_stop, wait. rewrite E. cbn [negb orb].
  destruct (accepting q) eqn:Ea; cbn [negb orb fst with_flags running accepting]; rewrite ?E, ?Ea; done.
Qed.

(** * The runtime *)

Definition kCopyWarps : nat := 30.
Definition kSharedQueueDepth : nat := 16.

Record Runtime := mkRuntime { queue_ : Queue; mapped_ : Mapped; device_initialized : bool }.

(** Outcomes of the CUDA calls of [start]. *)
Record StartOutcome := mkStart { pinned : Z; launched : bool; launch_status : Z; unpinned : Z }.

(** [initialized] is the outcome of [initialize_persistent_copy_device]. *)
Definition initialize_device (r : Runtime) (initialized : Z) : Runtime * Z :=
  if device_initialized r then (r, EINVAL)
  else (mkRuntime (queue_ r) (mapped_ r) (initialized =? 0), initialized).

Definition runtime_start (r : Runtime) (c : CopyHost.Config) (o : StartOutcome) : Runtime * Z :=
  if negb (device_initialized r) || has_memory (queue_ r) then (r, EINVAL)
  else
    let '(q, status) := allocate_pipeline (queue_ r) (CopyHost.queue_capacity c) kCopyWarps kSharedQueueDepth
                          (CopyHost.stage_buffer_base c) (pinned o) in
    if negb (status =? 0) then (mkRuntime q (mapped_ r) (device_initialized r), status)
    else
      let '(q, m, status) := start_pipeline q (mapped_ r) (launched o) (launch_status o) in
      let q := if negb (status =? 0) then (reset q (unpinned o)).1 else q in
      (mkRuntime q m (device_initialized r), status).

Definition runtime_reset (r : Runtime) (unpinned : Z) : Runtime * Z :=
  let '(q, status) := reset (queue_ r) unpinned in (mkRuntime q (mapped_ r) false, status).

(** * Windows of a ring *)

Section Ring.
Context (cap : nat) (Hcap : ∃ k, cap = (2 ^ k)%nat).

Lemma ring_slot_mod i : slot cap i = (i mod cap)%nat.
Proof. destruct Hcap as [k ->]. unfold slot. rewrite <- Nat.land_ones, Nat.ones_equiv. by rewrite Nat.sub_1_r. Qed.

(** A window of the capacity has each slot once. *)
Lemma ring_slot_inj h i j :
  slot cap i = slot cap j → (h <= i < h + cap)%nat → (h <= j < h + cap)%nat → i = j.
Proof.
  rewrite !ring_slot_mod. intros E Hi Hj. pose proof (Nat.div_mod_eq i cap). pose proof (Nat.div_mod_eq j cap).
  assert (i / cap = j / cap)%nat by nia. congruence.
Qed.
Lemma ring_slot_next i : slot cap (i + cap) = slot cap i.
Proof.
  rewrite !ring_slot_mod. replace (i + cap)%nat with (i + 1 * cap)%nat by lia. apply Nat.Div0.mod_add.
Qed.

Lemma write_tasks_old ts : ∀ tail slots x,
  (∀ k, (k < length ts)%nat → slot cap (tail + k) ≠ x) → write_tasks cap tail ts slots x = slots x.
Proof.
  induction ts as [|t ts IH]; intros tail slots x Hx; [done|]. cbn [write_tasks]. rewrite IH.
  - apply fn_lookup_insert_ne. specialize (Hx 0%nat). rewrite Nat.add_0_r in Hx. apply Hx. cbn. lia.
  - intros k Hk. specialize (Hx (S k)). rewrite Nat.add_succ_r in Hx. apply Hx. cbn. lia.
Qed.

Lemma write_tasks_new ts : ∀ tail slots k t,
  ts !! k = Some t → (length ts <= cap)%nat → write_tasks cap tail ts slots (slot cap (tail + k)) = t.
Proof.
  induction ts as [|t0 ts IH]; intros tail slots k t Hk Hc; [done|]. cbn [write_tasks]. cbn [length] in Hc.
  destruct k as [|k].
  - injection Hk as ->. rewrite Nat.add_0_r. rewrite write_tasks_old; [apply fn_lookup_insert|].
    intros k Hk E. apply (ring_slot_inj tail) in E; lia.
  - rewrite Nat.add_succ_r. apply (IH (S tail)); [done|lia].
Qed.

(** The slots of the tasks not yet completed, after more were written behind them. *)
Lemma write_tasks_window l ts head slots i t :
  (length l + length ts <= head + cap)%nat → (head <= i)%nat →
  (∀ i t, l !! i = Some t → (head <= i)%nat → slots (slot cap i) = t) →
  (l ++ ts) !! i = Some t → (length ts <= cap)%nat →
  write_tasks cap (length l) ts slots (slot cap i) = t.
Proof.
  intros Hroom Hi Hold Hl Hts. apply lookup_app_Some in Hl as [Hl|[Hge Hl]].
  - rewrite write_tasks_old; [by apply Hold|]. intros k Hk E. apply lookup_lt_Some in Hl.
    apply (ring_slot_inj head) in E; lia.
  - replace i with (length l + (i - length l))%nat by lia. by apply write_tasks_new.
Qed.
End Ring.

(** * Work of several warps *)

(** The work of the first [W] warps, given that of one. *)
Definition total_work {A} (work : A → nat) (W : nat) (ws : nat → A) : nat :=
  sum_list ((λ w, work (ws w)) <$> seq 0 W).

Lemma total_work_insert {A} (work : A → nat) W (ws : nat → A) w x :
  (w < W)%nat → (work x < work (ws w))%nat → (total_work work W (<[w := x]> ws) < total_work work W ws)%nat.
Proof.
  intros Hw Hx. unfold total_work.
  assert (∀ b k, (w < b ∨ b + k <= w)%nat →
    (λ v, work (<[w := x]> ws v)) <$> seq b k = (λ v, work (ws v)) <$> seq b k) as Hsame.
  { intros b k Hout. apply list_fmap_ext. intros i v [-> Hi]%lookup_seq. rewrite fn_lookup_insert_ne by lia. done. }
  replace (seq 0 W) with (seq 0 w ++ w :: seq (S w) (W - S w)).
  - rewrite !fmap_app, !fmap_cons, !sum_list_with_app. rewrite !Hsame by lia. cbn. rewrite fn_lookup_insert. lia.
  - replace (w :: seq (S w) (W - S w)) with (seq (0 + w) (S (W - S w))) by done.
    rewrite <- seq_app. f_equal. lia.
Qed.

(** One of the first [L] members of a family changes. *)
Lemma gather_seq {A} L w (g : nat → list A) :
  (w < L)%nat → ∃ rest, seq 0 L ≫= g ≡ₚ g w ++ rest ∧
    ∀ g', (∀ v, v ≠ w → g' v = g v) → seq 0 L ≫= g' ≡ₚ g' w ++ rest.
Proof.
  intros Hw. assert (seq 0 L = seq 0 w ++ w :: seq (S w) (L - S w)) as ->.
  { replace (w :: seq (S w) (L - S w)) with (seq (0 + w) (S (L - S w))) by done. rewrite <- seq_app. f_equal. lia. }
  exists ((seq 0 w ≫= g) ++ (seq (S w) (L - S w) ≫= g)).
  assert (∀ g' : nat → list A, (∀ v, v ≠ w → g' v = g v) →
    ∀ b k, (w < b ∨ b + k <= w)%nat → seq b k ≫= g' = seq b k ≫= g) as Hsame.
  { intros g' Hg b k Hout. apply Forall_bind_ext, Forall_seq. intros j Hj. apply Hg. lia. }
  split.
  - rewrite bind_app, bind_cons. solve_Permutation.
  - intros g' Hg. rewrite bind_app, bind_cons, !(Hsame g') by (done || lia). solve_Permutation.
Qed.

(** What the warps have, one after the other. *)
Definition gather {X A} (f : X → list A) (W : nat) (ws : nat → X) : list A := seq 0 W ≫= λ w, f (ws w).

Lemma gather_change {X A} (f : X → list A) W (ws : nat → X) w x :
  (w < W)%nat → ∃ rest, gather f W ws ≡ₚ f (ws w) ++ rest ∧ gather f W (<[w := x]> ws) ≡ₚ f x ++ rest.
Proof.
  intros Hw. destruct (gather_seq W w (λ w, f (ws w)) Hw) as (rest & E & Hg). exists rest. split; [done|].
  unfold gather. rewrite Hg.
  - by rewrite fn_lookup_insert.
  - intros v Hv. by rewrite fn_lookup_insert_ne.
Qed.
Lemma gather_same {X A} (f : X → list A) W (ws : nat → X) w x :
  (w < W)%nat → f x = f (ws w) → gather f W (<[w := x]> ws) ≡ₚ gather f W ws.
Proof. intros Hw E. destruct (gather_change f W ws w x Hw) as (rest & -> & ->). by rewrite E. Qed.
Lemma elem_of_gather {X A} (f : X → list A) W (ws : nat → X) a : a ∈ gather f W ws ↔ ∃ w, (w < W)%nat ∧ a ∈ f (ws w).
Proof.
  unfold gather. rewrite list_elem_of_bind. split.
  - intros (w & Ha & Hw%elem_of_seq). exists w. split; [lia|done].
  - intros (w & Hw & Ha). exists w. split; [done|]. apply elem_of_seq. lia.
Qed.

(** Tasks that pass the check have a length. *)
Lemma not_bad ts : existsb bad_task ts = false → Forall (λ t, task_length t ≠ 0) ts.
Proof.
  induction ts as [|t ts IH]; cbn; [by constructor|]. intros [H1 H2]%orb_false_iff. constructor; [|by apply IH].
  unfold bad_task in H1. apply orb_false_iff in H1 as [_ H1]. lia.
Qed.

End WarpQueue.
