(* ===== verification/WarpHost.v ===== *)
(** The host's end of the rings in mapped memory, for both kernels with specialised warps: an
    invariant of the queue and the mapped memory that the calls of the host keep, whatever
    the kernel behind them.  The kernel enters as the set of indices whose completion it has
    written to mapped memory. *)

From stdpp Require Import functions.
From S2P Require Import Prelude CopyHost WarpQueue.
Import Copy WarpQueue.

Module WarpHost.

Definition completion_of (t : CopyTask) : CopyCompletion := mkCopyCompletion (task_id t) task_success.

Section Host.
Context (cap : nat).

(** [l] are the tasks handed over, [p] the completions polled. *)
Record host_ok (q : Queue) (m : Mapped) (l : list CopyTask) (p : list CopyCompletion) (written : nat → Prop) : Prop := {
  h_queue : has_memory q = true ∧ capacity q = cap;
  h_tail : submit_tail q = length l ∧ task_tail m = length l;
  h_stop : stop_requested m = true → accepting q = false;
  h_positions : (completion_head q <= cached_completion_tail q <= completion_tail m)%nat ∧
    (completion_tail m <= length l <= completion_head q + cap)%nat;
  h_tasks : ∀ i t, l !! i = Some t → (completion_head q <= i)%nat → task_slots m (slot cap i) = t;
  h_lengths : Forall (λ t, task_length t ≠ 0) l;
  h_polled : p = completion_of <$> take (completion_head q) l;
  h_completions : ∀ i t, l !! i = Some t → (completion_head q <= i)%nat → written i →
    completion_slots m (slot cap i) = completion_of t;
}.

Context (Hcap : ∃ k, cap = (2 ^ k)%nat).
Context (q : Queue) (m : Mapped) (l : list CopyTask) (p : list CopyCompletion) (written : nat → Prop).
Context (H : host_ok q m l p written).

(** Tasks are taken only before a request to stop; the kernel sees the new tail. *)
Lemma host_ok_submit tasks :
  (∀ i, written i → (i < length l)%nat) →
  let '(q', m', _, n) := try_submit_batch q m tasks in
  host_ok q' m' (l ++ take n tasks) p written ∧
  completion_tail m' = completion_tail m ∧ stop_requested m' = stop_requested m ∧
  (n = 0%nat ∨ stop_requested m = false).
Proof.
  intros Hreal. pose proof H as []. unfold try_submit_batch.
  assert (host_ok q m (l ++ take 0 tasks) p written) as Hsame by by rewrite take_0, app_nil_r.
  destruct (negb (running q) || negb (accepting q) || (length tasks =? 0)%nat) eqn:E0; [by split_and!; [|..|left]|].
  apply orb_false_iff in E0 as [[_ Ha%negb_false_iff]%orb_false_iff _].
  destruct (_ <=? _)%nat eqn:E1; [by split_and!; [|..|left]|]. apply Nat.leb_gt in E1.
  destruct h_queue0 as [Hm Hc]. destruct h_tail0 as [Hst Htt]. destruct h_positions0 as [P1 P2].
  set (n := Nat.min _ _). set (ts := take n tasks).
  destruct (existsb bad_task ts) eqn:E2; [by split_and!; [|..|left]|].
  assert (length ts = n) as Hn by (unfold ts; rewrite length_take; lia).
  assert (n + length l <= completion_head q + cap)%nat as Hroom by (unfold n; lia).
  assert (stop_requested m = false) as Hstop.
  { destruct (stop_requested m) eqn:E; [|done]. by rewrite h_stop0 in Ha. }
  split_and!; [|done|done|by right].
  split; cbn [has_memory capacity submit_tail task_tail stop_requested accepting completion_head cached_completion_tail
    completion_tail task_slots completion_slots]; try done.
  - fold ts. by rewrite length_app, Hn, Hst.
  - fold ts. rewrite length_app, Hn. lia.
  - fold ts. rewrite Hc, Hst. intros i t Hi Hhead. apply (write_tasks_window cap Hcap _ _ (completion_head q)); [lia|done|done|done|lia].
  - apply Forall_app. split; [done|by apply not_bad].
  - by rewrite take_app_le by lia.
  - intros i t Hi Hhead Hw. apply h_completions0; [|done..]. rewrite lookup_app_l in Hi; [done|]. by apply Hreal.
Qed.

Lemma host_poll :
  (∀ i, (i < completion_tail m)%nat → written i) →
  let '(q', status, c) := try_poll q m in host_ok q' m l (if status =? 0 then p ++ [c] else p) written.
Proof.
  intros Hdone. pose proof H as []. unfold try_poll. destruct h_queue0 as [Hm Hc]. rewrite Hm. cbn [negb].
  set (cached := if (cached_completion_tail q <=? _)%nat then _ else _).
  assert (completion_head q <= cached <= completion_tail m)%nat as Hcd by (unfold cached; destruct (_ <=? _)%nat; lia).
  destruct (cached <=? _)%nat eqn:E.
  { split; try done. cbn. lia. }
  apply Nat.leb_gt in E. destruct (lookup_lt_is_Some_2 l (completion_head q)) as [t Ht]; [lia|].
  split; try done; cbn [completion_head cached_completion_tail capacity].
  - lia.
  - intros i t' Hi Hhead. apply h_tasks0; [done|lia].
  - cbn [Z.eqb]. rewrite (take_S_r _ _ _ Ht), fmap_app, h_polled0, Hc. f_equal. cbn. f_equal.
    apply h_completions0; [done|done|]. apply Hdone. lia.
  - intros i t' Hi Hhead. apply h_completions0; [done|lia].
Qed.

Lemma host_stop :
  let '(q', m', _) := request_stop q m in
  host_ok q' m' l p written ∧ completion_tail m' = completion_tail m ∧ (m' = m ∨ stop_requested m' = true).
Proof.
  unfold request_stop. destruct (negb _ || _); [by split_and!; [| |left]|]. pose proof H as [].
  split_and!; [|done|by right]. by split.
Qed.

(** ** What the kernel does to mapped memory *)

Lemma host_weaken written' : (∀ i, written' i → written i) → host_ok q m l p written'.
Proof. intros Hw. pose proof H as []. split; try done. intros i t Hi Hh Hi'. by apply h_completions0, Hw. Qed.

(** It writes the completion of a task whose completion it had not written. *)
Lemma host_write written' i t :
  l !! i = Some t → (completion_tail m <= i)%nat → ¬ written i → (∀ j, written' j ↔ written j ∨ j = i) →
  host_ok q (mkMapped (task_tail m) (completion_tail m) (stop_requested m) (task_slots m)
               (<[slot cap i := completion_of t]> (completion_slots m))) l p written'.
Proof.
  intros Hi Hge Hn Hw. pose proof H as []. split; try done. cbn [completion_slots].
  intros j u Hj Hhead [Hwr| ->]%Hw.
  - rewrite fn_lookup_insert_ne; [by apply h_completions0|]. intros E.
    apply lookup_lt_Some in Hi as Hli. apply lookup_lt_Some in Hj as Hlj.
    apply (ring_slot_inj cap Hcap (completion_head q)) in E; [|lia..]. by subst j.
  - rewrite fn_lookup_insert. by rewrite Hi in Hj; injection Hj as <-.
Qed.

(** It stores the tail. *)
Lemma host_tail n :
  (completion_tail m <= n <= length l)%nat →
  host_ok q (mkMapped (task_tail m) n (stop_requested m) (task_slots m) (completion_slots m)) l p written.
Proof. intros Hn. pose proof H as []. split; try done. cbn. lia. Qed.

End Host.

#[global] Arguments h_queue {cap q m l p written}.
#[global] Arguments h_tail {cap q m l p written}.
#[global] Arguments h_stop {cap q m l p written}.
#[global] Arguments h_positions {cap q m l p written}.
#[global] Arguments h_tasks {cap q m l p written}.
#[global] Arguments h_lengths {cap q m l p written}.
#[global] Arguments h_polled {cap q m l p written}.
#[global] Arguments h_completions {cap q m l p written}.

End WarpHost.
