(* ===== verification/WarpPipeline.v ===== *)
(** The pipeline kernel (src/gpu/persistent_copy.cu, [warp_specialized_pipeline_kernel]) with
    the host's queue in front of it: one warp takes tasks out of mapped memory and deals
    them to the copy warps round robin, each copy warp has a ring of task slots and a ring
    of completion slots in shared memory, guarded by barriers, and one warp writes the
    completions back in the order of the tasks.

    The host, the lanes of the two outer warps and the copy warps run in any interleaving
    of the steps below.  A step is what one lane does between two waits; memory accesses
    are taken in the order of the steps, as the acquire and release operations of the code
    are meant to ensure.  A wait that fails is no step: the code sleeps and tries again.
    The first lane of an outer warp polls the tail, then the request to stop, then the tail
    again; that acts as the last of these loads, the earlier ones being stale at worst, in
    which case the warp polls once more.  A call of the host is one step: what it stores
    before its releasing store is out of the device's sight until then.
    A barrier with an expected count of one completes a phase with each arrival, so it is
    the number of its completed phases. *)

From stdpp Require Import functions.
From S2P Require Import Prelude CopyHost WarpQueue.
Import Copy WarpQueue.

Module WarpPipeline.

(** * Shared memory *)

Record TaskSlot := mkTaskSlot { ready : nat; consumed : nat; slot_task : CopyTask }.
Record CompletionSlot := mkCompletionSlot {
  c_ready : nat; c_consumed : nat; slot_completion : CopyCompletion;
}.

(** [try_wait_parity]: the phase with this parity has completed, that is, the current phase
    has the other one. *)
Definition passes (completed : nat) (parity : bool) : bool := negb (Bool.eqb (Nat.odd completed) parity).

(** * The warps *)

(** The warp that deals tasks out: polling, with a batch of which some lanes have yet to
    place their task, or with the last, empty task for each copy warp. *)
Inductive Ingress :=
| in_poll (head : nat)
| in_batch (head count : nat) (todo : list nat)
| in_stop (head : nat) (todo : list nat)
| in_done (head : nat).

(** A copy warp at a local index: waiting for a task, copying it, with its completion to
    publish, or gone. *)
Inductive CopyWarp :=
| cw_wait (local : nat)
| cw_copy (local : nat) (t : CopyTask)
| cw_publish (local : nat) (t : CopyTask)
| cw_done (local : nat).

(** The warp that writes completions back: polling, with a batch of which some lanes have
    yet to read their completion, with lanes that have yet to give their slot back while the
    first lane also stores the tail, before its own, or gone. *)
Inductive Egress :=
| eg_poll (head : nat)
| eg_read (head count : nat) (todo : list nat)
| eg_release (head count : nat) (stored : bool) (todo : list nat)
| eg_done (head : nat).

Record Device := mkDevice {
  ingress : Ingress;
  warps : nat → CopyWarp;
  egress : Egress;
  tslots : nat → TaskSlot;
  cslots : nat → CompletionSlot;
  copied : list (nat * CopyTask);      (* the tasks copied, with their indices, newest first *)
}.

Definition with_ingress (d : Device) (x : Ingress) : Device :=
  mkDevice x (warps d) (egress d) (tslots d) (cslots d) (copied d).
Definition with_warp (d : Device) (w : nat) (x : CopyWarp) : Device :=
  mkDevice (ingress d) (<[w := x]> (warps d)) (egress d) (tslots d) (cslots d) (copied d).
Definition with_egress (d : Device) (x : Egress) : Device :=
  mkDevice (ingress d) (warps d) x (tslots d) (cslots d) (copied d).
Definition with_tslot (d : Device) (s : nat) (x : TaskSlot) : Device :=
  mkDevice (ingress d) (warps d) (egress d) (<[s := x]> (tslots d)) (cslots d) (copied d).
Definition with_cslot (d : Device) (s : nat) (x : CompletionSlot) : Device :=
  mkDevice (ingress d) (warps d) (egress d) (tslots d) (<[s := x]> (cslots d)) (copied d).
Definition with_copied (d : Device) (x : nat * CopyTask) : Device :=
  mkDevice (ingress d) (warps d) (egress d) (tslots d) (cslots d) (x :: copied d).

Definition launched_device : Device :=
  mkDevice (in_poll 0) (λ _, cw_wait 0) (eg_poll 0) (λ _, mkTaskSlot 0 0 no_task)
    (λ _, mkCompletionSlot 0 0 no_completion) [].

Section Kernel.
(** [CopyWarps], [SharedQueueDepth] and the capacity of the mapped rings. *)
Context (W depth cap : nat).

Definition owner_of (i : nat) : nat := i mod W.
Definition local_of (i : nat) : nat := i / W.
Definition slot_index (owner local : nat) : nat := owner * depth + Nat.land local (depth - 1).
Definition phase (local : nat) : bool := Nat.odd (local / depth).
Definition slot_of_index (i : nat) : nat := slot_index (owner_of i) (local_of i).

(** [min(available, kWarpSpecializedMetaBatch)]. *)
Definition batch (available : nat) : nat := Nat.min available kWarpSpecializedMetaBatch.

Definition remove_lane (lane : nat) (todo : list nat) : list nat := filter (λ x, x ≠ lane) todo.

(** A lane of the first warp stores a task in its slot, once the slot was consumed. *)
Definition place (d : Device) (i : nat) (t : CopyTask) : option Device :=
  let s := tslots d (slot_of_index i) in
  if passes (consumed s) (negb (phase (local_of i)))
  then Some (with_tslot d (slot_of_index i) (mkTaskSlot (S (ready s)) (consumed s) t))
  else None.

Definition ingress_step (lane : nat) (m : Mapped) (d : Device) : option Device :=
  match ingress d with
  | in_poll head =>
      if (head <? task_tail m)%nat
      then let count := batch (task_tail m - head) in
           Some (with_ingress d (in_batch head count (seq 0 count)))
      else if stop_requested m then Some (with_ingress d (in_stop head (seq 0 W)))
      else None
  | in_batch head count [] => Some (with_ingress d (in_poll (head + count)))
  | in_batch head count todo =>
      if decide (lane ∈ todo)
      then let i := (head + lane)%nat in
           place (with_ingress d (in_batch head count (remove_lane lane todo))) i (task_slots m (slot cap i))
      else None
  | in_stop head [] => Some (with_ingress d (in_done head))
  | in_stop head todo =>
      if decide (lane ∈ todo)
      then place (with_ingress d (in_stop head (remove_lane lane todo))) (head + lane) no_task
      else None
  | in_done _ => None
  end.

Definition copy_step (w : nat) (d : Device) : option Device :=
  match warps d w with
  | cw_wait local =>
      let s := tslots d (slot_index w local) in
      if passes (ready s) (phase local)
      then
        let d := with_tslot d (slot_index w local) (mkTaskSlot (ready s) (S (consumed s)) (slot_task s)) in
        Some (with_warp d w (if task_length (slot_task s) =? 0 then cw_done local
                             else cw_copy local (slot_task s)))
      else None
  | cw_copy local t => Some (with_warp (with_copied d (local * W + w, t)%nat) w (cw_publish local t))
  | cw_publish local t =>
      let s := cslots d (slot_index w local) in
      if passes (c_consumed s) (negb (phase local))
      then
        let d := with_cslot d (slot_index w local)
                   (mkCompletionSlot (S (c_ready s)) (c_consumed s) (mkCopyCompletion (task_id t) task_success)) in
        Some (with_warp d w (cw_wait (S local)))
      else None
  | cw_done _ => None
  end.

Definition with_completion_slot (m : Mapped) (s : nat) (c : CopyCompletion) : Mapped :=
  mkMapped (task_tail m) (completion_tail m) (stop_requested m) (task_slots m) (<[s := c]> (completion_slots m)).
Definition with_completion_tail (m : Mapped) (n : nat) : Mapped :=
  mkMapped (task_tail m) n (stop_requested m) (task_slots m) (completion_slots m).

Definition egress_step (lane : nat) (m : Mapped) (d : Device) : option (Mapped * Device) :=
  match egress d with
  | eg_poll head =>
      if (head <? task_tail m)%nat
      then let count := batch (task_tail m - head) in
           Some (m, with_egress d (eg_read head count (seq 0 count)))
      else if stop_requested m then Some (m, with_egress d (eg_done head))
      else None
  | eg_read head count [] => Some (m, with_egress d (eg_release head count false (seq 0 count)))
  | eg_read head count todo =>
      let i := (head + lane)%nat in
      let s := cslots d (slot_of_index i) in
      if decide (lane ∈ todo)
      then if passes (c_ready s) (phase (local_of i))
           then Some (with_completion_slot m (slot cap i) (slot_completion s),
                      with_egress d (eg_read head count (remove_lane lane todo)))
           else None
      else None
  | eg_release head count true [] => Some (m, with_egress d (eg_poll (head + count)))
  | eg_release head count stored todo =>
      if negb stored && (lane =? 0)%nat
      then Some (with_completion_tail m (head + count), with_egress d (eg_release head count true todo))
      else if decide (lane ∈ todo)
      then let s := slot_of_index (head + lane) in
           let c := cslots d s in
           Some (m, with_egress (with_cslot d s (mkCompletionSlot (c_ready c) (S (c_consumed c)) (slot_completion c)))
                      (eg_release head count stored (remove_lane lane todo)))
      else None
  | eg_done _ => None
  end.

(** * Host and device *)

(** [submitted] and [polled] record what the host handed over and got back. *)
Record World := mkWorld {
  queue : Queue; mapped : Mapped; device : Device;
  submitted : list CopyTask; polled : list CopyCompletion;
}.

Inductive Event :=
| ev_submit (tasks : list CopyTask) | ev_poll | ev_stop
| ev_ingress (lane : nat) | ev_copy (w : nat) | ev_egress (lane : nat).

Definition device_event (e : Event) : bool :=
  match e with ev_ingress _ | ev_copy _ | ev_egress _ => true | _ => false end.

Definition step (s : World) (e : Event) : option World :=
  match e with
  | ev_submit tasks =>
      let '(q, m, status, n) := try_submit_batch (queue s) (mapped s) tasks in
      Some (mkWorld q m (device s) (submitted s ++ take n tasks) (polled s))
  | ev_poll =>
      let '(q, status, c) := try_poll (queue s) (mapped s) in
      Some (mkWorld q (mapped s) (device s) (submitted s)
              (if status =? 0 then polled s ++ [c] else polled s))
  | ev_stop =>
      let '(q, m, status) := request_stop (queue s) (mapped s) in
      Some (mkWorld q m (device s) (submitted s) (polled s))
  | ev_ingress lane =>
      (λ d, mkWorld (queue s) (mapped s) d (submitted s) (polled s)) <$> ingress_step lane (mapped s) (device s)
  | ev_copy w =>
      if (w <? W)%nat
      then (λ d, mkWorld (queue s) (mapped s) d (submitted s) (polled s)) <$> copy_step w (device s)
      else None
  | ev_egress lane =>
      (λ '(m, d), mkWorld (queue s) m d (submitted s) (polled s)) <$> egress_step lane (mapped s) (device s)
  end.

End Kernel.
End WarpPipeline.
