(* ===== verification/WarpOrder.v ===== *)
(** The pipeline kernel keeps its rings in order: in every interleaving the host polls the
    completions of its tasks in the order of submission, each after its task was copied,
    and no slot is overwritten before it was read. *)

From stdpp Require Import functions.
From S2P Require Import Prelude CopyHost WarpQueue WarpHost WarpPipeline.
Import Copy WarpQueue WarpHost WarpPipeline.

Module WarpOrder.

Section Order.
Context (W depth cap : nat).

(** What the allocation checks: at least one copy warp, a power-of-two depth with room for a
    whole batch in all rings together, a power-of-two capacity. *)
Record geometry : Prop := {
  g_warps : (0 < W)%nat;
  g_depth : ∃ k, depth = (2 ^ k)%nat;
  g_room : (kWarpSpecializedMetaBatch <= W * depth)%nat;
  g_cap : ∃ k, cap = (2 ^ k)%nat;
}.
Context (G : geometry).

#[local] Abbreviation N := (W * depth)%nat.
#[local] Abbreviation owner := (owner_of W).
#[local] Abbreviation local := (local_of W).
#[local] Abbreviation slot_at := (slot_of_index W depth).

Definition round (i : nat) : nat := local i / depth.
Definition index (w l : nat) : nat := (l * W + w)%nat.

(** * Indices *)

Lemma depth_pos : (0 < depth)%nat.
Proof. destruct (g_depth G) as [k ->]. pose proof (Nat.pow_nonzero 2 k). lia. Qed.
Lemma warps_pos : (0 < W)%nat.
Proof. apply G. Qed.

Lemma land_pow2_nat i k : Nat.land i (2 ^ k - 1) = (i mod 2 ^ k)%nat.
Proof. rewrite <- Nat.land_ones. f_equal. rewrite Nat.ones_equiv. lia. Qed.

Lemma slot_index_eq w l : slot_index depth w l = (w * depth + l mod depth)%nat.
Proof. unfold slot_index. destruct (g_depth G) as [k ->]. by rewrite land_pow2_nat. Qed.

Lemma index_of i : i = index (owner i) (local i).
Proof. unfold index, owner_of, local_of. pose proof (Nat.div_mod_eq i W). lia. Qed.
Lemma owner_index w l : (w < W)%nat → owner (index w l) = w.
Proof.
  intros Hw. unfold owner_of, index. rewrite Nat.add_comm, Nat.Div0.mod_add. by apply Nat.mod_small.
Qed.
Lemma local_index w l : (w < W)%nat → local (index w l) = l.
Proof.
  intros Hw. unfold local_of, index. rewrite Nat.div_add_l, (Nat.div_small w) by lia. lia.
Qed.
Lemma owner_lt i : (owner i < W)%nat.
Proof. apply Nat.mod_upper_bound. pose proof warps_pos. lia. Qed.
Lemma slot_at_index w l : (w < W)%nat → slot_at (index w l) = slot_index depth w l.
Proof. intros Hw. unfold slot_of_index. by rewrite owner_index, local_index. Qed.

(** A slot and a round determine the index. *)
Lemma slot_round i j : slot_at i = slot_at j → round i = round j → i = j.
Proof.
  unfold slot_of_index, round. rewrite !slot_index_eq. pose proof depth_pos as Hd. intros Hs Hr.
  pose proof (Nat.mod_upper_bound (local i) depth). pose proof (Nat.mod_upper_bound (local j) depth).
  assert (owner i = owner j) as Ho.
  { pose proof (Nat.div_add_l (owner i) depth (local i mod depth)) as E1.
    pose proof (Nat.div_add_l (owner j) depth (local j mod depth)) as E2.
    rewrite Hs, E2, !(Nat.div_small (_ mod _)) in E1 by lia. lia. }
  rewrite (index_of i), (index_of j), Ho.
  pose proof (Nat.div_mod_eq (local i) depth). pose proof (Nat.div_mod_eq (local j) depth).
  assert (local i = local j) as ->; [|done]. rewrite Ho in Hs. rewrite Hr in *. lia.
Qed.

Lemma owner_shift i : owner (i + N) = owner i.
Proof. unfold owner_of. rewrite (Nat.mul_comm W). apply Nat.Div0.mod_add. Qed.
Lemma local_shift i : local (i + N) = (local i + depth)%nat.
Proof. unfold local_of. pose proof warps_pos. rewrite (Nat.mul_comm W), Nat.div_add by lia. lia. Qed.
Lemma slot_shift i : slot_at (i + N) = slot_at i.
Proof.
  unfold slot_of_index. rewrite !slot_index_eq, owner_shift, local_shift.
  f_equal. rewrite <- (Nat.mul_1_l depth) at 1. apply Nat.Div0.mod_add.
Qed.
Lemma round_shift i : round (i + N) = S (round i).
Proof.
  unfold round. rewrite local_shift. pose proof depth_pos.
  rewrite <- (Nat.mul_1_l depth) at 1. rewrite Nat.div_add by lia. lia.
Qed.
Lemma round_prev i : (0 < round i)%nat → ∃ j, i = (j + N)%nat.
Proof.
  unfold round, local_of. rewrite Nat.Div0.div_div. intros H. exists (i - N)%nat.
  destruct (decide (i < N)%nat) as [Hlt|]; [|lia]. rewrite Nat.div_small in H by done. lia.
Qed.

(** Adjacent phases are told apart by their parity. *)
Lemma passes_next a r b :
  (r <= a <= S r)%nat → passes a (Nat.odd r) = b → b = true ↔ a = S r.
Proof.
  unfold passes. intros Ha <-. destruct (decide (a = S r)) as [->|Hne].
  - rewrite Nat.odd_succ, <- Nat.negb_odd. by destruct (Nat.odd r).
  - replace a with r by lia. rewrite eqb_reflx. split; [done|lia].
Qed.
Lemma passes_same a r b :
  (r <= S a)%nat → (a <= r)%nat → passes a (negb (Nat.odd r)) = b → b = true ↔ a = r.
Proof.
  unfold passes. intros H1 H2 <-. destruct (decide (a = r)) as [->|Hne].
  - by destruct (Nat.odd r).
  - replace r with (S a) by lia. rewrite Nat.odd_succ, <- Nat.negb_odd.
    destruct (Nat.odd a); split; done || lia.
Qed.

(** * A ring of slots with barriers

    [put] and [got] say which indices were stored in their slot and taken out of it; [rd]
    and [cs] count the completed phases of the two barriers of a slot. *)

Record ring (put got : nat → Prop) (rd cs : nat → nat) : Prop := {
  r_ready : ∀ i, put i ↔ (round i < rd (slot_at i))%nat;
  r_consumed : ∀ i, got i ↔ (round i < cs (slot_at i))%nat;
  r_order : ∀ i, got i → put i;
  r_room : ∀ i, put (i + N)%nat → got i;
}.

Lemma ring_ext (put put' got got' : nat → Prop) rd cs :
  ring put got rd cs → (∀ i, put i ↔ put' i) → (∀ i, got i ↔ got' i) → ring put' got' rd cs.
Proof.
  intros [R1 R2 R3 R4] Hp Hg. split; intros i; rewrite <- ?Hp, <- ?Hg; auto.
Qed.

Section Ring.
Context (put got : nat → Prop) (rd cs : nat → nat) (R : ring put got rd cs).

Lemma ready_bounds i : ¬ got i → (∀ j, i = (j + N)%nat → got j) → (round i <= rd (slot_at i) <= S (round i))%nat.
Proof.
  intros Hg Hprev. split.
  - destruct (decide (0 < round i)%nat) as [H0|]; [|lia]. destruct (round_prev i H0) as [j ->].
    rewrite round_shift, slot_shift. apply (r_ready _ _ _ _ R j), (r_order _ _ _ _ R), (Hprev j eq_refl).
  - apply Nat.nlt_ge. intros H. apply Hg, (r_room _ _ _ _ R), (r_ready _ _ _ _ R). rewrite round_shift, slot_shift. lia.
Qed.

Lemma consumed_bounds i : ¬ put i → (∀ j, i = (j + N)%nat → put j) →
  (round i <= S (cs (slot_at i)))%nat ∧ (cs (slot_at i) <= round i)%nat.
Proof.
  intros Hp Hprev. split.
  - destruct (decide (0 < round i)%nat) as [H0|]; [|lia]. destruct (round_prev i H0) as [j ->].
    specialize (Hprev j eq_refl). rewrite round_shift, slot_shift.
    destruct (decide (0 < round j)%nat) as [H1|]; [|lia]. destruct (round_prev j H1) as [k ->].
    rewrite round_shift, slot_shift.
    pose proof (proj1 (r_consumed _ _ _ _ R k) (r_room _ _ _ _ R k Hprev)). lia.
  - apply Nat.nlt_ge. intros H. apply Hp, (r_order _ _ _ _ R), (r_consumed _ _ _ _ R). lia.
Qed.

(** The wait before a put passes exactly when the slot's last content was taken. *)
Lemma can_put i : ¬ put i → (∀ j, i = (j + N)%nat → put j) →
  passes (cs (slot_at i)) (negb (Nat.odd (round i))) = true ↔ ∀ j, i = (j + N)%nat → got j.
Proof.
  intros Hp Hprev. destruct (consumed_bounds i Hp Hprev) as [B1 B2]. rewrite (passes_same _ _ _ B1 B2 eq_refl).
  split.
  - intros Hc j ->. apply (r_consumed _ _ _ _ R). rewrite round_shift, slot_shift in Hc. lia.
  - intros Hg. destruct (decide (0 < round i)%nat) as [H0|]; [|lia]. destruct (round_prev i H0) as [j ->].
    pose proof (proj1 (r_consumed _ _ _ _ R j) (Hg j eq_refl)). rewrite round_shift, slot_shift in *. lia.
Qed.

(** The wait before a get passes exactly when the index was put. *)
Lemma can_get i : ¬ got i → (∀ j, i = (j + N)%nat → got j) →
  passes (rd (slot_at i)) (Nat.odd (round i)) = true ↔ put i.
Proof.
  intros Hg Hprev. rewrite (passes_next _ _ _ (ready_bounds i Hg Hprev) eq_refl), (r_ready _ _ _ _ R).
  pose proof (ready_bounds i Hg Hprev). lia.
Qed.

Lemma count_put i (put' : nat → Prop) :
  ¬ put i → (∀ j, i = (j + N)%nat → got j) → (∀ j, put' j ↔ put j ∨ j = i) →
  ring put' got (<[slot_at i := S (rd (slot_at i))]> rd) cs.
Proof.
  intros Hp Hprev Hput'. destruct R as [R1 R2 R3 R4].
  assert (rd (slot_at i) = round i) as Hrd.
  { apply Nat.le_antisymm; [apply Nat.nlt_ge; intros H; by apply Hp, R1|].
    destruct (decide (0 < round i)%nat) as [H0|]; [|lia]. destruct (round_prev i H0) as [j ->].
    rewrite round_shift, slot_shift. apply (R1 j), R3, (Hprev j eq_refl). }
  split; [|done| |].
  - intros j. rewrite Hput', R1. destruct (decide (slot_at i = slot_at j)) as [E|E].
    + rewrite <- E, fn_lookup_insert, Hrd. split; [intros [?| ->]; lia|]. intros Hj.
      destruct (decide (round j = round i)) as [Er|]; [right; by apply slot_round|left; lia].
    + rewrite fn_lookup_insert_ne by done. split; [intros [?| ->]; done|by left].
  - intros j Hj. apply Hput'. left. by apply R3.
  - intros j Hj. apply Hput' in Hj as [Hj|<-]; [by apply R4|by apply Hprev].
Qed.

Lemma count_got i (got' : nat → Prop) :
  ¬ got i → put i → (∀ j, i = (j + N)%nat → got j) → (∀ j, got' j ↔ got j ∨ j = i) →
  ring put got' rd (<[slot_at i := S (cs (slot_at i))]> cs).
Proof.
  intros Hg Hp Hprev Hgot'. destruct R as [R1 R2 R3 R4].
  assert (cs (slot_at i) = round i) as Hcs.
  { apply Nat.le_antisymm; [apply Nat.nlt_ge; intros H; by apply Hg, R2|].
    destruct (decide (0 < round i)%nat) as [H0|]; [|lia]. destruct (round_prev i H0) as [j ->].
    rewrite round_shift, slot_shift. apply (R2 j), (Hprev j eq_refl). }
  split; [done| | |].
  - intros j. rewrite Hgot', R2. destruct (decide (slot_at i = slot_at j)) as [E|E].
    + rewrite <- E, fn_lookup_insert, Hcs. split; [intros [?| ->]; lia|]. intros Hj.
      destruct (decide (round j = round i)) as [Er|]; [right; by apply slot_round|left; lia].
    + rewrite fn_lookup_insert_ne by done. split; [intros [?| ->]; done|by left].
  - intros j Hj. apply Hgot' in Hj as [Hj| ->]; [by apply R3|done].
  - intros j Hj. apply Hgot'. left. by apply R4.
Qed.

(** Put but not taken: nothing else is in that slot. *)
Lemma in_slot i j : put i → ¬ got i → put j → ¬ got j → slot_at i = slot_at j → i = j.
Proof.
  intros Pi Gi Pj Gj E. apply slot_round; [done|].
  assert (∀ i, put i → ¬ got i → round i = cs (slot_at i)) as H; [|rewrite (H i), (H j), E; done].
  clear i j Pi Gi Pj Gj E. intros i Pi Gi.
  assert (cs (slot_at i) <= round i)%nat by (apply Nat.nlt_ge; intros H; by apply Gi, (r_consumed _ _ _ _ R)).
  destruct (decide (0 < round i)%nat) as [H0|]; [|lia]. destruct (round_prev i H0) as [k ->].
  pose proof (proj1 (r_consumed _ _ _ _ R k) (r_room _ _ _ _ R k Pi)). rewrite round_shift, slot_shift in *. lia.
Qed.

End Ring.

(** * The invariant *)

Definition lanes_left (h c : nat) (todo : list nat) (i : nat) : Prop :=
  (i < h)%nat ∨ (h <= i < h + c)%nat ∧ (i - h)%nat ∉ todo.

(** The indices the first warp has placed. *)
Definition placed (d : Device) (i : nat) : Prop :=
  match ingress d with
  | in_poll h => (i < h)%nat
  | in_batch h c todo => lanes_left h c todo i
  | in_stop h todo => lanes_left h W todo i
  | in_done h => (i < h + W)%nat
  end.

(** How many tasks a copy warp has taken, has copied and has published. *)
Definition taken (d : Device) (w : nat) : nat :=
  match warps d w with cw_wait l => l | cw_copy l _ | cw_publish l _ | cw_done l => S l end.
Definition copies (d : Device) (w : nat) : nat :=
  match warps d w with cw_wait l | cw_copy l _ | cw_done l => l | cw_publish l _ => S l end.
Definition published (d : Device) (w : nat) : nat :=
  match warps d w with cw_wait l | cw_copy l _ | cw_publish l _ | cw_done l => l end.

Definition got_task (d : Device) (i : nat) : Prop := (local i < taken d (owner i))%nat.
Definition put_completion (d : Device) (i : nat) : Prop := (local i < published d (owner i))%nat.

#[export] Instance put_completion_dec d i : Decision (put_completion d i).
Proof. unfold put_completion. apply _. Defined.

(** The indices whose completion slot the last warp has given back. *)
Definition released (d : Device) (i : nat) : Prop :=
  match egress d with
  | eg_poll h | eg_read h _ _ | eg_done h => (i < h)%nat
  | eg_release h c _ todo => lanes_left h c todo i
  end.

(** The indices whose completion is in mapped memory. *)
Definition written (d : Device) (i : nat) : Prop :=
  match egress d with
  | eg_poll h | eg_done h => (i < h)%nat
  | eg_read h c todo => lanes_left h c todo i
  | eg_release h c _ _ => (i < h + c)%nat
  end.

(** After the last task there are only empty ones. *)
Definition task_at (l : list CopyTask) (i : nat) : CopyTask := default no_task (l !! i).

Definition lanes_ok (c : nat) (todo : list nat) : Prop := NoDup todo ∧ Forall (λ x, (x < c)%nat) todo.

Definition ingress_ok (n : nat) (stop : bool) (x : Ingress) : Prop :=
  match x with
  | in_poll h => (h <= n)%nat
  | in_batch h c todo => (h + c <= n)%nat ∧ (c <= kWarpSpecializedMetaBatch)%nat ∧ lanes_ok c todo
  | in_stop h todo => h = n ∧ stop = true ∧ lanes_ok W todo
  | in_done h => h = n ∧ stop = true
  end.
Definition egress_ok (n ctail : nat) (stop : bool) (x : Egress) : Prop :=
  match x with
  | eg_poll h => h = ctail ∧ (h <= n)%nat
  | eg_read h c todo => h = ctail ∧ (h + c <= n)%nat ∧ (c <= kWarpSpecializedMetaBatch)%nat ∧ lanes_ok c todo
  | eg_release h c stored todo => (if stored then h + c else h)%nat = ctail ∧ (h + c <= n)%nat ∧
      (c <= kWarpSpecializedMetaBatch)%nat ∧ lanes_ok c todo
  | eg_done h => h = ctail ∧ h = n ∧ stop = true
  end.
Definition warp_ok (l : list CopyTask) (stop : bool) (w : nat) (x : CopyWarp) : Prop :=
  match x with
  | cw_wait _ => True
  | cw_copy j t | cw_publish j t => l !! index w j = Some t
  | cw_done j => (length l <= index w j)%nat ∧ stop = true
  end.

Definition host_inv (s : World) : Prop :=
  host_ok cap (queue s) (mapped s) (submitted s) (polled s) (written (device s)).

Record device_inv (l : list CopyTask) (ctail : nat) (stop : bool) (d : Device) : Prop := {
  d_ingress : ingress_ok (length l) stop (ingress d);
  d_egress : egress_ok (length l) ctail stop (egress d);
  d_warps : ∀ w, (w < W)%nat → warp_ok l stop w (warps d w);
  d_tasks : ring (placed d) (got_task d) (λ x, ready (tslots d x)) (λ x, consumed (tslots d x));
  d_completions : ring (put_completion d) (released d) (λ x, c_ready (cslots d x)) (λ x, c_consumed (cslots d x));
  d_task_slots : ∀ i, placed d i → ¬ got_task d i → slot_task (tslots d (slot_at i)) = task_at l i;
  d_completion_slots : ∀ i t, l !! i = Some t → put_completion d i → ¬ released d i →
    slot_completion (cslots d (slot_at i)) = completion_of t;
  d_real : ∀ i, put_completion d i → (i < length l)%nat;
  d_written : ∀ i, written d i → put_completion d i;
  d_copied : ∀ i t, (i, t) ∈ copied d ↔ l !! i = Some t ∧ (local i < copies d (owner i))%nat;
  d_once : NoDup (copied d).*1;
}.

Record inv (s : World) : Prop := {
  inv_host : host_inv s;
  inv_device : device_inv (submitted s) (completion_tail (mapped s)) (stop_requested (mapped s)) (device s);
}.

(** ** Lanes *)

Lemma lanes_all h c j : lanes_left h c (seq 0 c) j ↔ (j < h)%nat.
Proof. unfold lanes_left. rewrite elem_of_seq. lia. Qed.
Lemma lanes_none h c j : lanes_left h c [] j ↔ (j < h + c)%nat.
Proof. unfold lanes_left. rewrite elem_of_nil. lia. Qed.
Lemma lanes_remove h c todo lane j :
  (lane < c)%nat → lanes_left h c (remove_lane lane todo) j ↔ lanes_left h c todo j ∨ j = (h + lane)%nat.
Proof.
  intros Hl. unfold lanes_left, remove_lane. rewrite list_elem_of_filter.
  destruct (decide (j = (h + lane)%nat)) as [->|Hne].
  - replace (h + lane - h)%nat with lane by lia. split; [by right|]. intros _. right. split; [lia|]. by intros [].
  - split.
    + intros [H|[H1 H2]]; left; [by left|right]. split; [done|]. intros H3. apply H2. split; [lia|done].
    + intros [[H|[H1 H2]]|?]; [by left|right|done]. split; [done|]. intros [_ H3]. by apply H2.
Qed.
Lemma lanes_ok_seq c : lanes_ok c (seq 0 c).
Proof. split; [apply NoDup_seq|]. apply Forall_seq. lia. Qed.
Lemma lanes_ok_remove c todo lane : lanes_ok c todo → lanes_ok c (remove_lane lane todo).
Proof.
  intros [H1 H2]. split; [by apply NoDup_filter|]. apply Forall_forall. intros x [_ Hx]%list_elem_of_filter.
  by apply (proj1 (Forall_forall _ _) H2).
Qed.
Lemma lanes_ok_lt c todo lane : lanes_ok c todo → lane ∈ todo → (lane < c)%nat.
Proof. intros [_ H]. by apply (proj1 (Forall_forall _ _) H). Qed.
Lemma lanes_todo h c todo lane : lane ∈ todo → ¬ lanes_left h c todo (h + lane).
Proof.
  intros Hl [H|[_ H]]; [lia|]. apply H. by replace (h + lane - h)%nat with lane by lia.
Qed.
Lemma batch_bound a : (batch a <= a)%nat ∧ (batch a <= kWarpSpecializedMetaBatch)%nat.
Proof. unfold batch. lia. Qed.

Lemma ring_counts (put got : nat → Prop) rd rd' cs cs' :
  ring put got rd cs → (∀ x, rd x = rd' x) → (∀ x, cs x = cs' x) → ring put got rd' cs'.
Proof. intros [R1 R2 R3 R4] Hr Hc. split; try done; intros i; rewrite <- ?Hr, <- ?Hc; auto. Qed.

Lemma insert_field {A} (f : A → nat) (m : nat → A) k x v :
  f x = v → ∀ j, (<[k := v]> (λ y, f (m y)) : nat → nat) j = f ((<[k := x]> m : nat → A) j).
Proof.
  intros <- j. destruct (decide (k = j)) as [<-|Hne]; [by rewrite !fn_lookup_insert|by rewrite !fn_lookup_insert_ne].
Qed.
Lemma insert_same_field {A} (f : A → nat) (m : nat → A) k x :
  f x = f (m k) → ∀ j, f (m j) = f ((<[k := x]> m : nat → A) j).
Proof.
  intros E j. destruct (decide (k = j)) as [<-|Hne]; [by rewrite fn_lookup_insert|by rewrite fn_lookup_insert_ne].
Qed.

(** ** Facts of the invariant *)

Section Facts.
Context (l : list CopyTask) (ctail : nat) (stop : bool) (d : Device) (I : device_inv l ctail stop d).

Lemma published_taken i : put_completion d i → got_task d i.
Proof. unfold put_completion, got_task, published, taken. destruct (warps d (owner i)); lia. Qed.
Lemma done_written i : (i < ctail)%nat → written d i.
Proof.
  intros Hi. pose proof (d_egress _ _ _ _ I) as E. unfold egress_ok in E. unfold written.
  destruct (egress d) as [?|?|? ? []|?]; repeat destruct E as [? E]; try left; lia.
Qed.
Lemma written_placed i : written d i → placed d i.
Proof. intros H. apply (r_order _ _ _ _ (d_tasks _ _ _ _ I)), published_taken, (d_written _ _ _ _ I), H. Qed.
Lemma placed_range i : placed d i → (i < length l)%nat ∨ stop = true.
Proof.
  intros H. pose proof (d_ingress _ _ _ _ I) as E. unfold ingress_ok in E. unfold placed, lanes_left in H.
  destruct (ingress d); repeat destruct E as [? E]; (by right) || (left; lia).
Qed.
Lemma release_written i : released d i → written d i.
Proof. unfold released, written, lanes_left. destruct (egress d); lia || tauto. Qed.
End Facts.

(** ** The first warp *)

Lemma ingress_only l ctail stop d x :
  device_inv l ctail stop d → ingress_ok (length l) stop x →
  (∀ j, placed (with_ingress d x) j ↔ placed d j) → device_inv l ctail stop (with_ingress d x).
Proof.
  intros [] Hx Hp. split; try done.
  - eapply ring_ext; [done|intros i; by rewrite Hp|done].
  - intros i Hi. apply d_task_slots0. by apply Hp.
Qed.

Lemma place_inv l ctail stop d d' i x t :
  device_inv l ctail stop d → ingress_ok (length l) stop x →
  (∀ j, placed (with_ingress d x) j ↔ placed d j ∨ j = i) → ¬ placed d i → (∀ j, i = (j + N)%nat → placed d j) →
  t = task_at l i → place W depth (with_ingress d x) i t = Some d' → device_inv l ctail stop d'.
Proof.
  intros [] Hx Hp Hi Hprev ->. unfold place. cbn [tslots with_ingress].
  destruct (passes _ _) eqn:E; [|done]. intros [= <-].
  change (phase depth (local i)) with (Nat.odd (round i)) in E.
  pose proof (proj1 (can_put _ _ _ _ d_tasks0 i Hi Hprev) E) as Hg.
  pose proof (count_put _ _ _ _ d_tasks0 i _ Hi Hg Hp) as R.
  split; try done.
  - eapply ring_counts; [exact R|by apply (insert_field ready (tslots d))|by apply (insert_same_field consumed (tslots d))].
  - intros j Hj Hgj. cbn [tslots with_tslot]. destruct (decide (slot_at i = slot_at j)) as [Es|Es].
    + assert (i = j) as <-.
      { eapply (in_slot _ _ _ _ R); try done. - by apply Hp; right.
        - intros Hgi. by apply Hi, (r_order _ _ _ _ d_tasks0). }
      by rewrite fn_lookup_insert.
    + rewrite fn_lookup_insert_ne by done. apply d_task_slots0; [|done]. apply Hp in Hj as [?| ->]; done.
Qed.

Lemma ingress_step_inv l ctail stop m lane d d' :
  device_inv l ctail stop d → task_tail m = length l → stop_requested m = stop →
  (∀ i t, l !! i = Some t → (ctail <= i)%nat → task_slots m (slot cap i) = t) →
  ingress_step W depth cap lane m d = Some d' → device_inv l ctail stop d'.
Proof.
  intros I Htail Hstop Hslots. pose proof (d_ingress _ _ _ _ I) as Hok. unfold ingress_step.
  destruct (ingress d) as [h|h c todo|h todo|h] eqn:Ei; cbn [ingress_ok] in Hok; [| | |done].
  - rewrite Htail, Hstop. destruct (_ <? _)%nat eqn:E; [|destruct stop; [|done]]; intros [= <-].
    + apply Nat.ltb_lt in E. pose proof (batch_bound (length l - h)). apply ingress_only; [done| |].
      * split_and!; [lia|lia|apply lanes_ok_seq].
      * intros j. unfold placed. cbn [ingress with_ingress]. rewrite Ei. apply lanes_all.
    + apply Nat.ltb_ge in E. apply ingress_only; [done| |].
      * split_and!; [lia|done|apply lanes_ok_seq].
      * intros j. unfold placed. cbn [ingress with_ingress]. rewrite Ei. apply lanes_all.
  - destruct Hok as (H1 & H2 & H3). destruct todo as [|x todo].
    { intros [= <-]. apply ingress_only; [done|done|]. intros j. unfold placed. cbn [ingress with_ingress]. by rewrite Ei, lanes_none. }
    destruct (decide _) as [Hin|]; [|done]. pose proof (lanes_ok_lt _ _ _ H3 Hin) as Hlt.
    assert (¬ placed d (h + lane)) as Hi by (unfold placed; rewrite Ei; by apply lanes_todo).
    apply (place_inv l ctail stop d); [done| | |done| |].
    + split_and!; [done|done|by apply lanes_ok_remove].
    + intros j. unfold placed. cbn [ingress with_ingress]. rewrite Ei. by apply lanes_remove.
    + intros j Hj. unfold placed. rewrite Ei. left. pose proof (g_room G). lia.
    + destruct (l !! (h + lane)%nat) as [t|] eqn:El; [|apply lookup_ge_None in El; lia].
      unfold task_at. rewrite El. apply Hslots; [done|]. apply Nat.nlt_ge. intros Hc.
      by apply Hi, (written_placed _ _ _ _ I), (done_written _ _ _ _ I).
  - destruct Hok as (H1 & H2 & H3). destruct todo as [|x todo].
    { intros [= <-]. apply ingress_only; [done|done|]. intros j. unfold placed. cbn [ingress with_ingress]. by rewrite Ei, lanes_none. }
    destruct (decide _) as [Hin|]; [|done]. pose proof (lanes_ok_lt _ _ _ H3 Hin) as Hlt.
    apply (place_inv l ctail stop d); [done| | | | |].
    + split_and!; [done|done|by apply lanes_ok_remove].
    + intros j. unfold placed. cbn [ingress with_ingress]. rewrite Ei. by apply lanes_remove.
    + unfold placed. rewrite Ei. by apply lanes_todo.
    + intros j Hj. unfold placed. rewrite Ei. left. pose proof depth_pos. nia.
    + unfold task_at. rewrite lookup_ge_None_2; [done|lia].
Qed.

(** ** The copy warps *)

Section Copy.
Context (l : list CopyTask) (ctail : nat) (stop : bool) (d : Device) (I : device_inv l ctail stop d).
Context (w j : nat) (Hw : (w < W)%nat) (Hlen : Forall (λ t, task_length t ≠ 0) l).

Lemma warp_set x : warps (with_warp d w x) w = x.
Proof. apply fn_lookup_insert. Qed.

(** Indices below, at and above that of warp [w] at its local index [j]. *)
Lemma below_index i n : (local i < (if decide (owner i = w) then S j else n))%nat ↔
  (local i < (if decide (owner i = w) then j else n))%nat ∨ i = index w j.
Proof.
  destruct (decide (owner i = w)) as [E|E].
  - split; [intros H; destruct (decide (local i = j)) as [<-|]; [right; rewrite <- E; apply index_of|left; lia]|].
    intros [H| ->]; [lia|]. rewrite local_index by done. lia.
  - split; [by left|]. intros [H| ->]; [done|]. by rewrite owner_index in E.
Qed.

Lemma index_prev i : index w j = (i + N)%nat → owner i = w ∧ local i = (j - depth)%nat ∧ (depth <= j)%nat.
Proof.
  intros E. pose proof (owner_index w j Hw) as Ho. pose proof (local_index w j Hw) as Hl.
  rewrite E, owner_shift in Ho. rewrite E, local_shift in Hl. lia.
Qed.

(** Taking a task. *)
Lemma take_inv (s := tslots d (slot_index depth w j)) :
  warps d w = cw_wait j → passes (ready s) (phase depth j) = true →
  device_inv l ctail stop
    (with_warp (with_tslot d (slot_index depth w j) (mkTaskSlot (ready s) (S (consumed s)) (slot_task s))) w
       (if task_length (slot_task s) =? 0 then cw_done j else cw_copy j (slot_task s))).
Proof.
  intros Ew Hpass. subst s. rewrite <- (slot_at_index w j Hw) in *. pose proof I as [].
  set (i := index w j) in *. set (s := tslots d (slot_at i)) in *.
  assert (taken d w = j) as Etk by (unfold taken; by rewrite Ew).
  assert (¬ got_task d i) as Hg.
  { unfold got_task, i. rewrite owner_index, local_index, Etk by done. lia. }
  assert (∀ k, i = (k + N)%nat → got_task d k) as Hprev.
  { intros k Hk. destruct (index_prev k Hk) as (Ho & Hl & Hd). unfold got_task. rewrite Ho, Etk. pose proof depth_pos. lia. }
  assert (phase depth j = Nat.odd (round i)) as Eph by (unfold phase, round, i; by rewrite local_index).
  rewrite Eph in Hpass. pose proof (proj1 (can_get _ _ _ _ d_tasks0 i Hg Hprev) Hpass) as Hput.
  pose proof (d_task_slots0 i Hput Hg) as Hcontent. fold s in Hcontent.
  set (x := if _ =? 0 then _ else _). set (d' := with_warp _ w x).
  assert (∀ v, taken d' v = if decide (v = w) then S j else taken d v) as Htk.
  { intros v. unfold taken, d'. cbn [warps with_warp with_tslot]. destruct (decide (v = w)) as [->|Hne].
    - rewrite fn_lookup_insert. unfold x. by destruct (_ =? 0).
    - by rewrite fn_lookup_insert_ne. }
  assert (∀ v, published d' v = published d v ∧ copies d' v = copies d v) as Hpub.
  { intros v. unfold published, copies, d'. cbn [warps with_warp with_tslot]. destruct (decide (v = w)) as [->|Hne].
    - rewrite fn_lookup_insert, Ew. unfold x. by destruct (_ =? 0).
    - by rewrite fn_lookup_insert_ne. }
  assert (∀ k, got_task d' k ↔ got_task d k ∨ k = i) as Hgot.
  { intros k. unfold got_task. rewrite Htk. rewrite (below_index k). fold i. destruct (decide (owner k = w)) as [E|]; [|done].
    by rewrite E, Etk. }
  assert (∀ k, put_completion d' k ↔ put_completion d k) as Hpc.
  { intros k. unfold put_completion. by rewrite (proj1 (Hpub _)). }
  pose proof (count_got _ _ _ _ d_tasks0 i _ Hg Hput Hprev Hgot) as R.
  split; try done.
  - intros v Hv. unfold d'. cbn [warps with_warp]. destruct (decide (w = v)) as [<-|Hne].
    + rewrite fn_lookup_insert. unfold x. rewrite Hcontent. unfold task_at.
      destruct (l !! i) as [t|] eqn:El; cbn.
      * destruct (task_length t =? 0) eqn:E0; [|exact El]. apply Z.eqb_eq in E0.
        by apply (proj1 (Forall_lookup _ _) Hlen) in El.
      * apply lookup_ge_None in El. split; [done|]. destruct (placed_range _ _ _ _ I i Hput); [lia|done].
    + rewrite fn_lookup_insert_ne by done. by apply d_warps0.
  - eapply ring_counts; [exact R|by apply (insert_same_field ready (tslots d))|by apply (insert_field consumed (tslots d))].
  - eapply ring_ext; [exact d_completions0|intros k; by rewrite Hpc|done].
  - intros k Hk Hgk. assert (¬ got_task d k ∧ k ≠ i) as [Hgk' Hne] by (rewrite Hgot in Hgk; tauto).
    cbn [tslots with_warp with_tslot d']. rewrite fn_lookup_insert_ne; [by apply d_task_slots0|].
    intros Es. apply Hne. symmetry. by apply (in_slot _ _ _ _ d_tasks0).
  - intros k t Hk Hp. rewrite Hpc in Hp. by apply d_completion_slots0.
  - intros k Hp. rewrite Hpc in Hp. by apply d_real0.
  - intros k Hk. rewrite Hpc. by apply d_written0.
  - intros k t. rewrite (proj2 (Hpub _)). apply d_copied0.
Qed.

(** Copying it. *)
Lemma copied_inv t :
  warps d w = cw_copy j t → device_inv l ctail stop (with_warp (with_copied d (index w j, t)) w (cw_publish j t)).
Proof.
  intros Ew. set (i := index w j). pose proof I as []. set (d' := with_warp _ w _).
  assert (∀ v, taken d' v = taken d v ∧ published d' v = published d v) as Hsame.
  { intros v. unfold taken, published, d'. cbn [warps with_warp with_copied]. destruct (decide (v = w)) as [->|Hne].
    - by rewrite fn_lookup_insert, Ew.
    - by rewrite fn_lookup_insert_ne. }
  assert (copies d w = j) as Ecp by (unfold copies; by rewrite Ew).
  assert (∀ k, (local k < copies d' (owner k))%nat ↔ (local k < copies d (owner k))%nat ∨ k = i) as Hcp.
  { intros k. assert (copies d' (owner k) = if decide (owner k = w) then S j else copies d (owner k)) as ->.
    - unfold copies, d'. cbn [warps with_warp with_copied]. destruct (decide (owner k = w)) as [->|Hne].
      + by rewrite fn_lookup_insert.
      + by rewrite fn_lookup_insert_ne.
    - rewrite below_index. destruct (decide (owner k = w)) as [E|]; [|done]. by rewrite E, Ecp. }
  assert (∀ k, got_task d' k ↔ got_task d k) as Hg by (intros k; unfold got_task; by rewrite (proj1 (Hsame _))).
  assert (∀ k, put_completion d' k ↔ put_completion d k) as Hpc
    by (intros k; unfold put_completion; by rewrite (proj2 (Hsame _))).
  pose proof (d_warps0 w Hw) as Hok. rewrite Ew in Hok. cbn in Hok. fold i in Hok.
  assert (∀ t', (i, t') ∉ copied d) as Hnew.
  { intros t' [_ H]%d_copied0. unfold i in H. rewrite owner_index, local_index, Ecp in H by done. lia. }
  split; try done.
  - intros v Hv. unfold d'. cbn [warps with_warp]. destruct (decide (w = v)) as [<-|Hne].
    + by rewrite fn_lookup_insert.
    + rewrite fn_lookup_insert_ne by done. by apply d_warps0.
  - eapply ring_ext; [exact d_tasks0|done|intros k; by rewrite Hg].
  - eapply ring_ext; [exact d_completions0|intros k; by rewrite Hpc|done].
  - intros k Hk Hgk. rewrite Hg in Hgk. by apply d_task_slots0.
  - intros k t' Hk Hp. rewrite Hpc in Hp. by apply d_completion_slots0.
  - intros k Hp. rewrite Hpc in Hp. by apply d_real0.
  - intros k Hk. rewrite Hpc. by apply d_written0.
  - intros k t'. rewrite Hcp. cbn [copied with_warp with_copied d']. rewrite elem_of_cons, d_copied0. split.
    + intros [[= -> ->]|[H1 H2]]; [split; [done|by right]|split; [done|by left]].
    + intros [H1 [H2| ->]]; [by right|left]. by rewrite Hok in H1; injection H1 as <-.
  - cbn [copied with_warp with_copied d' fmap list_fmap fst]. apply NoDup_cons. split; [|done].
    intros ([k t'] & Hk & Hin)%list_elem_of_fmap. cbn in Hk. subst k. by apply (Hnew t').
Qed.

(** Publishing its completion. *)
Lemma publish_inv t (s := cslots d (slot_index depth w j)) :
  warps d w = cw_publish j t → passes (c_consumed s) (negb (phase depth j)) = true →
  device_inv l ctail stop
    (with_warp (with_cslot d (slot_index depth w j)
       (mkCompletionSlot (S (c_ready s)) (c_consumed s) (mkCopyCompletion (task_id t) task_success))) w (cw_wait (S j))).
Proof.
  intros Ew Hpass. subst s. rewrite <- (slot_at_index w j Hw) in *. pose proof I as [].
  set (i := index w j) in *. set (s := cslots d (slot_at i)) in *.
  pose proof (d_warps0 w Hw) as Hok. rewrite Ew in Hok. cbn in Hok. fold i in Hok.
  assert (published d w = j) as Epb by (unfold published; by rewrite Ew).
  assert (¬ put_completion d i) as Hp.
  { unfold put_completion, i. rewrite owner_index, local_index, Epb by done. lia. }
  assert (∀ k, i = (k + N)%nat → put_completion d k) as Hprev.
  { intros k Hk. destruct (index_prev k Hk) as (Ho & Hl & Hd). unfold put_completion. rewrite Ho, Epb.
    pose proof depth_pos. lia. }
  assert (phase depth j = Nat.odd (round i)) as Eph by (unfold phase, round, i; by rewrite local_index).
  rewrite Eph in Hpass. pose proof (proj1 (can_put _ _ _ _ d_completions0 i Hp Hprev) Hpass) as Hrel.
  set (d' := with_warp _ w _).
  assert (∀ v, taken d' v = taken d v ∧ copies d' v = copies d v) as Hsame.
  { intros v. unfold taken, copies, d'. cbn [warps with_warp with_cslot]. destruct (decide (v = w)) as [->|Hne].
    - by rewrite fn_lookup_insert, Ew.
    - by rewrite fn_lookup_insert_ne. }
  assert (∀ k, put_completion d' k ↔ put_completion d k ∨ k = i) as Hput.
  { intros k. unfold put_completion.
    assert (published d' (owner k) = if decide (owner k = w) then S j else published d (owner k)) as ->.
    - unfold published, d'. cbn [warps with_warp with_cslot]. destruct (decide (owner k = w)) as [->|Hne].
      + by rewrite fn_lookup_insert.
      + by rewrite fn_lookup_insert_ne.
    - rewrite below_index. destruct (decide (owner k = w)) as [E|]; [|done]. by rewrite E, Epb. }
  assert (∀ k, got_task d' k ↔ got_task d k) as Hg by (intros k; unfold got_task; by rewrite (proj1 (Hsame _))).
  pose proof (count_put _ _ _ _ d_completions0 i _ Hp Hrel Hput) as R.
  split; try done.
  - intros v Hv. unfold d'. cbn [warps with_warp]. destruct (decide (w = v)) as [<-|Hne].
    + by rewrite fn_lookup_insert.
    + rewrite fn_lookup_insert_ne by done. by apply d_warps0.
  - eapply ring_ext; [exact d_tasks0|done|intros k; by rewrite Hg].
  - eapply ring_counts; [exact R|by apply (insert_field c_ready (cslots d))|by apply (insert_same_field c_consumed (cslots d))].
  - intros k Hk Hgk. rewrite Hg in Hgk. by apply d_task_slots0.
  - intros k t' Hk Hpk Hrk. cbn [cslots with_warp with_cslot d']. destruct (decide (slot_at i = slot_at k)) as [Es|Es].
    + assert (i = k) as <-.
      { eapply (in_slot _ _ _ _ R); try done; [by apply Hput; right|]. intros Hri.
        by apply Hp, (r_order _ _ _ _ d_completions0). }
      rewrite fn_lookup_insert. by rewrite Hok in Hk; injection Hk as <-.
    + rewrite fn_lookup_insert_ne by done. apply Hput in Hpk as [Hpk| ->]; [by apply d_completion_slots0|done].
  - intros k Hk. apply Hput in Hk as [Hk| ->]; [by apply d_real0|by apply lookup_lt_Some in Hok].
  - intros k Hk. apply Hput. left. by apply d_written0.
  - intros k t'. rewrite (proj2 (Hsame _)). apply d_copied0.
Qed.
End Copy.

Lemma copy_step_inv l ctail stop w d d' :
  device_inv l ctail stop d → (w < W)%nat → Forall (λ t, task_length t ≠ 0) l →
  copy_step W depth w d = Some d' → device_inv l ctail stop d'.
Proof.
  intros I Hw Hlen. unfold copy_step. destruct (warps d w) as [j|j t|j t|j] eqn:Ew; [| | |done].
  - destruct (passes _ _) eqn:E; [|done]. intros [= <-]. by apply take_inv.
  - intros [= <-]. by apply copied_inv.
  - destruct (passes _ _) eqn:E; [|done]. intros [= <-]. by apply publish_inv.
Qed.

(** ** The last warp *)

Definition with_device (s : World) (m : Mapped) (d : Device) : World :=
  mkWorld (queue s) m d (submitted s) (polled s).

Lemma egress_only l ctail ctail' stop d x :
  device_inv l ctail stop d → egress_ok (length l) ctail' stop x →
  (∀ j, released (with_egress d x) j ↔ released d j) →
  (∀ j, written (with_egress d x) j → written d j ∨ put_completion d j) →
  device_inv l ctail' stop (with_egress d x).
Proof.
  intros [] Hx Hr Hw. split; try done.
  - eapply ring_ext; [exact d_completions0|done|intros j; by rewrite Hr].
  - intros i t Hi Hp Hrel. apply d_completion_slots0; [done|done|]. intros H. by apply Hrel, Hr.
  - intros i [H|H]%Hw; [by apply d_written0|done].
Qed.

(** A lane has read the completion of its index and stores it. *)
Lemma lane_read_inv s h c todo lane (d := device s) (i := (h + lane)%nat) :
  inv s → egress d = eg_read h c todo → lane ∈ todo →
  passes (c_ready (cslots d (slot_at i))) (phase depth (local i)) = true →
  inv (with_device s (with_completion_slot (mapped s) (slot cap i) (slot_completion (cslots d (slot_at i))))
         (with_egress d (eg_read h c (remove_lane lane todo)))).
Proof.
  intros [Hh I] Ee Hin Hpass. fold d in I. pose proof (d_egress _ _ _ _ I) as Hok. rewrite Ee in Hok.
  destruct Hok as (H1 & H2 & H3 & H4). pose proof (lanes_ok_lt _ _ _ H4 Hin) as Hlt.
  assert (¬ released d i) as Hrel by (unfold released; rewrite Ee; unfold i; lia).
  assert (∀ j, i = (j + N)%nat → released d j) as Hprev.
  { intros j Hj. unfold released. rewrite Ee. pose proof (g_room G). unfold i in Hj. lia. }
  pose proof (proj1 (can_get _ _ _ _ (d_completions _ _ _ _ I) i Hrel Hprev) Hpass) as Hput.
  destruct (lookup_lt_is_Some_2 (submitted s) i) as [t Ht]; [unfold i; lia|].
  pose proof (d_completion_slots _ _ _ _ I i t Ht Hput Hrel) as Hc. fold d. rewrite Hc.
  assert (∀ j, written (with_egress d (eg_read h c (remove_lane lane todo))) j ↔ written d j ∨ j = i) as Hw.
  { intros j. unfold written. cbn [egress with_egress]. rewrite Ee. by apply lanes_remove. }
  split.
  - apply (host_write cap (g_cap G) _ _ _ _ _ Hh _ i t); [done|unfold i; lia| |done].
    unfold written. fold d. rewrite Ee. by apply lanes_todo.
  - apply (egress_only _ (completion_tail (mapped s))); [done| | |].
    + cbn. split_and!; [done|done|done|by apply lanes_ok_remove].
    + intros j. unfold released. cbn [egress with_egress]. by rewrite Ee.
    + intros j Hj. apply Hw in Hj as [Hj| ->]; [by left|by right].
Qed.

(** A lane gives its completion slot back. *)
Lemma release_inv l ctail stop d h c stored todo lane (i := (h + lane)%nat) (s := cslots d (slot_at i)) :
  device_inv l ctail stop d → egress d = eg_release h c stored todo → lane ∈ todo →
  device_inv l ctail stop
    (with_egress (with_cslot d (slot_at i) (mkCompletionSlot (c_ready s) (S (c_consumed s)) (slot_completion s)))
       (eg_release h c stored (remove_lane lane todo))).
Proof.
  intros I Ee Hin. pose proof I as []. pose proof d_egress0 as Hok. rewrite Ee in Hok.
  destruct Hok as (H1 & H2 & H3 & H4). pose proof (lanes_ok_lt _ _ _ H4 Hin) as Hlt.
  set (d' := with_egress _ _).
  assert (∀ j, released d' j ↔ released d j ∨ j = i) as Hr.
  { intros j. unfold released, d'. cbn [egress with_egress]. rewrite Ee. by apply lanes_remove. }
  assert (¬ released d i) as Hrel by (unfold released; rewrite Ee; by apply lanes_todo).
  assert (put_completion d i) as Hput by (apply d_written0; unfold written; rewrite Ee; unfold i; lia).
  assert (∀ j, i = (j + N)%nat → released d j) as Hprev.
  { intros j Hj. unfold released. rewrite Ee. left. pose proof (g_room G). unfold i in Hj. lia. }
  pose proof (count_got _ _ _ _ d_completions0 i _ Hrel Hput Hprev Hr) as R.
  split; try done.
  - cbn. split_and!; [done|done|done|by apply lanes_ok_remove].
  - eapply ring_counts; [exact R|by apply (insert_same_field c_ready (cslots d))|by apply (insert_field c_consumed (cslots d))].
  - intros j t Hj Hp Hrj. assert (¬ released d j ∧ j ≠ i) as [Hrj' Hne] by (rewrite Hr in Hrj; tauto).
    cbn [cslots with_egress with_cslot d']. rewrite fn_lookup_insert_ne; [by apply d_completion_slots0|].
    intros Es. apply Hne. symmetry. by apply (in_slot _ _ _ _ d_completions0).
  - intros j Hj. apply d_written0. revert Hj. unfold written, d'. cbn [egress with_egress]. by rewrite Ee.
Qed.

(** The last warp moves on, without giving a slot back or storing a completion. *)
Lemma egress_same s x (d := with_egress (device s) x) :
  inv s → egress_ok (length (submitted s)) (completion_tail (mapped s)) (stop_requested (mapped s)) x →
  (∀ j, released d j ↔ released (device s) j) → (∀ j, written d j ↔ written (device s) j) →
  inv (with_device s (mapped s) d).
Proof.
  intros [Hh Hd] Hx Hr Hw. split; [apply (host_weaken cap _ _ _ _ _ Hh); intros j; apply Hw|].
  apply (egress_only _ (completion_tail (mapped s))); [done|done|done|]. intros j Hj. left. by apply Hw.
Qed.

(** The first lane stores the tail. *)
Lemma store_tail_inv s h c todo :
  inv s → egress (device s) = eg_release h c false todo →
  inv (with_device s (with_completion_tail (mapped s) (h + c)) (with_egress (device s) (eg_release h c true todo))).
Proof.
  intros [Hh Hd] Ee. pose proof (d_egress _ _ _ _ Hd) as Hok. rewrite Ee in Hok. destruct Hok as (H1 & H2 & H3 & H4).
  assert (∀ j, written (with_egress (device s) (eg_release h c true todo)) j ↔ written (device s) j) as Hw.
  { intros j. unfold written. cbn [egress with_egress]. by rewrite Ee. }
  split.
  - apply (host_weaken cap _ _ _ _ (written (device s))); [|intros j; apply Hw].
    apply (host_tail cap _ (mapped s) _ _ _ Hh (h + c)). lia.
  - apply (egress_only _ (completion_tail (mapped s))); [done| | |intros j; rewrite Hw; by left].
    + by split_and!.
    + intros j. unfold released. cbn [egress with_egress]. by rewrite Ee.
Qed.

Lemma egress_step_inv s lane m d :
  inv s → egress_step W depth cap lane (mapped s) (device s) = Some (m, d) → inv (with_device s m d).
Proof.
  intros I. pose proof I as [Hh Hd]. destruct (h_tail Hh) as [_ Htail].
  pose proof (d_egress _ _ _ _ Hd) as Hok. unfold egress_step.
  destruct (egress (device s)) as [h|h c todo|h c stored todo|h] eqn:Ee; cbn [egress_ok] in Hok; [| | |done].
  - rewrite Htail. destruct Hok as [H1 H2]. destruct (_ <? _)%nat eqn:E.
    + intros [= <- <-]. apply Nat.ltb_lt in E. pose proof (batch_bound (length (submitted s) - h)).
      apply egress_same; [done|cbn [egress_ok]; split_and!; [done|lia|lia|apply lanes_ok_seq]| |];
        intros j; unfold released, written; cbn [egress with_egress]; rewrite Ee; [done|apply lanes_all].
    + apply Nat.ltb_ge in E. destruct (stop_requested (mapped s)) eqn:Es; [|done]. intros [= <- <-].
      apply egress_same; [done|rewrite Es; cbn; split_and!; [done|lia|done]| |];
        intros j; unfold released, written; cbn [egress with_egress]; by rewrite Ee.
  - destruct Hok as (H1 & H2 & H3 & H4). destruct todo as [|x todo].
    { intros [= <- <-]. apply egress_same; [done|cbn [egress_ok]; split_and!; [done|done|done|apply lanes_ok_seq]| |];
        intros j; unfold released, written; cbn [egress with_egress]; rewrite Ee; [apply lanes_all|by rewrite lanes_none]. }
    destruct (decide _) as [Hin|]; [|done]. destruct (passes _ _) eqn:Ep; [|done]. intros [= <- <-].
    by apply lane_read_inv.
  - assert ((if negb stored && (lane =? 0)%nat
      then Some (with_completion_tail (mapped s) (h + c), with_egress (device s) (eg_release h c true todo))
      else if decide (lane ∈ todo)
      then let x := slot_at (h + lane) in let y := cslots (device s) x in
           Some (mapped s, with_egress (with_cslot (device s) x (mkCompletionSlot (c_ready y) (S (c_consumed y)) (slot_completion y)))
                      (eg_release h c stored (remove_lane lane todo)))
      else None) = Some (m, d) → inv (with_device s m d)) as Hgo.
    { destruct (negb stored && _) eqn:E0.
      - apply andb_true_iff in E0 as [->%negb_true_iff _]. intros [= <- <-]. by apply store_tail_inv.
      - destruct (decide _) as [Hin|]; [|done]. intros [= <- <-]. split; [|by apply release_inv].
        apply (host_weaken cap _ _ _ _ _ Hh). intros j. unfold written. cbn [egress with_egress with_cslot]. by rewrite Ee. }
    destruct stored, todo as [|x todo]; try exact Hgo. intros [= <- <-]. destruct Hok as (H1 & H2 & H3 & H4).
    apply egress_same; [done|done| |]; intros j; unfold released, written; cbn [egress with_egress]; rewrite Ee; [by rewrite lanes_none|done].
Qed.

End Order.
End WarpOrder.
