(* ===== verification/WarpFifo.v ===== *)
(** Host and pipeline kernel together (src/gpu/persistent_copy.cu): from the allocation on,
    whatever the interleaving, the host polls the completions of its tasks in the order of
    submission, each once and only after the task was copied. *)

From stdpp Require Import functions.
From S2P Require Import Prelude CopyHost WarpQueue WarpHost WarpPipeline WarpOrder.
Import Copy WarpQueue WarpHost WarpPipeline WarpOrder.

Module WarpFifo.

(** * Runs *)

Fixpoint run (W depth cap : nat) (s : World) (es : list Event) : option World :=
  match es with
  | [] => Some s
  | e :: es => s' ← step W depth cap s e; run W depth cap s' es
  end.

(** A queue is allocated and its kernel launched. *)
Definition launch (cap W depth : nat) (base : Z) : option World :=
  let '(q, allocated) := allocate_pipeline empty_queue cap W depth base 0 in
  if negb (allocated =? 0) then None
  else
    let '(q, m, started) := start_pipeline q zeroed true 0 in
    if started =? 0 then Some (mkWorld q m launched_device [] []) else None.

(** The other warps leave the last one alone. *)
Lemma ingress_step_egress W depth cap lane m d d' : ingress_step W depth cap lane m d = Some d' → egress d' = egress d.
Proof.
  unfold ingress_step, place. destruct (ingress d) as [h|h c [|x todo]|h [|x todo]|h]; intros H; repeat case_match; simplify_eq/=; done.
Qed.
Lemma copy_step_egress W depth w d d' : copy_step W depth w d = Some d' → egress d' = egress d.
Proof. unfold copy_step. intros H. repeat case_match; simplify_eq/=; done. Qed.

Section Host.
Context (W depth cap : nat) (G : geometry W depth cap).

(** * Submission *)

(** Copied tasks are among the submitted ones. *)
Lemma copies_real l ctail stop d i :
  device_inv W depth l ctail stop d → (local_of W i < copies d (owner_of W i))%nat → (i < length l)%nat.
Proof.
  intros I H. destruct (decide (put_completion W d i)) as [Hp|Hp]; [by apply (d_real _ _ _ _ _ _ I)|].
  pose proof (d_warps _ _ _ _ _ _ I (owner_of W i) (owner_lt W depth cap G i)) as Hok.
  unfold put_completion, published, copies in *. destruct (warps d (owner_of W i)) as [j|j t|j t|j]; try lia.
  cbn in Hok. assert (local_of W i = j) as E by lia. rewrite <- E, <- index_of in Hok. by apply lookup_lt_Some in Hok.
Qed.

(** While no stop was requested, more tasks can arrive. *)
Lemma device_extend l l' ctail d :
  device_inv W depth l ctail false d → device_inv W depth (l ++ l') ctail false d.
Proof.
  intros I. pose proof I as []. split; try done.
  - unfold ingress_ok, lanes_ok in *. rewrite length_app. destruct (ingress d); cbn in *; destruct_and?; done || (repeat split; done || lia).
  - unfold egress_ok, lanes_ok in *. rewrite length_app. destruct (egress d); cbn in *; destruct_and?; done || (repeat split; done || lia).
  - intros w Hw. specialize (d_warps0 w Hw). destruct (warps d w); cbn in *; [done|by apply lookup_app_l_Some..|].
    by destruct d_warps0.
  - intros i Hi Hg. rewrite (d_task_slots0 i Hi Hg). unfold task_at.
    destruct (placed_range _ _ _ _ _ _ I i Hi) as [H|H]; [|done]. by rewrite lookup_app_l.
  - intros i t Hi Hp Hr. apply d_completion_slots0; [|done..]. by rewrite lookup_app_l in Hi by by apply d_real0.
  - intros i Hp. rewrite length_app. specialize (d_real0 i Hp). lia.
  - intros i t. rewrite d_copied0. split; intros [H1 H2]; (split; [|done]); [by apply lookup_app_l_Some|].
    by rewrite lookup_app_l in H1 by by apply (copies_real _ _ _ _ _ I).
Qed.

Lemma device_stop l ctail stop d : device_inv W depth l ctail stop d → device_inv W depth l ctail true d.
Proof.
  intros []. split; try done.
  - unfold ingress_ok in *. destruct (ingress d); tauto.
  - unfold egress_ok in *. destruct (egress d); tauto.
  - intros w Hw. specialize (d_warps0 w Hw). destruct (warps d w); cbn in *; tauto.
Qed.

Lemma submit_inv s tasks s' : inv W depth cap s → step W depth cap s (ev_submit tasks) = Some s' → inv W depth cap s'.
Proof.
  intros [Hh Hd]. cbn [step]. pose proof (host_ok_submit cap (g_cap _ _ _ G) _ _ _ _ _ Hh tasks) as Hs.
  destruct (try_submit_batch _ _ tasks) as [[[q m] status] n]. intros [= <-].
  destruct Hs as (Hs & Ec & Es & Hn).
  { intros i Hi. by apply (d_real _ _ _ _ _ _ Hd), (d_written _ _ _ _ _ _ Hd). }
  split; [done|]. cbn [submitted mapped device]. rewrite Ec, Es. destruct Hn as [->|E].
  - by rewrite take_0, app_nil_r.
  - rewrite E in *. by apply device_extend.
Qed.

(** * Polling and the request to stop *)

Lemma poll_inv s s' : inv W depth cap s → step W depth cap s ev_poll = Some s' → inv W depth cap s'.
Proof.
  intros [Hh Hd]. cbn [step]. pose proof (host_poll cap _ _ _ _ _ Hh (done_written _ _ _ _ _ _ Hd)) as Hp.
  destruct (try_poll _ _) as [[q status] c]. intros [= <-]. by split.
Qed.

Lemma stop_inv s s' : inv W depth cap s → step W depth cap s ev_stop = Some s' → inv W depth cap s'.
Proof.
  intros [Hh Hd]. cbn [step]. pose proof (host_stop cap _ _ _ _ _ Hh) as Hp.
  destruct (request_stop _ _) as [[q m] status]. destruct Hp as (Hp & Ec & Em). intros [= <-].
  split; [done|]. cbn. rewrite Ec. destruct Em as [->| ->]; [done|by apply (device_stop _ _ _ _ Hd)].
Qed.

(** * Every step *)

Lemma step_inv s e s' : inv W depth cap s → step W depth cap s e = Some s' → inv W depth cap s'.
Proof.
  intros I. pose proof I as [Hh Hd]. destruct e as [tasks| | |lane|w|lane].
  - by apply submit_inv.
  - by apply poll_inv.
  - by apply stop_inv.
  - cbn [step]. intros (d & Hd' & ->)%fmap_Some_1. split.
    + apply (host_weaken cap _ _ _ _ _ Hh). unfold written. cbn [device]. intros j.
      by rewrite (ingress_step_egress _ _ _ _ _ _ _ Hd').
    + destruct Hh. apply (ingress_step_inv W depth cap G _ _ _ (mapped s) lane (device s)); try done; [tauto|].
      intros i t Hi Hc. cbn [mapped] in Hc. apply h_tasks0; [done|lia].
  - cbn [step]. destruct (w <? W)%nat eqn:E; [|done]. apply Nat.ltb_lt in E. intros (d & Hd' & ->)%fmap_Some_1. split.
    + apply (host_weaken cap _ _ _ _ _ Hh). unfold written. cbn [device]. intros j. by rewrite (copy_step_egress _ _ _ _ _ Hd').
    + apply (copy_step_inv W depth cap G _ _ _ w (device s)); try done. by destruct Hh.
  - cbn [step]. intros ([m d] & Hd' & ->)%fmap_Some_1. by apply (egress_step_inv W depth cap G s lane m d).
Qed.

Lemma run_inv es : ∀ s s', inv W depth cap s → run W depth cap s es = Some s' → inv W depth cap s'.
Proof.
  induction es as [|e es IH]; intros s s' I; cbn [run]; [by intros [= <-]|].
  intros (s1 & H1 & H2)%bind_Some. apply (IH s1); [|done]. by apply (step_inv s e).
Qed.

End Host.

(** * From the allocation on *)

(** What the allocation accepts is a geometry. *)
Lemma allocation_geometry cap W depth sizes :
  warp_specialized_pipeline_allocation_size (Z.of_nat cap) (Z.of_nat W) (Z.of_nat depth) = Some sizes →
  geometry W depth cap.
Proof.
  unfold warp_specialized_pipeline_allocation_size. destruct (negb _) eqn:E1; [done|].
  apply negb_false_iff in E1. unfold is_supported_pipeline_copy_warps in E1.
  apply andb_true_iff in E1 as [[Hw1 Hw2]%andb_true_iff _].
  match goal with |- context [if ?b then _ else _] => destruct b eqn:E2; [done|] end. intros _.
  apply orb_false_iff in E2 as [E2 Hmax]. apply orb_false_iff in E2 as [E2 Hroom].
  apply orb_false_iff in E2 as [E2 _]. apply orb_false_iff in E2 as [E2 Hdepth%negb_false_iff].
  apply orb_false_iff in E2 as [Hpow%negb_false_iff Hmin].
  unfold is_power_of_two, is_supported_shared_queue_depth in *.
  change (Z.of_nat kWarpSpecializedMetaBatch) with 32 in *.
  assert ((U64_MAX - sizeof_control) / host_slot_bytes = 384307168202282323) as Emax by reflexivity. rewrite Emax in Hmax.
  assert (32 <= Z.of_nat W * Z.of_nat depth) as Hprod.
  { apply Z.ltb_ge in Hroom. pose proof (Z.div_mod (32 + Z.of_nat W - 1) (Z.of_nat W)).
    pose proof (Z.mod_pos_bound (32 + Z.of_nat W - 1) (Z.of_nat W)). nia. }
  split.
  - lia.
  - apply orb_true_iff in Hdepth as [[[H|H]%orb_true_iff|H]%orb_true_iff|H];
      [exists 1%nat|exists 2%nat|exists 3%nat|exists 4%nat]; cbn; lia.
  - change kWarpSpecializedMetaBatch with 32%nat. lia.
  - apply andb_true_iff in Hpow as [_ Hl]. rewrite u64_small in Hl by (unfold is_u64; lia).
    apply (pow2_nat _ (Z.log2 (Z.of_nat cap))); [|apply Z.log2_nonneg]. apply pow2_of_land; lia.
Qed.

Lemma launched_ring W depth : ring W depth (λ _, False) (λ _, False) (λ _, 0%nat) (λ _, 0%nat).
Proof. split; intros i; done || lia. Qed.

Lemma launch_inv cap W depth base s :
  launch cap W depth base = Some s →
  geometry W depth cap ∧ inv W depth cap s ∧ submitted s = [] ∧ running (queue s) = true ∧ accepting (queue s) = true.
Proof.
  unfold launch, allocate_pipeline. destruct (_ || _); [done|].
  destruct (warp_specialized_pipeline_allocation_size _ _ _) as [sizes|] eqn:E; [|done].
  apply allocation_geometry in E. intros [= <-]. split; [done|]. split; [|done]. split.
  - split; try done; cbn. lia.
  - pose proof (launched_ring W depth) as R. split; try done; cbn.
    + lia.
    + eapply ring_ext; [exact R|unfold placed, got_task; cbn; lia..].
    + eapply ring_ext; [exact R|unfold put_completion, released; cbn; lia..].
    + unfold put_completion. cbn. lia.
    + unfold written. cbn. lia.
    + intros i t. split; [by intros ?%not_elem_of_nil|]. intros [H _]. done.
    + constructor.
Qed.

(** What the host has polled was copied. *)
Lemma polled_copied W depth cap s i t :
  inv W depth cap s → submitted s !! i = Some t → (i < completion_head (queue s))%nat → (i, t) ∈ copied (device s).
Proof.
  intros [Hh Hd] Hi Hlt. destruct Hh, h_positions0. apply (d_copied _ _ _ _ _ _ Hd). split; [done|].
  assert (put_completion W (device s) i) as Hp.
  { apply (d_written _ _ _ _ _ _ Hd), (done_written _ _ _ _ _ _ Hd). lia. }
  unfold put_completion, published, copies in *. destruct (warps _ _); lia.
Qed.

(** (C10) Whatever the host submits and however its calls, the two outer warps and the copy
    warps interleave, the completions the host has polled are those of its first tasks, in
    the order of submission; each of these tasks was copied; and the device has copied
    nothing but submitted tasks, none of them twice. *)
Theorem pipeline_fifo cap W depth base s0 es s :
  launch cap W depth base = Some s0 → run W depth cap s0 es = Some s →
  let n := completion_head (queue s) in
  polled s = completion_of <$> take n (submitted s) ∧
  (n <= length (submitted s))%nat ∧
  (∀ i t, submitted s !! i = Some t → (i < n)%nat → (i, t) ∈ copied (device s)) ∧
  (∀ i t, (i, t) ∈ copied (device s) → submitted s !! i = Some t) ∧
  NoDup (copied (device s)).*1.
Proof.
  intros (G & I & _)%launch_inv Hrun. pose proof (run_inv _ _ _ G _ _ _ I Hrun) as [Hh Hd]. cbv zeta.
  pose proof Hh as []. destruct h_positions0. split_and!; [done|lia| |by intros i t [? _]%(d_copied _ _ _ _ _ _ Hd)|apply Hd].
  intros i t Hi Hlt. by apply (polled_copied W depth cap s).
Qed.

(** A run with two tasks on six copy warps with rings of eight slots. *)
Definition sample_task (id : Z) : CopyTask := mkTask id (4096 + 64 * id) 64 0.
Definition sample_events : list Event :=
  [ev_submit [sample_task 0; sample_task 1]; ev_ingress 0; ev_ingress 1; ev_ingress 0; ev_egress 0;
   ev_copy 1; ev_copy 1; ev_copy 1; ev_copy 0; ev_copy 0; ev_copy 0; ev_egress 1; ev_egress 0;
   ev_egress 0; ev_egress 0; ev_poll; ev_egress 1; ev_poll].

Lemma pipeline_fifo_witness :
  ∃ s0 s, launch 64 6 8 4096 = Some s0 ∧ run 6 8 64 s0 sample_events = Some s ∧
    polled s = [completion_of (sample_task 0); completion_of (sample_task 1)] ∧
    (0%nat, sample_task 0) ∈ copied (device s).
Proof.
  destruct (launch 64 6 8 4096) as [s0|] eqn:E0; [|vm_compute in E0; discriminate].
  destruct (run 6 8 64 s0 sample_events) as [s|] eqn:E1.
  2: { vm_compute in E0. injection E0 as <-. vm_compute in E1. discriminate. }
  exists s0, s. split_and!; [done|done| |].
  - vm_compute in E0. injection E0 as <-. vm_compute in E1. injection E1 as <-. reflexivity.
  - pose proof (pipeline_fifo 64 6 8 4096 s0 sample_events s E0 E1) as (_ & _ & H & _).
    vm_compute in E0. injection E0 as <-. vm_compute in E1. injection E1 as <-.
    apply (H 0%nat (sample_task 0)); [reflexivity|vm_compute; lia].
Defined.

End WarpFifo.
