(* ===== verification/WarpProgress.v ===== *)
(** The pipeline kernel makes progress (src/gpu/persistent_copy.cu): no wait of its warps
    is for ever.  Left to itself the device completes every submitted task, and after a
    request to stop all its warps leave. *)

From stdpp Require Import functions.
From S2P Require Import Prelude CopyHost WarpQueue WarpHost WarpPipeline WarpOrder WarpFifo.
Import Copy WarpQueue WarpHost WarpPipeline WarpOrder WarpFifo.

Module WarpProgress.

(** * Waits that pass *)

Section Progress.
Context (W depth cap : nat) (G : geometry W depth cap).

#[local] Abbreviation N := (W * depth)%nat.

Section Moves.
Context (l : list CopyTask) (ctail : nat) (stop : bool) (d : Device).
Context (I : device_inv W depth l ctail stop d).

Lemma place_moves i t x :
  ¬ placed W d i → (∀ j, i = (j + N)%nat → placed W d j ∧ got_task W d j) →
  is_Some (place W depth (with_ingress d x) i t).
Proof.
  intros Hp Hprev. unfold place. cbn [tslots with_ingress].
  change (phase depth (local_of W i)) with (Nat.odd (round W depth i)).
  rewrite (proj2 (can_put W depth cap G _ _ _ _ (d_tasks _ _ _ _ _ _ I) i Hp (λ j Hj, proj1 (Hprev j Hj)))); [by eexists|].
  intros j Hj. by apply Hprev.
Qed.

Definition ingress_head (x : Ingress) : nat :=
  match x with in_poll h | in_batch h _ _ | in_stop h _ | in_done h => h end.
Definition ingress_rests (n : nat) (x : Ingress) : Prop :=
  match x with in_poll h => h = n ∧ stop = false | in_done _ => True | _ => False end.

Lemma ingress_placed i : ¬ placed W d i → (ingress_head (ingress d) <= i)%nat.
Proof. unfold placed, lanes_left, ingress_head. destruct (ingress d); intros H; apply Nat.nlt_ge; intros ?; apply H; lia. Qed.

(** Once all tasks before its head were taken, the first warp moves or is at rest. *)
Lemma ingress_moves m :
  task_tail m = length l → stop_requested m = stop →
  (∀ j, (j < ingress_head (ingress d))%nat → got_task W d j) →
  ingress_rests (length l) (ingress d) ∨ ∃ lane d', ingress_step W depth cap lane m d = Some d'.
Proof.
  intros Htail Hstop Hgot. pose proof (g_room _ _ _ G) as Hroom. pose proof (g_warps _ _ _ G). pose proof (depth_pos _ _ _ G).
  assert (∀ j, (j < ingress_head (ingress d))%nat → placed W d j) as Hbefore.
  { intros j Hj. by apply (r_order _ _ _ _ _ _ (d_tasks _ _ _ _ _ _ I)), Hgot. }
  pose proof (d_ingress _ _ _ _ _ _ I) as Hok. unfold ingress_step, ingress_rests.
  destruct (ingress d) as [h|h c [|x todo]|h [|x todo]|h] eqn:Ei; cbn [ingress_ok ingress_head] in *; [| | | | |by left].
  - rewrite Htail, Hstop. destruct (h <? length l)%nat eqn:E; [right; exists 0%nat; by eexists|]. apply Nat.ltb_ge in E.
    destruct stop; [right; exists 0%nat; by eexists|left; split; [lia|done]].
  - right. exists 0%nat. by eexists.
  - right. exists x. rewrite decide_True by by constructor. destruct Hok as (H1 & H2 & H3).
    pose proof (lanes_ok_lt _ _ x H3 ltac:(by constructor)). apply place_moves.
    + unfold placed. rewrite Ei. apply lanes_todo. by constructor.
    + intros j Hj. split; [apply Hbefore|apply Hgot]; lia.
  - right. exists 0%nat. by eexists.
  - right. exists x. rewrite decide_True by by constructor. destruct Hok as (H1 & H2 & H3).
    pose proof (lanes_ok_lt _ _ x H3 ltac:(by constructor)). apply place_moves.
    + unfold placed. rewrite Ei. apply lanes_todo. by constructor.
    + intros j Hj. split; [apply Hbefore|apply Hgot]; nia.
Qed.

(** A copy warp moves when its next task is there, and the slot of its completion free. *)
Lemma index_before w j k : (w < W)%nat → index W w j = (k + N)%nat → owner_of W k = w ∧ (local_of W k < j)%nat.
Proof.
  intros Hw Hk. pose proof (depth_pos _ _ _ G).
  rewrite <- (owner_shift W depth k), <- Hk, owner_index by done. split; [done|].
  assert (local_of W (k + N) = j) by (by rewrite <- Hk, local_index). rewrite (local_shift W depth cap G) in *. lia.
Qed.

Lemma copy_moves w (i := index W w (published d w)) :
  (w < W)%nat →
  (∀ j, warps d w = cw_wait j → placed W d i) →
  (∀ j t k, warps d w = cw_publish j t → i = (k + N)%nat → released d k) →
  (∃ j, warps d w = cw_done j) ∨ ∃ d', copy_step W depth w d = Some d'.
Proof.
  intros Hw Hwait Hpub. unfold published, copy_step in *. destruct (warps d w) as [j|j t|j t|j] eqn:Ew; [right|right|right|left; by eexists].
  - assert (passes (ready (tslots d (slot_index depth w j))) (phase depth j) = true) as ->; [|by eexists].
    rewrite <- (slot_at_index W depth w j Hw). unfold phase. rewrite <- (local_index W w j Hw) at 2.
    apply (can_get W depth cap G _ _ _ _ (d_tasks _ _ _ _ _ _ I)); [| |by apply (Hwait j)].
    + unfold got_task, taken. rewrite owner_index, local_index, Ew by done. lia.
    + intros k Hk. destruct (index_before _ _ _ Hw Hk) as [Ho Hl]. unfold got_task, taken. by rewrite Ho, Ew.
  - by eexists.
  - assert (passes (c_consumed (cslots d (slot_index depth w j))) (negb (phase depth j)) = true) as ->; [|by eexists].
    rewrite <- (slot_at_index W depth w j Hw). unfold phase. rewrite <- (local_index W w j Hw) at 2.
    apply (can_put W depth cap G _ _ _ _ (d_completions _ _ _ _ _ _ I)).
    + unfold put_completion, published. rewrite owner_index, local_index, Ew by done. lia.
    + intros k Hk. destruct (index_before _ _ _ Hw Hk) as [Ho Hl]. unfold put_completion, published. by rewrite Ho, Ew.
    + intros k Hk. by apply (Hpub j t k).
Qed.

(** The last warp moves unless it waits for a completion that is not there, or is at rest. *)
Definition egress_waits (x : Egress) : Prop :=
  match x with
  | eg_poll h => h = length l ∧ stop = false
  | eg_read h c todo => ∃ lane, lane ∈ todo ∧ ¬ put_completion W d (h + lane)
  | eg_done _ => True
  | _ => False
  end.

Lemma egress_moves m :
  task_tail m = length l → stop_requested m = stop →
  egress_waits (egress d) ∨ ∃ lane md, egress_step W depth cap lane m d = Some md.
Proof.
  intros Htail Hstop. pose proof (g_room _ _ _ G) as Hroom. pose proof (d_egress _ _ _ _ _ _ I) as Hok.
  unfold egress_step, egress_waits.
  destruct (egress d) as [h|h c [|x todo]|h c [] [|x todo]|h] eqn:Ee; cbn [egress_ok] in *; try (right; exists 0%nat; by eexists); [| | |by left].
  - rewrite Htail, Hstop. destruct (h <? length l)%nat eqn:E; [right; exists 0%nat; by eexists|]. apply Nat.ltb_ge in E.
    destruct stop; [right; exists 0%nat; by eexists|left; split; [lia|done]].
  - destruct Hok as (H1 & H2 & H3 & H4). pose proof (lanes_ok_lt _ _ x H4 ltac:(by constructor)).
    destruct (decide (put_completion W d (h + x))) as [Hp|Hp]; [right|left; exists x; split; [by constructor|done]].
    exists x. rewrite decide_True by by constructor.
    change (phase depth (local_of W (h + x))) with (Nat.odd (round W depth (h + x))).
    rewrite (proj2 (can_get W depth cap G _ _ _ _ (d_completions _ _ _ _ _ _ I) (h + x) ltac:(unfold released; rewrite Ee; lia)
      ltac:(intros j Hj; unfold released; rewrite Ee; lia))); [by eexists|done].
  - right. exists x. cbn [negb andb]. rewrite decide_True by by constructor. by eexists.
Qed.

(** * The first completion that is missing *)

Lemma least_missing i : ¬ put_completion W d i →
  ∃ k, (k <= i)%nat ∧ ¬ put_completion W d k ∧ ∀ j, (j < k)%nat → put_completion W d j.
Proof.
  induction (lt_wf i) as [i _ IH]. intros Hi.
  destruct (decide (Exists (λ j, ¬ put_completion W d j) (seq 0 i))) as [(j & Hj & Hp)%Exists_exists|Hnone].
  - apply elem_of_seq in Hj. destruct (IH j ltac:(lia) Hp) as (k & H1 & H2). exists k. split; [lia|done].
  - exists i. split; [done|]. split; [done|]. intros j Hj. apply dec_stable. intros Hp. apply Hnone.
    apply Exists_exists. exists j. split; [|done]. apply elem_of_seq. lia.
Qed.

Lemma missing_next k (w := owner_of W k) :
  ¬ put_completion W d k → (∀ j, (j < k)%nat → put_completion W d j) → index W w (published d w) = k.
Proof.
  intros Hk Hbefore. pose proof (owner_lt _ _ _ G k) as Hw. fold w in Hw.
  assert (published d w = local_of W k) as ->; [|symmetry; apply index_of].
  apply Nat.le_antisymm; [by apply Nat.nlt_ge|]. apply Nat.nlt_ge. intros Hlt.
  assert (index W w (published d w) < k)%nat as Hi.
  { rewrite (index_of W k). fold w. unfold index. pose proof (g_warps _ _ _ G). nia. }
  specialize (Hbefore _ Hi). unfold put_completion in Hbefore. rewrite owner_index, local_index in Hbefore by done. lia.
Qed.

End Moves.

(** * A device at rest *)

(** All tasks are completed and, once a stop was requested, all warps have left. *)
Definition quiet (s : World) : Prop :=
  completion_tail (mapped s) = length (submitted s) ∧
  (stop_requested (mapped s) = true →
   (∃ h, ingress (device s) = in_done h) ∧ (∃ h, egress (device s) = eg_done h) ∧
   ∀ w, (w < W)%nat → ∃ j, warps (device s) w = cw_done j).

Definition moves (s : World) : Prop := ∃ e s', device_event e = true ∧ step W depth cap s e = Some s'.

Lemma moves_ingress s : (∃ lane d', ingress_step W depth cap lane (mapped s) (device s) = Some d') → moves s.
Proof. intros (lane & d' & H). exists (ev_ingress lane). eexists. split; [done|]. cbn [step]. by rewrite H. Qed.
Lemma moves_egress s : (∃ lane md, egress_step W depth cap lane (mapped s) (device s) = Some md) → moves s.
Proof. intros (lane & [m d] & H). exists (ev_egress lane). eexists. split; [done|]. cbn [step]. by rewrite H. Qed.
Lemma moves_copy s w : (w < W)%nat → (∃ d', copy_step W depth w (device s) = Some d') → moves s.
Proof.
  intros Hw (d' & H). exists (ev_copy w). eexists. split; [done|]. cbn [step].
  by rewrite (proj2 (Nat.ltb_lt _ _) Hw), H.
Qed.

Section Quiet.
Context (s : World) (I : inv W depth cap s).
#[local] Abbreviation n := (length (submitted s)).
#[local] Abbreviation d := (device s).

Lemma tail_is_length : task_tail (mapped s) = n.
Proof. apply (h_tail (inv_host _ _ _ _ I)). Qed.

Lemma head_placed k : (k < ingress_head (ingress d))%nat → placed W d k.
Proof. unfold placed, lanes_left, ingress_head. destruct (ingress d); lia. Qed.

(** If all completions before [k] are there, the first warp moves or has placed [k]. *)
Lemma placed_or_moves k :
  (k < n)%nat → (∀ j, (j < k)%nat → put_completion W d j) → placed W d k ∨ moves s.
Proof.
  intros Hk Hbefore. destruct (decide (k < ingress_head (ingress d))%nat) as [Hlt|Hge]; [left; by apply head_placed|].
  destruct (ingress_moves _ _ _ _ (inv_device _ _ _ _ I) (mapped s) tail_is_length eq_refl) as [Hrest|H].
  - intros j Hj. apply published_taken, Hbefore. lia.
  - left. pose proof (d_ingress _ _ _ _ _ _ (inv_device _ _ _ _ I)) as Hok. unfold ingress_rests, placed in *.
    destruct (ingress d); cbn in Hok; [lia|done|done|lia].
  - right. by apply moves_ingress.
Qed.

(** The last warp waits for a completion: some warp moves. *)
Lemma missing_moves h c todo lane :
  egress d = eg_read h c todo → lane ∈ todo → ¬ put_completion W d (h + lane) → moves s.
Proof.
  intros Ee Hin Hmiss. pose proof (inv_device _ _ _ _ I) as Hd. pose proof (g_room _ _ _ G).
  pose proof (d_egress _ _ _ _ _ _ Hd) as Hok. rewrite Ee in Hok. destruct Hok as (H1 & H2 & H3 & H4).
  pose proof (lanes_ok_lt _ _ _ H4 Hin). destruct (least_missing d _ Hmiss) as (k & Hk & Hnot & Hbefore).
  destruct (placed_or_moves k ltac:(lia) Hbefore) as [Hp|Hm]; [|done].
  pose proof (missing_next d k Hnot Hbefore) as Enext. pose proof (owner_lt _ _ _ G k) as Hw.
  destruct (copy_moves _ _ _ _ Hd (owner_of W k) Hw) as [(j & Ej)|Hm].
  - intros j _. by rewrite Enext.
  - intros j t k' _. rewrite Enext. intros ->. unfold released. rewrite Ee. lia.
  - pose proof (d_warps _ _ _ _ _ _ Hd _ Hw) as Hwok. unfold published in Enext. rewrite Ej in Hwok, Enext. cbn in Hwok. lia.
  - by apply (moves_copy s (owner_of W k)).
Qed.

Lemma all_or_one (P Q : nat → Prop) k : (∀ w, (w < k)%nat → P w ∨ Q w) → (∀ w, (w < k)%nat → P w) ∨ ∃ w, (w < k)%nat ∧ Q w.
Proof.
  induction k as [|k IH]; intros H; [left; lia|]. destruct (H k ltac:(lia)) as [Hk|Hk]; [|right; exists k; split; [lia|done]].
  destruct IH as [IH|(w & Hw & HQ)]; [intros w Hw; apply H; lia| |right; exists w; split; [lia|done]].
  left. intros w Hw. destruct (decide (w = k)) as [->|]; [done|]. apply IH. lia.
Qed.

(** The last warp has left: some warp moves, or all have left. *)
Lemma done_moves h : egress d = eg_done h → quiet s ∨ moves s.
Proof.
  intros Ee. pose proof (inv_device _ _ _ _ I) as Hd. pose proof (g_warps _ _ _ G).
  pose proof (d_egress _ _ _ _ _ _ Hd) as Hok. rewrite Ee in Hok. cbn in Hok. destruct Hok as (H1 & H2 & H3).
  assert (∀ j, (j < n)%nat → put_completion W d j) as Hall.
  { intros j Hj. apply (d_written _ _ _ _ _ _ Hd). unfold written. rewrite Ee. lia. }
  pose proof (d_ingress _ _ _ _ _ _ Hd) as Hin.
  destruct (ingress_moves _ _ _ _ Hd (mapped s) tail_is_length eq_refl) as [Hrest|H0]; [| |right; by apply moves_ingress].
  { intros j Hj. apply published_taken, Hall. destruct (ingress d); cbn in *; lia. }
  rewrite H3 in Hrest. destruct (ingress d) as [?|?|?|h'] eqn:Ei; cbn in Hrest; [lia|done|done|]. cbn in Hin.
  destruct (all_or_one (λ w, ∃ j, warps d w = cw_done j) (λ w, ∃ d', copy_step W depth w d = Some d') W) as [Hdone|(w & Hw & Hm)].
  - intros w Hw. apply (copy_moves _ _ _ _ Hd w Hw).
    + intros j Ej. unfold placed, published. rewrite Ei, Ej. destruct j as [|j]; [unfold index; lia|].
      assert (index W w j < n)%nat as Hlt; [|unfold index in *; lia].
      apply (d_real _ _ _ _ _ _ Hd). unfold put_completion, published. rewrite owner_index, local_index, Ej by done. lia.
    + intros j t k Ej Hk. exfalso. pose proof (d_warps _ _ _ _ _ _ Hd w Hw) as Hwok. rewrite Ej in Hwok. cbn in Hwok.
      apply lookup_lt_Some, Hall in Hwok. unfold put_completion, published in Hwok.
      rewrite owner_index, local_index, Ej in Hwok by done. lia.
  - left. split; [lia|]. intros _. split; [by eexists|]. split; [by eexists|done].
  - right. by apply (moves_copy s w).
Qed.

Lemma device_progress : quiet s ∨ moves s.
Proof.
  pose proof (inv_device _ _ _ _ I) as Hd. pose proof (d_egress _ _ _ _ _ _ Hd) as Hok.
  destruct (egress_moves _ _ _ _ Hd (mapped s) tail_is_length eq_refl) as [Hw|H]; [|right; by apply moves_egress].
  destruct (egress d) as [h|h c todo|h c stored todo|h] eqn:Ee; cbn [egress_waits egress_ok] in *; [| |done|].
  - left. destruct Hw as [Hn Hs], Hok. split; [lia|]. by rewrite Hs.
  - destruct Hw as (lane & Hin & Hmiss). right. by apply (missing_moves h c todo lane).
  - by apply (done_moves h).
Qed.

End Quiet.

(** * The work that is left *)

Definition ingress_work (n : nat) (x : Ingress) : nat :=
  match x with
  | in_poll h => 3 * (n - h) + W + 2
  | in_batch h c todo => 3 * (n - (h + c)) + length todo + 1 + W + 2
  | in_stop _ todo => length todo + 1
  | in_done _ => 0
  end.
Definition egress_work (n : nat) (x : Egress) : nat :=
  match x with
  | eg_poll h => 6 * (n - h) + 1
  | eg_read h c todo => 6 * (n - (h + c)) + length todo + c + 4
  | eg_release h c stored todo => 6 * (n - (h + c)) + length todo + (if stored then 2 else 3)
  | eg_done _ => 0
  end.
Definition warp_work (n : nat) (x : CopyWarp) : nat :=
  match x with
  | cw_wait j => 3 * (n - j) + 3
  | cw_copy j _ => 3 * (n - j) + 2
  | cw_publish j _ => 3 * (n - j) + 1
  | cw_done _ => 0
  end.
Definition warps_work (n : nat) (ws : nat → CopyWarp) : nat := total_work (warp_work n) W ws.
Definition device_work (s : World) : nat :=
  let n := length (submitted s) in
  (ingress_work n (ingress (device s)) + egress_work n (egress (device s)) + warps_work n (warps (device s)))%nat.

Lemma remove_lane_shorter lane todo : lane ∈ todo → (length (remove_lane lane todo) < length todo)%nat.
Proof. intros H. apply length_filter_lt with lane; [done|]. intros Hn. by apply Hn. Qed.

Lemma warps_work_insert n ws w x :
  (w < W)%nat → (warp_work n x < warp_work n (ws w))%nat → (warps_work n (<[w := x]> ws) < warps_work n ws)%nat.
Proof. apply total_work_insert. Qed.

Section Work.
Context (s : World) (I : inv W depth cap s).

Lemma ingress_work_less lane d' :
  ingress_step W depth cap lane (mapped s) (device s) = Some d' →
  (ingress_work (length (submitted s)) (ingress d') < ingress_work (length (submitted s)) (ingress (device s)))%nat ∧
  egress d' = egress (device s) ∧ warps d' = warps (device s).
Proof.
  pose proof (inv_device _ _ _ _ I) as Hd. pose proof (d_ingress _ _ _ _ _ _ Hd) as Hok.
  unfold ingress_step, place. rewrite (tail_is_length s I).
  destruct (ingress (device s)) as [h|h c [|x todo]|h [|x todo]|h]; cbn [ingress_ok] in Hok; intros H.
  - destruct (h <? _)%nat eqn:E.
    + injection H as <-. apply Nat.ltb_lt in E. split; [|done]. cbn [ingress with_ingress ingress_work].
      rewrite length_seq. unfold batch, kWarpSpecializedMetaBatch. lia.
    + destruct (stop_requested _); [|done]. injection H as <-. split; [|done]. cbn [ingress with_ingress ingress_work].
      rewrite length_seq. lia.
  - injection H as <-. split; [|done]. cbn. lia.
  - destruct (decide _) as [Hin|]; [|done]. destruct (passes _ _); [|done]. injection H as <-. split; [|done].
    cbn [ingress with_ingress with_tslot ingress_work]. pose proof (remove_lane_shorter _ _ Hin). lia.
  - injection H as <-. split; [|done]. cbn. lia.
  - destruct (decide _) as [Hin|]; [|done]. destruct (passes _ _); [|done]. injection H as <-. split; [|done].
    cbn [ingress with_ingress with_tslot ingress_work]. pose proof (remove_lane_shorter _ _ Hin). lia.
  - done.
Qed.

Lemma egress_work_less lane m d' :
  egress_step W depth cap lane (mapped s) (device s) = Some (m, d') →
  (egress_work (length (submitted s)) (egress d') < egress_work (length (submitted s)) (egress (device s)))%nat ∧
  ingress d' = ingress (device s) ∧ warps d' = warps (device s).
Proof.
  pose proof (inv_device _ _ _ _ I) as Hd. pose proof (d_egress _ _ _ _ _ _ Hd) as Hok.
  unfold egress_step. rewrite (tail_is_length s I).
  destruct (egress (device s)) as [h|h c [|x todo]|h c stored todo|h]; cbn [egress_ok] in Hok; intros H.
  - destruct (h <? _)%nat eqn:E.
    + injection H as <- <-. apply Nat.ltb_lt in E. split; [|done]. cbn [egress with_egress egress_work].
      rewrite length_seq. unfold batch, kWarpSpecializedMetaBatch. lia.
    + destruct (stop_requested _); [|done]. injection H as <- <-. split; [|done]. cbn. lia.
  - injection H as <- <-. split; [|done]. cbn [egress with_egress egress_work length]. rewrite length_seq. lia.
  - destruct (decide _) as [Hin|]; [|done]. destruct (passes _ _); [|done]. injection H as <- <-. split; [|done].
    cbn [egress with_egress egress_work]. pose proof (remove_lane_shorter _ _ Hin). lia.
  - destruct stored, todo as [|x todo]; cbn [negb andb] in H.
    + injection H as <- <-. split; [|done]. cbn [egress with_egress egress_work length]. lia.
    + destruct (decide _) as [Hin|]; [|done]. injection H as <- <-. split; [|done].
      cbn [egress with_egress egress_work]. pose proof (remove_lane_shorter _ _ Hin). lia.
    + destruct (lane =? 0)%nat; [|by rewrite decide_False in H by apply not_elem_of_nil].
      injection H as <- <-. split; [|done]. cbn [egress with_egress egress_work]. lia.
    + destruct (lane =? 0)%nat; [injection H as <- <-; split; [|done]; cbn [egress with_egress egress_work]; lia|].
      destruct (decide _) as [Hin|]; [|done]. injection H as <- <-. split; [|done].
      cbn [egress with_egress egress_work]. pose proof (remove_lane_shorter _ _ Hin). lia.
  - done.
Qed.

Lemma copy_work_less w d' :
  (w < W)%nat → copy_step W depth w (device s) = Some d' →
  (warps_work (length (submitted s)) (warps d') < warps_work (length (submitted s)) (warps (device s)))%nat ∧
  ingress d' = ingress (device s) ∧ egress d' = egress (device s).
Proof.
  intros Hw. pose proof (inv_device _ _ _ _ I) as Hd. pose proof (d_warps _ _ _ _ _ _ Hd w Hw) as Hok.
  unfold copy_step. destruct (warps (device s) w) as [j|j t|j t|j] eqn:Ew; cbn in Hok; intros H; [| | |done].
  - destruct (passes _ _); [|done]. injection H as <-. split; [|done]. cbn [warps with_warp with_tslot].
    apply warps_work_insert; [done|]. rewrite Ew. destruct (_ =? 0); cbn [warp_work]; lia.
  - injection H as <-. split; [|done]. cbn [warps with_warp with_copied].
    apply warps_work_insert; [done|]. rewrite Ew. cbn [warp_work]. lia.
  - destruct (passes _ _); [|done]. injection H as <-. split; [|done]. cbn [warps with_warp with_cslot].
    apply warps_work_insert; [done|]. rewrite Ew. cbn [warp_work]. apply lookup_lt_Some in Hok.
    unfold index in Hok. pose proof (g_warps _ _ _ G). assert (j < length (submitted s))%nat by nia. lia.
Qed.

Lemma step_work e s' :
  device_event e = true → step W depth cap s e = Some s' →
  (device_work s' < device_work s)%nat ∧ submitted s' = submitted s ∧ queue s' = queue s ∧ polled s' = polled s.
Proof.
  intros He. unfold device_work. destruct e as [tasks| | |lane|w|lane]; [done|done|done| | |]; cbn [step].
  - intros (d' & H & ->)%fmap_Some_1. destruct (ingress_work_less _ _ H) as (H1 & H2 & H3).
    cbn [submitted device queue polled]. rewrite H2, H3. split; [lia|done].
  - destruct (w <? W)%nat eqn:E; [|done]. apply Nat.ltb_lt in E.
    intros (d' & H & ->)%fmap_Some_1. destruct (copy_work_less _ _ E H) as (H1 & H2 & H3).
    cbn [submitted device queue polled]. rewrite H2, H3. split; [lia|done].
  - intros ([m d'] & H & ->)%fmap_Some_1. destruct (egress_work_less _ _ _ H) as (H1 & H2 & H3).
    cbn [submitted device queue polled]. rewrite H2, H3. split; [lia|done].
Qed.

End Work.

(** * Runs of the device *)

Lemma device_run es : ∀ s s', inv W depth cap s → forallb device_event es = true → run W depth cap s es = Some s' →
  (length es + device_work s' <= device_work s)%nat ∧ submitted s' = submitted s.
Proof.
  induction es as [|e es IH]; intros s s' I He; cbn [run]; [intros [= <-]; done|].
  cbn [forallb] in He. apply andb_true_iff in He as [He Hes]. intros (s1 & H1 & H2)%bind_Some.
  destruct (step_work s I e s1 He H1) as (Hw & Hs & _).
  destruct (IH s1 s' (step_inv _ _ _ G _ _ _ I H1) Hes H2) as [IH1 IH2]. cbn [length]. rewrite IH2. split; [lia|done].
Qed.

Lemma device_rests s : inv W depth cap s →
  ∃ es s', forallb device_event es = true ∧ run W depth cap s es = Some s' ∧ quiet s'.
Proof.
  induction (well_founded_ltof _ device_work s) as [s _ IH]. intros I.
  destruct (device_progress s I) as [Hq|(e & s1 & He & H1)]; [by exists [], s|].
  destruct (IH s1 (proj1 (step_work s I e s1 He H1)) (step_inv _ _ _ G _ _ _ I H1)) as (es & s' & H2 & H3 & H4).
  exists (e :: es), s'. cbn [forallb run]. by rewrite He, H1.
Qed.

(** With all completions there, the host polls them one by one. *)
Lemma poll_next s (head := completion_head (queue s)) :
  inv W depth cap s → (head < completion_tail (mapped s))%nat →
  ∃ s', step W depth cap s ev_poll = Some s' ∧ submitted s' = submitted s ∧ mapped s' = mapped s ∧
    completion_head (queue s') = S head.
Proof.
  intros I Hlt. destruct (inv_host _ _ _ _ I). destruct h_queue0 as [Hm _]. cbn [step]. unfold try_poll. rewrite Hm. cbn [negb].
  fold head. destruct (cached_completion_tail (queue s) <=? head)%nat eqn:E.
  - rewrite (proj2 (Nat.leb_gt (completion_tail (mapped s)) head)) by done. by eexists.
  - rewrite E. by eexists.
Qed.

Lemma poll_all k : ∀ s, inv W depth cap s →
  (completion_head (queue s) + k = length (submitted s))%nat → completion_tail (mapped s) = length (submitted s) →
  ∃ s', run W depth cap s (replicate k ev_poll) = Some s' ∧ polled s' = completion_of <$> submitted s.
Proof.
  induction k as [|k IH]; intros s I Hk Ht; cbn [replicate run].
  - exists s. split; [done|]. rewrite (h_polled (inv_host _ _ _ _ I)), take_ge by lia. done.
  - destruct (poll_next s I ltac:(lia)) as (s1 & H1 & H2 & H3 & H4). rewrite H1. cbn.
    destruct (IH s1 (step_inv _ _ _ G _ _ _ I H1)) as (s' & H5 & H6); [rewrite H2; lia|by rewrite H2, H3|].
    exists s'. split; [done|]. by rewrite H6, H2.
Qed.

End Progress.

(** (C11) The pipeline never blocks for ever: from any reachable state, every run of the device
    alone is bounded by [device_work], a run that cannot go on has completed all submitted
    tasks and, after a request to stop, all warps have left; such a run exists, and the host
    then polls the completions of all its tasks. *)
Theorem pipeline_drains cap W depth base s0 es s :
  launch cap W depth base = Some s0 → run W depth cap s0 es = Some s →
  (∀ es' s', forallb device_event es' = true → run W depth cap s es' = Some s' →
     (length es' <= device_work W s)%nat ∧ (quiet W s' ∨ moves W depth cap s')) ∧
  ∃ es' s' s'' k, forallb device_event es' = true ∧ run W depth cap s es' = Some s' ∧ quiet W s' ∧
    run W depth cap s' (replicate k ev_poll) = Some s'' ∧ polled s'' = completion_of <$> submitted s.
Proof.
  intros (G & I0 & _)%launch_inv Hrun. pose proof (run_inv _ _ _ G _ _ _ I0 Hrun) as I. split.
  - intros es' s' He Hr. destruct (device_run W depth cap G _ _ _ I He Hr) as [Hl _]. split; [lia|].
    apply (device_progress W depth cap G). by apply (run_inv _ _ _ G _ _ _ I Hr).
  - destruct (device_rests W depth cap G s I) as (es' & s' & He & Hr & Hq).
    pose proof (run_inv _ _ _ G _ _ _ I Hr) as I'. destruct (device_run W depth cap G _ _ _ I He Hr) as [_ Hs].
    destruct (poll_all W depth cap G (length (submitted s') - completion_head (queue s')) s' I') as (s'' & Hp & Hd).
    + destruct (h_positions (inv_host _ _ _ _ I')). lia.
    + apply Hq.
    + exists es', s', s'', (length (submitted s') - completion_head (queue s'))%nat. rewrite Hs in Hd. done.
Qed.

Lemma pipeline_drains_witness :
  ∃ s0 s, launch 64 6 8 4096 = Some s0 ∧ run 6 8 64 s0 [ev_submit [sample_task 0; sample_task 1]; ev_stop] = Some s ∧
    stop_requested (mapped s) = true ∧
    ∃ es' s', forallb device_event es' = true ∧ run 6 8 64 s es' = Some s' ∧ quiet 6 s'.
Proof.
  destruct (launch 64 6 8 4096) as [s0|] eqn:E0; [|vm_compute in E0; discriminate].
  destruct (run 6 8 64 s0 [ev_submit [sample_task 0; sample_task 1]; ev_stop]) as [s|] eqn:E1.
  2: { vm_compute in E0. injection E0 as <-. vm_compute in E1. discriminate. }
  exists s0, s. split; [done|]. split; [done|]. split.
  - vm_compute in E0. injection E0 as <-. vm_compute in E1. injection E1 as <-. reflexivity.
  - destruct (pipeline_drains 64 6 8 4096 s0 _ s E0 E1) as [_ (es' & s' & s'' & k & H1 & H2 & H3 & _)].
    by exists es', s'.
Defined.

End WarpProgress.
