(* ===== verification/WarpRuntime.v ===== *)
(** The GPU copy backend on the pipeline kernel: [CudaPersistentCopyRuntime]
    (src/gpu/persistent_copy_backend.cu) keeps the promise [CopyingRuntime] of the backend,
    so what the backend reports as done the kernel has copied.

    The state of the runtime is that of its queue and of the kernel.  The steps the kernel
    takes before each call, and the outcomes of CUDA calls, already translated by
    [cuda_status], are read from two lists: the theorems hold for all of them.  A step of
    the kernel that is not enabled is no step; an exhausted list stands for no steps and
    for success. *)

From S2P Require Import Prelude LocalTransport WorkerRespond CopyHost CopyTable GpuBackend GpuLink.
From S2P Require Import WarpQueue WarpHost WarpPipeline WarpOrder WarpFifo.
Import Copy CopyHost.

Module WarpRuntime.
Import WarpQueue WarpHost WarpPipeline WarpOrder WarpFifo.

Record CudaRuntime := mkCuda {
  pipe : World;                        (* [queue_], its mapped memory and the kernel *)
  device_ready : bool;                 (* [device_initialized_] *)
  outcomes : list Z;
  schedule : list (list Event);
}.

Definition blank (q : Queue) (m : Mapped) : World := mkWorld q m launched_device [] [].
Definition new_runtime (outcomes : list Z) (schedule : list (list Event)) : CudaRuntime :=
  mkCuda (blank empty_queue zeroed) false outcomes schedule.

(** The next outcome of a CUDA call. *)
Definition outcome (l : list Z) : Z * list Z := match l with [] => (0, []) | e :: l => (e, l) end.

Definition with_pipe (c : CudaRuntime) (s : World) : CudaRuntime :=
  mkCuda s (device_ready c) (outcomes c) (schedule c).
Definition with_outcomes (c : CudaRuntime) (l : list Z) : CudaRuntime :=
  mkCuda (pipe c) (device_ready c) l (schedule c).
(** The runtime as its own methods see it. *)
Definition runtime_of (c : CudaRuntime) : Runtime := mkRuntime (queue (pipe c)) (mapped (pipe c)) (device_ready c).

(** ** The kernel *)

Definition kernel_step (s : World) (e : Event) : World :=
  if device_event e then default s (step kCopyWarps kSharedQueueDepth (capacity (queue s)) s e) else s.

(** What the kernel does before a call, while it runs. *)
Definition advance (c : CudaRuntime) : CudaRuntime :=
  match schedule c with
  | [] => c
  | es :: rest =>
      mkCuda (if running (queue (pipe c)) then foldl kernel_step (pipe c) es else pipe c)
        (device_ready c) (outcomes c) rest
  end.

(** ** The calls *)

Definition cuda_submit (c : CudaRuntime) (tasks : list CopyTask) : CudaRuntime * Z * nat :=
  let c := advance c in
  let s := pipe c in
  let '(q, m, status, n) := try_submit_batch (queue s) (mapped s) tasks in
  (with_pipe c (mkWorld q m (device s) (submitted s ++ take n tasks) (polled s)), status, n).

Definition cuda_poll (c : CudaRuntime) : CudaRuntime * Z * CopyCompletion :=
  let c := advance c in
  let s := pipe c in
  let '(q, status, completion) := try_poll (queue s) (mapped s) in
  (with_pipe c (mkWorld q (mapped s) (device s) (submitted s)
     (if status =? 0 then polled s ++ [completion] else polled s)), status, completion).

Definition cuda_initialize (c : CudaRuntime) (ordinal : Z) : CudaRuntime * Z :=
  let '(e, l) := outcome (outcomes c) in
  let '(r, status) := initialize_device (runtime_of c) e in
  (mkCuda (pipe c) (device_initialized r) l (schedule c), status).

(** [start]; a queue that was started has a kernel that has just been launched. *)
Definition cuda_start (c : CudaRuntime) (cfg : Config) : CudaRuntime * Z :=
  let '(pinned, l) := outcome (outcomes c) in
  let '(configured, l) := outcome l in
  let '(launched, l) := outcome l in
  let '(unpinned, l) := outcome l in
  let '(r, status) := runtime_start (runtime_of c) cfg (mkStart pinned (configured =? 0) launched unpinned) in
  (mkCuda (if negb (device_ready c) || has_memory (queue (pipe c)) then pipe c else blank (queue_ r) (mapped_ r))
     (device_initialized r) l (schedule c), status).

Definition cuda_stop (c : CudaRuntime) : CudaRuntime * Z :=
  let c := advance c in
  let s := pipe c in
  let '(q, m, status) := request_stop (queue s) (mapped s) in
  (with_pipe c (mkWorld q m (device s) (submitted s) (polled s)), status).

(** [wait]: the kernel has run when the device is synchronized. *)
Definition cuda_wait (c : CudaRuntime) : CudaRuntime * Z :=
  let c := advance c in
  let s := pipe c in
  let '(e, l) := outcome (outcomes c) in
  let '(q, status) := wait (queue s) e in
  (with_outcomes (with_pipe c (mkWorld q (mapped s) (device s) (submitted s) (polled s))) l, status).

Definition cuda_reset (c : CudaRuntime) : CudaRuntime * Z :=
  let '(e, l) := outcome (outcomes c) in
  let '(r, status) := runtime_reset (runtime_of c) e in
  (mkCuda (if running (queue (pipe c)) then pipe c else blank (queue_ r) (mapped_ r))
     (device_initialized r) l (schedule c), status).

#[export] Instance cuda_queue : PersistentCopyQueue CudaRuntime :=
  {| queue_submit := cuda_submit; queue_poll := cuda_poll |}.
#[export] Instance cuda_runtime : PersistentCopyRuntime CudaRuntime := {|
  GpuBackend.initialize_device := cuda_initialize;
  GpuBackend.runtime_start := cuda_start;
  runtime_stop := cuda_stop;
  runtime_wait := cuda_wait;
  GpuBackend.runtime_reset := cuda_reset;
|}.

(** * The promise *)

Definition sound_pipe (s : World) : Prop :=
  geometry kCopyWarps kSharedQueueDepth (capacity (queue s)) ∧
  inv kCopyWarps kSharedQueueDepth (capacity (queue s)) s.

(** Without memory there is no kernel; with memory, queue and kernel are as the pipeline
    keeps them. *)
Definition cuda_inv (c : CudaRuntime) : Prop :=
  queue (pipe c) = empty_queue ∧ submitted (pipe c) = [] ∧ copied (device (pipe c)) = [] ∨
  sound_pipe (pipe c).

Definition cuda_handed (c : CudaRuntime) : list CopyTask := submitted (pipe c).
Definition cuda_copied (c : CudaRuntime) : list CopyTask := (copied (device (pipe c))).*2.

(** ** The kernel *)

(** From one state of the pipeline to another by the kernel alone. *)
Definition kernel_only (s s' : World) : Prop :=
  queue s' = queue s ∧ submitted s' = submitted s ∧ copied (device s) ⊆ copied (device s').
#[export] Instance kernel_only_preorder : PreOrder kernel_only.
Proof.
  split; [intros s; by split_and!|]. intros s1 s2 s3 (Q1 & S1 & C1) (Q2 & S2 & C2).
  split_and!; [congruence|congruence|by etrans].
Qed.

Lemma place_copied W depth d i t d' : place W depth d i t = Some d' → copied d' = copied d.
Proof. unfold place. case_match; [|done]. by intros [= <-]. Qed.
Lemma ingress_step_copied W depth cap lane m d d' :
  ingress_step W depth cap lane m d = Some d' → copied d' = copied d.
Proof.
  unfold ingress_step. destruct (ingress d) as [h|h c [|x todo]|h [|x todo]|h]; intros E;
    repeat case_match; simplify_eq/=; try done; by apply place_copied in E.
Qed.
Lemma copy_step_copied W depth w d d' : copy_step W depth w d = Some d' → copied d ⊆ copied d'.
Proof. unfold copy_step. intros E. repeat case_match; simplify_eq/=; try done. set_solver. Qed.
Lemma egress_step_copied W depth cap lane m d m' d' :
  egress_step W depth cap lane m d = Some (m', d') → copied d' = copied d.
Proof. unfold egress_step. intros E. repeat case_match; simplify_eq/=; done. Qed.

Lemma device_step_only W depth cap s e s' :
  device_event e = true → step W depth cap s e = Some s' → kernel_only s s'.
Proof.
  destruct e as [tasks| | |lane|w|lane]; cbn; try done; intros _.
  - intros (d & Hd & ->)%fmap_Some_1. split_and!; [done|done|]. cbn. by rewrite (ingress_step_copied _ _ _ _ _ _ _ Hd).
  - case_match; [|done]. intros (d & Hd & ->)%fmap_Some_1. split_and!; [done|done|]. by apply copy_step_copied in Hd.
  - intros ([m d] & Hd & ->)%fmap_Some_1. split_and!; [done|done|]. cbn. by rewrite (egress_step_copied _ _ _ _ _ _ _ _ Hd).
Qed.

Lemma kernel_steps_only es s : sound_pipe s → sound_pipe (foldl kernel_step s es) ∧ kernel_only s (foldl kernel_step s es).
Proof.
  revert s. induction es as [|e es IH]; intros s [G I]; [done|]. cbn [foldl].
  assert (sound_pipe (kernel_step s e) ∧ kernel_only s (kernel_step s e)) as [S1 K1].
  { unfold kernel_step. destruct (device_event e) eqn:Ee; [|done].
    destruct (step _ _ _ s e) as [s1|] eqn:E; [|done]. change (default s (Some s1)) with s1.
    pose proof (device_step_only _ _ _ _ _ _ Ee E) as K. split; [|done]. unfold sound_pipe. rewrite (proj1 K).
    split; [done|]. by apply (step_inv _ _ _ G s e). }
  destruct (IH _ S1) as [S2 K2]. split; [done|]. by etrans.
Qed.

Lemma advance_only c :
  cuda_inv c → cuda_inv (advance c) ∧ kernel_only (pipe c) (pipe (advance c)) ∧ outcomes (advance c) = outcomes c ∧
  device_ready (advance c) = device_ready c.
Proof.
  intros I. unfold advance. destruct (schedule c) as [|es rest]; [done|]. cbn [outcomes device_ready].
  destruct (running (queue (pipe c))) eqn:Er; cbn [pipe].
  - destruct I as [(E & _)|S]; [by rewrite E in Er|].
    destruct (kernel_steps_only es _ S) as [S' K]. split_and!; [by right|apply K..|done|done].
  - split_and!; [exact I|done..].
Qed.

Lemma copied_kernel c c' : copied (device (pipe c)) ⊆ copied (device (pipe c')) → cuda_copied c ⊆ cuda_copied c'.
Proof.
  intros Hs x (y & -> & Hy)%list_elem_of_fmap. apply list_elem_of_fmap. exists y. split; [done|by apply Hs].
Qed.

(** ** The calls *)

Lemma cuda_submit_law c l :
  cuda_inv c →
  let '(c', status, n) := cuda_submit c l in
  cuda_inv c' ∧ cuda_copied c ⊆ cuda_copied c' ∧
  if status =? 0 then (0 < n <= length l)%nat ∧ cuda_handed c' = cuda_handed c ++ take n l
  else cuda_handed c' = cuda_handed c.
Proof.
  intros I. destruct (advance_only c I) as (I1 & (Hq & Hs & Hc) & _). unfold cuda_submit.
  set (c1 := advance c) in *. clearbody c1.
  assert (cuda_copied c ⊆ cuda_copied c1) as Hc' by by apply copied_kernel.
  assert (capacity (try_submit_batch (queue (pipe c1)) (mapped (pipe c1)) l).1.1.1 = capacity (queue (pipe c1))) as Hcap.
  { unfold try_submit_batch. by repeat case_match. }
  pose proof (submit_inv kCopyWarps kSharedQueueDepth (capacity (queue (pipe c1)))) as SI.
  assert (let '(_, _, status, n) := try_submit_batch (queue (pipe c1)) (mapped (pipe c1)) l in
          if status =? 0 then (0 < n <= length l)%nat else n = 0%nat) as Hn.
  { unfold try_submit_batch. repeat case_match; simplify_eq/=; try done. bool_hyps. lia. }
  destruct I1 as [(E & Es & Ec)|[G I1]].
  - unfold try_submit_batch in *. rewrite E in *. cbn. unfold cuda_handed. cbn. rewrite app_nil_r.
    split_and!; [by left|done|done].
  - specialize (SI G (pipe c1) l). cbn [step] in SI.
    destruct (try_submit_batch _ _ l) as [[[q m] status] n]. cbn [fst] in Hcap.
    specialize (SI _ I1 eq_refl). split_and!; [right; unfold sound_pipe; cbn; by rewrite Hcap|done|].
    unfold cuda_handed. cbn. rewrite Hs. case_match; [done|]. by rewrite Hn, take_0, app_nil_r.
Qed.

Lemma cuda_poll_law c :
  cuda_inv c →
  let '(c', status, completion) := cuda_poll c in
  cuda_inv c' ∧ cuda_copied c ⊆ cuda_copied c' ∧ cuda_handed c' = cuda_handed c ∧
  (status = 0 → completed_result completion = task_success →
     ∃ t, t ∈ cuda_copied c' ∧ task_id t = completed_id completion).
Proof.
  intros I. destruct (advance_only c I) as (I1 & (Hq & Hs & Hc) & _). unfold cuda_poll.
  set (c1 := advance c) in *. clearbody c1.
  assert (cuda_copied c ⊆ cuda_copied c1) as Hc' by by apply copied_kernel.
  destruct I1 as [(E & Es & Ec)|[G I1]].
  - unfold try_poll. rewrite E. cbn. split_and!; [by left|done|done|done].
  - pose proof (poll_inv kCopyWarps kSharedQueueDepth (capacity (queue (pipe c1))) (pipe c1)) as PI. cbn [step] in PI.
    assert (let '(q, status, _) := try_poll (queue (pipe c1)) (mapped (pipe c1)) in
            capacity q = capacity (queue (pipe c1)) ∧
            (status = 0 → completion_head q = S (completion_head (queue (pipe c1))))) as Hcap.
    { unfold try_poll. repeat case_match; simplify_eq/=; done. }
    destruct (try_poll _ _) as [[q status] cc]. destruct Hcap as [Hcap Hhead]. specialize (PI _ I1 eq_refl).
    split_and!; [right; unfold sound_pipe; cbn; by rewrite Hcap|done|done|]. intros -> _. specialize (Hhead eq_refl).
    cbn [Z.eqb] in *. pose proof (h_polled (inv_host _ _ _ _ PI)) as Hp. cbn in Hp.
    rewrite Hhead in Hp. rewrite (h_polled (inv_host _ _ _ _ I1)) in Hp.
    pose proof (h_positions (inv_host _ _ _ _ PI)) as Hpos. cbn in Hpos.
    destruct (lookup_lt_is_Some_2 (submitted (pipe c1)) (completion_head (queue (pipe c1)))) as [t Ht]; [lia|].
    rewrite (take_S_r _ _ _ Ht), fmap_app in Hp. apply app_inj_tail in Hp as [_ ->].
    exists t. split; [|done]. unfold cuda_copied. cbn. apply list_elem_of_fmap.
    exists (completion_head (queue (pipe c1)), t). split; [done|].
    apply (polled_copied _ _ _ _ _ _ PI); [done|]. cbn. lia.
Qed.

Lemma cuda_stop_law c :
  cuda_inv c →
  let c' := (cuda_stop c).1 in
  cuda_inv c' ∧ cuda_copied c ⊆ cuda_copied c' ∧ cuda_handed c' = cuda_handed c.
Proof.
  intros I. destruct (advance_only c I) as (I1 & (Hq & Hs & Hc) & _). unfold cuda_stop.
  set (c1 := advance c) in *. clearbody c1.
  assert (cuda_copied c ⊆ cuda_copied c1) as Hc' by by apply copied_kernel.
  destruct I1 as [(E & Es & Ec)|[G I1]].
  - unfold request_stop. rewrite E. cbn. split_and!; [by left|done|done].
  - pose proof (stop_inv kCopyWarps kSharedQueueDepth (capacity (queue (pipe c1))) (pipe c1)) as SI. cbn [step] in SI.
    assert (capacity (request_stop (queue (pipe c1)) (mapped (pipe c1))).1.1 = capacity (queue (pipe c1))) as Hcap.
    { unfold request_stop. destruct (negb _ || negb _); done. }
    destruct (request_stop _ _) as [[q m] status]. cbn [fst] in Hcap. specialize (SI _ I1 eq_refl).
    split_and!; [right; unfold sound_pipe; cbn; by rewrite Hcap|done|done].
Qed.

Lemma cuda_initialize_law c ordinal : cuda_inv c → cuda_inv (cuda_initialize c ordinal).1.
Proof.
  intros I. unfold cuda_initialize. destruct (outcome _). destruct (initialize_device _ _). exact I.
Qed.

(** Waiting changes only whether the queue runs. *)
Lemma flags_sound s r a :
  (a = true → accepting (queue s) = true) → sound_pipe s →
  sound_pipe (mkWorld (with_flags (queue s) r a) (mapped s) (device s) (submitted s) (polled s)).
Proof.
  intros Ha [G [[] Hd]]. split; [done|]. split; [|done]. split; try done. cbn. intros Hstop. specialize (h_stop0 Hstop).
  destruct a; [|done]. specialize (Ha eq_refl). congruence.
Qed.

Lemma cuda_wait_law c : cuda_inv c → cuda_inv (cuda_wait c).1.
Proof.
  intros I. destruct (advance_only c I) as (I1 & _). unfold cuda_wait.
  set (c1 := advance c) in *. clearbody c1. destruct (outcome _) as [e l]. unfold wait.
  destruct (_ || _); [by destruct c1 as [[] ? ? ?]|]. cbn [fst]. destruct I1 as [(E & Es & Ec)|S1].
  - left. cbn. by rewrite E.
  - right. by apply flags_sound.
Qed.

Lemma cuda_reset_law c : cuda_inv c → cuda_inv (cuda_reset c).1.
Proof.
  intros I. unfold cuda_reset. destruct (outcome _) as [e l].
  unfold runtime_reset, reset. cbn [runtime_of queue_ mapped_]. destruct (running _); [exact I|]. by left.
Qed.

Lemma cuda_start_law c cfg :
  cuda_inv c →
  let '(c', status) := cuda_start c cfg in cuda_inv c' ∧ (status = 0 → cuda_handed c' = []).
Proof.
  intros I. unfold cuda_start. destruct (outcome _) as [e1 l1]. destruct (outcome l1) as [e2 l2].
  destruct (outcome l2) as [e3 l3]. destruct (outcome l3) as [e4 l4]. unfold runtime_start.
  cbn [runtime_of device_initialized queue_ pinned launched launch_status unpinned].
  destruct (negb (device_ready c) || has_memory (queue (pipe c))) eqn:Eg; [by split|].
  apply orb_false_iff in Eg as [_ Em].
  destruct I as [(Eq & Es & Ec)|[G I]]; [|by rewrite (proj1 (h_queue (inv_host _ _ _ _ I))) in Em].
  rewrite Eq. pose proof (launch_inv (queue_capacity cfg) kCopyWarps kSharedQueueDepth (stage_buffer_base cfg)) as LI.
  unfold launch in LI. unfold allocate_pipeline in LI |- *. cbn [has_memory empty_queue orb] in LI |- *.
  assert (∀ status b l s, status ≠ 0 →
    cuda_inv (mkCuda (blank empty_queue s) b l (schedule c)) ∧
    (status = 0 → cuda_handed (mkCuda (blank empty_queue s) b l (schedule c)) = [])) as Hfail.
  { intros status b l s Hst. split; [by left|done]. }
  destruct (stage_buffer_base cfg =? 0); [by apply Hfail|].
  destruct (warp_specialized_pipeline_allocation_size _ _ _) as [sizes|]; [|by apply Hfail].
  destruct (e1 =? 0) eqn:E1; cbn [negb]; [|rewrite E1; cbn [negb]; bool_hyps; by apply Hfail].
  cbn [negb Z.eqb start_pipeline has_memory running orb] in LI |- *. unfold start_pipeline in LI |- *.
  cbn [negb Z.eqb has_memory running orb empty_queue] in LI |- *.
  destruct (e2 =? 0); cbn [negb]; [|by apply Hfail].
  destruct (e3 =? 0) eqn:E3; cbn [negb]; [|bool_hyps; cbn; by apply Hfail].
  destruct (LI _ eq_refl) as (G & I & Hsub & _). split; [right; by split|done].
Qed.

#[export] Program Instance cuda_copying : CopyingRuntime CudaRuntime :=
  {| runtime_inv := cuda_inv; handed := cuda_handed; GpuLink.copied := cuda_copied |}.
Next Obligation. intros. by apply cuda_submit_law. Qed.
Next Obligation. intros. by apply cuda_poll_law. Qed.
Next Obligation. intros. by apply cuda_stop_law. Qed.
Next Obligation. intros. by apply cuda_initialize_law. Qed.
Next Obligation. intros. by apply cuda_start_law. Qed.
Next Obligation. intros. by apply cuda_wait_law. Qed.
Next Obligation. intros. by apply cuda_reset_law. Qed.
Next Obligation.
  intros c [(_ & _ & Ec)|[_ [_ Hd]]] t Ht; unfold cuda_copied in Ht; [rewrite Ec in Ht; by apply elem_of_nil in Ht|].
  apply list_elem_of_fmap in Ht as ([i t'] & -> & Hi). apply (d_copied _ _ _ _ _ _ Hd) in Hi as [Hi _].
  by eapply list_elem_of_lookup_2.
Qed.
Next Obligation.
  intros c [(_ & _ & Ec)|[_ [_ Hd]]] Hn; unfold cuda_copied; [rewrite Ec; constructor|].
  unfold cuda_handed in Hn. pose proof (d_once _ _ _ _ _ _ Hd) as Ho.
  pose proof (λ i t, proj1 (d_copied _ _ _ _ _ _ Hd i t)) as Hin. clear Hd.
  induction (copied (device (pipe c))) as [|[i t] l IH]; [constructor|]. cbn in Ho |- *.
  apply NoDup_cons in Ho as [Hi Ho]. constructor; [|apply IH; [done|]; intros j u Hj; apply Hin; by right].
  intros (t' & Et & ([j t''] & -> & Hj)%list_elem_of_fmap)%list_elem_of_fmap. apply Hi.
  destruct (Hin i t ltac:(by left)) as [Hit _]. destruct (Hin j t'' ltac:(by right)) as [Hjt _].
  assert (i = j) as ->; [|apply list_elem_of_fmap; by exists (j, t'')].
  eapply (NoDup_lookup _ i j (task_id t) Hn); rewrite list_lookup_fmap; [by rewrite Hit|by rewrite Hjt; cbn; rewrite Et].
Qed.

(** * The backend on the kernel *)

Import CopyTable GpuBackend GpuLink LocalTransport.Transport WorkerRespond.Respond.

Section Backend.
Context {V T : Type} `{GpuDirectVisibilityGate V} `{PersistentCopyClock T}.

(** The tasks the kernel of a backend has copied since it was launched. *)
Definition kernel_copied (b : Backend CudaRuntime V T) : list CopyTask := cuda_copied (CopyHost.queue (world b)).

Lemma new_runtime_inv outcomes schedule : cuda_inv (new_runtime outcomes schedule).
Proof. by left. Qed.

(** (C12) Whatever the calls, the interleaving of host and kernel and the outcomes of CUDA
    calls: a copy that the backend reports as done was copied before by the pipeline
    kernel, from the source address of its request to the target address, with its
    length. *)
Theorem success_copied_by_kernel outcomes schedule (v : V) (t : T) calls n :
  offered calls < U64_MAX →
  let b := (gpu_run (new_backend (new_runtime outcomes schedule) v t) calls).1.1 in
  let '(b', l) := try_pop_completion_batch b n in
  ∀ c, c ∈ l → bc_result c = success →
  ∃ req task, req ∈ taken_requests (new_backend (new_runtime outcomes schedule) v t) calls ∧
    copy_of req = copy_done c ∧ task ∈ kernel_copied b' ∧
    target_address task = br_target req ∧ task_length task = br_length req ∧
    stage_buffer_base (config_ (backend_host b)) + relative_offset task = br_source req.
Proof. intros Ho. exact (success_means_copied _ v t calls n (new_runtime_inv outcomes schedule) Ho). Qed.

(** (C13) Whatever the calls, the interleaving and the outcomes of CUDA calls: since it was
    launched, the kernel of a running backend has copied only requests that the backend
    took, none of those it refused, from within the staging buffer to the target of the
    request and with its length, and no task twice. *)
Theorem kernel_copies_requested outcomes schedule (v : V) (t : T) calls :
  offered calls < U64_MAX →
  let b := (gpu_run (new_backend (new_runtime outcomes schedule) v t) calls).1.1 in
  let cfg := config_ (backend_host b) in
  state_ b ≠ stopped →
  NoDup (task_id <$> kernel_copied b) ∧
  ∀ task, task ∈ kernel_copied b →
  ∃ req, req ∈ taken_requests (new_backend (new_runtime outcomes schedule) v t) calls ∧
    target_address task = br_target req ∧ task_length task = br_length req ∧
    stage_buffer_base cfg + relative_offset task = br_source req ∧
    relative_offset task + task_length task <= stage_buffer_bytes cfg.
Proof. intros Ho. exact (device_copies_requested _ v t calls (new_runtime_inv outcomes schedule) Ho). Qed.

End Backend.

(** ** A run *)

Section Demo.

#[local] Instance gate_always : GpuDirectVisibilityGate unit := {|
  gate_initialize v _ := (v, 0); gate_flush v := (v, 0); gate_reset v := (v, 0) |}.
#[local] Instance clock_ten : PersistentCopyClock Z := {| now_nanoseconds t := (t + 10, t) |}.

Definition run_config : Config := mkConfig 0 4096 65536 64 kHostBatch 1000.
Definition run_copy (i : Z) : BackendRequest := mkBackendRequest 7 4096 0 (4096 + i * 64) 1048576 64 i 2.
(** The kernel takes two tasks in, copies them and writes their completions back. *)
Definition run_schedule : list (list Event) :=
  [[]; [ev_ingress 0; ev_ingress 1; ev_ingress 0; ev_egress 0; ev_copy 1; ev_copy 1; ev_copy 1;
        ev_copy 0; ev_copy 0; ev_copy 0; ev_egress 1; ev_egress 0; ev_egress 0; ev_egress 0]].
Definition run_calls : list Call :=
  [call_start run_config; call_submit [run_copy 0; run_copy 1]; call_flush].

Lemma success_copied_by_kernel_witness :
  let b := (gpu_run (new_backend (new_runtime [] run_schedule) tt 0) run_calls).1.1 in
  let '(b', l) := try_pop_completion_batch b 4 in
  l = [mkBackendCompletion 7 0 success; mkBackendCompletion 7 1 success] ∧
  ∃ req task, req ∈ taken_requests (new_backend (new_runtime [] run_schedule) tt 0) run_calls ∧ copy_of req = (7, 1) ∧ task ∈ kernel_copied b' ∧
    target_address task = br_target req.
Proof.
  assert (offered run_calls < U64_MAX) as Ho by done.
  pose proof (success_copied_by_kernel [] run_schedule tt 0 run_calls 4 Ho) as S. cbv zeta in *.
  assert ((try_pop_completion_batch (gpu_run (new_backend (new_runtime [] run_schedule) tt 0) run_calls).1.1 4).2
          = [mkBackendCompletion 7 0 success; mkBackendCompletion 7 1 success]) as E by (vm_compute; reflexivity).
  destruct (try_pop_completion_batch _ 4) as [b l]. cbn [snd] in E. subst l. split; [done|].
  destruct (S (mkBackendCompletion 7 1 success)) as (req & task & S1 & S2 & S3 & S4 & _);
    [right; left|done|]. by exists req, task.
Defined.

(** A request offered after the stop is refused. *)
Definition run_popped : list Call := run_calls ++ [call_pop 1; call_stop; call_submit [run_copy 2]].

Lemma kernel_copies_requested_witness :
  let b0 := new_backend (new_runtime [] run_schedule) tt 0 in
  let b := (gpu_run b0 run_popped).1.1 in
  taken_requests b0 run_popped = [run_copy 0; run_copy 1] ∧
  length (kernel_copied b) = 2%nat ∧ NoDup (task_id <$> kernel_copied b) ∧
  ∀ task, task ∈ kernel_copied b →
    ∃ req, req ∈ [run_copy 0; run_copy 1] ∧ target_address task = br_target req.
Proof.
  assert (offered run_popped < U64_MAX) as Ho by done.
  pose proof (kernel_copies_requested [] run_schedule tt 0 run_popped Ho) as S. cbv zeta in *.
  assert (taken_requests (new_backend (new_runtime [] run_schedule) tt 0) run_popped = [run_copy 0; run_copy 1]) as Et
    by (vm_compute; reflexivity).
  assert (length (kernel_copied (gpu_run (new_backend (new_runtime [] run_schedule) tt 0) run_popped).1.1) = 2%nat) as E
    by (vm_compute; reflexivity).
  rewrite Et in S. destruct S as [S1 S2]; [vm_compute; discriminate|]. split; [exact Et|]. split; [exact E|].
  split; [exact S1|]. intros task Ht. destruct (S2 task Ht) as (req & Hr & Htarget & _). exists req. split; [exact Hr|exact Htarget].
Defined.

End Demo.

End WarpRuntime.
