(* ===== verification/GpuDataPath.v ===== *)
(** The path of a write down to the device: the two workers of DataPath.v with the GPU copy
    backend (src/gpu/persistent_copy_backend.cu) behind the responder.  A write whose
    completion reports success was copied by the device, byte by byte, to where the remote
    key said.  The theorems are proved against [CopyingRuntime] and hold of the pipeline
    kernel, which keeps its promise. *)

From S2P Require Import Prelude SharedRing LocalTransport Worker WorkerStream WorkerRespond WorkerRequest.
From S2P Require Import DataPath CopyHost CopyTable GpuBackend GpuLink WarpPipeline WarpRuntime.
Import WarpRuntime.
Import Ring Transport Worker Stream Respond DataPath Copy CopyHost CopyTable GpuBackend GpuLink.

Module GpuDataPath.

(** The bytes a task reads and where it writes them. *)
Definition task_bytes (c : Config) (t : CopyTask) : list (Z * Z) :=
  zip (seqZ (stage_buffer_base c + relative_offset t) (task_length t))
      (seqZ (target_address t) (task_length t)).

Section Device.
Context {R V T : Type} `{CopyingRuntime R} `{GpuDirectVisibilityGate V} `{PersistentCopyClock T}.
Context (qq qs pb : Z).
Implicit Types (s : Path (Backend R V T)).

(** The backend runs, its tasks are made from the copies queued for it, and the copies it
    gave back as done were copied by the device. *)
Record device_inv s : Prop := {
  dv_active : ∃ k slots, active k (be s) slots;
  dv_linked : linked (queued s) (world (be s));
  dv_next : next_task_ (backend_host (be s)) + Z.of_nat (length (pending_backend_ (rs s)))
              <= 1 + Z.of_nat (length (queued s));
  dv_popped : ∀ c, c ∈ popped s → bc_result c = success →
    done_copy (queued s) (world (be s)) (copy_done c);
}.

Lemma done_copy_mono reqs reqs' (w : HostWorld R V) c :
  reqs ⊆ reqs' → done_copy reqs w c → done_copy reqs' w c.
Proof. intros Hs (r & t & Hr & ?). exists r, t. split; [by apply Hs|done]. Qed.

(** A step that leaves the backend alone. *)
Lemma device_inv_same s s' :
  device_inv s → be s' = be s → popped s' = popped s → queued s ⊆ queued s' →
  (length (queued s) + (length (pending_backend_ (rs s')) - length (pending_backend_ (rs s)))
     <= length (queued s'))%nat → device_inv s'.
Proof.
  intros [D1 D2 D3 D4] Eb Ep Hq Hl. split; rewrite ?Eb, ?Ep; [done|by eapply linked_mono|lia|].
  intros c Hc Hr. by eapply done_copy_mono, D4.
Qed.

(** A step of the backend that is given nothing the responder still holds. *)
Lemma device_inv_backend s rs' be' outs :
  device_inv s → (∃ k slots, active k be' slots) → gives_done (queued s) (be s) be' outs →
  next_task_ (backend_host be') + Z.of_nat (length (pending_backend_ rs'))
    <= next_task_ (backend_host (be s)) + Z.of_nat (length (pending_backend_ (rs s))) →
  device_inv (mkPath (rq s) rs' (tr s) be' (sq s) (writes s) (grants s) (queued s) (popped s ++ outs)
                (events s)).
Proof.
  intros [D1 D2 D3 D4] A (L & O & G) Hn. split; cbn; [done|done|lia|].
  intros c [Hc|Hc]%elem_of_app Hr; [|by apply G]. by eapply done_copy_onward, D4.
Qed.

Lemma device_pop s rs' be' b :
  device_inv s → try_backend_completions (rs s) (be s) = (rs', be', b) →
  device_inv (mkPath (rq s) rs' (tr s) be' (sq s) (writes s) (grants s) (queued s)
                (popped s ++ (try_pop_completion_batch (be s) kBackendBatchCapacity).2) (events s)).
Proof.
  intros D E. destruct (dv_active s D) as (k & slots & A).
  pose proof (pop_batch_moves k (be s) kBackendBatchCapacity slots A) as M.
  pose proof (pop_batch_linked k (queued s) (be s) kBackendBatchCapacity slots A (dv_linked s D)) as G.
  unfold try_backend_completions in E. cbn [try_pop_completion_batch gpu_backend] in *.
  destruct (backend_pop_batch _ _) as [b1 cs]. cbn [fst snd] in *.
  assert (be' = b1 ∧ pending_backend_ rs' = pending_backend_ (rs s)) as [-> Ep]
    by (case_decide; injection E as <- <- _; done).
  apply device_inv_backend; [done|destruct (mv_active _ _ _ _ _ M) as [slots' ?]; by exists k, slots'|done|].
  rewrite Ep, (mv_next _ _ _ _ _ M). cbn. lia.
Qed.

Lemma device_submit s rs' be' b :
  device_inv s → pending_backend_ (rs s) ⊆ queued s → Z.of_nat (length (queued s)) < U64_MAX →
  try_flush_backend_requests (rs s) (be s) = (rs', be', b) →
  device_inv (mkPath (rq s) rs' (tr s) be' (sq s) (writes s) (grants s) (queued s) (popped s) (events s)).
Proof.
  intros D Hq Hb E. destruct (dv_active s D) as (k & slots & A). pose proof (dv_next s D) as Hn.
  assert (next_task_ (backend_host (be s)) + Z.of_nat (length (pending_backend_ (rs s))) <= U64_MAX) as Hm by lia.
  pose proof (submit_batch_moves k (be s) (pending_backend_ (rs s)) slots A Hm) as M.
  pose proof (submit_batch_linked k (queued s) (be s) _ slots A Hm ltac:(etrans; [apply subseteq_take|exact Hq]) (dv_linked s D)) as [L1 O1].
  pose proof (submit_batch_bound (be s) (pending_backend_ (rs s))) as Hle.
  unfold try_flush_backend_requests in E. case_decide.
  { injection E as <- <- _. eapply device_inv_same; [exact D|done..|cbn; lia]. }
  cbn [try_submit_batch flush_submissions gpu_backend] in *.
  destruct (backend_submit_batch _ _) as [b1 n]. cbn [fst snd] in *.
  destruct (mv_active _ _ _ _ _ M) as [slots1 A1]. pose proof (mv_next _ _ _ _ _ M) as Hn1.
  rewrite length_fmap, length_take in Hn1.
  rewrite <- (app_nil_r (popped s)). destruct (_ || _) eqn:Eo.
  - injection E as <- <- _. apply orb_true_iff in Eo as [Eo|Eo]; bool_hyps; [|lia].
    apply device_inv_backend; [done|by exists k, slots1|split_and!; [done|done|set_solver]|lia].
  - pose proof (backend_flush_moves k b1 slots1 A1) as M2.
    pose proof (backend_flush_linked k (queued s) b1 slots1 A1 L1) as [L2 O2].
    destruct (backend_flush b1) as [b2 x]. cbn [fst] in *. injection E as <- <- _.
    destruct (mv_active _ _ _ _ _ M2) as [slots2 A2]. pose proof (mv_next _ _ _ _ _ M2) as Hn2. cbn in Hn2.
    apply device_inv_backend; [done|by exists k, slots2|split_and!; [done|by etrans|set_solver]|].
    cbn. rewrite length_drop. lia.
Qed.

Lemma device_step s s' :
  0 < pb <= U32_MAX → step qs s s' → inv qq qs pb s → device_inv s →
  Z.of_nat (length (queued s')) < U64_MAX → device_inv s'.
Proof.
  intros Hpb Hst I D Hb. destruct Hst as [| |s K rings view rs' tr' rings' b| | |s rings view rs' tr' rings' b ]; cbn in Hb.
  - eapply device_inv_same; [exact D|done..|cbn; lia].
  - eapply device_inv_same; [exact D|done..|cbn; lia].
  - eapply device_inv_same; [exact D|done|done|cbn; set_solver|cbn; rewrite length_app, length_drop; lia].
  - by eapply device_pop.
  - eapply device_submit; [done|apply (v_queued _ _ _ _ I)|done|done].
  - eapply device_inv_same; [exact D|done..|]. cbn.
    destruct (parent_response_cases _ _ _ _ _ _ _ _ (v_responder _ _ _ _ I) ltac:(eassumption)) as (_ & _ & -> & _).
    lia.
Qed.

Lemma steps_queued s s' : rtc (step qs) s s' → (length (queued s) <= length (queued s'))%nat.
Proof.
  induction 1 as [|s1 s2 s3 H12 _ IH]; [done|]. etrans; [|exact IH].
  destruct H12; cbn; rewrite ?length_app; lia.
Qed.

Lemma device_steps s s' :
  0 < pb <= U32_MAX → rtc (step qs) s s' → inv qq qs pb s → device_inv s →
  Z.of_nat (length (writes s')) < U32_MAX → Z.of_nat (length (queued s')) < U64_MAX →
  inv qq qs pb s' ∧ device_inv s'.
Proof.
  intros Hpb. induction 1 as [|s1 s2 s3 H12 H23 IH]; [done|]. intros I D Hw Hq.
  pose proof (steps_writes _ _ _ H23). pose proof (steps_queued _ _ H23). apply IH; [| |done|done].
  - eapply path_step_inv; [done|done|done|lia].
  - eapply device_step; [done|done|done|done|lia].
Qed.

(** A path whose backend has just been started. *)
Lemma device_start payload_bytes c1 c2 (r : R) (v : V) (t : T) cfg ring :
  runtime_inv r → (GpuBackend.start (new_backend r v t) cfg).2 = 0 →
  device_inv (DataPath.start qs qq payload_bytes c1 c2 (GpuBackend.start (new_backend r v t) cfg).1 ring).
Proof.
  intros Hr Hs. pose proof (start_linked [] (new_backend r v t) cfg ltac:(by split) ltac:(done)) as [_ L].
  destruct (GpuBackend.start _ _) as [b e] eqn:E. cbn [fst snd] in *. subst e.
  apply start_starts in E as [(_ & _ & ?)|(Hst & _ & Hn & k & slots & A & _)]; [done| |done..].
  split; cbn; [by exists k, slots|apply L; congruence|lia|by intros ? ?%elem_of_nil].
Qed.

(** The tasks of copies that were reported as done. *)
Lemma copies_tasks s l :
  inv qq qs pb s → device_inv s →
  (∀ c, c ∈ l → c ∈ queued s ∧ mkBackendCompletion (br_parent c) (br_index c) success ∈ popped s) →
  ∃ tasks, tasks ⊆ copied (queue (world (be s))) ∧
    concat (task_bytes (config_ (backend_host (be s))) <$> tasks) = copied_bytes l.
Proof.
  intros I D. induction l as [|c l IH]; intros Hl; [by exists []; split; [set_solver|]|].
  destruct IH as (tasks & Ht & Hb); [intros; apply Hl; by right|].
  destruct (Hl c ltac:(left)) as [Hq Hp].
  destruct (dv_popped s D _ Hp eq_refl) as (r & t & Hr & Hk & Hm & Hc).
  assert (r = c) as -> by (eapply (copies_unique qq qs pb s c r); done).
  apply make_copy_task_exact in Hm as (E1 & E2 & E3 & _). exists (t :: tasks). split; [set_solver|].
  cbn [fmap list_fmap concat]. rewrite Hb. unfold task_bytes, backend_host. by rewrite E1, E2, E3.
Qed.

Lemma event_tasks s e :
  inv qq qs pb s → device_inv s → Z.of_nat (length (writes s)) < U32_MAX →
  e ∈ events s → pce_result e = success →
  ∃ w target tasks, w ∈ writes s ∧ ps_wr_id (parent w) = pce_wr_id e ∧
    Z.of_nat (length (bytes w)) = pce_bytes e ∧ grant_of w target ∈ grants s ∧
    tasks ⊆ copied (queue (world (be s))) ∧
    concat (task_bytes (config_ (backend_host (be s))) <$> tasks)
      = zip (bytes w) (seqZ target (pce_bytes e)).
Proof.
  intros I D Hb He Hr. destruct (event_copied qq qs pb s e I Hb He Hr) as (w & target & Hw & _ & Hi & Hl & Hg & l & El & Hc).
  destruct (copies_tasks s l I D) as (tasks & Ht & Et).
  { intros c Hin. destruct (Hc c Hin) as (? & ? & _). done. }
  exists w, target, tasks. rewrite Et, El, Hl. by split_and!.
Qed.
End Device.

(** * On the pipeline kernel *)

Section Kernel.
Context {V T : Type} `{GpuDirectVisibilityGate V} `{PersistentCopyClock T}.

(** (C3) From the send queue to the kernel: two workers with a started GPU backend behind
    the responder, the steps of all three and of the kernel interleaved in any order, and
    whatever the outcomes of CUDA calls.  When the requester reports a work request as
    completed with success, the kernel has copied tasks that together move the bytes of
    its scatter list, in order, each byte once, to the range that the key lookup granted
    for its remote address. *)
Theorem completed_write_copied_by_kernel outcomes schedule (v : V) (t : T) cfg qq qs payload_bytes c1 c2 ring
    (s : Path (Backend CudaRuntime V T)) e :
  let '(b, status) := GpuBackend.start (new_backend (new_runtime outcomes schedule) v t) cfg in
  status = 0 → 0 <= payload_bytes → rtc (step qs) (DataPath.start qs qq payload_bytes c1 c2 b ring) s →
  Z.of_nat (length (writes s)) < U32_MAX → Z.of_nat (length (queued s)) < U64_MAX →
  e ∈ events s → pce_result e = success →
  ∃ w target tasks, w ∈ writes s ∧ ps_wr_id (parent w) = pce_wr_id e ∧
    Z.of_nat (length (bytes w)) = pce_bytes e ∧ grant_of w target ∈ grants s ∧
    tasks ⊆ kernel_copied (be s) ∧
    concat (task_bytes (config_ (backend_host (be s))) <$> tasks) = zip (bytes w) (seqZ target (pce_bytes e)).
Proof.
  destruct (GpuBackend.start _ _) as [b status] eqn:E. intros -> Hp Hr Hw Hq He Hs.
  pose proof (device_start qq qs payload_bytes c1 c2 (new_runtime outcomes schedule) v t cfg ring
    (new_runtime_inv outcomes schedule)) as D. rewrite E in D. specialize (D eq_refl).
  set (pb := payload_bytes_ (new_worker qq requester payload_bytes true)).
  destruct (device_steps qq qs pb (DataPath.start qs qq payload_bytes c1 c2 b ring) s) as [I D']; [by apply default_payload|exact Hr|by apply start_path_inv|done..|].
  exact (event_tasks qq qs pb s e I D' Hw He Hs).
Qed.
End Kernel.

(** ** A run *)

Section Run.
#[local] Existing Instance identity_resolver.
#[local] Existing Instance identity_resolver_laws.
#[local] Existing Instance gate_always.
#[local] Existing Instance clock_ten.

Definition path_config : Config := mkConfig 0 64 4096 64 kHostBatch 1000.
(** The kernel takes three tasks in, copies them and writes their completions back. *)
Definition path_schedule : list (list WarpPipeline.Event) :=
  [[]; (WarpPipeline.ev_ingress <$> [0; 1; 2; 0])%nat ++ WarpPipeline.ev_egress 0 :: (WarpPipeline.ev_copy <$> [0; 0; 0; 1; 1; 1; 2; 2; 2])%nat ++
       (WarpPipeline.ev_egress <$> [0; 1; 2; 0; 0; 0; 0])%nat].
Definition path_backend : Backend CudaRuntime unit Z :=
  (GpuBackend.start (new_backend (new_runtime [] path_schedule) tt 0) path_config).1.
Definition path_begin : Path (Backend CudaRuntime unit Z) :=
  DataPath.start 11 10 4 8 8 path_backend (cell_ring demo_send_cell).
Definition path_submitted : Path (Backend CudaRuntime unit Z) :=
  play_submit (play_receive (play_receive (play_receive (play_send (play_send (play_send path_begin)))))).
Definition path_end : Path (Backend CudaRuntime unit Z) := play_answer (play_respond (play_pop path_submitted)).

Lemma path_popped :
  (try_pop_completion_batch (be path_submitted) kBackendBatchCapacity).2
  = (λ i, mkBackendCompletion 42949672961 i success) <$> [0; 1; 2].
Proof. by vm_compute. Qed.

Lemma path_run : rtc (step 11) path_begin path_end.
Proof.
  transitivity path_submitted.
  - unfold path_submitted. do 3 (eapply rtc_l; [apply play_send_step|]).
    do 3 (eapply rtc_l; [apply play_receive_step|]). apply rtc_once, play_submit_step.
  - unfold path_end. eapply rtc_l; [apply play_pop_step; rewrite path_popped; by repeat constructor|].
    eapply rtc_l; [apply play_respond_step|]. apply rtc_once, play_answer_step.
Qed.

Lemma completed_write_copied_by_kernel_witness :
  events path_end = [mkParentCompletion 42949672961 7 7 3 success] ∧
  ∃ w target tasks, w ∈ writes path_end ∧ ps_wr_id (parent w) = 7 ∧ tasks ⊆ kernel_copied (be path_end) ∧
    concat (task_bytes (config_ (backend_host (be path_end))) <$> tasks) = zip (bytes w) (seqZ target 7).
Proof.
  assert (events path_end = [mkParentCompletion 42949672961 7 7 3 success]) as He by by vm_compute.
  split; [exact He|].
  pose proof (completed_write_copied_by_kernel [] path_schedule tt 0 path_config 10 11 4 8 8
    (cell_ring demo_send_cell) path_end (mkParentCompletion 42949672961 7 7 3 success)) as P.
  assert ((GpuBackend.start (new_backend (new_runtime [] path_schedule) tt 0) path_config).2 = 0) as Es by by vm_compute.
  destruct (GpuBackend.start (new_backend (new_runtime [] path_schedule) tt 0) path_config) as [b status] eqn:E.
  cbn [snd] in Es.
  destruct P as (w & target & tasks & Hw & Hi & _ & _ & Ht & Hb).
  - exact Es.
  - by vm_compute.
  - assert (path_begin = DataPath.start 11 10 4 8 8 b (cell_ring demo_send_cell)) as <-.
    { unfold path_begin, path_backend. by rewrite E. }
    exact path_run.
  - by vm_compute.
  - by vm_compute.
  - rewrite He. left.
  - reflexivity.
  - exists w, target, tasks. split; [exact Hw|]. split; [exact Hi|]. split; [exact Ht|exact Hb].
Defined.
End Run.
End GpuDataPath.
