(* ===== verification/CopySetup.v ===== *)
(** Configurations and memory of the persistent copy engine (src/gpu/persistent_copy.cu and
    .hpp): the models by name, the sizes and the layout of the mapped memory of their
    queues, [MappedPinnedMemory], the validation of a configuration, the initialisation of
    the device and [PersistentCopyLifecycle].  Results of CUDA calls are arguments. *)

From stdpp Require Import strings functions.
From S2P Require Import Prelude CopyHost CudaApi WarpQueue.
Import Copy CudaApi.
#[local] Open Scope Z_scope.

Module CopySetup.

Definition cuda_status (status : cudaError_t) : Z :=
  match status with
  | cudaSuccess => 0
  | cudaErrorInvalidValue | cudaErrorInvalidDevice | cudaErrorInvalidResourceHandle => EINVAL
  | cudaErrorMemoryAllocation => ENOMEM
  | cudaErrorNoDevice | cudaErrorInsufficientDriver => ENODEV
  | cudaErrorNotSupported => EOPNOTSUPP
  | cudaErrorOther => EIO
  end.

Definition driver_status (status : CUresult) : Z :=
  match status with
  | CUDA_SUCCESS => 0
  | CUDA_ERROR_INVALID_VALUE | CUDA_ERROR_INVALID_DEVICE | CUDA_ERROR_INVALID_HANDLE => EINVAL
  | CUDA_ERROR_OUT_OF_MEMORY => ENOMEM
  | CUDA_ERROR_NO_DEVICE | CUDA_ERROR_SYSTEM_DRIVER_MISMATCH => ENODEV
  | CUDA_ERROR_NOT_SUPPORTED => EOPNOTSUPP
  | CUDA_ERROR_INVALID_CONTEXT | CUDA_ERROR_OTHER => EIO
  end.

(** * Models *)

(** The last constructor stands for the other values of the enumeration's type. *)
Inductive PersistentCopyModel : Set :=
| direct_atomic | dynamic_sharded_spsc | static_partition_spsc | warp_specialized | warp_specialized_pipeline
| unknown_model (value : Z).

Definition persistent_copy_model_name (m : PersistentCopyModel) : string :=
  match m with
  | direct_atomic => "direct_atomic"
  | dynamic_sharded_spsc => "dynamic_sharded_spsc"
  | static_partition_spsc => "static_partition_spsc"
  | warp_specialized => "warp_specialized"
  | warp_specialized_pipeline => "warp_specialized_pipeline"
  | unknown_model _ => "unknown"
  end.

Definition models : list PersistentCopyModel :=
  [direct_atomic; dynamic_sharded_spsc; static_partition_spsc; warp_specialized; warp_specialized_pipeline].

Fixpoint find_model (name : string) (candidates : list PersistentCopyModel) : result PersistentCopyModel :=
  match candidates with
  | [] => Err EINVAL
  | m :: candidates => if decide (name = persistent_copy_model_name m) then Ok m else find_model name candidates
  end.
(** [None] is a null pointer. *)
Definition parse_persistent_copy_model (name : option string) : result PersistentCopyModel :=
  match name with None => Err EINVAL | Some name => find_model name models end.

(** * Sizes *)

Definition is_supported_device_batch (value : Z) : bool :=
  (value =? 1) || (value =? 2) || (value =? 4) || (value =? 8) || (value =? 16) || (value =? 32).
Definition is_supported_copy_warps (value : Z) : bool :=
  (value =? 4) || (value =? 8) || (value =? 16) || (value =? 32).

(** Each queue has one or more control blocks of 64 bytes, then its task slots, then its
    completion slots. *)
Definition sizeof_task_slot : Z := 32.
Definition checked_size (control_bytes per_slot_bytes capacity : Z) : option Z :=
  if (U64_MAX - control_bytes) / per_slot_bytes <? capacity then None
  else Some (u64 (control_bytes + u64 (capacity * per_slot_bytes))).

(** What a checked size bounds. *)
Lemma checked_size_capacity c p n size : 0 <= c → 48 <= p → checked_size c p n = Some size → n < 2 ^ 60.
Proof.
  intros Hc Hp. unfold checked_size. destruct (_ <? _) eqn:E; [done|]. apply Z.ltb_ge in E. intros _.
  assert ((U64_MAX - c) / p <= U64_MAX / 48); [|assert (U64_MAX / 48 < 2 ^ 60) by reflexivity; lia].
  transitivity (U64_MAX / p); [apply Z.div_le_mono; lia|]. apply Z.div_le_compat_l; [|lia]. done.
Qed.
Lemma power_of_two_nat n : WarpQueue.is_power_of_two (Z.of_nat n) = true → Z.of_nat n < 2 ^ 60 → ∃ k, n = (2 ^ k)%nat.
Proof.
  unfold WarpQueue.is_power_of_two. intros [Hp0 Hp]%andb_true_iff Hmax. bool_hyps.
  apply (pow2_nat _ (Z.log2 (Z.of_nat n))); [|apply Z.log2_nonneg].
  rewrite u64_small in Hp by (unfold is_u64; lia). apply pow2_of_land; lia.
Qed.

Definition direct_atomic_allocation_size (capacity : Z) : option Z :=
  if negb (WarpQueue.is_power_of_two capacity) then None else checked_size 64 (32 + 32) capacity.

Definition dynamic_sharded_spsc_allocation_size (capacity lane_count : Z) : option Z :=
  if negb (is_supported_copy_warps lane_count) || negb (WarpQueue.is_power_of_two capacity)
     || (capacity <? lane_count) || negb (capacity mod lane_count =? 0)
     || negb (WarpQueue.is_power_of_two (capacity / lane_count))
  then None else checked_size (lane_count * 64) (32 + 16) capacity.

Definition static_partition_spsc_allocation_size (capacity copy_warps : Z) : option Z :=
  if negb (is_supported_copy_warps copy_warps) || negb (WarpQueue.is_power_of_two capacity)
     || (capacity <? copy_warps) || negb (Z.land capacity (copy_warps - 1) =? 0)
  then None else checked_size 64 (32 + 32) capacity.

(** The bytes of mapped memory and of shared memory. *)
Definition warp_specialized_allocation_size (capacity copy_warps shared_queue_depth : Z) : option (Z * Z) :=
  if (copy_warps =? 0) || (30 <? copy_warps) || negb (WarpQueue.is_power_of_two capacity)
     || (capacity <? Z.of_nat WarpQueue.kWarpSpecializedMetaBatch)
     || negb (WarpQueue.is_supported_shared_queue_depth shared_queue_depth)
     || ((U64_MAX - 64) / (32 + 16) <? capacity) || ((U64_MAX - 64) / (48 + 32) <? shared_queue_depth)
  then None
  else Some (u64 (64 + u64 (capacity * (32 + 16))), u64 (64 + u64 (shared_queue_depth * (48 + 32)))).

(** * Mapped memory *)

(** Addresses; 0 is a null pointer. *)
Record MappedPinnedMemory := mkPinned { host_data_ : Z; device_data_ : Z; size_ : Z }.
Definition no_memory : MappedPinnedMemory := mkPinned 0 0 0.
Definition memory_empty (m : MappedPinnedMemory) : bool := host_data_ m =? 0.

(** The result and the pointer of [cudaHostAlloc] and of [cudaHostGetDevicePointer], and what
    is freed again. *)
Definition pinned_allocate (m : MappedPinnedMemory) (bytes : Z) (allocation mapping : cudaError_t * Z)
  : MappedPinnedMemory * Z * list Z :=
  if (bytes =? 0) || negb (memory_empty m) then (m, EINVAL, [])
  else if negb (bool_decide (allocation.1 = cudaSuccess)) then (m, cuda_status allocation.1, [])
  else if negb (bool_decide (mapping.1 = cudaSuccess)) then (m, cuda_status mapping.1, [allocation.2])
  else (mkPinned allocation.2 mapping.2 bytes, 0, []).

Definition pinned_reset (m : MappedPinnedMemory) (freed : cudaError_t) : MappedPinnedMemory * Z * list Z :=
  if host_data_ m =? 0 then (no_memory, 0, []) else (no_memory, cuda_status freed, [host_data_ m]).

(** The move assignment from another object: what the two are after it, and what was freed. *)
Definition pinned_assign (m other : MappedPinnedMemory) (freed : cudaError_t)
  : MappedPinnedMemory * MappedPinnedMemory * list Z :=
  let '(_, _, released) := pinned_reset m freed in (other, no_memory, released).

(** [launch] is the outcome of the launch of the kernel that copies one task. *)
Definition launch_persistent_copy_core_test (stage_buffer_base : Z) (t : CopyTask) (access_counts_address launch : Z) : Z :=
  if (stage_buffer_base =? 0) || (target_address t =? 0) || (task_length t =? 0) || (access_counts_address =? 0)
  then EINVAL else launch.

(** The addresses of the task slots and of the completion slots in memory at [base]. *)
Definition task_slots_at (base controls : Z) : Z := base + 64 * controls.
Definition completion_slots_at (base controls capacity : Z) : Z :=
  task_slots_at base controls + capacity * sizeof_task_slot.

(** * Configuration *)

Record PersistentCopyConfig := mkCopyConfig {
  model : PersistentCopyModel; copy_device_ordinal : Z; copy_warps : Z; device_batch : Z; shared_queue_depth : Z;
  payload_bytes : Z; parent_wr_bytes : Z; outstanding_capacity : Z; config_host_batch : Z; warmup_tasks : Z;
  iterations : Z;
}.

Definition known_model (m : PersistentCopyModel) : bool := match m with unknown_model _ => false | _ => true end.

Definition validate_persistent_copy_config (c : PersistentCopyConfig) : Z :=
  if negb (known_model (model c)) then EINVAL
  else if (payload_bytes c =? 0) || (kPersistentCopyMaxPayloadBytes <? payload_bytes c)
     || (parent_wr_bytes c =? 0) || negb (WarpQueue.is_power_of_two (outstanding_capacity c))
     || (config_host_batch c =? 0) || (outstanding_capacity c <? config_host_batch c)
     || negb (is_supported_device_batch (device_batch c)) || (outstanding_capacity c <? device_batch c)
     || (copy_warps c =? 0) || (32 <? copy_warps c) || (warmup_tasks c =? 0) || (iterations c =? 0)
  then EINVAL
  else
    let valid :=
      match model c with
      | direct_atomic => is_supported_copy_warps (copy_warps c)
      | dynamic_sharded_spsc =>
          bool_decide (is_Some (dynamic_sharded_spsc_allocation_size (outstanding_capacity c) (copy_warps c)))
      | static_partition_spsc =>
          bool_decide (is_Some (static_partition_spsc_allocation_size (outstanding_capacity c) (copy_warps c)))
      | warp_specialized =>
          (device_batch c =? Z.of_nat WarpQueue.kWarpSpecializedMetaBatch) &&
          bool_decide (is_Some (warp_specialized_allocation_size (outstanding_capacity c) (copy_warps c)
            (shared_queue_depth c)))
      | warp_specialized_pipeline =>
          (device_batch c =? Z.of_nat WarpQueue.kWarpSpecializedMetaBatch) &&
          bool_decide (is_Some (WarpQueue.warp_specialized_pipeline_allocation_size (outstanding_capacity c)
            (copy_warps c) (shared_queue_depth c)))
      | unknown_model _ => false
      end in
    if valid then 0 else EINVAL.

(** The answers of the CUDA calls that initialise a device: the number of devices, the
    selection, the properties with whether host memory can be mapped, and the first call in
    the context. *)
Record InitOutcome := mkInit {
  device_count : cudaError_t * Z; set_device : cudaError_t; properties : cudaError_t * bool; context : cudaError_t;
}.
Definition initialize_persistent_copy_device (device_ordinal : Z) (o : InitOutcome) : Z :=
  if negb (bool_decide ((device_count o).1 = cudaSuccess)) then cuda_status (device_count o).1
  else if u32 (device_count o).2 <=? device_ordinal then EINVAL
  else if negb (bool_decide (set_device o = cudaSuccess)) then cuda_status (set_device o)
  else if negb (bool_decide ((properties o).1 = cudaSuccess)) then cuda_status (properties o).1
  else if negb (properties o).2 then EOPNOTSUPP
  else cuda_status (context o).

(** * Life cycle *)

Inductive PersistentCopyLifecycleState : Set := life_stopped | life_accepting | life_draining.
#[export] Instance life_state_eq_dec : EqDecision PersistentCopyLifecycleState.
Proof. solve_decision. Defined.

Record PersistentCopyLifecycle := mkLife {
  life_config : option PersistentCopyConfig;     (* [None] before the first start *)
  life_state : PersistentCopyLifecycleState;
  accepted_tasks : Z;
  completed_tasks : Z;
}.
Definition new_life : PersistentCopyLifecycle := mkLife None life_stopped 0 0.
(** The capacity of the default configuration is 1024. *)
Definition life_capacity (l : PersistentCopyLifecycle) : Z :=
  match life_config l with Some c => outstanding_capacity c | None => 1024 end.

Definition life_start (l : PersistentCopyLifecycle) (c : PersistentCopyConfig) : PersistentCopyLifecycle * Z :=
  if negb (bool_decide (life_state l = life_stopped)) then (l, EBUSY)
  else
    let status := validate_persistent_copy_config c in
    if negb (status =? 0) then (l, status) else (mkLife (Some c) life_accepting 0 0, 0).

Definition record_accepted (l : PersistentCopyLifecycle) (count : Z) : PersistentCopyLifecycle * Z :=
  if negb (bool_decide (life_state l = life_accepting)) || (count =? 0) then (l, EINVAL)
  else
    let outstanding := u64 (accepted_tasks l - completed_tasks l) in
    if (life_capacity l <? outstanding) || (life_capacity l - outstanding <? count) then (l, EAGAIN)
    else if U64_MAX - count <? accepted_tasks l then (l, EOVERFLOW)
    else (mkLife (life_config l) (life_state l) (u64 (accepted_tasks l + count)) (completed_tasks l), 0).

Definition record_completed (l : PersistentCopyLifecycle) (count : Z) : PersistentCopyLifecycle * Z :=
  if bool_decide (life_state l = life_stopped) || (count =? 0) || (accepted_tasks l <? completed_tasks l)
     || (u64 (accepted_tasks l - completed_tasks l) <? count)
  then (l, EINVAL)
  else (mkLife (life_config l) (life_state l) (accepted_tasks l) (u64 (completed_tasks l + count)), 0).

Definition with_life_state (l : PersistentCopyLifecycle) (st : PersistentCopyLifecycleState) : PersistentCopyLifecycle :=
  mkLife (life_config l) st (accepted_tasks l) (completed_tasks l).

Definition life_request_stop (l : PersistentCopyLifecycle) : PersistentCopyLifecycle * Z :=
  if negb (bool_decide (life_state l = life_accepting)) then (l, EINVAL) else (with_life_state l life_draining, 0).

Definition life_drained (l : PersistentCopyLifecycle) : bool := accepted_tasks l =? completed_tasks l.

Definition finish_stop (l : PersistentCopyLifecycle) : PersistentCopyLifecycle * Z :=
  if negb (bool_decide (life_state l = life_draining)) then (l, EINVAL)
  else if negb (life_drained l) then (l, EAGAIN) else (with_life_state l life_stopped, 0).

(** * Names *)

Lemma parse_model_name m : known_model m = true → parse_persistent_copy_model (Some (persistent_copy_model_name m)) = Ok m.
Proof. by destruct m. Qed.

Lemma find_model_name name candidates m :
  find_model name candidates = Ok m → name = persistent_copy_model_name m ∧ m ∈ candidates.
Proof.
  induction candidates as [|m' candidates IH]; cbn [find_model]; [done|]. case_decide as E.
  - intros [= <-]. split; [done|by left].
  - intros [? ?]%IH. split; [done|by right].
Qed.

(** Parsing and printing the name of a model are inverse to each other. *)
Theorem model_names name m :
  parse_persistent_copy_model (Some name) = Ok m ↔ known_model m = true ∧ name = persistent_copy_model_name m.
Proof.
  split.
  - intros [-> Hm]%find_model_name. split; [|done]. unfold models in Hm. by set_unfold in Hm; destruct_or!; subst.
  - intros [Hm ->]. by apply parse_model_name.
Qed.

(** * Sizes *)

Lemma checked_size_exact control per_slot capacity bytes :
  0 <= control <= 4096 → 0 < per_slot → 0 <= capacity → checked_size control per_slot capacity = Some bytes →
  bytes = control + capacity * per_slot ∧ bytes <= U64_MAX.
Proof.
  intros Hc Hp Hcap. unfold checked_size. destruct (_ <? _) eqn:E; [done|]. intros [= <-]. bool_hyps.
  assert (capacity * per_slot <= U64_MAX - control) as Hm.
  { pose proof (Z.mul_div_le (U64_MAX - control) per_slot ltac:(lia)). nia. }
  rewrite (u64_small (capacity * per_slot)), u64_small by ulia. split; [done|lia].
Qed.

(** The bytes of mapped memory, the number of control blocks and the size of a completion
    slot of the queue of each model. *)
Definition queue_layout (m : PersistentCopyModel) (capacity copy_warps depth : Z) : option Z * Z * Z :=
  match m with
  | direct_atomic => (direct_atomic_allocation_size capacity, 1, 32)
  | dynamic_sharded_spsc => (dynamic_sharded_spsc_allocation_size capacity copy_warps, copy_warps, 16)
  | static_partition_spsc => (static_partition_spsc_allocation_size capacity copy_warps, 1, 32)
  | warp_specialized => (fst <$> warp_specialized_allocation_size capacity copy_warps depth, 1, 16)
  | warp_specialized_pipeline =>
      (fst <$> WarpQueue.warp_specialized_pipeline_allocation_size capacity copy_warps depth, 1, 16)
  | unknown_model _ => (None, 0, 0)
  end.

Lemma copy_warps_range n : is_supported_copy_warps n = true → 4 <= n <= 32.
Proof. unfold is_supported_copy_warps. intros H. bool_hyps. lia. Qed.

(** The three parts of the memory lie one after the other and fill it. *)
Lemma queue_layout_exact m capacity copy_warps depth bytes controls slot base :
  0 <= capacity → queue_layout m capacity copy_warps depth = (Some bytes, controls, slot) →
  completion_slots_at base controls capacity + capacity * slot = base + bytes ∧ bytes <= U64_MAX ∧
  0 < controls ∧ 0 < slot.
Proof.
  intros Hc E. unfold completion_slots_at, task_slots_at, sizeof_task_slot.
  destruct m; cbn [queue_layout] in E; [| | | | |done].
  - injection E as E <- <-. unfold direct_atomic_allocation_size in E. destruct (negb _) in E; [done|].
    apply checked_size_exact in E as [-> ?]; lia.
  - injection E as E <- <-. unfold dynamic_sharded_spsc_allocation_size in E.
    destruct (_ || _ || _ || _ || _) eqn:Eg in E; [done|]. bool_hyps.
    pose proof (copy_warps_range copy_warps ltac:(done)). apply checked_size_exact in E as [-> ?]; [|lia..]. lia.
  - injection E as E <- <-. unfold static_partition_spsc_allocation_size in E.
    destruct (_ || _ || _ || _) eqn:Eg in E; [done|]. apply checked_size_exact in E as [-> ?]; lia.
  - injection E as E <- <-. unfold warp_specialized_allocation_size in E.
    destruct (_ || _ || _ || _ || _ || _ || _) eqn:Eg in E; [done|]. injection E as <-. cbn [fst]. bool_hyps.
    pose proof (checked_size_exact 64 48 capacity (u64 (64 + u64 (capacity * 48)))) as X.
    unfold checked_size in X. rewrite (proj2 (Z.ltb_ge _ _)) in X by done.
    change (32 + 16) with 48. destruct X as [-> ?]; [lia..|done|]. lia.
  - injection E as E <- <-. unfold WarpQueue.warp_specialized_pipeline_allocation_size in E.
    destruct (negb _) in E; [done|]. destruct (_ || _ || _ || _ || _ || _) eqn:Eg in E; [done|].
    destruct (_ <? _) in E; [done|]. destruct (_ <=? _) in E; [|done]. injection E as <-. cbn [fst]. bool_hyps.
    pose proof (checked_size_exact 64 48 capacity (u64 (64 + u64 (capacity * 48)))) as X.
    unfold checked_size in X. rewrite (proj2 (Z.ltb_ge _ _)) in X by done.
    unfold WarpQueue.sizeof_control, WarpQueue.host_slot_bytes. change (32 + 16) with 48. destruct X as [-> ?]; [lia..|done|]. lia.
Qed.

(** A validated configuration is one the queue of its model can be allocated for, with slot
    arrays that lie one after the other within the memory asked for.  For [direct_atomic]
    this takes a capacity of at most [2 ^ 57]: the validation does not ask for the size of
    its memory. *)
Theorem validated_config_fits c base :
  0 <= outstanding_capacity c → validate_persistent_copy_config c = 0 →
  (model c = direct_atomic → outstanding_capacity c <= 2 ^ 57) →
  ∃ bytes controls slot,
    queue_layout (model c) (outstanding_capacity c) (copy_warps c) (shared_queue_depth c) = (Some bytes, controls, slot) ∧
    is_supported_device_batch (device_batch c) = true ∧ device_batch c <= outstanding_capacity c ∧
    completion_slots_at base controls (outstanding_capacity c) + outstanding_capacity c * slot = base + bytes ∧
    bytes <= U64_MAX.
Proof.
  intros Hc Hv Hd. unfold validate_persistent_copy_config in Hv. destruct (negb (known_model _)) in Hv; [done|].
  destruct (_ || _ || _ || _ || _ || _ || _ || _ || _ || _ || _ || _) eqn:Eg in Hv; [done|]. bool_hyps.
  destruct (match model c with direct_atomic => _ | _ => _ end) eqn:Em in Hv; [|done].
  assert (∃ bytes controls slot, queue_layout (model c) (outstanding_capacity c) (copy_warps c) (shared_queue_depth c)
            = (Some bytes, controls, slot)) as (bytes & controls & slot & E).
  { destruct (model c) eqn:E; cbn [queue_layout]; bool_hyps; try (match goal with H : is_Some _ |- _ => destruct H as [x Ex] end); try done.
    - unfold direct_atomic_allocation_size, checked_size. rewrite (proj2 (negb_false_iff _)) by done.
      specialize (Hd eq_refl). rewrite (proj2 (Z.ltb_ge _ _)); [by eexists _, _, _|].
      apply Z.div_le_lower_bound; [done|]. unfold U64_MAX. lia.
    - rewrite Ex. by eexists _, _, _.
    - rewrite Ex. by eexists _, _, _.
    - rewrite Ex. by eexists _, _, _.
    - rewrite Ex. by eexists _, _, _. }
  pose proof (queue_layout_exact _ _ _ _ _ _ _ base Hc E) as (? & ? & ? & ?). by exists bytes, controls, slot.
Qed.

Definition sample_config (m : PersistentCopyModel) (capacity : Z) : PersistentCopyConfig :=
  mkCopyConfig m 0 4 32 8 8192 65536 capacity 32 1000 10000.

Lemma validated_config_fits_witness :
  ∃ bytes, (queue_layout static_partition_spsc 1024 4 8).1.1 = Some bytes ∧
    completion_slots_at 4096 1 1024 + 1024 * 32 = 4096 + bytes.
Proof.
  destruct (validated_config_fits (sample_config static_partition_spsc 1024) 4096) as (bytes & controls & slot & E & _ & _ & F & _).
  - vm_compute. discriminate.
  - vm_compute. reflexivity.
  - discriminate.
  - exists bytes. change (queue_layout static_partition_spsc 1024 4 8 = (Some bytes, controls, slot)) in E.
    assert (controls = 1) as -> by (pose proof (f_equal (λ x, x.1.2) E); done).
    assert (slot = 32) as -> by (pose proof (f_equal snd E); done). rewrite E. split; [reflexivity|exact F].
Defined.

(** The validation accepts a [direct_atomic] configuration that cannot be allocated. *)
Lemma direct_atomic_too_large :
  validate_persistent_copy_config (mkCopyConfig direct_atomic 0 4 32 0 8192 65536 (2 ^ 60) 32 1000 10000) = 0 ∧
  direct_atomic_allocation_size (2 ^ 60) = None.
Proof. split; vm_compute; reflexivity. Qed.

(** * Life cycle *)

Inductive LifeCall :=
| life_call_start (c : PersistentCopyConfig) | life_call_accept (count : Z) | life_call_complete (count : Z)
| life_call_stop | life_call_finish.

Definition life_call (l : PersistentCopyLifecycle) (call : LifeCall) : PersistentCopyLifecycle * Z :=
  match call with
  | life_call_start c => life_start l c
  | life_call_accept n => record_accepted l n
  | life_call_complete n => record_completed l n
  | life_call_stop => life_request_stop l
  | life_call_finish => finish_stop l
  end.

(** The values a call passes are 64-bit numbers. *)
Definition life_args (call : LifeCall) : Prop :=
  match call with
  | life_call_start c => is_u64 (outstanding_capacity c)
  | life_call_accept n | life_call_complete n => is_u64 n
  | _ => True
  end.

(** The accounts of a life cycle: what was accepted and completed since the last start. *)
Definition account (totals : Z * Z) (call : LifeCall) (status : Z) : Z * Z :=
  if negb (status =? 0) then totals
  else match call with
  | life_call_start _ => (0, 0)
  | life_call_accept n => (totals.1 + n, totals.2)
  | life_call_complete n => (totals.1, totals.2 + n)
  | _ => totals
  end.

Fixpoint life_run (l : PersistentCopyLifecycle) (totals : Z * Z) (calls : list LifeCall)
  : PersistentCopyLifecycle * (Z * Z) :=
  match calls with
  | [] => (l, totals)
  | call :: calls => let '(l, status) := life_call l call in life_run l (account totals call status) calls
  end.

Record life_inv (l : PersistentCopyLifecycle) (totals : Z * Z) : Prop := {
  li_totals : (accepted_tasks l, completed_tasks l) = totals;
  li_counts : 0 <= completed_tasks l <= accepted_tasks l ∧ accepted_tasks l <= U64_MAX;
  li_capacity : is_u64 (life_capacity l) ∧ accepted_tasks l - completed_tasks l <= life_capacity l;
  li_stopped : life_state l = life_stopped → accepted_tasks l = completed_tasks l;
}.

Lemma life_call_inv l totals call :
  life_inv l totals → life_args call →
  let '(l', status) := life_call l call in life_inv l' (account totals call status).
Proof.
  intros [<- Hc Hcap Hs] Ha. destruct call as [c|n|n| |]; cbn [life_call life_args] in *.
  - unfold life_start. destruct (negb (bool_decide _)); [by split|]. cbv zeta.
    destruct (_ =? 0) eqn:E; cbn [negb]; [split; cbn; try done; ulia|]. unfold account. rewrite E. by split.
  - unfold record_accepted. destruct (_ || _) eqn:E0; [by split|]. bool_hyps.
    rewrite (u64_small (accepted_tasks l - completed_tasks l)) by ulia.
    destruct (_ || _) eqn:E1; [by split|]. destruct (_ <? accepted_tasks l) eqn:E2; [by split|]. bool_hyps.
    rewrite u64_small by ulia. split; cbn; [done|ulia| |congruence]. unfold life_capacity in *. cbn. ulia.
  - unfold record_completed. destruct (_ || _ || _ || _) eqn:E0; [by split|]. bool_hyps.
    rewrite u64_small in * by ulia. rewrite u64_small by ulia.
    split; cbn; [done|ulia| |congruence]. unfold life_capacity in *. cbn. ulia.
  - unfold life_request_stop. destruct (negb _); [by split|]. by split.
  - unfold finish_stop, life_drained. destruct (negb _); [by split|]. destruct (negb _) eqn:E; [by split|]. bool_hyps.
    split; cbn; try done.
Qed.

Lemma life_run_inv calls : ∀ l totals, Forall life_args calls → life_inv l totals →
  life_inv (life_run l totals calls).1 (life_run l totals calls).2.
Proof.
  induction calls as [|call calls IH]; intros l totals F I; [done|]. cbn [life_run].
  apply Forall_cons in F as [Fc F]. pose proof (life_call_inv l totals call I Fc) as I1.
  destruct (life_call l call) as [l1 status]. by apply IH.
Qed.

(** (C23) Whatever the calls, the life cycle counts exactly what was accepted and completed since
    the last start, never more completed than accepted and never more outstanding than the
    capacity, without wrap-around, and is stopped only when everything accepted was
    completed. *)
Theorem lifecycle_accounts calls :
  Forall life_args calls →
  let '(l, totals) := life_run new_life (0, 0) calls in
  (accepted_tasks l, completed_tasks l) = totals ∧ 0 <= totals.2 <= totals.1 ∧ totals.1 <= U64_MAX ∧
  totals.1 - totals.2 <= life_capacity l ∧ (life_state l = life_stopped → totals.1 = totals.2).
Proof.
  intros F. pose proof (life_run_inv calls new_life (0, 0) F) as I.
  destruct (life_run new_life (0, 0) calls) as [l totals]. cbn [fst snd] in I.
  destruct I as [<- ? ? ?]; [by split; vm_compute|]. cbn. tauto.
Qed.

Lemma lifecycle_accounts_witness :
  let '(l, totals) := life_run new_life (0, 0)
    [life_call_start (sample_config direct_atomic 1024); life_call_accept 5; life_call_stop; life_call_complete 5;
     life_call_finish] in
  life_state l = life_stopped ∧ totals = (5, 5) ∧ (accepted_tasks l, completed_tasks l) = totals.
Proof.
  set (calls := [life_call_start _; _; _; _; _]).
  assert (Forall life_args calls) as F by (repeat constructor; vm_compute; discriminate).
  pose proof (lifecycle_accounts calls F) as A.
  assert (life_state (life_run new_life (0, 0) calls).1 = life_stopped ∧ (life_run new_life (0, 0) calls).2 = (5, 5))
    as [E1 E2] by (split; vm_compute; reflexivity).
  destruct (life_run new_life (0, 0) calls) as [l totals]. cbn [fst snd] in *.
  split; [exact E1|]. split; [exact E2|]. apply A.
Defined.

(** * Owners of mapped memory *)

(** Calls on a family of objects, with what CUDA answers; a destructor is a reset. *)
Inductive PinnedCall :=
| pinned_call_allocate (i : nat) (bytes : Z) (allocation mapping : cudaError_t * Z)
| pinned_call_reset (i : nat) (freed : cudaError_t)
| pinned_call_assign (i j : nat) (freed : cudaError_t).

(** The objects, what [cudaHostAlloc] gave and what [cudaFreeHost] was called with. *)
Record Pinned := mkPinnedWorld { objects : nat → MappedPinnedMemory; given : list Z; returned : list Z }.

Definition pinned_call (p : Pinned) (c : PinnedCall) : Pinned :=
  match c with
  | pinned_call_allocate i bytes allocation mapping =>
      let called := negb ((bytes =? 0) || negb (memory_empty (objects p i))) && bool_decide (allocation.1 = cudaSuccess) in
      let '(m, _, freed) := pinned_allocate (objects p i) bytes allocation mapping in
      mkPinnedWorld (<[i := m]> (objects p)) (if called then allocation.2 :: given p else given p) (freed ++ returned p)
  | pinned_call_reset i st =>
      let '(m, _, freed) := pinned_reset (objects p i) st in
      mkPinnedWorld (<[i := m]> (objects p)) (given p) (freed ++ returned p)
  | pinned_call_assign i j st =>
      if (i =? j)%nat then p
      else let '(m, other, freed) := pinned_assign (objects p i) (objects p j) st in
           mkPinnedWorld (<[j := other]> (<[i := m]> (objects p))) (given p) (freed ++ returned p)
  end.

(** The calls concern the first [n] objects, and a pointer given is not null. *)
Definition pinned_ok (n : nat) (c : PinnedCall) : bool :=
  match c with
  | pinned_call_allocate i _ allocation _ => (i <? n)%nat && negb (allocation.2 =? 0)
  | pinned_call_reset i _ => (i <? n)%nat
  | pinned_call_assign i j _ => (i <? n)%nat && (j <? n)%nat
  end.

Definition owned (m : MappedPinnedMemory) : list Z := if memory_empty m then [] else [host_data_ m].

Lemma owned_reset m st : (pinned_reset m st).2 = owned m ∧ (pinned_reset m st).1.1 = no_memory.
Proof. unfold pinned_reset, owned, memory_empty. by destruct (_ =? 0). Qed.

Lemma owned_made a b c : a ≠ 0 → owned (mkPinned a b c) = [a].
Proof. intros Ha. unfold owned, memory_empty. cbn [host_data_]. by rewrite (proj2 (Z.eqb_neq _ _) Ha). Qed.

Lemma pinned_call_owners n p c :
  pinned_ok n c = true → given p ≡ₚ returned p ++ WarpQueue.gather owned n (objects p) →
  let p' := pinned_call p c in given p' ≡ₚ returned p' ++ WarpQueue.gather owned n (objects p').
Proof.
  intros Hok HP. destruct c as [i bytes a mp|i st|i j st]; cbn [pinned_call pinned_ok] in *; bool_hyps.
  - destruct (WarpQueue.gather_change owned n (objects p) i (pinned_allocate (objects p i) bytes a mp).1.1) as (r & P & P'); [done|].
    rewrite P in HP. revert P'. unfold pinned_allocate. destruct (_ || _) eqn:E0; cbn [negb andb fst].
    { intros P'. cbn. by rewrite P', HP. }
    bool_hyps. assert (owned (objects p i) = []) as Eo by (unfold owned; by rewrite H2). rewrite Eo in HP.
    destruct (decide (a.1 = cudaSuccess)) as [Ea|Ea]; [|rewrite !bool_decide_eq_false_2 by done; cbn; rewrite Eo; by intros ->].
    rewrite !bool_decide_eq_true_2 by done. cbn [negb]. destruct (negb _); cbn [fst given returned objects].
    + rewrite Eo. intros ->. rewrite HP. done.
    + rewrite owned_made by done. intros ->. rewrite HP. solve_Permutation.
  - destruct (WarpQueue.gather_change owned n (objects p) i no_memory) as (r & P & P'); [done|].
    destruct (owned_reset (objects p i) st) as [E1 E2]. destruct (pinned_reset _ _) as [[m s] fr]. cbn in E1, E2 |- *. subst.
    rewrite P', HP, P. cbn. solve_Permutation.
  - destruct (i =? j)%nat eqn:E; [done|]. bool_hyps. unfold pinned_assign.
    destruct (owned_reset (objects p i) st) as [E1 _]. destruct (pinned_reset _ _) as [[m s] fr]. cbn in E1 |- *. subst fr.
    destruct (WarpQueue.gather_change owned n (objects p) i (objects p j)) as (r & P & P'); [done|].
    destruct (WarpQueue.gather_change owned n (<[i := objects p j]> (objects p)) j no_memory) as (r' & Q & Q'); [done|].
    rewrite fn_lookup_insert_ne in Q by done. rewrite Q', HP, P. cbn [owned memory_empty no_memory host_data_ app].
    rewrite P' in Q. apply Permutation_app_inv_l in Q as <-. solve_Permutation.
Qed.

(** Whatever the calls on a family of objects and whatever CUDA answers, what was allocated is
    either owned by one of the objects or was freed; and, when all pointers given are
    different, each at most once. *)
Theorem pinned_memory_owned n cs :
  Forall (λ c, pinned_ok n c = true) cs →
  let p := foldl pinned_call (mkPinnedWorld (λ _, no_memory) [] []) cs in
  given p ≡ₚ returned p ++ WarpQueue.gather owned n (objects p) ∧
  (NoDup (given p) → NoDup (returned p) ∧ ∀ i, (i < n)%nat → memory_empty (objects p i) = false →
     host_data_ (objects p i) ∉ returned p).
Proof.
  intros Hok. cbv zeta.
  assert (∀ cs p, Forall (λ c, pinned_ok n c = true) cs → given p ≡ₚ returned p ++ WarpQueue.gather owned n (objects p) →
    given (foldl pinned_call p cs) ≡ₚ returned (foldl pinned_call p cs) ++ WarpQueue.gather owned n (objects (foldl pinned_call p cs)))
    as Hrun.
  { clear. induction cs as [|c cs IH]; intros p Hok HP; [done|]. apply Forall_cons in Hok as [Hc Hcs]. cbn.
    apply IH; [done|]. by apply pinned_call_owners. }
  specialize (Hrun cs (mkPinnedWorld (λ _, no_memory) [] []) Hok). set (p := foldl _ _ cs) in *.
  assert (given p ≡ₚ returned p ++ WarpQueue.gather owned n (objects p)) as HP.
  { apply Hrun. cbn [given returned objects app]. apply Permutation_refl'. symmetry. apply elem_of_nil_inv.
    intros a (w & _ & Ha)%WarpQueue.elem_of_gather. by apply not_elem_of_nil in Ha. }
  split; [done|]. intros Hnd. rewrite HP in Hnd. apply NoDup_app in Hnd as (H1 & H2 & _). split; [done|].
  intros i Hi He Hin. apply (H2 _ Hin), WarpQueue.elem_of_gather. exists i. split; [done|]. unfold owned. rewrite He. by left.
Qed.

(** Memory is allocated, moved and freed; the second allocation cannot be mapped. *)
Lemma pinned_memory_owned_witness :
  let p := foldl pinned_call (mkPinnedWorld (λ _, no_memory) [] [])
    [pinned_call_allocate 0 64 (cudaSuccess, 4096) (cudaSuccess, 8192);
     pinned_call_allocate 1 64 (cudaSuccess, 12288) (cudaErrorNotSupported, 0);
     pinned_call_assign 1 0 cudaSuccess] in
  given p = [12288; 4096] ∧ returned p = [12288] ∧ host_data_ (objects p 1%nat) ∉ returned p.
Proof.
  split; [reflexivity|]. split; [reflexivity|].
  apply (pinned_memory_owned 2 [pinned_call_allocate 0 64 (cudaSuccess, 4096) (cudaSuccess, 8192);
     pinned_call_allocate 1 64 (cudaSuccess, 12288) (cudaErrorNotSupported, 0);
     pinned_call_assign 1 0 cudaSuccess]).
  - repeat constructor.
  - repeat (constructor; [set_solver|]). constructor.
  - lia.
  - reflexivity.
Defined.

End CopySetup.
