(* ===== verification/PartitionQueue.v ===== *)
(** The statically partitioned queue (src/gpu/persistent_copy.cu, [StaticPartitionSpscQueue] and
    [static_partition_spsc_kernel]): one ring of tasks, of which copy warp [w] takes the tasks
    with index [w] modulo the number of warps; the completion of a task has the task's own
    slot, with a sequence number that tells when it is there.

    The host and the warps run in any interleaving of the steps below; a step is what one lane
    does between two accesses that others can see.  Positions are [nat], slot arrays are
    functions of the index, as in WarpQueue.v. *)

From stdpp Require Import functions.
From S2P Require Import Prelude CopyHost WarpQueue WarpHost WarpPipeline.
From S2P Require Import WarpOrder WarpFifo WarpProgress CopySetup.
Import Copy.

Module PartitionQueue.
Import WarpQueue (slot, write_tasks, bad_task, no_completion, ring_slot_inj, ring_slot_next, write_tasks_window, total_work,
  total_work_insert).
Import WarpPipeline (remove_lane).
Import CopySetup.

(** * The queue *)

Record CompletionSlot := mkCompletion { completion : CopyCompletion; sequence : nat }.

(** [StaticPartitionSpscControl] and the two arrays of slots behind it. *)
Record Mapped := mkMapped {
  task_tail : nat;
  stop_requested : bool;
  task_slots : nat → CopyTask;
  completion_slots : nat → CompletionSlot;
}.
Definition zeroed : Mapped := mkMapped 0 false (λ _, no_task) (λ _, mkCompletion no_completion 0).

Record Queue := mkQueue {
  has_memory : bool;
  capacity : nat;
  partition_capacity : nat;
  warps_of : nat;                 (* [copy_warps_] *)
  batch_of : nat;                 (* [device_batch_] *)
  stage_base : Z;
  submit_tail : nat;
  completion_head : nat;
  running : bool;
  accepting : bool;
}.
Definition empty_queue : Queue := mkQueue false 0 0 0 0 0 0 0 false false.

(** [pinned] is the outcome of [MappedPinnedMemory::allocate]. *)
Definition allocate (q : Queue) (cap warps batch : nat) (base pinned : Z) : Queue * Z :=
  if has_memory q || negb (is_supported_device_batch (Z.of_nat batch)) || (cap <? batch)%nat || (base =? 0)
  then (q, EINVAL)
  else match static_partition_spsc_allocation_size (Z.of_nat cap) (Z.of_nat warps) with
  | None => (q, EINVAL)
  | Some _ =>
      if negb (pinned =? 0) then (q, pinned)
      else (mkQueue true cap (cap / warps) warps batch base (submit_tail q) (completion_head q)
              (running q) (accepting q), 0)
  end.

(** There is a kernel for each supported number of warps and batch; [resources] tells whether
    its resources could be queried. *)
Definition dispatch_static_partition_spsc_variant (warps batch : nat) (resources : bool) : bool :=
  if decide (warps ∈ [4; 8; 16; 32]%nat)
  then if decide (batch ∈ [1; 2; 4; 8; 16; 32]%nat) then resources else false
  else false.

Definition start (q : Queue) (m : Mapped) (resources : bool) (launch_status : Z) : Queue * Mapped * Z :=
  if negb (has_memory q) || running q then (q, m, EINVAL)
  else
    let started b := mkQueue (has_memory q) (capacity q) (partition_capacity q) (warps_of q) (batch_of q)
                       (stage_base q) 0 0 b b in
    if negb (dispatch_static_partition_spsc_variant (warps_of q) (batch_of q) resources)
    then (started false, zeroed, EINVAL)
    else (started (launch_status =? 0), zeroed, launch_status).

Definition with_positions (q : Queue) (tail head : nat) : Queue :=
  mkQueue (has_memory q) (capacity q) (partition_capacity q) (warps_of q) (batch_of q) (stage_base q)
    tail head (running q) (accepting q).
Definition with_flags (q : Queue) (r a : bool) : Queue :=
  mkQueue (has_memory q) (capacity q) (partition_capacity q) (warps_of q) (batch_of q) (stage_base q)
    (submit_tail q) (completion_head q) r a.

Definition try_submit_batch (q : Queue) (m : Mapped) (tasks : list CopyTask) : Queue * Mapped * Z * nat :=
  if negb (running q) || negb (accepting q) || (length tasks =? 0)%nat then (q, m, EINVAL, 0%nat)
  else
    let outstanding := (submit_tail q - completion_head q)%nat in
    if (capacity q <=? outstanding)%nat then (q, m, EAGAIN, 0%nat)
    else
      let available := (capacity q - outstanding)%nat in
      let count := Nat.min (length tasks) available in
      let taken := take count tasks in
      if existsb bad_task taken then (q, m, EINVAL, 0%nat)
      else
        let tail := (submit_tail q + count)%nat in
        (with_positions q tail (completion_head q),
         mkMapped tail (stop_requested m) (write_tasks (capacity q) (submit_tail q) taken (task_slots m))
           (completion_slots m), 0, count).

Definition try_poll (q : Queue) (m : Mapped) : Queue * Z * CopyCompletion :=
  if negb (has_memory q) then (q, EINVAL, no_completion)
  else
    let s := completion_slots m (slot (capacity q) (completion_head q)) in
    if negb (sequence s =? S (completion_head q))%nat then (q, EAGAIN, no_completion)
    else (with_positions q (submit_tail q) (S (completion_head q)), 0, completion s).

Definition request_stop (q : Queue) (m : Mapped) : Queue * Mapped * Z :=
  if negb (running q) || negb (accepting q) then (q, m, EINVAL)
  else (with_flags q (running q) false, mkMapped (task_tail m) true (task_slots m) (completion_slots m), 0).

Definition wait (q : Queue) (synchronized : Z) : Queue * Z :=
  if negb (running q) || accepting q then (q, EINVAL) else (with_flags q false (accepting q), synchronized).

Definition reset (q : Queue) (unpinned : Z) : Queue * Z :=
  if running q then (q, EBUSY) else (empty_queue, unpinned).

Definition drained (q : Queue) : bool := (submit_tail q =? completion_head q)%nat.

(** One task. *)
Definition try_submit (q : Queue) (m : Mapped) (t : CopyTask) : Queue * Mapped * Z :=
  let '(q, m, status, _) := try_submit_batch q m [t] in (q, m, status).
(** The destructor. *)
Definition destroy (q : Queue) (m : Mapped) (synchronized unpinned : Z) : Queue :=
  let q := if running q then (wait (request_stop q m).1.1 synchronized).1 else q in (reset q unpinned).1.

Lemma partition_destroyed q m synchronized unpinned : destroy q m synchronized unpinned = empty_queue.
Proof.
  unfold destroy, reset. destruct (running q) eqn:E; [|by rewrite E]. unfold request_stop, wait. rewrite E. cbn [negb orb].
  destruct (accepting q) eqn:Ea; cbn [negb orb fst with_flags running accepting]; rewrite ?E, ?Ea; done.
Qed.

(** Whether the completion of task [i] is there. *)
Definition sequenced (cap : nat) (m : Mapped) (i : nat) : bool :=
  (sequence (completion_slots m (slot cap i)) =? S i)%nat.

(** The next task in order is not complete, a later one is. *)
Definition head_of_line_blocked (q : Queue) (m : Mapped) : bool :=
  if negb (has_memory q) || (submit_tail q <=? completion_head q)%nat then false
  else if sequenced (capacity q) m (completion_head q) then false
  else existsb (sequenced (capacity q) m)
         (seq (S (completion_head q)) (submit_tail q - S (completion_head q))).

(** * The kernel *)

(** A copy warp: polling; with a batch of which some lanes have yet to load their task;
    copying the task of one lane after the other; with lanes that have yet to publish their
    completion; gone.  [owned] is the index of the first task of the batch. *)
Inductive Warp :=
| sp_poll (owned : nat)
| sp_load (owned count : nat) (todo : list nat) (loaded : nat → CopyTask)
| sp_copy (owned count next : nat) (loaded : nat → CopyTask)
| sp_publish (owned count : nat) (todo : list nat) (loaded : nat → CopyTask)
| sp_done (owned : nat).

(** [kCopyWarpShift]. *)
Definition copy_warp_shift (W : nat) : nat :=
  if (W =? 4)%nat then 2 else if (W =? 8)%nat then 3 else if (W =? 16)%nat then 4 else 5.

Section Kernel.
Context (W batch cap : nat).

(** What a warp does: the mapped memory and its state after it, and what it copied. *)
Definition warp_step (lane : nat) (m : Mapped) (x : Warp) : option (Mapped * Warp * list (nat * CopyTask)) :=
  match x with
  | sp_poll owned =>
      if (owned <? task_tail m)%nat
      then
        let available := S (Nat.shiftr (task_tail m - 1 - owned) (copy_warp_shift W)) in
        let count := Nat.min available batch in
        Some (m, sp_load owned count (seq 0 count) (λ _, no_task), [])
      else if stop_requested m then Some (m, sp_done owned, [])
      else None
  | sp_load owned count [] loaded => Some (m, sp_copy owned count 0 loaded, [])
  | sp_load owned count todo loaded =>
      if decide (lane ∈ todo)
      then Some (m, sp_load owned count (remove_lane lane todo)
                      (<[lane := task_slots m (slot cap (owned + lane * W))]> loaded), [])
      else None
  | sp_copy owned count next loaded =>
      if (next <? count)%nat
      then Some (m, sp_copy owned count (S next) loaded, [((owned + next * W)%nat, loaded next)])
      else Some (m, sp_publish owned count (seq 0 count) loaded, [])
  | sp_publish owned count [] _ => Some (m, sp_poll (owned + count * W), [])
  | sp_publish owned count todo loaded =>
      if decide (lane ∈ todo)
      then
        let i := (owned + lane * W)%nat in
        Some (mkMapped (task_tail m) (stop_requested m) (task_slots m)
                (<[slot cap i := mkCompletion (mkCopyCompletion (task_id (loaded lane)) task_success) (S i)]>
                   (completion_slots m)),
              sp_publish owned count (remove_lane lane todo) loaded, [])
      else None
  | sp_done _ => None
  end.

Record World := mkWorld {
  queue : Queue; mapped : Mapped; warps : nat → Warp;
  copied : list (nat * CopyTask); submitted : list CopyTask; polled : list CopyCompletion;
}.

Inductive Event := ev_submit (tasks : list CopyTask) | ev_poll | ev_stop | ev_warp (w lane : nat).

Definition step (s : World) (e : Event) : option World :=
  match e with
  | ev_submit tasks =>
      let '(q, m, status, n) := try_submit_batch (queue s) (mapped s) tasks in
      Some (mkWorld q m (warps s) (copied s) (submitted s ++ take n tasks) (polled s))
  | ev_poll =>
      let '(q, status, c) := try_poll (queue s) (mapped s) in
      Some (mkWorld q (mapped s) (warps s) (copied s) (submitted s)
              (if status =? 0 then polled s ++ [c] else polled s))
  | ev_stop =>
      let '(q, m, status) := request_stop (queue s) (mapped s) in
      Some (mkWorld q m (warps s) (copied s) (submitted s) (polled s))
  | ev_warp w lane =>
      if (w <? W)%nat
      then '(m, x, c) ← warp_step lane (mapped s) (warps s w);
           Some (mkWorld (queue s) m (<[w := x]> (warps s)) (c ++ copied s) (submitted s) (polled s))
      else None
  end.

Fixpoint run (s : World) (es : list Event) : option World :=
  match es with [] => Some s | e :: es => s' ← step s e; run s' es end.

End Kernel.

(** A queue is allocated and its kernel launched. *)
Definition launch (cap W batch : nat) (base : Z) : option World :=
  let '(q, allocated) := allocate empty_queue cap W batch base 0 in
  if negb (allocated =? 0) then None
  else
    let '(q, m, started) := start q zeroed true 0 in
    if started =? 0 then Some (mkWorld q m (λ w, sp_poll w) [] [] []) else None.

(** * The invariant *)

Import WarpHost (completion_of).
Import WarpOrder (lanes_ok, lanes_ok_seq, lanes_ok_remove, lanes_ok_lt).

(** Whether a warp has published the completion of its task [i], and whether it has copied
    the task. *)
Definition pubs (W : nat) (x : Warp) (i : nat) : Prop :=
  match x with
  | sp_poll o | sp_load o _ _ _ | sp_copy o _ _ _ | sp_done o => (i < o)%nat
  | sp_publish o c todo _ => (i < o)%nat ∨ ∃ j, (j < c)%nat ∧ i = (o + j * W)%nat ∧ j ∉ todo
  end.
Definition copied_by (W : nat) (x : Warp) (i : nat) : Prop :=
  match x with
  | sp_poll o | sp_load o _ _ _ | sp_done o => (i < o)%nat
  | sp_copy o _ k _ => (i < o + k * W)%nat
  | sp_publish o c _ _ => (i < o + c * W)%nat
  end.

Section Invariant.
Context (W batch cap : nat) (HW : W ∈ [4; 8; 16; 32]%nat) (Hb : (0 < batch)%nat) (Hcap : ∃ k, cap = (2 ^ k)%nat).

(** The tasks of warp [w] below [o] are there. *)
Record owned_ok (l : list CopyTask) (w o : nat) : Prop := {
  ow_owner : (o mod W)%nat = w;
  ow_there : ∀ i, (i < o)%nat → (i mod W)%nat = w → (i < length l)%nat;
}.
(** A batch, of which the lanes not in [todo] have loaded their tasks. *)
Record batch_ok (l : list CopyTask) (o c : nat) (todo : list nat) (f : nat → CopyTask) : Prop := {
  bt_some : (0 < c)%nat;
  bt_there : (o + (c - 1) * W < length l)%nat;
  bt_lanes : lanes_ok c todo;
  bt_loaded : ∀ j, (j < c)%nat → j ∉ todo → l !! (o + j * W)%nat = Some (f j);
}.
Definition warp_ok (l : list CopyTask) (stop : bool) (w : nat) (x : Warp) : Prop :=
  match x with
  | sp_poll o => owned_ok l w o
  | sp_load o c todo f => owned_ok l w o ∧ batch_ok l o c todo f
  | sp_copy o c k f => owned_ok l w o ∧ batch_ok l o c [] f ∧ (k <= c)%nat
  | sp_publish o c todo f => owned_ok l w o ∧ batch_ok l o c [] f ∧ lanes_ok c todo
  | sp_done o => owned_ok l w o ∧ (length l <= o)%nat ∧ stop = true
  end.

Definition pub (s : World) (i : nat) : Prop := pubs W (warps s (i mod W)) i.

Record inv (s : World) : Prop := {
  pi_queue : has_memory (queue s) = true ∧ capacity (queue s) = cap;
  pi_tail : submit_tail (queue s) = length (submitted s) ∧ task_tail (mapped s) = length (submitted s);
  pi_stop : stop_requested (mapped s) = true → accepting (queue s) = false;
  pi_window : (completion_head (queue s) <= length (submitted s) <= completion_head (queue s) + cap)%nat;
  pi_tasks : ∀ i t, submitted s !! i = Some t → (completion_head (queue s) <= i)%nat →
    task_slots (mapped s) (slot cap i) = t;
  pi_polled : polled s = completion_of <$> take (completion_head (queue s)) (submitted s);
  pi_warps : ∀ w, (w < W)%nat → warp_ok (submitted s) (stop_requested (mapped s)) w (warps s w);
  pi_head : ∀ i, (i < completion_head (queue s))%nat → pub s i;
  pi_sequence : ∀ i, (completion_head (queue s) <= i < completion_head (queue s) + cap)%nat →
    sequence (completion_slots (mapped s) (slot cap i)) = S i ↔ pub s i;
  pi_completion : ∀ i t, submitted s !! i = Some t → (completion_head (queue s) <= i)%nat → pub s i →
    completion (completion_slots (mapped s) (slot cap i)) = completion_of t;
  pi_copied : ∀ i t, (i, t) ∈ copied s ↔ submitted s !! i = Some t ∧ copied_by W (warps s (i mod W)) i;
  pi_once : NoDup (copied s).*1;
}.

(** ** Indices *)

Lemma W_pos : (0 < W)%nat.
Proof. clear -HW. set_unfold in HW. lia. Qed.
Lemma partition_owner_lt i : (i mod W < W)%nat.
Proof. pose proof W_pos as HW0. clear -HW0. apply Nat.mod_upper_bound. lia. Qed.
Lemma lane_mod o j : ((o + j * W) mod W = o mod W)%nat.
Proof. apply Nat.Div0.mod_add. Qed.
Lemma lane_exists o i : (i mod W = o mod W)%nat → (o <= i)%nat → ∃ j, i = (o + j * W)%nat.
Proof.
  intros E Hi. pose proof W_pos. exists (i / W - o / W)%nat.
  pose proof (Nat.div_mod_eq i W). pose proof (Nat.div_mod_eq o W).
  assert (o / W <= i / W)%nat by (apply Nat.Div0.div_le_mono; lia). nia.
Qed.
Lemma lane_below o i c :
  (i mod W = o mod W)%nat → (i < o + c * W)%nat → (i < o)%nat ∨ ∃ j, (j < c)%nat ∧ i = (o + j * W)%nat.
Proof.
  intros E Hi. destruct (decide (i < o)%nat) as [|Ho]; [by left|right].
  destruct (lane_exists o i E ltac:(lia)) as (j & ->). exists j. split; [nia|done].
Qed.
Lemma shift_div n : Nat.shiftr n (copy_warp_shift W) = (n / W)%nat.
Proof. rewrite Nat.shiftr_div_pow2. set_unfold in HW. destruct_or! HW; try done; by subst W. Qed.

(** A warp that published a task has it. *)
Lemma pubs_submitted l stop w x i :
  warp_ok l stop w x → (i mod W)%nat = w → pubs W x i → (i < length l)%nat.
Proof.
  intros Hok Hi Hp. destruct x as [o|o c todo f|o c k f|o c todo f|o]; cbn in *; destruct_and?.
  1,2,3,5: match goal with H : owned_ok _ _ _ |- _ => by apply H end.
  destruct Hp as [Hp|(j & Hj & -> & _)].
  - match goal with H : owned_ok _ _ _ |- _ => by apply H end.
  - match goal with H : batch_ok _ _ _ _ _ |- _ => destruct H as [? ? _ _] end. nia.
Qed.
Lemma pub_submitted s i : inv s → pub s i → (i < length (submitted s))%nat.
Proof. intros I Hp. eapply pubs_submitted; [by apply (pi_warps _ I), partition_owner_lt|done|done]. Qed.

Lemma pub_copied l stop w x i :
  warp_ok l stop w x → (i mod W)%nat = w → pubs W x i → copied_by W x i.
Proof.
  pose proof W_pos. intros Hok Hi Hp. destruct x as [o|o c todo f|o c k f|o c todo f|o]; cbn in *; try done; [lia|].
  destruct Hp as [Hp|(j & Hj & -> & _)]; [lia|nia].
Qed.

(** ** Steps of the host *)

Lemma partition_warp_extend l l' w x : warp_ok l false w x → warp_ok (l ++ l') false w x.
Proof.
  assert (∀ o, owned_ok l w o → owned_ok (l ++ l') w o) as Ho.
  { intros o [H1 H2]. split; [done|]. intros i Hi Hw. rewrite length_app. specialize (H2 i Hi Hw). lia. }
  assert (∀ o c todo f, batch_ok l o c todo f → batch_ok (l ++ l') o c todo f) as Hbt.
  { intros o c todo f [H1 H2 H3 H4]. split; [done|rewrite length_app; lia|done|].
    intros j Hj Ht. by apply lookup_app_l_Some, H4. }
  destruct x; cbn; [apply Ho|intros (? & ?)|intros (? & ? & ?)|intros (? & ? & ?)|intros (_ & _ & [=])]; auto.
Qed.
Lemma warp_stopped l stop w x : warp_ok l stop w x → warp_ok l true w x.
Proof. destruct x; cbn; tauto. Qed.

Lemma copied_submitted l stop w x i :
  warp_ok l stop w x → (i mod W)%nat = w → copied_by W x i → (i < length l)%nat.
Proof.
  intros Hok Hi Hc. destruct x as [o|o c todo f|o c k f|o c todo f|o]; cbn in *; destruct_and?.
  1,2,5: match goal with H : owned_ok _ _ _ |- _ => by apply H end.
  all: match goal with H : owned_ok _ _ _ |- _ => destruct H as [Ho1 Ho2] end;
    match goal with H : batch_ok _ _ _ _ _ |- _ => destruct H as [? ? _ _] end.
  all: apply lane_below in Hc as [Hc|(j & Hj & ->)]; [by apply Ho2|nia|congruence].
Qed.

Lemma partition_submit_inv s tasks s' : inv s → step W batch cap s (ev_submit tasks) = Some s' → inv s'.
Proof.
  intros I. pose proof I as []. cbn [step]. unfold try_submit_batch.
  assert (mkWorld (queue s) (mapped s) (warps s) (copied s) (submitted s ++ take 0 tasks) (polled s) = s) as Esame
    by (rewrite take_0, app_nil_r; by destruct s).
  destruct (negb (running (queue s)) || negb (accepting (queue s)) || (length tasks =? 0)%nat) eqn:E0.
  { rewrite Esame. by intros [= <-]. }
  apply orb_false_iff in E0 as [[_ Ha%negb_false_iff]%orb_false_iff _].
  destruct (_ <=? _)%nat eqn:E1; [rewrite Esame; by intros [= <-]|]. apply Nat.leb_gt in E1.
  destruct pi_queue0 as [Hm Hc]. destruct pi_tail0 as [Hst Htt]. set (n := Nat.min _ _). set (ts := take n tasks).
  destruct (existsb bad_task ts) eqn:E2; [rewrite Esame; by intros [= <-]|]. intros [= <-].
  assert (length ts = n) as Hn by (unfold ts; rewrite length_take; lia).
  assert (n + length (submitted s) <= completion_head (queue s) + cap)%nat as Hroom by (unfold n; lia).
  assert (stop_requested (mapped s) = false) as Hstop.
  { destruct (stop_requested (mapped s)) eqn:E; [|done]. by rewrite pi_stop0 in Ha. }
  fold ts. split; cbn [queue mapped warps copied submitted polled with_positions has_memory capacity submit_tail
    completion_head task_tail stop_requested accepting task_slots completion_slots]; try done.
  - by rewrite length_app, Hn, Hst.
  - rewrite length_app, Hn. lia.
  - rewrite Hc, Hst. intros i t Hi Hhead.
    apply (write_tasks_window cap Hcap _ _ (completion_head (queue s))); [lia|done|done|done|lia].
  - by rewrite take_app_le by lia.
  - intros w Hw. rewrite Hstop in *. by apply partition_warp_extend, pi_warps0.
  - intros i t Hi Hhead Hp. apply pi_completion0; [|done|done]. rewrite lookup_app_l in Hi; [done|]. by apply pub_submitted.
  - intros i t. rewrite pi_copied0. split; intros [H1 H2]; (split; [|done]); [by apply lookup_app_l_Some|].
    rewrite lookup_app_l in H1; [done|]. eapply copied_submitted; [apply pi_warps0, partition_owner_lt|done|done].
Qed.

Lemma partition_poll_inv s s' : inv s → step W batch cap s ev_poll = Some s' → inv s'.
Proof.
  intros I. pose proof I as []. cbn [step]. unfold try_poll. destruct pi_queue0 as [Hm Hc]. rewrite Hm, Hc. cbn [negb].
  set (h := completion_head (queue s)) in *. destruct (_ =? _)%nat eqn:E; cbn [negb]; intros [= <-]; [|by destruct s].
  apply Nat.eqb_eq in E. pose proof (Nat.pow_nonzero 2) as Hp2.
  assert (0 < cap)%nat as Hpos by (destruct Hcap as [k ->]; specialize (Hp2 k); lia).
  assert (pub s h) as Hh by (apply pi_sequence0; [lia|done]).
  assert (h < length (submitted s))%nat as Hlt by by apply pub_submitted.
  destruct (lookup_lt_is_Some_2 (submitted s) h Hlt) as [t Ht].
  split; cbn [queue mapped warps copied submitted polled with_positions has_memory capacity submit_tail completion_head]; try done.
  - lia.
  - intros i t' Hi Hle. apply pi_tasks0; [done|lia].
  - cbn [Z.eqb]. rewrite (take_S_r _ _ _ Ht), fmap_app, pi_polled0. f_equal. cbn. f_equal. by apply pi_completion0.
  - intros i Hi. destruct (decide (i = h)) as [->|]; [exact Hh|apply pi_head0; lia].
  - intros i Hi. change (pub _ i) with (pub s i). destruct (decide (i = (h + cap)%nat)) as [->|Hne]; [|apply pi_sequence0; lia].
    rewrite (ring_slot_next cap Hcap), E. split; [lia|]. intros Hp. apply pub_submitted in Hp; [lia|done].
  - intros i t' Hi Hle Hp. apply pi_completion0; [done|lia|done].
Qed.

Lemma partition_stop_inv s s' : inv s → step W batch cap s ev_stop = Some s' → inv s'.
Proof.
  intros I. pose proof I as []. cbn [step]. unfold request_stop. destruct (negb _ || _) eqn:E; intros [= <-].
  { by destruct s. }
  split; try done. intros w Hw. by eapply warp_stopped, pi_warps0.
Qed.

(** ** Steps of a warp *)

Definition with_warp (s : World) (m : Mapped) (w : nat) (x : Warp) (c : list (nat * CopyTask)) : World :=
  mkWorld (queue s) m (<[w := x]> (warps s)) (c ++ copied s) (submitted s) (polled s).

Lemma warp_at s m w x c i : (i mod W)%nat = w → warps (with_warp s m w x c) (i mod W) = x.
Proof. intros ->. apply fn_lookup_insert. Qed.
Lemma partition_warp_other s m w x c i : (i mod W)%nat ≠ w → warps (with_warp s m w x c) (i mod W) = warps s (i mod W).
Proof. intros Hne. by apply fn_lookup_insert_ne. Qed.

(** What a step keeps that changes neither what was published nor what was copied. *)
Lemma partition_warp_quiet s w x :
  inv s → (w < W)%nat → warp_ok (submitted s) (stop_requested (mapped s)) w x →
  (∀ i, (i mod W)%nat = w → pubs W x i ↔ pubs W (warps s w) i) →
  (∀ i, (i mod W)%nat = w → copied_by W x i ↔ copied_by W (warps s w) i) →
  inv (with_warp s (mapped s) w x []).
Proof.
  intros I Hw Hok Hp Hc. pose proof I as [].
  assert (∀ i, pub (with_warp s (mapped s) w x []) i ↔ pub s i) as Hpub.
  { intros i. unfold pub. destruct (decide ((i mod W)%nat = w)) as [E|E].
    - by rewrite warp_at, Hp, E.
    - by rewrite partition_warp_other. }
  split; try done.
  - intros v Hv. cbn. destruct (decide (v = w)) as [->|]; [by rewrite fn_lookup_insert|].
    rewrite fn_lookup_insert_ne by done. by apply pi_warps0.
  - intros i Hi. by apply Hpub, pi_head0.
  - intros i Hi. rewrite Hpub. by apply pi_sequence0.
  - intros i t Hi Hh Hpi. by apply pi_completion0, Hpub.
  - intros i t. rewrite pi_copied0 at 1. destruct (decide ((i mod W)%nat = w)) as [E|E].
    + by rewrite warp_at, Hc, E.
    + by rewrite partition_warp_other.
Qed.

(** A warp copies the task of a lane. *)
Lemma partition_warp_copies s w o c k f :
  inv s → (w < W)%nat → warps s w = sp_copy o c k f → (k < c)%nat →
  inv (with_warp s (mapped s) w (sp_copy o c (S k) f) [((o + k * W)%nat, f k)]).
Proof.
  intros I Hw Ex Hk. pose proof I as []. pose proof W_pos as HW0.
  pose proof (pi_warps0 w Hw) as Hok. rewrite Ex in Hok. destruct Hok as (Ho & Hbt & Hkc).
  set (s' := with_warp _ _ _ _ _). set (i0 := (o + k * W)%nat).
  assert (i0 mod W = w)%nat as Ei0 by (unfold i0; rewrite lane_mod; apply Ho).
  assert (submitted s !! i0 = Some (f k)) as Hi0 by (apply (bt_loaded _ _ _ _ _ Hbt); [lia|set_solver]).
  assert (∀ i, pub s' i ↔ pub s i) as Hpub.
  { intros i. unfold pub. destruct (decide ((i mod W)%nat = w)) as [E|E].
    - unfold s'. by rewrite warp_at, E, Ex.
    - unfold s'. by rewrite partition_warp_other. }
  split; try done.
  - intros v Hv. cbn. destruct (decide (v = w)) as [->|].
    + rewrite fn_lookup_insert. by split_and!.
    + rewrite fn_lookup_insert_ne by done. by apply pi_warps0.
  - intros i Hi. by apply Hpub, pi_head0.
  - intros i Hi. rewrite Hpub. by apply pi_sequence0.
  - intros i t Hi Hh Hpi. by apply pi_completion0, Hpub.
  - intros i t. change (copied s') with ((i0, f k) :: copied s). rewrite elem_of_cons, pi_copied0.
    change (submitted s') with (submitted s). destruct (decide ((i mod W)%nat = w)) as [E|E].
    + unfold s'. rewrite warp_at, E, Ex by done. cbn [copied_by]. split.
      * intros [[= -> ->]|[H1 H2]]; [split; [done|unfold i0; nia]|split; [done|nia]].
      * intros [H1 H2]. destruct (decide (i = i0)) as [->|Hne]; [left; congruence|right]. split; [done|].
        apply lane_below in H2 as [?|(j & Hj & ->)]; [nia| |rewrite E; symmetry; apply Ho].
        assert (j ≠ k) by (intros ->; done). nia.
    + unfold s'. rewrite partition_warp_other by done. split; [|by right]. intros [[= -> ->]|?]; done.
  - change (copied s') with ((i0, f k) :: copied s). cbn. constructor; [|done].
    intros ([i t] & E & Hi)%list_elem_of_fmap. cbn [fst] in E. rewrite <- E in Hi. apply pi_copied0 in Hi as [_ Hi].
    rewrite Ei0, Ex in Hi. cbn in Hi. unfold i0 in Hi. lia.
Qed.

(** What is published when a lane publishes its completion. *)
Lemma lane_pubs s w o c todo f lane m :
  (w < W)%nat → warps s w = sp_publish o c todo f → lane ∈ todo → (o mod W = w)%nat → (lane < c)%nat →
  let i0 := (o + lane * W)%nat in
  (∀ i, pub (with_warp s m w (sp_publish o c (remove_lane lane todo) f) []) i ↔ pub s i ∨ i = i0) ∧ ¬ pub s i0.
Proof.
  intros Hw Ex Hl Ho Hlc i0. pose proof W_pos as HW0.
  assert (i0 mod W = w)%nat as Ei0 by (unfold i0; rewrite lane_mod; apply Ho). split.
  - intros i. unfold pub. destruct (decide ((i mod W)%nat = w)) as [E|E].
    + rewrite warp_at, E, Ex by done. cbn [pubs]. unfold remove_lane. split.
      * intros [?|(j & Hj & -> & Hn)]; [by left; left|]. destruct (decide (j = lane)) as [->|Hne]; [by right|left; right].
        exists j. split_and!; [done|done|]. intros Hin. apply Hn. by apply list_elem_of_filter.
      * intros [[?|(j & Hj & -> & Hn)]| ->]; [by left|right; exists j|right; exists lane]; (split_and!; [done|done|]).
        -- by intros [_ ?]%list_elem_of_filter.
        -- by intros [? _]%list_elem_of_filter.
    + rewrite partition_warp_other by done. split; [by left|]. intros [?| ->]; done.
  - unfold pub. rewrite Ei0, Ex. cbn [pubs]. intros [?|(j & Hj & Eij & Hn)]; [unfold i0 in *; lia|].
    assert (j = lane) as -> by (unfold i0 in *; nia). done.
Qed.

(** A lane publishes its completion. *)
Lemma lane_publishes s w o c todo f lane :
  inv s → (w < W)%nat → warps s w = sp_publish o c todo f → lane ∈ todo →
  let i := (o + lane * W)%nat in
  inv (with_warp s (mkMapped (task_tail (mapped s)) (stop_requested (mapped s)) (task_slots (mapped s))
         (<[slot cap i := mkCompletion (completion_of (f lane)) (S i)]> (completion_slots (mapped s))))
       w (sp_publish o c (remove_lane lane todo) f) []).
Proof.
  intros I Hw Ex Hl i0. pose proof I as []. pose proof W_pos as HW0.
  pose proof (pi_warps0 w Hw) as Hok. rewrite Ex in Hok. destruct Hok as (Ho & Hbt & Hlanes).
  set (s' := with_warp _ _ _ _ _). pose proof (lanes_ok_lt _ _ _ Hlanes Hl) as Hlc.
  assert (i0 mod W = w)%nat as Ei0 by (unfold i0; rewrite lane_mod; apply Ho).
  assert (submitted s !! i0 = Some (f lane)) as Hi0 by (apply (bt_loaded _ _ _ _ _ Hbt); [lia|set_solver]).
  destruct (lane_pubs s w o c todo f lane (mapped s') Hw Ex Hl (ow_owner _ _ _ Ho) Hlc) as [Hpub Hnp].
  change (∀ i, pub s' i ↔ pub s i ∨ i = i0) in Hpub. fold i0 in Hnp.
  assert (completion_head (queue s) <= i0 < completion_head (queue s) + cap)%nat as Hwin.
  { apply lookup_lt_Some in Hi0. split; [|lia]. destruct (decide (completion_head (queue s) <= i0)%nat); [done|].
    exfalso. apply Hnp, pi_head0. lia. }
  split; try done.
  - intros v Hv. cbn. destruct (decide (v = w)) as [->|].
    + rewrite fn_lookup_insert. split_and!; [apply Ho|done|by apply lanes_ok_remove..].
    + rewrite fn_lookup_insert_ne by done. by apply pi_warps0.
  - intros i Hi. apply Hpub. left. by apply pi_head0.
  - intros i Hi. rewrite Hpub. change (completion_slots (mapped s')) with
      (<[slot cap i0 := mkCompletion (completion_of (f lane)) (S i0)]> (completion_slots (mapped s))).
    destruct (decide (i = i0)) as [->|Hne]; [rewrite fn_lookup_insert; cbn; tauto|].
    rewrite fn_lookup_insert_ne.
    + rewrite pi_sequence0 by done. tauto.
    + intros E. apply (ring_slot_inj cap Hcap (completion_head (queue s))) in E; [done|done|done].
  - intros i t Hi Hh Hpi. apply Hpub in Hpi. change (completion_slots (mapped s')) with
      (<[slot cap i0 := mkCompletion (completion_of (f lane)) (S i0)]> (completion_slots (mapped s))).
    destruct (decide (i = i0)) as [->|Hne].
    { assert (Some (f lane) = Some t) as [= <-] by (rewrite <- Hi0; exact Hi). by rewrite fn_lookup_insert. }
    rewrite fn_lookup_insert_ne; [apply pi_completion0; tauto|].
    intros E. pose proof (lookup_lt_Some _ _ _ Hi). change (submitted s') with (submitted s) in *.
    change (queue s') with (queue s) in *.
    apply (ring_slot_inj cap Hcap (completion_head (queue s))) in E; [done|done|lia].
  - intros i t. change (copied s') with (copied s). rewrite pi_copied0. destruct (decide ((i mod W)%nat = w)) as [E|E].
    + unfold s'. by rewrite warp_at, E, Ex.
    + unfold s'. by rewrite partition_warp_other.
Qed.

(** A warp that sees work takes the tasks of its share that are there, at most a batch of them. *)
Lemma warp_takes s w o :
  inv s → (w < W)%nat → warps s w = sp_poll o → (o < length (submitted s))%nat →
  let c := Nat.min (S ((length (submitted s) - 1 - o) / W)) batch in
  inv (with_warp s (mapped s) w (sp_load o c (seq 0 c) (λ _, no_task)) []).
Proof.
  intros I Hw Ex Hlt c. pose proof (pi_warps _ I w Hw) as Hok. pose proof W_pos as HW0. rewrite Ex in Hok. cbn in Hok.
  assert (0 < c)%nat as Hc by (unfold c; lia).
  assert (o + (c - 1) * W < length (submitted s))%nat as Hroom.
  { pose proof (Nat.Div0.mul_div_le (length (submitted s) - 1 - o) W). unfold c. nia. }
  apply (partition_warp_quiet s w); [done|done| |by intros; rewrite Ex|by intros; rewrite Ex].
  split; [apply Hok|]. split; [done|done|apply lanes_ok_seq|].
  intros j Hj []. apply elem_of_seq. lia.
Qed.

(** A lane loads its own task: the slot it reads still holds the task submitted there. *)
Lemma lane_loads s w o c todo f lane :
  inv s → (w < W)%nat → warps s w = sp_load o c todo f → lane ∈ todo →
  inv (with_warp s (mapped s) w (sp_load o c (remove_lane lane todo)
         (<[lane := task_slots (mapped s) (slot cap (o + lane * W))]> f)) []).
Proof.
  intros I Hw Ex Hl. pose proof (pi_warps _ I w Hw) as Hok. pose proof W_pos as HW0. rewrite Ex in Hok.
  destruct Hok as [Ho Hbt].
  apply (partition_warp_quiet s w); [done|done| |by intros; rewrite Ex|by intros; rewrite Ex].
  pose proof Hbt as [B1 B2 B3 B4]. split; [apply Ho|]. split; [done|done|by apply lanes_ok_remove|].
  intros j Hj Hn. destruct (decide (j = lane)) as [->|Hne].
  - rewrite fn_lookup_insert. destruct (lookup_lt_is_Some_2 (submitted s) (o + lane * W)) as [t Ht]; [nia|].
    rewrite Ht. f_equal. symmetry. apply (pi_tasks _ I); [done|].
    destruct (decide (completion_head (queue s) <= o + lane * W)%nat) as [|Hlt]; [done|]. exfalso.
    pose proof (pi_head _ I (o + lane * W) ltac:(lia)) as Hp. unfold pub in Hp.
    rewrite lane_mod, (ow_owner _ _ _ Ho), Ex in Hp. cbn in Hp. lia.
  - rewrite fn_lookup_insert_ne by done. apply B4; [done|]. intros Hin. apply Hn. by apply list_elem_of_filter.
Qed.

Lemma partition_warp_step_inv s w lane s' :
  inv s → step W batch cap s (ev_warp w lane) = Some s' → inv s'.
Proof.
  intros I. cbn [step]. destruct (w <? W)%nat eqn:Ew; [|done]. apply Nat.ltb_lt in Ew.
  pose proof (pi_warps _ I w Ew) as Hok. pose proof W_pos as HW0. destruct (pi_tail _ I) as [_ Htt].
  destruct (warps s w) as [o|o c [|x todo] f|o c k f|o c [|x todo] f|o] eqn:Ex; cbn [warp_step].
  - destruct (_ <? _)%nat eqn:E.
    + intros [= <-]. apply Nat.ltb_lt in E. rewrite Htt, shift_div in *. by apply warp_takes.
    + destruct (stop_requested _) eqn:Es; [|done]. intros [= <-]. apply Nat.ltb_ge in E.
      apply (partition_warp_quiet s w); [done|done| |by intros; rewrite Ex|by intros; rewrite Ex]. cbn. rewrite Es.
      split_and!; [apply Hok|lia|done].
  - intros [= <-]. destruct Hok as [Ho Hbt]. apply (partition_warp_quiet s w); [done|done| |by intros; rewrite Ex|].
    + cbn. split_and!; [apply Ho|apply Hbt..|lia].
    + intros i _. rewrite Ex. cbn. by rewrite Nat.add_0_r.
  - case_decide as Hl; [|done]. intros [= <-]. by apply lane_loads.
  - destruct (_ <? _)%nat eqn:E; intros [= <-].
    + apply Nat.ltb_lt in E. by apply partition_warp_copies.
    + apply Nat.ltb_ge in E. destruct Hok as (Ho & Hbt & Hk).
      apply (partition_warp_quiet s w); [done|done| | |].
      * cbn. split_and!; [apply Ho|apply Hbt|apply lanes_ok_seq..].
      * intros i _. rewrite Ex. cbn. split; [|by left]. intros [?|(j & Hj & _ & Hn)]; [done|].
        destruct Hn. apply elem_of_seq. lia.
      * intros i _. rewrite Ex. cbn. by replace c with k by lia.
  - intros [= <-]. destruct Hok as (Ho & Hbt & Hl). apply (partition_warp_quiet s w); [done|done| | |].
    + cbn. split; [by rewrite lane_mod; apply Ho|]. intros i Hi Hiw.
      apply lane_below in Hi as [Hi|(j & Hj & ->)]; [by apply (ow_there _ _ _ Ho)| |by rewrite Hiw; symmetry; apply Ho].
      pose proof (bt_there _ _ _ _ _ Hbt). nia.
    + intros i Hi. rewrite Ex. cbn. split.
      * intros Hlt. apply lane_below in Hlt as [?|(j & Hj & ->)]; [by left|right|by rewrite Hi; symmetry; apply Ho].
        exists j. split_and!; [done|done|set_solver].
      * intros [?|(j & Hj & -> & _)]; nia.
    + by intros i _; rewrite Ex.
  - case_decide as Hl; [|done]. intros [= <-]. by apply (lane_publishes s w o c (x :: todo) f lane).
  - done.
Qed.

Lemma partition_step_inv s e s' : inv s → step W batch cap s e = Some s' → inv s'.
Proof. destruct e; [apply partition_submit_inv|apply partition_poll_inv|apply partition_stop_inv|apply partition_warp_step_inv]. Qed.
Lemma partition_run_inv es : ∀ s s', inv s → run W batch cap s es = Some s' → inv s'.
Proof.
  induction es as [|e es IH]; intros s s' I; cbn [run]; [by intros [= <-]|].
  intros (s1 & H1 & H2)%bind_Some. apply (IH s1); [|done]. by apply (partition_step_inv s e).
Qed.

(** ** Progress *)

Definition warp_work (n : nat) (x : Warp) : nat :=
  match x with
  | sp_poll o => 7 * (n - o) + 1
  | sp_load o c todo _ => 7 * (n - (o + c * W)) + length todo + 2 * c + 4
  | sp_copy o c k _ => 7 * (n - (o + c * W)) + (c - k) + c + 3
  | sp_publish o c todo _ => 7 * (n - (o + c * W)) + length todo + 2
  | sp_done _ => 0
  end.
(** How many steps the kernel can take before the host submits more. *)
Definition kernel_work (s : World) : nat := total_work (warp_work (length (submitted s))) W (warps s).

Lemma partition_warp_step_work s w lane m x c :
  inv s → (w < W)%nat → warp_step W batch cap lane (mapped s) (warps s w) = Some (m, x, c) →
  (warp_work (length (submitted s)) x < warp_work (length (submitted s)) (warps s w))%nat.
Proof.
  intros I Hw. pose proof (pi_warps _ I w Hw) as Hok. pose proof W_pos as HW0. destruct (pi_tail _ I) as [_ Htt].
  destruct (warps s w) as [o|o c0 [|y todo] f|o c0 k f|o c0 [|y todo] f|o]; cbn [warp_step].
  - destruct (_ <? _)%nat eqn:E.
    + apply Nat.ltb_lt in E. rewrite Htt, shift_div in *. set (n := length (submitted s)) in *.
      pose proof (Nat.Div0.mul_div_le (n - 1 - o) W). remember (Nat.min _ batch) as b eqn:Eb.
      assert (0 < b ∧ o + (b - 1) * W < n)%nat as [? ?] by (subst b; nia). clear Eb.
      assert (b <= n - o ∧ b <= b * W)%nat as [? ?] by nia. intros [= <- <- <-]. cbn [warp_work]. rewrite length_seq. nia.
    + destruct (stop_requested _); [|done]. intros [= <- <- <-]. cbn. lia.
  - intros [= <- <- <-]. cbn. lia.
  - case_decide as Hl; [|done]. intros [= <- <- <-]. apply WarpProgress.remove_lane_shorter in Hl. cbn [warp_work]. lia.
  - destruct Hok as (_ & _ & Hk). destruct (_ <? _)%nat eqn:E; intros [= <- <- <-]; cbn [warp_work].
    + apply Nat.ltb_lt in E. lia.
    + rewrite length_seq. lia.
  - intros [= <- <- <-]. cbn. lia.
  - case_decide as Hl; [|done]. intros [= <- <- <-]. apply WarpProgress.remove_lane_shorter in Hl. cbn [warp_work]. lia.
  - done.
Qed.

Definition kernel_event (e : Event) : bool := match e with ev_warp _ _ => true | _ => false end.

Lemma kernel_step_work s e s' :
  inv s → kernel_event e = true → step W batch cap s e = Some s' →
  (kernel_work s' < kernel_work s)%nat ∧ submitted s' = submitted s ∧ queue s' = queue s.
Proof.
  intros I. destruct e as [| | |w lane]; try done. intros _. cbn [step]. destruct (w <? W)%nat eqn:Ew; [|done].
  apply Nat.ltb_lt in Ew. intros ([[m x] c] & Hx & [= <-])%bind_Some. split; [|done].
  unfold kernel_work. cbn [warps submitted]. apply total_work_insert; [done|]. by eapply partition_warp_step_work.
Qed.

Lemma partition_kernel_run_work es : ∀ s s',
  inv s → forallb kernel_event es = true → run W batch cap s es = Some s' →
  (length es + kernel_work s' <= kernel_work s)%nat ∧ submitted s' = submitted s ∧ queue s' = queue s.
Proof.
  induction es as [|e es IH]; intros s s' I; cbn [run forallb length].
  { intros _ [= <-]. split; [lia|done]. }
  intros [He Hes]%andb_true_iff (s1 & H1 & H2)%bind_Some.
  destruct (kernel_step_work s e s1 I He H1) as (Hw & Hs & Hq).
  destruct (IH s1 s' (partition_step_inv _ _ _ I H1) Hes H2) as (Hw' & Hs' & Hq'). split_and!; [lia|congruence|congruence].
Qed.

(** A warp without a task of its own left, and after a request to stop, gone. *)
Definition resting (n : nat) (stop : bool) (x : Warp) : bool :=
  match x with sp_poll o => (n <=? o)%nat && negb stop | sp_done _ => true | _ => false end.

Lemma warp_can_step s w :
  inv s → (w < W)%nat → resting (length (submitted s)) (stop_requested (mapped s)) (warps s w) = false →
  ∃ lane s', step W batch cap s (ev_warp w lane) = Some s'.
Proof.
  intros I Hw Hr. destruct (pi_tail _ I) as [_ Htt]. apply Nat.ltb_lt in Hw.
  assert (∃ lane y, warp_step W batch cap lane (mapped s) (warps s w) = Some y) as (lane & [[m x] c] & E).
  { destruct (warps s w) as [o|o c0 [|y todo] f|o c0 k f|o c0 [|y todo] f|o]; cbn [warp_step resting] in *.
    - exists 0%nat. rewrite Htt. destruct (o <? _)%nat eqn:E; [by eexists|]. apply Nat.ltb_ge in E.
      rewrite (proj2 (Nat.leb_le _ _) E) in Hr. cbn in Hr. apply negb_false_iff in Hr as ->. by eexists.
    - exists 0%nat. by eexists.
    - exists y. rewrite decide_True by by left. by eexists.
    - exists 0%nat. destruct (k <? c0)%nat; by eexists.
    - exists 0%nat. by eexists.
    - exists y. rewrite decide_True by by left. by eexists.
    - done. }
  exists lane. eexists. cbn [step]. by rewrite Hw, E.
Qed.

(** The kernel is at rest: all its warps are. *)
Definition rests (s : World) : bool :=
  forallb (λ w, resting (length (submitted s)) (stop_requested (mapped s)) (warps s w)) (seq 0 W).

Lemma partition_kernel_progress s :
  inv s → rests s = true ∨ ∃ e s', kernel_event e = true ∧ step W batch cap s e = Some s'.
Proof.
  intros I. destruct (rests s) eqn:E; [by left|right]. unfold rests in E.
  assert (¬ Forall (λ w, resting (length (submitted s)) (stop_requested (mapped s)) (warps s w) = true) (seq 0 W)) as Hn.
  { intros HF. apply not_true_iff_false in E. apply E, forallb_forall. intros w Hw.
    rewrite Forall_forall in HF. by apply HF, list_elem_of_In. }
  apply not_Forall_Exists in Hn; [|solve_decision].
  apply Exists_exists in Hn as (w & Hw%elem_of_seq & Hr). apply not_true_iff_false in Hr.
  destruct (warp_can_step s w I ltac:(lia) Hr) as (lane & s' & Hs). by exists (ev_warp w lane), s'.
Qed.

(** At rest, every task is complete. *)
Lemma rests_complete s i :
  inv s → rests s = true → (i < length (submitted s))%nat → pub s i.
Proof.
  intros I Hr Hi. pose proof (partition_owner_lt i) as Hw. unfold rests in Hr.
  assert (resting (length (submitted s)) (stop_requested (mapped s)) (warps s (i mod W)) = true) as Hx.
  { rewrite forallb_forall in Hr. apply Hr, list_elem_of_In, elem_of_seq. lia. }
  pose proof (pi_warps _ I _ Hw) as Hok. unfold pub.
  destruct (warps s (i mod W)) as [o| | | |o]; cbn in *; try done.
  - apply andb_true_iff in Hx as [Hx%Nat.leb_le _]. lia.
  - destruct Hok as (_ & Hok & _). lia.
Qed.

End Invariant.

(** * From the allocation on *)

Lemma supported_warps W : is_supported_copy_warps (Z.of_nat W) = true → W ∈ [4; 8; 16; 32]%nat.
Proof. unfold is_supported_copy_warps. intros H. set_unfold. lia. Qed.

Lemma partition_launch_inv cap W batch base s :
  launch cap W batch base = Some s →
  W ∈ [4; 8; 16; 32]%nat ∧ (0 < batch)%nat ∧ (∃ k, cap = (2 ^ k)%nat) ∧ inv W cap s.
Proof.
  unfold launch, allocate. destruct (_ || _ || _ || _) eqn:E0; [done|]. bool_hyps.
  destruct (static_partition_spsc_allocation_size _ _) as [bytes|] eqn:E1; [|done].
  unfold static_partition_spsc_allocation_size in E1. destruct (_ || _ || _ || _) eqn:E2 in E1; [done|]. bool_hyps.
  cbn [negb Z.eqb start has_memory running empty_queue orb]. unfold start. cbn [has_memory running empty_queue negb orb].
  destruct (negb _); [done|]. cbn [Z.eqb]. intros [= <-].
  assert (0 < batch)%nat as Hb.
  { match goal with H : is_supported_device_batch _ = true |- _ => unfold is_supported_device_batch in H end. lia. }
  assert (∃ k, cap = (2 ^ k)%nat) as Hcap.
  { apply power_of_two_nat; [done|]. apply (checked_size_capacity _ _ _ _) in E1; lia. }
  assert (W ∈ [4; 8; 16; 32]%nat) as HW by by apply supported_warps.
  pose proof (W_pos W HW) as HW0. split_and!; [done|done|done|].
  split; cbn [queue mapped warps copied submitted polled has_memory capacity submit_tail completion_head task_tail
    stop_requested accepting zeroed task_slots completion_slots sequence length]; try done.
  - lia.
  - intros w Hw. cbn. split; [by apply Nat.mod_small|]. intros i Hi Ei. rewrite Nat.mod_small in Ei; lia.
  - intros i Hi. lia.
  - intros i Hi. unfold pub. cbn. split; [done|]. pose proof (Nat.Div0.mod_le i W). lia.
  - intros i t. split; [by intros ?%not_elem_of_nil|by intros [? _]].
  - constructor.
Qed.

(** (C19) Whatever the host submits and however its calls and the lanes of the warps interleave,
    the completions the host has polled are those of its first tasks, in the order of
    submission, each of them copied; the kernel has copied nothing but submitted tasks, none
    twice.  From there, every run of the kernel alone is bounded by [kernel_work] and can go
    on until all tasks are complete, when the next poll finds the next completion. *)
Theorem partition_fifo cap W batch base s0 es s :
  launch cap W batch base = Some s0 → run W batch cap s0 es = Some s →
  let h := completion_head (queue s) in
  polled s = completion_of <$> take h (submitted s) ∧
  (∀ i t, submitted s !! i = Some t → (i < h)%nat → (i, t) ∈ copied s) ∧
  (∀ i t, (i, t) ∈ copied s → submitted s !! i = Some t) ∧ NoDup (copied s).*1 ∧
  (∀ es' s', forallb kernel_event es' = true → run W batch cap s es' = Some s' →
     (length es' <= kernel_work W s)%nat ∧
     ((∃ e s'', kernel_event e = true ∧ step W batch cap s' e = Some s'') ∨
      ∀ t, submitted s !! h = Some t → (try_poll (queue s') (mapped s')).1.2 = 0)).
Proof.
  intros (HW & Hb & Hcap & I0)%partition_launch_inv Hrun. pose proof (partition_run_inv W batch cap HW Hb Hcap _ _ _ I0 Hrun) as I. cbv zeta.
  pose proof I as []. split_and!; [done| |by intros i t [? _]%pi_copied0|done|].
  - intros i t Hi Hlt. apply pi_copied0. split; [done|].
    eapply (pub_copied W batch HW Hb); [apply pi_warps0, (partition_owner_lt W HW)|done|by apply pi_head0].
  - intros es' s' He Hr. destruct (partition_kernel_run_work W batch cap HW Hb Hcap _ _ _ I He Hr) as (Hw & Hs & Hq). split; [lia|].
    pose proof (partition_run_inv W batch cap HW Hb Hcap _ _ _ I Hr) as I'.
    destruct (partition_kernel_progress W batch cap Hb s' I') as [Hrest|Hmove]; [right|by left]. intros t Ht.
    apply lookup_lt_Some in Ht. pose proof (pi_window _ _ _ I') as Hwin. pose proof (pi_queue _ _ _ I') as [Hm Hc].
    pose proof (rests_complete W batch cap HW Hb s' (completion_head (queue s')) I' Hrest ltac:(rewrite Hq, Hs; lia)) as Hp.
    apply (pi_sequence _ _ _ I') in Hp; [|rewrite Hq, Hs in *; lia].
    unfold try_poll. rewrite Hm, Hc. cbn [negb]. by rewrite Hp, Nat.eqb_refl.
Qed.

(** A run with three tasks on four warps: the second warp is done before the first. *)
Definition sample (id : Z) : CopyTask := mkTask id (4096 + 64 * id) 64 0.
Definition sample_run : list Event :=
  [ev_submit [sample 0; sample 1; sample 2]; ev_warp 1 0; ev_warp 0 0; ev_warp 1 0; ev_warp 1 0; ev_warp 1 0;
   ev_warp 1 0; ev_warp 1 0; ev_poll; ev_warp 0 0; ev_warp 0 0; ev_warp 0 0; ev_warp 0 0; ev_warp 0 0; ev_poll; ev_poll].

Lemma partition_fifo_witness :
  ∃ s0 s, launch 16 4 2 4096 = Some s0 ∧ run 4 2 16 s0 sample_run = Some s ∧
    polled s = [completion_of (sample 0); completion_of (sample 1)] ∧ (1%nat, sample 1) ∈ copied s.
Proof.
  destruct (launch 16 4 2 4096) as [s0|] eqn:E0; [|vm_compute in E0; discriminate].
  destruct (run 4 2 16 s0 sample_run) as [s|] eqn:E1.
  2: { vm_compute in E0. injection E0 as <-. vm_compute in E1. discriminate. }
  exists s0, s. split; [done|]. split; [done|]. split.
  - vm_compute in E0. injection E0 as <-. vm_compute in E1. injection E1 as <-. reflexivity.
  - pose proof (partition_fifo 16 4 2 4096 s0 sample_run s E0 E1) as (_ & H & _).
    vm_compute in E0. injection E0 as <-. vm_compute in E1. injection E1 as <-.
    apply (H 1%nat (sample 1)); [reflexivity|vm_compute; lia].
Defined.

(** Before the first warp was done, the second one's completion was blocked behind it. *)
Lemma sample_blocked :
  ∃ s0 s, launch 16 4 2 4096 = Some s0 ∧ run 4 2 16 s0 (take 8 sample_run) = Some s ∧
    head_of_line_blocked (queue s) (mapped s) = true.
Proof. eexists _, _. split; [reflexivity|]. split; [vm_compute; reflexivity|vm_compute; reflexivity]. Qed.

End PartitionQueue.
