(* ===== verification/ShardedQueue.v ===== *)
(** The sharded queue (src/gpu/persistent_copy.cu, [DynamicShardedSpscQueue] and
    [dynamic_sharded_spsc_kernel]): a ring of tasks and completions per copy warp, a lane; the
    host gives a task to the next lane with room and polls the lanes in turn.

    A warp accesses the control block and the slots of its own lane only, so the stores a call
    of the host makes to several lanes are one step.  The other conventions are those of
    PartitionQueue.v. *)

From stdpp Require Import functions.
From S2P Require Import Prelude CopyHost WarpQueue WarpHost WarpOrder WarpFifo CopySetup.
Import Copy.

Module ShardedQueue.
Import WarpQueue (slot, bad_task, no_completion, ring_slot_inj, ring_slot_mod, total_work, total_work_insert,
  gather_seq).
Import WarpHost (completion_of).
Import CopySetup.

(** * The queue *)

(** The control blocks of the lanes and the two arrays of slots behind them. *)
Record Mapped := mkMapped {
  task_tails : nat → nat;
  completion_tails : nat → nat;
  stop_flags : nat → bool;
  task_slots : nat → CopyTask;
  completion_slots : nat → CopyCompletion;
}.
Definition zeroed : Mapped := mkMapped (λ _, 0%nat) (λ _, 0%nat) (λ _, false) (λ _, no_task) (λ _, no_completion).

Record Queue := mkQueue {
  has_memory : bool;
  capacity : nat;
  lane_capacity : nat;
  lane_count : nat;
  batch_of : nat;                 (* [device_batch_] *)
  stage_base : Z;
  submit_cursor : nat;
  completion_cursor : nat;
  submit_tails : nat → nat;
  completion_heads : nat → nat;
  accepted : nat;                 (* [accepted_tasks_] *)
  completed : nat;                (* [completed_tasks_] *)
  running : bool;
  accepting : bool;
}.
Definition empty_queue : Queue :=
  mkQueue false 0 0 0 0 0 0 0 (λ _, 0%nat) (λ _, 0%nat) 0 0 false false.

Definition allocate (q : Queue) (cap warps batch : nat) (base pinned : Z) : Queue * Z :=
  if has_memory q || negb (is_supported_device_batch (Z.of_nat batch)) || (cap <? batch)%nat || (base =? 0)
  then (q, EINVAL)
  else match dynamic_sharded_spsc_allocation_size (Z.of_nat cap) (Z.of_nat warps) with
  | None => (q, EINVAL)
  | Some _ =>
      if negb (pinned =? 0) then (q, pinned)
      else (mkQueue true cap (cap / warps) warps batch base (submit_cursor q) (completion_cursor q)
              (submit_tails q) (completion_heads q) (accepted q) (completed q) (running q) (accepting q), 0)
  end.

Definition dispatch_dynamic_sharded_spsc_variant (lanes batch : nat) (resources : bool) : bool :=
  if decide (lanes ∈ [4; 8; 16; 32]%nat)
  then if decide (batch ∈ [1; 2; 4; 8; 16; 32]%nat) then resources else false
  else false.

Definition start (q : Queue) (m : Mapped) (resources : bool) (launch_status : Z) : Queue * Mapped * Z :=
  if negb (has_memory q) || running q then (q, m, EINVAL)
  else
    let started b := mkQueue (has_memory q) (capacity q) (lane_capacity q) (lane_count q) (batch_of q) (stage_base q)
                       0 0 (λ _, 0%nat) (λ _, 0%nat) 0 0 b b in
    if negb (dispatch_dynamic_sharded_spsc_variant (lane_count q) (batch_of q) resources)
    then (started false, zeroed, EINVAL)
    else (started (launch_status =? 0), zeroed, launch_status).

(** [slot_index]. *)
Definition slot_index (lane_cap lane i : nat) : nat := (lane * lane_cap + slot lane_cap i)%nat.

(** The lane after a lane, in the round of all lanes. *)
Definition next_lane (q : Queue) (lane : nat) : nat := if (S lane =? lane_count q)%nat then 0 else S lane.

(** The first of the next [visits] lanes that satisfies a condition. *)
Fixpoint find_lane (q : Queue) (good : nat → bool) (visits lane : nat) : option nat :=
  match visits with
  | O => None
  | S visits => if good lane then Some lane else find_lane q good visits (next_lane q lane)
  end.

Definition lane_has_room (q : Queue) (lane : nat) : bool :=
  (submit_tails q lane - completion_heads q lane <? lane_capacity q)%nat.

Definition with_submitted (q : Queue) (lane : nat) : Queue :=
  mkQueue (has_memory q) (capacity q) (lane_capacity q) (lane_count q) (batch_of q) (stage_base q)
    (next_lane q lane) (completion_cursor q) (<[lane := S (submit_tails q lane)]> (submit_tails q))
    (completion_heads q) (accepted q) (completed q) (running q) (accepting q).
Definition with_polled (q : Queue) (lane : nat) : Queue :=
  mkQueue (has_memory q) (capacity q) (lane_capacity q) (lane_count q) (batch_of q) (stage_base q)
    (submit_cursor q) (next_lane q lane) (submit_tails q) (<[lane := S (completion_heads q lane)]> (completion_heads q))
    (accepted q) (S (completed q)) (running q) (accepting q).
Definition with_accepted (q : Queue) (n : nat) : Queue :=
  mkQueue (has_memory q) (capacity q) (lane_capacity q) (lane_count q) (batch_of q) (stage_base q)
    (submit_cursor q) (completion_cursor q) (submit_tails q) (completion_heads q)
    (accepted q + n) (completed q) (running q) (accepting q).
Definition with_flags (q : Queue) (r a : bool) : Queue :=
  mkQueue (has_memory q) (capacity q) (lane_capacity q) (lane_count q) (batch_of q) (stage_base q)
    (submit_cursor q) (completion_cursor q) (submit_tails q) (completion_heads q) (accepted q) (completed q) r a.

(** The loop that writes the tasks: the queue, the task slots and [dirty_lanes], the lanes the
    tasks went to, which the code does not keep, and whether a lane was found for all. *)
Fixpoint place_tasks (q : Queue) (slots : nat → CopyTask) (dirty : Z) (tasks : list CopyTask)
  : Queue * (nat → CopyTask) * Z * list nat * bool :=
  match tasks with
  | [] => (q, slots, dirty, [], true)
  | t :: tasks =>
      match find_lane q (lane_has_room q) (lane_count q) (submit_cursor q) with
      | None => (q, slots, dirty, [], false)
      | Some lane =>
          let slots := <[slot_index (lane_capacity q) lane (submit_tails q lane) := t]> slots in
          let dirty := Z.lor dirty (Z.shiftl 1 (Z.of_nat lane)) in
          let '(q, slots, dirty, lanes, found) := place_tasks (with_submitted q lane) slots dirty tasks in
          (q, slots, dirty, lane :: lanes, found)
      end
  end.

(** The status, the number of tasks taken and the lanes they went to. *)
Definition try_submit_batch (q : Queue) (m : Mapped) (tasks : list CopyTask) : Queue * Mapped * Z * nat * list nat :=
  if negb (running q) || negb (accepting q) || (length tasks =? 0)%nat then (q, m, EINVAL, 0%nat, [])
  else
    let outstanding := (accepted q - completed q)%nat in
    if (capacity q <=? outstanding)%nat then (q, m, EAGAIN, 0%nat, [])
    else
      let available := (capacity q - outstanding)%nat in
      let count := Nat.min (length tasks) available in
      let taken := take count tasks in
      if existsb bad_task taken then (q, m, EINVAL, 0%nat, [])
      else
        let '(q, slots, dirty, lanes, found) := place_tasks q (task_slots m) 0 taken in
        if negb found
        then (q, mkMapped (task_tails m) (completion_tails m) (stop_flags m) slots (completion_slots m), EIO, 0%nat, lanes)
        else
          let tails lane := if (lane <? lane_count q)%nat && Z.testbit dirty (Z.of_nat lane)
                            then submit_tails q lane else task_tails m lane in
          (with_accepted q count, mkMapped tails (completion_tails m) (stop_flags m) slots (completion_slots m),
           0, count, lanes).

(** The status, the completion and the lane it came from. *)
Definition try_poll (q : Queue) (m : Mapped) : Queue * Z * CopyCompletion * nat :=
  if negb (has_memory q) then (q, EINVAL, no_completion, 0%nat)
  else
    match find_lane q (λ lane, completion_heads q lane <? completion_tails m lane)%nat (lane_count q)
            (completion_cursor q) with
    | None => (q, EAGAIN, no_completion, 0%nat)
    | Some lane =>
        (with_polled q lane, 0, completion_slots m (slot_index (lane_capacity q) lane (completion_heads q lane)), lane)
    end.

Definition request_stop (q : Queue) (m : Mapped) : Queue * Mapped * Z :=
  if negb (running q) || negb (accepting q) then (q, m, EINVAL)
  else (with_flags q (running q) false,
        mkMapped (task_tails m) (completion_tails m)
          (λ lane, if (lane <? lane_count q)%nat then true else stop_flags m lane) (task_slots m) (completion_slots m), 0).

Definition wait (q : Queue) (synchronized : Z) : Queue * Z :=
  if negb (running q) || accepting q then (q, EINVAL) else (with_flags q false (accepting q), synchronized).
Definition reset (q : Queue) (unpinned : Z) : Queue * Z :=
  if running q then (q, EBUSY) else (empty_queue, unpinned).
Definition drained (q : Queue) : bool := (accepted q =? completed q)%nat.

(** One task. *)
Definition try_submit (q : Queue) (m : Mapped) (t : CopyTask) : Queue * Mapped * Z :=
  let '(q, m, status, _, _) := try_submit_batch q m [t] in (q, m, status).
(** The destructor. *)
Definition destroy (q : Queue) (m : Mapped) (synchronized unpinned : Z) : Queue :=
  let q := if running q then (wait (request_stop q m).1.1 synchronized).1 else q in (reset q unpinned).1.

Lemma sharded_destroyed q m synchronized unpinned : destroy q m synchronized unpinned = empty_queue.
Proof.
  unfold destroy, reset. destruct (running q) eqn:E; [|by rewrite E]. unfold request_stop, wait. rewrite E. cbn [negb orb].
  destruct (accepting q) eqn:Ea; cbn [negb orb fst with_flags running accepting]; rewrite ?E, ?Ea; done.
Qed.

(** * The kernel *)

(** The warp of a lane: polling, with a batch whose first tasks are done, with a task copied
    and its completion to write, or gone. *)
Inductive Warp :=
| ds_poll (head : nat)
| ds_batch (head count next : nat)
| ds_write (head count next : nat) (t : CopyTask)
| ds_done (head : nat).

Section Kernel.
Context (L batch lane_cap : nat).

Definition with_completion (m : Mapped) (i : nat) (c : CopyCompletion) : Mapped :=
  mkMapped (task_tails m) (completion_tails m) (stop_flags m) (task_slots m) (<[i := c]> (completion_slots m)).
Definition with_completion_tail (m : Mapped) (lane n : nat) : Mapped :=
  mkMapped (task_tails m) (<[lane := n]> (completion_tails m)) (stop_flags m) (task_slots m) (completion_slots m).

Definition warp_step (w : nat) (m : Mapped) (x : Warp) : option (Mapped * Warp * list (nat * nat * CopyTask)) :=
  match x with
  | ds_poll head =>
      if (head <? task_tails m w)%nat
      then Some (m, ds_batch head (Nat.min (task_tails m w - head) batch) 0, [])
      else if stop_flags m w then Some (m, ds_done head, [])
      else None
  | ds_batch head count next =>
      if (next <? count)%nat
      then let t := task_slots m (slot_index lane_cap w (head + next)) in
           Some (m, ds_write head count next t, [(w, (head + next)%nat, t)])
      else Some (with_completion_tail m w (head + count), ds_poll (head + count), [])
  | ds_write head count next t =>
      Some (with_completion m (slot_index lane_cap w (head + next)) (mkCopyCompletion (task_id t) task_success),
            ds_batch head count (S next), [])
  | ds_done _ => None
  end.

(** [logs] records the tasks given to each lane. *)
Record World := mkWorld {
  queue : Queue; mapped : Mapped; warps : nat → Warp; copied : list (nat * nat * CopyTask);
  logs : nat → list CopyTask; submitted : list CopyTask; polled : list CopyCompletion;
}.

Fixpoint add_logs (logs : nat → list CopyTask) (lanes : list nat) (tasks : list CopyTask) : nat → list CopyTask :=
  match lanes, tasks with
  | lane :: lanes, t :: tasks => add_logs (<[lane := logs lane ++ [t]]> logs) lanes tasks
  | _, _ => logs
  end.

Inductive Event := ev_submit (tasks : list CopyTask) | ev_poll | ev_stop | ev_warp (w : nat).

Definition step (s : World) (e : Event) : option World :=
  match e with
  | ev_submit tasks =>
      let '(q, m, status, n, lanes) := try_submit_batch (queue s) (mapped s) tasks in
      Some (mkWorld q m (warps s) (copied s) (add_logs (logs s) lanes tasks) (submitted s ++ take n tasks) (polled s))
  | ev_poll =>
      let '(q, status, c, lane) := try_poll (queue s) (mapped s) in
      Some (mkWorld q (mapped s) (warps s) (copied s) (logs s) (submitted s)
              (if status =? 0 then polled s ++ [c] else polled s))
  | ev_stop =>
      let '(q, m, status) := request_stop (queue s) (mapped s) in
      Some (mkWorld q m (warps s) (copied s) (logs s) (submitted s) (polled s))
  | ev_warp w =>
      if (w <? L)%nat
      then '(m, x, c) ← warp_step w (mapped s) (warps s w);
           Some (mkWorld (queue s) m (<[w := x]> (warps s)) (c ++ copied s) (logs s) (submitted s) (polled s))
      else None
  end.

Fixpoint run (s : World) (es : list Event) : option World :=
  match es with [] => Some s | e :: es => s' ← step s e; run s' es end.

End Kernel.

(** A queue is allocated and its kernel launched. *)
Definition launch (cap L batch : nat) (base : Z) : option World :=
  let '(q, allocated) := allocate empty_queue cap L batch base 0 in
  if negb (allocated =? 0) then None
  else
    let '(q, m, started) := start q zeroed true 0 in
    if started =? 0 then Some (mkWorld q m (λ _, ds_poll 0) [] (λ _, []) [] []) else None.

(** * Rounds of lanes *)

Lemma gather_bound {A} L (g : nat → list A) n :
  (∀ w, (w < L)%nat → (n <= length (g w))%nat) → (L * n <= length (seq 0 L ≫= g))%nat.
Proof.
  intros Hg. assert (∀ b, (∀ w, (b <= w < b + L)%nat → (n <= length (g w))%nat) → (L * n <= length (seq b L ≫= g))%nat) as H.
  { clear Hg. induction L as [|L IH]; intros b Hg; [lia|]. cbn [seq]. rewrite bind_cons, length_app.
    pose proof (Hg b ltac:(lia)). specialize (IH (S b) ltac:(intros; apply Hg; lia)). lia. }
  apply H. intros w Hw. apply Hg. lia.
Qed.

Section Lanes.
Context (L lane_cap : nat) (HL : (0 < L)%nat) (Hcap : ∃ k, lane_cap = (2 ^ k)%nat).

(** [k] lanes further in the round. *)
Definition round (lane k : nat) : nat := if (lane + k <? L)%nat then (lane + k)%nat else (lane + k - L)%nat.

Lemma next_lane_round q lane : lane_count q = L → (lane < L)%nat → next_lane q lane = round lane 1 ∧ (next_lane q lane < L)%nat.
Proof. intros E Hl. unfold next_lane, round. rewrite E. destruct (S lane =? L)%nat eqn:E1, (lane + 1 <? L)%nat eqn:E2; bool_hyps; lia. Qed.

Lemma find_lane_some q good visits lane r :
  lane_count q = L → (lane < L)%nat → find_lane q good visits lane = Some r → good r = true ∧ (r < L)%nat.
Proof.
  intros E. revert lane. induction visits as [|visits IH]; intros lane Hl; cbn [find_lane]; [done|].
  destruct (good lane) eqn:Eg; [by intros [= <-]|]. apply IH. by apply next_lane_round.
Qed.

Lemma find_lane_none q good visits lane :
  lane_count q = L → (lane < L)%nat → find_lane q good visits lane = None →
  ∀ k, (k < visits)%nat → (k < L)%nat → good (round lane k) = false.
Proof.
  intros E. revert lane. induction visits as [|visits IH]; intros lane Hl; cbn [find_lane]; [lia|].
  destruct (good lane) eqn:Eg; [done|]. intros Hf k Hk HkL. destruct k as [|k].
  - unfold round. destruct (lane + 0 <? L)%nat eqn:Er; bool_hyps; [by rewrite Nat.add_0_r|lia].
  - destruct (next_lane_round q lane E Hl) as [Hn Hnl]. specialize (IH _ Hnl Hf k ltac:(lia) ltac:(lia)).
    rewrite Hn in IH. assert (round (round lane 1) k = round lane (S k)) as <-; [|done].
    unfold round in *. repeat case_match; bool_hyps; lia.
Qed.

(** The search goes through all lanes. *)
Lemma find_lane_all q good lane :
  lane_count q = L → (lane < L)%nat → find_lane q good (lane_count q) lane = None → ∀ w, (w < L)%nat → good w = false.
Proof.
  intros E Hl Hf w Hw. rewrite E in Hf.
  pose proof (find_lane_none q good L lane E Hl Hf (if (lane <=? w)%nat then w - lane else w + L - lane)%nat) as H.
  unfold round in H. destruct (lane <=? w)%nat eqn:E1; bool_hyps.
  - replace (lane + (w - lane))%nat with w in H by lia. rewrite (proj2 (Nat.ltb_lt _ _) Hw) in H. apply H; lia.
  - replace (lane + (w + L - lane))%nat with (w + L)%nat in H by lia.
    rewrite (proj2 (Nat.ltb_ge (w + L) L)) in H by lia. replace (w + L - L)%nat with w in H by lia. apply H; lia.
Qed.

(** Slots of different lanes differ. *)
Lemma lane_cap_pos : (0 < lane_cap)%nat.
Proof. destruct Hcap as [k ->]. pose proof (Nat.pow_nonzero 2 k). lia. Qed.
Lemma slot_index_inj w v i j :
  slot_index lane_cap w i = slot_index lane_cap v j → w = v ∧ slot lane_cap i = slot lane_cap j.
Proof.
  unfold slot_index. rewrite !(ring_slot_mod lane_cap Hcap). pose proof lane_cap_pos.
  pose proof (Nat.mod_upper_bound i lane_cap ltac:(lia)). pose proof (Nat.mod_upper_bound j lane_cap ltac:(lia)).
  intros E. assert (w = v) by nia. subst. lia.
Qed.
Lemma slot_index_window h w v i j :
  slot_index lane_cap w i = slot_index lane_cap v j → (h <= i < h + lane_cap)%nat → (h <= j < h + lane_cap)%nat →
  w = v ∧ i = j.
Proof. intros [-> E]%slot_index_inj Hi Hj. split; [done|]. by apply (ring_slot_inj lane_cap Hcap h). Qed.

(** * Giving tasks to lanes *)

(** The queue and the task slots hold the tasks of the lanes that are not yet completed. *)
Record holds (q : Queue) (slots : nat → CopyTask) (logs : nat → list CopyTask) : Prop := {
  hd_tail : ∀ w, (w < L)%nat → submit_tails q w = length (logs w);
  hd_room : ∀ w, (w < L)%nat → (completion_heads q w <= length (logs w) <= completion_heads q w + lane_cap)%nat;
  hd_tasks : ∀ w i t, (w < L)%nat → logs w !! i = Some t → (completion_heads q w <= i)%nat →
    slots (slot_index lane_cap w i) = t;
}.

(** What no placing of tasks changes. *)
Definition same_shape (q q' : Queue) : Prop :=
  has_memory q' = has_memory q ∧ capacity q' = capacity q ∧ lane_capacity q' = lane_capacity q ∧
  lane_count q' = lane_count q ∧ completion_cursor q' = completion_cursor q ∧
  completion_heads q' = completion_heads q ∧ accepted q' = accepted q ∧ completed q' = completed q ∧
  running q' = running q ∧ accepting q' = accepting q.

Lemma holds_place q slots logs lane t :
  lane_capacity q = lane_cap → (lane < L)%nat → lane_has_room q lane = true → holds q slots logs →
  holds (with_submitted q lane) (<[slot_index lane_cap lane (submit_tails q lane) := t]> slots)
    (<[lane := logs lane ++ [t]]> logs).
Proof.
  intros Ec Hl Hr [Ht Hroom Htasks]. unfold lane_has_room in Hr. rewrite Ec in Hr. bool_hyps.
  pose proof (Ht lane Hl) as Htl. pose proof (Hroom lane Hl) as Hrl.
  split; cbn [with_submitted submit_tails completion_heads].
  - intros w Hw. destruct (decide (w = lane)) as [->|].
    + rewrite !fn_lookup_insert, length_app, Htl. cbn. lia.
    + rewrite !fn_lookup_insert_ne by done. by apply Ht.
  - intros w Hw. destruct (decide (w = lane)) as [->|].
    + rewrite fn_lookup_insert, length_app. cbn. lia.
    + rewrite fn_lookup_insert_ne by done. by apply Hroom.
  - intros w i u Hw Hi Hh. destruct (decide (w = lane)) as [->|].
    + rewrite fn_lookup_insert in Hi. apply lookup_app_Some in Hi as [Hi|[Hge Hi]].
      * rewrite fn_lookup_insert_ne; [by apply Htasks|]. intros E. pose proof (lookup_lt_Some _ _ _ Hi).
        apply (slot_index_window (completion_heads q lane)) in E as [_ E]; lia.
      * destruct (i - length (logs lane))%nat eqn:Ei; [|done]. injection Hi as <-.
        replace i with (submit_tails q lane) by lia. apply fn_lookup_insert.
    + rewrite fn_lookup_insert_ne in Hi by done. rewrite fn_lookup_insert_ne; [by apply Htasks|].
      intros [E _]%slot_index_inj. done.
Qed.

Lemma waiting_length (logs : nat → list CopyTask) (heads : nat → nat) :
  (∀ w, (w < L)%nat → (heads w <= length (logs w))%nat) →
  (length (seq 0 L ≫= λ w, drop (heads w) (logs w)) + length (seq 0 L ≫= λ w, take (heads w) (logs w))
   = length (seq 0 L ≫= logs))%nat.
Proof.
  intros _. clear. induction (seq 0 L) as [|w l IH]; [done|]. rewrite !bind_cons, !length_app. rewrite <- IH.
  pose proof (f_equal length (take_drop (heads w) (logs w))) as E. rewrite length_app in E. lia.
Qed.

(** While the tasks of all lanes are fewer than the capacity, a lane has room. *)
Lemma lane_found q slots logs :
  lane_capacity q = lane_cap → lane_count q = L → (submit_cursor q < L)%nat → holds q slots logs →
  (length (seq 0 L ≫= λ w, drop (completion_heads q w) (logs w)) < L * lane_cap)%nat →
  ∃ lane, find_lane q (lane_has_room q) (lane_count q) (submit_cursor q) = Some lane.
Proof.
  intros Ec El Hcur [Ht Hroom _] Hlt. destruct (find_lane _ _ _ _) as [lane|] eqn:E; [by exists lane|exfalso].
  pose proof (find_lane_all q (lane_has_room q) (submit_cursor q) El Hcur E) as Hfull.
  pose proof (gather_bound L (λ w, drop (completion_heads q w) (logs w)) lane_cap) as Hg.
  assert (L * lane_cap <= length (seq 0 L ≫= λ w, drop (completion_heads q w) (logs w)))%nat; [|lia].
  apply Hg. intros w Hw. specialize (Hfull w Hw). unfold lane_has_room in Hfull. rewrite Ec in Hfull. bool_hyps.
  rewrite length_drop. rewrite (Ht w Hw) in Hfull. lia.
Qed.

Lemma insert_gather {A} (g : nat → list A) lane x :
  (lane < L)%nat → seq 0 L ≫= <[lane := g lane ++ [x]]> g ≡ₚ x :: (seq 0 L ≫= g).
Proof.
  intros Hl. destruct (gather_seq L lane g Hl) as (rest & -> & Hg). rewrite Hg.
  - rewrite fn_lookup_insert. solve_Permutation.
  - intros v Hv. by apply fn_lookup_insert_ne.
Qed.

(** The tasks that wait, after one more was placed. *)
Lemma waiting_place (logs : nat → list CopyTask) (heads : nat → nat) lane t :
  (lane < L)%nat → (heads lane <= length (logs lane))%nat →
  length (seq 0 L ≫= λ w, drop (heads w) ((<[lane := logs lane ++ [t]]> logs) w)) =
  S (length (seq 0 L ≫= λ w, drop (heads w) (logs w))).
Proof.
  intros Hl Hh. destruct (gather_seq L lane (λ w, drop (heads w) (logs w)) Hl) as (rest & -> & Hg). rewrite Hg.
  - rewrite fn_lookup_insert, drop_app_le by done. rewrite !length_app. cbn. lia.
  - intros v Hv. by rewrite fn_lookup_insert_ne.
Qed.

(** All tasks are placed when there is room for them. *)
Record places (q q' : Queue) (slots' : nat → CopyTask) (dirty dirty' : Z) (lanes : list nat) (found : bool)
    (logs logs' : nat → list CopyTask) (tasks : list CopyTask) : Prop := {
  pl_found : found = true;
  pl_length : length lanes = length tasks;
  pl_shape : same_shape q q';
  pl_cursor : (submit_cursor q' < L)%nat;
  pl_holds : holds q' slots' logs';
  pl_dirty : ∀ w, (w < L)%nat → Z.testbit dirty' (Z.of_nat w) = Z.testbit dirty (Z.of_nat w) || bool_decide (w ∈ lanes);
  pl_other : ∀ w, w ∉ lanes → logs' w = logs w;
  pl_prefix : ∀ w, logs w `prefix_of` logs' w;
  pl_tasks : seq 0 L ≫= logs' ≡ₚ tasks ++ (seq 0 L ≫= logs);
}.

Lemma place_tasks_spec tasks : ∀ q slots dirty logs,
  lane_capacity q = lane_cap → lane_count q = L → (submit_cursor q < L)%nat → holds q slots logs →
  (length (seq 0 L ≫= λ w, drop (completion_heads q w) (logs w)) + length tasks <= L * lane_cap)%nat →
  let '(q', slots', dirty', lanes, found) := place_tasks q slots dirty tasks in
  places q q' slots' dirty dirty' lanes found logs (add_logs logs lanes tasks) tasks.
Proof.
  induction tasks as [|t tasks IH]; intros q slots dirty logs Ec El Hcur Hh Hroom; cbn [place_tasks].
  { cbn. split; try done. intros w Hw. by rewrite bool_decide_eq_false_2, orb_false_r by set_solver. }
  cbn [length] in Hroom. destruct (lane_found q slots logs Ec El Hcur Hh) as (lane & E); [lia|]. rewrite E.
  apply (find_lane_some q _ _ _ _ El Hcur) in E as [Hr Hl]. rewrite Ec.
  specialize (IH (with_submitted q lane) (<[slot_index lane_cap lane (submit_tails q lane) := t]> slots)
    (Z.lor dirty (Z.shiftl 1 (Z.of_nat lane))) (<[lane := logs lane ++ [t]]> logs) Ec El).
  pose proof (hd_room _ _ _ Hh lane Hl) as Hlr. cbn [with_submitted submit_cursor completion_heads] in IH.
  specialize (IH (proj2 (next_lane_round q lane El Hl)) (holds_place q slots logs lane t Ec Hl Hr Hh)).
  rewrite waiting_place in IH by (done || lia). specialize (IH ltac:(lia)).
  destruct (place_tasks _ _ _ tasks) as [[[[q' slots'] dirty'] lanes] found]. destruct IH as [F1 F2 F3 F4 F5 F6 F7 F8 F9].
  cbn [add_logs]. split; [done|cbn; lia|done|done|done| | | |].
  - intros w Hw. rewrite F6 by done. rewrite Z.lor_spec, Z.shiftl_mul_pow2, Z.mul_1_l, Z.pow2_bits_eqb by lia.
    rewrite <- orb_assoc. f_equal. apply eq_bool_prop_intro. rewrite orb_True, !bool_decide_spec, elem_of_cons.
    rewrite Is_true_true, Z.eqb_eq. split; [intros [?|?]; [left; lia|by right]|intros [->|?]; [by left|by right]].
  - intros w [Hne Hn]%not_elem_of_cons. rewrite F7 by done. by apply fn_lookup_insert_ne.
  - intros w. etrans; [|apply F8]. destruct (decide (w = lane)) as [->|].
    + rewrite fn_lookup_insert. by apply prefix_app_r.
    + by rewrite fn_lookup_insert_ne.
  - rewrite F9, insert_gather by done. solve_Permutation.
Qed.

End Lanes.

(** * The invariant *)

(** How many completions a warp has written, and how many tasks it has copied. *)
Definition written (x : Warp) : nat :=
  match x with ds_poll h | ds_done h => h | ds_batch h _ k | ds_write h _ k _ => h + k end.
Definition copies (x : Warp) : nat :=
  match x with ds_poll h | ds_done h => h | ds_batch h _ k => h + k | ds_write h _ k _ => S (h + k) end.

Definition warp_ok (log : list CopyTask) (ctail : nat) (stop : bool) (x : Warp) : Prop :=
  match x with
  | ds_poll h => h = ctail
  | ds_batch h c k => h = ctail ∧ (h + c <= length log)%nat ∧ (k <= c)%nat
  | ds_write h c k t => h = ctail ∧ (h + c <= length log)%nat ∧ (k < c)%nat ∧ log !! (h + k)%nat = Some t
  | ds_done h => h = ctail ∧ h = length log ∧ stop = true
  end.

Section Invariant.
Context (L batch lane_cap : nat) (HL : (0 < L)%nat) (Hcap : ∃ k, lane_cap = (2 ^ k)%nat).

Record lane_inv (s : World) (w : nat) : Prop := {
  ln_tail : task_tails (mapped s) w = length (logs s w);
  ln_done : (completion_heads (queue s) w <= completion_tails (mapped s) w <= length (logs s w))%nat;
  ln_warp : warp_ok (logs s w) (completion_tails (mapped s) w) (stop_flags (mapped s) w) (warps s w);
  ln_completions : ∀ i t, logs s w !! i = Some t → (completion_heads (queue s) w <= i < written (warps s w))%nat →
    completion_slots (mapped s) (slot_index lane_cap w i) = completion_of t;
  ln_copied : ∀ i t, (w, i, t) ∈ copied s ↔ logs s w !! i = Some t ∧ (i < copies (warps s w))%nat;
}.

(** The tasks of the lanes whose completions were polled. *)
Definition taken_back (s : World) : list CopyTask := seq 0 L ≫= λ w, take (completion_heads (queue s) w) (logs s w).

Record inv (s : World) : Prop := {
  si_shape : has_memory (queue s) = true ∧ capacity (queue s) = (L * lane_cap)%nat ∧
    lane_capacity (queue s) = lane_cap ∧ lane_count (queue s) = L;
  si_cursors : (submit_cursor (queue s) < L)%nat ∧ (completion_cursor (queue s) < L)%nat;
  si_stop : ∀ w, (w < L)%nat → stop_flags (mapped s) w = true → accepting (queue s) = false;
  si_holds : holds L lane_cap (queue s) (task_slots (mapped s)) (logs s);
  si_lanes : ∀ w, (w < L)%nat → lane_inv s w;
  si_counts : accepted (queue s) = length (seq 0 L ≫= logs s) ∧ completed (queue s) = length (taken_back s);
  si_submitted : submitted s ≡ₚ seq 0 L ≫= logs s;
  si_polled : polled s ≡ₚ completion_of <$> taken_back s;
  si_copied : ∀ x, x ∈ copied s → (x.1.1 < L)%nat;
  si_once : NoDup (copied s).*1;
}.

Lemma written_range log ctail stop x : warp_ok log ctail stop x → (ctail <= length log)%nat →
  (ctail <= written x <= copies x)%nat ∧ (copies x <= length log)%nat.
Proof. clear HL. destruct x; cbn; intros Hx Hc; destruct_and?; lia. Qed.

(** ** Steps of the host *)

(** Tasks arrive in a lane that was not asked to stop. *)
Lemma sharded_warp_extend log log' ctail x :
  log `prefix_of` log' → warp_ok log ctail false x → warp_ok log' ctail false x.
Proof.
  intros [k ->]. destruct x; cbn; rewrite ?length_app; intros Hx; destruct_and?; split_and?; try done; try lia.
  by apply lookup_app_l_Some.
Qed.

Lemma add_logs_take lanes tasks : ∀ lg n,
  (length lanes <= n)%nat → add_logs lg lanes tasks = add_logs lg lanes (take n tasks).
Proof.
  revert tasks. induction lanes as [|lane lanes IH]; intros tasks lg n Hn; [done|]. cbn [length] in Hn.
  destruct tasks as [|t tasks], n as [|n]; try done; try lia. cbn [take add_logs]. apply IH. lia.
Qed.

Lemma waiting_count s : inv s →
  (length (seq 0 L ≫= λ w, drop (completion_heads (queue s) w) (logs s w)) + completed (queue s) = accepted (queue s))%nat.
Proof.
  intros I. destruct (si_counts _ I) as [-> ->]. apply waiting_length. intros w Hw.
  pose proof (ln_done _ _ (si_lanes _ I w Hw)). lia.
Qed.

(** A call to submit: which lanes get the tasks, or that nothing changes. *)
Lemma submit_cases s tasks :
  inv s →
  let '(q, m, status, n, lanes) := try_submit_batch (queue s) (mapped s) tasks in
  status ≠ EIO ∧
  ((q, m, n, lanes) = (queue s, mapped s, 0%nat, []) ∨
   status = 0 ∧ accepting (queue s) = true ∧ (n <= length tasks)%nat ∧
   ∃ q' slots' dirty', q = with_accepted q' n ∧
     places L lane_cap (queue s) q' slots' 0 dirty' lanes true (logs s) (add_logs (logs s) lanes (take n tasks)) (take n tasks) ∧
     m = mkMapped (λ lane, if (lane <? L)%nat && Z.testbit dirty' (Z.of_nat lane) then submit_tails q' lane
                           else task_tails (mapped s) lane)
           (completion_tails (mapped s)) (stop_flags (mapped s)) slots' (completion_slots (mapped s))).
Proof.
  intros I. pose proof (waiting_count s I) as Hw. destruct (si_shape _ I) as (Hm & Hc & Hlc & Hl).
  unfold try_submit_batch. destruct (_ || _ || _) eqn:E0; [split; [done|by left]|].
  apply orb_false_iff in E0 as [[_ Ha%negb_false_iff]%orb_false_iff _].
  rewrite Hc. destruct (_ <=? _)%nat eqn:E1; [split; [done|by left]|]. apply Nat.leb_gt in E1.
  set (n := Nat.min _ _). destruct (existsb bad_task _); [split; [done|by left]|].
  pose proof (place_tasks_spec L lane_cap HL Hcap (take n tasks) (queue s) (task_slots (mapped s)) 0 (logs s)
    Hlc Hl (proj1 (si_cursors _ I)) (si_holds _ I)) as P.
  rewrite length_take in P. specialize (P ltac:(unfold n; lia)).
  destruct (place_tasks _ _ _ _) as [[[[q' slots'] dirty'] lanes] found]. pose proof (pl_found _ _ _ _ _ _ _ _ _ _ _ _ P) as ->.
  cbn [negb]. split; [done|]. right. split_and!; [done|done|unfold n; lia|].
  exists q', slots', dirty'. split_and!; [done|done|].
  destruct (pl_shape _ _ _ _ _ _ _ _ _ _ _ _ P) as (_ & _ & _ & -> & _). by rewrite Hl.
Qed.

Lemma take_prefix {A} (l l' : list A) n : l `prefix_of` l' → (n <= length l)%nat → take n l' = take n l.
Proof. intros [k ->] Hn. by rewrite take_app_le. Qed.

Lemma sharded_submit_inv s tasks s' : inv s → step L batch lane_cap s (ev_submit tasks) = Some s' → inv s'.
Proof.
  intros I. cbn [step]. pose proof (submit_cases s tasks I) as C.
  destruct (try_submit_batch _ _ tasks) as [[[[q m] status] n] lanes].
  destruct C as [_ [[= -> -> -> ->]|(-> & Ha & Hn & q' & slots' & dirty' & -> & P & ->)]]; intros [= <-].
  { cbn. rewrite take_0, app_nil_r. by destruct s. }
  assert (length lanes = n) as Hlen.
  { rewrite (pl_length _ _ _ _ _ _ _ _ _ _ _ _ P), length_take. lia. }
  rewrite (add_logs_take lanes tasks (logs s) n) by lia. set (lg := add_logs _ _ _) in *.
  destruct P as [_ _ Sh Cu Hh Hd Ho Hp Ht].
  destruct Sh as (S1 & S2 & S3 & S4 & S5 & S6 & S7 & S8 & S9 & S10). pose proof I as [].
  assert (∀ w, (w < L)%nat → stop_flags (mapped s) w = false) as Hstop.
  { intros w Hw. destruct (stop_flags (mapped s) w) eqn:E; [|done]. by rewrite (si_stop0 w Hw E) in Ha. }
  set (s' := mkWorld _ _ _ _ _ _ _).
  assert (taken_back s' = taken_back s) as Htb.
  { apply Forall_bind_ext, Forall_seq. intros w Hw. cbn. rewrite S6. apply take_prefix; [done|].
    pose proof (ln_done _ _ (si_lanes0 w ltac:(lia))). lia. }
  split.
  - cbn. by rewrite S1, S2, S3, S4.
  - cbn. rewrite S5. split; [done|apply si_cursors0].
  - cbn. rewrite S10. done.
  - destruct Hh as [H1 H2 H3]. by split.
  - intros w Hw. destruct (si_lanes0 w Hw) as [N1 N2 N3 N4 N5]. pose proof (Hp w) as Hpw.
    pose proof (prefix_length _ _ Hpw) as Hlw.
    destruct (written_range _ _ _ _ N3 (proj2 N2)) as [Hwr Hcp].
    assert (∀ i t, (i < length (logs s w))%nat → lg w !! i = Some t ↔ logs s w !! i = Some t) as Hlook.
    { intros i t Hi. destruct Hpw as [k ->]. by rewrite lookup_app_l. }
    split; cbn [queue mapped warps copied logs s' task_tails completion_tails stop_flags completion_slots with_accepted
      completion_heads].
    + rewrite (proj2 (Nat.ltb_lt _ _) Hw), (Hd w Hw), Z.testbit_0_l. cbn [andb orb]. case_bool_decide as Hin.
      * apply (hd_tail _ _ _ _ _ Hh w Hw).
      * by rewrite (Ho w Hin).
    + rewrite S6. lia.
    + rewrite Hstop in * by done. by apply (sharded_warp_extend (logs s w)).
    + rewrite S6. intros i t Hi Hr. apply N4; [|done]. apply Hlook; [lia|done].
    + intros i t. rewrite N5. split; intros [H1 H2]; (split; [|done]); apply Hlook; done || lia.
  - rewrite Htb. cbn. rewrite S7, S8. split; [|apply si_counts0].
    rewrite Ht, length_app, length_take, (proj1 si_counts0). lia.
  - cbn. rewrite Ht, si_submitted0. solve_Permutation.
  - rewrite Htb. done.
  - done.
  - done.
Qed.

Lemma poll_lane s : inv s →
  let '(q, status, c, lane) := try_poll (queue s) (mapped s) in
  (status = 0 ∧ q = with_polled (queue s) lane ∧ (lane < L)%nat ∧
   ∃ t, logs s lane !! completion_heads (queue s) lane = Some t ∧ c = completion_of t ∧
     (completion_heads (queue s) lane < completion_tails (mapped s) lane)%nat) ∨
  status = EAGAIN ∧ q = queue s ∧ ∀ w, (w < L)%nat → completion_heads (queue s) w = completion_tails (mapped s) w.
Proof.
  intros I. destruct (si_shape _ I) as (Hm & Hc & Hlc & Hl). unfold try_poll. rewrite Hm. cbn [negb].
  destruct (find_lane _ _ _ _) as [lane|] eqn:E.
  - left. apply (find_lane_some L) in E as [Hr Hlane]; [|done|done|apply I]. bool_hyps. split_and!; [done|done|done|].
    destruct (si_lanes _ I lane Hlane) as [N1 N2 N3 N4 N5]. destruct (written_range _ _ _ _ N3 (proj2 N2)) as [Hw _].
    destruct (lookup_lt_is_Some_2 (logs s lane) (completion_heads (queue s) lane)) as [t Ht]; [lia|].
    exists t. split_and!; [done| |done]. rewrite Hlc. apply N4; [done|lia].
  - right. split_and!; [done|done|]. intros w Hw.
    pose proof (find_lane_all L HL _ _ _ Hl (proj2 (si_cursors _ I)) E w Hw) as Hf. cbv beta in Hf. apply Nat.ltb_ge in Hf.
    pose proof (ln_done _ _ (si_lanes _ I w Hw)). lia.
Qed.

Lemma sharded_poll_inv s s' : inv s → step L batch lane_cap s ev_poll = Some s' → inv s'.
Proof.
  intros I. cbn [step]. pose proof (poll_lane s I) as C. destruct (try_poll _ _) as [[[q status] c] lane].
  destruct C as [(-> & -> & Hl & t & Ht & -> & Hlt)|(-> & -> & _)]; intros [= <-]; [|by destruct s].
  cbn [Z.eqb]. pose proof I as []. destruct si_shape0 as (Hm & Hc & Hlc & Hlanes). set (s' := mkWorld _ _ _ _ _ _ _).
  assert (∀ w, completion_heads (queue s') w = if decide (w = lane) then S (completion_heads (queue s) lane)
                                               else completion_heads (queue s) w) as Hheads.
  { intros w. cbn. case_decide as E; [subst w; by rewrite fn_lookup_insert|by rewrite fn_lookup_insert_ne]. }
  assert (taken_back s' ≡ₚ t :: taken_back s) as Htb.
  { destruct (gather_seq L lane (λ w, take (completion_heads (queue s) w) (logs s w)) Hl) as (rest & E & Hg).
    unfold taken_back. rewrite E, Hg.
    - rewrite Hheads, decide_True by done. cbn [logs s']. rewrite (take_S_r _ _ _ Ht). solve_Permutation.
    - intros v Hv. by rewrite Hheads, decide_False. }
  split; try done.
  - split; [apply si_cursors0|]. by apply next_lane_round.
  - destruct si_holds0 as [H1 H2 H3]. split; [done| |].
    + intros w Hw. rewrite Hheads. specialize (H2 w Hw). cbn [logs s']. apply lookup_lt_Some in Ht.
      case_decide; [subst w; lia|done].
    + intros w i u Hw Hi Hh. apply H3; [done|done|]. rewrite Hheads in Hh. case_decide; [subst w; lia|done].
  - intros w Hw. destruct (si_lanes0 w Hw) as [N1 N2 N3 N4 N5]. split; [done| |done| |done].
    + rewrite Hheads. case_decide; [subst w; cbn; lia|done].
    + intros i u Hi Hr. apply N4; [done|]. rewrite Hheads in Hr. change (warps s') with (warps s) in Hr. case_decide; [subst w; lia|done].
  - split; [apply si_counts0|]. rewrite Htb. cbn. by rewrite (proj2 si_counts0).
  - rewrite Htb. cbn. rewrite si_polled0. solve_Permutation.
Qed.

Lemma sharded_stop_inv s s' : inv s → step L batch lane_cap s ev_stop = Some s' → inv s'.
Proof.
  intros I. pose proof I as []. cbn [step]. unfold request_stop. destruct (_ || _); intros [= <-]; [by destruct s|].
  destruct si_shape0 as (Hm & Hc & Hlc & Hlanes). split; try done.
  - destruct si_holds0 as [H1 H2 H3]. by split.
  - intros w Hw. destruct (si_lanes0 w Hw) as [N1 N2 N3 N4 N5]. split; try done.
    cbn [mapped stop_flags completion_tails logs warps]. rewrite Hlanes, (proj2 (Nat.ltb_lt _ _) Hw).
    destruct (warps s w); cbn in *; tauto.
Qed.

(** ** Steps of a warp *)

Definition with_warp (s : World) (m : Mapped) (w : nat) (x : Warp) (c : list (nat * nat * CopyTask)) : World :=
  mkWorld (queue s) m (<[w := x]> (warps s)) (c ++ copied s) (logs s) (submitted s) (polled s).

(** A step of a warp concerns its lane only. *)
Lemma lane_step s w m x c :
  inv s → (w < L)%nat →
  task_tails m = task_tails (mapped s) → stop_flags m = stop_flags (mapped s) → task_slots m = task_slots (mapped s) →
  (∀ v, v ≠ w → completion_tails m v = completion_tails (mapped s) v) →
  (∀ v i, v ≠ w → completion_slots m (slot_index lane_cap v i) = completion_slots (mapped s) (slot_index lane_cap v i)) →
  (∀ y, y ∈ c → y.1.1 = w) → NoDup (c ++ copied s).*1 →
  lane_inv (with_warp s m w x c) w → inv (with_warp s m w x c).
Proof.
  intros I Hw E1 E2 E3 E4 E5 E6 E7 Hlane. pose proof I as []. split; try done.
  - cbn. by rewrite E2.
  - cbn. by rewrite E3.
  - intros v Hv. destruct (decide (v = w)) as [->|Hne]; [done|]. destruct (si_lanes0 v Hv) as [N1 N2 N3 N4 N5].
    split; cbn [with_warp queue mapped warps copied logs].
    + by rewrite E1.
    + by rewrite E4.
    + rewrite E2, E4, fn_lookup_insert_ne by done. done.
    + rewrite fn_lookup_insert_ne by done. intros i t Hi Hr. rewrite E5 by done. by apply N4.
    + intros i t. rewrite elem_of_app, fn_lookup_insert_ne, N5 by done. split; [|by right].
      intros [Hy|?]; [|done]. by apply E6 in Hy.
  - cbn. intros y [Hy|Hy]%elem_of_app; [by rewrite (E6 y Hy)|by apply si_copied0].
Qed.

(** ... and one that changes neither memory nor what was copied. *)
Lemma lane_quiet s w x :
  inv s → (w < L)%nat → warp_ok (logs s w) (completion_tails (mapped s) w) (stop_flags (mapped s) w) x →
  written x = written (warps s w) → copies x = copies (warps s w) → inv (with_warp s (mapped s) w x []).
Proof.
  intros I Hw Hok Ew Ec. pose proof (si_lanes _ I w Hw) as [N1 N2 N3 N4 N5].
  apply lane_step; try done; [set_solver|apply I|].
  split; cbn [with_warp queue mapped warps copied logs app]; rewrite ?fn_lookup_insert, ?Ew; try done.
  intros i t. rewrite N5, Ec. done.
Qed.

Lemma sharded_warp_step_inv s w s' : inv s → step L batch lane_cap s (ev_warp w) = Some s' → inv s'.
Proof.
  intros I. cbn [step]. destruct (w <? L)%nat eqn:Ew; [|done]. apply Nat.ltb_lt in Ew.
  pose proof (si_lanes _ I w Ew) as [N1 N2 N3 N4 N5]. destruct (warps s w) as [h|h c k|h c k t|h] eqn:Ex; cbn [warp_step].
  - rewrite N1. cbn in N3. subst h. destruct (_ <? _)%nat eqn:E; bool_hyps.
    + intros [= <-]. apply (lane_quiet s w); rewrite ?Ex; try done; cbn; [|lia..]. split_and!; [done|lia|lia].
    + destruct (stop_flags _ _) eqn:Es; [|done]. intros [= <-].
      apply (lane_quiet s w); rewrite ?Ex; try done. cbn. rewrite Es. split_and!; [done|lia|done].
  - cbn in N3. destruct N3 as (-> & Hc & Hk). destruct (_ <? _)%nat eqn:E; intros [= <-]; bool_hyps.
    + set (i0 := (completion_tails (mapped s) w + k)%nat).
      destruct (lookup_lt_is_Some_2 (logs s w) i0) as [t Ht]; [unfold i0; lia|].
      assert (task_slots (mapped s) (slot_index lane_cap w i0) = t) as Et
        by (apply (hd_tasks _ _ _ _ _ (si_holds _ I)); [done|done|unfold i0; lia]).
      rewrite Et. apply (lane_step s w (mapped s) (ds_write _ c k t) [(w, i0, t)]); try done; [by intros y ->%list_elem_of_singleton|..].
      * cbn. constructor; [|apply I]. intros ([[v j] u] & Ej & Hj)%list_elem_of_fmap. cbn [fst] in Ej.
        injection Ej as <- <-. apply N5 in Hj as [_ Hj]. cbn in Hj. unfold i0 in Hj. lia.
      * split; cbn [with_warp queue mapped warps copied logs]; rewrite ?fn_lookup_insert; try done.
        intros i u. cbn [app]. rewrite elem_of_cons, N5. cbn [copies]. split.
        -- intros [[= -> ->]|[H1 H2]]; [split; [done|unfold i0; lia]|split; [done|lia]].
        -- intros [H1 H2]. destruct (decide (i = i0)) as [->|Hne]; [left; congruence|right]. split; [done|].
           unfold i0 in Hne. lia.
    + assert (k = c) as -> by lia. apply (lane_step s w (with_completion_tail (mapped s) w _) (ds_poll _) []); try done.
      * intros v Hv. cbn. by apply fn_lookup_insert_ne.
      * set_solver.
      * apply I.
      * split; cbn [with_warp queue mapped warps copied logs with_completion_tail task_tails completion_tails stop_flags
          completion_slots app]; rewrite ?fn_lookup_insert; try done; lia.
  - cbn in N3. destruct N3 as (-> & Hc & Hk & Ht). intros [= <-].
    set (i0 := (completion_tails (mapped s) w + k)%nat) in *. apply (lane_step s w (with_completion (mapped s) _ _) (ds_batch _ c (S k)) []); try done.
    + intros v i Hv. cbn. apply fn_lookup_insert_ne. intros E. by apply (slot_index_inj L lane_cap HL Hcap) in E as [-> _].
    + set_solver.
    + apply I.
    + pose proof (hd_room _ _ _ _ _ (si_holds _ I) w Ew) as Hroom.
      split; cbn [with_warp queue mapped warps copied logs with_completion task_tails completion_tails stop_flags
        completion_slots app]; rewrite ?fn_lookup_insert; try done.
      * cbn [written]. intros i u Hi Hr. destruct (decide (i = i0)) as [->|Hne].
        -- rewrite fn_lookup_insert. unfold completion_of. by rewrite Ht in Hi; injection Hi as <-.
        -- rewrite fn_lookup_insert_ne; [apply N4; [done|]; cbn; unfold i0 in Hne; lia|]. intros E.
           apply lookup_lt_Some in Hi, Ht.
           apply (slot_index_window L lane_cap HL Hcap (completion_heads (queue s) w)) in E as [_ E]; [done|unfold i0; lia|lia].
      * intros i u. rewrite N5. cbn [copies]. unfold i0. by replace (completion_tails (mapped s) w + S k)%nat
          with (S (completion_tails (mapped s) w + k))%nat by lia.
  - done.
Qed.

Lemma sharded_step_inv s e s' : inv s → step L batch lane_cap s e = Some s' → inv s'.
Proof. destruct e; [apply sharded_submit_inv|apply sharded_poll_inv|apply sharded_stop_inv|apply sharded_warp_step_inv]. Qed.
Lemma sharded_run_inv es : ∀ s s', inv s → run L batch lane_cap s es = Some s' → inv s'.
Proof.
  induction es as [|e es IH]; intros s s' I; cbn [run]; [by intros [= <-]|].
  intros (s1 & H1 & H2)%bind_Some. apply (IH s1); [|done]. by apply (sharded_step_inv s e).
Qed.

(** ** Progress *)

Definition warp_work (n : nat) (x : Warp) : nat :=
  match x with
  | ds_poll h => 4 * (n - h) + 1
  | ds_batch h c k => 4 * (n - (h + c)) + 2 * (c - k) + 2
  | ds_write h c k _ => 4 * (n - (h + c)) + 2 * (c - k) + 1
  | ds_done _ => 0
  end.
(** How many steps the kernel can take before the host submits more. *)
Definition kernel_work (s : World) : nat := total_work (warp_work (length (submitted s))) L (warps s).

Lemma log_submitted s w : inv s → (w < L)%nat → (length (logs s w) <= length (submitted s))%nat.
Proof.
  intros I Hw. rewrite (si_submitted _ I). destruct (gather_seq L w (logs s) Hw) as (rest & -> & _).
  rewrite length_app. lia.
Qed.

Lemma sharded_warp_step_work s w m x c :
  (0 < batch)%nat → inv s → (w < L)%nat → warp_step batch lane_cap w (mapped s) (warps s w) = Some (m, x, c) →
  (warp_work (length (submitted s)) x < warp_work (length (submitted s)) (warps s w))%nat.
Proof.
  intros Hb I Hw. pose proof (log_submitted s w I Hw) as Hlog. pose proof (si_lanes _ I w Hw) as [N1 N2 N3 _ _].
  destruct (warps s w) as [h|h c0 k|h c0 k t|h]; cbn [warp_step] in *.
  - cbn in N3. rewrite N1. destruct (_ <? _)%nat eqn:E; bool_hyps.
    + remember (Nat.min _ batch) as b eqn:Eb. assert (0 < b ∧ b <= length (logs s w) - h)%nat as [? ?] by lia.
      intros [= <- <- <-]. cbn [warp_work]. lia.
    + destruct (stop_flags _ _); [|done]. intros [= <- <- <-]. cbn. lia.
  - cbn in N3. destruct (_ <? _)%nat eqn:E; bool_hyps; intros [= <- <- <-]; cbn [warp_work]; lia.
  - cbn in N3. intros [= <- <- <-]. cbn [warp_work]. lia.
  - done.
Qed.

Definition kernel_event (e : Event) : bool := match e with ev_warp _ => true | _ => false end.

Lemma sharded_kernel_run_work es : ∀ s s',
  (0 < batch)%nat → inv s → forallb kernel_event es = true → run L batch lane_cap s es = Some s' →
  (length es + kernel_work s' <= kernel_work s)%nat ∧ submitted s' = submitted s ∧ queue s' = queue s ∧ polled s' = polled s.
Proof.
  induction es as [|e es IH]; intros s s' Hb I; cbn [run forallb length].
  { intros _ [= <-]. split; [lia|done]. }
  intros [He Hes]%andb_true_iff (s1 & H1 & H2)%bind_Some.
  destruct (IH s1 s' Hb (sharded_step_inv _ _ _ I H1) Hes H2) as (Hw' & Hs' & Hq' & Hp').
  destruct e as [| | |w]; try done. cbn [step] in H1. destruct (w <? L)%nat eqn:Ew; [|done]. apply Nat.ltb_lt in Ew.
  apply bind_Some in H1 as ([[m x] c] & Hx & [= <-]).
  pose proof (total_work_insert (warp_work (length (submitted s))) L (warps s) w x Ew (sharded_warp_step_work s w m x c Hb I Ew Hx)).
  unfold kernel_work in *. cbn [warps submitted queue polled] in *. split_and!; [lia|done..].
Qed.

(** A warp that can make no step has completed the tasks of its lane. *)
Lemma warp_rests s w :
  inv s → (w < L)%nat → step L batch lane_cap s (ev_warp w) = None → completion_tails (mapped s) w = length (logs s w).
Proof.
  intros I Hw. pose proof (si_lanes _ I w Hw) as [N1 N2 N3 _ _]. cbn [step]. rewrite (proj2 (Nat.ltb_lt _ _) Hw).
  destruct (warps s w) as [h|h c0 k|h c0 k t|h]; cbn [warp_step] in *; cbn in N3.
  - rewrite N1. destruct (_ <? _)%nat eqn:E; bool_hyps; [done|]. intros _. lia.
  - by destruct (_ <? _)%nat.
  - done.
  - lia.
Qed.

Lemma sharded_kernel_progress s :
  inv s → (∃ e s', kernel_event e = true ∧ step L batch lane_cap s e = Some s') ∨
    ∀ w, (w < L)%nat → completion_tails (mapped s) w = length (logs s w).
Proof.
  intros I. destruct (decide (Forall (λ w, step L batch lane_cap s (ev_warp w) = None) (seq 0 L))) as [HF|HF].
  - right. intros w Hw. apply warp_rests; [done|done|]. rewrite Forall_forall in HF. apply HF, elem_of_seq. lia.
  - left. apply not_Forall_Exists in HF; [|intros ?; apply _]. apply Exists_exists in HF as (w & _ & Hw).
    destruct (step L batch lane_cap s (ev_warp w)) as [s'|] eqn:E; [|done]. by exists (ev_warp w), s'.
Qed.

(** Then a poll finds a completion, unless all were polled. *)
Lemma poll_finds s :
  inv s → (∀ w, (w < L)%nat → completion_tails (mapped s) w = length (logs s w)) →
  (length (polled s) < length (submitted s))%nat → (try_poll (queue s) (mapped s)).1.1.2 = 0.
Proof.
  intros I Hall Hlt. pose proof (poll_lane s I) as C. destruct (try_poll _ _) as [[[q status] c] lane].
  destruct C as [(-> & _)|(_ & _ & Hheads)]; [done|exfalso].
  assert (taken_back s = seq 0 L ≫= logs s) as E.
  { apply Forall_bind_ext, Forall_seq. intros w Hw. rewrite Hheads, Hall by lia. apply firstn_all. }
  rewrite (si_polled _ I), (si_submitted _ I), length_fmap, E in Hlt. lia.
Qed.

End Invariant.

(** * From the allocation on *)

Lemma sharded_launch_inv cap L batch base s :
  launch cap L batch base = Some s →
  (0 < L)%nat ∧ (0 < batch)%nat ∧ (∃ k, (cap / L)%nat = (2 ^ k)%nat) ∧ inv L (cap / L) s.
Proof.
  unfold launch, allocate. destruct (_ || _ || _ || _) eqn:E0; [done|]. bool_hyps.
  destruct (dynamic_sharded_spsc_allocation_size _ _) as [bytes|] eqn:E1; [|done].
  unfold dynamic_sharded_spsc_allocation_size in E1. destruct (_ || _ || _ || _) eqn:E2 in E1; [done|]. bool_hyps.
  unfold start. cbn [has_memory running empty_queue negb orb Z.eqb].
  destruct (negb _); [done|]. cbn [Z.eqb]. intros [= <-].
  assert (0 < batch)%nat as Hb.
  { match goal with H : is_supported_device_batch _ = true |- _ => unfold is_supported_device_batch in H end. lia. }
  assert (0 < L)%nat as HL.
  { match goal with H : is_supported_copy_warps _ = true |- _ => unfold is_supported_copy_warps in H end. lia. }
  assert (cap = L * (cap / L))%nat as Hcl.
  { apply Nat.Div0.div_exact, Nat2Z.inj. by rewrite Nat2Z.inj_mod. }
  assert (∃ k, (cap / L)%nat = (2 ^ k)%nat) as Hcap.
  { apply checked_size_capacity in E1; [|lia..]. apply power_of_two_nat; rewrite Nat2Z.inj_div; [done|].
    pose proof (Z.div_le_upper_bound (Z.of_nat cap) (Z.of_nat L) (Z.of_nat cap)). nia. }
  pose proof (lane_cap_pos L (cap / L) HL Hcap) as Hpos.
  assert (∀ A (g : nat → list A), (∀ w, g w = []) → seq 0 L ≫= g = []) as Hnil.
  { intros A g Hg. clear -Hg. induction (seq 0 L) as [|w l IH]; [done|]. by rewrite bind_cons, Hg, IH. }
  split_and!; [done|done|done|].
  split; cbn [queue mapped warps copied submitted polled logs has_memory capacity lane_capacity lane_count submit_cursor
    completion_cursor accepted completed]; try done.
  - split; cbn; [done|lia|done].
  - intros w Hw. split; cbn; try done.
    intros i t. split; [by intros ?%not_elem_of_nil|by intros [? _]].
  - unfold taken_back. cbn. by rewrite !Hnil.
  - cbn. by rewrite Hnil.
  - unfold taken_back. cbn. by rewrite Hnil.
  - set_solver.
  - constructor.
Qed.

(** (C18) Whatever the host submits and however its calls and the warps interleave: every task is
    in one lane and, of each lane, the completions the host has polled are those of the first
    tasks, all of them copied; the kernel has copied nothing but the tasks of its lanes, none
    twice; no call to submit fails for want of a lane.  From there, every run of the kernel
    alone is bounded by [kernel_work] and can go on until a poll finds the next completion of
    a task not yet polled. *)
Theorem sharded_complete cap L batch base s0 es s :
  launch cap L batch base = Some s0 → run L batch (cap / L) s0 es = Some s →
  let heads := completion_heads (queue s) in
  submitted s ≡ₚ seq 0 L ≫= logs s ∧
  polled s ≡ₚ completion_of <$> (seq 0 L ≫= λ w, take (heads w) (logs s w)) ∧
  (∀ w i t, (w < L)%nat → logs s w !! i = Some t → (i < heads w)%nat → (w, i, t) ∈ copied s) ∧
  (∀ w i t, (w, i, t) ∈ copied s → (w < L)%nat ∧ logs s w !! i = Some t) ∧ NoDup (copied s).*1 ∧
  (∀ tasks, (try_submit_batch (queue s) (mapped s) tasks).1.1.2 ≠ EIO) ∧
  (∀ es' s', forallb kernel_event es' = true → run L batch (cap / L) s es' = Some s' →
     (length es' <= kernel_work L s)%nat ∧
     ((∃ e s'', kernel_event e = true ∧ step L batch (cap / L) s' e = Some s'') ∨
      ((length (polled s) < length (submitted s))%nat → (try_poll (queue s') (mapped s')).1.1.2 = 0))).
Proof.
  intros (HL & Hb & Hcap & I0)%sharded_launch_inv Hrun. set (lane_cap := (cap / L)%nat) in *.
  pose proof (sharded_run_inv L batch lane_cap HL Hcap _ _ _ I0 Hrun) as I. cbv zeta.
  pose proof I as []. split_and!; [done|done| | |done| |].
  - intros w i t Hw Hi Hlt. pose proof (si_lanes0 w Hw) as [N1 N2 N3 N4 N5]. apply N5. split; [done|].
    destruct (written_range _ _ _ _ N3 (proj2 N2)). lia.
  - intros w i t Hc. pose proof (si_copied0 _ Hc) as Hw. cbn in Hw. split; [done|].
    by apply (ln_copied _ _ _ (si_lanes0 w Hw)) in Hc as [? _].
  - intros tasks. pose proof (submit_cases L lane_cap HL Hcap s tasks I) as C.
    destruct (try_submit_batch _ _ tasks) as [[[[q m] status] n] lanes]. by destruct C as [? _].
  - intros es' s' He Hr. destruct (sharded_kernel_run_work L batch lane_cap HL Hcap _ _ _ Hb I He Hr) as (Hw & Hs & Hq & Hp).
    split; [lia|]. pose proof (sharded_run_inv L batch lane_cap HL Hcap _ _ _ I Hr) as I'.
    destruct (sharded_kernel_progress L batch lane_cap HL s' I') as [Hmove|Hrest]; [by left|right].
    rewrite <- Hs, <- Hp. by apply (poll_finds L lane_cap HL).
Qed.

(** Five tasks on four lanes: the first lane has two of them, and the second one is done
    first. *)
Definition sample (id : Z) : CopyTask := mkTask id (4096 + 64 * id) 64 0.
Definition sample_run : list Event :=
  [ev_submit [sample 0; sample 1; sample 2; sample 3; sample 4]; ev_warp 1; ev_warp 1; ev_warp 1; ev_poll; ev_warp 1;
   ev_poll; ev_warp 0; ev_warp 0; ev_warp 0; ev_warp 0; ev_warp 0; ev_warp 0; ev_poll; ev_poll; ev_poll].

Lemma sharded_complete_witness :
  ∃ s0 s, launch 16 4 2 4096 = Some s0 ∧ run 4 2 (16 / 4) s0 sample_run = Some s ∧
    polled s = [completion_of (sample 1); completion_of (sample 0); completion_of (sample 4)] ∧
    (0%nat, 1%nat, sample 4) ∈ copied s.
Proof.
  destruct (launch 16 4 2 4096) as [s0|] eqn:E0; [|vm_compute in E0; discriminate].
  destruct (run 4 2 (16 / 4) s0 sample_run) as [s|] eqn:E1.
  2: { vm_compute in E0. injection E0 as <-. vm_compute in E1. discriminate. }
  exists s0, s. split; [done|]. split; [done|]. split.
  - vm_compute in E0. injection E0 as <-. vm_compute in E1. injection E1 as <-. reflexivity.
  - pose proof (sharded_complete 16 4 2 4096 s0 sample_run s E0 E1) as (_ & _ & H & _).
    vm_compute in E0. injection E0 as <-. vm_compute in E1. injection E1 as <-.
    apply (H 0%nat 1%nat (sample 4)); [lia|reflexivity|vm_compute; lia].
Defined.

End ShardedQueue.
