(* ===== verification/AtomicQueue.v ===== *)
(** The queue with atomic claims (src/gpu/persistent_copy.cu, [DirectAtomicQueue] and
    [direct_atomic_kernel]): one ring of tasks, which the copy warps claim by a
    compare-and-swap of its head, and one ring of completions, in which a warp takes its places
    by an atomic addition to the tail; a completion has a sequence number that tells when it
    is there.

    A warp reads the task slots of its claim after the claim, one task at a time.  The host
    counts the tasks that are not completed, not the slots that are not read, so it may write
    a task over one that is claimed and not yet read: [claimed_task_lost] is such a run, and
    [atomic_delivers] is about hosts that do not come to it.  A task slot is read in one step;
    the other conventions are those of PartitionQueue.v. *)

From stdpp Require Import functions.
From S2P Require Import Prelude CopyHost WarpQueue WarpHost WarpOrder CopySetup.
Import Copy.

Module AtomicQueue.
Import WarpQueue (slot, write_tasks, write_tasks_old, write_tasks_new, bad_task, no_completion, ring_slot_inj, ring_slot_next,
  gather, gather_change, gather_same, elem_of_gather).
Import WarpHost (completion_of).
Import CopySetup.

(** * The queue *)

Record CompletionSlot := mkCompletion { completion : CopyCompletion; sequence : nat; batch_start : nat }.

(** [DirectAtomicControl] and the two arrays of slots behind it. *)
Record Mapped := mkMapped {
  task_tail : nat;
  task_head : nat;
  completion_tail : nat;
  stop_requested : bool;
  task_slots : nat → CopyTask;
  completion_slots : nat → CompletionSlot;
}.
Definition zeroed : Mapped := mkMapped 0 0 0 false (λ _, no_task) (λ _, mkCompletion no_completion 0 0).

Record Queue := mkQueue {
  has_memory : bool;
  capacity : nat;
  warps_of : nat;                    (* [copy_warps_] *)
  batch_of : nat;                    (* [device_batch_] *)
  stage_base : Z;
  submit_tail : nat;
  completion_head : nat;
  completed_device_batches : nat;
  running : bool;
  accepting : bool;
}.
Definition empty_queue : Queue := mkQueue false 0 0 0 0 0 0 0 false false.

Definition allocate (q : Queue) (cap warps batch : nat) (base pinned : Z) : Queue * Z :=
  if has_memory q || negb (is_supported_copy_warps (Z.of_nat warps)) || negb (is_supported_device_batch (Z.of_nat batch))
     || (cap <? batch)%nat || (base =? 0)
  then (q, EINVAL)
  else match direct_atomic_allocation_size (Z.of_nat cap) with
  | None => (q, EINVAL)
  | Some _ =>
      if negb (pinned =? 0) then (q, pinned)
      else (mkQueue true cap warps batch base (submit_tail q) (completion_head q) (completed_device_batches q)
              (running q) (accepting q), 0)
  end.

Definition dispatch_direct_atomic_variant (warps batch : nat) (resources : bool) : bool :=
  if decide (warps ∈ [4; 8; 16; 32]%nat)
  then if decide (batch ∈ [1; 2; 4; 8; 16; 32]%nat) then resources else false
  else false.

Definition start (q : Queue) (m : Mapped) (resources : bool) (launch_status : Z) : Queue * Mapped * Z :=
  if negb (has_memory q) || running q then (q, m, EINVAL)
  else
    let started b := mkQueue (has_memory q) (capacity q) (warps_of q) (batch_of q) (stage_base q) 0 0 0 b b in
    if negb (dispatch_direct_atomic_variant (warps_of q) (batch_of q) resources)
    then (started false, zeroed, EINVAL)
    else (started (launch_status =? 0), zeroed, launch_status).

Definition with_tail (q : Queue) (tail : nat) : Queue :=
  mkQueue (has_memory q) (capacity q) (warps_of q) (batch_of q) (stage_base q)
    tail (completion_head q) (completed_device_batches q) (running q) (accepting q).
Definition with_polled (q : Queue) (batches : nat) : Queue :=
  mkQueue (has_memory q) (capacity q) (warps_of q) (batch_of q) (stage_base q)
    (submit_tail q) (S (completion_head q)) (completed_device_batches q + batches) (running q) (accepting q).
Definition with_flags (q : Queue) (r a : bool) : Queue :=
  mkQueue (has_memory q) (capacity q) (warps_of q) (batch_of q) (stage_base q)
    (submit_tail q) (completion_head q) (completed_device_batches q) r a.

Definition try_submit_batch (q : Queue) (m : Mapped) (tasks : list CopyTask) : Queue * Mapped * Z * nat :=
  if negb (running q) || negb (accepting q) || (length tasks =? 0)%nat then (q, m, EINVAL, 0%nat)
  else
    let outstanding := (submit_tail q - completion_head q)%nat in
    if (capacity q <=? outstanding)%nat then (q, m, EAGAIN, 0%nat)
    else
      let available := (capacity q - outstanding)%nat in
      let count := Nat.min (length tasks) available in
      let taken := take count tasks in
      if existsb bad_task taken then (q, m, EINVAL, 0%nat)
      else
        let tail := (submit_tail q + count)%nat in
        (with_tail q tail,
         mkMapped tail (task_head m) (completion_tail m) (stop_requested m)
           (write_tasks (capacity q) (submit_tail q) taken (task_slots m)) (completion_slots m), 0, count).

Definition try_poll (q : Queue) (m : Mapped) : Queue * Z * CopyCompletion :=
  if negb (has_memory q) then (q, EINVAL, no_completion)
  else
    let s := completion_slots m (slot (capacity q) (completion_head q)) in
    if negb (sequence s =? S (completion_head q))%nat then (q, EAGAIN, no_completion)
    else (with_polled q (batch_start s), 0, completion s).

Definition request_stop (q : Queue) (m : Mapped) : Queue * Mapped * Z :=
  if negb (running q) || negb (accepting q) then (q, m, EINVAL)
  else (with_flags q (running q) false,
        mkMapped (task_tail m) (task_head m) (completion_tail m) true (task_slots m) (completion_slots m), 0).

Definition wait (q : Queue) (synchronized : Z) : Queue * Z :=
  if negb (running q) || accepting q then (q, EINVAL) else (with_flags q false (accepting q), synchronized).

Definition reset (q : Queue) (unpinned : Z) : Queue * Z :=
  if running q then (q, EBUSY) else (empty_queue, unpinned).

Definition drained (q : Queue) : bool := (submit_tail q =? completion_head q)%nat.

(** One task. *)
Definition try_submit (q : Queue) (m : Mapped) (t : CopyTask) : Queue * Mapped * Z :=
  let '(q, m, status, _) := try_submit_batch q m [t] in (q, m, status).
(** The destructor. *)
Definition destroy (q : Queue) (m : Mapped) (synchronized unpinned : Z) : Queue :=
  let q := if running q then (wait (request_stop q m).1.1 synchronized).1 else q in (reset q unpinned).1.

Lemma atomic_destroyed q m synchronized unpinned : destroy q m synchronized unpinned = empty_queue.
Proof.
  unfold destroy, reset. destruct (running q) eqn:E; [|by rewrite E]. unfold request_stop, wait. rewrite E. cbn [negb orb].
  destruct (accepting q) eqn:Ea; cbn [negb orb fst with_flags running accepting]; rewrite ?E, ?Ea; done.
Qed.

(** Two atomic operations per batch. *)
Definition host_system_atomic_operations (q : Queue) : nat := (completed_device_batches q * 2)%nat.

(** * The kernel *)

(** The first lane of a copy warp: at the load of the tail; at that of the head; at the
    compare-and-swap that claims [count] tasks from [head] on; at the load of the request to
    stop; at the loads that follow it; with a claim, at the addition to the completion tail;
    at the task [k] of its claim; with it copied, at its completion; gone. *)
Inductive Warp :=
| da_tail
| da_head (tail : nat)
| da_claim (head count : nat)
| da_stop
| da_final_tail
| da_final_head (tail : nat)
| da_ticket (base count : nat)
| da_task (base count ticket k : nat)
| da_complete (base count ticket k : nat) (t : CopyTask)
| da_done.

Section Kernel.
Context (W batch cap : nat).

Definition with_head (m : Mapped) (h : nat) : Mapped :=
  mkMapped (task_tail m) h (completion_tail m) (stop_requested m) (task_slots m) (completion_slots m).
Definition with_completion_tail (m : Mapped) (n : nat) : Mapped :=
  mkMapped (task_tail m) (task_head m) n (stop_requested m) (task_slots m) (completion_slots m).
Definition with_completion (m : Mapped) (i : nat) (c : CompletionSlot) : Mapped :=
  mkMapped (task_tail m) (task_head m) (completion_tail m) (stop_requested m) (task_slots m)
    (<[i := c]> (completion_slots m)).

(** The tasks a step takes places for in the ring of completions, and those it copies. *)
Definition warp_step (m : Mapped) (x : Warp) : option (Mapped * Warp * list nat * list (nat * CopyTask)) :=
  match x with
  | da_tail => Some (m, da_head (task_tail m), [], [])
  | da_head tail =>
      let head := task_head m in
      if (head <? tail)%nat
      then Some (m, da_claim head (Nat.min (tail - head) batch), [], [])
      else Some (m, da_stop, [], [])
  | da_claim head count =>
      if (task_head m =? head)%nat
      then Some (with_head m (head + count), da_ticket head count, [], [])
      else Some (m, da_tail, [], [])
  | da_stop => Some (m, if stop_requested m then da_final_tail else da_tail, [], [])
  | da_final_tail => Some (m, da_final_head (task_tail m), [], [])
  | da_final_head tail => Some (m, if (tail <=? task_head m)%nat then da_done else da_tail, [], [])
  | da_ticket base count =>
      Some (with_completion_tail m (completion_tail m + count), da_task base count (completion_tail m) 0,
            seq base count, [])
  | da_task base count ticket k =>
      if (k <? count)%nat
      then let t := task_slots m (slot cap (base + k)) in
           Some (m, da_complete base count ticket k t, [], [((base + k)%nat, t)])
      else Some (m, da_tail, [], [])
  | da_complete base count ticket k t =>
      let i := (ticket + k)%nat in
      Some (with_completion m (slot cap i)
              (mkCompletion (mkCopyCompletion (task_id t) task_success) (S i) (if (k =? 0)%nat then 1 else 0)),
            da_task base count ticket (S k), [], [])
  | da_done => None
  end.

(** [tickets] records for which task each place in the ring of completions was taken. *)
Record World := mkWorld {
  queue : Queue; mapped : Mapped; warps : nat → Warp; tickets : list nat;
  copied : list (nat * CopyTask); submitted : list CopyTask; polled : list CopyCompletion;
}.

Inductive Event := ev_submit (tasks : list CopyTask) | ev_poll | ev_stop | ev_warp (w : nat).

Definition step (s : World) (e : Event) : option World :=
  match e with
  | ev_submit tasks =>
      let '(q, m, status, n) := try_submit_batch (queue s) (mapped s) tasks in
      Some (mkWorld q m (warps s) (tickets s) (copied s) (submitted s ++ take n tasks) (polled s))
  | ev_poll =>
      let '(q, status, c) := try_poll (queue s) (mapped s) in
      Some (mkWorld q (mapped s) (warps s) (tickets s) (copied s) (submitted s)
              (if status =? 0 then polled s ++ [c] else polled s))
  | ev_stop =>
      let '(q, m, status) := request_stop (queue s) (mapped s) in
      Some (mkWorld q m (warps s) (tickets s) (copied s) (submitted s) (polled s))
  | ev_warp w =>
      if (w <? W)%nat
      then '(m, x, i, c) ← warp_step (mapped s) (warps s w);
           Some (mkWorld (queue s) m (<[w := x]> (warps s)) (tickets s ++ i) (c ++ copied s) (submitted s) (polled s))
      else None
  end.

Fixpoint run (s : World) (es : list Event) : option World :=
  match es with [] => Some s | e :: es => s' ← step s e; run s' es end.

(** The host submits only tasks that fit into the ring when they are the first ones, or when
    all tasks before them are completed. *)
Definition paced_event (s : World) (e : Event) : bool :=
  match e with
  | ev_submit tasks => drained (queue s) || (submit_tail (queue s) + length tasks <=? cap)%nat
  | _ => true
  end.
Fixpoint paced (s : World) (es : list Event) : bool :=
  match es with
  | [] => true
  | e :: es => paced_event s e && match step s e with Some s' => paced s' es | None => true end
  end.

End Kernel.

(** A queue is allocated and its kernel launched. *)
Definition launch (cap W batch : nat) (base : Z) : option World :=
  let '(q, allocated) := allocate empty_queue cap W batch base 0 in
  if negb (allocated =? 0) then None
  else
    let '(q, m, started) := start q zeroed true 0 in
    if started =? 0 then Some (mkWorld q m (λ _, da_tail) [] [] [] []) else None.

Definition sample (id : Z) : CopyTask := mkTask id (4096 + 64 * id) 64 0.
(** The steps of a warp from the load of the tail to the completion of one task. *)
Definition whole_task (w : nat) : list Event := repeat (ev_warp w) 7.

(** The first warp claims the first task and is delayed; the other three complete the next
    tasks, the host polls these and submits a fifth one, into the slot of the first. *)
Definition losing_run : list Event :=
  [ev_submit [sample 0; sample 1; sample 2; sample 3]; ev_warp 0; ev_warp 0; ev_warp 0] ++
  whole_task 1 ++ whole_task 2 ++ whole_task 3 ++ [ev_poll; ev_poll; ev_poll; ev_submit [sample 4]] ++
  repeat (ev_warp 0) 3 ++ whole_task 1 ++ [ev_poll; ev_poll].


(** (C21) All five tasks are accepted and five completions polled, but the first task is neither
    copied nor completed and the fifth one is both twice. *)
Theorem claimed_task_lost :
  ∃ s0 s, launch 4 4 1 4096 = Some s0 ∧ run 4 1 4 s0 losing_run = Some s ∧
    submitted s = (sample <$> [0; 1; 2; 3; 4]) ∧ (completed_id <$> polled s) = [1; 2; 3; 4; 4] ∧
    drained (queue s) = true ∧ (sample 0 ∉ (copied s).*2) ∧ (copied s).*2 = (sample <$> [4; 4; 3; 2; 1]).
Proof.
  eexists _, _. split; [reflexivity|]. split; [vm_compute; reflexivity|].
  split; [reflexivity|]. split; [reflexivity|]. split; [reflexivity|]. split; [|reflexivity].
  vm_compute. intros H. repeat (apply elem_of_cons in H as [H|H]; [discriminate|]). by apply not_elem_of_nil in H.
Qed.

(** * The invariant of paced runs *)

(** The tasks a warp claimed without a place for their completions, those it has yet to read,
    and the places it has yet to fill. *)
Definition unplaced (x : Warp) : list nat := match x with da_ticket b c => seq b c | _ => [] end.
Definition to_read (x : Warp) : list nat :=
  match x with
  | da_ticket b c => seq b c
  | da_task b c _ k => seq (b + k) (c - k)
  | da_complete b c _ k _ => seq (S (b + k)) (c - S k)
  | _ => []
  end.
Definition to_fill (x : Warp) : list nat :=
  match x with da_task _ c n k | da_complete _ c n k _ => seq (n + k) (c - k) | _ => [] end.

Section Invariant.
Context (W batch cap : nat) (Hcap : ∃ k, cap = (2 ^ k)%nat).

Definition claim_ok (l : list CopyTask) (tk : list nat) (b c n k : nat) : Prop :=
  (k <= c)%nat ∧ (b + c <= length l)%nat ∧ ∀ j, (j < c)%nat → tk !! (n + j)%nat = Some (b + j)%nat.
Definition warp_ok (l : list CopyTask) (m : Mapped) (tk : list nat) (x : Warp) : Prop :=
  match x with
  | da_head t => (t <= length l)%nat
  | da_claim h c => (h + c <= length l)%nat
  | da_final_tail => stop_requested m = true
  | da_final_head t => stop_requested m = true ∧ t = length l
  | da_ticket b c => (b + c <= length l)%nat
  | da_task b c n k => claim_ok l tk b c n k
  | da_complete b c n k t => claim_ok l tk b c n k ∧ (k < c)%nat ∧ l !! (b + k)%nat = Some t
  | da_done => stop_requested m = true ∧ (length l <= task_head m)%nat
  | _ => True
  end.

(** The completion of place [n] is there. *)
Definition filled (s : World) (n : nat) : Prop := (n < length (tickets s))%nat ∧ n ∉ gather to_fill W (warps s).
Definition unread (s : World) (i : nat) : Prop := (task_head (mapped s) <= i)%nat ∨ i ∈ gather to_read W (warps s).
(** The completion [c] is of task [i]. *)
Definition completes (l : list CopyTask) (c : CopyCompletion) (i : nat) : Prop :=
  ∃ t, l !! i = Some t ∧ c = completion_of t.

(** The completions before the head were polled, those behind it are in their slots. *)
Record completions_ok (s : World) : Prop := {
  ai_done : ∀ n, (n < completion_head (queue s))%nat → filled s n;
  ai_sequence : ∀ n, (completion_head (queue s) <= n < completion_head (queue s) + cap)%nat →
    sequence (completion_slots (mapped s) (slot cap n)) = S n ↔ filled s n;
  ai_completion : ∀ n i, tickets s !! n = Some i → (completion_head (queue s) <= n)%nat → filled s n →
    completes (submitted s) (completion (completion_slots (mapped s) (slot cap n))) i;
  ai_polled : Forall2 (completes (submitted s)) (polled s) (take (completion_head (queue s)) (tickets s));
}.

Record inv (s : World) : Prop := {
  ai_queue : has_memory (queue s) = true ∧ capacity (queue s) = cap;
  ai_tail : submit_tail (queue s) = length (submitted s) ∧ task_tail (mapped s) = length (submitted s);
  ai_stop : stop_requested (mapped s) = true → accepting (queue s) = false;
  ai_head : (task_head (mapped s) <= length (submitted s))%nat;
  ai_window : (completion_head (queue s) <= length (submitted s) <= completion_head (queue s) + cap)%nat;
  ai_tickets : completion_tail (mapped s) = length (tickets s);
  ai_warps : ∀ w, (w < W)%nat → warp_ok (submitted s) (mapped s) (tickets s) (warps s w);
  ai_placed : tickets s ++ gather unplaced W (warps s) ≡ₚ seq 0 (task_head (mapped s));
  ai_read : (copied s).*1 ++ gather to_read W (warps s) ≡ₚ seq 0 (task_head (mapped s));
  ai_fill : NoDup (gather to_fill W (warps s));
  ai_slots : ∀ i t, submitted s !! i = Some t → unread s i →
    task_slots (mapped s) (slot cap i) = t ∧ (length (submitted s) <= i + cap)%nat;
  ai_copied : ∀ i t, (i, t) ∈ copied s → submitted s !! i = Some t;
  ai_completions : completions_ok s;
}.

Lemma tickets_bound s : inv s → (length (tickets s) <= task_head (mapped s))%nat.
Proof.
  intros I. pose proof (Permutation_length (ai_placed _ I)) as E. rewrite length_app, length_seq in E. lia.
Qed.
Lemma filled_bound s n : inv s → filled s n → (n < length (submitted s))%nat.
Proof. intros I [Hn _]. pose proof (tickets_bound s I). pose proof (ai_head _ I). lia. Qed.

Lemma head_tickets s : inv s → (completion_head (queue s) <= length (tickets s))%nat.
Proof.
  intros I. destruct (completion_head (queue s)) as [|h] eqn:E; [lia|].
  destruct (ai_done _ (ai_completions _ I) h) as [H _]; lia.
Qed.

Lemma to_fill_bound s n : inv s → n ∈ gather to_fill W (warps s) → (n < length (tickets s))%nat.
Proof.
  intros I (w & Hw & Hn)%elem_of_gather. pose proof (ai_warps _ I w Hw) as Hok.
  destruct (warps s w) as [| | | | | | |b c n0 k|b c n0 k t|]; cbn in Hn, Hok; try by apply not_elem_of_nil in Hn.
  - apply elem_of_seq in Hn. destruct Hok as (_ & _ & Htk). eapply lookup_lt_Some. rewrite <- (Htk (n - n0)%nat ltac:(lia)). f_equal. lia.
  - apply elem_of_seq in Hn. destruct Hok as ((_ & _ & Htk) & _). eapply lookup_lt_Some. rewrite <- (Htk (n - n0)%nat ltac:(lia)). f_equal. lia.
Qed.

(** When all tasks are completed, all were read. *)
Lemma drained_read s i : inv s → completion_head (queue s) = length (submitted s) → unread s i → (length (submitted s) <= i)%nat.
Proof.
  intros I Hd. pose proof (tickets_bound s I) as Ht. pose proof (ai_head _ I) as Hh.
  assert (length (submitted s) <= length (tickets s))%nat as Hl.
  { rewrite <- Hd. by apply head_tickets. }
  intros [?|(w & Hw & Hr)%elem_of_gather]; [lia|exfalso].
  assert (gather unplaced W (warps s) = []) as Hnone.
  { apply length_zero_iff_nil. pose proof (Permutation_length (ai_placed _ I)) as E. rewrite length_app, length_seq in E. lia. }
  assert (unplaced (warps s w) = []) as Hu.
  { destruct (unplaced (warps s w)) as [|y l] eqn:E; [done|].
    assert (y ∈ gather unplaced W (warps s)) as Hy by (apply elem_of_gather; exists w; rewrite E; split; [done|by left]).
    rewrite Hnone in Hy. by apply not_elem_of_nil in Hy. }
  pose proof (ai_warps _ I w Hw) as Hok.
  assert (∀ n, n ∈ to_fill (warps s w) → (n < length (submitted s))%nat → False) as Hfill.
  { intros n Hn Hlt. destruct (ai_done _ (ai_completions _ I) n) as [_ Hnot]; [lia|]. apply Hnot, elem_of_gather. by exists w. }
  destruct (warps s w) as [| | | | | |b c|b c n k|b c n k t|]; cbn in Hr, Hu, Hok, Hfill; try by apply not_elem_of_nil in Hr.
  - rewrite Hu in Hr. by apply not_elem_of_nil in Hr.
  - destruct Hok as (Hk & _ & Htk). apply elem_of_seq in Hr. apply (Hfill (n + k)%nat); [apply elem_of_seq; lia|].
    pose proof (lookup_lt_Some _ _ _ (Htk k ltac:(lia))). lia.
  - destruct Hok as ((Hk & _ & Htk) & _). apply elem_of_seq in Hr. apply (Hfill (n + k)%nat); [apply elem_of_seq; lia|].
    pose proof (lookup_lt_Some _ _ _ (Htk k ltac:(lia))). lia.
Qed.

(** A step that fills no place. *)
Lemma completions_kept s s' tk :
  inv s → queue s' = queue s → completion_slots (mapped s') = completion_slots (mapped s) → submitted s' = submitted s →
  polled s' = polled s → tickets s' = tickets s ++ tk → (∀ n, filled s' n ↔ filled s n) → completions_ok s'.
Proof.
  intros I E1 E2 E3 E4 E5 Hf. pose proof (ai_completions _ I) as []. pose proof (head_tickets s I) as Hh.
  split; rewrite ?E1, ?E2, ?E3, ?E4, ?E5.
  - intros n Hn. by apply Hf, ai_done0.
  - intros n Hn. by rewrite Hf, ai_sequence0.
  - intros n i Hi Hn Hfn%Hf. rewrite lookup_app_l in Hi by apply Hfn. by apply ai_completion0.
  - by rewrite take_app_le.
Qed.

(** ** Steps of the host *)

Lemma completes_more l l' c i : completes l c i → completes (l ++ l') c i.
Proof. intros (t & Ht & ->). exists t. split; [by apply lookup_app_l_Some|done]. Qed.

Lemma warp_more l l' m m' tk x :
  stop_requested m = false → stop_requested m' = false → warp_ok l m tk x → warp_ok (l ++ l') m' tk x.
Proof.
  intros E E'. destruct x; cbn; unfold claim_ok; rewrite ?length_app, ?E; intros Hx; destruct_and?; split_and?; try done; try lia.
  by apply lookup_app_l_Some.
Qed.

Lemma atomic_submit_inv s tasks s' :
  inv s → paced_event cap s (ev_submit tasks) = true → step W batch cap s (ev_submit tasks) = Some s' → inv s'.
Proof.
  intros I Hpaced. cbn [step]. unfold try_submit_batch. destruct (_ || _ || _) eqn:E0.
  { intros [= <-]. rewrite take_0, app_nil_r. by destruct s. }
  apply orb_false_iff in E0 as [[_ Ha%negb_false_iff]%orb_false_iff _].
  destruct (ai_queue _ I) as [Hm Hc]. destruct (ai_tail _ I) as [Hst Htt]. rewrite Hc, Hst.
  destruct (_ <=? _)%nat eqn:E1; [intros [= <-]; rewrite take_0, app_nil_r; by destruct s|]. apply Nat.leb_gt in E1.
  remember (Nat.min _ _) as n eqn:En. destruct (existsb bad_task _); [intros [= <-]; rewrite take_0, app_nil_r; by destruct s|].
  intros [= <-]. pose proof I as []. set (ts := take n tasks). assert (length ts = n) as Hts by (unfold ts; rewrite length_take; lia).
  assert (stop_requested (mapped s) = false) as Hns.
  { destruct (stop_requested _) eqn:E; [|done]. by rewrite (ai_stop0 eq_refl) in Ha. }
  assert (∀ i, unread s i → (i < length (submitted s))%nat → (length (submitted s) + n <= i + cap)%nat) as Hroom.
  { intros i Hu Hi. cbn in Hpaced. apply orb_true_iff in Hpaced as [Hd|Hf]; bool_hyps; [|lia].
    unfold drained in Hd. bool_hyps. pose proof (drained_read s i I ltac:(lia) Hu). lia. }
  split; cbn [queue mapped warps tickets copied submitted polled with_tail has_memory capacity submit_tail task_tail
    stop_requested accepting task_head completion_tail task_slots completion_slots completion_head]; try done.
  - rewrite length_app. lia.
  - rewrite length_app. lia.
  - rewrite length_app. lia.
  - intros w Hw. by apply (warp_more _ _ (mapped s)), ai_warps0.
  - intros i t Hi Hu. change (unread s i) in Hu. rewrite length_app, Hts. apply lookup_app_Some in Hi as [Hi|[Hge Hi]].
    + pose proof (lookup_lt_Some _ _ _ Hi) as Hlt. specialize (Hroom i Hu Hlt). split; [|done].
      rewrite write_tasks_old; [by apply ai_slots0|]. intros k Hk E. apply (ring_slot_inj cap Hcap i) in E; lia.
    + pose proof (lookup_lt_Some _ _ _ Hi). split; [|lia].
      replace i with (length (submitted s) + (i - length (submitted s)))%nat by lia. apply write_tasks_new; [done|done|lia].
  - intros i t Hi. by apply lookup_app_l_Some, ai_copied0.
  - destruct ai_completions0. split; [done|done| |].
    + intros k i Hk Hh Hf. by apply completes_more, ai_completion0.
    + eapply Forall2_impl; [done|]. intros c i. apply completes_more.
Qed.

Lemma atomic_poll_inv s s' : inv s → step W batch cap s ev_poll = Some s' → inv s'.
Proof.
  intros I. cbn [step]. unfold try_poll. pose proof I as []. pose proof ai_completions0 as []. destruct ai_queue0 as [Hm Hc]. rewrite Hm, Hc. cbn [negb].
  destruct (negb _) eqn:E; intros [= <-]; [by destruct s|]. bool_hyps.
  assert (0 < cap)%nat as Hpos by (destruct Hcap as [k ->]; pose proof (Nat.pow_nonzero 2 k); lia).
  set (h := completion_head (queue s)) in *.
  match goal with H : sequence _ = _ |- _ => apply ai_sequence0 in H as Hf; [|lia] end.
  pose proof (filled_bound s h I Hf) as Hlt. destruct (lookup_lt_is_Some_2 (tickets s) h (proj1 Hf)) as [i Hi].
  split; cbn [queue mapped warps tickets copied submitted polled with_polled has_memory capacity submit_tail
    accepting completion_head]; try done.
  - fold h. lia.
  - split; cbn [queue mapped warps tickets submitted polled with_polled completion_head]; fold h.
    + intros n Hn. destruct (decide (n = h)) as [->|]; [done|]. apply ai_done0. lia.
    + intros n Hn. destruct (decide (n = h + cap)%nat) as [->|]; [|apply ai_sequence0; lia].
      rewrite ring_slot_next by done. split; [lia|]. intros ?%(filled_bound s); [lia|done].
    + intros n j Hj Hn. apply ai_completion0; [done|lia].
    + rewrite (take_S_r _ _ _ Hi). apply Forall2_app; [done|]. constructor; [|done]. by apply ai_completion0.
Qed.

Lemma atomic_stop_inv s s' : inv s → step W batch cap s ev_stop = Some s' → inv s'.
Proof.
  intros I. cbn [step]. unfold request_stop. destruct (_ || _); intros [= <-]; [by destruct s|]. pose proof I as []. split; try done.
  2: { destruct ai_completions0. by split. }
  intros w Hw. specialize (ai_warps0 w Hw). cbn [mapped warps submitted tickets].
  destruct (warps s w); cbn [warp_ok stop_requested task_head] in *; tauto.
Qed.

(** ** Steps of a warp *)

Definition with_warp (s : World) (m : Mapped) (w : nat) (x : Warp) (tk : list nat) (c : list (nat * CopyTask)) : World :=
  mkWorld (queue s) m (<[w := x]> (warps s)) (tickets s ++ tk) (c ++ copied s) (submitted s) (polled s).

(** The other warps see the head, the tickets and the completions grow. *)
Lemma atomic_warp_other l m m' tk tk' x :
  stop_requested m' = stop_requested m → (task_head m <= task_head m')%nat → warp_ok l m tk x → warp_ok l m' (tk ++ tk') x.
Proof.
  intros E Hh. destruct x; cbn; unfold claim_ok; rewrite ?E; intros Hx; destruct_and?; split_and?; try done; try lia.
  all: intros j Hj; apply lookup_app_l_Some; auto.
Qed.
Lemma warps_step s m w x tk c :
  inv s → stop_requested m = stop_requested (mapped s) → (task_head (mapped s) <= task_head m)%nat →
  warp_ok (submitted s) m (tickets s ++ tk) x →
  ∀ v, (v < W)%nat → warp_ok (submitted s) m (tickets s ++ tk) (warps (with_warp s m w x tk c) v).
Proof.
  intros I E Hh Hx v Hv. cbn. destruct (decide (v = w)) as [->|]; [by rewrite fn_lookup_insert|].
  rewrite fn_lookup_insert_ne by done. apply (atomic_warp_other _ (mapped s)); [done|done|by apply I].
Qed.

(** A step that changes the state of the warp only. *)
Lemma atomic_warp_quiet s w x :
  inv s → (w < W)%nat → warp_ok (submitted s) (mapped s) (tickets s) x →
  unplaced x = unplaced (warps s w) → to_read x = to_read (warps s w) → to_fill x = to_fill (warps s w) →
  inv (with_warp s (mapped s) w x [] []).
Proof.
  intros I Hw Hx E1 E2 E3. pose proof I as [].
  assert (∀ n, filled (with_warp s (mapped s) w x [] []) n ↔ filled s n) as Hf.
  { intros n. unfold filled. cbn. by rewrite app_nil_r, gather_same. }
  split; try done; cbn; rewrite ?app_nil_r; try done.
  - intros v Hv. pose proof (warps_step s (mapped s) w x [] [] I eq_refl ltac:(lia)) as H. rewrite app_nil_r in H. by apply H.
  - by rewrite gather_same.
  - by rewrite gather_same.
  - by rewrite gather_same.
  - intros i t Hi Hu. apply ai_slots0; [done|]. unfold unread in *. cbn in Hu. by rewrite gather_same in Hu.
  - by apply (completions_kept s _ []).
Qed.

(** A claim. *)
Lemma atomic_warp_claims s w c :
  inv s → (w < W)%nat → warps s w = da_claim (task_head (mapped s)) c →
  inv (with_warp s (with_head (mapped s) (task_head (mapped s) + c)) w (da_ticket (task_head (mapped s)) c) [] []).
Proof.
  intros I Hw Ex. pose proof I as []. set (h := task_head (mapped s)) in *. pose proof (ai_warps0 w Hw) as Hok.
  rewrite Ex in Hok. cbn in Hok. set (x := da_ticket h c). set (s' := with_warp _ _ _ _ _ _).
  destruct (gather_change unplaced W (warps s) w x Hw) as (r1 & P1 & P1').
  destruct (gather_change to_read W (warps s) w x Hw) as (r2 & P2 & P2'). rewrite Ex in P1, P2. cbn in P1, P1', P2, P2'.
  assert (gather to_fill W (<[w := x]> (warps s)) ≡ₚ gather to_fill W (warps s)) as P3 by by apply gather_same; [|rewrite Ex].
  assert (∀ n, filled s' n ↔ filled s n) as Hf.
  { intros n. unfold filled. cbn [tickets warps s' with_warp]. by rewrite app_nil_r, P3. }
  split; try done; cbn [s' with_warp queue mapped warps tickets copied submitted polled with_head task_head app]; rewrite ?app_nil_r; try done.
  - intros v Hv. pose proof (warps_step s (with_head (mapped s) (h + c)) w x [] [] I eq_refl) as H.
    rewrite app_nil_r in H. apply H; [cbn; fold h; lia|done|done].
  - rewrite P1', seq_app, <- ai_placed0, P1. cbn [Nat.add]. solve_Permutation.
  - rewrite P2', seq_app, <- ai_read0, P2. cbn [Nat.add]. solve_Permutation.
  - by rewrite P3.
  - intros i t Hi Hu. apply ai_slots0; [done|]. unfold unread in *. cbn in Hu. fold h in Hu. rewrite P2', elem_of_app, elem_of_seq in Hu.
    fold h. rewrite P2. destruct Hu as [?|[?|?]]; [left; lia|left; lia|by right].
  - by apply (completions_kept s _ []).
Qed.

(** Places for the completions of a claim. *)
Lemma warp_places s w b c :
  inv s → (w < W)%nat → warps s w = da_ticket b c →
  inv (with_warp s (with_completion_tail (mapped s) (completion_tail (mapped s) + c)) w
         (da_task b c (completion_tail (mapped s)) 0) (seq b c) []).
Proof.
  intros I Hw Ex. pose proof I as []. rewrite ai_tickets0. set (n := length (tickets s)). pose proof (ai_warps0 w Hw) as Hok.
  rewrite Ex in Hok. cbn in Hok. set (x := da_task b c n 0). set (s' := with_warp _ _ _ _ _ _).
  destruct (gather_change unplaced W (warps s) w x Hw) as (r1 & P1 & P1').
  destruct (gather_change to_fill W (warps s) w x Hw) as (r3 & P3 & P3'). rewrite Ex in P1, P3. cbn in P1, P1', P3, P3'.
  rewrite Nat.add_0_r, Nat.sub_0_r in P3'.
  assert (gather to_read W (<[w := x]> (warps s)) ≡ₚ gather to_read W (warps s)) as P2.
  { apply gather_same; [done|]. rewrite Ex. cbn. by rewrite Nat.add_0_r, Nat.sub_0_r. }
  assert (∀ i, i ∈ r3 → (i < n)%nat) as Hr3.
  { intros i Hi. rewrite <- P3 in Hi. by apply (to_fill_bound s). }
  assert (∀ i, filled s' i ↔ filled s i) as Hf.
  { intros i. unfold filled. cbn [tickets warps s' with_warp]. rewrite P3', P3, length_app, length_seq, elem_of_app, elem_of_seq.
    fold n. split; [|intros [? ?]; split; [lia|]; intros [?|?]; [lia|done]]. intros [H1 H2]. split; [|by intros ?; apply H2; right].
    destruct (decide (i < n)%nat); [done|]. destruct H2. left. lia. }
  split; try done; cbn [s' with_warp queue mapped warps tickets copied submitted polled with_completion_tail completion_tail
    task_head app]; try done.
  - by rewrite length_app, length_seq.
  - intros v Hv. apply (warps_step s _ w x (seq b c) []); [done|done|done| |done].
    cbn. split_and!; [lia|done|]. intros j Hj. rewrite lookup_app_r by (fold n; lia). apply lookup_seq. fold n. lia.
  - rewrite P1', <- ai_placed0, P1. solve_Permutation.
  - by rewrite P2.
  - rewrite P3'. apply NoDup_app. split_and!; [apply NoDup_seq| |by rewrite P3 in ai_fill0].
    intros i Hi%elem_of_seq Hr. apply Hr3 in Hr. lia.
  - intros i t Hi Hu. apply ai_slots0; [done|]. unfold unread in *. cbn in Hu. by rewrite P2 in Hu.
  - by apply (completions_kept s _ (seq b c)).
Qed.

(** A task is read and copied. *)
Lemma atomic_warp_copies s w b c n k :
  inv s → (w < W)%nat → warps s w = da_task b c n k → (k < c)%nat →
  let t := task_slots (mapped s) (slot cap (b + k)) in
  inv (with_warp s (mapped s) w (da_complete b c n k t) [] [((b + k)%nat, t)]).
Proof.
  intros I Hw Ex Hk t. pose proof I as []. pose proof (ai_warps0 w Hw) as Hok. rewrite Ex in Hok. cbn in Hok.
  set (x := da_complete b c n k t). set (s' := with_warp _ _ _ _ _ _).
  destruct (gather_change to_read W (warps s) w x Hw) as (r2 & P2 & P2'). rewrite Ex in P2. cbn [x to_read] in P2, P2'.
  replace (seq (b + k) (c - k)) with ((b + k) :: seq (S (b + k)) (c - S k))%nat in P2
    by by replace (c - k)%nat with (S (c - S k)) by lia.
  assert (gather unplaced W (<[w := x]> (warps s)) ≡ₚ gather unplaced W (warps s)) as P1 by by apply gather_same; [|rewrite Ex].
  assert (gather to_fill W (<[w := x]> (warps s)) ≡ₚ gather to_fill W (warps s)) as P3 by by apply gather_same; [|rewrite Ex].
  assert (submitted s !! (b + k)%nat = Some t) as Ht.
  { destruct Hok as (_ & Hl & _). destruct (lookup_lt_is_Some_2 (submitted s) (b + k)) as [u Hu]; [lia|]. rewrite Hu. f_equal.
    symmetry. apply ai_slots0; [done|]. right. rewrite P2. by left. }
  assert (∀ i, filled s' i ↔ filled s i) as Hf.
  { intros i. unfold filled. cbn [tickets warps s' with_warp]. by rewrite app_nil_r, P3. }
  split; try done; cbn [s' with_warp queue mapped warps tickets copied submitted polled app]; rewrite ?app_nil_r; try done.
  - intros v Hv. pose proof (warps_step s (mapped s) w x [] [((b + k)%nat, t)] I eq_refl) as H.
    rewrite app_nil_r in H. by apply H.
  - by rewrite P1.
  - rewrite P2'. cbn [fmap list_fmap fst]. rewrite <- ai_read0, P2. solve_Permutation.
  - by rewrite P3.
  - intros i u Hi Hu. apply ai_slots0; [done|]. unfold unread in *. cbn in Hu. rewrite P2' in Hu. rewrite P2.
    destruct Hu as [?|?]; [by left|right; by right].
  - intros i u [[= -> ->]|?]%elem_of_cons; [done|by apply ai_copied0].
  - by apply (completions_kept s _ []).
Qed.

(** A completion is written. *)
Lemma atomic_warp_completes s w b c n k t :
  inv s → (w < W)%nat → warps s w = da_complete b c n k t →
  inv (with_warp s (with_completion (mapped s) (slot cap (n + k)) (mkCompletion (completion_of t) (S (n + k))
         (if (k =? 0)%nat then 1 else 0))) w (da_task b c n (S k)) [] []).
Proof.
  intros I Hw Ex. pose proof I as []. pose proof (ai_warps0 w Hw) as Hok. rewrite Ex in Hok. cbn in Hok.
  destruct Hok as ((Hk & Hl & Htk) & Hkc & Ht). set (x := da_task b c n (S k)). set (s' := with_warp _ _ _ _ _ _).
  destruct (gather_change to_fill W (warps s) w x Hw) as (r3 & P3 & P3'). rewrite Ex in P3. cbn [x to_fill] in P3, P3'.
  replace (seq (n + k) (c - k)) with ((n + k) :: seq (n + S k) (c - S k))%nat in P3
    by by replace (c - k)%nat with (S (c - S k)) by lia; cbn; rewrite Nat.add_succ_r.
  assert (gather unplaced W (<[w := x]> (warps s)) ≡ₚ gather unplaced W (warps s)) as P1 by by apply gather_same; [|rewrite Ex].
  assert (gather to_read W (<[w := x]> (warps s)) ≡ₚ gather to_read W (warps s)) as P2.
  { apply gather_same; [done|]. rewrite Ex. cbn. by rewrite Nat.add_succ_r. }
  rewrite P3 in ai_fill0. cbn [app] in ai_fill0. apply NoDup_cons in ai_fill0 as [Hnot Hnd].
  pose proof (lookup_lt_Some _ _ _ (Htk k Hkc)) as Hnk. pose proof (tickets_bound s I).
  assert (∀ i, filled s' i ↔ filled s i ∨ i = (n + k)%nat) as Hf.
  { intros i. unfold filled. cbn [tickets warps s' with_warp]. rewrite app_nil_r, P3', P3. cbn [app]. rewrite not_elem_of_cons.
    split; [|intros [[? [? ?]]| ->]; done]. intros [H1 H2]. destruct (decide (i = n + k)%nat); [by right|by left]. }
  pose proof ai_completions0 as []. set (h := completion_head (queue s)) in *.
  assert (h <= n + k)%nat as Hh.
  { destruct (decide (h <= n + k)%nat); [done|]. destruct (ai_done0 (n + k)%nat) as [_ []]; [lia|]. rewrite P3. by left. }
  split; try done; cbn [s' with_warp queue mapped warps tickets copied submitted polled app with_completion task_head];
    rewrite ?app_nil_r; try done.
  - intros v Hv. pose proof (warps_step s (mapped (s')) w x [] [] I eq_refl) as H1. rewrite app_nil_r in H1.
    apply H1; [done|split_and!; done|done].
  - by rewrite P1.
  - by rewrite P2.
  - by rewrite P3'.
  - intros i u Hi Hu. apply ai_slots0; [done|]. unfold unread in *. cbn in Hu. by rewrite P2 in Hu.
  - split; cbn [s' with_warp queue mapped warps tickets submitted polled with_completion completion_slots]; fold h;
      rewrite ?app_nil_r; [| | |done].
    + intros i Hi. apply Hf. left. by apply ai_done0.
    + intros i Hi. rewrite Hf. destruct (decide (i = n + k)%nat) as [->|Hne]; [rewrite fn_lookup_insert; cbn; tauto|].
      rewrite fn_lookup_insert_ne; [rewrite ai_sequence0 by done; tauto|].
      intros E. apply (ring_slot_inj cap Hcap h) in E; lia.
    + intros i j Hi Hn [Hfi| ->]%Hf.
      * pose proof (filled_bound s i I Hfi). rewrite fn_lookup_insert_ne; [by apply ai_completion0|].
        intros E. apply (ring_slot_inj cap Hcap h) in E; [|lia..]. subst i. destruct Hfi as [_ []]. rewrite P3. by left.
      * rewrite fn_lookup_insert. cbn. rewrite (Htk k Hkc) in Hi. injection Hi as <-. by exists t.
Qed.

Lemma atomic_warp_step_inv s w s' : inv s → step W batch cap s (ev_warp w) = Some s' → inv s'.
Proof.
  intros I. cbn [step]. destruct (w <? W)%nat eqn:Ew; [|done]. apply Nat.ltb_lt in Ew. pose proof I as [].
  pose proof (ai_warps0 w Ew) as Hok. destruct ai_tail0 as [_ Htt].
  destruct (warps s w) as [|t|h c| | |t|b c|b c n k|b c n k t|] eqn:Ex; cbn [warp_step].
  - intros [= <-]. apply (atomic_warp_quiet s w); rewrite ?Ex; try done. cbn. lia.
  - destruct (_ <? _)%nat eqn:E; bool_hyps.
    + remember (Nat.min _ _) as c eqn:Ec. intros [= <-]. apply (atomic_warp_quiet s w); rewrite ?Ex; try done. cbn in *. lia.
    + intros [= <-]. apply (atomic_warp_quiet s w); rewrite ?Ex; done.
  - destruct (_ =? _)%nat eqn:E; bool_hyps.
    + subst h. intros [= <-]. by apply atomic_warp_claims.
    + intros [= <-]. apply (atomic_warp_quiet s w); rewrite ?Ex; done.
  - destruct (stop_requested _) eqn:E; intros [= <-]; apply (atomic_warp_quiet s w); rewrite ?Ex; done.
  - intros [= <-]. apply (atomic_warp_quiet s w); rewrite ?Ex; done.
  - cbn in Hok. destruct (_ <=? _)%nat eqn:E; bool_hyps; intros [= <-]; apply (atomic_warp_quiet s w); rewrite ?Ex; try done.
    cbn. destruct Hok as [? ->]. done.
  - intros [= <-]. by apply warp_places.
  - destruct (_ <? _)%nat eqn:E; bool_hyps; intros [= <-].
    + by apply atomic_warp_copies.
    + apply (atomic_warp_quiet s w); rewrite ?Ex; try done; cbn; by replace (c - k)%nat with 0%nat by lia.
  - intros [= <-]. by apply atomic_warp_completes.
  - done.
Qed.

Lemma atomic_run_inv es : ∀ s s', inv s → paced W batch cap s es = true → run W batch cap s es = Some s' → inv s'.
Proof.
  induction es as [|e es IH]; intros s s' I; cbn [run paced]; [by intros _ [= <-]|].
  intros [He Hes]%andb_true_iff (s1 & H1 & H2)%bind_Some. rewrite H1 in Hes. apply (IH s1); [|done|done].
  destruct e as [tasks| | |w]; [by apply (atomic_submit_inv s tasks)|by apply (atomic_poll_inv s)|by apply (atomic_stop_inv s)|by apply (atomic_warp_step_inv s w)].
Qed.

(** ** What the invariant says *)

Lemma tickets_once s : inv s → NoDup (tickets s) ∧ ∀ i, i ∈ tickets s → i ∉ gather unplaced W (warps s).
Proof.
  intros I. pose proof (NoDup_seq 0 (task_head (mapped s))) as Hnd. rewrite <- (ai_placed _ I) in Hnd.
  apply NoDup_app in Hnd as (? & ? & _). done.
Qed.

(** A task whose completion is there was copied. *)
Lemma filled_copied s n i : inv s → filled s n → tickets s !! n = Some i → ∃ t, (i, t) ∈ copied s.
Proof.
  intros I [Hn Hfill] Hi. destruct (tickets_once s I) as [Hnd Hdis].
  assert (i ∈ (copied s).*1 ++ gather to_read W (warps s)) as [Hc|Hr]%elem_of_app.
  { rewrite (ai_read _ I), <- (ai_placed _ I). apply elem_of_app. left. by eapply list_elem_of_lookup_2. }
  { apply list_elem_of_fmap in Hc as ([j t] & -> & Hc). by exists t. }
  exfalso. apply elem_of_gather in Hr as (w & Hw & Hr). pose proof (ai_warps _ I w Hw) as Hok.
  assert (∀ b c n0 k j, claim_ok (submitted s) (tickets s) b c n0 k → i = (b + j)%nat → (k <= j < c)%nat →
    seq (n0 + k) (c - k) = to_fill (warps s w) → False) as Hopen.
  { intros b c n0 k j (_ & _ & Htk) -> Hj E. pose proof (NoDup_lookup _ _ _ _ Hnd Hi (Htk j ltac:(lia))) as ->.
    apply Hfill, elem_of_gather. exists w. split; [done|]. rewrite <- E. apply elem_of_seq. lia. }
  destruct (warps s w) as [| | | | | |b c|b c n0 k|b c n0 k t|] eqn:Ex; cbn in Hr, Hok; try by apply not_elem_of_nil in Hr.
  - apply (Hdis i); [by eapply list_elem_of_lookup_2|]. apply elem_of_gather. exists w. by rewrite Ex.
  - apply elem_of_seq in Hr. apply (Hopen b c n0 k (i - b)%nat); [done|lia|lia|done].
  - apply elem_of_seq in Hr. destruct Hok as [Hok _]. apply (Hopen b c n0 k (i - b)%nat); [done|lia|lia|done].
Qed.

Lemma completes_eq l p order :
  Forall2 (completes l) p order → p = (λ i, default no_completion (completion_of <$> l !! i)) <$> order.
Proof. induction 1 as [|c i p order (t & Ht & ->) _ IH]; [done|]. cbn. by rewrite Ht, IH. Qed.

Lemma all_completions l : (λ i, default no_completion (completion_of <$> l !! i)) <$> seq 0 (length l) = completion_of <$> l.
Proof.
  apply list_eq. intros i. rewrite !list_lookup_fmap. destruct (decide (i < length l)%nat) as [Hi|Hi].
  - rewrite lookup_seq_lt by done. cbn. by destruct (lookup_lt_is_Some_2 l i Hi) as [t ->].
  - by rewrite lookup_seq_ge, lookup_ge_None_2 by lia.
Qed.

(** When all tasks are completed, their completions were polled, each once. *)
Lemma drained_polled s : inv s → drained (queue s) = true → polled s ≡ₚ completion_of <$> submitted s.
Proof.
  intros I Hd. unfold drained in Hd. bool_hyps. pose proof (ai_tail _ I) as [Htl _].
  pose proof (head_tickets s I). pose proof (tickets_bound s I). pose proof (ai_head _ I).
  pose proof (ai_polled _ (ai_completions _ I)) as HF. rewrite take_ge in HF by lia.
  assert (gather unplaced W (warps s) = []) as Hnone.
  { apply length_zero_iff_nil. pose proof (Permutation_length (ai_placed _ I)) as E. rewrite length_app, length_seq in E. lia. }
  pose proof (ai_placed _ I) as HP. rewrite Hnone, app_nil_r in HP. replace (task_head _) with (length (submitted s)) in HP by lia.
  rewrite (completes_eq _ _ _ HF), HP, all_completions. done.
Qed.

(** When the warps are gone, all tasks were copied, each once. *)
Lemma gone_copied s :
  (0 < W)%nat → inv s → (∀ w, (w < W)%nat → warps s w = da_done) → (copied s).*1 ≡ₚ seq 0 (length (submitted s)).
Proof.
  intros HW I Hgone. pose proof (ai_warps _ I 0%nat HW) as Hok. rewrite Hgone in Hok by done. destruct Hok as [_ Hh].
  pose proof (ai_head _ I). replace (length (submitted s)) with (task_head (mapped s)) by lia. rewrite <- (ai_read _ I).
  replace (gather to_read W (warps s)) with (@nil nat); [by rewrite app_nil_r|]. symmetry. apply elem_of_nil_inv.
  intros i (w & Hw & Hi)%elem_of_gather. rewrite Hgone in Hi by done. by apply not_elem_of_nil in Hi.
Qed.

End Invariant.

(** * From the allocation on *)

Lemma atomic_launch_inv cap W batch base s :
  launch cap W batch base = Some s → (0 < W)%nat ∧ (∃ k, cap = (2 ^ k)%nat) ∧ inv W cap s.
Proof.
  unfold launch, allocate. destruct (_ || _ || _ || _ || _) eqn:E0; [done|]. bool_hyps.
  destruct (direct_atomic_allocation_size _) as [bytes|] eqn:E1; [|done].
  unfold direct_atomic_allocation_size in E1. destruct (negb _) eqn:E2 in E1; [done|]. bool_hyps.
  unfold start. cbn [has_memory running empty_queue negb orb Z.eqb]. destruct (negb _); [done|]. cbn [Z.eqb]. intros [= <-].
  assert (0 < W)%nat as HW.
  { match goal with H : is_supported_copy_warps _ = true |- _ => unfold is_supported_copy_warps in H end. lia. }
  assert (∃ k, cap = (2 ^ k)%nat) as Hcap.
  { apply power_of_two_nat; [done|]. apply (checked_size_capacity _ _ _ _) in E1; lia. }
  assert (∀ A (f : Warp → list A), f da_tail = [] → gather f W (λ _, da_tail) = []) as Hnil.
  { intros A f Hf. apply elem_of_nil_inv. intros a (w & _ & Ha)%elem_of_gather. rewrite Hf in Ha. by apply not_elem_of_nil in Ha. }
  split_and!; [done|done|]. split; cbn; rewrite ?Hnil; try done; try lia.
  - constructor.
  - intros i t Hi. by apply not_elem_of_nil in Hi.
  - split; cbn; try done.
    + intros n Hn. lia.
    + intros n Hn. split; [done|]. intros [Hf _]. cbn in Hf. lia.
Qed.

(** (C20) A host that submits a task only when it fits into the ring from its start on, or when all
    tasks before it are completed: in every interleaving, the completions it has polled are
    those of different tasks, all of them copied; the kernel has copied nothing but submitted
    tasks, none twice.  When the queue is drained, the polled completions are those of the
    tasks submitted, in some order; and the warps do not leave before all tasks are copied. *)
Theorem atomic_delivers cap W batch base s0 es s :
  launch cap W batch base = Some s0 → paced W batch cap s0 es = true → run W batch cap s0 es = Some s →
  (∃ order, NoDup order ∧ Forall2 (completes (submitted s)) (polled s) order ∧ ∀ i, i ∈ order → ∃ t, (i, t) ∈ copied s) ∧
  (∀ i t, (i, t) ∈ copied s → submitted s !! i = Some t) ∧ NoDup (copied s).*1 ∧
  (drained (queue s) = true → polled s ≡ₚ completion_of <$> submitted s) ∧
  ((∀ w, (w < W)%nat → warps s w = da_done) → (copied s).*1 ≡ₚ seq 0 (length (submitted s))).
Proof.
  intros (HW & Hcap & I0)%atomic_launch_inv Hp Hrun. pose proof (atomic_run_inv W batch cap Hcap _ _ _ I0 Hp Hrun) as I.
  pose proof I as []. destruct (tickets_once W cap s I) as [Hnd _]. split_and!; [| done | | |].
  - exists (take (completion_head (queue s)) (tickets s)). split_and!; [|apply ai_completions0|].
    + eapply sublist_NoDup; [done|apply sublist_take].
    + intros i (n & Hn)%list_elem_of_lookup_1. apply lookup_take_Some in Hn as [Hn Hlt].
      apply (filled_copied W cap s n i I); [|done]. by apply ai_completions0.
  - pose proof (NoDup_seq 0 (task_head (mapped s))) as Hs. rewrite <- ai_read0 in Hs. by apply NoDup_app in Hs as [? _].
  - by apply (drained_polled W cap).
  - by apply (gone_copied W cap).
Qed.

(** The tasks of the losing run in two rounds, the second after the first is drained: the
    completions come in an order of the warps' own. *)
Definition paced_run : list Event :=
  [ev_submit [sample 0; sample 1; sample 2; sample 3]; ev_warp 0; ev_warp 0; ev_warp 0] ++
  whole_task 1 ++ whole_task 2 ++ whole_task 3 ++ repeat (ev_warp 0) 4 ++ repeat ev_poll 4 ++ [ev_submit [sample 4]] ++
  whole_task 1 ++ [ev_poll].

Lemma atomic_delivers_witness :
  ∃ s0 s, launch 4 4 1 4096 = Some s0 ∧ paced 4 1 4 s0 paced_run = true ∧ run 4 1 4 s0 paced_run = Some s ∧
    (completed_id <$> polled s) = [1; 2; 3; 0; 4] ∧ polled s ≡ₚ completion_of <$> submitted s.
Proof.
  assert (∃ s0, launch 4 4 1 4096 = Some s0 ∧ paced 4 1 4 s0 paced_run = true ∧
    (λ s, (completed_id <$> polled s, drained (queue s))) <$> run 4 1 4 s0 paced_run = Some ([1; 2; 3; 0; 4], true))
    as (s0 & E0 & E2 & E).
  { eexists. split; [reflexivity|]. split; vm_compute; reflexivity. }
  apply fmap_Some in E as (s & E1 & [= Hids Hd]). exists s0, s. split_and!; [done|done|done|done|].
  apply (atomic_delivers 4 4 1 4096 s0 paced_run s E0 E2 E1). done.
Defined.

End AtomicQueue.
