(* ===== verification/SeqRing.v ===== *)
(** A ring of slots with sequence numbers (src/gpu/persistent_copy.cu): a slot whose sequence
    number is [i] waits for the item of index [i], one whose number is [i + 1] holds it, and
    taking it sets the number to [i + depth], for the next round.  The two rings in the shared
    memory of [warp_specialized_kernel] are such rings. *)

From stdpp Require Import functions.
From S2P Require Import Prelude WarpQueue.
Import WarpQueue.

Module SeqRing.

Section Ring.
Context (depth : nat) (Hdepth : ∃ k, depth = (2 ^ S k)%nat).

Lemma depth_two : (2 <= depth)%nat.
Proof. destruct Hdepth as [k ->]. cbn. pose proof (Nat.pow_nonzero 2 k). lia. Qed.
Lemma depth_pow : ∃ k, depth = (2 ^ k)%nat.
Proof. destruct Hdepth as [k ->]. by exists (S k). Qed.

(** Indices of the same slot are whole rounds apart. *)
Lemma slot_rounds i j : slot depth i = slot depth j → (i < j)%nat → ∃ r, j = (i + S r * depth)%nat.
Proof.
  rewrite !(ring_slot_mod depth depth_pow). intros E Hlt. pose proof depth_two.
  pose proof (Nat.div_mod_eq i depth). pose proof (Nat.div_mod_eq j depth). exists (j / depth - i / depth - 1)%nat. nia.
Qed.

(** [put] and [taken] say which indices were stored in their slot and taken out of it. *)
Record seq_ring (put taken : nat → Prop) (sequence : nat → nat) : Prop := {
  sr_order : ∀ i, taken i → put i;
  sr_room : ∀ i, put (i + depth)%nat → taken i;
  sr_full : ∀ i, put i → ¬ taken i → sequence (slot depth i) = S i;
  sr_free : ∀ i, ¬ put i → (∀ j, i = (j + depth)%nat → taken j) → sequence (slot depth i) = i;
}.

Lemma seq_ring_ext (put put' taken taken' : nat → Prop) sequence :
  seq_ring put taken sequence → (∀ i, put i ↔ put' i) → (∀ i, taken i ↔ taken' i) → seq_ring put' taken' sequence.
Proof.
  intros [R1 R2 R3 R4] Hp Ht. split; intros i; rewrite <- ?Hp, <- ?Ht; auto.
  intros Hi Hj. apply R4; [done|]. intros j Ej. by apply Ht, Hj.
Qed.

Lemma seq_ring_eq put taken sequence sequence' :
  seq_ring put taken sequence → (∀ x, sequence x = sequence' x) → seq_ring put taken sequence'.
Proof. intros [R1 R2 R3 R4] E. split; auto; intros i; rewrite <- E; auto. Qed.

Section Steps.
Context (put taken : nat → Prop) (sequence : nat → nat) (R : seq_ring put taken sequence).
Context (put_dec : ∀ i, Decision (put i)) (taken_dec : ∀ i, Decision (taken i)).

(** What was put behind an index in its slot shows that the index was taken. *)
Lemma behind_taken i j : put j → (i < j)%nat → slot depth i = slot depth j → taken i.
Proof.
  intros Hj Hlt E. destruct (slot_rounds i j E Hlt) as [r ->]. clear E Hlt. revert Hj. induction r as [|r IH]; intros Hj.
  - apply (sr_room _ _ _ R). by rewrite Nat.mul_1_l in Hj.
  - apply IH, (sr_order _ _ _ R), (sr_room _ _ _ R). by replace (i + S r * depth + depth)%nat with (i + S (S r) * depth)%nat by lia.
Qed.

(** Nothing else is in the slot of an index that was put and not taken. *)
Lemma slot_holds i j : put i → ¬ taken i → put j → ¬ taken j → slot depth i = slot depth j → i = j.
Proof.
  intros Pi Ti Pj Tj E. destruct (Nat.lt_trichotomy i j) as [H|[H|H]]; [|done|].
  - destruct Ti. by apply (behind_taken i j).
  - destruct Tj. by apply (behind_taken j i).
Qed.

(** The index a slot is at: not taken, the one before it taken. *)
Lemma slot_current i : ¬ taken i →
  ∃ g, (g <= i)%nat ∧ slot depth g = slot depth i ∧ ¬ taken g ∧ ∀ j, g = (j + depth)%nat → taken j.
Proof.
  induction i as [i IH] using lt_wf_ind. intros Hi. pose proof depth_two.
  destruct (decide (depth <= i)%nat) as [Hd|Hd].
  - destruct (decide (taken (i - depth))) as [Ht|Ht].
    + exists i. split_and!; [lia|done|done|]. intros j ->. by replace (j + depth - depth)%nat with j in Ht by lia.
    + destruct (IH (i - depth)%nat ltac:(lia) Ht) as (g & Hg & Es & Hn & Hp). exists g. split_and!; [lia| |done|done].
      rewrite Es, <- (ring_slot_next depth depth_pow (i - depth)). f_equal. lia.
  - exists i. split_and!; [lia|done|done|]. lia.
Qed.

(** A slot waits for an index when the one before it was taken. *)
Lemma waits i : ¬ put i → sequence (slot depth i) = i → ∀ j, i = (j + depth)%nat → taken j.
Proof.
  intros Hp Es j ->. assert (¬ taken (j + depth)) as Ht by by intros ?%(sr_order _ _ _ R).
  destruct (slot_current _ Ht) as (g & Hle & Eg & Hng & Hprev). rewrite <- Eg in Es. destruct (decide (put g)) as [Pg|Pg].
  - rewrite (sr_full _ _ _ R g Pg Hng) in Es. exfalso.
    destruct (slot_rounds g (j + depth) Eg ltac:(lia)) as [r Er]. pose proof depth_two. nia.
  - rewrite (sr_free _ _ _ R g Pg Hprev) in Es. by apply Hprev.
Qed.

(** A slot that has the number after an index that was not taken holds it. *)
Lemma holds i : ¬ taken i → sequence (slot depth i) = S i → put i.
Proof.
  intros Ht Es. destruct (slot_current _ Ht) as (g & Hle & Eg & Hng & Hprev). rewrite <- Eg in Es.
  destruct (decide (put g)) as [Pg|Pg].
  - rewrite (sr_full _ _ _ R g Pg Hng) in Es. by injection Es as <-.
  - rewrite (sr_free _ _ _ R g Pg Hprev) in Es. lia.
Qed.

Lemma ring_put i (put' : nat → Prop) :
  ¬ put i → sequence (slot depth i) = i → (∀ j, put' j ↔ put j ∨ j = i) →
  seq_ring put' taken (<[slot depth i := S i]> sequence).
Proof.
  intros Hp Es Hput. pose proof (waits i Hp Es) as Hw. split.
  - intros j Hj. apply Hput. left. by apply (sr_order _ _ _ R).
  - intros j [Hj|Hj]%Hput; [by apply (sr_room _ _ _ R)|by apply Hw].
  - intros j [Hj| ->]%Hput Ht; [|apply fn_lookup_insert].
    rewrite fn_lookup_insert_ne; [by apply (sr_full _ _ _ R)|]. intros E.
    destruct (Nat.lt_trichotomy i j) as [H|[->|H]]; [|done|].
    + by apply Hp, (sr_order _ _ _ R), (behind_taken i j).
    + destruct (slot_rounds j i (eq_sym E) H) as [r ->].
      assert (taken (j + r * depth)) as Hr by (apply Hw; lia). destruct r as [|r].
      * by rewrite Nat.mul_0_l, Nat.add_0_r in Hr.
      * apply Ht, (behind_taken j (j + S r * depth)); [by apply (sr_order _ _ _ R)|pose proof depth_two; nia|].
        rewrite !(ring_slot_mod depth depth_pow). symmetry. apply Nat.Div0.mod_add.
  - intros j Hj Hprev. rewrite Hput in Hj. rewrite fn_lookup_insert_ne; [apply (sr_free _ _ _ R); [tauto|done]|].
    intros E. assert (j ≠ i) as Hne by tauto. apply Hne.
    rewrite E in Es. rewrite (sr_free _ _ _ R j) in Es; [done|tauto|done].
Qed.

Lemma ring_take i (taken' : nat → Prop) :
  put i → ¬ taken i → (∀ j, taken' j ↔ taken j ∨ j = i) →
  seq_ring put taken' (<[slot depth i := (i + depth)%nat]> sequence).
Proof.
  intros Hp Ht Htk. split.
  - intros j [Hj| ->]%Htk; [by apply (sr_order _ _ _ R)|done].
  - intros j Hj. apply Htk. left. by apply (sr_room _ _ _ R).
  - intros j Hj Hnt. rewrite Htk in Hnt. rewrite fn_lookup_insert_ne; [apply (sr_full _ _ _ R); tauto|].
    intros E. assert (j ≠ i) as Hne by tauto. apply Hne. symmetry. apply (slot_holds i j); tauto.
  - intros j Hj Hprev. destruct (decide (slot depth i = slot depth j)) as [E|E].
    + rewrite <- E, fn_lookup_insert. symmetry. destruct (Nat.lt_trichotomy i j) as [H|[->|H]]; [|done|].
      * destruct (slot_rounds i j E H) as [r ->]. destruct r as [|r]; [lia|]. exfalso.
        assert (put (i + S r * depth)) as Hpr.
        { specialize (Hprev (i + S r * depth)%nat ltac:(lia)). apply Htk in Hprev as [?%(sr_order _ _ _ R)|?]; [done|].
          pose proof depth_two. nia. }
        apply Ht, (behind_taken i (i + S r * depth)); [done|pose proof depth_two; nia|].
        rewrite !(ring_slot_mod depth depth_pow). symmetry. apply Nat.Div0.mod_add.
      * destruct Hj. apply (sr_order _ _ _ R), (behind_taken j i); done.
    + rewrite fn_lookup_insert_ne by done. apply (sr_free _ _ _ R); [done|]. intros k Ek.
      specialize (Hprev k Ek). apply Htk in Hprev as [?| ->]; [done|]. destruct E. subst j. symmetry.
      apply (ring_slot_next depth depth_pow).
Qed.
End Steps.

Lemma ring_start : seq_ring (λ _, False) (λ _, False) (λ s, s).
Proof.
  split; try done. intros i _ Hprev. rewrite (ring_slot_mod depth depth_pow). apply Nat.mod_small.
  destruct (decide (i < depth)%nat); [done|]. destruct (Hprev (i - depth)%nat). lia.
Qed.

End Ring.
End SeqRing.
