(* ===== verification/WarpSpecialized.v ===== *)
(** The first kernel with specialised warps (src/gpu/persistent_copy.cu,
    [warp_specialized_kernel]) behind the host's queue of WarpQueue.v: one warp brings tasks
    from mapped memory into a ring in shared memory, the copy warps claim them there by a
    compare-and-swap and put completions into a second ring, one warp takes these back to
    mapped memory in order.  The slots of both rings have sequence numbers (SeqRing.v).

    The conventions are those of WarpPipeline.v, but a copy warp makes one step for each of
    the loads with which it looks for a task: they are not taken together. *)

From stdpp Require Import functions.
From S2P Require Import Prelude CopyHost WarpQueue WarpHost WarpPipeline.
From S2P Require Import WarpOrder CopySetup SeqRing.
Import Copy WarpQueue WarpHost.

Module WarpSpecialized.
Import WarpPipeline (batch, remove_lane, with_completion_slot, with_completion_tail).

(** * The queue *)

(** [allocate]. *)
Definition allocate (q : Queue) (cap warps depth : nat) (base pinned : Z) : Queue * Z :=
  if has_memory q || (base =? 0) then (q, EINVAL)
  else match CopySetup.warp_specialized_allocation_size (Z.of_nat cap) (Z.of_nat warps) (Z.of_nat depth) with
  | None => (q, EINVAL)
  | Some _ =>
      if negb (pinned =? 0) then (q, pinned)
      else (mkQueue true cap warps depth base (submit_tail q) (completion_head q) (cached_completion_tail q)
              (running q) (accepting q), 0)
  end.

(** The pipeline kernel exists for eight numbers of copy warps, where a batch fits into their
    rings; the other one takes the number as an argument. *)
Definition dispatch_warp_specialized_variant (use_pipeline : bool) (depth warps : nat) (resources : bool) : bool :=
  if use_pipeline
  then if decide (warps ∈ [2; 6; 10; 14; 18; 22; 26; 30]%nat)
       then if (depth <? (kWarpSpecializedMetaBatch + warps - 1) / warps)%nat then false else resources
       else false
  else resources.

Definition start_impl (use_pipeline : bool) (q : Queue) (m : Mapped) (resources : bool) (launch_status : Z)
  : Queue * Mapped * Z :=
  let launched := if decide (shared_queue_depth q ∈ [2; 4; 8; 16]%nat)
                  then dispatch_warp_specialized_variant use_pipeline (shared_queue_depth q) (copy_warps q) resources
                  else false in
  start_pipeline q m launched launch_status.

(** * The kernel *)

(** [CopyClaimBatch], as launched. *)
Definition kCopyClaimBatch : nat := 2.

Record TaskSlot := mkTaskSlot { t_sequence : nat; slot_task : CopyTask }.
Record CompletionSlot := mkCompletionSlot { c_sequence : nat; slot_completion : CopyCompletion }.

(** The first warp: polling; with a batch of which some lanes have yet to load their task;
    with a wave of it, of which some lanes have yet to place theirs; about to tell that it is
    done; gone. *)
Inductive Ingress :=
| wi_poll (head : nat)
| wi_load (head count : nat) (todo : list nat) (loaded : nat → CopyTask)
| wi_wave (head count base : nat) (todo : list nat) (loaded : nat → CopyTask)
| wi_stop (head : nat)
| wi_done (head : nat).

(** A copy warp: at the load of [task_claim]; at that of [task_publish]; at the
    compare-and-swap; at the load of [ingress_done]; with a claim, at its task [k]; with it
    copied, at the release of the slot; at its completion; gone. *)
Inductive CopyWarp :=
| wc_claim
| wc_publish (claim : nat)
| wc_swap (claim count : nat)
| wc_stop
| wc_task (base count k : nat)
| wc_release (base count k : nat) (t : CopyTask)
| wc_complete (base count k : nat) (t : CopyTask)
| wc_done.

(** The last warp: polling; with a wave of a batch, of which some lanes have yet to read
    their completion; of which some have yet to give the slot back; with the batch, of which
    some lanes have yet to write their completion to mapped memory; gone. *)
Inductive Egress :=
| we_poll (head : nat)
| we_read (head count base : nat) (todo : list nat) (loaded : nat → CopyCompletion)
| we_free (head count base : nat) (todo : list nat) (loaded : nat → CopyCompletion)
| we_write (head count : nat) (todo : list nat) (loaded : nat → CopyCompletion)
| we_done (head : nat).

(** [WarpSpecializedSharedControl] and the slots, with the states of the warps. *)
Record Device := mkDevice {
  ingress : Ingress;
  warps : nat → CopyWarp;
  egress : Egress;
  task_publish : nat;
  task_claim : nat;
  ingress_done : bool;
  tslots : nat → TaskSlot;
  cslots : nat → CompletionSlot;
  copied : list (nat * CopyTask);
}.

Definition with_ingress (d : Device) (x : Ingress) : Device :=
  mkDevice x (warps d) (egress d) (task_publish d) (task_claim d) (ingress_done d) (tslots d) (cslots d) (copied d).
Definition with_warp (d : Device) (w : nat) (x : CopyWarp) : Device :=
  mkDevice (ingress d) (<[w := x]> (warps d)) (egress d) (task_publish d) (task_claim d) (ingress_done d)
    (tslots d) (cslots d) (copied d).
Definition with_egress (d : Device) (x : Egress) : Device :=
  mkDevice (ingress d) (warps d) x (task_publish d) (task_claim d) (ingress_done d) (tslots d) (cslots d) (copied d).
Definition with_publish (d : Device) (n : nat) : Device :=
  mkDevice (ingress d) (warps d) (egress d) n (task_claim d) (ingress_done d) (tslots d) (cslots d) (copied d).
Definition with_claim (d : Device) (n : nat) : Device :=
  mkDevice (ingress d) (warps d) (egress d) (task_publish d) n (ingress_done d) (tslots d) (cslots d) (copied d).
Definition with_done (d : Device) : Device :=
  mkDevice (ingress d) (warps d) (egress d) (task_publish d) (task_claim d) true (tslots d) (cslots d) (copied d).
Definition with_tslot (d : Device) (s : nat) (x : TaskSlot) : Device :=
  mkDevice (ingress d) (warps d) (egress d) (task_publish d) (task_claim d) (ingress_done d)
    (<[s := x]> (tslots d)) (cslots d) (copied d).
Definition with_cslot (d : Device) (s : nat) (x : CompletionSlot) : Device :=
  mkDevice (ingress d) (warps d) (egress d) (task_publish d) (task_claim d) (ingress_done d)
    (tslots d) (<[s := x]> (cslots d)) (copied d).
Definition with_copied (d : Device) (x : nat * CopyTask) : Device :=
  mkDevice (ingress d) (warps d) (egress d) (task_publish d) (task_claim d) (ingress_done d)
    (tslots d) (cslots d) (x :: copied d).

Definition launched_device : Device :=
  mkDevice (wi_poll 0) (λ _, wc_claim) (we_poll 0) 0 0 false (λ s, mkTaskSlot s no_task)
    (λ s, mkCompletionSlot s no_completion) [].

Section Kernel.
(** The number of copy warps, [SharedQueueDepth] and the capacity of the mapped rings. *)
Context (W depth cap : nat).

(** A wave goes from its base to [wave_end]; the lanes in it. *)
Definition wave_end (base count : nat) : nat := Nat.min (base + depth) count.
Definition wave (base count : nat) : list nat := seq base (wave_end base count - base).

(** What follows a wave: the next one, or what follows the batch. *)
Definition next_wave {A} (base count : nat) (again : nat → A) (over : A) : A :=
  if (base + depth <? kWarpSpecializedMetaBatch)%nat && (base + depth <? count)%nat then again (base + depth)%nat else over.

Definition ingress_step (lane : nat) (m : Mapped) (d : Device) : option Device :=
  match ingress d with
  | wi_poll head =>
      if (head <? task_tail m)%nat
      then let count := batch (task_tail m - head) in
           Some (with_ingress d (wi_load head count (seq 0 count) (λ _, no_task)))
      else if stop_requested m then Some (with_ingress d (wi_stop head))
      else None
  | wi_load head count [] loaded => Some (with_ingress d (wi_wave head count 0 (wave 0 count) loaded))
  | wi_load head count todo loaded =>
      if decide (lane ∈ todo)
      then Some (with_ingress d (wi_load head count (remove_lane lane todo)
                                  (<[lane := task_slots m (slot cap (head + lane))]> loaded)))
      else None
  | wi_wave head count base [] loaded =>
      Some (with_ingress (with_publish d (head + wave_end base count))
              (next_wave base count (λ b, wi_wave head count b (wave b count) loaded) (wi_poll (head + count))))
  | wi_wave head count base todo loaded =>
      let i := (head + lane)%nat in
      if decide (lane ∈ todo)
      then if (t_sequence (tslots d (slot depth i)) =? i)%nat
           then Some (with_ingress (with_tslot d (slot depth i) (mkTaskSlot (S i) (loaded lane)))
                        (wi_wave head count base (remove_lane lane todo) loaded))
           else None
      else None
  | wi_stop head => Some (with_ingress (with_done d) (wi_done head))
  | wi_done _ => None
  end.

Definition copy_step (w : nat) (d : Device) : option Device :=
  match warps d w with
  | wc_claim => Some (with_warp d w (wc_publish (task_claim d)))
  | wc_publish claim =>
      if (claim <? task_publish d)%nat
      then Some (with_warp d w (wc_swap claim (Nat.min (task_publish d - claim) kCopyClaimBatch)))
      else Some (with_warp d w wc_stop)
  | wc_swap claim count =>
      if (task_claim d =? claim)%nat
      then Some (with_warp (with_claim d (claim + count)) w (wc_task claim count 0))
      else Some (with_warp d w wc_claim)
  | wc_stop => Some (with_warp d w (if ingress_done d then wc_done else wc_claim))
  | wc_task base count k =>
      let i := (base + k)%nat in
      if (k <? count)%nat
      then let s := tslots d (slot depth i) in
           if (t_sequence s =? S i)%nat
           then Some (with_warp (with_copied d (i, slot_task s)) w (wc_release base count k (slot_task s)))
           else None
      else Some (with_warp d w wc_claim)
  | wc_release base count k t =>
      let i := (base + k)%nat in
      let s := tslots d (slot depth i) in
      Some (with_warp (with_tslot d (slot depth i) (mkTaskSlot (i + depth) (slot_task s))) w (wc_complete base count k t))
  | wc_complete base count k t =>
      let i := (base + k)%nat in
      if (c_sequence (cslots d (slot depth i)) =? i)%nat
      then Some (with_warp (with_cslot d (slot depth i) (mkCompletionSlot (S i) (mkCopyCompletion (task_id t) task_success)))
                   w (wc_task base count (S k)))
      else None
  | wc_done => None
  end.

Definition egress_step (lane : nat) (m : Mapped) (d : Device) : option (Mapped * Device) :=
  match egress d with
  | we_poll head =>
      if (head <? task_tail m)%nat
      then let count := batch (task_tail m - head) in
           Some (m, with_egress d (we_read head count 0 (wave 0 count) (λ _, no_completion)))
      else if stop_requested m then Some (m, with_egress d (we_done head))
      else None
  | we_read head count base [] loaded => Some (m, with_egress d (we_free head count base (wave base count) loaded))
  | we_read head count base todo loaded =>
      let i := (head + lane)%nat in
      let s := cslots d (slot depth i) in
      if decide (lane ∈ todo)
      then if (c_sequence s =? S i)%nat
           then Some (m, with_egress d (we_read head count base (remove_lane lane todo) (<[lane := slot_completion s]> loaded)))
           else None
      else None
  | we_free head count base [] loaded =>
      Some (m, with_egress d (next_wave base count (λ b, we_read head count b (wave b count) loaded)
                                (we_write head count (seq 0 count) loaded)))
  | we_free head count base todo loaded =>
      let i := (head + lane)%nat in
      let s := cslots d (slot depth i) in
      if decide (lane ∈ todo)
      then Some (m, with_egress (with_cslot d (slot depth i) (mkCompletionSlot (i + depth) (slot_completion s)))
                      (we_free head count base (remove_lane lane todo) loaded))
      else None
  | we_write head count [] loaded => Some (with_completion_tail m (head + count), with_egress d (we_poll (head + count)))
  | we_write head count todo loaded =>
      if decide (lane ∈ todo)
      then Some (with_completion_slot m (slot cap (head + lane)) (loaded lane),
                 with_egress d (we_write head count (remove_lane lane todo) loaded))
      else None
  | we_done _ => None
  end.

(** * Host and device *)

Record World := mkWorld {
  queue : Queue; mapped : Mapped; device : Device;
  submitted : list CopyTask; polled : list CopyCompletion;
}.

Inductive Event :=
| ev_submit (tasks : list CopyTask) | ev_poll | ev_stop
| ev_ingress (lane : nat) | ev_copy (w : nat) | ev_egress (lane : nat).

Definition step (s : World) (e : Event) : option World :=
  match e with
  | ev_submit tasks =>
      let '(q, m, status, n) := try_submit_batch (queue s) (mapped s) tasks in
      Some (mkWorld q m (device s) (submitted s ++ take n tasks) (polled s))
  | ev_poll =>
      let '(q, status, c) := try_poll (queue s) (mapped s) in
      Some (mkWorld q (mapped s) (device s) (submitted s)
              (if status =? 0 then polled s ++ [c] else polled s))
  | ev_stop =>
      let '(q, m, status) := request_stop (queue s) (mapped s) in
      Some (mkWorld q m (device s) (submitted s) (polled s))
  | ev_ingress lane =>
      (λ d, mkWorld (queue s) (mapped s) d (submitted s) (polled s)) <$> ingress_step lane (mapped s) (device s)
  | ev_copy w =>
      if (w <? W)%nat
      then (λ d, mkWorld (queue s) (mapped s) d (submitted s) (polled s)) <$> copy_step w (device s)
      else None
  | ev_egress lane =>
      (λ '(m, d), mkWorld (queue s) m d (submitted s) (polled s)) <$> egress_step lane (mapped s) (device s)
  end.

Fixpoint run (s : World) (es : list Event) : option World :=
  match es with [] => Some s | e :: es => s' ← step s e; run s' es end.

End Kernel.

(** A queue is allocated and its kernel launched. *)
Definition launch (cap W depth : nat) (base : Z) : option World :=
  let '(q, allocated) := allocate empty_queue cap W depth base 0 in
  if negb (allocated =? 0) then None
  else
    let '(q, m, started) := start_impl false q zeroed true 0 in
    if started =? 0 then Some (mkWorld q m launched_device [] []) else None.

Definition sample (id : Z) : CopyTask := mkTask id (4096 + 64 * id) 64 0.

(** A task through the kernel with one copy warp. *)
Definition sample_run : list Event :=
  [ev_submit [sample 0; sample 1; sample 2]; ev_ingress 0; ev_ingress 1; ev_ingress 0; ev_ingress 2; ev_ingress 0;
   ev_ingress 1; ev_ingress 0; ev_ingress 0; ev_egress 0; ev_copy 0; ev_copy 0; ev_copy 0; ev_copy 0; ev_copy 0; ev_copy 0;
   ev_copy 0; ev_copy 0; ev_copy 0; ev_egress 1; ev_egress 0; ev_egress 0; ev_egress 0; ev_egress 1; ev_egress 0;
   ev_ingress 2; ev_ingress 0; ev_copy 0; ev_copy 0; ev_copy 0; ev_copy 0; ev_copy 0; ev_copy 0; ev_copy 0;
   ev_egress 2; ev_egress 0; ev_egress 2; ev_egress 0; ev_egress 0; ev_egress 1; ev_egress 2; ev_egress 0;
   ev_poll; ev_poll; ev_poll; ev_poll].


Example sample_polled :
  ((λ s, (completed_id <$> polled s, (copied (device s)).*2)) <$> (s0 ← launch 32 1 2 4096; run 1 2 32 s0 sample_run))
  = Some ([0; 1; 2], sample <$> [2; 1; 0]).
Proof. vm_compute. reflexivity. Qed.

(** The copy warp has seen no task when the host submits one and requests a stop; the first
    warp brings the task in and says it is done, and then the copy warp looks whether it is. *)
Definition stranding_run : list Event :=
  [ev_copy 0; ev_copy 0; ev_submit [sample 0]; ev_stop; ev_ingress 0; ev_ingress 0; ev_ingress 0; ev_ingress 0;
   ev_ingress 0; ev_ingress 0; ev_ingress 0; ev_egress 0; ev_copy 0].

(** One task was taken, the first warp and the copy warp are gone, and the last warp waits for
    a completion that is not there. *)
Record stranded (s : World) : Prop := {
  st_ingress : ingress (device s) = wi_done 1;
  st_warp : warps (device s) 0%nat = wc_done;
  st_egress : ∃ f, egress (device s) = we_read 0 1 0 [0%nat] f;
  st_slot : c_sequence (cslots (device s) 0) = 0%nat;
  st_copied : copied (device s) = [];
  st_memory : completion_tail (mapped s) = 0%nat;
  st_queue : has_memory (queue s) = true ∧ accepting (queue s) = false ∧
    completion_head (queue s) = 0%nat ∧ cached_completion_tail (queue s) = 0%nat;
  st_tasks : submitted s = [sample 0] ∧ polled s = [];
}.

Lemma stranded_step s e s' : stranded s → step 1 2 32 s e = Some s' → stranded s'.
Proof.
  intros [Hi Hw [f He] Hs Hc Hm (Hq1 & Hq2 & Hq3 & Hq4) [Ht Hp]]. destruct e as [tasks| | |lane|w|lane]; cbn [step].
  - unfold try_submit_batch. rewrite Hq2. cbn [negb]. rewrite orb_true_r. cbn [orb]. intros [= <-].
    rewrite take_0, app_nil_r. split; eauto.
  - unfold try_poll. rewrite Hq1, Hq3, Hq4, Hm. cbn. intros [= <-]. split; eauto.
  - unfold request_stop. rewrite Hq2. cbn [negb]. rewrite orb_true_r. intros [= <-]. split; eauto.
  - unfold ingress_step. by rewrite Hi.
  - destruct w as [|w]; cbn [Nat.ltb Nat.leb]; [|done]. unfold copy_step. by rewrite Hw.
  - unfold egress_step. rewrite He. case_decide as E; [|done]. apply list_elem_of_singleton in E as ->. cbn. by rewrite Hs.
Qed.

(** (C17) A host that submits a task and then requests a stop can find the kernel in a state from
    which no step of anyone ever copies the task, completes it or ends the last warp, so that
    [wait] does not return. *)
Theorem stop_strands_task :
  ∃ s0 s, launch 32 1 2 4096 = Some s0 ∧ run 1 2 32 s0 stranding_run = Some s ∧ submitted s = [sample 0] ∧
    ∀ es s', run 1 2 32 s es = Some s' → polled s' = [] ∧ copied (device s') = [] ∧ ∀ h, egress (device s') ≠ we_done h.
Proof.
  assert (∃ s0 s, launch 32 1 2 4096 = Some s0 ∧ run 1 2 32 s0 stranding_run = Some s ∧ stranded s) as (s0 & s & E0 & E1 & Hs).
  { eexists _, _. split; [reflexivity|]. split; [vm_compute; reflexivity|]. split; try (vm_compute; done). by eexists. }
  exists s0, s. split_and!; [done|done|apply Hs|]. intros es. revert s E1 Hs.
  assert (∀ es s s', stranded s → run 1 2 32 s es = Some s' → stranded s') as Hrun.
  { clear. induction es as [|e es IH]; intros s s' Hs; cbn [run]; [by intros [= <-]|].
    intros (s1 & H1 & H2)%bind_Some. by apply (IH s1 s' (stranded_step _ _ _ Hs H1)). }
  intros s _ Hs s' H. destruct (Hrun es s s' Hs H) as [_ _ [f He] _ Hc _ _ [_ Hp]]. split_and!; [done|done|]. intros h. by rewrite He.
Qed.

(** * Depths and kernels *)

Lemma supported_depth depth :
  is_supported_shared_queue_depth (Z.of_nat depth) = true → depth ∈ [2; 4; 8; 16]%nat ∧ ∃ k, depth = (2 ^ S k)%nat.
Proof.
  unfold is_supported_shared_queue_depth. intros [[[H|H]%orb_true_iff|H]%orb_true_iff|H]%orb_true_iff; apply Z.eqb_eq in H.
  - replace depth with 2%nat by lia. split; [set_solver|by exists 0%nat].
  - replace depth with 4%nat by lia. split; [set_solver|by exists 1%nat].
  - replace depth with 8%nat by lia. split; [set_solver|by exists 2%nat].
  - replace depth with 16%nat by lia. split; [set_solver|by exists 3%nat].
Qed.

(** What the allocation of the pipeline accepts has a kernel: the launch does not fail for
    want of one. *)
Lemma pipeline_dispatches q cap W depth base q' :
  allocate_pipeline q cap W depth base 0 = (q', 0) →
  (if decide (shared_queue_depth q' ∈ [2; 4; 8; 16]%nat)
   then dispatch_warp_specialized_variant true (shared_queue_depth q') (copy_warps q') true else false) = true.
Proof.
  unfold allocate_pipeline. destruct (_ || _); [intros [=]|].
  destruct (warp_specialized_pipeline_allocation_size _ _ _) as [sizes|] eqn:E; [|intros [=]]. intros [= <-].
  cbn [shared_queue_depth copy_warps].
  unfold warp_specialized_pipeline_allocation_size in E. destruct (negb _) eqn:E1 in E; [done|]. cbv zeta in E.
  destruct (_ || _) eqn:E2 in E; [done|]. bool_hyps.
  match goal with H : is_supported_shared_queue_depth _ = true |- _ => apply supported_depth in H as [Hd _] end.
  rewrite decide_True by done. unfold dispatch_warp_specialized_variant.
  match goal with H : is_supported_pipeline_copy_warps _ = true |- _ => unfold is_supported_pipeline_copy_warps in H; rename H into Hw end.
  bool_hyps. case_decide as HW; [|destruct HW; pose proof (Z.div_mod (Z.of_nat W - 2) 4); set_unfold; lia].
  destruct (depth <? _)%nat eqn:El; [|done]. apply Nat.ltb_lt in El. change (Z.of_nat kWarpSpecializedMetaBatch) with 32 in *.
  change kWarpSpecializedMetaBatch with 32%nat in *. pose proof (Nat2Z.inj_div (32 + W - 1) W) as Ez.
  replace (Z.of_nat (32 + W - 1)) with (32 + Z.of_nat W - 1) in Ez by lia. lia.
Qed.

End WarpSpecialized.
