(* ===== verification/SpecializedFifo.v ===== *)
(** [warp_specialized_kernel] keeps its rings in order (src/gpu/persistent_copy.cu): in every
    interleaving the host polls the completions of its tasks in the order of submission, each
    after its task was copied, and no slot is overwritten before it was read. *)

From stdpp Require Import functions.
From S2P Require Import Prelude CopyHost WarpQueue WarpHost WarpPipeline.
From S2P Require Import WarpOrder CopySetup SeqRing WarpSpecialized.
Import Copy WarpQueue WarpHost WarpSpecialized.

Module SpecializedFifo.
Import WarpPipeline (batch, remove_lane, with_completion_slot, with_completion_tail).

(** * The invariant *)

Import WarpOrder (lanes_left, lanes_ok, lanes_all, lanes_none, lanes_remove, lanes_ok_seq, lanes_ok_remove, lanes_ok_lt, lanes_todo).
Import SeqRing (seq_ring, seq_ring_ext, ring_put, ring_take, ring_start, slot_holds, holds).

(** What a copy warp has claimed and not yet copied, given back and completed. *)
Definition to_copy (x : CopyWarp) : list nat :=
  match x with
  | wc_task b c k => seq (b + k) (c - k)
  | wc_release b c k _ | wc_complete b c k _ => seq (S (b + k)) (c - S k)
  | _ => []
  end.
Definition to_free (x : CopyWarp) : list nat :=
  match x with
  | wc_task b c k | wc_release b c k _ => seq (b + k) (c - k)
  | wc_complete b c k _ => seq (S (b + k)) (c - S k)
  | _ => []
  end.
Definition to_complete (x : CopyWarp) : list nat :=
  match x with wc_task b c k | wc_release b c k _ | wc_complete b c k _ => seq (b + k) (c - k) | _ => [] end.

Section Invariant.
Context (W depth cap : nat) (Hdepth : ∃ k, depth = (2 ^ S k)%nat) (Hcap : ∃ k, cap = (2 ^ k)%nat).

(** Of the indices below [n], those the warps are not to deal with; what they are to deal with
    is below [n] and different. *)
Definition settled (f : CopyWarp → list nat) (n : nat) (ws : nat → CopyWarp) (i : nat) : Prop :=
  (i < n)%nat ∧ i ∉ gather f W ws.
Record split_claim (f : CopyWarp → list nat) (n : nat) (ws : nat → CopyWarp) : Prop := {
  sc_once : NoDup (gather f W ws);
  sc_below : ∀ i, i ∈ gather f W ws → (i < n)%nat;
}.

Section Claims.
Context (f : CopyWarp → list nat) (n : nat) (ws : nat → CopyWarp) (w : nat) (x : CopyWarp).
Context (Hw : (w < W)%nat) (S : split_claim f n ws).

Lemma settle_same :
  f x = f (ws w) → split_claim f n (<[w := x]> ws) ∧ ∀ j, settled f n (<[w := x]> ws) j ↔ settled f n ws j.
Proof.
  intros E. pose proof (gather_same f W ws w x Hw E) as P. destruct S as [S1 S2]. split.
  - split; [by rewrite P|]. intros i. rewrite P. apply S2.
  - intros j. unfold settled. by rewrite P.
Qed.

(** The warp has dealt with the first index it had. *)
Lemma settle_first i :
  f (ws w) = i :: f x →
  split_claim f n (<[w := x]> ws) ∧ ¬ settled f n ws i ∧ ∀ j, settled f n (<[w := x]> ws) j ↔ settled f n ws j ∨ j = i.
Proof.
  intros E. destruct (gather_change f W ws w x Hw) as (r & P & P'). rewrite E in P. cbn [app] in P. destruct S as [S1 S2].
  rewrite P in S1. apply NoDup_cons in S1 as [Hi Hnd].
  assert (i < n)%nat as Hlt by (apply S2; rewrite P; by left). split_and!.
  - split; [by rewrite P'|]. intros j Hj. apply S2. rewrite P. right. by rewrite P' in Hj.
  - intros [_ H]. apply H. rewrite P. by left.
  - intros j. unfold settled. rewrite P, P', not_elem_of_cons. split; [|intros [[? [? ?]]| ->]; done].
    intros [H1 H2]. destruct (decide (j = i)); [by right|by left].
Qed.

(** The warp has claimed more. *)
Lemma settle_claim c :
  f (ws w) = [] → f x = seq n c →
  split_claim f (n + c) (<[w := x]> ws) ∧ ∀ j, settled f (n + c) (<[w := x]> ws) j ↔ settled f n ws j.
Proof.
  intros E E'. destruct (gather_change f W ws w x Hw) as (r & P & P'). rewrite E in P. rewrite E' in P'. cbn [app] in P.
  destruct S as [S1 S2]. rewrite P in S1. assert (∀ i, i ∈ r → (i < n)%nat) as Hr by (intros i Hi; apply S2; by rewrite P).
  split; [split|].
  - rewrite P'. apply NoDup_app. split_and!; [apply NoDup_seq| |done]. intros i Hi%elem_of_seq Hir%Hr. lia.
  - intros i. rewrite P', elem_of_app, elem_of_seq. intros [?|?%Hr]; lia.
  - intros j. unfold settled. rewrite P, P', elem_of_app, elem_of_seq. split.
    + intros [H1 H2]. split; [|by intros ?; apply H2; right]. destruct (decide (j < n)%nat); [done|]. destruct H2. left. lia.
    + intros [H1 H2]. split; [lia|]. intros [?|?]; [lia|done].
Qed.
End Claims.

(** The indices in the ring of tasks so far, and those taken out of it. *)
Definition placed (d : Device) (i : nat) : Prop :=
  match ingress d with
  | wi_wave h c b todo _ => lanes_left h (wave_end depth b c) todo i
  | wi_poll h | wi_load h _ _ _ | wi_stop h | wi_done h => (i < h)%nat
  end.
Definition freed (d : Device) (i : nat) : Prop := settled to_free (task_claim d) (warps d) i.
(** The indices in the ring of completions so far, and those taken out of it. *)
Definition completed (d : Device) (i : nat) : Prop := settled to_complete (task_claim d) (warps d) i.
Definition released (d : Device) (i : nat) : Prop :=
  match egress d with
  | we_poll h | we_done h => (i < h)%nat
  | we_read h _ b _ _ => (i < h + b)%nat
  | we_free h c b todo _ => lanes_left h (wave_end depth b c) todo i
  | we_write h c _ _ => (i < h + c)%nat
  end.
(** The indices whose completion the last warp has, and those it has written to mapped memory. *)
Definition obtained (d : Device) (i : nat) : Prop :=
  match egress d with
  | we_poll h | we_done h => (i < h)%nat
  | we_read h c b todo _ => lanes_left h (wave_end depth b c) todo i
  | we_free h c b _ _ => (i < h + wave_end depth b c)%nat
  | we_write h c _ _ => (i < h + c)%nat
  end.
Definition written (d : Device) (i : nat) : Prop :=
  match egress d with
  | we_poll h | we_done h | we_read h _ _ _ _ | we_free h _ _ _ _ => (i < h)%nat
  | we_write h c todo _ => lanes_left h c todo i
  end.

#[local] Instance placed_dec d i : Decision (placed d i).
Proof. unfold placed, lanes_left. destruct (ingress d); apply _. Defined.
#[local] Instance freed_dec d i : Decision (freed d i).
Proof. unfold freed, settled. apply _. Defined.
#[local] Instance completed_dec d i : Decision (completed d i).
Proof. unfold completed, settled. apply _. Defined.
#[local] Instance released_dec d i : Decision (released d i).
Proof. unfold released, lanes_left. destruct (egress d); apply _. Defined.

(** The lanes of a wave that have something left to do. *)
Record wave_ok (b c : nat) (todo : list nat) : Prop := {
  wv_lanes : lanes_ok (wave_end depth b c) todo;
  wv_base : Forall (λ x, (b <= x)%nat) todo;
  wv_count : (b < c)%nat;
}.

(** [l] are the tasks submitted. *)
Definition loaded_ok (l : list CopyTask) (h c : nat) (todo : list nat) (f : nat → CopyTask) : Prop :=
  ∀ j, (j < c)%nat → j ∉ todo → l !! (h + j)%nat = Some (f j).
Definition ingress_ok (l : list CopyTask) (publish : nat) (stop : bool) (x : Ingress) : Prop :=
  match x with
  | wi_poll h => (h <= length l)%nat ∧ publish = h
  | wi_load h c todo f => (h + c <= length l)%nat ∧ publish = h ∧ (0 < c <= kWarpSpecializedMetaBatch)%nat ∧
      lanes_ok c todo ∧ loaded_ok l h c todo f
  | wi_wave h c b todo f => (h + c <= length l)%nat ∧ publish = (h + b)%nat ∧ (c <= kWarpSpecializedMetaBatch)%nat ∧
      wave_ok b c todo ∧ loaded_ok l h c [] f
  | wi_stop h | wi_done h => h = length l ∧ publish = h ∧ stop = true
  end.
Definition got_ok (l : list CopyTask) (h : nat) (f : nat → CopyCompletion) (j : nat) : Prop :=
  ∃ t, l !! (h + j)%nat = Some t ∧ f j = completion_of t.
Definition egress_ok (l : list CopyTask) (ctail : nat) (stop : bool) (x : Egress) : Prop :=
  match x with
  | we_poll h => h = ctail ∧ (h <= length l)%nat
  | we_read h c b todo f => h = ctail ∧ (h + c <= length l)%nat ∧ (c <= kWarpSpecializedMetaBatch)%nat ∧ wave_ok b c todo ∧
      ∀ j, (j < wave_end depth b c)%nat → j ∉ todo → got_ok l h f j
  | we_free h c b todo f => h = ctail ∧ (h + c <= length l)%nat ∧ (c <= kWarpSpecializedMetaBatch)%nat ∧ wave_ok b c todo ∧
      ∀ j, (j < wave_end depth b c)%nat → got_ok l h f j
  | we_write h c todo f => h = ctail ∧ (h + c <= length l)%nat ∧ lanes_ok c todo ∧ ∀ j, (j < c)%nat → got_ok l h f j
  | we_done h => h = ctail ∧ h = length l ∧ stop = true
  end.
Definition warp_ok (l : list CopyTask) (publish : nat) (x : CopyWarp) : Prop :=
  match x with
  | wc_swap b c => (b + c <= publish)%nat
  | wc_task b c k => (k <= c)%nat ∧ (b + c <= publish)%nat
  | wc_release b c k t | wc_complete b c k t => (k < c)%nat ∧ (b + c <= publish)%nat ∧ l !! (b + k)%nat = Some t
  | _ => True
  end.

Record device_inv (l : list CopyTask) (ctail : nat) (stop : bool) (d : Device) : Prop := {
  d_ingress : ingress_ok l (task_publish d) stop (ingress d);
  d_egress : egress_ok l ctail stop (egress d);
  d_warps : ∀ w, (w < W)%nat → warp_ok l (task_publish d) (warps d w);
  d_claim : (task_claim d <= task_publish d)%nat;
  d_tasks : seq_ring depth (placed d) (freed d) (λ s, t_sequence (tslots d s));
  d_completions : seq_ring depth (completed d) (released d) (λ s, c_sequence (cslots d s));
  d_task_slots : ∀ i t, l !! i = Some t → placed d i → ¬ freed d i → slot_task (tslots d (slot depth i)) = t;
  d_completion_slots : ∀ i t, l !! i = Some t → completed d i → ¬ released d i →
    slot_completion (cslots d (slot depth i)) = completion_of t;
  d_free : split_claim to_free (task_claim d) (warps d);
  d_complete : split_claim to_complete (task_claim d) (warps d);
  d_copy : (copied d).*1 ++ gather to_copy W (warps d) ≡ₚ seq 0 (task_claim d);
  d_copied : ∀ i t, (i, t) ∈ copied d → l !! i = Some t;
  d_obtained : ∀ i, obtained d i → completed d i;
}.

Record inv (s : World) : Prop := {
  inv_host : host_ok cap (queue s) (mapped s) (submitted s) (polled s) (written (device s));
  inv_device : device_inv (submitted s) (completion_tail (mapped s)) (stop_requested (mapped s)) (device s);
}.

(** ** Facts *)

Section Facts.
Context (l : list CopyTask) (ctail : nat) (stop : bool) (d : Device) (I : device_inv l ctail stop d).

Lemma publish_placed i : (i < task_publish d)%nat → placed d i.
Proof.
  intros Hi. pose proof (d_ingress _ _ _ _ I) as Hok. unfold placed.
  destruct (ingress d) as [h|h c todo f|h c b todo f|h|h]; cbn in Hok; destruct_and? Hok; subst; try lia.
  destruct (decide (i < h)%nat) as [|Hge]; [by left|right]. 
  match goal with H : wave_ok _ _ _ |- _ => destruct H as [Hl Hb Hc] end. unfold wave_end in *. split; [lia|].
  intros Hin. rewrite Forall_forall in Hb. specialize (Hb _ Hin). lia.
Qed.
Lemma placed_real i : placed d i → (i < length l)%nat.
Proof.
  intros Hi. pose proof (d_ingress _ _ _ _ I) as Hok. unfold placed in Hi.
  destruct (ingress d) as [h|h c todo f|h c b todo f|h|h]; cbn in Hok; destruct_and? Hok; subst; try lia.
  unfold lanes_left, wave_end in Hi. lia.
Qed.
Lemma completed_claimed i : completed d i → (i < task_publish d)%nat.
Proof. intros [Hi _]. pose proof (d_claim _ _ _ _ I). lia. Qed.
Lemma completed_real i : completed d i → (i < length l)%nat.
Proof. intros Hi. by apply placed_real, publish_placed, completed_claimed. Qed.
Lemma written_obtained i : written d i → obtained d i.
Proof.
  pose proof (d_egress _ _ _ _ I) as Hok. unfold written, obtained, lanes_left.
  destruct (egress d) as [h|h c b todo f|h c b todo f|h c todo f|h]; lia.
Qed.
Lemma specialized_done_written i : (i < ctail)%nat → written d i.
Proof.
  intros Hi. pose proof (d_egress _ _ _ _ I) as Hok. unfold written.
  destruct (egress d) as [h|h c b todo f|h c b todo f|h c todo f|h]; cbn in Hok; destruct_and? Hok; subst; try lia. by left.
Qed.
End Facts.

(** ** The first warp *)

(** It moves on, possibly with a new [task_publish] or [ingress_done]. *)
Lemma specialized_ingress_moves l ctail stop d x n e :
  device_inv l ctail stop d → ingress_ok l n stop x → (task_publish d <= n)%nat →
  let d' := mkDevice x (warps d) (egress d) n (task_claim d) e (tslots d) (cslots d) (copied d) in
  (∀ j, placed d' j ↔ placed d j) → device_inv l ctail stop d'.
Proof.
  intros [] Hx Hn d' Hp. split; try done; cbn.
  - intros w Hw. specialize (d_warps0 w Hw). destruct (warps d w); cbn in *; try done; destruct_and?; split_and?; done || lia.
  - lia.
  - eapply seq_ring_ext; [exact d_tasks0|intros i; by rewrite Hp|done].
  - intros i t Hi H. apply d_task_slots0; [done|by apply Hp].
Qed.

Lemma wave_whole b c : (b < c)%nat → (0 < depth)%nat → wave_ok b c (wave depth b c).
Proof.
  intros Hb Hd. unfold wave. assert (b <= wave_end depth b c)%nat by (unfold wave_end; lia). split; [split|..].
  - apply NoDup_seq.
  - apply Forall_seq. lia.
  - apply Forall_seq. lia.
  - done.
Qed.
Lemma wave_remove b c todo lane : wave_ok b c todo → wave_ok b c (remove_lane lane todo).
Proof.
  intros [H1 H2 H3]. split; [by apply lanes_ok_remove| |done]. apply Forall_forall. intros x [_ Hx]%list_elem_of_filter.
  by apply (proj1 (Forall_forall _ _) H2).
Qed.
Lemma wave_lanes h b c j : (b < c)%nat → lanes_left h (wave_end depth b c) (wave depth b c) j ↔ (j < h + b)%nat.
Proof. intros Hb. unfold lanes_left, wave, wave_end. rewrite elem_of_seq. lia. Qed.

Lemma next_wave_over b c :
  (b + depth <? kWarpSpecializedMetaBatch)%nat && (b + depth <? c)%nat = false → (c <= kWarpSpecializedMetaBatch)%nat →
  (c <= b + depth)%nat.
Proof. intros [E|E]%andb_false_iff Hc; bool_hyps; lia. Qed.

(** A lane places its task. *)
Lemma lane_places l ctail stop d h c b todo f lane (i := (h + lane)%nat) :
  device_inv l ctail stop d → ingress d = wi_wave h c b todo f → lane ∈ todo → t_sequence (tslots d (slot depth i)) = i →
  device_inv l ctail stop (with_ingress (with_tslot d (slot depth i) (mkTaskSlot (S i) (f lane)))
                             (wi_wave h c b (remove_lane lane todo) f)).
Proof.
  intros I Ei Hin Es. pose proof I as []. rewrite Ei in d_ingress0. cbn in d_ingress0.
  destruct d_ingress0 as (H1 & H2 & H3 & Hv & H5). pose proof (lanes_ok_lt _ _ _ (wv_lanes _ _ _ Hv) Hin) as Hlt.
  set (d' := with_ingress _ _).
  assert (∀ j, placed d' j ↔ placed d j ∨ j = i) as Hp.
  { intros j. unfold placed, d'. cbn [ingress with_ingress]. rewrite Ei. by apply lanes_remove. }
  assert (¬ placed d i) as Hn by (unfold placed; rewrite Ei; by apply lanes_todo).
  pose proof (ring_put depth Hdepth _ _ _ d_tasks0 _ _ i _ Hn Es Hp) as R.
  split; try done.
  - cbn. split_and!; [done|done|done|by apply wave_remove|done].
  - eapply SeqRing.seq_ring_eq; [exact R|]. intros x. by apply (WarpOrder.insert_field t_sequence (tslots d)).
  - intros j t Hj Hpj Hfj. cbn [tslots with_ingress with_tslot d']. destruct (decide (slot depth i = slot depth j)) as [E|E].
    + assert (i = j) as <-.
      { apply (slot_holds depth Hdepth _ _ _ R); try done; [by apply Hp; right|].
        intros Hf. by apply Hn, (SeqRing.sr_order _ _ _ _ d_tasks0). }
      rewrite fn_lookup_insert. cbn. unfold wave_end in Hlt. unfold i in Hj. rewrite (H5 lane ltac:(lia)) in Hj by by apply not_elem_of_nil.
      by injection Hj as <-.
    + rewrite fn_lookup_insert_ne by done. apply Hp in Hpj as [Hpj| ->]; [by apply d_task_slots0|done].
Qed.

Lemma specialized_ingress_step_inv l ctail stop m lane d d' :
  device_inv l ctail stop d → task_tail m = length l → stop_requested m = stop →
  (∀ i t, l !! i = Some t → (ctail <= i)%nat → task_slots m (slot cap i) = t) →
  ingress_step depth cap lane m d = Some d' → device_inv l ctail stop d'.
Proof.
  intros I Htail Hstop Hslots. pose proof (d_ingress _ _ _ _ I) as Hok. unfold ingress_step.
  pose proof (SeqRing.depth_two depth Hdepth) as Hd2.
  destruct (ingress d) as [h|h c todo f|h c b todo f|h|h] eqn:Ei; cbn [ingress_ok] in Hok.
  - rewrite Htail, Hstop. destruct Hok as [Hh Hpub]. destruct (_ <? _)%nat eqn:E; [|destruct stop eqn:Es; [|done]]; intros [= <-]; bool_hyps.
    + pose proof (WarpOrder.batch_bound (length l - h)). assert (0 < batch (length l - h))%nat by (unfold batch, kWarpSpecializedMetaBatch; lia).
      apply (specialized_ingress_moves l ctail stop d); [done| |done|].
      * cbn. split_and!; [lia|done|lia|lia|apply lanes_ok_seq..|]. intros j Hj Hn. destruct Hn. apply elem_of_seq. lia.
      * intros j. unfold placed. cbn. by rewrite Ei.
    + apply (specialized_ingress_moves l ctail true d); [done| |done|].
      * cbn. split_and!; [lia|done|done].
      * intros j. unfold placed. cbn. by rewrite Ei.
  - destruct Hok as (H1 & H2 & H3 & H4 & H5). destruct todo as [|y todo].
    + intros [= <-]. apply (specialized_ingress_moves l ctail stop d); [done| |done|].
      * cbn. split_and!; [done|lia|lia|apply wave_whole; lia|done].
      * intros j. unfold placed. cbn [ingress]. rewrite Ei, wave_lanes by lia. by rewrite Nat.add_0_r.
    + case_decide as Hin; [|done]. intros [= <-]. pose proof (lanes_ok_lt _ _ _ H4 Hin) as Hlt.
      apply (specialized_ingress_moves l ctail stop d); [done| |done|].
      * cbn [ingress_ok]. split_and!; [done|done|lia|lia|apply lanes_ok_remove, H4..|].
        intros j Hj Hn. destruct (decide (j = lane)) as [->|Hne].
        -- rewrite fn_lookup_insert. destruct (lookup_lt_is_Some_2 l (h + lane)) as [t Ht]; [lia|]. rewrite Ht. f_equal. symmetry.
           apply Hslots; [done|]. apply Nat.nlt_ge. intros Hc. apply (specialized_done_written _ _ _ _ I) in Hc.
           apply (written_obtained _ _ _ _ I), (d_obtained _ _ _ _ I), (completed_claimed _ _ _ _ I) in Hc. lia.
        -- rewrite fn_lookup_insert_ne by done. apply H5; [done|]. intros Hj'. apply Hn. by apply list_elem_of_filter.
      * intros j. unfold placed. cbn. by rewrite Ei.
  - destruct Hok as (H1 & H2 & H3 & Hv & H5). pose proof (wv_count _ _ _ Hv) as Hbc. destruct todo as [|y todo].
    + intros [= <-]. apply (specialized_ingress_moves l ctail stop d); [done| |cbn; unfold wave_end; lia|]; cbn [task_publish with_publish].
      * unfold next_wave, wave_end. destruct (_ && _) eqn:E; cbn [ingress_ok].
        -- bool_hyps. split_and!; [done|lia|done|apply wave_whole; lia|done].
        -- apply (next_wave_over b c) in E; [|done]. lia.
      * intros j. unfold placed, next_wave. cbn [ingress]. rewrite Ei, lanes_none. destruct (_ && _) eqn:E.
        -- bool_hyps. rewrite wave_lanes by lia. unfold wave_end. lia.
        -- apply (next_wave_over b c) in E; [|done]. unfold wave_end. lia.
    + case_decide as Hin; [|done]. destruct (_ =? _)%nat eqn:E; [|done]. bool_hyps. intros [= <-]. by apply lane_places.
  - intros [= <-]. apply (specialized_ingress_moves l ctail stop d); [done| |done|]; [done|].
    intros j. unfold placed. cbn. by rewrite Ei.
  - done.
Qed.

(** ** The copy warps *)

Section Copy.
Context (l : list CopyTask) (ctail : nat) (stop : bool) (d : Device) (I : device_inv l ctail stop d).
Context (w : nat) (Hw : (w < W)%nat).

Lemma warps_set x n :
  warp_ok l n x → task_publish d = n → ∀ v, (v < W)%nat → warp_ok l n ((<[w := x]> (warps d)) v).
Proof.
  intros Hx <- v Hv. destruct (decide (v = w)) as [->|]; [by rewrite fn_lookup_insert|].
  rewrite fn_lookup_insert_ne by done. by apply (d_warps _ _ _ _ I).
Qed.

(** A warp moves on. *)
Lemma specialized_warp_quiet x :
  warp_ok l (task_publish d) x → to_copy x = to_copy (warps d w) → to_free x = to_free (warps d w) →
  to_complete x = to_complete (warps d w) → device_inv l ctail stop (with_warp d w x).
Proof.
  intros Hx E1 E2 E3. pose proof I as []. destruct (settle_same to_free _ _ w x Hw d_free0 E2) as [S1 F1].
  destruct (settle_same to_complete _ _ w x Hw d_complete0 E3) as [S2 F2].
  split; try done; cbn.
  - by apply warps_set.
  - eapply seq_ring_ext; [exact d_tasks0|done|intros i; symmetry; apply F1].
  - eapply seq_ring_ext; [exact d_completions0|intros i; symmetry; apply F2|done].
  - intros i t Hi Hp Hf. apply d_task_slots0; [done|done|]. intros H. by apply Hf, F1.
  - intros i t Hi Hp Hf. apply d_completion_slots0; [done| |done]. by apply F2.
  - by rewrite gather_same.
  - intros i Hi. by apply F2, d_obtained0.
Qed.

(** A warp claims tasks. *)
Lemma specialized_warp_claims c :
  warps d w = wc_swap (task_claim d) c →
  device_inv l ctail stop (with_warp (with_claim d (task_claim d + c)) w (wc_task (task_claim d) c 0)).
Proof.
  intros Ew. pose proof I as []. set (n := task_claim d) in *. set (x := wc_task n c 0).
  pose proof (d_warps0 w Hw) as Hok. rewrite Ew in Hok. cbn in Hok.
  assert (to_free x = seq n c ∧ to_complete x = seq n c ∧ to_copy x = seq n c) as (X1 & X2 & X3)
    by (cbn; by rewrite Nat.add_0_r, Nat.sub_0_r).
  destruct (settle_claim to_free _ _ w x Hw d_free0 c ltac:(by rewrite Ew) X1) as [S1 F1].
  destruct (settle_claim to_complete _ _ w x Hw d_complete0 c ltac:(by rewrite Ew) X2) as [S2 F2].
  destruct (gather_change to_copy W (warps d) w x Hw) as (r & P & P'). rewrite Ew in P. rewrite X3 in P'. cbn [to_copy app] in P.
  split; try done; cbn.
  - apply warps_set; [cbn; lia|done].
  - eapply seq_ring_ext; [exact d_tasks0|done|intros i; symmetry; apply F1].
  - eapply seq_ring_ext; [exact d_completions0|intros i; symmetry; apply F2|done].
  - intros i t Hi Hp Hf. apply d_task_slots0; [done|done|]. intros H. by apply Hf, F1.
  - intros i t Hi Hp Hf. apply d_completion_slots0; [done| |done]. by apply F2.
  - rewrite P', seq_app, <- d_copy0, P. cbn [Nat.add]. solve_Permutation.
  - intros i Hi. by apply F2, d_obtained0.
Qed.

Lemma seq_first b c k : (k < c)%nat → seq (b + k) (c - k) = (b + k)%nat :: seq (S (b + k)) (c - S k).
Proof. intros Hk. by replace (c - k)%nat with (S (c - S k)) by lia. Qed.

(** A warp copies a task. *)
Lemma specialized_warp_copies b c k (i := (b + k)%nat) (s := tslots d (slot depth i)) :
  warps d w = wc_task b c k → (k < c)%nat → t_sequence s = S i →
  device_inv l ctail stop (with_warp (with_copied d (i, slot_task s)) w (wc_release b c k (slot_task s))).
Proof.
  intros Ew Hk Hs. pose proof I as []. pose proof (d_warps0 w Hw) as Hok. rewrite Ew in Hok. cbn in Hok. destruct Hok as [_ Hbc].
  set (x := wc_release b c k (slot_task s)).
  destruct (settle_same to_free _ _ w x Hw d_free0 ltac:(by rewrite Ew)) as [S1 F1].
  destruct (settle_same to_complete _ _ w x Hw d_complete0 ltac:(by rewrite Ew)) as [S2 F2].
  destruct (gather_change to_copy W (warps d) w x Hw) as (r & P & P'). rewrite Ew in P. cbn [to_copy x] in P, P'.
  rewrite seq_first in P by done.
  assert (placed d i) as Hpl by (apply (publish_placed _ _ _ _ I); unfold i; lia).
  assert (¬ freed d i) as Hnf.
  { intros [_ Hf]. apply Hf, elem_of_gather. exists w. split; [done|]. rewrite Ew. cbn. apply elem_of_seq. unfold i. lia. }
  destruct (lookup_lt_is_Some_2 l i (placed_real _ _ _ _ I i Hpl)) as [t Ht].
  pose proof (d_task_slots0 i t Ht Hpl Hnf) as Hst. fold s in Hst.
  split; try done; cbn.
  - apply warps_set; [cbn; fold i; rewrite Hst; split_and!; [done|lia|done]|done].
  - eapply seq_ring_ext; [exact d_tasks0|done|intros j; symmetry; apply F1].
  - eapply seq_ring_ext; [exact d_completions0|intros j; symmetry; apply F2|done].
  - intros j u Hj Hp Hf. apply d_task_slots0; [done|done|]. intros H. by apply Hf, F1.
  - intros j u Hj Hp Hf. apply d_completion_slots0; [done| |done]. by apply F2.
  - rewrite P', <- d_copy0, P. unfold i. solve_Permutation.
  - intros j u [[= -> ->]|Hj]%elem_of_cons; [by rewrite Hst|by apply d_copied0].
  - intros j Hj. by apply F2, d_obtained0.
Qed.

(** A warp gives a task slot back. *)
Lemma warp_frees b c k t (i := (b + k)%nat) (s := tslots d (slot depth i)) :
  warps d w = wc_release b c k t →
  device_inv l ctail stop
    (with_warp (with_tslot d (slot depth i) (mkTaskSlot (i + depth) (slot_task s))) w (wc_complete b c k t)).
Proof.
  intros Ew. pose proof I as []. pose proof (d_warps0 w Hw) as Hok. rewrite Ew in Hok. cbn in Hok. destruct Hok as (Hk & Hbc & Ht).
  set (x := wc_complete b c k t).
  destruct (settle_first to_free _ _ w x Hw d_free0 i ltac:(rewrite Ew; by apply seq_first)) as (S1 & N1 & F1).
  destruct (settle_same to_complete _ _ w x Hw d_complete0 ltac:(by rewrite Ew)) as [S2 F2].
  assert (placed d i) as Hpl by (apply (publish_placed _ _ _ _ I); unfold i; lia).
  pose proof (ring_take depth Hdepth _ _ _ d_tasks0 i (freed (with_warp d w x)) Hpl N1 F1) as R.
  split; try done; cbn.
  - by apply warps_set.
  - eapply SeqRing.seq_ring_eq; [exact R|]. intros y. by apply (WarpOrder.insert_field t_sequence (tslots d)).
  - eapply seq_ring_ext; [exact d_completions0|intros j; symmetry; apply F2|done].
  - intros j u Hj Hp Hf. assert (¬ freed d j ∧ j ≠ i) as [Hf' Hne].
    { split; [intros H; by apply Hf, F1; left|intros ->; by apply Hf, F1; right]. }
    rewrite fn_lookup_insert_ne; [by apply d_task_slots0|]. intros E. apply Hne. symmetry.
    by apply (slot_holds depth Hdepth _ _ _ d_tasks0).
  - intros j u Hj Hp Hf. apply d_completion_slots0; [done| |done]. by apply F2.
  - rewrite gather_same; [done|done|]. by rewrite Ew.
  - intros j Hj. by apply F2, d_obtained0.
Qed.

(** A warp puts a completion. *)
Lemma specialized_warp_completes b c k t (i := (b + k)%nat) :
  warps d w = wc_complete b c k t → c_sequence (cslots d (slot depth i)) = i →
  device_inv l ctail stop
    (with_warp (with_cslot d (slot depth i) (mkCompletionSlot (S i) (completion_of t))) w (wc_task b c (S k))).
Proof.
  intros Ew Es. pose proof I as []. pose proof (d_warps0 w Hw) as Hok. rewrite Ew in Hok. cbn in Hok. destruct Hok as (Hk & Hbc & Ht).
  set (x := wc_task b c (S k)).
  assert (to_free x = to_free (warps d w) ∧ to_copy x = to_copy (warps d w)) as [X1 X2]
    by (rewrite Ew; cbn; by rewrite Nat.add_succ_r).
  destruct (settle_same to_free _ _ w x Hw d_free0 X1) as [S1 F1].
  destruct (settle_first to_complete _ _ w x Hw d_complete0 i) as (S2 & N2 & F2).
  { rewrite Ew. cbn [to_complete x]. rewrite seq_first, Nat.add_succ_r by done. done. }
  set (d' := with_warp _ _ _).
  pose proof (ring_put depth Hdepth _ _ _ d_completions0 _ _ i (completed d') N2 Es F2) as R.
  split; try done; cbn.
  - apply warps_set; [cbn; lia|done].
  - eapply seq_ring_ext; [exact d_tasks0|done|intros j; symmetry; apply F1].
  - eapply SeqRing.seq_ring_eq; [exact R|]. intros y. by apply (WarpOrder.insert_field c_sequence (cslots d)).
  - intros j u Hj Hp Hf. apply d_task_slots0; [done|done|]. intros H. by apply Hf, F1.
  - intros j u Hj Hp Hf. destruct (decide (slot depth i = slot depth j)) as [E|E].
    + assert (i = j) as <-.
      { apply (slot_holds depth Hdepth _ _ _ R); try done; [by apply F2; right|].
        intros H. by apply N2, (SeqRing.sr_order _ _ _ _ d_completions0). }
      rewrite fn_lookup_insert. cbn. unfold i in Hj. by rewrite Ht in Hj; injection Hj as <-.
    + rewrite fn_lookup_insert_ne by done. apply F2 in Hp as [Hp| ->]; [by apply d_completion_slots0|done].
  - by rewrite gather_same.
  - intros j Hj. apply F2. left. by apply d_obtained0.
Qed.
End Copy.

Lemma specialized_copy_step_inv l ctail stop w d d' :
  device_inv l ctail stop d → (w < W)%nat → copy_step depth w d = Some d' → device_inv l ctail stop d'.
Proof.
  intros I Hw. pose proof (d_warps _ _ _ _ I w Hw) as Hok. pose proof (d_claim _ _ _ _ I) as Hcl. unfold copy_step.
  destruct (warps d w) as [|n|n c| |b c k|b c k t|b c k t|] eqn:Ew; cbn in Hok.
  - intros [= <-]. apply specialized_warp_quiet; rewrite ?Ew; done.
  - destruct (_ <? _)%nat eqn:E; bool_hyps.
    + remember (Nat.min _ _) as c eqn:Ec. intros [= <-]. apply specialized_warp_quiet; rewrite ?Ew; try done. cbn. lia.
    + intros [= <-]. apply specialized_warp_quiet; rewrite ?Ew; done.
  - destruct (_ =? _)%nat eqn:E; bool_hyps.
    + subst n. intros [= <-]. by apply specialized_warp_claims.
    + intros [= <-]. apply specialized_warp_quiet; rewrite ?Ew; done.
  - intros [= <-]. apply specialized_warp_quiet; rewrite ?Ew; by destruct (ingress_done d).
  - destruct (_ <? _)%nat eqn:E; bool_hyps.
    + destruct (_ =? _)%nat eqn:Es; [|done]. bool_hyps. intros [= <-]. by apply specialized_warp_copies.
    + intros [= <-]. apply specialized_warp_quiet; rewrite ?Ew; try done; cbn; by replace (c - k)%nat with 0%nat by lia.
  - intros [= <-]. by apply warp_frees.
  - destruct (_ =? _)%nat eqn:Es; [|done]. bool_hyps. intros [= <-]. by apply specialized_warp_completes.
  - done.
Qed.

(** ** The last warp *)

Lemma specialized_egress_moves l ctail ctail' stop d x :
  device_inv l ctail stop d → egress_ok l ctail' stop x → (∀ j, released (with_egress d x) j ↔ released d j) →
  (∀ j, obtained (with_egress d x) j → completed d j) → device_inv l ctail' stop (with_egress d x).
Proof.
  intros [] Hx Hr Ho. split; try done.
  - eapply seq_ring_ext; [exact d_completions0|done|intros j; by rewrite Hr].
  - intros i t Hi Hp Hrel. apply d_completion_slots0; [done|done|]. intros H. by apply Hrel, Hr.
Qed.

(** A lane gives its completion slot back. *)
Lemma lane_frees l ctail stop d h c b todo f lane (i := (h + lane)%nat) (s := cslots d (slot depth i)) :
  device_inv l ctail stop d → egress d = we_free h c b todo f → lane ∈ todo →
  device_inv l ctail stop (with_egress (with_cslot d (slot depth i) (mkCompletionSlot (i + depth) (slot_completion s)))
                             (we_free h c b (remove_lane lane todo) f)).
Proof.
  intros I Ee Hin. pose proof I as []. rewrite Ee in d_egress0. cbn in d_egress0. destruct d_egress0 as (H1 & H2 & H3 & Hv & H5).
  pose proof (lanes_ok_lt _ _ _ (wv_lanes _ _ _ Hv) Hin) as Hlt. set (d' := with_egress _ _).
  assert (∀ j, released d' j ↔ released d j ∨ j = i) as Hr.
  { intros j. unfold released, d'. cbn [egress with_egress]. rewrite Ee. by apply lanes_remove. }
  assert (¬ released d i) as Hn by (unfold released; rewrite Ee; by apply lanes_todo).
  assert (completed d i) as Hcd by (apply d_obtained0; unfold obtained; rewrite Ee; unfold i; lia).
  pose proof (ring_take depth Hdepth _ _ _ d_completions0 i (released d') Hcd Hn Hr) as R.
  split; try done.
  - cbn. split_and!; [done|done|done|by apply wave_remove|done].
  - eapply SeqRing.seq_ring_eq; [exact R|]. intros y. by apply (WarpOrder.insert_field c_sequence (cslots d)).
  - intros j u Hj Hp Hf. rewrite Hr in Hf. cbn [cslots with_egress with_cslot d'].
    rewrite fn_lookup_insert_ne; [apply d_completion_slots0; tauto|]. intros E. assert (j ≠ i) as Hne by tauto. apply Hne. symmetry.
    apply (slot_holds depth Hdepth _ _ _ d_completions0); tauto.
  - intros j Hj. apply d_obtained0. revert Hj. unfold obtained, d'. cbn [egress with_egress]. by rewrite Ee.
Qed.

(** A lane reads its completion. *)
Lemma lane_reads l ctail stop d h c b todo f lane (i := (h + lane)%nat) (s := cslots d (slot depth i)) :
  device_inv l ctail stop d → egress d = we_read h c b todo f → lane ∈ todo → c_sequence s = S i →
  device_inv l ctail stop (with_egress d (we_read h c b (remove_lane lane todo) (<[lane := slot_completion s]> f))).
Proof.
  intros I Ee Hin Hs. pose proof I as []. rewrite Ee in d_egress0. cbn in d_egress0. destruct d_egress0 as (H1 & H2 & H3 & Hv & H5).
  pose proof (lanes_ok_lt _ _ _ (wv_lanes _ _ _ Hv) Hin) as Hlt.
  assert (¬ released d i) as Hn.
  { unfold released. rewrite Ee. pose proof (proj1 (Forall_forall _ _) (wv_base _ _ _ Hv) lane Hin). unfold i. cbn in *. lia. }
  pose proof (holds depth Hdepth _ _ _ d_completions0 _ _ i Hn Hs) as Hcd.
  destruct (lookup_lt_is_Some_2 l i (completed_real _ _ _ _ I i Hcd)) as [t Ht].
  pose proof (d_completion_slots0 i t Ht Hcd Hn) as Hsc. fold s in Hsc.
  apply (specialized_egress_moves _ ctail); [done| | |].
  - cbn. split_and!; [done|done|done|by apply wave_remove|]. intros j Hj Hnj. destruct (decide (j = lane)) as [->|Hne].
    + exists t. split; [done|]. by rewrite fn_lookup_insert.
    + unfold got_ok. rewrite fn_lookup_insert_ne by done. apply H5; [done|]. intros Hj'. apply Hnj. by apply list_elem_of_filter.
  - intros j. unfold released. cbn [egress with_egress]. by rewrite Ee.
  - intros j. unfold obtained. cbn [egress with_egress]. rewrite lanes_remove by done. intros [Hj| ->]; [|done].
    apply d_obtained0. unfold obtained. by rewrite Ee.
Qed.

Definition with_device (s : World) (m : Mapped) (d : Device) : World := mkWorld (queue s) m d (submitted s) (polled s).

(** It moves on without touching mapped memory. *)
Lemma specialized_egress_same s d :
  inv s → device_inv (submitted s) (completion_tail (mapped s)) (stop_requested (mapped s)) d →
  (∀ j, written d j ↔ written (device s) j) → inv (with_device s (mapped s) d).
Proof. intros [Hh Hd] Hx Hw. split; [|done]. apply (host_weaken cap _ _ _ _ _ Hh). intros j. apply Hw. Qed.

(** A lane writes its completion to mapped memory. *)
Lemma lane_writes s h c todo f lane (d := device s) :
  inv s → egress d = we_write h c todo f → lane ∈ todo →
  inv (with_device s (with_completion_slot (mapped s) (slot cap (h + lane)) (f lane))
         (with_egress d (we_write h c (remove_lane lane todo) f))).
Proof.
  intros [Hh I] Ee Hin. fold d in I. pose proof (d_egress _ _ _ _ I) as Hok. rewrite Ee in Hok. cbn in Hok.
  destruct Hok as (H1 & H2 & H3 & H4). pose proof (lanes_ok_lt _ _ _ H3 Hin) as Hlt. destruct (H4 lane Hlt) as (t & Ht & ->).
  split.
  - apply (host_write cap Hcap _ _ _ _ _ Hh _ (h + lane) t); [done|lia| |].
    + unfold written. fold d. rewrite Ee. by apply lanes_todo.
    + intros j. unfold written. fold d. cbn. rewrite Ee. by apply lanes_remove.
  - apply (specialized_egress_moves _ (completion_tail (mapped s))); [done| | |].
    + cbn. split_and!; [done|done|apply lanes_ok_remove, H3..|done].
    + intros j. unfold released. cbn. by rewrite Ee.
    + intros j Hj. apply (d_obtained _ _ _ _ I). unfold obtained in *. by rewrite Ee.
Qed.

(** It goes to another state with nothing taken from a slot and nothing written. *)
Lemma egress_turns s x (d := with_egress (device s) x) :
  inv s → egress_ok (submitted s) (completion_tail (mapped s)) (stop_requested (mapped s)) x →
  (∀ j, released d j ↔ released (device s) j) → (∀ j, obtained d j → obtained (device s) j) →
  (∀ j, written d j ↔ written (device s) j) → inv (with_device s (mapped s) d).
Proof.
  intros I Hx Hr Ho Hw. pose proof I as [_ Hd]. apply specialized_egress_same; [done| |done].
  apply (specialized_egress_moves _ (completion_tail (mapped s))); [done|done|done|]. intros j Hj. by apply (d_obtained _ _ _ _ Hd), Ho.
Qed.

(** From the poll to a batch, or away. *)
Lemma egress_poll_inv s h lane m d :
  inv s → egress (device s) = we_poll h → egress_step depth cap lane (mapped s) (device s) = Some (m, d) → inv (with_device s m d).
Proof.
  intros I Ee. pose proof I as [Hh Hd]. destruct (h_tail Hh) as [_ Htail]. pose proof (SeqRing.depth_two depth Hdepth) as Hd2.
  pose proof (d_egress _ _ _ _ Hd) as Hok. rewrite Ee in Hok. destruct Hok as [H1 H2]. unfold egress_step. rewrite Ee, Htail.
  destruct (_ <? _)%nat eqn:E; bool_hyps.
  - intros [= <- <-]. pose proof (WarpOrder.batch_bound (length (submitted s) - h)).
    assert (0 < batch (length (submitted s) - h))%nat by (unfold batch, kWarpSpecializedMetaBatch; lia).
    apply egress_turns; [done| |intros j; unfold released, obtained, written; cbn [egress with_egress]; rewrite Ee..]; [|lia| |done].
    + cbn [egress_ok]. split_and!; [done|lia|lia|apply wave_whole; lia|]. intros j Hj []. unfold wave. apply elem_of_seq. lia.
    + rewrite wave_lanes by lia. lia.
  - destruct (stop_requested (mapped s)) eqn:Es; [|done]. intros [= <- <-].
    apply egress_turns; [done| |intros j; unfold released, obtained, written; cbn [egress with_egress]; by rewrite Ee..].
    rewrite Es. cbn. split_and!; [done|lia|done].
Qed.

(** From a wave to the next one, or to writing. *)
Lemma egress_next_inv s h c b f :
  inv s → egress (device s) = we_free h c b [] f →
  inv (with_device s (mapped s) (with_egress (device s)
         (next_wave depth b c (λ b, we_read h c b (wave depth b c) f) (we_write h c (seq 0 c) f)))).
Proof.
  intros I Ee. pose proof I as [_ Hd]. pose proof (SeqRing.depth_two depth Hdepth) as Hd2.
  pose proof (d_egress _ _ _ _ Hd) as Hok. rewrite Ee in Hok. destruct Hok as (H1 & H2 & H3 & Hv & H5).
  pose proof (wv_count _ _ _ Hv). unfold next_wave. destruct (_ && _) eqn:E.
  - bool_hyps. apply egress_turns; [done| |intros j; unfold released, obtained, written; cbn [egress with_egress]; rewrite Ee..].
    + cbn [egress_ok]. split_and!; [done|done|done|apply wave_whole; lia|]. intros j Hj Hn. apply H5.
      destruct (decide (j < b + depth)%nat); [unfold wave_end; lia|]. destruct Hn. unfold wave. apply elem_of_seq. lia.
    + rewrite lanes_none. unfold wave_end. lia.
    + rewrite wave_lanes by lia. unfold wave_end. lia.
    + done.
  - apply (next_wave_over b c) in E; [|done]. assert (wave_end depth b c = c) as Ew by (unfold wave_end; lia).
    apply egress_turns; [done| |intros j; unfold released, obtained, written; cbn [egress with_egress]; rewrite Ee, ?Ew..].
    + cbn. split_and!; [done|done|apply lanes_ok_seq..|]. intros j Hj. apply H5. lia.
    + by rewrite lanes_none.
    + done.
    + apply lanes_all.
Qed.

(** The tail is stored. *)
Lemma egress_tail_inv s h c f :
  inv s → egress (device s) = we_write h c [] f →
  inv (with_device s (with_completion_tail (mapped s) (h + c)) (with_egress (device s) (we_poll (h + c)))).
Proof.
  intros [Hh Hd] Ee. pose proof (d_egress _ _ _ _ Hd) as Hok. rewrite Ee in Hok. destruct Hok as (H1 & H2 & H3 & H4).
  split.
  - apply (host_weaken cap _ _ _ _ (written (device s))).
    + apply (host_tail cap _ (mapped s) _ _ _ Hh (h + c)). lia.
    + intros j. unfold written. cbn [device with_device egress with_egress]. by rewrite Ee, lanes_none.
  - apply (specialized_egress_moves _ (completion_tail (mapped s))); [done|done| |].
    + intros j. unfold released. cbn. by rewrite Ee.
    + intros j Hj. apply (d_obtained _ _ _ _ Hd). unfold obtained in *. by rewrite Ee.
Qed.

Lemma specialized_egress_step_inv s lane m d :
  inv s → egress_step depth cap lane (mapped s) (device s) = Some (m, d) → inv (with_device s m d).
Proof.
  intros I. pose proof I as [Hh Hd]. pose proof (SeqRing.depth_two depth Hdepth) as Hd2. pose proof (d_egress _ _ _ _ Hd) as Hok.
  destruct (egress (device s)) as [h|h c b todo f|h c b todo f|h c todo f|h] eqn:Ee; [by apply (egress_poll_inv s h lane)|..];
    unfold egress_step; rewrite Ee; cbn [egress_ok] in Hok; [| | |done].
  - destruct Hok as (H1 & H2 & H3 & Hv & H5). pose proof (wv_count _ _ _ Hv). destruct todo as [|y todo].
    + intros [= <- <-]. apply egress_turns; [done| |intros j; unfold released, obtained, written; cbn [egress with_egress]; rewrite Ee..].
      * cbn [egress_ok]. split_and!; [done|done|done|apply wave_whole; lia|]. intros j Hj. apply H5; [done|apply not_elem_of_nil].
      * by apply wave_lanes.
      * by rewrite lanes_none.
      * done.
    + case_decide as Hin; [|done]. destruct (_ =? _)%nat eqn:E; [|done]. bool_hyps. intros [= <- <-].
      apply specialized_egress_same; [done|by apply lane_reads|]. intros j. unfold written. cbn. by rewrite Ee.
  - destruct todo as [|y todo]; [intros [= <- <-]; by apply egress_next_inv|].
    case_decide as Hin; [|done]. intros [= <- <-].
    apply specialized_egress_same; [done|by apply lane_frees|]. intros j. unfold written. cbn. by rewrite Ee.
  - destruct todo as [|y todo]; [intros [= <- <-]; by apply (egress_tail_inv s h c f)|].
    case_decide as Hin; [|done]. intros [= <- <-]. by apply lane_writes.
Qed.

(** ** Every step *)

Lemma specialized_device_extend l l' ctail d : device_inv l ctail false d → device_inv (l ++ l') ctail false d.
Proof.
  intros I. pose proof I as [].
  assert (∀ h f j, got_ok l h f j → got_ok (l ++ l') h f j) as Hgot
    by (intros h f j (t & Ht & E); exists t; split; [by apply lookup_app_l_Some|done]).
  split; try done.
  - destruct (ingress d); cbn in *; rewrite length_app; destruct_and?; try done; split_and!; try done; try lia;
      intros j Hj Hn; apply lookup_app_l_Some; auto.
  - destruct (egress d); cbn in *; rewrite length_app; destruct_and?; try done; split_and!; try done; try lia; auto.
  - intros w Hw. specialize (d_warps0 w Hw). destruct (warps d w); cbn in *; try done; destruct_and?; split_and!; try done; by apply lookup_app_l_Some.
  - intros i t Hi Hp. apply d_task_slots0; [|done]. by rewrite lookup_app_l in Hi by by apply (placed_real _ _ _ _ I).
  - intros i t Hi Hp. apply d_completion_slots0; [|done]. by rewrite lookup_app_l in Hi by by apply (completed_real _ _ _ _ I).
  - intros i t Hi. by apply lookup_app_l_Some, d_copied0.
Qed.

Lemma specialized_device_stop l ctail stop d : device_inv l ctail stop d → device_inv l ctail true d.
Proof.
  intros []. split; try done.
  - destruct (ingress d); cbn in *; tauto.
  - destruct (egress d); cbn in *; tauto.
Qed.

(** The other warps leave the last one alone. *)
Lemma ingress_keeps_egress lane m d d' : ingress_step depth cap lane m d = Some d' → egress d' = egress d.
Proof. unfold ingress_step. destruct (ingress d) as [h|h c [|y todo] f|h c b [|y todo] f|h|h]; intros H; repeat case_match; simplify_eq/=; done. Qed.
Lemma copy_keeps_egress w d d' : copy_step depth w d = Some d' → egress d' = egress d.
Proof. unfold copy_step. intros H. repeat case_match; simplify_eq/=; done. Qed.

Lemma specialized_step_inv s e s' : inv s → step W depth cap s e = Some s' → inv s'.
Proof.
  intros I. pose proof I as [Hh Hd]. destruct e as [tasks| | |lane|w|lane]; cbn [step].
  - pose proof (host_ok_submit cap Hcap _ _ _ _ _ Hh tasks) as Hs.
    destruct (try_submit_batch _ _ tasks) as [[[q m] status] n]. intros [= <-]. destruct Hs as (Hs & Ec & Es & Hn).
    { intros i Hi. by apply (completed_real _ _ _ _ Hd), (d_obtained _ _ _ _ Hd), (written_obtained _ _ _ _ Hd). }
    split; [done|]. cbn [submitted mapped device]. rewrite Ec, Es. destruct Hn as [->|E]; [by rewrite take_0, app_nil_r|].
    rewrite E in *. by apply specialized_device_extend.
  - pose proof (host_poll cap _ _ _ _ _ Hh (specialized_done_written _ _ _ _ Hd)) as Hp.
    destruct (try_poll _ _) as [[q status] c]. intros [= <-]. by split.
  - pose proof (host_stop cap _ _ _ _ _ Hh) as Hp. destruct (request_stop _ _) as [[q m] status].
    destruct Hp as (Hp & Ec & Em). intros [= <-]. split; [done|]. cbn. rewrite Ec.
    destruct Em as [->| ->]; [done|by apply (specialized_device_stop _ _ _ _ Hd)].
  - intros (d & Hd' & ->)%fmap_Some_1. split.
    + apply (host_weaken cap _ _ _ _ _ Hh). intros j. unfold written. cbn [device]. by rewrite (ingress_keeps_egress _ _ _ _ Hd').
    + destruct Hh. apply (specialized_ingress_step_inv _ _ _ (mapped s) lane (device s)); try done; [tauto|].
      intros i t Hi Hc. cbn in Hc. apply h_tasks0; [done|lia].
  - destruct (w <? W)%nat eqn:E; [|done]. apply Nat.ltb_lt in E. intros (d & Hd' & ->)%fmap_Some_1. split.
    + apply (host_weaken cap _ _ _ _ _ Hh). intros j. unfold written. cbn [device]. by rewrite (copy_keeps_egress _ _ _ Hd').
    + by apply (specialized_copy_step_inv _ _ _ w (device s)).
  - intros ([m d] & Hd' & ->)%fmap_Some_1. by apply (specialized_egress_step_inv s lane m d).
Qed.

Lemma specialized_run_inv es : ∀ s s', inv s → run W depth cap s es = Some s' → inv s'.
Proof.
  induction es as [|e es IH]; intros s s' I; cbn [run]; [by intros [= <-]|].
  intros (s1 & H1 & H2)%bind_Some. apply (IH s1); [|done]. by apply (specialized_step_inv s e).
Qed.

(** What is completed was copied. *)
Lemma completed_copied l ctail stop d i : device_inv l ctail stop d → completed d i → ∃ t, (i, t) ∈ copied d.
Proof.
  intros I [Hi Hn]. assert (i ∈ (copied d).*1 ++ gather to_copy W (warps d)) as [Hc|Hc]%elem_of_app.
  { rewrite (d_copy _ _ _ _ I). apply elem_of_seq. lia. }
  - apply list_elem_of_fmap in Hc as ([j t] & -> & Hc). by exists t.
  - destruct Hn. apply elem_of_gather in Hc as (w & Hw & Hc). apply elem_of_gather. exists w. split; [done|].
    destruct (warps d w); cbn in *; try done; rewrite elem_of_seq in *; lia.
Qed.

End Invariant.

(** * From the allocation on *)

Lemma specialized_launch_inv cap W depth base s :
  launch cap W depth base = Some s → (∃ k, depth = (2 ^ S k)%nat) ∧ (∃ k, cap = (2 ^ k)%nat) ∧ inv W depth cap s.
Proof.
  unfold launch, allocate. destruct (_ || _) eqn:E0; [done|].
  destruct (CopySetup.warp_specialized_allocation_size _ _ _) as [sizes|] eqn:E; [|done].
  unfold CopySetup.warp_specialized_allocation_size in E. destruct (_ || _) eqn:E1 in E; [done|]. bool_hyps.
  match goal with H : is_supported_shared_queue_depth _ = true |- _ => apply supported_depth in H as [_ Hdepth] end.
  assert (∃ k, cap = (2 ^ k)%nat) as Hcap.
  { apply CopySetup.power_of_two_nat; [done|]. assert ((U64_MAX - 64) / (32 + 16) < 2 ^ 60) by reflexivity. lia. }
  cbn [negb Z.eqb]. unfold start_impl, start_pipeline. cbn [has_memory running empty_queue negb orb].
  destruct (negb _); [done|]. cbn [Z.eqb]. intros [= <-]. split_and!; [done|done|].
  assert (∀ A (f : CopyWarp → list A), f wc_claim = [] → gather f W (λ _, wc_claim) = []) as Hnil.
  { intros A f Hf. apply elem_of_nil_inv. intros a (w & _ & Ha)%elem_of_gather. rewrite Hf in Ha. by apply not_elem_of_nil in Ha. }
  assert (∀ f, f wc_claim = [] → split_claim W f 0 (λ _, wc_claim)) as Hsplit.
  { intros f Hf. split; rewrite Hnil by done; [constructor|]. intros i Hi. by apply not_elem_of_nil in Hi. }
  pose proof (ring_start depth Hdepth) as R. split; [split; try done; cbn; lia|].
  split; cbn; rewrite ?Hnil; try done; auto.
  - eapply seq_ring_ext; [exact R|unfold placed, freed, settled; cbn; lia..].
  - eapply seq_ring_ext; [exact R|unfold completed, released, settled; cbn; lia..].
  - intros i t Hi. by apply not_elem_of_nil in Hi.
  - unfold obtained. cbn. lia.
Qed.

(** (C16) Whatever the host submits and however its calls, the two outer warps and the copy warps
    interleave, the completions the host has polled are those of its first tasks, in the
    order of submission; each of these tasks was copied; and the kernel has copied nothing
    but submitted tasks, none of them twice. *)
Theorem specialized_fifo cap W depth base s0 es s :
  launch cap W depth base = Some s0 → run W depth cap s0 es = Some s →
  let n := completion_head (queue s) in
  polled s = completion_of <$> take n (submitted s) ∧
  (∀ i t, submitted s !! i = Some t → (i < n)%nat → (i, t) ∈ copied (device s)) ∧
  (∀ i t, (i, t) ∈ copied (device s) → submitted s !! i = Some t) ∧ NoDup (copied (device s)).*1.
Proof.
  intros (Hdepth & Hcap & I)%specialized_launch_inv Hrun. pose proof (specialized_run_inv W depth cap Hdepth Hcap _ _ _ I Hrun) as [Hh Hd]. cbv zeta.
  pose proof Hh as []. split_and!; [done| |by apply Hd|].
  - intros i t Hi Hlt. destruct (completed_copied W depth _ _ _ _ i Hd) as [u Hu].
    { apply (d_obtained _ _ _ _ _ _ Hd), (written_obtained W depth _ _ _ _ Hd), (specialized_done_written W depth _ _ _ _ Hd).
      destruct h_positions0. lia. }
    pose proof (d_copied _ _ _ _ _ _ Hd i u Hu) as Hu'. rewrite Hi in Hu'. by injection Hu' as <-.
  - pose proof (NoDup_seq 0 (task_claim (device s))) as Hs. rewrite <- (d_copy _ _ _ _ _ _ Hd) in Hs. by apply NoDup_app in Hs as [? _].
Qed.

Lemma specialized_fifo_witness :
  ∃ s0 s, launch 32 1 2 4096 = Some s0 ∧ run 1 2 32 s0 sample_run = Some s ∧
    polled s = (completion_of ∘ sample <$> [0; 1; 2]) ∧ (2%nat, sample 2) ∈ copied (device s).
Proof.
  assert (∃ s0, launch 32 1 2 4096 = Some s0 ∧
    (λ s, (polled s, submitted s, completion_head (queue s))) <$> run 1 2 32 s0 sample_run =
      Some (completion_of ∘ sample <$> [0; 1; 2], sample <$> [0; 1; 2], 3%nat)) as (s0 & E0 & E).
  { eexists. split; [reflexivity|]. vm_compute. reflexivity. }
  apply fmap_Some in E as (s & E1 & [= Hp Hs Hh]). exists s0, s. split_and!; [done|done|done|].
  apply (specialized_fifo 32 1 2 4096 s0 sample_run s E0 E1); [by rewrite <- Hs|rewrite <- Hh; lia].
Defined.

End SpecializedFifo.
