(* ===== verification/PayloadBuffer.v ===== *)
(** The buffers with which a copy is checked (src/gpu/persistent_copy.cu,
    [PersistentCopyPayloadBuffer]): a staging buffer and a target on the device, each with
    guard bytes on both sides, filled with a pattern and compared with it after the copy.

    Device memory is that of CopyCore.v.  Results of allocations and of CUDA calls are
    arguments; [Driver] states what the copies between host and device do. *)

From S2P Require Import Prelude CopyHost CudaApi CopyCore CopySetup.
Import Copy CudaApi CopyCore CopySetup.
#[local] Open Scope Z_scope.

Module PayloadBuffer.

(** [cuMemcpyHtoD] and [cuMemcpyDtoH], when they succeed. *)
Class Driver := {
  htod : Memory → Z → list Z → Memory;
  dtoh : Memory → Z → Z → list Z;
  htod_store : ∀ m a bytes x, htod m a bytes x = store m a bytes x;
  dtoh_load : ∀ m a n, dtoh m a n = load m a n;
}.

Definition kPayloadGuardByte : Z := 0xd3.
Definition kPayloadInitialTargetByte : Z := 0xa5.

Definition xorshift (value k : Z) : Z := Z.lxor value (Z.shiftr value k).
Definition persistent_copy_payload_byte (seed index : Z) : Z :=
  let value := Z.lxor seed (u64 (index + 0x9e3779b97f4a7c15)) in
  let value := u64 (xorshift value 30 * 0xbf58476d1ce4e5b9) in
  let value := u64 (xorshift value 27 * 0x94d049bb133111eb) in
  xorshift value 31 mod 256.

(** Null is 0. *)
Record Buffer := mkBuffer {
  stage_buffer_allocation : Z;
  target_allocation : Z;
  payload_capacity : Z;
  guard_bytes : Z;
}.
Definition new_buffer : Buffer := mkBuffer 0 0 0 0.
Definition buffer_empty (b : Buffer) : bool := (stage_buffer_allocation b =? 0) && (target_allocation b =? 0).

Definition checked_allocation_size (capacity guard : Z) : option Z :=
  if (capacity =? 0) || (guard =? 0) || ((U64_MAX - capacity) / 2 <? guard) then None
  else Some (u64 (capacity + u64 (guard * 2))).

(** The buffer, the status and what was freed; [stage] and [target] are what [cudaMalloc]
    answers and the address it gives. *)
Definition allocate (b : Buffer) (capacity guard : Z) (stage target : cudaError_t * Z) : Buffer * Z * list Z :=
  if negb (buffer_empty b) || (kPersistentCopyMaxStageBufferBytes <? capacity) then (b, EINVAL, [])
  else match checked_allocation_size capacity guard with
  | None => (b, EINVAL, [])
  | Some _ =>
      if negb (bool_decide (stage.1 = cudaSuccess)) then (b, cuda_status stage.1, [])
      else if negb (bool_decide (target.1 = cudaSuccess)) then (b, cuda_status target.1, [stage.2])
      else (mkBuffer stage.2 target.2 capacity guard, 0, [])
  end.

Definition stage_buffer_base (b : Buffer) : Z :=
  if stage_buffer_allocation b =? 0 then 0 else stage_buffer_allocation b + guard_bytes b.
Definition buffer_target_address (b : Buffer) : Z :=
  if target_allocation b =? 0 then 0 else target_allocation b + guard_bytes b.

(** How the vectors on the host are made. *)
Inductive Vectors := vectors_made | bad_alloc | other_exception.

(** The loop that sets the bytes between the guards. *)
Definition fill (guard capacity : nat) (byte : nat → Z) (bytes : list Z) : list Z :=
  foldl (λ bytes i, <[(guard + i)%nat := byte i]> bytes) bytes (seq 0 capacity).

Definition prepare `{Driver} (b : Buffer) (m : Memory) (seed : Z) (v : Vectors) (stage target : CUresult) : Memory * Z :=
  if buffer_empty b then (m, EINVAL)
  else match checked_allocation_size (payload_capacity b) (guard_bytes b) with
  | None => (m, EINVAL)
  | Some size =>
      match v with
      | bad_alloc => (m, ENOMEM)
      | other_exception => (m, EIO)
      | vectors_made =>
          let guards := replicate (Z.to_nat size) kPayloadGuardByte in
          let fill := fill (Z.to_nat (guard_bytes b)) (Z.to_nat (payload_capacity b)) in
          let stage_bytes := fill (λ i, persistent_copy_payload_byte seed (Z.of_nat i)) guards in
          let target_bytes := fill (λ _, kPayloadInitialTargetByte) guards in
          if negb (bool_decide (stage = CUDA_SUCCESS)) then (m, driver_status stage)
          else
            let m := htod m (stage_buffer_allocation b) stage_bytes in
            if negb (bool_decide (target = CUDA_SUCCESS)) then (m, driver_status target)
            else (htod m (target_allocation b) target_bytes, 0)
      end
  end.

Record PayloadCheck := mkCheck {
  payload_matches : bool; guards_intact : bool; mismatch_count : nat; first_mismatch : nat;
}.

(** What is expected between the guards. *)
Definition expected_byte (seed source_offset target_offset length : Z) (i : nat) : Z :=
  let i := Z.of_nat i in
  if (target_offset <=? i) && (i - target_offset <? length)
  then persistent_copy_payload_byte seed (source_offset + i - target_offset)
  else kPayloadInitialTargetByte.

Definition check_guards (observed : list Z) (guard capacity : nat) : bool :=
  foldl (λ intact i,
    if negb (observed !!! i =? kPayloadGuardByte) || negb (observed !!! (guard + capacity + i)%nat =? kPayloadGuardByte)
    then false else intact) true (seq 0 guard).
Definition check_payload (observed : list Z) (guard capacity : nat) (expected : nat → Z) : nat * nat :=
  foldl (λ '(count, first) i,
    if negb (observed !!! (guard + i)%nat =? expected i)
    then (S count, if (count =? 0)%nat then i else first) else (count, first)) (0%nat, capacity) (seq 0 capacity).

Definition verify_copy `{Driver} (b : Buffer) (m : Memory) (seed source_offset target_offset length : Z)
    (v : Vectors) (read : CUresult) : result PayloadCheck :=
  let capacity := payload_capacity b in
  if buffer_empty b || (capacity <? source_offset) || (capacity - source_offset <? length)
     || (capacity <? target_offset) || (capacity - target_offset <? length)
  then Err EINVAL
  else match checked_allocation_size capacity (guard_bytes b) with
  | None => Err EINVAL
  | Some size =>
      match v with
      | bad_alloc => Err ENOMEM
      | other_exception => Err EIO
      | vectors_made =>
          if negb (bool_decide (read = CUDA_SUCCESS)) then Err (driver_status read)
          else
            let observed := dtoh m (target_allocation b) size in
            let g := Z.to_nat (guard_bytes b) in
            let n := Z.to_nat capacity in
            let '(count, first) := check_payload observed g n (expected_byte seed source_offset target_offset length) in
            Ok (mkCheck (count =? 0)%nat (check_guards observed g n) count first)
      end
  end.
Definition verify `{Driver} (b : Buffer) (m : Memory) (seed : Z) (v : Vectors) (read : CUresult) : result PayloadCheck :=
  verify_copy b m seed 0 0 (payload_capacity b) v read.

Definition make_task (b : Buffer) (id target length offset : Z) : result CopyTask :=
  if buffer_empty b || (target =? 0) || (length =? 0) || (payload_capacity b <? offset)
     || (payload_capacity b - offset <? length) || (U32_MAX <? length)
  then Err EINVAL
  else Ok (mkTask id target length offset).

(** The buffer, the status and what was freed; [stage] and [target] are what [cudaFree] answers. *)
Definition reset (b : Buffer) (stage target : cudaError_t) : Buffer * Z * list Z :=
  let freed_stage := if stage_buffer_allocation b =? 0 then [] else [stage_buffer_allocation b] in
  let freed_target := if target_allocation b =? 0 then [] else [target_allocation b] in
  let status := if stage_buffer_allocation b =? 0 then 0 else cuda_status stage in
  let status := if target_allocation b =? 0 then status
                else if status =? 0 then cuda_status target else status in
  (new_buffer, status, freed_stage ++ freed_target).

(** The move assignment: what the two objects are after it, and what was freed. *)
Definition buffer_assign (self other : Buffer) (stage target : cudaError_t) : Buffer * Buffer * list Z :=
  let '(_, _, freed) := reset self stage target in (other, new_buffer, freed).

(** * Loops *)

Lemma length_fill g n f bytes : length (fill g n f bytes) = length bytes.
Proof.
  unfold fill. generalize (seq 0 n) as l. intros l. revert bytes. induction l as [|i l IH]; intros bytes; [done|].
  cbn. by rewrite IH, length_insert.
Qed.
Lemma fill_lookup g n f bytes k :
  (g + n <= length bytes)%nat → (k < length bytes)%nat →
  fill g n f bytes !!! k = if decide (g <= k < g + n)%nat then f (k - g)%nat else bytes !!! k.
Proof.
  unfold fill. induction n as [|n IH]; intros Hn Hk.
  { cbn. rewrite decide_False by lia. done. }
  rewrite seq_S, foldl_app. cbn [foldl Nat.add]. destruct (decide (k = g + n)%nat) as [->|Hne].
  - rewrite list_lookup_total_insert_eq; [rewrite decide_True by lia; f_equal; lia|]. fold (fill g n f bytes). rewrite length_fill. lia.
  - rewrite list_lookup_total_insert_ne by lia. rewrite IH by lia. by repeat case_decide; try lia.
Qed.

Lemma check_guards_true observed g n :
  check_guards observed g n = true ↔
  ∀ i, (i < g)%nat → observed !!! i = kPayloadGuardByte ∧ observed !!! (g + n + i)%nat = kPayloadGuardByte.
Proof.
  unfold check_guards. set (f := λ (intact : bool) (i : nat), _). assert (∀ k, foldl f true (seq 0 k) = true ↔
    ∀ i, (i < k)%nat → observed !!! i = kPayloadGuardByte ∧ observed !!! (g + n + i)%nat = kPayloadGuardByte) as H; [|apply H].
  induction k as [|k IH]; [split; [intros _; lia|done]|].
  rewrite seq_S, foldl_app. cbn [foldl Nat.add]. unfold f at 1. destruct (_ || _) eqn:E.
  - split; [done|]. intros H. destruct (H k ltac:(lia)) as [H1 H2]. rewrite H1, H2, Z.eqb_refl in E. done.
  - bool_hyps. rewrite IH. split; intros H' i Hi; [|apply H'; lia]. destruct (decide (i = k)) as [->|]; [done|apply H'; lia].
Qed.

(** The indices at which the payload is not as expected. *)
Definition mismatches (observed : list Z) (guard : nat) (expected : nat → Z) (indices : list nat) : list nat :=
  filter (λ i, observed !!! (guard + i)%nat ≠ expected i) indices.

Lemma check_payload_counts observed g n expected :
  check_payload observed g n expected =
  (length (mismatches observed g expected (seq 0 n)), default n (head (mismatches observed g expected (seq 0 n)))).
Proof.
  unfold check_payload. generalize (seq 0 n) as l. intros l. generalize n as first.
  assert (∀ l count first, foldl (λ '(count, first) i,
    if negb (observed !!! (g + i)%nat =? expected i) then (S count, if (count =? 0)%nat then i else first) else (count, first))
    (count, first) l = ((count + length (mismatches observed g expected l))%nat,
      if (count =? 0)%nat then default first (head (mismatches observed g expected l)) else first)) as H.
  2: { intros first. by rewrite H. }
  clear. induction l as [|i l IH]; intros count first; cbn [foldl].
  { cbn. rewrite Nat.add_0_r. by destruct (count =? 0)%nat. }
  unfold mismatches in *. rewrite filter_cons. destruct (_ =? _) eqn:E; bool_hyps; cbn [negb].
  - rewrite decide_False by tauto. apply IH.
  - rewrite decide_True by done. rewrite IH. cbn [length head default]. apply f_equal2; [lia|]. by destruct count.
Qed.

Lemma mismatches_none observed g expected n :
  (length (mismatches observed g expected (seq 0 n)) =? 0)%nat = true ↔
  ∀ i, (i < n)%nat → observed !!! (g + i)%nat = expected i.
Proof.
  rewrite Nat.eqb_eq, length_zero_iff_nil. unfold mismatches. split.
  - intros E i Hi. destruct (decide (observed !!! (g + i)%nat = expected i)) as [|Hne]; [done|].
    assert (i ∈ filter (λ i, observed !!! (g + i)%nat ≠ expected i) (seq 0 n)) as Hin
      by (apply list_elem_of_filter; split; [done|apply elem_of_seq; lia]).
    rewrite E in Hin. by apply not_elem_of_nil in Hin.
  - intros H. apply elem_of_nil_inv. intros i [Hne Hi%elem_of_seq]%list_elem_of_filter. apply Hne, H. lia.
Qed.

(** * What is checked *)

Lemma list_filter_on {A} (P Q : A → Prop) `{!∀ x, Decision (P x), !∀ x, Decision (Q x)} (l : list A) :
  (∀ x, x ∈ l → P x ↔ Q x) → filter P l = filter Q l.
Proof.
  induction l as [|x l IH]; intros HPQ; [done|]. rewrite !filter_cons.
  rewrite (IH ltac:(intros; apply HPQ; by right)). pose proof (HPQ x ltac:(by left)). by repeat case_decide; try tauto.
Qed.

Section Check.
Context `{Driver}.

(** The target as the driver reads it. *)
Lemma observed_byte m a n i : (Z.of_nat i < n) → dtoh m a n !!! i = m (a + Z.of_nat i).
Proof. intros Hi. rewrite dtoh_load, <- (load_lookup m a n (Z.of_nat i)) by lia. by rewrite Nat2Z.id. Qed.

(** A check that is made counts the bytes that are not as expected and finds the first of
    them, and tells whether the guards on both sides are as they were. *)
Lemma verify_exact b m seed so tgt len v read check :
  0 <= payload_capacity b → 0 <= guard_bytes b →
  verify_copy b m seed so tgt len v read = Ok check →
  let a := target_allocation b in
  let g := guard_bytes b in
  let n := Z.to_nat (payload_capacity b) in
  let wrong i := m (a + g + Z.of_nat i) ≠ expected_byte seed so tgt len i in
  mismatch_count check = length (filter wrong (seq 0 n)) ∧
  first_mismatch check = default n (head (filter wrong (seq 0 n))) ∧
  (payload_matches check = true ↔ ∀ i, (i < n)%nat → ¬ wrong i) ∧
  (guards_intact check = true ↔ ∀ i, 0 <= i < g →
     m (a + i) = kPayloadGuardByte ∧ m (a + g + payload_capacity b + i) = kPayloadGuardByte).
Proof.
  intros Hn0 Hg0. unfold verify_copy. destruct (_ || _) eqn:E0; [done|]. unfold checked_allocation_size.
  match goal with |- context [if ?c then None else _] => destruct c eqn:E1 end; [done|].
  destruct v; [|done..]. destruct (negb (bool_decide _)); [done|].
  rewrite check_payload_counts. intros [= <-]%Ok_inj. cbv zeta. cbn [mismatch_count first_mismatch payload_matches guards_intact].
  apply orb_false_iff in E1 as [E1 Hsum]. bool_hyps.
  set (g := guard_bytes b) in *. set (cap := payload_capacity b) in *. set (a := target_allocation b).
  assert (u64 (cap + u64 (g * 2)) = cap + g * 2) as ->.
  { assert (2 * g <= U64_MAX - cap) by (pose proof (Z.mul_div_le (U64_MAX - cap) 2); lia). 
    rewrite (u64_small (g * 2)) by ulia. apply u64_small. ulia. }
  set (n := Z.to_nat cap). set (obs := dtoh m a (cap + g * 2)).
  assert (mismatches obs (Z.to_nat g) (expected_byte seed so tgt len) (seq 0 n) =
    filter (λ i, m (a + g + Z.of_nat i) ≠ expected_byte seed so tgt len i) (seq 0 n)) as Em.
  { unfold mismatches. apply list_filter_on. intros i Hi%elem_of_seq. unfold obs. rewrite observed_byte by lia.
    by replace (a + Z.of_nat (Z.to_nat g + i)) with (a + g + Z.of_nat i) by lia. }
  split_and!; [by rewrite Em|by rewrite Em| |].
  - rewrite mismatches_none. split; intros Hi i Hlt.
    + intros Hw. apply Hw. rewrite <- (Hi i Hlt). unfold obs. rewrite observed_byte by lia. f_equal. lia.
    + destruct (decide (m (a + g + Z.of_nat i) = expected_byte seed so tgt len i)) as [<-|Hne]; [|by destruct (Hi i Hlt)].
      unfold obs. rewrite observed_byte by lia. f_equal. lia.
  - rewrite check_guards_true. split; intros Hi i Hlt.
    + destruct (Hi (Z.to_nat i) ltac:(lia)) as [G1 G2]. unfold obs in G1, G2. rewrite observed_byte in G1, G2 by lia.
      split; [rewrite <- G1|rewrite <- G2]; f_equal; lia.
    + destruct (Hi (Z.of_nat i) ltac:(lia)) as [G1 G2]. unfold obs. rewrite !observed_byte by lia.
      split; [rewrite <- G1|rewrite <- G2]; f_equal; lia.
Qed.

(** The two buffers after [prepare]. *)
Definition prepared (b : Buffer) (seed : Z) (m : Memory) : Prop :=
  let g := guard_bytes b in
  let n := payload_capacity b in
  (∀ i, 0 <= i < n → m (stage_buffer_allocation b + g + i) = persistent_copy_payload_byte seed i) ∧
  (∀ i, 0 <= i < n → m (target_allocation b + g + i) = kPayloadInitialTargetByte) ∧
  (∀ i, 0 <= i < g → m (target_allocation b + i) = kPayloadGuardByte ∧
                     m (target_allocation b + g + n + i) = kPayloadGuardByte).

(** The two allocations do not overlap. *)
Definition apart (b : Buffer) : Prop :=
  let size := payload_capacity b + guard_bytes b * 2 in
  stage_buffer_allocation b + size <= target_allocation b ∨ target_allocation b + size <= stage_buffer_allocation b.

Lemma store_at m a bytes i :
  0 <= i < Z.of_nat (length bytes) → store m a bytes (a + i) = bytes !!! Z.to_nat i.
Proof. intros Hi. unfold store. rewrite decide_True by lia. f_equal. lia. Qed.
Lemma store_off m a bytes x : (x < a ∨ a + Z.of_nat (length bytes) <= x) → store m a bytes x = m x.
Proof. intros Hx. unfold store. rewrite decide_False by lia. done. Qed.

Lemma prepare_prepared b m seed v stage target m' :
  0 <= payload_capacity b → 0 <= guard_bytes b → apart b →
  prepare b m seed v stage target = (m', 0) → prepared b seed m'.
Proof.
  intros Hn0 Hg0 Hap. unfold prepare. destruct (buffer_empty b); [done|]. unfold checked_allocation_size.
  match goal with |- context [if ?c then None else _] => destruct c eqn:E1 end; [done|].
  apply orb_false_iff in E1 as [E1 Hsum]. bool_hyps. unfold apart in Hap.
  destruct v; [|done..]. destruct (negb (bool_decide (stage = _))) eqn:Es; [bool_hyps; by destruct stage|].
  destruct (negb (bool_decide (target = _))) eqn:Et; [bool_hyps; by destruct target|]. intros [= <-].
  set (g := guard_bytes b) in *. set (n := payload_capacity b) in *.
  assert (u64 (n + u64 (g * 2)) = n + g * 2) as ->.
  { assert (2 * g <= U64_MAX - n) by (pose proof (Z.mul_div_le (U64_MAX - n) 2); lia).
    rewrite (u64_small (g * 2)) by ulia. apply u64_small. ulia. }
  set (guards := replicate _ _). assert (length guards = Z.to_nat (n + g * 2)) as Hlen by apply length_replicate.
  assert (∀ f a i, 0 <= i < n + g * 2 → store m a (fill (Z.to_nat g) (Z.to_nat n) f guards) (a + i) =
    if decide (g <= i < g + n) then f (Z.to_nat (i - g)) else kPayloadGuardByte) as Hfill.
  { intros f a i Hi. rewrite store_at by (rewrite length_fill, Hlen; lia). rewrite fill_lookup by lia.
    destruct (decide (g <= i < g + n)) as [Hd|Hd]; [rewrite decide_True by lia; f_equal; lia|]. rewrite decide_False by lia.
    apply list_lookup_total_correct, lookup_replicate_2. lia. }
  assert (∀ f f' a a' i, 0 <= i < n + g * 2 →
    htod (htod m a (fill (Z.to_nat g) (Z.to_nat n) f guards)) a' (fill (Z.to_nat g) (Z.to_nat n) f' guards) (a' + i) =
    if decide (g <= i < g + n) then f' (Z.to_nat (i - g)) else kPayloadGuardByte) as Htarget.
  { intros f f' a a' i Hi. rewrite htod_store. unfold store at 1. rewrite length_fill, Hlen, decide_True by lia.
    rewrite <- (Hfill f' a' i Hi). rewrite store_at by (rewrite length_fill, Hlen; lia). f_equal. lia. }
  split_and!; cbv zeta; fold n g.
  - intros i Hi. rewrite htod_store, store_off by (rewrite length_fill, Hlen; lia). rewrite htod_store.
    replace (stage_buffer_allocation b + g + i) with (stage_buffer_allocation b + (g + i)) by lia.
    rewrite Hfill by lia. rewrite decide_True by lia. f_equal. lia.
  - intros i Hi. replace (target_allocation b + g + i) with (target_allocation b + (g + i)) by lia.
    rewrite Htarget by lia. by rewrite decide_True by lia.
  - intros i Hi. replace (target_allocation b + g + n + i) with (target_allocation b + (g + n + i)) by lia.
    rewrite !Htarget by lia. by rewrite !decide_False by lia.
Qed.

(** After a copy from the staging buffer to the target, both prepared, the target is as
    expected. *)
Lemma copied_expected b seed m so tgt len (x : Memory) :
  prepared b seed m → 0 <= so → so + len <= payload_capacity b → 0 <= tgt → tgt + len <= payload_capacity b →
  0 <= guard_bytes b →
  (∀ y, x y = memcpy m (target_allocation b + guard_bytes b + tgt) (stage_buffer_allocation b + guard_bytes b + so) len y) →
  (∀ i, (i < Z.to_nat (payload_capacity b))%nat →
     x (target_allocation b + guard_bytes b + Z.of_nat i) = expected_byte seed so tgt len i) ∧
  (∀ i, 0 <= i < guard_bytes b → x (target_allocation b + i) = kPayloadGuardByte ∧
     x (target_allocation b + guard_bytes b + payload_capacity b + i) = kPayloadGuardByte).
Proof.
  intros (Hs & Ht & Hg) Hso Hsl Htg Htl Hg0 Hx. split.
  - intros i Hi. rewrite Hx. unfold memcpy, expected_byte. destruct (_ && _) eqn:E.
    + bool_hyps. rewrite decide_True by lia.
      replace (_ + _ + so + _) with (stage_buffer_allocation b + guard_bytes b + (so + Z.of_nat i - tgt)) by lia. apply Hs. lia.
    + rewrite decide_False; [apply Ht; lia|]. apply andb_false_iff in E as [E|E]; bool_hyps; lia.
  - intros i Hi. rewrite !Hx. unfold memcpy. rewrite !decide_False by lia. by apply Hg.
Qed.

Lemma verify_returns b m seed so tgt len size :
  buffer_empty b = false → so <= payload_capacity b → so + len <= payload_capacity b →
  tgt <= payload_capacity b → tgt + len <= payload_capacity b →
  checked_allocation_size (payload_capacity b) (guard_bytes b) = Some size →
  ∃ check, verify_copy b m seed so tgt len vectors_made CUDA_SUCCESS = Ok check.
Proof.
  intros Ee H1 H2 H3 H4 Es. unfold verify_copy. rewrite Ee, Es. destruct (_ || _) eqn:E.
  { repeat (apply orb_true_iff in E as [E|E]); [done|bool_hyps; lia..]. }
  cbn [negb bool_decide]. destruct (check_payload _ _ _ _) as [count first]. by eexists.
Qed.

(** (C22) The task for a piece of the prepared buffer, copied by a warp in any interleaving, passes
    the check of that piece: no byte of the target differs and the guards are intact.  The two
    allocations of the buffer are disjoint and not null, and the piece is no longer than the
    longest task. *)
Theorem copy_verified b m0 seed stage target m id so tgt len task k w :
  0 <= payload_capacity b → 0 <= guard_bytes b → apart b →
  stage_buffer_allocation b ≠ 0 → target_allocation b ≠ 0 →
  0 <= so → 0 <= tgt → 0 <= len <= kPersistentCopyMaxPayloadBytes → tgt + len <= payload_capacity b →
  prepare b m0 seed vectors_made stage target = (m, 0) →
  make_task b id (buffer_target_address b + tgt) len so = Ok task →
  nsteps warp_step k (m, warp (stage_buffer_base b + relative_offset task) (target_address task) (task_length task)) w →
  finished w.2 →
  verify_copy b w.1 seed so tgt len vectors_made CUDA_SUCCESS =
    Ok (mkCheck true true 0 (Z.to_nat (payload_capacity b))).
Proof.
  intros Hn0 Hg0 Hap Hs0 Ht0 Hso Htg Hlen Htl Hprep Htask Hsteps Hfin.
  pose proof (prepare_prepared _ _ _ _ _ _ _ Hn0 Hg0 Hap Hprep) as Hp.
  unfold make_task in Htask. destruct (_ || _) eqn:E in Htask; [done|]. apply Ok_inj in Htask as <-. bool_hyps.
  cbn [relative_offset target_address task_length] in Hsteps. unfold stage_buffer_base, buffer_target_address in Hsteps.
  rewrite (proj2 (Z.eqb_neq _ _) Hs0), (proj2 (Z.eqb_neq _ _) Ht0) in Hsteps.
  assert (∀ y, w.1 y = memcpy m (target_allocation b + guard_bytes b + tgt) (stage_buffer_allocation b + guard_bytes b + so) len y)
    as Hmem.
  { eapply warp_copies; [done| |done|done]. unfold apart in Hap. lia. }
  destruct (copied_expected b seed m so tgt len w.1 Hp Hso ltac:(lia) Htg Htl Hg0 Hmem) as [Hexp Hguard].
  assert (∃ size, checked_allocation_size (payload_capacity b) (guard_bytes b) = Some size) as [size Esize].
  { unfold prepare in Hprep. destruct (buffer_empty b); [done|].
    destruct (checked_allocation_size _ _) as [size|]; [by exists size|done]. }
  destruct (verify_returns b w.1 seed so tgt len size) as [check Ec]; [done|lia|lia|lia|lia|done|].
  pose proof (verify_exact b w.1 seed so tgt len _ _ check Hn0 Hg0 Ec) as (V1 & V2 & V3 & V4). rewrite Ec. f_equal.
  assert (filter (λ i, w.1 (target_allocation b + guard_bytes b + Z.of_nat i) ≠ expected_byte seed so tgt len i)
    (seq 0 (Z.to_nat (payload_capacity b))) = []) as Hnil.
  { apply elem_of_nil_inv. intros i [Hne Hi%elem_of_seq]%list_elem_of_filter. apply Hne, Hexp. lia. }
  rewrite Hnil in V1, V2. destruct check as [c1 c2 c3 c4]. cbn in *. subst c3 c4.
  assert (c1 = true) as ->; [|assert (c2 = true) as ->; [|done]].
  - apply V3. intros i Hi Hw. by apply Hw, Hexp.
  - by apply V4.
Qed.

End Check.

(** Device memory without the driver between. *)
#[local, refine] Instance direct_driver : Driver := { htod := store; dtoh := load }.
Proof. all: done. Defined.

(** 32 bytes between guards of 8. *)
Definition demo_buffer : Buffer := mkBuffer 4096 8192 32 8.

Lemma copy_verified_witness :
  ∃ k w, nsteps warp_step k ((prepare demo_buffer (λ _, 0) 7 vectors_made CUDA_SUCCESS CUDA_SUCCESS).1, warp 4109 8203 20) w ∧
    finished w.2 ∧
    verify_copy demo_buffer w.1 7 5 3 20 vectors_made CUDA_SUCCESS = Ok (mkCheck true true 0 32).
Proof.
  set (m := (prepare demo_buffer (λ _, 0) 7 vectors_made CUDA_SUCCESS CUDA_SUCCESS).1).
  destruct (warp_finishes m 4109 8203 20) as (k & w & Hk & Hf); [unfold kPersistentCopyMaxPayloadBytes; lia|lia|].
  exists k, w. split; [exact Hk|]. split; [exact Hf|].
  apply (copy_verified demo_buffer (λ _, 0) 7 CUDA_SUCCESS CUDA_SUCCESS m 1 5 3 20 (mkTask 1 8203 20 5) k w);
    unfold apart, kPersistentCopyMaxPayloadBytes; cbn [demo_buffer payload_capacity guard_bytes stage_buffer_allocation
      target_allocation]; try lia; done.
Defined.


End PayloadBuffer.
