(* ===== verification/Protocol.v ===== *)
(** Message framing of the local IPC (src/ipc/ipc.hpp, src/ipc/protocol.cpp): the
    wire header, [send_message] and [receive_message].

    The socket is a sequenced-packet socket.  What [sendmsg] returns is a parameter,
    a function of the packet handed to it; what [recvmsg] delivers is an argument.
    A [UniqueFd] is the descriptor it owns; the destructor's [close] is visible as
    the list of descriptors an operation closes. *)

From S2P Require Import Prelude Wire.
Import Wire.

Module Protocol.

Definition kProtocolMagic : Z := 0x49504331.
Definition kProtocolMajor : Z := 1.
Definition kProtocolMinor : Z := 0.
Definition kResponseFlag : Z := 1.
Definition kAllowedFlags : Z := kResponseFlag.
Definition kWireHeaderSize : nat := 36.
Definition kMaxPayloadSize : Z := 1024 * 1024.
Definition kMaxFileDescriptors : Z := 16.

Record Envelope := mkEnvelope {
  magic : Z; version_major : Z; version_minor : Z; method : Z; flags : Z;
  request_id : Z; status : Z; payload_length : Z; fd_count : Z;
}.
#[export] Instance Envelope_eq_dec : EqDecision Envelope.
Proof. solve_decision. Defined.

(** The default member initialisers. *)
Definition default_envelope : Envelope :=
  mkEnvelope kProtocolMagic kProtocolMajor kProtocolMinor 0 0 0 0 0 0.

Record IpcMessage := mkMessage {
  envelope : Envelope;
  payload : list byte;
  file_descriptors : list Z;
}.
Definition default_message : IpcMessage := mkMessage default_envelope [] [].

(** [ReceiveResult]: the state with the message or the error number. *)
Inductive ReceiveResult :=
| message (m : IpcMessage)
| eof
| error (error_number : Z).

Definition fd_valid (descriptor : Z) : bool := 0 <=? descriptor.

(** * Header codec *)

Definition encode_header (e : Envelope) : list byte :=
  append 4 (htonl (fd_count e)) $
  append 4 (htonl (payload_length e)) $
  append 4 (htonl (u32 (status e))) $
  append 8 (host_to_network64 (request_id e)) $
  append 4 (htonl (flags e)) $
  append 4 (htonl (method e)) $
  append 2 (htons (version_minor e)) $
  append 2 (htons (version_major e)) $
  append 4 (htonl (magic e)) [].

(** [read_scalar] copies bytes without a bounds check. *)
Definition read_scalar (buffer : list byte) (offset w : nat) : Z :=
  le_combine (take w (drop offset buffer)).

Definition decode_header (buffer : list byte) : Envelope :=
  mkEnvelope (ntohl (read_scalar buffer 0 4)) (ntohs (read_scalar buffer 4 2))
    (ntohs (read_scalar buffer 6 2)) (ntohl (read_scalar buffer 8 4))
    (ntohl (read_scalar buffer 12 4)) (network_to_host64 (read_scalar buffer 16 8))
    (to_i32 (ntohl (read_scalar buffer 24 4))) (ntohl (read_scalar buffer 28 4))
    (ntohl (read_scalar buffer 32 4)).

(** * Sending *)

(** What is handed to [sendmsg]: the gathered bytes and the descriptors of the
    single [SCM_RIGHTS] control message (absent when there are none). *)
Record Packet := mkPacket { packet_bytes : list byte; packet_fds : list Z }.

Definition set_lengths (m : IpcMessage) : Envelope :=
  let e := envelope m in
  mkEnvelope (magic e) (version_major e) (version_minor e) (method e) (flags e) (request_id e)
    (status e) (u32 (Z.of_nat (length (payload m)))) (u32 (Z.of_nat (length (file_descriptors m)))).

Definition send_packet (m : IpcMessage) : Packet :=
  mkPacket (encode_header (set_lengths m) ++ payload m) (file_descriptors m).

(** The status and, when [sendmsg] was called, the packet. *)
Definition send_message (sendmsg : Packet → result Z) (socket_fd : Z) (m : IpcMessage)
  : Z * option Packet :=
  let size := Z.of_nat (length (payload m)) in
  if (socket_fd <? 0) || (kMaxPayloadSize <? size)
     || (kMaxFileDescriptors <? Z.of_nat (length (file_descriptors m))) || (U32_MAX <? size)
  then (- EINVAL, None)
  else if negb (forallb fd_valid (file_descriptors m)) then (- EBADF, None)
  else
    let p := send_packet m in
    let expected_size := Z.of_nat kWireHeaderSize + size in
    match sendmsg p with
    | Err e => (- e, Some p)
    | Ok sent => (if sent =? expected_size then 0 else - EIO, Some p)
    end.

(** * Receiving *)

Definition SOL_SOCKET : Z := 1.
Definition SCM_RIGHTS : Z := 1.
(** [CMSG_LEN(0)] on 64-bit Linux. *)
Definition CMSG_LEN0 : Z := 16.

Record ControlMessage := mkControl {
  cmsg_level : Z; cmsg_type : Z; cmsg_len : Z; cmsg_fds : list Z;
}.

(** What [recvmsg] does: fails, or delivers bytes, [MSG_TRUNC | MSG_CTRUNC] and
    control messages. *)
Inductive Delivery :=
| recv_failed (errno : Z)
| delivered (bytes : list byte) (truncated : bool) (control : list ControlMessage).

(** One iteration of the loop over control messages, on the descriptors collected
    so far and [invalid_control]. *)
Definition collect_control (acc : list Z * bool) (h : ControlMessage) : list Z * bool :=
  let '(descriptors, invalid_control) := acc in
  if negb (cmsg_level h =? SOL_SOCKET) || negb (cmsg_type h =? SCM_RIGHTS)
     || (cmsg_len h <? CMSG_LEN0)
  then (descriptors, true)
  else
    let data_size := cmsg_len h - CMSG_LEN0 in
    let n := data_size / 4 in
    let invalid_control :=
      invalid_control || negb (data_size `mod` 4 =? 0)
      || (kMaxFileDescriptors <? Z.of_nat (length descriptors) + n) in
    (descriptors ++ take (Z.to_nat n) (cmsg_fds h), invalid_control).

(** The result and the descriptors that the destructors close. *)
Definition receive_message (socket_fd : Z) (d : Delivery) : ReceiveResult * list Z :=
  if socket_fd <? 0 then (error EBADF, [])
  else match d with
  | recv_failed errno => (error errno, [])
  | delivered bytes truncated control =>
      if decide (bytes = []) then (eof, [])
      else
        let '(descriptors, invalid_control) := foldl collect_control ([], truncated) control in
        let closed := filter (λ fd, fd_valid fd = true) descriptors in
        if invalid_control || (length bytes <? kWireHeaderSize)%nat then (error EMSGSIZE, closed)
        else
          let e := decode_header bytes in
          let payload_size := Z.of_nat (length bytes) - Z.of_nat kWireHeaderSize in
          if negb (magic e =? kProtocolMagic) || negb (version_major e =? kProtocolMajor)
             || (kProtocolMinor <? version_minor e)
          then (error EPROTONOSUPPORT, closed)
          else if negb (Z.land (flags e) (Z.lnot kAllowedFlags) =? 0)
                  || negb (payload_length e =? payload_size)
                  || negb (fd_count e =? Z.of_nat (length descriptors))
          then (error EPROTO, closed)
          else (message (mkMessage e (drop kWireHeaderSize bytes) descriptors), [])
  end.

(** * Lemmas *)

Record envelope_ok (e : Envelope) : Prop := {
  eo_magic : is_u32 (magic e);
  eo_major : is_u16 (version_major e);
  eo_minor : is_u16 (version_minor e);
  eo_method : is_u32 (method e);
  eo_flags : is_u32 (flags e);
  eo_request : is_u64 (request_id e);
  eo_status : - 2147483648 <= status e <= I32_MAX;
  eo_payload : is_u32 (payload_length e);
  eo_fds : is_u32 (fd_count e);
}.

Lemma length_encode_header e : length (encode_header e) = kWireHeaderSize.
Proof. unfold encode_header, append. rewrite !length_app, !length_le_split. done. Qed.

Lemma to_i32_u32 s : - 2147483648 <= s <= I32_MAX → to_i32 (u32 s) = s.
Proof.
  intros H. unfold to_i32. destruct (decide (0 <= s)).
  - rewrite u32_small by ulia. by rewrite decide_True by lia.
  - assert (u32 s = s + 4294967296) as -> by zmod. rewrite decide_False by ulia. lia.
Qed.

(** An unchecked read at a known cursor. *)
Lemma read_scalar_cursor buffer offset w x rest :
  cursor buffer offset (le_split w x ++ rest) → 0 <= x < 2 ^ (Z.of_nat w * 8) →
  read_scalar buffer offset w = x ∧ cursor buffer (offset + w) rest.
Proof.
  intros Hc Hx. split; [|eapply cursor_skip; [done|apply length_le_split]].
  destruct Hc as [_ Hd]. unfold read_scalar. rewrite Hd, take_app_eq by apply length_le_split.
  by rewrite le_combine_split, Z.mod_small.
Qed.

Ltac next_scalar H :=
  let E := fresh in
  apply read_scalar_cursor in H as [E H]; [cbn [Nat.add] in H; rewrite E; clear E|].

Lemma decode_encode_header e rest :
  envelope_ok e → decode_header (encode_header e ++ rest) = e.
Proof.
  intros [].
  match goal with |- decode_header ?x = _ => set (b := x) end. pose proof (cursor_start b) as Hc.
  unfold b at 2, encode_header, append in Hc. rewrite app_nil_l, <- !app_assoc in Hc.
  clearbody b. unfold decode_header.
  next_scalar Hc; [|exact (htonl_u32 _)]. 
  do 2 (next_scalar Hc; [|exact (htons_u16 _)]).
  do 2 (next_scalar Hc; [|exact (htonl_u32 _)]).
  next_scalar Hc; [|exact (host_to_network64_u64 _)].
  do 3 (next_scalar Hc; [|exact (htonl_u32 _)]).
  autorewrite with ugdr. rewrite !ntohl_htonl by (done || apply u32_range).
  rewrite to_i32_u32 by done. by destruct e.
Qed.

Lemma length_slice (buffer : list byte) offset w :
  (offset + w <= length buffer)%nat → length (take w (drop offset buffer)) = w.
Proof. intros. rewrite length_take, length_drop. lia. Qed.

(** Re-encoding a decoded scalar gives back its bytes. *)
Lemma slice_bswap (buffer : list byte) offset w :
  (offset + w <= length buffer)%nat →
  le_split w (bswap w (bswap w (read_scalar buffer offset w))) = take w (drop offset buffer).
Proof.
  intros H. rewrite !le_split_bswap, reverse_involutive. unfold read_scalar.
  apply split_le_combine', length_slice, H.
Qed.

Lemma slice_net64 (buffer : list byte) offset :
  (offset + 8 <= length buffer)%nat →
  le_split 8 (host_to_network64 (network_to_host64 (read_scalar buffer offset 8)))
  = take 8 (drop offset buffer).
Proof.
  intros H. unfold network_to_host64. rewrite !le_split_host_to_network64, reverse_involutive.
  unfold read_scalar. apply split_le_combine', length_slice, H.
Qed.

Lemma slice_glue (buffer : list byte) n w :
  take n buffer ++ take w (drop n buffer) = take (n + w) buffer.
Proof. apply take_take_drop. Qed.

Lemma u32_to_i32 x : is_u32 x → u32 (to_i32 x) = x.
Proof. intros H. unfold to_i32. case_decide; [by apply u32_small|zmod]. Qed.

Lemma encode_decode_header buffer :
  (kWireHeaderSize <= length buffer)%nat →
  encode_header (decode_header buffer) = take kWireHeaderSize buffer.
Proof.
  unfold kWireHeaderSize. intros H. unfold encode_header, decode_header, append.
  cbn [magic version_major version_minor method flags request_id status payload_length fd_count].
  rewrite u32_to_i32 by apply htonl_u32. unfold ntohl, ntohs, htonl, htons.
  rewrite !slice_bswap, slice_net64 by lia. rewrite app_nil_l, drop_0.
  do 8 (rewrite slice_glue; cbn [Nat.add]).
  done.
Qed.

Lemma read_scalar_bound buffer offset w :
  0 <= read_scalar buffer offset w.
Proof. apply le_combine_bound. Qed.

Lemma land_allowed f : Z.land f (Z.lnot kAllowedFlags) = 0 ↔ f = 0 ∨ f = 1.
Proof.
  unfold kAllowedFlags, kResponseFlag. split.
  - intros H. assert (f = Z.land f 1) as Hf.
    { rewrite <- (Z.lor_0_r (Z.land f 1)), <- H, <- Z.land_lor_distr_r. symmetry.
      apply Z.land_m1_r. }
    change 1 with (Z.ones 1) in Hf. rewrite (Z.land_ones f 1) in Hf by lia. pose proof (Z.mod_pos_bound f (2 ^ 1)). lia.
  - by intros [->| ->].
Qed.

(** The control message [sendmsg] builds for a packet, with the descriptor numbers
    [fds] that the receiving process gets. *)
Definition rights (fds : list Z) : list ControlMessage :=
  if decide (fds = []) then []
  else [mkControl SOL_SOCKET SCM_RIGHTS (CMSG_LEN0 + 4 * Z.of_nat (length fds)) fds].

Lemma collect_rights fds :
  Z.of_nat (length fds) <= kMaxFileDescriptors →
  foldl collect_control ([], false) (rights fds) = (fds, false).
Proof.
  intros Hl. unfold rights. case_decide as Hn; [by subst|]. simpl.
  rewrite (proj2 (Z.ltb_ge _ CMSG_LEN0)) by lia.
  replace (CMSG_LEN0 + 4 * Z.of_nat (length fds) - CMSG_LEN0)
    with (Z.of_nat (length fds) * 4) by lia.
  rewrite Z.div_mul, Z_mod_mult, (proj2 (Z.ltb_ge kMaxFileDescriptors _)) by lia.
  simpl. by rewrite Nat2Z.id, firstn_all.
Qed.

Lemma collect_false control l b l' :
  foldl collect_control (l, b) control = (l', false) →
  b = false ∧ (Z.of_nat (length l) <= kMaxFileDescriptors → Z.of_nat (length l') <= kMaxFileDescriptors).
Proof.
  revert l b. induction control as [|h control IH]; intros l b; simpl; [naive_solver|].
  destruct (_ || _) eqn:E.
  - intros [? _]%IH. done.
  - intros [Hb Hl]%IH. bool_hyps. split; [done|]. intros _. apply Hl.
    rewrite length_app, length_take.
    assert (0 <= (cmsg_len h - CMSG_LEN0) / 4) by (apply Z.div_pos; lia). lia.
Qed.

(** A message that may be sent: the sizes that [send_message] accepts, descriptors
    that are open, and an envelope of this protocol version. *)
Record sendable (m : IpcMessage) : Prop := {
  sb_payload : Z.of_nat (length (payload m)) <= kMaxPayloadSize;
  sb_fds : Z.of_nat (length (file_descriptors m)) <= kMaxFileDescriptors;
  sb_valid : Forall (λ fd, 0 <= fd) (file_descriptors m);
  sb_magic : magic (envelope m) = kProtocolMagic;
  sb_major : version_major (envelope m) = kProtocolMajor;
  sb_minor : version_minor (envelope m) = kProtocolMinor;
  sb_method : is_u32 (method (envelope m));
  sb_flags : flags (envelope m) = 0 ∨ flags (envelope m) = kResponseFlag;
  sb_request : is_u64 (request_id (envelope m));
  sb_status : - 2147483648 <= status (envelope m) <= I32_MAX;
}.

Lemma sendable_lengths m :
  sendable m → envelope_ok (set_lengths m) ∧
  payload_length (set_lengths m) = Z.of_nat (length (payload m)) ∧
  fd_count (set_lengths m) = Z.of_nat (length (file_descriptors m)).
Proof.
  intros []. unfold kMaxPayloadSize, kMaxFileDescriptors in *.
  assert (is_u32 (Z.of_nat (length (payload m)))) as Hp by ulia.
  assert (is_u32 (Z.of_nat (length (file_descriptors m)))) as Hf by ulia.
  unfold set_lengths. split; [|split; by apply u32_small].
  split; simpl; rewrite ?sb_magic0, ?sb_major0, ?sb_minor0; try done.
  - destruct sb_flags0 as [-> | ->]; done.
  - apply u32_range.
  - apply u32_range.
Qed.

(** Handing over a message the kernel takes whole. *)
Lemma send_whole sendmsg m socket_fd :
  sendable m → 0 <= socket_fd →
  sendmsg (send_packet m) = Ok (Z.of_nat (length (packet_bytes (send_packet m)))) →
  send_message sendmsg socket_fd m = (0, Some (send_packet m)).
Proof.
  intros [] Hs Hk.
  unfold send_message. rewrite Hk. unfold kMaxPayloadSize, U32_MAX in *.
  rewrite (proj2 (Z.ltb_ge socket_fd 0)), (proj2 (Z.ltb_ge (1024 * 1024) _)),
    (proj2 (Z.ltb_ge kMaxFileDescriptors _)), (proj2 (Z.ltb_ge 4294967295 _)) by lia.
  cbn [orb]. rewrite (proj2 (forallb_forall _ _)).
  2:{ intros fd Hin%list_elem_of_In. apply Z.leb_le. by eapply (proj1 (Forall_forall _ _)) in sb_valid0. }
  cbn [negb packet_bytes send_packet].
  rewrite length_app, length_encode_header, Nat2Z.inj_add, Z.eqb_refl. done.
Qed.

(** Receiving a packet that was sent whole. *)
Lemma receive_whole m fds peer_fd :
  sendable m → 0 <= peer_fd → length fds = length (file_descriptors m) →
  receive_message peer_fd (delivered (packet_bytes (send_packet m)) false (rights fds))
  = (message (mkMessage (set_lengths m) (payload m) fds), []).
Proof.
  intros Hm Hp Hfds. pose proof (sendable_lengths m Hm) as (He & Hpl & Hfc). destruct Hm.
  unfold receive_message. rewrite (proj2 (Z.ltb_ge peer_fd 0)) by done.
  rewrite decide_False.
  2:{ intros Hn%(f_equal length). unfold send_packet in Hn. cbn [packet_bytes] in Hn.
      rewrite length_app, length_encode_header in Hn. done. }
  rewrite collect_rights by lia. cbn [packet_bytes send_packet].
  rewrite decode_encode_header, length_app, length_encode_header by done.
  rewrite (proj2 (Nat.ltb_ge _ kWireHeaderSize)) by (unfold kWireHeaderSize; lia).
  rewrite Hpl, Hfc, drop_app_eq by apply length_encode_header.
  replace (Z.of_nat (kWireHeaderSize + length (payload m)) - Z.of_nat kWireHeaderSize)
    with (Z.of_nat (length (payload m))) by lia.
  rewrite <- Hfds, !Z.eqb_refl. unfold set_lengths at 1 2 3 4.
  cbn [magic version_major version_minor flags]. rewrite sb_magic0, sb_major0, sb_minor0.
  rewrite (proj2 (land_allowed _)) by done. done.
Qed.

(** * Passing descriptors

    What Linux does with the [SCM_RIGHTS] message of a packet (unix(7)): the files behind
    the sender's descriptors travel with the packet, and the receiving process gets one new
    descriptor for each of them.  [F] are the open files; a process has a table of them. *)

Class DescriptorAllocation (F : Type) := {
  new_descriptor : gmap Z F → Z;
  new_descriptor_free : ∀ t, 0 <= new_descriptor t ∧ t !! new_descriptor t = None;
}.

Section Passing.
Context {F : Type} `{DescriptorAllocation F}.
Implicit Types (t sender receiver : gmap Z F).

Fixpoint install (files : list F) t : list Z * gmap Z F :=
  match files with
  | [] => ([], t)
  | f :: files =>
      let n := new_descriptor t in
      let '(fds, t) := install files (<[n := f]> t) in
      (n :: fds, t)
  end.

(** A packet from a process with the table [sender] arrives, untruncated, at one with the
    table [receiver]; a descriptor that is not open cannot be sent. *)
Definition deliver sender receiver (p : Packet) : option (Delivery * gmap Z F) :=
  files ← mapM (λ fd, sender !! fd) (packet_fds p);
  let '(fds, t) := install files receiver in
  Some (delivered (packet_bytes p) false (rights fds), t).

Definition open_in t (fds : list Z) : Prop := Forall (λ fd, is_Some (t !! fd)) fds.
(** The descriptors [got] of one process name, one by one, the files that [sent] names in
    another. *)
Definition same_files t (sent : list Z) t' (got : list Z) : Prop :=
  Forall2 (λ a b, is_Some (t !! a) ∧ t' !! b = t !! a) sent got.

Lemma install_spec files t :
  let '(fds, t') := install files t in
  t ⊆ t' ∧ NoDup fds ∧ Forall (λ fd, 0 <= fd ∧ t !! fd = None) fds ∧
  Forall2 (λ f fd, t' !! fd = Some f) files fds.
Proof.
  revert t. induction files as [|f files IH]; intros t; cbn [install].
  { split_and!; [done|constructor..]. }
  destruct (new_descriptor_free t) as [Hn Hf]. specialize (IH (<[new_descriptor t := f]> t)).
  destruct (install files _) as [fds t']. destruct IH as (Hsub & Hnd & Hfree & Hfiles).
  pose proof (insert_subseteq t (new_descriptor t) f Hf) as Hsub0.
  assert (new_descriptor t ∉ fds) as Hnot.
  { intros Hin%(proj1 (Forall_forall _ _) Hfree). destruct Hin as [_ Hin]. by rewrite lookup_insert_eq in Hin. }
  split_and!; [by etrans|by constructor| |].
  - constructor; [done|]. eapply Forall_impl; [exact Hfree|]. intros fd [? Hfd]. split; [done|].
    by eapply lookup_weaken_None.
  - constructor; [|done]. eapply lookup_weaken; [|exact Hsub]. apply lookup_insert_eq.
Qed.

Lemma deliver_open sender receiver p :
  open_in sender (packet_fds p) →
  ∃ fds t, deliver sender receiver p = Some (delivered (packet_bytes p) false (rights fds), t) ∧
    same_files sender (packet_fds p) t fds ∧ receiver ⊆ t ∧ NoDup fds ∧
    Forall (λ fd, 0 <= fd ∧ receiver !! fd = None) fds.
Proof.
  intros Ho. unfold deliver. destruct (mapM_is_Some_2 (λ fd, sender !! fd) _ Ho) as [files E].
  rewrite E. cbn [mbind option_bind]. apply mapM_Some in E.
  pose proof (install_spec files receiver) as Hi. destruct (install files receiver) as [fds t].
  destruct Hi as (Hsub & Hnd & Hfree & Hfiles). exists fds, t. split; [done|]. split; [|done].
  clear Hnd Hfree Ho. unfold same_files. revert fds Hfiles.
  induction E as [|x f l k Hx E IH]; intros fds Hfiles; inversion Hfiles; subst; constructor; [|by apply IH].
  by rewrite Hx.
Qed.

(** A message sent whole through a socket, with the descriptors the receiver gets. *)
Lemma send_deliver_receive m sender receiver peer_fd :
  sendable m → 0 <= peer_fd → open_in sender (file_descriptors m) →
  ∃ d receiver' fds, deliver sender receiver (send_packet m) = Some (d, receiver') ∧
    receive_message peer_fd d = (message (mkMessage (set_lengths m) (payload m) fds), []) ∧
    same_files sender (file_descriptors m) receiver' fds ∧ receiver ⊆ receiver' ∧ NoDup fds ∧
    Forall (λ fd, 0 <= fd ∧ receiver !! fd = None) fds.
Proof.
  intros Hm Hp Ho. destruct (deliver_open sender receiver (send_packet m) Ho) as (fds & t & Hd & Hsame & Hrest).
  eexists _, t, fds. split; [exact Hd|]. split; [|done].
  apply receive_whole; [done|done|]. symmetry. by eapply Forall2_length.
Qed.

(** * Properties *)

(** (C40) A message that is sent is received: [send_message] hands [sendmsg] one packet and
    reports success when the kernel takes all of it; the peer's [receive_message] of what
    the kernel delivers yields a message of the same method, flags, request id and status,
    with the lengths of its payload and of its descriptors filled in, the same payload, and
    one new descriptor for each one passed, in the same order and naming the same open file
    in the receiving process, whose other descriptors stay as they were. *)
Theorem send_receive_roundtrip sendmsg m sender receiver socket_fd peer_fd :
  sendable m → 0 <= socket_fd → 0 <= peer_fd → open_in sender (file_descriptors m) →
  sendmsg (send_packet m) = Ok (Z.of_nat (length (packet_bytes (send_packet m)))) →
  ∃ p d receiver' m',
    send_message sendmsg socket_fd m = (0, Some p) ∧ deliver sender receiver p = Some (d, receiver') ∧
    receive_message peer_fd d = (message m', []) ∧
    method (envelope m') = method (envelope m) ∧ flags (envelope m') = flags (envelope m) ∧
    request_id (envelope m') = request_id (envelope m) ∧ status (envelope m') = status (envelope m) ∧
    payload_length (envelope m') = Z.of_nat (length (payload m)) ∧
    fd_count (envelope m') = Z.of_nat (length (file_descriptors m)) ∧
    payload m' = payload m ∧
    same_files sender (file_descriptors m) receiver' (file_descriptors m') ∧
    NoDup (file_descriptors m') ∧ Forall (λ fd, receiver !! fd = None) (file_descriptors m') ∧
    receiver ⊆ receiver'.
Proof.
  intros Hm Hs Hp Ho Hk.
  destruct (send_deliver_receive m sender receiver peer_fd Hm Hp Ho)
    as (d & receiver' & fds & Hd & Hr & Hsame & Hsub & Hnd & Hfree).
  pose proof (sendable_lengths m Hm) as (_ & Hpl & Hfc).
  exists (send_packet m), d, receiver', (mkMessage (set_lengths m) (payload m) fds).
  split; [by apply send_whole|]. do 2 (split; [done|]). cbn [envelope payload file_descriptors].
  do 4 (split; [done|]). do 5 (split; [done|]). split; [|done].
  eapply Forall_impl; [exact Hfree|]. by intros fd [_ ?].
Qed.

End Passing.

(** Whatever the peer sends, [receive_message] yields a message only for bytes
    that are exactly its header followed by its payload, of this protocol version,
    with known flags and at most 16 descriptors; otherwise every descriptor that
    arrived is closed, so none leaks. *)
Lemma receive_sound socket_fd bytes truncated control outcome closed :
  receive_message socket_fd (delivered bytes truncated control) = (outcome, closed) →
  match outcome with
  | message m =>
      bytes = encode_header (envelope m) ++ payload m ∧
      magic (envelope m) = kProtocolMagic ∧ version_major (envelope m) = kProtocolMajor ∧
      version_minor (envelope m) = kProtocolMinor ∧
      (flags (envelope m) = 0 ∨ flags (envelope m) = kResponseFlag) ∧
      Z.of_nat (length (file_descriptors m)) <= kMaxFileDescriptors ∧
      payload_length (envelope m) = Z.of_nat (length (payload m)) ∧
      fd_count (envelope m) = Z.of_nat (length (file_descriptors m)) ∧
      file_descriptors m = (foldl collect_control ([], truncated) control).1 ∧
      truncated = false ∧ closed = []
  | eof => bytes = [] ∧ closed = []
  | error e => 0 <= socket_fd →
      closed = filter (λ fd, fd_valid fd = true) (foldl collect_control ([], truncated) control).1 ∧
      (e = EMSGSIZE ∨ e = EPROTONOSUPPORT ∨ e = EPROTO)
  end.
Proof.
  unfold receive_message. destruct (socket_fd <? 0) eqn:Hs; bool_hyps.
  { intros [= <- <-]. lia. }
  case_decide as Hn; [by intros [= <- <-]|].
  destruct (foldl _ _ _) as [descriptors invalid] eqn:Hfold. cbn [fst].
  destruct (invalid || _) eqn:Hi; [intros [= <- <-]; split; auto|].
  destruct (negb (magic _ =? _) || _ || _) eqn:Hv; [intros [= <- <-]; split; auto|].
  destruct (negb (Z.land _ _ =? _) || _ || _) eqn:Hf; [intros [= <- <-]; split; auto|].
  intros [= <- <-]. cbn [envelope payload file_descriptors]. bool_hyps. subst invalid.
  apply collect_false in Hfold as [-> Hl].
  rewrite encode_decode_header, take_drop, length_drop by done. split; [done|].
  assert (0 <= version_minor (decode_header bytes)) by apply htons_u16.
  unfold kProtocolMinor, kMaxFileDescriptors in *. simpl in Hl.
  do 2 (split; [done|]). split; [lia|]. split; [by apply land_allowed|]. split; [lia|].
  split; [lia|]. done.
Qed.

(** A control message as Linux makes it: the descriptors of [SCM_RIGHTS], all of them open,
    fill it; any other carries none. *)
Definition kernel_control (h : ControlMessage) : Prop :=
  if (cmsg_level h =? SOL_SOCKET) && (cmsg_type h =? SCM_RIGHTS)
  then cmsg_len h = CMSG_LEN0 + 4 * Z.of_nat (length (cmsg_fds h)) ∧ Forall (λ fd, 0 <= fd) (cmsg_fds h)
  else cmsg_fds h = [].

(** The descriptors that arrived in the process with a packet. *)
Definition arrived (control : list ControlMessage) : list Z := control ≫= cmsg_fds.

Lemma collect_arrived control : ∀ l b,
  Forall kernel_control control → (foldl collect_control (l, b) control).1 = l ++ arrived control.
Proof.
  induction control as [|h control IH]; intros l b Hk; [cbn; by rewrite app_nil_r|].
  apply Forall_cons in Hk as [Hh Hk]. unfold arrived. rewrite bind_cons. cbn [foldl].
  unfold collect_control at 2. unfold kernel_control in Hh.
  destruct (cmsg_level h =? SOL_SOCKET), (cmsg_type h =? SCM_RIGHTS); cbn [andb negb orb] in *;
    try by rewrite IH, Hh.
  destruct Hh as [Hl _]. rewrite (proj2 (Z.ltb_ge _ CMSG_LEN0)), IH by (done || lia).
  replace (cmsg_len h - CMSG_LEN0) with (Z.of_nat (length (cmsg_fds h)) * 4) by lia.
  by rewrite Z.div_mul, Nat2Z.id, firstn_all, <- app_assoc by lia.
Qed.

Lemma arrived_valid control :
  Forall kernel_control control → filter (λ fd, fd_valid fd = true) (arrived control) = arrived control.
Proof.
  intros Hk. assert (Forall (λ fd, 0 <= fd) (arrived control)) as Ha.
  { unfold arrived. induction Hk as [|h control Hh _ IH]; [constructor|].
    rewrite bind_cons. apply Forall_app. split; [|done]. unfold kernel_control in Hh.
    destruct (_ && _); [apply Hh|rewrite Hh; constructor]. }
  induction Ha as [|fd l Hfd _ IH]; [done|]. rewrite filter_cons_True, IH; [done|]. by apply Z.leb_le.
Qed.

(** (C36) Whatever a peer sends, no descriptor that arrives with a packet that has bytes is
    lost: [receive_message] yields a message only for bytes that are exactly a header of this
    protocol version, with known flags, and the payload it announces, and then the message
    has all the descriptors that arrived, as many as announced; otherwise it is an error and
    every one of them is closed.  A packet without bytes counts as the end of the connection,
    and what arrives with it is neither handed on nor closed. *)
Theorem received_descriptors_owned socket_fd bytes truncated control outcome closed :
  0 <= socket_fd → Forall kernel_control control →
  receive_message socket_fd (delivered bytes truncated control) = (outcome, closed) →
  match outcome with
  | message m =>
      bytes = encode_header (envelope m) ++ payload m ∧
      magic (envelope m) = kProtocolMagic ∧ version_major (envelope m) = kProtocolMajor ∧
      version_minor (envelope m) = kProtocolMinor ∧
      (flags (envelope m) = 0 ∨ flags (envelope m) = kResponseFlag) ∧
      payload_length (envelope m) = Z.of_nat (length (payload m)) ∧
      fd_count (envelope m) = Z.of_nat (length (file_descriptors m)) ∧
      Z.of_nat (length (file_descriptors m)) <= kMaxFileDescriptors ∧ truncated = false ∧
      file_descriptors m = arrived control ∧ closed = []
  | eof => bytes = [] ∧ closed = []
  | error e => bytes ≠ [] ∧ closed = arrived control ∧ (e = EMSGSIZE ∨ e = EPROTONOSUPPORT ∨ e = EPROTO)
  end.
Proof.
  intros Hs Hk E. pose proof (receive_sound socket_fd bytes truncated control outcome closed E) as Hr.
  rewrite collect_arrived in Hr by done. destruct outcome as [m| |e]; [tauto|done|].
  destruct (Hr Hs) as [-> He]. rewrite app_nil_l, arrived_valid by done. split; [|done]. intros ->.
  unfold receive_message in E. by rewrite (proj2 (Z.ltb_ge socket_fd 0)) in E.
Qed.

Definition demo_message : IpcMessage :=
  mkMessage (mkEnvelope kProtocolMagic 1 0 7 0 42 (-1) 0 0) [Byte.x41; Byte.x42] [9].

(** Descriptors numbered past all that are in use. *)
Definition past_all {F} (t : gmap Z F) : Z := map_fold (λ k _ n, Z.max n (k + 1)) 0 t.

Lemma past_all_free {F} (t : gmap Z F) : 0 <= past_all t ∧ t !! past_all t = None.
Proof.
  assert (0 <= past_all t ∧ ∀ k, is_Some (t !! k) → k < past_all t) as [H0 Hk].
  { unfold past_all. apply (map_fold_weak_ind (λ n t, 0 <= n ∧ ∀ k, is_Some (t !! k) → k < n)).
    - split; [done|]. intros k [x Hx]. by rewrite lookup_empty in Hx.
    - intros i x m r Hi [IH0 IH]. split; [lia|]. intros k Hx. destruct (decide (k = i)) as [->|Hne]; [lia|].
      rewrite lookup_insert_ne in Hx by done. apply IH in Hx. lia. }
  split; [done|]. apply eq_None_not_Some. intros H. apply Hk in H. lia.
Qed.

#[local] Instance past_all_allocation F : DescriptorAllocation F :=
  {| new_descriptor := past_all; new_descriptor_free := past_all_free |}.

Lemma send_receive_roundtrip_witness :
  ∃ receiver' m',
    deliver {[ 3 := 100; 9 := 101 ]} {[ 4 := 100; 6 := 102 ]} (send_packet demo_message)
    = Some (delivered (packet_bytes (send_packet demo_message)) false (rights [7]), receiver') ∧
    receive_message 4 (delivered (packet_bytes (send_packet demo_message)) false (rights [7])) = (message m', []) ∧
    receiver' !! 7 = Some 101 ∧ payload m' = [Byte.x41; Byte.x42] ∧
    same_files {[ 3 := 100; 9 := 101 ]} [9] receiver' (file_descriptors m').
Proof.
  destruct (send_receive_roundtrip (F := Z) (λ p, Ok (Z.of_nat (length (packet_bytes p)))) demo_message
    {[ 3 := 100; 9 := 101 ]} {[ 4 := 100; 6 := 102 ]} 3 4)
    as (p & d & receiver' & m' & Hs & Hd & Hr & _ & _ & _ & _ & _ & _ & Hpl & Hsame & _).
  - split; first [by vm_compute|by left|by repeat constructor].
  - lia.
  - lia.
  - repeat constructor. by exists 101.
  - done.
  - assert (p = send_packet demo_message) as -> by (vm_compute in Hs; injection Hs as <-; reflexivity).
    assert ((fst <$> deliver {[ 3 := 100; 9 := 101 ]} {[ 4 := 100; 6 := 102 ]} (send_packet demo_message)) =
      Some (delivered (packet_bytes (send_packet demo_message)) false (rights [7]))) as E by (vm_compute; reflexivity).
    rewrite Hd in E. injection E as ->. exists receiver', m'. do 2 (split; [done|]).
    split; [|done]. vm_compute in Hd. injection Hd as <-. by vm_compute.
Defined.

(** The message of the round trip above, received as the kernel delivers it; and a packet too
    short for a header, with two descriptors. *)
Lemma received_descriptors_owned_witness :
  (∃ m, receive_message 4 (delivered (packet_bytes (send_packet demo_message)) false (rights [7])) = (message m, []) ∧
     file_descriptors m = [7]) ∧
  receive_message 4 (delivered [Byte.x41] false (rights [11; 12])) = (error EMSGSIZE, [11; 12]).
Proof.
  assert (∀ fds, Forall (λ fd, 0 <= fd) fds → fds ≠ [] → Forall kernel_control (rights fds)) as Hk.
  { intros fds Hf Hn. unfold rights. rewrite decide_False by done. apply Forall_singleton. by split. }
  split.
  - destruct (receive_message 4 (delivered (packet_bytes (send_packet demo_message)) false (rights [7]))) as [o c] eqn:E.
    pose proof (received_descriptors_owned 4 _ false (rights [7]) o c ltac:(lia) (Hk [7] ltac:(by repeat constructor) ltac:(done)) E) as H.
    vm_compute in E. injection E as <- <-. eexists. split; [reflexivity|]. apply H.
  - destruct (receive_message 4 (delivered [Byte.x41] false (rights [11; 12]))) as [o c] eqn:E.
    pose proof (received_descriptors_owned 4 _ false (rights [11; 12]) o c ltac:(lia)
      (Hk [11; 12] ltac:(by repeat constructor) ltac:(done)) E) as H.
    vm_compute in E. injection E as <- <-. destruct H as (_ & H & _). f_equal; exact H.
Defined.

(** A peer can so leave descriptors behind: an empty packet with two of them. *)
Example empty_packet_keeps_descriptors :
  receive_message 4 (delivered [] false (rights [11; 12])) = (eof, []) ∧ arrived (rights [11; 12]) = [11; 12].
Proof. by vm_compute. Qed.

End Protocol.
