(* ===== verification/Adapter.v ===== *)
(** The control-plane codec (src/control/ipc_adapter.hpp, ipc_adapter.cpp): typed
    control requests and responses inside IPC messages.

    [UniqueFd] vectors are passed by value: on an error the descriptors of the
    argument are closed, on success they are owned by the result. *)

From S2P Require Import Prelude Wire Protocol.
Import Wire Protocol.

Module Adapter.

Definition kControlPayloadVersion : Z := 1.
Definition kRequestFixedSize : nat := 32.
Definition kResponseFixedSize : nat := 20.

Record UgdrControlRequest := mkRequest {
  rq_method : Z; rq_object_identity : Z; rq_length : Z; rq_access : Z;
  rq_opaque : list byte; rq_fd_indices : list Z;
}.
Record UgdrControlResponse := mkResponse {
  rs_method : Z; rs_status : Z; rs_object_identity : Z;
  rs_opaque : list byte; rs_fd_indices : list Z;
}.

Definition size {A} (l : list A) : Z := Z.of_nat (length l).

Definition valid_indices (indices : list Z) (descriptor_count : Z) : bool :=
  forallb (λ index, index <? descriptor_count) indices.

(** 0, or the negated error. *)
Definition validate_lengths (opaque_size index_count fixed_size : Z) : Z :=
  if (U32_MAX <? opaque_size) || (U32_MAX <? index_count)
     || ((kMaxPayloadSize - fixed_size) / 4 <? index_count)
  then - EMSGSIZE
  else if kMaxPayloadSize - fixed_size - index_count * 4 <? opaque_size then - EMSGSIZE
  else 0.

Definition append_indices (bytes : list byte) (indices : list Z) : list byte :=
  foldl (λ bytes index, append 4 (htonl index) bytes) bytes indices.

Fixpoint read_indices (bytes : list byte) (offset : nat) (count : nat) : option (list Z * nat) :=
  match count with
  | O => Some ([], offset)
  | S count =>
      '(wire_value, offset) ← read bytes offset 4;
      '(indices, offset) ← read_indices bytes offset count;
      Some (ntohl wire_value :: indices, offset)
  end.

(** * Requests *)

Definition request_payload (r : UgdrControlRequest) : list byte :=
  let p := append 2 (htons kControlPayloadVersion) [] in
  let p := append 2 0 p in
  let p := append 8 (host_to_network64 (rq_object_identity r)) p in
  let p := append 8 (host_to_network64 (rq_length r)) p in
  let p := append 4 (htonl (rq_access r)) p in
  let p := append 4 (htonl (u32 (size (rq_opaque r)))) p in
  let p := append 4 (htonl (u32 (size (rq_fd_indices r)))) p in
  append_indices (p ++ rq_opaque r) (rq_fd_indices r).

Definition encode_request (r : UgdrControlRequest) (fds : list Z) : result IpcMessage :=
  if (rq_method r =? 0) || (kMaxFileDescriptors <? size fds)
     || negb (valid_indices (rq_fd_indices r) (size fds))
  then Err (- EINVAL)
  else
    let length_status :=
      validate_lengths (size (rq_opaque r)) (size (rq_fd_indices r)) (Z.of_nat kRequestFixedSize) in
    if negb (length_status =? 0) then Err length_status
    else
      let p := request_payload r in
      Ok (mkMessage (mkEnvelope kProtocolMagic kProtocolMajor kProtocolMinor (rq_method r) 0 0 0
                       (u32 (size p)) (u32 (size fds))) p fds).

Definition decode_request (m : IpcMessage) : result (UgdrControlRequest * list Z) :=
  let e := envelope m in
  let p := payload m in
  if (method e =? 0) || negb (Z.land (flags e) kResponseFlag =? 0) then Err (- EINVAL)
  else if (kMaxFileDescriptors <? size (file_descriptors m))
          || negb (fd_count e =? size (file_descriptors m))
          || negb (payload_length e =? size p) || (length p <? kRequestFixedSize)%nat
  then Err (- EPROTO)
  else
    match '(version, offset) ← read p 0 2; '(reserved, offset) ← read p offset 2;
          '(oid, offset) ← read p offset 8; '(len, offset) ← read p offset 8;
          '(access, offset) ← read p offset 4; '(opaque_size, offset) ← read p offset 4;
          '(index_count, offset) ← read p offset 4;
          Some (version, reserved, oid, len, access, opaque_size, index_count, offset) with
    | None => Err (- EPROTO)
    | Some (version, reserved, oid, len, access, opaque_size, index_count, offset) =>
        if negb (ntohs version =? kControlPayloadVersion) || negb (reserved =? 0)
        then Err (- EPROTONOSUPPORT)
        else
          let opaque_size := ntohl opaque_size in
          let index_count := ntohl index_count in
          let left := size p - Z.of_nat offset in
          if (left <? opaque_size) || negb (left - opaque_size =? index_count * 4)
          then Err (- EPROTO)
          else
            let opaque := take (Z.to_nat opaque_size) (drop offset p) in
            match read_indices p (offset + Z.to_nat opaque_size) (Z.to_nat index_count) with
            | None => Err (- EPROTO)
            | Some (indices, _) =>
                if negb (valid_indices indices (size (file_descriptors m))) then Err (- EPROTO)
                else Ok (mkRequest (method e) (network_to_host64 oid) (network_to_host64 len)
                           (ntohl access) opaque indices, file_descriptors m)
            end
    end.

(** * Responses *)

Definition response_payload (r : UgdrControlResponse) : list byte :=
  let p := append 2 (htons kControlPayloadVersion) [] in
  let p := append 2 0 p in
  let p := append 8 (host_to_network64 (rs_object_identity r)) p in
  let p := append 4 (htonl (u32 (size (rs_opaque r)))) p in
  let p := append 4 (htonl (u32 (size (rs_fd_indices r)))) p in
  append_indices (p ++ rs_opaque r) (rs_fd_indices r).

Definition encode_response (r : UgdrControlResponse) (fds : list Z) : result IpcMessage :=
  if (rs_method r =? 0) || (kMaxFileDescriptors <? size fds)
     || negb (valid_indices (rs_fd_indices r) (size fds))
  then Err (- EINVAL)
  else
    let length_status :=
      validate_lengths (size (rs_opaque r)) (size (rs_fd_indices r)) (Z.of_nat kResponseFixedSize) in
    if negb (length_status =? 0) then Err length_status
    else
      let p := response_payload r in
      Ok (mkMessage (mkEnvelope kProtocolMagic kProtocolMajor kProtocolMinor (rs_method r)
                       kResponseFlag 0 (rs_status r) (u32 (size p)) (u32 (size fds))) p fds).

Definition decode_response (m : IpcMessage) : result (UgdrControlResponse * list Z) :=
  let e := envelope m in
  let p := payload m in
  if (method e =? 0) || (Z.land (flags e) kResponseFlag =? 0) then Err (- EINVAL)
  else if (kMaxFileDescriptors <? size (file_descriptors m))
          || negb (fd_count e =? size (file_descriptors m))
          || negb (payload_length e =? size p) || (length p <? kResponseFixedSize)%nat
  then Err (- EPROTO)
  else
    match '(version, offset) ← read p 0 2; '(reserved, offset) ← read p offset 2;
          '(oid, offset) ← read p offset 8; '(opaque_size, offset) ← read p offset 4;
          '(index_count, offset) ← read p offset 4;
          Some (version, reserved, oid, opaque_size, index_count, offset) with
    | None => Err (- EPROTO)
    | Some (version, reserved, oid, opaque_size, index_count, offset) =>
        if negb (ntohs version =? kControlPayloadVersion) || negb (reserved =? 0)
        then Err (- EPROTONOSUPPORT)
        else
          let opaque_size := ntohl opaque_size in
          let index_count := ntohl index_count in
          let left := size p - Z.of_nat offset in
          if (left <? opaque_size) || negb (left - opaque_size =? index_count * 4)
          then Err (- EPROTO)
          else
            let opaque := take (Z.to_nat opaque_size) (drop offset p) in
            match read_indices p (offset + Z.to_nat opaque_size) (Z.to_nat index_count) with
            | None => Err (- EPROTO)
            | Some (indices, _) =>
                if negb (valid_indices indices (size (file_descriptors m))) then Err (- EPROTO)
                else Ok (mkResponse (method e) (status e) (network_to_host64 oid) opaque indices,
                         file_descriptors m)
            end
    end.

(** * Lemmas *)

Definition index_bytes (indices : list Z) : list byte :=
  concat ((λ i, le_split 4 (htonl i)) <$> indices).

Lemma append_indices_eq bytes indices : append_indices bytes indices = bytes ++ index_bytes indices.
Proof.
  revert bytes. unfold append_indices, index_bytes.
  induction indices as [|i l IH]; intros bytes; simpl; [by rewrite app_nil_r|].
  unfold append in *. rewrite IH. by rewrite <- app_assoc.
Qed.

Lemma length_index_bytes indices : length (index_bytes indices) = (4 * length indices)%nat.
Proof.
  unfold index_bytes. induction indices as [|i l IH]; [done|].
  cbn [fmap list_fmap concat]. rewrite length_app, IH, length_le_split. simpl. lia.
Qed.

Lemma read_indices_cursor bytes offset indices rest :
  Forall is_u32 indices → cursor bytes offset (index_bytes indices ++ rest) →
  ∃ offset', read_indices bytes offset (length indices) = Some (indices, offset').
Proof.
  intros Hi. revert offset. induction Hi as [|i l Hi Hl IH]; intros offset Hc; [by eexists|].
  unfold index_bytes in Hc. cbn [fmap list_fmap concat] in Hc. rewrite <- app_assoc in Hc.
  cbn [length read_indices]. read_scalars.
  destruct (IH _ ltac:(eassumption)) as [offset' ->]. simpl. rewrite ntohl_htonl by done. eauto.
Qed.

Lemma read_indices_inv bytes offset rest n indices offset' :
  cursor bytes offset rest → read_indices bytes offset n = Some (indices, offset') →
  ∃ rest', rest = index_bytes indices ++ rest' ∧ length indices = n ∧ Forall is_u32 indices.
Proof.
  revert offset rest indices. induction n as [|n IH]; intros offset rest indices Hc Hr.
  - simpl in Hr. simplify_eq. exists rest. split; [done|]. split; [done|constructor].
  - cbn [read_indices] in Hr. destruct (read bytes offset 4) as [[v o]|] eqn:Hv; [|done].
    cbn [mbind option_bind] in Hr.
    destruct (read_indices bytes o n) as [[l o']|] eqn:Hl; [|done]. cbn in Hr. simplify_eq.
    destruct (read_inv _ _ _ _ _ _ Hc Hv) as (r1 & -> & Hc1 & _ & Hb).
    destruct (IH _ _ _ Hc1 Hl) as (r2 & -> & Hlen & Hf). exists r2. split_and!.
    + unfold index_bytes. cbn [fmap list_fmap concat]. by rewrite htonl_ntohl, app_assoc.
    + simpl. by rewrite Hlen.
    + constructor; [apply htonl_u32|done].
Qed.

(** The variable-length tail that requests and responses share: the opaque bytes
    and the descriptor indices. *)
Lemma tail_cursor p offset opaque indices :
  cursor p offset (opaque ++ index_bytes indices) → Forall is_u32 indices →
  take (length opaque) (drop offset p) = opaque ∧
  size p - Z.of_nat offset = size opaque + size indices * 4 ∧
  ∃ offset', read_indices p (offset + length opaque) (length indices) = Some (indices, offset').
Proof.
  intros Hc Hi. pose proof (cursor_length _ _ _ Hc) as Hl.
  rewrite length_app, length_index_bytes in Hl. split; [|split].
  - destruct Hc as [_ ->]. by apply take_app_eq.
  - unfold size. lia.
  - apply (read_indices_cursor _ _ _ []); [done|]. rewrite app_nil_r. by eapply cursor_skip.
Qed.

Lemma tail_inv p offset rest n k indices offset' :
  cursor p offset rest → length rest = (n + 4 * k)%nat →
  read_indices p (offset + n) k = Some (indices, offset') →
  rest = take n (drop offset p) ++ index_bytes indices ∧
  length (take n (drop offset p)) = n ∧ length indices = k ∧ Forall is_u32 indices.
Proof.
  intros Hc Hlen Hr. destruct Hc as [Ho Hd]. rewrite Hd.
  assert (cursor p (offset + n) (drop n rest)) as Hc'.
  { split; [apply (f_equal length) in Hd; rewrite length_drop in Hd; lia|].
    by rewrite <- drop_drop, Hd. }
  destruct (read_indices_inv _ _ _ _ _ _ Hc' Hr) as (r' & Hr' & Hk & Hf).
  assert (r' = []) as ->.
  { apply (f_equal length) in Hr'. rewrite length_drop, length_app, length_index_bytes in Hr'.
    apply nil_length_inv. lia. }
  rewrite app_nil_r in Hr'. split_and!; [|rewrite length_take; lia|done|done].
  by rewrite <- Hr', take_drop.
Qed.

(** The tail of an accepted payload re-encodes to the bytes that were read. *)
Lemma tail_canonical p offset rest os ic indices offset' :
  cursor p offset rest → is_u32 os → is_u32 ic →
  ntohl os <= size p - Z.of_nat offset →
  size p - Z.of_nat offset - ntohl os = ntohl ic * 4 →
  read_indices p (offset + Z.to_nat (ntohl os)) (Z.to_nat (ntohl ic)) = Some (indices, offset') →
  let opaque := take (Z.to_nat (ntohl os)) (drop offset p) in
  le_split 4 os ++ le_split 4 ic ++ rest =
    le_split 4 (htonl (u32 (size opaque))) ++ le_split 4 (htonl (u32 (size indices))) ++
    opaque ++ index_bytes indices ∧
  Forall is_u32 indices.
Proof.
  intros Hc Hos Hic Hle Heq Hr opaque. assert (is_u32 (ntohl os)) by apply htonl_u32.
  assert (is_u32 (ntohl ic)) by apply htonl_u32. pose proof (cursor_length _ _ _ Hc). unfold size in *.
  destruct (tail_inv p offset rest (Z.to_nat (ntohl os)) (Z.to_nat (ntohl ic)) indices offset'
    Hc ltac:(ulia) Hr) as (Hrest & Hlo & Hli & Hf).
  fold opaque in Hrest, Hlo. split; [|done].
  rewrite Hlo, Hli, !Z2Nat.id by ulia. rewrite !u32_small, !htonl_ntohl by done. by rewrite Hrest.
Qed.

Lemma valid_indices_spec indices n :
  Forall is_u32 indices → valid_indices indices n = true → Forall (λ i, 0 <= i < n) indices.
Proof.
  unfold valid_indices. induction 1 as [|i l Hi Hl IH]; simpl; [constructor|].
  intros [?%Z.ltb_lt ?]%andb_true_iff. constructor; [ulia|auto].
Qed.

Lemma validate_lengths_ok opaque_size index_count fixed :
  0 <= opaque_size → 0 <= index_count → 0 <= fixed <= kMaxPayloadSize →
  validate_lengths opaque_size index_count fixed = 0 ↔
  fixed + opaque_size + index_count * 4 <= kMaxPayloadSize ∧ opaque_size <= U32_MAX.
Proof.
  intros Ho Hi Hf. unfold validate_lengths, kMaxPayloadSize, U32_MAX, EMSGSIZE in *.
  pose proof (Z.div_mod (1024 * 1024 - fixed) 4 ltac:(lia)).
  pose proof (Z.mod_pos_bound (1024 * 1024 - fixed) 4 ltac:(lia)).
  destruct (_ || _) eqn:E; [|destruct (_ - _ - _ <? opaque_size) eqn:E']; bool_hyps;
    try (split; [done|]; intros [??]).
  - rewrite !orb_true_iff, !Z.ltb_lt in E. lia.
  - lia.
  - split; [intros _; lia|done].
Qed.

Record request_ok (r : UgdrControlRequest) : Prop := {
  ro_identity : is_u64 (rq_object_identity r);
  ro_length : is_u64 (rq_length r);
  ro_access : is_u32 (rq_access r);
  ro_indices : Forall is_u32 (rq_fd_indices r);
}.

Lemma request_payload_eq r :
  request_payload r =
  le_split 2 (htons kControlPayloadVersion) ++ le_split 2 0 ++
  le_split 8 (host_to_network64 (rq_object_identity r)) ++
  le_split 8 (host_to_network64 (rq_length r)) ++ le_split 4 (htonl (rq_access r)) ++
  le_split 4 (htonl (u32 (size (rq_opaque r)))) ++
  le_split 4 (htonl (u32 (size (rq_fd_indices r)))) ++ rq_opaque r ++ index_bytes (rq_fd_indices r).
Proof.
  unfold request_payload. rewrite append_indices_eq. unfold append.
  by rewrite app_nil_l, <- !app_assoc.
Qed.

Lemma response_payload_eq r :
  response_payload r =
  le_split 2 (htons kControlPayloadVersion) ++ le_split 2 0 ++
  le_split 8 (host_to_network64 (rs_object_identity r)) ++
  le_split 4 (htonl (u32 (size (rs_opaque r)))) ++
  le_split 4 (htonl (u32 (size (rs_fd_indices r)))) ++ rs_opaque r ++ index_bytes (rs_fd_indices r).
Proof.
  unfold response_payload. rewrite append_indices_eq. unfold append.
  by rewrite app_nil_l, <- !app_assoc.
Qed.

Lemma size_request_payload r :
  size (request_payload r) =
  Z.of_nat kRequestFixedSize + size (rq_opaque r) + size (rq_fd_indices r) * 4.
Proof.
  rewrite request_payload_eq. unfold size, kRequestFixedSize.
  rewrite !length_app, !length_le_split, length_index_bytes. lia.
Qed.

Lemma size_response_payload r :
  size (response_payload r) =
  Z.of_nat kResponseFixedSize + size (rs_opaque r) + size (rs_fd_indices r) * 4.
Proof.
  rewrite response_payload_eq. unfold size, kResponseFixedSize.
  rewrite !length_app, !length_le_split, length_index_bytes. lia.
Qed.

(** When encoding accepts, and what it builds. *)
Lemma encode_request_ok r fds m :
  encode_request r fds = Ok m →
  rq_method r ≠ 0 ∧ size fds <= kMaxFileDescriptors ∧
  valid_indices (rq_fd_indices r) (size fds) = true ∧
  size (request_payload r) <= kMaxPayloadSize ∧
  m = mkMessage (mkEnvelope kProtocolMagic kProtocolMajor kProtocolMinor (rq_method r) 0 0 0
                   (size (request_payload r)) (size fds)) (request_payload r) fds.
Proof.
  unfold encode_request. destruct (_ || _) eqn:E; [done|]. bool_hyps.
  destruct (negb (_ =? 0)) eqn:El; [done|]. bool_hyps.
  apply validate_lengths_ok in El as [Hl _]; [|unfold size; lia|unfold size; lia|done].
  rewrite size_request_payload. unfold kMaxPayloadSize, kMaxFileDescriptors in *.
  intros [= <-]. rewrite !u32_small by (unfold size, kRequestFixedSize in *; ulia).
  split_and!; [done|lia|done|lia|done].
Qed.

Lemma encode_response_ok r fds m :
  encode_response r fds = Ok m →
  rs_method r ≠ 0 ∧ size fds <= kMaxFileDescriptors ∧
  valid_indices (rs_fd_indices r) (size fds) = true ∧
  size (response_payload r) <= kMaxPayloadSize ∧
  m = mkMessage (mkEnvelope kProtocolMagic kProtocolMajor kProtocolMinor (rs_method r) kResponseFlag
                   0 (rs_status r) (size (response_payload r)) (size fds)) (response_payload r) fds.
Proof.
  unfold encode_response. destruct (_ || _) eqn:E; [done|]. bool_hyps.
  destruct (negb (_ =? 0)) eqn:El; [done|]. bool_hyps.
  apply validate_lengths_ok in El as [Hl _]; [|unfold size; lia|unfold size; lia|done].
  rewrite size_response_payload. unfold kMaxPayloadSize, kMaxFileDescriptors in *.
  intros [= <-]. rewrite !u32_small by (unfold size, kResponseFixedSize in *; ulia).
  split_and!; [done|lia|done|lia|done].
Qed.

(** Control requests survive the wire: whatever [encode_request] accepts,
    [decode_request] gives back unchanged, with the same descriptors. *)
Lemma decode_encode_request r fds m :
  request_ok r → encode_request r fds = Ok m → decode_request m = Ok (r, fds).
Proof.
  intros [] (Hm & Hfd & Hv & Hsz & ->)%encode_request_ok. unfold decode_request.
  cbn [envelope payload file_descriptors method flags fd_count payload_length].
  pose proof (size_request_payload r) as Hsize.
  rewrite (proj2 (Z.eqb_neq _ _) Hm), (proj2 (Z.ltb_ge _ _) Hfd), !Z.eqb_refl.
  rewrite (proj2 (Nat.ltb_ge _ _)) by (unfold size in *; lia). cbn [orb negb Z.land Z.eqb].
  pose proof (cursor_start (request_payload r)) as Hc. rewrite request_payload_eq in Hc at 2.
  set (p := request_payload r) in *. clearbody p.
  pose proof (Zlength_nonneg (rq_opaque r)). pose proof (Zlength_nonneg (rq_fd_indices r)).
  unfold size, kMaxPayloadSize, kRequestFixedSize in *.
  read_scalars. rewrite !u32_small by ulia. autorewrite with ugdr.
  match goal with H : cursor p ?o _ |- _ => destruct (tail_cursor _ _ _ _ H) as (Ht & Hs & o' & Hr); [done|] end.
  unfold size in *. rewrite Hs. rewrite (proj2 (Z.ltb_ge _ _)) by lia.
  replace (Z.of_nat (length (rq_opaque r)) + Z.of_nat (length (rq_fd_indices r)) * 4
    - Z.of_nat (length (rq_opaque r))) with (Z.of_nat (length (rq_fd_indices r)) * 4) by lia.
  rewrite !Z.eqb_refl. cbn [orb negb]. rewrite !Nat2Z.id, Ht. cbn [Nat.add] in Hr. rewrite Hr, Hv. by destruct r.
Qed.

(** Control responses survive the wire, status included. *)
Lemma decode_encode_response r fds m :
  is_u64 (rs_object_identity r) → Forall is_u32 (rs_fd_indices r) →
  encode_response r fds = Ok m → decode_response m = Ok (r, fds).
Proof.
  intros Hid Hix (Hm & Hfd & Hv & Hsz & ->)%encode_response_ok. unfold decode_response.
  cbn [envelope payload file_descriptors method flags fd_count payload_length].
  pose proof (size_response_payload r) as Hsize.
  rewrite (proj2 (Z.eqb_neq _ _) Hm), (proj2 (Z.ltb_ge _ _) Hfd), !Z.eqb_refl.
  rewrite (proj2 (Nat.ltb_ge _ _)) by (unfold size in *; lia). cbn [orb negb Z.land Z.eqb].
  pose proof (cursor_start (response_payload r)) as Hc. rewrite response_payload_eq in Hc at 2.
  set (p := response_payload r) in *. clearbody p.
  pose proof (Zlength_nonneg (rs_opaque r)). pose proof (Zlength_nonneg (rs_fd_indices r)).
  unfold size, kMaxPayloadSize, kResponseFixedSize in *.
  change (Z.land kResponseFlag kResponseFlag =? 0) with false. cbn [orb].
  read_scalars. rewrite !u32_small by ulia. autorewrite with ugdr.
  match goal with H : cursor p ?o _ |- _ => destruct (tail_cursor _ _ _ _ H) as (Ht & Hs & o' & Hr); [done|] end.
  unfold size in *. rewrite Hs. rewrite (proj2 (Z.ltb_ge _ _)) by lia.
  replace (Z.of_nat (length (rs_opaque r)) + Z.of_nat (length (rs_fd_indices r)) * 4
    - Z.of_nat (length (rs_opaque r))) with (Z.of_nat (length (rs_fd_indices r)) * 4) by lia.
  rewrite !Z.eqb_refl. cbn [orb negb]. rewrite !Nat2Z.id, Ht. cbn [Nat.add] in Hr.
  rewrite Hr, Hv. by destruct r.
Qed.

(** * Properties *)

(** A request is accepted only in its canonical form: if [decode_request]
    accepts a message, its payload is exactly the encoding of the decoded request
    (no trailing bytes, nothing ignored), the request is well formed, and every
    descriptor index names one of the descriptors received. *)
Theorem decode_request_canonical m r fds :
  decode_request m = Ok (r, fds) →
  payload m = request_payload r ∧ request_ok r ∧ rq_method r = method (envelope m) ∧
  rq_method r ≠ 0 ∧ fds = file_descriptors m ∧
  Forall (λ i, 0 <= i < size fds) (rq_fd_indices r).
Proof.
  unfold decode_request. destruct (_ || _) eqn:E1; [done|]. bool_hyps.
  destruct (_ || _) eqn:E2; [done|]. bool_hyps.
  remember (payload m) as p eqn:Hp. pose proof (cursor_start p) as Hc.
  remember p as rest eqn:Hrest in Hc at 2. clear Hp.
  destruct (_ ≫= _) as [[[[[[[[version reserved] oid] len] access] os] ic] offset]|] eqn:Hread; [|done].
  invert_reads. injection Hread as -> -> -> -> -> -> -> <-.
  destruct (negb (ntohs _ =? _) || _) eqn:E3; [done|]. bool_hyps. subst reserved.
  destruct ((_ <? _) || _) eqn:E4; [done|]. bool_hyps.
  destruct (read_indices _ _ _) as [[indices o']|] eqn:Hri; [|done].
  destruct (negb _) eqn:Hv; [done|]. bool_hyps. intros Hok. apply Ok_pair_inj in Hok as [<- <-].
  assert (htons kControlPayloadVersion = version) as Hver.
  { by rewrite <- H7, htons_ntohs. }
  destruct (tail_canonical _ _ _ os ic _ _ ltac:(eassumption) ltac:(done) ltac:(done)
    ltac:(done) ltac:(done) Hri) as [Htail Hf].
  rewrite request_payload_eq.
  cbn [rq_object_identity rq_length rq_access rq_opaque rq_fd_indices rq_method].
  rewrite Hver, !host_to_network64_network_to_host64, (htonl_ntohl access) by done.
  split; [by rewrite <- Htail|]. split.
  - split; cbn; [apply host_to_network64_u64|apply host_to_network64_u64|apply htonl_u32|done].
  - do 2 (split; [done|]). split; [done|]. by apply valid_indices_spec.
Qed.

Definition demo_request : UgdrControlRequest :=
  mkRequest 3 72057594054705152 4096 7 [Byte.x01; Byte.x02; Byte.x03] [0; 1].
Definition demo_request_message : IpcMessage :=
  match encode_request demo_request [5; 6] with Ok m => m | Err _ => default_message end.
Lemma decode_request_canonical_witness :
  payload demo_request_message = request_payload demo_request.
Proof. apply (decode_request_canonical _ _ [5; 6]). by vm_compute. Defined.


End Adapter.
