(* ===== verification/QueueDescriptors.v ===== *)
(** The wire form of the queue descriptors that the daemon returns with a
    completion queue or a queue pair (src/control/queue_descriptor.hpp). *)

From S2P Require Import Prelude Wire SharedRing.
Import Wire Ring.

Module QueueDescriptors.

Definition kQueueDescriptorPayloadVersion : Z := 1.
Definition kQueueDescriptorWireSize : Z := 16.

(** [static_cast<QueueKind>] of a code that was checked to be in range. *)
Definition kind_of_code (c : Z) : QueueKind :=
  if c =? 1 then send else if c =? 2 then receive else completion.

Definition append_descriptor (bytes : list byte) (d : QueueDescriptor) : list byte :=
  append 4 0 $ append 4 (htonl (slot_stride d)) $ append 4 (htonl (capacity d)) $
  append 4 (htonl (kind_code (kind d))) bytes.

Definition encode_queue_descriptors (descriptors : list QueueDescriptor) : result (list byte) :=
  if decide (descriptors = []) then Err EINVAL
  else if U16_MAX <? Z.of_nat (length descriptors) then Err EINVAL
  else Ok (foldl append_descriptor
             (append 2 (htons (u16 (Z.of_nat (length descriptors))))
                (append 2 (htons kQueueDescriptorPayloadVersion) [])) descriptors).

(** The loop over the remaining [count] descriptors. *)
Fixpoint decode_descriptors (bytes : list byte) (offset : nat) (count : nat)
  : result (list QueueDescriptor) :=
  match count with
  | O => Ok []
  | S count =>
      match '(k, offset) ← read bytes offset 4; '(c, offset) ← read bytes offset 4;
            '(s, offset) ← read bytes offset 4; '(reserved, offset) ← read bytes offset 4;
            Some (ntohl k, ntohl c, ntohl s, reserved, offset) with
      | None => Err EPROTO
      | Some (k, c, s, reserved, offset) =>
          if negb (reserved =? 0) || (k <? kind_code send) || (kind_code completion <? k)
             || (c =? 0) || (s =? 0) || negb (s `mod` kSharedRingCacheLine =? 0)
          then Err EPROTO
          else l ← decode_descriptors bytes offset count;
               Ok (mkDescriptor (kind_of_code k) c s :: l)
      end
  end.

Definition decode_queue_descriptors (bytes : list byte) : result (list QueueDescriptor) :=
  if (length bytes <? 4)%nat then Err EPROTO
  else match '(version, offset) ← read bytes 0 2; '(count, offset) ← read bytes offset 2;
             Some (version, count, offset) with
  | None => Err EPROTO
  | Some (version, count, offset) =>
      if negb (ntohs version =? kQueueDescriptorPayloadVersion) then Err EPROTONOSUPPORT
      else
        let count := ntohs count in
        if (count =? 0)
           || negb (Z.of_nat (length bytes) =? 4 + count * kQueueDescriptorWireSize)
        then Err EPROTO
        else decode_descriptors bytes offset (Z.to_nat count)
  end.

(** * Lemmas *)

Definition descriptor_bytes (d : QueueDescriptor) : list byte :=
  le_split 4 (htonl (kind_code (kind d))) ++ le_split 4 (htonl (capacity d)) ++
  le_split 4 (htonl (slot_stride d)) ++ le_split 4 0.

Lemma append_descriptors_eq ds bytes :
  foldl append_descriptor bytes ds = bytes ++ concat (descriptor_bytes <$> ds).
Proof.
  revert bytes. induction ds as [|d ds IH]; intros bytes; cbn [foldl fmap list_fmap concat];
    [by rewrite app_nil_r|].
  rewrite IH. unfold append_descriptor, append, descriptor_bytes. by rewrite <- !app_assoc.
Qed.

Lemma length_descriptors ds : length (concat (descriptor_bytes <$> ds)) = (16 * length ds)%nat.
Proof.
  induction ds as [|d ds IH]; [done|]. cbn [fmap list_fmap concat]. rewrite length_app, IH.
  unfold descriptor_bytes. rewrite !length_app, !length_le_split. simpl. lia.
Qed.

Definition descriptor_wf (d : QueueDescriptor) : Prop :=
  descriptor_ok d ∧ valid_descriptor d = true.

Lemma kind_of_code_kind k : kind_of_code (kind_code k) = k.
Proof. by destruct k. Qed.

Lemma kind_code_of_code c : 1 <= c <= 3 → kind_code (kind_of_code c) = c.
Proof. intros. assert (c = 1 ∨ c = 2 ∨ c = 3) as [->|[->| ->]] by lia; done. Qed.

Lemma decode_descriptors_cursor bytes offset ds rest :
  Forall descriptor_wf ds → cursor bytes offset (concat (descriptor_bytes <$> ds) ++ rest) →
  decode_descriptors bytes offset (length ds) = Ok ds.
Proof.
  intros Hds. revert offset. induction Hds as [|d ds [Hok Hv] Hds IH]; intros offset Hc; [done|].
  cbn [fmap list_fmap concat] in Hc. unfold descriptor_bytes at 1 in Hc. rewrite <- !app_assoc in Hc.
  cbn [length decode_descriptors]. read_scalars. destruct Hok as [Hcap Hst].
  rewrite ntohl_htonl by (by destruct (kind d)). autorewrite with ugdr.
  apply valid_descriptor_spec in Hv as (Hc0 & Hs0 & Hm).
  unfold kSharedRingCacheLine. rewrite Hm, (proj2 (Z.eqb_neq _ _) Hc0), (proj2 (Z.eqb_neq _ _) Hs0).
  rewrite kind_of_code_kind, (IH _ ltac:(eassumption)). destruct d as [k c st]. by destruct k.
Qed.

Lemma decode_descriptors_inv bytes offset rest n ds :
  cursor bytes offset rest → decode_descriptors bytes offset n = Ok ds →
  ∃ rest', rest = concat (descriptor_bytes <$> ds) ++ rest' ∧ length ds = n ∧ Forall descriptor_wf ds.
Proof.
  revert offset rest ds. induction n as [|n IH]; intros offset rest ds Hc Hd.
  { injection Hd as <-. exists rest. split; [done|]. split; [done|constructor]. }
  cbn [decode_descriptors] in Hd.
  destruct (_ ≫= _) as [[[[[k c] s] reserved] o]|] eqn:Hread; [|done].
  invert_reads. injection Hread as <- <- <- -> <-.
  destruct (negb (_ =? 0) || _ || _ || _ || _ || _) eqn:E; [done|]. bool_hyps. subst.
  destruct (decode_descriptors _ _ n) as [l|] eqn:Hl; [|done]. cbn in Hd. injection Hd as <-.
  destruct (IH _ _ _ ltac:(eassumption) Hl) as (r' & -> & <- & Hf). exists r'.
  split; [|split; [done|constructor; [|done]]].
  - cbn [fmap list_fmap concat]. unfold descriptor_bytes at 2. cbn [kind capacity slot_stride].
    rewrite kind_code_of_code by done. rewrite !htonl_ntohl by done. by rewrite <- !app_assoc.
  - split; [split; apply htonl_u32|]. by apply valid_descriptor_spec.
Qed.

(** * Properties *)

(** Queue descriptors survive the wire: what the daemon encodes for its valid
    queues the client decodes to the same descriptors, in order. *)
Theorem queue_descriptors_roundtrip ds bytes :
  Forall descriptor_wf ds → encode_queue_descriptors ds = Ok bytes →
  decode_queue_descriptors bytes = Ok ds.
Proof.
  intros Hds. unfold encode_queue_descriptors. case_decide as Hn; [done|].
  destruct (_ <? _) eqn:Hmax; [done|]. bool_hyps. intros <-%Ok_inj.
  rewrite append_descriptors_eq. unfold append. rewrite app_nil_l, <- app_assoc.
  match goal with |- decode_queue_descriptors ?x = _ => set (b := x) end.
  assert (length b = 4 + 16 * length ds)%nat as Hlen.
  { unfold b. rewrite !length_app, !length_le_split, length_descriptors. lia. }
  pose proof (cursor_start b) as Hc. unfold b at 2 in Hc. clearbody b.
  unfold decode_queue_descriptors. rewrite (proj2 (Nat.ltb_ge _ _)) by lia. read_scalars.
  assert (0 < length ds)%nat by (destruct ds; simpl; [done|lia]).
  assert (u16 (Z.of_nat (length ds)) = Z.of_nat (length ds)) as ->
    by (apply Z.mod_small; ulia).
  rewrite !ntohs_htons by (unfold kQueueDescriptorPayloadVersion; ulia). rewrite Hlen. unfold kQueueDescriptorWireSize.
  rewrite (proj2 (Z.eqb_neq _ 0)), (proj2 (Z.eqb_eq (Z.of_nat (4 + _)) _)) by lia.
  cbn [negb orb Z.eqb]. rewrite Nat2Z.id. apply (decode_descriptors_cursor _ _ _ []); [done|].
  by rewrite app_nil_r.
Qed.

(** Whatever bytes arrive, decoding yields only valid descriptors, and only
    from bytes that are exactly their encoding; it never reads past the buffer. *)
Theorem decode_queue_descriptors_sound bytes ds :
  decode_queue_descriptors bytes = Ok ds →
  Forall descriptor_wf ds ∧ encode_queue_descriptors ds = Ok bytes.
Proof.
  unfold decode_queue_descriptors. destruct (_ <? _)%nat; [done|].
  pose proof (cursor_start bytes) as Hc. remember bytes as rest eqn:Hrest in Hc at 2.
  destruct (_ ≫= _) as [[[version count] offset]|] eqn:Hread; [|done].
  invert_reads. injection Hread as -> -> <-.
  destruct (negb _) eqn:Hver; [done|]. destruct ((_ =? 0) || _) eqn:Hcnt; [done|]. bool_hyps.
  intros Hd. destruct (decode_descriptors_inv _ _ _ _ _ ltac:(eassumption) Hd) as (r' & -> & Hl & Hf).
  split; [done|]. assert (is_u16 (ntohs count)) by apply htons_u16.
  assert (r' = []) as ->.
  { apply (f_equal length) in Hrest.
    rewrite !length_app, !length_le_split, length_descriptors in Hrest.
    apply nil_length_inv. unfold kQueueDescriptorWireSize in *. ulia. }
  unfold encode_queue_descriptors. rewrite decide_False by (intros ->; simpl in Hl; ulia).
  rewrite Hl, Z2Nat.id, (proj2 (Z.ltb_ge _ _)) by ulia.
  rewrite append_descriptors_eq. unfold append. rewrite app_nil_l, <- !app_assoc.
  assert (u16 (ntohs count) = ntohs count) as -> by (apply Z.mod_small; ulia).
  rewrite <- Hver, !htons_ntohs by done. by rewrite app_nil_r in Hrest; rewrite <- Hrest.
Qed.

Definition demo_descriptors : list QueueDescriptor :=
  [mkDescriptor send 16 128; mkDescriptor receive 32 64].
Definition demo_bytes : list byte :=
  match encode_queue_descriptors demo_descriptors with Ok b => b | Err _ => [] end.

Lemma queue_descriptors_roundtrip_witness :
  decode_queue_descriptors demo_bytes = Ok demo_descriptors.
Proof.
  apply queue_descriptors_roundtrip; [|by vm_compute].
  repeat constructor; by vm_compute.
Defined.

Lemma decode_queue_descriptors_sound_witness :
  encode_queue_descriptors demo_descriptors = Ok demo_bytes.
Proof. apply decode_queue_descriptors_sound. by vm_compute. Defined.

End QueueDescriptors.
