(* ===== verification/IpcSession.v ===== *)
(** IPC clients and the session server (src/ipc/client.cpp, src/ipc/server.cpp).

    Outcomes of system calls are arguments.  The server is generic in its handler,
    the class [IpcHandler]: what one request does to the handler's state, and what
    the end of a session does.  Iteration over [connections_] (an unordered map)
    follows the order of the argument, which the theorems quantify over. *)

From S2P Require Import Prelude Wire Protocol.
Import Wire Protocol.

(** [ipc::IpcHandler].  [handle] returns [None] when the C++ method throws. *)
Class IpcHandler (H : Type) := {
  handle : H → Z → IpcMessage → H * option IpcMessage;
  on_disconnect : H → Z → H;
}.

Module IpcSession.

(** [sizeof(sockaddr_un::sun_path)] *)
Definition kSunPathSize : Z := 108.

Definition bad_path (socket_path : list byte) : bool :=
  (Z.of_nat (length socket_path) =? 0) || (kSunPathSize <=? Z.of_nat (length socket_path)).

(** [next_id++; if (next_id == 0) next_id = 1]: ids wrap past zero. *)
Definition next_id (id : Z) : Z := let n := u64 (id + 1) in if n =? 0 then 1 else n.

(** * The client *)

Record IpcClient := mkClient { socket_ : Z; next_request_id_ : Z }.

Definition connected (c : IpcClient) : bool := fd_valid (socket_ c).

(** [connect]: the outcomes of [socket] and [::connect] are arguments. *)
Definition connect (c : IpcClient) (socket_path : list byte) (candidate : result Z)
    (connect_status : Z) : IpcClient * Z :=
  if connected c then (c, - EISCONN)
  else if bad_path socket_path then (c, - ENAMETOOLONG)
  else match candidate with
  | Err e => (c, - e)
  | Ok fd => if negb (connect_status =? 0) then (c, - connect_status) else (mkClient fd 1, 0)
  end.

Definition owned (fds : list Z) : list Z := filter (λ fd, fd_valid fd = true) fds.

Definition request_message (c : IpcClient) (method : Z) (payload : list byte) (fds : list Z)
  : IpcMessage :=
  mkMessage (mkEnvelope kProtocolMagic kProtocolMajor kProtocolMinor method 0 (next_request_id_ c)
               0 0 0) payload fds.

(** [call]: the new client, the response, and the descriptors closed by the
    destructors of the request and of a rejected response. *)
Definition call (sendmsg : Packet → result Z) (recvmsg : Packet → Delivery) (c : IpcClient)
    (method : Z) (payload : list byte) (fds : list Z) : IpcClient * result IpcMessage * list Z :=
  if negb (connected c) then (c, Err (- ENOTCONN), owned fds)
  else if method =? 0 then (c, Err (- EINVAL), owned fds)
  else
    let request := request_message c method payload fds in
    let c' := mkClient (socket_ c) (next_id (next_request_id_ c)) in
    match send_message sendmsg (socket_ c) request with
    | (send_status, sent) =>
        if negb (send_status =? 0) then (c', Err send_status, owned fds)
        else
          match receive_message (socket_ c) (recvmsg (send_packet request)) with
          | (eof, closed) => (c', Err (- ECONNRESET), owned fds ++ closed)
          | (error e, closed) => (c', Err (- e), owned fds ++ closed)
          | (message response, closed) =>
              if (Z.land (flags (envelope response)) kResponseFlag =? 0)
                 || negb (request_id (envelope response) =? next_request_id_ c)
                 || negb (Protocol.method (envelope response) =? method)
              then (c', Err (- EPROTO), owned fds ++ closed ++ owned (file_descriptors response))
              else (c', Ok response, owned fds ++ closed)
          end
    end.

Definition client_close (c : IpcClient) : IpcClient * list Z :=
  (mkClient (-1) (next_request_id_ c), owned [socket_ c]).

(** * The server *)

Record IpcServer := mkServer {
  listener_ : Z;
  connections_ : gmap Z Z;   (* socket -> session id *)
  socket_path_ : list byte;
  socket_device_ : Z;
  socket_inode_ : Z;
  next_session_id_ : Z;
  owns_socket_path_ : bool;
}.

Definition running (s : IpcServer) : bool := fd_valid (listener_ s).
Definition session_count (s : IpcServer) : Z := Z.of_nat (base.size (connections_ s)).

(** The result of [lstat]: a failure, or the file's kind, device and inode. *)
Inductive PathStatus := lstat_failed (errno : Z) | lstat_ok (is_socket : bool) (device inode : Z).

(** [remove_socket_path]: whether it unlinks the path. *)
Definition remove_socket_path (s : IpcServer) (path : PathStatus) : IpcServer * bool :=
  let unlinked :=
    owns_socket_path_ s && negb (Z.of_nat (length (socket_path_ s)) =? 0) &&
    match path with
    | lstat_ok is_socket device inode =>
        is_socket && (device =? socket_device_ s) && (inode =? socket_inode_ s)
    | lstat_failed _ => false
    end in
  (mkServer (listener_ s) (connections_ s) [] 0 0 (next_session_id_ s) false, unlinked).

Record StartSystem := mkStart {
  st_lstat : PathStatus; st_socket : result Z; st_bind : Z; st_bound : PathStatus;
  st_listen : Z; st_unlink : PathStatus;
}.

Definition start (s : IpcServer) (socket_path : list byte) (sys : StartSystem) : IpcServer * Z :=
  if running s then (s, - EALREADY)
  else if bad_path socket_path then (s, - ENAMETOOLONG)
  else match st_lstat sys with
  | lstat_ok _ _ _ => (s, - EADDRINUSE)
  | lstat_failed errno =>
      if negb (errno =? ENOENT) then (s, - errno)
      else match st_socket sys with
      | Err e => (s, - e)
      | Ok listener =>
          if negb (st_bind sys =? 0) then (s, - st_bind sys)
          else match st_bound sys with
          | lstat_ok true device inode =>
              let s := mkServer (listener_ s) (connections_ s) socket_path device inode
                         (next_session_id_ s) true in
              if negb (st_listen sys =? 0)
              then ((remove_socket_path s (st_unlink sys)).1, - st_listen sys)
              else (mkServer listener (connections_ s) socket_path device inode 1 true, 0)
          | _ => (s, - EIO)
          end
      end
  end.

(** The accept loop over the outcomes of [accept4]; the list ends where the kernel
    reports [EAGAIN]. *)
Fixpoint accept_ready_connections (s : IpcServer) (accepts : list (result Z)) : IpcServer * Z :=
  match accepts with
  | [] => (s, 0)
  | Err e :: accepts =>
      if e =? EAGAIN then (s, 0)
      else if e =? EINTR then accept_ready_connections s accepts
      else (s, - e)
  | Ok accepted :: accepts =>
      let connections :=
        match connections_ s !! accepted with
        | Some _ => connections_ s   (* emplace does not replace *)
        | None => <[accepted := next_session_id_ s]> (connections_ s)
        end in
      accept_ready_connections
        (mkServer (listener_ s) connections (socket_path_ s) (socket_device_ s) (socket_inode_ s)
           (next_id (next_session_id_ s)) (owns_socket_path_ s)) accepts
  end.

(** What the server does to the outside: replies on a socket, and the end of a
    session reported to the handler. *)
Inductive Action := Reply (fd : Z) (p : Packet) | Disconnected (session : Z).

(** One entry of the poll array: its socket, [revents], what [recvmsg] would
    deliver and how [sendmsg] answers. *)
Record PollEvent := mkEvent {
  ev_fd : Z; pollin : bool; pollerr_or_nval : bool; pollhup : bool;
  ev_delivery : Delivery; ev_sendmsg : Packet → result Z;
}.

Section Server.
Context {H : Type} `{IpcHandler H}.

Definition close_session (s : IpcServer) (h : H) (socket_fd : Z) : IpcServer * H * list Action :=
  match connections_ s !! socket_fd with
  | None => (s, h, [])
  | Some session_id =>
      (mkServer (listener_ s) (delete socket_fd (connections_ s)) (socket_path_ s) (socket_device_ s)
         (socket_inode_ s) (next_session_id_ s) (owns_socket_path_ s),
       on_disconnect h session_id, [Disconnected session_id])
  end.

(** The envelope of a reply: the handler's status with the request's ids. *)
Definition reply_message (request : Envelope) (response : option IpcMessage) : IpcMessage :=
  let r := match response with
           | Some r => r
           | None => mkMessage (mkEnvelope kProtocolMagic kProtocolMajor kProtocolMinor 0 0 0 EIO 0 0)
                       [] []
           end in
  mkMessage (mkEnvelope kProtocolMagic kProtocolMajor kProtocolMinor (method request) kResponseFlag
               (request_id request) (status (envelope r)) (payload_length (envelope r))
               (fd_count (envelope r))) (payload r) (file_descriptors r).

(** The body of the loop over the poll array. *)
Definition serve_event (s : IpcServer) (h : H) (ev : PollEvent) : IpcServer * H * list Action :=
  match connections_ s !! ev_fd ev with
  | None => (s, h, [])
  | Some session_id =>
      let should_close := pollerr_or_nval ev in
      let '(h, acts, should_close) :=
        if pollin ev then
          match (receive_message (ev_fd ev) (ev_delivery ev)).1 with
          | eof => (h, [], true)
          | error e => (h, [], should_close || negb (e =? EAGAIN))
          | message m =>
              let '(h, response) := handle h session_id m in
              let '(send_status, sent) :=
                send_message (ev_sendmsg ev) (ev_fd ev) (reply_message (envelope m) response) in
              (h, match sent with Some p => [Reply (ev_fd ev) p] | None => [] end,
               should_close || negb (send_status =? 0))
          end
        else (h, [], should_close) in
      let should_close := should_close || pollhup ev in
      if should_close
      then let '(s, h, closing) := close_session s h (ev_fd ev) in (s, h, acts ++ closing)
      else (s, h, acts)
  end.

Fixpoint serve_events (s : IpcServer) (h : H) (events : list PollEvent)
  : IpcServer * H * list Action :=
  match events with
  | [] => (s, h, [])
  | ev :: events =>
      let '(s, h, acts) := serve_event s h ev in
      let '(s, h, rest) := serve_events s h events in
      (s, h, acts ++ rest)
  end.

(** [poll_once]: [ready] is what [poll] returns, [listener_pollin] the listener's
    [revents]. *)
Definition poll_once (s : IpcServer) (h : H) (ready : result Z) (listener_pollin : bool)
    (accepts : list (result Z)) (events : list PollEvent) : IpcServer * H * list Action * Z :=
  if negb (running s) then (s, h, [], - ENOTCONN)
  else match ready with
  | Err e => (s, h, [], if e =? EINTR then 0 else - e)
  | Ok ready =>
      if ready =? 0 then (s, h, [], 0)
      else
        let '(s, accept_status) :=
          if listener_pollin then accept_ready_connections s accepts else (s, 0) in
        if negb (accept_status =? 0) then (s, h, [], accept_status)
        else let '(s, h, acts) := serve_events s h events in (s, h, acts, 0)
  end.

(** The loop of [close] over the sockets, in the order in which [begin()] meets
    them. *)
Fixpoint close_sessions (s : IpcServer) (h : H) (order : list Z) : IpcServer * H * list Action :=
  match order with
  | [] => (s, h, [])
  | fd :: order =>
      let '(s, h, acts) := close_session s h fd in
      let '(s, h, rest) := close_sessions s h order in
      (s, h, acts ++ rest)
  end.

Definition server_close (s : IpcServer) (h : H) (order : list Z) (path : PathStatus)
  : IpcServer * H * list Action :=
  let '(s, h, acts) := close_sessions s h order in
  let s := mkServer (-1) (connections_ s) (socket_path_ s) (socket_device_ s) (socket_inode_ s)
             (next_session_id_ s) (owns_socket_path_ s) in
  ((remove_socket_path s path).1, h, acts).

End Server.

(** * Sessions *)

Definition sessions (s : IpcServer) : list Z := (map_to_list (connections_ s)).*2.

Definition disconnected (acts : list Action) : list Z :=
  omap (λ a, match a with Disconnected id => Some id | Reply _ _ => None end) acts.

Lemma disconnected_app a b : disconnected (a ++ b) = disconnected a ++ disconnected b.
Proof. apply omap_app. Qed.

(** Live session ids are distinct and were issued before. *)
Definition server_inv (s : IpcServer) : Prop :=
  NoDup (sessions s) ∧ Forall (λ id, 1 <= id < next_session_id_ s) (sessions s) ∧
  1 <= next_session_id_ s.

Lemma next_id_small id : 1 <= id < U64_MAX → next_id id = id + 1.
Proof.
  intros H. unfold next_id. rewrite u64_small by ulia. by rewrite (proj2 (Z.eqb_neq _ _)) by lia.
Qed.

Lemma accept_sessions accepts s s' st :
  accept_ready_connections s accepts = (s', st) →
  1 <= next_session_id_ s → next_session_id_ s + Z.of_nat (length accepts) <= U64_MAX →
  ∃ new, sessions s' ≡ₚ sessions s ++ new ∧ NoDup new ∧
    Forall (λ id, next_session_id_ s <= id < next_session_id_ s') new ∧
    next_session_id_ s <= next_session_id_ s'.
Proof.
  revert s. induction accepts as [|[fd|e] accepts IH]; intros s Heq H1 Hmax.
  - injection Heq as <- <-. exists []. rewrite app_nil_r.
    split; [done|]. split; [constructor|]. split; [constructor|lia].
  - cbn [accept_ready_connections] in Heq. cbn [length] in Hmax.
    assert (next_id (next_session_id_ s) = next_session_id_ s + 1) as Hn by (apply next_id_small; lia).
    apply IH in Heq as (new & Hp & Hnd & Hf & Hle);
      cbn [next_session_id_] in *; rewrite Hn in *; [|lia|lia].
    destruct (connections_ s !! fd) eqn:Hfd.
    { exists new. split; [exact Hp|]. split; [done|].
      split; [eapply Forall_impl; [done|]; simpl; lia|lia]. }
    exists (next_session_id_ s :: new). split; [|split; [|split]]; [| | |lia].
    + rewrite Hp. unfold sessions. cbn [connections_]. rewrite map_to_list_insert by done.
      cbn [fmap list_fmap snd]. apply Permutation_middle.
    + constructor; [|done]. intros Hin%(proj1 (Forall_forall _ _) Hf). simpl in Hin. lia.
    + constructor; [lia|]. eapply Forall_impl; [done|]. simpl. lia.
  - cbn [accept_ready_connections] in Heq. cbn [length] in Hmax.
    destruct (e =? EAGAIN); [|destruct (e =? EINTR)].
    + injection Heq as <- <-. exists []. rewrite app_nil_r.
      split; [done|]. split; [constructor|]. split; [constructor|lia].
    + apply IH; [done|lia|lia].
    + injection Heq as <- <-. exists []. rewrite app_nil_r.
      split; [done|]. split; [constructor|]. split; [constructor|lia].
Qed.

Section Sessions.
Context {H : Type} `{IpcHandler H}.

Lemma close_session_sessions s (h : H) fd s' h' acts :
  close_session s h fd = (s', h', acts) →
  disconnected acts ++ sessions s' ≡ₚ sessions s ∧ next_session_id_ s' = next_session_id_ s ∧
  connections_ s' = delete fd (connections_ s).
Proof.
  unfold close_session. destruct (connections_ s !! fd) as [id|] eqn:Hfd; intros [= <- <- <-].
  - split; [|done]. unfold sessions. cbn [connections_ disconnected omap list_omap app].
    by rewrite <- (map_to_list_delete _ _ _ Hfd).
  - split; [done|]. split; [done|]. by rewrite delete_id.
Qed.

Lemma serve_event_sessions s (h : H) ev s' h' acts :
  serve_event s h ev = (s', h', acts) →
  disconnected acts ++ sessions s' ≡ₚ sessions s ∧ next_session_id_ s' = next_session_id_ s.
Proof.
  unfold serve_event. destruct (connections_ s !! ev_fd ev) as [id|]; [|by intros [= <- <- <-]].
  destruct (if pollin ev then _ else _) as [[h1 acts1] closing1] eqn:E.
  assert (disconnected acts1 = []) as Ha.
  { destruct (pollin ev); [|by simplify_eq]. destruct (receive_message _ _).1 as [m| |e];
      [|by simplify_eq|by simplify_eq].
    destruct (handle h id m) as [h2 response]. destruct (send_message _ _ _) as [st [p|]];
      by simplify_eq. }
  destruct (closing1 || pollhup ev).
  - destruct (close_session s h1 (ev_fd ev)) as [[s2 h2] closing] eqn:Hc. intros [= <- <- <-].
    apply close_session_sessions in Hc as (? & ? & _). by rewrite disconnected_app, Ha.
  - intros [= <- <- <-]. by rewrite Ha.
Qed.

Lemma serve_events_sessions events s (h : H) s' h' acts :
  serve_events s h events = (s', h', acts) →
  disconnected acts ++ sessions s' ≡ₚ sessions s ∧ next_session_id_ s' = next_session_id_ s.
Proof.
  revert s h acts. induction events as [|ev events IH]; intros s h acts; cbn [serve_events].
  - by intros [= <- <- <-].
  - destruct (serve_event s h ev) as [[s1 h1] a1] eqn:E1.
    destruct (serve_events s1 h1 events) as [[s2 h2] a2] eqn:E2. intros [= <- <- <-].
    apply serve_event_sessions in E1 as [Hp1 Hn1]. apply IH in E2 as [Hp2 Hn2].
    rewrite disconnected_app, <- app_assoc, Hp2. split; [done|congruence].
Qed.

Lemma close_sessions_all order s (h : H) s' h' acts :
  close_sessions s h order = (s', h', acts) →
  disconnected acts ++ sessions s' ≡ₚ sessions s ∧
  ∀ fd, connections_ s' !! fd = if decide (fd ∈ order) then None else connections_ s !! fd.
Proof.
  revert s h acts. induction order as [|fd order IH]; intros s h acts; cbn [close_sessions].
  - intros [= <- <- <-]. split; [done|]. intros fd. by rewrite decide_False by apply not_elem_of_nil.
  - destruct (close_session s h fd) as [[s1 h1] a1] eqn:E1.
    destruct (close_sessions s1 h1 order) as [[s2 h2] a2] eqn:E2. intros [= <- <- <-].
    apply close_session_sessions in E1 as (Hp1 & _ & Hc1). apply IH in E2 as [Hp2 Hc2].
    rewrite disconnected_app, <- app_assoc, Hp2. split; [done|]. intros fd'. rewrite Hc2, Hc1.
    destruct (decide (fd' = fd)) as [->|Hne].
    + rewrite lookup_delete_eq, (decide_True (P := fd ∈ fd :: order)) by left. by case_decide.
    + rewrite lookup_delete_ne by done.
      rewrite (decide_ext (fd' ∈ fd :: order) (fd' ∈ order)); [done|]. rewrite elem_of_cons. tauto.
Qed.

(** * Properties *)

(** Sessions are accounted for exactly: over one [poll_once], whatever the
    sockets deliver and the handler answers, the sessions that were live or newly
    accepted are those still live plus those whose end was reported to the handler,
    each once; ids in use stay distinct and new ones are fresh (as long as the
    64-bit counter does not wrap). *)
Theorem sessions_conserved s (h : H) ready listener_pollin accepts events s' h' acts st :
  server_inv s → next_session_id_ s + Z.of_nat (length accepts) <= U64_MAX →
  poll_once s h ready listener_pollin accepts events = (s', h', acts, st) →
  server_inv s' ∧
  ∃ new, disconnected acts ++ sessions s' ≡ₚ sessions s ++ new ∧ NoDup (sessions s ++ new) ∧
    Forall (λ id, next_session_id_ s <= id < next_session_id_ s') new.
Proof.
  intros (Hnd & Hlt & H1) Hmax Hp.
  assert (∃ new, disconnected acts ++ sessions s' ≡ₚ sessions s ++ new ∧ NoDup new ∧
    Forall (λ id, next_session_id_ s <= id < next_session_id_ s') new ∧
    next_session_id_ s <= next_session_id_ s') as (new & Hperm & Hnew & Hf & Hle).
  { unfold poll_once in Hp.
    assert (∀ s0 : IpcServer, s0 = s → ∃ new, disconnected [] ++ sessions s0 ≡ₚ sessions s ++ new ∧
      NoDup new ∧ Forall (λ id, next_session_id_ s <= id < next_session_id_ s0) new ∧
      next_session_id_ s <= next_session_id_ s0) as Hid.
    { intros s0 ->. exists []. rewrite app_nil_r. split; [done|]. split; [constructor|].
      split; [constructor|lia]. }
    destruct (negb (running s)); [injection Hp as <- <- <- <-; by apply Hid|].
    destruct ready as [r|e]; [|injection Hp as <- <- <- <-; by apply Hid].
    destruct (r =? 0); [injection Hp as <- <- <- <-; by apply Hid|].
    destruct (if listener_pollin then _ else _) as [s1 ast] eqn:Ha.
    assert (∃ new, sessions s1 ≡ₚ sessions s ++ new ∧ NoDup new ∧
      Forall (λ id, next_session_id_ s <= id < next_session_id_ s1) new ∧
      next_session_id_ s <= next_session_id_ s1) as (new & Hs1 & Hn1 & Hf1 & Hle1).
    { destruct listener_pollin; [by eapply accept_sessions|]. injection Ha as <- <-. by apply Hid. }
    exists new. destruct (negb (ast =? 0)); [by injection Hp as <- <- <- <-|].
    destruct (serve_events s1 h events) as [[s2 h2] a2] eqn:E2. injection Hp as <- <- <- <-.
    apply serve_events_sessions in E2 as [Hp2 ->]. by rewrite Hp2. }
  assert (NoDup (sessions s ++ new)) as Hall.
  { apply NoDup_app. split; [done|]. split; [|done]. intros id Hin Hin'.
    apply (proj1 (Forall_forall _ _) Hlt) in Hin. apply (proj1 (Forall_forall _ _) Hf) in Hin'.
    simpl in *. lia. }
  split; [|by exists new].
  assert (NoDup (disconnected acts ++ sessions s')) as Hnd' by by rewrite Hperm.
  split; [by apply NoDup_app in Hnd' as (_ & _ & ?)|]. split; [|lia].
  apply Forall_forall. intros id Hin.
  assert (id ∈ sessions s ++ new) as [Hin'|Hin']%elem_of_app
    by (rewrite <- Hperm; apply elem_of_app; by right).
  - apply (proj1 (Forall_forall _ _) Hlt) in Hin'. simpl in Hin'. lia.
  - apply (proj1 (Forall_forall _ _) Hf) in Hin'. simpl in Hin'. lia.
Qed.

(** Closing the server reports the end of every live session to the handler
    exactly once, in whatever order the map yields them, and leaves no connection
    and no listener. *)
Theorem close_disconnects_all s (h : H) order path s' h' acts :
  order ≡ₚ (map_to_list (connections_ s)).*1 →
  server_close s h order path = (s', h', acts) →
  connections_ s' = ∅ ∧ disconnected acts ≡ₚ sessions s ∧ running s' = false ∧
  owns_socket_path_ s' = false.
Proof.
  intros Hord. unfold server_close.
  destruct (close_sessions s h order) as [[s1 h1] a1] eqn:E1. intros [= <- <- <-].
  apply close_sessions_all in E1 as [Hp Hc].
  assert (connections_ s1 = ∅) as He.
  { apply map_eq. intros fd. rewrite Hc, lookup_empty. case_decide as Hin; [done|].
    apply eq_None_not_Some. intros [id Hid]. apply Hin. rewrite Hord.
    apply list_elem_of_fmap. exists (fd, id). split; [done|]. by apply elem_of_map_to_list. }
  unfold sessions in Hp at 1. rewrite He, map_to_list_empty, app_nil_r in Hp. done.
Qed.

(** A kernel that takes whole packets. *)
Definition send_all (p : Packet) : result Z := Ok (Z.of_nat (length (packet_bytes p))).

(** What a client may ask and what a handler may answer. *)
Record call_ok (c : IpcClient) (m : Z) (payload : list byte) (fds : list Z) : Prop := {
  co_connected : connected c = true;
  co_method : m ≠ 0 ∧ is_u32 m;
  co_id : is_u64 (next_request_id_ c);
  co_payload : Z.of_nat (length payload) <= kMaxPayloadSize;
  co_fds : Z.of_nat (length fds) <= kMaxFileDescriptors ∧ Forall (λ fd, 0 <= fd) fds;
}.
Record answer_ok (r : IpcMessage) : Prop := {
  ao_payload : Z.of_nat (length (payload r)) <= kMaxPayloadSize;
  ao_fds : Z.of_nat (length (file_descriptors r)) <= kMaxFileDescriptors ∧
           Forall (λ fd, 0 <= fd) (file_descriptors r);
  ao_status : - 2147483648 <= status (envelope r) <= I32_MAX;
}.

Lemma request_sendable c m p fds : call_ok c m p fds → sendable (request_message c m p fds).
Proof. intros []. split; cbn; try done; try tauto; ulia. Qed.

Lemma reply_sendable e r :
  is_u32 (method e) → is_u64 (request_id e) → answer_ok r → sendable (reply_message e (Some r)).
Proof. intros ?? []. split; cbn; try done; try tauto. Qed.

(** (C27) A remote call works end to end.  The client's packet, with the files behind its
    descriptors, is delivered to the server, which runs the handler once, under the session
    of that connection, on exactly the request that was sent and with descriptors of its own
    for the same files.  The reply the server then sends, delivered to the client, is
    accepted as the answer to this call, with the handler's status and payload and with
    descriptors of the client for the files the handler returned.  The descriptor tables of
    the two processes may change while the handler runs. *)
Theorem rpc_roundtrip {F : Type} `{DescriptorAllocation F} c srv m p fds server_fd session
    (client server : gmap Z F) :
  call_ok c m p fds → open_in client fds → 0 <= server_fd → connections_ srv !! server_fd = Some session →
  let request := request_message c m p fds in
  ∃ arrived server1 received,
    deliver client server (send_packet request) = Some (arrived, server1) ∧
    receive_message server_fd arrived = (message (mkMessage (set_lengths request) p received), []) ∧
    same_files client fds server1 received ∧
    ∀ (h h' : H) r (server2 client2 : gmap Z F),
      handle h session (mkMessage (set_lengths request) p received) = (h', Some r) →
      answer_ok r → open_in server2 (file_descriptors r) →
      ∃ reply answered client3 response,
        serve_event srv h (mkEvent server_fd true false false arrived send_all)
        = (srv, h', [Reply server_fd reply]) ∧
        deliver server2 client2 reply = Some (answered, client3) ∧
        (call send_all (λ _, answered) c m p fds).1
        = (mkClient (socket_ c) (next_id (next_request_id_ c)), Ok response) ∧
        status (envelope response) = status (envelope r) ∧ payload response = payload r ∧
        same_files server2 (file_descriptors r) client3 (file_descriptors response).
Proof.
  intros Hc Hopen Hfd Hconn request.
  pose proof (request_sendable _ _ _ _ Hc) as Hsq. destruct Hc.
  destruct (send_deliver_receive request client server server_fd Hsq Hfd Hopen)
    as (arrived & server1 & received & Hd & Hrecv & Hsame & _).
  exists arrived, server1, received. do 3 (split; [done|]). intros h h' r server2 client2 Hh Hr Ho.
  set (reply := reply_message (envelope request) (Some r)).
  assert (sendable reply) as Hsr by (apply reply_sendable; cbn; tauto).
  unfold connected, fd_valid in co_connected0. apply Z.leb_le in co_connected0 as Hsock.
  destruct (send_deliver_receive reply server2 client2 (socket_ c) Hsr Hsock Ho)
    as (answered & client3 & got & Hd2 & Hrecv2 & Hsame2 & _).
  exists (send_packet reply), answered, client3, (mkMessage (set_lengths reply) (payload r) got).
  split_and!; [|done| |done..].
  - unfold serve_event. cbn [ev_fd pollin pollerr_or_nval pollhup ev_delivery ev_sendmsg].
    rewrite Hconn, Hrecv. cbn [fst]. change (payload request) with p. rewrite Hh. cbn [envelope].
    change (reply_message (set_lengths request) (Some r)) with reply. by rewrite send_whole by done.
  - unfold call, connected, fd_valid. rewrite co_connected0, (proj2 (Z.eqb_neq m 0)) by tauto. cbn [negb].
    change (request_message c m p fds) with request. rewrite send_whole by done. cbn [negb Z.eqb]. rewrite Hrecv2.
    cbn [envelope flags request_id method set_lengths reply reply_message request request_message payload].
    rewrite !Z.eqb_refl. done.
Qed.

End Sessions.

(** ** Witnesses *)

(** A handler that counts requests and echoes their payload. *)
#[local] Instance echo_handler : IpcHandler Z := {
  handle h session m := (h + 1, Some (mkMessage default_envelope (payload m) []));
  on_disconnect h session := h - 1;
}.

Definition demo_client : IpcClient := mkClient 3 17.
Definition demo_server : IpcServer := mkServer 4 {[ 8 := 1; 9 := 2 ]} [Byte.x61] 0 0 3 true.

Lemma sessions_conserved_witness :
  ∃ new, disconnected [Disconnected 1] ++
    sessions (mkServer 4 {[ 9 := 2; 10 := 3 ]} [Byte.x61] 0 0 4 true) ≡ₚ sessions demo_server ++ new ∧
    Forall (λ id, 3 <= id < 4) new.
Proof.
  destruct (sessions_conserved demo_server 0 (Ok 1) true [Ok 10; Err EAGAIN]
    [mkEvent 8 true false false (delivered [] false []) send_all]
    (mkServer 4 {[ 9 := 2; 10 := 3 ]} [Byte.x61] 0 0 4 true) (-1) [Disconnected 1] 0)
    as (_ & new & Hp & _ & Hf).
  - split; [|split]; [apply (bool_decide_eq_true_1 _); by vm_compute|by repeat constructor|by vm_compute].
  - by vm_compute.
  - by vm_compute.
  - exists new. split; [exact Hp|exact Hf].
Defined.

Lemma close_disconnects_all_witness :
  disconnected (server_close demo_server 0 [9; 8] (lstat_failed ENOENT)).2 ≡ₚ sessions demo_server.
Proof.
  apply (close_disconnects_all demo_server 0 [9; 8] (lstat_failed ENOENT)
    (mkServer (-1) ∅ [] 0 0 3 false) (-2)
    (server_close demo_server 0 [9; 8] (lstat_failed ENOENT)).2); [|by vm_compute].
  vm_compute. repeat constructor.
Defined.

(** A handler that counts requests and gives back their payload and their first descriptor. *)
Definition return_first : IpcHandler Z := {|
  handle h session m := (h + 1, Some (mkMessage default_envelope (payload m) (take 1 (file_descriptors m))));
  on_disconnect h session := h - 1;
|}.
#[local] Instance past_all_numbers F : DescriptorAllocation F :=
  {| new_descriptor := past_all; new_descriptor_free := past_all_free |}.

(** The client passes two files and gets the first of them back, as its descriptor 6. *)
Lemma rpc_roundtrip_witness :
  let client : gmap Z Z := {[ 3 := 100; 4 := 101; 5 := 102 ]} in
  ∃ arrived server1,
    deliver client {[ 8 := 100 ]} (send_packet (request_message demo_client 5 [Byte.x01] [4; 5])) =
      Some (arrived, server1) ∧ server1 !! 9 = Some 101 ∧ server1 !! 10 = Some 102 ∧
    ∃ reply answered client3 response,
      serve_event (H0 := return_first) demo_server 0 (mkEvent 8 true false false arrived send_all) =
        (demo_server, 1, [Reply 8 reply]) ∧
      deliver server1 client reply = Some (answered, client3) ∧
      (call send_all (λ _, answered) demo_client 5 [Byte.x01] [4; 5]).1 = (mkClient 3 18, Ok response) ∧
      payload response = [Byte.x01] ∧ same_files server1 [9] client3 (file_descriptors response) ∧
      file_descriptors response = [6] ∧ client3 !! 6 = Some 101.
Proof.
  intros client.
  destruct (rpc_roundtrip (H0 := return_first) (F := Z) demo_client demo_server 5 [Byte.x01] [4; 5] 8 1
    client {[ 8 := 100 ]}) as (arrived & server1 & received & Hd & Hrecv & _ & Hrest);
    [split; try done; split; (done || by repeat constructor)|repeat constructor; eexists; by vm_compute|done|done|].
  assert (received = [9; 10]) as -> by
    (vm_compute in Hd; injection Hd as <- _; vm_compute in Hrecv; injection Hrecv as <-; reflexivity).
  assert (server1 !! 9 = Some 101 ∧ server1 !! 10 = Some 102) as [H9 H10] by
    (clear - Hd; vm_compute in Hd; injection Hd as _ <-; split; reflexivity).
  exists arrived, server1. do 3 (split; [done|]).
  destruct (Hrest 0 1 (mkMessage default_envelope [Byte.x01] [9]) server1 client)
    as (reply & answered & client3 & response & H1 & H2 & H3 & _ & H5 & H6);
    [reflexivity|split; try done; split; (done || by repeat constructor)|by repeat constructor|].
  exists reply, answered, client3, response. split; [exact H1|]. split; [exact H2|]. split; [exact H3|].
  split; [exact H5|]. split; [exact H6|].
  vm_compute in Hd. injection Hd as <- <-. vm_compute in H1. injection H1 as <-.
  vm_compute in H2. injection H2 as <- <-. vm_compute in H3. injection H3 as <-. split; reflexivity.
Defined.

End IpcSession.
