(* ===== verification/Control.v ===== *)
(** The control service interface and its IPC handler (src/control/control.hpp,
    control.cpp): requests are decoded, given to a [ControlService] and its response
    encoded; requests that do not decode are answered without reaching the service. *)

From S2P Require Import Prelude Protocol Adapter IpcSession.
Import Protocol Adapter.

Module Control.

Record ControlServiceResult := mkResult {
  response : UgdrControlResponse;
  result_fds : list Z;
}.

(** [response.method] and [response.status] set, the rest default. *)
Definition response_for (request : UgdrControlRequest) (status : Z) : ControlServiceResult :=
  mkResult (mkResponse (rq_method request) status 0 [] []) [].

End Control.
Import Control.

(** [control::ControlService]: a session's request with its descriptors, and the end
    of a session. *)
Class ControlService (S : Type) := {
  serve : S → Z → UgdrControlRequest → list Z → S * ControlServiceResult;
  disconnect : S → Z → S;
}.

Module ControlHandler.

(** [UnsupportedControlService]. *)
#[export] Instance UnsupportedControlService : ControlService unit := {|
  serve s _ request _ :=
    (s, mkResult (mkResponse (rq_method request) EOPNOTSUPP (rq_object_identity request) [] []) []);
  disconnect s _ := s;
|}.

Section Handler.
Context {S : Type} `{ControlService S}.

(** [IpcMessage{}] with a method and a status. *)
Definition status_message (method status : Z) : IpcMessage :=
  mkMessage (mkEnvelope kProtocolMagic kProtocolMajor kProtocolMinor method 0 0 status 0 0) [] [].

Definition with_method (r : UgdrControlResponse) (method : Z) : UgdrControlResponse :=
  mkResponse method (rs_status r) (rs_object_identity r) (rs_opaque r) (rs_fd_indices r).

Definition control_handle (service : S) (session_id : Z) (request : IpcMessage) : S * IpcMessage :=
  let method := method (envelope request) in
  match decode_request request with
  | Err decode_status => (service, status_message method (- decode_status))
  | Ok (decoded, fds) =>
      let '(service, result) := serve service session_id decoded fds in
      match encode_response (with_method (response result) method) (result_fds result) with
      | Err encode_status => (service, status_message method (- encode_status))
      | Ok response => (service, response)
      end
  end.

(** [ControlIpcHandler] as the handler of the IPC server. *)
#[export] Instance ControlIpcHandler : IpcHandler S := {|
  handle service session_id request :=
    let '(service, m) := control_handle service session_id request in (service, Some m);
  on_disconnect := disconnect;
|}.

(** * Properties *)

(** What the client's [decode_response] sees of the handler's answer, once the server
    has stamped the envelope. *)
Definition answered (request : Envelope) (m : IpcMessage) : result (UgdrControlResponse * list Z) :=
  decode_response (IpcSession.reply_message request (Some m)).

Lemma decode_stamped r fds m e :
  encode_response r fds = Ok m → is_u64 (rs_object_identity r) → Forall is_u32 (rs_fd_indices r) →
  method e = rs_method r → answered e m = Ok (r, fds).
Proof.
  intros He Hid Hix Hm. unfold answered. rewrite <- (decode_encode_response _ _ _ Hid Hix He).
  apply encode_response_ok in He as (_ & _ & _ & _ & ->). unfold decode_response.
  cbn [IpcSession.reply_message envelope payload file_descriptors method flags fd_count
       payload_length status]. by rewrite Hm.
Qed.

(** A control call works end to end: what a client encodes reaches the service
    unchanged, and what the service answers reaches the client unchanged, the method
    being the request's; the service runs exactly once.  Only an answer that does not
    fit a message is replaced by an error status. *)
Theorem control_call_roundtrip (service service' : S) session_id r fds m e result :
  request_ok r → encode_request r fds = Ok m → method e = rq_method r →
  serve service session_id r fds = (service', result) →
  is_u64 (rs_object_identity (response result)) → Forall is_u32 (rs_fd_indices (response result)) →
  ∃ answer, control_handle service session_id m = (service', answer) ∧
    match encode_response (with_method (response result) (rq_method r)) (result_fds result) with
    | Ok _ => answered e answer = Ok (with_method (response result) (rq_method r), result_fds result)
    | Err status => answer = status_message (rq_method r) (- status)
    end.
Proof.
  intros Hr He Hm Hs Hid Hix. unfold control_handle. rewrite (decode_encode_request _ _ _ Hr He), Hs.
  apply encode_request_ok in He as (_ & _ & _ & _ & ->). cbn [envelope method].
  destruct (encode_response _ _) as [answer|status] eqn:Ha; eexists; (split; [done|]); [|done].
  by apply decode_stamped.
Qed.

(** A message that does not decode never reaches the service: its state is
    unchanged, and the client is told the error. *)
Theorem malformed_request_rejected (service : S) session_id m status :
  decode_request m = Err status →
  control_handle service session_id m =
    (service, status_message (method (envelope m)) (- status)) ∧ 0 < - status.
Proof.
  intros Hd. unfold control_handle. rewrite Hd. split; [done|].
  unfold decode_request in Hd. repeat case_match; simplify_eq; by vm_compute.
Qed.

End Handler.

Definition demo_unsupported : UgdrControlRequest := mkRequest 3 72057594054705152 0 0 [] [].
Definition demo_unsupported_message : IpcMessage :=
  match encode_request demo_unsupported [] with Ok m => m | Err _ => default_message end.

Lemma control_call_roundtrip_witness :
  answered (mkEnvelope 0 0 0 3 0 1 0 0 0) (control_handle tt 1 demo_unsupported_message).2 =
  Ok (mkResponse 3 EOPNOTSUPP 72057594054705152 [] [], []).
Proof.
  destruct (control_call_roundtrip tt tt 1 demo_unsupported [] demo_unsupported_message
    (mkEnvelope 0 0 0 3 0 1 0 0 0) (serve tt 1 demo_unsupported []).2)
    as (answer & Ha & Hr); [|by vm_compute|done|done|by vm_compute|constructor|].
  { split; [by vm_compute|by vm_compute|by vm_compute|constructor]. }
  rewrite Ha. exact Hr.
Defined.

Lemma malformed_request_rejected_witness :
  control_handle tt 1 default_message = (tt, status_message 0 EINVAL).
Proof. apply (malformed_request_rejected tt 1 default_message (- EINVAL)). by vm_compute. Defined.

End ControlHandler.
