(* ===== verification/DeviceContext.v ===== *)
(** Devices and contexts of the daemon (src/control/device_context.hpp,
    device_context.cpp): the device list and its wire form, and the base class of
    the control service, which owns the contexts of the sessions. *)

From S2P Require Import Prelude Wire ObjectIdentity ObjectRegistry Protocol Adapter Control.
Import Wire Registry Adapter Control.

Module DeviceContext.

(** * Data *)

(** [other_method] stands for the values a cast can produce outside the enumerators. *)
Inductive ControlMethod : Set :=
| list_devices | create_context | destroy_context | create_pd | destroy_pd | register_mr
| deregister_mr | create_cq | destroy_cq | create_qp | destroy_qp | query_qp | modify_qp
| query_qp_conn_info | connect_qp | other_method (code : Z).
#[export] Instance ControlMethod_eq_dec : EqDecision ControlMethod.
Proof. solve_decision. Defined.

Definition method_code (m : ControlMethod) : Z :=
  match m with
  | list_devices => 1 | create_context => 2 | destroy_context => 3 | create_pd => 4
  | destroy_pd => 5 | register_mr => 6 | deregister_mr => 7 | create_cq => 8 | destroy_cq => 9
  | create_qp => 10 | destroy_qp => 11 | query_qp => 12 | modify_qp => 13
  | query_qp_conn_info => 14 | connect_qp => 15 | other_method c => c
  end.

Definition named_methods : list ControlMethod :=
  [list_devices; create_context; destroy_context; create_pd; destroy_pd; register_mr;
   deregister_mr; create_cq; destroy_cq; create_qp; destroy_qp; query_qp; modify_qp;
   query_qp_conn_info; connect_qp].

(** [static_cast<ControlMethod>(code)]. *)
Definition method_of_code (code : Z) : ControlMethod :=
  default (other_method code) (hd_error (filter (λ m, method_code m = code) named_methods)).

Record DeviceDescriptor := mkDevice { identity : Z; name : list byte }.

Record ContextRecord := mkContext { device_identity : Z; child_count : Z }.

(** [catalog_] is the device list of the [DeviceCatalog]. *)
Record DeviceContextService := mkDeviceService {
  catalog_ : list DeviceDescriptor;
  contexts_ : @GenerationRegistry ContextRecord;
}.

(** * Requests *)

(** A request with only a method and an object. *)
Definition object_request (m : ControlMethod) (object : Z) : UgdrControlRequest :=
  mkRequest (method_code m) object 0 0 [] [].

Definition make_list_devices_request : UgdrControlRequest := object_request list_devices 0.
Definition make_create_context_request (device : Z) : UgdrControlRequest :=
  object_request create_context device.
Definition make_destroy_context_request (context : Z) : UgdrControlRequest :=
  object_request destroy_context context.

(** [request_shape_is_empty] of device_context.cpp, [empty_shape] of pd_mr_cq.cpp
    and qp.cpp. *)
Definition empty_shape_except_payload (r : UgdrControlRequest) (fds : list Z) : bool :=
  (rq_length r =? 0) && (rq_access r =? 0) && bool_decide (rq_fd_indices r = []) &&
  bool_decide (fds = []).
Definition empty_shape (r : UgdrControlRequest) (fds : list Z) : bool :=
  empty_shape_except_payload r fds && bool_decide (rq_opaque r = []).

(** * The device list *)

Definition kMaxDeviceNameLength : Z := 255.

(** The first loop of [encode_device_list]: the encoded size, or the error. *)
Fixpoint device_list_size (total : Z) (devices : list DeviceDescriptor) : result Z :=
  match devices with
  | [] => Ok total
  | d :: devices =>
      if (identity d =? 0) || (kMaxDeviceNameLength <? size (name d)) then Err EINVAL
      else
        let total := total + (8 + 2 + size (name d)) in
        if Protocol.kMaxPayloadSize <? total then Err EMSGSIZE else device_list_size total devices
  end.

Definition append_device (bytes : list byte) (d : DeviceDescriptor) : list byte :=
  append 2 (htons (u16 (size (name d)))) (append 8 (host_to_network64 (identity d)) bytes) ++ name d.

Definition encode_device_list (devices : list DeviceDescriptor) : result (list byte) :=
  if U32_MAX <? size devices then Err EINVAL
  else
    _ ← device_list_size 4 devices;
    Ok (foldl append_device (append 4 (htonl (u32 (size devices))) []) devices).

(** The loop of [decode_device_list] over the remaining [count] devices. *)
Fixpoint decode_devices (bytes : list byte) (offset : nat) (count : nat)
  : result (list DeviceDescriptor * nat) :=
  match count with
  | O => Ok ([], offset)
  | S count =>
      match '(wire_identity, offset) ← read bytes offset 8;
            '(wire_name_length, offset) ← read bytes offset 2;
            Some (wire_identity, wire_name_length, offset) with
      | None => Err EPROTO
      | Some (wire_identity, wire_name_length, offset) =>
          let name_length := ntohs wire_name_length in
          let identity := network_to_host64 wire_identity in
          if (identity =? 0) || (size bytes - Z.of_nat offset <? name_length) then Err EPROTO
          else
            let n := Z.to_nat name_length in
            '(l, offset') ← decode_devices bytes (offset + n) count;
            Ok (mkDevice identity (take n (drop offset bytes)) :: l, offset')
      end
  end.

Definition decode_device_list (bytes : list byte) : result (list DeviceDescriptor) :=
  match read bytes 0 4 with
  | None => Err EPROTO
  | Some (wire_count, offset) =>
      let count := ntohl wire_count in
      if (size bytes - Z.of_nat offset) / 10 <? count then Err EPROTO
      else
        '(devices, offset) ← decode_devices bytes offset (Z.to_nat count);
        if negb (Z.of_nat offset =? size bytes) then Err EPROTO else Ok devices
  end.

(** * The service *)

(** [DeviceCatalog()]: one device, [{1, 'ugdr0'}]. *)
Definition default_catalog : list DeviceDescriptor :=
  [mkDevice 1 [Byte.x75; Byte.x67; Byte.x64; Byte.x72; Byte.x30]].

Definition catalog_contains (devices : list DeviceDescriptor) (id : Z) : bool :=
  existsb (λ d, identity d =? id) devices.

Definition new_device_service (catalog : list DeviceDescriptor) : DeviceContextService :=
  mkDeviceService catalog (new_registry 1).

Definition resolve_context (s : DeviceContextService) (session_id id : Z) : option ContextRecord :=
  resolve ObjectIdentity.context (contexts_ s) session_id id.

Definition with_contexts (s : DeviceContextService) (r : @GenerationRegistry ContextRecord)
  : DeviceContextService := mkDeviceService (catalog_ s) r.

(** [++context->child_count] and [--context->child_count] through the pointer
    [resolve_context] returned. *)
Definition add_child (s : DeviceContextService) (id delta : Z) : DeviceContextService :=
  with_contexts s (modify ObjectIdentity.context (contexts_ s) id
    (λ c, mkContext (device_identity c) (u64 (child_count c + delta)))).

Definition device_handle (s : DeviceContextService) (session_id : Z) (r : UgdrControlRequest)
    (fds : list Z) : DeviceContextService * ControlServiceResult :=
  if negb (empty_shape r fds) then (s, response_for r EINVAL)
  else match method_of_code (rq_method r) with
  | list_devices =>
      if negb (rq_object_identity r =? 0) then (s, response_for r EINVAL)
      else match encode_device_list (catalog_ s) with
           | Ok bytes => (s, mkResult (mkResponse (rq_method r) 0 0 bytes []) [])
           | Err e => (s, response_for r e)
           end
  | create_context =>
      if negb (catalog_contains (catalog_ s) (rq_object_identity r)) then (s, response_for r EINVAL)
      else match insert ObjectIdentity.context (contexts_ s) session_id
                   (mkContext (rq_object_identity r) 0) with
           | (c, Some id) => (with_contexts s c, mkResult (mkResponse (rq_method r) 0 id [] []) [])
           | (c, None) => (with_contexts s c, response_for r ENOSPC)
           end
  | destroy_context =>
      match resolve_context s session_id (rq_object_identity r) with
      | None => (s, response_for r EINVAL)
      | Some ctx =>
          if negb (child_count ctx =? 0) then (s, response_for r EBUSY)
          else let '(c, status) := erase ObjectIdentity.context (contexts_ s) session_id
                                     (rq_object_identity r) in
               (with_contexts s c, response_for r status)
      end
  | _ => (s, response_for r EOPNOTSUPP)
  end.

Definition device_disconnect (s : DeviceContextService) (session_id : Z) : DeviceContextService :=
  with_contexts s (erase_session (contexts_ s) session_id).1.

Definition context_count (s : DeviceContextService) : Z := registry_size (contexts_ s).

(** * Lemmas on the device list *)

Definition device_bytes (d : DeviceDescriptor) : list byte :=
  le_split 8 (host_to_network64 (identity d)) ++ le_split 2 (htons (u16 (size (name d)))) ++ name d.

Lemma append_devices_eq ds bytes :
  foldl append_device bytes ds = bytes ++ concat (device_bytes <$> ds).
Proof.
  revert bytes. induction ds as [|d ds IH]; intros bytes; cbn [foldl fmap list_fmap concat];
    [by rewrite app_nil_r|].
  rewrite IH. unfold append_device, append, device_bytes. by rewrite <- !app_assoc.
Qed.

Definition device_wf (d : DeviceDescriptor) : Prop :=
  is_u64 (identity d) ∧ identity d ≠ 0 ∧ size (name d) <= kMaxDeviceNameLength.

Lemma device_list_size_ok total ds n :
  Forall (λ d, is_u64 (identity d)) ds → device_list_size total ds = Ok n → Forall device_wf ds.
Proof.
  revert total. induction ds as [|d ds IH]; intros total Hu; simpl; [done|].
  apply Forall_cons in Hu as [Hd Hds]. destruct (_ || _) eqn:E; [done|]. bool_hyps.
  destruct (_ <? _); [done|]. intros Hs. constructor; [by split_and!|by eapply IH].
Qed.

Lemma length_devices ds :
  Z.of_nat (length (concat (device_bytes <$> ds))) >= 10 * size ds.
Proof.
  unfold size. induction ds as [|d ds IH]; [done|]. cbn [fmap list_fmap concat].
  unfold device_bytes at 1. rewrite !length_app, !length_le_split. cbn [length]. lia.
Qed.

Lemma decode_devices_cursor bytes offset ds rest :
  Forall device_wf ds → cursor bytes offset (concat (device_bytes <$> ds) ++ rest) →
  ∃ offset', decode_devices bytes offset (length ds) = Ok (ds, offset') ∧ cursor bytes offset' rest.
Proof.
  intros Hds. revert offset. induction Hds as [|d ds (Hu & Hne & Hn) Hds IH]; intros offset Hc; [by eexists|].
  cbn [fmap list_fmap concat] in Hc. unfold device_bytes at 1 in Hc. rewrite <- !app_assoc in Hc.
  cbn [length decode_devices]. read_scalars.
  pose proof (Zlength_nonneg (name d)). unfold kMaxDeviceNameLength, size in *.
  assert (u16 (Z.of_nat (length (name d))) = Z.of_nat (length (name d))) as ->
    by (apply Z.mod_small; ulia).
  rewrite ntohs_htons, network_to_host64_host_to_network64 by ulia.
  rewrite (proj2 (Z.eqb_neq _ _) Hne). cbv zeta. rewrite Nat2Z.id.
  match goal with H : cursor bytes ?o (name d ++ _) |- _ =>
    pose proof (cursor_length _ _ _ H) as Hl; rewrite length_app in Hl;
    destruct (IH (o + length (name d))%nat) as (o' & -> & Hc'); [by eapply cursor_skip|];
    destruct H as [_ Hdrop] end.
  rewrite (proj2 (Z.ltb_ge _ _)) by lia. cbn [orb mbind result_bind].
  exists o'. split; [|done]. rewrite Hdrop, take_app_length. by destruct d.
Qed.

(** The device list survives the wire: what the daemon encodes for its catalog,
    the client decodes to the same devices, in order. *)
Theorem device_list_roundtrip ds bytes :
  Forall (λ d, is_u64 (identity d)) ds → encode_device_list ds = Ok bytes →
  decode_device_list bytes = Ok ds.
Proof.
  intros Hu. unfold encode_device_list. destruct (_ <? _) eqn:Hmax; [done|]. bool_hyps.
  destruct (device_list_size 4 ds) as [n|] eqn:Hs; [|done]. cbn [mbind result_bind].
  apply device_list_size_ok in Hs; [|done]. intros <-%Ok_inj.
  rewrite append_devices_eq. unfold append. rewrite app_nil_l. pose proof (length_devices ds) as Hlen.
  match goal with |- decode_device_list ?x = _ => set (b := x) end.
  assert (size b = 4 + Z.of_nat (length (concat (device_bytes <$> ds)))) as Hb.
  { unfold b, size. rewrite length_app, length_le_split. lia. }
  pose proof (cursor_start b) as Hc. unfold b at 2 in Hc. clearbody b.
  unfold decode_device_list. read_scalars.
  pose proof (Zlength_nonneg ds). unfold size in *. rewrite u32_small, ntohl_htonl by ulia.
  rewrite (proj2 (Z.ltb_ge _ _)) by (apply Z.div_le_lower_bound; lia). rewrite Nat2Z.id.
  match goal with H : cursor b ?o _ |- _ =>
    destruct (decode_devices_cursor b o ds []) as (o' & -> & Hc'); [done|by rewrite app_nil_r|] end.
  cbn [mbind result_bind]. apply cursor_length in Hc'. simpl in Hc'.
  by rewrite Hc', Nat.add_0_r, Z.eqb_refl.
Qed.

Definition demo_catalog_bytes : list byte :=
  match encode_device_list default_catalog with Ok b => b | Err _ => [] end.

Lemma device_list_roundtrip_witness : decode_device_list demo_catalog_bytes = Ok default_catalog.
Proof.
  apply device_list_roundtrip; [|by vm_compute]. apply Forall_singleton. by vm_compute.
Defined.

End DeviceContext.
