(* ===== verification/PdMrCq.v ===== *)
(** Protection domains, memory regions and completion queues
    (src/control/pd_mr_cq.hpp, pd_mr_cq.cpp): the payloads of memory registration,
    the handlers of the control service, and the key lookups of the data path.

    CUDA memory sharing is the class [CudaIpcMemoryBackend]
    (src/gpu/cuda_ipc_memory.hpp).  The answers of the system calls that creating and
    duplicating rings make are functions of the state [Kernel], indexed by the number
    of the call.  Destructors that release a ring or a descriptor are written out. *)

From S2P Require Import Prelude Wire ObjectIdentity ObjectRegistry SharedRing Descriptors Protocol.
From S2P Require Import Adapter QueueDescriptors Control DeviceContext.
Import Wire Registry Ring Adapter QueueDescriptors Control DeviceContext.

(** * Shared CUDA memory *)

Module CudaIpc.

Definition kGpuUuidSize : nat := 16.
Definition kMaxCudaIpcHandleSize : Z := 256.

Record ExportedCudaMemory := mkExported {
  gpu_uuid : list byte; client_address : Z; allocation_size : Z; allocation_offset : Z;
  length_ : Z; ipc_handle : list byte;
}.
Record CudaIpcMapping := mkMapping { mapping_uuid : list byte; daemon_base_address : Z }.

End CudaIpc.
Import CudaIpc.

Class CudaIpcMemoryBackend (M : Type) := {
  mem_open : M → ExportedCudaMemory → M * result CudaIpcMapping;
  mem_close : M → CudaIpcMapping → M * Z;
}.

Module PdMrCq.

(** * The system calls of ring creation *)

Record Kernel := mkKernel {
  ring_answers : nat → RingSystem; dup_answers : nat → result Z;
  ring_calls : nat; dup_calls : nat; resources : RingResources;
}.

Definition with_resources (k : Kernel) (os : RingResources) : Kernel :=
  mkKernel (ring_answers k) (dup_answers k) (ring_calls k) (dup_calls k) os.

Definition new_ring (k : Kernel) (d : QueueDescriptor) : Kernel * result SharedRing :=
  let '(os, r) := create_shared_ring (ring_answers k (ring_calls k)) (resources k) d no_ring in
  (mkKernel (ring_answers k) (dup_answers k) (S (ring_calls k)) (dup_calls k) os, fst <$> r).

Definition dup_ring (k : Kernel) (ring : SharedRing) : Kernel * result Z :=
  let answer := duplicate_fd (dup_answers k (dup_calls k)) ring in
  let os := match answer with
            | Ok fd => mkResources (open_fds (resources k) ∪ {[fd]}) (live_mappings (resources k))
            | Err _ => resources k
            end in
  (mkKernel (ring_answers k) (dup_answers k) (ring_calls k) (S (dup_calls k)) os, answer).

(** [~SharedRing] and [~UniqueFd]. *)
Definition drop_ring (k : Kernel) (ring : SharedRing) : Kernel :=
  with_resources k (reset (resources k) ring).1.
Definition drop_fd (k : Kernel) (fd : Z) : Kernel := with_resources k (close_fd (resources k) fd).

(** * Data *)

Definition kMrPayloadVersion : Z := 1.
Definition kAccessLocalWrite : Z := 1.
Definition kAccessRemoteWrite : Z := 2.
Definition kMrRegistrationFixedSize : nat := 48.
Definition kMrRegistrationResultSize : nat := 28.

Record MrRegistrationResult := mkMrResult {
  res_client_address : Z; res_length : Z; res_lkey : Z; res_rkey : Z;
}.

Record PdRecord := mkPd {
  pd_context : Z;
  mr_identities : gset Z;
  local_key_index : gmap Z Z;
  remote_key_index : gmap Z Z;
  qp_count : Z;
}.

Record MrRecord := mkMr {
  mr_context : Z; mr_pd : Z; mr_uuid : list byte; mr_client_address : Z; mr_allocation_size : Z;
  mr_allocation_offset : Z; mr_daemon_address : Z; mr_length : Z; mr_access : Z;
  mr_lkey : Z; mr_rkey : Z; work_request_references : Z; mr_mapping : CudaIpcMapping;
}.

Record CqRecord := mkCq { cq_context : Z; cqe : Z; qp_references : Z; completions : SharedRing }.

(** * Payloads *)

Definition uuid_is_zero (uuid : list byte) : bool := forallb (λ b, byte.unsigned b =? 0) uuid.

Definition valid_memory (m : ExportedCudaMemory) : bool :=
  negb (uuid_is_zero (gpu_uuid m) || (client_address m =? 0) || (length_ m =? 0)
        || (allocation_size m =? 0) || (allocation_size m <? allocation_offset m)
        || (u64 (allocation_size m - allocation_offset m) <? length_ m)
        || (client_address m <? allocation_offset m) || (size (ipc_handle m) =? 0)
        || (kMaxCudaIpcHandleSize <? size (ipc_handle m))).

Definition valid_access (access : Z) : bool :=
  (Z.land access (U32_MAX - (kAccessLocalWrite + kAccessRemoteWrite)) =? 0) &&
  ((Z.land access kAccessRemoteWrite =? 0) || negb (Z.land access kAccessLocalWrite =? 0)).

Definition encode_mr_registration (m : ExportedCudaMemory) : result (list byte) :=
  if negb (valid_memory m) then Err EINVAL
  else
    let p := append 2 (htons kMrPayloadVersion) [] in
    let p := append 2 0 p in
    let p := p ++ gpu_uuid m in
    let p := append 8 (host_to_network64 (client_address m)) p in
    let p := append 8 (host_to_network64 (allocation_size m)) p in
    let p := append 8 (host_to_network64 (allocation_offset m)) p in
    let p := append 4 (htonl (u32 (size (ipc_handle m)))) p in
    Ok (p ++ ipc_handle m).

Definition decode_mr_registration (bytes : list byte) (len : Z) : result ExportedCudaMemory :=
  if (length bytes <? kMrRegistrationFixedSize)%nat then Err EPROTO
  else match '(version, offset) ← read bytes 0 2; '(reserved, offset) ← read bytes offset 2;
             Some (version, reserved, offset) with
  | None => Err EPROTO
  | Some (version, reserved, offset) =>
      if negb (ntohs version =? kMrPayloadVersion) then Err EPROTONOSUPPORT
      else if negb (reserved =? 0) then Err EPROTO
      else
        let uuid := take kGpuUuidSize (drop offset bytes) in
        let offset := (offset + kGpuUuidSize)%nat in
        match '(address, offset) ← read bytes offset 8; '(alloc, offset) ← read bytes offset 8;
              '(alloc_offset, offset) ← read bytes offset 8; '(handle, offset) ← read bytes offset 4;
              Some (address, alloc, alloc_offset, handle, offset) with
        | None => Err EPROTO
        | Some (address, alloc, alloc_offset, handle, offset) =>
            let handle_size := ntohl handle in
            if (handle_size =? 0) || (kMaxCudaIpcHandleSize <? handle_size)
               || negb (handle_size =? size bytes - Z.of_nat offset)
            then Err EPROTO
            else
              let decoded := mkExported uuid (network_to_host64 address) (network_to_host64 alloc)
                               (network_to_host64 alloc_offset) len (drop offset bytes) in
              if negb (valid_memory decoded) then Err EINVAL else Ok decoded
        end
  end.

Definition encode_mr_registration_result (r : MrRegistrationResult) : result (list byte) :=
  if (res_client_address r =? 0) || (res_length r =? 0) || (res_lkey r =? 0) || (res_rkey r =? 0)
  then Err EINVAL
  else
    let p := append 2 (htons kMrPayloadVersion) [] in
    let p := append 2 0 p in
    let p := append 8 (host_to_network64 (res_client_address r)) p in
    let p := append 8 (host_to_network64 (res_length r)) p in
    let p := append 4 (htonl (res_lkey r)) p in
    Ok (append 4 (htonl (res_rkey r)) p).

Definition decode_mr_registration_result (bytes : list byte) : result MrRegistrationResult :=
  if negb (length bytes =? kMrRegistrationResultSize)%nat then Err EPROTO
  else match '(version, offset) ← read bytes 0 2; '(reserved, offset) ← read bytes offset 2;
             '(address, offset) ← read bytes offset 8; '(len, offset) ← read bytes offset 8;
             '(lkey, offset) ← read bytes offset 4; '(rkey, offset) ← read bytes offset 4;
             Some (version, reserved, address, len, lkey, rkey) with
  | None => Err EPROTO
  | Some (version, reserved, address, len, lkey, rkey) =>
      if negb (ntohs version =? kMrPayloadVersion) || negb (reserved =? 0) then Err EPROTO
      else
        let r := mkMrResult (network_to_host64 address) (network_to_host64 len) (ntohl lkey)
                   (ntohl rkey) in
        if (res_client_address r =? 0) || (res_length r =? 0) || (res_lkey r =? 0)
           || (res_rkey r =? 0)
        then Err EPROTO else Ok r
  end.

(** ** Requests *)

Definition make_create_pd_request (context : Z) : UgdrControlRequest := object_request create_pd context.
Definition make_destroy_pd_request (id : Z) : UgdrControlRequest := object_request destroy_pd id.
Definition make_register_mr_request (id : Z) (m : ExportedCudaMemory) (access : Z)
  : UgdrControlRequest :=
  mkRequest (method_code register_mr) id (length_ m) access
    (match encode_mr_registration m with Ok bytes => bytes | Err _ => [] end) [].
Definition make_deregister_mr_request (id : Z) : UgdrControlRequest := object_request deregister_mr id.
Definition make_create_cq_request (context cqe : Z) : UgdrControlRequest :=
  mkRequest (method_code create_cq) context cqe 0 [] [].
Definition make_destroy_cq_request (id : Z) : UgdrControlRequest := object_request destroy_cq id.

(** [allocate_keys]: a local and a remote key, and the next key. *)
Definition allocate_keys (next_key : Z) : option (Z * Z * Z) :=
  if (next_key =? 0) || (U32_MAX - 1 <? next_key) then None
  else Some (u32 next_key, u32 (next_key + 1), u64 (next_key + 2)).

(** ** The payloads survive the wire *)

Record memory_ok (m : ExportedCudaMemory) : Prop := {
  mo_uuid : length (gpu_uuid m) = kGpuUuidSize;
  mo_address : is_u64 (client_address m);
  mo_size : is_u64 (allocation_size m);
  mo_offset : is_u64 (allocation_offset m);
}.

Lemma valid_memory_inv m :
  valid_memory m = true →
  client_address m ≠ 0 ∧ length_ m ≠ 0 ∧ allocation_offset m <= allocation_size m ∧
  length_ m <= u64 (allocation_size m - allocation_offset m) ∧
  allocation_offset m <= client_address m ∧ 0 < size (ipc_handle m) <= kMaxCudaIpcHandleSize.
Proof.
  unfold valid_memory. intros Hv. bool_hyps. pose proof (Zlength_nonneg (ipc_handle m)).
  unfold size in *. split_and!; try done; lia.
Qed.

Lemma decode_encode_mr m bytes :
  memory_ok m → encode_mr_registration m = Ok bytes →
  decode_mr_registration bytes (length_ m) = Ok m.
Proof.
  intros [Hu Ha Hs Ho]. unfold encode_mr_registration. destruct (negb _) eqn:Hv; [done|]. bool_hyps.
  destruct (valid_memory_inv m Hv) as (_ & _ & _ & _ & _ & Hh).
  unfold kMaxCudaIpcHandleSize, size in Hh. intros <-%Ok_inj. unfold append.
  rewrite app_nil_l, <- !app_assoc. match goal with |- decode_mr_registration ?x _ = _ => set (b := x) end.
  pose proof (cursor_start b) as Hc. unfold b at 2 in Hc.
  assert (length b = 48 + length (ipc_handle m))%nat as Hl.
  { unfold b. rewrite !length_app, !length_le_split, Hu. unfold kGpuUuidSize. lia. }
  clearbody b. unfold decode_mr_registration.
  rewrite (proj2 (Nat.ltb_ge _ _)) by (unfold kMrRegistrationFixedSize; lia).
  read_scalars. rewrite ntohs_htons by done. cbn [Z.eqb negb kMrPayloadVersion Pos.eqb].
  match goal with H : cursor b 4 _ |- _ => pose proof H as Hc4; destruct H as [_ Hd4] end.
  rewrite Hd4, take_app_eq by done.
  apply (cursor_skip _ _ _ _ kGpuUuidSize) in Hc4; [|done]. cbv zeta.
  change (4 + kGpuUuidSize)%nat with 20%nat in Hc4.
  change (S (S (S (S kGpuUuidSize)))) with 20%nat. read_scalars.
  rewrite (u32_small (size _)) by (unfold size; ulia).
  rewrite ntohl_htonl, !network_to_host64_host_to_network64 by (done || (unfold size; ulia)).
  match goal with H : cursor b ?o (ipc_handle m) |- _ => destruct H as [_ Hd] end.
  unfold kMaxCudaIpcHandleSize, size in *. rewrite Hl, Hd.
  rewrite (proj2 (Z.eqb_neq _ _)), (proj2 (Z.ltb_ge _ _)), (proj2 (Z.eqb_eq _ _)) by lia.
  cbn [negb orb]. replace (mkExported _ _ _ _ _ _) with m by (by destruct m). by rewrite Hv.
Qed.

Lemma decode_encode_mr_result r bytes :
  is_u64 (res_client_address r) → is_u64 (res_length r) → is_u32 (res_lkey r) →
  is_u32 (res_rkey r) → encode_mr_registration_result r = Ok bytes →
  decode_mr_registration_result bytes = Ok r.
Proof.
  intros Ha Hn Hlk Hrk. unfold encode_mr_registration_result. destruct (_ || _) eqn:Hv; [done|].
  intros <-%Ok_inj. unfold append. rewrite app_nil_l, <- !app_assoc.
  match goal with |- decode_mr_registration_result ?x = _ => set (b := x) end.
  pose proof (cursor_start b) as Hc. unfold b at 2 in Hc.
  assert (length b = 28)%nat as Hl by (unfold b; by rewrite !length_app, !length_le_split).
  clearbody b. unfold decode_mr_registration_result. rewrite Hl. cbn [Nat.eqb negb kMrRegistrationResultSize].
  rewrite <- (app_nil_r (le_split 4 (htonl (res_rkey r)))) in Hc. read_scalars.
  rewrite ntohs_htons, !ntohl_htonl, !network_to_host64_host_to_network64 by done.
  cbn [Z.eqb negb orb kMrPayloadVersion Pos.eqb res_client_address res_length res_lkey res_rkey].
  cbv zeta. rewrite Hv. by destruct r.
Qed.

(** Memory registration survives the wire: the daemon opens exactly the memory
    the client exported, and the client gets exactly the keys the daemon assigned. *)
Theorem mr_registration_roundtrip m bytes r reply :
  memory_ok m → encode_mr_registration m = Ok bytes →
  is_u64 (res_client_address r) → is_u64 (res_length r) → is_u32 (res_lkey r) →
  is_u32 (res_rkey r) → encode_mr_registration_result r = Ok reply →
  decode_mr_registration bytes (length_ m) = Ok m ∧ decode_mr_registration_result reply = Ok r.
Proof. intros. split; [by apply decode_encode_mr|by apply decode_encode_mr_result]. Qed.

Definition demo_memory : ExportedCudaMemory :=
  mkExported (replicate 16 Byte.x01) 8192 65536 4096 1024 [Byte.x02; Byte.x03].
Definition demo_mr_bytes : list byte :=
  match encode_mr_registration demo_memory with Ok b => b | Err _ => [] end.
Definition demo_mr_result : MrRegistrationResult := mkMrResult 8192 1024 1 2.
Definition demo_mr_reply : list byte :=
  match encode_mr_registration_result demo_mr_result with Ok b => b | Err _ => [] end.

Lemma mr_registration_roundtrip_witness :
  decode_mr_registration demo_mr_bytes 1024 = Ok demo_memory.
Proof.
  apply (mr_registration_roundtrip demo_memory demo_mr_bytes demo_mr_result demo_mr_reply);
    by vm_compute.
Defined.

(** * The service *)

(** [device_] is the base class, [memory_] the state of [memory_backend_]. *)
Record PdMrCqService (M : Type) := mkPdService {
  device_ : DeviceContextService;
  pds_ : @GenerationRegistry PdRecord;
  mrs_ : @GenerationRegistry MrRecord;
  cqs_ : @GenerationRegistry CqRecord;
  next_key_ : Z;
  memory_ : M;
  kernel_ : Kernel;
}.
Arguments mkPdService {M}.
Arguments device_ {M}. Arguments pds_ {M}. Arguments mrs_ {M}. Arguments cqs_ {M}.
Arguments next_key_ {M}. Arguments memory_ {M}. Arguments kernel_ {M}.

Section Setters.
Context {M : Type}.
Implicit Types s : PdMrCqService M.

Definition with_device s d :=
  mkPdService d (pds_ s) (mrs_ s) (cqs_ s) (next_key_ s) (memory_ s) (kernel_ s).
Definition with_pds s r :=
  mkPdService (device_ s) r (mrs_ s) (cqs_ s) (next_key_ s) (memory_ s) (kernel_ s).
Definition with_mrs s r :=
  mkPdService (device_ s) (pds_ s) r (cqs_ s) (next_key_ s) (memory_ s) (kernel_ s).
Definition with_cqs s r :=
  mkPdService (device_ s) (pds_ s) (mrs_ s) r (next_key_ s) (memory_ s) (kernel_ s).
Definition with_next_key s k :=
  mkPdService (device_ s) (pds_ s) (mrs_ s) (cqs_ s) k (memory_ s) (kernel_ s).
Definition with_memory s (m : M) :=
  mkPdService (device_ s) (pds_ s) (mrs_ s) (cqs_ s) (next_key_ s) m (kernel_ s).
Definition with_kernel s k :=
  mkPdService (device_ s) (pds_ s) (mrs_ s) (cqs_ s) (next_key_ s) (memory_ s) k.

Definition resolve_pd s (session_id id : Z) : option PdRecord :=
  resolve ObjectIdentity.pd (pds_ s) session_id id.
Definition resolve_cq s (session_id id : Z) : option CqRecord :=
  resolve ObjectIdentity.cq (cqs_ s) session_id id.

(** Updates through the pointers these return. *)
Definition set_pd s (id : Z) (f : PdRecord → PdRecord) : PdMrCqService M :=
  with_pds s (modify ObjectIdentity.pd (pds_ s) id f).
Definition set_cq s (id : Z) (f : CqRecord → CqRecord) : PdMrCqService M :=
  with_cqs s (modify ObjectIdentity.cq (cqs_ s) id f).
Definition count_child s (id delta : Z) : PdMrCqService M :=
  with_device s (add_child (device_ s) id delta).

End Setters.

(** Writes to the members of a [PdRecord] and a [CqRecord]. *)
Definition pd_add_mr (id lkey rkey : Z) (p : PdRecord) : PdRecord :=
  mkPd (pd_context p) (mr_identities p ∪ {[id]}) (<[lkey := id]> (local_key_index p))
    (<[rkey := id]> (remote_key_index p)) (qp_count p).
Definition pd_remove_mr (id lkey rkey : Z) (p : PdRecord) : PdRecord :=
  mkPd (pd_context p) (mr_identities p ∖ {[id]}) (delete lkey (local_key_index p))
    (delete rkey (remote_key_index p)) (qp_count p).
Definition pd_count_qp (delta : Z) (p : PdRecord) : PdRecord :=
  mkPd (pd_context p) (mr_identities p) (local_key_index p) (remote_key_index p)
    (u64 (qp_count p + delta)).
Definition cq_count_qp (delta : Z) (c : CqRecord) : CqRecord :=
  mkCq (cq_context c) (cqe c) (u64 (qp_references c + delta)) (completions c).

(** A successful response with an object identity. *)
Definition created (r : UgdrControlRequest) (id : Z) (opaque : list byte) (indices fds : list Z)
  : ControlServiceResult :=
  mkResult (mkResponse (rq_method r) 0 id opaque indices) fds.

Definition completion_descriptor (cqe : Z) : QueueDescriptor :=
  mkDescriptor completion cqe Descriptors.completion_slot_stride.

Section Service.
Context {M : Type} `{CudaIpcMemoryBackend M}.
Abbreviation Service := (PdMrCqService M).

Definition new_pd_service (catalog : list DeviceDescriptor) (m : M) (k : Kernel) : Service :=
  mkPdService (new_device_service catalog) (new_registry 1) (new_registry 1) (new_registry 1) 1 m k.

(** [memory_backend_.close(mapping)]. *)
Definition close_mapping (s : Service) (mapping : CudaIpcMapping) : Service * Z :=
  let '(m, status) := mem_close (memory_ s) mapping in (with_memory s m, status).

Definition handle_create_pd (s : Service) (session_id : Z) (r : UgdrControlRequest) (fds : list Z)
  : Service * ControlServiceResult :=
  if negb (empty_shape r fds) then (s, response_for r EINVAL)
  else match resolve_context (device_ s) session_id (rq_object_identity r) with
  | None => (s, response_for r EINVAL)
  | Some _ =>
      match insert ObjectIdentity.pd (pds_ s) session_id (mkPd (rq_object_identity r) ∅ ∅ ∅ 0) with
      | (p, None) => (with_pds s p, response_for r ENOSPC)
      | (p, Some id) =>
          (count_child (with_pds s p) (rq_object_identity r) 1, created r id [] [] [])
      end
  end.

Definition handle_destroy_pd (s : Service) (session_id : Z) (r : UgdrControlRequest) (fds : list Z)
  : Service * ControlServiceResult :=
  if negb (empty_shape r fds) then (s, response_for r EINVAL)
  else match resolve_pd s session_id (rq_object_identity r) with
  | None => (s, response_for r EINVAL)
  | Some p =>
      if negb (bool_decide (mr_identities p = ∅)) || negb (qp_count p =? 0)
      then (s, response_for r EBUSY)
      else match resolve_context (device_ s) session_id (pd_context p) with
      | None => (s, response_for r EINVAL)
      | Some ctx =>
          if child_count ctx =? 0 then (s, response_for r EINVAL)
          else
            let '(reg, status) := erase ObjectIdentity.pd (pds_ s) session_id (rq_object_identity r) in
            let s := with_pds s reg in
            (if status =? 0 then count_child s (pd_context p) (-1) else s, response_for r status)
      end
  end.

(** The part of [handle_register_mr] that links the new region [id] into its
    protection domain, undoing everything if an index already has an entry. *)
Definition link_mr (s : Service) (session_id : Z) (r : UgdrControlRequest) (p : PdRecord)
    (id lkey rkey : Z) (mapping : CudaIpcMapping) (encoded : list byte)
  : Service * ControlServiceResult :=
  if bool_decide (id ∈ mr_identities p) || bool_decide (is_Some (local_key_index p !! lkey))
     || bool_decide (is_Some (remote_key_index p !! rkey))
  then
    let s := set_pd s (rq_object_identity r) (pd_remove_mr id lkey rkey) in
    let s := with_mrs s (erase ObjectIdentity.mr (mrs_ s) session_id id).1 in
    ((close_mapping s mapping).1, response_for r ENOMEM)
  else (set_pd s (rq_object_identity r) (pd_add_mr id lkey rkey), created r id encoded [] []).

Definition handle_register_mr (s : Service) (session_id : Z) (r : UgdrControlRequest)
    (fds : list Z) : Service * ControlServiceResult :=
  if negb (bool_decide (rq_fd_indices r = [])) || negb (bool_decide (fds = []))
     || negb (valid_access (rq_access r))
  then (s, response_for r EINVAL)
  else match resolve_pd s session_id (rq_object_identity r) with
  | None => (s, response_for r EINVAL)
  | Some p =>
      match decode_mr_registration (rq_opaque r) (rq_length r) with
      | Err e => (s, response_for r e)
      | Ok memory =>
          let '(m, opened) := mem_open (memory_ s) memory in
          let s := with_memory s m in
          match opened with
          | Err e => (s, response_for r e)
          | Ok mapping =>
              if (daemon_base_address mapping =? 0)
                 || negb (bool_decide (mapping_uuid mapping = gpu_uuid memory))
                 || (U64_MAX - allocation_offset memory <? daemon_base_address mapping)
              then ((close_mapping s mapping).1, response_for r EPROTO)
              else match allocate_keys (next_key_ s) with
              | None => ((close_mapping s mapping).1, response_for r ENOSPC)
              | Some (lkey, rkey, next) =>
                  let s := with_next_key s next in
                  match encode_mr_registration_result
                          (mkMrResult (client_address memory) (length_ memory) lkey rkey) with
                  | Err e => ((close_mapping s mapping).1, response_for r e)
                  | Ok encoded =>
                      let record := mkMr (pd_context p) (rq_object_identity r) (gpu_uuid memory)
                        (client_address memory) (allocation_size memory) (allocation_offset memory)
                        (u64 (daemon_base_address mapping + allocation_offset memory))
                        (length_ memory) (rq_access r) lkey rkey 0 mapping in
                      match insert ObjectIdentity.mr (mrs_ s) session_id record with
                      | (reg, None) =>
                          ((close_mapping (with_mrs s reg) mapping).1, response_for r ENOSPC)
                      | (reg, Some id) =>
                          link_mr (with_mrs s reg) session_id r p id lkey rkey mapping encoded
                      end
                  end
              end
          end
      end
  end.

Definition handle_deregister_mr (s : Service) (session_id : Z) (r : UgdrControlRequest)
    (fds : list Z) : Service * ControlServiceResult :=
  if negb (empty_shape r fds) then (s, response_for r EINVAL)
  else match resolve ObjectIdentity.mr (mrs_ s) session_id (rq_object_identity r) with
  | None => (s, response_for r EINVAL)
  | Some m =>
      if negb (work_request_references m =? 0) then (s, response_for r EBUSY)
      else
        let '(s, close_status) := close_mapping s (mr_mapping m) in
        if negb (close_status =? 0) then (s, response_for r close_status)
        else match resolve_pd s session_id (mr_pd m) with
        | None => (s, response_for r EINVAL)
        | Some _ =>
            let s := set_pd s (mr_pd m)
                       (pd_remove_mr (rq_object_identity r) (mr_lkey m) (mr_rkey m)) in
            let '(reg, status) := erase ObjectIdentity.mr (mrs_ s) session_id (rq_object_identity r) in
            (with_mrs s reg, response_for r status)
        end
  end.

Definition handle_create_cq (s : Service) (session_id : Z) (r : UgdrControlRequest) (fds : list Z)
  : Service * ControlServiceResult :=
  if (rq_length r =? 0) || (U32_MAX <? rq_length r) || negb (rq_access r =? 0)
     || negb (bool_decide (rq_opaque r = [])) || negb (bool_decide (rq_fd_indices r = []))
     || negb (bool_decide (fds = []))
  then (s, response_for r EINVAL)
  else match resolve_context (device_ s) session_id (rq_object_identity r) with
  | None => (s, response_for r EINVAL)
  | Some _ =>
      let descriptor := completion_descriptor (u32 (rq_length r)) in
      let '(k, made) := new_ring (kernel_ s) descriptor in
      match made with
      | Err e => (with_kernel s k, response_for r e)
      | Ok ring =>
          let '(k, dup) := dup_ring k ring in
          match dup with
          | Err e => (with_kernel s (drop_ring k ring), response_for r e)
          | Ok fd =>
              match encode_queue_descriptors [descriptor] with
              | Err e => (with_kernel s (drop_fd (drop_ring k ring) fd), response_for r e)
              | Ok encoded =>
                  match insert ObjectIdentity.cq (cqs_ s) session_id
                          (mkCq (rq_object_identity r) (u32 (rq_length r)) 0 ring) with
                  | (reg, None) =>
                      (with_kernel (with_cqs s reg) (drop_fd (drop_ring k ring) fd),
                       response_for r ENOSPC)
                  | (reg, Some id) =>
                      (count_child (with_kernel (with_cqs s reg) k) (rq_object_identity r) 1,
                       created r id encoded [0] [fd])
                  end
              end
          end
      end
  end.

Definition handle_destroy_cq (s : Service) (session_id : Z) (r : UgdrControlRequest) (fds : list Z)
  : Service * ControlServiceResult :=
  if negb (empty_shape r fds) then (s, response_for r EINVAL)
  else match resolve_cq s session_id (rq_object_identity r) with
  | None => (s, response_for r EINVAL)
  | Some c =>
      if negb (qp_references c =? 0) then (s, response_for r EBUSY)
      else match resolve_context (device_ s) session_id (cq_context c) with
      | None => (s, response_for r EINVAL)
      | Some ctx =>
          if child_count ctx =? 0 then (s, response_for r EINVAL)
          else
            let '(reg, status) := erase ObjectIdentity.cq (cqs_ s) session_id (rq_object_identity r) in
            let s := with_cqs s reg in
            (if status =? 0
             then count_child (with_kernel s (drop_ring (kernel_ s) (completions c))) (cq_context c) (-1)
             else s, response_for r status)
      end
  end.

Definition pd_handle (s : Service) (session_id : Z) (r : UgdrControlRequest) (fds : list Z)
  : Service * ControlServiceResult :=
  match method_of_code (rq_method r) with
  | create_pd => handle_create_pd s session_id r fds
  | destroy_pd => handle_destroy_pd s session_id r fds
  | register_mr => handle_register_mr s session_id r fds
  | deregister_mr => handle_deregister_mr s session_id r fds
  | create_cq => handle_create_cq s session_id r fds
  | destroy_cq => handle_destroy_cq s session_id r fds
  | _ => let '(d, result) := device_handle (device_ s) session_id r fds in (with_device s d, result)
  end.

Definition pd_disconnect (s : Service) (session_id : Z) : Service :=
  let s := with_memory s (foldl (λ m '(_, r), (mem_close m (mr_mapping r)).1) (memory_ s)
                            (for_each_session ObjectIdentity.mr (mrs_ s) session_id)) in
  let s := with_mrs s (erase_session (mrs_ s) session_id).1 in
  let s := with_kernel s (foldl (λ k '(_, c), drop_ring k (completions c)) (kernel_ s)
                            (for_each_session ObjectIdentity.cq (cqs_ s) session_id)) in
  let s := with_cqs s (erase_session (cqs_ s) session_id).1 in
  let s := with_pds s (erase_session (pds_ s) session_id).1 in
  with_device s (device_disconnect (device_ s) session_id).

(** * Key lookup *)

Definition resolve_key (s : Service) (session_id pd_identity key address len : Z) (remote : bool)
  : result Z :=
  if (key =? 0) || (len =? 0) then Err EINVAL
  else match resolve_pd s session_id pd_identity with
  | None => Err EINVAL
  | Some p =>
      match (if remote then remote_key_index p else local_key_index p) !! key with
      | None => Err EINVAL
      | Some id =>
          match resolve ObjectIdentity.mr (mrs_ s) session_id id with
          | None => Err EINVAL
          | Some m =>
              if negb (mr_pd m =? pd_identity) then Err EINVAL
              else if remote && (Z.land (mr_access m) kAccessRemoteWrite =? 0) then Err EACCES
              else if (address <? mr_client_address m) || (U64_MAX - len <? address)
                      || (U64_MAX - mr_length m <? mr_client_address m)
                      || (mr_client_address m + mr_length m <? address + len)
              then Err EINVAL
              else
                let offset := address - mr_client_address m in
                if U64_MAX - offset <? mr_daemon_address m then Err EINVAL
                else Ok (mr_daemon_address m + offset)
          end
      end
  end.

Definition service_resolve_lkey (s : Service) (session_id pd_identity lkey address len : Z) : result Z :=
  resolve_key s session_id pd_identity lkey address len false.
Definition service_resolve_rkey (s : Service) (session_id pd_identity rkey address len : Z) : result Z :=
  resolve_key s session_id pd_identity rkey address len true.

Definition pd_count (s : Service) : Z := registry_size (pds_ s).
Definition mr_count (s : Service) : Z := registry_size (mrs_ s).
Definition cq_count (s : Service) : Z := registry_size (cqs_ s).

End Service.

End PdMrCq.
