(* ===== verification/Qp.v ===== *)
(** Queue pairs (src/control/qp.hpp, qp.cpp): the payloads of the queue pair
    requests, the handlers that create, change, connect and destroy queue pairs, and
    the view of a queue pair that the workers use. *)

From S2P Require Import Prelude Wire ObjectIdentity ObjectRegistry SharedRing Descriptors Worker.
From S2P Require Import Protocol Adapter QueueDescriptors Control DeviceContext PdMrCq.
Import Wire Registry Ring Adapter QueueDescriptors Control DeviceContext PdMrCq.

Module Qp.

(** * Data *)

Definition kQpPayloadVersion : Z := 1.
Definition kQpTypeRc : Z := 2.
Definition kQpStateReset : Z := 0.
Definition kQpStateInit : Z := 1.
Definition kQpStateRtr : Z := 2.
Definition kQpStateRts : Z := 3.
Definition kQpStateSqd : Z := 4.
Definition kQpStateSqe : Z := 5.
Definition kQpStateErr : Z := 6.
Definition kQpAccessRemoteWrite : Z := 2.
Definition kQpMaskState : Z := 1.
Definition kQpMaskCurrentState : Z := 2.
Definition kQpMaskAccess : Z := 8.
Definition kQpMaskTimeout : Z := 512.
Definition kQpMaskRetryCount : Z := 1024.
Definition kQpMaskRnrRetry : Z := 2048.
Definition kQpMaskMinRnrTimer : Z := 32768.
Definition kQpConnectMask : Z :=
  Z.lor (Z.lor (Z.lor kQpMaskTimeout kQpMaskRetryCount) kQpMaskRnrRetry) kQpMaskMinRnrTimer.

Definition kQpCreatePayloadSize : nat := 44.
Definition kQpQueryPayloadSize : nat := 8.
Definition kQpModifyPayloadSize : nat := 24.
Definition kQpConnectPayloadSize : nat := 16.
Definition kQpSnapshotPayloadSize : nat := 64.
Definition kQpConnInfoPayloadSize : nat := 8.

Record QpCreateAttributes := mkCreate {
  send_cq_identity : Z; recv_cq_identity : Z; max_send_wr : Z; max_recv_wr : Z;
  max_send_sge : Z; max_recv_sge : Z; qp_type : Z; sq_sig_all : Z;
}.

Record QpAttributes := mkAttributes {
  state : Z; current_state : Z; access_flags : Z;
  timeout : Z; retry_count : Z; rnr_retry : Z; min_rnr_timer : Z;
}.

Record QpSnapshot := mkSnapshot {
  creation : QpCreateAttributes; attributes : QpAttributes; snapshot_qp_num : Z;
}.

(** [SqMetadata] and [RqMetadata]. *)
Record QueueMetadata := mkQueueMetadata { max_wr : Z; max_sge : Z }.

Record QpRecord := mkQp {
  owner_session : Z; qp_context : Z; qp_pd : Z; qp_send_cq : Z; qp_recv_cq : Z;
  sq : QueueMetadata; rq : QueueMetadata; qp_type_ : Z; qp_sig_all : Z; qp_state : Z;
  qp_access : Z; qp_num : Z; peer_qp_num : Z; peer_identity : Z;
  qp_timeout : Z; qp_retry_count : Z; qp_rnr_retry : Z; qp_min_rnr_timer : Z;
  send_queue : SharedRing; receive_queue : SharedRing;
}.

(** * Payloads *)

Definition append_header (bytes : list byte) : list byte :=
  append 2 0 (append 2 (htons kQpPayloadVersion) bytes).

(** 0 and the offset after the header, or the error. *)
Definition read_header (bytes : list byte) (expected_size : nat) : result nat :=
  if negb (length bytes =? expected_size)%nat then Err EPROTO
  else match '(version, offset) ← read bytes 0 2; '(reserved, offset) ← read bytes offset 2;
             Some (version, reserved, offset) with
  | None => Err EPROTO
  | Some (version, reserved, offset) =>
      if negb (ntohs version =? kQpPayloadVersion) then Err EPROTONOSUPPORT
      else if reserved =? 0 then Ok offset else Err EPROTO
  end.

Definition encode_query_payload (mask : Z) : list byte := append 4 (htonl mask) (append_header []).

Definition decode_query_payload (bytes : list byte) : result Z :=
  offset ← read_header bytes kQpQueryPayloadSize;
  match read bytes offset 4 with
  | None => Err EPROTO
  | Some (encoded, _) => Ok (ntohl encoded)
  end.

Definition append_retry (a : QpAttributes) (bytes : list byte) : list byte :=
  append 1 (min_rnr_timer a) $ append 1 (rnr_retry a) $ append 1 (retry_count a) $
  append 1 (timeout a) bytes.

Definition encode_modify_payload (a : QpAttributes) (mask : Z) : list byte :=
  append_retry a $ append 4 (htonl (access_flags a)) $ append 4 (htonl (current_state a)) $
  append 4 (htonl (state a)) $ append 4 (htonl mask) (append_header []).

Definition decode_modify_payload (bytes : list byte) : result (QpAttributes * Z) :=
  offset ← read_header bytes kQpModifyPayloadSize;
  match '(mask, offset) ← read bytes offset 4; '(st, offset) ← read bytes offset 4;
        '(current, offset) ← read bytes offset 4; '(access, offset) ← read bytes offset 4;
        '(t, offset) ← read bytes offset 1; '(rc, offset) ← read bytes offset 1;
        '(rnr, offset) ← read bytes offset 1; '(timer, offset) ← read bytes offset 1;
        Some (mask, st, current, access, t, rc, rnr, timer) with
  | None => Err EPROTO
  | Some (mask, st, current, access, t, rc, rnr, timer) =>
      Ok (mkAttributes (ntohl st) (ntohl current) (ntohl access) t rc rnr timer, ntohl mask)
  end.

Definition encode_connect_payload (qp_num : Z) (a : QpAttributes) (mask : Z) : list byte :=
  append_retry a $ append 4 (htonl qp_num) $ append 4 (htonl mask) (append_header []).

Definition decode_connect_payload (bytes : list byte) : result (Z * QpAttributes * Z) :=
  offset ← read_header bytes kQpConnectPayloadSize;
  match '(mask, offset) ← read bytes offset 4; '(num, offset) ← read bytes offset 4;
        '(t, offset) ← read bytes offset 1; '(rc, offset) ← read bytes offset 1;
        '(rnr, offset) ← read bytes offset 1; '(timer, offset) ← read bytes offset 1;
        Some (mask, num, t, rc, rnr, timer) with
  | None => Err EPROTO
  | Some (mask, num, t, rc, rnr, timer) =>
      Ok (ntohl num, mkAttributes kQpStateReset kQpStateReset 0 t rc rnr timer, ntohl mask)
  end.

Definition encode_conn_info (qp_num : Z) : list byte := append 4 (htonl qp_num) (append_header []).
Definition decode_conn_info (bytes : list byte) : result Z := decode_query_payload bytes.

Definition encode_snapshot (q : QpRecord) : list byte :=
  append 1 (qp_min_rnr_timer q) $ append 1 (qp_rnr_retry q) $ append 1 (qp_retry_count q) $
  append 1 (qp_timeout q) $ append 4 (htonl (qp_access q)) $ append 4 (htonl (qp_state q)) $
  append 4 (htonl (qp_state q)) $ append 4 (htonl (qp_sig_all q)) $
  append 4 (htonl (qp_type_ q)) $ append 4 (htonl (max_sge (rq q))) $
  append 4 (htonl (max_sge (sq q))) $ append 4 (htonl (max_wr (rq q))) $
  append 4 (htonl (max_wr (sq q))) $ append 8 (host_to_network64 (qp_recv_cq q)) $
  append 8 (host_to_network64 (qp_send_cq q)) $ append 4 (htonl (qp_num q)) (append_header []).

Definition decode_snapshot (bytes : list byte) : result QpSnapshot :=
  offset ← read_header bytes kQpSnapshotPayloadSize;
  match '(num, offset) ← read bytes offset 4; '(send_cq, offset) ← read bytes offset 8;
        '(recv_cq, offset) ← read bytes offset 8; '(send_wr, offset) ← read bytes offset 4;
        '(recv_wr, offset) ← read bytes offset 4; '(send_sge, offset) ← read bytes offset 4;
        '(recv_sge, offset) ← read bytes offset 4; '(type, offset) ← read bytes offset 4;
        '(sig, offset) ← read bytes offset 4; '(st, offset) ← read bytes offset 4;
        '(current, offset) ← read bytes offset 4; '(access, offset) ← read bytes offset 4;
        '(t, offset) ← read bytes offset 1; '(rc, offset) ← read bytes offset 1;
        '(rnr, offset) ← read bytes offset 1; '(timer, offset) ← read bytes offset 1;
        Some (mkSnapshot
          (mkCreate (network_to_host64 send_cq) (network_to_host64 recv_cq) (ntohl send_wr)
             (ntohl recv_wr) (ntohl send_sge) (ntohl recv_sge) (ntohl type) (ntohl sig))
          (mkAttributes (ntohl st) (ntohl current) (ntohl access) t rc rnr timer) (ntohl num)) with
  | None => Err EPROTO
  | Some snapshot => Ok snapshot
  end.

Definition valid_query_mask (mask : Z) : bool :=
  let supported := Z.lor (Z.lor (Z.lor kQpMaskState kQpMaskCurrentState) kQpMaskAccess) kQpConnectMask in
  Z.land mask (U32_MAX - supported) =? 0.

Definition valid_retry_attributes (a : QpAttributes) : bool :=
  (retry_count a <=? 7) && (rnr_retry a <=? 7) && (timeout a <=? 31) && (min_rnr_timer a <=? 31).

Definition valid_qp_create_attributes (a : QpCreateAttributes) : bool :=
  negb (send_cq_identity a =? 0) && negb (recv_cq_identity a =? 0) && negb (max_send_wr a =? 0) &&
  negb (max_recv_wr a =? 0) && negb (max_send_sge a =? 0) && negb (max_recv_sge a =? 0) &&
  (qp_type a =? kQpTypeRc) && (sq_sig_all a <=? 1).

Definition encode_qp_create_attributes (a : QpCreateAttributes) : list byte :=
  append 4 (htonl (sq_sig_all a)) $ append 4 (htonl (qp_type a)) $
  append 4 (htonl (max_recv_sge a)) $ append 4 (htonl (max_send_sge a)) $
  append 4 (htonl (max_recv_wr a)) $ append 4 (htonl (max_send_wr a)) $
  append 8 (host_to_network64 (recv_cq_identity a)) $
  append 8 (host_to_network64 (send_cq_identity a)) $
  append 2 0 (append 2 (htons kQpPayloadVersion) []).

Definition decode_qp_create_attributes (bytes : list byte) : result QpCreateAttributes :=
  if negb (length bytes =? kQpCreatePayloadSize)%nat then Err EPROTO
  else match '(version, offset) ← read bytes 0 2; '(reserved, offset) ← read bytes offset 2;
             '(send_cq, offset) ← read bytes offset 8; '(recv_cq, offset) ← read bytes offset 8;
             '(send_wr, offset) ← read bytes offset 4; '(recv_wr, offset) ← read bytes offset 4;
             '(send_sge, offset) ← read bytes offset 4; '(recv_sge, offset) ← read bytes offset 4;
             '(type, offset) ← read bytes offset 4; '(sig, offset) ← read bytes offset 4;
             Some (version, reserved,
               mkCreate (network_to_host64 send_cq) (network_to_host64 recv_cq) (ntohl send_wr)
                 (ntohl recv_wr) (ntohl send_sge) (ntohl recv_sge) (ntohl type) (ntohl sig)) with
  | None => Err EPROTO
  | Some (version, reserved, decoded) =>
      if negb (ntohs version =? kQpPayloadVersion) then Err EPROTONOSUPPORT
      else if negb (reserved =? 0) then Err EPROTO
      else Ok decoded
  end.

(** ** Requests *)

Definition payload_request (m : ControlMethod) (object : Z) (opaque : list byte) : UgdrControlRequest :=
  mkRequest (method_code m) object 0 0 opaque [].

Definition make_create_qp_request (pd_identity : Z) (a : QpCreateAttributes) : UgdrControlRequest :=
  payload_request create_qp pd_identity (encode_qp_create_attributes a).
Definition make_destroy_qp_request (id : Z) : UgdrControlRequest := object_request destroy_qp id.
Definition make_query_qp_request (id mask : Z) : UgdrControlRequest :=
  payload_request query_qp id (encode_query_payload mask).
Definition make_modify_qp_request (id : Z) (a : QpAttributes) (mask : Z) : UgdrControlRequest :=
  payload_request modify_qp id (encode_modify_payload a mask).
Definition make_query_qp_conn_info_request (id : Z) : UgdrControlRequest :=
  object_request query_qp_conn_info id.
Definition make_connect_qp_request (id remote_qp_num : Z) (a : QpAttributes) (mask : Z)
  : UgdrControlRequest :=
  payload_request connect_qp id (encode_connect_payload remote_qp_num a mask).

(** ** The payloads survive the wire *)

Record attributes_ok (a : QpAttributes) : Prop := {
  ao_state : is_u32 (state a); ao_current : is_u32 (current_state a);
  ao_access : is_u32 (access_flags a); ao_timeout : is_u8 (timeout a);
  ao_retry : is_u8 (retry_count a); ao_rnr : is_u8 (rnr_retry a); ao_timer : is_u8 (min_rnr_timer a);
}.

Record create_ok (a : QpCreateAttributes) : Prop := {
  co_send_cq : is_u64 (send_cq_identity a); co_recv_cq : is_u64 (recv_cq_identity a);
  co_send_wr : is_u32 (max_send_wr a); co_recv_wr : is_u32 (max_recv_wr a);
  co_send_sge : is_u32 (max_send_sge a); co_recv_sge : is_u32 (max_recv_sge a);
  co_type : is_u32 (qp_type a); co_sig : is_u32 (sq_sig_all a);
}.

(** What [query_qp] shows of a record. *)
Definition snapshot_of (q : QpRecord) : QpSnapshot :=
  mkSnapshot
    (mkCreate (qp_send_cq q) (qp_recv_cq q) (max_wr (sq q)) (max_wr (rq q)) (max_sge (sq q))
       (max_sge (rq q)) (qp_type_ q) (qp_sig_all q))
    (mkAttributes (qp_state q) (qp_state q) (qp_access q) (qp_timeout q) (qp_retry_count q)
       (qp_rnr_retry q) (qp_min_rnr_timer q)) (qp_num q).

Definition record_ok (q : QpRecord) : Prop :=
  create_ok (creation (snapshot_of q)) ∧ attributes_ok (attributes (snapshot_of q)) ∧ is_u32 (qp_num q).

(** The bytes a payload is made of, and a reader at their start. *)
Ltac open_payload b :=
  unfold append_retry, append_header, append, kQpQueryPayloadSize, kQpModifyPayloadSize,
    kQpConnectPayloadSize, kQpSnapshotPayloadSize; rewrite ?app_nil_l, <- ?app_assoc;
  match goal with |- context [?d ?x] =>
    lazymatch type of x with list Init.Byte.byte => set (b := x) end end;
  pose proof (Wire.cursor_start b) as Hcursor; unfold b at 2 in Hcursor;
  assert (length b = length b) as Hlength by done; unfold b at 2 in Hlength;
  rewrite !length_app, !length_le_split in Hlength; cbn [Nat.add] in Hlength; clearbody b.

Lemma read_header_ok b n rest :
  cursor b 0 (le_split 2 (htons kQpPayloadVersion) ++ le_split 2 0 ++ rest) → length b = n →
  read_header b n = Ok 4%nat ∧ cursor b 4 rest.
Proof.
  intros Hc Hl. unfold read_header. rewrite Hl, Nat.eqb_refl. cbn [negb].
  read_scalars. rewrite ntohs_htons by done. done.
Qed.

Lemma query_roundtrip mask : is_u32 mask → decode_query_payload (encode_query_payload mask) = Ok mask.
Proof.
  intros Hm. unfold decode_query_payload, encode_query_payload. open_payload b.
  destruct (read_header_ok _ _ _ Hcursor Hlength) as [-> Hc]. cbn [mbind result_bind].
  rewrite <- (app_nil_r (le_split 4 (htonl mask))) in Hc. read_scalars. by rewrite ntohl_htonl.
Qed.

Lemma modify_roundtrip a mask :
  attributes_ok a → is_u32 mask → decode_modify_payload (encode_modify_payload a mask) = Ok (a, mask).
Proof.
  intros [] Hm. unfold decode_modify_payload, encode_modify_payload. open_payload b.
  destruct (read_header_ok _ _ _ Hcursor Hlength) as [-> Hc]. cbn [mbind result_bind].
  rewrite <- (app_nil_r (le_split 1 (min_rnr_timer a))) in Hc. read_scalars.
  rewrite !ntohl_htonl by done. by destruct a.
Qed.

Lemma connect_roundtrip num a mask :
  attributes_ok a → is_u32 num → is_u32 mask →
  decode_connect_payload (encode_connect_payload num a mask) =
    Ok (num, mkAttributes kQpStateReset kQpStateReset 0 (timeout a) (retry_count a) (rnr_retry a)
               (min_rnr_timer a), mask).
Proof.
  intros [] Hn Hm. unfold decode_connect_payload, encode_connect_payload. open_payload b.
  destruct (read_header_ok _ _ _ Hcursor Hlength) as [-> Hc]. cbn [mbind result_bind].
  rewrite <- (app_nil_r (le_split 1 (min_rnr_timer a))) in Hc. read_scalars.
  by rewrite !ntohl_htonl by done.
Qed.

Lemma create_roundtrip a :
  create_ok a → decode_qp_create_attributes (encode_qp_create_attributes a) = Ok a.
Proof.
  intros []. unfold decode_qp_create_attributes, encode_qp_create_attributes. open_payload b.
  rewrite Hlength. cbn [Nat.eqb negb kQpCreatePayloadSize].
  rewrite <- (app_nil_r (le_split 4 (htonl (sq_sig_all a)))) in Hcursor. read_scalars.
  rewrite ntohs_htons, !ntohl_htonl, !network_to_host64_host_to_network64 by done. by destruct a.
Qed.

Lemma snapshot_roundtrip q : record_ok q → decode_snapshot (encode_snapshot q) = Ok (snapshot_of q).
Proof.
  intros ([] & [] & Hn). cbn in *. unfold decode_snapshot, encode_snapshot. open_payload b.
  destruct (read_header_ok _ _ _ Hcursor Hlength) as [-> Hc]. cbn [mbind result_bind].
  rewrite <- (app_nil_r (le_split 1 (qp_min_rnr_timer q))) in Hc. read_scalars.
  by rewrite !ntohl_htonl, !network_to_host64_host_to_network64 by done.
Qed.

(** The payloads of the queue pair requests and responses survive the wire: what
    the client asks for is what the daemon acts on, and what the daemon reports of a
    queue pair is what the client sees. *)
Theorem qp_payload_roundtrips c a q num mask :
  create_ok c → attributes_ok a → record_ok q → is_u32 num → is_u32 mask →
  decode_qp_create_attributes (encode_qp_create_attributes c) = Ok c ∧
  decode_modify_payload (encode_modify_payload a mask) = Ok (a, mask) ∧
  decode_connect_payload (encode_connect_payload num a mask) =
    Ok (num, mkAttributes kQpStateReset kQpStateReset 0 (timeout a) (retry_count a) (rnr_retry a)
               (min_rnr_timer a), mask) ∧
  decode_query_payload (encode_query_payload mask) = Ok mask ∧
  decode_conn_info (encode_conn_info num) = Ok num ∧
  decode_snapshot (encode_snapshot q) = Ok (snapshot_of q).
Proof.
  intros Hc Ha Hq Hn Hm. split_and!; [by apply create_roundtrip|by apply modify_roundtrip
    |by apply connect_roundtrip|by apply query_roundtrip|by apply query_roundtrip
    |by apply snapshot_roundtrip].
Qed.

Definition demo_create : QpCreateAttributes := mkCreate 17 18 4 8 2 3 kQpTypeRc 1.
Definition demo_attributes : QpAttributes := mkAttributes 1 0 2 14 7 7 12.
Definition demo_qp : QpRecord :=
  mkQp 1 5 6 17 18 (mkQueueMetadata 4 2) (mkQueueMetadata 8 3) kQpTypeRc 1 kQpStateInit 2 9 0 0
    0 0 0 0 no_ring no_ring.

Lemma qp_payload_roundtrips_witness :
  decode_snapshot (encode_snapshot demo_qp) = Ok (snapshot_of demo_qp).
Proof.
  by apply (qp_payload_roundtrips demo_create demo_attributes demo_qp 9 11).
Defined.

(** * The service *)

Record QpService (M : Type) := mkQpService {
  base_ : PdMrCqService M;
  qps_ : @GenerationRegistry QpRecord;
  qp_num_index_ : gmap Z Z;
  next_qp_num_ : Z;
}.
Arguments mkQpService {M}. Arguments base_ {M}. Arguments qps_ {M}.
Arguments qp_num_index_ {M}. Arguments next_qp_num_ {M}.

(** Writes to the members of a [QpRecord]. *)
Definition qp_set_state (st access : Z) (q : QpRecord) : QpRecord :=
  mkQp (owner_session q) (qp_context q) (qp_pd q) (qp_send_cq q) (qp_recv_cq q) (sq q) (rq q)
    (qp_type_ q) (qp_sig_all q) st access (qp_num q) (peer_qp_num q) (peer_identity q)
    (qp_timeout q) (qp_retry_count q) (qp_rnr_retry q) (qp_min_rnr_timer q)
    (send_queue q) (receive_queue q).
Definition qp_set_peer (num id : Z) (a : QpAttributes) (q : QpRecord) : QpRecord :=
  mkQp (owner_session q) (qp_context q) (qp_pd q) (qp_send_cq q) (qp_recv_cq q) (sq q) (rq q)
    (qp_type_ q) (qp_sig_all q) kQpStateRts (qp_access q) (qp_num q) num id
    (timeout a) (retry_count a) (rnr_retry a) (min_rnr_timer a) (send_queue q) (receive_queue q).

(** The rings and response descriptors of a queue pair that is being created. *)
Record QpRings := mkQpRings { new_send : SharedRing; new_recv : SharedRing; send_fd : Z; recv_fd : Z }.

Definition drop_rings (k : Kernel) (q : QpRings) : Kernel :=
  drop_fd (drop_fd (drop_ring (drop_ring k (new_send q)) (new_recv q)) (send_fd q)) (recv_fd q).

(** Creating both rings and duplicating both descriptors. *)
Definition create_rings (k : Kernel) (sd rd : QueueDescriptor) : Kernel * result QpRings :=
  match new_ring k sd with
  | (k, Err e) => (k, Err e)
  | (k, Ok sr) =>
      match new_ring k rd with
      | (k, Err e) => (drop_ring k sr, Err e)
      | (k, Ok rr) =>
          match dup_ring k sr with
          | (k, Err e) => (drop_ring (drop_ring k sr) rr, Err e)
          | (k, Ok sfd) =>
              match dup_ring k rr with
              | (k, Err e) => (drop_fd (drop_ring (drop_ring k sr) rr) sfd, Err e)
              | (k, Ok rfd) => (k, Ok (mkQpRings sr rr sfd rfd))
              end
          end
      end
  end.

Definition new_qp_record (session_id pd_identity context : Z) (a : QpCreateAttributes) (num : Z)
    (rings : QpRings) : QpRecord :=
  mkQp session_id context pd_identity (send_cq_identity a) (recv_cq_identity a)
    (mkQueueMetadata (max_send_wr a) (max_send_sge a))
    (mkQueueMetadata (max_recv_wr a) (max_recv_sge a))
    (qp_type a) (sq_sig_all a) kQpStateReset 0 num 0 0 0 0 0 0 (new_send rings) (new_recv rings).

Section Service.
Context {M : Type} `{CudaIpcMemoryBackend M}.
Abbreviation Service := (QpService M).
Implicit Types s : Service.

Definition with_base s (b : PdMrCqService M) : Service :=
  mkQpService b (qps_ s) (qp_num_index_ s) (next_qp_num_ s).
Definition with_qps s (r : @GenerationRegistry QpRecord) : Service :=
  mkQpService (base_ s) r (qp_num_index_ s) (next_qp_num_ s).
Definition with_index s (i : gmap Z Z) : Service :=
  mkQpService (base_ s) (qps_ s) i (next_qp_num_ s).
Definition with_next_num s (n : Z) : Service :=
  mkQpService (base_ s) (qps_ s) (qp_num_index_ s) n.
Definition with_qp_kernel s (k : Kernel) : Service := with_base s (with_kernel (base_ s) k).

Definition new_qp_service (catalog : list DeviceDescriptor) (m : M) (k : Kernel) : Service :=
  mkQpService (new_pd_service catalog m k) (new_registry 1) ∅ 1.

Definition resolve_qp s (session_id id : Z) : option QpRecord :=
  resolve ObjectIdentity.qp (qps_ s) session_id id.
Definition set_qp s (id : Z) (f : QpRecord → QpRecord) : Service :=
  with_qps s (modify ObjectIdentity.qp (qps_ s) id f).

(** [++]/[--] of [pd->qp_count], [send_cq->qp_references] and, when it is another
    completion queue, [recv_cq->qp_references]. *)
Definition count_qp s (pd_identity send_cq recv_cq delta : Z) : Service :=
  let b := set_pd (base_ s) pd_identity (pd_count_qp delta) in
  let b := set_cq b send_cq (cq_count_qp delta) in
  with_base s (if recv_cq =? send_cq then b else set_cq b recv_cq (cq_count_qp delta)).

(** The part of [handle_create_qp] after the rings and the response are ready. *)
Definition insert_qp s (session_id : Z) (r : UgdrControlRequest) (p : PdRecord)
    (a : QpCreateAttributes) (rings : QpRings) (encoded : list byte)
  : Service * ControlServiceResult :=
  let fail s e := (with_qp_kernel s (drop_rings (kernel_ (base_ s)) rings), response_for r e) in
  if next_qp_num_ s =? 0 then fail s ENOSPC
  else
    let num := next_qp_num_ s in
    let s := with_next_num s (u32 (num + 1)) in
    match insert ObjectIdentity.qp (qps_ s) session_id
            (new_qp_record session_id (rq_object_identity r) (pd_context p) a num rings) with
    | (reg, None) => fail (with_qps s reg) ENOSPC
    | (reg, Some id) =>
        let s := with_qps s reg in
        match qp_num_index_ s !! num with
        | Some _ =>
            fail (with_qps s (erase ObjectIdentity.qp (qps_ s) session_id id).1) ENOSPC
        | None =>
            let s := with_index s (<[num := id]> (qp_num_index_ s)) in
            (count_qp s (rq_object_identity r) (send_cq_identity a) (recv_cq_identity a) 1,
             created r id encoded [0; 1] [send_fd rings; recv_fd rings])
        end
    end.

Definition handle_create_qp s (session_id : Z) (r : UgdrControlRequest) (fds : list Z)
  : Service * ControlServiceResult :=
  if negb (empty_shape_except_payload r fds) then (s, response_for r EINVAL)
  else match decode_qp_create_attributes (rq_opaque r) with
  | Err e => (s, response_for r e)
  | Ok a =>
      if negb (valid_qp_create_attributes a) then (s, response_for r EINVAL)
      else match resolve_pd (base_ s) session_id (rq_object_identity r),
                 resolve_cq (base_ s) session_id (send_cq_identity a),
                 resolve_cq (base_ s) session_id (recv_cq_identity a) with
      | Some p, Some scq, Some rcq =>
          if negb (pd_context p =? cq_context scq) || negb (pd_context p =? cq_context rcq)
          then (s, response_for r EINVAL)
          else match send_stride ← Descriptors.send_slot_stride (max_send_sge a);
                     receive_stride ← Descriptors.receive_slot_stride (max_recv_sge a);
                     Ok (send_stride, receive_stride) with
          | Err e => (s, response_for r e)
          | Ok (send_stride, receive_stride) =>
              let sd := mkDescriptor send (max_send_wr a) send_stride in
              let rd := mkDescriptor receive (max_recv_wr a) receive_stride in
              let '(k, made) := create_rings (kernel_ (base_ s)) sd rd in
              match made with
              | Err e => (with_qp_kernel s k, response_for r e)
              | Ok rings =>
                  match encode_queue_descriptors [sd; rd] with
                  | Err e => (with_qp_kernel s (drop_rings k rings), response_for r e)
                  | Ok encoded => insert_qp (with_qp_kernel s k) session_id r p a rings encoded
                  end
              end
          end
      | _, _, _ => (s, response_for r EINVAL)
      end
  end.

Definition handle_destroy_qp s (session_id : Z) (r : UgdrControlRequest) (fds : list Z)
  : Service * ControlServiceResult :=
  if negb (empty_shape r fds) then (s, response_for r EINVAL)
  else match resolve_qp s session_id (rq_object_identity r) with
  | None => (s, response_for r EINVAL)
  | Some q =>
      match resolve_pd (base_ s) session_id (qp_pd q), resolve_cq (base_ s) session_id (qp_send_cq q),
            resolve_cq (base_ s) session_id (qp_recv_cq q) with
      | Some p, Some scq, Some rcq =>
          if (qp_count p =? 0) || (qp_references scq =? 0)
             || negb (qp_recv_cq q =? qp_send_cq q) && (qp_references rcq =? 0)
          then (s, response_for r EINVAL)
          else
            let s := count_qp s (qp_pd q) (qp_send_cq q) (qp_recv_cq q) (-1) in
            let '(reg, status) := erase ObjectIdentity.qp (qps_ s) session_id (rq_object_identity r) in
            let s := with_qps s reg in
            (if status =? 0
             then with_qp_kernel (with_index s (delete (qp_num q) (qp_num_index_ s)))
                    (drop_ring (drop_ring (kernel_ (base_ s)) (send_queue q)) (receive_queue q))
             else s, response_for r status)
      | _, _, _ => (s, response_for r EINVAL)
      end
  end.

Definition handle_query_qp s (session_id : Z) (r : UgdrControlRequest) (fds : list Z)
  : Service * ControlServiceResult :=
  if negb (empty_shape_except_payload r fds) then (s, response_for r EINVAL)
  else match decode_query_payload (rq_opaque r) with
  | Err e => (s, response_for r e)
  | Ok mask =>
      match resolve_qp s session_id (rq_object_identity r) with
      | None => (s, response_for r EINVAL)
      | Some q => if negb (valid_query_mask mask) then (s, response_for r EINVAL)
                  else (s, created r 0 (encode_snapshot q) [] [])
      end
  end.

Definition handle_modify_qp s (session_id : Z) (r : UgdrControlRequest) (fds : list Z)
  : Service * ControlServiceResult :=
  if negb (empty_shape_except_payload r fds) then (s, response_for r EINVAL)
  else match decode_modify_payload (rq_opaque r) with
  | Err e => (s, response_for r e)
  | Ok (a, mask) =>
      match resolve_qp s session_id (rq_object_identity r) with
      | None => (s, response_for r EINVAL)
      | Some q =>
          let supported_mask := Z.lor (Z.lor kQpMaskState kQpMaskCurrentState) kQpMaskAccess in
          let base_mask := Z.land mask (U32_MAX - kQpMaskCurrentState) in
          if (Z.land mask kQpMaskState =? 0) || negb (Z.land mask (U32_MAX - supported_mask) =? 0)
          then (s, response_for r EINVAL)
          else if (state a =? kQpStateSqd) || (state a =? kQpStateSqe)
          then (s, response_for r EOPNOTSUPP)
          else if negb (Z.land mask kQpMaskCurrentState =? 0)
                  && negb (current_state a =? qp_state q)
          then (s, response_for r EINVAL)
          else if (qp_state q =? kQpStateReset) && (state a =? kQpStateInit)
                  && (base_mask =? Z.lor kQpMaskState kQpMaskAccess)
                  && (access_flags a =? kQpAccessRemoteWrite)
          then (set_qp s (rq_object_identity r) (qp_set_state kQpStateInit (access_flags a)),
                response_for r 0)
          else if ((qp_state q =? kQpStateReset) || (qp_state q =? kQpStateInit)
                   || (qp_state q =? kQpStateRtr) || (qp_state q =? kQpStateRts))
                  && (state a =? kQpStateErr) && (base_mask =? kQpMaskState)
          then (set_qp s (rq_object_identity r) (qp_set_state kQpStateErr (qp_access q)),
                response_for r 0)
          else (s, response_for r EINVAL)
      end
  end.

Definition handle_query_qp_conn_info s (session_id : Z) (r : UgdrControlRequest) (fds : list Z)
  : Service * ControlServiceResult :=
  if negb (empty_shape r fds) then (s, response_for r EINVAL)
  else match resolve_qp s session_id (rq_object_identity r) with
  | None => (s, response_for r EINVAL)
  | Some q => (s, created r 0 (encode_conn_info (qp_num q)) [] [])
  end.

Definition handle_connect_qp s (session_id : Z) (r : UgdrControlRequest) (fds : list Z)
  : Service * ControlServiceResult :=
  if negb (empty_shape_except_payload r fds) then (s, response_for r EINVAL)
  else match decode_connect_payload (rq_opaque r) with
  | Err e => (s, response_for r e)
  | Ok (remote_qp_num, a, mask) =>
      match resolve_qp s session_id (rq_object_identity r) with
      | None => (s, response_for r EINVAL)
      | Some local =>
          if (remote_qp_num =? 0) || negb (mask =? kQpConnectMask) || negb (valid_retry_attributes a)
          then (s, response_for r EINVAL)
          else if negb (peer_qp_num local =? 0) && negb (peer_qp_num local =? remote_qp_num)
          then (s, response_for r EBUSY)
          else if negb (qp_state local =? kQpStateInit) then (s, response_for r EINVAL)
          else match qp_num_index_ s !! remote_qp_num with
          | None => (s, response_for r ENOENT)
          | Some remote_identity =>
              match resolve_any ObjectIdentity.qp (qps_ s) remote_identity with
              | None => (s, response_for r ENOENT)
              | Some remote =>
                  if negb (qp_type_ remote =? kQpTypeRc)
                     || negb (qp_state remote =? kQpStateInit)
                        && negb (qp_state remote =? kQpStateRtr)
                        && negb (qp_state remote =? kQpStateRts)
                  then (s, response_for r EINVAL)
                  else (set_qp s (rq_object_identity r) (qp_set_peer remote_qp_num remote_identity a),
                        response_for r 0)
              end
          end
      end
  end.

Definition qp_handle s (session_id : Z) (r : UgdrControlRequest) (fds : list Z)
  : Service * ControlServiceResult :=
  match method_of_code (rq_method r) with
  | create_qp => handle_create_qp s session_id r fds
  | destroy_qp => handle_destroy_qp s session_id r fds
  | query_qp => handle_query_qp s session_id r fds
  | modify_qp => handle_modify_qp s session_id r fds
  | query_qp_conn_info => handle_query_qp_conn_info s session_id r fds
  | connect_qp => handle_connect_qp s session_id r fds
  | _ => let '(b, result) := pd_handle (base_ s) session_id r fds in (with_base s b, result)
  end.

Definition qp_disconnect s (session_id : Z) : Service :=
  let mine := for_each_session ObjectIdentity.qp (qps_ s) session_id in
  let s := with_index s (foldl (λ i '(_, q), delete (qp_num q) i) (qp_num_index_ s) mine) in
  let s := with_qps s (erase_session (qps_ s) session_id).1 in
  let s := with_qp_kernel s (foldl (λ k '(_, q), drop_ring (drop_ring k (send_queue q)) (receive_queue q))
                               (kernel_ (base_ s)) mine) in
  with_base s (pd_disconnect (base_ s) session_id).

Definition qp_total s : Z := registry_size (qps_ s).

(** The ring objects inside the records have an address each; the pointers of a
    [WorkerQpView] are these addresses. *)
Definition send_ring_of (qp_identity : Z) : Z := 3 * qp_identity.
Definition receive_ring_of (qp_identity : Z) : Z := 3 * qp_identity + 1.
Definition completions_of (cq_identity : Z) : Z := 3 * cq_identity + 2.

Definition worker_qp_view s (num : Z) : result Worker.WorkerQpView :=
  if num =? 0 then Err EINVAL
  else match qp_num_index_ s !! num with
  | None => Err ENOENT
  | Some id =>
      match resolve_any ObjectIdentity.qp (qps_ s) id with
      | None => Err ENOENT
      | Some q =>
          match resolve_cq (base_ s) (owner_session q) (qp_send_cq q),
                resolve_cq (base_ s) (owner_session q) (qp_recv_cq q) with
          | Some _, Some _ =>
              Ok (Worker.mkView (owner_session q) (qp_pd q) (qp_num q) (peer_qp_num q)
                    (max_sge (sq q)) (max_sge (rq q)) (qp_sig_all q) (send_ring_of id)
                    (receive_ring_of id) (completions_of (qp_send_cq q))
                    (completions_of (qp_recv_cq q)))
          | _, _ => Err EINVAL
          end
      end
  end.

End Service.

(** [QpService] is the control service the daemon runs. *)
#[export] Instance qp_control_service {M} `{CudaIpcMemoryBackend M} : ControlService (QpService M) := {|
  serve := qp_handle;
  disconnect := qp_disconnect;
|}.

End Qp.
