(* ===== verification/ControlSpec.v ===== *)
(** The contract of the daemon's control service: what each request does to the
    tables of live objects, as a transition relation, and the integrity invariant the
    transitions keep.  The refinement by the handlers is in ControlRefine.v. *)

From S2P Require Import Prelude ObjectIdentity ObjectRegistry SharedRing PdMrCq Qp DeviceContext.
Import ObjectIdentity(kMaxObjectSlot) CudaIpc PdMrCq Qp DeviceContext.

Module ControlSpec.

(** * Tables of live objects *)

(** Each table maps an identity to its owner session and record. *)
Record Tables := mkTables {
  ctxs : gmap Z (Z * ContextRecord);
  pds : gmap Z (Z * PdRecord);
  mrs : gmap Z (Z * MrRecord);
  cqs : gmap Z (Z * CqRecord);
  qps : gmap Z (Z * QpRecord);
  nums : gmap Z Z;
  next_key : Z;
  next_num : Z;
}.

Definition set_ctxs t m := mkTables m (pds t) (mrs t) (cqs t) (qps t) (nums t) (next_key t) (next_num t).
Definition set_pds t m := mkTables (ctxs t) m (mrs t) (cqs t) (qps t) (nums t) (next_key t) (next_num t).
Definition set_mrs t m := mkTables (ctxs t) (pds t) m (cqs t) (qps t) (nums t) (next_key t) (next_num t).
Definition set_cqs t m := mkTables (ctxs t) (pds t) (mrs t) m (qps t) (nums t) (next_key t) (next_num t).
Definition set_qps t m := mkTables (ctxs t) (pds t) (mrs t) (cqs t) m (nums t) (next_key t) (next_num t).
Definition set_nums t m := mkTables (ctxs t) (pds t) (mrs t) (cqs t) (qps t) m (next_key t) (next_num t).
Definition set_counters t k n := mkTables (ctxs t) (pds t) (mrs t) (cqs t) (qps t) (nums t) k n.

(** Updating the record of an object. *)
Definition upd {V} (f : V → V) (k : Z) (m : gmap Z (Z * V)) : gmap Z (Z * V) :=
  alter (prod_map id f) k m.

Definition bump (delta : Z) (c : ContextRecord) : ContextRecord :=
  mkContext (device_identity c) (u64 (child_count c + delta)).
Definition bump_ctx t id delta := set_ctxs t (upd (bump delta) id (ctxs t)).

(** The counters a queue pair holds. *)
Definition bump_qp t pd_id scq rcq delta :=
  set_cqs (set_pds t (upd (pd_count_qp delta) pd_id (pds t)))
    (let m := upd (cq_count_qp delta) scq (cqs t) in
     if rcq =? scq then m else upd (cq_count_qp delta) rcq m).

(** A registered region lies inside the allocation its client declared, and its daemon
    address is where its mapping puts it. *)
Record mr_wf (m : MrRecord) : Prop := {
  mw_lkey : 0 < mr_lkey m;
  mw_rkey : mr_rkey m = mr_lkey m + 1 ∧ is_u32 (mr_rkey m);
  mw_address : is_u64 (mr_client_address m) ∧ 0 < mr_length m;
  mw_range : 0 <= mr_allocation_offset m ∧
             mr_allocation_offset m + mr_length m <= mr_allocation_size m;
  mw_daemon : mr_daemon_address m = daemon_base_address (mr_mapping m) + mr_allocation_offset m ∧
              is_u64 (mr_daemon_address m) ∧ 0 < daemon_base_address (mr_mapping m);
  mw_unused : work_request_references m = 0;
}.

(** The edges of the queue pair state machine that [modify_qp] takes. *)
Inductive modify_edge : Z → Z → Prop :=
| edge_init : modify_edge kQpStateReset kQpStateInit
| edge_error st : st ∈ [kQpStateReset; kQpStateInit; kQpStateRtr; kQpStateRts] →
    modify_edge st kQpStateErr.

(** A queue pair as it is created. *)
Record fresh_qp (s pd_id context num : Z) (q : QpRecord) : Prop := {
  fq_owner : owner_session q = s;
  fq_pd : qp_pd q = pd_id;
  fq_context : qp_context q = context;
  fq_num : qp_num q = num;
  fq_state : qp_state q = kQpStateReset;
  fq_type : qp_type_ q = kQpTypeRc;
  fq_peer : peer_qp_num q = 0;
}.

Definition room {V} (m : gmap Z V) : Prop := Z.of_nat (size m) <= kMaxObjectSlot.

(** * What requests do

    [action s m object id t t']: a request of session [s] with method [m] for
    [object] succeeds with the new identity [id] (0 if it creates nothing). *)
Inductive action (s : Z) : ControlMethod → Z → Z → Tables → Tables → Prop :=
| act_list t : action s list_devices 0 0 t t
| act_create_context device id t :
    ctxs t !! id = None →
    action s create_context device id t (set_ctxs t (<[id := (s, mkContext device 0)]> (ctxs t)))
| act_destroy_context id c t :
    ctxs t !! id = Some (s, c) → child_count c = 0 →
    action s destroy_context id 0 t (set_ctxs t (delete id (ctxs t)))
| act_create_pd ctx c id t :
    ctxs t !! ctx = Some (s, c) → pds t !! id = None → room (pds t) →
    action s create_pd ctx id t
      (bump_ctx (set_pds t (<[id := (s, mkPd ctx ∅ ∅ ∅ 0)]> (pds t))) ctx 1)
| act_destroy_pd id p c t :
    pds t !! id = Some (s, p) → mr_identities p = ∅ → qp_count p = 0 →
    ctxs t !! pd_context p = Some (s, c) →
    action s destroy_pd id 0 t (bump_ctx (set_pds t (delete id (pds t))) (pd_context p) (-1))
| act_register_mr pd_id p id m t :
    pds t !! pd_id = Some (s, p) → mrs t !! id = None → mr_pd m = pd_id →
    mr_context m = pd_context p → mr_wf m → mr_lkey m = next_key t →
    action s register_mr pd_id id t
      (set_counters (set_pds (set_mrs t (<[id := (s, m)]> (mrs t)))
         (upd (pd_add_mr id (mr_lkey m) (mr_rkey m)) pd_id (pds t)))
         (next_key t + 2) (next_num t))
| act_deregister_mr id m p t :
    mrs t !! id = Some (s, m) → pds t !! mr_pd m = Some (s, p) →
    action s deregister_mr id 0 t
      (set_mrs (set_pds t (upd (pd_remove_mr id (mr_lkey m) (mr_rkey m)) (mr_pd m) (pds t)))
         (delete id (mrs t)))
| act_create_cq ctx c id cqe ring t :
    ctxs t !! ctx = Some (s, c) → cqs t !! id = None → room (cqs t) → 0 < cqe <= U32_MAX →
    action s create_cq ctx id t
      (bump_ctx (set_cqs t (<[id := (s, mkCq ctx cqe 0 ring)]> (cqs t))) ctx 1)
| act_destroy_cq id q c t :
    cqs t !! id = Some (s, q) → qp_references q = 0 → ctxs t !! cq_context q = Some (s, c) →
    action s destroy_cq id 0 t (bump_ctx (set_cqs t (delete id (cqs t))) (cq_context q) (-1))
| act_create_qp pd_id p scq rcq id q t :
    pds t !! pd_id = Some (s, p) → cqs t !! qp_send_cq q = Some (s, scq) →
    cqs t !! qp_recv_cq q = Some (s, rcq) → cq_context scq = pd_context p →
    cq_context rcq = pd_context p → qps t !! id = None → room (qps t) → next_num t ≠ 0 →
    fresh_qp s pd_id (pd_context p) (next_num t) q →
    action s create_qp pd_id id t
      (set_counters
         (bump_qp (set_nums (set_qps t (<[id := (s, q)]> (qps t))) (<[next_num t := id]> (nums t)))
            pd_id (qp_send_cq q) (qp_recv_cq q) 1)
         (next_key t) (u32 (next_num t + 1)))
| act_destroy_qp id q t :
    qps t !! id = Some (s, q) →
    action s destroy_qp id 0 t
      (set_nums (set_qps (bump_qp t (qp_pd q) (qp_send_cq q) (qp_recv_cq q) (-1))
         (delete id (qps t))) (delete (qp_num q) (nums t)))
| act_query_qp id q t :
    qps t !! id = Some (s, q) → action s query_qp id 0 t t
| act_query_qp_conn_info id q t :
    qps t !! id = Some (s, q) → action s query_qp_conn_info id 0 t t
| act_modify_qp id q st access t :
    qps t !! id = Some (s, q) → modify_edge (qp_state q) st →
    action s modify_qp id 0 t (set_qps t (upd (qp_set_state st access) id (qps t)))
| act_connect_qp id q num rid ro remote a t :
    qps t !! id = Some (s, q) → qp_state q = kQpStateInit →
    (peer_qp_num q = 0 ∨ peer_qp_num q = num) → num ≠ 0 →
    nums t !! num = Some rid → qps t !! rid = Some (ro, remote) → qp_type_ remote = kQpTypeRc →
    qp_state remote ∈ [kQpStateInit; kQpStateRtr; kQpStateRts] →
    action s connect_qp id 0 t (set_qps t (upd (qp_set_peer num rid a) id (qps t))).

(** A refused request changes no table; it may have used up keys or a number. *)
Definition unchanged (t t' : Tables) : Prop :=
  ∃ k n, t' = set_counters t k n ∧ (k = next_key t ∨ k = next_key t + 2 ∧ next_key t <= U32_MAX - 1) ∧
    (n = next_num t ∨ next_num t ≠ 0 ∧ n = u32 (next_num t + 1)).

(** The end of a session removes its objects. *)
Definition others {V} (s : Z) (m : gmap Z (Z * V)) : gmap Z (Z * V) := filter (λ e, e.2.1 ≠ s) m.
Definition disconnected (s : Z) (t : Tables) : Tables :=
  mkTables (others s (ctxs t)) (others s (pds t)) (others s (mrs t)) (others s (cqs t))
    (others s (qps t)) (filter (λ e, is_Some (others s (qps t) !! e.2)) (nums t))
    (next_key t) (next_num t).

(** * Counting *)

(** The number of objects of a table whose record satisfies [P]. *)
Definition cnt {V} (P : V → bool) (m : gmap Z (Z * V)) : Z :=
  Z.of_nat (size (filter (λ e, P e.2.2 = true) m)).

Section Counting.
Context {V : Type}.
Implicit Types (P : V → bool) (m : gmap Z (Z * V)).

Lemma cnt_empty P : cnt P ∅ = 0.
Proof. unfold cnt. by rewrite map_filter_empty, map_size_empty. Qed.

Lemma cnt_nonneg P m : 0 <= cnt P m <= Z.of_nat (size m).
Proof. unfold cnt. pose proof (map_size_filter (λ e, P e.2.2 = true) m). lia. Qed.

Lemma cnt_insert P m k o v :
  m !! k = None → cnt P (<[k := (o, v)]> m) = cnt P m + (if P v then 1 else 0).
Proof.
  intros Hk. unfold cnt. destruct (P v) eqn:E.
  - rewrite map_filter_insert_True by done. rewrite map_size_insert_None; [lia|].
    apply map_lookup_filter_None. by left.
  - rewrite map_filter_insert_not' by (simpl; congruence). lia.
Qed.

Lemma cnt_delete P m k o v :
  m !! k = Some (o, v) → cnt P (delete k m) = cnt P m - (if P v then 1 else 0).
Proof.
  intros Hk. rewrite <- (insert_delete_id m k (o, v) Hk) at 2.
  rewrite cnt_insert by apply lookup_delete_eq. destruct (P v); lia.
Qed.

Lemma upd_lookup (f : V → V) k m k' :
  upd f k m !! k' = if decide (k' = k) then prod_map id f <$> m !! k' else m !! k'.
Proof. unfold upd. case_decide as E; [subst; apply lookup_alter_eq|by apply lookup_alter_ne]. Qed.

Lemma upd_Some (f : V → V) k m k' o v :
  upd f k m !! k' = Some (o, v) →
  ∃ v0, m !! k' = Some (o, v0) ∧ v = if decide (k' = k) then f v0 else v0.
Proof.
  rewrite upd_lookup. case_decide; [|eauto]. intros ([o0 v0] & Hv & [= -> ->])%fmap_Some. eauto.
Qed.

Lemma upd_eq (f : V → V) k m o v : m !! k = Some (o, v) → upd f k m !! k = Some (o, f v).
Proof. intros Hk. by rewrite upd_lookup, decide_True, Hk. Qed.

Lemma upd_ne (f : V → V) k m k' : k' ≠ k → upd f k m !! k' = m !! k'.
Proof. intros. by rewrite upd_lookup, decide_False. Qed.

Lemma upd_None (f : V → V) k m k' : upd f k m !! k' = None ↔ m !! k' = None.
Proof. rewrite upd_lookup. case_decide; [|done]. apply fmap_None. Qed.

Lemma upd_mono (f : V → V) k m k' o v :
  m !! k' = Some (o, v) → ∃ v', upd f k m !! k' = Some (o, v') ∧ (v' = v ∨ k' = k ∧ v' = f v).
Proof.
  intros Hv. rewrite upd_lookup, Hv. case_decide; [|by eauto]. simpl. eauto.
Qed.

Lemma upd_absent (f : V → V) k m : m !! k = None → upd f k m = m.
Proof. intros Hk. unfold upd. apply alter_id. intros x Hx. congruence. Qed.

Lemma upd_as_insert (f : V → V) k m o v :
  m !! k = Some (o, v) → upd f k m = <[k := (o, f v)]> (delete k m).
Proof.
  intros Hk. apply map_eq. intros k'. rewrite upd_lookup. case_decide as E; subst.
  - by rewrite Hk, lookup_insert_eq.
  - by rewrite lookup_insert_ne, lookup_delete_ne.
Qed.

Lemma cnt_upd P f k m : (∀ v, P (f v) = P v) → cnt P (upd f k m) = cnt P m.
Proof.
  intros Hf. destruct (m !! k) as [[o v]|] eqn:Hk; [|by rewrite upd_absent].
  rewrite (upd_as_insert _ _ _ _ _ Hk), cnt_insert, (cnt_delete _ _ _ _ _ Hk), Hf;
    [lia|apply lookup_delete_eq].
Qed.

Lemma size_upd (f : V → V) k m : size (upd f k m) = size m.
Proof.
  destruct (m !! k) as [[o v]|] eqn:Hk; [|by rewrite upd_absent].
  rewrite (upd_as_insert _ _ _ _ _ Hk), map_size_insert_None, map_size_delete_Some;
    [|by eauto|apply lookup_delete_eq].
  assert (size m ≠ 0%nat) by (apply map_size_ne_0_lookup; eauto). lia.
Qed.

Lemma cnt_pos P m k o v : m !! k = Some (o, v) → P v = true → 0 < cnt P m.
Proof.
  intros Hk Hv. pose proof (cnt_delete P m k o v Hk). rewrite Hv in *.
  pose proof (cnt_nonneg P (delete k m)). lia.
Qed.

Lemma cnt_zero P m k o v : cnt P m = 0 → m !! k = Some (o, v) → P v = false.
Proof.
  intros Hz Hk. destruct (P v) eqn:E; [|done]. pose proof (cnt_pos P m k o v Hk E). lia.
Qed.

Lemma cnt_none P m : (∀ k o v, m !! k = Some (o, v) → P v = false) → cnt P m = 0.
Proof.
  intros Hm. unfold cnt. replace (filter _ m) with (∅ : gmap Z (Z * V)); [by rewrite map_size_empty|].
  symmetry. apply map_empty. intros k. apply map_lookup_filter_None. right. intros [o v] Hk.
  simpl. by rewrite (Hm _ _ _ Hk).
Qed.

Lemma cnt_others P s m :
  (∀ k o v, m !! k = Some (o, v) → P v = true → o ≠ s) → cnt P (others s m) = cnt P m.
Proof.
  intros Hm. unfold cnt, others. do 2 f_equal. apply map_eq. intros k. apply option_eq. intros [o v].
  rewrite !map_lookup_filter_Some. simpl. split; [tauto|]. intros [Hk HP]. eauto.
Qed.

Lemma others_Some s m k o v : others s m !! k = Some (o, v) ↔ m !! k = Some (o, v) ∧ o ≠ s.
Proof. unfold others. by rewrite map_lookup_filter_Some. Qed.

Lemma size_others s m : (size (others s m) <= size m)%nat.
Proof. apply map_size_filter. Qed.

End Counting.

(** * Integrity

    Every object's parents exist and belong to the same session, the counters that
    guard destruction count exactly the children, the key and number indices are
    exactly the live regions and queue pairs, and keys and numbers are below the
    next ones to be given out. *)

Definition of_context_pd (id : Z) (p : PdRecord) : bool := pd_context p =? id.
Definition of_context_cq (id : Z) (c : CqRecord) : bool := cq_context c =? id.
Definition of_pd (id : Z) (q : QpRecord) : bool := qp_pd q =? id.
Definition of_cq (id : Z) (q : QpRecord) : bool := (qp_send_cq q =? id) || (qp_recv_cq q =? id).

Definition qp_states : list Z := [kQpStateReset; kQpStateInit; kQpStateRts; kQpStateErr].

Record qp_wf (t : Tables) (id o : Z) (q : QpRecord) : Prop := {
  qw_owner : owner_session q = o;
  qw_pd : ∃ p, pds t !! qp_pd q = Some (o, p) ∧ pd_context p = qp_context q;
  qw_send_cq : ∃ c, cqs t !! qp_send_cq q = Some (o, c) ∧ cq_context c = qp_context q;
  qw_recv_cq : ∃ c, cqs t !! qp_recv_cq q = Some (o, c) ∧ cq_context c = qp_context q;
  qw_num : nums t !! qp_num q = Some id;
  qw_issued : 0 < qp_num q ∧ (next_num t = 0 ∨ qp_num q < next_num t) ∧ is_u32 (qp_num q);
  qw_state : qp_state q ∈ qp_states;
  qw_peer : qp_state q = kQpStateRts → peer_qp_num q ≠ 0;
}.

Record pd_wf (t : Tables) (id o : Z) (p : PdRecord) : Prop := {
  pw_context : ∃ c, ctxs t !! pd_context p = Some (o, c);
  pw_mrs : ∀ x, x ∈ mr_identities p → ∃ m, mrs t !! x = Some (o, m) ∧ mr_pd m = id;
  pw_lkeys : ∀ k x, local_key_index p !! k = Some x →
    ∃ m, mrs t !! x = Some (o, m) ∧ mr_pd m = id ∧ mr_lkey m = k;
  pw_rkeys : ∀ k x, remote_key_index p !! k = Some x →
    ∃ m, mrs t !! x = Some (o, m) ∧ mr_pd m = id ∧ mr_rkey m = k;
  pw_qps : qp_count p = cnt (of_pd id) (qps t);
}.

Record mr_linked (t : Tables) (id o : Z) (m : MrRecord) : Prop := {
  ml_pd : ∃ p, pds t !! mr_pd m = Some (o, p) ∧ pd_context p = mr_context m ∧
    id ∈ mr_identities p ∧ local_key_index p !! mr_lkey m = Some id ∧
    remote_key_index p !! mr_rkey m = Some id;
  ml_wf : mr_wf m;
  ml_issued : mr_rkey m < next_key t;
}.

Record cq_wf (t : Tables) (id o : Z) (c : CqRecord) : Prop := {
  cw_context : ∃ x, ctxs t !! cq_context c = Some (o, x);
  cw_qps : qp_references c = cnt (of_cq id) (qps t);
}.

Record integrity (t : Tables) : Prop := {
  ti_ctx : ∀ id o c, ctxs t !! id = Some (o, c) →
    child_count c = cnt (of_context_pd id) (pds t) + cnt (of_context_cq id) (cqs t);
  ti_pd : ∀ id o p, pds t !! id = Some (o, p) → pd_wf t id o p;
  ti_mr : ∀ id o m, mrs t !! id = Some (o, m) → mr_linked t id o m;
  ti_cq : ∀ id o c, cqs t !! id = Some (o, c) → cq_wf t id o c;
  ti_qp : ∀ id o q, qps t !! id = Some (o, q) → qp_wf t id o q;
  ti_num : ∀ n id, nums t !! n = Some id → ∃ o q, qps t !! id = Some (o, q) ∧ qp_num q = n;
  ti_key : 0 < next_key t <= U32_MAX + 1;
  ti_next : 0 <= next_num t <= U32_MAX;
  ti_sizes : Z.of_nat (size (pds t)) <= kMaxObjectSlot + 1 ∧
             Z.of_nat (size (cqs t)) <= kMaxObjectSlot + 1 ∧
             Z.of_nat (size (qps t)) <= kMaxObjectSlot + 1;
}.

(** A counter of children, as the code updates it. *)
Lemma counter_step n d : 0 <= n + d <= 4 * (kMaxObjectSlot + 1) → u64 (n + d) = n + d.
Proof. intros. apply u64_small. unfold kMaxObjectSlot in *. ulia. Qed.

(** ** Frames: what each well-formedness condition depends on *)

(** [t'] has the contexts of [t], whatever their counts. *)
Definition keeps_ctxs (o : Z) (t t' : Tables) : Prop :=
  ∀ k c, ctxs t !! k = Some (o, c) → ∃ c', ctxs t' !! k = Some (o, c').
Definition keeps_pds (o : Z) (t t' : Tables) : Prop :=
  ∀ k p, pds t !! k = Some (o, p) → ∃ p', pds t' !! k = Some (o, p') ∧ pd_context p' = pd_context p.
Definition keeps_cqs (o : Z) (t t' : Tables) : Prop :=
  ∀ k c, cqs t !! k = Some (o, c) → ∃ c', cqs t' !! k = Some (o, c') ∧ cq_context c' = cq_context c.

Lemma pd_wf_frame t t' id o p :
  pd_wf t id o p →
  (∀ c, ctxs t !! pd_context p = Some (o, c) → ∃ c', ctxs t' !! pd_context p = Some (o, c')) →
  (∀ x m, mrs t !! x = Some (o, m) → mr_pd m = id → mrs t' !! x = Some (o, m)) →
  cnt (of_pd id) (qps t') = cnt (of_pd id) (qps t) → pd_wf t' id o p.
Proof.
  intros [[c Hc] Hm Hl Hr Hq] Hctx Hmr Hcnt. split; [by eapply Hctx| | | |congruence].
  - intros x (m & Hx & Hp)%Hm. exists m. eauto.
  - intros k x (m & Hx & Hp & Hk)%Hl. exists m. eauto.
  - intros k x (m & Hx & Hp & Hk)%Hr. exists m. eauto.
Qed.

Lemma cq_wf_frame t t' id o c :
  cq_wf t id o c →
  (∀ x, ctxs t !! cq_context c = Some (o, x) → ∃ x', ctxs t' !! cq_context c = Some (o, x')) →
  cnt (of_cq id) (qps t') = cnt (of_cq id) (qps t) → cq_wf t' id o c.
Proof. intros [[x Hx] Hq] Hctx Hcnt. split; [by eapply Hctx|congruence]. Qed.

Lemma mr_linked_frame t t' id o m :
  mr_linked t id o m → pds t' !! mr_pd m = pds t !! mr_pd m → next_key t <= next_key t' →
  mr_linked t' id o m.
Proof. intros [Hp Hw Hi] Hpd Hk. split; [by rewrite Hpd|done|lia]. Qed.

Lemma qp_wf_frame t t' id o q :
  qp_wf t id o q →
  (∀ p, pds t !! qp_pd q = Some (o, p) →
     ∃ p', pds t' !! qp_pd q = Some (o, p') ∧ pd_context p' = pd_context p) →
  (∀ k c, k = qp_send_cq q ∨ k = qp_recv_cq q → cqs t !! k = Some (o, c) →
     ∃ c', cqs t' !! k = Some (o, c') ∧ cq_context c' = cq_context c) →
  nums t' !! qp_num q = nums t !! qp_num q → next_num t' = next_num t → qp_wf t' id o q.
Proof.
  intros [Ho (p & Hp & Hpc) (sc & Hs & Hsc) (rc & Hr & Hrc) Hn Hi Hst Hpe] Hpd Hcq Hnum Hnext.
  destruct (Hpd p Hp) as (p' & Hp' & Ep). destruct (Hcq _ sc (or_introl eq_refl) Hs) as (sc' & Hs' & Es).
  destruct (Hcq _ rc (or_intror eq_refl) Hr) as (rc' & Hr' & Er).
  split; [done|exists p'; split; congruence|exists sc'; split; congruence
    |exists rc'; split; congruence|congruence|by rewrite Hnext|done|done].
Qed.

Lemma bump_ctxs t id delta o c k :
  ctxs t !! k = Some (o, c) → ∃ c', ctxs (bump_ctx t id delta) !! k = Some (o, c').
Proof. intros Hk. apply (upd_mono (bump delta) id) in Hk as (c' & Hc & _). exists c'. exact Hc. Qed.

Ltac same := repeat match goal with H : ?m !! ?k = Some _, H' : ?m !! ?k = Some _ |- _ =>
  rewrite H in H'; simplify_eq end.

(** ** Contexts *)

Lemma no_pd_of_context t id :
  integrity t → ctxs t !! id = None → cnt (of_context_pd id) (pds t) = 0.
Proof.
  intros Ht Hn. apply cnt_none. intros k o p Hp. apply Z.eqb_neq. intros E.
  destruct (pw_context _ _ _ _ (ti_pd _ Ht _ _ _ Hp)) as [c Hc]. congruence.
Qed.

Lemma no_cq_of_context t id :
  integrity t → ctxs t !! id = None → cnt (of_context_cq id) (cqs t) = 0.
Proof.
  intros Ht Hn. apply cnt_none. intros k o c Hc. apply Z.eqb_neq. intros E.
  destruct (cw_context _ _ _ _ (ti_cq _ Ht _ _ _ Hc)) as [x Hx]. congruence.
Qed.

(** Changing the contexts only. *)
Lemma integrity_ctxs t m :
  integrity t →
  (∀ id o c, m !! id = Some (o, c) →
     child_count c = cnt (of_context_pd id) (pds t) + cnt (of_context_cq id) (cqs t)) →
  (∀ id o p c, pds t !! id = Some (o, p) → ctxs t !! pd_context p = Some (o, c) →
     ∃ c', m !! pd_context p = Some (o, c')) →
  (∀ id o q c, cqs t !! id = Some (o, q) → ctxs t !! cq_context q = Some (o, c) →
     ∃ c', m !! cq_context q = Some (o, c')) →
  integrity (set_ctxs t m).
Proof.
  intros Ht Hm Hp Hq. pose proof Ht as [_ Tpd Tmr Tcq Tqp Tn Tk Tx Ts]. split; try done.
  - intros id o p Hl. eapply pd_wf_frame; [by apply Tpd|..]; eauto.
  - intros id o m0 Hl. eapply mr_linked_frame; [by apply Tmr|done..].
  - intros id o c Hl. eapply cq_wf_frame; [by apply Tcq|..]; eauto.
  - intros id o q Hl. eapply qp_wf_frame; [by apply Tqp|eauto..].
Qed.

Lemma create_context_integrity t s device id :
  integrity t → ctxs t !! id = None →
  integrity (set_ctxs t (<[id := (s, mkContext device 0)]> (ctxs t))).
Proof.
  intros Ht Hn. apply integrity_ctxs; [done| | |].
  - intros k o c [[<- [= <- <-]]|[Hne Hk]]%lookup_insert_Some; [|by apply (ti_ctx _ Ht k o)].
    cbn. by rewrite no_pd_of_context, no_cq_of_context.
  - intros k o p c Hp Hc. exists c. rewrite lookup_insert_ne; [done|]. congruence.
  - intros k o p c Hp Hc. exists c. rewrite lookup_insert_ne; [done|]. congruence.
Qed.

Lemma destroy_context_integrity t s id c :
  integrity t → ctxs t !! id = Some (s, c) → child_count c = 0 →
  integrity (set_ctxs t (delete id (ctxs t))).
Proof.
  intros Ht Hc Hz. rewrite (ti_ctx _ Ht _ _ _ Hc) in Hz.
  pose proof (cnt_nonneg (of_context_pd id) (pds t)). pose proof (cnt_nonneg (of_context_cq id) (cqs t)).
  apply integrity_ctxs; [done| | |].
  - intros k o c' [Hne Hk]%lookup_delete_Some. by apply (ti_ctx _ Ht k o).
  - intros k o p c' Hp Hc'. exists c'. rewrite lookup_delete_ne; [done|]. intros E.
    assert (of_context_pd id p = false) as Hf by (eapply (cnt_zero _ (pds t)); [lia|done]).
    apply Z.eqb_neq in Hf. congruence.
  - intros k o p c' Hp Hc'. exists c'. rewrite lookup_delete_ne; [done|]. intros E.
    assert (of_context_cq id p = false) as Hf by (eapply (cnt_zero _ (cqs t)); [lia|done]).
    apply Z.eqb_neq in Hf. congruence.
Qed.

(** ** Protection domains *)

(** The child counts after a context gained or lost a child. *)
Lemma bump_children t t' ctx d :
  integrity t → ctxs t' = upd (bump d) ctx (ctxs t) →
  (∀ k, cnt (of_context_pd k) (pds t') + cnt (of_context_cq k) (cqs t') =
        cnt (of_context_pd k) (pds t) + cnt (of_context_cq k) (cqs t) + (if k =? ctx then d else 0)) →
  -1 <= d <= 1 →
  ∀ id o c, ctxs t' !! id = Some (o, c) →
    child_count c = cnt (of_context_pd id) (pds t') + cnt (of_context_cq id) (cqs t').
Proof.
  intros Ht Hx Hcnt Hd id o c Hc. rewrite Hx in Hc. apply upd_Some in Hc as (c0 & Hc0 & ->).
  rewrite Hcnt. pose proof (ti_ctx _ Ht _ _ _ Hc0) as Hn. pose proof (ti_sizes _ Ht) as (Hs1 & Hs2 & _).
  pose proof (cnt_nonneg (of_context_pd id) (pds t)). pose proof (cnt_nonneg (of_context_cq id) (cqs t)).
  pose proof (cnt_nonneg (of_context_pd id) (pds t')). pose proof (cnt_nonneg (of_context_cq id) (cqs t')).
  specialize (Hcnt id). destruct (id =? ctx) eqn:E; bool_hyps.
  - rewrite decide_True by done. cbn. rewrite Hn. apply counter_step. unfold kMaxObjectSlot in *. lia.
  - rewrite decide_False by done. lia.
Qed.

Lemma no_qp_of_pd t id : integrity t → pds t !! id = None → cnt (of_pd id) (qps t) = 0.
Proof.
  intros Ht Hn. apply cnt_none. intros k o q Hq. apply Z.eqb_neq. intros E.
  destruct (qw_pd _ _ _ _ (ti_qp _ Ht _ _ _ Hq)) as (p & Hp & _). congruence.
Qed.

Lemma create_pd_integrity t s ctx c id :
  integrity t → ctxs t !! ctx = Some (s, c) → pds t !! id = None → room (pds t) →
  integrity (bump_ctx (set_pds t (<[id := (s, mkPd ctx ∅ ∅ ∅ 0)]> (pds t))) ctx 1).
Proof.
  intros Ht Hc Hn Hroom. pose proof Ht as [_ Tpd Tmr Tcq Tqp Tn Tk Tx (Ts & Ts')]. split; try done.
  - eapply (bump_children t _ ctx 1); [done|done| |lia]. cbn. intros k. rewrite cnt_insert by done.
    unfold of_context_pd at 2. cbn. rewrite Z.eqb_sym. destruct (k =? ctx); lia.
  - cbn [ctxs pds cqs bump_ctx set_pds set_cqs set_ctxs]. intros k o p [[<- [= <- <-]]|[Hne Hk]]%lookup_insert_Some.
    + split; cbn; [by apply (bump_ctxs t ctx 1 s c)| | | |by rewrite no_qp_of_pd].
      * intros x []%not_elem_of_empty.
      * intros x y. by rewrite lookup_empty.
      * intros x y. by rewrite lookup_empty.
    + eapply pd_wf_frame; [by apply Tpd|..]; [|done..]. intros c' Hc'. by apply (bump_ctxs t _ _ o c').
  - intros k o m Hm. pose proof (Tmr _ _ _ Hm) as Hw. eapply mr_linked_frame; [done| |done]. cbn.
    destruct (ml_pd _ _ _ _ Hw) as (p & Hp & _). rewrite lookup_insert_ne; [done|]. congruence.
  - intros k o q Hq. eapply cq_wf_frame; [by apply Tcq| |done]. intros c' Hc'. by apply (bump_ctxs t _ _ o c').
  - intros k o q Hq. eapply qp_wf_frame; [by apply Tqp| | |done|done]; [|eauto]. intros p Hp. exists p.
    cbn. rewrite lookup_insert_ne; [done|]. congruence.
  - cbn. rewrite map_size_insert_None by done. unfold room in Hroom. split; [lia|done].
Qed.

Lemma destroy_pd_integrity t s id p :
  integrity t → pds t !! id = Some (s, p) → mr_identities p = ∅ → qp_count p = 0 →
  integrity (bump_ctx (set_pds t (delete id (pds t))) (pd_context p) (-1)).
Proof.
  intros Ht Hp Hm Hq. pose proof Ht as [_ Tpd Tmr Tcq Tqp Tn Tk Tx (Ts & Ts')]. split; try done.
  - eapply (bump_children t _ (pd_context p) (-1)); [done|done| |lia]. cbn. intros k.
    rewrite (cnt_delete _ _ _ _ _ Hp). unfold of_context_pd at 2. rewrite Z.eqb_sym.
    destruct (k =? pd_context p); lia.
  - cbn [ctxs pds cqs bump_ctx set_pds set_cqs set_ctxs]. intros k o p' [Hne Hk]%lookup_delete_Some. eapply pd_wf_frame; [by apply Tpd|..]; [|done..].
    intros c' Hc'. by apply (bump_ctxs t _ _ o c').
  - intros k o m Hmr. pose proof (Tmr _ _ _ Hmr) as Hw. eapply mr_linked_frame; [done| |done]. cbn.
    destruct (ml_pd _ _ _ _ Hw) as (p' & Hp' & _ & Hin & _). rewrite lookup_delete_ne; [done|].
    intros E. rewrite <- E in Hp'. same. rewrite Hm in Hin. by apply not_elem_of_empty in Hin.
  - intros k o q Hcq. eapply cq_wf_frame; [by apply Tcq| |done]. intros c' Hc'. by apply (bump_ctxs t _ _ o c').
  - intros k o q Hqp. eapply qp_wf_frame; [by apply Tqp| | |done|done]; [|eauto]. intros p' Hp'.
    exists p'. cbn. rewrite lookup_delete_ne; [done|]. intros E.
    rewrite (pw_qps _ _ _ _ (Tpd _ _ _ Hp)) in Hq.
    pose proof (cnt_zero _ _ _ _ _ Hq Hqp) as Hf. apply Z.eqb_neq in Hf. congruence.
  - cbn. rewrite map_size_delete_Some by eauto. split; [lia|done].
Qed.

(** ** Completion queues *)

Lemma no_qp_of_cq t id : integrity t → cqs t !! id = None → cnt (of_cq id) (qps t) = 0.
Proof.
  intros Ht Hn. apply cnt_none. intros k o q Hq. pose proof (ti_qp _ Ht _ _ _ Hq) as Hw.
  destruct (qw_send_cq _ _ _ _ Hw) as (a & Ha & _). destruct (qw_recv_cq _ _ _ _ Hw) as (b & Hb & _).
  apply orb_false_iff. split; apply Z.eqb_neq; congruence.
Qed.

Lemma create_cq_integrity t s ctx c id n ring :
  integrity t → ctxs t !! ctx = Some (s, c) → cqs t !! id = None → room (cqs t) →
  integrity (bump_ctx (set_cqs t (<[id := (s, mkCq ctx n 0 ring)]> (cqs t))) ctx 1).
Proof.
  intros Ht Hc Hn Hroom. pose proof Ht as [_ Tpd Tmr Tcq Tqp Tn Tk Tx (Ts & Ts' & Ts'')]. split; try done.
  - eapply (bump_children t _ ctx 1); [done|done| |lia]. cbn. intros k. rewrite cnt_insert by done.
    unfold of_context_cq at 2. cbn. rewrite Z.eqb_sym. destruct (k =? ctx); lia.
  - intros k o p Hp. eapply pd_wf_frame; [by apply Tpd|..]; [|done..].
    intros c' Hc'. by apply (bump_ctxs t _ _ o c').
  - intros k o m Hm. eapply mr_linked_frame; [by apply Tmr|done..].
  - cbn [ctxs pds cqs bump_ctx set_pds set_cqs set_ctxs]. intros k o q [[<- [= <- <-]]|[Hne Hk]]%lookup_insert_Some.
    + split; cbn; [by apply (bump_ctxs t ctx 1 s c)|by rewrite no_qp_of_cq].
    + eapply cq_wf_frame; [by apply Tcq| |done]. intros c' Hc'. by apply (bump_ctxs t _ _ o c').
  - intros k o q Hq. eapply qp_wf_frame; [by apply Tqp| | |done|done]; [eauto|]. intros k' c' _ Hc'.
    exists c'. cbn. rewrite lookup_insert_ne; [done|]. congruence.
  - cbn. rewrite map_size_insert_None by done. unfold room in Hroom. split_and!; [done|lia|done].
Qed.

Lemma destroy_cq_integrity t s id c :
  integrity t → cqs t !! id = Some (s, c) → qp_references c = 0 →
  integrity (bump_ctx (set_cqs t (delete id (cqs t))) (cq_context c) (-1)).
Proof.
  intros Ht Hc Hq. pose proof Ht as [_ Tpd Tmr Tcq Tqp Tn Tk Tx (Ts & Ts' & Ts'')]. split; try done.
  - eapply (bump_children t _ (cq_context c) (-1)); [done|done| |lia]. cbn. intros k.
    rewrite (cnt_delete _ _ _ _ _ Hc). unfold of_context_cq at 2. rewrite Z.eqb_sym.
    destruct (k =? cq_context c); lia.
  - intros k o p Hp. eapply pd_wf_frame; [by apply Tpd|..]; [|done..].
    intros c' Hc'. by apply (bump_ctxs t _ _ o c').
  - intros k o m Hm. eapply mr_linked_frame; [by apply Tmr|done..].
  - cbn [ctxs pds cqs bump_ctx set_pds set_cqs set_ctxs]. intros k o q [Hne Hk]%lookup_delete_Some. eapply cq_wf_frame; [by apply Tcq| |done].
    intros c' Hc'. by apply (bump_ctxs t _ _ o c').
  - intros k o q Hqp. eapply qp_wf_frame; [by apply Tqp| | |done|done]; [eauto|]. intros k' c' Hk' Hc'.
    exists c'. cbn. rewrite lookup_delete_ne; [done|]. intros <-.
    rewrite (cw_qps _ _ _ _ (Tcq _ _ _ Hc)) in Hq.
    pose proof (cnt_zero _ _ _ _ _ Hq Hqp) as Hf. apply orb_false_iff in Hf as [?%Z.eqb_neq ?%Z.eqb_neq].
    destruct Hk'; congruence.
  - cbn. rewrite map_size_delete_Some by eauto. split_and!; [done|lia|done].
Qed.

(** ** Memory regions *)

(** An update that keeps a field of the record keeps it in the table. *)
Lemma upd_keeps {V W} (g : V → W) (f : V → V) k (m : gmap Z (Z * V)) k' o v :
  (∀ v, g (f v) = g v) → m !! k' = Some (o, v) →
  ∃ v', upd f k m !! k' = Some (o, v') ∧ g v' = g v.
Proof.
  intros Hg Hv. destruct (upd_mono f k m k' o v Hv) as (v' & Hv' & [->|[_ ->]]); eauto.
Qed.

(** Changing the regions and one protection domain, whose context stays. *)
Lemma integrity_mrs t m f pd_id k :
  integrity t → (∀ p, pd_context (f p) = pd_context p) → (∀ p, qp_count (f p) = qp_count p) →
  next_key t <= k <= U32_MAX + 1 →
  (∀ id o p, pds t !! id = Some (o, p) → id ≠ pd_id → ∀ x r,
     mrs t !! x = Some (o, r) → mr_pd r = id → m !! x = Some (o, r)) →
  (∀ o p, pds t !! pd_id = Some (o, p) →
     (∀ x, x ∈ mr_identities (f p) → ∃ r, m !! x = Some (o, r) ∧ mr_pd r = pd_id) ∧
     (∀ i x, local_key_index (f p) !! i = Some x →
        ∃ r, m !! x = Some (o, r) ∧ mr_pd r = pd_id ∧ mr_lkey r = i) ∧
     (∀ i x, remote_key_index (f p) !! i = Some x →
        ∃ r, m !! x = Some (o, r) ∧ mr_pd r = pd_id ∧ mr_rkey r = i)) →
  (∀ id o r, m !! id = Some (o, r) →
     (∃ p, upd f pd_id (pds t) !! mr_pd r = Some (o, p) ∧ pd_context p = mr_context r ∧
        id ∈ mr_identities p ∧ local_key_index p !! mr_lkey r = Some id ∧
        remote_key_index p !! mr_rkey r = Some id) ∧ mr_wf r ∧ mr_rkey r < k) →
  integrity (set_counters (set_pds (set_mrs t m) (upd f pd_id (pds t))) k (next_num t)).
Proof.
  intros Ht Hf Hqc Hk Hother Hthis Hmrs. pose proof Ht as [Tc Tpd Tmr Tcq Tqp Tn Tk Tx (Ts & Ts')].
  split; try done.
  - cbn. intros id o c Hc. rewrite cnt_upd; [by apply (Tc id o)|]. intros v. unfold of_context_pd. by rewrite Hf.
  - cbn [pds set_counters set_pds]. intros id o p Hp. apply upd_Some in Hp as (p0 & Hp0 & ->).
    case_decide as E; [subst id|].
    + destruct (Hthis _ _ Hp0) as (H1 & H2 & H3). destruct (Tpd _ _ _ Hp0) as [Hc _ _ _ Hq].
      split; [by rewrite Hf|done|done|done|]. cbn. by rewrite Hqc.
    + eapply pd_wf_frame; [by apply Tpd|eauto| |done]. cbn. intros x r Hx Hr. by apply (Hother id o p0).
  - cbn [mrs set_counters set_pds set_mrs]. intros id o r Hr. destruct (Hmrs _ _ _ Hr) as (Hp & Hw & Hi).
    by split.
  - cbn. intros id o c Hc. eapply cq_wf_frame; [by apply Tcq|eauto|done].
  - cbn. intros id o q Hq. eapply qp_wf_frame; [by apply Tqp| |eauto|done|done]. cbn. intros p Hp.
    by apply upd_keeps.
  - cbn. lia.
  - cbn. by rewrite size_upd.
Qed.

Lemma register_mr_integrity t s pd_id p id m :
  integrity t → pds t !! pd_id = Some (s, p) → mrs t !! id = None → mr_pd m = pd_id →
  mr_context m = pd_context p → mr_wf m → mr_lkey m = next_key t →
  integrity (set_counters (set_pds (set_mrs t (<[id := (s, m)]> (mrs t)))
    (upd (pd_add_mr id (mr_lkey m) (mr_rkey m)) pd_id (pds t))) (next_key t + 2) (next_num t)).
Proof.
  intros Ht Hp Hn Hpd Hctx Hw Hl. pose proof (mw_rkey _ Hw) as [Hr Hr']. pose proof (ti_key _ Ht) as Hk.
  assert (∀ x o r, mrs t !! x = Some (o, r) → <[id := (s, m)]> (mrs t) !! x = Some (o, r)) as Hold.
  { intros x o r Hx. rewrite lookup_insert_ne; [done|]. congruence. }
  apply integrity_mrs; [done|done|done|ulia| | |].
  - intros k o p' _ _ x r Hx _. by apply Hold.
  - intros o p' Hp'. same. pose proof (ti_pd _ Ht _ _ _ Hp) as [_ Hm Hlk Hrk _]. cbn. split_and!.
    + intros x [Hx|Hx%elem_of_singleton]%elem_of_union; [|subst x; rewrite lookup_insert_eq; by exists m].
      destruct (Hm x Hx) as (r & Hx' & Hr''). exists r. split; [by apply Hold|done].
    + intros i x [[<- <-]|[_ Hi]]%lookup_insert_Some; [rewrite lookup_insert_eq; by exists m|].
      destruct (Hlk i x Hi) as (r & Hx' & Hr''). exists r. split; [by apply Hold|done].
    + intros i x [[<- <-]|[_ Hi]]%lookup_insert_Some; [rewrite lookup_insert_eq; by exists m|].
      destruct (Hrk i x Hi) as (r & Hx' & Hr''). exists r. split; [by apply Hold|done].
  - intros k o r [[<- [= <- <-]]|[Hne Hk']]%lookup_insert_Some.
    + split; [|by split; [|lia]]. exists (pd_add_mr id (mr_lkey m) (mr_rkey m) p). rewrite Hpd. cbn.
      split; [by apply upd_eq|]. split; [done|]. split; [set_solver|]. by rewrite !lookup_insert_eq.
    + pose proof (ti_mr _ Ht _ _ _ Hk') as [(p' & Hp' & Hc' & Hin & Hlk & Hrk) Hw' Hi].
      split; [|split; [done|lia]]. pose proof (mw_rkey _ Hw') as [Hr'' _].
      destruct (upd_mono (pd_add_mr id (mr_lkey m) (mr_rkey m)) pd_id _ _ _ _ Hp')
        as (p2 & Hp2 & [->|[E ->]]); [by exists p'|].
      eexists. split; [done|]. cbn. split; [done|]. split; [set_solver|].
      rewrite !lookup_insert_ne by lia. done.
Qed.

Lemma deregister_mr_integrity t s id m p :
  integrity t → mrs t !! id = Some (s, m) → pds t !! mr_pd m = Some (s, p) →
  integrity (set_mrs (set_pds t (upd (pd_remove_mr id (mr_lkey m) (mr_rkey m)) (mr_pd m) (pds t)))
    (delete id (mrs t))).
Proof.
  intros Ht Hm Hp. pose proof (ti_mr _ Ht _ _ _ Hm) as [(p0 & Hp0 & _ & _ & Hlk & Hrk) Hw _]. same.
  pose proof (ti_key _ Ht) as Hk.
  assert (∀ x o r, x ≠ id → mrs t !! x = Some (o, r) → delete id (mrs t) !! x = Some (o, r)) as Hold.
  { intros x o r Hx Hr. by rewrite lookup_delete_ne. }
  enough (integrity (set_counters (set_pds (set_mrs t (delete id (mrs t)))
    (upd (pd_remove_mr id (mr_lkey m) (mr_rkey m)) (mr_pd m) (pds t))) (next_key t) (next_num t)))
    as Hi by exact Hi.
  apply integrity_mrs; [done|done|done|lia| | |].
  - intros k o p' _ Hne x r Hx Hr. apply Hold; [|done]. intros ->. same; congruence.
  - intros o p' Hp'. same. pose proof (ti_pd _ Ht _ _ _ Hp) as [_ Hms Hls Hrs _]. cbn. split_and!.
    + intros x [Hx Hne%not_elem_of_singleton]%elem_of_difference.
      destruct (Hms x Hx) as (r & Hx' & Hr''). exists r. split; [by apply Hold|done].
    + intros i x [Hne Hi]%lookup_delete_Some. destruct (Hls i x Hi) as (r & Hx' & Hr'' & E).
      exists r. split; [|done]. apply Hold; [|done]. intros ->. same; congruence.
    + intros i x [Hne Hi]%lookup_delete_Some. destruct (Hrs i x Hi) as (r & Hx' & Hr'' & E).
      exists r. split; [|done]. apply Hold; [|done]. intros ->. same; congruence.
  - intros k o r [Hne Hr]%lookup_delete_Some.
    pose proof (ti_mr _ Ht _ _ _ Hr) as [(p' & Hp' & Hc' & Hin & Hl' & Hr') Hw' Hi]. split; [|by split].
    destruct (upd_mono (pd_remove_mr id (mr_lkey m) (mr_rkey m)) (mr_pd m) _ _ _ _ Hp')
      as (p2 & Hp2 & [->|[E ->]]); [by exists p'|].
    rewrite E in Hp'. same. eexists. split; [done|]. cbn. split; [done|]. split; [set_solver|].
    rewrite !lookup_delete_ne by congruence. done.
Qed.

(** ** Queue pairs *)

Definition bump_cqs (scq rcq d : Z) (m : gmap Z (Z * CqRecord)) : gmap Z (Z * CqRecord) :=
  let m := upd (cq_count_qp d) scq m in if rcq =? scq then m else upd (cq_count_qp d) rcq m.

Lemma bump_cqs_Some scq rcq d m k o c :
  bump_cqs scq rcq d m !! k = Some (o, c) →
  ∃ c0, m !! k = Some (o, c0) ∧
    c = if (scq =? k) || (rcq =? k) then cq_count_qp d c0 else c0.
Proof.
  unfold bump_cqs. destruct (rcq =? scq) eqn:E; bool_hyps; [subst rcq|].
  - intros (c0 & Hc & ->)%upd_Some. exists c0. split; [done|]. rewrite orb_diag.
    case_decide; subst; [by rewrite Z.eqb_refl|]. by rewrite (proj2 (Z.eqb_neq scq k)).
  - intros (c1 & (c0 & Hc & ->)%upd_Some & ->)%upd_Some. exists c0. split; [done|].
    repeat case_decide; subst; rewrite ?Z.eqb_refl, ?orb_true_r; try done.
    by rewrite !(proj2 (Z.eqb_neq _ _)).
Qed.

Lemma bump_cqs_keeps scq rcq d m k o c :
  m !! k = Some (o, c) → ∃ c', bump_cqs scq rcq d m !! k = Some (o, c') ∧ cq_context c' = cq_context c.
Proof.
  intros Hc. unfold bump_cqs.
  destruct (upd_keeps cq_context (cq_count_qp d) scq m k o c) as (c1 & H1 & E1); [done|done|].
  destruct (rcq =? scq); [by exists c1|].
  destruct (upd_keeps cq_context (cq_count_qp d) rcq _ k o c1 ltac:(done) H1) as (c2 & H2 & E2).
  exists c2. split; [done|congruence].
Qed.

Lemma size_bump_cqs scq rcq d m : size (bump_cqs scq rcq d m) = size m.
Proof. unfold bump_cqs. destruct (rcq =? scq); by rewrite ?size_upd. Qed.

Lemma cnt_bump_cqs k scq rcq d m : cnt (of_context_cq k) (bump_cqs scq rcq d m) = cnt (of_context_cq k) m.
Proof. unfold bump_cqs. destruct (rcq =? scq); by rewrite ?cnt_upd. Qed.

Lemma integrity_qps t q qps' nums' n d :
  integrity t → -1 <= d <= 1 → 0 <= n <= U32_MAX →
  Z.of_nat (size qps') <= kMaxObjectSlot + 1 →
  (∀ k, cnt (of_pd k) qps' = cnt (of_pd k) (qps t) + (if of_pd k q then d else 0)) →
  (∀ k, cnt (of_cq k) qps' = cnt (of_cq k) (qps t) + (if of_cq k q then d else 0)) →
  (∀ id o q', qps' !! id = Some (o, q') →
     qp_wf (set_counters (set_nums t nums') (next_key t) n) id o q') →
  (∀ i id, nums' !! i = Some id → ∃ o q, qps' !! id = Some (o, q) ∧ qp_num q = i) →
  integrity (set_counters (bump_qp (set_nums (set_qps t qps') nums') (qp_pd q) (qp_send_cq q)
    (qp_recv_cq q) d) (next_key t) n).
Proof.
  intros Ht Hd Hn Hsz Hpd Hcq Hqs Hns. pose proof Ht as [Tc Tpd Tmr Tcq Tqp Tn Tk Tx (Ts & Ts' & Ts'')].
  split; try done.
  - cbn -[bump_cqs]. intros id o c Hc. fold (bump_cqs (qp_send_cq q) (qp_recv_cq q) d (cqs t)).
    rewrite cnt_upd, cnt_bump_cqs by done. by apply (Tc id o).
  - cbn [pds set_counters bump_qp set_nums set_qps set_cqs set_pds]. intros id o p Hp.
    apply upd_Some in Hp as (p0 & Hp0 & ->). pose proof (Tpd _ _ _ Hp0) as [Hc Hm Hl Hr Hq].
    pose proof (cnt_nonneg (of_pd id) (qps t)). pose proof (cnt_nonneg (of_pd id) qps').
    specialize (Hpd id). unfold of_pd at 3 in Hpd. rewrite Z.eqb_sym in Hpd.
    case_decide as E; [subst id|rewrite (proj2 (Z.eqb_neq _ _) E) in Hpd];
      split; try done; cbn [qps set_counters bump_qp set_nums set_qps set_cqs set_pds];
      [|rewrite Hq, Hpd; lia].
    rewrite Z.eqb_refl in Hpd. cbn. rewrite Hq, Hpd. apply counter_step. unfold kMaxObjectSlot in *. lia.
  - cbn [mrs set_counters bump_qp set_nums set_qps set_cqs set_pds]. intros id o m Hm.
    destruct (Tmr _ _ _ Hm) as [(p & Hp & Hpc & Hin & Hlk & Hrk) Hw Hi]. split; [|done|done]. cbn.
    destruct (upd_mono (pd_count_qp d) (qp_pd q) _ _ _ _ Hp) as (p' & Hp' & [->|[_ ->]]); by eexists.
  - cbn [cqs set_counters bump_qp set_nums set_qps set_cqs set_pds]. intros id o c Hc.
    apply (bump_cqs_Some (qp_send_cq q) (qp_recv_cq q) d) in Hc as (c0 & Hc0 & ->).
    destruct (Tcq _ _ _ Hc0) as [Hx Hq]. specialize (Hcq id). unfold of_cq at 3 in Hcq.
    pose proof (cnt_nonneg (of_cq id) (qps t)). pose proof (cnt_nonneg (of_cq id) qps').
    destruct (_ || _); (split; [done|]);
      cbn [qps set_counters bump_qp set_nums set_qps set_cqs set_pds qp_references cq_count_qp];
      [|rewrite Hq, Hcq; lia].
    rewrite Hq, Hcq. apply counter_step. unfold kMaxObjectSlot in *. lia.
  - cbn [qps set_counters bump_qp set_nums set_qps set_cqs set_pds]. intros id o q' Hq'.
    eapply qp_wf_frame; [by apply Hqs| | |done|done].
    + intros p Hp. by apply (upd_keeps pd_context).
    + intros k c _ Hc. by apply bump_cqs_keeps.
  - cbn. fold (bump_cqs (qp_send_cq q) (qp_recv_cq q) d (cqs t)). by rewrite size_upd, size_bump_cqs.
Qed.

Lemma create_qp_integrity t s pd_id p scq rcq id q :
  integrity t → pds t !! pd_id = Some (s, p) → cqs t !! qp_send_cq q = Some (s, scq) →
  cqs t !! qp_recv_cq q = Some (s, rcq) → cq_context scq = pd_context p →
  cq_context rcq = pd_context p → qps t !! id = None → room (qps t) → next_num t ≠ 0 →
  fresh_qp s pd_id (pd_context p) (next_num t) q →
  integrity (set_counters
    (bump_qp (set_nums (set_qps t (<[id := (s, q)]> (qps t))) (<[next_num t := id]> (nums t)))
       pd_id (qp_send_cq q) (qp_recv_cq q) 1) (next_key t) (u32 (next_num t + 1))).
Proof.
  intros Ht Hp Hs Hr Es Er Hn Hroom Hnz [Fo Fp Fc Fn Fs Ft Fe]. rewrite <- Fp.
  pose proof (ti_next _ Ht) as Hnext. unfold room in Hroom.
  assert (u32 (next_num t + 1) = 0 ∨ u32 (next_num t + 1) = next_num t + 1) as Hu.
  { destruct (decide (next_num t = U32_MAX)) as [->|]; [by left|right; apply u32_small; ulia]. }
  apply integrity_qps; [done|lia|pose proof (u32_range (next_num t + 1)); ulia| | | | |].
  - rewrite map_size_insert_None by done. lia.
  - intros k. by rewrite cnt_insert.
  - intros k. by rewrite cnt_insert.
  - intros k o q' [[<- [= <- <-]]|[Hne Hk]]%lookup_insert_Some.
    + split; cbn; [done|exists p; by rewrite Fp, Fc|exists scq; by rewrite Fc|exists rcq; by rewrite Fc
        | | | |].
      * by rewrite Fn, lookup_insert_eq.
      * rewrite Fn. split_and!; try ulia.
      * rewrite Fs. by left.
      * by rewrite Fs.
    + destruct (ti_qp _ Ht _ _ _ Hk) as [Ho Hpd Hsc Hrc Hnm Hi Hst Hpe]. split; try done; cbn.
      * rewrite lookup_insert_ne; [done|lia].
      * split_and!; try apply Hi. lia.
  - intros i x [[<- <-]|[Hne Hi]]%lookup_insert_Some; [exists s, q; by rewrite lookup_insert_eq|].
    destruct (ti_num _ Ht _ _ Hi) as (o & q' & Hq' & E). exists o, q'. rewrite lookup_insert_ne; [done|].
    congruence.
Qed.

Lemma destroy_qp_integrity t s id q :
  integrity t → qps t !! id = Some (s, q) →
  integrity (set_nums (set_qps (bump_qp t (qp_pd q) (qp_send_cq q) (qp_recv_cq q) (-1))
    (delete id (qps t))) (delete (qp_num q) (nums t))).
Proof.
  intros Ht Hq. pose proof (ti_next _ Ht) as Hnext. pose proof (ti_sizes _ Ht) as (_ & _ & Hsz).
  pose proof (ti_qp _ Ht _ _ _ Hq) as Hw.
  enough (integrity (set_counters
    (bump_qp (set_nums (set_qps t (delete id (qps t))) (delete (qp_num q) (nums t)))
       (qp_pd q) (qp_send_cq q) (qp_recv_cq q) (-1)) (next_key t) (next_num t))) as Hi by exact Hi.
  apply integrity_qps; [done|lia|done| | | | |].
  - rewrite map_size_delete_Some by eauto. lia.
  - intros k. rewrite (cnt_delete _ _ _ _ _ Hq). destruct (of_pd k q); lia.
  - intros k. rewrite (cnt_delete _ _ _ _ _ Hq). destruct (of_cq k q); lia.
  - intros k o q' [Hne Hk]%lookup_delete_Some. destruct (ti_qp _ Ht _ _ _ Hk) as [Ho Hpd Hsc Hrc Hnm Hi Hst Hpe].
    split; try done; cbn. rewrite lookup_delete_ne; [done|]. intros E.
    rewrite <- E, (qw_num _ _ _ _ Hw) in Hnm. congruence.
  - intros i x [Hne Hi]%lookup_delete_Some. destruct (ti_num _ Ht _ _ Hi) as (o & q' & Hq' & E).
    exists o, q'. rewrite lookup_delete_ne; [done|]. intros <-. same; done.
Qed.

(** A change of state that keeps what the other tables refer to. *)
Lemma update_qp_integrity t s id q f :
  integrity t → qps t !! id = Some (s, q) → (∀ q, owner_session (f q) = owner_session q) →
  (∀ q, qp_pd (f q) = qp_pd q ∧ qp_context (f q) = qp_context q) →
  (∀ q, qp_send_cq (f q) = qp_send_cq q ∧ qp_recv_cq (f q) = qp_recv_cq q) →
  (∀ q, qp_num (f q) = qp_num q) → qp_state (f q) ∈ qp_states →
  (qp_state (f q) = kQpStateRts → peer_qp_num (f q) ≠ 0) →
  integrity (set_qps t (upd f id (qps t))).
Proof.
  intros Ht Hq Fo Fp Fc Fn Fs Fr. pose proof Ht as [Tc Tpd Tmr Tcq Tqp Tn Tk Tx (Ts & Ts' & Ts'')].
  assert (∀ k v, of_pd k (f v) = of_pd k v) as Hpd by (intros k v; unfold of_pd; by destruct (Fp v) as [-> _]).
  assert (∀ k v, of_cq k (f v) = of_cq k v) as Hcq
    by (intros k v; unfold of_cq; by destruct (Fc v) as [-> ->]).
  split; try done; cbn [ctxs pds mrs cqs qps nums set_qps].
  - intros k o p Hp. eapply pd_wf_frame; [by apply Tpd|eauto|done|by apply cnt_upd].
  - intros k o m Hm. eapply mr_linked_frame; [by apply Tmr|done..].
  - intros k o c Hc. eapply cq_wf_frame; [by apply Tcq|eauto|by apply cnt_upd].
  - intros k o q' Hq'. apply upd_Some in Hq' as (q0 & Hq0 & ->). case_decide as E; [subst k; same|].
    + destruct (Tqp _ _ _ Hq) as [Ho Hp Hsc Hrc Hnm Hi Hst Hpe]. destruct (Fp q0) as [Ep Ec].
      destruct (Fc q0) as [Esc Erc]. split; cbn; rewrite ?Fo, ?Ep, ?Ec, ?Esc, ?Erc, ?Fn; done.
    + eapply qp_wf_frame; [by apply Tqp|eauto..].
  - intros n k Hk. destruct (Tn _ _ Hk) as (o & q' & Hq' & E).
    destruct (upd_keeps qp_num f id _ _ _ _ Fn Hq') as (q2 & Hq2 & E2). exists o, q2. split; [done|congruence].
  - cbn. by rewrite size_upd.
Qed.

(** ** Every transition *)

Lemma action_integrity s m object id t t' : action s m object id t t' → integrity t → integrity t'.
Proof.
  intros Ha Ht. destruct Ha.
  - done.
  - by apply create_context_integrity.
  - by eapply destroy_context_integrity.
  - by eapply create_pd_integrity.
  - by eapply destroy_pd_integrity.
  - by eapply register_mr_integrity.
  - by eapply deregister_mr_integrity.
  - by eapply create_cq_integrity.
  - by eapply destroy_cq_integrity.
  - by eapply create_qp_integrity.
  - by eapply destroy_qp_integrity.
  - done.
  - done.
  - eapply update_qp_integrity; try done; cbn.
    + match goal with H : modify_edge _ _ |- _ => destruct H end; [by right; left|by do 3 right; left].
    + match goal with H : modify_edge _ _ |- _ => by destruct H end.
  - eapply update_qp_integrity; try done; cbn. by do 2 right; left.
Qed.

Lemma unchanged_integrity t t' : unchanged t t' → integrity t → integrity t'.
Proof.
  intros (k & n & -> & Hk & Hn) Ht. pose proof Ht as [Tc Tpd Tmr Tcq Tqp Tn Tk Tx Ts].
  split; try done; cbn [ctxs pds mrs cqs qps nums set_counters].
  - intros id o p Hp. eapply pd_wf_frame; [by apply Tpd|eauto|done|done].
  - intros id o m Hm. eapply mr_linked_frame; [by apply Tmr|done|cbn; lia].
  - intros id o c Hc. eapply cq_wf_frame; [by apply Tcq|eauto|done].
  - intros id o q Hq. destruct (Tqp _ _ _ Hq) as [Ho Hp Hs Hr Hnm (Hi1 & Hi2 & Hi3) Hst Hpe].
    split; try done; cbn. split_and!; [lia| |done].
    destruct Hn as [->|[Hz ->]]; [done|]. destruct (decide (next_num t = U32_MAX)) as [->|]; [by left|].
    right. rewrite u32_small by ulia. lia.
  - cbn. ulia.
  - cbn. destruct Hn as [->|[_ ->]]; [done|]. pose proof (u32_range (next_num t + 1)). ulia.
Qed.

Lemma disconnected_integrity s t : integrity t → integrity (disconnected s t).
Proof.
  intros Ht. pose proof Ht as [Tc Tpd Tmr Tcq Tqp Tn Tk Tx (Ts & Ts' & Ts'')].
  assert (∀ o id, o ≠ s → (∀ k o' q, qps t !! k = Some (o', q) → of_pd id q = true → o' = o) →
    cnt (of_pd id) (others s (qps t)) = cnt (of_pd id) (qps t)) as Hq.
  { intros o id Ho Hk. apply cnt_others. intros k o' q Hl HP. by rewrite (Hk _ _ _ Hl HP). }
  split; try done; cbn [ctxs pds mrs cqs qps nums disconnected].
  - intros id o c [Hc Ho]%others_Some. rewrite !cnt_others; [by apply (Tc id o)| |].
    + intros k o' q Hl HP%Z.eqb_eq. destruct (cw_context _ _ _ _ (Tcq _ _ _ Hl)) as [x Hx].
      rewrite HP, Hc in Hx. congruence.
    + intros k o' q Hl HP%Z.eqb_eq. destruct (pw_context _ _ _ _ (Tpd _ _ _ Hl)) as [x Hx].
      rewrite HP, Hc in Hx. congruence.
  - intros id o p [Hp Ho]%others_Some. eapply pd_wf_frame; [by apply Tpd| | |]; cbn.
    + intros c Hc. exists c. by apply others_Some.
    + intros x m Hm _. by apply others_Some.
    + apply (Hq o); [done|]. intros k o' q Hl HP%Z.eqb_eq.
      destruct (qw_pd _ _ _ _ (Tqp _ _ _ Hl)) as (p' & Hp' & _). rewrite HP, Hp in Hp'. congruence.
  - intros id o m [Hm Ho]%others_Some. pose proof (Tmr _ _ _ Hm) as Hw.
    destruct (ml_pd _ _ _ _ Hw) as (p & Hp & _). eapply mr_linked_frame; [done| |done]. cbn.
    rewrite Hp. by apply others_Some.
  - intros id o c [Hc Ho]%others_Some. eapply cq_wf_frame; [by apply Tcq| |]; cbn.
    + intros x Hx. exists x. by apply others_Some.
    + apply cnt_others. intros k o' q Hl HP. pose proof (Tqp _ _ _ Hl) as Hw.
      destruct (qw_send_cq _ _ _ _ Hw) as (a & Ha & _). destruct (qw_recv_cq _ _ _ _ Hw) as (b & Hb & _).
      apply orb_true_iff in HP as [HP%Z.eqb_eq|HP%Z.eqb_eq]; rewrite HP in *; congruence.
  - intros id o q [Hq' Ho]%others_Some. eapply qp_wf_frame; [by apply Tqp| | | |done]; cbn.
    + intros p Hp. exists p. split; [by apply others_Some|done].
    + intros k c _ Hc. exists c. split; [by apply others_Some|done].
    + rewrite (qw_num _ _ _ _ (Tqp _ _ _ Hq')). apply map_lookup_filter_Some. cbn.
      split; [by apply (qw_num _ _ _ _ (Tqp _ _ _ Hq'))|]. exists (o, q). by apply others_Some.
  - intros n id [Hn [[o q] Hlk]]%map_lookup_filter_Some. cbn in Hlk. exists o, q. split; [done|].
    apply others_Some in Hlk as [Hlk _]. destruct (Tn _ _ Hn) as (o' & q' & Hq' & E). same; done.
  - cbn. pose proof (size_others s (pds t)). pose proof (size_others s (cqs t)).
    pose proof (size_others s (qps t)). lia.
Qed.

(** ** Isolation *)

(** The objects of session [o] are the same in both. *)
Definition same_for (o : Z) (t t' : Tables) : Prop :=
  (∀ k c, ctxs t !! k = Some (o, c) ↔ ctxs t' !! k = Some (o, c)) ∧
  (∀ k p, pds t !! k = Some (o, p) ↔ pds t' !! k = Some (o, p)) ∧
  (∀ k m, mrs t !! k = Some (o, m) ↔ mrs t' !! k = Some (o, m)) ∧
  (∀ k c, cqs t !! k = Some (o, c) ↔ cqs t' !! k = Some (o, c)) ∧
  (∀ k q, qps t !! k = Some (o, q) ↔ qps t' !! k = Some (o, q)).

Lemma same_insert {V} (m : gmap Z (Z * V)) o s id v k w :
  o ≠ s → m !! id = None → (m !! k = Some (o, w) ↔ <[id := (s, v)]> m !! k = Some (o, w)).
Proof.
  intros Ho Hn. rewrite lookup_insert. case_decide as E; [subst|done]. split; congruence.
Qed.

Lemma same_delete {V} (m : gmap Z (Z * V)) o s id v k w :
  o ≠ s → m !! id = Some (s, v) → (m !! k = Some (o, w) ↔ delete id m !! k = Some (o, w)).
Proof.
  intros Ho Hn. rewrite lookup_delete. case_decide as E; [subst|done]. split; congruence.
Qed.

Lemma same_upd {V} (m : gmap Z (Z * V)) f o s id v k w :
  o ≠ s → m !! id = Some (s, v) → (m !! k = Some (o, w) ↔ upd f id m !! k = Some (o, w)).
Proof.
  intros Ho Hn. rewrite upd_lookup. case_decide as E; [subst|done]. rewrite Hn. cbn. split; congruence.
Qed.

Lemma same_bump_cqs (m : gmap Z (Z * CqRecord)) o s scq rcq c1 c2 d k w :
  o ≠ s → m !! scq = Some (s, c1) → m !! rcq = Some (s, c2) →
  (m !! k = Some (o, w) ↔ bump_cqs scq rcq d m !! k = Some (o, w)).
Proof.
  intros Ho H1 H2. unfold bump_cqs. etransitivity; [by apply (same_upd m (cq_count_qp d) o s scq c1)|].
  destruct (rcq =? scq) eqn:E; [done|]. bool_hyps.
  apply (same_upd _ _ o s rcq c2); [done|]. by rewrite upd_ne.
Qed.

Lemma action_isolated s m object id t t' o :
  action s m object id t t' → integrity t → o ≠ s → same_for o t t'.
Proof.
  intros Ha Ht Ho. destruct Ha; split_and!; intros k w; cbn; try done;
    try (by eapply same_insert); try (by eapply same_delete); try (by eapply same_upd).
  - by eapply same_bump_cqs.
  - destruct (qw_pd _ _ _ _ (ti_qp _ Ht _ _ _ ltac:(eassumption))) as (p & Hp & _). by eapply same_upd.
  - pose proof (ti_qp _ Ht _ _ _ ltac:(eassumption)) as Hw.
    destruct (qw_send_cq _ _ _ _ Hw) as (a & Ha & _). destruct (qw_recv_cq _ _ _ _ Hw) as (b & Hb & _).
    by eapply same_bump_cqs.
Qed.

End ControlSpec.
