(* ===== verification/ControlRefine.v ===== *)
(** The control service of the daemon refines its contract (ControlSpec.v): every
    request either does exactly what the contract says or is refused and changes no
    table, and the integrity invariant holds in every reachable state. *)

From S2P Require Import Prelude Wire ObjectIdentity ObjectRegistry SharedRing Descriptors Worker.
From S2P Require Import WorkerStream Protocol Adapter QueueDescriptors Control DeviceContext PdMrCq.
From S2P Require Import Qp ControlSpec.
Import Registry Ring Adapter QueueDescriptors Control CudaIpc PdMrCq Qp DeviceContext ControlSpec.

Module ControlRefine.

(** * The abstraction of a service *)

Section Tables.
Context {M : Type}.

Definition tables (s : QpService M) : Tables :=
  mkTables (view ObjectIdentity.context (contexts_ (device_ (base_ s))))
    (view ObjectIdentity.pd (pds_ (base_ s))) (view ObjectIdentity.mr (mrs_ (base_ s)))
    (view ObjectIdentity.cq (cqs_ (base_ s))) (view ObjectIdentity.qp (qps_ s))
    (qp_num_index_ s) (next_key_ (base_ s)) (next_qp_num_ s).

Record regs_ok (s : QpService M) : Prop := {
  ro_ctx : reg_inv (contexts_ (device_ (base_ s)));
  ro_pd : reg_inv (pds_ (base_ s));
  ro_mr : reg_inv (mrs_ (base_ s));
  ro_cq : reg_inv (cqs_ (base_ s));
  ro_qp : reg_inv (qps_ s);
}.
End Tables.

(** An [int]. *)
Definition is_int (e : Z) : Prop := - 2147483648 <= e <= I32_MAX.
Definition int_error {A} (r : result A) : Prop := match r with Ok _ => True | Err e => is_int e end.

(** The outcomes of the system calls are what their C types hold. *)
Definition int_answers (a : RingSystem) : Prop :=
  int_error (sys_page_size a) ∧ int_error (sys_memfd a) ∧ is_int (sys_ftruncate a) ∧ is_int (sys_mmap a) ∧
  is_int (sys_add_seals a).

(** The system calls report errors with nonzero codes of type [int]. *)
Record kernel_sane (k : Kernel) : Prop := {
  ks_page : ∀ n e, sys_page_size (ring_answers k n) = Err e → e ≠ 0;
  ks_memfd : ∀ n e, sys_memfd (ring_answers k n) = Err e → e ≠ 0;
  ks_dup : ∀ n e, dup_answers k n = Err e → e ≠ 0;
  ks_int : ∀ n, int_answers (ring_answers k n) ∧ int_error (dup_answers k n);
}.

Record inv {M} (s : QpService M) : Prop := {
  iv_regs : regs_ok s;
  iv_integrity : integrity (tables s);
  iv_kernel : kernel_sane (kernel_ (base_ s));
}.

Ltac named := unfold ObjectIdentity.named_type; tauto.

(** * Lemmas on one registry *)

Section Reg.
Context {R : Type} (T : ObjectIdentity.ObjectType) (HT : ObjectIdentity.named_type T).
Implicit Types r : @GenerationRegistry R.

Lemma resolve_Some r s id v :
  reg_inv r → is_u64 id → resolve T r s id = Some v ↔ view T r !! id = Some (s, v).
Proof.
  intros Hr Hu. rewrite (resolve_view T HT) by done.
  destruct (view T r !! id) as [[o w]|]; [|by split].
  destruct (o =? s) eqn:E; bool_hyps; split; congruence.
Qed.

Lemma resolve_any_Some r id v :
  reg_inv r → is_u64 id → resolve_any T r id = Some v ↔ ∃ o, view T r !! id = Some (o, v).
Proof.
  intros Hr Hu. rewrite (resolve_any_view T HT) by done.
  destruct (view T r !! id) as [[o w]|]; cbn; [|by split; [|intros [? ?]]].
  split; [intros [= ->]; eauto|intros [? [= _ ->]]; done].
Qed.

Lemma view_u64 r id e : reg_inv r → view T r !! id = Some e → is_u64 id.
Proof.
  intros Hr He. destruct e as [o v].
  apply (view_lookup T HT) in He as (i & sl & Hs & _ & _ & _ & Hen); [|done].
  destruct (encodes_total T HT i (slot_generation sl)) as (id' & Hid' & Hb);
    [by apply (inv_slots _ Hr i)|by eapply slot_index_bound|].
  unfold encodes in *. assert (id' = id) by congruence. ulia.
Qed.

Lemma view_room r r' id e :
  reg_inv r' → view T r !! id = None → view T r' = <[id := e]> (view T r) → room (view T r).
Proof.
  intros Hr' Hn Hv. pose proof (view_size T HT r' Hr') as Hs. rewrite Hv in Hs.
  rewrite map_size_insert_None in Hs by done. pose proof (inv_live _ Hr') as Hl.
  pose proof (inv_length _ Hr') as Hlen. unfold count_live in Hl.
  pose proof (length_omap_le slot_value (slots_ r')) as Ho. unfold room. lia.
Qed.

End Reg.

(** * Lemmas on the kernel *)

Definition same_answers (k k' : Kernel) : Prop :=
  ring_answers k' = ring_answers k ∧ dup_answers k' = dup_answers k.

Lemma kernel_sane_same k k' : kernel_sane k → same_answers k k' → kernel_sane k'.
Proof. intros [] [H1 H2]. split; rewrite ?H1, ?H2; done. Qed.

Lemma same_answers_trans k1 k2 k3 : same_answers k1 k2 → same_answers k2 k3 → same_answers k1 k3.
Proof. intros [] []. split; congruence. Qed.

Lemma new_ring_answers k d : same_answers k (new_ring k d).1.
Proof. unfold new_ring. by destruct (create_shared_ring _ _ _ _). Qed.
Lemma dup_ring_answers k r : same_answers k (dup_ring k r).1.
Proof. done. Qed.

Lemma mapping_size_error d page e : shared_ring_mapping_size d page = Err e → e ≠ 0.
Proof. unfold shared_ring_mapping_size. repeat case_match; intros [= <-]; done. Qed.

Lemma new_ring_error k d k' e : kernel_sane k → new_ring k d = (k', Err e) → e ≠ 0.
Proof.
  intros [Hp Hm _ _]. unfold new_ring, create_shared_ring. cbn [valid mapping_ no_ring].
  set (a := ring_answers k (ring_calls k)).
  destruct (_ ≫= _) as [msize|e0] eqn:E.
  2:{ intros [= _ <-]. destruct (sys_page_size a) as [page|e1] eqn:Ep; cbn in E.
      - by eapply mapping_size_error.
      - injection E as <-. by eapply Hp. }
  destruct (_ <? _); [by intros [= _ <-]|].
  destruct (sys_memfd a) as [fd|e1] eqn:Em; [|intros [= _ <-]; by eapply Hm].
  destruct (negb (sys_ftruncate a =? 0)) eqn:E1; [bool_hyps; intros [= _ <-]; done|].
  destruct (negb (sys_mmap a =? 0)) eqn:E2; [bool_hyps; intros [= _ <-]; done|].
  destruct (negb (sys_add_seals a =? 0)) eqn:E3; [bool_hyps; intros [= _ <-]; done|done].
Qed.

Lemma dup_ring_error k r k' e : kernel_sane k → dup_ring k r = (k', Err e) → e ≠ 0.
Proof.
  intros [_ _ Hd _]. unfold dup_ring, duplicate_fd.
  destruct (descriptor_ r <? 0); [by intros [= _ <-]|].
  destruct (dup_answers k (dup_calls k)) eqn:E; [done|]. intros [= _ <-]. by eapply Hd.
Qed.

Lemma create_rings_answers k sd rd : same_answers k (create_rings k sd rd).1.
Proof.
  unfold create_rings. pose proof (new_ring_answers k sd) as H1.
  destruct (new_ring k sd) as [k1 [sr|e]]; [|done]. pose proof (new_ring_answers k1 rd) as H2.
  destruct (new_ring k1 rd) as [k2 [rr|e]]; cbn [fst] in H1, H2;
    pose proof (same_answers_trans _ _ _ H1 H2) as H3; [|done].
  pose proof (dup_ring_answers k2 sr) as H4.
  destruct (dup_ring k2 sr) as [k3 [f|e]]; cbn [fst] in H4;
    pose proof (same_answers_trans _ _ _ H3 H4) as H5; [|done].
  pose proof (dup_ring_answers k3 rr) as H6.
  destruct (dup_ring k3 rr) as [k4 [f'|e]]; exact (same_answers_trans _ _ _ H5 H6).
Qed.

Lemma create_rings_error k sd rd k' e : kernel_sane k → create_rings k sd rd = (k', Err e) → e ≠ 0.
Proof.
  intros Hk. unfold create_rings. pose proof (new_ring_answers k sd) as H1.
  destruct (new_ring k sd) as [k1 [sr|e1]] eqn:E1; [|intros [= _ <-]; by eapply new_ring_error].
  cbn in H1. pose proof (kernel_sane_same _ _ Hk H1) as Hk1. pose proof (new_ring_answers k1 rd) as H2.
  destruct (new_ring k1 rd) as [k2 [rr|e2]] eqn:E2; [|intros [= _ <-]; by eapply (new_ring_error k1)].
  cbn in H2. pose proof (kernel_sane_same _ _ Hk1 H2) as Hk2. pose proof (dup_ring_answers k2 sr) as H3.
  destruct (dup_ring k2 sr) as [k3 [f|e3]] eqn:E3; [|intros [= _ <-]; by eapply (dup_ring_error k2)].
  cbn in H3. pose proof (kernel_sane_same _ _ Hk2 H3) as Hk3.
  destruct (dup_ring k3 rr) as [k4 [f'|e4]] eqn:E4; [done|intros [= _ <-]; by eapply (dup_ring_error k3)].
Qed.

(** ** Errors of the decoders *)

Lemma decode_mr_error bytes len e : decode_mr_registration bytes len = Err e → e ≠ 0.
Proof. unfold decode_mr_registration. intros H. repeat case_match; simplify_eq; done. Qed.
Lemma encode_mr_result_error r e : encode_mr_registration_result r = Err e → e ≠ 0.
Proof. unfold encode_mr_registration_result. case_match; [by intros [= <-]|done]. Qed.
Lemma encode_descriptors_error ds e : encode_queue_descriptors ds = Err e → e ≠ 0.
Proof. unfold encode_queue_descriptors. intros H. repeat case_match; simplify_eq; done. Qed.
Lemma device_list_size_error ds n e : device_list_size n ds = Err e → e ≠ 0.
Proof.
  revert n. induction ds as [|d ds IH]; intros n; simpl; [done|]. case_match; [by intros [= <-]|].
  case_match; [by intros [= <-]|apply IH].
Qed.
Lemma encode_device_list_error ds e : encode_device_list ds = Err e → e ≠ 0.
Proof.
  unfold encode_device_list. case_match; [by intros [= <-]|].
  destruct (device_list_size 4 ds) eqn:E; cbn; [done|]. intros [= <-].
  by eapply device_list_size_error.
Qed.
Lemma slot_stride_error h n e : Descriptors.aligned_slot_stride h n = Err e → e ≠ 0.
Proof. unfold Descriptors.aligned_slot_stride. intros H. repeat case_match; simplify_eq; done. Qed.
Lemma create_attributes_error bytes e : decode_qp_create_attributes bytes = Err e → e ≠ 0.
Proof. unfold decode_qp_create_attributes. intros H. repeat case_match; simplify_eq; done. Qed.
Lemma read_header_error bytes n e : read_header bytes n = Err e → e ≠ 0.
Proof. unfold read_header. intros H. repeat case_match; simplify_eq; done. Qed.
Lemma query_error bytes e : decode_query_payload bytes = Err e → e ≠ 0.
Proof.
  unfold decode_query_payload. destruct (read_header _ _) eqn:E; cbn [mbind result_bind].
  - repeat case_match; by intros [= <-].
  - intros [= <-]. by eapply read_header_error.
Qed.
Lemma modify_error bytes e : decode_modify_payload bytes = Err e → e ≠ 0.
Proof.
  unfold decode_modify_payload. destruct (read_header _ _) eqn:E; cbn [mbind result_bind].
  - intros H. repeat case_match; simplify_eq; done.
  - intros [= <-]. by eapply read_header_error.
Qed.
Lemma connect_error bytes e : decode_connect_payload bytes = Err e → e ≠ 0.
Proof.
  unfold decode_connect_payload. destruct (read_header _ _) eqn:E; cbn [mbind result_bind].
  - intros H. repeat case_match; simplify_eq; done.
  - intros [= <-]. by eapply read_header_error.
Qed.

End ControlRefine.

(** What the service relies on from [CudaIpcMemoryBackend]: errors of [open] are nonzero
    codes, mappings have addresses, and codes are [int]s. *)
Class CudaIpcMemoryLaws (M : Type) `{CudaIpcMemoryBackend M} := {
  open_error : ∀ m x m' e, mem_open m x = (m', Err e) → e ≠ 0;
  open_mapped : ∀ m x m' map, mem_open m x = (m', Ok map) → 0 <= daemon_base_address map;
  open_int : ∀ m x m' e, mem_open m x = (m', Err e) → ControlRefine.is_int e;
  close_int : ∀ m map, ControlRefine.is_int (mem_close m map).2;
}.

Module ControlHandlers.
Import ControlRefine.

(** * Every handler *)

Section Handlers.
Context {M : Type} `{CudaIpcMemoryLaws M}.
Implicit Types (s : QpService M) (r : UgdrControlRequest).

(** The outcome of a request: with status 0 its action, otherwise nothing. *)
Record outcome (session : Z) r s s' (res : ControlServiceResult) : Prop := {
  oc_regs : regs_ok s';
  oc_kernel : kernel_sane (kernel_ (base_ s'));
  oc_identity : is_u64 (rs_object_identity (response res));
  oc_indices : Forall is_u32 (rs_fd_indices (response res));
  oc_effect :
    if rs_status (response res) =? 0
    then action session (method_of_code (rq_method r)) (rq_object_identity r)
           (rs_object_identity (response res)) (tables s) (tables s')
    else unchanged (tables s) (tables s');
}.

Lemma with_base_id s : with_base s (base_ s) = s.
Proof. by destruct s. Qed.

Lemma unchanged_refl t : unchanged t t.
Proof. exists (next_key t), (next_num t). destruct t. auto. Qed.

Lemma refused_with session r s s' e :
  regs_ok s' → kernel_sane (kernel_ (base_ s')) → unchanged (tables s) (tables s') → e ≠ 0 →
  outcome session r s s' (response_for r e).
Proof.
  intros Hr Hk Hu He. split; [done|done|done|constructor|]. cbn. by rewrite (proj2 (Z.eqb_neq _ _) He).
Qed.

Lemma refused session r s e : inv s → e ≠ 0 → outcome session r s s (response_for r e).
Proof. intros [Hr _ Hk] He. apply refused_with; auto using unchanged_refl. Qed.

Lemma refused_base session r s e :
  inv s → e ≠ 0 → outcome session r s (with_base s (base_ s)) (response_for r e).
Proof. rewrite with_base_id. apply refused. Qed.

(** A refusal that only touched the kernel or the memory backend. *)
Lemma refused_kernel session r s k m e :
  inv s → same_answers (kernel_ (base_ s)) k → e ≠ 0 →
  outcome session r s (with_base s (with_kernel (with_memory (base_ s) m) k)) (response_for r e).
Proof.
  intros [[] _ Hk] Ha He. apply refused_with; [by split|by eapply kernel_sane_same|apply unchanged_refl|done].
Qed.

Lemma refused_memory session r s m e :
  inv s → e ≠ 0 → outcome session r s (with_base s (with_memory (base_ s) m)) (response_for r e).
Proof.
  intros [[] _ Hk] He. apply refused_with; [by split|done|apply unchanged_refl|done].
Qed.

(** ** Devices and contexts *)

Lemma device_outcome session r fds s :
  inv s → is_u64 (rq_object_identity r) →
  let '(d, res) := device_handle (device_ (base_ s)) session r fds in
  outcome session r s (with_base s (with_device (base_ s) d)) res.
Proof.
  intros Hs Hu. pose proof Hs as [[Rc Rp Rm Rq Rk] Hi Hk].
  assert (with_base s (with_device (base_ s) (device_ (base_ s))) = s) as Hid by (by destruct s as [[]]).
  unfold device_handle. destruct (negb _); [rewrite Hid; by apply refused|].
  destruct (method_of_code (rq_method r)) eqn:Hm; try (rewrite Hid; by apply refused).
  - destruct (negb _) eqn:Hz; [rewrite Hid; by apply refused|]. bool_hyps.
    destruct (encode_device_list _) as [bytes|e] eqn:He; rewrite Hid.
    + split; [by split|done|done|constructor|]. cbn. rewrite Hm, Hz. constructor.
    + apply refused; [done|]. by eapply encode_device_list_error.
  - destruct (negb _); [rewrite Hid; by apply refused|].
    destruct (insert_spec ObjectIdentity.context ltac:(named) (contexts_ (device_ (base_ s))) session
      (mkContext (rq_object_identity r) 0) Rc) as [(-> & _)|(c & id & -> & Rc' & Hb & Hn & Hv)].
    { change (with_contexts _ _) with (mkDeviceService (catalog_ (device_ (base_ s)))
        (contexts_ (device_ (base_ s)))).
      replace (mkDeviceService _ _) with (device_ (base_ s)) by (by destruct (device_ (base_ s))).
      rewrite Hid. by apply refused. }
    split; [by split|done|cbn; ulia|constructor|]. cbn. rewrite Hm.
    unfold tables at 2. cbn. rewrite Hv. by apply (act_create_context session _ id (tables s)).
  - destruct (resolve_context _ _ _) as [c|] eqn:Hr; [|rewrite Hid; by apply refused].
    destruct (negb _) eqn:Hz; [rewrite Hid; by apply refused|]. bool_hyps.
    apply resolve_Some in Hr; [|named|done|done].
    destruct (erase_spec ObjectIdentity.context ltac:(named) _ _ _ _ Rc Hr Hu) as (c' & -> & Rc' & Hv).
    split; [by split|done|done|constructor|]. cbn. rewrite Hm.
    unfold tables at 2. cbn. rewrite Hv. by apply (act_destroy_context session _ c (tables s)).
Qed.

(** ** Protection domains *)

(** The table of a registry after [modify]. *)
Lemma modify_ok {R} T (reg : @GenerationRegistry R) id f :
  ObjectIdentity.named_type T → reg_inv reg → is_u64 id →
  reg_inv (modify T reg id f) ∧ view T (modify T reg id f) = upd f id (view T reg).
Proof. intros HT Hr Hu. by apply modify_spec. Qed.

Lemma ctx_u64 s id o c : regs_ok s → ctxs (tables s) !! id = Some (o, c) → is_u64 id.
Proof. intros [Rc _ _ _ _] Hc. exact (view_u64 ObjectIdentity.context ltac:(named) _ _ _ Rc Hc). Qed.
Lemma pd_u64 s id o p : regs_ok s → pds (tables s) !! id = Some (o, p) → is_u64 id.
Proof. intros [_ Rp _ _ _] Hp. exact (view_u64 ObjectIdentity.pd ltac:(named) _ _ _ Rp Hp). Qed.
Lemma cq_u64 s id o c : regs_ok s → cqs (tables s) !! id = Some (o, c) → is_u64 id.
Proof. intros [_ _ _ Rq _] Hc. exact (view_u64 ObjectIdentity.cq ltac:(named) _ _ _ Rq Hc). Qed.
Lemma qp_u64 s id o q : regs_ok s → qps (tables s) !! id = Some (o, q) → is_u64 id.
Proof. intros [_ _ _ _ Rk] Hq. exact (view_u64 ObjectIdentity.qp ltac:(named) _ _ _ Rk Hq). Qed.

Lemma create_pd_outcome session r fds s :
  inv s → is_u64 (rq_object_identity r) → method_of_code (rq_method r) = create_pd →
  let '(b, res) := handle_create_pd (base_ s) session r fds in
  outcome session r s (with_base s b) res.
Proof.
  intros Hs Hu Hm. pose proof Hs as [[Rc Rp Rm Rq Rk] Hi Hk]. unfold handle_create_pd.
  destruct (negb _); [by apply refused_base|].
  destruct (resolve_context _ _ _) as [c|] eqn:Hr; [|by apply refused_base].
  apply resolve_Some in Hr; [|named|done|done].
  destruct (insert_spec ObjectIdentity.pd ltac:(named) (pds_ (base_ s)) session
    (mkPd (rq_object_identity r) ∅ ∅ ∅ 0) Rp) as [(-> & _)|(p' & id & -> & Rp' & Hb & Hn & Hv)].
  { replace (with_pds (base_ s) (pds_ (base_ s))) with (base_ s) by (by destruct (base_ s)).
    by apply refused_base. }
  destruct (modify_ok ObjectIdentity.context (contexts_ (device_ (base_ s))) (rq_object_identity r)
    (bump 1) ltac:(named) Rc Hu) as [Rc' Hc'].
  split; [by split|done|cbn; ulia|constructor|]. cbn. rewrite Hm. unfold tables at 2. cbn.
  rewrite Hv. unfold bump in Hc'. rewrite Hc'.
  apply (act_create_pd session _ c id (tables s)); [done|done|]. by eapply (view_room ObjectIdentity.pd ltac:(named) _ p').
Qed.

Lemma destroy_pd_outcome session r fds s :
  inv s → is_u64 (rq_object_identity r) → method_of_code (rq_method r) = destroy_pd →
  let '(b, res) := handle_destroy_pd (base_ s) session r fds in
  outcome session r s (with_base s b) res.
Proof.
  intros Hs Hu Hm. pose proof Hs as [[Rc Rp Rm Rq Rk] Hi Hk]. unfold handle_destroy_pd.
  destruct (negb _); [by apply refused_base|].
  destruct (resolve_pd _ _ _) as [p|] eqn:Hr; [|by apply refused_base].
  apply resolve_Some in Hr; [|named|done|done].
  destruct (_ || _) eqn:Hbusy; [by apply refused_base|]. bool_hyps.
  destruct (resolve_context _ _ _) as [c|] eqn:Hc; [|by apply refused_base].
  destruct (pw_context _ _ _ _ (ti_pd _ Hi _ _ _ Hr)) as [c0 Hc0].
  assert (is_u64 (pd_context p)) as Hpu by (exact (ctx_u64 s _ _ _ (iv_regs _ Hs) Hc0)).
  apply resolve_Some in Hc; [|named|done|done].
  destruct (child_count c =? 0); [by apply refused_base|].
  destruct (erase_spec ObjectIdentity.pd ltac:(named) _ _ _ _ Rp Hr Hu) as (p' & -> & Rp' & Hv).
  destruct (modify_ok ObjectIdentity.context (contexts_ (device_ (base_ s))) (pd_context p)
    (bump (-1)) ltac:(named) Rc Hpu) as [Rc' Hc'].
  split; [by split|done|done|constructor|]. cbn. rewrite Hm. unfold tables at 2. cbn.
  rewrite Hv. unfold bump in Hc'. rewrite Hc'.
  by apply (act_destroy_pd session _ p c (tables s)).
Qed.

(** ** Completion queues *)

Lemma create_cq_outcome session r fds s :
  inv s → is_u64 (rq_object_identity r) → 0 <= rq_length r → method_of_code (rq_method r) = create_cq →
  let '(b, res) := handle_create_cq (base_ s) session r fds in
  outcome session r s (with_base s b) res.
Proof.
  intros Hs Hu Hl Hm. pose proof Hs as [[Rc Rp Rm Rq Rk] Hi Hk]. unfold handle_create_cq.
  destruct (_ || _) eqn:Hshape; [by apply refused_base|]. bool_hyps.
  destruct (resolve_context _ _ _) as [c|] eqn:Hr; [|by apply refused_base].
  apply resolve_Some in Hr; [|named|done|done].
  assert (∀ k e, same_answers (kernel_ (base_ s)) k → e ≠ 0 →
    outcome session r s (with_base s (with_kernel (base_ s) k)) (response_for r e)) as Hrefuse.
  { intros k e Ha He. replace (with_kernel (base_ s) k)
      with (with_kernel (with_memory (base_ s) (memory_ (base_ s))) k) by (by destruct (base_ s)).
    by apply refused_kernel. }
  cbv zeta. set (d := completion_descriptor _). pose proof (new_ring_answers (kernel_ (base_ s)) d) as A1.
  destruct (new_ring _ d) as [k1 [ring|e]] eqn:E1; cbn [fst] in A1;
    [|apply Hrefuse; [done|by eapply new_ring_error]].
  pose proof (dup_ring_answers k1 ring) as A2. pose proof (kernel_sane_same _ _ Hk A1) as Hk1.
  destruct (dup_ring k1 ring) as [k2 [fd|e]] eqn:E2; cbn [fst] in A2;
    pose proof (same_answers_trans _ _ _ A1 A2) as A3; [|apply Hrefuse; [done|by eapply dup_ring_error]].
  destruct (encode_queue_descriptors [d]) as [encoded|e] eqn:E3;
    [|apply Hrefuse; [done|by eapply encode_descriptors_error]].
  destruct (insert_spec ObjectIdentity.cq ltac:(named) (cqs_ (base_ s)) session
    (mkCq (rq_object_identity r) (u32 (rq_length r)) 0 ring) Rq)
    as [(-> & _)|(q' & id & -> & Rq' & Hb & Hn & Hv)].
  { replace (with_cqs (base_ s) (cqs_ (base_ s))) with (base_ s) by (by destruct (base_ s)).
    by apply Hrefuse. }
  destruct (modify_ok ObjectIdentity.context (contexts_ (device_ (base_ s))) (rq_object_identity r)
    (bump 1) ltac:(named) Rc Hu) as [Rc' Hc'].
  split; [by split|by eapply kernel_sane_same|cbn; ulia|by repeat constructor|]. cbn. rewrite Hm.
  unfold tables at 2. cbn. rewrite Hv. unfold bump in Hc'. rewrite Hc'.
  apply (act_create_cq session _ c id _ ring (tables s)); [done|done| |].
  - by eapply (view_room ObjectIdentity.cq ltac:(named) _ q').
  - rewrite u32_small; ulia.
Qed.

Lemma destroy_cq_outcome session r fds s :
  inv s → is_u64 (rq_object_identity r) → method_of_code (rq_method r) = destroy_cq →
  let '(b, res) := handle_destroy_cq (base_ s) session r fds in
  outcome session r s (with_base s b) res.
Proof.
  intros Hs Hu Hm. pose proof Hs as [[Rc Rp Rm Rq Rk] Hi Hk]. unfold handle_destroy_cq.
  destruct (negb _); [by apply refused_base|].
  destruct (resolve_cq _ _ _) as [q|] eqn:Hr; [|by apply refused_base].
  apply resolve_Some in Hr; [|named|done|done].
  destruct (negb _) eqn:Hbusy; [by apply refused_base|]. bool_hyps.
  destruct (resolve_context _ _ _) as [c|] eqn:Hc; [|by apply refused_base].
  destruct (cw_context _ _ _ _ (ti_cq _ Hi _ _ _ Hr)) as [c0 Hc0].
  assert (is_u64 (cq_context q)) as Hpu by (exact (ctx_u64 s _ _ _ (iv_regs _ Hs) Hc0)).
  apply resolve_Some in Hc; [|named|done|done].
  destruct (child_count c =? 0); [by apply refused_base|].
  destruct (erase_spec ObjectIdentity.cq ltac:(named) _ _ _ _ Rq Hr Hu) as (q' & -> & Rq' & Hv).
  destruct (modify_ok ObjectIdentity.context (contexts_ (device_ (base_ s))) (cq_context q)
    (bump (-1)) ltac:(named) Rc Hpu) as [Rc' Hc'].
  split; [by split|by eapply kernel_sane_same|done|constructor|]. cbn. rewrite Hm. unfold tables at 2.
  cbn. rewrite Hv. unfold bump in Hc'. rewrite Hc'.
  by apply (act_destroy_cq session _ q c (tables s)).
Qed.

(** ** Memory regions *)

Lemma decode_mr_inv bytes len x :
  decode_mr_registration bytes len = Ok x →
  length_ x = len ∧ valid_memory x = true ∧ is_u64 (client_address x) ∧ is_u64 (allocation_size x) ∧
  is_u64 (allocation_offset x).
Proof.
  unfold decode_mr_registration. destruct (_ <? _)%nat; [done|].
  destruct (_ ≫= _) as [[[version reserved] offset]|]; [|done].
  destruct (negb _); [done|]. destruct (negb _); [done|].
  destruct (_ ≫= _) as [[[[[address alloc] aoff] handle] offset']|]; [|done].
  destruct (_ || _); [done|]. cbv zeta. destruct (negb _) eqn:Hv; [done|]. bool_hyps.
  intros <-%Ok_inj. cbn. split_and!; try done; apply Wire.host_to_network64_u64.
Qed.

Lemma allocate_keys_inv next lkey rkey next' :
  0 < next → allocate_keys next = Some (lkey, rkey, next') →
  lkey = next ∧ rkey = next + 1 ∧ next' = next + 2 ∧ next <= U32_MAX - 1.
Proof.
  intros Hn. unfold allocate_keys. destruct (_ || _) eqn:E; [done|]. bool_hyps. intros [= <- <- <-].
  rewrite !u32_small, u64_small by ulia. split_and!; ulia.
Qed.

(** The new region satisfies the contract's conditions. *)
Lemma new_mr_wf p id x map access next m m' len bytes :
  mem_open m x = (m', Ok map) → decode_mr_registration bytes len = Ok x → is_u64 len →
  0 < next <= U32_MAX - 1 → daemon_base_address map ≠ 0 →
  daemon_base_address map <= U64_MAX - allocation_offset x →
  mr_wf (mkMr (pd_context p) id (gpu_uuid x) (client_address x) (allocation_size x)
    (allocation_offset x) (u64 (daemon_base_address map + allocation_offset x)) (length_ x) access
    next (next + 1) 0 map).
Proof.
  intros Ho Hd Hlen Hn Hb Hmax. pose proof (open_mapped _ _ _ _ Ho) as Hb0.
  destruct (decode_mr_inv _ _ _ Hd) as (Hl & Hv & Ha & Hs & Hoff).
  destruct (valid_memory_inv x Hv) as (Hc & Hnz & Hle & Hfit & _ & _).
  rewrite u64_small in Hfit by ulia. rewrite u64_small by ulia.
  split; cbn; [lia|split; ulia|split; ulia|split; ulia|split_and!; ulia|done].
Qed.

(** The keys the service is about to issue are not in any domain's index. *)
Lemma fresh_keys id o p (t : Tables) k :
  integrity t → pds t !! id = Some (o, p) → next_key t <= k →
  ¬ is_Some (local_key_index p !! k) ∧ ¬ is_Some (remote_key_index p !! k).
Proof.
  intros Hi Hp Hk. pose proof (ti_pd _ Hi _ _ _ Hp) as Hw.
  split; intros [y Hy];
    [destruct (pw_lkeys _ _ _ _ Hw _ _ Hy) as (m & Hm & _ & E)
    |destruct (pw_rkeys _ _ _ _ Hw _ _ Hy) as (m & Hm & _ & E)];
    pose proof (ml_issued _ _ _ _ (ti_mr _ Hi _ _ _ Hm));
    pose proof (mw_rkey _ (ml_wf _ _ _ _ (ti_mr _ Hi _ _ _ Hm))) as [? _]; lia.
Qed.

Lemma register_mr_outcome session r fds s :
  inv s → request_ok r → method_of_code (rq_method r) = register_mr →
  let '(b, res) := handle_register_mr (base_ s) session r fds in
  outcome session r s (with_base s b) res.
Proof.
  intros Hs [Hu Hlen _ _] Hm. pose proof Hs as [[Rc Rp Rm Rq Rk] Hi Hk]. unfold handle_register_mr.
  destruct (_ || _) eqn:Hshape; [by apply refused_base|]. bool_hyps.
  destruct (resolve_pd _ _ _) as [p|] eqn:Hr; [|by apply refused_base].
  apply resolve_Some in Hr; [|named|done|done].
  destruct (decode_mr_registration _ _) as [x|e] eqn:Hd;
    [|apply refused_base; [done|by eapply decode_mr_error]].
  destruct (mem_open _ x) as [m [map|e]] eqn:Ho; cbv zeta;
    [|apply refused_memory; [done|by eapply open_error]].
  assert (∀ m' e, e ≠ 0 → outcome session r s
    (with_base s (with_memory (base_ s) m')) (response_for r e)) as Hrefuse by (intros; by apply refused_memory).
  destruct ((daemon_base_address map =? 0) || _ || _) eqn:Hmap.
  { unfold close_mapping. destruct (mem_close _ map) as [m2 st]. by apply Hrefuse. }
  bool_hyps. pose proof (ti_key _ Hi) as Hkey.
  destruct (allocate_keys _) as [[[lkey rkey] next]|] eqn:Hkeys.
  2:{ unfold close_mapping. destruct (mem_close _ map) as [m2 st]. by apply Hrefuse. }
  apply allocate_keys_inv in Hkeys as (-> & -> & -> & Hmax); [|apply Hkey].
  cbn [next_key_ with_memory] in *. cbn [next_key tables] in Hkey.
  set (n := next_key_ (base_ s)) in *.
  assert (∀ m' e, e ≠ 0 → outcome session r s
    (with_base s (with_memory (with_next_key (base_ s) (n + 2)) m')) (response_for r e)) as Hrefuse2.
  { intros m' e He. apply refused_with; [by split|done| |done].
    exists (n + 2), (next_num (tables s)). split; [done|]. split; [right; done|by left]. }
  destruct (encode_mr_registration_result _) as [encoded|e] eqn:Hen.
  2:{ unfold close_mapping. destruct (mem_close _ map) as [m2 st].
      apply Hrefuse2. by eapply encode_mr_result_error. }
  set (record := mkMr _ _ _ _ _ _ _ _ _ _ _ _ _).
  destruct (insert_spec ObjectIdentity.mr ltac:(named) (mrs_ (base_ s)) session record Rm)
    as [(Hins & _)|(reg & id & Hins & Rm' & Hb & Hn & Hv)]; cbn [mrs_ with_next_key with_memory]; rewrite Hins.
  { unfold close_mapping. destruct (mem_close _ map) as [m2 st]. by apply Hrefuse2. }
  assert (mr_wf record) as Hwf by (eapply new_mr_wf; try done; lia).
  unfold link_mr. rewrite !bool_decide_eq_false_2; cbn [orb].
  - destruct (modify_ok ObjectIdentity.pd (pds_ (base_ s)) (rq_object_identity r) (pd_add_mr id n (n + 1))
      ltac:(named) Rp Hu) as [Rp' Hp'].
    split; [by split|done|cbn; ulia|constructor|]. cbn. rewrite Hm. unfold tables at 2. cbn.
    rewrite Hv, Hp'. by apply (act_register_mr session _ p id record (tables s)).
  - apply (fresh_keys _ _ _ _ _ Hi Hr). cbn. fold n. lia.
  - apply (fresh_keys _ _ _ _ _ Hi Hr). cbn. fold n. lia.
  - intros Hin. destruct (pw_mrs _ _ _ _ (ti_pd _ Hi _ _ _ Hr) _ Hin) as (m0 & Hm0 & _).
    cbn in Hm0. congruence.
Qed.

Lemma deregister_mr_outcome session r fds s :
  inv s → is_u64 (rq_object_identity r) → method_of_code (rq_method r) = deregister_mr →
  let '(b, res) := handle_deregister_mr (base_ s) session r fds in
  outcome session r s (with_base s b) res.
Proof.
  intros Hs Hu Hm. pose proof Hs as [[Rc Rp Rm Rq Rk] Hi Hk]. unfold handle_deregister_mr.
  destruct (negb _); [by apply refused_base|].
  destruct (resolve _ _ _ _) as [m|] eqn:Hr; [|by apply refused_base].
  apply resolve_Some in Hr; [|named|done|done]. destruct (negb _); [by apply refused_base|].
  unfold close_mapping. destruct (mem_close _ _) as [m2 st]. destruct (negb (st =? 0)) eqn:Hst.
  { bool_hyps. by apply refused_memory. }
  destruct (ml_pd _ _ _ _ (ti_mr _ Hi _ _ _ Hr)) as (p & Hp & _).
  pose proof (pd_u64 s _ _ _ (iv_regs _ Hs) Hp) as Hpu.
  destruct (resolve_pd _ _ _) as [p'|] eqn:Hr'.
  2:{ apply (resolve_Some ObjectIdentity.pd ltac:(named)) in Hp; [|done|done].
      unfold resolve_pd in Hr'. cbn in Hr', Hp. congruence. }
  destruct (modify_ok ObjectIdentity.pd (pds_ (base_ s)) (mr_pd m)
    (pd_remove_mr (rq_object_identity r) (mr_lkey m) (mr_rkey m)) ltac:(named) Rp Hpu) as [Rp' Hp'].
  destruct (erase_spec ObjectIdentity.mr ltac:(named) _ _ _ _ Rm Hr Hu) as (reg & He & Rm' & Hv).
  cbn [mrs_ set_pd with_pds with_memory]. rewrite He.
  split; [by split|done|done|constructor|]. cbn. rewrite Hm. unfold tables at 2. cbn.
  rewrite Hv, Hp'. by apply (act_deregister_mr session _ m p (tables s)).
Qed.

(** ** Queue pairs *)

Lemma decode_create_ok bytes a : decode_qp_create_attributes bytes = Ok a → create_ok a.
Proof.
  unfold decode_qp_create_attributes. destruct (negb _); [done|].
  pose proof (Wire.cursor_start bytes) as Hc.
  destruct (_ ≫= _) as [[[version reserved] decoded]|] eqn:Hread; [|done].
  repeat case_match; try done. intros <-%Ok_inj.
  remember bytes as rest in Hc at 2. invert_reads. injection Hread as _ _ <-.
  split; cbn; first [apply Wire.host_to_network64_u64|apply Wire.htonl_u32].
Qed.

Lemma count_qp_tables s p scq rcq d :
  regs_ok s → is_u64 p → is_u64 scq → is_u64 rcq →
  regs_ok (count_qp s p scq rcq d) ∧ tables (count_qp s p scq rcq d) = bump_qp (tables s) p scq rcq d ∧
  kernel_ (base_ (count_qp s p scq rcq d)) = kernel_ (base_ s) ∧ qps_ (count_qp s p scq rcq d) = qps_ s ∧
  qp_num_index_ (count_qp s p scq rcq d) = qp_num_index_ s.
Proof.
  intros [Rc Rp Rm Rq Rk] Hp Hs Hr.
  destruct (modify_ok ObjectIdentity.pd _ p (pd_count_qp d) ltac:(named) Rp Hp) as [Rp' Vp].
  destruct (modify_ok ObjectIdentity.cq _ scq (cq_count_qp d) ltac:(named) Rq Hs) as [Rs' Vs].
  destruct (modify_ok ObjectIdentity.cq _ rcq (cq_count_qp d) ltac:(named) Rs' Hr) as [Rr' Vr].
  unfold count_qp. cbv zeta. destruct (rcq =? scq) eqn:E.
  - split; [by split|]. split; [|done]. unfold tables, bump_qp. cbn. by rewrite E, Vp, Vs.
  - split; [by split|]. split; [|done]. unfold tables, bump_qp. cbn. by rewrite E, Vp, Vr, Vs.
Qed.

Lemma insert_qp_outcome session r s p scq rcq a rings encoded :
  inv s → is_u64 (rq_object_identity r) → method_of_code (rq_method r) = create_qp → create_ok a →
  valid_qp_create_attributes a = true → pds (tables s) !! rq_object_identity r = Some (session, p) →
  cqs (tables s) !! send_cq_identity a = Some (session, scq) →
  cqs (tables s) !! recv_cq_identity a = Some (session, rcq) →
  cq_context scq = pd_context p → cq_context rcq = pd_context p →
  let '(s', res) := insert_qp s session r p a rings encoded in outcome session r s s' res.
Proof.
  intros Hs Hu Hm [] Hv Hp Hsc Hrc Es Er. pose proof Hs as [[Rc Rp Rm Rq Rk] Hi Hk].
  unfold insert_qp. destruct (_ =? 0) eqn:Hz; bool_hyps.
  { apply refused_with; [by split|by eapply kernel_sane_same|apply unchanged_refl|done]. }
  cbn [qps_ with_next_num next_qp_num_]. set (n := next_qp_num_ s) in *.
  set (q := new_qp_record session _ _ a n rings).
  destruct (insert_spec ObjectIdentity.qp ltac:(named) (qps_ s) session q Rk)
    as [(-> & _)|(reg & id & -> & Rk' & Hb & Hn & Hv')].
  { apply refused_with; [by split|by eapply kernel_sane_same| |done].
    exists (next_key (tables s)), (u32 (n + 1)). split; [done|]. split; [by left|by right]. }
  cbn [qp_num_index_ with_qps with_next_num].
  destruct (qp_num_index_ s !! n) as [id'|] eqn:Hidx.
  { exfalso. destruct (ti_num _ Hi _ _ Hidx) as (o & q' & Hq' & En).
    destruct (qw_issued _ _ _ _ (ti_qp _ Hi _ _ _ Hq')) as (_ & [?|?] & _); cbn in *; unfold n in *; lia. }
  set (s1 := with_index _ _).
  assert (regs_ok s1) as Hr1 by (by split).
  destruct (count_qp_tables s1 (rq_object_identity r) (send_cq_identity a) (recv_cq_identity a) 1)
    as (Hr2 & Ht2 & Hk2 & _); [done|done|done|done|].
  split; [done|by rewrite Hk2|cbn; ulia|by repeat constructor|]. cbn [created rs_status response Z.eqb].
  rewrite Hm, Ht2. unfold tables at 2, s1. cbn [base_ qps_ qp_num_index_ next_qp_num_ with_index with_qps
    with_next_num created response rs_object_identity]. rewrite Hv'.
  apply (act_create_qp session _ p scq rcq id q (tables s)); try done.
  - by eapply (view_room ObjectIdentity.qp ltac:(named) _ reg).
  - split; try done. cbn. unfold valid_qp_create_attributes in Hv. bool_hyps. done.
Qed.

Lemma create_qp_outcome session r fds s :
  inv s → is_u64 (rq_object_identity r) → method_of_code (rq_method r) = create_qp →
  let '(s', res) := handle_create_qp s session r fds in outcome session r s s' res.
Proof.
  intros Hs Hu Hm. pose proof Hs as [[Rc Rp Rm Rq Rk] Hi Hk]. unfold handle_create_qp.
  destruct (negb _); [by apply refused|].
  destruct (decode_qp_create_attributes _) as [a|e] eqn:Hd;
    [|apply refused; [done|by eapply create_attributes_error]].
  pose proof (decode_create_ok _ _ Hd) as Ha. pose proof Ha as [Hs64 Hr64 _ _ _ _ _ _].
  destruct (negb _) eqn:Hv; [by apply refused|]. bool_hyps.
  destruct (resolve_pd _ _ _) as [p|] eqn:Hp; [|by apply refused].
  destruct (resolve_cq _ _ (send_cq_identity a)) as [scq|] eqn:Hsc; [|by apply refused].
  destruct (resolve_cq _ _ (recv_cq_identity a)) as [rcq|] eqn:Hrc; [|by apply refused].
  apply resolve_Some in Hp; [|named|done|done]. apply resolve_Some in Hsc; [|named|done|done].
  apply resolve_Some in Hrc; [|named|done|done].
  destruct (_ || _) eqn:Hctx; [by apply refused|]. bool_hyps.
  destruct (_ ≫= _) as [[ss rs]|e] eqn:Hst.
  2:{ apply refused; [done|]. unfold Descriptors.send_slot_stride, Descriptors.receive_slot_stride in Hst.
      destruct (Descriptors.aligned_slot_stride _ (max_send_sge a)) eqn:E1; cbn in Hst;
        [|injection Hst as <-; by eapply slot_stride_error].
      destruct (Descriptors.aligned_slot_stride _ (max_recv_sge a)) eqn:E2; cbn in Hst; [done|].
      injection Hst as <-. by eapply slot_stride_error. }
  cbv zeta. set (sd := mkDescriptor send _ _). set (rd := mkDescriptor receive _ _).
  pose proof (create_rings_answers (kernel_ (base_ s)) sd rd) as Hka.
  assert (∀ k e, same_answers (kernel_ (base_ s)) k → e ≠ 0 →
    outcome session r s (with_qp_kernel s k) (response_for r e)) as Hrefuse.
  { intros k e Hsame He. apply refused_with; [by split|by eapply kernel_sane_same|apply unchanged_refl|done]. }
  destruct (create_rings _ sd rd) as [k [rings|e]] eqn:Hrings; cbn [fst] in Hka.
  2:{ apply Hrefuse; [done|]. by eapply create_rings_error. }
  destruct (encode_queue_descriptors [sd; rd]) as [encoded|e] eqn:Hen.
  2:{ apply Hrefuse; [done|]. by eapply encode_descriptors_error. }
  assert (inv (with_qp_kernel s k)) as Hs'.
  { split; [by split|done|by eapply kernel_sane_same]. }
  pose proof (insert_qp_outcome session r (with_qp_kernel s k) p scq rcq a rings encoded Hs' Hu Hm Ha Hv
    Hp Hsc Hrc) as Hout.
  destruct (insert_qp _ _ _ _ _ _ _) as [s' res].
  destruct Hout as [O1 O2 O3 O4 O5]; [congruence|congruence|]. by split.
Qed.

Lemma destroy_qp_outcome session r fds s :
  inv s → is_u64 (rq_object_identity r) → method_of_code (rq_method r) = destroy_qp →
  let '(s', res) := handle_destroy_qp s session r fds in outcome session r s s' res.
Proof.
  intros Hs Hu Hm. pose proof Hs as [Hregs Hi Hk]. pose proof Hregs as [Rc Rp Rm Rq Rk].
  unfold handle_destroy_qp. destruct (negb _); [by apply refused|].
  destruct (resolve_qp _ _ _) as [q|] eqn:Hq; [|by apply refused].
  apply resolve_Some in Hq; [|named|done|done]. pose proof (ti_qp _ Hi _ _ _ Hq) as Hw.
  destruct (qw_pd _ _ _ _ Hw) as (p & Hp & _). destruct (qw_send_cq _ _ _ _ Hw) as (sc & Hsc & _).
  destruct (qw_recv_cq _ _ _ _ Hw) as (rc & Hrc & _).
  pose proof (pd_u64 _ _ _ _ Hregs Hp) as Up. pose proof (cq_u64 _ _ _ _ Hregs Hsc) as Us.
  pose proof (cq_u64 _ _ _ _ Hregs Hrc) as Ur.
  destruct (resolve_pd _ _ _) as [p'|]; [|by apply refused].
  destruct (resolve_cq _ _ (qp_send_cq q)) as [sc'|]; [|by apply refused].
  destruct (resolve_cq _ _ (qp_recv_cq q)) as [rc'|]; [|by apply refused].
  destruct (_ || _ || _); [by apply refused|].
  destruct (count_qp_tables s (qp_pd q) (qp_send_cq q) (qp_recv_cq q) (-1) Hregs Up Us Ur)
    as ([Rc' Rp' Rm' Rq' Rk'] & Ht & Hk' & Hqps & Hidx).
  cbv zeta. set (s1 := count_qp _ _ _ _ _) in *. clearbody s1. rewrite Hqps.
  destruct (erase_spec ObjectIdentity.qp ltac:(named) _ _ _ _ Rk Hq Hu) as (reg & -> & Rk2 & Hv).
  cbn [Z.eqb]. split; [by split| |done|constructor|].
  { apply (kernel_sane_same (kernel_ (base_ s))); [done|]. by rewrite <- Hk'. }
  cbn [rs_status response response_for Z.eqb rs_object_identity]. rewrite Hm.
  match goal with |- action _ _ _ _ _ ?t => replace t with
    (set_nums (set_qps (bump_qp (tables s) (qp_pd q) (qp_send_cq q) (qp_recv_cq q) (-1))
      (delete (rq_object_identity r) (qps (tables s)))) (delete (qp_num q) (nums (tables s)))) end;
    last first.
  { rewrite <- Ht. unfold tables. cbn. by rewrite Hv, Hidx. }
  by apply act_destroy_qp.
Qed.

Lemma query_qp_outcome session r fds s :
  inv s → is_u64 (rq_object_identity r) → method_of_code (rq_method r) = query_qp →
  let '(s', res) := handle_query_qp s session r fds in outcome session r s s' res.
Proof.
  intros Hs Hu Hm. pose proof Hs as [[Rc Rp Rm Rq Rk] Hi Hk]. unfold handle_query_qp.
  destruct (negb _); [by apply refused|].
  destruct (decode_query_payload _) as [mask|e] eqn:Hd; [|apply refused; [done|by eapply query_error]].
  destruct (resolve_qp _ _ _) as [q|] eqn:Hq; [|by apply refused].
  apply resolve_Some in Hq; [|named|done|done]. destruct (negb _); [by apply refused|].
  split; [by split|done|done|constructor|]. cbn. rewrite Hm. by eapply act_query_qp.
Qed.

Lemma query_qp_conn_info_outcome session r fds s :
  inv s → is_u64 (rq_object_identity r) → method_of_code (rq_method r) = query_qp_conn_info →
  let '(s', res) := handle_query_qp_conn_info s session r fds in outcome session r s s' res.
Proof.
  intros Hs Hu Hm. pose proof Hs as [[Rc Rp Rm Rq Rk] Hi Hk]. unfold handle_query_qp_conn_info.
  destruct (negb _); [by apply refused|].
  destruct (resolve_qp _ _ _) as [q|] eqn:Hq; [|by apply refused].
  apply resolve_Some in Hq; [|named|done|done].
  split; [by split|done|done|constructor|]. cbn. rewrite Hm. by eapply act_query_qp_conn_info.
Qed.

(** A queue pair updated in place. *)
Lemma set_qp_outcome session r s f :
  inv s → is_u64 (rq_object_identity r) →
  action session (method_of_code (rq_method r)) (rq_object_identity r) 0 (tables s)
    (set_qps (tables s) (upd f (rq_object_identity r) (qps (tables s)))) →
  outcome session r s (set_qp s (rq_object_identity r) f) (response_for r 0).
Proof.
  intros [[Rc Rp Rm Rq Rk] _ Hk] Hu Ha.
  destruct (modify_ok ObjectIdentity.qp _ (rq_object_identity r) f ltac:(named) Rk Hu) as [Rk' Hv].
  split; [by split|done|done|constructor|]. cbn. unfold tables at 2. cbn. by rewrite Hv.
Qed.

Lemma modify_qp_outcome session r fds s :
  inv s → is_u64 (rq_object_identity r) → method_of_code (rq_method r) = modify_qp →
  let '(s', res) := handle_modify_qp s session r fds in outcome session r s s' res.
Proof.
  intros Hs Hu Hm. pose proof Hs as [[Rc Rp Rm Rq Rk] Hi Hk]. unfold handle_modify_qp.
  destruct (negb _); [by apply refused|].
  destruct (decode_modify_payload _) as [[a mask]|e] eqn:Hd; [|apply refused; [done|by eapply modify_error]].
  destruct (resolve_qp _ _ _) as [q|] eqn:Hq; [|by apply refused].
  apply resolve_Some in Hq; [|named|done|done]. cbv zeta.
  destruct (_ || _); [by apply refused|]. destruct (_ || _); [by apply refused|].
  destruct (negb _ && negb _); [by apply refused|].
  destruct (_ && _ && _ && _) eqn:Hinit.
  - bool_hyps. apply set_qp_outcome; [done|done|]. rewrite Hm. apply (act_modify_qp session _ q); [done|].
    by match goal with E : qp_state q = _ |- _ => rewrite E; constructor end.
  - clear Hinit. destruct (_ && _ && _) eqn:Herr; [|by apply refused].
    apply set_qp_outcome; [done|done|]. rewrite Hm. apply (act_modify_qp session _ q); [done|].
    constructor. bool_hyps. rewrite !orb_true_iff, !Z.eqb_eq in *. rewrite !elem_of_cons. tauto.
Qed.

Lemma connect_qp_outcome session r fds s :
  inv s → is_u64 (rq_object_identity r) → method_of_code (rq_method r) = connect_qp →
  let '(s', res) := handle_connect_qp s session r fds in outcome session r s s' res.
Proof.
  intros Hs Hu Hm. pose proof Hs as [Hregs Hi Hk]. pose proof Hregs as [Rc Rp Rm Rq Rk].
  unfold handle_connect_qp. destruct (negb _); [by apply refused|].
  destruct (decode_connect_payload _) as [[[num a] mask]|e] eqn:Hd;
    [|apply refused; [done|by eapply connect_error]].
  destruct (resolve_qp _ _ _) as [q|] eqn:Hq; [|by apply refused].
  apply resolve_Some in Hq; [|named|done|done].
  destruct (_ || _ || _) eqn:Hargs; [by apply refused|]. bool_hyps.
  destruct (negb _ && negb _) eqn:Hpeer; [by apply refused|].
  destruct (negb (qp_state q =? kQpStateInit)) eqn:Hst; [by apply refused|].
  apply negb_false_iff, Z.eqb_eq in Hst.
  destruct (qp_num_index_ s !! num) as [rid|] eqn:Hidx; [|by apply refused].
  destruct (ti_num _ Hi _ _ Hidx) as (o & rq' & Hrq' & _).
  pose proof (qp_u64 _ _ _ _ Hregs Hrq') as Ur.
  destruct (resolve_any _ _ rid) as [remote|] eqn:Hra; [|by apply refused].
  apply resolve_any_Some in Hra as [ro Hra]; [|named|done|done].
  destruct (negb (qp_type_ remote =? kQpTypeRc) || _) eqn:Hrem; [by apply refused|].
  apply set_qp_outcome; [done|done|]. rewrite Hm.
  apply orb_false_iff in Hrem as [Htype Hstate]. apply negb_false_iff, Z.eqb_eq in Htype.
  rewrite !andb_false_iff, !negb_false_iff, !Z.eqb_eq in Hstate.
  rewrite andb_false_iff, !negb_false_iff, !Z.eqb_eq in Hpeer.
  apply (act_connect_qp session _ q num rid ro remote); try done.
  rewrite !elem_of_cons. tauto.
Qed.

End Handlers.

End ControlHandlers.
