(* ===== verification/ControlPlane.v ===== *)
(** The properties of the daemon's control plane: refinement of the contract,
    integrity in every reachable state, isolation of sessions, the end of a session,
    the queue pair state machine, and the key lookups of the data path. *)

From S2P Require Import Prelude ObjectIdentity ObjectRegistry SharedRing Descriptors Worker.
From S2P Require Import WorkerStream Protocol Adapter Control DeviceContext PdMrCq Qp ControlSpec.
From S2P Require Import ControlRefine.
Import Registry Ring Adapter Control CudaIpc PdMrCq Qp DeviceContext ControlSpec ControlRefine
  ControlHandlers.

Module ControlPlane.

Section Service.
Context {M : Type} `{CudaIpcMemoryLaws M}.
Implicit Types (s : QpService M) (r : UgdrControlRequest).

(** * Requests *)

Lemma handle_outcome session r fds s :
  inv s → request_ok r →
  let '(s', res) := qp_handle s session r fds in outcome session r s s' res.
Proof.
  intros Hs Hr. pose proof (ro_identity _ Hr) as Hu. pose proof (ro_length _ Hr) as Hl.
  unfold qp_handle. destruct (method_of_code (rq_method r)) eqn:Hm;
    try (by apply create_qp_outcome); try (by apply destroy_qp_outcome); try (by apply query_qp_outcome);
    try (by apply modify_qp_outcome); try (by apply query_qp_conn_info_outcome);
    try (by apply connect_qp_outcome); unfold pd_handle; rewrite Hm.
  all: try (pose proof (device_outcome session r fds s Hs Hu) as Ho;
            destruct (device_handle _ _ _ _) as [d res]; exact Ho).
  - pose proof (create_pd_outcome session r fds s Hs Hu Hm) as Ho. by destruct (handle_create_pd _ _ _ _).
  - pose proof (destroy_pd_outcome session r fds s Hs Hu Hm) as Ho. by destruct (handle_destroy_pd _ _ _ _).
  - pose proof (register_mr_outcome session r fds s Hs Hr Hm) as Ho.
    by destruct (handle_register_mr _ _ _ _).
  - pose proof (deregister_mr_outcome session r fds s Hs Hu Hm) as Ho.
    by destruct (handle_deregister_mr _ _ _ _).
  - pose proof (create_cq_outcome session r fds s Hs Hu ltac:(ulia) Hm) as Ho.
    by destruct (handle_create_cq _ _ _ _).
  - pose proof (destroy_cq_outcome session r fds s Hs Hu Hm) as Ho. by destruct (handle_destroy_cq _ _ _ _).
Qed.

Lemma outcome_inv session r s s' res : inv s → outcome session r s s' res → inv s'.
Proof.
  intros Hs [Hr Hk _ _ He]. split; [done| |done]. destruct (_ =? 0);
    [by eapply action_integrity, iv_integrity|by eapply unchanged_integrity, iv_integrity].
Qed.

(** * The end of a session *)

Lemma foldl_delete_lookup (l : list (Z * QpRecord)) (m : gmap Z Z) n :
  foldl (λ i '(_, q), delete (qp_num q) i) m l !! n =
  if decide (n ∈ qp_num ∘ snd <$> l) then None else m !! n.
Proof.
  revert m. induction l as [|[k q] l IH]; intros m; [done|]. cbn [foldl fmap list_fmap].
  rewrite IH. destruct (decide (n ∈ qp_num ∘ snd <$> l)) as [Hin|Hin].
  - rewrite decide_True; [done|]. by right.
  - destruct (decide (n = qp_num q)) as [->|Hne].
    + rewrite lookup_delete_eq, decide_True; [done|]. by left.
    + rewrite lookup_delete_ne, decide_False; [done| |done].
      rewrite elem_of_cons. intros [?|?]; done.
Qed.

Lemma foldl_answers {A} (f : Kernel → A → Kernel) l k :
  (∀ k a, same_answers k (f k a)) → same_answers k (foldl f k l).
Proof.
  intros Hf. revert k. induction l as [|a l IH]; intros k; [done|]. cbn.
  eapply same_answers_trans; [apply Hf|apply IH].
Qed.

Lemma disconnect_nums session s :
  inv s →
  foldl (λ i '(_, q), delete (qp_num q) i) (qp_num_index_ s)
    (for_each_session ObjectIdentity.qp (qps_ s) session) = nums (disconnected session (tables s)).
Proof.
  intros [[_ _ _ _ Rk] Hi _]. apply map_eq. intros n. rewrite foldl_delete_lookup.
  set (l := for_each_session _ _ _).
  assert (∀ id q, (id, q) ∈ l ↔ qps (tables s) !! id = Some (session, q)) as Hl.
  { intros id q. apply for_each_session_spec; [named|done]. }
  cbn [nums disconnected]. apply option_eq. intros id. rewrite map_lookup_filter_Some. cbn [snd].
  case_decide as Hin; [split; [done|]|].
  - intros [Hn [[o q] Hq]]. apply list_elem_of_fmap in Hin as ([id' q'] & -> & Hin). apply Hl in Hin.
    apply others_Some in Hq as [Hq Ho]. destruct (ti_num _ Hi _ _ Hn) as (o1 & q1 & Hq1 & E1).
    pose proof (qw_num _ _ _ _ (ti_qp _ Hi _ _ _ Hin)) as E2. cbn in E2, Hn. congruence.
  - split; [|by intros [? _]]. intros Hn. split; [done|]. destruct (ti_num _ Hi _ _ Hn) as (o & q & Hq & <-).
    exists (o, q). apply others_Some. split; [done|]. intros ->. apply Hin.
    apply list_elem_of_fmap. exists (id, q). split; [done|]. by apply Hl.
Qed.

Lemma disconnect_tables session s :
  inv s → inv (qp_disconnect s session) ∧ tables (qp_disconnect s session) = disconnected session (tables s).
Proof.
  intros Hs. pose proof Hs as [[Rc Rp Rm Rq Rk] Hi Hk].
  destruct (erase_session_spec ObjectIdentity.context ltac:(named)
    _ session Rc) as (Rc' & Vc & _).
  destruct (erase_session_spec ObjectIdentity.pd ltac:(named)
    _ session Rp) as (Rp' & Vp & _).
  destruct (erase_session_spec ObjectIdentity.mr ltac:(named)
    _ session Rm) as (Rm' & Vm & _).
  destruct (erase_session_spec ObjectIdentity.cq ltac:(named)
    _ session Rq) as (Rq' & Vq & _).
  destruct (erase_session_spec ObjectIdentity.qp ltac:(named)
    _ session Rk) as (Rk' & Vk & _).
  assert (tables (qp_disconnect s session) = disconnected session (tables s)) as Ht.
  { pose proof (disconnect_nums session s Hs) as Hn. unfold tables at 1. cbn -[disconnected].
    rewrite Hn, Vc, Vp, Vm, Vq, Vk. done. }
  split; [|done]. split; [by split|rewrite Ht; by apply disconnected_integrity|].
  apply (kernel_sane_same (kernel_ (base_ s))); [done|]. cbn.
  eapply same_answers_trans; [|eapply foldl_answers; by intros k []].
  eapply foldl_answers; by intros k [].
Qed.

(** A request leaves the objects of other sessions as they are. *)
Lemma handle_isolated session r fds s s' res o :
  inv s → request_ok r → qp_handle s session r fds = (s', res) → o ≠ session →
  same_for o (tables s) (tables s').
Proof.
  intros Hs Hq He Ho. pose proof (handle_outcome session r fds s Hs Hq) as Hout. rewrite He in Hout.
  destruct Hout as [_ _ _ _ Hout]. destruct (_ =? 0).
  - by eapply action_isolated; [| apply (iv_integrity _ Hs)|].
  - destruct Hout as (k' & n & -> & _). by split_and!.
Qed.

(** * Reachable states *)

(** A request that decoded, or the end of a session. *)
Inductive control_step : QpService M → QpService M → Prop :=
| request_step s session r fds s' res :
    request_ok r → qp_handle s session r fds = (s', res) → control_step s s'
| disconnect_step s session : control_step s (qp_disconnect s session).

Lemma control_step_inv s s' : control_step s s' → inv s → inv s'.
Proof.
  intros [s0 session r fds s1 res Hr He|s0 session] Hs; [|by apply disconnect_tables].
  pose proof (handle_outcome session r fds s0 Hs Hr) as Ho. rewrite He in Ho. by eapply outcome_inv.
Qed.

Lemma new_service_inv catalog (m : M) k : kernel_sane k → inv (new_qp_service catalog m k).
Proof.
  intros Hk. assert (∀ {R}, reg_inv (@new_registry R 1)) as Hreg.
  { intros R. destruct (new_registry_refines (R := R) ObjectIdentity.pd
      ltac:(named) 1) as [Hr _]; [ulia|done]. }
  split; [by split|by split; cbn; try ulia|done].
Qed.

Lemma service_reachable_inv catalog (m : M) k s :
  kernel_sane k → rtc control_step (new_qp_service catalog m k) s → inv s.
Proof.
  intros Hk Hr. assert (inv (new_qp_service catalog m k)) as Hi by by apply new_service_inv.
  induction Hr; [done|]. eauto using control_step_inv.
Qed.

(** * Properties *)

(** (C2) The control service refines its contract.  In every reachable state, for every
    request that decoded: if the answer has status 0, the tables of live objects change exactly as the contract
    says for that method, object, session and returned identity (a new identity is
    fresh, counters of parents move by one, a destroyed object had no children); with
    any other status no table changes. *)
Theorem control_refines catalog (m : M) k s session r fds s' res :
  kernel_sane k → rtc control_step (new_qp_service catalog m k) s →
  request_ok r → qp_handle s session r fds = (s', res) →
  (rs_status (response res) = 0 →
     action session (method_of_code (rq_method r)) (rq_object_identity r)
       (rs_object_identity (response res)) (tables s) (tables s')) ∧
  (rs_status (response res) ≠ 0 → unchanged (tables s) (tables s')).
Proof.
  intros Hk Hreach Hr He. pose proof (service_reachable_inv _ _ _ _ Hk Hreach) as Hs.
  pose proof (handle_outcome session r fds s Hs Hr) as Ho. rewrite He in Ho.
  destruct Ho as [_ _ _ _ Ho].
  split; intros Hst; [by rewrite Hst in Ho|by rewrite (proj2 (Z.eqb_neq _ _) Hst) in Ho].
Qed.

(** In every state the daemon can reach from its start, by requests of any
    sessions and disconnections in any order, the object graph has integrity: parents
    exist and belong to the same session, child counts are exact, the key indices of
    a protection domain are exactly its live regions, and the number index is exactly
    the live queue pairs. *)
Theorem control_integrity catalog (m : M) k s :
  kernel_sane k → rtc control_step (new_qp_service catalog m k) s → integrity (tables s).
Proof. intros Hk Hr. by eapply iv_integrity, service_reachable_inv. Qed.

(** (C25) Sessions are isolated: a request of one session, whatever it asks for,
    leaves every object of every other session as it is. *)
Theorem session_isolation catalog (m : M) k s session r fds s' res o :
  kernel_sane k → rtc control_step (new_qp_service catalog m k) s → request_ok r →
  qp_handle s session r fds = (s', res) → o ≠ session → same_for o (tables s) (tables s').
Proof.
  intros Hk Hr Hq He Ho. by apply (handle_isolated session r fds s s' res o); [eapply service_reachable_inv|..].
Qed.

(** (C33) When a session ends, every object it owned is gone, with the numbers of its
    queue pairs, and the objects of the other sessions and their numbers remain. *)
Theorem disconnect_releases catalog (m : M) k s session :
  kernel_sane k → rtc control_step (new_qp_service catalog m k) s →
  let s' := qp_disconnect s session in
  tables s' = disconnected session (tables s) ∧ integrity (tables s') ∧
  (∀ o, o ≠ session → same_for o (tables s) (tables s')) ∧
  (∀ n id, nums (tables s') !! n = Some id →
     nums (tables s) !! n = Some id ∧ ∃ o q, qps (tables s') !! id = Some (o, q) ∧ o ≠ session).
Proof.
  intros Hk Hr s'. pose proof (service_reachable_inv _ _ _ _ Hk Hr) as Hs.
  destruct (disconnect_tables session s Hs) as [Hs' Ht]. fold s' in Hs', Ht.
  split; [done|]. split; [by apply iv_integrity|]. rewrite Ht. split.
  - intros o Ho. split_and!; intros k' x; cbn; rewrite others_Some; tauto.
  - intros n id. cbn. intros [Hn [[o q] Hq]]%map_lookup_filter_Some. cbn in Hq. split; [done|].
    exists o, q. split; [done|]. by apply others_Some in Hq as [_ Hq].
Qed.

(** ** Queue pairs *)

(** The steps of the queue pair state machine. *)
Inductive qp_edge : QpRecord → QpRecord → Prop :=
| qp_stays q : qp_edge q q
| qp_modified q st access : modify_edge (qp_state q) st → qp_edge q (qp_set_state st access q)
| qp_connected q num rid a :
    qp_state q = kQpStateInit → (peer_qp_num q = 0 ∨ peer_qp_num q = num) → num ≠ 0 →
    qp_edge q (qp_set_peer num rid a q).

Lemma action_qp_edge session mth object id t t' k o q :
  action session mth object id t t' → qps t !! k = Some (o, q) →
  (mth = destroy_qp ∧ object = k ∧ o = session) ∨
  ∃ q', qps t' !! k = Some (o, q') ∧ qp_edge q q'.
Proof.
  intros Ha Hq. destruct Ha; cbn; try (right; exists q; split; [done|constructor]).
  - right. exists q. rewrite lookup_insert_ne by congruence. split; [done|constructor].
  - destruct (decide (id = k)) as [->|Hne].
    + left. split_and!; congruence.
    + right. exists q. rewrite lookup_delete_ne by done. split; [done|constructor].
  - right. destruct (decide (k = id)) as [->|Hne].
    + assert (o = session ∧ q0 = q) as [-> ->] by (split; congruence).
      eexists. split; [by apply upd_eq|by constructor].
    + exists q. rewrite upd_ne by done. split; [done|constructor].
  - right. destruct (decide (k = id)) as [->|Hne].
    + assert (o = session ∧ q0 = q) as [-> ->] by (split; congruence).
      eexists. split; [by apply upd_eq|by constructor].
    + exists q. rewrite upd_ne by done. split; [done|constructor].
Qed.

(** (C34) The life of a queue pair: while it is live, each request either leaves it as
    it is, moves its state along Reset to Init or from Reset, Init, Rtr or Rts to Err,
    or connects it from Init to Rts with a peer; nothing else about it ever changes
    (its number, domain, completion queues, owner), only its owner can end it, and a
    live queue pair is always in Reset, Init, Rts or Err. *)
Theorem qp_state_machine catalog (m : M) k s session r fds s' res id o q :
  kernel_sane k → rtc control_step (new_qp_service catalog m k) s → request_ok r →
  qp_handle s session r fds = (s', res) → qps (tables s) !! id = Some (o, q) →
  qp_state q ∈ qp_states ∧
  ((method_of_code (rq_method r) = destroy_qp ∧ rq_object_identity r = id ∧ o = session) ∨
   ∃ q', qps (tables s') !! id = Some (o, q') ∧ qp_edge q q').
Proof.
  intros Hk Hr Hq He Hl. pose proof (service_reachable_inv _ _ _ _ Hk Hr) as Hs.
  split; [by eapply qw_state, ti_qp, Hl; apply iv_integrity|].
  pose proof (handle_outcome session r fds s Hs Hq) as Hout. rewrite He in Hout.
  destruct Hout as [_ _ _ _ Hout]. destruct (_ =? 0); [by eapply action_qp_edge|].
  right. destruct Hout as (k' & n & -> & _). exists q. split; [done|constructor].
Qed.

(** ** Keys *)

(** What [resolve] finds is live and belongs to the session, whatever was asked. *)
Lemma resolve_live {R} T (reg : @GenerationRegistry R) session id v :
  ObjectIdentity.named_type T → reg_inv reg → resolve T reg session id = Some v →
  ∃ id', view T reg !! id' = Some (session, v).
Proof.
  intros HT Hr. unfold resolve. destruct (named_slot T reg id) as [[[i sl] g]|] eqn:Hn; [|done].
  destruct (_ || _) eqn:E; [done|]. bool_hyps. intros Hv.
  assert (slots_ reg !! i = Some sl) as Hsl.
  { unfold named_slot in Hn. repeat case_match; simplify_eq; done. }
  destruct (encodes_total T HT i (slot_generation sl)) as (id' & Hid & _);
    [by apply (inv_slots _ Hr i)|by eapply slot_index_bound|].
  exists id'. apply view_lookup; [done|done|]. exists i, sl. by split_and!.
Qed.

(** The regions a key names. *)
Definition key_of (remote : bool) (m : MrRecord) : Z := if remote then mr_rkey m else mr_lkey m.

Definition grants (session pd_identity key address len : Z) (remote : bool) (t : Tables) (id : Z)
    (m : MrRecord) : Prop :=
  mrs t !! id = Some (session, m) ∧ mr_pd m = pd_identity ∧ key_of remote m = key ∧
  (remote = true → Z.land (mr_access m) kAccessRemoteWrite ≠ 0) ∧ len ≠ 0 ∧
  mr_client_address m <= address ∧ address + len <= mr_client_address m + mr_length m ∧
  address + len <= U64_MAX ∧ mr_client_address m + mr_length m <= U64_MAX ∧
  mr_daemon_address m + (address - mr_client_address m) <= U64_MAX.

(** The allocation a client declares for a region is what its handle maps.  The daemon does
    not check it: a client can declare any size ([export_cuda_memory] declares the true one). *)
Definition declared_truly (m : MrRecord) : Prop :=
  daemon_base_address (mr_mapping m) + mr_allocation_size m <= U64_MAX.

Lemma key_found s session pd_identity key address len remote a :
  inv s → resolve_key s.(base_) session pd_identity key address len remote = Ok a →
  ∃ id m, grants session pd_identity key address len remote (tables s) id m ∧
    a = mr_daemon_address m + (address - mr_client_address m).
Proof.
  intros Hs. pose proof Hs as [[Rc Rp Rm Rq Rk] Hi _]. unfold resolve_key.
  destruct (_ || _) eqn:E0; [done|]. bool_hyps.
  destruct (resolve_pd _ _ _) as [p|] eqn:Hp; [|done].
  apply resolve_live in Hp as [pid Hp]; [|named|done].
  pose proof (ti_pd _ Hi _ _ _ Hp) as Hw.
  destruct ((if remote then _ else _) !! key) as [id|] eqn:Hidx; [|done].
  assert (∃ m, mrs (tables s) !! id = Some (session, m) ∧ key_of remote m = key) as (m & Hm & Hkey).
  { destruct remote; [destruct (pw_rkeys _ _ _ _ Hw _ _ Hidx) as (m & Hm & _ & Hk)
      |destruct (pw_lkeys _ _ _ _ Hw _ _ Hidx) as (m & Hm & _ & Hk)]; by exists m. }
  assert (is_u64 id) as Hu.
  { apply (view_u64 ObjectIdentity.mr ltac:(named) _ _ _ Rm Hm). }
  pose proof Hm as Hm'.
  apply (resolve_Some ObjectIdentity.mr ltac:(named)) in Hm' as ->;
    [|done|done].
  destruct (negb _) eqn:Hpd; [done|]. bool_hyps.
  destruct (remote && _) eqn:Hacc; [done|].
  destruct (_ || _ || _ || _) eqn:Hrange; [done|]. bool_hyps. destruct (_ <? _) eqn:Hwrap; [done|]. bool_hyps.
  intros <-%Ok_inj. exists id, m. split; [|done]. split_and!; try done; try lia.
  intros ->. cbn in Hacc. by apply Z.eqb_neq.
Qed.

Lemma granted_range s session pd_identity key address len remote id m :
  inv s → 0 <= len → grants session pd_identity key address len remote (tables s) id m →
  let a := mr_daemon_address m + (address - mr_client_address m) in
  daemon_base_address (mr_mapping m) <= a ∧
  a + len <= daemon_base_address (mr_mapping m) + mr_allocation_size m ∧ 0 <= a.
Proof.
  intros Hs Hlen (Hm & _ & _ & _ & _ & H1 & H2 & _) a.
  pose proof (ml_wf _ _ _ _ (ti_mr _ (iv_integrity _ Hs) _ _ _ Hm)) as [_ _ Ha Hr Hd _].
  unfold a. cbn. split_and!; ulia.
Qed.


(** The service as the key resolver of the workers, and that it keeps the promise
    their theorems rely on, as long as clients declare their allocations truly. *)
Definition service_resolver s : KeyResolver := {|
  resolve_lkey := service_resolve_lkey (base_ s);
  resolve_rkey := service_resolve_rkey (base_ s);
|}.

Lemma service_resolver_laws s :
  inv s → (∀ id o m, mrs (tables s) !! id = Some (o, m) → declared_truly m) →
  @KeyResolverLaws (service_resolver s).
Proof.
  intros Hs Htrue. split; cbn; intros session pd_identity key address len a Hlen Hok;
    apply (key_found s) in Hok as (id & m & Hg & ->); try done;
    destruct (granted_range s _ _ _ _ _ _ _ _ Hs Hlen Hg) as (_ & ? & ?);
    pose proof (Htrue _ _ _ (proj1 Hg)) as Ht; unfold declared_truly in Ht; (split; lia).
Qed.

(** ** The workers' view *)

Definition view_of (id : Z) (o : Z) (q : QpRecord) : Worker.WorkerQpView :=
  Worker.mkView o (qp_pd q) (qp_num q) (peer_qp_num q) (max_sge (sq q)) (max_sge (rq q)) (qp_sig_all q)
    (send_ring_of id) (receive_ring_of id) (completions_of (qp_send_cq q)) (completions_of (qp_recv_cq q)).

Lemma worker_view_iff s num v :
  inv s → worker_qp_view s num = Ok v ↔
  ∃ id o q, qps (tables s) !! id = Some (o, q) ∧ qp_num q = num ∧ v = view_of id o q.
Proof.
  intros Hs. pose proof Hs as [Hregs Hi _]. pose proof Hregs as [Rc Rp Rm Rq Rk]. unfold worker_qp_view.
  split.
  - destruct (num =? 0); [done|]. destruct (qp_num_index_ s !! num) as [id|] eqn:Hidx; [|done].
    destruct (ti_num _ Hi _ _ Hidx) as (o & q & Hq & <-).
    assert (resolve_any ObjectIdentity.qp (qps_ s) id = Some q) as ->.
    { apply (resolve_any_Some ObjectIdentity.qp ltac:(named));
        [done|by eapply qp_u64|by exists o]. }
    destruct (resolve_cq _ _ (qp_send_cq q)); [|done]. destruct (resolve_cq _ _ (qp_recv_cq q)); [|done].
    intros <-%Ok_inj. exists id, o, q. split; [done|]. split; [done|].
    unfold view_of. by rewrite (qw_owner _ _ _ _ (ti_qp _ Hi _ _ _ Hq)).
  - intros (id & o & q & Hq & <- & ->). destruct (ti_qp _ Hi _ _ _ Hq)
      as [Ho _ (sc & Hsc & _) (rc & Hrc & _) Hnum (Hpos & _) _ _].
    rewrite (proj2 (Z.eqb_neq _ _)) by lia. cbn in Hnum. rewrite Hnum.
    assert (resolve_any ObjectIdentity.qp (qps_ s) id = Some q) as ->.
    { apply (resolve_any_Some ObjectIdentity.qp ltac:(named));
        [done|by eapply qp_u64|by exists o]. }
    pose proof (cq_u64 _ _ _ _ Hregs Hsc). pose proof (cq_u64 _ _ _ _ Hregs Hrc).
    apply (resolve_Some ObjectIdentity.cq ltac:(named)) in Hsc; [|done|done].
    apply (resolve_Some ObjectIdentity.cq ltac:(named)) in Hrc; [|done|done].
    unfold resolve_cq. by rewrite Ho, Hsc, Hrc.
Qed.

(** A worker sees exactly the live queue pairs: a view is returned for a number
    if and only if a live queue pair has it, and describes that queue pair; different
    numbers give different send and receive rings, so each of those rings is consumed
    by one worker only, and no work queue is also a completion queue. *)
Theorem worker_view_exact catalog (m0 : M) k s num v :
  kernel_sane k → rtc control_step (new_qp_service catalog m0 k) s →
  (worker_qp_view s num = Ok v ↔
   ∃ id o q, qps (tables s) !! id = Some (o, q) ∧ qp_num q = num ∧ v = view_of id o q) ∧
  (∀ num' v', worker_qp_view s num = Ok v → worker_qp_view s num' = Ok v' → num ≠ num' →
     Worker.send_queue v ≠ Worker.send_queue v' ∧ Worker.receive_queue v ≠ Worker.receive_queue v') ∧
  (worker_qp_view s num = Ok v →
     NoDup [Worker.send_queue v; Worker.receive_queue v; Worker.send_cq v] ∧
     NoDup [Worker.send_queue v; Worker.receive_queue v; Worker.receive_cq v]).
Proof.
  intros Hk Hr. pose proof (service_reachable_inv _ _ _ _ Hk Hr) as Hs.
  split; [by apply worker_view_iff|]. split.
  - intros num' v' (id & o & q & Hq & <- & ->)%worker_view_iff (id' & o' & q' & Hq' & <- & ->)%worker_view_iff Hne;
      [|done|done]. cbn. unfold send_ring_of, receive_ring_of.
    assert (id ≠ id') by (intros ->; rewrite Hq in Hq'; congruence). lia.
  - intros (id & o & q & Hq & <- & ->)%worker_view_iff; [|done]. cbn.
    unfold send_ring_of, receive_ring_of, completions_of.
    split; rewrite !NoDup_cons, !elem_of_cons; (split_and!; [..|by apply NoDup_nil]);
      rewrite ?elem_of_nil; intros; lia.
Qed.

End Service.

(** * Two sessions at work

    A backend that maps every allocation at a fixed address, rings that are always
    granted, and two sessions: the first connects a queue pair to that of the second. *)

#[export] Instance fixed_memory : CudaIpcMemoryBackend nat := {|
  mem_open n x :=
    if U64_MAX <? 1048576 + allocation_size x then (n, Err ENOMEM)
    else (S n, Ok (mkMapping (gpu_uuid x) 1048576));
  mem_close n _ := (pred n, 0);
|}.

#[export] Instance fixed_memory_laws : CudaIpcMemoryLaws nat.
Proof.
  split; [..|by vm_compute]; intros n x n' a; cbn; destruct (_ <? _) eqn:E; intros [= _ <-]; bool_hyps;
    cbn; (done || lia).
Qed.

Definition demo_kernel : Kernel :=
  mkKernel (λ n, mkSystem (Ok 4096) (Ok (100 + Z.of_nat n)) 0 0 0 (Ok 0))
    (λ n, Ok (200 + Z.of_nat n)) 0 0 (mkResources ∅ 0).

Lemma demo_kernel_sane : kernel_sane demo_kernel.
Proof. by split; [..|intros n; split_and!]. Qed.

Definition demo_start : QpService nat := new_qp_service default_catalog 0%nat demo_kernel.

Definition demo_memory : ExportedCudaMemory :=
  mkExported (replicate 16 Byte.x07) 65536 8192 4096 1024 [Byte.x01].
Definition demo_attributes (cq : Z) : QpCreateAttributes := mkCreate cq cq 8 8 2 2 kQpTypeRc 0.
Definition demo_init : QpAttributes := mkAttributes kQpStateInit 0 kQpAccessRemoteWrite 0 0 0 0.
Definition demo_retry : QpAttributes := mkAttributes kQpStateRts 0 0 14 7 7 12.

(** One request after the other, each given the identities returned so far. *)
Definition script : Type := list (Z * (list Z → UgdrControlRequest)).

#[local] Instance request_ok_dec r : Decision (request_ok r).
Proof.
  refine (cast_if (decide (is_u64 (rq_object_identity r) ∧ is_u64 (rq_length r) ∧
    is_u32 (rq_access r) ∧ Forall is_u32 (rq_fd_indices r))));
    [destruct_and!; by split|intros []; tauto].
Defined.

Fixpoint run {M} `{CudaIpcMemoryBackend M} (s : QpService M) (ids : list Z) (l : script)
  : option (QpService M * list Z) :=
  match l with
  | [] => Some (s, ids)
  | (session, r) :: l =>
      if decide (request_ok (r ids))
      then let '(s', res) := qp_handle s session (r ids) [] in
           run s' (ids ++ [rs_object_identity (response res)]) l
      else None
  end.

Lemma run_reachable {M} `{CudaIpcMemoryBackend M} l (s : QpService M) ids s' ids' : run s ids l = Some (s', ids') → rtc control_step s s'.
Proof.
  revert s ids. induction l as [|[session r] l IH]; intros s ids; [by intros [= -> _]|]. cbn.
  case_decide as Hr; [|done]. destruct (qp_handle _ _ _ _) as [s1 res] eqn:E. intros Hrun.
  eapply rtc_l; [by eapply request_step|by eapply IH].
Qed.

Definition demo_session (session : Z) (base : nat) : script :=
  let at_ n ids := nth (base + n)%nat ids 0 in
  [(session, λ _, make_create_context_request 1);
   (session, λ ids, make_create_pd_request (at_ 0%nat ids));
   (session, λ ids, make_create_cq_request (at_ 0%nat ids) 4);
   (session, λ ids, make_register_mr_request (at_ 1%nat ids) demo_memory 3);
   (session, λ ids, make_create_qp_request (at_ 1%nat ids) (demo_attributes (at_ 2%nat ids)));
   (session, λ ids, make_modify_qp_request (at_ 4%nat ids) demo_init (Z.lor kQpMaskState kQpMaskAccess))].

Definition demo_script : script := demo_session 1 0 ++ demo_session 2 6.

Definition demo_run : QpService nat * list Z := default (demo_start, []) (run demo_start [] demo_script).
Definition demo_service : QpService nat := demo_run.1.
Definition demo_id (n : nat) : Z := nth n demo_run.2 0.

Definition demo_connect : UgdrControlRequest :=
  make_connect_qp_request (demo_id 4) 2 demo_retry kQpConnectMask.

Lemma demo_service_reachable : rtc control_step demo_start demo_service.
Proof.
  apply (run_reachable demo_script _ [] _ demo_run.2). unfold demo_service, demo_run.
  assert (is_Some (run demo_start [] demo_script)) as [[s ids] ->];
    [apply (bool_decide_eq_true_1 _); by vm_compute|done].
Qed.

Lemma demo_connect_ok : request_ok demo_connect.
Proof. apply (bool_decide_eq_true_1 _). by vm_compute. Qed.

(** The state of a queue pair and its peer, read from the tables. *)
Definition qp_summary (s : QpService nat) (id : Z) : option (Z * Z * Z) :=
  (λ e, (e.1, qp_state e.2, peer_qp_num e.2)) <$> qps (tables s) !! id.

(** ** The properties on it *)

Definition status_of_demo : Z := rs_status (response (qp_handle demo_service 1 demo_connect []).2).

Lemma control_refines_witness :
  let s' := (qp_handle demo_service 1 demo_connect []).1 in
  qp_summary s' (demo_id 4) = Some (1, kQpStateRts, 2) ∧
  action 1 connect_qp (demo_id 4) 0 (tables demo_service) (tables s').
Proof.
  split; [by vm_compute|]. assert (status_of_demo = 0) as Hst by by vm_compute.
  assert (rs_object_identity (response (qp_handle demo_service 1 demo_connect []).2) = 0) as Hid
    by by vm_compute.
  unfold status_of_demo in Hst.
  destruct (qp_handle demo_service 1 demo_connect []) as [s' res] eqn:E. cbn [fst snd] in *.
  rewrite <- Hid.
  refine (proj1 (control_refines default_catalog 0%nat demo_kernel demo_service 1 demo_connect [] s' res
    demo_kernel_sane demo_service_reachable demo_connect_ok E) Hst).
Defined.

Lemma control_integrity_witness :
  qp_summary demo_service (demo_id 4) = Some (1, kQpStateInit, 0) ∧ integrity (tables demo_service).
Proof.
  split; [by vm_compute|].
  exact (control_integrity default_catalog 0%nat demo_kernel _ demo_kernel_sane demo_service_reachable).
Defined.

Lemma session_isolation_witness :
  let s' := (qp_handle demo_service 1 demo_connect []).1 in
  qp_summary s' (demo_id 4) = Some (1, kQpStateRts, 2) ∧ same_for 2 (tables demo_service) (tables s').
Proof.
  split; [by vm_compute|]. destruct (qp_handle demo_service 1 demo_connect []) as [s' res] eqn:E. cbn [fst].
  exact (session_isolation default_catalog 0%nat demo_kernel _ 1 demo_connect [] s' res 2
    demo_kernel_sane demo_service_reachable demo_connect_ok E ltac:(done)).
Defined.

Lemma disconnect_releases_witness :
  let s' := qp_disconnect demo_service 1 in
  qp_summary s' (demo_id 4) = None ∧ qp_summary s' (demo_id 10) = Some (2, kQpStateInit, 0) ∧
  tables s' = disconnected 1 (tables demo_service).
Proof.
  split; [by vm_compute|]. split; [by vm_compute|].
  exact (proj1 (disconnect_releases default_catalog 0%nat demo_kernel _ 1 demo_kernel_sane
    demo_service_reachable)).
Defined.

Lemma qp_state_machine_witness :
  ∃ q q', qps (tables demo_service) !! demo_id 4 = Some (1, q) ∧ qp_edge q q' ∧
    peer_qp_num q' = 2.
Proof.
  assert (is_Some (qps (tables demo_service) !! demo_id 4)) as [[o q] Hq]
    by (apply (bool_decide_eq_true_1 _); by vm_compute).
  destruct (qp_handle demo_service 1 demo_connect []) as [s' res] eqn:E.
  assert (qp_summary s' (demo_id 4) = Some (1, kQpStateRts, 2)) as Hs'.
  { replace s' with (qp_handle demo_service 1 demo_connect []).1 by by rewrite E. by vm_compute. }
  destruct (qp_state_machine default_catalog 0%nat demo_kernel _ 1 demo_connect [] s' res _ _ _
    demo_kernel_sane demo_service_reachable demo_connect_ok E Hq) as [_ [[Hd _]|(q' & Hq' & He)]];
    [discriminate Hd|].
  unfold qp_summary in Hs'. rewrite Hq' in Hs'. injection Hs' as -> _ Hp. exists q, q'. auto.
Defined.


Lemma worker_view_exact_witness :
  ∃ v id o q, worker_qp_view demo_service 2 = Ok v ∧
    qps (tables demo_service) !! id = Some (o, q) ∧ qp_num q = 2 ∧ v = view_of id o q.
Proof.
  assert (match worker_qp_view demo_service 2 with Ok _ => True | Err _ => False end) as Hok by by vm_compute.
  destruct (worker_qp_view demo_service 2) as [v|e] eqn:E; [|contradiction].
  destruct (proj1 (proj1 (worker_view_exact default_catalog 0%nat demo_kernel demo_service 2 v
    demo_kernel_sane demo_service_reachable)) E) as (id & o & q & Hq & Hn & Hv).
  exists v, id, o, q. auto.
Defined.

End ControlPlane.
