(* ===== verification/ControlRings.v ===== *)
(** The ring mappings of the daemon's services (src/control/pd_mr_cq.cpp and qp.cpp): at
    any time the process holds exactly the mappings of the rings of its live completion
    queues and queue pairs.  Every error path of a creation gives back what it mapped, and
    destruction and the end of a session unmap what the objects held. *)

From S2P Require Import Prelude ObjectIdentity ObjectRegistry SharedRing Descriptors Protocol Adapter.
From S2P Require Import QueueDescriptors Control DeviceContext PdMrCq Qp ControlSpec ControlRefine ControlPlane.
Import Registry Ring Adapter QueueDescriptors Control CudaIpc PdMrCq Qp DeviceContext ControlSpec ControlRefine
  ControlHandlers ControlPlane.

Module ControlRings.

(** * Sums over a table *)

Section Total.
Context {V : Type} (f : V → Z).
Implicit Types m : gmap Z (Z * V).

Definition sum (l : list V) : Z := foldr (λ v n, f v + n) 0 l.
Definition total m : Z := sum ((map_to_list m).*2.*2).

Lemma sum_perm l l' : l ≡ₚ l' → sum l = sum l'.
Proof. unfold sum. induction 1; cbn; lia. Qed.
Lemma sum_app l l' : sum (l ++ l') = sum l + sum l'.
Proof. unfold sum. induction l; cbn; lia. Qed.

Lemma total_insert m k o v : m !! k = None → total (<[k := (o, v)]> m) = f v + total m.
Proof.
  intros Hk. unfold total. rewrite (sum_perm _ (((k, (o, v)) :: map_to_list m).*2.*2)); [done|].
  by rewrite map_to_list_insert.
Qed.

Lemma total_delete m k o v : m !! k = Some (o, v) → total (delete k m) = total m - f v.
Proof.
  intros Hk. rewrite <- (insert_delete_id m k (o, v) Hk) at 2. rewrite total_insert by apply lookup_delete_eq. lia.
Qed.

Lemma total_upd m k (g : V → V) : (∀ v, f (g v) = f v) → total (upd g k m) = total m.
Proof.
  intros Hg. destruct (m !! k) as [[o v]|] eqn:Hk; [|by rewrite upd_absent].
  rewrite (upd_as_insert g k m o v Hk), total_insert by apply lookup_delete_eq.
  rewrite Hg, (total_delete m k o v Hk). lia.
Qed.

(** The objects of a session and those of the others. *)
Lemma total_others m s l :
  NoDup l → (∀ k v, (k, v) ∈ l ↔ m !! k = Some (s, v)) → total m = sum l.*2 + total (others s m).
Proof.
  revert l. induction m as [|k [o v] m Hk IH] using map_ind; intros l Hnd Hl.
  { destruct l as [|[k v] l]; [by rewrite <- (left_id 0 Z.add (total ∅))|].
    pose proof (proj1 (Hl k v) ltac:(left)) as E. by rewrite lookup_empty in E. }
  rewrite total_insert by done. unfold others. destruct (decide (o = s)) as [->|Ho].
  - rewrite map_filter_insert_False by (cbn; tauto). rewrite delete_id by done. fold (others s m).
    assert ((k, v) ∈ l) as (l1 & l2 & ->)%list_elem_of_split by (apply Hl; by rewrite lookup_insert_eq).
    assert (l1 ++ (k, v) :: l2 ≡ₚ (k, v) :: l1 ++ l2) as Hp by by rewrite Permutation_middle.
    rewrite (IH (l1 ++ l2)).
    + rewrite !fmap_app, fmap_cons, !sum_app. cbn. unfold sum. lia.
    + rewrite Hp in Hnd. by apply NoDup_cons in Hnd as [_ ?].
    + intros k' v'. rewrite Hp in Hnd. apply NoDup_cons in Hnd as [Hni _]. specialize (Hl k' v').
      rewrite Hp, elem_of_cons in Hl. destruct (decide (k' = k)) as [->|Hne].
      * rewrite Hk. split; [|done]. intros Hin.
        pose proof (proj1 Hl ltac:(by right)) as E. rewrite lookup_insert_eq in E. by simplify_eq.
      * rewrite lookup_insert_ne in Hl by done. rewrite <- Hl. split; [by right|intros [[= ? ?]|?]; done].
  - rewrite map_filter_insert_True by done. fold (others s m).
    assert (others s m !! k = None) as Hk' by (apply map_lookup_filter_None_2; by left).
    rewrite total_insert by done. rewrite (IH l Hnd); [lia|]. intros k' v'. rewrite Hl.
    destruct (decide (k' = k)) as [->|Hne]; [|by rewrite lookup_insert_ne].
    rewrite lookup_insert_eq, Hk. split; [intros [= ? ?]; done|done].
Qed.
End Total.

(** The visitor of a session meets each object once. *)
Section Visits.
Context {R : Type} (T : ObjectIdentity.ObjectType) (HT : ObjectIdentity.named_type T).

Lemma NoDup_omap {A B} (g : A → option B) l :
  (∀ x y z, x ∈ l → y ∈ l → g x = Some z → g y = Some z → x = y) → NoDup l → NoDup (omap g l).
Proof.
  intros Hg Hnd. induction Hnd as [|x l Hx Hnd IH]; cbn; [constructor|].
  assert (NoDup (omap g l)) as Hn by (apply IH; intros a b z Ha Hb; apply Hg; by right).
  destruct (g x) as [z|] eqn:E; [|done]. constructor; [|done].
  intros (y & Hy & Ey)%list_elem_of_omap. apply Hx. by rewrite (Hg x y z ltac:(left) ltac:(by right) E Ey).
Qed.

Lemma NoDup_imap_pair {A} (l : list A) : NoDup (imap pair l).
Proof.
  apply NoDup_alt. intros i j x. rewrite !list_lookup_imap.
  intros (a & _ & ->)%fmap_Some_1 (b & _ & Ex)%fmap_Some_1. by simplify_eq.
Qed.

Lemma visits_once (r : @GenerationRegistry R) s : reg_inv r → NoDup (for_each_session T r s).
Proof.
  intros Hr. unfold for_each_session. apply NoDup_omap; [|apply NoDup_imap_pair].
  intros [i a] [j b] z Hi Hj. apply list_elem_of_lookup in Hi as [i' Hi], Hj as [j' Hj].
  rewrite list_lookup_imap in Hi, Hj. apply fmap_Some_1 in Hi as (a' & Ha & [= -> ->]), Hj as (b' & Hb & [= -> ->]).
  intros Ea Eb. destruct (_ && _) in Ea; [|done]. destruct (_ && _) in Eb; [|done].
  destruct (slot_value a') as [va|]; [|done]. destruct (slot_value b') as [vb|]; [|done].
  destruct (ObjectIdentity.encode_object_identity (ObjectIdentity.mkParts T (slot_generation a') _)) as [x|] eqn:Ex; [|done].
  destruct (ObjectIdentity.encode_object_identity (ObjectIdentity.mkParts T (slot_generation b') _)) as [y|] eqn:Ey; [|done].
  assert (x = y) as -> by congruence.
  apply (encodes_decode T HT) in Ex; [|by apply (inv_slots _ Hr i')|by eapply slot_index_bound].
  apply (encodes_decode T HT) in Ey; [|by apply (inv_slots _ Hr j')|by eapply slot_index_bound].
  rewrite Ex in Ey. injection Ey as _ Eij. assert (i' = j') as -> by lia. congruence.
Qed.
End Visits.

(** * Mappings *)

Definition mapped (k : Kernel) : Z := live_mappings (resources k).
(** The mappings a ring object holds. *)
Definition held (r : SharedRing) : Z := if mapping_ r then 1 else 0.

Lemma new_ring_mapped k d k' res :
  new_ring k d = (k', res) → mapped k' = mapped k + match res with Ok r => held r | Err _ => 0 end.
Proof.
  unfold new_ring, mapped, create_shared_ring. cbn [valid mapping_ no_ring].
  set (a := ring_answers k (ring_calls k)). clearbody a.
  destruct (_ ≫= _) as [n|e]; [|intros [= <- <-]; cbn; lia].
  destruct (_ <? _); [intros [= <- <-]; cbn; lia|].
  destruct (sys_memfd a) as [fd|e]; [|intros [= <- <-]; cbn; lia].
  destruct (negb (sys_ftruncate a =? 0)); [intros [= <- <-]; cbn; lia|].
  destruct (negb (sys_mmap a =? 0)); [intros [= <- <-]; cbn; lia|].
  destruct (negb (sys_add_seals a =? 0)); intros [= <- <-]; cbn; lia.
Qed.
Lemma dup_ring_mapped k r k' res : dup_ring k r = (k', res) → mapped k' = mapped k.
Proof. unfold dup_ring, mapped. intros [= <- _]. cbn. by case_match. Qed.
Lemma drop_ring_mapped k r : mapped (drop_ring k r) = mapped k - held r.
Proof. unfold drop_ring, mapped, reset, held. by destruct (mapping_ r), (0 <=? descriptor_ r); cbn; lia. Qed.
Lemma drop_fd_mapped k fd : mapped (drop_fd k fd) = mapped k.
Proof. done. Qed.

Definition both (q : QpRings) : Z := held (new_send q) + held (new_recv q).

Lemma drop_rings_mapped k q : mapped (drop_rings k q) = mapped k - both q.
Proof. unfold drop_rings, both. rewrite !drop_fd_mapped, !drop_ring_mapped. lia. Qed.

Lemma create_rings_mapped k sd rd k' res :
  create_rings k sd rd = (k', res) → mapped k' = mapped k + match res with Ok q => both q | Err _ => 0 end.
Proof.
  unfold create_rings. destruct (new_ring k sd) as [k1 r1] eqn:E1. apply new_ring_mapped in E1.
  destruct r1 as [sr|e]; [|intros [= <- <-]; lia].
  destruct (new_ring k1 rd) as [k2 r2] eqn:E2. apply new_ring_mapped in E2.
  destruct r2 as [rr|e]; [|intros [= <- <-]; rewrite drop_ring_mapped; lia].
  destruct (dup_ring k2 sr) as [k3 r3] eqn:E3. apply dup_ring_mapped in E3.
  destruct r3 as [sfd|e]; [|intros [= <- <-]; rewrite !drop_ring_mapped; lia].
  destruct (dup_ring k3 rr) as [k4 r4] eqn:E4. apply dup_ring_mapped in E4.
  destruct r4 as [rfd|e]; intros [= <- <-]; rewrite ?drop_fd_mapped, ?drop_ring_mapped; unfold both; cbn; lia.
Qed.

(** * The services *)

Definition cq_held (c : CqRecord) : Z := held (completions c).
Definition qp_held (q : QpRecord) : Z := held (send_queue q) + held (receive_queue q).
(** The mappings of the rings of all live objects. *)
Definition rings_held (t : Tables) : Z := total cq_held (cqs t) + total qp_held (qps t).

Section Service.
Context {M : Type} `{CudaIpcMemoryLaws M}.
Implicit Types (s : QpService M) (r : UgdrControlRequest).

(** What is mapped beyond the rings of live objects. *)
Definition excess s : Z := mapped (kernel_ (base_ s)) - rings_held (tables s).

Lemma excess_same s s' :
  kernel_ (base_ s') = kernel_ (base_ s) → cqs_ (base_ s') = cqs_ (base_ s) → qps_ s' = qps_ s →
  excess s' = excess s.
Proof. intros E1 E2 E3. unfold excess, rings_held, tables. cbn. by rewrite E1, E2, E3. Qed.

(** Only the kernel changed. *)
Lemma excess_kernel s k : excess (with_qp_kernel s k) = mapped k - rings_held (tables s).
Proof. done. Qed.

(** Handlers that do not touch rings. *)
Lemma device_excess session r fds s :
  let '(d, _) := device_handle (device_ (base_ s)) session r fds in
  excess (with_base s (with_device (base_ s) d)) = excess s.
Proof. by destruct (device_handle _ _ _ _). Qed.

Lemma create_pd_excess session r fds s :
  let '(b, _) := handle_create_pd (base_ s) session r fds in excess (with_base s b) = excess s.
Proof. unfold handle_create_pd. by repeat case_match; simplify_eq; apply excess_same. Qed.
Lemma destroy_pd_excess session r fds s :
  let '(b, _) := handle_destroy_pd (base_ s) session r fds in excess (with_base s b) = excess s.
Proof. unfold handle_destroy_pd. by repeat case_match; simplify_eq; apply excess_same. Qed.

Lemma close_mapping_rings (b : PdMrCqService M) x :
  kernel_ (close_mapping b x).1 = kernel_ b ∧ cqs_ (close_mapping b x).1 = cqs_ b.
Proof. unfold close_mapping. by destruct (mem_close _ _). Qed.

Lemma register_mr_excess session r fds s :
  let '(b, _) := handle_register_mr (base_ s) session r fds in excess (with_base s b) = excess s.
Proof.
  unfold handle_register_mr, link_mr. repeat case_match; simplify_eq; apply excess_same; cbn;
    rewrite ?(proj1 (close_mapping_rings _ _)), ?(proj2 (close_mapping_rings _ _)); done.
Qed.
Lemma deregister_mr_excess session r fds s :
  let '(b, _) := handle_deregister_mr (base_ s) session r fds in excess (with_base s b) = excess s.
Proof.
  unfold handle_deregister_mr. repeat case_match; simplify_eq; try by apply excess_same.
  all: match goal with E : close_mapping _ ?x = (?b, _) |- _ =>
    pose proof (close_mapping_rings (base_ s) x) as [K1 K2]; rewrite E in K1, K2; cbn [fst] in K1, K2 end;
    by apply excess_same.
Qed.

(** ** Completion queues *)

Lemma create_cq_excess session r fds s :
  inv s → let '(b, _) := handle_create_cq (base_ s) session r fds in excess (with_base s b) = excess s.
Proof.
  intros [[_ _ _ Rq _] _ _]. unfold handle_create_cq. destruct (_ || _); [by apply excess_same|].
  destruct (resolve_context _ _ _); [|by apply excess_same]. cbv zeta.
  destruct (new_ring _ _) as [k1 r1] eqn:E1. apply new_ring_mapped in E1.
  assert (∀ k, mapped k = mapped (kernel_ (base_ s)) → excess (with_base s (with_kernel (base_ s) k)) = excess s) as Hk.
  { intros k Ek. unfold excess. cbn. by rewrite Ek. }
  destruct r1 as [ring|e]; [|apply Hk; lia]. destruct (dup_ring k1 ring) as [k2 r2] eqn:E2. apply dup_ring_mapped in E2.
  destruct r2 as [fd|e]; [|apply Hk; rewrite drop_ring_mapped; lia].
  destruct (encode_queue_descriptors _) as [encoded|e]; [|apply Hk; rewrite drop_fd_mapped, drop_ring_mapped; lia].
  set (made := mkCq _ _ 0 ring).
  destruct (insert_spec ObjectIdentity.cq ltac:(named) (cqs_ (base_ s)) session made Rq)
    as [(-> & _)|(reg & id & -> & _ & _ & Hn & Hv)].
  - replace (with_cqs (base_ s) (cqs_ (base_ s))) with (base_ s) by (by destruct (base_ s)).
    apply Hk. rewrite drop_fd_mapped, drop_ring_mapped. lia.
  - unfold excess, rings_held, tables. cbn. rewrite Hv, total_insert by done. unfold cq_held at 1. cbn. lia.
Qed.

Lemma destroy_cq_excess session r fds s :
  inv s → is_u64 (rq_object_identity r) →
  let '(b, _) := handle_destroy_cq (base_ s) session r fds in excess (with_base s b) = excess s.
Proof.
  intros [[_ _ _ Rq _] _ _] Hu. unfold handle_destroy_cq. destruct (negb _); [by apply excess_same|].
  destruct (resolve_cq _ _ _) as [c|] eqn:Hr; [|by apply excess_same].
  apply resolve_Some in Hr; [|named|done|done].
  destruct (negb _); [by apply excess_same|]. destruct (resolve_context _ _ _) as [x|]; [|by apply excess_same].
  destruct (child_count x =? 0); [by apply excess_same|].
  destruct (erase_spec ObjectIdentity.cq ltac:(named) _ _ _ _ Rq Hr Hu) as (reg & -> & _ & Hv).
  unfold excess, rings_held, tables. cbn. rewrite Hv, (total_delete _ _ _ _ _ Hr), drop_ring_mapped.
  unfold cq_held. lia.
Qed.

(** ** Queue pairs *)

Lemma count_qp_excess s p scq rcq d :
  regs_ok s → is_u64 p → is_u64 scq → is_u64 rcq → excess (count_qp s p scq rcq d) = excess s.
Proof.
  intros Hr Hp Hs Hq. destruct (count_qp_tables s p scq rcq d Hr Hp Hs Hq) as (_ & Ht & Hk & _).
  unfold excess, rings_held. rewrite Ht, Hk. unfold bump_qp. cbn. f_equal. f_equal.
  destruct (rcq =? scq); by rewrite !total_upd.
Qed.

Lemma set_qp_excess s id f :
  regs_ok s → is_u64 id → (∀ q, qp_held (f q) = qp_held q) → excess (set_qp s id f) = excess s.
Proof.
  intros [_ _ _ _ Rk] Hu Hf. destruct (modify_ok ObjectIdentity.qp _ id f ltac:(named) Rk Hu) as [_ Hv].
  unfold excess, rings_held, tables. cbn. by rewrite Hv, total_upd.
Qed.

(** The rings are given back, or belong to the new queue pair. *)
Lemma insert_qp_excess session r s p a rings encoded :
  inv s → is_u64 (rq_object_identity r) → create_ok a →
  excess (insert_qp s session r p a rings encoded).1 = excess s - both rings.
Proof.
  intros [[Rc Rp Rm Rq Rk] Hi _] Hu []. unfold insert_qp.
  assert (∀ s', kernel_ (base_ s') = kernel_ (base_ s) → rings_held (tables s') = rings_held (tables s) →
    excess (with_qp_kernel s' (drop_rings (kernel_ (base_ s')) rings)) = excess s - both rings) as Hfail.
  { intros s' E1 E2. rewrite excess_kernel, drop_rings_mapped, E1, E2. unfold excess. lia. }
  destruct (_ =? 0) eqn:Hz; [by apply Hfail|]. bool_hyps. cbv zeta. cbn [qps_ with_next_num next_qp_num_].
  set (n := next_qp_num_ s) in *. set (q := new_qp_record session _ _ a n rings).
  destruct (insert_spec ObjectIdentity.qp ltac:(named) (qps_ s) session q Rk)
    as [(-> & _)|(reg & id & -> & Rk' & _ & Hn & Hv)]; [by apply Hfail|].
  cbn [qp_num_index_ with_qps with_next_num]. destruct (qp_num_index_ s !! n) as [id'|] eqn:Hidx.
  { exfalso. destruct (ti_num _ Hi _ _ Hidx) as (o & q' & Hq' & En).
    destruct (qw_issued _ _ _ _ (ti_qp _ Hi _ _ _ Hq')) as (_ & [?|?] & _); cbn in *; unfold n in *; lia. }
  cbn [fst]. rewrite count_qp_excess; [|by split|done..].
  unfold excess, rings_held, tables. cbn. rewrite Hv, total_insert by done. unfold qp_held at 1. cbn. unfold both. lia.
Qed.

Lemma create_qp_excess session r fds s :
  inv s → is_u64 (rq_object_identity r) → excess (handle_create_qp s session r fds).1 = excess s.
Proof.
  intros Hs Hu. unfold handle_create_qp. destruct (negb _); [done|].
  destruct (decode_qp_create_attributes _) as [a|e] eqn:Hd; [|done]. apply decode_create_ok in Hd.
  destruct (negb _); [done|]. destruct (resolve_pd _ _ _) as [p|]; [|done].
  destruct (resolve_cq _ _ (send_cq_identity a)); [|done]. destruct (resolve_cq _ _ (recv_cq_identity a)); [|done].
  destruct (_ || _); [done|]. destruct (_ ≫= _) as [[ss rs]|e]; [|done]. cbv zeta.
  pose proof (create_rings_answers (kernel_ (base_ s)) (mkDescriptor send (max_send_wr a) ss)
    (mkDescriptor receive (max_recv_wr a) rs)) as Hka.
  destruct (create_rings _ _ _) as [k made] eqn:E. apply create_rings_mapped in E. cbn [fst] in Hka.
  destruct made as [rings|e]; [|cbn [fst]; rewrite excess_kernel, E; unfold excess; lia].
  destruct (encode_queue_descriptors _) as [encoded|e].
  - rewrite insert_qp_excess; [|destruct Hs as [[] ? ?]; split; [by split|done|by eapply kernel_sane_same]|done|done].
    rewrite excess_kernel, E. unfold excess. lia.
  - cbn [fst]. rewrite excess_kernel, drop_rings_mapped, E. unfold excess. lia.
Qed.

Lemma destroy_qp_excess session r fds s :
  inv s → is_u64 (rq_object_identity r) → excess (handle_destroy_qp s session r fds).1 = excess s.
Proof.
  intros [Hregs Hi _] Hu. pose proof Hregs as [_ _ _ _ Rk]. unfold handle_destroy_qp. destruct (negb _); [done|].
  destruct (resolve_qp _ _ _) as [q|] eqn:Hq; [|done]. apply resolve_Some in Hq; [|named|done|done].
  pose proof (ti_qp _ Hi _ _ _ Hq) as Hw. destruct (qw_pd _ _ _ _ Hw) as (p & Hp & _).
  destruct (qw_send_cq _ _ _ _ Hw) as (sc & Hsc & _). destruct (qw_recv_cq _ _ _ _ Hw) as (rc & Hrc & _).
  pose proof (pd_u64 _ _ _ _ Hregs Hp) as Up. pose proof (cq_u64 _ _ _ _ Hregs Hsc) as Us.
  pose proof (cq_u64 _ _ _ _ Hregs Hrc) as Ur.
  destruct (resolve_pd _ _ _) as [p'|]; [|done]. destruct (resolve_cq _ _ (qp_send_cq q)) as [sc'|]; [|done].
  destruct (resolve_cq _ _ (qp_recv_cq q)) as [rc'|]; [|done]. destruct (_ || _ || _); [done|].
  pose proof (count_qp_excess s (qp_pd q) (qp_send_cq q) (qp_recv_cq q) (-1) Hregs Up Us Ur) as Hc.
  destruct (count_qp_tables s (qp_pd q) (qp_send_cq q) (qp_recv_cq q) (-1) Hregs Up Us Ur) as (_ & _ & _ & Hqps & _).
  cbv zeta. set (s1 := count_qp _ _ _ _ _) in *. clearbody s1. rewrite Hqps.
  destruct (erase_spec ObjectIdentity.qp ltac:(named) _ _ _ _ Rk Hq Hu) as (reg & -> & _ & Hv). cbn [Z.eqb fst].
  rewrite <- Hc, excess_kernel, !drop_ring_mapped. unfold excess, rings_held, tables. cbn.
  rewrite Hv, Hqps, (total_delete _ _ _ _ _ Hq). unfold qp_held. lia.
Qed.

Lemma modify_qp_excess session r fds s :
  inv s → is_u64 (rq_object_identity r) → excess (handle_modify_qp s session r fds).1 = excess s.
Proof.
  intros [Hregs _ _] Hu. unfold handle_modify_qp. repeat (case_match; try done); cbn [fst]; by apply set_qp_excess.
Qed.
Lemma connect_qp_excess session r fds s :
  inv s → is_u64 (rq_object_identity r) → excess (handle_connect_qp s session r fds).1 = excess s.
Proof.
  intros [Hregs _ _] Hu. unfold handle_connect_qp. repeat (case_match; try done); cbn [fst]; by apply set_qp_excess.
Qed.
Lemma query_qp_same session r fds s : (handle_query_qp s session r fds).1 = s.
Proof. unfold handle_query_qp. by repeat case_match. Qed.
Lemma query_conn_info_same session r fds s : (handle_query_qp_conn_info s session r fds).1 = s.
Proof. unfold handle_query_qp_conn_info. by repeat case_match. Qed.

(** ** Every request, and the end of a session *)

Lemma handle_excess session r fds s s' res :
  inv s → request_ok r → qp_handle s session r fds = (s', res) → excess s' = excess s.
Proof.
  intros Hs Hr. pose proof (ro_identity _ Hr) as Hu. unfold qp_handle. intros E.
  apply (f_equal fst) in E. cbn [fst] in E. subst s'. clear res.
  destruct (method_of_code (rq_method r)) eqn:Hm;
    try (by apply create_qp_excess); try (by apply destroy_qp_excess); try (by rewrite query_qp_same);
    try (by apply modify_qp_excess); try (by rewrite query_conn_info_same); try (by apply connect_qp_excess);
    unfold pd_handle; rewrite Hm.
  all: try (pose proof (device_excess session r fds s) as Ho; by destruct (device_handle _ _ _ _)).
  - pose proof (create_pd_excess session r fds s) as Ho. by destruct (handle_create_pd _ _ _ _).
  - pose proof (destroy_pd_excess session r fds s) as Ho. by destruct (handle_destroy_pd _ _ _ _).
  - pose proof (register_mr_excess session r fds s) as Ho. by destruct (handle_register_mr _ _ _ _).
  - pose proof (deregister_mr_excess session r fds s) as Ho. by destruct (handle_deregister_mr _ _ _ _).
  - pose proof (create_cq_excess session r fds s Hs) as Ho. by destruct (handle_create_cq _ _ _ _).
  - pose proof (destroy_cq_excess session r fds s Hs Hu) as Ho. by destruct (handle_destroy_cq _ _ _ _).
Qed.

Lemma drop_all_mapped {V} (drop : Kernel → Z * V → Kernel) (w : V → Z) (l : list (Z * V)) k :
  (∀ k e, mapped (drop k e) = mapped k - w e.2) → mapped (foldl drop k l) = mapped k - sum w l.*2.
Proof.
  intros Hd. revert k. induction l as [|e l IH]; intros k; cbn; [lia|]. rewrite IH, Hd. unfold sum. cbn. lia.
Qed.

Lemma disconnect_excess session s : inv s → excess (qp_disconnect s session) = excess s.
Proof.
  intros Hs. pose proof Hs as [[_ _ _ Rq Rk] _ _]. destruct (disconnect_tables session s Hs) as [_ Ht].
  pose proof (total_others qp_held (qps (tables s)) session (for_each_session ObjectIdentity.qp (qps_ s) session)
    (visits_once ObjectIdentity.qp ltac:(named) (qps_ s) session Rk)
    (λ k v, for_each_session_spec ObjectIdentity.qp ltac:(named) (qps_ s) session k v Rk)) as Tq.
  pose proof (total_others cq_held (cqs (tables s)) session (for_each_session ObjectIdentity.cq (cqs_ (base_ s)) session)
    (visits_once ObjectIdentity.cq ltac:(named) (cqs_ (base_ s)) session Rq)
    (λ k v, for_each_session_spec ObjectIdentity.cq ltac:(named) (cqs_ (base_ s)) session k v Rq)) as Tc.
  unfold excess, rings_held. rewrite Ht, Tq, Tc. cbn [disconnected cqs qps].
  unfold qp_disconnect, pd_disconnect. cbn.
  rewrite (drop_all_mapped _ cq_held) by (intros k [id c]; apply drop_ring_mapped).
  rewrite (drop_all_mapped _ qp_held) by (intros k [id q]; unfold qp_held; rewrite !drop_ring_mapped; cbn; lia).
  lia.
Qed.
End Service.
End ControlRings.
