(* ===== verification/ControlStatus.v ===== *)
(** The answers to requests that destroy an object, in every reachable state of the
    daemon: which are refused, with which code, and that nothing else is. *)

From S2P Require Import Prelude ObjectIdentity ObjectRegistry SharedRing Protocol Adapter Control.
From S2P Require Import DeviceContext PdMrCq Qp ControlSpec ControlRefine ControlPlane.
Import Registry Ring Adapter Control CudaIpc PdMrCq Qp DeviceContext ControlSpec ControlRefine
  ControlHandlers ControlPlane.

Module ControlStatus.

(** The owner of the object a destroy request names, and how many live objects refer
    to it. *)
Definition owner_of (mth : ControlMethod) (t : Tables) (id : Z) : option Z :=
  match mth with
  | destroy_context => fst <$> ctxs t !! id
  | destroy_pd => fst <$> pds t !! id
  | destroy_cq => fst <$> cqs t !! id
  | destroy_qp => fst <$> qps t !! id
  | _ => None
  end.

Definition of_mr_pd (id : Z) (m : MrRecord) : bool := mr_pd m =? id.

Definition children (mth : ControlMethod) (t : Tables) (id : Z) : Z :=
  match mth with
  | destroy_context => cnt (of_context_pd id) (pds t) + cnt (of_context_cq id) (cqs t)
  | destroy_pd => cnt (of_mr_pd id) (mrs t) + cnt (of_pd id) (qps t)
  | destroy_cq => cnt (of_cq id) (qps t)
  | _ => 0
  end.

Definition destroy_answer (mth : ControlMethod) (session : Z) (t : Tables) (id : Z) : Z :=
  if bool_decide (owner_of mth t id = Some session)
  then if children mth t id =? 0 then 0 else EBUSY
  else EINVAL.

Lemma answer_owned mth session t id :
  owner_of mth t id = Some session →
  destroy_answer mth session t id = if children mth t id =? 0 then 0 else EBUSY.
Proof. intros Ho. unfold destroy_answer. by rewrite Ho, bool_decide_eq_true_2. Qed.

Lemma answer_not_owned mth session t id :
  owner_of mth t id ≠ Some session → destroy_answer mth session t id = EINVAL.
Proof. intros Ho. unfold destroy_answer. by rewrite bool_decide_eq_false_2. Qed.

(** Which handler a request goes to. *)
Ltac dispatch mth id :=
  change (method_of_code (rq_method (object_request mth id))) with mth;
  change (rq_object_identity (object_request mth id)) with id; cbv iota.

Section Service.
Context {M : Type} `{CudaIpcMemoryLaws M}.
Implicit Types s : QpService M.

Definition status_of (x : QpService M * ControlServiceResult) : Z := rs_status (response x.2).

Lemma not_owned {V} (T : ObjectIdentity.ObjectType) (reg : @GenerationRegistry V) session id :
  ObjectIdentity.named_type T → reg_inv reg → is_u64 id → resolve T reg session id = None →
  fst <$> view T reg !! id ≠ Some session.
Proof.
  intros HT Hr Hu Hn. destruct (view T reg !! id) as [[o v]|] eqn:E; [|done]. cbn. intros [= ->].
  apply (resolve_Some T HT) in E; [congruence|done|done].
Qed.

(** Regions of a protection domain, as the domain and as the table count them. *)
Lemma no_regions t id o p :
  integrity t → pds t !! id = Some (o, p) → mr_identities p = ∅ ↔ cnt (of_mr_pd id) (mrs t) = 0.
Proof.
  intros Hi Hp. split.
  - intros He. apply cnt_none. intros k o' m Hm. unfold of_mr_pd. apply Z.eqb_neq. intros <-.
    destruct (ml_pd _ _ _ _ (ti_mr _ Hi _ _ _ Hm)) as (p' & Hp' & _ & Hin & _).
    rewrite Hp in Hp'. injection Hp' as _ <-. set_solver.
  - intros Hz. apply set_eq. intros x. split; [|set_solver]. intros Hx.
    destruct (pw_mrs _ _ _ _ (ti_pd _ Hi _ _ _ Hp) _ Hx) as (m & Hm & Hpd).
    apply (cnt_zero _ _ _ _ _ Hz) in Hm. unfold of_mr_pd in Hm. by apply Z.eqb_neq in Hm.
Qed.

Lemma destroy_context_status s session id :
  inv s → is_u64 id →
  status_of (qp_handle s session (object_request destroy_context id) []) =
  destroy_answer destroy_context session (tables s) id.
Proof.
  intros Hs Hu. pose proof Hs as [[Rc _ _ _ _] Hi _].
  unfold qp_handle, pd_handle, device_handle.
  dispatch destroy_context id.
  destruct (resolve_context _ _ _) as [c|] eqn:Hr; cbn.
  - apply resolve_Some in Hr; [|named|done|done].
  rewrite answer_owned by (cbn; by rewrite Hr).
    rewrite (ti_ctx _ Hi _ _ _ Hr). cbn -[cnt tables]. destruct (_ =? 0); [|done]. cbn.
    destruct (erase_spec ObjectIdentity.context ltac:(named) _ _ _ _ Rc Hr Hu) as (c' & -> & _). done.
  - rewrite answer_not_owned; [done|]. apply not_owned; [named|done..].
Qed.

(** The parent of a live child is found, and its count is positive. *)
Lemma parent_found s session ctx :
  inv s → (∃ c, ctxs (tables s) !! ctx = Some (session, c)) →
  0 < cnt (of_context_pd ctx) (pds (tables s)) + cnt (of_context_cq ctx) (cqs (tables s)) →
  ∃ c, resolve_context (device_ (base_ s)) session ctx = Some c ∧ (child_count c =? 0) = false.
Proof.
  intros Hs [c Hc] Hpos. exists c. split.
  - apply resolve_Some; [named|apply (iv_regs _ Hs)|by eapply ctx_u64, Hc; apply iv_regs|done].
  - rewrite (ti_ctx _ (iv_integrity _ Hs) _ _ _ Hc). apply Z.eqb_neq. lia.
Qed.

Lemma destroy_pd_status s session id :
  inv s → is_u64 id →
  status_of (qp_handle s session (object_request destroy_pd id) []) =
  destroy_answer destroy_pd session (tables s) id.
Proof.
  intros Hs Hu. pose proof Hs as [[_ Rp _ _ _] Hi _].
  unfold qp_handle, pd_handle, handle_destroy_pd.
  dispatch destroy_pd id.
  destruct (resolve_pd _ _ _) as [p|] eqn:Hr; cbn -[cnt resolve_context tables].
  2:{ rewrite answer_not_owned; [done|]. apply not_owned; [named|done..]. }
  apply resolve_Some in Hr; [|named|done|done].
  rewrite answer_owned by (cbn; by rewrite Hr).
  pose proof (no_regions (tables s) id _ p Hi Hr) as Hmr. pose proof (ti_pd _ Hi _ _ _ Hr) as Hw.
  rewrite (pw_qps _ _ _ _ Hw).
  pose proof (cnt_nonneg (of_mr_pd id) (mrs (tables s))). pose proof (cnt_nonneg (of_pd id) (qps (tables s))).
  case_bool_decide as He; cbn -[cnt resolve_context tables].
  - rewrite (proj1 Hmr He), Z.add_0_l. destruct (cnt (of_pd id) _ =? 0); [|done].
    pose proof (cnt_pos (of_context_pd (pd_context p)) (pds (tables s)) _ _ _ Hr (Z.eqb_refl _)).
    pose proof (cnt_nonneg (of_context_cq (pd_context p)) (cqs (tables s))).
    destruct (parent_found s session (pd_context p) Hs (pw_context _ _ _ _ Hw)) as (c & -> & ->); [lia|].
    destruct (erase_spec ObjectIdentity.pd ltac:(named) _ _ _ _ Rp Hr Hu) as (p' & -> & _). done.
  - rewrite (proj2 (Z.eqb_neq (_ + _) 0)); [done|]. intros Hz. apply He, Hmr. lia.
Qed.

Lemma destroy_cq_status s session id :
  inv s → is_u64 id →
  status_of (qp_handle s session (object_request destroy_cq id) []) =
  destroy_answer destroy_cq session (tables s) id.
Proof.
  intros Hs Hu. pose proof Hs as [[_ _ _ Rq _] Hi _].
  unfold qp_handle, pd_handle, handle_destroy_cq.
  dispatch destroy_cq id.
  destruct (resolve_cq _ _ _) as [q|] eqn:Hr; cbn -[cnt resolve_context tables].
  2:{ rewrite answer_not_owned; [done|]. apply not_owned; [named|done..]. }
  apply resolve_Some in Hr; [|named|done|done].
  rewrite answer_owned by (cbn; by rewrite Hr).
  pose proof (ti_cq _ Hi _ _ _ Hr) as Hw. rewrite (cw_qps _ _ _ _ Hw).
  cbn -[cnt resolve_context tables]. destruct (cnt (of_cq id) _ =? 0); [|done].
  pose proof (cnt_pos (of_context_cq (cq_context q)) (cqs (tables s)) _ _ _ Hr (Z.eqb_refl _)).
  pose proof (cnt_nonneg (of_context_pd (cq_context q)) (pds (tables s))).
  cbn -[cnt resolve_context tables].
  destruct (parent_found s session (cq_context q) Hs (cw_context _ _ _ _ Hw)) as (c & -> & ->); [lia|].
  destruct (erase_spec ObjectIdentity.cq ltac:(named) _ _ _ _ Rq Hr Hu) as (q' & -> & _). done.
Qed.

Lemma destroy_qp_status s session id :
  inv s → is_u64 id →
  status_of (qp_handle s session (object_request destroy_qp id) []) =
  destroy_answer destroy_qp session (tables s) id.
Proof.
  intros Hs Hu. pose proof Hs as [Hregs Hi _]. pose proof Hregs as [_ Rp _ Rq Rk].
  unfold qp_handle, handle_destroy_qp.
  dispatch destroy_qp id.
  destruct (resolve_qp _ _ _) as [q|] eqn:Hr; cbn -[cnt resolve_pd resolve_cq tables].
  2:{ rewrite answer_not_owned; [done|]. apply not_owned; [named|done..]. }
  apply resolve_Some in Hr; [|named|done|done].
  rewrite answer_owned by (cbn; by rewrite Hr).
  destruct (ti_qp _ Hi _ _ _ Hr) as [_ (p & Hp & _) (sc & Hsc & _) (rc & Hrc & _) _ _ _ _].
  assert (resolve_pd (base_ s) session (qp_pd q) = Some p) as ->
    by (apply resolve_Some; [named|done|by eapply pd_u64|done]).
  assert (resolve_cq (base_ s) session (qp_send_cq q) = Some sc) as ->
    by (apply resolve_Some; [named|done|by eapply cq_u64, Hsc|done]).
  assert (resolve_cq (base_ s) session (qp_recv_cq q) = Some rc) as ->
    by (apply resolve_Some; [named|done|by eapply cq_u64, Hrc|done]).
  pose proof (cnt_pos (of_pd (qp_pd q)) (qps (tables s)) _ _ _ Hr (Z.eqb_refl _)) as H1.
  pose proof (cnt_pos (of_cq (qp_send_cq q)) (qps (tables s)) _ _ _ Hr) as H2. unfold of_cq in H2 at 1.
  rewrite Z.eqb_refl in H2. specialize (H2 eq_refl).
  pose proof (cnt_pos (of_cq (qp_recv_cq q)) (qps (tables s)) _ _ _ Hr) as H3. unfold of_cq in H3 at 1.
  rewrite Z.eqb_refl, orb_true_r in H3. specialize (H3 eq_refl).
  rewrite (pw_qps _ _ _ _ (ti_pd _ Hi _ _ _ Hp)), (cw_qps _ _ _ _ (ti_cq _ Hi _ _ _ Hsc)),
    (cw_qps _ _ _ _ (ti_cq _ Hi _ _ _ Hrc)).
  rewrite !(proj2 (Z.eqb_neq (cnt _ _) 0)) by lia. rewrite andb_false_r. cbn -[erase].
  destruct (erase_spec ObjectIdentity.qp ltac:(named) _ _ _ _ Rk Hr Hu) as (q' & -> & _). done.
Qed.

(** ** Deregistration *)

Lemma deregister_status s session id m :
  inv s → is_u64 id → mrs (tables s) !! id = Some (session, m) →
  status_of (qp_handle s session (object_request deregister_mr id) []) =
  (mem_close (memory_ (base_ s)) (mr_mapping m)).2.
Proof.
  intros Hs Hu Hm. pose proof Hs as [Hregs Hi _]. pose proof Hregs as [_ Rp Rm _ _].
  destruct (ti_mr _ Hi _ _ _ Hm) as [(p & Hp & _) Hw _].
  unfold qp_handle, pd_handle, handle_deregister_mr, close_mapping.
  dispatch deregister_mr id.
  assert (resolve ObjectIdentity.mr (mrs_ (base_ s)) session id = Some m) as -> by by apply resolve_Some; [named|..].
  rewrite (mw_unused _ Hw). cbn -[resolve_pd]. destruct (mem_close _ _) as [mem st]. cbn -[resolve_pd].
  destruct (st =? 0) eqn:Est; [|done]. apply Z.eqb_eq in Est as ->. cbn -[resolve_pd].
  assert (resolve_pd (with_memory (base_ s) mem) session (mr_pd m) = Some p) as ->
    by (apply resolve_Some; [named|done|by eapply pd_u64|done]).
  cbn. destruct (erase_spec ObjectIdentity.mr ltac:(named) _ _ _ _ Rm Hm Hu) as (r' & -> & _). done.
Qed.

Lemma deregistered_key_free t t' session id m id' m' address len remote o :
  integrity t → action session deregister_mr id o t t' → mrs t !! id = Some (session, m) →
  grants session (mr_pd m) (key_of remote m) address len remote t' id' m' → False.
Proof.
  intros Hi Ha Hm (Hm' & Hpd & Hkey & _). inversion Ha; subst. cbn in Hm'.
  apply lookup_delete_Some in Hm' as [Hne Hm'].
  destruct (ti_mr _ Hi _ _ _ Hm) as [(p1 & Hp1 & _ & _ & Hl1 & Hr1) _ _].
  destruct (ti_mr _ Hi _ _ _ Hm') as [(p2 & Hp2 & _ & _ & Hl2 & Hr2) _ _].
  rewrite Hpd in Hp2. destruct remote; cbn in Hkey; congruence.
Qed.

(** * Properties *)

(** Teardown is exact: in every reachable state the answer to a request to destroy
    a context, protection domain, completion queue or queue pair is determined by the
    live objects alone.  It is EINVAL unless the session owns such an object, EBUSY
    if live objects still refer to it, and 0 otherwise, so whatever a session created
    it can always destroy again, children first. *)
Theorem destroy_status catalog (m0 : M) k s session mth id :
  kernel_sane k → rtc control_step (new_qp_service catalog m0 k) s → is_u64 id →
  mth ∈ [destroy_context; destroy_pd; destroy_cq; destroy_qp] →
  status_of (qp_handle s session (object_request mth id) []) = destroy_answer mth session (tables s) id.
Proof.
  intros Hk Hr Hu Hm. pose proof (service_reachable_inv _ _ _ _ Hk Hr) as Hs.
  rewrite !elem_of_cons, elem_of_nil in Hm. destruct Hm as [->|[->|[->|[->|[]]]]];
    auto using destroy_context_status, destroy_pd_status, destroy_cq_status, destroy_qp_status.
Qed.

(** Deregistering a live region of the session is never refused because of work
    requests: the answer is that of closing the mapping, whatever work requests
    are in progress, and when it is 0 neither key of the region resolves afterwards. *)
Theorem deregister_never_busy catalog (m0 : M) k s session id m s' res :
  kernel_sane k → rtc control_step (new_qp_service catalog m0 k) s → is_u64 id →
  mrs (tables s) !! id = Some (session, m) →
  qp_handle s session (object_request deregister_mr id) [] = (s', res) →
  status_of (s', res) = (mem_close (memory_ (base_ s)) (mr_mapping m)).2 ∧
  (status_of (s', res) = 0 → ∀ address len a,
     resolve_key (base_ s') session (mr_pd m) (mr_lkey m) address len false ≠ Ok a ∧
     resolve_key (base_ s') session (mr_pd m) (mr_rkey m) address len true ≠ Ok a).
Proof.
  intros Hk Hr Hu Hm He. pose proof (service_reachable_inv _ _ _ _ Hk Hr) as Hs.
  assert (request_ok (object_request deregister_mr id)) as Hreq by by split.
  pose proof (handle_outcome session _ [] s Hs Hreq) as Ho. rewrite He in Ho.
  pose proof (deregister_status s session id m Hs Hu Hm) as Hst. rewrite He in Hst.
  split; [done|]. intros Hz address len a. unfold status_of in Hz. cbn in Hz. pose proof (outcome_inv _ _ _ _ _ Hs Ho) as Hs'.
  destruct Ho as [_ _ _ _ Ha]. rewrite Hz in Ha.
  change (action session deregister_mr id (rs_object_identity (response res)) (tables s) (tables s')) in Ha.
  pose proof (iv_integrity _ Hs) as Hi.
  split; intros (id' & m' & Hg & _)%key_found; try done.
  - by eapply (deregistered_key_free _ _ _ _ _ _ _ _ _ false _ Hi Ha Hm).
  - by eapply (deregistered_key_free _ _ _ _ _ _ _ _ _ true _ Hi Ha Hm).
Qed.

End Service.

(** ** The properties on the sessions of ControlPlane.v *)

Lemma destroy_status_witness :
  status_of (qp_handle demo_service 1 (object_request destroy_pd (demo_id 1)) []) = EBUSY ∧
  status_of (qp_handle demo_service 2 (object_request destroy_qp (demo_id 4)) []) = EINVAL ∧
  status_of (qp_handle demo_service 1 (object_request destroy_qp (demo_id 4)) []) = 0.
Proof.
  split_and!.
  - rewrite (destroy_status default_catalog 0%nat demo_kernel demo_service 1 destroy_pd (demo_id 1)
      demo_kernel_sane demo_service_reachable);
      [by vm_compute|by vm_compute|rewrite !elem_of_cons; tauto].
  - rewrite (destroy_status default_catalog 0%nat demo_kernel demo_service 2 destroy_qp (demo_id 4)
      demo_kernel_sane demo_service_reachable);
      [by vm_compute|by vm_compute|rewrite !elem_of_cons; tauto].
  - rewrite (destroy_status default_catalog 0%nat demo_kernel demo_service 1 destroy_qp (demo_id 4)
      demo_kernel_sane demo_service_reachable);
      [by vm_compute|by vm_compute|rewrite !elem_of_cons; tauto].
Defined.

Lemma deregister_never_busy_witness :
  ∃ s' res, qp_handle demo_service 1 (object_request deregister_mr (demo_id 3)) [] = (s', res) ∧
    status_of (s', res) = 0.
Proof.
  assert (is_u64 (demo_id 3)) as Hu by by vm_compute.
  assert (fst <$> mrs (tables demo_service) !! demo_id 3 = Some 1) as Ho by by vm_compute.
  assert (is_Some (mrs (tables demo_service) !! demo_id 3)) as [[o m] Hm]
    by (apply (bool_decide_eq_true_1 _); by vm_compute).
  rewrite Hm in Ho. injection Ho as ->.
  destruct (qp_handle demo_service 1 (object_request deregister_mr (demo_id 3)) []) as [s' res] eqn:E.
  exists s', res. split; [reflexivity|].
  destruct (deregister_never_busy default_catalog 0%nat demo_kernel demo_service 1 _ m s' res
    demo_kernel_sane demo_service_reachable Hu Hm E) as [-> _]. reflexivity.
Defined.

End ControlStatus.
