(* ===== verification/ControlInts.v ===== *)
(** The statuses of the daemon's answers are C [int]s, so the 32-bit status field of a
    message carries them exactly; ClientDaemon.v needs this of the answers a client gets. *)

From S2P Require Import Prelude ObjectIdentity ObjectRegistry SharedRing Descriptors Protocol Adapter.
From S2P Require Import QueueDescriptors Control DeviceContext PdMrCq Qp ControlSpec ControlRefine ControlPlane.
Import Registry Ring Adapter Control CudaIpc QueueDescriptors PdMrCq Qp DeviceContext ControlSpec
  ControlRefine ControlHandlers ControlPlane.

Module ControlInts.

Ltac int := (by vm_compute) || done.

(** * Errors of the parts *)

Lemma erase_int {R} T (reg : @GenerationRegistry R) session id : is_int (erase T reg session id).2.
Proof. unfold erase. repeat case_match; int. Qed.

Lemma new_ring_int k d : kernel_sane k → int_error (new_ring k d).2.
Proof.
  intros Hk. destruct (ks_int _ Hk (ring_calls k)) as [(I1 & I2 & I3 & I4 & I5) _].
  unfold new_ring, create_shared_ring. cbn [valid mapping_ no_ring].
  set (a := ring_answers k (ring_calls k)) in *.
  destruct (sys_page_size a) as [page|e]; cbn [mbind result_bind]; [|done].
  destruct (shared_ring_mapping_size d page) as [msize|e] eqn:E.
  2:{ unfold shared_ring_mapping_size in E. repeat case_match; simplify_eq; int. }
  destruct (_ <? _); [int|]. destruct (sys_memfd a) as [fd|e]; [|done].
  by repeat (destruct (negb _); [done|]).
Qed.

Lemma dup_ring_int k r : kernel_sane k → int_error (dup_ring k r).2.
Proof.
  intros Hk. destruct (ks_int _ Hk (dup_calls k)) as [_ I]. unfold dup_ring, duplicate_fd.
  destruct (_ <? 0); [int|]. by destruct (dup_answers k (dup_calls k)).
Qed.

Lemma create_rings_int k sd rd : kernel_sane k → int_error (create_rings k sd rd).2.
Proof.
  intros Hk. unfold create_rings.
  pose proof (new_ring_int k sd Hk) as J1. pose proof (new_ring_answers k sd) as A1.
  destruct (new_ring k sd) as [k1 [sr|e]]; [|done]. cbn [fst] in A1. pose proof (kernel_sane_same _ _ Hk A1) as Hk1.
  pose proof (new_ring_int k1 rd Hk1) as J2. pose proof (new_ring_answers k1 rd) as A2.
  destruct (new_ring k1 rd) as [k2 [rr|e]]; [|done]. cbn [fst] in A2. pose proof (kernel_sane_same _ _ Hk1 A2) as Hk2.
  pose proof (dup_ring_int k2 sr Hk2) as J3. pose proof (dup_ring_answers k2 sr) as A3.
  destruct (dup_ring k2 sr) as [k3 [f|e]]; [|done]. cbn [fst] in A3. pose proof (kernel_sane_same _ _ Hk2 A3) as Hk3.
  pose proof (dup_ring_int k3 rr Hk3) as J4. by destruct (dup_ring k3 rr) as [k4 [f'|e]].
Qed.

Lemma decode_mr_int bytes len : int_error (decode_mr_registration bytes len).
Proof. unfold decode_mr_registration. repeat case_match; int. Qed.
Lemma encode_mr_result_int r : int_error (encode_mr_registration_result r).
Proof. unfold encode_mr_registration_result. repeat case_match; int. Qed.
Lemma encode_descriptors_int ds : int_error (encode_queue_descriptors ds).
Proof. unfold encode_queue_descriptors. repeat case_match; int. Qed.
Lemma encode_device_list_int ds : int_error (encode_device_list ds).
Proof.
  unfold encode_device_list. case_match; [int|].
  assert (∀ n, int_error (device_list_size n ds)) as Hs.
  { clear. induction ds as [|d ds IH]; intros n; cbn [device_list_size]; [done|]. repeat (case_match; [int|]). apply IH. }
  specialize (Hs 4). by destruct (device_list_size 4 ds).
Qed.
Lemma slot_stride_int h n : int_error (Descriptors.aligned_slot_stride h n).
Proof. unfold Descriptors.aligned_slot_stride. repeat case_match; int. Qed.
Lemma create_attributes_int bytes : int_error (decode_qp_create_attributes bytes).
Proof. unfold decode_qp_create_attributes. repeat case_match; int. Qed.
Lemma read_header_int bytes n : int_error (read_header bytes n).
Proof. unfold read_header. repeat case_match; int. Qed.
Lemma query_payload_int bytes : int_error (decode_query_payload bytes).
Proof.
  unfold decode_query_payload. pose proof (read_header_int bytes kQpQueryPayloadSize) as J.
  destruct (read_header _ _); cbn [mbind result_bind]; [|done]. repeat case_match; int.
Qed.

Lemma modify_payload_int bytes : int_error (decode_modify_payload bytes).
Proof.
  unfold decode_modify_payload. pose proof (read_header_int bytes kQpModifyPayloadSize) as J.
  destruct (read_header _ _); cbn [mbind result_bind]; [|done]. repeat case_match; int.
Qed.
Lemma connect_payload_int bytes : int_error (decode_connect_payload bytes).
Proof.
  unfold decode_connect_payload. pose proof (read_header_int bytes kQpConnectPayloadSize) as J.
  destruct (read_header _ _); cbn [mbind result_bind]; [|done]. repeat case_match; int.
Qed.

(** * Handlers *)

Section Handlers.
Context {M : Type} `{CudaIpcMemoryLaws M}.
Implicit Types (s : QpService M) (b : PdMrCqService M) (r : UgdrControlRequest).

Definition int_status {A} (x : A * ControlServiceResult) : Prop := is_int (rs_status (response x.2)).

Lemma refused_int {A} (a : A) r e : is_int e → int_status (a, response_for r e).
Proof. done. Qed.
Lemma granted_int {A} (a : A) method id opaque indices fds :
  int_status (a, mkResult (mkResponse method 0 id opaque indices) fds).
Proof. by vm_compute. Qed.

Ltac answer :=
  first [ match goal with J : int_error _ |- _ => exact (refused_int _ _ _ J) end
        | match goal with J : is_int _ |- _ => exact (refused_int _ _ _ J) end
        | apply granted_int | apply refused_int; by vm_compute ].
Ltac refused := match goal with |- int_status (if ?c then _ else _) => destruct c; [answer|] end.

Lemma device_int d session r fds : int_status (device_handle d session r fds).
Proof.
  unfold device_handle. refused. destruct (method_of_code (rq_method r)); try answer.
  - refused. pose proof (encode_device_list_int (catalog_ d)) as J. destruct (encode_device_list _); answer.
  - refused. destruct (insert _ _ _ _) as [reg [id|]]; answer.
  - destruct (resolve_context _ _ _); [|answer]. refused.
    pose proof (erase_int ObjectIdentity.context (contexts_ d) session (rq_object_identity r)) as J.
    destruct (erase _ _ _ _); answer.
Qed.

Lemma pd_int b session r fds : kernel_sane (kernel_ b) → int_status (pd_handle b session r fds).
Proof.
  intros Hk. unfold pd_handle. destruct (method_of_code (rq_method r)); try (
    pose proof (device_int (device_ b) session r fds) as J; by destruct (device_handle _ _ _ _)).
  - unfold handle_create_pd. refused. destruct (resolve_context _ _ _); [|answer].
    destruct (insert _ _ _ _) as [reg [id|]]; answer.
  - unfold handle_destroy_pd. refused. destruct (resolve_pd _ _ _) as [p|]; [|answer]. refused.
    destruct (resolve_context _ _ _); [|answer]. refused.
    pose proof (erase_int ObjectIdentity.pd (pds_ b) session (rq_object_identity r)) as J. destruct (erase _ _ _ _); answer.
  - unfold handle_register_mr. refused. destruct (resolve_pd _ _ _) as [p|]; [|answer].
    pose proof (decode_mr_int (rq_opaque r) (rq_length r)) as J1.
    destruct (decode_mr_registration _ _) as [memory|e]; [|answer].
    destruct (mem_open _ _) as [m [mapping|e]] eqn:E; [|apply refused_int, (open_int _ _ _ _ E)]. refused.
    destruct (allocate_keys _) as [[[lkey rkey] next]|]; [|answer].
    pose proof (encode_mr_result_int (mkMrResult (client_address memory) (length_ memory) lkey rkey)) as J2.
    destruct (encode_mr_registration_result _) as [encoded|e]; [|answer].
    destruct (insert _ _ _ _) as [reg [id|]]; [|answer]. unfold link_mr. refused. answer.
  - unfold handle_deregister_mr. refused. destruct (resolve _ _ _ _) as [m|]; [|answer]. refused.
    unfold close_mapping. pose proof (close_int (memory_ b) (mr_mapping m)) as J1.
    destruct (mem_close _ _) as [mm st]. destruct (negb (st =? 0)); [answer|].
    destruct (resolve_pd _ _ _); [|answer].
    match goal with |- int_status (let '(_, _) := erase ?T ?reg ?o ?i in _) =>
      pose proof (erase_int T reg o i) as J2; destruct (erase T reg o i); answer end.
  - unfold handle_create_cq. refused. destruct (resolve_context _ _ _); [|answer].
    set (d := completion_descriptor _).
    pose proof (new_ring_int (kernel_ b) d Hk) as J1. pose proof (new_ring_answers (kernel_ b) d) as A1.
    destruct (new_ring _ d) as [k [ring|e]]; [|answer]. cbn [fst] in A1.
    pose proof (dup_ring_int k ring (kernel_sane_same _ _ Hk A1)) as J2.
    destruct (dup_ring k ring) as [k2 [fd|e]]; [|answer].
    pose proof (encode_descriptors_int [d]) as J3. destruct (encode_queue_descriptors _); [|answer].
    destruct (insert _ _ _ _) as [reg [id|]]; answer.
  - unfold handle_destroy_cq. refused. destruct (resolve_cq _ _ _) as [c|]; [|answer]. refused.
    destruct (resolve_context _ _ _); [|answer]. refused.
    pose proof (erase_int ObjectIdentity.cq (cqs_ b) session (rq_object_identity r)) as J. destruct (erase _ _ _ _); answer.
Qed.

Lemma create_qp_int s session r fds :
  kernel_sane (kernel_ (base_ s)) → int_status (handle_create_qp s session r fds).
Proof.
  intros Hk. unfold handle_create_qp. refused. pose proof (create_attributes_int (rq_opaque r)) as J1.
  destruct (decode_qp_create_attributes _) as [a|e]; [|answer]. refused.
  destruct (resolve_pd _ _ _) as [p|]; [|answer]. destruct (resolve_cq _ _ _) as [c1|]; [|answer].
  destruct (resolve_cq _ _ (recv_cq_identity a)) as [c2|]; [|answer]. refused.
  unfold Descriptors.send_slot_stride, Descriptors.receive_slot_stride.
  match goal with |- context [Descriptors.aligned_slot_stride ?h (max_send_sge a)] =>
    pose proof (slot_stride_int h (max_send_sge a)) as J2; destruct (Descriptors.aligned_slot_stride h (max_send_sge a)) end;
    [|answer].
  cbn [mbind result_bind].
  match goal with |- context [Descriptors.aligned_slot_stride ?h (max_recv_sge a)] =>
    pose proof (slot_stride_int h (max_recv_sge a)) as J3; destruct (Descriptors.aligned_slot_stride h (max_recv_sge a)) end;
    [|answer].
  cbn [mbind result_bind].
  match goal with |- context [create_rings _ ?sd ?rd] =>
    pose proof (create_rings_int (kernel_ (base_ s)) sd rd Hk) as J4;
    pose proof (encode_descriptors_int [sd; rd]) as J5; destruct (create_rings _ sd rd) as [k [rings|e]] end; [|answer].
  destruct (encode_queue_descriptors _); [|answer]. unfold insert_qp. refused.
  destruct (insert _ _ _ _) as [reg [id|]]; [|answer]. destruct (_ !! _); answer.
Qed.

Lemma qp_int s session r fds :
  kernel_sane (kernel_ (base_ s)) → int_status (qp_handle s session r fds).
Proof.
  intros Hk. unfold qp_handle. destruct (method_of_code (rq_method r)); try (
    pose proof (pd_int (base_ s) session r fds Hk) as J; by destruct (pd_handle _ _ _ _)).
  - by apply create_qp_int.
  - unfold handle_destroy_qp. refused. destruct (resolve_qp _ _ _) as [q|]; [|answer].
    destruct (resolve_pd _ _ _); [|answer]. destruct (resolve_cq _ _ (qp_send_cq q)); [|answer].
    destruct (resolve_cq _ _ (qp_recv_cq q)); [|answer]. refused.
    match goal with |- int_status (let '(_, _) := erase ?T ?reg ?o ?i in _) =>
      pose proof (erase_int T reg o i) as J2; destruct (erase T reg o i); answer end.
  - unfold handle_query_qp. refused. pose proof (query_payload_int (rq_opaque r)) as J.
    destruct (decode_query_payload _); [|answer]. destruct (resolve_qp _ _ _); [refused; answer|answer].
  - unfold handle_modify_qp. refused. pose proof (modify_payload_int (rq_opaque r)) as J.
    destruct (decode_modify_payload _) as [[a mask]|]; [|answer]. destruct (resolve_qp _ _ _); [|answer]. do 5 refused. answer.
  - unfold handle_query_qp_conn_info. refused. destruct (resolve_qp _ _ _); answer.
  - unfold handle_connect_qp. refused. pose proof (connect_payload_int (rq_opaque r)) as J.
    destruct (decode_connect_payload _) as [[[num a] mask]|]; [|answer]. destruct (resolve_qp _ _ _); [|answer].
    do 3 refused. destruct (_ !! num); [|answer]. destruct (resolve_any _ _ _); [refused; answer|answer].
Qed.

End Handlers.

End ControlInts.
