(* ===== verification/CudaIpcMemory.v ===== *)
(** Sharing of CUDA memory (src/gpu/cuda_ipc_memory.hpp, cuda_ipc_memory.cu): the client's
    [export_cuda_memory] and the daemon's [RuntimeCudaIpcMemoryBackend], an instance of
    the interface the control service is proved against.

    The CUDA runtime and driver are the class [Cuda]: one operation per function that is
    called, on a state of their own, with what is written through pointers as a result. *)

From S2P Require Import Prelude Wire Adapter Control DeviceContext PdMrCq Qp ControlSpec.
From S2P Require Import ControlRefine ControlPlane CudaApi.
Import Wire Adapter CudaIpc PdMrCq CudaApi.

(** The functions of CUDA that the code calls.  [cudaPointerGetAttributes] tells whether the
    memory is of the device, and its device; [cudaFree] is called with a null pointer. *)
Class Cuda (C : Type) := {
  cuInit : C → C * CUresult;
  cudaGetDeviceCount : C → C * (cudaError_t * Z);
  cudaGetDevice : C → C * (cudaError_t * Z);
  cudaSetDevice : C → Z → C * cudaError_t;
  cudaGetLastError : C → C;
  cudaFree : C → C * cudaError_t;
  cuDeviceGet : C → Z → C * (CUresult * Z);
  cuDeviceGetUuid : C → Z → C * (CUresult * list byte);
  cudaPointerGetAttributes : C → Z → C * (cudaError_t * (bool * Z));
  cuMemGetAddressRange : C → Z → C * (CUresult * (Z * Z));
  cudaIpcGetMemHandle : C → Z → C * (cudaError_t * list byte);
  cudaIpcOpenMemHandle : C → list byte → C * (cudaError_t * Z);
  cudaIpcCloseMemHandle : C → Z → C * cudaError_t;
  cudaMemset : C → Z → Z → Z → C * cudaError_t;
  cudaDeviceSynchronize : C → C * cudaError_t;
}.

(** What CUDA documents: addresses and sizes are 64-bit, an identifier has 16 bytes and a
    handle 64. *)
Class CudaLaws (C : Type) `{Cuda C} := {
  opened_address : ∀ c h c' base, cudaIpcOpenMemHandle c h = (c', (cudaSuccess, base)) → is_u64 base;
  range_address : ∀ c a c' base alloc, cuMemGetAddressRange c a = (c', (CUDA_SUCCESS, (base, alloc))) →
    is_u64 base ∧ is_u64 alloc;
  uuid_length : ∀ c d c' uuid, cuDeviceGetUuid c d = (c', (CUDA_SUCCESS, uuid)) → length uuid = kGpuUuidSize;
  handle_length : ∀ c base c' h, cudaIpcGetMemHandle c base = (c', (cudaSuccess, h)) → length h = 64%nat;
}.

(** The device a thread has selected: it changes by [cudaSetDevice] only, and a device that
    was selected can be selected again. *)
Class CudaSelection (C : Type) `{Cuda C} := {
  selected : C → option Z;
  selected_range : ∀ c d, selected c = Some d → 0 <= d ∧ (cudaGetDevice c).2 = (cudaSuccess, d);
  select : ∀ c d, selected (cudaSetDevice c d).1 =
    if decide ((cudaSetDevice c d).2 = cudaSuccess) then Some d else selected c;
  reselect : ∀ c d, selected c = Some d → ∀ c', (cudaSetDevice c' d).2 = cudaSuccess;
  get_selected : ∀ c, selected (cudaGetDevice c).1 = selected c;
  open_selected : ∀ c h, selected (cudaIpcOpenMemHandle c h).1 = selected c;
  close_selected : ∀ c a, selected (cudaIpcCloseMemHandle c a).1 = selected c;
  memset_selected : ∀ c a v n, selected (cudaMemset c a v n).1 = selected c;
  synchronize_selected : ∀ c, selected (cudaDeviceSynchronize c).1 = selected c;
}.

(** A call of CUDA, with its effect on the state of the process. *)
Inductive cuda_call {C} `{Cuda C} : C → C → Prop :=
| calls_init c : cuda_call c (cuInit c).1
| calls_count c : cuda_call c (cudaGetDeviceCount c).1
| calls_get c : cuda_call c (cudaGetDevice c).1
| calls_set c d : cuda_call c (cudaSetDevice c d).1
| calls_last c : cuda_call c (cudaGetLastError c)
| calls_free c : cuda_call c (cudaFree c).1
| calls_device c d : cuda_call c (cuDeviceGet c d).1
| calls_uuid c d : cuda_call c (cuDeviceGetUuid c d).1
| calls_attributes c a : cuda_call c (cudaPointerGetAttributes c a).1
| calls_range c a : cuda_call c (cuMemGetAddressRange c a).1
| calls_handle c a : cuda_call c (cudaIpcGetMemHandle c a).1
| calls_open c h : cuda_call c (cudaIpcOpenMemHandle c h).1
| calls_close c a : cuda_call c (cudaIpcCloseMemHandle c a).1
| calls_memset c a v n : cuda_call c (cudaMemset c a v n).1
| calls_synchronize c : cuda_call c (cudaDeviceSynchronize c).1.
#[export] Hint Constructors cuda_call : ugdr.

(** Devices and the memory on them.  The devices a process sees, by ordinal, have identifiers
    that are the same in all processes and do not change.  An allocation is on one device; in
    the process that made it, it is at a base address; a handle names it in all processes, and
    opening the handle maps it into the address space of the device that is selected. *)
Class CudaSharing (C : Type) `{Cuda C} `{!CudaSelection C} := {
  Allocation : Type;
  alloc_size : Allocation → Z;
  alloc_uuid : Allocation → list byte;
  visible : C → Z → option (list byte);
  owns : C → Z → Allocation → Prop;
  mapped : C → Z → Z → Allocation → Prop;
  handle_of : list byte → option Allocation;
  visible_kept : ∀ c c', cuda_call c c' → visible c' = visible c;
  device_visible : ∀ c d c1 cu c2 uuid, cuDeviceGet c d = (c1, (CUDA_SUCCESS, cu)) →
    cuDeviceGetUuid c1 cu = (c2, (CUDA_SUCCESS, uuid)) → visible c d = Some uuid;
  pointer_owned : ∀ c a c1 d c2 base size, cudaPointerGetAttributes c a = (c1, (cudaSuccess, (true, d))) →
    cuMemGetAddressRange c1 a = (c2, (CUDA_SUCCESS, (base, size))) →
    ∃ A, owns c2 base A ∧ alloc_size A = size ∧ visible c d = Some (alloc_uuid A);
  owns_device : ∀ c d base A, owns c base A → owns (cuDeviceGet c d).1 base A;
  owns_uuid : ∀ c d base A, owns c base A → owns (cuDeviceGetUuid c d).1 base A;
  owns_handle : ∀ c base A c' h, owns c base A → cudaIpcGetMemHandle c base = (c', (cudaSuccess, h)) →
    owns c' base A ∧ handle_of h = Some A;
  opened_mapped : ∀ c d h c' base, selected c = Some d →
    cudaIpcOpenMemHandle c h = (c', (cudaSuccess, base)) → ∃ A, handle_of h = Some A ∧ mapped c' base d A;
  mapped_set : ∀ c d' base d A, mapped c base d A → mapped (cudaSetDevice c d').1 base d A;
}.

Module CudaIpcMemory.

Definition sizeof_cudaIpcMemHandle_t : nat := 64.

Definition cuda_status (status : cudaError_t) : Z :=
  match status with
  | cudaSuccess => 0
  | cudaErrorInvalidValue | cudaErrorInvalidDevice | cudaErrorInvalidResourceHandle => EINVAL
  | cudaErrorMemoryAllocation => ENOMEM
  | cudaErrorNoDevice | cudaErrorInsufficientDriver => ENODEV
  | cudaErrorNotSupported => EOPNOTSUPP
  | cudaErrorOther => EIO
  end.

Definition driver_status (status : CUresult) : Z :=
  match status with
  | CUDA_SUCCESS => 0
  | CUDA_ERROR_INVALID_VALUE | CUDA_ERROR_INVALID_DEVICE | CUDA_ERROR_INVALID_HANDLE => EINVAL
  | CUDA_ERROR_OUT_OF_MEMORY => ENOMEM
  | CUDA_ERROR_NO_DEVICE | CUDA_ERROR_SYSTEM_DRIVER_MISMATCH => ENODEV
  | CUDA_ERROR_NOT_SUPPORTED => EOPNOTSUPP
  | CUDA_ERROR_INVALID_CONTEXT | CUDA_ERROR_OTHER => EIO
  end.

Definition checked_range (start len limit_start limit_length : Z) : bool :=
  if (len =? 0) || (start <? limit_start) || (limit_length =? 0) then false
  else if (U64_MAX - len <? start) || (U64_MAX - limit_length <? limit_start) then false
  else start + len <=? limit_start + limit_length.

Record DeviceRuntime := mkDeviceRuntime { device_uuid : list byte; ordinal : Z }.

Fixpoint find_device (devices : list DeviceRuntime) (uuid : list byte) : option DeviceRuntime :=
  match devices with
  | [] => None
  | d :: devices => if decide (device_uuid d = uuid) then Some d else find_device devices uuid
  end.

Lemma cuda_status_int e : ControlRefine.is_int (cuda_status e).
Proof. by destruct e. Qed.
Lemma driver_status_int e : ControlRefine.is_int (driver_status e).
Proof. by destruct e. Qed.
Lemma cuda_status_0 e : cuda_status e = 0 ↔ e = cudaSuccess.
Proof. by destruct e. Qed.
Lemma driver_status_0 e : driver_status e = 0 ↔ e = CUDA_SUCCESS.
Proof. by destruct e. Qed.

Lemma checked_range_spec start len limit_start limit_length :
  0 <= len → checked_range start len limit_start limit_length = true →
  0 < len ∧ limit_start <= start ∧ start + len <= limit_start + limit_length <= U64_MAX.
Proof. unfold checked_range. intros Hl Hr. repeat case_match; try done. bool_hyps. lia. Qed.

Section Runtime.
Context {C : Type} `{Cuda C}.
Implicit Types c : C.

(** * ScopedDevice *)

Record ScopedDevice := mkScoped { previous_ : Z; scoped_status : Z }.

Definition enter_device c (ordinal : Z) : C * ScopedDevice :=
  let '(c, (e, device)) := cudaGetDevice c in
  let '(c, previous) := if decide (e = cudaSuccess) then (c, device) else (cudaGetLastError c, -1) in
  let '(c, e) := cudaSetDevice c ordinal in
  (c, mkScoped previous (cuda_status e)).

Definition leave_device c (s : ScopedDevice) : C :=
  if (scoped_status s =? 0) && (0 <=? previous_ s) then (cudaSetDevice c (previous_ s)).1 else c.

(** [body] runs on the device; its result is kept, its destructor runs last. *)
Definition on_device {A} c (ordinal : Z) (failed : Z → A) (body : C → C * A) : C * A :=
  let '(c, s) := enter_device c ordinal in
  let '(c, a) := if negb (scoped_status s =? 0) then (c, failed (scoped_status s)) else body c in
  (leave_device c s, a).

(** * Export *)

Definition export_cuda_memory c (address len : Z) : C * result ExportedCudaMemory :=
  if (address =? 0) || (len =? 0) then (c, Err EINVAL)
  else
    let '(c, r) := cuInit c in
    if negb (driver_status r =? 0) then (c, Err (driver_status r))
    else
      let '(c, (e, (on_gpu, device))) := cudaPointerGetAttributes c address in
      if negb (bool_decide (e = cudaSuccess))
      then (cudaGetLastError c, Err (if decide (e = cudaErrorInvalidValue) then EOPNOTSUPP else cuda_status e))
      else if negb on_gpu || (device <? 0) then (c, Err EOPNOTSUPP)
      else
        let '(c, (r, (base, alloc))) := cuMemGetAddressRange c address in
        if negb (bool_decide (r = CUDA_SUCCESS)) then (c, Err (driver_status r))
        else if (address <? base) || negb (checked_range address len base alloc) then (c, Err EINVAL)
        else
          let '(c, (r, cu_device)) := cuDeviceGet c device in
          if negb (bool_decide (r = CUDA_SUCCESS)) then (c, Err (driver_status r))
          else
            let '(c, (r, uuid)) := cuDeviceGetUuid c cu_device in
            if negb (bool_decide (r = CUDA_SUCCESS)) then (c, Err (driver_status r))
            else
              let '(c, (e, handle)) := cudaIpcGetMemHandle c base in
              if negb (bool_decide (e = cudaSuccess)) then (c, Err (cuda_status e))
              else (c, Ok (mkExported uuid address alloc (address - base) len handle)).

(** * The daemon's side *)

Record RuntimeMemory := mkRuntimeMemory {
  initialization_status : Z; devices_ : list DeviceRuntime; cuda_ : C;
}.

(** One device of the constructor's loop. *)
Definition probe_device c (ord : Z) : C * result DeviceRuntime :=
  on_device c ord Err (λ c,
    let '(c, e) := cudaFree c in
    if negb (bool_decide (e = cudaSuccess)) then (c, Err (cuda_status e))
    else
      let '(c, (r, device)) := cuDeviceGet c ord in
      if negb (bool_decide (r = CUDA_SUCCESS)) then (c, Err (driver_status r))
      else
        let '(c, (r, uuid)) := cuDeviceGetUuid c device in
        if negb (bool_decide (r = CUDA_SUCCESS)) then (c, Err (driver_status r))
        else (c, Ok (mkDeviceRuntime uuid ord))).

Fixpoint probe_devices c (ordinals : list Z) (devices : list DeviceRuntime) : RuntimeMemory :=
  match ordinals with
  | [] => mkRuntimeMemory 0 devices c
  | ord :: ordinals =>
      let '(c, r) := probe_device c ord in
      match r with
      | Err e => mkRuntimeMemory e [] c
      | Ok d => probe_devices c ordinals (devices ++ [d])
      end
  end.

Definition new_runtime_memory c : RuntimeMemory :=
  let '(c, r) := cuInit c in
  if negb (bool_decide (r = CUDA_SUCCESS)) then mkRuntimeMemory (driver_status r) [] c
  else
    let '(c, (e, count)) := cudaGetDeviceCount c in
    if negb (bool_decide (e = cudaSuccess)) then mkRuntimeMemory (cuda_status e) [] (cudaGetLastError c)
    else probe_devices c (seqZ 0 count) [].

Definition with_cuda (m : RuntimeMemory) c : RuntimeMemory :=
  mkRuntimeMemory (initialization_status m) (devices_ m) c.

Definition open (m : RuntimeMemory) (x : ExportedCudaMemory) : RuntimeMemory * result CudaIpcMapping :=
  if negb (initialization_status m =? 0) then (m, Err (initialization_status m))
  else if negb (length (ipc_handle x) =? sizeof_cudaIpcMemHandle_t)%nat then (m, Err EINVAL)
  else match find_device (devices_ m) (gpu_uuid x) with
  | None => (m, Err ENODEV)
  | Some device =>
      let '(c, r) := on_device (cuda_ m) (ordinal device) Err (λ c,
        let '(c, (e, daemon_base)) := cudaIpcOpenMemHandle c (ipc_handle x) in
        if negb (bool_decide (e = cudaSuccess)) then (c, Err (cuda_status e))
        else (c, Ok (mkMapping (gpu_uuid x) daemon_base))) in
      (with_cuda m c, r)
  end.

Definition close (m : RuntimeMemory) (x : CudaIpcMapping) : RuntimeMemory * Z :=
  if daemon_base_address x =? 0 then (m, EINVAL)
  else if negb (initialization_status m =? 0) then (m, initialization_status m)
  else match find_device (devices_ m) (mapping_uuid x) with
  | None => (m, ENODEV)
  | Some device =>
      let '(c, r) := on_device (cuda_ m) (ordinal device) id (λ c,
        let '(c, e) := cudaIpcCloseMemHandle c (daemon_base_address x) in (c, cuda_status e)) in
      (with_cuda m c, r)
  end.

Definition fill (m : RuntimeMemory) (x : CudaIpcMapping) (offset len value : Z) : RuntimeMemory * Z :=
  if (daemon_base_address x =? 0) || (len =? 0) || (U64_MAX - offset <? daemon_base_address x)
     || (U64_MAX <? len)
  then (m, EINVAL)
  else match find_device (devices_ m) (mapping_uuid x) with
  | None => (m, ENODEV)
  | Some device =>
      let '(c, r) := on_device (cuda_ m) (ordinal device) id (λ c,
        let '(c, e) := cudaMemset c (daemon_base_address x + offset) value len in
        if negb (bool_decide (e = cudaSuccess)) then (c, cuda_status e)
        else let '(c, e) := cudaDeviceSynchronize c in (c, cuda_status e)) in
      (with_cuda m c, r)
  end.

(** * What the daemon's side promises *)

(** The results of [body] on a device. *)
Lemma on_device_result {A} c ord (failed : Z → A) (body : C → C * A) (P : A → Prop) :
  (∀ e, P (failed (cuda_status e))) → (∀ c, P (body c).2) → P (on_device c ord failed body).2.
Proof.
  intros Hf Hb. unfold on_device, enter_device. destruct (cudaGetDevice c) as [c1 [e1 d]].
  destruct (if decide (e1 = cudaSuccess) then _ else _) as [c2 prev]. destruct (cudaSetDevice c2 ord) as [c3 e].
  cbn [scoped_status]. destruct (negb _); [apply Hf|]. specialize (Hb c3). by destruct (body c3).
Qed.

Lemma open_keeps m x : initialization_status (open m x).1 = initialization_status m.
Proof.
  unfold open. destruct (negb _); [done|]. destruct (negb _); [done|]. destruct (find_device _ _); [|done].
  by destruct (on_device _ _ _ _).
Qed.
Lemma close_keeps m x : initialization_status (close m x).1 = initialization_status m.
Proof.
  unfold close. destruct (_ =? 0); [done|]. destruct (negb _); [done|]. destruct (find_device _ _); [|done].
  by destruct (on_device _ _ _ _).
Qed.

(** The constructor leaves an [int] as the status. *)
Definition int_status (m : RuntimeMemory) : Prop := ControlRefine.is_int (initialization_status m).

Lemma probe_device_int c ord : ControlRefine.int_error (probe_device c ord).2.
Proof.
  unfold probe_device. apply on_device_result; [intros e; apply cuda_status_int|]. intros c1.
  destruct (cudaFree c1) as [c2 e]. case_bool_decide; [|apply cuda_status_int]. cbn [negb].
  destruct (cuDeviceGet c2 ord) as [c3 [r d]]. case_bool_decide; [|apply driver_status_int]. cbn [negb].
  destruct (cuDeviceGetUuid c3 d) as [c4 [r' u]]. case_bool_decide; [done|apply driver_status_int].
Qed.
Lemma probe_devices_int ords : ∀ c ds, int_status (probe_devices c ords ds).
Proof.
  induction ords as [|ord ords IH]; intros c ds; cbn [probe_devices]; [done|].
  pose proof (probe_device_int c ord) as Hp. destruct (probe_device c ord) as [c' [d|e]]; [apply IH|done].
Qed.
Lemma new_runtime_memory_int c : int_status (new_runtime_memory c).
Proof.
  unfold new_runtime_memory. destruct (cuInit c) as [c1 r]. case_bool_decide; [|apply driver_status_int]. cbn [negb].
  destruct (cudaGetDeviceCount c1) as [c2 [e n]]. case_bool_decide; [apply probe_devices_int|apply cuda_status_int].
Qed.

(** Constructed backends, as the service uses them. *)
Definition Constructed : Type := {m : RuntimeMemory | int_status m}.
Definition constructed c : Constructed := new_runtime_memory c ↾ new_runtime_memory_int c.

Lemma open_int_status (m : Constructed) x : int_status (open (`m) x).1.
Proof. unfold int_status. rewrite open_keeps. apply (proj2_sig m). Qed.
Lemma close_int_status (m : Constructed) x : int_status (close (`m) x).1.
Proof. unfold int_status. rewrite close_keeps. apply (proj2_sig m). Qed.

#[export] Instance runtime_memory_backend : CudaIpcMemoryBackend Constructed := {|
  mem_open m x := ((open (`m) x).1 ↾ open_int_status m x, (open (`m) x).2);
  mem_close m x := ((close (`m) x).1 ↾ close_int_status m x, (close (`m) x).2);
|}.

Lemma open_result m x map :
  (open m x).2 = Ok map →
  mapping_uuid map = gpu_uuid x ∧
  ∃ c c', cudaIpcOpenMemHandle c (ipc_handle x) = (c', (cudaSuccess, daemon_base_address map)).
Proof.
  unfold open. destruct (negb _); [done|]. destruct (negb _); [done|]. destruct (find_device _ _) as [d|]; [|done].
  match goal with |- context [on_device ?cc ?o ?f ?b] =>
    pose proof (on_device_result cc o f b (λ r, r = Ok map → mapping_uuid map = gpu_uuid x ∧
      ∃ c c', cudaIpcOpenMemHandle c (ipc_handle x) = (c', (cudaSuccess, daemon_base_address map)))) as Hr;
    destruct (on_device cc o f b) as [c1 r] end.
  apply Hr; [done|]. clear Hr c1 r. intros c. destruct (cudaIpcOpenMemHandle c _) as [c' [e base]] eqn:E.
  case_bool_decide as He; [|done]. cbn. intros <-%Ok_inj. split; [done|]. exists c, c'. by rewrite E, He.
Qed.

(** The states of a backend: made by the constructor, and after calls of its methods. *)
Inductive backend_state : RuntimeMemory → Prop :=
| backend_new c : backend_state (new_runtime_memory c)
| backend_open m x : backend_state m → backend_state (open m x).1
| backend_close m x : backend_state m → backend_state (close m x).1
| backend_fill m x offset len value : backend_state m → backend_state (fill m x offset len value).1.

Lemma open_failure m x e : int_status m → (open m x).2 = Err e → e ≠ 0 ∧ ControlRefine.is_int e.
Proof.
  intros Hm. unfold open. destruct (negb (_ =? 0)) eqn:Hi; [cbn; intros [= <-]; bool_hyps; by split|].
  destruct (negb (_ =? _)%nat); [cbn [snd]; intros Hx; by assert (e = EINVAL) as -> by congruence|].
  destruct (find_device _ _) as [d|]; [|cbn [snd]; intros Hx; by assert (e = ENODEV) as -> by congruence].
  match goal with |- context [on_device ?c ?o ?f ?b] => set (B := b) end.
  unfold on_device, enter_device. destruct (cudaGetDevice _) as [c1 [e1 dev]].
  destruct (if decide (e1 = cudaSuccess) then _ else _) as [c2 prev]. destruct (cudaSetDevice _ _) as [c3 e3].
  cbn [scoped_status]. destruct (negb (cuda_status e3 =? 0)) eqn:E3; cbn -[cuda_status leave_device B].
  { intros Hx. assert (e = cuda_status e3) as -> by congruence. bool_hyps. split; [done|apply cuda_status_int]. }
  unfold B. destruct (cudaIpcOpenMemHandle c3 _) as [c' [e4 base]]. case_bool_decide as He; cbn -[cuda_status leave_device]; [done|].
  intros Hx. assert (e = cuda_status e4) as -> by congruence. split; [|apply cuda_status_int]. by rewrite cuda_status_0.
Qed.

Lemma close_result m x : int_status m → ControlRefine.is_int (close m x).2.
Proof.
  intros Hm. unfold close. destruct (_ =? 0); [done|]. destruct (negb _); [done|]. destruct (find_device _ _) as [d|]; [|done].
  match goal with |- context [on_device ?cc ?o ?f ?b] =>
    pose proof (on_device_result cc o f b ControlRefine.is_int) as Hr; destruct (on_device cc o f b) as [c1 r] end.
  apply Hr; [apply cuda_status_int|]. intros c. destruct (cudaIpcCloseMemHandle c _) as [c' e]. apply cuda_status_int.
Qed.

#[export] Instance runtime_memory_laws `{!CudaLaws C} : CudaIpcMemoryLaws Constructed.
Proof.
  split.
  - intros m x m' e [= _ He]. by apply (open_failure (`m) x e (proj2_sig m)).
  - intros m x m' map [= _ Hm]. apply open_result in Hm as (_ & c & c' & Ho). apply opened_address in Ho. ulia.
  - intros m x m' e [= _ He]. by apply (open_failure (`m) x e (proj2_sig m)).
  - intros m map. apply close_result, (proj2_sig m).
Qed.

(** * What the client exports *)

Lemma export_result c address len c' x :
  export_cuda_memory c address len = (c', Ok x) →
  ∃ base alloc uuid handle c0 c1 c2 c3 c4 device cu,
    cudaPointerGetAttributes c0 address = (c1, (cudaSuccess, (true, device))) ∧
    cuMemGetAddressRange c1 address = (c2, (CUDA_SUCCESS, (base, alloc))) ∧
    cuDeviceGet c2 device = (c3, (CUDA_SUCCESS, cu)) ∧ cuDeviceGetUuid c3 cu = (c4, (CUDA_SUCCESS, uuid)) ∧
    cudaIpcGetMemHandle c4 base = (c', (cudaSuccess, handle)) ∧
    address ≠ 0 ∧ checked_range address len base alloc = true ∧
    x = mkExported uuid address alloc (address - base) len handle.
Proof.
  unfold export_cuda_memory. destruct (_ || _) eqn:E0; [done|]. bool_hyps. destruct (cuInit c) as [c0 r0].
  destruct (negb _); [done|]. destruct (cudaPointerGetAttributes c0 address) as [c1 [e1 [on_gpu device]]] eqn:E1.
  case_bool_decide as K1; [|done]. cbn [negb]. destruct (negb on_gpu || _) eqn:Eg; [done|]. bool_hyps.
  destruct (cuMemGetAddressRange c1 address) as [c2 [r2 [base alloc]]] eqn:E2.
  case_bool_decide as K2; [|done]. cbn [negb]. destruct (_ || negb _) eqn:Er; [done|]. bool_hyps.
  destruct (cuDeviceGet c2 device) as [c3 [r3 cu]] eqn:E3. case_bool_decide as K3; [|done]. cbn [negb].
  destruct (cuDeviceGetUuid c3 cu) as [c4 [r4 uuid]] eqn:E4. case_bool_decide as K4; [|done]. cbn [negb].
  destruct (cudaIpcGetMemHandle c4 base) as [c5 [e5 handle]] eqn:E5. case_bool_decide as K5; [|done]. cbn [negb].
  intros [= <- <-]. exists base, alloc, uuid, handle, c0, c1, c2, c3, c4, device, cu. subst.
  by split_and!.
Qed.

Section Laws.
Context `{!CudaLaws C}.

(** An exported region lies inside its allocation, and is accepted by the wire format. *)
Lemma export_valid c address len c' x :
  is_u64 address → is_u64 len → export_cuda_memory c address len = (c', Ok x) →
  uuid_is_zero (gpu_uuid x) = false →
  client_address x = address ∧ length_ x = len ∧ 0 < len ∧ 0 <= allocation_offset x ∧
  allocation_offset x + len <= allocation_size x ∧ memory_ok x ∧ valid_memory x = true ∧
  length (ipc_handle x) = sizeof_cudaIpcMemHandle_t.
Proof.
  intros Ha Hl (base & alloc & uuid & handle & c0 & c1 & c2 & c3 & c4 & d & cu & _ & H1 & _ & H3 & H4 & Hnz & Hr & ->)%export_result Hu.
  apply range_address in H1 as [Hb Hs]. apply uuid_length in H3. apply handle_length in H4.
  apply checked_range_spec in Hr as (Hpos & Hge & Hfit & Hmax); [|ulia]. cbn in *.
  split_and!; try done; try lia.
  - split; cbn; [done|done|done|ulia].
  - unfold valid_memory, size, kMaxCudaIpcHandleSize. cbn. rewrite Hu, H4, u64_small by ulia. cbn [orb].
    apply negb_true_iff. rewrite !orb_false_iff, !Z.eqb_neq, !Z.ltb_ge. split_and!; ulia.
Qed.

End Laws.

(** * The selected device *)

Section Selection.
Context `{!CudaSelection C}.

Lemma on_device_selected {A} c ord (failed : Z → A) (body : C → C * A) d :
  selected c = Some d → (∀ c, selected (body c).1 = selected c) →
  selected (on_device c ord failed body).1 = Some d.
Proof.
  intros Hc Hb. unfold on_device, enter_device. destruct (selected_range c d Hc) as [Hd Hg].
  pose proof (get_selected c) as Hg'. destruct (cudaGetDevice c) as [c1 [e1 d1]]. cbn in Hg, Hg'.
  injection Hg as -> ->. rewrite decide_True by done.
  pose proof (select c1 ord) as Hs. destruct (cudaSetDevice c1 ord) as [c2 e2]. cbn in Hs.
  unfold leave_device. cbn [scoped_status previous_]. destruct (cuda_status e2 =? 0) eqn:E; cbn [negb].
  - specialize (Hb c2). destruct (body c2) as [c3 a]. cbn [fst] in *.
    rewrite (proj2 (Z.leb_le 0 d)) by done. cbn [andb].
    rewrite select, decide_True; [done|]. by apply (reselect c d).
  - cbn. rewrite Hs, decide_False; [by rewrite Hg'|]. intros ->. done.
Qed.

Lemma open_restores (m : RuntimeMemory) d x :
  selected (cuda_ m) = Some d → selected (cuda_ (open m x).1) = Some d.
Proof.
  intros Hm. unfold open. destruct (negb (_ =? 0)); [done|]. destruct (negb (_ =? _)%nat); [done|].
  destruct (find_device _ _) as [dev|]; [|done].
  match goal with |- context [on_device ?cc ?o ?f ?b] =>
    pose proof (on_device_selected cc o f b d Hm) as Hr; destruct (on_device cc o f b) as [c1 r] end.
  apply Hr. intros c. pose proof (open_selected c (ipc_handle x)) as Hs.
  destruct (cudaIpcOpenMemHandle c _) as [c' [e base]]. by destruct (negb _).
Qed.

Lemma close_restores (m : RuntimeMemory) d map :
  selected (cuda_ m) = Some d → selected (cuda_ (close m map).1) = Some d.
Proof.
  intros Hm. unfold close. destruct (_ =? 0); [done|]. destruct (negb _); [done|].
  destruct (find_device _ _) as [dev|]; [|done].
  match goal with |- context [on_device ?cc ?o ?f ?b] =>
    pose proof (on_device_selected cc o f b d Hm) as Hr; destruct (on_device cc o f b) as [c1 r] end.
  apply Hr. intros c. pose proof (close_selected c (daemon_base_address map)) as Hs.
  by destruct (cudaIpcCloseMemHandle c _) as [c' e].
Qed.

Lemma fill_restores (m : RuntimeMemory) d map offset len value :
  selected (cuda_ m) = Some d → selected (cuda_ (fill m map offset len value).1) = Some d.
Proof.
  intros Hm. unfold fill. destruct (_ || _); [done|]. destruct (find_device _ _) as [dev|]; [|done].
  match goal with |- context [on_device ?cc ?o ?f ?b] =>
    pose proof (on_device_selected cc o f b d Hm) as Hr; destruct (on_device cc o f b) as [c1 r] end.
  apply Hr. intros c. pose proof (memset_selected c (daemon_base_address map + offset) value len) as Hs.
  destruct (cudaMemset c _ _ _) as [c' e]. destruct (negb _); [done|].
  pose proof (synchronize_selected c') as Hs'. destruct (cudaDeviceSynchronize c') as [c'' e']. cbn in *. congruence.
Qed.

(** The calls of the backend leave the device their thread had selected as it was,
    whether they succeed or fail. *)
Theorem device_restored (m : RuntimeMemory) d x map offset len value :
  selected (cuda_ m) = Some d →
  selected (cuda_ (open m x).1) = Some d ∧ selected (cuda_ (close m map).1) = Some d ∧
  selected (cuda_ (fill m map offset len value).1) = Some d.
Proof.
  intros Hm. split_and!; [by apply open_restores|by apply close_restores|by apply fill_restores].
Qed.

End Selection.

(** * What is mapped where *)

Section Sharing.
Context `{!CudaSelection C} `{!CudaSharing C}.

Lemma visible_calls c c' : rtc cuda_call c c' → visible c' = visible c.
Proof. induction 1 as [|c1 c2 c3 H1 _ IH]; [done|]. rewrite IH. by apply visible_kept. Qed.

Lemma calls_eq {A} (op : C → C * A) c c' a :
  op c = (c', a) → cuda_call c (op c).1 → rtc cuda_call c c'.
Proof. intros E Hc. rewrite E in Hc. by apply rtc_once. Qed.

Lemma on_device_calls {A} c ord (failed : Z → A) (body : C → C * A) :
  (∀ c, rtc cuda_call c (body c).1) → rtc cuda_call c (on_device c ord failed body).1.
Proof.
  intros Hb. unfold on_device, enter_device. destruct (cudaGetDevice c) as [c1 [e1 d]] eqn:E1.
  etrans; [apply (calls_eq cudaGetDevice _ _ _ E1 (calls_get c))|]. clear E1.
  destruct (if decide (e1 = cudaSuccess) then _ else _) as [c2 prev] eqn:E2.
  assert (rtc cuda_call c1 c2) as H2.
  { destruct (decide _); injection E2 as <- <-; [done|apply rtc_once; constructor]. }
  etrans; [exact H2|]. destruct (cudaSetDevice c2 ord) as [c3 e] eqn:E3.
  etrans; [apply (calls_eq (λ c, cudaSetDevice c ord) _ _ _ E3 (calls_set c2 ord))|].
  set (s := mkScoped _ _). destruct (if negb (scoped_status s =? 0) then _ else _) as [c4 a] eqn:E4.
  assert (rtc cuda_call c3 c4) as H4.
  { destruct (negb _); [by injection E4 as <- _|]. specialize (Hb c3). by rewrite E4 in Hb. }
  etrans; [exact H4|]. unfold leave_device. cbn. destruct (_ && _); [apply rtc_once; constructor|done].
Qed.

(** A body that ran on a device: the device was selected, and what follows it selects at
    most another. *)
Lemma on_device_inv {A} c ord (failed : Z → A) (body : C → C * A) c' a :
  on_device c ord failed body = (c', a) →
  (∃ e, e ≠ cudaSuccess ∧ a = failed (cuda_status e)) ∨
  ∃ c3 c4, rtc cuda_call c c3 ∧ selected c3 = Some ord ∧ body c3 = (c4, a) ∧
    (c' = c4 ∨ ∃ d, c' = (cudaSetDevice c4 d).1).
Proof.
  unfold on_device, enter_device. destruct (cudaGetDevice c) as [c1 [e1 d]] eqn:E1.
  pose proof (calls_eq cudaGetDevice _ _ _ E1 (calls_get c)) as H1.
  destruct (if decide (e1 = cudaSuccess) then _ else _) as [c2 prev] eqn:E2.
  assert (rtc cuda_call c1 c2) as H2.
  { destruct (decide _); injection E2 as <- <-; [done|apply rtc_once; constructor]. }
  pose proof (select c2 ord) as Hs. destruct (cudaSetDevice c2 ord) as [c3 e] eqn:E3.
  pose proof (calls_eq (λ c, cudaSetDevice c ord) _ _ _ E3 (calls_set c2 ord)) as H3.
  cbn [scoped_status fst snd] in *. destruct (cuda_status e =? 0) eqn:E0; cbn [negb]; bool_hyps.
  - apply cuda_status_0 in E0 as ->. rewrite decide_True in Hs by done.
    destruct (body c3) as [c4 r] eqn:E4. intros [= <- <-]. right. exists c3, c4.
    split; [by do 2 (etrans; [done|])|]. do 2 (split; [done|]).
    unfold leave_device. destruct (_ && _); [right; by eexists|by left].
  - intros [= _ <-]. left. exists e. split; [|done]. intros ->. done.
Qed.

Definition devices_seen (m : RuntimeMemory) : Prop :=
  ∀ d, d ∈ devices_ m → visible (cuda_ m) (ordinal d) = Some (device_uuid d).

Lemma probe_device_seen c ord :
  rtc cuda_call c (probe_device c ord).1 ∧
  ∀ d, (probe_device c ord).2 = Ok d → ordinal d = ord ∧ visible c ord = Some (device_uuid d).
Proof.
  split.
  - apply on_device_calls. intros c0. destruct (cudaFree c0) as [c1 e] eqn:E1.
    pose proof (calls_eq cudaFree _ _ _ E1 (calls_free c0)) as H1. destruct (negb _); [done|].
    destruct (cuDeviceGet c1 ord) as [c2 [r d]] eqn:E2.
    pose proof (calls_eq (λ c, cuDeviceGet c ord) _ _ _ E2 (calls_device c1 ord)) as H2.
    destruct (negb _); [by etrans|]. destruct (cuDeviceGetUuid c2 d) as [c3 [r3 u]] eqn:E3.
    pose proof (calls_eq (λ c, cuDeviceGetUuid c d) _ _ _ E3 (calls_uuid c2 d)) as H3.
    destruct (negb _); (etrans; [exact H1|by etrans]).
  - intros d Hd. destruct (probe_device c ord) as [c' r] eqn:E. cbn in Hd. subst r.
    apply on_device_inv in E as [(e & _ & [=])|(c3 & c4 & Hc & _ & Hb & _)].
    destruct (cudaFree c3) as [c5 e] eqn:E1. destruct (negb _); [done|].
    destruct (cuDeviceGet c5 ord) as [c6 [r d']] eqn:E2. case_bool_decide as K2; [|done]. cbn [negb] in Hb.
    destruct (cuDeviceGetUuid c6 d') as [c7 [r3 u]] eqn:E3. case_bool_decide as K3; [|done]. cbn [negb] in Hb.
    injection Hb as _ <-. subst. split; [done|]. cbn.
    rewrite <- (visible_calls _ _ Hc), <- (visible_calls _ _ (calls_eq cudaFree _ _ _ E1 (calls_free c3))).
    by eapply device_visible.
Qed.

Lemma probe_devices_seen ords : ∀ c ds,
  devices_seen (mkRuntimeMemory 0 ds c) → devices_seen (probe_devices c ords ds).
Proof.
  induction ords as [|ord ords IH]; intros c ds Hs; cbn [probe_devices]; [done|].
  destruct (probe_device_seen c ord) as [Hc Hd]. destruct (probe_device c ord) as [c' [d|e]]; cbn in Hc, Hd.
  - destruct (Hd d eq_refl) as [Ho Hv]. apply IH. intros d'. cbn. rewrite (visible_calls _ _ Hc).
    intros [Hin|Hin%list_elem_of_singleton]%elem_of_app; [by apply Hs|]. subst d'. by rewrite Ho.
  - intros d' Hin. cbn in Hin. by apply not_elem_of_nil in Hin.
Qed.

Lemma seen_with_cuda m c : devices_seen m → rtc cuda_call (cuda_ m) c → devices_seen (with_cuda m c).
Proof. intros Hs Hc d Hd. cbn. rewrite (visible_calls _ _ Hc). by apply Hs. Qed.

(** In every state the backend knows its devices by their identifiers. *)
Lemma backend_devices_seen m : backend_state m → devices_seen m.
Proof.
  induction 1 as [c|m x _ IH|m x _ IH|m x offset len value _ IH].
  - unfold new_runtime_memory. destruct (cuInit c) as [c1 r].
    destruct (negb _); [intros d []%not_elem_of_nil|]. destruct (cudaGetDeviceCount c1) as [c2 [e n]].
    destruct (negb _); [intros d []%not_elem_of_nil|]. apply probe_devices_seen. intros d []%not_elem_of_nil.
  - unfold open. destruct (negb _); [done|]. destruct (negb _); [done|]. destruct (find_device _ _) as [d|]; [|done].
    match goal with |- context [on_device ?cc ?o ?f ?b] =>
      pose proof (on_device_calls cc o f b) as Hr; destruct (on_device cc o f b) as [c1 r] end.
    apply seen_with_cuda; [done|]. apply Hr. intros c0. pose proof (calls_open c0 (ipc_handle x)) as Hc.
    destruct (cudaIpcOpenMemHandle c0 _) as [c2 [e base]]. by destruct (negb _); apply rtc_once.
  - unfold close. destruct (_ =? 0); [done|]. destruct (negb _); [done|]. destruct (find_device _ _) as [d|]; [|done].
    match goal with |- context [on_device ?cc ?o ?f ?b] =>
      pose proof (on_device_calls cc o f b) as Hr; destruct (on_device cc o f b) as [c1 r] end.
    apply seen_with_cuda; [done|]. apply Hr. intros c0. pose proof (calls_close c0 (daemon_base_address x)) as Hc.
    destruct (cudaIpcCloseMemHandle c0 _) as [c2 e]. by apply rtc_once.
  - unfold fill. destruct (_ || _); [done|]. destruct (find_device _ _) as [d|]; [|done].
    match goal with |- context [on_device ?cc ?o ?f ?b] =>
      pose proof (on_device_calls cc o f b) as Hr; destruct (on_device cc o f b) as [c1 r] end.
    apply seen_with_cuda; [done|]. apply Hr. intros c0.
    pose proof (calls_memset c0 (daemon_base_address x + offset) value len) as Hc.
    destruct (cudaMemset c0 _ _ _) as [c2 e]. destruct (negb _); [by apply rtc_once|].
    pose proof (calls_synchronize c2) as Hc2. destruct (cudaDeviceSynchronize c2) as [c3 e3].
    eapply rtc_l; [exact Hc|by apply rtc_once].
Qed.

Lemma find_device_Some ds uuid d : find_device ds uuid = Some d → d ∈ ds ∧ device_uuid d = uuid.
Proof.
  induction ds as [|d' ds IH]; cbn; [done|]. case_decide as Hu.
  - intros [= <-]. split; [by left|done].
  - intros [Hin ?]%IH. split; [by right|done].
Qed.

(** What [open] maps, and into which device's address space. *)
Lemma open_maps m x m' map :
  backend_state m → open m x = (m', Ok map) →
  ∃ d A, handle_of (ipc_handle x) = Some A ∧ mapped (cuda_ m') (daemon_base_address map) d A ∧
    visible (cuda_ m') d = Some (gpu_uuid x).
Proof.
  intros Hm Ho. assert (devices_seen m') as Hseen.
  { apply backend_devices_seen. replace m' with (open m x).1 by by rewrite Ho. by constructor. }
  unfold open in Ho. destruct (negb _); [done|]. destruct (negb _); [done|].
  destruct (find_device _ _) as [dev|] eqn:Hf; [|done]. apply find_device_Some in Hf as [Hin Hu].
  destruct (on_device _ _ _ _) as [c r] eqn:E. injection Ho as <- ->.
  apply on_device_inv in E as [(e & _ & [=])|(c3 & c4 & _ & Hsel & Hb & Hend)].
  destruct (cudaIpcOpenMemHandle c3 _) as [c5 [e base]] eqn:Eo. case_bool_decide as He; [|done].
  injection Hb as -> <-. subst e. destruct (opened_mapped _ _ _ _ _ Hsel Eo) as (A & HA & Hmap).
  exists (ordinal dev), A. split; [done|]. cbn. split.
  - destruct Hend as [->|[d ->]]; [done|by apply mapped_set].
  - rewrite <- Hu. by apply (Hseen dev).
Qed.

(** (C31) What the client library registers is what the daemon maps.  A region exported by
    [export_cuda_memory], of a device whose identifier is not zero, passes the wire format
    unchanged; it describes the allocation the address is in, by the handle, the size and
    the device of this allocation and the region's offset in it, where the region lies
    inside.  Whenever the daemon, in any state of its backend, opens the region, this very
    allocation is mapped at the address it returns, in the address space of the device that
    has the allocation. *)
Theorem exported_region_mapped `{!CudaLaws C} c address len c' x :
  is_u64 address → is_u64 len → export_cuda_memory c address len = (c', Ok x) →
  uuid_is_zero (gpu_uuid x) = false →
  (∃ bytes, encode_mr_registration x = Ok bytes ∧ decode_mr_registration bytes len = Ok x) ∧
  ∃ base A, owns c' base A ∧ handle_of (ipc_handle x) = Some A ∧
    allocation_size x = alloc_size A ∧ address = base + allocation_offset x ∧
    0 <= allocation_offset x ∧ allocation_offset x + len <= alloc_size A ∧
    ∀ m m' map, backend_state m → open m x = (m', Ok map) →
      ∃ d, visible (cuda_ m') d = Some (alloc_uuid A) ∧ mapped (cuda_ m') (daemon_base_address map) d A.
Proof.
  intros Ha Hl He Hu. destruct (export_valid _ _ _ _ _ Ha Hl He Hu) as (_ & Hlen & _ & H0 & Hfit & Hok & Hv & _).
  split.
  { assert (∃ bytes, encode_mr_registration x = Ok bytes) as [bytes Hb].
    { unfold encode_mr_registration. rewrite Hv. cbn [negb]. by eexists. }
    exists bytes. split; [done|]. rewrite <- Hlen. by apply decode_encode_mr. }
  apply export_result in He as (base & alloc & uuid & handle & c0 & c1 & c2 & c3 & c4 & d & cu & E0 & E1 & E2 & E3 & E4 & _ & _ & ->).
  destruct (pointer_owned _ _ _ _ _ _ _ E0 E1) as (A & Hown & <- & Hvis).
  apply (owns_device _ d) in Hown. rewrite E2 in Hown. apply (owns_uuid _ cu) in Hown. cbn in Hown. rewrite E3 in Hown.
  destruct (owns_handle _ _ _ _ _ Hown E4) as [Hown' HA].
  pose proof (device_visible _ _ _ _ _ _ E2 E3) as Hvis2.
  assert (uuid = alloc_uuid A) as ->.
  { rewrite (visible_calls _ _ (calls_eq (λ c, cuMemGetAddressRange c address) _ _ _ E1 (calls_range c1 address))),
      (visible_calls _ _ (calls_eq (λ c, cudaPointerGetAttributes c address) _ _ _ E0 (calls_attributes c0 address))) in Hvis2.
    congruence. }
  exists base, A. cbn in *. split_and!; try done; [lia|]. intros m m' map Hm Hopen.
  destruct (open_maps _ _ _ _ Hm Hopen) as (dev & A' & HA' & Hmap & Hdev). cbn in HA', Hdev.
  exists dev. assert (A' = A) as -> by congruence. done.
Qed.

End Sharing.

End Runtime.
Arguments RuntimeMemory : clear implicits.
Arguments Constructed : clear implicits.

(** * A machine with two devices

    One allocation of 8192 bytes, on the second device; every process has it at 65536, and
    a handle to it is opened at 2^30. *)

(** The selected device, and the devices in whose address spaces the allocation is mapped. *)
Record DemoCuda := mkDemoCuda { demo_selected : Z; demo_opened : list Z }.
Definition demo_process : DemoCuda := mkDemoCuda 0 [].
Definition demo_handle : list byte := replicate 64 Byte.x05.
Definition demo_uuid (d : Z) : list byte := replicate 16 (if d =? 0 then Byte.x03 else Byte.x07).
Definition demo_device (d : Z) : bool := (0 <=? d) && (d <? 2).
Definition demo_address (a : Z) : bool := (65536 <=? a) && (a <? 65536 + 8192).

#[export] Instance demo_cuda : Cuda DemoCuda := {|
  cuInit c := (c, CUDA_SUCCESS);
  cudaGetDeviceCount c := (c, (cudaSuccess, 2));
  cudaGetDevice c := (c, if demo_device (demo_selected c) then (cudaSuccess, demo_selected c) else (cudaErrorNoDevice, 0));
  cudaSetDevice c d := if demo_device d then (mkDemoCuda d (demo_opened c), cudaSuccess) else (c, cudaErrorInvalidDevice);
  cudaGetLastError c := c;
  cudaFree c := (c, cudaSuccess);
  cuDeviceGet c d := (c, (CUDA_SUCCESS, d));
  cuDeviceGetUuid c d := (c, (CUDA_SUCCESS, demo_uuid d));
  cudaPointerGetAttributes c a := (c, if demo_address a then (cudaSuccess, (true, 1)) else (cudaErrorInvalidValue, (false, 0)));
  cuMemGetAddressRange c a := (c, if demo_address a then (CUDA_SUCCESS, (65536, 8192)) else (CUDA_ERROR_INVALID_VALUE, (0, 0)));
  cudaIpcGetMemHandle c a := (c, if a =? 65536 then (cudaSuccess, demo_handle) else (cudaErrorInvalidValue, []));
  cudaIpcOpenMemHandle c h :=
    if decide (h = demo_handle)
    then (mkDemoCuda (demo_selected c) (demo_selected c :: demo_opened c), (cudaSuccess, 1073741824))
    else (c, (cudaErrorInvalidResourceHandle, 0));
  cudaIpcCloseMemHandle c a := (c, if a =? 1073741824 then cudaSuccess else cudaErrorInvalidValue);
  cudaMemset c _ _ _ := (c, cudaSuccess);
  cudaDeviceSynchronize c := (c, cudaSuccess);
|}.

#[export] Instance demo_cuda_laws : CudaLaws DemoCuda.
Proof.
  split; cbn.
  - intros c h c' base. case_decide; intros [= _ <-]; done.
  - intros c a c' base alloc. destruct (demo_address a); intros [= _ <- <-]; done.
  - intros c d c' uuid [= _ <-]. done.
  - intros c base c' h. destruct (_ =? _); intros [= _ <-]. done.
Qed.

#[export] Program Instance demo_cuda_selection : CudaSelection DemoCuda := {|
  selected c := if demo_device (demo_selected c) then Some (demo_selected c) else None;
|}.
Next Obligation.
  intros c d. cbn. destruct (demo_device _) eqn:E; [|done]. intros [= <-]. unfold demo_device in E. bool_hyps. by split.
Qed.
Next Obligation. intros c d. cbn. destruct (demo_device d) eqn:E; cbn; [by rewrite E|done]. Qed.
Next Obligation. intros c d. cbn. destruct (demo_device _) eqn:E; [|done]. intros [= <-] c'. by rewrite E. Qed.
Next Obligation. done. Qed.
Next Obligation. intros c h. cbn. by case_decide. Qed.
Next Obligation. done. Qed.
Next Obligation. done. Qed.
Next Obligation. done. Qed.

#[export] Program Instance demo_cuda_sharing : CudaSharing DemoCuda := {|
  Allocation := unit;
  alloc_size _ := 8192;
  alloc_uuid _ := demo_uuid 1;
  visible _ d := Some (demo_uuid d);
  owns _ base _ := base = 65536;
  mapped c base d _ := base = 1073741824 ∧ d ∈ demo_opened c;
  handle_of h := if decide (h = demo_handle) then Some tt else None;
|}.
Next Obligation. done. Qed.
Next Obligation. intros c d c1 cu c2 uuid. cbn. by intros [= _ <-] [= _ <-]. Qed.
Next Obligation.
  intros c a c1 d c2 base size. cbn. destruct (demo_address a); [|done]. intros [= _ <-] [= _ <- <-].
  by exists tt.
Qed.
Next Obligation. done. Qed.
Next Obligation. done. Qed.
Next Obligation. intros c base A c' h ->. cbn. intros [= _ <-]. destruct A. by rewrite decide_True. Qed.
Next Obligation.
  intros c d h c' base. cbn. destruct (demo_device _) eqn:E; [|done]. intros [= <-].
  case_decide; [|done]. intros [= <- <-]. exists tt. split; [done|]. split; [done|by left].
Qed.
Next Obligation. intros c d' base d A [-> Hd]. cbn. by destruct (demo_device d'). Qed.

Definition demo_exported : ExportedCudaMemory := mkExported (demo_uuid 1) 69632 8192 4096 1024 demo_handle.

(** The region is on the second device: the daemon, with the first one selected, maps it
    into the second one's address space and has the first one selected again. *)
Definition demo_daemon : RuntimeMemory DemoCuda := (open (new_runtime_memory demo_process) demo_exported).1.

Lemma exported_region_mapped_witness :
  export_cuda_memory demo_process 69632 1024 = (demo_process, Ok demo_exported) ∧
  (open (new_runtime_memory demo_process) demo_exported).2 = Ok (mkMapping (demo_uuid 1) 1073741824) ∧
  cuda_ demo_daemon = mkDemoCuda 0 [1] ∧
  (∃ d, visible (cuda_ demo_daemon) d = Some (demo_uuid 1) ∧ mapped (cuda_ demo_daemon) 1073741824 d tt) ∧
  ∃ bytes, decode_mr_registration bytes 1024 = Ok demo_exported.
Proof.
  split; [by vm_compute|]. split; [by vm_compute|]. split; [by vm_compute|].
  destruct (exported_region_mapped demo_process 69632 1024 demo_process demo_exported)
    as [(bytes & _ & Hb) (base & A & _ & _ & _ & _ & _ & _ & Hopen)];
    [done|done|by vm_compute|by vm_compute|]. split; [|by exists bytes].
  destruct A. apply (Hopen (new_runtime_memory demo_process) demo_daemon (mkMapping (demo_uuid 1) 1073741824));
    [constructor|]. unfold demo_daemon. by vm_compute.
Defined.

Lemma device_restored_witness :
  selected (cuda_ (open (new_runtime_memory demo_process) demo_exported).1) = Some 0.
Proof.
  apply (device_restored (new_runtime_memory demo_process) 0 demo_exported (mkMapping [] 0) 0 0 0). by vm_compute.
Defined.

(** ** A client that lies

    The daemon takes the size of the allocation from the client: a client that declares more
    than its handle maps is granted addresses beyond the mapping. *)

Definition lying_memory : ExportedCudaMemory := mkExported (demo_uuid 1) 1048576 1099511627776 0 1099511627776 demo_handle.

Definition lying_script : ControlPlane.script :=
  [(1, λ _, DeviceContext.make_create_context_request 1);
   (1, λ ids, make_create_pd_request (nth 0 ids 0));
   (1, λ ids, make_register_mr_request (nth 1 ids 0) lying_memory 3)].

Definition lying_start : Qp.QpService (Constructed DemoCuda) :=
  Qp.new_qp_service DeviceContext.default_catalog (constructed demo_process) ControlPlane.demo_kernel.
Definition lying_run : Qp.QpService (Constructed DemoCuda) * list Z :=
  default (lying_start, []) (ControlPlane.run lying_start [] lying_script).

Theorem declared_size_unchecked :
  ∃ s pd a, rtc ControlPlane.control_step lying_start s ∧
    service_resolve_rkey (Qp.base_ s) 1 pd 2 1114112 8 = Ok a ∧
    (alloc_size <$> handle_of (ipc_handle lying_memory)) = Some 8192 ∧ 1073741824 + 8192 <= a.
Proof.
  exists lying_run.1, (nth 1 lying_run.2 0), (1073741824 + 65536). split.
  - apply (ControlPlane.run_reachable lying_script _ [] _ lying_run.2). unfold lying_run.
    assert (is_Some (ControlPlane.run lying_start [] lying_script)) as [[s ids] ->];
      [apply (bool_decide_eq_true_1 _); by vm_compute|done].
  - split; [by vm_compute|]. split; [by vm_compute|lia].
Qed.

End CudaIpcMemory.
