(* ===== verification/ClientControl.v ===== *)
(** The client side of control requests: [ControlClient] (src/control/device_context.cpp)
    and the client functions of src/control/pd_mr_cq.cpp and src/control/qp.cpp.

    The peer is the class [IpcPeer]: what connecting to it and what a packet sent to it
    does.  Answers of the system to the mapping of rings are a table in the client's
    kernel state, as on the daemon's side. *)

From S2P Require Import Prelude Wire ObjectIdentity SharedRing Descriptors Protocol Adapter.
From S2P Require Import QueueDescriptors IpcSession Control DeviceContext PdMrCq Qp.
Import Wire Protocol Adapter Ring Descriptors QueueDescriptors CudaIpc PdMrCq Qp DeviceContext.

(** The other end of the client's socket: the outcomes of [socket] and [::connect], of
    [sendmsg] and of the [recvmsg] that follows, and the peer's state afterwards. *)
Class IpcPeer (D : Type) := {
  dial : D → list byte → D * result Z * Z;
  peer_sendmsg : D → Packet → result Z;
  peer_recvmsg : D → Packet → Delivery;
  peer_next : D → Packet → D;
}.

Module ClientControl.

(** * The connection *)

(** System answers to [map_shared_ring] with the header each mapping shows, and the
    resources of the client process. *)
Record ClientKernel := mkClientKernel {
  map_answers : nat → RingSystem * SharedRingHeader; map_calls : nat; client_resources : RingResources;
}.

Record Link (D : Type) := mkLink {
  peer : D;
  ipc_ : IpcSession.IpcClient;
  epoch_ : Z;                 (* [connection_epoch] *)
  kernel_of : ClientKernel;
}.
Arguments mkLink {D} _ _ _ _.
Arguments peer {D} _.
Arguments ipc_ {D} _.
Arguments epoch_ {D} _.
Arguments kernel_of {D} _.

#[local] Existing Instance ObjectIdentity.ObjectType_eq_dec.
#[local] Instance result_eq_dec {A} `{EqDecision A} : EqDecision (result A).
Proof. solve_decision. Defined.

Section Client.
Context {D : Type} `{IpcPeer D}.
Implicit Types (l : Link D).

Definition with_ipc l (c : IpcSession.IpcClient) : Link D := mkLink (peer l) c (epoch_ l) (kernel_of l).
Definition with_client_kernel l (k : ClientKernel) : Link D := mkLink (peer l) (ipc_ l) (epoch_ l) k.
Definition link_connected l : bool := IpcSession.connected (ipc_ l).

(** [ControlClient::close]. *)
Definition control_close l : Link D := with_ipc l (IpcSession.client_close (ipc_ l)).1.

(** [ControlClient::connect]: the epoch wraps past zero. *)
Definition control_connect l (socket_path : list byte) : Link D * Z :=
  let '(d, candidate, connect_status) := dial (peer l) socket_path in
  let d := if link_connected l || IpcSession.bad_path socket_path then peer l else d in
  let '(c, status) := IpcSession.connect (ipc_ l) socket_path candidate connect_status in
  (mkLink d c (if status =? 0 then IpcSession.next_id (epoch_ l) else epoch_ l) (kernel_of l),
   if status =? 0 then 0 else - status).

(** [Impl::call] for a response with its descriptors. *)
Definition control_call l (r : UgdrControlRequest) : Link D * result (UgdrControlResponse * list Z) :=
  match encode_request r [] with
  | Err encode_status => (l, Err (- encode_status))
  | Ok encoded =>
      let request := IpcSession.request_message (ipc_ l) (rq_method r) (payload encoded)
                       (file_descriptors encoded) in
      let '(c, answer, _) :=
        IpcSession.call (peer_sendmsg (peer l)) (peer_recvmsg (peer l)) (ipc_ l) (rq_method r)
          (payload encoded) (file_descriptors encoded) in
      let d := if link_connected l && negb (rq_method r =? 0)
               then peer_next (peer l) (send_packet request) else peer l in
      let l := mkLink d c (epoch_ l) (kernel_of l) in
      match answer with
      | Err call_status => (control_close l, Err (- call_status))
      | Ok wire_response =>
          match decode_response wire_response with
          | Err decode_status => (control_close l, Err (- decode_status))
          | Ok (value, fds) =>
              if negb (rs_method value =? rq_method r) || (rs_status value <? 0)
              then (control_close l, Err EPROTO)
              else (l, Ok (value, fds))
          end
      end
  end.

(** [Impl::call] for a response without descriptors. *)
Definition control_call_plain l (r : UgdrControlRequest) : Link D * result UgdrControlResponse :=
  match control_call l r with
  | (l, Err status) => (l, Err status)
  | (l, Ok (value, fds)) => if decide (fds = []) then (l, Ok value) else (control_close l, Err EPROTO)
  end.

(** * Devices and contexts *)

Definition validate_identity (id : Z) (t : ObjectIdentity.ObjectType) : Z :=
  match ObjectIdentity.decode_object_identity id with
  | Some parts => if decide (ObjectIdentity.type parts = t) then 0 else EPROTO
  | None => EPROTO
  end.

Definition client_list_devices l : Link D * result (list DeviceDescriptor) :=
  match control_call_plain l make_list_devices_request with
  | (l, Err status) => (l, Err status)
  | (l, Ok response) =>
      if negb (rs_status response =? 0) then (l, Err (rs_status response))
      else (l, decode_device_list (rs_opaque response))
  end.

Definition client_create_context l (device : Z) : Link D * result Z :=
  if device =? 0 then (l, Err EINVAL)
  else match control_call_plain l (make_create_context_request device) with
  | (l, Err status) => (l, Err status)
  | (l, Ok response) =>
      if negb (rs_status response =? 0) then (l, Err (rs_status response))
      else if negb (validate_identity (rs_object_identity response) ObjectIdentity.context =? 0)
      then (l, Err EPROTO)
      else (l, Ok (rs_object_identity response))
  end.

Definition client_destroy_context l (context : Z) : Link D * Z :=
  if context =? 0 then (l, EINVAL)
  else match control_call_plain l (make_destroy_context_request context) with
  | (l, Err status) => (l, status)
  | (l, Ok response) => (l, rs_status response)
  end.

(** * Requests that create or destroy one object *)

Definition call_identity l (r : UgdrControlRequest) (t : ObjectIdentity.ObjectType) : Link D * result Z :=
  match control_call_plain l r with
  | (l, Err status) => (l, Err status)
  | (l, Ok response) =>
      if negb (rs_status response =? 0) then (l, Err (rs_status response))
      else if negb (validate_identity (rs_object_identity response) t =? 0)
              || negb (bool_decide (rs_opaque response = [])) || negb (bool_decide (rs_fd_indices response = []))
      then (l, Err EPROTO)
      else (l, Ok (rs_object_identity response))
  end.

Definition call_destroy l (r : UgdrControlRequest) : Link D * Z :=
  match control_call_plain l r with
  | (l, Err status) => (l, status)
  | (l, Ok response) =>
      if (rs_status response =? 0)
         && (negb (rs_object_identity response =? 0) || negb (bool_decide (rs_opaque response = []))
             || negb (bool_decide (rs_fd_indices response = [])))
      then (l, EPROTO)
      else (l, rs_status response)
  end.
Definition call_empty l (r : UgdrControlRequest) : Link D * Z := call_destroy l r.

Definition client_create_pd l (context : Z) : Link D * result Z :=
  if context =? 0 then (l, Err EINVAL)
  else call_identity l (make_create_pd_request context) ObjectIdentity.pd.
Definition client_destroy_pd l (id : Z) : Link D * Z :=
  if id =? 0 then (l, EINVAL) else call_destroy l (make_destroy_pd_request id).

Definition client_register_mr l (pd_identity : Z) (m : ExportedCudaMemory) (access : Z)
  : Link D * result (Z * MrRegistrationResult) :=
  if (pd_identity =? 0) || negb (valid_memory m) || negb (valid_access access) then (l, Err EINVAL)
  else
    let request := make_register_mr_request pd_identity m access in
    if decide (rq_opaque request = []) then (l, Err EINVAL)
    else match control_call_plain l request with
    | (l, Err status) => (l, Err status)
    | (l, Ok response) =>
        if negb (rs_status response =? 0) then (l, Err (rs_status response))
        else if negb (validate_identity (rs_object_identity response) ObjectIdentity.mr =? 0)
                || negb (bool_decide (rs_fd_indices response = []))
        then (l, Err EPROTO)
        else match decode_mr_registration_result (rs_opaque response) with
        | Err _ => (l, Err EPROTO)
        | Ok decoded =>
            if negb (res_client_address decoded =? client_address m) || negb (res_length decoded =? CudaIpc.length_ m)
            then (l, Err EPROTO)
            else (l, Ok (rs_object_identity response, decoded))
        end
    end.
Definition client_deregister_mr l (id : Z) : Link D * Z :=
  if id =? 0 then (l, EINVAL) else call_destroy l (make_deregister_mr_request id).

(** * Queues *)

(** [map_shared_ring] of a received descriptor. *)
Definition map_ring (k : ClientKernel) (fd : Z) (expected : QueueDescriptor)
  : ClientKernel * result SharedRing :=
  let '(sys, h) := map_answers k (map_calls k) in
  let '(os, r) := map_shared_ring sys (client_resources k) fd h expected no_ring in
  (mkClientKernel (map_answers k) (S (map_calls k)) os, r).

(** [SharedRing::reset] and its destructor. *)
Definition unmap_ring (k : ClientKernel) (ring : SharedRing) : ClientKernel :=
  mkClientKernel (map_answers k) (map_calls k) (reset (client_resources k) ring).1.

Definition client_destroy_cq l (id : Z) : Link D * Z :=
  if id =? 0 then (l, EINVAL) else call_destroy l (make_destroy_cq_request id).

(** The error that follows from the decoding of the descriptors. *)
Definition descriptor_error {A} (r : result A) : Z :=
  match r with Err e => if e =? EPROTONOSUPPORT then e else EPROTO | Ok _ => EPROTO end.

(** [client_create_cq], for a ring that is not valid yet. *)
Definition client_create_cq l (context cqe : Z) : Link D * result (Z * SharedRing) :=
  if (context =? 0) || (cqe =? 0) then (l, Err EINVAL)
  else match control_call l (make_create_cq_request context cqe) with
  | (l, Err status) => (l, Err status)
  | (l, Ok (response, fds)) =>
      let id := rs_object_identity response in
      let undo l e := ((client_destroy_cq l id).1, Err e) in
      if negb (rs_status response =? 0) then (l, Err (rs_status response))
      else if negb (validate_identity id ObjectIdentity.cq =? 0) then (l, Err EPROTO)
      else if negb (bool_decide (rs_fd_indices response = [0])) || negb (length fds =? 1)%nat
      then undo l EPROTO
      else
        let descriptors := decode_queue_descriptors (rs_opaque response) in
        let expected := mkDescriptor completion cqe completion_slot_stride in
        if negb (bool_decide (descriptors = Ok [expected])) then undo l (descriptor_error descriptors)
        else
          let '(k, mapped) := map_ring (kernel_of l) (default (-1) (fds !! 0%nat)) expected in
          let l := with_client_kernel l k in
          match mapped with
          | Err e => undo l e
          | Ok ring => (l, Ok (id, ring))
          end
  end.

Definition client_destroy_qp l (id : Z) : Link D * Z :=
  if id =? 0 then (l, EINVAL) else call_destroy l (make_destroy_qp_request id).

(** Mapping the two rings of a queue pair: the first is unmapped when the second fails. *)
Definition map_two (k : ClientKernel) (fd1 fd2 : Z) (d1 d2 : QueueDescriptor)
  : ClientKernel * result (SharedRing * SharedRing) :=
  match map_ring k fd1 d1 with
  | (k, Err e) => (k, Err e)
  | (k, Ok ring1) =>
      match map_ring k fd2 d2 with
      | (k, Err e) => (unmap_ring k ring1, Err e)
      | (k, Ok ring2) => (k, Ok (ring1, ring2))
      end
  end.

Definition client_create_qp l (pd_identity : Z) (a : QpCreateAttributes)
  : Link D * result (Z * SharedRing * SharedRing) :=
  if (pd_identity =? 0) || negb (valid_qp_create_attributes a) then (l, Err EINVAL)
  else match control_call l (make_create_qp_request pd_identity a) with
  | (l, Err status) => (l, Err status)
  | (l, Ok (response, fds)) =>
      let id := rs_object_identity response in
      let undo l e := ((client_destroy_qp l id).1, Err e) in
      if negb (rs_status response =? 0) then (l, Err (rs_status response))
      else if negb (validate_identity id ObjectIdentity.qp =? 0) then (l, Err EPROTO)
      else if negb (bool_decide (rs_fd_indices response = [0; 1])) || negb (length fds =? 2)%nat
      then undo l EPROTO
      else match send_slot_stride (max_send_sge a), receive_slot_stride (max_recv_sge a) with
      | Err e, _ | Ok _, Err e => undo l e
      | Ok send_stride, Ok receive_stride =>
          let expected_send := mkDescriptor send (max_send_wr a) send_stride in
          let expected_receive := mkDescriptor receive (max_recv_wr a) receive_stride in
          let descriptors := decode_queue_descriptors (rs_opaque response) in
          if negb (bool_decide (descriptors = Ok [expected_send; expected_receive]))
          then undo l (descriptor_error descriptors)
          else
            let '(k, mapped) := map_two (kernel_of l) (default (-1) (fds !! 0%nat))
                                  (default (-1) (fds !! 1%nat)) expected_send expected_receive in
            let l := with_client_kernel l k in
            match mapped with
            | Err e => undo l e
            | Ok (mapped_send, mapped_receive) => (l, Ok (id, mapped_send, mapped_receive))
            end
      end
  end.

(** * Queue pairs *)

Definition client_query_qp l (id attr_mask : Z) : Link D * result QpSnapshot :=
  if (id =? 0) || negb (valid_query_mask attr_mask) then (l, Err EINVAL)
  else match control_call_plain l (make_query_qp_request id attr_mask) with
  | (l, Err status) => (l, Err status)
  | (l, Ok response) =>
      if negb (rs_status response =? 0) then (l, Err (rs_status response))
      else if negb (rs_object_identity response =? 0) || negb (bool_decide (rs_fd_indices response = []))
      then (l, Err EPROTO)
      else (l, decode_snapshot (rs_opaque response))
  end.

Definition client_modify_qp l (id : Z) (a : QpAttributes) (attr_mask : Z) : Link D * Z :=
  if id =? 0 then (l, EINVAL) else call_empty l (make_modify_qp_request id a attr_mask).

Definition client_query_qp_conn_info l (id : Z) : Link D * result Z :=
  if id =? 0 then (l, Err EINVAL)
  else match control_call_plain l (make_query_qp_conn_info_request id) with
  | (l, Err status) => (l, Err status)
  | (l, Ok response) =>
      if negb (rs_status response =? 0) then (l, Err (rs_status response))
      else if negb (rs_object_identity response =? 0) || negb (bool_decide (rs_fd_indices response = []))
      then (l, Err EPROTO)
      else match decode_conn_info (rs_opaque response) with
      | Err e => (l, Err e)
      | Ok num => if num =? 0 then (l, Err EPROTO) else (l, Ok num)
      end
  end.

Definition client_connect_qp l (id remote_qp_num : Z) (a : QpAttributes) (attr_mask : Z) : Link D * Z :=
  if (id =? 0) || (remote_qp_num =? 0) then (l, EINVAL)
  else call_empty l (make_connect_qp_request id remote_qp_num a attr_mask).

End Client.
End ClientControl.
