(* ===== verification/ClientRuntime.v ===== *)
(** The client library's runtime (src/api/api.cpp, [ClientRuntime]): proxies for the
    objects of the daemon, named by the pointers the application holds.

    Pointers are fresh positive numbers, 0 is the null pointer; proxies are never freed,
    so a table keyed by pointers stands for the storage and for the sets of known
    pointers.  [errno] with a null result is [Err].  A call holds the runtime's mutex, so
    calls are sequential; [UGDR_DAEMON_SOCKET] and the export of device memory are
    arguments.  Memory for proxies is granted. *)

From S2P Require Import Prelude Wire ObjectIdentity SharedRing Descriptors WrPosting CompletionQueue.
From S2P Require Import Protocol Adapter QueueDescriptors IpcSession DeviceContext PdMrCq Qp ClientControl.
Import Wire Ring Descriptors CudaIpc PdMrCq Qp ClientControl.

Module ClientRuntime.

(** * Proxies *)

Definition UGDR_QPT_RC : Z := 2.
Definition UGDR_QPS_RESET : Z := 0.
Definition UGDR_QPS_INIT : Z := 1.
Definition UGDR_QPS_RTR : Z := 2.
Definition UGDR_QPS_RTS : Z := 3.

Record ugdr_device := mkDeviceProxy { catalog_identity : Z; device_epoch : Z; device_live : bool }.
Record DeviceList := mkDeviceList { devices_of : list Z; list_live : bool }.
Record ugdr_context := mkContextProxy { context_identity : Z; context_epoch : Z; context_live : bool }.
Record ugdr_pd := mkPdProxy { pd_of_context : Z; pd_identity : Z; pd_epoch : Z; pd_live : bool }.
Record ugdr_mr := mkMrValue {
  mr_of_context : Z; mr_of_pd : Z; mr_addr : Z; mr_length : Z; mr_handle : Z; mr_lkey_ : Z; mr_rkey_ : Z;
}.
Record MrProxyRecord := mkMrProxy { mr_value : ugdr_mr; mr_identity : Z; mr_epoch : Z; mr_live : bool }.
Record ugdr_cq := mkCqProxy {
  cq_of_context : Z; cq_user : Z; cq_identity : Z; cq_epoch : Z; cq_cqe : Z; cq_live : bool;
  cq_ring : SharedRing;
}.
Record ugdr_qp_init_attr := mkInitAttr {
  ia_send_cq : Z; ia_recv_cq : Z; ia_max_send_wr : Z; ia_max_recv_wr : Z; ia_max_send_sge : Z;
  ia_max_recv_sge : Z; ia_qp_type : Z; ia_sq_sig_all : Z;
}.
Record ugdr_qp_attr := mkQpAttr {
  at_state : Z; at_cur_state : Z; at_access : Z; at_timeout : Z; at_retry_cnt : Z; at_rnr_retry : Z;
  at_min_rnr_timer : Z;
}.
Record ugdr_qp := mkQpProxy {
  qp_of_pd : Z; init_attr : ugdr_qp_init_attr; qp_identity : Z; qp_epoch : Z; cached_state : Z;
  qp_live : bool; qp_send : SharedRing; qp_receive : SharedRing;
}.

Record Runtime (D : Type) := mkRuntime {
  client_ : Link D;
  lists_ : gmap Z DeviceList;
  devices_ : gmap Z ugdr_device;
  contexts_ : gmap Z ugdr_context;
  pds_ : gmap Z ugdr_pd;
  mrs_ : gmap Z MrProxyRecord;
  cqs_ : gmap Z ugdr_cq;
  qps_ : gmap Z ugdr_qp;
  next_pointer_ : Z;
  next_mr_handle_ : Z;
}.
Arguments mkRuntime {D} _ _ _ _ _ _ _ _ _ _.
Arguments client_ {D} _.
Arguments lists_ {D} _.
Arguments devices_ {D} _.
Arguments contexts_ {D} _.
Arguments pds_ {D} _.
Arguments mrs_ {D} _.
Arguments cqs_ {D} _.
Arguments qps_ {D} _.
Arguments next_pointer_ {D} _.
Arguments next_mr_handle_ {D} _.

Section Runtime.
Context {D : Type} `{IpcPeer D}.
Implicit Types (rt : Runtime D).

Definition new_runtime (l : Link D) : Runtime D := mkRuntime l ∅ ∅ ∅ ∅ ∅ ∅ ∅ 1 1.

(** ** Assignments *)

Definition with_client rt (l : Link D) : Runtime D :=
  mkRuntime l (lists_ rt) (devices_ rt) (contexts_ rt) (pds_ rt) (mrs_ rt) (cqs_ rt) (qps_ rt)
    (next_pointer_ rt) (next_mr_handle_ rt).
Definition with_lists rt m : Runtime D :=
  mkRuntime (client_ rt) m (devices_ rt) (contexts_ rt) (pds_ rt) (mrs_ rt) (cqs_ rt) (qps_ rt)
    (next_pointer_ rt) (next_mr_handle_ rt).
Definition with_devices rt m : Runtime D :=
  mkRuntime (client_ rt) (lists_ rt) m (contexts_ rt) (pds_ rt) (mrs_ rt) (cqs_ rt) (qps_ rt)
    (next_pointer_ rt) (next_mr_handle_ rt).
Definition with_contexts rt m : Runtime D :=
  mkRuntime (client_ rt) (lists_ rt) (devices_ rt) m (pds_ rt) (mrs_ rt) (cqs_ rt) (qps_ rt)
    (next_pointer_ rt) (next_mr_handle_ rt).
Definition with_pds rt m : Runtime D :=
  mkRuntime (client_ rt) (lists_ rt) (devices_ rt) (contexts_ rt) m (mrs_ rt) (cqs_ rt) (qps_ rt)
    (next_pointer_ rt) (next_mr_handle_ rt).
Definition with_mrs rt m : Runtime D :=
  mkRuntime (client_ rt) (lists_ rt) (devices_ rt) (contexts_ rt) (pds_ rt) m (cqs_ rt) (qps_ rt)
    (next_pointer_ rt) (next_mr_handle_ rt).
Definition with_cqs rt m : Runtime D :=
  mkRuntime (client_ rt) (lists_ rt) (devices_ rt) (contexts_ rt) (pds_ rt) (mrs_ rt) m (qps_ rt)
    (next_pointer_ rt) (next_mr_handle_ rt).
Definition with_qps rt m : Runtime D :=
  mkRuntime (client_ rt) (lists_ rt) (devices_ rt) (contexts_ rt) (pds_ rt) (mrs_ rt) (cqs_ rt) m
    (next_pointer_ rt) (next_mr_handle_ rt).
Definition with_counters rt (pointer handle : Z) : Runtime D :=
  mkRuntime (client_ rt) (lists_ rt) (devices_ rt) (contexts_ rt) (pds_ rt) (mrs_ rt) (cqs_ rt) (qps_ rt)
    pointer handle.
(** A new object: its pointer, which is used up. *)
Definition fresh rt : Runtime D := with_counters rt (next_pointer_ rt + 1) (next_mr_handle_ rt).

Definition kill_device (d : ugdr_device) : ugdr_device := mkDeviceProxy (catalog_identity d) (device_epoch d) false.
Definition kill_context (c : ugdr_context) : ugdr_context :=
  mkContextProxy (context_identity c) (context_epoch c) false.
Definition kill_pd (p : ugdr_pd) : ugdr_pd := mkPdProxy (pd_of_context p) (pd_identity p) (pd_epoch p) false.
Definition kill_mr (m : MrProxyRecord) : MrProxyRecord := mkMrProxy (mr_value m) (mr_identity m) (mr_epoch m) false.
Definition kill_cq (c : ugdr_cq) : ugdr_cq :=
  mkCqProxy (cq_of_context c) (cq_user c) (cq_identity c) (cq_epoch c) (cq_cqe c) false (cq_ring c).
Definition kill_qp (q : ugdr_qp) : ugdr_qp :=
  mkQpProxy (qp_of_pd q) (init_attr q) (qp_identity q) (qp_epoch q) (cached_state q) false (qp_send q) (qp_receive q).
Definition set_cached (st : Z) (q : ugdr_qp) : ugdr_qp :=
  mkQpProxy (qp_of_pd q) (init_attr q) (qp_identity q) (qp_epoch q) st (qp_live q) (qp_send q) (qp_receive q).
Definition set_qp_rings (sq rq : SharedRing) (q : ugdr_qp) : ugdr_qp :=
  mkQpProxy (qp_of_pd q) (init_attr q) (qp_identity q) (qp_epoch q) (cached_state q) (qp_live q) sq rq.
Definition set_cq_ring (r : SharedRing) (c : ugdr_cq) : ugdr_cq :=
  mkCqProxy (cq_of_context c) (cq_user c) (cq_identity c) (cq_epoch c) (cq_cqe c) (cq_live c) r.

(** [completions.reset()], [send_queue.reset(); receive_queue.reset()]. *)
Definition drop_cq_ring rt (p : Z) (c : ugdr_cq) : Runtime D :=
  let l := client_ rt in
  with_cqs (with_client rt (with_client_kernel l (unmap_ring (kernel_of l) (cq_ring c))))
    (<[p := set_cq_ring no_ring (kill_cq c)]> (cqs_ rt)).
Definition drop_qp_rings rt (p : Z) (q : ugdr_qp) : Runtime D :=
  let l := client_ rt in
  let k := unmap_ring (unmap_ring (kernel_of l) (qp_send q)) (qp_receive q) in
  with_qps (with_client rt (with_client_kernel l k))
    (<[p := set_qp_rings no_ring no_ring (kill_qp q)]> (qps_ rt)).

(** * The connection *)

Definition kDefaultDaemonSocket : list byte :=
  [Byte.x2f; Byte.x72; Byte.x75; Byte.x6e; Byte.x2f; Byte.x75; Byte.x67; Byte.x64; Byte.x72; Byte.x2f;
   Byte.x75; Byte.x67; Byte.x64; Byte.x72; Byte.x2e; Byte.x73; Byte.x6f; Byte.x63; Byte.x6b].

Context (configured : option (list byte)).   (* getenv("UGDR_DAEMON_SOCKET") *)

Definition socket_path : list byte :=
  match configured with Some (b :: path) => b :: path | _ => kDefaultDaemonSocket end.

Definition ensure_connected rt : Runtime D * Z :=
  if link_connected (client_ rt) then (rt, 0)
  else let '(l, status) := control_connect (client_ rt) socket_path in (with_client rt l, status).

Definition stale rt (epoch : Z) : bool := negb (epoch =? epoch_ (client_ rt)).

(** * Devices *)

Fixpoint add_devices rt (identities : list Z) : Runtime D * list Z :=
  match identities with
  | [] => (rt, [])
  | id :: identities =>
      let p := next_pointer_ rt in
      let rt := fresh (with_devices rt (<[p := mkDeviceProxy id (epoch_ (client_ rt)) true]> (devices_ rt))) in
      let '(rt, ps) := add_devices rt identities in (rt, p :: ps)
  end.

(** The pointer of the list and the pointers in it. *)
Definition get_device_list rt : Runtime D * result (Z * list Z) :=
  let '(rt, connect_status) := ensure_connected rt in
  if negb (connect_status =? 0) then (rt, Err connect_status)
  else
    let '(l, answer) := client_list_devices (client_ rt) in
    let rt := with_client rt l in
    match answer with
    | Err e => (rt, Err e)
    | Ok descriptors =>
        let '(rt, ps) := add_devices rt (DeviceContext.identity <$> descriptors) in
        let p := next_pointer_ rt in
        (fresh (with_lists rt (<[p := mkDeviceList ps true]> (lists_ rt))), Ok (p, ps))
    end.

Definition free_device_list rt (list : Z) : Runtime D * Z :=
  match lists_ rt !! list with
  | Some l =>
      if list_live l
      then (with_devices (with_lists rt (<[list := mkDeviceList (devices_of l) false]> (lists_ rt)))
              (foldl (λ m p, alter kill_device p m) (devices_ rt) (devices_of l)), 0)
      else (rt, EINVAL)
  | None => (rt, EINVAL)
  end.

Definition open_device rt (device : Z) : Runtime D * result Z :=
  match devices_ rt !! device with
  | None => (rt, Err EINVAL)
  | Some d =>
      if negb (device_live d) then (rt, Err EINVAL)
      else
        let '(rt, connect_status) := ensure_connected rt in
        if negb (connect_status =? 0) then (rt, Err connect_status)
        else if stale rt (device_epoch d)
        then (with_devices rt (<[device := kill_device d]> (devices_ rt)), Err EINVAL)
        else
          let '(l, created) := client_create_context (client_ rt) (catalog_identity d) in
          let rt := with_client rt l in
          match created with
          | Err e => (rt, Err e)
          | Ok id =>
              let p := next_pointer_ rt in
              (fresh (with_contexts rt (<[p := mkContextProxy id (epoch_ (client_ rt)) true]> (contexts_ rt))),
               Ok p)
          end
  end.

Definition close_device rt (context : Z) : Runtime D * Z :=
  match contexts_ rt !! context with
  | None => (rt, EINVAL)
  | Some c =>
      if negb (context_live c) then (rt, EINVAL)
      else
        let '(rt, connect_status) := ensure_connected rt in
        if negb (connect_status =? 0) then (rt, connect_status)
        else if stale rt (context_epoch c)
        then (with_contexts rt (<[context := kill_context c]> (contexts_ rt)), EINVAL)
        else
          let '(l, status) := client_destroy_context (client_ rt) (context_identity c) in
          let rt := with_client rt l in
          if negb (status =? 0) then (rt, status)
          else (with_contexts rt (<[context := kill_context c]> (contexts_ rt)), 0)
  end.

(** * Protection domains and memory regions *)

Definition alloc_pd rt (context : Z) : Runtime D * result Z :=
  match contexts_ rt !! context with
  | None => (rt, Err EINVAL)
  | Some c =>
      if negb (context_live c) then (rt, Err EINVAL)
      else
        let '(rt, connect_status) := ensure_connected rt in
        if negb (connect_status =? 0) then (rt, Err connect_status)
        else if stale rt (context_epoch c)
        then (with_contexts rt (<[context := kill_context c]> (contexts_ rt)), Err EINVAL)
        else
          let '(l, created) := client_create_pd (client_ rt) (context_identity c) in
          let rt := with_client rt l in
          match created with
          | Err e => (rt, Err e)
          | Ok id =>
              let p := next_pointer_ rt in
              (fresh (with_pds rt (<[p := mkPdProxy context id (epoch_ (client_ rt)) true]> (pds_ rt))), Ok p)
          end
  end.

Definition dealloc_pd rt (pd : Z) : Runtime D * Z :=
  match pds_ rt !! pd with
  | None => (rt, EINVAL)
  | Some p =>
      if negb (pd_live p) then (rt, EINVAL)
      else
        let '(rt, connect_status) := ensure_connected rt in
        if negb (connect_status =? 0) then (rt, connect_status)
        else if stale rt (pd_epoch p) then (with_pds rt (<[pd := kill_pd p]> (pds_ rt)), EINVAL)
        else
          let '(l, status) := client_destroy_pd (client_ rt) (pd_identity p) in
          let rt := with_client rt l in
          (if status =? 0 then with_pds rt (<[pd := kill_pd p]> (pds_ rt)) else rt, status)
  end.

(** The check of the access flags of [reg_mr]. *)
Definition bad_access (access : Z) : bool :=
  (access <? 0)
  || negb (Z.land access (U32_MAX - Z.lor kAccessLocalWrite kAccessRemoteWrite) =? 0)
  || negb (Z.land access kAccessRemoteWrite =? 0) && (Z.land access kAccessLocalWrite =? 0).

(** [export] is [gpu::export_cuda_memory]. *)
Definition reg_mr (export : Z → Z → result ExportedCudaMemory) rt (pd address len access : Z)
  : Runtime D * result Z :=
  match pds_ rt !! pd with
  | None => (rt, Err EINVAL)
  | Some p =>
      if negb (pd_live p) || (address =? 0) || (len =? 0) || bad_access access then (rt, Err EINVAL)
      else
        let '(rt, connect_status) := ensure_connected rt in
        if negb (connect_status =? 0) then (rt, Err connect_status)
        else if stale rt (pd_epoch p) then (with_pds rt (<[pd := kill_pd p]> (pds_ rt)), Err EINVAL)
        else if U32_MAX <? next_mr_handle_ rt then (rt, Err ENOSPC)
        else match export address len with
        | Err e => (rt, Err e)
        | Ok memory =>
            let '(l, registered) := client_register_mr (client_ rt) (pd_identity p) memory access in
            let rt := with_client rt l in
            match registered with
            | Err e => (rt, Err e)
            | Ok (id, accepted) =>
                let m := next_pointer_ rt in
                let v := mkMrValue (pd_of_context p) pd address len (next_mr_handle_ rt)
                           (res_lkey accepted) (res_rkey accepted) in
                (with_counters (with_mrs rt (<[m := mkMrProxy v id (epoch_ (client_ rt)) true]> (mrs_ rt)))
                   (next_pointer_ rt + 1) (next_mr_handle_ rt + 1), Ok m)
            end
        end
  end.

Definition dereg_mr rt (mr : Z) : Runtime D * Z :=
  match mrs_ rt !! mr with
  | None => (rt, EINVAL)
  | Some m =>
      if negb (mr_live m) then (rt, EINVAL)
      else
        let '(rt, connect_status) := ensure_connected rt in
        if negb (connect_status =? 0) then (rt, connect_status)
        else if stale rt (mr_epoch m) then (with_mrs rt (<[mr := kill_mr m]> (mrs_ rt)), EINVAL)
        else
          let '(l, status) := client_deregister_mr (client_ rt) (mr_identity m) in
          let rt := with_client rt l in
          (if status =? 0 then with_mrs rt (<[mr := kill_mr m]> (mrs_ rt)) else rt, status)
  end.

(** * Completion queues *)

Definition create_cq rt (context cqe cq_context channel comp_vector : Z) : Runtime D * result Z :=
  match contexts_ rt !! context with
  | None => (rt, Err EINVAL)
  | Some c =>
      if negb (context_live c) || (cqe <=? 0) || negb (channel =? 0) || negb (comp_vector =? 0)
      then (rt, Err EINVAL)
      else
        let '(rt, connect_status) := ensure_connected rt in
        if negb (connect_status =? 0) then (rt, Err connect_status)
        else if stale rt (context_epoch c)
        then (with_contexts rt (<[context := kill_context c]> (contexts_ rt)), Err EINVAL)
        else
          let '(l, created) := client_create_cq (client_ rt) (context_identity c) (u32 cqe) in
          let rt := with_client rt l in
          match created with
          | Err e => (rt, Err e)
          | Ok (id, ring) =>
              let p := next_pointer_ rt in
              (fresh (with_cqs rt (<[p := mkCqProxy context cq_context id (epoch_ (client_ rt)) cqe true ring]>
                 (cqs_ rt))), Ok p)
          end
  end.

Definition destroy_cq rt (cq : Z) : Runtime D * Z :=
  match cqs_ rt !! cq with
  | None => (rt, EINVAL)
  | Some c =>
      if negb (cq_live c) then (rt, EINVAL)
      else
        let '(rt, connect_status) := ensure_connected rt in
        if negb (connect_status =? 0) then (rt, connect_status)
        else if stale rt (cq_epoch c) then (drop_cq_ring rt cq c, EINVAL)
        else
          let '(l, status) := client_destroy_cq (client_ rt) (cq_identity c) in
          let rt := with_client rt l in
          (if status =? 0 then drop_cq_ring rt cq c else rt, status)
  end.

(** [poll_cq], on the shared region of the queue: the new region, the completions
    written and the return value. *)
Definition runtime_poll_cq rt (cq : Z) (g : CompletionQueue.Region) (num_entries : Z)
  : Runtime D * CompletionQueue.Region * list CompletionQueue.ugdr_wc * Z :=
  if num_entries <? 0 then (rt, g, [], - EINVAL)
  else match cqs_ rt !! cq with
  | None => (rt, g, [], - EINVAL)
  | Some c =>
      let '(ring, g, wcs, n) := CompletionQueue.poll_cq (cq_live c) (cq_ring c) g num_entries in
      (with_cqs rt (<[cq := set_cq_ring ring c]> (cqs_ rt)), g, wcs, n)
  end.

(** * Queue pairs *)

(** The attributes the application may ask for. *)
Definition valid_init_attr (a : ugdr_qp_init_attr) : bool :=
  negb (ia_max_send_wr a =? 0) && negb (ia_max_recv_wr a =? 0) && negb (ia_max_send_sge a =? 0)
  && negb (ia_max_recv_sge a =? 0) && (ia_qp_type a =? UGDR_QPT_RC)
  && ((ia_sq_sig_all a =? 0) || (ia_sq_sig_all a =? 1)).

Definition create_attributes (a : ugdr_qp_init_attr) (send_cq recv_cq : ugdr_cq) : QpCreateAttributes :=
  mkCreate (cq_identity send_cq) (cq_identity recv_cq) (ia_max_send_wr a) (ia_max_recv_wr a)
    (ia_max_send_sge a) (ia_max_recv_sge a) (u32 (ia_qp_type a)) (u32 (ia_sq_sig_all a)).

Definition create_qp rt (pd : Z) (a : ugdr_qp_init_attr) : Runtime D * result Z :=
  match pds_ rt !! pd, cqs_ rt !! ia_send_cq a, cqs_ rt !! ia_recv_cq a with
  | Some p, Some sc, Some rc =>
      if negb (pd_live p) || negb (cq_live sc) || negb (cq_live rc)
         || negb (pd_of_context p =? cq_of_context sc) || negb (pd_of_context p =? cq_of_context rc)
         || negb (valid_init_attr a)
      then (rt, Err EINVAL)
      else
        let '(rt, connect_status) := ensure_connected rt in
        if negb (connect_status =? 0) then (rt, Err connect_status)
        else
          let epoch := epoch_ (client_ rt) in
          if stale rt (pd_epoch p) || stale rt (cq_epoch sc) || stale rt (cq_epoch rc)
          then
            (with_cqs (with_pds rt (<[pd := kill_pd p]> (pds_ rt)))
               (alter kill_cq (ia_recv_cq a) (alter kill_cq (ia_send_cq a) (cqs_ rt))), Err EINVAL)
          else
            let '(l, created) := client_create_qp (client_ rt) (pd_identity p) (create_attributes a sc rc) in
            let rt := with_client rt l in
            match created with
            | Err e => (rt, Err e)
            | Ok (id, sq, rq) =>
                let q := next_pointer_ rt in
                (fresh (with_qps rt
                   (<[q := mkQpProxy pd a id epoch UGDR_QPS_RESET true sq rq]> (qps_ rt))), Ok q)
            end
  | _, _, _ => (rt, Err EINVAL)
  end.

(** The guards shared by the calls on a queue pair: known, live, connected, of the
    current connection. *)
Definition with_live_qp rt (qp : Z) (f : Runtime D → ugdr_qp → Runtime D * Z) : Runtime D * Z :=
  match qps_ rt !! qp with
  | None => (rt, EINVAL)
  | Some q =>
      if negb (qp_live q) then (rt, EINVAL)
      else
        let '(rt, connect_status) := ensure_connected rt in
        if negb (connect_status =? 0) then (rt, connect_status)
        else if stale rt (qp_epoch q) then (drop_qp_rings rt qp q, EINVAL)
        else f rt q
  end.

Definition destroy_qp rt (qp : Z) : Runtime D * Z :=
  with_live_qp rt qp (λ rt q,
    let '(l, status) := client_destroy_qp (client_ rt) (qp_identity q) in
    let rt := with_client rt l in
    (if status =? 0 then drop_qp_rings rt qp q else rt, status)).

Definition modify_qp rt (qp : Z) (a : ugdr_qp_attr) (attr_mask : Z) : Runtime D * Z :=
  if attr_mask <? 0 then (rt, EINVAL)
  else with_live_qp rt qp (λ rt q,
    let attributes := mkAttributes (u32 (at_state a)) (u32 (at_cur_state a)) (u32 (at_access a))
                        (at_timeout a) (at_retry_cnt a) (at_rnr_retry a) (at_min_rnr_timer a) in
    let '(l, status) := client_modify_qp (client_ rt) (qp_identity q) attributes attr_mask in
    let rt := with_client rt l in
    (if (status =? 0) && negb (Z.land attr_mask kQpMaskState =? 0)
     then with_qps rt (<[qp := set_cached (at_state a) q]> (qps_ rt)) else rt, status)).

(** The fields of [attr] that the mask asks for, from the snapshot. *)
Definition masked (attr_mask bit new old : Z) : Z := if Z.land attr_mask bit =? 0 then old else new.
Definition queried_attr (a : ugdr_qp_attr) (attr_mask : Z) (s : QpAttributes) : ugdr_qp_attr :=
  mkQpAttr (masked attr_mask kQpMaskState (state s) (at_state a))
    (masked attr_mask kQpMaskCurrentState (current_state s) (at_cur_state a))
    (masked attr_mask kQpMaskAccess (access_flags s) (at_access a))
    (masked attr_mask kQpMaskTimeout (timeout s) (at_timeout a))
    (masked attr_mask kQpMaskRetryCount (retry_count s) (at_retry_cnt a))
    (masked attr_mask kQpMaskRnrRetry (rnr_retry s) (at_rnr_retry a))
    (masked attr_mask kQpMaskMinRnrTimer (min_rnr_timer s) (at_min_rnr_timer a)).
Definition queried_init_attr (a : ugdr_qp_init_attr) (c : QpCreateAttributes) : ugdr_qp_init_attr :=
  mkInitAttr (ia_send_cq a) (ia_recv_cq a) (max_send_wr c) (max_recv_wr c) (max_send_sge c)
    (max_recv_sge c) (qp_type c) (sq_sig_all c).

(** The status and, when it is 0, what is written to [attr] and [init_attr]. *)
Definition query_qp rt (qp : Z) (a : ugdr_qp_attr) (attr_mask : Z)
  : Runtime D * Z * option (ugdr_qp_attr * ugdr_qp_init_attr) :=
  if attr_mask <? 0 then (rt, EINVAL, None)
  else match qps_ rt !! qp with
  | None => (rt, EINVAL, None)
  | Some q =>
      if negb (qp_live q) then (rt, EINVAL, None)
      else
        let '(rt, connect_status) := ensure_connected rt in
        if negb (connect_status =? 0) then (rt, connect_status, None)
        else if stale rt (qp_epoch q) then (drop_qp_rings rt qp q, EINVAL, None)
        else
          let '(l, answer) := client_query_qp (client_ rt) (qp_identity q) attr_mask in
          let rt := with_client rt l in
          match answer with
          | Err e => (rt, e, None)
          | Ok snapshot =>
              let result := queried_attr a attr_mask (attributes snapshot) in
              let rt := if Z.land attr_mask kQpMaskState =? 0 then rt
                        else with_qps rt (<[qp := set_cached (at_state result) q]> (qps_ rt)) in
              (rt, 0, Some (result, queried_init_attr (init_attr q) (creation snapshot)))
          end
  end.

(** The status and the number of the queue pair. *)
Definition query_qp_conn_info rt (qp : Z) : Runtime D * result Z :=
  match qps_ rt !! qp with
  | None => (rt, Err EINVAL)
  | Some q =>
      if negb (qp_live q) then (rt, Err EINVAL)
      else
        let '(rt, connect_status) := ensure_connected rt in
        if negb (connect_status =? 0) then (rt, Err connect_status)
        else if stale rt (qp_epoch q) then (drop_qp_rings rt qp q, Err EINVAL)
        else
          let '(l, answer) := client_query_qp_conn_info (client_ rt) (qp_identity q) in
          (with_client rt l, answer)
  end.

Definition connect_qp rt (qp remote_qp_num : Z) (a : ugdr_qp_attr) (attr_mask : Z) : Runtime D * Z :=
  if (attr_mask <? 0) || (remote_qp_num =? 0) then (rt, EINVAL)
  else with_live_qp rt qp (λ rt q,
    let attributes := mkAttributes 0 0 0 (at_timeout a) (at_retry_cnt a) (at_rnr_retry a) (at_min_rnr_timer a) in
    let '(l, status) := client_connect_qp (client_ rt) (qp_identity q) remote_qp_num attributes attr_mask in
    let rt := with_client rt l in
    (if status =? 0 then with_qps rt (<[qp := set_cached UGDR_QPS_RTS q]> (qps_ rt)) else rt, status)).

(** ** Posting *)

(** [post_send] of a chain that is not empty, on the slots of the send queue: the status
    and the first request that was not posted. *)
Definition post_send rt (qp : Z) (loads : nat → RingLoads) (slots : list (list byte))
    (chain : list WrPosting.ugdr_send_wr)
  : option (Runtime D * list (list byte) * list Z * Z * option (list WrPosting.ugdr_send_wr)) :=
  let rejected := Some (rt, slots, [], EINVAL, Some chain) in
  match qps_ rt !! qp with
  | None => rejected
  | Some q =>
      if negb (qp_live q) || negb (cached_state q =? UGDR_QPS_RTS) then rejected
      else
        posted ← WrPosting.post_send_chain loads (qp_send q) slots (ia_max_send_sge (init_attr q)) chain;
        Some (with_qps rt (<[qp := set_qp_rings (WrPosting.posted_ring posted) (qp_receive q) q]> (qps_ rt)),
              WrPosting.posted_slots posted, WrPosting.posted_stores posted,
              WrPosting.posted_status posted, WrPosting.bad_wr posted)
  end.

Definition post_receive rt (qp : Z) (loads : nat → RingLoads) (slots : list (list byte))
    (chain : list WrPosting.ugdr_recv_wr)
  : option (Runtime D * list (list byte) * list Z * Z * option (list WrPosting.ugdr_recv_wr)) :=
  let rejected := Some (rt, slots, [], EINVAL, Some chain) in
  match qps_ rt !! qp with
  | None => rejected
  | Some q =>
      if negb (qp_live q)
         || negb (bool_decide (cached_state q ∈ [UGDR_QPS_INIT; UGDR_QPS_RTR; UGDR_QPS_RTS]))
      then rejected
      else
        posted ← WrPosting.post_receive_chain loads (qp_receive q) slots (ia_max_recv_sge (init_attr q)) chain;
        Some (with_qps rt (<[qp := set_qp_rings (qp_send q) (WrPosting.posted_ring posted) q]> (qps_ rt)),
              WrPosting.posted_slots posted, WrPosting.posted_stores posted,
              WrPosting.posted_status posted, WrPosting.bad_wr posted)
  end.

End Runtime.
End ClientRuntime.
