(* ===== verification/ClientHandles.v ===== *)
(** What a client's handles mean to the daemon: in every state that calls of the client
    library, and whatever other clients do, can lead to, a live handle of the current
    connection names a live object of the daemon that belongs to this client's session.

    The client is proved against the interface [ControlPeer]: an answered call is the
    daemon's answer to it. *)

From S2P Require Import Prelude Wire ObjectIdentity SharedRing Descriptors Protocol Adapter IpcSession.
From S2P Require Import Control DeviceContext PdMrCq Qp ControlSpec ControlRefine ControlPlane.
From S2P Require Import ClientControl ClientRuntime.
Import Wire Descriptors Protocol Adapter Control CudaIpc PdMrCq Qp DeviceContext ControlSpec ControlRefine
  ControlHandlers ControlPlane ClientControl.

(** The daemon at the other end of a link: its control service, and the session of the
    connection. *)
Class ControlPeer (D M : Type) `{IpcPeer D} `{CudaIpcMemoryLaws M} := {
  peer_service : D → QpService M;
  peer_session : D → Z;
  peer_inv : D → Prop;
  peer_inv_service : ∀ d, peer_inv d → inv (peer_service d);
  peer_answer : ∀ (l l' : Link D) r value fds, peer_inv (peer l) →
    link_connected l = true → request_ok r → control_call l r = (l', Ok (value, fds)) →
    peer_session (peer l') = peer_session (peer l) ∧
    ∃ res, qp_handle (peer_service (peer l)) (peer_session (peer l)) r [] = (peer_service (peer l'), res) ∧
      rs_status value = rs_status (response res) ∧
      rs_object_identity value = rs_object_identity (response res) ∧
      rs_opaque value = rs_opaque (response res) ∧ rs_fd_indices value = rs_fd_indices (response res);
  peer_next_inv : ∀ d p, peer_inv d → peer_inv (peer_next d p);
  peer_dial_inv : ∀ d path, peer_inv d → peer_inv (dial d path).1.1;
  peer_dial_fd : ∀ d path fd, peer_inv d → (dial d path).1.2 = Ok fd → 0 <= fd;
  peer_dial_error : ∀ d path e, peer_inv d → (dial d path).1.2 = Err e → e ≠ 0;
}.

Module ClientHandles.

(** * Objects of a session *)

Inductive Kind : Set := a_context | a_pd | an_mr | a_cq | a_qp.
#[export] Instance Kind_eq_dec : EqDecision Kind.
Proof. solve_decision. Defined.

Definition owners {V} (m : gmap Z (Z * V)) (id : Z) : option Z := fst <$> m !! id.

(** The session that owns the object of this kind and identity. *)
Definition owner (t : Tables) (k : Kind) (id : Z) : option Z :=
  match k with
  | a_context => owners (ctxs t) id
  | a_pd => owners (pds t) id
  | an_mr => owners (mrs t) id
  | a_cq => owners (cqs t) id
  | a_qp => owners (qps t) id
  end.

(** What a method that succeeds creates and destroys. *)
Definition creates (m : ControlMethod) : option Kind :=
  match m with
  | create_context => Some a_context | create_pd => Some a_pd | register_mr => Some an_mr
  | create_cq => Some a_cq | create_qp => Some a_qp | _ => None
  end.
Definition destroys (m : ControlMethod) : option Kind :=
  match m with
  | destroy_context => Some a_context | destroy_pd => Some a_pd | deregister_mr => Some an_mr
  | destroy_cq => Some a_cq | destroy_qp => Some a_qp | _ => None
  end.

(** The objects of session [s] are still there, [gone] apart. *)
Definition survives (s : Z) (gone : option (Kind * Z)) (t t' : Tables) : Prop :=
  ∀ k id, owner t k id = Some s → gone ≠ Some (k, id) → owner t' k id = Some s.

Lemma owners_insert {V} (m : gmap Z (Z * V)) i o v id :
  owners (<[i := (o, v)]> m) id = if decide (i = id) then Some o else owners m id.
Proof.
  unfold owners. case_decide as E; [subst; by rewrite lookup_insert_eq|by rewrite lookup_insert_ne].
Qed.
Lemma owners_delete {V} (m : gmap Z (Z * V)) i id :
  owners (delete i m) id = if decide (i = id) then None else owners m id.
Proof.
  unfold owners. case_decide as E; [subst; by rewrite lookup_delete_eq|by rewrite lookup_delete_ne].
Qed.
Lemma owners_upd {V} (f : V → V) (m : gmap Z (Z * V)) i id : owners (upd f i m) id = owners m id.
Proof.
  unfold owners, upd. destruct (decide (i = id)) as [->|Hne].
  - rewrite lookup_alter_eq. by destruct (m !! id) as [[]|].
  - by rewrite lookup_alter_ne.
Qed.

Ltac owner_simpl :=
  cbn [owner ctxs pds mrs cqs qps set_ctxs set_pds set_mrs set_cqs set_qps set_nums set_counters
       bump_ctx bump_qp] in *;
  rewrite ?owners_upd, ?owners_insert, ?owners_delete in *.

Lemma action_survives s m object id t t' :
  action s m object id t t' →
  survives s ((λ k, (k, object)) <$> destroys m) t t' ∧
  (∀ k, creates m = Some k → owner t k id = None ∧ owner t' k id = Some s).
Proof.
  intros Ha. split.
  - intros k i Hi Hne. inversion Ha; subst; destruct k; owner_simpl; try done;
      repeat case_decide; subst; try done; by destruct (_ =? _); rewrite !owners_upd.
  - intros k Hk. inversion Ha; subst; cbn in Hk; try done; injection Hk as <-; owner_simpl;
      rewrite decide_True by done; (split; [|done]); unfold owners;
      by match goal with E : _ !! _ = None |- _ => rewrite E end.
Qed.

(** * Links *)

Section Links.
Context {D M : Type} `{!IpcPeer D} `{!CudaIpcMemoryBackend M} `{!CudaIpcMemoryLaws M} `{!ControlPeer D M}.
Implicit Types (l : Link D) (r : UgdrControlRequest).

Definition daemon_tables l : Tables := tables (peer_service (peer l)).
Definition link_session l : Z := peer_session (peer l).

(** The service stays sound; while the connection lasts, the session and its objects
    stay, [gone] apart. *)
Record keeps_link (gone : option (Kind * Z)) l l' : Prop := {
  kl_inv : peer_inv (peer l');
  kl_epoch : epoch_ l' = epoch_ l;
  kl_objects : link_connected l' = true →
    link_session l' = link_session l ∧ survives (link_session l) gone (daemon_tables l) (daemon_tables l');
}.

Lemma survives_refl s gone t : survives s gone t t.
Proof. by intros k id. Qed.

Lemma keeps_refl gone l : peer_inv (peer l) → keeps_link gone l l.
Proof. split; [done..|]. intros _. split; [done|apply survives_refl]. Qed.

Lemma keeps_closed gone l l' :
  peer_inv (peer l') → epoch_ l' = epoch_ l → link_connected l' = false → keeps_link gone l l'.
Proof. intros Hi He Hc. split; [done..|congruence]. Qed.

Lemma closed_disconnected l : link_connected (control_close l) = false.
Proof. done. Qed.

Lemma survives_unchanged s t t' : unchanged t t' → survives s None t t'.
Proof. intros (k & n & -> & _) kd id Hid _. by destruct kd. Qed.

(** An answered call keeps the connection and does what the daemon's answer says;
    otherwise nothing was sent or the connection is closed. *)
Lemma control_call_outcome l l' r answer :
  peer_inv (peer l) → link_connected l = true → request_ok r →
  control_call l r = (l', answer) →
  peer_inv (peer l') ∧ epoch_ l' = epoch_ l ∧
  match answer with
  | Err _ => l' = l ∨ link_connected l' = false
  | Ok (value, fds) =>
      link_connected l' = true ∧ link_session l' = link_session l ∧
      ∃ res, qp_handle (peer_service (peer l)) (link_session l) r [] = (peer_service (peer l'), res) ∧
        outcome (link_session l) r (peer_service (peer l)) (peer_service (peer l')) res ∧
        rs_status value = rs_status (response res) ∧
        rs_object_identity value = rs_object_identity (response res) ∧
        rs_opaque value = rs_opaque (response res) ∧ rs_fd_indices value = rs_fd_indices (response res)
  end.
Proof.
  intros Hi Hc Hr Hcall. pose proof (λ v f, peer_answer l l' r v f Hi) as Hlaw. revert Hcall Hlaw.
  unfold control_call. destruct (encode_request r []) as [encoded|e]; [|intros [= <- <-] _; by eauto].
  unfold IpcSession.call. fold (link_connected l). rewrite Hc.
  pose proof (peer_next_inv (M := M)) as Hnext. cbn [negb andb].
  destruct (rq_method r =? 0) eqn:Em; cbn [negb].
  { intros [= <- <-] _. split_and!; [done|done|by right]. }
  set (p := send_packet _).
  destruct (send_message _ _ _) as [st sent]. destruct (negb (st =? 0)).
  { intros [= <- <-] _. split_and!; [by apply Hnext|done|by right]. }
  destruct (receive_message _ _) as [[m| |e] closed];
    [|intros [= <- <-] _; (split_and!; [by apply Hnext|done|by right])..].
  destruct (_ || _ || _); [intros [= <- <-] _; (split_and!; [by apply Hnext|done|by right])|].
  destruct (decode_response m) as [[value fds]|e]; [|intros [= <- <-] _; (split_and!; [by apply Hnext|done|by right])].
  destruct (_ || _); [intros [= <- <-] _; (split_and!; [by apply Hnext|done|by right])|].
  intros [= <- <-] Hlaw. split_and!; [by apply Hnext|done|exact Hc|..].
  - by destruct (Hlaw value fds eq_refl Hr eq_refl) as [? _].
  - destruct (Hlaw value fds eq_refl Hr eq_refl) as [_ (res & Hq & E)]. exists res. split; [exact Hq|].
    split; [|exact E]. pose proof (handle_outcome (link_session l) r [] _ (peer_inv_service _ Hi) Hr) as Ho.
    unfold link_session in *. rewrite Hq in Ho. exact Ho.
Qed.

Lemma outcome_keeps l l' r res :
  peer_inv (peer l') → epoch_ l' = epoch_ l → link_session l' = link_session l →
  outcome (link_session l) r (peer_service (peer l)) (peer_service (peer l')) res →
  keeps_link (if rs_status (response res) =? 0
              then (λ k, (k, rq_object_identity r)) <$> destroys (method_of_code (rq_method r)) else None) l l'.
Proof.
  intros Hi He Hs [_ _ _ _ Heff]. split; [done|done|]. intros _. split; [done|].
  destruct (_ =? 0); [by apply (action_survives _ _ _ _ _ _ Heff)|by apply survives_unchanged].
Qed.

(** ** Calls without descriptors *)

Lemma plain_outcome l l' r answer :
  peer_inv (peer l) → link_connected l = true → request_ok r →
  control_call_plain l r = (l', answer) →
  peer_inv (peer l') ∧ epoch_ l' = epoch_ l ∧
  match answer with
  | Err _ => l' = l ∨ link_connected l' = false
  | Ok value =>
      link_connected l' = true ∧ link_session l' = link_session l ∧
      ∃ res, qp_handle (peer_service (peer l)) (link_session l) r [] = (peer_service (peer l'), res) ∧
        outcome (link_session l) r (peer_service (peer l)) (peer_service (peer l')) res ∧
        rs_status value = rs_status (response res) ∧
        rs_object_identity value = rs_object_identity (response res) ∧
        rs_opaque value = rs_opaque (response res) ∧ rs_fd_indices value = rs_fd_indices (response res)
  end.
Proof.
  intros Hi Hc Hr. unfold control_call_plain.
  destruct (control_call l r) as [l1 [[value fds]|e]] eqn:E;
    pose proof (control_call_outcome _ _ _ _ Hi Hc Hr E) as (Hi1 & He1 & Ho).
  - case_decide; intros [= <- <-]; [done|]. split_and!; [done|done|by right].
  - by intros [= <- <-].
Qed.

(** A new object: fresh, of this session, and the connection still open. *)
Definition made (k : Kind) l l' (id : Z) : Prop :=
  link_connected l' = true ∧ is_u64 id ∧ owner (daemon_tables l) k id = None ∧
  owner (daemon_tables l') k id = Some (link_session l).

Lemma outcome_made l l' r res k :
  link_connected l' = true →
  outcome (link_session l) r (peer_service (peer l)) (peer_service (peer l')) res →
  rs_status (response res) = 0 → creates (method_of_code (rq_method r)) = Some k →
  made k l l' (rs_object_identity (response res)).
Proof.
  intros Hc [_ _ Hu _ Heff] Hst Hk. rewrite Hst in Heff. split_and!; [done|done|..];
    by apply (action_survives _ _ _ _ _ _ Heff).
Qed.

Lemma plain_keeps l l' r answer :
  peer_inv (peer l) → link_connected l = true → request_ok r →
  destroys (method_of_code (rq_method r)) = None →
  control_call_plain l r = (l', answer) → keeps_link None l l'.
Proof.
  intros Hi Hc Hr Hd E. apply plain_outcome in E as (Hi' & He & Ho); [|done..].
  destruct answer as [value|e].
  - destruct Ho as (_ & Hs & res & _ & Hout & _). pose proof (outcome_keeps _ _ _ _ Hi' He Hs Hout) as K.
    rewrite Hd in K. by destruct (_ =? 0).
  - destruct Ho as [->|Hcl]; [by apply keeps_refl|by apply keeps_closed].
Qed.

Lemma plain_creates l l' r value k :
  peer_inv (peer l) → link_connected l = true → request_ok r →
  creates (method_of_code (rq_method r)) = Some k →
  control_call_plain l r = (l', Ok value) → rs_status value = 0 → made k l l' (rs_object_identity value).
Proof.
  intros Hi Hc Hr Hk E Hst. apply plain_outcome in E as (Hi' & He & Hc' & Hs & res & _ & Hout & E1 & E2 & _); [|done..].
  rewrite E2. eapply outcome_made; [done|done|congruence|done].
Qed.

Lemma object_request_ok m id : is_u64 id → request_ok (object_request m id).
Proof. intros Hid. split; cbn; [done|ulia|ulia|constructor]. Qed.
Lemma payload_request_ok m id opaque : is_u64 id → request_ok (payload_request m id opaque).
Proof. intros Hid. split; cbn; [done|ulia|ulia|constructor]. Qed.

(** ** Creating objects *)

Definition creates_object (k : Kind) l l' (res : result Z) : Prop :=
  keeps_link None l l' ∧ ∀ id, res = Ok id → made k l l' id.

Lemma call_identity_creates l l' r t k res :
  peer_inv (peer l) → link_connected l = true → request_ok r →
  creates (method_of_code (rq_method r)) = Some k → destroys (method_of_code (rq_method r)) = None →
  call_identity l r t = (l', res) → creates_object k l l' res.
Proof.
  intros Hi Hc Hr Hk Hd. unfold call_identity.
  destruct (control_call_plain l r) as [l1 [value|e]] eqn:E; pose proof (plain_keeps _ _ _ _ Hi Hc Hr Hd E) as K;
    [|by intros [= <- <-]].
  destruct (negb (rs_status value =? 0)) eqn:Es; [by intros [= <- <-]|]. bool_hyps.
  destruct (_ || _ || _); [by intros [= <- <-]|]. intros [= <- <-]. split; [done|]. intros id [= <-].
  by eapply plain_creates.
Qed.

Lemma create_context_creates l l' device res :
  peer_inv (peer l) → link_connected l = true → is_u64 device →
  client_create_context l device = (l', res) → creates_object a_context l l' res.
Proof.
  intros Hi Hc Hu. unfold client_create_context. destruct (device =? 0).
  { intros [= <- <-]. split; [by apply keeps_refl|done]. }
  pose proof (object_request_ok create_context device Hu) as Hr.
  destruct (control_call_plain l _) as [l1 [value|e]] eqn:E;
    pose proof (plain_keeps _ _ _ _ Hi Hc Hr eq_refl E) as K; [|by intros [= <- <-]].
  destruct (negb (rs_status value =? 0)) eqn:Es; [by intros [= <- <-]|]. bool_hyps.
  destruct (negb _); [by intros [= <- <-]|]. intros [= <- <-]. split; [done|]. intros id [= <-].
  by eapply (plain_creates _ _ _ _ a_context Hi Hc Hr eq_refl).
Qed.

Lemma create_pd_creates l l' context res :
  peer_inv (peer l) → link_connected l = true → is_u64 context →
  client_create_pd l context = (l', res) → creates_object a_pd l l' res.
Proof.
  intros Hi Hc Hu. unfold client_create_pd. destruct (context =? 0).
  { intros [= <- <-]. split; [by apply keeps_refl|done]. }
  by apply call_identity_creates; [..|apply object_request_ok|done|done].
Qed.

Lemma register_mr_creates l l' pd_identity m access res :
  peer_inv (peer l) → link_connected l = true → is_u64 pd_identity → is_u32 access →
  is_u64 (CudaIpc.length_ m) → client_register_mr l pd_identity m access = (l', res) →
  creates_object an_mr l l' (fst <$> res).
Proof.
  intros Hi Hc Hu Ha Hl. unfold client_register_mr. destruct (_ || _ || _).
  { intros [= <- <-]. split; [by apply keeps_refl|done]. }
  case_decide. { intros [= <- <-]. split; [by apply keeps_refl|done]. }
  assert (request_ok (make_register_mr_request pd_identity m access)) as Hr.
  { split; cbn; [done|done|done|constructor]. }
  destruct (control_call_plain l _) as [l1 [value|e]] eqn:E;
    pose proof (plain_keeps _ _ _ _ Hi Hc Hr eq_refl E) as K; [|by intros [= <- <-]].
  destruct (negb (rs_status value =? 0)) eqn:Es; [by intros [= <- <-]|]. bool_hyps.
  destruct (_ || _); [by intros [= <- <-]|].
  destruct (decode_mr_registration_result _) as [decoded|e]; [|by intros [= <- <-]].
  destruct (_ || _); [by intros [= <- <-]|]. intros [= <- <-]. split; [done|]. intros id [= <-].
  by eapply (plain_creates _ _ _ _ an_mr Hi Hc Hr eq_refl).
Qed.

(** ** Destroying objects *)

(** The daemon's answer to a request that destroys carries nothing. *)
Lemma destroy_answer_empty (svc svc' : QpService M) session r fds res k :
  destroys (method_of_code (rq_method r)) = Some k → qp_handle svc session r fds = (svc', res) →
  rs_opaque (response res) = [] ∧ rs_fd_indices (response res) = [].
Proof.
  intros Hk E. assert (∃ st, res = response_for r st) as (st & ->); [|done].
  unfold qp_handle, pd_handle, device_handle, handle_destroy_qp, handle_destroy_pd, handle_destroy_cq,
    handle_deregister_mr, close_mapping in E.
  destruct (method_of_code (rq_method r)); try discriminate Hk;
    repeat case_match; simplify_eq; by eexists.
Qed.

Lemma keeps_gone gone l l' : keeps_link None l l' → keeps_link gone l l'.
Proof.
  intros [K1 K2 K3]. split; [done..|]. intros Hc. destruct (K3 Hc) as [K4 K5]. split; [done|].
  intros kd id Hid _. by apply K5.
Qed.

Definition destroys_object (k : Kind) (id : Z) l l' (st : Z) : Prop :=
  keeps_link (if st =? 0 then Some (k, id) else None) l l'.

Lemma destroyed_outcome l l' r res k st :
  peer_inv (peer l') → epoch_ l' = epoch_ l → link_session l' = link_session l →
  outcome (link_session l) r (peer_service (peer l)) (peer_service (peer l')) res →
  destroys (method_of_code (rq_method r)) = Some k →
  (rs_status (response res) = 0 → st = 0) → destroys_object k (rq_object_identity r) l l' st.
Proof.
  intros Hi He Hs Hout Hk Hst. pose proof (outcome_keeps _ _ _ _ Hi He Hs Hout) as K. rewrite Hk in K.
  unfold destroys_object. destruct (rs_status (response res) =? 0) eqn:E; bool_hyps.
  - rewrite (Hst E). exact K.
  - by apply keeps_gone.
Qed.

Lemma call_destroy_destroys l l' r k st :
  peer_inv (peer l) → link_connected l = true → request_ok r →
  destroys (method_of_code (rq_method r)) = Some k →
  call_destroy l r = (l', st) → destroys_object k (rq_object_identity r) l l' st.
Proof.
  intros Hi Hc Hr Hk. unfold call_destroy.
  destruct (control_call_plain l r) as [l1 [value|e]] eqn:E; apply plain_outcome in E as (Hi1 & He1 & Ho); try done.
  - destruct Ho as (Hc1 & Hs1 & res & Hq & Hout & E1 & E2 & E3 & E4).
    destruct (destroy_answer_empty _ _ _ _ _ _ _ Hk Hq) as [O1 O2].
    assert (rs_status (response res) = 0 → rs_object_identity (response res) = 0) as O3.
    { intros Hz. destruct Hout as [_ _ _ _ Heff]. rewrite Hz in Heff. cbn in Heff.
      inversion Heff; try done; by match goal with H : _ = method_of_code _ |- _ => rewrite <- H in Hk end. }
    destruct (_ && _) eqn:Eb; intros [= <- <-]; eapply destroyed_outcome; try done.
    + intros Hz. exfalso. rewrite E2, E3, E4, O1, O2, (O3 Hz) in Eb. by rewrite andb_false_r in Eb.
    + intros Hz. congruence.
  - intros [= <- <-]. destruct Ho as [->|Hcl]; [by apply keeps_refl|by apply keeps_closed].
Qed.

Lemma destroy_context_destroys l l' id st :
  peer_inv (peer l) → link_connected l = true → is_u64 id →
  client_destroy_context l id = (l', st) → destroys_object a_context id l l' st.
Proof.
  intros Hi Hc Hu. unfold client_destroy_context. destruct (id =? 0).
  { intros [= <- <-]. by apply keeps_refl. }
  pose proof (object_request_ok destroy_context id Hu) as Hr.
  destruct (control_call_plain l _) as [l1 [value|e]] eqn:E; apply plain_outcome in E as (Hi1 & He1 & Ho); try done.
  - destruct Ho as (Hc1 & Hs1 & res & Hq & Hout & E1 & _). intros [= <- <-].
    eapply (destroyed_outcome _ _ (make_destroy_context_request id)); try done. congruence.
  - intros [= <- <-]. destruct Ho as [->|Hcl]; [by apply keeps_refl|by apply keeps_closed].
Qed.

(** The other destroying calls share one shape. *)
Lemma guarded_destroy l l' r id k st :
  peer_inv (peer l) → link_connected l = true → request_ok r → rq_object_identity r = id →
  destroys (method_of_code (rq_method r)) = Some k →
  (if id =? 0 then (l, EINVAL) else call_destroy l r) = (l', st) → destroys_object k id l l' st.
Proof.
  intros Hi Hc Hr <- Hk. destruct (_ =? 0); [intros [= <- <-]; by apply keeps_refl|].
  by apply call_destroy_destroys.
Qed.

(** ** Creating queues *)

Lemma keeps_trans_created k id l l1 l2 :
  keeps_link None l l1 → made k l l1 id → keeps_link (Some (k, id)) l1 l2 → keeps_link None l l2.
Proof.
  intros [I1 E1 O1] (Hc1 & _ & Hn & _) [I2 E2 O2]. split; [done|congruence|]. intros Hc2.
  destruct (O1 Hc1) as [S1 V1]. destruct (O2 Hc2) as [S2 V2]. split; [congruence|].
  intros kd i Hi _. rewrite S1 in V2. apply V2; [by apply V1|]. intros [= -> ->]. congruence.
Qed.

Lemma keeps_kernel gone l l' k : keeps_link gone l l' → keeps_link gone l (with_client_kernel l' k).
Proof. intros []. by split. Qed.

(** Undoing a creation leaves the objects there were. *)
Lemma undo_keeps k id l l1 l2 st :
  keeps_link None l l1 → made k l l1 id → destroys_object k id l1 l2 st → keeps_link None l l2.
Proof.
  intros K1 Hm K2. eapply keeps_trans_created; [done|done|]. unfold destroys_object in K2.
  destruct (st =? 0); [done|by apply keeps_gone].
Qed.

(** The call that creates a queue, with its descriptors. *)
Lemma call_creates l l1 r k answer :
  peer_inv (peer l) → link_connected l = true → request_ok r →
  creates (method_of_code (rq_method r)) = Some k → destroys (method_of_code (rq_method r)) = None →
  control_call l r = (l1, answer) →
  keeps_link None l l1 ∧
  ∀ value fds, answer = Ok (value, fds) → rs_status value = 0 → made k l l1 (rs_object_identity value).
Proof.
  intros Hi Hc Hr Hk Hd E. apply control_call_outcome in E as (Hi1 & He1 & Ho); [|done..].
  destruct answer as [[value fds]|e].
  - destruct Ho as (Hc1 & Hs1 & res & _ & Hout & E1 & E2 & _).
    pose proof (outcome_keeps _ _ _ _ Hi1 He1 Hs1 Hout) as K. rewrite Hd in K. split; [by destruct (_ =? 0)|].
    intros v f [= <- <-] Hst. rewrite E2. eapply outcome_made; [done|done|congruence|done].
  - split; [|done]. destruct Ho as [->|Hcl]; [by apply keeps_refl|by apply keeps_closed].
Qed.

(** What follows once the daemon has created the queue: [undo] or keep it. *)
Lemma undone {A} k id l l1 l2 (destroy : Link D → Z → Link D * Z) (e : Z) (res : result (Z * A)) :
  (∀ l l', peer_inv (peer l) → link_connected l = true → is_u64 id →
     l' = (destroy l id).1 → ∃ st, destroys_object k id l l' st) →
  keeps_link None l l1 → made k l l1 id →
  ((destroy l1 id).1, Err e) = (l2, res) → creates_object k l l2 (fst <$> res).
Proof.
  intros Hd K1 Hm [= <- <-]. split; [|done]. pose proof Hm as (Hc1 & Hu & _).
  destruct (Hd l1 _ (kl_inv _ _ _ K1) Hc1 Hu eq_refl) as [st Hst]. by eapply undo_keeps.
Qed.

Lemma made_kernel k l l' id kn : made k l l' id → made k l (with_client_kernel l' kn) id.
Proof. done. Qed.

Lemma destroy_cq_spec id l l' :
  peer_inv (peer l) → link_connected l = true → is_u64 id →
  l' = (client_destroy_cq l id).1 → ∃ st, destroys_object a_cq id l l' st.
Proof.
  intros Hi Hc Hu ->. exists (client_destroy_cq l id).2.
  apply (guarded_destroy l _ (make_destroy_cq_request id) id); [done|done|by apply object_request_ok|done|done|].
  unfold client_destroy_cq. by destruct (if id =? 0 then _ else _).
Qed.

Lemma destroy_qp_spec id l l' :
  peer_inv (peer l) → link_connected l = true → is_u64 id →
  l' = (client_destroy_qp l id).1 → ∃ st, destroys_object a_qp id l l' st.
Proof.
  intros Hi Hc Hu ->. exists (client_destroy_qp l id).2.
  apply (guarded_destroy l _ (make_destroy_qp_request id) id); [done|done|by apply object_request_ok|done|done|].
  unfold client_destroy_qp. by destruct (if id =? 0 then _ else _).
Qed.

Lemma create_cq_creates l l' context cqe res :
  peer_inv (peer l) → link_connected l = true → is_u64 context → is_u32 cqe →
  client_create_cq l context cqe = (l', res) → creates_object a_cq l l' (fst <$> res).
Proof.
  intros Hi Hc Hu Hq. unfold client_create_cq. destruct (_ || _).
  { intros [= <- <-]. split; [by apply keeps_refl|done]. }
  assert (request_ok (make_create_cq_request context cqe)) as Hr.
  { split; cbn; [done|ulia|ulia|constructor]. }
  destruct (control_call l _) as [l1 answer] eqn:E.
  destruct (call_creates _ _ _ a_cq _ Hi Hc Hr eq_refl eq_refl E) as [K1 Hmade].
  destruct answer as [[value fds]|e]; [|by intros [= <- <-]].
  destruct (negb (rs_status value =? 0)) eqn:Es; [by intros [= <- <-]|]. bool_hyps.
  specialize (Hmade value fds eq_refl Es). set (id := rs_object_identity value) in *.
  destruct (negb _); [by intros [= <- <-]|].
  destruct (_ || _); [eapply (undone _ _ _ _ _ client_destroy_cq); eauto using destroy_cq_spec|].
  destruct (negb _); [eapply (undone _ _ _ _ _ client_destroy_cq); eauto using destroy_cq_spec|].
  destruct (map_ring _ _ _) as [kn [ring|e]].
  - intros [= <- <-]. split; [by apply keeps_kernel|]. intros i [= <-]. by apply made_kernel.
  - eapply (undone _ _ _ _ _ client_destroy_cq); eauto using destroy_cq_spec, keeps_kernel, made_kernel.
Qed.

Lemma create_qp_creates l l' pd_identity a res :
  peer_inv (peer l) → link_connected l = true → is_u64 pd_identity →
  client_create_qp l pd_identity a = (l', res) → creates_object a_qp l l' (fst <$> (fst <$> res)).
Proof.
  intros Hi Hc Hu. unfold client_create_qp. destruct (_ || _).
  { intros [= <- <-]. split; [by apply keeps_refl|done]. }
  pose proof (payload_request_ok create_qp pd_identity (encode_qp_create_attributes a) Hu) as Hr.
  destruct (control_call l _) as [l1 answer] eqn:E.
  destruct (call_creates _ _ _ a_qp _ Hi Hc Hr eq_refl eq_refl E) as [K1 Hmade].
  destruct answer as [[value fds]|e]; [|by intros [= <- <-]].
  destruct (negb (rs_status value =? 0)) eqn:Es; [by intros [= <- <-]|]. bool_hyps.
  specialize (Hmade value fds eq_refl Es). set (id := rs_object_identity value) in *.
  assert (∀ l1 e, keeps_link None l l1 → made a_qp l l1 id →
    ((client_destroy_qp l1 id).1, Err e) = (l', res) → creates_object a_qp l l' (fst <$> (fst <$> res))) as Hundo.
  { intros l2 e K2 Hm2 [= <- <-].
    by eapply (undone (A := unit) _ _ _ _ _ client_destroy_qp e (Err e)); eauto using destroy_qp_spec. }
  destruct (negb _); [by intros [= <- <-]|].
  destruct (_ || _); [by apply Hundo|].
  destruct (send_slot_stride _) as [ss|e]; [|by apply Hundo].
  destruct (receive_slot_stride _) as [rs|e]; [|by apply Hundo].
  destruct (negb _); [by apply Hundo|].
  destruct (map_two _ _ _ _ _) as [kn [[r1 r2]|e]].
  - intros [= <- <-]. split; [by apply keeps_kernel|]. intros i [= <-]. by apply made_kernel.
  - apply Hundo; [by apply keeps_kernel|by apply made_kernel].
Qed.

(** * Handles *)

(** The proxies by kind and pointer: whether one is live, its epoch and its identity. *)
Definition Proxies := Kind → Z → option (bool * Z * Z).

Record handles_inv l (px : Proxies) (next : Z) : Prop := {
  hv_peer : peer_inv (peer l);
  hv_epoch : 0 <= epoch_ l;
  hv_proxies : ∀ k p b e id, px k p = Some (b, e, id) → 0 <= e <= epoch_ l ∧ is_u64 id ∧ p < next;
  hv_owned : link_connected l = true → ∀ k p id, px k p = Some (true, epoch_ l, id) →
    owner (daemon_tables l) k id = Some (link_session l);
  hv_distinct : ∀ k p q id, px k p = Some (true, epoch_ l, id) → px k q = Some (true, epoch_ l, id) → p = q;
}.

(** The same proxy, maybe dead. *)
Definition aged (x y : option (bool * Z * Z)) : Prop :=
  ∀ b e id, y = Some (b, e, id) → ∃ b0, x = Some (b0, e, id) ∧ (b = true → b0 = true).

(** [px'] has the proxies of [px], some of which may have died. *)
Definition weaker (px' px : Proxies) : Prop := ∀ k p, aged (px k p) (px' k p).

Lemma weaker_refl px : weaker px px.
Proof. intros k p b e id H. eauto. Qed.
Lemma weaker_live px px' k p e id :
  weaker px' px → px' k p = Some (true, e, id) → px k p = Some (true, e, id).
Proof. intros W H. destruct (W _ _ _ _ _ H) as (b0 & H0 & Hb). by rewrite <- (Hb eq_refl). Qed.

Lemma handles_killed l px px' n : handles_inv l px n → weaker px' px → handles_inv l px' n.
Proof.
  intros [I1 I2 I3 I4 I5] W. split; [done|done|..].
  - intros k p b e id (b0 & H & _)%W. by eapply I3.
  - intros Hc k p id H%(weaker_live _ _ _ _ _ _ W). by eapply I4.
  - intros k p q id H%(weaker_live _ _ _ _ _ _ W) H'%(weaker_live _ _ _ _ _ _ W). by eapply I5.
Qed.

Lemma handles_kept l l' px n :
  handles_inv l px n → link_connected l = true → keeps_link None l l' → handles_inv l' px n.
Proof.
  intros [I1 I2 I3 I4 I5] Hl [K1 K2 K3]. split; rewrite ?K2; [done..| |done].
  intros Hc k p id Hp. destruct (K3 Hc) as [-> Hs]. apply Hs; [by eapply I4|done].
Qed.

(** The object of a handle is destroyed, and the handle dies. *)
Lemma handles_destroyed l l' px px' n k p id st :
  handles_inv l px n → link_connected l = true → px k p = Some (true, epoch_ l, id) →
  destroys_object k id l l' st → weaker px' px →
  (st = 0 → ∀ e i, px' k p ≠ Some (true, e, i)) → handles_inv l' px' n.
Proof.
  intros I Hl Hp K W Hdead. unfold destroys_object in K. destruct (st =? 0) eqn:Est; bool_hyps.
  2:{ by eapply handles_killed; [eapply handles_kept|]. }
  specialize (Hdead Est). pose proof (handles_killed _ _ _ _ I W) as [I1 I2 I3 I4 I5].
  destruct K as [K1 K2 K3]. split; rewrite ?K2; [done..| |done].
  intros Hc k' q id' Hq. destruct (K3 Hc) as [-> Hs]. apply Hs; [by eapply I4|]. intros [= <- <-].
  pose proof (weaker_live _ _ _ _ _ _ W Hq) as Hq0.
  rewrite (hv_distinct _ _ _ I _ _ _ _ Hp Hq0) in Hdead. by eapply Hdead.
Qed.

(** A handle for an object just created. *)
Lemma handles_created l l' px px' n k id :
  handles_inv l px n → link_connected l = true → keeps_link None l l' → made k l l' id →
  px' k n = Some (true, epoch_ l, id) → (∀ k' p, (k', p) ≠ (k, n) → px' k' p = px k' p) →
  handles_inv l' px' (n + 1).
Proof.
  intros I Hl K (_ & Hu & Hnone & Hsome) Hnew Hold.
  pose proof I as [J1 J2 J3 J4 J5]. destruct (handles_kept _ _ _ _ I Hl K) as [I1 I2 I3 I4 I5].
  pose proof (kl_epoch _ _ _ K) as Ke.
  assert (∀ k' p x, px' k' p = Some x → (k', p) = (k, n) ∧ x = (true, epoch_ l, id) ∨ px k' p = Some x) as Hcase.
  { intros k' p x Hx. destruct (decide ((k', p) = (k, n))) as [[= -> ->]|Hne]; [left|right].
    - by rewrite Hnew in Hx; injection Hx as <-.
    - by rewrite <- Hold. }
  assert (∀ p, px k p = Some (true, epoch_ l, id) → False) as Hfresh.
  { intros p Hp. pose proof (J4 Hl _ _ _ Hp). congruence. }
  split; [done|done|..].
  - intros k' p b e i [[[= -> ->] [= -> -> ->]]|Hx]%Hcase; [split_and!; [lia|lia|done|lia]|].
    destruct (I3 _ _ _ _ _ Hx) as (? & ? & ?). split_and!; [lia|lia|done|lia].
  - intros Hc k' p i. rewrite Ke. intros [[[= -> ->] [= ->]]|Hx]%Hcase.
    + by destruct (kl_objects _ _ _ K Hc) as [-> _].
    + apply (I4 Hc k' p). by rewrite Ke.
  - rewrite Ke in *. intros k' p q i Hx Hy. destruct (Hcase _ _ _ Hx) as [[Ex Ix]|Hx'],
      (Hcase _ _ _ Hy) as [[Ey Iy]|Hy']; simplify_eq; try done; try (by edestruct Hfresh).
    by eapply I5.
Qed.


(** A new connection: every handle there was is of an older one. *)
Lemma handles_connected l l' px n st path :
  handles_inv l px n → link_connected l = false → epoch_ l < U64_MAX →
  control_connect l path = (l', st) →
  handles_inv l' px n ∧ (st = 0 → link_connected l' = true).
Proof.
  intros [I1 I2 I3 I4 I5] Hl He. unfold control_connect.
  pose proof (λ fd, peer_dial_fd (peer l) path fd I1) as Hfd. pose proof (λ e, peer_dial_error (peer l) path e I1) as Herr.
  pose proof (peer_dial_inv (peer l) path I1) as Hinv.
  destruct (dial (peer l) path) as [[d candidate] connect_status]. cbn [fst snd] in *.
  rewrite Hl. cbn [orb]. set (d' := if IpcSession.bad_path path then _ else _).
  assert (peer_inv d') as Hd' by (unfold d'; by destruct (IpcSession.bad_path path)). clearbody d'.
  unfold IpcSession.connect. fold (link_connected l). rewrite Hl.
  assert (∀ e, e ≠ 0 → (mkLink d' (ipc_ l) (if e =? 0 then IpcSession.next_id (epoch_ l) else epoch_ l) (kernel_of l),
    if e =? 0 then 0 else - e) = (l', st) → handles_inv l' px n ∧ (st = 0 → link_connected l' = true)) as Hfail.
  { intros e Hne. rewrite (proj2 (Z.eqb_neq _ _) Hne). intros [= <- <-]. split; [|lia].
    split; [done|done|done| |done]. intros Hc. change (link_connected l = true) in Hc. congruence. }
  destruct (IpcSession.bad_path path); [by apply Hfail|].
  destruct candidate as [fd|e]; [|apply Hfail; specialize (Herr e eq_refl); lia].
  destruct (negb (connect_status =? 0)) eqn:E; bool_hyps; [apply Hfail; lia|].
  cbn [Z.eqb]. intros [= <- <-]. specialize (Hfd fd eq_refl).
  assert (IpcSession.next_id (epoch_ l) = epoch_ l + 1) as Hn.
  { unfold IpcSession.next_id. rewrite u64_small by ulia. by rewrite (proj2 (Z.eqb_neq _ _)) by lia. }
  split; [|intros _; by apply Z.leb_le]. split; cbn [peer epoch_]; rewrite ?Hn; [done|lia|..].
  - intros k p b e id Hp. destruct (I3 _ _ _ _ _ Hp) as (? & ? & ?). split_and!; [lia|lia|done|done].
  - intros _ k p id Hp. destruct (I3 _ _ _ _ _ Hp); lia.
  - intros k p q id Hp. destruct (I3 _ _ _ _ _ Hp); lia.
Qed.

(** * The runtime *)

Import ClientRuntime.
Implicit Types rt : Runtime D.

Definition proxy rt : Proxies := λ k p,
  match k with
  | a_context => (λ c, (context_live c, context_epoch c, context_identity c)) <$> contexts_ rt !! p
  | a_pd => (λ c, (pd_live c, pd_epoch c, pd_identity c)) <$> pds_ rt !! p
  | an_mr => (λ c, (mr_live c, mr_epoch c, mr_identity c)) <$> mrs_ rt !! p
  | a_cq => (λ c, (cq_live c, cq_epoch c, cq_identity c)) <$> cqs_ rt !! p
  | a_qp => (λ c, (qp_live c, qp_epoch c, qp_identity c)) <$> qps_ rt !! p
  end.

Record rt_inv rt : Prop := {
  ri_handles : handles_inv (client_ rt) (proxy rt) (next_pointer_ rt);
  ri_devices : ∀ p d, devices_ rt !! p = Some d → is_u64 (catalog_identity d);
}.

Lemma insert_aged {A} (v : A → bool * Z * Z) (m : gmap Z A) p x y q :
  m !! p = Some x → aged (Some (v x)) (Some (v y)) → aged (v <$> m !! q) (v <$> <[p := y]> m !! q).
Proof.
  intros Hx Ha. destruct (decide (p = q)) as [<-|Hne].
  - by rewrite lookup_insert_eq, Hx.
  - rewrite lookup_insert_ne by done. intros b e id ->. eauto.
Qed.

Lemma alter_aged {A} (v : A → bool * Z * Z) (m : gmap Z A) (f : A → A) p q :
  (∀ x, aged (Some (v x)) (Some (v (f x)))) → aged (v <$> m !! q) (v <$> alter f p m !! q).
Proof.
  intros Ha. destruct (decide (p = q)) as [<-|Hne].
  - rewrite lookup_alter_eq. by destruct (m !! p) as [x|]; [apply Ha|intros b e id].
  - rewrite lookup_alter_ne by done. intros b e id ->. eauto.
Qed.

Lemma aged_refl x : aged x x.
Proof. intros b e id ->. eauto. Qed.
Lemma aged_trans x y z : aged x y → aged y z → aged x z.
Proof. intros H1 H2 b e id (b1 & (b2 & H & ?)%H1 & ?)%H2. eauto. Qed.

Lemma aged_dead e id b : aged (Some (b, e, id)) (Some (false, e, id)).
Proof. intros ? ? ? [= <- <- <-]. by exists b. Qed.

(** ** The connection *)

Variable configured : option (list byte).

Lemma ensure_connected_inv rt rt' st :
  rt_inv rt → epoch_ (client_ rt) < U64_MAX → ensure_connected configured rt = (rt', st) →
  ∃ l, rt' = with_client rt l ∧ rt_inv (with_client rt l) ∧ (st = 0 → link_connected l = true).
Proof.
  intros [I1 I2] He. unfold ensure_connected. destruct (link_connected (client_ rt)) eqn:Hc.
  - intros [= <- <-]. exists (client_ rt). by split_and!; [destruct rt|split|].
  - destruct (control_connect _ _) as [l st'] eqn:E. intros [= <- <-].
    destruct (handles_connected _ _ _ _ _ _ I1 Hc He E) as [J1 J2]. by exists l.
Qed.

(** ** What a call does to the runtime *)

Lemma rt_called rt l :
  rt_inv rt → link_connected (client_ rt) = true → keeps_link None (client_ rt) l → rt_inv (with_client rt l).
Proof. intros [I1 I2] Hc K. split; [|done]. by apply (handles_kept (client_ rt)). Qed.

(** Entries die, and the kernel's record of mappings may change. *)
Lemma rt_aged rt rt' kn :
  rt_inv rt → client_ rt' = with_client_kernel (client_ rt) kn → next_pointer_ rt' = next_pointer_ rt →
  devices_ rt' = devices_ rt → (∀ k p, aged (proxy rt k p) (proxy rt' k p)) → rt_inv rt'.
Proof.
  intros [I1 I2] Hl Hn Hd W. split; [|by rewrite Hd]. rewrite Hl, Hn.
  pose proof (handles_killed _ _ _ _ I1 W) as [J1 J2 J3 J4 J5]. by split.
Qed.

Lemma rt_destroyed rt rt' k p id l st kn :
  rt_inv rt → link_connected (client_ rt) = true → proxy rt k p = Some (true, epoch_ (client_ rt), id) →
  destroys_object k id (client_ rt) l st →
  client_ rt' = with_client_kernel l kn → next_pointer_ rt' = next_pointer_ rt →
  devices_ rt' = devices_ rt → (∀ k p, aged (proxy rt k p) (proxy rt' k p)) →
  (st = 0 → ∀ e i, proxy rt' k p ≠ Some (true, e, i)) → rt_inv rt'.
Proof.
  intros [I1 I2] Hc Hp Hd Hl Hn Hdev W Hdead. split; [|by rewrite Hdev]. rewrite Hl, Hn.
  pose proof (handles_destroyed _ _ _ _ _ _ _ _ _ I1 Hc Hp Hd W Hdead) as [J1 J2 J3 J4 J5]. by split.
Qed.

Lemma rt_created rt rt' k id l :
  rt_inv rt → link_connected (client_ rt) = true → creates_object k (client_ rt) l (Ok id) →
  client_ rt' = l → next_pointer_ rt' = next_pointer_ rt + 1 → devices_ rt' = devices_ rt →
  proxy rt' k (next_pointer_ rt) = Some (true, epoch_ l, id) →
  (∀ k' p, (k', p) ≠ (k, next_pointer_ rt) → proxy rt' k' p = proxy rt k' p) → rt_inv rt'.
Proof.
  intros [I1 I2] Hc [K Hm] Hl Hn Hdev Hnew Hold. split; [|by rewrite Hdev]. rewrite Hl, Hn.
  rewrite (kl_epoch _ _ _ K) in Hnew. by eapply handles_created; eauto.
Qed.

(** A live handle of the current connection. *)
Lemma live_handle rt k p e id :
  rt_inv rt → proxy rt k p = Some (true, e, id) → stale rt e = false →
  proxy rt k p = Some (true, epoch_ (client_ rt), id) ∧ is_u64 id.
Proof.
  intros [I1 _] Hp Hs. unfold stale in Hs. apply negb_false_iff, Z.eqb_eq in Hs. subst e. split; [done|].
  by destruct (hv_proxies _ _ _ I1 _ _ _ _ _ Hp) as (_ & ? & _).
Qed.

(** ** Calls that only read or change attributes *)

Lemma call_empty_keeps l l' r st :
  peer_inv (peer l) → link_connected l = true → request_ok r →
  destroys (method_of_code (rq_method r)) = None → call_empty l r = (l', st) → keeps_link None l l'.
Proof.
  intros Hi Hc Hr Hd. unfold call_empty, call_destroy.
  destruct (control_call_plain l r) as [l1 [value|e]] eqn:E; pose proof (plain_keeps _ _ _ _ Hi Hc Hr Hd E) as K.
  - by destruct (_ && _); intros [= <- <-].
  - by intros [= <- <-].
Qed.

Lemma list_devices_keeps l l' res :
  peer_inv (peer l) → link_connected l = true → client_list_devices l = (l', res) → keeps_link None l l'.
Proof.
  intros Hi Hc. unfold client_list_devices.
  assert (request_ok make_list_devices_request) as Hr by (split; cbn; [ulia|ulia|ulia|constructor]).
  destruct (control_call_plain l _) as [l1 [value|e]] eqn:E; pose proof (plain_keeps _ _ _ _ Hi Hc Hr eq_refl E) as K.
  - by destruct (negb _); intros [= <- <-].
  - by intros [= <- <-].
Qed.

Lemma query_qp_keeps l l' id mask res :
  peer_inv (peer l) → link_connected l = true → is_u64 id →
  client_query_qp l id mask = (l', res) → keeps_link None l l'.
Proof.
  intros Hi Hc Hu. unfold client_query_qp. destruct (_ || _); [intros [= <- <-]; by apply keeps_refl|].
  assert (request_ok (make_query_qp_request id mask)) as Hr by (by apply payload_request_ok).
  destruct (control_call_plain l _) as [l1 [value|e]] eqn:E; pose proof (plain_keeps _ _ _ _ Hi Hc Hr eq_refl E) as K.
  - by destruct (negb _); [intros [= <- <-]|destruct (_ || _); intros [= <- <-]].
  - by intros [= <- <-].
Qed.

Lemma query_conn_info_keeps l l' id res :
  peer_inv (peer l) → link_connected l = true → is_u64 id →
  client_query_qp_conn_info l id = (l', res) → keeps_link None l l'.
Proof.
  intros Hi Hc Hu. unfold client_query_qp_conn_info. destruct (_ =? 0); [intros [= <- <-]; by apply keeps_refl|].
  assert (request_ok (make_query_qp_conn_info_request id)) as Hr by (by apply object_request_ok).
  destruct (control_call_plain l _) as [l1 [value|e]] eqn:E; pose proof (plain_keeps _ _ _ _ Hi Hc Hr eq_refl E) as K;
    [|by intros [= <- <-]].
  destruct (negb _); [by intros [= <- <-]|]. destruct (_ || _); [by intros [= <- <-]|].
  destruct (decode_conn_info _) as [num|e]; [by destruct (num =? 0); intros [= <- <-]|by intros [= <- <-]].
Qed.

End Links.
End ClientHandles.
