(* ===== verification/ClientCalls.v ===== *)
(** Every call of the client library keeps the meaning of the handles: in every state
    that calls in any order, with other clients at work in between, can lead to, a live
    handle of the current connection names an object of the daemon that belongs to this
    client's session, and no two handles name the same one. *)

From S2P Require Import Prelude Wire ObjectIdentity SharedRing Descriptors WrPosting CompletionQueue.
From S2P Require Import Protocol Adapter IpcSession Control DeviceContext PdMrCq Qp.
From S2P Require Import ControlSpec ControlRefine ControlPlane ClientControl ClientRuntime ClientHandles.
Import Wire Descriptors Protocol Adapter Control CudaIpc PdMrCq Qp DeviceContext ControlSpec ControlRefine
  ControlHandlers ControlPlane ClientControl ClientRuntime ClientHandles.

Module ClientCalls.

Section Calls.
Context {D M : Type} `{!IpcPeer D} `{!CudaIpcMemoryBackend M} `{!CudaIpcMemoryLaws M} `{!ControlPeer D M}.
Context (configured : option (list byte)).
Implicit Types (l : Link D) (rt : Runtime D).

Lemma rt_killed rt rt' :
  rt_inv rt → client_ rt' = client_ rt → next_pointer_ rt' = next_pointer_ rt →
  devices_ rt' = devices_ rt → (∀ k p, aged (proxy rt k p) (proxy rt' k p)) → rt_inv rt'.
Proof. intros I Hl. apply (rt_aged rt rt' (kernel_of (client_ rt)) I). rewrite Hl. by destruct (client_ rt). Qed.

Lemma rt_not_destroyed rt k id l st :
  rt_inv rt → link_connected (client_ rt) = true → destroys_object k id (client_ rt) l st → st ≠ 0 →
  rt_inv (with_client rt l).
Proof.
  intros I Hc Hd Hst. unfold destroys_object in Hd. rewrite (proj2 (Z.eqb_neq _ _) Hst) in Hd. by apply rt_called.
Qed.

(** The handle of a destroyed object died. *)
Lemma rt_object_gone rt rt' k p id l :
  rt_inv rt → link_connected (client_ rt) = true → proxy rt k p = Some (true, epoch_ (client_ rt), id) →
  destroys_object k id (client_ rt) l 0 → client_ rt' = l → next_pointer_ rt' = next_pointer_ rt →
  devices_ rt' = devices_ rt → (∀ k p, aged (proxy rt k p) (proxy rt' k p)) →
  (∀ e i, proxy rt' k p ≠ Some (true, e, i)) → rt_inv rt'.
Proof.
  intros I Hc Hp Hd Hl Hn Hdev W Hdead. apply (rt_destroyed rt rt' k p id l 0 (kernel_of l)); try done.
  rewrite Hl. by destruct l.
Qed.

(** After [ensure_connected]: the error is reported, or there is a connection. *)
Ltac connect I He :=
  match goal with |- context [ensure_connected configured ?rt] =>
    let rt1 := fresh "rt1" in let st := fresh "st" in let E := fresh in
    destruct (ensure_connected configured rt) as [rt1 st] eqn:E;
    apply ensure_connected_inv in E as (l1 & -> & I1 & Hc); [|exact I|exact He];
    destruct (negb (st =? 0)) eqn:E; bool_hyps;
      [first [intros [= <- <-]|intros [= <- <- <-]]; exact I1|specialize (Hc E); clear E]
  end.

(** One table has an entry that died or kept its object; the others are the same. *)
Ltac aged_tables :=
  intros [] ?; cbn; try apply aged_refl;
  (eapply insert_aged; [eassumption|first [exact (aged_dead _ _ _)|apply aged_refl]]).

Ltac other_entries := intros [] ? Hne; cbn; try done; rewrite lookup_insert_ne; [done|intros <-; by apply Hne].
Ltac dead_entry := intros ? ?; cbn; by rewrite lookup_insert_eq.
Ltac new_entry := cbn; by rewrite lookup_insert_eq.

(** The handle is live and of the current connection. *)
Ltac live kind p e id :=
  match goal with
  | I1 : rt_inv ?rt, Hk : _ !! p = Some _, Hl : _ = true, Hs : stale _ _ = false |- _ =>
      destruct (live_handle rt kind p e id I1) as [Hp Hu]; [cbn; rewrite Hk; cbn; by rewrite Hl|exact Hs|]
  end.

Lemma open_device_inv rt rt' device res :
  rt_inv rt → epoch_ (client_ rt) < U64_MAX → open_device configured rt device = (rt', res) → rt_inv rt'.
Proof.
  intros I He. unfold open_device. destruct (devices_ rt !! device) as [d|] eqn:Hd; [|by intros [= <- <-]].
  destruct (negb (device_live d)); [by intros [= <- <-]|]. connect I He.
  pose proof (ri_devices _ I _ _ Hd) as Hu.
  destruct (stale _ _) eqn:Hs.
  { intros [= <- <-]. destruct I1 as [J1 J2]. split; [exact J1|]. cbn. intros p d'.
    destruct (decide (device = p)) as [<-|Hne]; [rewrite lookup_insert_eq; by intros [= <-]|].
    rewrite lookup_insert_ne by done. apply J2. }
  destruct (client_create_context _ _) as [l created] eqn:Ec.
  apply create_context_creates in Ec; [|apply I1|done|done].
  destruct created as [id|e]; intros [= <- <-].
  - apply (rt_created _ _ a_context id l I1 Hc Ec); [done|done|done|new_entry|other_entries].
  - apply (rt_called _ _ I1 Hc), Ec.
Qed.

Lemma close_device_inv rt rt' ctx st :
  rt_inv rt → epoch_ (client_ rt) < U64_MAX → close_device configured rt ctx = (rt', st) → rt_inv rt'.
Proof.
  intros I He. unfold close_device. destruct (contexts_ rt !! ctx) as [c|] eqn:Hk; [|by intros [= <- <-]].
  destruct (negb (context_live c)) eqn:Hl; bool_hyps; [by intros [= <- <-]|]. connect I He.
  destruct (stale _ _) eqn:Hs; [intros [= <- <-]; apply (rt_killed _ _ I1); [done..|aged_tables]|].
  live a_context ctx (context_epoch c) (context_identity c).
  destruct (client_destroy_context _ _) as [l status] eqn:Ec.
  apply destroy_context_destroys in Ec; [|apply I1|done|done].
  destruct (negb (status =? 0)) eqn:Est; bool_hyps; intros [= <- <-].
  - by apply (rt_not_destroyed _ _ _ _ _ I1 Hc Ec).
  - subst status. apply (rt_object_gone _ _ _ _ _ _ I1 Hc Hp Ec); [done..|aged_tables|dead_entry].
Qed.

(** ** Protection domains and regions *)

Lemma alloc_pd_inv rt rt' ctx res :
  rt_inv rt → epoch_ (client_ rt) < U64_MAX → alloc_pd configured rt ctx = (rt', res) → rt_inv rt'.
Proof.
  intros I He. unfold alloc_pd. destruct (contexts_ rt !! ctx) as [c|] eqn:Hk; [|by intros [= <- <-]].
  destruct (negb (context_live c)) eqn:Hl; bool_hyps; [by intros [= <- <-]|]. connect I He.
  destruct (stale _ _) eqn:Hs; [intros [= <- <-]; apply (rt_killed _ _ I1); [done..|aged_tables]|].
  live a_context ctx (context_epoch c) (context_identity c).
  destruct (client_create_pd _ _) as [l created] eqn:Ec.
  apply create_pd_creates in Ec; [|apply I1|done|done].
  destruct created as [id|e]; intros [= <- <-].
  - apply (rt_created _ _ a_pd id l I1 Hc Ec); [done|done|done|new_entry|other_entries].
  - apply (rt_called _ _ I1 Hc), Ec.
Qed.

Lemma dealloc_pd_inv rt rt' pd st :
  rt_inv rt → epoch_ (client_ rt) < U64_MAX → dealloc_pd configured rt pd = (rt', st) → rt_inv rt'.
Proof.
  intros I He. unfold dealloc_pd. destruct (pds_ rt !! pd) as [c|] eqn:Hk; [|by intros [= <- <-]].
  destruct (negb (pd_live c)) eqn:Hl; bool_hyps; [by intros [= <- <-]|]. connect I He.
  destruct (stale _ _) eqn:Hs; [intros [= <- <-]; apply (rt_killed _ _ I1); [done..|aged_tables]|].
  live a_pd pd (pd_epoch c) (pd_identity c).
  destruct (client_destroy_pd _ _) as [l status] eqn:Ec.
  apply (guarded_destroy _ _ (make_destroy_pd_request (pd_identity c)) _ a_pd) in Ec;
    [|apply I1|done|by apply object_request_ok|done|done].
  destruct (status =? 0) eqn:Est; bool_hyps; intros [= <- <-].
  - subst status. apply (rt_object_gone _ _ _ _ _ _ I1 Hc Hp Ec); [done..|aged_tables|dead_entry].
  - by apply (rt_not_destroyed _ _ _ _ _ I1 Hc Ec).
Qed.

Lemma reg_mr_inv export rt rt' pd address len access res :
  rt_inv rt → epoch_ (client_ rt) < U64_MAX → access <= I32_MAX →
  (∀ m, export address len = Ok m → is_u64 (CudaIpc.length_ m)) →
  reg_mr configured export rt pd address len access = (rt', res) → rt_inv rt'.
Proof.
  intros I He Ha Hx. unfold reg_mr. destruct (pds_ rt !! pd) as [c|] eqn:Hk; [|by intros [= <- <-]].
  destruct (_ || _ || _ || _) eqn:Hg; [by intros [= <- <-]|].
  apply orb_false_iff in Hg as [Hg Hb]. apply orb_false_iff in Hg as [Hg _]. apply orb_false_iff in Hg as [Hl _].
  apply negb_false_iff in Hl.
  assert (is_u32 access) as Hacc. { unfold bad_access in Hb. bool_hyps. ulia. }
  connect I He.
  destruct (stale _ _) eqn:Hs; [intros [= <- <-]; apply (rt_killed _ _ I1); [done..|aged_tables]|].
  live a_pd pd (pd_epoch c) (pd_identity c).
  destruct (_ <? _); [by intros [= <- <-]|].
  destruct (export address len) as [memory|e]; [|by intros [= <- <-]].
  destruct (client_register_mr _ _ _ _) as [l registered] eqn:Ec.
  apply register_mr_creates in Ec; [|apply I1|done|done|done|by apply Hx].
  destruct registered as [[id accepted]|e]; intros [= <- <-].
  - apply (rt_created _ _ an_mr id l I1 Hc Ec); [done|done|done|new_entry|other_entries].
  - apply (rt_called _ _ I1 Hc), Ec.
Qed.

Lemma dereg_mr_inv rt rt' mr st :
  rt_inv rt → epoch_ (client_ rt) < U64_MAX → dereg_mr configured rt mr = (rt', st) → rt_inv rt'.
Proof.
  intros I He. unfold dereg_mr. destruct (mrs_ rt !! mr) as [c|] eqn:Hk; [|by intros [= <- <-]].
  destruct (negb (mr_live c)) eqn:Hl; bool_hyps; [by intros [= <- <-]|]. connect I He.
  destruct (stale _ _) eqn:Hs; [intros [= <- <-]; apply (rt_killed _ _ I1); [done..|aged_tables]|].
  live an_mr mr (mr_epoch c) (mr_identity c).
  destruct (client_deregister_mr _ _) as [l status] eqn:Ec.
  apply (guarded_destroy _ _ (make_deregister_mr_request (mr_identity c)) _ an_mr) in Ec;
    [|apply I1|done|by apply object_request_ok|done|done].
  destruct (status =? 0) eqn:Est; bool_hyps; intros [= <- <-].
  - subst status. apply (rt_object_gone _ _ _ _ _ _ I1 Hc Hp Ec); [done..|aged_tables|dead_entry].
  - by apply (rt_not_destroyed _ _ _ _ _ I1 Hc Ec).
Qed.

(** ** Completion queues *)

Lemma create_cq_inv rt rt' ctx cqe user channel vector res :
  rt_inv rt → epoch_ (client_ rt) < U64_MAX →
  create_cq configured rt ctx cqe user channel vector = (rt', res) → rt_inv rt'.
Proof.
  intros I He. unfold create_cq. destruct (contexts_ rt !! ctx) as [c|] eqn:Hk; [|by intros [= <- <-]].
  destruct (_ || _ || _ || _) eqn:Hg; [by intros [= <- <-]|].
  apply orb_false_iff in Hg as [Hg _]. apply orb_false_iff in Hg as [Hg _]. apply orb_false_iff in Hg as [Hl _].
  apply negb_false_iff in Hl. connect I He.
  destruct (stale _ _) eqn:Hs; [intros [= <- <-]; apply (rt_killed _ _ I1); [done..|aged_tables]|].
  live a_context ctx (context_epoch c) (context_identity c).
  destruct (client_create_cq _ _ _) as [l created] eqn:Ec.
  apply create_cq_creates in Ec; [|apply I1|done|done|apply u32_range].
  destruct created as [[id ring]|e]; intros [= <- <-].
  - apply (rt_created _ _ a_cq id l I1 Hc Ec); [done|done|done|new_entry|other_entries].
  - apply (rt_called _ _ I1 Hc), Ec.
Qed.

Lemma drop_cq_ring_inv rt cq c :
  rt_inv rt → cqs_ rt !! cq = Some c → rt_inv (drop_cq_ring rt cq c).
Proof. intros I Hk. eapply (rt_aged _ _ _ I); [reflexivity|done|done|aged_tables]. Qed.

Lemma destroy_cq_inv rt rt' cq st :
  rt_inv rt → epoch_ (client_ rt) < U64_MAX → destroy_cq configured rt cq = (rt', st) → rt_inv rt'.
Proof.
  intros I He. unfold destroy_cq. destruct (cqs_ rt !! cq) as [c|] eqn:Hk; [|by intros [= <- <-]].
  destruct (negb (cq_live c)) eqn:Hl; bool_hyps; [by intros [= <- <-]|]. connect I He.
  destruct (stale _ _) eqn:Hs; [intros [= <- <-]; by apply drop_cq_ring_inv|].
  live a_cq cq (cq_epoch c) (cq_identity c).
  destruct (client_destroy_cq _ _) as [l status] eqn:Ec.
  apply (guarded_destroy _ _ (make_destroy_cq_request (cq_identity c)) _ a_cq) in Ec;
    [|apply I1|done|by apply object_request_ok|done|done].
  destruct (status =? 0) eqn:Est; bool_hyps; intros [= <- <-].
  - subst status. eapply (rt_destroyed _ _ _ _ _ _ _ _ I1 Hc Hp Ec); [reflexivity|done|done|aged_tables|].
    intros _. dead_entry.
  - by apply (rt_not_destroyed _ _ _ _ _ I1 Hc Ec).
Qed.

Lemma poll_cq_inv rt cq g num_entries : rt_inv rt → rt_inv (runtime_poll_cq rt cq g num_entries).1.1.1.
Proof.
  intros I. unfold runtime_poll_cq. destruct (_ <? 0); [done|].
  destruct (cqs_ rt !! cq) as [c|] eqn:Hk; [|done].
  destruct (CompletionQueue.poll_cq _ _ _ _) as [[[ring g'] wcs] n]. cbn.
  apply (rt_killed _ _ I); [done..|aged_tables].
Qed.

(** ** Queue pairs *)

Lemma create_qp_inv rt rt' pd a res :
  rt_inv rt → epoch_ (client_ rt) < U64_MAX → create_qp configured rt pd a = (rt', res) → rt_inv rt'.
Proof.
  intros I He. unfold create_qp. destruct (pds_ rt !! pd) as [c|] eqn:Hk; [|by intros [= <- <-]].
  destruct (cqs_ rt !! ia_send_cq a) as [sc|] eqn:Hsc; [|by intros [= <- <-]].
  destruct (cqs_ rt !! ia_recv_cq a) as [rc|] eqn:Hrc; [|by intros [= <- <-]].
  destruct (_ || _ || _ || _ || _ || _) eqn:Hg; [by intros [= <- <-]|].
  do 5 (apply orb_false_iff in Hg as [Hg _]). apply negb_false_iff in Hg as Hl. clear Hg. connect I He.
  destruct (stale _ _ || _ || _) eqn:Hst.
  { intros [= <- <-]. apply (rt_killed _ _ I1); [done..|]. intros [] q; cbn; try apply aged_refl.
    - eapply insert_aged; [done|exact (aged_dead _ _ _)].
    - eapply aged_trans; apply alter_aged; intros x; exact (aged_dead _ _ _). }
  do 2 (apply orb_false_iff in Hst as [Hst _]). rename Hst into Hs.
  live a_pd pd (pd_epoch c) (pd_identity c).
  destruct (client_create_qp _ _ _) as [l created] eqn:Ec.
  apply create_qp_creates in Ec; [|apply I1|done|done].
  destruct created as [[[id sq] rq]|e]; intros [= <- <-].
  - apply (rt_created _ _ a_qp id l I1 Hc Ec); [done|done|done| |other_entries].
    cbn. rewrite lookup_insert_eq. by rewrite (kl_epoch _ _ _ (proj1 Ec)).
  - apply (rt_called _ _ I1 Hc), Ec.
Qed.

Lemma drop_qp_rings_inv rt qp q : rt_inv rt → qps_ rt !! qp = Some q → rt_inv (drop_qp_rings rt qp q).
Proof. intros I Hk. eapply (rt_aged _ _ _ I); [reflexivity|done|done|aged_tables]. Qed.

(** The calls on a queue pair that share their guards. *)
Lemma with_live_qp_inv rt rt' qp f st :
  rt_inv rt → epoch_ (client_ rt) < U64_MAX →
  (∀ rt q rt' st, rt_inv rt → link_connected (client_ rt) = true → qps_ rt !! qp = Some q →
     proxy rt a_qp qp = Some (true, epoch_ (client_ rt), qp_identity q) → is_u64 (qp_identity q) →
     f rt q = (rt', st) → rt_inv rt') →
  with_live_qp configured rt qp f = (rt', st) → rt_inv rt'.
Proof.
  intros I He Hf. unfold with_live_qp. destruct (qps_ rt !! qp) as [q|] eqn:Hk; [|by intros [= <- <-]].
  destruct (negb (qp_live q)) eqn:Hl; bool_hyps; [by intros [= <- <-]|]. connect I He.
  destruct (stale _ _) eqn:Hs; [intros [= <- <-]; by apply drop_qp_rings_inv|].
  live a_qp qp (qp_epoch q) (qp_identity q). by eapply Hf.
Qed.

Lemma destroy_qp_inv rt rt' qp st :
  rt_inv rt → epoch_ (client_ rt) < U64_MAX → destroy_qp configured rt qp = (rt', st) → rt_inv rt'.
Proof.
  intros I He. apply with_live_qp_inv; [done|done|]. clear. intros rt q rt' st I Hc Hk Hp Hu.
  destruct (client_destroy_qp _ _) as [l status] eqn:Ec.
  apply (guarded_destroy _ _ (make_destroy_qp_request (qp_identity q)) _ a_qp) in Ec;
    [|apply I|done|by apply object_request_ok|done|done].
  destruct (status =? 0) eqn:Est; bool_hyps; intros [= <- <-].
  - subst status. eapply (rt_destroyed _ _ _ _ _ _ _ _ I Hc Hp Ec); [reflexivity|done|done|aged_tables|].
    intros _. dead_entry.
  - by apply (rt_not_destroyed _ _ _ _ _ I Hc Ec).
Qed.

(** A call that keeps the objects, then a new cached state. *)
Lemma rt_cached rt l qp q st (b : bool) :
  rt_inv rt → link_connected (client_ rt) = true → qps_ rt !! qp = Some q → keeps_link None (client_ rt) l →
  rt_inv (if b then with_qps (with_client rt l) (<[qp := set_cached st q]> (qps_ (with_client rt l)))
          else with_client rt l).
Proof.
  intros I Hc Hk K. pose proof (rt_called _ _ I Hc K) as I'. destruct b; [|done].
  apply (rt_killed _ _ I'); [done..|aged_tables].
Qed.

Lemma modify_qp_inv rt rt' qp a mask st :
  rt_inv rt → epoch_ (client_ rt) < U64_MAX → modify_qp configured rt qp a mask = (rt', st) → rt_inv rt'.
Proof.
  intros I He. unfold modify_qp. destruct (mask <? 0); [by intros [= <- <-]|].
  apply with_live_qp_inv; [done|done|]. clear. intros rt q rt' st I Hc Hk Hp Hu.
  destruct (client_modify_qp _ _ _ _) as [l status] eqn:Ec. intros [= <- <-]. apply rt_cached; [done..|].
  unfold client_modify_qp in Ec. destruct (_ =? 0); [injection Ec as <- <-; apply keeps_refl, I|].
  refine (call_empty_keeps _ _ _ _ _ Hc _ _ Ec); [apply I|by apply payload_request_ok|done].
Qed.

Lemma connect_qp_inv rt rt' qp num a mask st :
  rt_inv rt → epoch_ (client_ rt) < U64_MAX → connect_qp configured rt qp num a mask = (rt', st) → rt_inv rt'.
Proof.
  intros I He. unfold connect_qp. destruct (_ || _); [by intros [= <- <-]|].
  apply with_live_qp_inv; [done|done|]. clear. intros rt q rt' st I Hc Hk Hp Hu.
  destruct (client_connect_qp _ _ _ _ _) as [l status] eqn:Ec. intros [= <- <-]. apply rt_cached; [done..|].
  unfold client_connect_qp in Ec. destruct (_ || _); [injection Ec as <- <-; apply keeps_refl, I|].
  refine (call_empty_keeps _ _ _ _ _ Hc _ _ Ec); [apply I|by apply payload_request_ok|done].
Qed.

Lemma query_qp_inv rt rt' qp a mask st out :
  rt_inv rt → epoch_ (client_ rt) < U64_MAX → query_qp configured rt qp a mask = (rt', st, out) → rt_inv rt'.
Proof.
  intros I He. unfold query_qp. destruct (mask <? 0); [by intros [= <- <- <-]|].
  destruct (qps_ rt !! qp) as [q|] eqn:Hk; [|by intros [= <- <- <-]].
  destruct (negb (qp_live q)) eqn:Hl; bool_hyps; [by intros [= <- <- <-]|]. connect I He.
  destruct (stale _ _) eqn:Hs; [intros [= <- <- <-]; by apply drop_qp_rings_inv|].
  live a_qp qp (qp_epoch q) (qp_identity q).
  destruct (client_query_qp _ _ _) as [l answer] eqn:Ec. apply query_qp_keeps in Ec; [|apply I1|done|done].
  destruct answer as [snapshot|e]; intros [= <- <- <-]; [|by apply (rt_called _ _ I1)].
  pose proof (rt_cached _ _ qp q (at_state (queried_attr a mask (attributes snapshot)))
    (negb (Z.land mask kQpMaskState =? 0)) I1 Hc Hk Ec) as J.
  by destruct (_ =? 0).
Qed.

Lemma query_qp_conn_info_inv rt rt' qp res :
  rt_inv rt → epoch_ (client_ rt) < U64_MAX → query_qp_conn_info configured rt qp = (rt', res) → rt_inv rt'.
Proof.
  intros I He. unfold query_qp_conn_info. destruct (qps_ rt !! qp) as [q|] eqn:Hk; [|by intros [= <- <-]].
  destruct (negb (qp_live q)) eqn:Hl; bool_hyps; [by intros [= <- <-]|]. connect I He.
  destruct (stale _ _) eqn:Hs; [intros [= <- <-]; by apply drop_qp_rings_inv|].
  live a_qp qp (qp_epoch q) (qp_identity q).
  destruct (client_query_qp_conn_info _ _) as [l answer] eqn:Ec. apply query_conn_info_keeps in Ec; [|apply I1|done|done].
  intros [= <- <-]. by apply (rt_called _ _ I1).
Qed.

Lemma post_send_inv rt qp loads slots chain rt' slots' stores st bad :
  rt_inv rt → post_send rt qp loads slots chain = Some (rt', slots', stores, st, bad) → rt_inv rt'.
Proof.
  intros I. unfold post_send. destruct (qps_ rt !! qp) as [q|] eqn:Hk; [|by intros [= <- <- <- <- <-]].
  destruct (_ || _); [by intros [= <- <- <- <- <-]|].
  destruct (WrPosting.post_send_chain _ _ _ _ _) as [posted|]; [|done]. intros [= <- <- <- <- <-].
  apply (rt_killed _ _ I); [done..|aged_tables].
Qed.

Lemma post_receive_inv rt qp loads slots chain rt' slots' stores st bad :
  rt_inv rt → post_receive rt qp loads slots chain = Some (rt', slots', stores, st, bad) → rt_inv rt'.
Proof.
  intros I. unfold post_receive. destruct (qps_ rt !! qp) as [q|] eqn:Hk; [|by intros [= <- <- <- <- <-]].
  destruct (_ || _); [by intros [= <- <- <- <- <-]|].
  destruct (WrPosting.post_receive_chain _ _ _ _ _) as [posted|]; [|done]. intros [= <- <- <- <- <-].
  apply (rt_killed _ _ I); [done..|aged_tables].
Qed.

(** ** Devices *)

Lemma decode_devices_u64 bytes offset count ds o :
  decode_devices bytes offset count = Ok (ds, o) → Forall (λ d, is_u64 (DeviceContext.identity d)) ds.
Proof.
  revert offset ds o. induction count as [|count IH]; intros offset ds o; cbn.
  { intros [= <- <-]. constructor. }
  destruct (_ ≫= _) as [[[wi wn] off]|]; [|done]. destruct (_ || _); [done|].
  destruct (decode_devices _ _ count) as [[l o']|e] eqn:Ed; [|done]. cbn. intros [= <- <-].
  constructor; [apply host_to_network64_u64|by eapply IH].
Qed.

Lemma list_devices_u64 l l' ds :
  client_list_devices l = (l', Ok ds) → Forall is_u64 (DeviceContext.identity <$> ds).
Proof.
  unfold client_list_devices. destruct (control_call_plain _ _) as [l1 [value|e]]; [|done].
  destruct (negb _); [done|]. intros [= <- E]. unfold decode_device_list in E.
  destruct (read _ _ _) as [[wc off]|]; [|done]. destruct (_ <? _); [done|].
  destruct (decode_devices _ _ _) as [[ds' o]|e] eqn:Ed; [|done]. cbn in E. destruct (negb _); [done|].
  injection E as <-. rewrite Forall_fmap. by eapply decode_devices_u64.
Qed.

Lemma add_devices_inv ids rt : rt_inv rt → Forall is_u64 ids → rt_inv (add_devices rt ids).1.
Proof.
  revert rt. induction ids as [|id ids IH]; intros rt I Hu; [done|]. inversion_clear Hu as [|? ? Hid Hids].
  cbn. set (rt1 := fresh _). assert (rt_inv rt1) as I1.
  { destruct I as [[J1 J2 J3 J4 J5] I2]. split; [split; [done|done| |done|done]|].
    - cbn. intros k p b e i Hp. destruct (J3 k p b e i Hp) as (? & ? & ?). split_and!; [lia|lia|done|lia].
    - cbn. intros p d. destruct (decide (next_pointer_ rt = p)) as [<-|Hne].
      + rewrite lookup_insert_eq. by intros [= <-].
      + rewrite lookup_insert_ne by done. apply I2. }
  specialize (IH rt1 I1 Hids). by destruct (add_devices rt1 ids).
Qed.

Lemma rt_pointer_used rt m : rt_inv rt → rt_inv (fresh (with_lists rt m)).
Proof.
  intros [[J1 J2 J3 J4 J5] I2]. split; [split; [done|done| |done|done]|exact I2].
  cbn. intros k p b e i Hp. destruct (J3 k p b e i Hp) as (? & ? & ?). split_and!; [lia|lia|done|lia].
Qed.

Lemma get_device_list_inv rt rt' res :
  rt_inv rt → epoch_ (client_ rt) < U64_MAX → get_device_list configured rt = (rt', res) → rt_inv rt'.
Proof.
  intros I He. unfold get_device_list. connect I He.
  destruct (client_list_devices _) as [l answer] eqn:Ec.
  pose proof (list_devices_keeps _ _ _ (hv_peer _ _ _ (ri_handles _ I1)) Hc Ec) as K.
  pose proof (rt_called _ _ I1 Hc K) as I2. destruct answer as [ds|e]; [|by intros [= <- <-]].
  pose proof (add_devices_inv _ _ I2 (list_devices_u64 _ _ _ Ec)) as I3.
  destruct (add_devices _ _) as [rt3 ps]. intros [= <- <-]. by apply rt_pointer_used.
Qed.

Lemma free_device_list_inv rt rt' list st :
  rt_inv rt → free_device_list rt list = (rt', st) → rt_inv rt'.
Proof.
  intros [I1 I2]. unfold free_device_list. destruct (lists_ rt !! list) as [dl|]; [|by intros [= <- <-]].
  destruct (list_live dl); [|by intros [= <- <-]]. intros [= <- <-]. split; [exact I1|]. cbn.
  generalize (devices_ rt) I2. induction (devices_of dl) as [|p ps IH]; intros m Hm; cbn; [done|].
  apply IH. intros q d. destruct (decide (p = q)) as [<-|Hne].
  - rewrite lookup_alter_eq. destruct (m !! p) as [d0|] eqn:E; [|done]. intros [= <-]. by eapply (Hm p d0).
  - rewrite lookup_alter_ne by done. apply Hm.
Qed.

(** * Reachable states *)

(** What other sessions do to the daemon. *)
Inductive other_session (s : Z) : QpService M → QpService M → Prop :=
| other_request o r fds svc svc' res :
    o ≠ s → request_ok r → qp_handle svc o r fds = (svc', res) → other_session s svc svc'
| other_ends o svc : o ≠ s → other_session s svc (qp_disconnect svc o).

Lemma same_survives s t t' : same_for s t t' → survives s None t t'.
Proof.
  intros (H1 & H2 & H3 & H4 & H5) k id Hid _. destruct k; cbn in *; unfold owners in *;
    match goal with H : fst <$> ?m !! id = _ |- _ => destruct (m !! id) as [[o v]|] eqn:E; [|done] end;
    injection Hid as ->; [apply H1 in E|apply H2 in E|apply H3 in E|apply H4 in E|apply H5 in E]; by rewrite E.
Qed.

Lemma other_session_survives s svc svc' :
  inv svc → other_session s svc svc' → inv svc' ∧ survives s None (tables svc) (tables svc').
Proof.
  intros Hi H. revert Hi. destruct H as [o r fds svc0 svc1 res Ho Hr E|o svc0 Ho]; intros Hi.
  - pose proof (handle_outcome o r fds svc0 Hi Hr) as Hout. rewrite E in Hout.
    split; [by eapply outcome_inv|]. destruct Hout as [_ _ _ _ Hout]. destruct (_ =? 0).
    + apply same_survives. by eapply action_isolated; [|apply iv_integrity|].
    + by apply survives_unchanged.
  - destruct (disconnect_tables o svc0 Hi) as [Hi' Ht]. split; [done|]. rewrite Ht. apply same_survives.
    split_and!; intros k x; cbn; rewrite others_Some; split; tauto || (intros ?; split; congruence).
Qed.

Lemma others_survive s svc svc' :
  inv svc → rtc (other_session s) svc svc' → survives s None (tables svc) (tables svc').
Proof.
  intros Hi Hr. revert Hi. induction Hr as [svc|svc svc1 svc2 H1 _ IH]; intros Hi; [apply survives_refl|].
  destruct (other_session_survives _ _ _ Hi H1) as [Hi1 Hs]. intros k id Hid _. by apply IH; [|apply Hs|].
Qed.

Definition with_peer l (d : D) : Link D := mkLink d (ipc_ l) (epoch_ l) (kernel_of l).

(** One call of the application. *)
Inductive client_call rt rt' : Prop :=
| call_get_device_list res : get_device_list configured rt = (rt', res) → client_call rt rt'
| call_free_device_list list st : free_device_list rt list = (rt', st) → client_call rt rt'
| call_open_device device res : open_device configured rt device = (rt', res) → client_call rt rt'
| call_close_device ctx st : close_device configured rt ctx = (rt', st) → client_call rt rt'
| call_alloc_pd ctx res : alloc_pd configured rt ctx = (rt', res) → client_call rt rt'
| call_dealloc_pd pd st : dealloc_pd configured rt pd = (rt', st) → client_call rt rt'
| call_reg_mr export pd address len access res :
    access <= I32_MAX → (∀ m, export address len = Ok m → is_u64 (CudaIpc.length_ m)) →
    reg_mr configured export rt pd address len access = (rt', res) → client_call rt rt'
| call_dereg_mr mr st : dereg_mr configured rt mr = (rt', st) → client_call rt rt'
| call_create_cq ctx cqe user channel vector res :
    create_cq configured rt ctx cqe user channel vector = (rt', res) → client_call rt rt'
| call_destroy_cq cq st : destroy_cq configured rt cq = (rt', st) → client_call rt rt'
| call_poll_cq cq g n : (runtime_poll_cq rt cq g n).1.1.1 = rt' → client_call rt rt'
| call_create_qp pd a res : create_qp configured rt pd a = (rt', res) → client_call rt rt'
| call_destroy_qp qp st : destroy_qp configured rt qp = (rt', st) → client_call rt rt'
| call_modify_qp qp a mask st : modify_qp configured rt qp a mask = (rt', st) → client_call rt rt'
| call_query_qp qp a mask st out : query_qp configured rt qp a mask = (rt', st, out) → client_call rt rt'
| call_query_conn_info qp res : query_qp_conn_info configured rt qp = (rt', res) → client_call rt rt'
| call_connect_qp qp num a mask st : connect_qp configured rt qp num a mask = (rt', st) → client_call rt rt'
| call_post_send qp loads slots chain slots' stores st bad :
    post_send rt qp loads slots chain = Some (rt', slots', stores, st, bad) → client_call rt rt'
| call_post_receive qp loads slots chain slots' stores st bad :
    post_receive rt qp loads slots chain = Some (rt', slots', stores, st, bad) → client_call rt rt'.

(** A call, while the 64-bit epoch has not been used up, or requests of other sessions. *)
Inductive client_step rt : Runtime D → Prop :=
| step_call rt' : epoch_ (client_ rt) < U64_MAX → client_call rt rt' → client_step rt rt'
| step_others d :
    peer_inv d → peer_session d = link_session (client_ rt) →
    rtc (other_session (peer_session d)) (peer_service (peer (client_ rt))) (peer_service d) →
    client_step rt (with_client rt (with_peer (client_ rt) d)).

Lemma client_call_inv rt rt' :
  rt_inv rt → epoch_ (client_ rt) < U64_MAX → client_call rt rt' → rt_inv rt'.
Proof.
  intros I He [].
  - by eapply get_device_list_inv.
  - by eapply free_device_list_inv.
  - by eapply open_device_inv.
  - by eapply close_device_inv.
  - by eapply alloc_pd_inv.
  - by eapply dealloc_pd_inv.
  - by eapply reg_mr_inv.
  - by eapply dereg_mr_inv.
  - by eapply create_cq_inv.
  - by eapply destroy_cq_inv.
  - subst. by apply poll_cq_inv.
  - by eapply create_qp_inv.
  - by eapply destroy_qp_inv.
  - by eapply modify_qp_inv.
  - by eapply query_qp_inv.
  - by eapply query_qp_conn_info_inv.
  - by eapply connect_qp_inv.
  - by eapply post_send_inv.
  - by eapply post_receive_inv.
Qed.

Lemma client_step_inv rt rt' : client_step rt rt' → rt_inv rt → rt_inv rt'.
Proof.
  intros [rt0 He Hcall|d Hd Hs Hr] I; [by eapply client_call_inv|].
  pose proof I as [[J1 J2 J3 J4 J5] I2]. split; [|exact I2]. split; [exact Hd|exact J2|exact J3| |exact J5].
  intros Hc k p id Hp. specialize (J4 Hc k p id Hp).
  change (owner (tables (peer_service d)) k id = Some (peer_session d)).
  eapply others_survive; [by apply peer_inv_service, J1|exact Hr| |done]. by rewrite Hs.
Qed.

(** The runtime before the first call. *)
Definition unconnected (d : D) (kn : ClientKernel) : Link D := mkLink d (IpcSession.mkClient (-1) 1) 0 kn.

Lemma client_reachable_inv d kn rt :
  peer_inv d → rtc client_step (new_runtime (unconnected d kn)) rt → rt_inv rt.
Proof.
  intros Hd Hr. assert (rt_inv (new_runtime (unconnected d kn))) as I.
  { split; [split; [done|by vm_compute|..]|]; cbn.
    - intros [] p b e id; cbn; by rewrite lookup_empty.
    - done.
    - intros [] p q id; cbn; by rewrite lookup_empty.
    - intros p x. by rewrite lookup_empty. }
  induction Hr as [|rt0 rt1 rt2 H1 _ IH]; [done|]. by apply IH, (client_step_inv _ _ H1).
Qed.

(** * Properties *)

(** What handles mean.  In every state the calls of an application can lead to, in
    any order, with any answers of the system and with requests and disconnections of
    other sessions in between: while the client is connected, every live handle of the
    current connection names an object of the daemon of its kind that belongs to the
    client's session, and two live handles never name the same object. *)
Lemma handles_live d kn rt :
  peer_inv d → rtc client_step (new_runtime (unconnected d kn)) rt → link_connected (client_ rt) = true →
  (∀ k p id, proxy rt k p = Some (true, epoch_ (client_ rt), id) →
     owner (daemon_tables (client_ rt)) k id = Some (link_session (client_ rt))) ∧
  (∀ k p q id, proxy rt k p = Some (true, epoch_ (client_ rt), id) →
     proxy rt k q = Some (true, epoch_ (client_ rt), id) → p = q).
Proof.
  intros Hd Hr Hc. destruct (client_reachable_inv _ _ _ Hd Hr) as [[_ _ _ I4 I5] _]. split; [by apply I4|exact I5].
Qed.

(** The call that ends a handle of each kind. *)
Definition release_handle (k : Kind) rt (p : Z) : Runtime D * Z :=
  match k with
  | a_context => close_device configured rt p
  | a_pd => dealloc_pd configured rt p
  | an_mr => dereg_mr configured rt p
  | a_cq => destroy_cq configured rt p
  | a_qp => destroy_qp configured rt p
  end.

(** A handle of an earlier connection is refused without a request: its release
    answers [EINVAL], the daemon and the connection are untouched, and the handle is dead
    afterwards, so that a second release is refused as well. *)
Lemma stale_handle_refused_by_peer k rt p e id rt' st :
  link_connected (client_ rt) = true → proxy rt k p = Some (true, e, id) → e ≠ epoch_ (client_ rt) →
  release_handle k rt p = (rt', st) →
  st = EINVAL ∧ peer (client_ rt') = peer (client_ rt) ∧ ipc_ (client_ rt') = ipc_ (client_ rt) ∧
  proxy rt' k p = Some (false, e, id) ∧ release_handle k rt' p = (rt', EINVAL).
Proof.
  intros Hc Hp Hne. assert (stale rt e = true) as Hs.
  { unfold stale. by rewrite (proj2 (Z.eqb_neq _ _) Hne). }
  destruct k; cbn in *; unfold close_device, dealloc_pd, dereg_mr, destroy_cq, destroy_qp, with_live_qp;
    match type of Hp with _ <$> ?m !! p = _ => destruct (m !! p) as [x|] eqn:E; [|done] end;
    cbn in Hp; injection Hp as Hl <- <-; rewrite Hl; unfold ensure_connected; rewrite Hc; cbn [negb Z.eqb];
    rewrite Hs; intros [= <- <-]; cbn; rewrite ?lookup_insert_eq; done.
Qed.

End Calls.
End ClientCalls.
