(* ===== verification/ClientDaemon.v ===== *)
(** The daemon at the other end of the client's socket: the IPC server of
    src/ipc/server.cpp with the control handler of src/control/control.cpp in front of the
    daemon's services.  It is an instance of [ControlPeer], so what is proved of the
    client library against that interface holds of the client and the daemon together. *)

From S2P Require Import Prelude Wire ObjectIdentity SharedRing Descriptors Protocol Adapter IpcSession.
From S2P Require Import Control DeviceContext PdMrCq Qp ControlSpec ControlRefine ControlPlane ControlInts.
From S2P Require Import ClientControl ClientRuntime ClientHandles ClientCalls.
Import Wire Descriptors Protocol Adapter Control ControlHandler CudaIpc PdMrCq Qp DeviceContext ControlSpec
  ControlRefine ControlHandlers ControlPlane ControlInts ClientControl.

Module ClientDaemon.

(** What the system answers when the client connects or calls once: the descriptor or the
    [errno] of [socket], and the [errno] of [::connect], of the client's [sendmsg], of the
    server's [recvmsg] and [sendmsg] and of the client's [recvmsg], if it fails.  A packet of
    the socket is transferred whole or not at all. *)
Record SocketAnswers := mkSocketAnswers {
  socket_answer : result Z; connect_failed : option Z; send_failed : option Z;
  read_failed : option Z; reply_failed : option Z; receive_failed : option Z;
}.
Definition all_well (fd : Z) : SocketAnswers := mkSocketAnswers (Ok fd) None None None None None.

Definition errno_set (o : option Z) : Prop := ∀ e, o = Some e → e ≠ 0.
Record answers_sane (a : SocketAnswers) : Prop := {
  as_socket : match socket_answer a with Ok fd => 0 <= fd | Err e => e ≠ 0 end;
  as_errno : Forall errno_set [connect_failed a; send_failed a; read_failed a; reply_failed a; receive_failed a];
}.

(** The server, the services, the server's end of the client's socket, the number of the
    next descriptor [accept4] returns, and the answers of the system to the client's and
    the server's calls on the socket, with the number of those used. *)
Record Daemon (M : Type) := mkDaemon {
  server : IpcSession.IpcServer; service : QpService M; socket : Z; next_fd : Z;
  socket_answers : nat → SocketAnswers; socket_calls : nat;
}.
Arguments mkDaemon {M} _ _ _ _ _ _.
Arguments server {M} _.
Arguments service {M} _.
Arguments socket {M} _.
Arguments next_fd {M} _.
Arguments socket_answers {M} _ _.
Arguments socket_calls {M} _.

(** * Requests that decode *)

Lemma read_indices_u32 p n offset indices offset' :
  read_indices p offset n = Some (indices, offset') → Forall is_u32 indices.
Proof.
  revert offset indices offset'. induction n as [|n IH]; intros offset indices offset'; cbn.
  { intros [= <- <-]. constructor. }
  destruct (read p offset 4) as [[x o]|]; cbn; [|done].
  destruct (read_indices p o n) as [[l o']|] eqn:E; cbn; [|done]. intros [= <- <-].
  constructor; [apply htonl_u32|by eapply IH].
Qed.

Lemma decode_request_ok m r fds : decode_request m = Ok (r, fds) → request_ok r.
Proof.
  unfold decode_request. destruct (_ || _); [done|]. destruct (_ || _); [done|].
  destruct (_ ≫= _) as [[[[[[[[v rs] oid] len] acc] os] ic] off]|]; [|done].
  destruct (_ || _); [done|]. destruct (_ || _); [done|].
  destruct (read_indices _ _ _) as [[indices o]|] eqn:E; [|done]. destruct (negb _); [done|].
  intros [<- <-]%Ok_pair_inj. split; cbn; [apply host_to_network64_u64|apply host_to_network64_u64|apply htonl_u32|].
  by eapply read_indices_u32.
Qed.

Section Daemon.
Context {M : Type} `{!CudaIpcMemoryBackend M} `{!CudaIpcMemoryLaws M}.
Implicit Types (d : Daemon M) (l : Link (Daemon M)).

Definition answers_now d : SocketAnswers := socket_answers d (socket_calls d).
Definition next_answers d (srv : IpcSession.IpcServer) (svc : QpService M) (fd next : Z) : Daemon M :=
  mkDaemon srv svc fd next (socket_answers d) (S (socket_calls d)).

(** The event of a packet of the client, and what the server does. *)
Definition packet_event d (p : Packet) : IpcSession.PollEvent :=
  IpcSession.mkEvent (socket d) true false false
    (match read_failed (answers_now d) with
     | Some e => recv_failed e
     | None => delivered (packet_bytes p) false (rights (packet_fds p))
     end)
    (match reply_failed (answers_now d) with Some e => λ _, Err e | None => IpcSession.send_all end).
Definition served d (p : Packet) := IpcSession.serve_event (server d) (service d) (packet_event d p).

(** The client is gone: its socket hangs up. *)
Definition hangup d :=
  IpcSession.serve_event (server d) (service d)
    (IpcSession.mkEvent (socket d) false false true (recv_failed 0) IpcSession.send_all).

(** A client that connects is accepted after the end of its last connection was seen.  A
    packet that was not sent does not reach the server; a reply the server could not send
    does not reach the client, for which the connection is then at its end. *)
#[export] Instance daemon_peer : IpcPeer (Daemon M) := {|
  dial d path :=
    let a := answers_now d in
    let unreached := next_answers d (server d) (service d) (socket d) (next_fd d) in
    match socket_answer a, connect_failed a with
    | Err e, _ => (unreached, Err e, 0)
    | Ok fd, Some e => (unreached, Ok fd, e)
    | Ok fd, None =>
        if bool_decide (path = IpcSession.socket_path_ (server d)) then
          let '(srv, svc, _) := hangup d in
          let '(srv, _) := IpcSession.accept_ready_connections srv [Ok (next_fd d)] in
          (next_answers d srv svc (next_fd d) (next_fd d + 1), Ok fd, 0)
        else (unreached, Ok fd, ENOENT)
    end;
  peer_sendmsg d p := match send_failed (answers_now d) with Some e => Err e | None => IpcSession.send_all p end;
  peer_recvmsg d p :=
    match receive_failed (answers_now d), send_failed (answers_now d), reply_failed (answers_now d) with
    | Some e, _, _ => recv_failed e
    | None, None, None =>
        match (served d p).2 with
        | IpcSession.Reply _ q :: _ => delivered (packet_bytes q) false (rights (packet_fds q))
        | _ => delivered [] false []
        end
    | None, _, _ => delivered [] false []
    end;
  peer_next d p :=
    match send_failed (answers_now d) with
    | Some _ => next_answers d (server d) (service d) (socket d) (next_fd d)
    | None => let '(srv, svc, _) := served d p in next_answers d srv svc (socket d) (next_fd d)
    end;
|}.

(** * The services stay sound *)

Lemma control_handle_inv (s : QpService M) session m : inv s → inv (control_handle s session m).1.
Proof.
  intros Hi. unfold control_handle. destruct (decode_request m) as [[r fds]|e] eqn:E; [|done].
  apply decode_request_ok in E. pose proof (handle_outcome session r fds s Hi E) as Ho. cbn [serve].
  change (serve s session r fds) with (qp_handle s session r fds).
  destruct (qp_handle s session r fds) as [s' res]. apply outcome_inv in Ho; [|done].
  by destruct (encode_response _ _).
Qed.

Lemma close_session_inv srv (s : QpService M) fd : inv s → inv (IpcSession.close_session srv s fd).1.2.
Proof.
  intros Hi. unfold IpcSession.close_session. destruct (_ !! fd); [|done]. cbn. by apply disconnect_tables.
Qed.

Lemma serve_event_inv srv (s : QpService M) ev : inv s → inv (IpcSession.serve_event srv s ev).1.2.
Proof.
  intros Hi. unfold IpcSession.serve_event. destruct (_ !! _) as [session|]; [|done].
  assert (∀ s' acts b, inv s' → inv ((if (b : bool)
      then let '(srv, h, closing) := IpcSession.close_session srv s' (IpcSession.ev_fd ev) in (srv, h, acts ++ closing)
      else (srv, s', acts)).1.2)) as Hclose.
  { intros s' acts b Hi'. destruct b; [|done]. pose proof (close_session_inv srv s' (IpcSession.ev_fd ev) Hi').
    by destruct (IpcSession.close_session _ _ _) as [[srv' s''] closing]. }
  destruct (IpcSession.pollin ev); [|by apply Hclose].
  destruct (receive_message _ _).1 as [m| |e]; [|by apply Hclose..].
  pose proof (control_handle_inv s session m Hi) as Hh. cbn [handle ControlIpcHandler].
  destruct (control_handle s session m) as [s' answer]. 
  destruct (send_message _ _ _) as [st sent]. by apply Hclose.
Qed.

(** * Answered calls *)

Lemma received_ranges fd delivery m closed :
  receive_message fd delivery = (message m, closed) →
  is_u64 (request_id (envelope m)) ∧ is_u32 (method (envelope m)).
Proof.
  unfold receive_message. destruct (fd <? 0); [done|]. destruct delivery as [|bytes truncated control]; [done|].
  case_decide; [done|]. destruct (foldl _ _ _) as [descriptors invalid].
  destruct (invalid || _); [done|]. destruct (_ || _ || _); [done|]. destruct (_ || _ || _); [done|].
  intros E%(f_equal fst). cbn [fst] in E. injection E as <-. split; [apply host_to_network64_u64|apply htonl_u32].
Qed.

(** The request of a call on the wire. *)
Definition wire_request l (r : UgdrControlRequest) : IpcMessage :=
  IpcSession.request_message (ipc_ l) (rq_method r) (request_payload r) [].

Lemma call_answered l l' r value fds :
  link_connected l = true → control_call l r = (l', Ok (value, fds)) →
  ∃ m closed encoded, encode_request r [] = Ok encoded ∧
    receive_message (IpcSession.socket_ (ipc_ l)) (peer_recvmsg (peer l) (send_packet (wire_request l r)))
      = (message m, closed) ∧
    request_id (envelope m) = IpcSession.next_request_id_ (ipc_ l) ∧ method (envelope m) = rq_method r ∧
    decode_response m = Ok (value, fds) ∧ peer l' = peer_next (peer l) (send_packet (wire_request l r)).
Proof.
  intros Hc. unfold control_call. destruct (encode_request r []) as [encoded|e] eqn:Ee; [|done].
  pose proof (encode_request_ok _ _ _ Ee) as (Hm & _ & _ & _ & Hen).
  assert (payload encoded = request_payload r) as -> by (by rewrite Hen).
  assert (file_descriptors encoded = []) as -> by (by rewrite Hen).
  unfold IpcSession.call. fold (link_connected l). rewrite Hc, (proj2 (Z.eqb_neq _ _) Hm). cbn [negb andb].
  fold (wire_request l r). destruct (send_message _ _ _) as [st sent]. destruct (negb (st =? 0)); [done|].
  destruct (receive_message _ _) as [[m| |e] closed] eqn:Er; [|done..].
  destruct (_ || _ || _) eqn:Eb; [done|]. apply orb_false_iff in Eb as [Eb E3]. apply orb_false_iff in Eb as [_ E2].
  destruct (decode_response m) as [[v f]|e] eqn:Ed; [|done]. destruct (_ || _); [done|].
  intros E. injection E as <- <- <-. exists m, closed, encoded. bool_hyps. split_and!; try done.
Qed.

Lemma wire_request_sendable l r encoded :
  encode_request r [] = Ok encoded → is_u32 (rq_method r) → is_u64 (IpcSession.next_request_id_ (ipc_ l)) →
  sendable (wire_request l r).
Proof.
  intros (Hm & _ & _ & Hsz & _)%encode_request_ok Hu Hid. split; cbn; try done; try (by left); ulia.
Qed.

(** What the server hands to the handler decodes to the request. *)
Lemma wire_request_decodes l r encoded :
  encode_request r [] = Ok encoded → request_ok r →
  decode_request (mkMessage (set_lengths (wire_request l r)) (request_payload r) []) = Ok (r, []).
Proof.
  intros He Hr. rewrite <- (decode_encode_request _ _ _ Hr He).
  apply encode_request_ok in He as (_ & _ & _ & Hsz & ->). unfold decode_request.
  cbn [envelope payload file_descriptors method flags fd_count payload_length set_lengths wire_request
       IpcSession.request_message length Z.of_nat].
  unfold size, kMaxPayloadSize in *. by rewrite (u32_small (Z.of_nat (length (request_payload r)))) by ulia.
Qed.

(** A reply that was handed to the kernel is received whole. *)
Lemma sent_reply fd e answer st q :
  is_u32 (method e) → is_u64 (request_id e) → is_int (status (envelope answer)) →
  send_message IpcSession.send_all fd (IpcSession.reply_message e (Some answer)) = (st, Some q) →
  st = 0 ∧ q = send_packet (IpcSession.reply_message e (Some answer)) ∧
  sendable (IpcSession.reply_message e (Some answer)).
Proof.
  intros Hm Hid Hst. set (reply := IpcSession.reply_message e (Some answer)).
  unfold send_message. destruct (_ || _ || _ || _) eqn:Eb; [done|]. destruct (forallb _ _) eqn:Ef; [|done].
  bool_hyps. assert (sendable reply) as Hs.
  { split; try done; [|by right]. apply Forall_forall. intros x Hx%list_elem_of_In.
    by apply Z.leb_le, (proj1 (forallb_forall _ _) Ef). }
  unfold IpcSession.send_all. cbn [negb packet_bytes send_packet].
  rewrite length_app, length_encode_header, Nat2Z.inj_add, Z.eqb_refl. by intros [= <- <-].
Qed.

(** What the control handler answers to a request that decodes. *)
Lemma control_handle_answer (s : QpService M) session m r :
  decode_request m = Ok (r, []) → method (envelope m) = rq_method r →
  ∃ s' res answer, qp_handle s session r [] = (s', res) ∧ control_handle s session m = (s', answer) ∧
    (encode_response (with_method (response res) (rq_method r)) (result_fds res) = Ok answer ∨
     ∃ st, is_int st ∧ answer = status_message (rq_method r) st).
Proof.
  intros Hd Hm. unfold control_handle. rewrite Hd, Hm. cbn [serve qp_control_service].
  destruct (qp_handle s session r []) as [s' res]. exists s', res.
  destruct (encode_response _ _) as [answer|e] eqn:Ee; eexists; (split_and!; [done|done|]); [by left|right].
  exists (- e). split; [|done]. unfold encode_response in Ee.
  destruct (_ || _ || _); [injection Ee as <-; by vm_compute|]. unfold validate_lengths in Ee.
  destruct (_ || _ || _); [injection Ee as <-; by vm_compute|].
  destruct (_ <? _); [injection Ee as <-; by vm_compute|done].
Qed.

Lemma status_message_undecodable e method st m :
  decode_response (mkMessage (set_lengths (IpcSession.reply_message e (Some (status_message method st)))) [] []) ≠ Ok m.
Proof. unfold decode_response. by destruct (_ || _). Qed.

(** The reply to a request, as the client decodes it. *)
Lemma reply_decodes e res answer method' :
  encode_response (with_method (response res) method') (result_fds res) = Ok answer → method e = method' →
  is_u64 (rs_object_identity (response res)) → Forall is_u32 (rs_fd_indices (response res)) →
  decode_response (mkMessage (set_lengths (IpcSession.reply_message e (Some answer))) (payload answer)
                     (file_descriptors answer))
  = Ok (with_method (response res) method', result_fds res).
Proof.
  intros Ha Hm Hid Hix. rewrite <- (decode_stamped _ _ _ e Ha Hid Hix Hm). unfold answered. f_equal.
  apply encode_response_ok in Ha as (_ & Hf & _ & Hsz & ->).
  unfold set_lengths, IpcSession.reply_message.
  cbn [envelope payload file_descriptors magic version_major version_minor method flags request_id status
       payload_length fd_count].
  unfold size, kMaxPayloadSize, kMaxFileDescriptors in *.
  rewrite (u32_small (Z.of_nat (length (response_payload _)))), (u32_small (Z.of_nat (length (result_fds res)))) by ulia.
  done.
Qed.

(** What the server does with a request: it answers, or it ends the session. *)
Lemma served_cases d l r encoded session :
  inv (service d) → IpcSession.connections_ (server d) !! socket d = Some session →
  encode_request r [] = Ok encoded → request_ok r →
  is_u32 (rq_method r) → is_u64 (IpcSession.next_request_id_ (ipc_ l)) →
  reply_failed (answers_now d) = None →
  (∃ srv s acts, (∀ fd q rest, acts ≠ IpcSession.Reply fd q :: rest) ∧
     served d (send_packet (wire_request l r)) = (srv, s, acts)) ∨
  (∃ s' res answer, qp_handle (service d) session r [] = (s', res) ∧
     (encode_response (with_method (response res) (rq_method r)) (result_fds res) = Ok answer ∨
      ∃ st, answer = status_message (rq_method r) st) ∧
     let reply := IpcSession.reply_message (set_lengths (wire_request l r)) (Some answer) in
     sendable reply ∧
     served d (send_packet (wire_request l r)) =
       (server d, s', [IpcSession.Reply (socket d) (send_packet reply)])).
Proof.
  intros Hi Hconn He Hr Um Uid Hreply. pose proof (wire_request_sendable l r encoded He Um Uid) as Hsend.
  assert (∀ (s : QpService M), ∃ srv s', IpcSession.close_session (server d) s (socket d) =
    (srv, s', [IpcSession.Disconnected session])) as Hclose.
  { intros s. unfold IpcSession.close_session. rewrite Hconn. eauto. }
  unfold served, IpcSession.serve_event.
  cbn [packet_event IpcSession.ev_fd IpcSession.pollin IpcSession.pollerr_or_nval IpcSession.pollhup
       IpcSession.ev_delivery IpcSession.ev_sendmsg packet_fds].
  rewrite Hconn, Hreply. change (packet_fds (send_packet (wire_request l r))) with (@nil Z).
  assert (∀ e, ∃ srv s acts, (∀ fd q rest, acts ≠ IpcSession.Reply fd q :: rest) ∧
    (let '(h, acts, should_close) := (service d, [], false || negb (e =? EAGAIN)) in
     let should_close := should_close || false in
     if should_close then let '(s, h, closing) := IpcSession.close_session (server d) h (socket d) in (s, h, acts ++ closing)
     else (server d, h, acts)) = (srv, s, acts)) as Hunread.
  { intros e. cbn [orb]. destruct (negb _); cbn [orb]; [|by exists (server d), (service d), []].
    destruct (Hclose (service d)) as (srv & s' & E). rewrite E. by eexists _, _, [IpcSession.Disconnected session]. }
  destruct (decide (0 <= socket d)) as [Hs|Hs].
  2:{ left. unfold receive_message. rewrite (proj2 (Z.ltb_lt _ 0)) by lia. cbn [fst]. apply Hunread. }
  destruct (read_failed (answers_now d)) as [e|].
  { left. unfold receive_message. rewrite (proj2 (Z.ltb_ge _ 0)) by done. cbn [fst]. apply Hunread. }
  rewrite (receive_whole (wire_request l r) [] (socket d)) by done. cbn [fst].
  change (payload (wire_request l r)) with (request_payload r).
  set (m := mkMessage _ _ _).
  destruct (control_handle_answer (service d) session m r) as (s' & res & answer & Hq & Hh & Hans);
    [by eapply wire_request_decodes|done|].
  cbn [handle ControlIpcHandler]. rewrite Hh. change (envelope m) with (set_lengths (wire_request l r)).
  assert (is_int (status (envelope answer))) as Hst.
  { destruct Hans as [Ha|(st & Hst & ->)]; [|done]. apply encode_response_ok in Ha as (_ & _ & _ & _ & ->).
    pose proof (qp_int (service d) session r [] (iv_kernel _ Hi)) as J. by rewrite Hq in J. }
  destruct (send_message _ _ _) as [st [q|]] eqn:Es.
  - apply sent_reply in Es as (-> & -> & Hsendable); [|done..]. right. exists s', res, answer.
    split_and!; [done| |done|done]. destruct Hans as [Ha|(st & _ & ->)]; eauto.
  - left. assert (st ≠ 0) as Hne.
    { unfold send_message in Es. destruct (_ || _ || _ || _); [injection Es as <-; done|].
      destruct (negb _); [injection Es as <-; done|]. by destruct (IpcSession.send_all _). }
    rewrite (proj2 (Z.eqb_neq _ _) Hne). cbn [orb negb].
    destruct (Hclose s') as (srv & s'' & E). rewrite E. by eexists _, _, [IpcSession.Disconnected session].
Qed.

Lemma daemon_answer l l' r value fds :
  inv (service (peer l)) → link_connected l = true → request_ok r → control_call l r = (l', Ok (value, fds)) →
  ∃ session res, IpcSession.connections_ (server (peer l)) !! socket (peer l) = Some session ∧
    qp_handle (service (peer l)) session r [] = (service (peer l'), res) ∧
    server (peer l') = server (peer l) ∧ socket (peer l') = socket (peer l) ∧
    value = with_method (response res) (rq_method r).
Proof.
  intros Hi Hc Hr Hcall.
  destruct (call_answered _ _ _ _ _ Hc Hcall) as (m & closed & encoded & He & Hrecv & Hid & Hm & Hdec & Hnext).
  destruct (received_ranges _ _ _ _ Hrecv) as [Uid Um]. rewrite Hid in Uid. rewrite Hm in Um.
  assert (0 <= IpcSession.socket_ (ipc_ l)) as Hfd by by apply Z.leb_le.
  assert (∀ x, receive_message (IpcSession.socket_ (ipc_ l)) (delivered [] false []) ≠ (message m, x)) as Heof.
  { intros x. unfold receive_message. by rewrite (proj2 (Z.ltb_ge _ 0)) by done. }
  cbn [peer_recvmsg peer_next daemon_peer] in Hrecv, Hnext.
  destruct (receive_failed _) as [e|].
  { unfold receive_message in Hrecv. by rewrite (proj2 (Z.ltb_ge _ 0)) in Hrecv by done. }
  destruct (send_failed _) as [e|]; [by apply Heof in Hrecv|].
  destruct (reply_failed _) as [e|] eqn:Hreply; [by apply Heof in Hrecv|].
  destruct (IpcSession.connections_ (server (peer l)) !! socket (peer l)) as [session|] eqn:Hconn.
  2:{ unfold served, IpcSession.serve_event in Hrecv.
      cbn [packet_event IpcSession.ev_fd] in Hrecv. rewrite Hconn in Hrecv. by apply Heof in Hrecv. }
  destruct (served_cases (peer l) l r encoded session Hi Hconn He Hr Um Uid Hreply)
    as [(srv & s & acts & Hacts & E)|(s' & res & answer & Hq & Hans & Hsend & E)]; rewrite E in Hrecv, Hnext; cbn [snd] in Hrecv.
  { destruct acts as [|[] acts]; try by apply Heof in Hrecv. by edestruct Hacts. }
  rewrite Hnext. cbn [service server socket next_answers]. exists session, res. split_and!; [done|done|done|done|].
  set (reply := IpcSession.reply_message _ _) in *.
  assert (mkMessage (set_lengths reply) (payload answer) (file_descriptors answer) = m) as Em.
  { pose proof (receive_whole reply (packet_fds (send_packet reply)) _ Hsend Hfd eq_refl) as Hw. rewrite Hw in Hrecv.
    exact (f_equal (λ x, match x.1 with message a => a | _ => m end) Hrecv). }
  rewrite <- Em in Hdec.
  pose proof (handle_outcome session r [] (service (peer l)) Hi Hr) as Ho. rewrite Hq in Ho.
  destruct Hans as [Ha|(st & ->)].
  - pose proof (reply_decodes (set_lengths (wire_request l r)) res answer (rq_method r) Ha eq_refl
      (oc_identity _ _ _ _ _ Ho) (oc_indices _ _ _ _ _ Ho)) as Hd.
    fold reply in Hd. rewrite Hd in Hdec. by apply Ok_pair_inj in Hdec as [<- _].
  - by apply status_message_undecodable in Hdec.
Qed.

Lemma dial_socket d path : (dial d path).1.2 = socket_answer (answers_now d).
Proof.
  cbn [dial daemon_peer]. destruct (socket_answer _) as [fd|e]; [|done]. destruct (connect_failed _) as [e|]; [done|].
  case_bool_decide; [|done]. destruct (hangup d) as [[srv s] acts].
  by destruct (IpcSession.accept_ready_connections _ _) as [srv' st].
Qed.

#[export] Program Instance daemon_control_peer : ControlPeer (Daemon M) M := {|
  peer_service := service;
  peer_session d := default 0 (IpcSession.connections_ (server d) !! socket d);
  peer_inv d := inv (service d) ∧ ∀ n, answers_sane (socket_answers d n);
|}.
Next Obligation. by intros d []. Qed.
Next Obligation.
  intros l l' r value fds [Hi _] Hc Hr E. destruct (daemon_answer _ _ _ _ _ Hi Hc Hr E) as (session & res & Hs & Hq & -> & -> & ->).
  split; [done|]. rewrite Hs. cbn. exists res. by rewrite Hq.
Qed.
Next Obligation.
  intros d p [Hi Ha]. cbn. destruct (send_failed _); [done|].
  pose proof (serve_event_inv (server d) (service d) (packet_event d p) Hi) as J. unfold served.
  by destruct (IpcSession.serve_event _ _ _) as [[srv s] acts].
Qed.
Next Obligation.
  intros d path [Hi Ha]. cbn [dial daemon_peer].
  destruct (socket_answer _) as [fd|e]; [|done]. destruct (connect_failed _) as [e|]; [done|]. case_bool_decide; [|done]. unfold hangup.
  match goal with |- context [IpcSession.serve_event ?a ?b ?c] => pose proof (serve_event_inv a b c Hi) as J;
    destruct (IpcSession.serve_event a b c) as [[srv s] acts] end.
  by destruct (IpcSession.accept_ready_connections _ _) as [srv' st].
Qed.
Next Obligation.
  intros d path fd [_ Ha] E. pose proof (as_socket _ (Ha (socket_calls d))) as S. fold (answers_now d) in S.
  rewrite dial_socket in E. by rewrite E in S.
Qed.
Next Obligation.
  intros d path e [_ Ha] E. pose proof (as_socket _ (Ha (socket_calls d))) as S. fold (answers_now d) in S.
  rewrite dial_socket in E. by rewrite E in S.
Qed.

(** * The client and the daemon together *)

Import ClientRuntime ClientHandles ClientCalls.

(** A daemon whose services have just started. *)
Definition started (srv : IpcSession.IpcServer) catalog (m : M) (k : Kernel) (fd next : Z)
    (answers : nat → SocketAnswers) : Daemon M :=
  mkDaemon srv (new_qp_service catalog m k) fd next answers 0.

(** (C5) What an application's handles mean, from the client library down to the daemon's
    tables and through both codecs and the socket.  Start the daemon and the client; let
    the application make any calls of the API in any order, while its 64-bit connection
    epoch has not been used up, with any outcomes of the system calls of both sides
    (connections that fail, packets that are not sent, read, answered or received, rings
    that cannot be created or mapped), and let other sessions send any requests or end in
    between.  Whenever the client is connected, every live handle of the current connection (context,
    protection domain, memory region, completion queue, queue pair) names an object of
    that kind in the daemon that belongs to this client's session, and no two live
    handles name the same object. *)
Theorem client_handles_live configured catalog (m : M) k srv fd next answers kn (rt : Runtime (Daemon M)) :
  kernel_sane k → (∀ n, answers_sane (answers n)) →
  rtc (client_step configured) (new_runtime (unconnected (started srv catalog m k fd next answers) kn)) rt →
  link_connected (client_ rt) = true →
  (∀ kind p id, proxy rt kind p = Some (true, epoch_ (client_ rt), id) →
     owner (tables (service (peer (client_ rt)))) kind id = Some (link_session (client_ rt))) ∧
  (∀ kind p q id, proxy rt kind p = Some (true, epoch_ (client_ rt), id) →
     proxy rt kind q = Some (true, epoch_ (client_ rt), id) → p = q).
Proof.
  intros Hk Ha Hr Hc. refine (handles_live configured _ kn rt _ Hr Hc). split; [by apply new_service_inv|exact Ha].
Qed.

(** (C35) While a connection is current, a handle of an earlier one is refused without a
    request: its release answers [EINVAL], the daemon (server, sessions and services) is untouched, and the
    handle is dead afterwards, so that a second release is refused as well. *)
Theorem stale_handle_refused configured kind (rt : Runtime (Daemon M)) p e id rt' st :
  link_connected (client_ rt) = true → proxy rt kind p = Some (true, e, id) → e ≠ epoch_ (client_ rt) →
  release_handle configured kind rt p = (rt', st) →
  st = EINVAL ∧ peer (client_ rt') = peer (client_ rt) ∧ ipc_ (client_ rt') = ipc_ (client_ rt) ∧
  proxy rt' kind p = Some (false, e, id) ∧ release_handle configured kind rt' p = (rt', EINVAL).
Proof. apply stale_handle_refused_by_peer. Qed.

End Daemon.

(** * A client at work *)

Section Demo.
Import Ring ClientRuntime ClientHandles ClientCalls.

Definition demo_stride (r : result Z) : Z := match r with Ok n => n | Err _ => 0 end.
Definition demo_mapped (d : QueueDescriptor) : RingSystem * SharedRingHeader :=
  let size := demo_stride (shared_ring_mapping_size d 4096) in
  (mkSystem (Ok 4096) (Ok 0) 0 0 0 (Ok size), created_header d size).
Definition demo_client_kernel : ClientKernel :=
  mkClientKernel (λ n, match n with
    | 0%nat => demo_mapped (mkDescriptor completion 8 completion_slot_stride)
    | 1%nat => demo_mapped (mkDescriptor send 8 (demo_stride (send_slot_stride 2)))
    | _ => demo_mapped (mkDescriptor receive 8 (demo_stride (receive_slot_stride 2)))
    end) 0 (mkResources ∅ 0).
Definition demo_listener : IpcSession.IpcServer :=
  IpcSession.mkServer 4 ∅ kDefaultDaemonSocket 0 0 1 true.
(** The first attempt to connect is refused and the request after the sixth is not sent; all else
    succeeds. *)
Definition demo_answers (n : nat) : SocketAnswers :=
  match n with
  | 0%nat => mkSocketAnswers (Ok 3) (Some 111) None None None None
  | 8%nat => mkSocketAnswers (Ok 3) None (Some 32) None None None
  | _ => all_well 3
  end.
Lemma demo_answers_sane n : answers_sane (demo_answers n).
Proof. do 9 (destruct n as [|n]; [split; [done|by repeat constructor; intros ? [= <-]]|]). split; [done|by repeat constructor]. Qed.

Definition demo_daemon : Daemon nat :=
  started demo_listener default_catalog 0%nat demo_kernel (-1) 8 demo_answers.

(** The application cannot list the devices at first, then does; it opens one, and creates
    a domain, a completion queue, a queue pair and a region. *)
Definition app0 : Runtime (Daemon nat) := new_runtime (unconnected demo_daemon demo_client_kernel).
Definition refused := (get_device_list None app0).1.
Definition app1 := (get_device_list None refused).1.
Definition app2 := (open_device None app1 1).1.
Definition app3 := (alloc_pd None app2 3).1.
Definition app4 := (create_cq None app3 3 8 0 0 0).1.
Definition app5 := (create_qp None app4 4 (mkInitAttr 5 5 8 8 2 2 UGDR_QPT_RC 0)).1.
Definition app6 := (reg_mr None (λ _ _, Ok demo_memory) app5 4 1 1 1).1.

Lemma first_of {A B} (x : A * B) : x = (x.1, x.2).
Proof. by destruct x. Qed.

Lemma app6_reachable : rtc (client_step None) app0 app6.
Proof.
  apply (rtc_l _ _ refused); [apply step_call; [by vm_compute|]; eapply call_get_device_list, first_of|].
  apply (rtc_l _ _ app1); [apply step_call; [by vm_compute|]; eapply call_get_device_list, first_of|].
  apply (rtc_l _ _ app2); [apply step_call; [by vm_compute|]; eapply call_open_device, first_of|].
  apply (rtc_l _ _ app3); [apply step_call; [by vm_compute|]; eapply call_alloc_pd, first_of|].
  apply (rtc_l _ _ app4); [apply step_call; [by vm_compute|]; eapply call_create_cq, first_of|].
  apply (rtc_l _ _ app5); [apply step_call; [by vm_compute|]; eapply call_create_qp, first_of|].
  apply rtc_once, step_call; [by vm_compute|].
  eapply call_reg_mr; [| |apply first_of]; [by vm_compute|]. intros m [= <-]. by vm_compute.
Qed.

Lemma client_handles_live_witness :
  owner (tables (service (peer (client_ app6)))) a_qp 360287970206416896 = Some (link_session (client_ app6)) ∧
  owner (tables (service (peer (client_ app6)))) an_mr 216172782130561024 = Some (link_session (client_ app6)).
Proof.
  assert (link_connected (client_ app6) = true) as Hc by by vm_compute.
  assert (proxy app6 a_qp 6 = Some (true, epoch_ (client_ app6), 360287970206416896)) as Hq by by vm_compute.
  assert (proxy app6 an_mr 7 = Some (true, epoch_ (client_ app6), 216172782130561024)) as Hm by by vm_compute.
  destruct (client_handles_live None default_catalog 0%nat demo_kernel demo_listener (-1) 8 demo_answers demo_client_kernel
    app6 demo_kernel_sane demo_answers_sane app6_reachable Hc) as [Hl _].
  split; [exact (Hl a_qp 6 _ Hq)|exact (Hl an_mr 7 _ Hm)].
Defined.

(** A packet cannot be sent, so the client gives the connection up; the next call opens a
    new one. *)
Definition lost := (get_device_list None app6).1.
Definition app7 := (get_device_list None lost).1.

Lemma stale_handle_refused_witness : (release_handle None a_qp app7 6).2 = EINVAL.
Proof.
  assert (link_connected (client_ lost) = false) as _ by by vm_compute.
  assert (link_connected (client_ app7) = true) as Hc by by vm_compute.
  assert (proxy app7 a_qp 6 = Some (true, 1, 360287970206416896)) as Hq by by vm_compute.
  assert (1 ≠ epoch_ (client_ app7)) as He by by vm_compute.
  exact (proj1 (stale_handle_refused None a_qp app7 6 1 _ _ _ Hc Hq He (first_of _))).
Defined.

End Demo.
End ClientDaemon.
