(* ===== verification/Daemon.v ===== *)
(** The programs (apps).  The daemon (apps/daemon/main.cpp): the choice of the socket, and
    the server loop over the IPC server, the control handler and the services, until a
    signal or a failed poll ends it.  While it runs, every object belongs to a session with
    a live connection; when it ends, nothing is left.  The client (apps/client/main.cpp)
    lists the devices. *)

From S2P Require Import Prelude Wire SharedRing Protocol Adapter IpcSession Control DeviceContext PdMrCq Qp.
From S2P Require Import ControlSpec ControlRefine ControlPlane ControlRings ClientControl ClientRuntime.
From S2P Require Import ClientHandles ClientDaemon.
Import Wire Protocol Adapter Control ControlHandler CudaIpc PdMrCq Qp DeviceContext ControlSpec ControlRefine
  ControlHandlers ControlPlane ControlRings ClientHandles ClientDaemon.

Module DaemonMain.
Import IpcSession.

(** * The program *)

(** One round of the loop: what [poll] answers, what [accept4] gives, the sockets with
    something to do, and whether a signal has asked to stop by the end of the round. *)
Record Round := mkRound {
  r_ready : result Z; r_listener : bool; r_accepts : list (result Z); r_events : list PollEvent;
  r_signal : bool;
}.

(** The program has ended, or waits for the next round. *)
Inductive Outcome := exited (code : Z) | serving.

Definition new_server : IpcServer := mkServer (-1) ∅ [] 0 0 1 false.

Section Program.
Context {M : Type} `{!CudaIpcMemoryBackend M}.

(** The [while] loop. *)
Fixpoint serve_loop (stop_requested : bool) (srv : IpcServer) (svc : QpService M) (rounds : list Round)
  : IpcServer * QpService M * Outcome :=
  if stop_requested then (srv, svc, exited 0)
  else match rounds with
  | [] => (srv, svc, serving)
  | r :: rounds =>
      let '(srv, svc, _, poll_status) :=
        poll_once srv svc (r_ready r) (r_listener r) (r_accepts r) (r_events r) in
      if negb (poll_status =? 0) then (srv, svc, exited 1)
      else serve_loop (r_signal r) srv svc rounds
  end.

(** [run_server]; when it returns, the server is destroyed, which closes it.  [order] is
    the order in which the map of connections yields its sockets. *)
Definition run_server (order : gmap Z Z → list Z) (m : M) (k : Kernel) (socket_path : list byte)
    (sys : StartSystem) (rounds : list Round) (path : PathStatus)
  : IpcServer * QpService M * Outcome :=
  let svc := new_qp_service default_catalog m k in
  let '(srv, start_status) := start new_server socket_path sys in
  let '(srv, svc, outcome) :=
    if negb (start_status =? 0) then (srv, svc, exited 1) else serve_loop false srv svc rounds in
  match outcome with
  | serving => (srv, svc, serving)
  | exited code =>
      let '(srv, svc, _) := server_close srv svc (order (connections_ srv)) path in (srv, svc, exited code)
  end.
End Program.

(** "--socket" and "--help". *)
Definition socket_option : list byte :=
  [Byte.x2d; Byte.x2d; Byte.x73; Byte.x6f; Byte.x63; Byte.x6b; Byte.x65; Byte.x74].
Definition help_option : list byte := [Byte.x2d; Byte.x2d; Byte.x68; Byte.x65; Byte.x6c; Byte.x70].

(** [main]: the socket to serve on, or the exit code.  [args] are the arguments after the
    program's name, [configured] is UGDR_DAEMON_SOCKET. *)
Definition main (args : list (list byte)) (configured : option (list byte)) : list byte + Z :=
  match args with
  | [option; socket] => if decide (option = socket_option) then inl socket else inr 2
  | [option] => if decide (option = help_option) then inr 0 else inr 2
  | [] => inl (match configured with
               | Some (b :: path) => b :: path
               | _ => ClientRuntime.kDefaultDaemonSocket
               end)
  | _ => inr 2
  end.

(** * Sessions own every object *)

Section Owners.
Context {M : Type} `{!CudaIpcMemoryBackend M} `{!CudaIpcMemoryLaws M}.
Implicit Types (srv : IpcServer) (svc : QpService M).

Definition owned_by (ids : list Z) (t : Tables) : Prop :=
  ∀ kind id o, owner t kind id = Some o → o ∈ ids.

Lemma owner_same o t t' kind id : same_for o t t' → owner t' kind id = Some o → owner t kind id = Some o.
Proof.
  intros (S1 & S2 & S3 & S4 & S5). destruct kind; unfold owner, owners; intros ([o' v] & Hv & ->)%fmap_Some_1;
    apply fmap_Some; exists (o', v); (split; [|done]); cbn [fst] in *;
    [by apply S1|by apply S2|by apply S3|by apply S4|by apply S5].
Qed.

(** The services are sound, every object belongs to a live session, and besides [spare]
    mappings the process holds those of the rings of the objects. *)
Context (spare : Z).
Record daemon_inv srv svc : Prop := {
  di_inv : inv svc;
  di_owned : owned_by (sessions srv) (tables svc);
  di_rings : excess svc = spare;
}.

Lemma request_rings session m svc : inv svc → excess (control_handle svc session m).1 = excess svc.
Proof.
  intros Hi. unfold control_handle. destruct (decode_request m) as [[r fds]|e] eqn:E; [|done].
  apply decode_request_ok in E. cbn [serve]. change (serve svc session r fds) with (qp_handle svc session r fds).
  destruct (qp_handle svc session r fds) as [svc' res] eqn:Eh. apply handle_excess in Eh; [|done|done].
  by destruct (encode_response _ _).
Qed.

Lemma request_owned session m svc ids :
  inv svc → session ∈ ids → owned_by ids (tables svc) → owned_by ids (tables (control_handle svc session m).1).
Proof.
  intros Hi Hs Ho. unfold control_handle. destruct (decode_request m) as [[r fds]|e] eqn:E; [|done].
  apply decode_request_ok in E. cbn [serve]. change (serve svc session r fds) with (qp_handle svc session r fds).
  destruct (qp_handle svc session r fds) as [svc' res] eqn:Eh.
  assert (owned_by ids (tables svc')) as Ho'; [|by destruct (encode_response _ _)].
  intros kind id o Hown. destruct (decide (o = session)) as [->|Hn]; [done|].
  eapply Ho, owner_same; [by eapply handle_isolated|exact Hown].
Qed.

Lemma disconnect_owned session svc ids ids' :
  inv svc → ids ≡ₚ session :: ids' → owned_by ids (tables svc) →
  owned_by ids' (tables (qp_disconnect svc session)).
Proof.
  intros Hi Hp Ho kind id o. destruct (disconnect_tables session svc Hi) as [_ ->]. intros Hown.
  assert (o ≠ session ∧ owner (tables svc) kind id = Some o) as [Hn Hown'].
  { destruct kind; unfold owner, owners, disconnected in Hown |- *; cbn in Hown;
      apply fmap_Some_1 in Hown as ([o' v] & Hv%others_Some & ->); (split; [apply Hv|]);
      apply fmap_Some; exists (o', v); (split; [apply Hv|done]). }
  apply Ho in Hown'. rewrite Hp in Hown'. by apply elem_of_cons in Hown' as [?|?].
Qed.

Lemma sessions_lookup srv fd id : connections_ srv !! fd = Some id → id ∈ sessions srv.
Proof.
  intros Hfd. unfold sessions. apply list_elem_of_fmap. exists (fd, id). split; [done|]. by apply elem_of_map_to_list.
Qed.

Lemma close_session_daemon srv svc fd :
  daemon_inv srv svc → daemon_inv (close_session srv svc fd).1.1 (close_session srv svc fd).1.2.
Proof.
  intros [Hi Ho Hr]. unfold close_session. destruct (connections_ srv !! fd) as [id|] eqn:Hfd; [|done].
  split; [by apply disconnect_tables| |cbn; by rewrite disconnect_excess]. apply (disconnect_owned id svc (sessions srv)); [done| |done].
  unfold sessions. cbn [connections_ fst]. by rewrite <- (map_to_list_delete _ _ _ Hfd).
Qed.

Lemma serve_event_daemon srv svc ev :
  daemon_inv srv svc → daemon_inv (serve_event srv svc ev).1.1 (serve_event srv svc ev).1.2.
Proof.
  intros D. unfold serve_event. destruct (connections_ srv !! ev_fd ev) as [session|] eqn:Hfd; [|done].
  apply sessions_lookup in Hfd.
  assert (∀ svc' acts b, daemon_inv srv svc' → let x := (if (b : bool)
      then let '(s, h, closing) := close_session srv svc' (ev_fd ev) in (s, h, acts ++ closing)
      else (srv, svc', acts)) in daemon_inv x.1.1 x.1.2) as Hclose.
  { intros svc' acts b D'. destruct b; [|done]. pose proof (close_session_daemon srv svc' (ev_fd ev) D').
    by destruct (close_session _ _ _) as [[? ?] ?]. }
  destruct (pollin ev); [|by apply Hclose]. destruct (receive_message _ _).1 as [m| |e]; [|by apply Hclose..].
  assert (daemon_inv srv (control_handle svc session m).1) as D'.
  { destruct D as [Hi Ho Hr]. split; [by apply control_handle_inv|by apply request_owned|by rewrite request_rings]. }
  cbn [handle ControlIpcHandler]. destruct (control_handle svc session m) as [svc' answer].
  destruct (send_message _ _ _) as [st sent]. by apply Hclose.
Qed.

Lemma serve_events_daemon events srv svc :
  daemon_inv srv svc → daemon_inv (serve_events srv svc events).1.1 (serve_events srv svc events).1.2.
Proof.
  revert srv svc. induction events as [|ev events IH]; intros srv svc D; cbn [serve_events]; [done|].
  apply (serve_event_daemon srv svc ev) in D. destruct (serve_event srv svc ev) as [[srv1 svc1] acts]. cbn [fst snd] in D.
  apply IH in D. by destruct (serve_events srv1 svc1 events) as [[? ?] ?].
Qed.

Lemma close_sessions_daemon order srv svc :
  daemon_inv srv svc → daemon_inv (close_sessions srv svc order).1.1 (close_sessions srv svc order).1.2.
Proof.
  revert srv svc. induction order as [|fd order IH]; intros srv svc D; cbn [close_sessions]; [done|].
  apply (close_session_daemon srv svc fd) in D. destruct (close_session srv svc fd) as [[srv1 svc1] acts]. cbn [fst snd] in D.
  apply IH in D. by destruct (close_sessions srv1 svc1 order) as [[? ?] ?].
Qed.

(** New connections only add sessions. *)
Lemma accept_grows accepts srv : sessions srv ⊆ sessions (accept_ready_connections srv accepts).1.
Proof.
  revert srv. induction accepts as [|[fd|e] accepts IH]; intros srv; cbn [accept_ready_connections]; [done| |].
  - etrans; [|apply IH]. destruct (connections_ srv !! fd) eqn:Hfd; [done|]. unfold sessions. cbn.
    rewrite map_to_list_insert by done. cbn. set_solver.
  - destruct (e =? EAGAIN); [done|]. destruct (e =? EINTR); [apply IH|done].
Qed.

Lemma poll_daemon srv svc ready listener accepts events :
  let x := poll_once srv svc ready listener accepts events in
  daemon_inv srv svc → daemon_inv x.1.1.1 x.1.1.2.
Proof.
  intros x D. unfold x, poll_once. destruct (negb (running srv)); [done|]. destruct ready as [n|e]; [|done].
  destruct (n =? 0); [done|]. destruct (if listener then _ else _) as [srv1 st] eqn:Ea.
  assert (daemon_inv srv1 svc) as D1.
  { destruct listener; [|by injection Ea as <- _]. pose proof (accept_grows accepts srv) as G. rewrite Ea in G.
    destruct D as [Hi Ho Hr]. split; [done| |done]. intros kind id o Hown. by eapply G, Ho. }
  destruct (negb (st =? 0)); [done|]. apply (serve_events_daemon events) in D1.
  by destruct (serve_events srv1 svc events) as [[? ?] ?].
Qed.

Lemma loop_daemon rounds stop srv svc :
  daemon_inv srv svc → daemon_inv (serve_loop stop srv svc rounds).1.1 (serve_loop stop srv svc rounds).1.2.
Proof.
  revert stop srv svc. induction rounds as [|r rounds IH]; intros stop srv svc D; cbn [serve_loop]; destruct stop; try done.
  pose proof (poll_daemon srv svc (r_ready r) (r_listener r) (r_accepts r) (r_events r) D) as D1.
  destruct (poll_once _ _ _ _ _ _) as [[[srv1 svc1] acts] st]. cbn [fst snd] in D1.
  destruct (negb (st =? 0)); [done|]. by apply IH.
Qed.

Lemma start_sessions path sys : connections_ (start new_server path sys).1 = ∅.
Proof. unfold start, remove_socket_path. by repeat case_match. Qed.

(** Closing the server ends every session. *)
Lemma close_daemon order srv svc path :
  order ≡ₚ (map_to_list (connections_ srv)).*1 → daemon_inv srv svc →
  let x := server_close srv svc order path in
  sessions x.1.1 = [] ∧ running x.1.1 = false ∧ daemon_inv x.1.1 x.1.2.
Proof.
  intros Ho D x. unfold x, server_close. pose proof (close_sessions_daemon order srv svc D) as D1.
  destruct (close_sessions srv svc order) as [[srv1 svc1] acts] eqn:E. cbn [fst snd] in D1.
  apply close_sessions_all in E as [_ Hc].
  assert (connections_ srv1 = ∅) as He.
  { apply map_eq. intros fd. rewrite Hc, lookup_empty. case_decide as Hin; [done|].
    apply eq_None_not_Some. intros [id Hid]. apply Hin. rewrite Ho. apply list_elem_of_fmap.
    exists (fd, id). split; [done|]. by apply elem_of_map_to_list. }
  assert (sessions srv1 = []) as Hs by (unfold sessions; by rewrite He, map_to_list_empty).
  cbn. split_and!; [unfold sessions; cbn; by rewrite He, map_to_list_empty|done|].
  destruct D1 as [I1 O1 R1]. split; [done| |done]. unfold sessions at 1. cbn. rewrite He, map_to_list_empty.
  by rewrite Hs in O1.
Qed.

(** Without sessions there are no objects. *)
Definition no_objects (t : Tables) : Prop := ctxs t = ∅ ∧ pds t = ∅ ∧ mrs t = ∅ ∧ cqs t = ∅ ∧ qps t = ∅.

Lemma owned_by_none t : owned_by [] t → no_objects t.
Proof.
  intros Ho. assert (∀ V (m : gmap Z (Z * V)) kind, (∀ id, owner t kind id = owners m id) → m = ∅) as Hm.
  { intros V m kind Hk. apply map_eq. intros id. rewrite lookup_empty. destruct (m !! id) as [[o v]|] eqn:E; [|done].
    exfalso. apply (elem_of_nil o), (Ho kind id). rewrite Hk. unfold owners. by rewrite E. }
  split_and!; [by apply (Hm _ _ a_context)|by apply (Hm _ _ a_pd)|by apply (Hm _ _ an_mr)|by apply (Hm _ _ a_cq)|
    by apply (Hm _ _ a_qp)].
Qed.

End Owners.

Section Properties.
Context {M : Type} `{!CudaIpcMemoryBackend M} `{!CudaIpcMemoryLaws M}.
Context (order : gmap Z Z → list Z) (Horder : ∀ m, order m ≡ₚ (map_to_list m).*1).

Lemma run_daemon (m : M) k path sys rounds unlink :
  kernel_sane k →
  let '(srv, svc, outcome) := run_server order m k path sys rounds unlink in
  daemon_inv (mapped k) srv svc ∧ (outcome ≠ serving → sessions srv = [] ∧ running srv = false).
Proof.
  intros Hk. unfold run_server. pose proof (start_sessions path sys) as Hc.
  destruct (start new_server path sys) as [srv st]. cbn [fst] in Hc.
  assert (daemon_inv (mapped k) srv (new_qp_service default_catalog m k)) as D0.
  { split; [by apply new_service_inv|by intros [] id o|]. unfold excess, rings_held. cbn.
    unfold total. rewrite !map_to_list_empty. cbn. lia. }
  set (x := if negb (st =? 0) then _ else _).
  assert (daemon_inv (mapped k) x.1.1 x.1.2) as D1 by (unfold x; case_match; [done|by apply loop_daemon]).
  destruct x as [[srv1 svc1] [code|]]; cbn [fst snd] in D1; [|by split].
  destruct (close_daemon (mapped k) (order (connections_ srv1)) srv1 svc1 unlink (Horder _) D1) as (C1 & C2 & C3).
  destruct (server_close _ _ _ _) as [[srv2 svc2] acts]. by split.
Qed.

(** (C6) While the daemon serves, whatever the sockets deliver and the system answers, and
    however many sessions come and go: the object graph has integrity, every object
    belongs to a session with a live connection, and the process holds exactly the
    mappings it started with and those of the rings of its live completion queues and
    queue pairs, so that no failed request and no ended session leaks one. *)
Theorem daemon_objects_live (m : M) k path sys rounds unlink :
  kernel_sane k →
  let '(srv, svc, _) := run_server order m k path sys rounds unlink in
  integrity (tables svc) ∧
  (∀ kind id session, owner (tables svc) kind id = Some session → session ∈ sessions srv) ∧
  mapped (kernel_ (base_ svc)) = mapped k + rings_held (tables svc).
Proof.
  intros Hk. pose proof (run_daemon m k path sys rounds unlink Hk) as D.
  destruct (run_server _ _ _ _ _ _ _) as [[srv svc] outcome]. destruct D as [[Hi Ho Hr] _].
  split; [by apply iv_integrity|]. split; [done|]. unfold excess in Hr. lia.
Qed.

(** (C7) However the daemon ends, by a signal or by a failure to start or to poll, nothing
    is left behind: no session, no listener, no object of any kind, and no ring mapping
    beyond those it started with. *)
Theorem daemon_exit_clean (m : M) k path sys rounds unlink code :
  kernel_sane k →
  let '(srv, svc, outcome) := run_server order m k path sys rounds unlink in
  outcome = exited code →
  sessions srv = [] ∧ running srv = false ∧ no_objects (tables svc) ∧ mapped (kernel_ (base_ svc)) = mapped k.
Proof.
  intros Hk. pose proof (run_daemon m k path sys rounds unlink Hk) as D.
  destruct (run_server _ _ _ _ _ _ _) as [[srv svc] outcome]. destruct D as [[Hi Ho Hr] D2]. intros ->.
  destruct (D2 ltac:(done)) as [Hs Hrun]. rewrite Hs in Ho. apply owned_by_none in Ho.
  split_and!; [done|done|done|]. unfold excess, rings_held in Hr. destruct Ho as (_ & _ & _ & Eq & Ek).
  rewrite Eq, Ek in Hr. unfold total in Hr. rewrite !map_to_list_empty in Hr. cbn in Hr. lia.
Qed.
End Properties.

(** ** A run: two clients, one of which leaves *)

Section Demo.
#[local] Existing Instance fixed_memory.
#[local] Existing Instance fixed_memory_laws.

Definition demo_request (fd : Z) (r : UgdrControlRequest) : PollEvent :=
  let m := request_message (mkClient 3 1) (rq_method r) (request_payload r) [] in
  mkEvent fd true false false (delivered (packet_bytes (send_packet m)) false []) send_all.
Definition demo_hangup (fd : Z) : PollEvent := mkEvent fd false false true (recv_failed 0) send_all.
Definition demo_context : Z := demo_id 0.

Definition demo_rounds : list Round :=
  [mkRound (Ok 1) true [Ok 8; Ok 9] [] false;
   mkRound (Ok 2) false [] [demo_request 8 (make_create_context_request 1);
                            demo_request 9 (make_create_context_request 1)] false;
   mkRound (Ok 2) false [] [demo_request 8 (make_create_cq_request demo_context 4); demo_hangup 9] false].
Definition demo_system : StartSystem :=
  IpcSession.mkStart (lstat_failed ENOENT) (Ok 4) 0 (lstat_ok true 1 2) 0 (lstat_failed ENOENT).
Definition keys (m : gmap Z Z) : list Z := (map_to_list m).*1.

Definition demo_serving : IpcServer * QpService nat * Outcome :=
  run_server keys 0%nat demo_kernel ClientRuntime.kDefaultDaemonSocket demo_system demo_rounds
    (lstat_ok true 1 2).

Lemma daemon_objects_live_witness :
  sessions demo_serving.1.1 = [1] ∧ owner (tables demo_serving.1.2) a_context demo_context = Some 1 ∧
  mapped (kernel_ (base_ demo_serving.1.2)) = 1 ∧
  ∀ kind id session, owner (tables demo_serving.1.2) kind id = Some session → session ∈ sessions demo_serving.1.1.
Proof.
  pose proof (daemon_objects_live keys (λ m, Permutation_refl _) 0%nat demo_kernel ClientRuntime.kDefaultDaemonSocket
    demo_system demo_rounds (lstat_ok true 1 2) demo_kernel_sane) as D.
  assert (sessions demo_serving.1.1 = [1]) as E1 by (vm_compute; reflexivity).
  assert (owner (tables demo_serving.1.2) a_context demo_context = Some 1) as E2 by (vm_compute; reflexivity).
  assert (mapped (kernel_ (base_ demo_serving.1.2)) = 1) as E3 by (vm_compute; reflexivity).
  unfold demo_serving in *.
  destruct (run_server keys 0%nat demo_kernel _ demo_system demo_rounds _) as [[srv svc] outcome].
  cbn [fst snd] in *. destruct D as (_ & D & _). split; [exact E1|]. split; [exact E2|]. split; [exact E3|exact D].
Defined.

Definition demo_stopped : IpcServer * QpService nat * Outcome :=
  run_server keys 0%nat demo_kernel ClientRuntime.kDefaultDaemonSocket demo_system
    (demo_rounds ++ [mkRound (Err EINTR) false [] [] true]) (lstat_ok true 1 2).

Lemma daemon_exit_clean_witness :
  demo_stopped.2 = exited 0 ∧ sessions demo_stopped.1.1 = [] ∧ no_objects (tables demo_stopped.1.2) ∧
  mapped (kernel_ (base_ demo_stopped.1.2)) = 0.
Proof.
  pose proof (daemon_exit_clean keys (λ m, Permutation_refl _) 0%nat demo_kernel ClientRuntime.kDefaultDaemonSocket
    demo_system (demo_rounds ++ [mkRound (Err EINTR) false [] [] true]) (lstat_ok true 1 2) 0 demo_kernel_sane) as D.
  assert (demo_stopped.2 = exited 0) as E by (vm_compute; reflexivity). split; [exact E|].
  unfold demo_stopped in *. destruct (run_server keys 0%nat demo_kernel _ demo_system _ _) as [[srv svc] outcome].
  cbn [fst snd] in *. destruct (D E) as (D1 & _ & D2 & D3). split; [exact D1|]. split; [exact D2|exact D3].
Defined.
End Demo.
End DaemonMain.

Module ClientMain.
Import ClientControl ClientRuntime.
Section Client.
Context {D : Type} `{IpcPeer D} (configured : option (list byte)).

(** [main]: the runtime and the exit code.  [errno] is 0 before the call and the error
    after one that failed. *)
Definition client_main (rt : Runtime D) : Runtime D * Z :=
  match get_device_list configured rt with
  | (rt, Err errno) => (rt, if negb (errno =? 0) then 0 else 1)
  | (rt, Ok (devices, _)) => ((free_device_list rt devices).1, 0)
  end.

(** The list the program got is released when it ends. *)
Lemma client_main_releases rt rt' devices ps :
  get_device_list configured rt = (rt', Ok (devices, ps)) →
  lists_ (client_main rt).1 !! devices = Some (mkDeviceList ps false).
Proof.
  intros E. unfold client_main. rewrite E. revert E. unfold get_device_list.
  destruct (ensure_connected configured rt) as [rt1 st]. destruct (negb (st =? 0)); [done|].
  destruct (client_list_devices _) as [l [ds|e]]; [|done].
  destruct (add_devices _ _) as [rt2 qs]. intros [= <- <- <-].
  unfold free_device_list. cbn. rewrite lookup_insert_eq. cbn. by rewrite lookup_insert_eq.
Qed.
End Client.
End ClientMain.
